(* ===== verification/_CoqProject ===== *)
-Q . S2P
Prelude.v
Strings.v
Dom.v
Predicates.v
Data.v
Json.v
JsonTokens.v
JsonTheorems.v
Numbers.v
Chart.v
Effects.v
MicroStep.v
StepLemmas.v
Recorder.v
Legal.v
Complete.v
StepTheorems.v
EventQueue.v
Content.v
ContentTheorems.v
Base64.v
Serialize.v
Interpreter.v
Lifting.v
InterpreterTheorems.v
Persistence.v
Issue.v
IssueTheorems.v
CBits.v
CStep.v
CTables.v
CEntry.v
CRefine.v
CTheorems.v
CTransform.v
CRows.v
CContent.v
CContentTheorems.v
CSample.v
Trie.v
VhdlFifo.v
VhdlController.v
Vhdl.v
VhdlClock.v
VhdlTheorems.v
VhdlEntry.v
VhdlSystem.v
VhdlSample.v
DataOrder.v
Breakpoint.v
DebugSession.v
DebugTheorems.v
DebuggerServlet.v
Promela.v
PromelaTheorems.v
PmlQueue.v
PmlAnalyzer.v
PmlMachine.v
PmlTheorems.v
PmlRound.v
PmlTables.v
PmlSample.v
