(* ===== verification/Prelude.v ===== *)
(** * uSCXML: a verification library for the SCXML interpreter

    uSCXML reads a state chart (an SCXML document), interprets it, and can
    transform it to other languages. This library models the interpreter, the
    values and queues it works with, its debugger, and the transformers to C,
    to VHDL and to Promela, and proves what they compute. Paths below are relative to
    src/src/uscxml of the repository.

    ** How the program is put together

    The document is a DOM tree (util/DOM, util/Predicates). [FastMicroStep]
    (interpreter/FastMicroStep.cpp) compiles it once into two arrays, of states
    and of transitions, with bit sets for what depends on the document only,
    and then runs it one micro step at a time. What a step needs of its
    surroundings it asks for through callbacks: conditions, executable content,
    events, invocations, monitors. [InterpreterImpl] implements them. It owns an
    internal and an external queue, a queue of delayed events, the data model,
    the I/O processors and the invokers, and hands executable content to
    [BasicContentExecutor], which calls back for everything that is not control
    flow. Values travel as [Data], events as [Event]; both are written to and
    read from JSON, and so is a whole session when it is saved. The debugger is
    a monitor that stops the thread of the interpreter at breakpoints.
    [ChartToC] prints the arrays of the compiled chart with a step function in C
    that mirrors that of the interpreter; [ChartToVHDL] prints a circuit, and
    [ChartToPromela] a process for each machine, which communicate over channels.

    ** Files

    Values and texts. Strings: util/String, util/Convenience. Data: messages/Data,
    Event, Blob. DataOrder: [operator<] of Data. Numbers: reading of numbers.
    Json, JsonTokens, JsonTheorems: [Data::fromJSON] with contrib/src/jsmn,
    and its round trip with [toJSON]. Base64: util/Base64.

    Documents. Dom: the interface [DomOps]/[DomLaws] to Xerces and util/DOM.cpp.
    Predicates: util/Predicates.cpp. Issue, IssueTheorems: debug/InterpreterIssue.cpp.

    The stepper. Chart: [FastMicroStep::init]. Effects: the monad of state and
    exceptions that members which may throw are written in. MicroStep: the
    phases of [FastMicroStep::step] over the class [MicroStepCallbacks].
    StepLemmas, Recorder, Legal, Complete, StepTheorems: its properties.
    Serialize: [FastMicroStep::serialize].

    The interpreter. EventQueue: BasicEventQueue, BasicDelayedEventQueue.
    Content, ContentTheorems: BasicContentExecutor over the class
    [ContentExecutorCallbacks]. Interpreter: InterpreterImpl and
    plugins/ioprocessor/scxml, which implement both classes of callbacks.
    Lifting, InterpreterTheorems: properties of the composition. Persistence:
    saving and restoring a session.

    The data model of Promela, plugins/datamodel/promela. Promela: variables and
    the evaluation of syntax trees, with the parser as a parameter.
    PromelaTheorems: its properties.

    The debugger. Breakpoint: debug/Breakpoint, debug/Debugger. DebugSession:
    debug/DebugSession. DebugTheorems: its properties. DebuggerServlet:
    debug/DebuggerServlet.

    The transformer to C, transform/ChartToC.cpp. CBits: the macros and bit
    arrays of the emitted program. CTables: [prepare] and the printers of the
    tables. CStep: the emitted [uscxml_step]. CContent: the emitted executable
    content. CRows: rows of data and param elements. CEntry, CRefine, CTheorems,
    CTransform, CContentTheorems: their properties, CSample: programs to which
    they are applied.

    The transformer to VHDL, transform/ChartToVHDL.cpp. Trie: transform/Trie.
    VhdlFifo, VhdlController: the event queue and the event controller of the
    circuit. Vhdl: the equations of the micro stepper. VhdlClock: its processes.
    VhdlTheorems, VhdlEntry, VhdlSystem, VhdlSample: properties and samples.

    The transformer to Promela, transform/ChartToPromela.cpp. PmlQueue: channels
    and the inlines for delayed events. PmlAnalyzer: names, numbers and types,
    with transform/promela/PromelaCodeAnalyzer. PmlMachine: the tables and the
    phases of the process over the class [PmlContent] of what is printed from
    executable content. PmlTheorems: its arrays as sets, and each phase against
    the one of the interpreter. PmlRound: whole rounds. PmlTables: the tables
    against those of ChartToC. PmlSample: samples.

    ** What is shown

    - The chart: [init] produces arrays with the expected shape and matrices
      (Chart). Every reachable configuration is closed under parents, has all
      children of parallel states (Legal) and exactly one active child per
      compound state (Complete). A step selects a conflict-free set of enabled
      transitions that is optimal in document order, exits, takes and enters in
      the order of the recommendation, keeps histories as the recommendation
      says, and reports what it should (StepTheorems). The invariants hold in
      every session of the whole interpreter (InterpreterTheorems), since its
      callbacks touch nothing else (Lifting); a step that throws keeps what is
      known of invocations, but may leave a configuration that is not legal.
      These are properties of charts with a regular tree shape, which they name.
    - The validator: what a document without fatal issues satisfies. Ids are
      unique among the states of one machine, and targets pass the code's own
      test of completions, which compares them pairwise (IssueTheorems).
    - Executable content: the recursion ends, errors are reported once and done
      events always, a send element sends at most once; delayed events refine a
      map of pending sends that can be cancelled.
    - Texts: [fromJSON] inverts [toJSON]; a saved session is restored.
    - The emitted C program: no access outside of its arrays and no other
      undefined behaviour whatever the callbacks answer, unless one of the two
      callbacks is missing that are called without a test; termination; and a
      refinement: on the tables that are
      printed for a document a micro step of the program is one of the
      interpreter, up to the differences that the statements name.
    - The emitted circuit: the queue is a bounded queue; at rest the signals
      select the transitions that the interpreter selects; the line of an event
      is driven by exactly those descriptors that a test on names lets through,
      also where it departs from the matching of names; without nested
      states a period of the clock is a micro step; and the documents for which
      the circuit departs from the chart.
    - The emitted Promela program: its tables are those of the emitted C
      program; on charts whose completions and default transitions do not reach
      below children, a round of the process that does not block is a micro step
      of the stepper on the same tables; delayed events stay in order and become
      due; a machine without transitions spins. Distinct names get distinct
      macros and numbers, and which values a declared variable cannot hold.
    - The data model of Promela: what every expression of the grammar evaluates
      to, with 32-bit integers, and which operators fail or read outside of
      their operands; arrays are accessed within their bounds whatever
      expression the index is, declared variables stay
      declared, and how truth and equality of variables differ from what their
      values suggest.
    - The debugger: the set of breakpoints is a table, a callback stops at the
      matching breakpoints in order, what happens to a thread that waits while
      the client changes the session or stops it, and what the delivery of
      messages guarantees for every interleaving of the threads.

    Where the code does not do what it means to, the theorem states what it
    does, and a sample shows it.

    ** Conventions

    A C++ object is a record and its members are functions from the object to
    the object; where several objects take part, the monad [M] of Effects.
    An exception is a value of the monad that keeps the state. Undefined
    behaviour is an outcome of its own ([None] or an error that is named),
    so that its absence can be stated. Assertions are compiled out, as in a
    release build. A [size_t] is 64 bits wide, [int] 32, and the machine is
    little endian; indices and lengths that cannot reach those bounds are [nat].
    A [std::map] is a list sorted by its keys, or a [gmap] when no iteration
    over it can be seen.

    Loops without a structural bound take fuel: the length of the text that is
    left for the scanners of strings and JSON, the depth or size of the document
    for walks over the DOM ([nodeDepth], [nodeSize]), the number of states for
    the completion of entry sets, the nesting of a datum for its order and of a
    syntax tree for its evaluation. In each
    case a lemma of the file shows that the fuel is enough, or the definition
    passes a measure that is bounded by its argument. Loops that depend on the
    environment (selecting events until the machine is stable, waiting for a
    queue) are bounded by what the statement says of the environment.

    Threads: a queue is modelled with the lock that each of its operations
    holds; the interpreter and its timer thread interleave between such
    operations, and a debug session between the points at which its thread
    waits; the calls of the debugger's servlet, which have no lock, interleave
    statement by statement, with accesses to its maps taken as atomic.

    ** Not modelled

    Xerces, libevent, boost, curl, uriparser and the interpreters of the data
    models are not part of the sources of the program: they are classes or
    parameters with laws that state their documentation. Of the program itself
    these parts are left out: the setup of an interpreter from a URL or a text,
    with the registration of plugins ([Interpreter.cpp], [Factory]), the data
    models that bind JavaScript, Lua and C and the generated parser of Promela, the invokers
    and the HTTP processor, the HTTP server, URL, UUID and digests, logging,
    the transformer to Java, which prints text around the tables that ChartToC
    provides, language bindings, applications and tests. Of [ChartToPromela] the
    text of executable content, the type definitions and what the analyzer reads
    from the trees of the Promela parser are left out, and the preparation of
    nested machines: a machine sees the others through [PmlContent]. The text that [ChartToVHDL] prints around its
    equations and processes (entities, ports, the state viewer of the test
    bench) and the rows that [ChartToC] prints for invoke elements and nested
    machines are left out too. *)

From stdpp Require Export base list gmap sets strings fin_maps.
From stdpp Require Export sorting.
From Stdlib Require Export Ascii ZArith Lia.

#[global] Open Scope Z_scope.
#[global] Open Scope nat_scope.

Create HintDb uscxml discriminated.
#[global] Hint Constants Transparent : uscxml.
Create Rewrite HintDb uscxml_rw.

(** Break the boolean and conjunctive structure of hypotheses. *)
Ltac bool_prop :=
  repeat match goal with
  | H : _ && _ = true |- _ => apply andb_true_iff in H; destruct H
  | H : _ || _ = false |- _ => apply orb_false_iff in H; destruct H
  | H : negb _ = true |- _ => apply negb_true_iff in H
  | H : negb _ = false |- _ => apply negb_false_iff in H
  | H : bool_decide _ = true |- _ => apply bool_decide_eq_true in H
  | H : bool_decide _ = false |- _ => apply bool_decide_eq_false in H
  | H : (_ =? _)%nat = true |- _ => apply Nat.eqb_eq in H
  | H : (_ =? _)%nat = false |- _ => apply Nat.eqb_neq in H
  | H : (_ <? _)%nat = true |- _ => apply Nat.ltb_lt in H
  | H : (_ <? _)%nat = false |- _ => apply Nat.ltb_ge in H
  end.

(** Case analysis on the scrutinee of a [match] of the goal, remembering it. *)
Ltac case_goal :=
  match goal with
  | |- context [ match ?x with _ => _ end ] => destruct x eqn:?
  end.

(** ** Characters and strings as byte lists *)

(** The content of a [std::string] as the list of its characters. *)
Abbreviation explode := String.list_ascii_of_string.
Abbreviation implode := String.string_of_list_ascii.

(** [s[i]]: C++11 defines the character at [size()] to be NUL, and the code
    relies on it in its inner loops. *)
Definition char_at (s : list Ascii.ascii) (i : nat) : Ascii.ascii :=
  default Ascii.zero (s !! i).

(** [s.substr(start, len)] for [start <= s.size()]. *)
Definition substr {A} (s : list A) (start len : nat) : list A :=
  take len (drop start s).

Lemma implode_explode s : implode (explode s) = s.
Proof. apply String.string_of_list_ascii_of_string. Qed.

Lemma explode_implode l : explode (implode l) = l.
Proof. apply String.list_ascii_of_string_of_list_ascii. Qed.

Lemma explode_app s1 s2 : explode (s1 +:+ s2)%string = explode s1 ++ explode s2.
Proof. induction s1 as [|c s1 IH]; [done|]. simpl. by rewrite IH. Qed.

#[export] Hint Rewrite implode_explode explode_implode : uscxml_rw.

Lemma implode_inj l1 l2 : implode l1 = implode l2 -> l1 = l2.
Proof.
  intros H. rewrite <- (explode_implode l1), <- (explode_implode l2).
  by rewrite H.
Qed.

Lemma explode_inj s1 s2 : explode s1 = explode s2 -> s1 = s2.
Proof.
  intros H. rewrite <- (implode_explode s1), <- (implode_explode s2).
  by rewrite H.
Qed.

Lemma char_at_lt s i c : s !! i = Some c -> char_at s i = c.
Proof. unfold char_at. by intros ->. Qed.

Lemma char_at_ge s i : length s <= i -> char_at s i = Ascii.zero.
Proof. intros H. unfold char_at. by rewrite lookup_ge_None_2. Qed.

Lemma char_at_drop s i k : char_at (drop i s) k = char_at s (i + k).
Proof. unfold char_at. by rewrite lookup_drop. Qed.

(** ** Loops over bit sets

    A [boost::dynamic_bitset] of a machine with [n] states (or transitions)
    is the finite set of its set indices; [find_first]/[find_next] return
    the least member at or after a position, or [npos]. *)

Definition find_from (n : nat) (X : gset nat) (i : nat) : option nat :=
  head (filter (fun j => j ∈ X) (seq i (n - i))).

Definition find_first (n : nat) (X : gset nat) : option nat := find_from n X 0.
Definition find_next (n : nat) (X : gset nat) (i : nat) : option nat :=
  find_from n X (S i).

Section ScanLoop.
Context {St : Type} (n : nat) (bits : St -> gset nat) (body : nat -> St -> St).

(** [i = X.find_first(); while (i != npos) { body; i = X.find_next(i); }]
    where [body] may change [X]. *)
Fixpoint find_loop (fuel : nat) (cur : option nat) (st : St) : St :=
  match fuel, cur with
  | S fuel, Some i =>
      let st' := body i st in
      find_loop fuel (find_next n (bits st') i) st'
  | _, _ => st
  end.

(** The same loop as a scan of all indices that tests membership when the
    cursor arrives. *)
Definition scan_loop (idxs : list nat) (st : St) : St :=
  foldl (fun st i => if bool_decide (i ∈ bits st) then body i st else st) st idxs.

Lemma find_from_cons X i : i < n ->
  find_from n X i = if bool_decide (i ∈ X) then Some i else find_from n X (S i).
Proof.
  intros Hi. unfold find_from.
  replace (n - i) with (S (n - S i)) by lia. cbn [seq].
  case_bool_decide; [by rewrite filter_cons_True | by rewrite filter_cons_False].
Qed.

Lemma find_from_ge X i : n <= i -> find_from n X i = None.
Proof. intros Hi. unfold find_from. by replace (n - i) with 0 by lia. Qed.

Lemma find_loop_scan_from k : forall i st fuel,
  n - i <= k -> k <= fuel ->
  find_loop fuel (find_from n (bits st) i) st = scan_loop (seq i (n - i)) st.
Proof.
  induction k as [|k IH]; intros i st fuel Hk Hf.
  - rewrite find_from_ge by lia. replace (n - i) with 0 by lia. by destruct fuel.
  - destruct (decide (i < n)) as [Hi|Hi].
    2:{ rewrite find_from_ge by lia. replace (n - i) with 0 by lia. by destruct fuel. }
    rewrite find_from_cons by done.
    replace (seq i (n - i)) with (i :: seq (S i) (n - S i))
      by (replace (n - i) with (S (n - S i)) by lia; done).
    cbn [scan_loop foldl]. fold (scan_loop (seq (S i) (n - S i))).
    case_bool_decide.
    + destruct fuel as [|fuel]; [lia|]. cbn [find_loop]. unfold find_next.
      apply IH; lia.
    + destruct fuel as [|fuel]; [lia|].
      destruct (decide (n - S i <= k)); [|lia].
      apply IH; lia.
Qed.

(** With fuel at least the number of bits the cursor loop is the scan. *)
Lemma find_loop_scan fuel st : n <= fuel ->
  find_loop fuel (find_first n (bits st)) st = scan_loop (seq 0 n) st.
Proof.
  intros Hf. unfold find_first.
  rewrite (find_loop_scan_from n 0 st fuel) by lia. by rewrite Nat.sub_0_r.
Qed.

(** An invariant rule for the scan. *)
Lemma scan_loop_inv (P : nat -> St -> Prop) lo len st :
  P lo st ->
  (forall i st, lo <= i < lo + len -> P i st ->
     P (S i) (if bool_decide (i ∈ bits st) then body i st else st)) ->
  P (lo + len) (scan_loop (seq lo len) st).
Proof.
  revert lo st. induction len as [|len IH]; intros lo st H0 Hs.
  - by rewrite Nat.add_0_r.
  - cbn [seq scan_loop foldl]. fold (scan_loop (seq (S lo) len)).
    replace (lo + S len) with (S lo + len) by lia. apply IH.
    + apply Hs; [lia|done].
    + intros i st' Hi. apply Hs. lia.
Qed.

End ScanLoop.

(** ** Sorted lists *)

Section Sorted.
Context {A : Type} (R : A -> A -> Prop).

Lemma StronglySorted_app_intro l1 l2 :
  StronglySorted R l1 -> StronglySorted R l2 ->
  (forall x y, x ∈ l1 -> y ∈ l2 -> R x y) -> StronglySorted R (l1 ++ l2).
Proof.
  induction l1 as [|x l1 IH]; intros H1 H2 Hc; [done|].
  inversion H1 as [|? ? Hs HF]; subst. simpl. constructor.
  - apply IH; [done|done|]. intros a b Ha. apply Hc. by right.
  - apply Forall_app. split; [done|]. apply Forall_forall.
    intros y Hy. apply Hc; [by left|done].
Qed.

Lemma StronglySorted_flat_map {B} (f : B -> list A) l :
  NoDup l ->
  (forall b, b ∈ l -> StronglySorted R (f b)) ->
  (forall b1 b2 x y, b1 ∈ l -> b2 ∈ l -> b1 <> b2 -> x ∈ f b1 -> y ∈ f b2 -> R x y) ->
  StronglySorted R (flat_map f l).
Proof.
  induction l as [|b l IH]; intros Hnd Hf Hc; [constructor|].
  inversion Hnd as [|? ? Hb Hnd']; subst. simpl. apply StronglySorted_app_intro.
  - apply Hf. by left.
  - apply IH; [done| |].
    + intros. apply Hf. by right.
    + intros b1 b2 x y H1 H2. apply Hc; by right.
  - intros x y Hx Hy. apply list_elem_of_In, in_flat_map in Hy as (b' & Hb' & Hy).
    apply list_elem_of_In in Hb'. apply list_elem_of_In in Hy.
    apply (Hc b b'); [by left|by right| |done|done]. by intros ->.
Qed.

Lemma StronglySorted_flat_map_sorted {B} (R' : B -> B -> Prop) (f : B -> list A) l :
  StronglySorted R' l ->
  (forall b, b ∈ l -> StronglySorted R (f b)) ->
  (forall b1 b2 x y, R' b1 b2 -> x ∈ f b1 -> y ∈ f b2 -> R x y) ->
  StronglySorted R (flat_map f l).
Proof.
  intros Hl Hf Hc. induction Hl as [|b l Hl IH HF]; [constructor|].
  simpl. apply StronglySorted_app_intro.
  - apply Hf. by left.
  - apply IH. intros. apply Hf. by right.
  - intros x y Hx Hy. apply list_elem_of_In, in_flat_map in Hy as (b' & Hb' & Hy).
    apply list_elem_of_In in Hb'. apply list_elem_of_In in Hy.
    apply (Hc b b'); [|done|done]. by eapply Forall_forall.
Qed.

Lemma StronglySorted_lookup l i j x y :
  StronglySorted R l -> i < j -> l !! i = Some x -> l !! j = Some y -> R x y.
Proof.
  revert i j. induction l as [|a l IH]; intros i j Hs Hij Hi Hj; [done|].
  inversion Hs as [|? ? Hs' HF]; subst. destruct j as [|j]; [lia|]. simpl in Hj.
  destruct i as [|i]; simpl in Hi.
  - injection Hi as <-. eapply Forall_forall; [done|]. by eapply list_elem_of_lookup_2.
  - apply (IH i j); [done|lia|done|done].
Qed.

Lemma StronglySorted_NoDup l :
  (forall x, ~ R x x) -> StronglySorted R l -> NoDup l.
Proof.
  intros Hirr. induction 1 as [|x l Hs IH HF]; constructor; [|done].
  intros Hx. apply (Hirr x). by eapply Forall_forall.
Qed.

Lemma StronglySorted_filter' (P : A -> Prop) `{forall x, Decision (P x)} l :
  StronglySorted R l -> StronglySorted R (filter P l).
Proof.
  induction 1 as [|x l Hs IH HF]; [constructor|].
  destruct (decide (P x)); [rewrite filter_cons_True|rewrite filter_cons_False]; try done.
  constructor; [done|]. apply Forall_forall. intros y [_ Hy]%list_elem_of_filter.
  by eapply Forall_forall.
Qed.

End Sorted.

Lemma elem_of_flat_map {A B} (f : A -> list B) l y :
  y ∈ flat_map f l <-> exists x, x ∈ l /\ y ∈ f x.
Proof.
  rewrite list_elem_of_In, in_flat_map. by setoid_rewrite list_elem_of_In.
Qed.

Lemma list_sum_elem {A} (f : A -> nat) l x : x ∈ l -> f x <= list_sum (f <$> l).
Proof.
  induction l as [|y l IH]; [by intros ?%elem_of_nil|].
  assert (list_sum (f <$> y :: l) = f y + list_sum (f <$> l)) as -> by done.
  intros [->|Hx]%elem_of_cons; [|specialize (IH Hx)]; lia.
Qed.
