(* ===== verification/Strings.v ===== *)
(** * Strings: [util/String.cpp] and [util/Convenience.cpp]

    Tokenisation, white space normalisation and event descriptor matching as
    the index loops of the code; case-insensitive comparison, numeric checks,
    C escapes and the [NumAttr] value/unit splitter. A [std::string] is the
    list of its characters; [char_at] is [operator[]]. *)

From stdpp Require Import base list strings.
From S2P Require Import Prelude.

Local Open Scope nat_scope.

(** ** Character classes of the "C" locale *)

Definition ISWHITESPACE (c : Ascii.ascii) : bool :=
  let n := Ascii.nat_of_ascii c in (n =? 32) || ((9 <=? n) && (n <=? 13)).

Definition tolower (c : Ascii.ascii) : Ascii.ascii :=
  let n := Ascii.nat_of_ascii c in
  if (65 <=? n) && (n <=? 90) then Ascii.ascii_of_nat (n + 32) else c.

(** ** Convenience.cpp *)

(** The comparison loop of [iequals]/[equals] after the size test. *)
Fixpoint all_pairs (eq : Ascii.ascii -> Ascii.ascii -> bool) (a b : list Ascii.ascii) : bool :=
  match a, b with
  | x :: a, y :: b => if eq x y then all_pairs eq a b else false
  | _, _ => true
  end.

Definition iequals (a b : string) : bool :=
  if length (explode b) =? length (explode a)
  then all_pairs (fun x y => Ascii.eqb (tolower x) (tolower y)) (explode a) (explode b)
  else false.

Definition equals (a b : string) : bool :=
  if length (explode b) =? length (explode a)
  then all_pairs Ascii.eqb (explode a) (explode b)
  else false.

Definition stringIsTrue (value : string) : bool :=
  iequals value "on" || iequals value "true" || iequals value "1" || iequals value "yes".

Definition char_in (set : list Ascii.ascii) (c : Ascii.ascii) : bool :=
  existsb (Ascii.eqb c) set.

Definition isNumeric (pszInput : string) (nNumberBase : nat) : bool :=
  let base := explode ".-0123456789ABCDEF" in
  forallb (char_in (substr base 0 (nNumberBase + 2))) (explode pszInput).

Definition isInteger (pszInput : string) (nNumberBase : nat) : bool :=
  let base := explode "-0123456789ABCDEF" in
  forallb (char_in (substr base 0 (nNumberBase + 1))) (explode pszInput).

(** The letter that follows the backslash for an escaped character. *)
Definition escape_letter (c : Ascii.ascii) : option Ascii.ascii :=
  match Ascii.nat_of_ascii c with
  | 92 => Some (Ascii.ascii_of_nat 92)   (* backslash *)
  | 0 => Some "0"%char
  | 34 => Some (Ascii.ascii_of_nat 34)   (* double quote *)
  | 7 => Some "a"%char
  | 8 => Some "b"%char
  | 12 => Some "f"%char
  | 10 => Some "n"%char
  | 13 => Some "r"%char
  | 9 => Some "t"%char
  | 11 => Some "v"%char
  | _ => None
  end.

Definition backslash : Ascii.ascii := Ascii.ascii_of_nat 92.

Fixpoint escape (a : list Ascii.ascii) : list Ascii.ascii :=
  match a with
  | [] => []
  | c :: a =>
      match escape_letter c with
      | Some l => backslash :: l :: escape a
      | None => c :: escape a
      end
  end.

(** The inner [switch] of [unescape]: [None] leaves [c], the backslash. *)
Definition unescape_letter (l : Ascii.ascii) : option Ascii.ascii :=
  match Ascii.nat_of_ascii l with
  | 92 => Some (Ascii.ascii_of_nat 92)
  | 48 => Some (Ascii.ascii_of_nat 0)
  | 34 => Some (Ascii.ascii_of_nat 34)
  | 97 => Some (Ascii.ascii_of_nat 7)
  | 98 => Some (Ascii.ascii_of_nat 8)
  | 102 => Some (Ascii.ascii_of_nat 12)
  | 110 => Some (Ascii.ascii_of_nat 10)
  | 114 => Some (Ascii.ascii_of_nat 13)
  | 116 => Some (Ascii.ascii_of_nat 9)
  | 118 => Some (Ascii.ascii_of_nat 11)
  | _ => None
  end.

Fixpoint unescape (a : list Ascii.ascii) : list Ascii.ascii :=
  match a with
  | [] => []
  | c :: a =>
      if Ascii.eqb c backslash then
        match a with
        | l :: a => default c (unescape_letter l) :: unescape a
        | [] => [c]
        end
      else c :: unescape a
  end.

(** [str.find_first_of(set, from)] and friends. *)
Definition find_first_such (p : Ascii.ascii -> bool) (s : list Ascii.ascii) (from : nat) : option nat :=
  head (filter (fun i => p (char_at s i) = true) (seq from (length s - from))).

Definition find_last_such (p : Ascii.ascii -> bool) (s : list Ascii.ascii) : option nat :=
  last (filter (fun i => p (char_at s i) = true) (seq 0 (length s))).

Record NumAttr := mkNumAttr { na_value : string; na_unit : string }.

Definition num_char : Ascii.ascii -> bool := char_in (explode "0123456789.").
Definition blank_char (c : Ascii.ascii) : bool :=
  Ascii.eqb c " " || Ascii.eqb c (Ascii.ascii_of_nat 9).

(** The constructor [NumAttr::NumAttr]. *)
Definition parseNumAttr (s : string) : NumAttr :=
  let str := explode s in
  match find_first_such num_char str 0 with
  | None => mkNumAttr "" ""
  | Some valueStart =>
      match find_last_such num_char str with
      | None => mkNumAttr "" ""
      | Some valueEnd =>
          let value := implode (substr str valueStart (valueEnd - valueStart + 1)) in
          match find_first_such (fun c => negb (blank_char c)) str (valueEnd + 1) with
          | None => mkNumAttr value ""
          | Some unitStart =>
              match find_last_such blank_char str with
              | Some unitEnd =>
                  if unitStart <? unitEnd
                  then mkNumAttr value (implode (substr str unitStart (unitEnd - unitStart)))
                  else mkNumAttr value (implode (substr str unitStart (length str - unitStart)))
              | None => mkNumAttr value (implode (substr str unitStart (length str - unitStart)))
              end
          end
      end
  end.

(** ** String.cpp: tokenisation *)

Section Tokenize.
Context (line : list Ascii.ascii) (sep : Ascii.ascii) (trimWhiteSpace : bool).

Definition tok_sep (c : Ascii.ascii) : bool :=
  Ascii.eqb c sep || (trimWhiteSpace && ISWHITESPACE c).

(** [while (p(line[i])) i++;] *)
Fixpoint skip_while (p : Ascii.ascii -> bool) (fuel i : nat) : nat :=
  match fuel with
  | 0 => i
  | S fuel => if p (char_at line i) then skip_while p fuel (S i) else i
  end.

Fixpoint tokenize_loop (fuel start i : nat) (tokens : list (list Ascii.ascii))
    : list (list Ascii.ascii) :=
  match fuel with
  | 0 => tokens
  | S fuel =>
      if i <? length line then
        let '(start, i, tokens) :=
          if tok_sep (char_at line i) then
            let tokens :=
              if (0 <? i) && (start <? i)
              then tokens ++ [substr line start (i - start)] else tokens in
            let i := skip_while tok_sep (S (length line)) i in
            (i, i, tokens)
          else (start, i, tokens) in
        let tokens :=
          if i + 1 =? length line
          then tokens ++ [substr line start (i + 1 - start)] else tokens in
        tokenize_loop fuel start (S i) tokens
      else tokens
  end.

Definition tokenize_chars : list (list Ascii.ascii) :=
  tokenize_loop (S (length line)) 0 0 [].

End Tokenize.

(** [tokenize(line)] with the declared defaults [sep = ' '], [trimWhiteSpace = true]. *)
Definition tokenize (line : string) : list string :=
  implode <$> tokenize_chars (explode line) " "%char true.

(** ** String.cpp: white space normalisation *)

Section SpaceNormalize.
Context (text : list Ascii.ascii).

Fixpoint spaceNormalize_loop (fuel start i : nat) (seperator content : list Ascii.ascii)
    : list Ascii.ascii :=
  match fuel with
  | 0 => content
  | S fuel =>
      if i <? length text then
        if ISWHITESPACE (char_at text i) then
          let '(content, seperator) :=
            if (0 <? i) && (start <? i)
            then (content ++ seperator ++ substr text start (i - start), [" "%char])
            else (content, seperator) in
          let i := skip_while text ISWHITESPACE (S (length text)) (S i) in
          spaceNormalize_loop fuel i (S i) seperator content
        else
          let content :=
            if i + 1 =? length text
            then content ++ seperator ++ substr text start (i + 1 - start) else content in
          spaceNormalize_loop fuel start (S i) seperator content
      else content
  end.

Definition spaceNormalize_chars : list Ascii.ascii :=
  spaceNormalize_loop (S (length text)) 0 0 [] [].

End SpaceNormalize.

Definition spaceNormalize (text : string) : string :=
  implode (spaceNormalize_chars (explode text)).

(** ** String.cpp: event descriptors

    [boost::iequals] is not part of the sources: a class states what its
    documentation promises, equality up to upper and lower case. *)

Class BoostString := {
  boost_iequals : string -> string -> bool;
}.

Class BoostStringLaws `{BoostString} : Prop := {
  boost_iequals_spec a b :
    boost_iequals a b = true <-> tolower <$> explode a = tolower <$> explode b;
}.

Section NameMatch.
Context `{BoostString}.

(** Drop a final [c] when there is one. *)
Definition strip_last (c : Ascii.ascii) (d : list Ascii.ascii) : list Ascii.ascii :=
  match last d with
  | Some x => if Ascii.eqb x c then take (length d - 1) d else d
  | None => d
  end.

Definition is_prefix (d s : list Ascii.ascii) : bool := bool_decide (d = take (length d) s).

(** One non-empty descriptor against the event name. *)
Definition descMatch (eventDesc eventName : list Ascii.ascii) : bool :=
  let d := strip_last "." (strip_last "*" eventDesc) in
  if length d =? 0 then true
  else if length eventName <? length d then false
  else if boost_iequals (implode d) (implode eventName) then true
  else is_prefix d eventName && Ascii.eqb (char_at eventName (length d)) ".".

Fixpoint nameMatch_loop (descs name : list Ascii.ascii) (fuel start i : nat) : bool :=
  match fuel with
  | 0 => false
  | S fuel =>
      if i <? length descs then
        let '(start, i, eventDesc) :=
          if ISWHITESPACE (char_at descs i) then
            let eventDesc :=
              if (0 <? i) && (start <? i - 1) then substr descs start (i - start) else [] in
            let i := skip_while descs ISWHITESPACE (S (length descs)) (S i) in
            (i, i, eventDesc)
          else if i + 1 =? length descs then
            (start, i, substr descs start (i + 1 - start))
          else (start, i, []) in
        if (0 <? length eventDesc) && descMatch eventDesc name then true
        else nameMatch_loop descs name fuel start (S i)
      else false
  end.

Definition nameMatch (eventDescs eventName : string) : bool :=
  if (length (explode eventDescs) =? 0) || (length (explode eventName) =? 0) then false
  else if boost_iequals eventDescs eventName then true
  else nameMatch_loop (explode eventDescs) (explode eventName)
         (S (length (explode eventDescs))) 0 0.

End NameMatch.

(** ** String.cpp: identifiers and binary numerals *)

(** [size_t] is 64 bits wide, [unsigned] 32. *)
Fixpoint skip_leading (fuel : nat) (val mask : Z) : Z :=
  match fuel with
  | 0 => mask
  | S fuel =>
      if (Z.land val mask =? 0)%Z && negb (mask =? 0)%Z
      then skip_leading fuel val (Z.shiftr mask 1) else mask
  end.

(** [static_cast<char>(val & mask) + '0'] appended as a [char]. *)
Definition bin_digit (val mask : Z) : Ascii.ascii :=
  Ascii.ascii_of_nat (Z.to_nat (((Z.land val mask) mod 256 + 48) mod 256)).

Fixpoint bin_digits (fuel : nat) (val mask : Z) (binStr : list Ascii.ascii) : list Ascii.ascii :=
  match fuel with
  | 0 => binStr
  | S fuel =>
      let binStr := binStr ++ [bin_digit val mask] in
      let mask := Z.shiftr mask 1 in
      if (mask =? 0)%Z then binStr else bin_digits fuel val mask binStr
  end.

(** [for (i = 0; i < margin - binStr.size(); i++) binStr = "0" + binStr;] *)
Fixpoint pad_zeros (fuel i margin : nat) (binStr : list Ascii.ascii) : list Ascii.ascii :=
  match fuel with
  | 0 => binStr
  | S fuel =>
      if i <? margin - length binStr
      then pad_zeros fuel (S i) margin ("0"%char :: binStr) else binStr
  end.

Definition toBinStr (val : Z) (margin : nat) : string :=
  let mask := skip_leading 33 val (Z.shiftl 1 31) in
  let binStr := bin_digits 33 val mask [] in
  implode (if length binStr <? margin then pad_zeros margin 0 margin binStr else binStr).

(** ** Reference definitions *)

(** The maximal runs of characters outside [p], left to right; [acc] is the
    run being read. *)
Definition flush (acc : list Ascii.ascii) : list (list Ascii.ascii) :=
  match acc with [] => [] | _ => [acc] end.

Fixpoint words_by (p : Ascii.ascii -> bool) (acc l : list Ascii.ascii)
    : list (list Ascii.ascii) :=
  match l with
  | [] => flush acc
  | c :: l =>
      if p c then flush acc ++ words_by p [] l
      else words_by p (acc ++ [c]) l
  end.

(** ** Lemmas: slices and runs *)

Lemma substr_snoc (s : list Ascii.ascii) start i c :
  s !! i = Some c -> start <= i ->
  substr s start (S i - start) = substr s start (i - start) ++ [c].
Proof.
  intros Hc Hi. unfold substr. replace (S i - start) with (S (i - start)) by lia.
  apply take_S_r. rewrite lookup_drop. by replace (start + (i - start)) with i by lia.
Qed.

Lemma substr_nil (s : list Ascii.ascii) i : substr s i (i - i) = [].
Proof. unfold substr. by rewrite Nat.sub_diag, take_0. Qed.

Lemma substr_length (s : list Ascii.ascii) start len :
  start + len <= length s -> length (substr s start len) = len.
Proof. intros. unfold substr. rewrite length_take, length_drop. lia. Qed.

Lemma lookup_char_at (s : list Ascii.ascii) i :
  i < length s -> s !! i = Some (char_at s i).
Proof.
  intros Hi. unfold char_at. by destruct (lookup_lt_is_Some_2 s i Hi) as [c ->].
Qed.

Lemma drop_char_at (s : list Ascii.ascii) i :
  i < length s -> drop i s = char_at s i :: drop (S i) s.
Proof. intros Hi. apply drop_S, lookup_char_at, Hi. Qed.

#[export] Hint Resolve lookup_char_at : uscxml.

Section SkipWhile.
Context (s : list Ascii.ascii) (p : Ascii.ascii -> bool) (Hp0 : p Ascii.zero = false).

Lemma skip_while_le fuel i : i <= skip_while s p fuel i.
Proof.
  revert i. induction fuel as [|fuel IH]; intros i; simpl; [lia|].
  case_match; [|lia]. specialize (IH (S i)). lia.
Qed.

Lemma skip_while_stop fuel i :
  length s - i < fuel -> p (char_at s (skip_while s p fuel i)) = false.
Proof.
  revert i. induction fuel as [|fuel IH]; intros i Hf; [lia|]. simpl.
  case_match eqn:E; [|done]. apply IH.
  destruct (decide (i < length s)); [lia|].
  rewrite char_at_ge in E by lia. congruence.
Qed.

Lemma skip_while_bound fuel i :
  i <= length s -> skip_while s p fuel i <= length s.
Proof.
  revert i. induction fuel as [|fuel IH]; intros i Hi; simpl; [lia|].
  case_match eqn:E; [|lia]. apply IH.
  destruct (decide (i < length s)); [lia|].
  rewrite char_at_ge in E by lia. congruence.
Qed.

(** Skipping separators does not change the words that remain. *)
Lemma skip_while_words fuel i :
  words_by p [] (drop (skip_while s p fuel i) s) = words_by p [] (drop i s).
Proof.
  revert i. induction fuel as [|fuel IH]; intros i; simpl; [done|].
  case_match eqn:E; [|done]. rewrite IH.
  destruct (decide (i < length s)).
  - rewrite (drop_char_at s i) by done. simpl. by rewrite E.
  - rewrite char_at_ge in E by lia. congruence.
Qed.

End SkipWhile.

(** ** [tokenize] *)

Section TokenizeSpec.
Context (line : list Ascii.ascii) (sep : Ascii.ascii) (trim : bool).
Notation p := (tok_sep sep trim).
Context (Hp0 : p Ascii.zero = false).

Lemma tokenize_loop_spec fuel : forall start i tokens,
  start <= i -> i < length line -> length line - i < fuel ->
  tokenize_loop line sep trim fuel start i tokens =
    tokens ++ words_by p (substr line start (i - start)) (drop i line).
Proof.
  assert (Hend : forall fuel start i tokens, length line <= i ->
      tokenize_loop line sep trim fuel start i tokens = tokens).
  { intros [|f] start i tokens Hi; [done|]. simpl.
    by rewrite (proj2 (Nat.ltb_ge _ _) Hi). }
  assert (Hcons : forall (r : list Ascii.ascii) c, exists x l, r ++ [c] = x :: l).
  { intros [|x r] c; [by exists c, []|by exists x, (r ++ [c])]. }
  induction fuel as [|fuel IH]; intros start i tokens Hs Hi Hf; [lia|].
  cbn [tokenize_loop]. rewrite (proj2 (Nat.ltb_lt _ _) Hi).
  rewrite (drop_char_at line i) by done. cbn [words_by].
  assert (Hstep : forall start i tokens, start <= i -> i < length line ->
      p (char_at line i) = false -> length line - i <= fuel ->
      tokenize_loop line sep trim fuel start (S i)
        (if i + 1 =? length line then tokens ++ [substr line start (i + 1 - start)] else tokens)
      = tokens ++ words_by p (substr line start (i - start) ++ [char_at line i]) (drop (S i) line)).
  { intros st j tks Hst Hj Hc Hfu.
    rewrite <- (substr_snoc line st j) by auto with uscxml.
    replace (j + 1 - st) with (S j - st) by lia.
    case_match eqn:E; bool_prop.
    - rewrite Hend by lia. rewrite (drop_ge line (S j)) by lia. cbn [words_by].
      rewrite (substr_snoc line st j _ (lookup_char_at line j Hj)) by lia.
      by destruct (Hcons (substr line st (j - st)) (char_at line j)) as (x & l & ->).
    - apply IH; lia. }
  destruct (p (char_at line i)) eqn:Ec.
  - set (j := skip_while line p (S (length line)) i).
    assert (Hw : (if (0 <? i) && (start <? i) then tokens ++ [substr line start (i - start)] else tokens)
              = tokens ++ flush (substr line start (i - start))).
    { destruct (decide (start < i)).
      - rewrite (proj2 (Nat.ltb_lt start i)), (proj2 (Nat.ltb_lt 0 i)) by lia. cbn [andb].
        unfold flush. destruct (substr line start (i - start)) eqn:E; [|done].
        apply (f_equal length) in E. rewrite substr_length in E by lia. simpl in E. lia.
      - rewrite (proj2 (Nat.ltb_ge start i)) by lia. rewrite andb_false_r.
        replace start with i by lia. by rewrite substr_nil, app_nil_r. }
    rewrite Hw. clear Hw. rewrite app_assoc.
    set (tks := tokens ++ flush (substr line start (i - start))).
    assert (Hij : i <= j) by apply skip_while_le.
    assert (Hjl : j <= length line) by (apply skip_while_bound; [done|lia]).
    assert (Hpj : p (char_at line j) = false) by (apply skip_while_stop; [done|lia]).
    assert (Hwj : words_by p [] (drop (S i) line) = words_by p [] (drop j line)).
    { unfold j. rewrite skip_while_words by done. rewrite (drop_char_at line i) by done.
      simpl. by rewrite Ec. }
    rewrite Hwj. destruct (decide (j < length line)).
    + rewrite Hstep by (done || lia). rewrite substr_nil.
      rewrite (drop_char_at line j) by done. cbn [words_by]. by rewrite Hpj.
    + rewrite (proj2 (Nat.eqb_neq (j + 1) (length line))) by lia.
      rewrite Hend by lia. rewrite drop_ge by lia. simpl. by rewrite app_nil_r.
  - rewrite Hstep by (done || lia). done.
Qed.

Lemma tokenize_chars_words : tokenize_chars line sep trim = words_by p [] line.
Proof.
  unfold tokenize_chars. destruct line as [|c l] eqn:El; [done|]. rewrite <- El.
  rewrite tokenize_loop_spec by (rewrite ?El; simpl; lia).
  by rewrite substr_nil, drop_0.
Qed.

End TokenizeSpec.

(** ** [spaceNormalize] *)

(** Words joined by one blank, the first preceded by [sep]. *)
Fixpoint join_from (sep : list Ascii.ascii) (ws : list (list Ascii.ascii)) : list Ascii.ascii :=
  match ws with
  | [] => []
  | w :: ws => sep ++ w ++ join_from [" "%char] ws
  end.

(** The text ends with a one-character word that follows white space: the
    scan resumes after the first character of a word, so it never sees the
    end of this one. *)
Definition single_tail (text : list Ascii.ascii) : bool :=
  let n := length text in
  (2 <=? n) && negb (ISWHITESPACE (char_at text (n - 1))) && ISWHITESPACE (char_at text (n - 2)).

Lemma words_by_nonempty p acc l : acc <> [] -> words_by p acc l <> [].
Proof.
  revert acc. induction l as [|c l IH]; intros acc Ha; simpl.
  - by destruct acc.
  - case_match; [by destruct acc|]. apply IH. by destruct acc.
Qed.

Lemma join_from_app sep ws1 ws2 :
  join_from sep (ws1 ++ ws2) =
  join_from sep ws1 ++ join_from (if ws1 then sep else [" "%char]) ws2.
Proof.
  revert sep. induction ws1 as [|w ws1 IH]; intros sep; [done|]. simpl.
  rewrite IH. rewrite <- !app_assoc. by destruct ws1.
Qed.

Lemma ws_zero : ISWHITESPACE Ascii.zero = false.
Proof. done. Qed.

#[export] Hint Resolve ws_zero : uscxml.

(** The words not yet emitted when the scan is at [i] of a run from [start]. *)
Definition words_from (s : list Ascii.ascii) (start i : nat) : list (list Ascii.ascii) :=
  words_by ISWHITESPACE (substr s start (i - start)) (drop i s).

Lemma words_from_run s start i :
  start <= i -> i < length s -> ISWHITESPACE (char_at s i) = false ->
  words_from s start i = words_from s start (S i).
Proof.
  intros Hs Hi Hc. unfold words_from.
  rewrite (drop_char_at s i) by done. cbn [words_by]. rewrite Hc.
  by rewrite <- (substr_snoc s start i) by auto with uscxml.
Qed.

Lemma words_from_end s start i :
  length s <= i -> words_from s start i = flush (substr s start (i - start)).
Proof. intros Hi. unfold words_from. by rewrite drop_ge by lia. Qed.

(** At white space the run is flushed and the scan goes on behind the blanks. *)
Lemma words_from_blank s start i j :
  i < length s -> ISWHITESPACE (char_at s i) = true ->
  j = skip_while s ISWHITESPACE (S (length s)) (S i) ->
  words_from s start i = flush (substr s start (i - start)) ++ words_from s j j /\
  i < j <= length s /\ ISWHITESPACE (char_at s j) = false /\
  ISWHITESPACE (char_at s (j - 1)) = true.
Proof.
  intros Hi Hc ->. set (j := skip_while s ISWHITESPACE (S (length s)) (S i)).
  assert (i < j) by apply (skip_while_le s ISWHITESPACE).
  assert (j <= length s) by (unfold j; apply skip_while_bound; auto with uscxml lia).
  assert (ISWHITESPACE (char_at s j) = false)
    by (apply skip_while_stop; auto with uscxml lia).
  split; [|split; [lia|split; [done|]]].
  - unfold words_from. rewrite substr_nil. unfold j. rewrite skip_while_words by done.
    rewrite (drop_char_at s i) by done. cbn [words_by]. by rewrite Hc.
  - clear H0 H1. unfold j. generalize (S (length s)). intros fuel.
    assert (Hk : forall fuel k, ISWHITESPACE (char_at s (k - 1)) = true ->
      ISWHITESPACE (char_at s (skip_while s ISWHITESPACE fuel k - 1)) = true).
    { clear. induction fuel as [|fuel IH]; intros k Hk; [done|]. simpl.
      case_match eqn:E; [|done]. apply IH. by rewrite Nat.sub_succ, Nat.sub_0_r. }
    apply Hk. by rewrite Nat.sub_succ, Nat.sub_0_r.
Qed.

Lemma flush_nonempty w : w <> [] -> flush w = [w].
Proof. by destruct w. Qed.

Lemma flush_substr (s : list Ascii.ascii) start i : start <= i -> i <= length s ->
  flush (substr s start (i - start)) =
  if start <? i then [substr s start (i - start)] else [].
Proof.
  intros. case_match; bool_prop.
  - apply flush_nonempty. intros E. apply (f_equal length) in E.
    rewrite substr_length in E by lia. simpl in E. lia.
  - replace start with i by lia. by rewrite substr_nil.
Qed.

Definition emitted (s : list Ascii.ascii) (start i : nat) : list (list Ascii.ascii) :=
  if single_tail s && (i <? length s - 1)
  then removelast (words_from s start i) else words_from s start i.

Lemma single_tail_false s i : i + 2 = length s ->
  ISWHITESPACE (char_at s i) = false -> single_tail s = false.
Proof.
  intros Hi Hc. unfold single_tail. replace (length s - 2) with i by lia.
  rewrite Hc. by rewrite andb_false_r.
Qed.

Lemma emitted_run s start i :
  start <= i -> S i < length s -> ISWHITESPACE (char_at s i) = false ->
  emitted s start i = emitted s start (S i).
Proof.
  intros Hs Hi Hc. unfold emitted. rewrite (words_from_run s start i) by (done || lia).
  rewrite (proj2 (Nat.ltb_lt i _)) by lia.
  destruct (decide (S i < length s - 1)).
  - by rewrite (proj2 (Nat.ltb_lt (S i) _)) by lia.
  - by rewrite (single_tail_false s i) by (done || lia).
Qed.

Lemma emitted_blank s start i j :
  i < length s -> ISWHITESPACE (char_at s i) = true ->
  j = skip_while s ISWHITESPACE (S (length s)) (S i) ->
  emitted s start i = flush (substr s start (i - start)) ++
    (if S j <? length s then emitted s j (S j) else []).
Proof.
  intros Hi Hc Hj. destruct (words_from_blank s start i j Hi Hc Hj) as (Hw & Hlt & Hcj & Hcp).
  unfold emitted. rewrite Hw. clear Hw Hj.
  destruct (decide (S j < length s)) as [Hl|Hl].
  - rewrite (proj2 (Nat.ltb_lt (S j) (length s))), (proj2 (Nat.ltb_lt i (length s - 1))) by lia.
    rewrite (words_from_run s j j) by (done || lia).
    assert (Hne : words_from s j (S j) <> []).
    { apply words_by_nonempty. intros E. apply (f_equal length) in E.
      rewrite substr_length in E by lia. simpl in E. lia. }
    destruct (decide (S j < length s - 1)).
    + rewrite (proj2 (Nat.ltb_lt (S j) (length s - 1))) by lia.
      destruct (single_tail s); [|done]. by rewrite removelast_app.
    + by rewrite (single_tail_false s j) by (done || lia).
  - rewrite (proj2 (Nat.ltb_ge (S j) (length s))) by lia. rewrite app_nil_r.
    destruct (decide (j = length s)) as [E|E].
    + assert (single_tail s = false) as ->.
      { unfold single_tail. rewrite <- E at 2. rewrite Hcp. cbn [negb].
        by rewrite andb_false_r. }
      rewrite (words_from_end s j j) by lia. by rewrite substr_nil, app_nil_r.
    + assert (single_tail s = true) as ->.
      { unfold single_tail. replace (length s - 1) with j by lia.
        replace (length s - 2) with (j - 1) by lia. rewrite Hcj, Hcp.
        rewrite (proj2 (Nat.leb_le 2 (length s))) by lia. done. }
      rewrite (proj2 (Nat.ltb_lt i _)) by lia. cbn [andb].
      rewrite (words_from_run s j j), words_from_end by (done || lia).
      rewrite (flush_substr s j (S j)) by lia. rewrite (proj2 (Nat.ltb_lt j (S j))) by lia.
      apply removelast_last.
Qed.

Lemma spaceNormalize_loop_spec text fuel : forall start i sep content,
  start <= i -> i < length text -> length text - i < fuel ->
  spaceNormalize_loop text fuel start i sep content =
    content ++ join_from sep (emitted text start i).
Proof.
  assert (Hend : forall fuel start i sep content, length text <= i ->
      spaceNormalize_loop text fuel start i sep content = content).
  { intros [|f] start i sep content Hi; [done|]. simpl.
    by rewrite (proj2 (Nat.ltb_ge _ _) Hi). }
  induction fuel as [|fuel IH]; intros start i sep content Hs Hi Hf; [lia|].
  cbn [spaceNormalize_loop]. rewrite (proj2 (Nat.ltb_lt _ _) Hi).
  destruct (ISWHITESPACE (char_at text i)) eqn:Ec.
  - set (j := skip_while text ISWHITESPACE (S (length text)) (S i)).
    rewrite (emitted_blank text start i j) by done.
    destruct (words_from_blank text start i j Hi Ec eq_refl) as (_ & Hlt & _ & _).
    rewrite join_from_app, flush_substr by lia.
    assert (((0 <? i) && (start <? i)) = (start <? i)) as ->.
    { destruct (start <? i) eqn:E; bool_prop; [|by rewrite andb_false_r].
      by rewrite (proj2 (Nat.ltb_lt 0 i)) by lia. }
    destruct (start <? i); cbn [join_from]; rewrite ?app_nil_r.
    + destruct (decide (S j < length text)) as [Hl|Hl].
      * rewrite (proj2 (Nat.ltb_lt _ _) Hl). rewrite IH by lia. simpl. by rewrite <- ?app_assoc.
      * rewrite (proj2 (Nat.ltb_ge _ _)) by lia. rewrite Hend by lia.
        simpl. by rewrite ?app_nil_r, <- ?app_assoc.
    + destruct (decide (S j < length text)) as [Hl|Hl].
      * rewrite (proj2 (Nat.ltb_lt _ _) Hl). by rewrite IH by lia.
      * rewrite (proj2 (Nat.ltb_ge _ _)) by lia. rewrite Hend by lia.
        simpl. by rewrite ?app_nil_r.
  - case_match eqn:E; bool_prop.
    + rewrite Hend by lia. unfold emitted. rewrite (proj2 (Nat.ltb_ge i _)) by lia.
      rewrite andb_false_r. rewrite words_from_run by (done || lia).
      rewrite words_from_end by lia. rewrite flush_substr by lia.
      rewrite (proj2 (Nat.ltb_lt start (S i))) by lia. simpl.
      rewrite app_nil_r. by replace (i + 1 - start) with (S i - start) by lia.
    + rewrite IH by lia. by rewrite (emitted_run text start i) by (done || lia).
Qed.

(** ** [nameMatch] *)

Section NameMatchSpec.
Context `{BoostStringLaws}.

(** The descriptors the scan looks at: words of two characters or more, or
    the whole of a one-character string. *)
Definition long_enough (w : list Ascii.ascii) : bool := 2 <=? length w.

Lemma nameMatch_loop_spec descs name fuel : forall start i,
  start <= i -> i < length descs -> length descs - i < fuel ->
  (S i = length descs -> start < i) ->
  nameMatch_loop descs name fuel start i =
    existsb (fun w => long_enough w && descMatch w name) (words_from descs start i).
Proof.
  assert (Hend : forall fuel start i, length descs <= i ->
      nameMatch_loop descs name fuel start i = false).
  { intros [|f] start i Hi; [done|]. simpl. by rewrite (proj2 (Nat.ltb_ge _ _) Hi). }
  induction fuel as [|fuel IH]; intros start i Hs Hi Hf Hlast; [lia|].
  cbn [nameMatch_loop]. rewrite (proj2 (Nat.ltb_lt _ _) Hi).
  destruct (ISWHITESPACE (char_at descs i)) eqn:Ec.
  - set (j := skip_while descs ISWHITESPACE (S (length descs)) (S i)).
    destruct (words_from_blank descs start i j Hi Ec eq_refl) as (-> & Hlt & Hcj & _).
    rewrite existsb_app, flush_substr by lia.
    assert (Hrest : nameMatch_loop descs name fuel j (S j) =
      existsb (fun w => long_enough w && descMatch w name) (words_from descs j j)).
    { destruct (decide (S j < length descs)).
      - rewrite words_from_run by (done || lia). apply IH; lia.
      - rewrite Hend by lia. destruct (decide (j = length descs)).
        + rewrite words_from_end by lia. by rewrite substr_nil.
        + rewrite words_from_run, words_from_end by (done || lia).
          rewrite flush_substr by lia. rewrite (proj2 (Nat.ltb_lt _ _)) by lia.
          cbn [existsb]. unfold long_enough. rewrite substr_length by lia.
          by replace (S j - j) with 1 by lia. }
    rewrite <- Hrest. clear Hrest.
    destruct (decide (start < i - 1)).
    + rewrite (proj2 (Nat.ltb_lt 0 i)), (proj2 (Nat.ltb_lt start (i - 1))),
        (proj2 (Nat.ltb_lt start i)) by lia.
      cbn [andb existsb]. unfold long_enough. rewrite substr_length by lia.
      rewrite (proj2 (Nat.ltb_lt 0 _)), (proj2 (Nat.leb_le 2 _)) by lia. cbn [andb].
      by destruct (descMatch _ name).
    + rewrite (proj2 (Nat.ltb_ge start (i - 1))) by lia. rewrite andb_false_r.
      cbn [length Nat.ltb Nat.leb andb]. case_match eqn:E; bool_prop; [|done].
      cbn [existsb]. unfold long_enough. rewrite substr_length by lia.
      by rewrite (proj2 (Nat.leb_gt 2 _)) by lia.
  - rewrite words_from_run by (done || lia).
    destruct (i + 1 =? length descs) eqn:E; bool_prop.
    + specialize (Hlast ltac:(lia)).
      rewrite words_from_end, flush_substr by lia.
      rewrite (proj2 (Nat.ltb_lt start (S i))) by lia.
      replace (i + 1 - start) with (S i - start) by lia.
      cbn [existsb]. unfold long_enough. rewrite substr_length by lia.
      rewrite (proj2 (Nat.ltb_lt 0 _)), (proj2 (Nat.leb_le 2 _)) by lia. cbn [andb].
      rewrite orb_false_r. destruct (descMatch _ name); [done|]. apply Hend. lia.
    + cbn [length Nat.ltb Nat.leb andb]. apply IH; lia.
Qed.

End NameMatchSpec.

(** ** Case-insensitive equality *)

Lemma all_pairs_tolower a b : length a = length b ->
  all_pairs (fun x y => Ascii.eqb (tolower x) (tolower y)) a b = true <->
  tolower <$> a = tolower <$> b.
Proof.
  revert b. induction a as [|x a IH]; intros [|y b] Hl; try done.
  injection Hl as Hl. cbn [all_pairs fmap list_fmap].
  destruct (Ascii.eqb_spec (tolower x) (tolower y)) as [E|E].
  - rewrite IH by done. rewrite E. split; [by intros ->|by intros [= ->]].
  - split; [done|]. by intros [= ? _].
Qed.

Lemma iequals_spec a b :
  iequals a b = true <-> tolower <$> explode a = tolower <$> explode b.
Proof.
  unfold iequals. case_match eqn:E; bool_prop.
  - by rewrite all_pairs_tolower.
  - split; [done|]. intros H. apply (f_equal length) in H.
    rewrite !length_fmap in H. lia.
Qed.

Lemma all_pairs_eqb a b : length a = length b ->
  all_pairs Ascii.eqb a b = true <-> a = b.
Proof.
  revert b. induction a as [|x a IH]; intros [|y b] Hl; try done.
  injection Hl as Hl. cbn [all_pairs].
  destruct (Ascii.eqb_spec x y) as [->|E].
  - rewrite IH by done. split; [by intros ->|by intros [= ->]].
  - split; [done|]. by intros [= ? _].
Qed.

(** [equals] decides equality of strings. *)
Lemma equals_spec a b : equals a b = true <-> a = b.
Proof.
  unfold equals. case_match eqn:E; bool_prop.
  - rewrite all_pairs_eqb by done. split; [apply explode_inj|by intros ->].
  - split; [done|]. intros ->. lia.
Qed.

Lemma iequals_refl a : iequals a a = true.
Proof. by apply iequals_spec. Qed.

Lemma iequals_sym a b : iequals a b = iequals b a.
Proof.
  apply eq_true_iff_eq. rewrite !iequals_spec. by split.
Qed.

Lemma iequals_trans a b c : iequals a b = true -> iequals b c = true -> iequals a c = true.
Proof. rewrite !iequals_spec. by intros -> ->. Qed.

#[export] Hint Resolve iequals_refl iequals_trans : uscxml.

(** The interface is implementable: the library's own [iequals]. *)
#[export] Instance ascii_boost : BoostString := { boost_iequals := iequals }.

#[export] Instance ascii_boost_laws : BoostStringLaws (H := ascii_boost).
Proof. constructor. apply iequals_spec. Qed.

(** ** Descriptors *)

(** A descriptor accepts a name when, without a final star and then a final
    dot, it is empty, equals the name up to case, or is followed by a dot in it. *)
Definition desc_accepts (w name : list Ascii.ascii) : Prop :=
  let d := strip_last "." (strip_last "*" w) in
  d = [] \/ tolower <$> d = tolower <$> name \/ exists rest, name = d ++ ["."%char] ++ rest.

Lemma is_prefix_dot d name :
  is_prefix d name && Ascii.eqb (char_at name (length d)) "." = true <->
  exists rest, name = d ++ ["."%char] ++ rest.
Proof.
  unfold is_prefix. split.
  - intros H. bool_prop. apply Ascii.eqb_eq in H0.
    destruct (decide (length d < length name)) as [Hl|Hl].
    2:{ rewrite char_at_ge in H0 by lia. discriminate. }
    exists (drop (S (length d)) name).
    rewrite <- (take_drop (length d) name) at 1. rewrite <- H.
    by rewrite (drop_char_at name) by done; rewrite H0.
  - intros [rest ->]. apply andb_true_iff. split.
    + apply bool_decide_eq_true. by rewrite take_app_length.
    + unfold char_at. rewrite lookup_app_r by done. by rewrite Nat.sub_diag.
Qed.

Lemma descMatch_spec `{BoostStringLaws} w name :
  descMatch w name = true <-> desc_accepts w name.
Proof.
  unfold descMatch, desc_accepts. set (d := strip_last _ _).
  destruct d as [|c d'] eqn:Ed; [simpl; by split; auto|]. rewrite <- Ed.
  assert (Hd : d <> []) by by rewrite Ed. clearbody d. clear Ed c d'.
  rewrite (proj2 (Nat.eqb_neq (length d) 0)) by by destruct d.
  case_match eqn:El; bool_prop.
  - split; [done|]. intros [?|[E|[rest ->]]]; [done| |].
    + apply (f_equal length) in E. rewrite !length_fmap in E. lia.
    + rewrite !length_app in El. lia.
  - destruct (boost_iequals (implode d) (implode name)) eqn:Eb.
    + apply boost_iequals_spec in Eb. rewrite !explode_implode in Eb. naive_solver.
    + rewrite is_prefix_dot. split; [naive_solver|]. intros [?|[E|?]]; [done| |done].
      assert (boost_iequals (implode d) (implode name) = true); [|congruence].
      apply boost_iequals_spec. by rewrite !explode_implode.
Qed.

(** ** Numeric attributes *)

Lemma find_first_such_prefix p s from :
  from < length s -> p (char_at s from) = true -> find_first_such p s from = Some from.
Proof.
  intros Hf Hp. unfold find_first_such.
  replace (length s - from) with (S (length s - S from)) by lia.
  cbn [seq]. by rewrite filter_cons_True.
Qed.

Lemma find_last_such_none p s : (forall c, c ∈ s -> p c = false) -> find_last_such p s = None.
Proof.
  intros Hn. unfold find_last_such.
  assert (filter (fun i => p (char_at s i) = true) (seq 0 (length s)) = []) as ->; [|done].
  apply elem_of_nil_inv. intros i. rewrite list_elem_of_filter, elem_of_seq.
  intros [Hp Hi]. rewrite (Hn (char_at s i)) in Hp; [done|].
  apply list_elem_of_lookup. exists i. apply lookup_char_at. lia.
Qed.

Lemma find_last_such_end p s i :
  i < length s -> p (char_at s i) = true ->
  (forall j, i < j < length s -> p (char_at s j) = false) ->
  find_last_such p s = Some i.
Proof.
  intros Hi Hp Hn. unfold find_last_such.
  replace (length s) with (S i + (length s - S i)) by lia.
  rewrite seq_app, filter_app.
  assert (filter (fun i => p (char_at s i) = true) (seq (0 + S i) (length s - S i)) = []) as ->.
  { apply elem_of_nil_inv. intros j. rewrite list_elem_of_filter, elem_of_seq.
    intros [Hpj Hj]. rewrite Hn in Hpj by lia. done. }
  rewrite app_nil_r, seq_S, filter_app. cbn [plus].
  rewrite (filter_cons_True _ i), filter_nil by done. by rewrite last_snoc.
Qed.

Lemma char_at_app_l (a b : list Ascii.ascii) i : i < length a -> char_at (a ++ b) i = char_at a i.
Proof. intros. unfold char_at. by rewrite lookup_app_l. Qed.

Lemma char_at_app_r (a b : list Ascii.ascii) i :
  length a <= i -> char_at (a ++ b) i = char_at b (i - length a).
Proof. intros. unfold char_at. by rewrite lookup_app_r. Qed.

Lemma char_at_forall (P : Ascii.ascii -> Prop) (s : list Ascii.ascii) i :
  Forall P s -> i < length s -> P (char_at s i).
Proof. intros HF Hi. eapply Forall_lookup_1; [done|]. by apply lookup_char_at. Qed.

(** ** Properties *)

(** A number is split from the unit that directly follows it, if any. *)
Lemma parseNumAttr_split v u :
  v <> [] -> Forall (fun c => num_char c = true /\ blank_char c = false) v ->
  Forall (fun c => num_char c = false /\ blank_char c = false) u ->
  parseNumAttr (implode (v ++ u)) = mkNumAttr (implode v) (implode u).
Proof.
  intros Hv HFv HFu.
  assert (Hlv : 0 < length v) by (destruct v; simpl; [done|lia]).
  unfold parseNumAttr. rewrite explode_implode.
  rewrite find_first_such_prefix with (from := 0);
    [|rewrite length_app; lia|rewrite char_at_app_l by lia; by apply (char_at_forall _ v 0 HFv)].
  rewrite (find_last_such_end _ _ (length v - 1)).
  2:{ rewrite length_app; lia. }
  2:{ rewrite char_at_app_l by lia. apply (char_at_forall _ v _ HFv); lia. }
  2:{ intros j Hj. rewrite length_app in Hj. rewrite char_at_app_r by lia.
      apply (char_at_forall _ u _ HFu); lia. }
  replace (length v - 1 + 1) with (length v) by lia.
  assert (Hval : implode (substr (v ++ u) 0 (length v - 1 - 0 + 1)) = implode v).
  { unfold substr. rewrite drop_0. replace (length v - 1 - 0 + 1) with (length v) by lia.
    by rewrite take_app_length. }
  destruct (decide (u = [])) as [->|Hu].
  { unfold find_first_such at 1. rewrite length_app. cbn [length].
    replace (length v + 0 - length v) with 0 by lia. cbn. by rewrite Hval. }
  assert (Hlu : 0 < length u) by (destruct u; simpl; [done|lia]).
  rewrite find_first_such_prefix;
    [|rewrite length_app; lia
     |rewrite char_at_app_r, Nat.sub_diag by lia; by rewrite (proj2 (char_at_forall _ u 0 HFu Hlu))].
  rewrite find_last_such_none.
  2:{ intros c [Hc|Hc]%elem_of_app; [by apply (proj1 (Forall_forall _ v) HFv c)
        |by apply (proj1 (Forall_forall _ u) HFu c)]. }
  rewrite Hval. f_equal. unfold substr. rewrite drop_app_length, length_app. f_equal.
  apply take_ge. lia.
Qed.

(** [tokenize] returns exactly the maximal runs of non-blank characters, in order. *)
Theorem tokenize_correct line :
  tokenize line =
    implode <$> words_by (fun c => Ascii.eqb c " " || (true && ISWHITESPACE c)) [] (explode line).
Proof. unfold tokenize. by rewrite tokenize_chars_words. Qed.

(** [spaceNormalize] joins the words of the text with single blanks, but
    loses a last word of one character that follows white space. *)
Theorem spaceNormalize_words text :
  let ws := words_by ISWHITESPACE [] (explode text) in
  spaceNormalize text =
    implode (join_from [] (if single_tail (explode text) then removelast ws else ws)).
Proof.
  simpl. unfold spaceNormalize, spaceNormalize_chars. set (s := explode text).
  assert (Hc : s = [] \/ 0 < length s) by (destruct s; simpl; [by left|right; lia]).
  destruct Hc as [->|Hc]; [done|].
  rewrite spaceNormalize_loop_spec by lia. cbn [app]. f_equal. f_equal.
  unfold emitted, words_from. rewrite substr_nil, drop_0.
  destruct (single_tail s) eqn:E; [|done].
  unfold single_tail in E. bool_prop. apply Nat.leb_le in H.
  by rewrite (proj2 (Nat.ltb_lt 0 _)) by lia.
Qed.

(** C34: an event name matches a descriptor list exactly when both are
    non-empty and either they are equal up to case or some blank-separated
    descriptor of at least two characters (or the only one of a
    one-character list) accepts the name. *)
Theorem nameMatch_spec `{BoostStringLaws} (descs name : string) :
  nameMatch descs name = true <->
  explode descs <> [] /\ explode name <> [] /\
  (tolower <$> explode descs = tolower <$> explode name \/
   exists w, w ∈ words_by ISWHITESPACE [] (explode descs) /\
     (2 <= length w \/ length (explode descs) = 1) /\ desc_accepts w (explode name)).
Proof.
  unfold nameMatch. set (ds := explode descs). set (nm := explode name).
  destruct (decide (ds = [])) as [->|Hds]; [simpl; naive_solver|].
  destruct (decide (nm = [])) as [->|Hnm]; [rewrite orb_true_r; naive_solver|].
  rewrite (proj2 (Nat.eqb_neq (length ds) 0)) by by destruct ds.
  rewrite (proj2 (Nat.eqb_neq (length nm) 0)) by by destruct nm.
  cbn [orb]. destruct (boost_iequals descs name) eqn:Eb.
  { apply boost_iequals_spec in Eb. naive_solver. }
  assert (Hne : tolower <$> ds <> tolower <$> nm).
  { intros E. apply boost_iequals_spec in E. congruence. }
  assert (Hloop : nameMatch_loop ds nm (S (length ds)) 0 0 = true <->
    exists w, w ∈ words_by ISWHITESPACE [] ds /\
      (2 <= length w \/ length ds = 1) /\ descMatch w nm = true).
  { assert (0 < length ds) by (destruct ds; simpl; [done|lia]).
    destruct (decide (length ds = 1)) as [E1|E1].
    - destruct ds as [|c [|? ?]]; try done. clear.
      cbn -[ISWHITESPACE descMatch]. destruct (ISWHITESPACE c) eqn:Ec; simpl.
      + split; [done|]. intros (w & Hw & _). by apply elem_of_nil in Hw.
      + split.
        * case_match eqn:E; [intros _|done]. exists [c]. set_solver.
        * intros (w & Hw & _ & Hm). apply list_elem_of_singleton in Hw as ->. by rewrite Hm.
    - rewrite nameMatch_loop_spec by lia. unfold words_from. rewrite substr_nil, drop_0.
      rewrite existsb_exists. setoid_rewrite <- list_elem_of_In.
      setoid_rewrite andb_true_iff. unfold long_enough. setoid_rewrite Nat.leb_le.
      naive_solver. }
  rewrite Hloop. setoid_rewrite descMatch_spec. naive_solver.
Qed.

(** [unescape] inverts [escape] on every byte string. *)
Lemma unescape_escape a : unescape (escape a) = a.
Proof.
  induction a as [|c a IH]; [done|]. cbn [escape].
  destruct (escape_letter c) as [l|] eqn:El.
  - cbn [unescape]. change (Ascii.eqb backslash backslash) with true. cbn iota. rewrite IH.
    f_equal. clear -El. by destruct c as [[] [] [] [] [] [] [] []]; vm_compute in El;
      first [discriminate El | injection El as <-].
  - cbn [unescape]. destruct (Ascii.eqb_spec c backslash) as [->|_]; [done|]. by rewrite IH.
Qed.

(** The wildcard of a descriptor list is ignored when it is not alone. *)
Lemma nameMatch_wildcard_lost :
  nameMatch "foo *" "bar" = false /\ nameMatch "*" "bar" = true /\
  nameMatch "* foo" "bar" = false.
Proof. by vm_compute. Qed.

(** The numeral of [4] comes out as "400", and padding stops half-way. *)
Lemma toBinStr_wrong : toBinStr 4 0 = "400"%string /\ toBinStr 1 4 = "001"%string.
Proof. by vm_compute. Qed.

Lemma nameMatch_spec_witness : nameMatch "error foo" "foo.bar" = true.
Proof.
  apply (nameMatch_spec (H := ascii_boost)).
  split; [done|]. split; [done|]. right. exists (explode "foo").
  split; [|split; [left; vm_compute; lia|]].
  - change (explode "foo" ∈ [explode "error"; explode "foo"]).
    apply list_elem_of_further, list_elem_of_here.
  - right; right. by exists (explode "bar").
Defined.
