(* ===== verification/Dom.v ===== *)
(** * The document: an interface to the XML DOM and [util/DOM.cpp]

    Xerces is not part of the sources. [DomOps] lists the accessors the code
    calls on elements and [DomLaws] what the DOM recommendation promises of
    them: children and parents correspond, no element occurs twice, the tree
    is finite. [DOMUtils] is modelled on top of the interface. *)

From stdpp Require Import base list strings sorting pretty.
From S2P Require Import Prelude Strings.

Local Open Scope nat_scope.

(** The accessors of [DOMElement]. [getParentNode] is [None] for the document
    element, whose parent is no element. [nodeDepth] and [nodeSize] bound the
    upward and downward walks. *)
Class DomOps (node : Type) := {
  getParentNode : node -> option node;
  childElements : node -> list node;
  textChildren : node -> list string;
  getTagName : node -> string;
  getLocalName : node -> string;
  getPrefix : node -> option string;
  getAttribute : node -> string -> option string;
  nodeDepth : node -> nat;
  nodeSize : node -> nat;
}.

Class DomLaws (node : Type) `{DomOps node} : Prop := {
  dom_parent_child p c : getParentNode c = Some p <-> c ∈ childElements p;
  dom_children_NoDup p : NoDup (childElements p);
  dom_depth p c : getParentNode c = Some p -> nodeDepth p < nodeDepth c;
  dom_tag e : getTagName e =
    (match getPrefix e with Some p => p +:+ ":" | None => "" end +:+ getLocalName e)%string;
  dom_size p : list_sum (nodeSize <$> childElements p) < nodeSize p;
}.

(** [HAS_ATTR], [ATTR] and [XML_PREFIX]: a missing attribute reads as "". *)
Definition HAS_ATTR `{DomOps node} (e : node) (attr : string) : bool :=
  match getAttribute e attr with Some _ => true | None => false end.

Definition ATTR `{DomOps node} (e : node) (attr : string) : string :=
  default ""%string (getAttribute e attr).

Definition XML_PREFIX `{DomOps node} (e : node) : string :=
  match getPrefix e with Some p => (p +:+ ":")%string | None => ""%string end.

Inductive Order := POSTFIX | DOCUMENT | NO_RECURSE.

Section DomUtils.
Context {node : Type} `{!EqDecision node} {D : DomOps node}.

(** The elements reached by [n = n->getParentNode()] from [n] on, nearest first. *)
Fixpoint parents_fuel (fuel : nat) (n : node) : list node :=
  match fuel with
  | 0 => []
  | S fuel =>
      match getParentNode n with
      | Some p => p :: parents_fuel fuel p
      | None => []
      end
  end.

Definition parents (n : node) : list node := parents_fuel (nodeDepth n) n.

Definition hasIntersection (l1 l2 : list node) : bool :=
  existsb (fun i => existsb (fun j => bool_decide (i = j)) l2) l1.

Definition isMember (n : node) (l : list node) : bool :=
  existsb (fun e => bool_decide (e = n)) l.

Definition getNearestAncestor (n : node) (tagName : string) : option node :=
  List.find (fun p => iequals (getTagName p) tagName) (parents n).

(** Both arguments may be NULL. *)
Definition isDescendant (s1 s2 : option node) : bool :=
  match s1, s2 with
  | Some s1, Some s2 => existsb (fun p => bool_decide (s2 = p)) (parents s1)
  | _, _ => false
  end.

Definition tag_in (elements : list string) (e : node) : bool :=
  bool_decide (getTagName e ∈ elements).

(** The recursion does not enter an embedded document unless asked to. *)
Definition enters (includeEmbeddedDoc : bool) (root child : node) : bool :=
  includeEmbeddedDoc || negb (String.eqb (getTagName child) (XML_PREFIX root +:+ "scxml")).

Fixpoint filterElementGeneric_fuel (fuel : nat) (elements : list string) (root : node)
    (order : Order) (includeEmbeddedDoc includeRoot : bool) : list node :=
  match fuel with
  | 0 => []
  | S fuel =>
      let root_here := if includeRoot && tag_in elements root then [root] else [] in
      (match order with NO_RECURSE | DOCUMENT => root_here | POSTFIX => [] end) ++
      flat_map (fun currElement =>
        match order with
        | NO_RECURSE => if tag_in elements currElement then [currElement] else []
        | _ =>
            if enters includeEmbeddedDoc root currElement
            then filterElementGeneric_fuel fuel elements currElement order includeEmbeddedDoc true
            else []
        end) (childElements root) ++
      (match order with POSTFIX => root_here | _ => [] end)
  end.

Definition filterElementGeneric (elements : list string) (root : node) (order : Order)
    (includeEmbeddedDoc includeRoot : bool) : list node :=
  filterElementGeneric_fuel (S (nodeSize root)) elements root order includeEmbeddedDoc includeRoot.

Definition inPostFixOrder (elements : list string) (root : node) : list node :=
  filterElementGeneric elements root POSTFIX false true.

Definition inDocumentOrder (elements : list string) (root : node) : list node :=
  filterElementGeneric elements root DOCUMENT false true.

Definition filterChildElements (tagName : string) (n : node) (recurse : bool) : list node :=
  filterElementGeneric [tagName] n (if recurse then DOCUMENT else NO_RECURSE) true false.

(** The overload for a node set. *)
Definition filterChildElementsOf (tagName : string) (nodeSet : list node) (recurse : bool) : list node :=
  flat_map (fun n => filterChildElements tagName n recurse) nodeSet.

Fixpoint before (n : node) (l : list node) : list node :=
  match l with
  | [] => []
  | x :: l => if bool_decide (x = n) then [] else x :: before n l
  end.

(** The element siblings that [getPreviousSibling] reaches from [n]. *)
Definition previousSiblings (n : node) : list node :=
  match getParentNode n with
  | Some p => before n (childElements p)
  | None => []
  end.

Definition sameTagBefore (n : node) : nat :=
  length (List.filter (fun s => iequals (getTagName s) (getTagName n)) (previousSiblings n)).

(** [std::replace] of dots and commas. *)
Definition underscored (s : string) : string :=
  implode ((fun c => if Ascii.eqb c "." || Ascii.eqb c "," then "_"%char else c) <$> explode s).

Fixpoint idForNode_walk (chain : list node) (nodeId seperator : string) : string :=
  match chain with
  | [] => nodeId
  | elem :: chain =>
      if HAS_ATTR elem "id"
      then underscored (ATTR elem "id") +:+ seperator +:+ nodeId
      else idForNode_walk chain
             (getTagName elem +:+ pretty (sameTagBefore elem) +:+ seperator +:+ nodeId) "_"
  end.

Definition idForNode (n : node) : string := idForNode_walk (n :: parents n) "" "".

Definition dquote : string := String.String (Ascii.ascii_of_nat 34) String.EmptyString.

(** [xPathForNode(node, ns)] for an element. *)
Fixpoint xPathForNode_walk (ns nsPrefix : string) (chain : list node) (xPath : string) : string :=
  match chain with
  | [] => xPath
  | elem :: chain =>
      if HAS_ATTR elem "id" then
        if String.eqb ns "*"
        then "//*[local-name() = " +:+ dquote +:+ getTagName elem +:+ dquote +:+ "][@id=" +:+
             dquote +:+ ATTR elem "id" +:+ dquote +:+ "]" +:+ xPath
        else "//" +:+ nsPrefix +:+ getTagName elem +:+ "[@id=" +:+ dquote +:+
             ATTR elem "id" +:+ dquote +:+ "]" +:+ xPath
      else
        let index : string := pretty (S (sameTagBefore elem)) in
        xPathForNode_walk ns nsPrefix chain
          (if String.eqb ns "*"
           then "/*[local-name() = " +:+ dquote +:+ getTagName elem +:+ dquote +:+ "][" +:+
                index +:+ "]" +:+ xPath
           else "/" +:+ nsPrefix +:+ getTagName elem +:+ "[" +:+ index +:+ "]" +:+ xPath)
  end.

Definition xPathForNode (n : node) (ns : string) : string :=
  let nsPrefix := if String.eqb ns "" then ""%string else (ns +:+ ":")%string in
  xPathForNode_walk ns nsPrefix (n :: parents n) "".

End DomUtils.

(** ** Parent chains *)

Lemma dom_height `{DomLaws node} p c : c ∈ childElements p -> nodeSize c < nodeSize p.
Proof.
  intros Hc. pose proof (dom_size p) as Hs.
  pose proof (list_sum_elem nodeSize (childElements p) c Hc). lia.
Qed.

Section ParentLemmas.
Context {node : Type} `{!EqDecision node} {D : DomOps node} {DL : DomLaws node}.

Lemma parents_fuel_enough fuel n :
  nodeDepth n <= fuel -> parents_fuel fuel n = parents n.
Proof.
  unfold parents. revert n. induction (lt_wf fuel) as [fuel _ IH]. intros n Hn.
  destruct fuel as [|fuel].
  { by replace (nodeDepth n) with 0 by lia. }
  destruct (getParentNode n) as [p|] eqn:E.
  2:{ simpl. rewrite E. destruct (nodeDepth n); simpl; [done|by rewrite E]. }
  pose proof (dom_depth p n E) as Hd. simpl. rewrite E.
  destruct (nodeDepth n) as [|d] eqn:Ed; [lia|]. simpl. rewrite E. f_equal.
  rewrite (IH fuel) by lia. destruct (decide (d < S fuel)); [|lia].
  symmetry. apply IH; lia.
Qed.

Lemma parents_unfold n :
  parents n = match getParentNode n with Some p => p :: parents p | None => [] end.
Proof.
  rewrite <- (parents_fuel_enough (S (nodeDepth n))) by lia. simpl.
  case_match eqn:E; [|done]. apply dom_depth in E. by rewrite parents_fuel_enough by lia.
Qed.

(** Induction from the document element downwards. *)
Lemma parent_ind (P : node -> Prop) :
  (forall n, (forall p, getParentNode n = Some p -> P p) -> P n) -> forall n, P n.
Proof.
  intros Hs n. remember (nodeDepth n) as d eqn:Hd. revert n Hd.
  induction (lt_wf d) as [d _ IH]. intros n ->. apply Hs. intros p Hp.
  apply (IH (nodeDepth p)); [|done]. by apply dom_depth.
Qed.

Lemma parents_depth a n : a ∈ parents n -> nodeDepth a < nodeDepth n.
Proof.
  revert a. induction n as [n IH] using parent_ind. intros a.
  rewrite parents_unfold. case_match eqn:E; [|by intros ?%elem_of_nil].
  pose proof (dom_depth _ _ E). intros [->|Ha]%elem_of_cons; [done|].
  specialize (IH _ eq_refl _ Ha). lia.
Qed.

Lemma parents_irrefl n : n ∉ parents n.
Proof. intros Hn%parents_depth. lia. Qed.

Lemma parents_trans a b c : a ∈ parents b -> b ∈ parents c -> a ∈ parents c.
Proof.
  intros Ha. induction c as [c IH] using parent_ind.
  rewrite (parents_unfold c). case_match eqn:E; [|by intros ?%elem_of_nil].
  intros [->|Hb]%elem_of_cons; apply elem_of_cons; right; [done|]. by apply (IH n).
Qed.

Lemma parents_child p c : c ∈ childElements p -> parents c = p :: parents p.
Proof.
  intros Hc%dom_parent_child. rewrite parents_unfold. by rewrite Hc.
Qed.

Lemma parents_NoDup n : NoDup (parents n).
Proof.
  induction n as [n IH] using parent_ind. rewrite parents_unfold.
  case_match eqn:E; [|constructor]. constructor; [apply parents_irrefl|by apply IH].
Qed.

(** Of two elements on one chain one is above the other. *)
Lemma parents_linear a b x :
  a ∈ x :: parents x -> b ∈ x :: parents x ->
  a = b \/ a ∈ parents b \/ b ∈ parents a.
Proof.
  revert a b. induction x as [x IH] using parent_ind. intros a b.
  rewrite parents_unfold. case_match eqn:E; [|set_solver].
  intros [->|Ha]%elem_of_cons [->|Hb]%elem_of_cons.
  - by left.
  - right; right. rewrite (parents_unfold x), E. done.
  - right; left. rewrite (parents_unfold x), E. done.
  - by apply (IH n).
Qed.

(** Different children of one element have no common descendant. *)
Lemma siblings_disjoint p c1 c2 x :
  c1 ∈ childElements p -> c2 ∈ childElements p -> c1 <> c2 ->
  c1 ∈ x :: parents x -> c2 ∈ x :: parents x -> False.
Proof.
  intros H1 H2 Hne Hx1 Hx2.
  assert (Hup : forall a b, a ∈ childElements p -> b ∈ childElements p -> a ∈ parents b -> False).
  { intros a b Ha Hb. rewrite (parents_child p b) by done.
    pose proof (dom_depth p a (proj2 (dom_parent_child p a) Ha)).
    intros [->|Hp]%elem_of_cons; [lia|]. apply parents_depth in Hp. lia. }
  destruct (parents_linear c1 c2 x) as [?|[?|?]]; eauto.
Qed.

Lemma isDescendant_spec a b :
  isDescendant (Some a) (Some b) = true <-> b ∈ parents a.
Proof.
  unfold isDescendant. rewrite existsb_exists. setoid_rewrite <- list_elem_of_In.
  setoid_rewrite bool_decide_eq_true. naive_solver.
Qed.

Lemma isMember_spec n (l : list node) : isMember n l = true <-> n ∈ l.
Proof.
  unfold isMember. rewrite existsb_exists. setoid_rewrite <- list_elem_of_In.
  setoid_rewrite bool_decide_eq_true. naive_solver.
Qed.

Lemma hasIntersection_spec (l1 l2 : list node) :
  hasIntersection l1 l2 = true <-> exists x, x ∈ l1 /\ x ∈ l2.
Proof.
  unfold hasIntersection. rewrite existsb_exists.
  setoid_rewrite <- list_elem_of_In. setoid_rewrite existsb_exists.
  setoid_rewrite <- list_elem_of_In. setoid_rewrite bool_decide_eq_true. naive_solver.
Qed.

End ParentLemmas.

#[export] Hint Resolve parents_irrefl parents_trans parents_NoDup : uscxml.

(** ** Document and postfix order *)

Section OrderLemmas.
Context {node : Type} `{!EqDecision node} {D : DomOps node} {DL : DomLaws node}.
Context (emb : bool).

(** [x] is [r] or reached from it without entering an embedded document
    (unless [emb]). *)
Inductive in_doc : node -> node -> Prop :=
| in_doc_here r : in_doc r r
| in_doc_step r c x :
    c ∈ childElements r -> enters emb r c = true -> in_doc c x -> in_doc r x.

Lemma in_doc_parents r x : in_doc r x -> r ∈ x :: parents x.
Proof.
  induction 1 as [r|r c x Hc He Hx IH]; [by left|].
  apply elem_of_cons in IH as [<-|IH].
  - rewrite (parents_child r c) by done. right. by left.
  - right. eapply parents_trans; [|done]. rewrite (parents_child r c) by done. by left.
Qed.

Lemma in_doc_trans r y x : in_doc r y -> in_doc y x -> in_doc r x.
Proof. induction 1; eauto using in_doc_step. Qed.

(** The relation between an earlier and a later element of the result. *)
Definition order_rel (ord : Order) (x y : node) : Prop :=
  x <> y /\ match ord with POSTFIX => x ∉ parents y | _ => y ∉ parents x end.

Section Generic.
Context (els : list string) (ord : Order) (Hord : ord <> NO_RECURSE).

Lemma filterElementGeneric_elem fuel root incl x :
  nodeSize root < fuel ->
  x ∈ filterElementGeneric_fuel fuel els root ord emb incl <->
  tag_in els x = true /\
  ((incl = true /\ x = root) \/
   exists c, c ∈ childElements root /\ enters emb root c = true /\ in_doc c x).
Proof.
  revert root incl x. induction fuel as [|fuel IH]; intros root incl x Hf; [lia|].
  assert (Hmid : x ∈ flat_map (fun c => if enters emb root c
        then filterElementGeneric_fuel fuel els c ord emb true else []) (childElements root) <->
      tag_in els x = true /\
      exists c, c ∈ childElements root /\ enters emb root c = true /\ in_doc c x).
  { rewrite elem_of_flat_map. split.
    - intros (c & Hc & Hx). destruct (enters emb root c) eqn:He; [|by apply elem_of_nil in Hx].
      apply IH in Hx as (Ht & Hx); [|apply dom_height in Hc; lia]. split; [done|].
      exists c. split; [done|]. split; [done|].
      destruct Hx as [[_ ->]|(c' & Hc' & He' & Hx)]; eauto using in_doc.
    - intros (Ht & c & Hc & He & Hx). exists c. split; [done|]. rewrite He.
      apply IH; [apply dom_height in Hc; lia|]. split; [done|].
      inversion Hx; subst; [by left|right; eauto]. }
  assert (Hroot : x ∈ (if incl && tag_in els root then [root] else []) <->
      tag_in els x = true /\ incl = true /\ x = root).
  { clear IH Hmid. destruct incl; simpl.
    - destruct (tag_in els root) eqn:Ht.
      + rewrite list_elem_of_singleton. split; [by intros ->|by intros (_ & _ & ->)].
      + split; [by intros ?%elem_of_nil|]. intros (Hx & _ & ->). congruence.
    - split; [by intros ?%elem_of_nil|by intros (_ & ? & _)]. }
  cbn [filterElementGeneric_fuel].
  destruct ord; try done; rewrite ?app_nil_l, ?app_nil_r, !elem_of_app, Hroot.
  - rewrite Hmid. tauto.
  - rewrite Hmid. tauto.
Qed.

Lemma filterElementGeneric_sorted fuel root incl :
  nodeSize root < fuel ->
  StronglySorted (order_rel ord) (filterElementGeneric_fuel fuel els root ord emb incl).
Proof.
  revert root incl. induction fuel as [|fuel IH]; intros root incl Hf; [lia|].
  assert (Hmid : StronglySorted (order_rel ord) (flat_map (fun c => if enters emb root c
        then filterElementGeneric_fuel fuel els c ord emb true else []) (childElements root))).
  { apply StronglySorted_flat_map; [apply dom_children_NoDup| |].
    - intros c Hc. case_match; [|constructor]. apply IH. apply dom_height in Hc. lia.
    - assert (Hin : forall c x, c ∈ childElements root ->
        x ∈ (if enters emb root c
             then filterElementGeneric_fuel fuel els c ord emb true else []) ->
        c ∈ x :: parents x).
      { intros c x Hc Hx. case_match; [|by apply elem_of_nil in Hx].
        apply filterElementGeneric_elem in Hx as (_ & Hx);
          [|apply dom_height in Hc; lia].
        destruct Hx as [[_ ->]|(c' & Hc' & He' & Hx)]; [by left|].
        apply in_doc_parents. eauto using in_doc. }
      intros c1 c2 x y H1 H2 Hne Hx%Hin Hy%Hin; try done.
      assert (Hd : forall z, c1 ∈ z :: parents z -> c2 ∈ z :: parents z -> False)
        by (intros; by eapply (siblings_disjoint root c1 c2)).
      split; [intros ->; by eapply Hd|].
      assert (Hup : forall a b c, c ∈ a :: parents a -> a ∈ parents b -> c ∈ b :: parents b).
      { intros a b c [->|Hc]%elem_of_cons Ha; right; [done|]. by eapply parents_trans. }
      destruct ord; intros Hp; [apply (Hd y)|apply (Hd x)|apply (Hd x)]; eauto. }
  assert (Hdown : forall x, x ∈ flat_map (fun c => if enters emb root c
        then filterElementGeneric_fuel fuel els c ord emb true else []) (childElements root) ->
      root ∈ parents x).
  { intros x (c & Hc & Hx)%elem_of_flat_map. case_match; [|by apply elem_of_nil in Hx].
    apply filterElementGeneric_elem in Hx as (_ & Hx); [|apply dom_height in Hc; lia].
    assert (Hcx : c ∈ x :: parents x).
    { destruct Hx as [[_ ->]|(c' & Hc' & He' & Hx)]; [by left|].
      apply in_doc_parents. eauto using in_doc. }
    assert (root ∈ parents c) by (rewrite (parents_child root c) by done; by left).
    apply elem_of_cons in Hcx as [->|?]; [done|]. by eapply parents_trans. }
  assert (Hroot : StronglySorted (order_rel ord) (if incl && tag_in els root then [root] else []))
    by (case_match; [apply SSorted_cons; [apply SSorted_nil|apply Forall_nil_2]|apply SSorted_nil]).
  cbn [filterElementGeneric_fuel].
  assert (Hsep : forall x, x ∈ (if incl && tag_in els root then [root] else []) -> x = root).
  { intros x. case_match; [by intros ->%list_elem_of_singleton|by intros ?%elem_of_nil]. }
  assert (Habove : forall y, root ∈ parents y -> root <> y /\ y <> root /\ y ∉ parents root).
  { intros y Hy. split_and!; [intros ->|intros ->|intros Hp].
    - by apply parents_irrefl in Hy.
    - by apply parents_irrefl in Hy.
    - eapply parents_irrefl, parents_trans; [exact Hp|exact Hy]. }
  destruct ord; try done; rewrite ?app_nil_l, ?app_nil_r;
    apply StronglySorted_app_intro; try done.
  - intros x y Hx%Hdown ->%Hsep. apply Habove in Hx as (Ha & Hb & Hc). split; [exact Hb|exact Hc].
  - intros x y ->%Hsep Hy%Hdown. apply Habove in Hy as (Ha & Hb & Hc). split; [exact Ha|exact Hc].
Qed.

End Generic.
End OrderLemmas.

Section DocumentOrder.
Context {node : Type} `{!EqDecision node} {D : DomOps node} {DL : DomLaws node}.

Lemma inDocumentOrder_elem els root x :
  x ∈ inDocumentOrder els root <-> tag_in els x = true /\ in_doc false root x.
Proof.
  unfold inDocumentOrder, filterElementGeneric.
  rewrite filterElementGeneric_elem by (done || lia). split.
  - intros (Ht & [[_ ->]|(c & Hc & He & Hx)]); split; eauto using in_doc.
  - intros (Ht & Hx). split; [done|]. inversion Hx; subst; eauto 6.
Qed.

Lemma inPostFixOrder_elem els root x :
  x ∈ inPostFixOrder els root <-> tag_in els x = true /\ in_doc false root x.
Proof.
  unfold inPostFixOrder, filterElementGeneric.
  rewrite filterElementGeneric_elem by (done || lia). split.
  - intros (Ht & [[_ ->]|(c & Hc & He & Hx)]); split; eauto using in_doc.
  - intros (Ht & Hx). split; [done|]. inversion Hx; subst; eauto 6.
Qed.

Lemma inDocumentOrder_sorted els root :
  StronglySorted (order_rel DOCUMENT) (inDocumentOrder els root).
Proof. apply filterElementGeneric_sorted; [done|lia]. Qed.

Lemma inPostFixOrder_sorted els root :
  StronglySorted (order_rel POSTFIX) (inPostFixOrder els root).
Proof. apply filterElementGeneric_sorted; [done|lia]. Qed.

Lemma order_rel_irrefl (ord : Order) (x : node) : ~ order_rel ord x x.
Proof. by intros [? _]. Qed.

Lemma inDocumentOrder_NoDup els root : NoDup (inDocumentOrder els root).
Proof.
  eapply StronglySorted_NoDup; [apply order_rel_irrefl|apply inDocumentOrder_sorted].
Qed.

Lemma inPostFixOrder_NoDup els root : NoDup (inPostFixOrder els root).
Proof.
  eapply StronglySorted_NoDup; [apply order_rel_irrefl|apply inPostFixOrder_sorted].
Qed.

(** Without recursion the filter selects children. *)
Lemma filterChildElements_elem tag n x :
  x ∈ filterChildElements tag n false <-> x ∈ childElements n /\ getTagName x = tag.
Proof.
  unfold filterChildElements, filterElementGeneric. cbn [filterElementGeneric_fuel andb].
  rewrite app_nil_l, app_nil_r, elem_of_flat_map. split.
  - intros (c & Hc & Hx). case_match eqn:E; [|by apply elem_of_nil in Hx].
    apply list_elem_of_singleton in Hx as ->. unfold tag_in in E. bool_prop.
    by apply list_elem_of_singleton in E.
  - intros (Hx & Ht). exists x. split; [done|].
    unfold tag_in. rewrite bool_decide_eq_true_2 by (by apply list_elem_of_singleton). by left.
Qed.

(** Both traversals list exactly the elements with a requested tag that
    are reachable without entering an embedded document, each once; document
    order puts an element before its descendants, postfix order after them. *)
Theorem traversal_orders els root :
  (forall x, x ∈ inDocumentOrder els root <-> tag_in els x = true /\ in_doc false root x) /\
  inPostFixOrder els root ≡ₚ inDocumentOrder els root /\
  (forall i j x y, inDocumentOrder els root !! i = Some x -> inDocumentOrder els root !! j = Some y ->
     x ∈ parents y -> i < j) /\
  (forall i j x y, inPostFixOrder els root !! i = Some x -> inPostFixOrder els root !! j = Some y ->
     x ∈ parents y -> j < i).
Proof.
  split; [intros; apply inDocumentOrder_elem|]. split; [|split].
  - apply NoDup_Permutation; [apply inPostFixOrder_NoDup|apply inDocumentOrder_NoDup|].
    intros x. by rewrite inDocumentOrder_elem, inPostFixOrder_elem.
  - intros i j x y Hi Hj Hp. destruct (decide (i < j)) as [|Hn]; [done|]. exfalso.
    destruct (decide (i = j)) as [->|]; [simplify_eq; by apply parents_irrefl in Hp|].
    pose proof (StronglySorted_lookup _ _ j i y x (inDocumentOrder_sorted els root)
      ltac:(lia) Hj Hi) as [_ Hr]. done.
  - intros i j x y Hi Hj Hp. destruct (decide (j < i)) as [|Hn]; [done|]. exfalso.
    destruct (decide (i = j)) as [->|]; [simplify_eq; by apply parents_irrefl in Hp|].
    pose proof (StronglySorted_lookup _ _ i j x y (inPostFixOrder_sorted els root)
      ltac:(lia) Hi Hj) as [_ Hr]. done.
Qed.

End DocumentOrder.

(** ** A finite document implements the interface *)

Record row := mkRow {
  row_parent : option nat;
  row_children : list nat;
  row_tag : string;
  row_attrs : list (string * string);
  row_text : list string;
  row_depth : nat;
  row_size : nat;
}.

(** XML as a term: tag, attributes, text, children. *)
Inductive xml := Xml (tag : string) (attrs : list (string * string))
    (text : list string) (children : list xml).

Fixpoint xml_size (t : xml) : nat :=
  match t with Xml _ _ _ cs => S (list_sum (xml_size <$> cs)) end.

Fixpoint child_ids (first : nat) (cs : list xml) : list nat :=
  match cs with
  | [] => []
  | c :: cs => first :: child_ids (first + xml_size c) cs
  end.

(** Elements are numbered in document order from [id] on. *)
Fixpoint rows_of (parent : option nat) (depth id : nat) (t : xml) : list row :=
  match t with
  | Xml tag attrs text cs =>
      mkRow parent (child_ids (S id) cs) tag attrs text depth (xml_size t) ::
      (fix go (first : nat) (cs : list xml) : list row :=
         match cs with
         | [] => []
         | c :: cs => rows_of (Some id) (S depth) first c ++ go (first + xml_size c) cs
         end) (S id) cs
  end.

Definition rows (t : xml) : list row := rows_of None 0 0 t.

Definition empty_row : row := mkRow None [] "" [] [] 0 1.

Fixpoint assoc (k : string) (l : list (string * string)) : option string :=
  match l with
  | [] => None
  | (k', v) :: l => if String.eqb k k' then Some v else assoc k l
  end.

Definition row_at (t : list row) (n : nat) : row := default empty_row (t !! n).

Definition table_dom (t : list row) : DomOps nat := {|
  getParentNode n := row_parent (row_at t n);
  childElements n := row_children (row_at t n);
  textChildren n := row_text (row_at t n);
  getTagName n := row_tag (row_at t n);
  getLocalName n := row_tag (row_at t n);
  getPrefix n := None;
  getAttribute n a := assoc a (row_attrs (row_at t n));
  nodeDepth n := row_depth (row_at t n);
  nodeSize n := row_size (row_at t n);
|}.

Definition row_ok (t : list row) (n : nat) : bool :=
  let r := row_at t n in
  bool_decide (NoDup (row_children r)) &&
  forallb (fun c => bool_decide (row_parent (row_at t c) = Some n)) (row_children r) &&
  (list_sum ((fun c => row_size (row_at t c)) <$> row_children r) <? row_size r) &&
  match row_parent r with
  | Some p => bool_decide (n ∈ row_children (row_at t p)) && (row_depth (row_at t p) <? row_depth r)
  | None => true
  end.

Definition table_ok (t : list row) : bool := forallb (row_ok t) (seq 0 (length t)).

Lemma table_row_ok t n : table_ok t = true -> row_ok t n = true.
Proof.
  intros Ht. destruct (decide (n < length t)) as [Hn|Hn].
  - unfold table_ok in Ht. rewrite forallb_forall in Ht. apply Ht.
    apply list_elem_of_In, elem_of_seq. lia.
  - unfold row_ok, row_at. by rewrite lookup_ge_None_2 by lia.
Qed.

Lemma row_ok_spec t n : row_ok t n = true ->
  NoDup (row_children (row_at t n)) /\
  (forall c, c ∈ row_children (row_at t n) -> row_parent (row_at t c) = Some n) /\
  list_sum ((fun c => row_size (row_at t c)) <$> row_children (row_at t n)) <
    row_size (row_at t n) /\
  (forall p, row_parent (row_at t n) = Some p ->
     n ∈ row_children (row_at t p) /\ row_depth (row_at t p) < row_depth (row_at t n)).
Proof.
  unfold row_ok. rewrite !andb_true_iff, bool_decide_eq_true, forallb_forall, Nat.ltb_lt.
  intros (((Hnd & Hc) & Hs) & Hp). split_and!; [done| |done|].
  - intros c Hin. apply list_elem_of_In, Hc in Hin. by bool_prop.
  - intros p E. rewrite E in Hp. by bool_prop.
Qed.

Lemma table_laws t : table_ok t = true -> @DomLaws nat (table_dom t).
Proof.
  intros Ht. assert (Hr := fun n => row_ok_spec t n (table_row_ok t n Ht)).
  constructor; simpl; intros p; destruct (Hr p) as (Hnd & Hc & Hs & Hp); try done.
  - intros c. split; [by apply Hr|apply Hc].
  - intros c. apply Hr.
Qed.

Definition sample_doc : list row := rows
  (Xml "scxml" [("initial", "a")] []
    [Xml "state" [("id", "a")] [] [Xml "transition" [("event", "e"); ("target", "b")] [] []];
     Xml "state" [("id", "b")] [] [Xml "invoke" [] [] [Xml "content" [] [] [Xml "scxml" [] [] []]]]]).

Lemma traversal_orders_witness :
  @inDocumentOrder nat (table_dom sample_doc) ["state"; "scxml"] 0 = [0; 1; 3] /\
  @inPostFixOrder nat (table_dom sample_doc) ["state"; "scxml"] 0 ≡ₚ [0; 1; 3].
Proof.
  split; [by vm_compute|].
  apply (traversal_orders (D := table_dom sample_doc) (DL := table_laws sample_doc eq_refl)
    ["state"; "scxml"] 0).
Defined.
