(* ===== verification/Predicates.v ===== *)
(** * State predicates: [util/Predicates.cpp]

    The kinds of states, source, targets and domain of a transition, exit
    sets and conflicts, over the DOM interface. A pointer that may be NULL is
    an [option]. *)

From stdpp Require Import base list strings.
From S2P Require Import Prelude Strings Dom.

Local Open Scope nat_scope.

Section Predicates.
Context {node : Type} `{!EqDecision node} {D : DomOps node}.

(** [isState(state, properOnly)] for a non-NULL element. *)
Definition isState (state : node) (properOnly : bool) : bool :=
  let localName := getLocalName state in
  if iequals "state" localName then true
  else if iequals "scxml" localName then true
  else if iequals "parallel" localName then true
  else if iequals "final" localName then true
  else if properOnly then false
  else if iequals "history" localName then true
  else iequals "initial" localName.

Definition getChildStates (state : node) (properOnly : bool) : list node :=
  List.filter (fun childElem => isState childElem properOnly) (childElements state).

Definition getParentState (element : node) : option node :=
  List.find (fun p => isState p true) (parents element).

Definition getSourceState (transition : node) : option node :=
  match getParentNode transition with
  | Some p =>
      if iequals (getTagName p) (XML_PREFIX transition +:+ "initial")
      then getParentNode p else Some p
  | None => None
  end.

Definition isFinal (state : node) : bool :=
  if iequals "final" (getLocalName state) then true
  else HAS_ATTR state "final" && iequals "true" (ATTR state "final").

Definition has_child_states (state : node) : bool :=
  0 <? length (getChildStates state true).

Definition isAtomic (state : node) : bool :=
  if negb (isState state true) then false
  else if iequals "final" (getLocalName state) then true
  else if iequals "parallel" (getLocalName state) then false
  else negb (has_child_states state).

Definition isHistory (state : node) : bool := iequals "history" (getLocalName state).

Definition isParallel (state : node) : bool :=
  isState state true && iequals "parallel" (getLocalName state).

Definition isCompound (state : node) : bool :=
  if negb (isState state true) then false
  else if iequals (getLocalName state) "parallel" then false
  else has_child_states state.

Fixpoint takeWhile (p : node -> bool) (l : list node) : list node :=
  match l with
  | [] => []
  | x :: l => if p x then x :: takeWhile p l else []
  end.

(** The guards of the upward walk of [getProperAncestors]. *)
Definition ancestor_kind (n : node) : bool :=
  isState n true &&
  (iequals (getLocalName n) "parallel" || iequals (getLocalName n) "state" ||
   iequals (getLocalName n) "scxml").

Definition getProperAncestors (s1 : node) (s2 : option node) : list node :=
  if isState s1 false
  then takeWhile (fun n => ancestor_kind n && negb (bool_decide (Some n = s2))) (parents s1)
  else [].

(** [findLCCA] on the list [front :: rest]. *)
Definition findLCCA (front : node) (rest : list node) : option node :=
  let ancestors := getProperAncestors front None in
  let covers anc :=
    isCompound anc && forallb (fun s => isDescendant (Some s) (Some anc)) (front :: rest) in
  match List.find covers ancestors with
  | Some ancestor => Some ancestor
  | None => last ancestors
  end.

(** Breadth-first search for the state with an id. A queue element that is no
    state trips the assertion of the code; only the root could be one. *)
Fixpoint getState_loop (fuel : nat) (stateId : string) (stateStack : list node) : option node :=
  match fuel, stateStack with
  | S fuel, curr :: stateStack =>
      if negb (isState curr false) then None
      else if HAS_ATTR curr "id" && String.eqb (ATTR curr "id") stateId then Some curr
      else getState_loop fuel stateId (stateStack ++ getChildStates curr false)
  | _, _ => None
  end.

Definition getState (stateId : string) (root : node) : option node :=
  getState_loop (S (nodeSize root)) stateId [root].

Definition getStates (stateIds : list string) (root : node) : list (option node) :=
  (fun i => getState i root) <$> stateIds.

Definition getTargetStates (transition root : node) : list node :=
  omap (fun i => getState i root) (tokenize (ATTR transition "target")).

Definition getTransitionDomain (transition root : node) : option node :=
  match getTargetStates transition root with
  | [] => None
  | tStates =>
      let transitionType :=
        if HAS_ATTR transition "type" then ATTR transition "type" else "external"%string in
      match getSourceState transition with
      | Some source =>
          if iequals transitionType "internal" && isCompound source &&
             forallb (fun t => isDescendant (Some t) (Some source)) tStates
          then Some source
          else findLCCA source tStates
      | None => None
      end
  end.

Definition getExitSet (transition root : node) : list node :=
  if HAS_ATTR transition "target" then
    match getTransitionDomain transition root with
    | None => []
    | Some domain =>
        let prefix := XML_PREFIX transition in
        let statesToExit :=
          inDocumentOrder [prefix +:+ "parallel"; prefix +:+ "state"; prefix +:+ "final"]%string domain in
        match statesToExit with
        | front :: rest => if bool_decide (front = domain) then rest else statesToExit
        | [] => []
        end
    end
  else [].

Definition same_source (s1 s2 : option node) : bool := bool_decide (s1 = s2).

Definition conflicts (t1 t2 root : node) : bool :=
  same_source (getSourceState t1) (getSourceState t2) ||
  isDescendant (getSourceState t1) (getSourceState t2) ||
  isDescendant (getSourceState t2) (getSourceState t1) ||
  hasIntersection (getExitSet t1 root) (getExitSet t2 root).

Definition getInitialStates (state : option node) (root : node) : list (option node) :=
  let state := default root state in
  if isAtomic state then []
  else if isParallel state then Some <$> getChildStates state true
  else if isCompound state then
    if HAS_ATTR state "initial" then getStates (tokenize (ATTR state "initial")) root
    else
      match filterChildElements (XML_PREFIX state +:+ "initial") state false with
      | initElem :: _ =>
          match filterChildElements (XML_PREFIX initElem +:+ "transition") initElem false with
          | initTrans :: _ =>
              if HAS_ATTR initTrans "target" then Some <$> getTargetStates initTrans root else []
          | [] => []
          end
      | [] =>
          match List.find (fun c => isState c true) (childElements state) with
          | Some childElem => [Some childElem]
          | None => []
          end
      end
  else [].

Definition getScxmlNode (n : node) : option node :=
  List.find (fun p => iequals (getLocalName p) "scxml") (n :: parents n).

Definition areFromSameMachine (n1 n2 : node) : bool :=
  bool_decide (getScxmlNode n1 = getScxmlNode n2).

(** One round of [getReachableStates]: the states the last additions lead to. *)
Definition reachable_new (additions reachable : list node) (cands : list node) : list node :=
  List.filter (fun c => negb (isMember c additions) && negb (isMember c reachable)) cands.

Definition per_initial (root : node) (additions : list node) : list (option node) :=
  flat_map (fun state => getInitialStates (Some state) root) additions.

Definition per_target (root : node) (additions : list node) : list node :=
  flat_map (fun state =>
    flat_map (fun transition => getTargetStates transition root)
      (filterChildElements (XML_PREFIX state +:+ "transition") state false)) additions.

Definition per_parent (additions : list node) : list node :=
  flat_map (fun state =>
    if isAtomic state then takeWhile (fun p => isState p true) (parents state) else []) additions.

(** [additions] is the last round, [reachable] all rounds before it. An
    unresolved initial state enters the list as NULL, which the next round
    dereferences: [None]. *)
Fixpoint getReachableStates_loop (fuel : nat) (root : node) (additions reachable : list node)
    : option (list node) :=
  match fuel, additions with
  | S fuel, _ :: _ =>
      if existsb (fun i => bool_decide (i = None)) (per_initial root additions) then None
      else
        let new := reachable_new additions reachable in
        let current :=
          new (omap id (per_initial root additions)) ++ new (per_target root additions) ++
          new (per_parent additions) in
        getReachableStates_loop fuel root current (reachable ++ additions)
  | _, _ => Some reachable
  end.

Definition getReachableStates (root : node) : option (list node) :=
  getReachableStates_loop (S (nodeSize root)) root [root] [].

End Predicates.

(** ** Lemmas *)

Lemma find_split {A} (p : A -> bool) l x :
  List.find p l = Some x ->
  exists l1 l2, l = l1 ++ x :: l2 /\ p x = true /\ forall y, y ∈ l1 -> p y = false.
Proof.
  induction l as [|y l IH]; [done|]. simpl. destruct (p y) eqn:E.
  - intros [= ->]. exists [], l. split; [done|]. split; [done|]. by intros ? ?%elem_of_nil.
  - intros (l1 & l2 & -> & Hx & Hn)%IH. exists (y :: l1), l2. split; [done|]. split; [done|].
    by intros z [->|Hz]%elem_of_cons; auto.
Qed.

Lemma find_none_elem {A} (p : A -> bool) l x :
  List.find p l = None -> x ∈ l -> p x = false.
Proof. intros Hf Hx%list_elem_of_In. by eapply List.find_none. Qed.

Lemma elem_of_List_filter {A} (p : A -> bool) l x :
  x ∈ List.filter p l <-> x ∈ l /\ p x = true.
Proof. rewrite !list_elem_of_In. apply filter_In. Qed.

Section PredicateLemmas.
Context {node : Type} `{!EqDecision node} {D : DomOps node} {DL : DomLaws node}.

Lemma takeWhile_prefix (p : node -> bool) l : exists l', l = takeWhile p l ++ l'.
Proof.
  induction l as [|x l [l' IH]]; simpl; [by exists []|].
  destruct (p x); [|by exists (x :: l)]. exists l'. simpl. by f_equal.
Qed.

Lemma getProperAncestors_parents s1 s2 a :
  a ∈ getProperAncestors s1 s2 -> a ∈ parents s1.
Proof.
  unfold getProperAncestors. case_match; [|by intros ?%elem_of_nil].
  set (p := fun n => _). destruct (takeWhile_prefix p (parents s1)) as [l' Hl].
  intros Ha. rewrite Hl. apply elem_of_app. by left.
Qed.

(** Later elements of a parent chain are parents of earlier ones. *)
Lemma parents_split n l1 a l2 : parents n = l1 ++ a :: l2 -> l2 = parents a.
Proof.
  revert l1. induction n as [n IH] using parent_ind. intros l1.
  rewrite parents_unfold. case_match eqn:E; [|by destruct l1].
  destruct l1 as [|b l1]; simpl; intros [= -> Hl]; [done|]. by eapply IH.
Qed.

Lemma getProperAncestors_split s1 s2 l1 a l2 b :
  getProperAncestors s1 s2 = l1 ++ a :: l2 -> b ∈ l2 -> b ∈ parents a.
Proof.
  unfold getProperAncestors. case_match; [|by destruct l1].
  set (p := fun n => _). destruct (takeWhile_prefix p (parents s1)) as [l' Hp].
  intros Hl Hb. rewrite Hl, <- app_assoc in Hp. simpl in Hp.
  rewrite <- (parents_split _ _ _ _ Hp). apply elem_of_app. by left.
Qed.

Lemma getChildStates_elem p b c :
  c ∈ getChildStates p b <-> c ∈ childElements p /\ isState c b = true.
Proof. unfold getChildStates. by rewrite elem_of_List_filter. Qed.

(** *** Exit sets *)

Definition exit_tags (transition : node) : list string :=
  let prefix := XML_PREFIX transition in
  [prefix +:+ "parallel"; prefix +:+ "state"; prefix +:+ "final"]%string.

Lemma pop_domain els (d x : node) :
  let l := inDocumentOrder els d in
  x ∈ match l with
      | front :: rest => if bool_decide (front = d) then rest else l
      | [] => []
      end <-> x ∈ l /\ x <> d.
Proof.
  simpl. pose proof (inDocumentOrder_NoDup els d) as Hnd.
  pose proof (inDocumentOrder_sorted els d) as Hs.
  pose proof (inDocumentOrder_elem els d) as He.
  destruct (inDocumentOrder els d) as [|front rest]; [set_solver|].
  inversion Hnd as [|? ? Hf Hnd']; subst.
  case_bool_decide as Hd; [subst; set_solver|].
  split; [|by intros [? _]]. intros Hx. split; [done|]. intros ->.
  apply elem_of_cons in Hx as [->|Hx]; [done|].
  inversion Hs as [|? ? _ HF]; subst.
  pose proof (proj1 (Forall_forall _ _) HF d Hx) as [_ Hp]. apply Hp.
  assert (Hin : front ∈ front :: rest) by by left.
  apply He in Hin as [_ Hin]. apply in_doc_parents in Hin.
  apply elem_of_cons in Hin as [->|?]; done.
Qed.

Lemma getExitSet_elem t root x :
  x ∈ getExitSet t root <->
  HAS_ATTR t "target" = true /\
  exists d, getTransitionDomain t root = Some d /\
    tag_in (exit_tags t) x = true /\ in_doc false d x /\ x <> d.
Proof.
  unfold getExitSet. destruct (HAS_ATTR t "target"); [|set_solver].
  destruct (getTransitionDomain t root) as [d|]; [|set_solver].
  rewrite (pop_domain (exit_tags t) d x), inDocumentOrder_elem. naive_solver.
Qed.

Lemma getExitSet_below t root x d :
  x ∈ getExitSet t root -> getTransitionDomain t root = Some d -> d ∈ parents x.
Proof.
  intros (_ & d' & Hd & _ & Hx & Hne)%getExitSet_elem Hd'. simplify_eq.
  apply in_doc_parents, elem_of_cons in Hx as [->|?]; done.
Qed.

Lemma getExitSet_sorted t root : StronglySorted (order_rel DOCUMENT) (getExitSet t root).
Proof.
  unfold getExitSet. destruct (HAS_ATTR t "target"); [|constructor].
  destruct (getTransitionDomain t root) as [d|]; [|constructor].
  pose proof (inDocumentOrder_sorted (exit_tags t) d) as Hs.
  fold (exit_tags t). destruct (inDocumentOrder (exit_tags t) d) as [|f r]; [constructor|].
  case_bool_decide; [|done]. by inversion Hs.
Qed.

(** *** Conflicts *)

Lemma hasIntersection_sym (l1 l2 : list node) : hasIntersection l1 l2 = hasIntersection l2 l1.
Proof. apply eq_true_iff_eq. rewrite !hasIntersection_spec. naive_solver. Qed.

Lemma conflicts_sym t1 t2 root : conflicts t1 t2 root = conflicts t2 t1 root.
Proof.
  unfold conflicts, same_source. rewrite (hasIntersection_sym (getExitSet t1 root)).
  rewrite (bool_decide_ext (getSourceState t1 = getSourceState t2)
    (getSourceState t2 = getSourceState t1)) by (split; by intros ->).
  destruct (bool_decide _), (isDescendant _ _), (isDescendant _ _); done.
Qed.

Lemma conflicts_refl t root : conflicts t t root = true.
Proof. unfold conflicts, same_source. by rewrite bool_decide_eq_true_2. Qed.

(** *** Lookup by id *)

(** [x] is [r] or below it through state elements only. *)
Inductive state_in : node -> node -> Prop :=
| state_in_here r : state_in r r
| state_in_step r c x : c ∈ getChildStates r false -> state_in c x -> state_in r x.

Definition has_id (stateId : string) (s : node) : Prop := getAttribute s "id" = Some stateId.

Lemma has_id_test stateId s :
  HAS_ATTR s "id" && String.eqb (ATTR s "id") stateId = true <-> has_id stateId s.
Proof.
  unfold HAS_ATTR, ATTR, has_id. destruct (getAttribute s "id"); simpl; [|done].
  rewrite String.eqb_eq. naive_solver.
Qed.

Definition stack_size (l : list node) : nat := list_sum (nodeSize <$> l).

Lemma stack_size_app l1 l2 : stack_size (l1 ++ l2) = stack_size l1 + stack_size l2.
Proof. unfold stack_size. by rewrite fmap_app, list_sum_app. Qed.

Lemma stack_size_filter (p : node -> bool) l : stack_size (List.filter p l) <= stack_size l.
Proof.
  induction l as [|x l IH]; [done|]. change (x :: l) with ([x] ++ l).
  rewrite List.filter_app, !stack_size_app. simpl. destruct (p x); unfold stack_size in *; simpl; lia.
Qed.

Lemma children_size r b : stack_size (getChildStates r b) < nodeSize r.
Proof.
  eapply Nat.le_lt_trans; [apply stack_size_filter|]. apply dom_size.
Qed.

Lemma getState_loop_spec stateId fuel : forall stack,
  stack_size stack < fuel -> Forall (fun s => isState s false = true) stack ->
  match getState_loop fuel stateId stack with
  | Some s => has_id stateId s /\ exists r, r ∈ stack /\ state_in r s
  | None => forall r s, r ∈ stack -> state_in r s -> ~ has_id stateId s
  end.
Proof.
  induction fuel as [|fuel IH]; intros stack Hf HF; [lia|].
  destruct stack as [|curr stack]; simpl; [by intros ? ? ?%elem_of_nil|].
  inversion HF as [|? ? Hc HF']; subst. rewrite Hc. simpl.
  destruct (HAS_ATTR curr "id" && _) eqn:E.
  { apply has_id_test in E. split; [done|]. exists curr. split; [by left|constructor]. }
  assert (Hn : ~ has_id stateId curr) by (intros ?%has_id_test; congruence).
  assert (Hsz : stack_size (stack ++ getChildStates curr false) < fuel).
  { rewrite stack_size_app. pose proof (children_size curr false).
    change (curr :: stack) with ([curr] ++ stack) in Hf. rewrite stack_size_app in Hf.
    unfold stack_size at 1 in Hf. simpl in Hf. lia. }
  specialize (IH _ Hsz). rewrite Forall_app in IH.
  assert (HF2 : Forall (fun s => isState s false = true) (getChildStates curr false)).
  { apply Forall_forall. by intros s [_ Hs]%getChildStates_elem. }
  specialize (IH (conj HF' HF2)). destruct (getState_loop _ _ _) as [s|].
  - destruct IH as (Hid & r & Hr & Hin). split; [done|].
    apply elem_of_app in Hr as [Hr|Hr]; [exists r; split; [by right|done]|].
    exists curr. split; [by left|]. by econstructor.
  - intros r s [->|Hr]%elem_of_cons Hin.
    + inversion Hin as [|? c ? Hch Hin']; subst; [done|].
      apply (IH c s); [|done]. apply elem_of_app. by right.
    + apply (IH r s); [|done]. apply elem_of_app. by left.
Qed.

(** ** Properties *)

(** The least common compound ancestor is a proper ancestor of the first
    state; it is the nearest compound ancestor of all the states, and when no
    compound ancestor covers them the outermost one. *)
Theorem findLCCA_nearest front rest a :
  findLCCA front rest = Some a ->
  a ∈ parents front /\
  let covers b := isCompound b = true /\ forall s, s ∈ front :: rest -> b ∈ parents s in
  ((covers a /\
    forall b, b ∈ getProperAncestors front None -> covers b -> b = a \/ b ∈ parents a) \/
   ((forall b, b ∈ getProperAncestors front None -> ~ covers b) /\
    last (getProperAncestors front None) = Some a)).
Proof.
  unfold findLCCA. set (p := fun anc => _).
  assert (Hp : forall b, p b = true <->
    isCompound b = true /\ forall s, s ∈ front :: rest -> b ∈ parents s).
  { intros b. unfold p. rewrite andb_true_iff, forallb_forall.
    setoid_rewrite isDescendant_spec. by setoid_rewrite list_elem_of_In. }
  destruct (List.find p _) as [a'|] eqn:Ef; intros Ha; simpl.
  - injection Ha as ->. apply find_split in Ef as (l1 & l2 & Hl & Hpa & Hn).
    split; [apply (getProperAncestors_parents _ None); rewrite Hl; set_solver|].
    left. split; [by apply Hp|]. intros b Hb Hcov. rewrite Hl in Hb.
    apply elem_of_app in Hb as [Hb|[->|Hb]%elem_of_cons]; [|by left|right].
    + apply Hn in Hb. by rewrite (proj2 (Hp b) Hcov) in Hb.
    + by eapply getProperAncestors_split.
  - split; [apply (getProperAncestors_parents _ None); by apply last_Some_elem_of|].
    right. split; [|done]. intros b Hb Hcov.
    pose proof (find_none_elem _ _ b Ef Hb) as Hf. by rewrite (proj2 (Hp b) Hcov) in Hf.
Qed.

(** The exit set of a transition is, in document order, exactly the
    state, parallel and final elements strictly below its domain. *)
Theorem getExitSet_spec t root :
  StronglySorted (order_rel DOCUMENT) (getExitSet t root) /\
  forall x, x ∈ getExitSet t root <->
    HAS_ATTR t "target" = true /\
    exists d, getTransitionDomain t root = Some d /\
      tag_in (exit_tags t) x = true /\ in_doc false d x /\ d ∈ parents x.
Proof.
  split; [apply getExitSet_sorted|]. intros x. rewrite getExitSet_elem. split.
  - intros (Ht & d & Hd & Htag & Hin & Hne). split; [done|]. exists d. split_and!; try done.
    apply in_doc_parents, elem_of_cons in Hin as [->|?]; done.
  - intros (Ht & d & Hd & Htag & Hin & Hp). split; [done|]. exists d. split_and!; try done.
    intros ->. by apply parents_irrefl in Hp.
Qed.

(** The id search returns a state with the id below the root, and finds
    one whenever there is one. *)
Theorem getState_spec stateId root :
  isState root false = true ->
  match getState stateId root with
  | Some s => has_id stateId s /\ state_in root s
  | None => forall s, state_in root s -> ~ has_id stateId s
  end.
Proof.
  intros Hr. unfold getState.
  pose proof (getState_loop_spec stateId (S (nodeSize root)) [root]) as Hl.
  specialize (Hl ltac:(unfold stack_size; simpl; lia) ltac:(by constructor)).
  destruct (getState_loop _ _ _) as [s|].
  - destruct Hl as (Hid & r & ->%list_elem_of_singleton & Hin). done.
  - intros s Hin. apply (Hl root); [by left|done].
Qed.

End PredicateLemmas.

(** ** A chart to evaluate the definitions on *)

Definition sample_chart : list row := rows
  (Xml "scxml" [] []
    [Xml "state" [("id", "p")] []
      [Xml "state" [("id", "s1")] [] [Xml "transition" [("event", "e"); ("target", "s2")] [] []];
       Xml "state" [("id", "s2")] [] []];
     Xml "final" [("id", "q")] [] []]).

Definition sample_dom : DomOps nat := table_dom sample_chart.
Definition sample_laws : @DomLaws nat sample_dom := table_laws sample_chart eq_refl.

Lemma findLCCA_nearest_witness : 1 ∈ @parents nat sample_dom 2.
Proof.
  exact (proj1 (findLCCA_nearest (D := sample_dom) (DL := sample_laws) 2 [4] 1 eq_refl)).
Defined.

Lemma getExitSet_spec_witness : 4 ∈ @getExitSet nat _ sample_dom 3 0.
Proof.
  apply (getExitSet_spec (D := sample_dom) (DL := sample_laws) 3 0).
  split; [by vm_compute|]. exists 1. split; [by vm_compute|]. split; [by vm_compute|].
  split; [|vm_compute; apply list_elem_of_here].
  apply (in_doc_step (D := sample_dom) false 1 4 4); [|by vm_compute|constructor].
  vm_compute. apply list_elem_of_further, list_elem_of_here.
Defined.

Lemma getState_spec_witness :
  @getState nat sample_dom "s2" 0 = Some 4 /\ @has_id nat sample_dom "s2" 4.
Proof.
  split; [by vm_compute|].
  exact (proj1 (getState_spec (D := sample_dom) (DL := sample_laws) "s2" 0 eq_refl)).
Defined.
