(* ===== verification/Data.v ===== *)
(** * Messages: [messages/Data] and [messages/Event]

    [Data] is the tree of values that events, the data model and the
    serialised state are made of; [Event] carries one through the queues.
    A [std::map] is its list of entries in key order, a [std::multimap] the
    same with equal keys in order of insertion. *)

From stdpp Require Import base list strings pretty.
From Stdlib Require OrderedTypeEx.
From S2P Require Import Prelude Strings.

Local Open Scope nat_scope.

(** ** Ordered maps *)

Section OrderedMap.
Context {K V : Type} (cmp : K -> K -> comparison).

Fixpoint map_find (k : K) (m : list (K * V)) : option V :=
  match m with
  | [] => None
  | (k', v) :: m => match cmp k k' with Eq => Some v | _ => map_find k m end
  end.

(** [m[k] = v] *)
Fixpoint map_put (k : K) (v : V) (m : list (K * V)) : list (K * V) :=
  match m with
  | [] => [(k, v)]
  | (k', v') :: m' =>
      match cmp k k' with
      | Eq => (k, v) :: m'
      | Lt => (k, v) :: m
      | Gt => (k', v') :: map_put k v m'
      end
  end.

(** [m.insert(make_pair(k, v))]: an existing entry stays. *)
Definition map_insert (k : K) (v : V) (m : list (K * V)) : list (K * V) :=
  match map_find k m with Some _ => m | None => map_put k v m end.

(** [m.erase(k)] *)
Fixpoint map_erase (k : K) (m : list (K * V)) : list (K * V) :=
  match m with
  | [] => []
  | (k', v') :: m => match cmp k k' with Eq => m | _ => (k', v') :: map_erase k m end
  end.

(** [multimap::insert]: behind the entries with the same key. *)
Fixpoint multimap_insert (k : K) (v : V) (m : list (K * V)) : list (K * V) :=
  match m with
  | [] => [(k, v)]
  | (k', v') :: m' =>
      match cmp k k' with Lt => (k, v) :: m | _ => (k', v') :: multimap_insert k v m' end
  end.

End OrderedMap.

Definition str_find {V} := @map_find string V String.compare.
Definition str_put {V} := @map_put string V String.compare.
Definition str_erase {V} := @map_erase string V String.compare.

(** ** Data *)

Inductive DataType := VERBATIM | INTERPRETED.

(** [Blob]: bytes and their mime type. *)
Record Blob := mkBlob { blob_data : string; blob_mimeType : string }.

(** [d_node] is the address of a DOM node, [d_binary] is set for a non-empty blob. *)
Inductive Data := mkData
  (d_compound : list (string * Data)) (d_array : list (Z * Data)) (d_atom : string)
  (d_node : option positive) (d_binary : option Blob) (d_type : DataType).

Definition d_compound (d : Data) := match d with mkData c _ _ _ _ _ => c end.
Definition d_array (d : Data) := match d with mkData _ a _ _ _ _ => a end.
Definition d_atom (d : Data) := match d with mkData _ _ a _ _ _ => a end.
Definition d_node (d : Data) := match d with mkData _ _ _ n _ _ => n end.
Definition d_binary (d : Data) := match d with mkData _ _ _ _ b _ => b end.
Definition d_type (d : Data) := match d with mkData _ _ _ _ _ t => t end.

(** The constructors [Data()], [Data(value, type)], [Data(node)]. *)
Definition Data_empty : Data := mkData [] [] "" None None INTERPRETED.
Definition Data_atom (value : string) (type : DataType) : Data := mkData [] [] value None None type.

Definition set_compound (c : list (string * Data)) (d : Data) : Data :=
  mkData c (d_array d) (d_atom d) (d_node d) (d_binary d) (d_type d).
Definition set_array (a : list (Z * Data)) (d : Data) : Data :=
  mkData (d_compound d) a (d_atom d) (d_node d) (d_binary d) (d_type d).
Definition set_atom (a : string) (d : Data) : Data :=
  mkData (d_compound d) (d_array d) a (d_node d) (d_binary d) (d_type d).

Definition Data_clear (d : Data) : Data := mkData [] [] "" None None VERBATIM.

(** [Data::empty]: whatever its type, a datum without any content. *)
Definition Data_is_empty (d : Data) : bool :=
  match d with
  | mkData [] [] a None None _ => length (explode a) =? 0
  | _ => false
  end.

Definition hasKey (d : Data) (key : string) : bool :=
  match str_find key (d_compound d) with Some _ => true | None => false end.

(** [at(key)]: an absent key reads as the default datum. *)
Definition Data_at (d : Data) (key : string) : Data :=
  default Data_empty (str_find key (d_compound d)).

Definition Data_item (d : Data) (index : Z) : Data :=
  default Data_empty (map_find Z.compare index (d_array d)).

(** [put(key, data)], and [d[key] = data]. *)
Definition Data_put (key : string) (v : Data) (d : Data) : Data :=
  set_compound (str_put key v (d_compound d)) d.

(** [merge(other)]: a common key is merged recursively, indices already
    present stay, a non-empty atom replaces the atom and its type. *)
Fixpoint Data_merge (self other : Data) {struct other} : Data :=
  match other with
  | mkData ocomp oarr oatom _ _ otype =>
      let comp :=
        match d_compound self with
        | [] => ocomp
        | _ =>
            (fix go (entries : list (string * Data)) (comp : list (string * Data)) :=
               match entries with
               | [] => comp
               | (k, v) :: entries =>
                   go entries
                     (match str_find k comp with
                      | Some mine => str_put k (Data_merge mine v) comp
                      | None => str_put k v comp
                      end)
               end) ocomp (d_compound self)
        end in
      let arr :=
        match d_array self with
        | [] => oarr
        | _ => foldl (fun arr '(i, v) => map_insert Z.compare i v arr) (d_array self) oarr
        end in
      let '(atom, type) :=
        if 0 <? length (explode oatom) then (oatom, otype) else (d_atom self, d_type self) in
      mkData (match ocomp with [] => d_compound self | _ => comp end)
             (match oarr with [] => d_array self | _ => arr end)
             atom (d_node self) (d_binary self) type
  end.

(** *** JSON text *)

Definition json_escape_letter (c : Ascii.ascii) : option Ascii.ascii :=
  match Ascii.nat_of_ascii c with
  | 9 => Some "t"%char
  | 11 => Some "v"%char
  | 8 => Some "b"%char
  | 12 => Some "f"%char
  | 10 => Some "n"%char
  | 13 => Some "r"%char
  | 34 => Some (Ascii.ascii_of_nat 34)
  | 92 => Some (Ascii.ascii_of_nat 92)
  | _ => None
  end.

Fixpoint jsonEscape (expr : list Ascii.ascii) : list Ascii.ascii :=
  match expr with
  | [] => []
  | c :: expr =>
      match json_escape_letter c with
      | Some l => backslash :: l :: jsonEscape expr
      | None => c :: jsonEscape expr
      end
  end.

Definition json_unescape_letter (c : Ascii.ascii) : Ascii.ascii :=
  match Ascii.nat_of_ascii c with
  | 34 => c
  | 47 => c
  | 98 => Ascii.ascii_of_nat 8
  | 102 => Ascii.ascii_of_nat 12
  | 110 => Ascii.ascii_of_nat 10
  | 114 => Ascii.ascii_of_nat 13
  | 116 => Ascii.ascii_of_nat 9
  | 92 => c
  | _ => c
  end.

(** The scan of [jsonUnescape] with its [escape] flag. *)
Fixpoint jsonUnescape_loop (escape : bool) (expr : list Ascii.ascii) : list Ascii.ascii :=
  match expr with
  | [] => []
  | c :: expr =>
      if escape then json_unescape_letter c :: jsonUnescape_loop false expr
      else if Ascii.eqb c backslash then jsonUnescape_loop true expr
      else c :: jsonUnescape_loop false expr
  end.

Definition jsonUnescape (expr : list Ascii.ascii) : list Ascii.ascii :=
  jsonUnescape_loop false expr.

Definition newline : string := String.String (Ascii.ascii_of_nat 10) String.EmptyString.
Definition quote : string := String.String (Ascii.ascii_of_nat 34) String.EmptyString.
Definition escaped (s : string) : string := implode (jsonEscape (explode s)).

Fixpoint repeat_str (n : nat) (s : string) : string :=
  match n with 0 => ""%string | S n => (s +:+ repeat_str n s)%string end.

Definition key_length (k : string) : nat := length (explode k).

Section ToJSON.
(** How a DOM node is written out is up to the XML serialiser. *)
Context (node_xml : positive -> string).

(** [toJSON] with [_dataIndentation] as an argument; it starts at 1. *)
Fixpoint toJSON (ind : nat) (data : Data) {struct data} : string :=
  let indent := repeat_str (S ind) "  " in
  match data with
  | mkData ((_ :: _) as compound) _ _ _ _ _ =>
      let longestKey := foldr (fun e n => Nat.max (key_length (fst e)) n) 0 compound in
      let entries :=
        (fix go (seperator : string) (l : list (string * Data)) : string :=
           match l with
           | [] => ""%string
           | (k, v) :: l =>
               (seperator +:+ newline +:+ indent +:+ "  " +:+ quote +:+ escaped k +:+ quote +:+
                ": " +:+ repeat_str (longestKey - key_length k) " " +:+
                toJSON (S ind) v +:+ go ", " l)%string
           end) ""%string compound in
      ("{" +:+ entries +:+ newline +:+ indent +:+ "}")%string
  | mkData [] ((_ :: _) as array) _ _ _ _ =>
      let entries :=
        (fix go (seperator : string) (l : list (Z * Data)) : string :=
           match l with
           | [] => ""%string
           | (_, v) :: l => (seperator +:+ toJSON (S ind) v +:+ go ", " l)%string
           end) ""%string array in
      (newline +:+ indent +:+ "[" +:+ entries +:+ "]")%string
  | mkData [] [] atom n _ type =>
      if 0 <? length (explode atom) then
        match type with
        | VERBATIM => (quote +:+ escaped atom +:+ quote)%string
        | INTERPRETED => atom
        end
      else
        match n with
        | Some n => (quote +:+ escaped (node_xml n) +:+ quote)%string
        | None => match type with VERBATIM => (quote +:+ quote)%string | INTERPRETED => "null"%string end
        end
  end.

Definition asJSON (data : Data) : string := toJSON 1 data.

End ToJSON.

(** ** Events *)

(** [enum Type] by its numeric values. *)
Definition INTERNAL : nat := 1.
Definition EXTERNAL : nat := 2.
Definition PLATFORM : nat := 3.

Record Event := mkEvent {
  e_raw : string;
  e_name : string;
  e_eventType : nat;
  e_origin : string;
  e_origintype : string;
  e_sendid : string;
  e_hideSendId : bool;
  e_invokeid : string;
  e_data : Data;
  e_namelist : list (string * Data);
  e_params : list (string * Data);
  e_uuid : string;
}.

(** [Event()] draws a UUID; [Event(name, type)] leaves it empty. *)
Definition Event_default (uuid : string) : Event :=
  mkEvent "" "" INTERNAL "" "" "" false "" Data_empty [] [] uuid.
Definition Event_named (name : string) (type : nat) : Event :=
  mkEvent "" name type "" "" "" false "" Data_empty [] [] "".

(** [operator bool]: an event without a name is no event. *)
Definition Event_bool (e : Event) : bool := 0 <? length (explode (e_name e)).

(** [strTo<size_t>]: blanks, then decimal digits; 0 when there are none. *)
Definition digit_value (c : Ascii.ascii) : option nat :=
  let n := Ascii.nat_of_ascii c in if (48 <=? n) && (n <=? 57) then Some (n - 48) else None.

Fixpoint read_digits (acc : nat) (s : list Ascii.ascii) : nat :=
  match s with
  | [] => acc
  | c :: s => match digit_value c with Some d => read_digits (10 * acc + d) s | None => acc end
  end.

Fixpoint skip_blanks (s : list Ascii.ascii) : list Ascii.ascii :=
  match s with
  | [] => []
  | c :: s' => if ISWHITESPACE c then skip_blanks s' else s
  end.

Definition strTo_size (s : string) : nat := read_digits 0 (skip_blanks (explode s)).
Definition strTo_bool (s : string) : bool := negb (strTo_size s =? 0).

Definition toStr_nat (n : nat) : string := pretty n.
Definition toStr_bool (b : bool) : string := if b then "1"%string else "0"%string.

Fixpoint number_from {A} (i : Z) (l : list A) : list (Z * A) :=
  match l with
  | [] => []
  | x :: l => (i, x) :: number_from (i + 1)%Z l
  end.

(** [Event::operator Data]. The local [data] hides the member of that name, so
    [data["data"] = data] stores the datum under construction in itself. *)
Definition Event_toData (e : Event) : Data :=
  let data := set_compound [("data"%string, Data_empty)] Data_empty in
  let data := Data_put "data" data Data_empty in
  let data := Data_put "raw" (Data_atom (e_raw e) VERBATIM) data in
  let data := Data_put "name" (Data_atom (e_name e) VERBATIM) data in
  let data := Data_put "eventType" (Data_atom (toStr_nat (e_eventType e)) VERBATIM) data in
  let data := Data_put "origin" (Data_atom (e_origin e) VERBATIM) data in
  let data := Data_put "origintype" (Data_atom (e_origintype e) VERBATIM) data in
  let data := Data_put "sendid" (Data_atom (e_sendid e) VERBATIM) data in
  let data := Data_put "hideSendId" (Data_atom (toStr_bool (e_hideSendId e)) VERBATIM) data in
  let data := Data_put "invokeid" (Data_atom (e_invokeid e) VERBATIM) data in
  let data := Data_put "uuid" (Data_atom (e_uuid e) VERBATIM) data in
  let data := Data_put "namelist" (set_compound (e_namelist e) Data_empty) data in
  match e_params e with
  | [] => data
  | _ =>
      Data_put "params"
        (set_array (number_from 0 ((fun '(k, v) => set_compound [(k, v)] Data_empty) <$> e_params e))
           Data_empty) data
  end.

Definition atom_at (d : Data) (key old : string) : string :=
  if hasKey d key then d_atom (Data_at d key) else old.

(** [Event::fromData]; [uuid] is the one drawn by the default constructor.
    A parameter entry is read through its first key. *)
Definition Event_fromData (uuid : string) (data : Data) : Event :=
  let e := Event_default uuid in
  {| e_data := if hasKey data "data" then Data_at data "data" else e_data e;
     e_raw := atom_at data "raw" (e_raw e);
     e_name := atom_at data "name" (e_name e);
     e_eventType := if hasKey data "eventType" then strTo_size (d_atom (Data_at data "eventType"))
                    else e_eventType e;
     e_origin := atom_at data "origin" (e_origin e);
     e_origintype := atom_at data "origintype" (e_origintype e);
     e_sendid := atom_at data "sendid" (e_sendid e);
     e_hideSendId := if hasKey data "hideSendId" then strTo_bool (d_atom (Data_at data "hideSendId"))
                     else e_hideSendId e;
     e_invokeid := atom_at data "invokeid" (e_invokeid e);
     e_uuid := atom_at data "uuid" (e_uuid e);
     e_namelist := if hasKey data "namelist" then d_compound (Data_at data "namelist")
                   else e_namelist e;
     e_params := if hasKey data "params" then
         foldl (fun ps '(_, param) =>
                  match d_compound param with
                  | (k, v) :: _ => multimap_insert String.compare k v ps
                  | [] => ps
                  end) [] (d_array (Data_at data "params"))
       else e_params e |}.

(** [Event::getParam(params, name, Data&)]. *)
Definition getParam (params : list (string * Data)) (name : string) : option Data :=
  str_find name params.

(** ** Lemmas: ordered maps *)

Section OrderedMapLemmas.
Context {K V : Type} (cmp : K -> K -> comparison).
Context (cmp_eq : forall a b, cmp a b = Eq <-> a = b).

Lemma cmp_refl k : cmp k k = Eq.
Proof. by apply cmp_eq. Qed.

Lemma map_find_put_eq k (v : V) m : map_find cmp k (map_put cmp k v m) = Some v.
Proof.
  induction m as [|[k' v'] m IH]; simpl; [by rewrite cmp_refl|].
  destruct (cmp k k') eqn:E; simpl; rewrite ?cmp_refl, ?E; done.
Qed.

Lemma map_find_put_ne k k' (v : V) m :
  k <> k' -> map_find cmp k' (map_put cmp k v m) = map_find cmp k' m.
Proof.
  intros Hne. assert (Hn : cmp k' k <> Eq) by (rewrite cmp_eq; naive_solver).
  induction m as [|[a w] m IH]; simpl.
  - by destruct (cmp k' k).
  - destruct (cmp k a) eqn:E; simpl.
    + apply cmp_eq in E as <-. by destruct (cmp k' k).
    + by destruct (cmp k' k).
    + by rewrite IH.
Qed.

Lemma map_find_put k k' (v : V) m :
  map_find cmp k' (map_put cmp k v m) =
  match cmp k' k with Eq => Some v | _ => map_find cmp k' m end.
Proof.
  destruct (cmp k' k) eqn:E.
  - apply cmp_eq in E as ->. apply map_find_put_eq.
  - apply map_find_put_ne. intros ->. by rewrite cmp_refl in E.
  - apply map_find_put_ne. intros ->. by rewrite cmp_refl in E.
Qed.

Lemma map_find_notin k (m : list (K * V)) : k ∉ m.*1 -> map_find cmp k m = None.
Proof.
  induction m as [|[a w] m IH]; simpl; [done|].
  intros [Hk Hm]%not_elem_of_cons. destruct (cmp k a) eqn:E; [by apply cmp_eq in E|auto|auto].
Qed.

Lemma multimap_insert_last k (v : V) m :
  (forall k', k' ∈ m.*1 -> cmp k k' <> Lt) -> multimap_insert cmp k v m = m ++ [(k, v)].
Proof.
  induction m as [|[a w] m IH]; simpl; [done|]. intros Hk.
  assert (Ha : cmp k a <> Lt) by (apply Hk; by left).
  rewrite IH by (intros; apply Hk; by right). by destruct (cmp k a).
Qed.

End OrderedMapLemmas.

Lemma string_compare_eq a b : String.compare a b = Eq <-> a = b.
Proof.
  split; [apply String.compare_eq_iff|]. intros ->.
  induction b as [|c b IH]; [done|]. simpl. unfold Ascii.compare. by rewrite N.compare_refl.
Qed.

Lemma str_find_put_eq {V} k (v : V) m : str_find k (str_put k v m) = Some v.
Proof. apply map_find_put_eq, string_compare_eq. Qed.

Lemma str_find_put_ne {V} k k' (v : V) m :
  k <> k' -> str_find k' (str_put k v m) = str_find k' m.
Proof. apply map_find_put_ne, string_compare_eq. Qed.

Lemma str_find_cons {V} k a (v : V) m :
  str_find k ((a, v) :: m) = match String.compare k a with Eq => Some v | _ => str_find k m end.
Proof. done. Qed.

Lemma str_find_notin {V} k (m : list (string * V)) : k ∉ m.*1 -> str_find k m = None.
Proof. apply map_find_notin, string_compare_eq. Qed.

#[export] Hint Rewrite @str_find_put_eq : uscxml_rw.
#[export] Hint Rewrite @str_find_put_ne using done : uscxml_rw.

Lemma Data_at_put_eq k v d : Data_at (Data_put k v d) k = v.
Proof. unfold Data_at, Data_put. cbn. by rewrite str_find_put_eq. Qed.

Lemma Data_at_put_ne k k' v d : k <> k' -> Data_at (Data_put k v d) k' = Data_at d k'.
Proof. intros. unfold Data_at, Data_put. cbn. by rewrite str_find_put_ne. Qed.

Lemma hasKey_put_eq k v d : hasKey (Data_put k v d) k = true.
Proof. unfold hasKey, Data_put. cbn. by rewrite str_find_put_eq. Qed.

Lemma hasKey_put_ne k k' v d : k <> k' -> hasKey (Data_put k v d) k' = hasKey d k'.
Proof. intros. unfold hasKey, Data_put. cbn. by rewrite str_find_put_ne. Qed.

#[export] Hint Rewrite Data_at_put_eq hasKey_put_eq : uscxml_rw.
#[export] Hint Rewrite Data_at_put_ne hasKey_put_ne using done : uscxml_rw.

(** [std::map] invariant: strictly increasing keys. *)
Definition keys_sorted {V} (m : list (string * V)) : Prop :=
  StronglySorted (fun a b => String.compare a b = Lt) m.*1.

Lemma string_compare_trans a b c : String.compare a b = Lt -> String.compare b c = Lt -> String.compare a c = Lt.
Proof.
  rewrite !(OrderedTypeEx.String_as_OT.cmp_lt : forall a b, String.compare a b = Lt <-> _).
  apply OrderedTypeEx.String_as_OT.lt_trans.
Qed.

Lemma str_put_keys {V} k (v : V) m k' : k' ∈ (str_put k v m).*1 -> k' = k \/ k' ∈ m.*1.
Proof.
  unfold str_put. induction m as [|[a w] m IH]; cbn [map_put fmap list_fmap fst]; [by intros ->%list_elem_of_singleton; left|].
  destruct (String.compare k a); cbn [fmap list_fmap fst]; rewrite !elem_of_cons; tauto.
Qed.

Lemma keys_sorted_put {V} k (v : V) m : keys_sorted m -> keys_sorted (str_put k v m).
Proof.
  unfold keys_sorted. induction m as [|[a w] m IH]; intros Hs; [by repeat constructor|].
  inversion Hs as [|? ? Hs' HF]; subst. unfold str_put. cbn [map_put]. destruct (String.compare k a) eqn:E.
  - apply string_compare_eq in E as ->. by constructor.
  - cbn [fmap list_fmap fst]. constructor; [done|]. constructor; [done|].
    eapply Forall_impl; [exact HF|]. intros x Hx. by eapply string_compare_trans.
  - cbn [fmap list_fmap fst]. constructor; [by apply IH|]. apply Forall_forall.
    intros x [->|Hx]%str_put_keys; [by rewrite String.compare_antisym, E|].
    exact (proj1 (Forall_forall _ _) HF x Hx).
Qed.

(** [std::multimap] invariant: non-decreasing keys. *)
Definition multi_sorted {V} (m : list (string * V)) : Prop :=
  StronglySorted (fun a b => String.compare b a <> Lt) m.*1.

Lemma keys_sorted_NoDup {V} (m : list (string * V)) : keys_sorted m -> NoDup m.*1.
Proof.
  apply StronglySorted_NoDup. intros k Hk.
  by rewrite (proj2 (string_compare_eq k k) eq_refl) in Hk.
Qed.

(** The loop of [merge] over the entries of the other map. *)
Definition merge_entries (mrg : Data -> Data -> Data) :=
  fix go (entries comp : list (string * Data)) : list (string * Data) :=
    match entries with
    | [] => comp
    | (k, v) :: entries =>
        go entries (match str_find k comp with
                    | Some mine => str_put k (mrg mine v) comp
                    | None => str_put k v comp
                    end)
    end.

Lemma merge_entries_find mrg entries comp k :
  NoDup entries.*1 ->
  str_find k (merge_entries mrg entries comp) =
  match str_find k entries with
  | Some v => Some (match str_find k comp with Some mine => mrg mine v | None => v end)
  | None => str_find k comp
  end.
Proof.
  revert comp. induction entries as [|[a v] entries IH]; intros comp Hnd; [done|].
  simpl in Hnd. inversion Hnd as [|? ? Ha Hnd']; subst.
  cbn [merge_entries]. rewrite IH by done. rewrite str_find_cons.
  destruct (String.compare k a) eqn:E.
  - apply string_compare_eq in E as ->. rewrite str_find_notin by done.
    destruct (str_find a comp); by rewrite str_find_put_eq.
  - assert (a <> k) by (intros ->; by rewrite (proj2 (string_compare_eq k k) eq_refl) in E).
    destruct (str_find a comp); by rewrite str_find_put_ne.
  - assert (a <> k) by (intros ->; by rewrite (proj2 (string_compare_eq k k) eq_refl) in E).
    destruct (str_find a comp); by rewrite str_find_put_ne.
Qed.

Lemma atom_at_put_eq k v d old : atom_at (Data_put k v d) k old = d_atom v.
Proof. unfold atom_at. by rewrite hasKey_put_eq, Data_at_put_eq. Qed.

Lemma atom_at_put_ne k k' v d old :
  k <> k' -> atom_at (Data_put k v d) k' old = atom_at d k' old.
Proof. intros. unfold atom_at. by rewrite hasKey_put_ne, Data_at_put_ne. Qed.

#[export] Hint Rewrite atom_at_put_eq : uscxml_rw.
#[export] Hint Rewrite atom_at_put_ne using done : uscxml_rw.

Lemma params_fold_number acc l i :
  multi_sorted (acc ++ l) ->
  foldl (fun ps '(_, param) =>
    match d_compound param with
    | (k, v) :: _ => multimap_insert String.compare k v ps
    | [] => ps
    end) acc (number_from i ((fun '(k, v) => set_compound [(k, v)] Data_empty) <$> l)) = acc ++ l.
Proof.
  revert acc i. induction l as [|[k v] l IH]; intros acc i Hs; simpl; [by rewrite app_nil_r|].
  rewrite (multimap_insert_last String.compare).
  - rewrite IH; rewrite <- app_assoc; done.
  - unfold multi_sorted in Hs. rewrite fmap_app in Hs. clear IH. revert Hs.
    generalize (acc.*1). intros ks Hs k' Hk'. apply list_elem_of_lookup in Hk' as [j Hj].
    apply (StronglySorted_lookup _ (ks ++ ((k, v) :: l).*1) j (length ks) k' k Hs).
    + by apply lookup_lt_Some in Hj.
    + by apply lookup_app_l_Some.
    + by rewrite lookup_app_r, Nat.sub_diag.
Qed.

(** ** Properties *)

(** [merge] keeps keys that only one side has and merges common keys
    recursively. *)
Lemma Data_merge_find self other k :
  keys_sorted (d_compound other) ->
  str_find k (d_compound (Data_merge self other)) =
  match str_find k (d_compound self), str_find k (d_compound other) with
  | Some mine, Some theirs => Some (Data_merge mine theirs)
  | Some mine, None => Some mine
  | None, o => o
  end.
Proof.
  intros Hs%keys_sorted_NoDup. destruct other as [oc oa ot on ob oty]. cbn [d_compound] in *.
  assert (Hc : d_compound (Data_merge self (mkData oc oa ot on ob oty)) =
    match oc with [] => d_compound self | _ =>
      match d_compound self with [] => oc | _ => merge_entries Data_merge oc (d_compound self) end
    end).
  { cbn [Data_merge]. by destruct (0 <? length (explode ot)), oc, (d_compound self). }
  rewrite Hc. destruct oc as [|e oc]; [by destruct (str_find k (d_compound self))|].
  destruct (d_compound self) as [|e' sc]; [done|].
  rewrite merge_entries_find by done.
  by destruct (str_find k (e :: oc)), (str_find k (e' :: sc)).
Qed.

(** Unescaping an escaped JSON string gives it back, except that every
    vertical tab has become the letter v. *)
Lemma jsonUnescape_jsonEscape expr :
  jsonUnescape (jsonEscape expr) =
    (fun c => if Ascii.nat_of_ascii c =? 11 then "v"%char else c) <$> expr.
Proof.
  unfold jsonUnescape. induction expr as [|c expr IH]; [done|]. cbn [jsonEscape fmap list_fmap].
  destruct (json_escape_letter c) as [l|] eqn:El.
  - cbn [jsonUnescape_loop]. change (Ascii.eqb backslash backslash) with true. cbn iota.
    cbn [jsonUnescape_loop]. rewrite IH. f_equal. clear -El.
    by destruct c as [[] [] [] [] [] [] [] []]; vm_compute in El;
      first [discriminate El | injection El as <-].
  - cbn [jsonUnescape_loop]. destruct (Ascii.eqb_spec c backslash) as [->|_]; [done|].
    rewrite IH. f_equal. clear -El.
    by destruct c as [[] [] [] [] [] [] [] []]; vm_compute in El.
Qed.

(** An event that went through [Data] comes back with every field but
    its data, which is replaced by a constant. *)
Theorem Event_roundtrip uuid e :
  e_eventType e ∈ [INTERNAL; EXTERNAL; PLATFORM] -> multi_sorted (e_params e) ->
  Event_fromData uuid (Event_toData e) =
    mkEvent (e_raw e) (e_name e) (e_eventType e) (e_origin e) (e_origintype e) (e_sendid e)
      (e_hideSendId e) (e_invokeid e)
      (set_compound [("data"%string, Data_empty)] Data_empty)
      (e_namelist e) (e_params e) (e_uuid e).
Proof.
  intros Ht Hs. unfold Event_toData.
  assert (Htype : strTo_size (toStr_nat (e_eventType e)) = e_eventType e).
  { repeat (apply elem_of_cons in Ht as [->|Ht]; [done|]). by apply elem_of_nil in Ht. }
  assert (Hhide : strTo_bool (toStr_bool (e_hideSendId e)) = e_hideSendId e)
    by by destruct (e_hideSendId e).
  set (base := Data_put "namelist" _ _).
  assert (Hbase : hasKey base "params" = false).
  { unfold base. by autorewrite with uscxml_rw. }
  destruct (e_params e) as [|p ps] eqn:Ep.
  - unfold Event_fromData. rewrite Hbase. unfold base. autorewrite with uscxml_rw. cbn [d_atom d_compound Data_atom set_compound Event_default e_data].
    rewrite Htype, Hhide. done.
  - unfold Event_fromData. rewrite hasKey_put_eq, Data_at_put_eq. cbn [d_array set_array].
    rewrite params_fold_number by (rewrite app_nil_l; done). rewrite app_nil_l.
    unfold base. autorewrite with uscxml_rw. cbn [d_atom d_compound Data_atom set_compound Event_default e_data].
    rewrite Htype, Hhide. done.
Qed.

Definition sample_event : Event :=
  mkEvent "" "done.invoke" EXTERNAL "#_scxml_1" "scxml" "s.1" true "inv"
    (Data_atom "42" INTERPRETED) [("x"%string, Data_atom "1" INTERPRETED)]
    [("a"%string, Data_atom "1" VERBATIM); ("a"%string, Data_atom "2" VERBATIM)] "u1".

Lemma Data_merge_find_witness :
  str_find "b" (d_compound (Data_merge (Data_put "a" Data_empty Data_empty)
    (Data_put "b" (Data_atom "1" VERBATIM) Data_empty))) = Some (Data_atom "1" VERBATIM).
Proof.
  rewrite (Data_merge_find _ _ "b"); [by vm_compute|].
  unfold keys_sorted. vm_compute. apply SSorted_cons; [apply SSorted_nil|apply Forall_nil_2].
Defined.

Lemma Event_roundtrip_witness :
  e_params (Event_fromData "u2" (Event_toData sample_event)) = e_params sample_event /\
  e_data (Event_fromData "u2" (Event_toData sample_event)) <> e_data sample_event.
Proof.
  rewrite (Event_roundtrip "u2" sample_event).
  - by split.
  - apply list_elem_of_further, list_elem_of_here.
  - unfold multi_sorted. apply SSorted_cons; [apply SSorted_cons|];
      [apply SSorted_nil|apply Forall_nil_2|apply Forall_cons_2; [done|apply Forall_nil_2]].
Defined.
