(* ===== verification/Json.v ===== *)
(** * Reading JSON: [Data::fromJSON] and [contrib/src/jsmn]

    jsmn splits a text into tokens that are ranges of it; [fromJSON] makes a
    datum of them. The character a [pos] points at is the head of the list
    that is left; reading behind the end gives NUL. Undefined behaviour of
    the C++ is the error [JSON_undefined]. *)

From stdpp Require Import base list strings.
From S2P Require Import Prelude Strings Data.

Local Open Scope nat_scope.

(** ** jsmn *)

Inductive jsmntype_t := JSMN_PRIMITIVE | JSMN_OBJECT | JSMN_ARRAY | JSMN_STRING.
#[export] Instance jsmntype_eq_dec : EqDecision jsmntype_t.
Proof. solve_decision. Defined.

Inductive jsmnerr_t := JSMN_ERROR_NOMEM | JSMN_ERROR_INVAL | JSMN_ERROR_PART.

(** A position of -1 is [None]. *)
Record jsmntok_t := mkTok {
  tok_type : jsmntype_t;
  tok_start : option nat;
  tok_end : option nat;
  tok_size : nat;
}.

(** A token of the zeroed vector. *)
Definition zero_tok : jsmntok_t := mkTok JSMN_PRIMITIVE (Some 0) (Some 0) 0.

(** [toksuper] is the index of the innermost open object or array, if any. *)
Record jsmn_parser := mkParser {
  pos : nat;
  toknext : nat;
  toksuper : option nat;
  tokens : list jsmntok_t;
}.

Definition jsmn_init (tokens : list jsmntok_t) : jsmn_parser := mkParser 0 0 None tokens.

Section Jsmn.
Context (num_tokens : nat).

(** The next token of the pool becomes [tok]. *)
Definition jsmn_alloc_token (tok : jsmntok_t) (p : jsmn_parser) : option jsmn_parser :=
  if num_tokens <=? toknext p then None
  else Some (mkParser (pos p) (S (toknext p)) (toksuper p) (<[toknext p := tok]> (tokens p))).

(** [tokens[toksuper].size++] *)
Definition bump (s : option nat) (l : list jsmntok_t) : list jsmntok_t :=
  match s with
  | Some i => alter (fun t => mkTok (tok_type t) (tok_start t) (tok_end t) (S (tok_size t))) i l
  | None => l
  end.

Definition grow_super (p : jsmn_parser) : jsmn_parser :=
  mkParser (pos p) (toknext p) (toksuper p) (bump (toksuper p) (tokens p)).

Definition is_open (t : jsmntok_t) : bool :=
  bool_decide (tok_start t <> None) && bool_decide (tok_end t = None).

(** The last open token below index [i]. *)
Fixpoint find_open (l : list jsmntok_t) (i : nat) : option nat :=
  match i with
  | 0 => None
  | S i =>
      match l !! i with
      | Some t => if is_open t then Some i else find_open l i
      | None => find_open l i
      end
  end.

Definition is_separator (c : Ascii.ascii) : bool :=
  match Ascii.nat_of_ascii c with 9 | 13 | 10 | 32 | 58 | 44 => true | _ => false end.

Definition is_null (c : Ascii.ascii) : bool := Ascii.nat_of_ascii c =? 0.
Definition dquote : Ascii.ascii := Ascii.ascii_of_nat 34.

(** How far [jsmn_parse_primitive] moves [pos]; [None] for an invalid character. *)
Fixpoint primitive_length (js : list Ascii.ascii) : option nat :=
  match js with
  | [] => Some 0
  | c :: js =>
      if is_null c || is_separator c || Ascii.eqb c "]" || Ascii.eqb c "}" then Some 0
      else if (Ascii.nat_of_ascii c <? 32) || (127 <=? Ascii.nat_of_ascii c) then None
      else S <$> primitive_length js
  end.

Definition jsmn_parse_primitive (js : list Ascii.ascii) (p : jsmn_parser) : jsmnerr_t + (jsmn_parser * nat) :=
  match primitive_length js with
  | None => inl JSMN_ERROR_INVAL
  | Some len =>
      match jsmn_alloc_token (mkTok JSMN_PRIMITIVE (Some (pos p)) (Some (pos p + len)) 0) p with
      | None => inl JSMN_ERROR_NOMEM
      | Some p => inr (p, len - 1)
      end
  end.

Definition escapable (c : Ascii.ascii) : bool :=
  Ascii.eqb c dquote || Ascii.eqb c "/" || Ascii.eqb c backslash || Ascii.eqb c "b" ||
  Ascii.eqb c "f" || Ascii.eqb c "r" || Ascii.eqb c "n" || Ascii.eqb c "t" || Ascii.eqb c "u".

(** The distance of the closing quote from the start of [js]. *)
Fixpoint string_length (js : list Ascii.ascii) : jsmnerr_t + nat :=
  match js with
  | [] => inl JSMN_ERROR_PART
  | c :: js =>
      if is_null c then inl JSMN_ERROR_PART
      else if Ascii.eqb c dquote then inr 0
      else if Ascii.eqb c backslash then
        match js with
        | [] => inl JSMN_ERROR_INVAL
        | c' :: js =>
            if escapable c'
            then match string_length js with inr n => inr (S (S n)) | e => e end
            else inl JSMN_ERROR_INVAL
        end
      else match string_length js with inr n => inr (S n) | e => e end
  end.

(** [js] starts behind the opening quote. *)
Definition jsmn_parse_string (js : list Ascii.ascii) (p : jsmn_parser) : jsmnerr_t + (jsmn_parser * nat) :=
  match string_length js with
  | inl e => inl e
  | inr len =>
      match jsmn_alloc_token (mkTok JSMN_STRING (Some (S (pos p))) (Some (S (pos p) + len)) 0) p with
      | None => inl JSMN_ERROR_NOMEM
      | Some p => inr (p, S len)
      end
  end.

Definition open_bracket (type : jsmntype_t) (p : jsmn_parser) : jsmnerr_t + jsmn_parser :=
  match jsmn_alloc_token (mkTok type (Some (pos p)) None 0) p with
  | None => inl JSMN_ERROR_NOMEM
  | Some p' => inr (mkParser (pos p') (toknext p') (Some (toknext p)) (bump (toksuper p) (tokens p')))
  end.

Definition close_bracket (type : jsmntype_t) (p : jsmn_parser) : jsmnerr_t + jsmn_parser :=
  match find_open (tokens p) (toknext p) with
  | None => inl JSMN_ERROR_INVAL
  | Some i =>
      match tokens p !! i with
      | Some t =>
          if decide (tok_type t = type) then
            let l := <[i := mkTok (tok_type t) (tok_start t) (Some (S (pos p))) (tok_size t)]> (tokens p) in
            inr (mkParser (pos p) (toknext p) (find_open l i) l)
          else inl JSMN_ERROR_INVAL
      | None => inl JSMN_ERROR_INVAL
      end
  end.

Definition next_char (p : jsmn_parser) : jsmn_parser :=
  mkParser (S (pos p)) (toknext p) (toksuper p) (tokens p).

(** One character of the loop of [jsmn_parse], and how many characters behind
    it the functions above have moved [pos] over. *)
Definition jsmn_char (c : Ascii.ascii) (js : list Ascii.ascii) (p : jsmn_parser) : jsmnerr_t + (jsmn_parser * nat) :=
  if Ascii.eqb c "{" then match open_bracket JSMN_OBJECT p with inl e => inl e | inr p => inr (p, 0) end
  else if Ascii.eqb c "[" then match open_bracket JSMN_ARRAY p with inl e => inl e | inr p => inr (p, 0) end
  else if Ascii.eqb c "}" then match close_bracket JSMN_OBJECT p with inl e => inl e | inr p => inr (p, 0) end
  else if Ascii.eqb c "]" then match close_bracket JSMN_ARRAY p with inl e => inl e | inr p => inr (p, 0) end
  else if Ascii.eqb c dquote then
    match jsmn_parse_string js p with inl e => inl e | inr (p, n) => inr (grow_super p, n) end
  else if is_separator c then inr (p, 0)
  else match jsmn_parse_primitive (c :: js) p with inl e => inl e | inr (p, n) => inr (grow_super p, n) end.

Fixpoint jsmn_loop (js : list Ascii.ascii) (skip : nat) (p : jsmn_parser) : jsmnerr_t + jsmn_parser :=
  match js with
  | [] => inr p
  | c :: js =>
      match skip with
      | S skip => jsmn_loop js skip (next_char p)
      | 0 =>
          if is_null c then inr p
          else
            match jsmn_char c js p with
            | inl e => inl e
            | inr (p, skip) => jsmn_loop js skip (next_char p)
            end
      end
  end.

Definition jsmn_parse (js : list Ascii.ascii) (toks : list jsmntok_t) : jsmnerr_t + list jsmntok_t :=
  match jsmn_loop js 0 (jsmn_init toks) with
  | inl e => inl e
  | inr p => match find_open (tokens p) (toknext p) with Some _ => inl JSMN_ERROR_PART | None => inr (tokens p) end
  end.

End Jsmn.

(** ** [Data::fromJSON] *)

(** [boost::trim_copy] is not part of the sources. *)
Definition is_space (c : Ascii.ascii) : bool :=
  match Ascii.nat_of_ascii c with 9 | 10 | 11 | 12 | 13 | 32 => true | _ => false end.

Definition unspaced (s : list Ascii.ascii) : Prop :=
  match head s, last s with
  | Some c, Some c' => is_space c = false /\ is_space c' = false
  | _, _ => True
  end.

Class Trim := { trim_copy : list Ascii.ascii -> list Ascii.ascii }.

(** What its documentation says: all leading and trailing spaces are removed. *)
Class TrimLaws `{Trim} :=
  trim_spec before s after :
    forallb is_space before = true -> forallb is_space after = true -> unspaced s ->
    trim_copy (before ++ s ++ after) = s.

Inductive JsonError := JSON_throw (cause line : string) | JSON_undefined.

(** A pointer into the datum that is being built: the steps from its root.
    Maps do not move their entries, so a path stays valid. *)
Inductive path_step := Key (k : string) | Index (i : Z).

Fixpoint alter_at (path : list path_step) (f : Data -> Data) (d : Data) : Data :=
  match path with
  | [] => f d
  | Key k :: path => Data_put k (alter_at path f (Data_at d k)) d
  | Index i :: path => set_array (map_put Z.compare i (alter_at path f (Data_item d i)) (d_array d)) d
  end.

Definition set_type (type : DataType) (d : Data) : Data :=
  mkData (d_compound d) (d_array d) (d_atom d) (d_node d) (d_binary d) type.

(** The back of a stack is the head of its list. *)
Record Builder := mkBuilder {
  b_data : Data;
  dataStack : list (list path_step);
  tokenStack : list jsmntok_t;
  b_index : Z;
}.

Definition end_of (t : jsmntok_t) : nat := default 0 (tok_end t).
Definition start_of (t : jsmntok_t) : nat := default 0 (tok_start t).

Definition is_value (t : jsmntok_t) : bool :=
  bool_decide (tok_type t = JSMN_PRIMITIVE) || bool_decide (tok_type t = JSMN_STRING).

Section FromJSON.
Context (trimmed : list Ascii.ascii).

Definition value_of (t : jsmntok_t) : string :=
  implode (jsonUnescape (substr trimmed (start_of t) (end_of t - start_of t))).

(** The [switch] on the current token. *)
Definition take_token (t : jsmntok_t) (b : Builder) : option Builder :=
  match tok_type t with
  | JSMN_OBJECT | JSMN_ARRAY => Some (mkBuilder (b_data b) (dataStack b) (t :: tokenStack b) (b_index b))
  | type =>
      match dataStack b with
      | [] => None
      | path :: ds =>
          let verbatim d := if decide (type = JSMN_STRING) then set_type VERBATIM d else d in
          Some (mkBuilder (alter_at path (fun d => set_atom (value_of t) (verbatim d)) (b_data b))
                  ds (tokenStack b) (b_index b))
      end
  end.

(** [while (t[currTok].end > tokenStack.back().end)] *)
Fixpoint pop_closed (e : nat) (ts : list jsmntok_t) (ds : list (list path_step))
    : option (list jsmntok_t * list (list path_step)) :=
  match ts with
  | [] => None
  | t :: ts' =>
      if end_of t <? e
      then match ds with [] => None | _ :: ds => pop_closed e ts' ds end
      else Some (ts, ds)
  end.

(** What is done before the loop takes [next]: whether it was a key, and has
    been consumed. *)
Definition prepare (next : jsmntok_t) (b : Builder) : option (bool * Builder) :=
  match pop_closed (end_of next) (tokenStack b) (dataStack b) with
  | Some (top :: ts, ds) =>
      let is_key := bool_decide (tok_type top = JSMN_OBJECT) && is_value next in
      if is_key then
        match ds with
        | [] => None
        | path :: _ =>
            let child := path ++ [Key (value_of next)] in
            Some (true, mkBuilder (alter_at child id (b_data b)) (child :: ds) (top :: ts) (b_index b))
        end
      else if decide (tok_type top = JSMN_ARRAY) then
        match ds with
        | [] => None
        | path :: _ =>
            let child := path ++ [Index (b_index b)] in
            Some (false, mkBuilder (alter_at child id (b_data b)) (child :: ds) (top :: ts) (b_index b + 1))
        end
      else Some (false, mkBuilder (b_data b) ds (top :: ts) (b_index b))
  | _ => None
  end.

(** The [do] loop; the head of the list is [t[currTok]]. *)
Fixpoint build (t : list jsmntok_t) (b : Builder) : JsonError + Data :=
  match t with
  | [] => inl JSON_undefined
  | tok :: t =>
      match take_token tok b with
      | None => inl JSON_undefined
      | Some b =>
          match t with
          | [] => inl JSON_undefined
          | next :: t' =>
              if (end_of next =? 0) || bool_decide (tokenStack b = []) then inr (b_data b)
              else
                match prepare next b with
                | None => inl JSON_undefined
                | Some (true, b) => build t' b
                | Some (false, b) => build t b
                end
          end
      end
  end.

End FromJSON.

(** [sizeof(jsmntok_t)] *)
Definition tok_bytes : nat := 16.

(** One round of the loop over the number of tokens. *)
Definition parse_with (trimmed : list Ascii.ascii) (frac : nat) : jsmnerr_t + list jsmntok_t :=
  let nrTokens := length trimmed / frac in
  jsmn_parse nrTokens trimmed (replicate ((nrTokens + 1) * tok_bytes) zero_tok).

Fixpoint parse_tokens (fracs : list nat) (trimmed : list Ascii.ascii) : jsmnerr_t + list jsmntok_t :=
  match fracs with
  | [] => inl JSMN_ERROR_NOMEM
  | [frac] => parse_with trimmed frac
  | frac :: fracs =>
      match parse_with trimmed frac with
      | inl JSMN_ERROR_NOMEM => parse_tokens fracs trimmed
      | r => r
      end
  end.

Definition parse_error (e : jsmnerr_t) (trimmed : string) : string :=
  (match e with
   | JSMN_ERROR_NOMEM => "Cannot parse JSON, not enough tokens were provided! Data:["
   | JSMN_ERROR_INVAL => "Cannot parse JSON, invalid character inside JSON string! Data:["
   | JSMN_ERROR_PART => "Cannot parse JSON, the string is not a full JSON packet, more bytes expected! Data:["
   end +:+ trimmed +:+ "]")%string.

Definition error_line (e : jsmnerr_t) : string :=
  match e with JSMN_ERROR_NOMEM => "124" | JSMN_ERROR_INVAL => "128" | JSMN_ERROR_PART => "132" end.

Definition fromJSON `{Trim} (jsonString : string) : JsonError + Data :=
  let trimmed := trim_copy (explode jsonString) in
  match trimmed with
  | [] => inr Data_empty
  | c :: _ =>
      if negb (Ascii.eqb c "{" || Ascii.eqb c "[") then
        inr (Data_atom jsonString (if isNumeric jsonString 10 then INTERPRETED else VERBATIM))
      else
        match parse_tokens [8; 4; 2; 1] trimmed with
        | inl e => inl (JSON_throw (parse_error e (implode trimmed)) (error_line e))
        | inr t =>
            if end_of (default zero_tok (head t)) =? length trimmed
            then build trimmed t (mkBuilder Data_empty [[]] [] 0)
            else inr Data_empty
        end
  end.

(** *** Spaces at the ends *)

Fixpoint drop_spaces (s : list Ascii.ascii) : list Ascii.ascii :=
  match s with c :: s' => if is_space c then drop_spaces s' else s | [] => [] end.

Definition trim (s : list Ascii.ascii) : list Ascii.ascii := reverse (drop_spaces (reverse (drop_spaces s))).
#[export] Instance trim_instance : Trim := {| trim_copy := trim |}.
