(* ===== verification/JsonTokens.v ===== *)
(** * The tokens of a JSON text

    A relation says which tokens a text spells, with their positions; jsmn
    finds exactly those, or runs out of tokens, which it does not when it has
    one per character. *)

From stdpp Require Import base list strings.
From S2P Require Import Prelude Strings Data Json.

Local Open Scope nat_scope.

(** ** Texts and their tokens *)

(** A token with what it stands for; the members of an object have a key. *)
Inductive tree :=
| Atom (t : jsmntok_t) (v : string)
| Node (t : jsmntok_t) (members : list (option (jsmntok_t * string) * tree)).

Definition key_tokens (k : option (jsmntok_t * string)) : list jsmntok_t :=
  match k with Some (t, _) => [t] | None => [] end.

Fixpoint flat (t : tree) : list jsmntok_t :=
  match t with
  | Atom t _ => [t]
  | Node t ms => t :: flat_map (fun m => key_tokens (fst m) ++ flat (snd m)) ms
  end.

Abbreviation flats ms := (flat_map (fun m => key_tokens (fst m) ++ flat (snd m)) ms).

Definition separators (s : list Ascii.ascii) : Prop := forallb is_separator s = true.

Definition is_bracket (c : Ascii.ascii) : bool := Ascii.eqb c "]" || Ascii.eqb c "}".

(** What may follow a value. *)
Definition delimited (rest : list Ascii.ascii) : Prop :=
  match rest with [] => True | c :: _ => is_separator c || is_bracket c = true end.

Definition string_body (raw : list Ascii.ascii) : Prop :=
  forall rest, string_length (raw ++ dquote :: rest) = inr (length raw).

Definition primitive_char (c : Ascii.ascii) : bool :=
  negb (is_separator c || is_bracket c) && (33 <=? Ascii.nat_of_ascii c) && (Ascii.nat_of_ascii c <? 127).

Definition primitive_text (raw : list Ascii.ascii) : Prop :=
  forallb primitive_char raw = true /\
  match raw with [] => False | c :: _ => negb (Ascii.eqb c "{" || Ascii.eqb c "[" || Ascii.eqb c dquote) = true end.

Definition string_token (p len : nat) : jsmntok_t := mkTok JSMN_STRING (Some (S p)) (Some (S p + len)) 0.

Definition decoded (raw : list Ascii.ascii) : string := implode (jsonUnescape raw).

Inductive spells : nat -> list Ascii.ascii -> tree -> Prop :=
| spells_string p raw : string_body raw ->
    spells p (dquote :: raw ++ [dquote]) (Atom (string_token p (length raw)) (decoded raw))
| spells_primitive p raw : primitive_text raw ->
    spells p raw (Atom (mkTok JSMN_PRIMITIVE (Some p) (Some (p + length raw)) 0) (decoded raw))
| spells_object p body ms : spells_members true (S p) body ms ->
    spells p ("{"%char :: body ++ ["}"%char])
      (Node (mkTok JSMN_OBJECT (Some p) (Some (S (S p) + length body)) (2 * length ms)) ms)
| spells_array p body ms : spells_members false (S p) body ms ->
    spells p ("["%char :: body ++ ["]"%char])
      (Node (mkTok JSMN_ARRAY (Some p) (Some (S (S p) + length body)) (length ms)) ms)
with spells_members : bool -> nat -> list Ascii.ascii -> list (option (jsmntok_t * string) * tree) -> Prop :=
| spells_end o p sep : separators sep -> spells_members o p sep []
| spells_element p sep s t body ms : separators sep -> spells (p + length sep) s t -> delimited body ->
    spells_members false (p + length sep + length s) body ms ->
    spells_members false p (sep ++ s ++ body) ((None, t) :: ms)
| spells_member p sep key sep' s t body ms : separators sep -> string_body key -> separators sep' ->
    spells (p + length sep + length key + 2 + length sep') s t -> delimited body ->
    spells_members true (p + length sep + length key + 2 + length sep' + length s) body ms ->
    spells_members true p (sep ++ dquote :: key ++ dquote :: sep' ++ s ++ body)
      ((Some (string_token (p + length sep) (length key), decoded key), t) :: ms).

Scheme spells_mut := Minimality for spells Sort Prop
with members_mut := Minimality for spells_members Sort Prop.
Combined Scheme spells_both from spells_mut, members_mut.

(** ** jsmn finds the tokens *)

Definition closed_tok (t : jsmntok_t) : Prop := is_open t = false.

Lemma spells_closed :
  (forall p s t, spells p s t -> Forall closed_tok (flat t)) /\
  (forall o p s ms, spells_members o p s ms -> Forall closed_tok (flats ms)).
Proof.
  apply spells_both; intros; cbn [flat flat_map key_tokens fst snd app];
    repeat (constructor || apply Forall_app); try done.
Qed.

Lemma find_open_app D F k : k <= length D -> find_open (D ++ F) k = find_open D k.
Proof.
  induction k as [|k IH]; intros Hk; [done|]. simpl. rewrite lookup_app_l by lia.
  destruct (D !! k) as [t|]; [destruct (is_open t)|]; auto with lia.
Qed.

Lemma find_open_closed D C : Forall closed_tok C ->
  find_open (D ++ C) (length (D ++ C)) = find_open D (length D).
Proof.
  induction C as [|t C IH] using rev_ind; intros HC; [by rewrite app_nil_r|].
  apply Forall_app in HC as (HC & Ht). apply Forall_inv in Ht.
  rewrite (app_assoc D C), (length_app (D ++ C)). replace (length (D ++ C) + length [t]) with (S (length (D ++ C))) by (simpl; lia).
  cbn [find_open]. rewrite lookup_app_r, Nat.sub_diag by done. cbn [lookup list_lookup].
  unfold closed_tok in Ht. rewrite Ht. rewrite find_open_app by done. by apply IH.
Qed.

(** The tokens so far, with one more child counted in the innermost open one. *)
Lemma bump_length s l : length (bump s l) = length l.
Proof. destruct s; [apply length_alter|done]. Qed.

Lemma bump_app s D F : (forall i, s = Some i -> i < length D) -> bump s (D ++ F) = bump s D ++ F.
Proof. destruct s as [i|]; [|done]. intros Hi. cbn [bump]. by rewrite alter_app_l by auto. Qed.

Lemma find_open_lt D k i : find_open D k = Some i -> i < k /\ i < length D.
Proof.
  induction k as [|k IH]; [done|]. simpl. destruct (D !! k) as [t|] eqn:Ht.
  - destruct (is_open t); [|intros (? & ?)%IH; lia]. intros [= <-]. apply lookup_lt_Some in Ht. lia.
  - intros (? & ?)%IH. lia.
Qed.

Lemma find_open_bump D k s : find_open (bump s D) k = find_open D k.
Proof.
  destruct s as [j|]; [|done]. induction k as [|k IH]; [done|]. cbn [find_open]. rewrite IH. cbn [bump].
  destruct (decide (j = k)) as [->|Hjk]; [|by rewrite list_lookup_alter_ne].
  rewrite list_lookup_alter_eq. by destruct (D !! k).
Qed.

Section Tokens.
Context (num : nat).
Abbreviation loop := (jsmn_loop num).

Lemma loop_skip l rest skip p k s T : length l = skip ->
  loop (l ++ rest) skip (mkParser p k s T) = loop rest 0 (mkParser (p + skip) k s T).
Proof.
  revert p skip. induction l as [|c l IH]; intros p [|skip] Hl; try done; [by rewrite Nat.add_0_r|].
  cbn [app jsmn_loop]. unfold next_char. cbn [pos toknext toksuper tokens].
  rewrite IH by (simpl in Hl; lia). by rewrite Nat.add_succ_comm.
Qed.

Lemma loop_separators sep rest p k s T : separators sep ->
  loop (sep ++ rest) 0 (mkParser p k s T) = loop rest 0 (mkParser (p + length sep) k s T).
Proof.
  revert p. induction sep as [|c sep IH]; intros p Hs; [by rewrite Nat.add_0_r|].
  apply andb_true_iff in Hs as (Hc & Hs). cbn [app jsmn_loop length].
  assert (Hone : is_null c = false /\ jsmn_char num c (sep ++ rest) (mkParser p k s T) = inr (mkParser p k s T, 0)).
  { clear -Hc. unfold jsmn_char. destruct c as [[] [] [] [] [] [] [] []]; vm_compute in Hc; done. }
  destruct Hone as (-> & ->). unfold next_char. cbn [pos toknext toksuper tokens].
  rewrite IH by done. by rewrite Nat.add_succ_comm.
Qed.

(** Where the parser is before and behind a piece of text with tokens [new]. *)
Definition at_ (p : nat) (s : option nat) (D F : list jsmntok_t) : jsmn_parser := mkParser p (length D) s (D ++ F).

Lemma loop_seps sep rest p s D F : separators sep ->
  loop (sep ++ rest) 0 (at_ p s D F) = loop rest 0 (at_ (p + length sep) s D F).
Proof. apply loop_separators. Qed.

Lemma loop_string raw rest p s D F : string_body raw -> find_open D (length D) = s -> length D < num -> 0 < length F ->
  loop (dquote :: raw ++ dquote :: rest) 0 (at_ p s D F) =
  loop rest 0 (at_ (p + (2 + length raw)) s (bump s D ++ [string_token p (length raw)]) (drop 1 F)).
Proof.
  intros Hraw Hs Hk HF. cbn [jsmn_loop]. change (is_null dquote) with false. cbn iota.
  unfold jsmn_char. change (Ascii.eqb dquote "{") with false. change (Ascii.eqb dquote "[") with false.
  change (Ascii.eqb dquote "}") with false. change (Ascii.eqb dquote "]") with false.
  change (Ascii.eqb dquote dquote) with true. cbn iota.
  unfold jsmn_parse_string. rewrite Hraw. unfold jsmn_alloc_token, at_. cbn [toknext pos toksuper tokens].
  rewrite (proj2 (Nat.leb_gt _ _)) by done. unfold grow_super, next_char. cbn [toknext pos toksuper tokens].
  replace (raw ++ dquote :: rest) with ((raw ++ [dquote]) ++ rest) by (by rewrite <- app_assoc).
  rewrite loop_skip by (rewrite length_app; simpl; lia). f_equal. f_equal; [lia|rewrite length_app, bump_length; simpl; lia|].
  destruct F as [|f F]; [simpl in HF; lia|]. rewrite insert_app_r_alt, Nat.sub_diag by done.
  cbn [list_insert insert drop]. rewrite bump_app; [by rewrite <- app_assoc|].
  intros i ->. by apply find_open_lt in Hs as (? & ?).
Qed.

Lemma primitive_length_spec raw rest : forallb primitive_char raw = true -> delimited rest ->
  primitive_length (raw ++ rest) = Some (length raw).
Proof.
  intros Hr Hd. induction raw as [|c raw IH]; cbn [app length].
  - destruct rest as [|c rest]; [done|]. cbn [primitive_length]. unfold delimited, is_bracket in Hd.
    by rewrite <- !orb_assoc, Hd, orb_true_r.
  - apply andb_true_iff in Hr as (Hc & Hr). unfold primitive_char, is_bracket in Hc.
    apply andb_true_iff in Hc as ((Hc & Hlo)%andb_true_iff & Hhi). apply negb_true_iff in Hc.
    apply Nat.leb_le in Hlo. apply Nat.ltb_lt in Hhi. cbn [primitive_length].
    rewrite <- !orb_assoc, Hc. unfold is_null. rewrite (proj2 (Nat.eqb_neq _ _)) by lia. cbn [orb].
    rewrite (proj2 (Nat.ltb_ge _ _)), (proj2 (Nat.leb_gt _ _)) by lia. cbn [orb]. by rewrite IH.
Qed.

Lemma loop_primitive raw rest p s D F : primitive_text raw -> delimited rest ->
  find_open D (length D) = s -> length D < num -> 0 < length F ->
  loop (raw ++ rest) 0 (at_ p s D F) =
  loop rest 0 (at_ (p + length raw) s (bump s D ++ [mkTok JSMN_PRIMITIVE (Some p) (Some (p + length raw)) 0]) (drop 1 F)).
Proof.
  intros (Hp & Hc) Hd Hs Hk HF. destruct raw as [|c raw]; [done|]. cbn [app jsmn_loop].
  pose proof (primitive_length_spec _ _ Hp Hd) as Hlen. cbn [app] in Hlen.
  apply andb_true_iff in Hp as (Hcp & Hp). unfold primitive_char, is_bracket in Hcp.
  apply andb_true_iff in Hcp as ((Hcp & Hlo)%andb_true_iff & _). apply negb_true_iff in Hcp.
  apply orb_false_iff in Hcp as (Hsep & (Hb1 & Hb2)%orb_false_iff).
  apply negb_true_iff in Hc. apply orb_false_iff in Hc as ((Ho1 & Ho2)%orb_false_iff & Hq).
  assert (is_null c = false) as -> by (apply Nat.eqb_neq; apply Nat.leb_le in Hlo; lia).
  unfold jsmn_char. rewrite Ho1, Ho2, Hb2, Hb1, Hq, Hsep.
  unfold jsmn_parse_primitive. rewrite Hlen. unfold jsmn_alloc_token, at_. cbn [toknext pos toksuper tokens].
  rewrite (proj2 (Nat.leb_gt _ _)) by done. unfold grow_super, next_char. cbn [toknext pos toksuper tokens].
  rewrite loop_skip by (simpl; lia). f_equal. f_equal; [simpl; lia|rewrite length_app, bump_length; simpl; lia|].
  destruct F as [|f F]; [simpl in HF; lia|]. rewrite insert_app_r_alt, Nat.sub_diag by done.
  cbn [list_insert insert drop]. rewrite bump_app; [by rewrite <- app_assoc|].
  intros i ->. by apply find_open_lt in Hs as (? & ?).
Qed.

Lemma loop_open (o : bool) rest p s D F : find_open D (length D) = s -> length D < num -> 0 < length F ->
  loop ((if o then "{" else "[")%char :: rest) 0 (at_ p s D F) =
  loop rest 0 (at_ (S p) (Some (length D))
    (bump s D ++ [mkTok (if o then JSMN_OBJECT else JSMN_ARRAY) (Some p) None 0]) (drop 1 F)).
Proof.
  intros Hs Hk HF. cbn [jsmn_loop].
  assert (Hone : jsmn_char num (if o then "{" else "[")%char rest (at_ p s D F) =
    match open_bracket num (if o then JSMN_OBJECT else JSMN_ARRAY) (at_ p s D F) with
    | inl e => inl e | inr p => inr (p, 0) end) by (by destruct o).
  assert (is_null (if o then "{" else "[")%char = false) as -> by (by destruct o).
  rewrite Hone. unfold open_bracket, jsmn_alloc_token, at_. cbn [toknext pos toksuper tokens].
  rewrite (proj2 (Nat.leb_gt _ _)) by done. unfold next_char. cbn [toknext pos toksuper tokens].
  f_equal. f_equal; [rewrite length_app, bump_length; simpl; lia|].
  destruct F as [|f F]; [simpl in HF; lia|]. rewrite insert_app_r_alt, Nat.sub_diag by done.
  cbn [list_insert insert drop]. rewrite bump_app; [by rewrite <- app_assoc|].
  intros i ->. by apply find_open_lt in Hs as (? & ?).
Qed.

Definition grown (n : nat) (t : jsmntok_t) : jsmntok_t := mkTok (tok_type t) (tok_start t) (tok_end t) (tok_size t + n).

Lemma find_open_last D ot C : is_open ot = true -> Forall closed_tok C ->
  find_open (D ++ ot :: C) (length (D ++ ot :: C)) = Some (length D).
Proof.
  intros Ho HC. rewrite (cons_middle ot D C), app_assoc, find_open_closed by done.
  rewrite length_app, Nat.add_1_r. cbn [find_open]. rewrite lookup_app_r, Nat.sub_diag by done.
  cbn [lookup list_lookup]. by rewrite Ho.
Qed.

Lemma loop_close (o : bool) rest p st sz D C F : Forall closed_tok C ->
  loop ((if o then "}" else "]")%char :: rest) 0
    (at_ p (Some (length D)) (D ++ mkTok (if o then JSMN_OBJECT else JSMN_ARRAY) (Some st) None sz :: C) F) =
  loop rest 0 (at_ (S p) (find_open D (length D))
    (D ++ mkTok (if o then JSMN_OBJECT else JSMN_ARRAY) (Some st) (Some (S p)) sz :: C) F).
Proof.
  intros HC. set (ot := mkTok _ (Some st) None sz). cbn [jsmn_loop].
  assert (Hone : forall st, jsmn_char num (if o then "}" else "]")%char rest st =
    match close_bracket (if o then JSMN_OBJECT else JSMN_ARRAY) st with
    | inl e => inl e | inr p => inr (p, 0) end) by (by destruct o).
  assert (is_null (if o then "}" else "]")%char = false) as -> by (by destruct o).
  rewrite Hone. unfold close_bracket, at_. cbn [toknext pos toksuper tokens].
  rewrite (find_open_app (D ++ ot :: C)), find_open_last by done.
  rewrite <- app_assoc. cbn [app]. rewrite lookup_app_r, Nat.sub_diag by done. cbn [lookup list_lookup].
  rewrite decide_True by done. unfold next_char. cbn [toknext pos toksuper tokens tok_type tok_start tok_size].
  rewrite insert_app_r_alt, Nat.sub_diag by done. cbn [list_insert insert].
  rewrite find_open_app by done. f_equal. f_equal; [by rewrite !length_app|by rewrite <- app_assoc].
Qed.

Lemma bump_last D ot C : bump (Some (length D)) (D ++ ot :: C) = D ++ grown 1 ot :: C.
Proof.
  cbn [bump]. rewrite alter_app_r_alt, Nat.sub_diag by done. cbn. unfold grown. by rewrite Nat.add_1_r.
Qed.

Lemma grown_grown n m t : grown n (grown m t) = grown (m + n) t.
Proof. unfold grown. cbn. by rewrite Nat.add_assoc. Qed.

Definition value_ok (p : nat) (s : list Ascii.ascii) (t : tree) : Prop := forall sup D F rest,
  find_open D (length D) = sup -> length D + length (flat t) <= num -> length (flat t) <= length F -> delimited rest ->
  loop (s ++ rest) 0 (at_ p sup D F) =
  loop rest 0 (at_ (p + length s) sup (bump sup D ++ flat t) (drop (length (flat t)) F)).

Definition members_ok (o : bool) (p : nat) (s : list Ascii.ascii) (ms : list (option (jsmntok_t * string) * tree)) : Prop :=
  forall D ot C F c rest, is_open ot = true -> Forall closed_tok C ->
  length D + 1 + length C + length (flats ms) <= num -> length (flats ms) <= length F -> is_bracket c = true ->
  loop (s ++ c :: rest) 0 (at_ p (Some (length D)) (D ++ ot :: C) F) =
  loop (c :: rest) 0 (at_ (p + length s) (Some (length D))
    (D ++ grown ((if o then 2 else 1) * length ms) ot :: C ++ flats ms) (drop (length (flats ms)) F)).

Lemma container_ok (o : bool) p body ms : members_ok o (S p) body ms ->
  Forall closed_tok (flats ms) ->
  value_ok p ((if o then "{" else "[")%char :: body ++ [(if o then "}" else "]")%char])
    (Node (mkTok (if o then JSMN_OBJECT else JSMN_ARRAY) (Some p) (Some (S (S p) + length body))
       ((if o then 2 else 1) * length ms)) ms).
Proof.
  intros IH Hcl sup D F rest Hs Hn HF Hd. cbn [flat length] in *. cbn [app]. rewrite <- app_assoc. cbn [app].
  rewrite loop_open by (done || lia).
  rewrite <- (bump_length sup D), (IH (bump sup D) _ [] (drop 1 F)); [|by destruct o|done|rewrite bump_length; simpl; lia| |by destruct o].
  2:{ rewrite length_drop. lia. }
  unfold grown. cbn [tok_type tok_start tok_end tok_size app Nat.add]. rewrite loop_close by done.
  rewrite find_open_bump, bump_length, Hs, drop_drop. f_equal. f_equal. rewrite length_app. simpl. lia.
Qed.

Lemma element_ok p sep s t body ms : separators sep -> value_ok (p + length sep) s t -> Forall closed_tok (flat t) ->
  delimited body -> members_ok false (p + length sep + length s) body ms ->
  members_ok false p (sep ++ s ++ body) ((None, t) :: ms).
Proof.
  intros Hsep Hv Hcl Hd IH D ot C F c rest Ho HC Hn HF Hc.
  cbn [flat_map fst snd key_tokens app] in *. rewrite length_app in Hn, HF.
  rewrite <- !app_assoc, loop_seps by done.
  rewrite (Hv (Some (length D)) (D ++ ot :: C) F); [|by apply find_open_last|rewrite length_app; simpl; lia|lia|].
  2:{ destruct body as [|b body]; [|done]. cbn. by rewrite Hc, orb_true_r. }
  rewrite bump_last, <- app_assoc. cbn [app].
  rewrite (IH D (grown 1 ot) (C ++ flat t) (drop (length (flat t)) F)); [|done|by apply Forall_app|
    rewrite length_app; lia|rewrite length_drop; lia|done].
  rewrite grown_grown, drop_drop, <- app_assoc, !length_app. do 2 f_equal. lia.
Qed.

Lemma member_ok p sep key sep' s t body ms : separators sep -> string_body key -> separators sep' ->
  value_ok (p + length sep + length key + 2 + length sep') s t -> Forall closed_tok (flat t) -> delimited body ->
  members_ok true (p + length sep + length key + 2 + length sep' + length s) body ms ->
  members_ok true p (sep ++ dquote :: key ++ dquote :: sep' ++ s ++ body)
    ((Some (string_token (p + length sep) (length key), decoded key), t) :: ms).
Proof.
  intros Hsep Hkey Hsep' Hv Hcl Hd IH D ot C F c rest Ho HC Hn HF Hc. set (ktok := string_token _ _).
  assert (Hk : closed_tok ktok) by done.
  cbn [flat_map fst snd key_tokens app length] in *. rewrite length_app in Hn, HF.
  rewrite <- !app_assoc, loop_seps by done. cbn [app]. rewrite <- app_assoc. cbn [app]. rewrite <- !app_assoc.
  rewrite loop_string; [|done|by apply find_open_last|rewrite length_app; simpl; lia|lia].
  rewrite bump_last, <- app_assoc. cbn [app]. fold ktok. rewrite loop_seps by done.
  replace (p + length sep + (2 + length key) + length sep') with (p + length sep + length key + 2 + length sep') by lia.
  rewrite (Hv (Some (length D)) (D ++ grown 1 ot :: C ++ [ktok]) (drop 1 F)).
  2:{ apply find_open_last; [done|]. apply Forall_app. by rewrite Forall_singleton. }
  2:{ rewrite length_app. simpl. rewrite length_app. simpl. lia. }
  2:{ rewrite length_drop. lia. }
  2:{ destruct body as [|b body]; [|done]. cbn. by rewrite Hc, orb_true_r. }
  rewrite bump_last, grown_grown, drop_drop, <- app_assoc. cbn [app]. rewrite <- app_assoc. cbn [app].
  rewrite (IH D (grown 2 ot) (C ++ ktok :: flat t)); [|done|by apply Forall_app; rewrite Forall_cons|
    rewrite length_app; simpl; lia|rewrite length_drop; lia|done].
  rewrite grown_grown, drop_drop, <- app_assoc. cbn [app].
  replace (2 * S (length ms)) with (2 + 2 * length ms) by lia.
  do 2 f_equal; repeat (rewrite length_app || cbn [length]); [lia|done].
Qed.

Lemma loop_spells :
  (forall p s t, spells p s t -> value_ok p s t) /\
  (forall o p s ms, spells_members o p s ms -> members_ok o p s ms).
Proof.
  apply spells_both.
  - intros p raw Hraw sup D F rest Hs Hn HF Hd. cbn [flat length] in *.
    replace ((dquote :: raw ++ [dquote]) ++ rest) with (dquote :: raw ++ dquote :: rest)
      by (cbn [app]; by rewrite <- app_assoc).
    rewrite loop_string by (done || lia). f_equal. f_equal. rewrite length_app. simpl. lia.
  - intros p raw Hraw sup D F rest Hs Hn HF Hd. cbn [flat length] in *.
    by rewrite loop_primitive by (done || lia).
  - intros p body ms Hms IH. apply (container_ok true); [done|by eapply (proj2 spells_closed)].
  - intros p body ms Hms IH. pose proof (container_ok false p body ms IH (proj2 spells_closed _ _ _ _ Hms)) as Hok.
    cbn [Nat.mul] in Hok. by rewrite Nat.add_0_r in Hok.
  - intros o p sep Hsep D ot C F c rest Ho HC Hn HF Hc. cbn [flat_map length]. rewrite loop_seps by done.
    rewrite app_nil_r, Nat.mul_0_r, drop_0. do 2 f_equal. unfold grown. rewrite Nat.add_0_r. by destruct ot.
  - intros p sep s t body ms Hsep Ht Hv Hd Hms IH. apply element_ok; try done. by eapply (proj1 spells_closed).
  - intros p sep key sep' s t body ms Hsep Hkey Hsep' Ht Hv Hd Hms IH.
    apply member_ok; try done. by eapply (proj1 spells_closed).
Qed.

(** *** The tokens run out *)

Lemma string_full raw rest p s D F : string_body raw -> length D = num ->
  loop (dquote :: raw ++ dquote :: rest) 0 (at_ p s D F) = inl JSMN_ERROR_NOMEM.
Proof.
  intros Hraw Hk. cbn [jsmn_loop]. change (is_null dquote) with false. cbn iota.
  unfold jsmn_char. change (Ascii.eqb dquote "{") with false. change (Ascii.eqb dquote "[") with false.
  change (Ascii.eqb dquote "}") with false. change (Ascii.eqb dquote "]") with false.
  change (Ascii.eqb dquote dquote) with true. cbn iota.
  unfold jsmn_parse_string. rewrite Hraw. unfold jsmn_alloc_token, at_. cbn [toknext].
  by rewrite (proj2 (Nat.leb_le _ _)) by lia.
Qed.

Lemma primitive_full raw rest p s D F : primitive_text raw -> delimited rest -> length D = num ->
  loop (raw ++ rest) 0 (at_ p s D F) = inl JSMN_ERROR_NOMEM.
Proof.
  intros (Hp & Hc) Hd Hk. destruct raw as [|c raw]; [done|]. cbn [app jsmn_loop].
  pose proof (primitive_length_spec _ _ Hp Hd) as Hlen. cbn [app] in Hlen.
  apply andb_true_iff in Hp as (Hcp & Hp). unfold primitive_char, is_bracket in Hcp.
  apply andb_true_iff in Hcp as ((Hcp & Hlo)%andb_true_iff & _). apply negb_true_iff in Hcp.
  apply orb_false_iff in Hcp as (Hsep & (Hb1 & Hb2)%orb_false_iff).
  apply negb_true_iff in Hc. apply orb_false_iff in Hc as ((Ho1 & Ho2)%orb_false_iff & Hq).
  assert (is_null c = false) as -> by (apply Nat.eqb_neq; apply Nat.leb_le in Hlo; lia).
  unfold jsmn_char. rewrite Ho1, Ho2, Hb2, Hb1, Hq, Hsep.
  unfold jsmn_parse_primitive. rewrite Hlen. unfold jsmn_alloc_token, at_. cbn [toknext].
  by rewrite (proj2 (Nat.leb_le _ _)) by lia.
Qed.

Lemma open_full (o : bool) rest p s D F : length D = num ->
  loop ((if o then "{" else "[")%char :: rest) 0 (at_ p s D F) = inl JSMN_ERROR_NOMEM.
Proof.
  intros Hk. cbn [jsmn_loop].
  assert (Hone : jsmn_char num (if o then "{" else "[")%char rest (at_ p s D F) =
    match open_bracket num (if o then JSMN_OBJECT else JSMN_ARRAY) (at_ p s D F) with
    | inl e => inl e | inr p => inr (p, 0) end) by (by destruct o).
  assert (is_null (if o then "{" else "[")%char = false) as -> by (by destruct o).
  rewrite Hone. unfold open_bracket, jsmn_alloc_token, at_. cbn [toknext].
  by rewrite (proj2 (Nat.leb_le _ _)) by lia.
Qed.

Definition value_full (p : nat) (s : list Ascii.ascii) (t : tree) : Prop := forall sup D F rest,
  find_open D (length D) = sup -> length D <= num < length D + length (flat t) ->
  num <= length D + length F -> delimited rest ->
  loop (s ++ rest) 0 (at_ p sup D F) = inl JSMN_ERROR_NOMEM.

Definition members_full (o : bool) (p : nat) (s : list Ascii.ascii) (ms : list (option (jsmntok_t * string) * tree)) : Prop :=
  forall D ot C F c rest, is_open ot = true -> Forall closed_tok C ->
  length D + 1 + length C <= num < length D + 1 + length C + length (flats ms) ->
  num <= length D + 1 + length C + length F -> is_bracket c = true ->
  loop (s ++ c :: rest) 0 (at_ p (Some (length D)) (D ++ ot :: C) F) = inl JSMN_ERROR_NOMEM.

Lemma container_full (o : bool) p body ms tok : members_full o (S p) body ms ->
  value_full p ((if o then "{" else "[")%char :: body ++ [(if o then "}" else "]")%char]) (Node tok ms).
Proof.
  intros IH sup D F rest Hs Hn HF Hd. cbn [flat length] in *. cbn [app]. rewrite <- app_assoc. cbn [app].
  destruct (decide (length D = num)) as [Hk|Hk]; [by apply open_full|].
  rewrite loop_open by (done || lia). rewrite <- (bump_length sup D).
  apply (IH (bump sup D) _ []); [by destruct o|done|rewrite bump_length; simpl; lia| |by destruct o].
  rewrite bump_length, length_drop. simpl. lia.
Qed.

Lemma element_full p sep s t body ms : separators sep -> spells (p + length sep) s t ->
  value_full (p + length sep) s t -> delimited body -> members_full false (p + length sep + length s) body ms ->
  members_full false p (sep ++ s ++ body) ((None, t) :: ms).
Proof.
  intros Hsep Ht Hv Hd IH D ot C F c rest Ho HC Hn HF Hc.
  cbn [flat_map fst snd key_tokens app] in *. rewrite length_app in Hn.
  assert (Hdel : delimited (body ++ c :: rest)).
  { destruct body as [|b body]; [|done]. cbn. by rewrite Hc, orb_true_r. }
  rewrite <- !app_assoc, loop_seps by done.
  destruct (decide (num < length D + 1 + length C + length (flat t))) as [Hk|Hk].
  - apply Hv; [by apply find_open_last| | |done]; rewrite length_app; simpl; lia.
  - rewrite ((proj1 loop_spells) _ _ _ Ht (Some (length D)) (D ++ ot :: C) F); [|by apply find_open_last|
      rewrite length_app; simpl; lia|lia|done].
    rewrite bump_last, <- app_assoc. cbn [app].
    apply IH; [done| | | |done].
    + apply Forall_app. split; [done|]. by eapply (proj1 spells_closed).
    + rewrite length_app. lia.
    + rewrite length_app, length_drop. lia.
Qed.

Lemma member_full p sep key sep' s t body ms : separators sep -> string_body key -> separators sep' ->
  spells (p + length sep + length key + 2 + length sep') s t ->
  value_full (p + length sep + length key + 2 + length sep') s t -> delimited body ->
  members_full true (p + length sep + length key + 2 + length sep' + length s) body ms ->
  members_full true p (sep ++ dquote :: key ++ dquote :: sep' ++ s ++ body)
    ((Some (string_token (p + length sep) (length key), decoded key), t) :: ms).
Proof.
  intros Hsep Hkey Hsep' Ht Hv Hd IH D ot C F c rest Ho HC Hn HF Hc. set (ktok := string_token (p + length sep) (length key)).
  assert (Hk : closed_tok ktok) by done. pose proof (proj1 spells_closed _ _ _ Ht) as Hcl.
  assert (Hdel : delimited (body ++ c :: rest)).
  { destruct body as [|b body]; [|done]. cbn. by rewrite Hc, orb_true_r. }
  cbn [flat_map fst snd key_tokens app length] in *. rewrite length_app in Hn.
  rewrite <- !app_assoc, loop_seps by done. cbn [app]. rewrite <- app_assoc. cbn [app]. rewrite <- !app_assoc.
  destruct (decide (length D + 1 + length C = num)) as [Hf|Hf].
  { apply string_full; [done|]. rewrite length_app. simpl. lia. }
  rewrite loop_string; [|done|by apply find_open_last|rewrite length_app; simpl; lia|lia].
  rewrite bump_last, <- app_assoc. cbn [app]. fold ktok. rewrite loop_seps by done.
  replace (p + length sep + (2 + length key) + length sep') with (p + length sep + length key + 2 + length sep') by lia.
  assert (Hlast : find_open (D ++ grown 1 ot :: C ++ [ktok]) (length (D ++ grown 1 ot :: C ++ [ktok])) = Some (length D)).
  { apply find_open_last; [done|]. apply Forall_app. by rewrite Forall_singleton. }
  assert (Hlen : length (D ++ grown 1 ot :: C ++ [ktok]) = length D + 2 + length C).
  { rewrite length_app. simpl. rewrite length_app. simpl. lia. }
  destruct (decide (num < length D + 2 + length C + length (flat t))) as [Hk'|Hk'].
  { apply Hv; [done|rewrite Hlen; lia|rewrite Hlen, length_drop; lia|done]. }
  rewrite ((proj1 loop_spells) _ _ _ Ht (Some (length D)) (D ++ grown 1 ot :: C ++ [ktok]) (drop 1 F));
    [|done|rewrite Hlen; lia|rewrite length_drop; lia|done].
  rewrite bump_last, grown_grown, drop_drop, <- app_assoc. cbn [app]. rewrite <- app_assoc. cbn [app].
  apply IH; [done|by apply Forall_app; rewrite Forall_cons| | |done]; rewrite ?length_drop, length_app; simpl; lia.
Qed.

Lemma loop_full :
  (forall p s t, spells p s t -> spells p s t /\ value_full p s t) /\
  (forall o p s ms, spells_members o p s ms -> members_full o p s ms).
Proof.
  apply spells_both.
  - intros p raw Hraw. split; [by constructor|]. intros sup D F rest Hs Hn HF Hd. cbn [flat length] in *.
    replace ((dquote :: raw ++ [dquote]) ++ rest) with (dquote :: raw ++ dquote :: rest)
      by (cbn [app]; by rewrite <- app_assoc). apply string_full; [done|lia].
  - intros p raw Hraw. split; [by constructor|]. intros sup D F rest Hs Hn HF Hd. cbn [flat length] in *.
    apply primitive_full; [done|done|lia].
  - intros p body ms Hms IH. split; [by constructor|]. by apply (container_full true).
  - intros p body ms Hms IH. split; [by constructor|]. by apply (container_full false).
  - intros o p sep Hsep D ot C F c rest Ho HC Hn HF Hc. simpl in Hn. lia.
  - intros p sep s t body ms Hsep Ht [_ Hv] Hd Hms IH. by apply element_full.
  - intros p sep key sep' s t body ms Hsep Hkey Hsep' Ht [_ Hv] Hd Hms IH. by apply member_full.
Qed.

(** jsmn returns exactly the tokens of the text, or there are too few. *)
Lemma jsmn_parse_spells s t size : spells 0 s t -> length (flat t) <= num -> num <= size ->
  jsmn_parse num s (replicate size zero_tok) = inr (flat t ++ replicate (size - length (flat t)) zero_tok).
Proof.
  intros Ht Hn Hsize. unfold jsmn_parse, jsmn_init.
  pose proof ((proj1 loop_spells) _ _ _ Ht None [] (replicate size zero_tok) [] eq_refl Hn) as Hl.
  rewrite app_nil_r in Hl. unfold at_ in Hl. cbn [length app bump] in Hl. rewrite Hl; [|by rewrite length_replicate; lia|done].
  cbn [jsmn_loop toknext tokens]. rewrite find_open_app by done.
  pose proof (find_open_closed [] (flat t) (proj1 spells_closed _ _ _ Ht)) as Hf. cbn [app] in Hf. rewrite Hf. cbn.
  by rewrite drop_replicate.
Qed.

Lemma jsmn_parse_full s t size : spells 0 s t -> num < length (flat t) -> num <= size ->
  jsmn_parse num s (replicate size zero_tok) = inl JSMN_ERROR_NOMEM.
Proof.
  intros Ht Hn Hsize. unfold jsmn_parse, jsmn_init.
  pose proof (proj2 (proj1 loop_full _ _ _ Ht) None [] (replicate size zero_tok) [] eq_refl) as Hl.
  rewrite app_nil_r in Hl. unfold at_ in Hl. cbn [length app] in Hl. rewrite Hl; [done| | |done]; rewrite ?length_replicate; lia.
Qed.

End Tokens.

(** ** There are always enough tokens in the end *)

Lemma string_length_error n : forall js e, length js <= n -> string_length js = inl e -> e <> JSMN_ERROR_NOMEM.
Proof.
  induction n as [|n IH]; intros [|c js] e Hn He; simpl in *; try lia; try (by simplify_eq).
  destruct (is_null c); [by simplify_eq|]. destruct (Ascii.eqb c dquote); [done|].
  destruct (Ascii.eqb c backslash); [destruct js as [|c' js]; [by simplify_eq|]; destruct (escapable c'); [|by simplify_eq]|].
  - destruct (string_length js) eqn:Hs; simplify_eq. eapply IH; [|done]. simpl in Hn. lia.
  - destruct (string_length js) eqn:Hs; simplify_eq. eapply IH; [|done]. lia.
Qed.

Lemma char_allocates num c js p : toknext p < num ->
  match jsmn_char num c js p with
  | inl e => e <> JSMN_ERROR_NOMEM
  | inr (p', _) => pos p' = pos p /\ toknext p' <= S (toknext p)
  end.
Proof.
  intros Hn. apply Nat.leb_gt in Hn.
  unfold jsmn_char, open_bracket, close_bracket, jsmn_parse_string, jsmn_parse_primitive, jsmn_alloc_token, grow_super.
  rewrite !Hn. repeat case_match; simplify_eq; cbn; try done; try (split; [done|lia]).
  by eapply string_length_error.
Qed.

Lemma loop_allocates num js : forall skip p, toknext p <= pos p -> pos p + length js = num ->
  jsmn_loop num js skip p <> inl JSMN_ERROR_NOMEM.
Proof.
  induction js as [|c js IH]; intros skip p Ht Hp; [done|]. cbn [jsmn_loop]. simpl in Hp.
  destruct skip as [|skip]; [|apply IH; simpl; lia].
  destruct (is_null c); [done|]. pose proof (char_allocates num c js p ltac:(lia)) as Hc.
  destruct (jsmn_char num c js p) as [e|[p' skip]]; [congruence|]. apply IH; simpl; lia.
Qed.

Lemma parse_with_all s : parse_with s 1 <> inl JSMN_ERROR_NOMEM.
Proof.
  unfold parse_with, jsmn_parse. rewrite Nat.div_1_r.
  pose proof (loop_allocates (length s) s 0 (jsmn_init (replicate ((length s + 1) * tok_bytes) zero_tok))
    (Nat.le_refl 0) eq_refl) as Hl.
  destruct (jsmn_loop _ _ _ _) as [e|p]; [congruence|]. by destruct (find_open _ _).
Qed.

Lemma parse_tokens_enough s : parse_tokens [8; 4; 2; 1] s <> inl JSMN_ERROR_NOMEM.
Proof.
  cbn [parse_tokens]. pose proof (parse_with_all s).
  repeat (case_match; simplify_eq; try done).
Qed.
