(* ===== verification/JsonTheorems.v ===== *)
(** * Theorems about JSON

    [fromJSON] makes the datum of the tokens a text spells, and what [toJSON]
    prints is such a text; texts that are read differently, and one that
    crashes the reader. *)

From stdpp Require Import base list strings.
From S2P Require Import Prelude Strings Data Json JsonTokens.

Local Open Scope nat_scope.

(** ** [fromJSON] makes the datum of the tokens *)

Section Build.
Context (txt : list Ascii.ascii).

(** What the loop does behind the [switch]. *)
Definition after (l : list jsmntok_t) (b : Builder) : JsonError + Data :=
  match l with
  | [] => inl JSON_undefined
  | next :: l' =>
      if (end_of next =? 0) || bool_decide (tokenStack b = []) then inr (b_data b)
      else
        match prepare txt next b with
        | None => inl JSON_undefined
        | Some (true, b) => build txt l' b
        | Some (false, b) => build txt l b
        end
  end.

Lemma build_cons tok l b :
  build txt (tok :: l) b =
  match take_token txt tok b with None => inl JSON_undefined | Some b => after l b end.
Proof. cbn [build]. destruct (take_token txt tok b) as [b'|]; [|done]. by destruct l. Qed.

Lemma build_error n : forall l b e, length l <= n -> build txt l b = inl e -> e = JSON_undefined.
Proof.
  induction n as [|n IH]; intros [|tok l] b e Hn He; simpl in Hn; try lia; try (by injection He as <-).
  rewrite build_cons in He. destruct (take_token txt tok b) as [b'|]; [|by injection He as <-].
  destruct l as [|next l]; [by injection He as <-|]. cbn [after] in He.
  destruct (_ || _); [done|]. destruct (prepare txt next b') as [[[] b'']|]; [| |by injection He as <-].
  - eapply IH; [|done]. simpl in Hn. lia.
  - eapply IH; [|done]. lia.
Qed.

End Build.

(** [fromJSON] never gives up for want of tokens: the last round of its
    loop has one per character of the text. *)
Theorem fromJSON_enough_tokens `{Trim} jsonString cause line :
  fromJSON jsonString = inl (JSON_throw cause line) ->
  exists e, e <> JSMN_ERROR_NOMEM /\ cause = parse_error e (implode (trim_copy (explode jsonString))).
Proof.
  unfold fromJSON. destruct (trim_copy _) as [|c s]; [done|]. destruct (negb _); [done|].
  pose proof (parse_tokens_enough (c :: s)). destruct (parse_tokens _ _) as [e|t].
  - intros [= <- _]. exists e. split; [congruence|done].
  - destruct (_ =? _); [|done]. by intros ?%(build_error _ _ _ _ _ (Nat.le_refl _)).
Qed.

(** *** Changing a datum in place *)

Lemma map_put_put {V} k (v w : V) m : str_put k w (str_put k v m) = str_put k w m.
Proof.
  unfold str_put. induction m as [|[a x] m IH]; simpl.
  - by rewrite (proj2 (string_compare_eq k k) eq_refl).
  - destruct (String.compare k a) eqn:E; simpl;
      rewrite ?E, ?(proj2 (string_compare_eq k k) eq_refl); [done|done|]. by rewrite IH.
Qed.

Lemma item_put_put {V} i (v w : V) m : map_put Z.compare i w (map_put Z.compare i v m) = map_put Z.compare i w m.
Proof.
  induction m as [|[a x] m IH]; simpl; [by rewrite Z.compare_refl|].
  destruct (Z.compare i a) eqn:E; simpl; rewrite ?E, ?Z.compare_refl; [done|done|]. by rewrite IH.
Qed.

Lemma Data_item_put i d a : Data_item (set_array (map_put Z.compare i d (d_array a)) a) i = d.
Proof. unfold Data_item. cbn [set_array d_array]. by rewrite (map_find_put_eq Z.compare Z.compare_eq_iff). Qed.

Lemma alter_at_app path path' f d : alter_at (path ++ path') f d = alter_at path (alter_at path' f) d.
Proof. revert d. induction path as [|[k|i] path IH]; intros d; [done|..]; cbn [app alter_at]; by rewrite IH. Qed.

Lemma alter_at_ext path f g d : (forall x, f x = g x) -> alter_at path f d = alter_at path g d.
Proof. intros Hfg. revert d. induction path as [|[k|i] path IH]; intros d; cbn [alter_at]; by rewrite ?Hfg, ?IH. Qed.

Lemma alter_at_twice path f g d : alter_at path f (alter_at path g d) = alter_at path (fun x => f (g x)) d.
Proof.
  revert d. induction path as [|[k|i] path IH]; intros d; [done|..]; cbn [alter_at].
  - rewrite Data_at_put_eq, IH. unfold Data_put. cbn [set_compound d_compound]. by rewrite map_put_put.
  - rewrite Data_item_put, IH. cbn [set_array d_array]. by rewrite item_put_put.
Qed.

(** *** The datum of a tree

    One counter numbers the elements of all arrays of the text. A repeated key
    goes on with the datum it stands for. *)

Definition atom_data (t : jsmntok_t) (v : string) (old : Data) : Data :=
  set_atom v (if decide (tok_type t = JSMN_STRING) then set_type VERBATIM old else old).

Fixpoint tree_data (idx : Z) (t : tree) (old : Data) : Data * Z :=
  match t with
  | Atom tok v => (atom_data tok v old, idx)
  | Node _ ms =>
      (fix go (idx : Z) (ms : list (option (jsmntok_t * string) * tree)) (cur : Data) : Data * Z :=
         match ms with
         | [] => (cur, idx)
         | (Some (_, k), t) :: ms =>
             let '(d, idx) := tree_data idx t (Data_at cur k) in go idx ms (Data_put k d cur)
         | (None, t) :: ms =>
             let '(d, idx') := tree_data (idx + 1) t (Data_item cur idx) in
             go idx' ms (set_array (map_put Z.compare idx d (d_array cur)) cur)
         end) idx ms old
  end.

Fixpoint members_data (idx : Z) (ms : list (option (jsmntok_t * string) * tree)) (cur : Data) : Data * Z :=
  match ms with
  | [] => (cur, idx)
  | (Some (_, k), t) :: ms =>
      let '(d, idx) := tree_data idx t (Data_at cur k) in members_data idx ms (Data_put k d cur)
  | (None, t) :: ms =>
      let '(d, idx') := tree_data (idx + 1) t (Data_item cur idx) in
      members_data idx' ms (set_array (map_put Z.compare idx d (d_array cur)) cur)
  end.

Lemma tree_data_node idx tok ms old : tree_data idx (Node tok ms) old = members_data idx ms old.
Proof.
  cbn [tree_data]. revert idx old. induction ms as [|[[[kt k]|] t] ms IH]; intros idx old; [done|..]; cbn [members_data].
  - destruct (tree_data idx t _) as [d idx']. apply IH.
  - destruct (tree_data (idx + 1) t _) as [d idx']. apply IH.
Qed.

(** *** The stacks *)

Lemma pop_closed_mono e e' ts ds ts' ds' : e <= e' -> pop_closed e ts ds = Some (ts', ds') ->
  pop_closed e' ts ds = pop_closed e' ts' ds'.
Proof.
  intros He. revert ds. induction ts as [|t ts IH]; intros ds Hp; [done|]. cbn [pop_closed] in Hp.
  destruct (end_of t <? e) eqn:Ht.
  - destruct ds as [|d ds]; [done|]. cbn [pop_closed].
    apply Nat.ltb_lt in Ht. rewrite (proj2 (Nat.ltb_lt _ _)) by lia. by apply IH.
  - by injection Hp as <- <-.
Qed.

Section Values.
Context (txt : list Ascii.ascii).

(** The text [s] stands at position [p]. *)
Definition reads (p : nat) (s : list Ascii.ascii) : Prop :=
  exists before behind, txt = before ++ s ++ behind /\ length before = p.

Lemma reads_part p a s b : reads p (a ++ s ++ b) -> reads (p + length a) s.
Proof.
  intros (before & behind & Ht & <-). exists (before ++ a), (b ++ behind).
  split; [by rewrite Ht, <- !app_assoc|by rewrite length_app].
Qed.

Lemma reads_substr p s : reads p s -> substr txt p (length s) = s.
Proof.
  intros (before & behind & Ht & <-). unfold substr. by rewrite Ht, drop_app_length, take_app_length.
Qed.

Lemma value_of_spec type p raw sz : reads p raw ->
  value_of txt (mkTok type (Some p) (Some (p + length raw)) sz) = decoded raw.
Proof.
  intros Hr. unfold value_of. change (start_of _) with p. change (end_of _) with (p + length raw).
  replace (p + length raw - p) with (length raw) by lia. by rewrite reads_substr.
Qed.

(** [fromJSON] behaves on the tokens of a value at [p] as [tree_data] says;
    what it leaves on the stacks is popped before a token behind the value. *)
Definition value_built (p : nat) (s : list Ascii.ascii) (t : tree) : Prop := reads p s ->
  forall data old path ds ts idx l, (ts <> [] \/ exists tok ms, t = Node tok ms) ->
  exists ds' ts', ts' <> [] /\
    (forall e, p + length s < e -> pop_closed e ts' ds' = pop_closed e ts ds) /\
    build txt (flat t ++ l) (mkBuilder (alter_at path (fun _ => old) data) (path :: ds) ts idx) =
    after txt l (mkBuilder (alter_at path (fun _ => fst (tree_data idx t old)) data) ds' ts' (snd (tree_data idx t old))).

Definition members_built (o : bool) (p : nat) (s : list Ascii.ascii) (ms : list (option (jsmntok_t * string) * tree)) : Prop :=
  reads p s ->
  forall top ts ds path, tok_type top = (if o then JSMN_OBJECT else JSMN_ARRAY) -> p + length s < end_of top ->
  forall data cur ds1 ts1 idx l, ts1 <> [] ->
  (forall e, p < e <= end_of top -> pop_closed e ts1 ds1 = Some (top :: ts, path :: ds)) ->
  exists ds' ts', ts' <> [] /\
    (forall e, p + length s < e <= end_of top -> pop_closed e ts' ds' = Some (top :: ts, path :: ds)) /\
    after txt (flats ms ++ l) (mkBuilder (alter_at path (fun _ => cur) data) ds1 ts1 idx) =
    after txt l (mkBuilder (alter_at path (fun _ => fst (members_data idx ms cur)) data) ds' ts' (snd (members_data idx ms cur))).

Lemma atom_built p s t v : value_of txt t = v -> is_value t = true -> value_built p s (Atom t v).
Proof.
  intros Hv Ht _ data old path ds ts idx l [Hts|(? & ? & ?)]; [|done]. exists ds, ts. split_and!; [done|done|].
  cbn [flat app]. rewrite build_cons.
  assert (take_token txt t (mkBuilder (alter_at path (fun _ => old) data) (path :: ds) ts idx) =
    Some (mkBuilder (alter_at path (fun _ => atom_data t v old) data) ds ts idx)) as ->; [|done].
  unfold take_token, atom_data. cbn [dataStack b_data tokenStack b_index].
  unfold is_value in Ht. rewrite <- Hv. destruct (tok_type t); try done; by rewrite alter_at_twice.
Qed.

Lemma container_built (o : bool) p body ms sz :
  members_built o (S p) body ms ->
  value_built p ((if o then "{" else "[")%char :: body ++ [(if o then "}" else "]")%char])
    (Node (mkTok (if o then JSMN_OBJECT else JSMN_ARRAY) (Some p) (Some (S (S p) + length body)) sz) ms).
Proof.
  intros IH Hr data old path ds ts idx l _. set (top := mkTok _ _ _ sz).
  assert (Hr' : reads (S p) body).
  { apply (reads_part p [(if o then "{" else "[")%char] body [(if o then "}" else "]")%char]) in Hr. by rewrite Nat.add_1_r in Hr. }
  assert (Hend : end_of top = S (S p) + length body) by done.
  assert (Htop : forall e, e <= end_of top -> pop_closed e (top :: ts) (path :: ds) = Some (top :: ts, path :: ds)).
  { intros e He. cbn [pop_closed]. by rewrite (proj2 (Nat.ltb_ge _ _)). }
  destruct (IH Hr' top ts ds path ltac:(by destruct o) ltac:(lia) data old (path :: ds) (top :: ts) idx l) as (ds' & ts' & Hts' & Hpop & Heq);
    [done|intros e [_ He]; by apply Htop|].
  exists ds', ts'. split_and!; [done| |].
  - intros e He. cbn [length] in He. rewrite length_app in He. cbn [length] in He.
    rewrite (pop_closed_mono (end_of top) e ts' ds' (top :: ts) (path :: ds)); [|lia|apply Hpop; lia].
    cbn [pop_closed]. by rewrite (proj2 (Nat.ltb_lt _ _)) by lia.
  - cbn [flat app]. rewrite build_cons, tree_data_node.
    replace (take_token txt top _) with (Some (mkBuilder (alter_at path (fun _ => old) data) (path :: ds) (top :: ts) idx));
      [done|]. unfold take_token, top. by destruct o.
Qed.

Lemma alter_child path st f cur data :
  alter_at (path ++ [st]) f (alter_at path (fun _ => cur) data) =
  alter_at path (fun _ => alter_at [st] f cur) data.
Proof. by rewrite alter_at_app, alter_at_twice. Qed.

Lemma spells_head p s t : spells p s t -> exists tok l, flat t = tok :: l /\ p < end_of tok <= p + length s.
Proof.
  intros Ht. destruct Ht as [p raw _|p raw (_ & Hraw)|p body ms _|p body ms _]; eexists _, _; (split; [done|]);
    cbn [length]; rewrite ?length_app; unfold end_of; cbn; [lia| |lia|lia].
  destruct raw; [done|simpl; lia].
Qed.

Lemma element_built p sep s t body ms : spells (p + length sep) s t -> value_built (p + length sep) s t ->
  members_built false (p + length sep + length s) body ms ->
  members_built false p (sep ++ s ++ body) ((None, t) :: ms).
Proof.
  intros Ht Hv IH Hr top ts ds path Htop Hend data cur ds1 ts1 idx l Hts Hpop.
  pose proof (reads_part _ _ _ _ Hr) as Hrs. rewrite <- (app_nil_r body) in Hr.
  rewrite app_assoc in Hr. apply reads_part in Hr as Hrb. rewrite length_app, Nat.add_assoc in Hrb.
  rewrite !length_app in Hend. rewrite !length_app. cbn [flat_map fst snd key_tokens app members_data].
  destruct (spells_head _ _ _ Ht) as (tok & tl & Hflat & Hlo & Hhi).
  set (child := path ++ [Index idx]).
  destruct (Hv Hrs (alter_at path (fun _ => cur) data) (Data_item cur idx) child (path :: ds) (top :: ts) (idx + 1)%Z
    (flats ms ++ l)) as (ds2 & ts2 & Hts2 & Hpop2 & Heq2); [by left|].
  destruct (tree_data (idx + 1) t (Data_item cur idx)) as [d idx2]. cbn [fst snd] in Heq2.
  destruct (IH Hrb top ts ds path Htop ltac:(lia) data (set_array (map_put Z.compare idx d (d_array cur)) cur) ds2 ts2 idx2 l)
    as (ds' & ts' & Hts' & Hpop' & Heq); [done| |].
  { intros e He. rewrite Hpop2 by lia. cbn [pop_closed]. by rewrite (proj2 (Nat.ltb_ge _ _)) by lia. }
  exists ds', ts'. split_and!; [done|intros e He; apply Hpop'; lia|].
  rewrite <- Heq, <- app_assoc.
  transitivity (build txt (flat t ++ flats ms ++ l) (mkBuilder (alter_at child (fun _ => Data_item cur idx)
    (alter_at path (fun _ => cur) data)) (child :: path :: ds) (top :: ts) (idx + 1)%Z)).
  - rewrite Hflat. cbn [app after]. rewrite (proj2 (Nat.eqb_neq _ _)) by lia. cbn [tokenStack orb].
    rewrite bool_decide_eq_false_2 by done. unfold prepare. cbn [tokenStack dataStack b_data b_index].
    rewrite Hpop by lia. rewrite Htop. cbn [andb]. rewrite bool_decide_eq_false_2 by done. cbn [andb].
    rewrite decide_True by done. fold child. do 2 f_equal. unfold child. by rewrite !alter_child.
  - rewrite Heq2. f_equal. f_equal. unfold child. by rewrite alter_child.
Qed.

Lemma member_built p sep key sep' s t body ms :
  value_built (p + length sep + length key + 2 + length sep') s t ->
  members_built true (p + length sep + length key + 2 + length sep' + length s) body ms ->
  members_built true p (sep ++ dquote :: key ++ dquote :: sep' ++ s ++ body)
    ((Some (string_token (p + length sep) (length key), decoded key), t) :: ms).
Proof.
  intros Hv IH Hr top ts ds path Htop Hend data cur ds1 ts1 idx l Hts Hpop.
  assert (Hrk : reads (S (p + length sep)) key).
  { rewrite cons_middle, app_assoc in Hr. apply reads_part in Hr. rewrite length_app in Hr. cbn [length] in Hr.
    by rewrite Nat.add_1_r, Nat.add_succ_r in Hr. }
  set (front := sep ++ dquote :: key ++ dquote :: sep').
  assert (Hfront : sep ++ dquote :: key ++ dquote :: sep' ++ s ++ body = front ++ s ++ body).
  { unfold front. rewrite <- app_assoc. cbn [app]. rewrite <- app_assoc. done. }
  assert (Hlen : p + length front = p + length sep + length key + 2 + length sep').
  { unfold front. rewrite length_app. cbn [length]. rewrite length_app. cbn [length]. lia. }
  rewrite Hfront in Hr, Hend. rewrite Hfront. clear Hfront. rewrite <- Hlen in Hv, IH.
  pose proof (reads_part _ _ _ _ Hr) as Hrs. rewrite <- (app_nil_r body) in Hr.
  rewrite app_assoc in Hr. apply reads_part in Hr as Hrb. rewrite length_app, Nat.add_assoc in Hrb.
  rewrite !length_app in Hend. rewrite !length_app. cbn [flat_map fst snd key_tokens app members_data].
  set (ktok := string_token (p + length sep) (length key)).
  assert (Hkend : end_of ktok = S (p + length sep) + length key) by done.
  set (child := path ++ [Key (decoded key)]).
  destruct (Hv Hrs (alter_at path (fun _ => cur) data) (Data_at cur (decoded key)) child (path :: ds) (top :: ts) idx
    (flats ms ++ l)) as (ds2 & ts2 & Hts2 & Hpop2 & Heq2); [by left|].
  destruct (tree_data idx t (Data_at cur (decoded key))) as [d idx2]. cbn [fst snd] in Heq2.
  destruct (IH Hrb top ts ds path Htop ltac:(lia) data (Data_put (decoded key) d cur) ds2 ts2 idx2 l)
    as (ds' & ts' & Hts' & Hpop' & Heq); [done| |].
  { intros e He. rewrite Hpop2 by lia. cbn [pop_closed]. by rewrite (proj2 (Nat.ltb_ge _ _)) by lia. }
  exists ds', ts'. split_and!; [done|intros e He; apply Hpop'; lia|].
  rewrite <- Heq, <- app_assoc.
  transitivity (build txt (flat t ++ flats ms ++ l) (mkBuilder (alter_at child (fun _ => Data_at cur (decoded key))
    (alter_at path (fun _ => cur) data)) (child :: path :: ds) (top :: ts) idx)).
  - cbn [app after]. rewrite (proj2 (Nat.eqb_neq _ _)) by (rewrite Hkend; lia). cbn [tokenStack orb].
    rewrite bool_decide_eq_false_2 by done. unfold prepare. cbn [tokenStack dataStack b_data b_index].
    rewrite Hpop by (rewrite Hkend; lia). rewrite Htop. rewrite bool_decide_eq_true_2 by done.
    change (is_value ktok) with true. cbn [andb].
    unfold ktok, string_token. rewrite value_of_spec by done. fold child. do 2 f_equal. unfold child. by rewrite !alter_child.
  - rewrite Heq2. f_equal. f_equal. unfold child. by rewrite alter_child.
Qed.

Lemma spells_built :
  (forall p s t, spells p s t -> spells p s t /\ value_built p s t) /\
  (forall o p s ms, spells_members o p s ms -> members_built o p s ms).
Proof.
  apply spells_both.
  - intros p raw Hraw. split; [by constructor|]. intros Hr. apply atom_built; [|done|done].
    unfold string_token. rewrite value_of_spec; [done|].
    apply (reads_part p [dquote] raw [dquote]) in Hr. by rewrite Nat.add_1_r in Hr.
  - intros p raw Hraw. split; [by constructor|]. intros Hr. apply atom_built; [|done|done].
    by rewrite value_of_spec.
  - intros p body ms Hms IH. split; [by constructor|]. by apply (container_built true).
  - intros p body ms Hms IH. split; [by constructor|]. by apply (container_built false).
  - intros o p sep Hsep Hr top ts ds path Htop Hend data cur ds1 ts1 idx l Hts Hpop.
    exists ds1, ts1. split_and!; [done|intros e He; apply Hpop; lia|done].
  - intros p sep s t body ms Hsep Ht [_ Hv] Hd Hms IH. by apply element_built.
  - intros p sep key sep' s t body ms Hsep Hkey Hsep' Ht [_ Hv] Hd Hms IH. by apply member_built.
Qed.

End Values.

(** ** Reading a text *)

Lemma flat_short s t : spells 0 s t -> length (flat t) <= length s.
Proof.
  intros Ht. apply Nat.nlt_ge. intros Hlt. apply (parse_with_all s). unfold parse_with. rewrite Nat.div_1_r.
  apply (jsmn_parse_full (length s) s t); [done|done|]. unfold tok_bytes. lia.
Qed.

Lemma parse_with_spells s t frac : spells 0 s t ->
  parse_with s frac = inl JSMN_ERROR_NOMEM \/ exists k, parse_with s frac = inr (flat t ++ zero_tok :: replicate k zero_tok).
Proof.
  intros Ht. unfold parse_with. set (num := length s / frac).
  destruct (decide (num < length (flat t))) as [Hn|Hn].
  - left. apply (jsmn_parse_full num s t); [done|done|]. unfold tok_bytes. lia.
  - right. rewrite (jsmn_parse_spells num s t) by (done || (unfold tok_bytes; lia)).
    exists ((num + 1) * tok_bytes - length (flat t) - 1). rewrite <- (replicate_S _ zero_tok). do 2 f_equal.
    f_equal. unfold tok_bytes. lia.
Qed.

Lemma parse_tokens_spells s t : spells 0 s t ->
  exists k, parse_tokens [8; 4; 2; 1] s = inr (flat t ++ zero_tok :: replicate k zero_tok).
Proof.
  intros Ht. pose proof (parse_tokens_enough s) as Hne. revert Hne. cbn [parse_tokens].
  destruct (parse_with_spells s t 8 Ht) as [-> |(k & ->)]; [|by eauto].
  destruct (parse_with_spells s t 4 Ht) as [-> |(k & ->)]; [|by eauto].
  destruct (parse_with_spells s t 2 Ht) as [-> |(k & ->)]; [|by eauto].
  destruct (parse_with_spells s t 1 Ht) as [-> |(k & ->)]; [done|by eauto].
Qed.

Lemma fromJSON_spells_container `{Trim} str tok ms c s :
  trim_copy (explode str) = c :: s -> Ascii.eqb c "{" || Ascii.eqb c "[" = true ->
  spells 0 (c :: s) (Node tok ms) -> end_of tok = length (c :: s) ->
  fromJSON str = inr (fst (members_data 0 ms Data_empty)).
Proof.
  intros Htrim Hc Ht Hend. unfold fromJSON. rewrite Htrim, Hc. cbn [negb].
  destruct (parse_tokens_spells _ _ Ht) as (k & ->). cbn [flat app head default from_option id].
  change (from_option id zero_tok (Some tok)) with tok. rewrite Hend, Nat.eqb_refl.
  assert (Hr : reads (c :: s) 0 (c :: s)) by (exists [], []; by rewrite app_nil_r).
  destruct (proj2 (proj1 (spells_built (c :: s)) _ _ _ Ht) Hr Data_empty Data_empty [] [] [] 0%Z
    (zero_tok :: replicate k zero_tok)) as (ds & ts & _ & _ & Hb); [by right; eauto|].
  cbn [flat alter_at app] in Hb. rewrite tree_data_node in Hb. by rewrite Hb.
Qed.

Lemma spells_node p s tok ms : spells p s (Node tok ms) ->
  end_of tok = p + length s /\ exists c s', s = c :: s' /\ Ascii.eqb c "{" || Ascii.eqb c "[" = true.
Proof.
  intros Ht. inversion Ht; subst; (split; [unfold end_of; cbn; rewrite length_app; simpl; lia|by eauto]).
Qed.

(** A text of an object or an array is read as its tree says. *)
Lemma fromJSON_spells `{Trim} str s tok ms :
  trim_copy (explode str) = s -> spells 0 s (Node tok ms) ->
  fromJSON str = inr (fst (members_data 0 ms Data_empty)).
Proof.
  intros Htrim Ht. destruct (spells_node _ _ _ _ Ht) as (Hend & c & s' & -> & Hc).
  by apply (fromJSON_spells_container str tok ms c s').
Qed.

(** ** What [toJSON] prints *)

(** A datum with nothing but what its JSON text can carry: characters that
    jsmn and [jsonUnescape] take, raw atoms that are one token, and no parts
    that [toJSON] leaves out. *)
Definition safe_char (c : Ascii.ascii) : bool := negb (is_null c) && negb (Ascii.nat_of_ascii c =? 11).
Definition safe_string (s : string) : bool := forallb safe_char (explode s).

Definition safe_primitive (s : string) : bool :=
  forallb (fun c => primitive_char c && negb (Ascii.eqb c backslash)) (explode s) &&
  match explode s with
  | [] => false
  | c :: _ => negb (Ascii.eqb c "{" || Ascii.eqb c "[" || Ascii.eqb c dquote)
  end.

#[export] Instance keys_sorted_dec {V} (m : list (string * V)) : Decision (keys_sorted m).
Proof. unfold keys_sorted. apply StronglySorted_dec. intros x y. apply _. Defined.

Fixpoint jsonable (d : Data) : bool :=
  match d with
  | mkData ((_ :: _) as c) [] EmptyString None None INTERPRETED =>
      bool_decide (keys_sorted c) && forallb (fun e => safe_string (fst e) && jsonable (snd e)) c
  | mkData [] ((_ :: _) as a) EmptyString None None INTERPRETED => forallb (fun e => jsonable (snd e)) a
  | mkData [] [] atom None None VERBATIM => safe_string atom
  | mkData [] [] atom None None INTERPRETED => String.eqb atom "" || safe_primitive atom
  | _ => false
  end.

(** An empty datum is printed as the atom null. *)
Definition read_atom (c : list (string * Data)) (a : list (Z * Data)) (atom : string) (type : DataType) : string :=
  match c, a, atom, type with [], [], EmptyString, INTERPRETED => "null" | _, _, _, _ => atom end.

(** [fromJSON] counts the elements of all arrays of a text with one counter:
    [d] with its elements numbered from [idx] on, and the next number. *)
Fixpoint read_back (idx : Z) (d : Data) : Data * Z :=
  match d with
  | mkData c a atom n b type =>
      let atom := read_atom c a atom type in
      let '(c, idx) :=
        (fix go (idx : Z) (c : list (string * Data)) : list (string * Data) * Z :=
           match c with
           | [] => ([], idx)
           | (k, v) :: c =>
               let '(v, idx) := read_back idx v in let '(c, idx) := go idx c in ((k, v) :: c, idx)
           end) idx c in
      let '(a, idx) :=
        (fix go (idx : Z) (a : list (Z * Data)) : list (Z * Data) * Z :=
           match a with
           | [] => ([], idx)
           | (_, v) :: a =>
               let '(v, next) := read_back (idx + 1) v in let '(a, next) := go next a in ((idx, v) :: a, next)
           end) idx a in
      (mkData c a atom n b type, idx)
  end.

Fixpoint read_compound (idx : Z) (c : list (string * Data)) : list (string * Data) * Z :=
  match c with
  | [] => ([], idx)
  | (k, v) :: c =>
      let '(v, idx) := read_back idx v in let '(c, idx) := read_compound idx c in ((k, v) :: c, idx)
  end.

Fixpoint read_array (idx : Z) (a : list (Z * Data)) : list (Z * Data) * Z :=
  match a with
  | [] => ([], idx)
  | (_, v) :: a =>
      let '(v, next) := read_back (idx + 1) v in let '(a, next) := read_array next a in ((idx, v) :: a, next)
  end.

Lemma read_back_unfold idx c a atom n b type :
  read_back idx (mkData c a atom n b type) =
  let atom := read_atom c a atom type in
  let '(c, idx) := read_compound idx c in
  let '(a, idx) := read_array idx a in (mkData c a atom n b type, idx).
Proof. done. Qed.

Section DataInd.
Context (P : Data -> Prop).
Context (step : forall c a atom n b type,
  Forall (fun e => P (snd e)) c -> Forall (fun e => P (snd e)) a -> P (mkData c a atom n b type)).

Fixpoint Data_ind' (d : Data) : P d :=
  match d with
  | mkData c a atom n b type =>
      step c a atom n b type
        ((fix go c : Forall (fun e => P (snd e)) c :=
            match c with [] => List.Forall_nil _ | e :: c => List.Forall_cons _ _ _ (Data_ind' (snd e)) (go c) end) c)
        ((fix go a : Forall (fun e => P (snd e)) a :=
            match a with [] => List.Forall_nil _ | e :: a => List.Forall_cons _ _ _ (Data_ind' (snd e)) (go a) end) a)
  end.
End DataInd.

Lemma escape_string_body expr : forallb safe_char expr = true -> string_body (jsonEscape expr).
Proof.
  intros Hs rest. induction expr as [|c expr IH]; [done|]. apply andb_true_iff in Hs as (Hc & Hs).
  specialize (IH Hs). cbn [jsonEscape]. destruct (json_escape_letter c) as [l|] eqn:El.
  - assert (He : escapable l = true).
    { clear -El Hc. destruct c as [[] [] [] [] [] [] [] []]; vm_compute in El, Hc; try discriminate; by injection El as <-. }
    cbn [app string_length length]. change (is_null backslash) with false. change (Ascii.eqb backslash dquote) with false.
    change (Ascii.eqb backslash backslash) with true. cbn iota. by rewrite He, IH.
  - assert (Hp : is_null c = false /\ Ascii.eqb c dquote = false /\ Ascii.eqb c backslash = false).
    { clear -El Hc. destruct c as [[] [] [] [] [] [] [] []]; vm_compute in El, Hc; try discriminate; done. }
    destruct Hp as (Hn & Hq & Hb). cbn [app string_length length]. by rewrite Hn, Hq, Hb, IH.
Qed.

Lemma decoded_escape s : safe_string s = true -> decoded (jsonEscape (explode s)) = s.
Proof.
  unfold safe_string, decoded. intros Hs. rewrite jsonUnescape_jsonEscape.
  rewrite <- (implode_explode s) at 2. f_equal. induction (explode s) as [|c l IH]; [done|].
  apply andb_true_iff in Hs as ((_ & Hc%negb_true_iff)%andb_true_iff & Hs). cbn [fmap list_fmap].
  rewrite Hc. f_equal. by apply IH.
Qed.

Lemma primitive_spelled s : safe_primitive s = true -> primitive_text (explode s) /\ decoded (explode s) = s.
Proof.
  unfold safe_primitive, primitive_text. intros (Hs & Hc)%andb_true_iff. split_and!.
  - clear Hc. induction (explode s) as [|c l IH]; [done|].
    apply andb_true_iff in Hs as ((Hp & _)%andb_true_iff & Hs). cbn [forallb]. by rewrite Hp, IH.
  - by destruct (explode s).
  - clear Hc. unfold decoded. rewrite <- (implode_explode s) at 2. f_equal. unfold jsonUnescape.
    induction (explode s) as [|c l IH]; [done|].
    apply andb_true_iff in Hs as ((_ & Hb%negb_true_iff)%andb_true_iff & Hs). cbn [jsonUnescape_loop].
    rewrite Hb. f_equal. by apply IH.
Qed.

Section Print.
Context (node_xml : positive -> string).
Abbreviation toJSON := (toJSON node_xml).

Lemma explode_repeat n s : explode (repeat_str n s) = mjoin (replicate n (explode s)).
Proof. induction n as [|n IH]; [done|]. cbn [repeat_str replicate]. by rewrite explode_app, IH. Qed.

(** *** The text of members, as characters *)

Definition indent (ind : nat) : list Ascii.ascii := explode (repeat_str (S ind) "  ").
Definition longest (c : list (string * Data)) : nat := foldr (fun e n => Nat.max (key_length (fst e)) n) 0 c.

Fixpoint compound_text (ind len : nat) (seperator : list Ascii.ascii) (c : list (string * Data)) : list Ascii.ascii :=
  match c with
  | [] => []
  | (k, v) :: c =>
      (seperator ++ explode newline ++ indent ind ++ explode "  ") ++ dquote :: jsonEscape (explode k) ++ dquote ::
      (explode ": " ++ explode (repeat_str (len - key_length k) " ")) ++ explode (toJSON (S ind) v) ++
      compound_text ind len (explode ", ") c
  end.

Fixpoint array_text (ind : nat) (seperator : list Ascii.ascii) (a : list (Z * Data)) : list Ascii.ascii :=
  match a with
  | [] => []
  | (_, v) :: a => seperator ++ explode (toJSON (S ind) v) ++ array_text ind (explode ", ") a
  end.

Definition compound_string (ind len : nat) : string -> list (string * Data) -> string :=
  fix go (seperator : string) (l : list (string * Data)) : string :=
    match l with
    | [] => ""%string
    | (k, v) :: l =>
        (seperator +:+ newline +:+ repeat_str (S ind) "  " +:+ "  " +:+ quote +:+ escaped k +:+ quote +:+
         ": " +:+ repeat_str (len - key_length k) " " +:+ toJSON (S ind) v +:+ go ", " l)%string
    end.

Definition array_string (ind : nat) : string -> list (Z * Data) -> string :=
  fix go (seperator : string) (l : list (Z * Data)) : string :=
    match l with
    | [] => ""%string
    | (_, v) :: l => (seperator +:+ toJSON (S ind) v +:+ go ", " l)%string
    end.

Lemma compound_string_text ind len l : forall sep,
  explode (compound_string ind len sep l) = compound_text ind len (explode sep) l.
Proof.
  induction l as [|[k v] l IH]; intros sep; [done|]. cbn [compound_text compound_string].
  fold (compound_string ind len). rewrite <- (IH ", "%string). rewrite !explode_app. unfold escaped. rewrite explode_implode.
  change (explode quote) with [dquote]. rewrite <- !app_assoc. done.
Qed.

Lemma array_string_text ind l : forall sep, explode (array_string ind sep l) = array_text ind (explode sep) l.
Proof.
  induction l as [|[k v] l IH]; intros sep; [done|]. cbn [array_text array_string].
  fold (array_string ind). rewrite <- (IH ", "%string). by rewrite !explode_app.
Qed.

Lemma toJSON_compound ind e c a atom n b type :
  explode (toJSON ind (mkData (e :: c) a atom n b type)) =
  "{"%char :: compound_text ind (longest (e :: c)) [] (e :: c) ++ explode newline ++ indent ind ++ ["}"%char].
Proof.
  change (toJSON ind (mkData (e :: c) a atom n b type)) with
    ("{" +:+ compound_string ind (longest (e :: c)) "" (e :: c) +:+ newline +:+ repeat_str (S ind) "  " +:+ "}")%string.
  by rewrite !explode_app, compound_string_text.
Qed.

Lemma toJSON_array ind e a atom n b type :
  explode (toJSON ind (mkData [] (e :: a) atom n b type)) =
  (explode newline ++ indent ind) ++ "["%char :: array_text ind [] (e :: a) ++ ["]"%char].
Proof.
  change (toJSON ind (mkData [] (e :: a) atom n b type)) with
    (newline +:+ repeat_str (S ind) "  " +:+ "[" +:+ array_string ind "" (e :: a) +:+ "]")%string.
  by rewrite !explode_app, array_string_text, <- app_assoc.
Qed.

(** *** It spells the datum *)

Definition blank (s : list Ascii.ascii) : Prop := separators s /\ forallb is_space s = true.

Lemma forallb_app' {A} (f : A -> bool) l1 l2 : forallb f l1 = true -> forallb f l2 = true -> forallb f (l1 ++ l2) = true.
Proof. intros. rewrite forallb_app. by apply andb_true_iff. Qed.

Lemma blank_app s1 s2 : blank s1 -> blank s2 -> blank (s1 ++ s2).
Proof. intros [] []. split; by apply forallb_app'. Qed.

Lemma separators_app s1 s2 : separators s1 -> separators s2 -> separators (s1 ++ s2).
Proof. apply forallb_app'. Qed.

Lemma blank_repeat n s : blank (explode s) -> blank (explode (repeat_str n s)).
Proof. intros Hs. induction n as [|n IH]; [done|]. cbn [repeat_str]. rewrite explode_app. by apply blank_app. Qed.

Lemma blank_indent ind : blank (explode newline ++ indent ind).
Proof. apply blank_app; [done|]. by apply blank_repeat. Qed.

(** The text [toJSON] prints is blanks and a text of the datum. *)
Definition printed (d : Data) : Prop := forall ind, exists lead core,
  explode (toJSON ind d) = lead ++ core /\ blank lead /\
  forall p, exists t, spells p core t /\ forall idx, tree_data idx t Data_empty = read_back idx d.

Definition printed_node (d : Data) : Prop := forall ind, exists lead core,
  explode (toJSON ind d) = lead ++ core /\ blank lead /\ unspaced core /\
  forall p, exists tok ms, spells p core (Node tok ms) /\ forall idx, members_data idx ms Data_empty = read_back idx d.

Lemma printed_node_printed d : printed_node d -> printed d.
Proof.
  intros Hd ind. destruct (Hd ind) as (lead & core & Ht & Hl & _ & Hs). exists lead, core. split_and!; [done|done|].
  intros p. destruct (Hs p) as (tok & ms & Hsp & Hm). exists (Node tok ms). split; [done|].
  intros idx. rewrite tree_data_node. apply Hm.
Qed.

Abbreviation object c := (mkData c [] "" None None INTERPRETED).
Abbreviation array a := (mkData [] a "" None None INTERPRETED).

Lemma keys_sorted_mid acc k (v : Data) c : keys_sorted (acc ++ (k, v) :: c) ->
  str_find k acc = None /\ forall w, str_put k w acc = acc ++ [(k, w)].
Proof.
  unfold keys_sorted. rewrite fmap_app. cbn [fmap list_fmap fst]. induction acc as [|[a x] acc IH]; intros Hs; [done|].
  inversion Hs as [|? ? Hs' HF]; subst. destruct (IH Hs') as (Hf & Hp).
  assert (Hlt : String.compare a k = Lt).
  { apply (proj1 (Forall_forall _ _) HF). apply elem_of_app. right. by left. }
  assert (Hgt : String.compare k a = Gt) by (rewrite String.compare_antisym, Hlt; done).
  split; [unfold str_find in *; simpl; by rewrite Hgt|]. intros w. unfold str_put in *. simpl. by rewrite Hgt, Hp.
Qed.

Lemma compound_printed ind len c : Forall (fun e => printed (snd e)) c ->
  forallb (fun e => safe_string (fst e)) c = true ->
  forall sep tail, separators sep -> separators tail -> forall p, exists ms,
  spells_members true p (compound_text ind len sep c ++ tail) ms /\
  forall idx acc, keys_sorted (acc ++ c) ->
    members_data idx ms (object acc) =
    (object (acc ++ fst (read_compound idx c)), snd (read_compound idx c)).
Proof.
  intros Hc Hsafe. induction Hc as [|[k v] c Hv Hc IH]; intros sep tail Hsep Htail p.
  { exists []. split; [by apply spells_end|]. intros idx acc _. cbn. by rewrite app_nil_r. }
  apply andb_true_iff in Hsafe as (Hk & Hsafe). cbn [fst snd] in *. cbn [compound_text].
  destruct (Hv (S ind)) as (lead & core & -> & (Hlead & _) & Hcore).
  set (sep1 := sep ++ explode newline ++ indent ind ++ explode "  ").
  set (sep2 := (explode ": " ++ explode (repeat_str (len - key_length k) " ")) ++ lead).
  assert (Hs1 : separators sep1).
  { apply separators_app; [done|]. rewrite app_assoc. apply separators_app; [apply blank_indent|done]. }
  assert (Hs2 : separators sep2).
  { apply separators_app; [|done]. apply separators_app; [done|]. by apply blank_repeat. }
  set (key := jsonEscape (explode k)).
  destruct (Hcore (p + length sep1 + length key + 2 + length sep2)) as (t & Ht & Hd).
  destruct (IH Hsafe (explode ", ") tail eq_refl Htail (p + length sep1 + length key + 2 + length sep2 + length core))
    as (ms & Hms & Hm).
  exists ((Some (string_token (p + length sep1) (length key), decoded key), t) :: ms). split.
  - replace ((sep1 ++ dquote :: key ++ dquote ::
      (explode ": " ++ explode (repeat_str (len - key_length k) " ")) ++ (lead ++ core) ++ compound_text ind len (explode ", ") c) ++ tail)
      with (sep1 ++ dquote :: key ++ dquote :: sep2 ++ core ++ compound_text ind len (explode ", ") c ++ tail).
    2:{ unfold sep2. rewrite <- !app_assoc. cbn [app]. rewrite <- !app_assoc. cbn [app]. by rewrite <- !app_assoc. }
    apply spells_member; [done|by apply escape_string_body|done|done| |done].
    destruct c as [|[k' v'] c]; cbn [compound_text app]; [|done]. destruct tail as [|x tail]; [done|].
    apply andb_true_iff in Htail as (Hx & _). cbn. by rewrite Hx.
  - intros idx acc Hs. apply keys_sorted_mid in Hs as Hmid. destruct Hmid as (Hfind & Hput).
    cbn [members_data read_compound]. unfold key. rewrite decoded_escape by done.
    unfold Data_at. cbn [d_compound]. rewrite Hfind. cbn [default from_option]. change (from_option id Data_empty None) with Data_empty.
    rewrite Hd. destruct (read_back idx v) as [v' idx']. unfold Data_put. cbn [set_compound d_compound d_array d_atom d_node d_binary d_type].
    rewrite Hput. change (set_compound ?l (object acc)) with (object l). rewrite Hm. 2:{ unfold keys_sorted in *. rewrite <- app_assoc, !fmap_app in *. done. }
    destruct (read_compound idx' c) as [c' idx'']. cbn [fst snd]. by rewrite <- app_assoc.
Qed.

Lemma read_back_grows d : forall idx, (idx <= snd (read_back idx d))%Z.
Proof.
  induction d as [c a atom n b type Hc Ha] using Data_ind'. intros idx. rewrite read_back_unfold.
  assert (Hc' : forall idx, (idx <= snd (read_compound idx c))%Z).
  { clear Ha. induction Hc as [|[k v] c Hv Hc IH]; intros i; [done|]. cbn [read_compound snd] in *.
    specialize (Hv i). destruct (read_back i v) as [v' i']. specialize (IH i'). destruct (read_compound i' c).
    cbn [snd] in *. lia. }
  assert (Ha' : forall idx, (idx <= snd (read_array idx a))%Z).
  { clear Hc Hc'. induction Ha as [|[k v] a Hv Ha IH]; intros i; [done|]. cbn [read_array snd] in *.
    specialize (Hv (i + 1)%Z). destruct (read_back (i + 1) v) as [v' i']. specialize (IH i'). destruct (read_array i' a).
    cbn [snd] in *. lia. }
  specialize (Hc' idx). destruct (read_compound idx c) as [c' idx']. specialize (Ha' idx').
  destruct (read_array idx' a). cbn [snd] in *. lia.
Qed.

Lemma item_last idx (acc : list (Z * Data)) : Forall (fun e => (fst e < idx)%Z) acc ->
  map_find Z.compare idx acc = None /\ forall w, map_put Z.compare idx w acc = acc ++ [(idx, w)].
Proof.
  induction 1 as [|[i x] acc Hi Hacc (Hf & Hp)]; [done|]. cbn [fst] in Hi. simpl.
  assert (Z.compare idx i = Gt) as -> by (apply Z.compare_gt_iff; lia). split; [done|]. intros w. by rewrite Hp.
Qed.

Lemma array_printed ind a : Forall (fun e => printed (snd e)) a ->
  forall sep, separators sep -> forall p, exists ms,
  spells_members false p (array_text ind sep a) ms /\
  forall idx acc, Forall (fun e => (fst e < idx)%Z) acc ->
    members_data idx ms (array acc) = (array (acc ++ fst (read_array idx a)), snd (read_array idx a)).
Proof.
  intros Ha. induction Ha as [|[k v] a Hv Ha IH]; intros sep Hsep p.
  { exists []. split; [by apply spells_end|]. intros idx acc _. cbn. by rewrite app_nil_r. }
  cbn [fst snd] in *. cbn [array_text].
  destruct (Hv (S ind)) as (lead & core & -> & (Hlead & _) & Hcore). set (sep1 := sep ++ lead).
  assert (Hs1 : separators sep1) by by apply separators_app.
  destruct (Hcore (p + length sep1)) as (t & Ht & Hd).
  destruct (IH (explode ", ") eq_refl (p + length sep1 + length core)) as (ms & Hms & Hm).
  exists ((None, t) :: ms). split.
  - rewrite <- app_assoc, app_assoc. fold sep1. apply spells_element; [done|done| |done].
    by destruct a as [|[k' v'] a].
  - intros idx acc Hacc. destruct (item_last _ _ Hacc) as (Hfind & Hput).
    cbn [members_data read_array]. unfold Data_item. cbn [d_array]. rewrite Hfind.
    change (default Data_empty None) with Data_empty. rewrite Hd.
    pose proof (read_back_grows v (idx + 1)) as Hgrow. destruct (read_back (idx + 1) v) as [v' idx']. cbn [snd] in Hgrow.
    rewrite Hput. change (set_array ?l (array acc)) with (array l). rewrite Hm.
    2:{ apply Forall_app. split; [|by apply Forall_singleton; cbn; lia].
        eapply Forall_impl; [exact Hacc|]. cbn. intros; lia. }
    destruct (read_array idx' a) as [a' idx'']. cbn [fst snd]. by rewrite <- app_assoc.
Qed.

Definition is_container (d : Data) : bool :=
  match d with mkData [] [] _ _ _ _ => false | _ => true end.

Lemma compound_node e c :
  Forall (fun e => printed (snd e)) (e :: c) -> forallb (fun e => safe_string (fst e)) (e :: c) = true ->
  keys_sorted (e :: c) -> printed_node (object (e :: c)).
Proof.
  intros Hc Hsafe Hsort ind. rewrite toJSON_compound. set (len := longest (e :: c)).
  exists [], ("{"%char :: (compound_text ind len [] (e :: c) ++ explode newline ++ indent ind) ++ ["}"%char]).
  split_and!; [by rewrite <- !app_assoc|done| |].
  - unfold unspaced. cbn [head]. change (?x :: ?l ++ [?y]) with ((x :: l) ++ [y]). by rewrite last_snoc.
  - intros p. destruct (compound_printed ind len (e :: c) Hc Hsafe [] (explode newline ++ indent ind) eq_refl
      (proj1 (blank_indent ind)) (S p)) as (ms & Hms & Hm).
    eexists _, ms. split; [by apply spells_object|]. intros idx. rewrite read_back_unfold.
    change Data_empty with (object []). rewrite Hm by done. cbn [app read_array].
    by destruct (read_compound idx (e :: c)).
Qed.

Lemma array_node e a : Forall (fun e => printed (snd e)) (e :: a) -> printed_node (array (e :: a)).
Proof.
  intros Ha ind. rewrite toJSON_array.
  exists (explode newline ++ indent ind), ("["%char :: array_text ind [] (e :: a) ++ ["]"%char]).
  split_and!; [done|apply blank_indent| |].
  - unfold unspaced. cbn [head]. change (?x :: ?l ++ [?y]) with ((x :: l) ++ [y]). by rewrite last_snoc.
  - intros p. destruct (array_printed ind (e :: a) Ha [] eq_refl (S p)) as (ms & Hms & Hm).
    eexists _, ms. split; [by apply spells_array|]. intros idx. rewrite read_back_unfold.
    change Data_empty with (array []). rewrite Hm by apply Forall_nil_2. cbn [app read_compound].
    by destruct (read_array idx (e :: a)).
Qed.

Lemma atom_printed atom type :
  match type with VERBATIM => safe_string atom | INTERPRETED => String.eqb atom "" || safe_primitive atom end = true ->
  printed (mkData [] [] atom None None type).
Proof.
  intros Hs ind. exists [], (explode (toJSON ind (mkData [] [] atom None None type))). split_and!; [done|done|].
  intros p. destruct type; cbn [Data.toJSON].
  - exists (Atom (string_token p (length (jsonEscape (explode atom)))) (decoded (jsonEscape (explode atom)))).
    split; [|intros idx; cbn [tree_data]; rewrite decoded_escape by done; by destruct atom].
    replace (explode _) with (dquote :: jsonEscape (explode atom) ++ [dquote]);
      [apply spells_string; by apply escape_string_body|].
    destruct atom as [|x atom]; [done|]. cbn [explode length Nat.ltb Nat.leb].
    rewrite !explode_app. unfold escaped. by rewrite explode_implode.
  - destruct (String.eqb atom "") eqn:He; [apply String.eqb_eq in He; subst atom|].
    { exists (Atom (mkTok JSMN_PRIMITIVE (Some p) (Some (p + length (explode "null"))) 0) "null"). split; [|done].
      change "null"%string with (decoded (explode "null")) at 2. by apply spells_primitive. }
    destruct (primitive_spelled atom Hs) as (Hp & Hd). pose proof (proj2 Hp) as Hne.
    exists (Atom (mkTok JSMN_PRIMITIVE (Some p) (Some (p + length (explode atom))) 0) (decoded (explode atom))).
    split; [|intros idx; cbn [tree_data]; rewrite Hd; by destruct atom].
    destruct (explode atom) as [|x l] eqn:Ha; [done|]. cbn [length Nat.ltb Nat.leb]. rewrite Ha. by apply spells_primitive.
Qed.

Lemma jsonable_printed d : jsonable d = true -> (is_container d = true -> printed_node d) /\ printed d.
Proof.
  induction d as [c a atom n b type Hc Ha] using Data_ind'. intros Hj.
  destruct c as [|e c].
  - destruct a as [|e a].
    + split; [done|]. destruct n; [by destruct type|]. destruct b; [by destruct type|].
      apply atom_printed. by destruct type.
    + assert (Hn : printed_node (mkData [] (e :: a) atom n b type)); [|split; [done|by apply printed_node_printed]].
      destruct atom, n, b, type; try done. apply array_node. cbn [jsonable] in Hj.
      clear Hc. revert Hj Ha. generalize (e :: a) as l. induction l as [|x l IH]; [by constructor|].
      cbn [forallb]. intros (Hx & Hl)%andb_true_iff HF. inversion HF; subst. constructor; [by apply H1|by apply IH].
  - assert (Hn : printed_node (mkData (e :: c) a atom n b type)); [|split; [done|by apply printed_node_printed]].
    destruct a; [|by destruct atom]. destruct atom, n, b, type; try done. cbn [jsonable] in Hj.
    apply andb_true_iff in Hj as (Hs%bool_decide_eq_true & Hj).
    assert (Hboth : Forall (fun e => printed (snd e)) (e :: c) /\ forallb (fun e => safe_string (fst e)) (e :: c) = true).
    { clear Ha Hs. revert Hj Hc. generalize (e :: c) as l. induction l as [|x l IH]; [by split; [constructor|]|].
      cbn [forallb]. intros ((Hk & Hx)%andb_true_iff & Hl)%andb_true_iff HF. inversion HF; subst.
      destruct (IH Hl H2). split; [constructor; [by apply H1|done]|by rewrite Hk]. }
    destruct Hboth. by apply compound_node.
Qed.

Lemma fromJSON_read `{TrimLaws} d : jsonable d = true -> is_container d = true ->
  fromJSON (asJSON node_xml d) = inr (fst (read_back 0 d)).
Proof.
  intros Hj Hc. destruct (proj1 (jsonable_printed d Hj) Hc 1) as (lead & core & Ht & (_ & Hl) & Hu & Hs).
  destruct (Hs 0) as (tok & ms & Hsp & Hm). unfold asJSON. rewrite (fromJSON_spells _ core tok ms).
  - by rewrite Hm.
  - rewrite Ht. rewrite <- (app_nil_r core) at 1. by apply (trim_spec lead core []).
  - done.
Qed.

(** C14: JSON text round trip: what [asJSON] prints for an object or an array
    [fromJSON] reads back as the same datum, but for the indices of arrays,
    which are counted through the whole text, and for empty data, which become
    the atom null. *)
Theorem fromJSON_asJSON `{TrimLaws} d : jsonable d = true -> is_container d = true ->
  fromJSON (asJSON node_xml d) = inr (fst (read_back 0 d)).
Proof. apply fromJSON_read. Qed.

End Print.

(** ** Examples *)

Lemma drop_spaces_app before s : forallb is_space before = true -> drop_spaces (before ++ s) = drop_spaces s.
Proof.
  induction before as [|c before IH]; [done|]. intros (Hc & Hb)%andb_true_iff. simpl. rewrite Hc. by apply IH.
Qed.

Lemma drop_spaces_all s : forallb is_space s = true -> drop_spaces s = [].
Proof. intros Hs. rewrite <- (app_nil_r s). by rewrite drop_spaces_app. Qed.

Lemma forallb_reverse {A} (f : A -> bool) l : forallb f (reverse l) = forallb f l.
Proof.
  induction l as [|x l IH]; [done|]. rewrite reverse_cons, forallb_app, IH. simpl. by rewrite andb_true_r, andb_comm.
Qed.

#[export] Instance trim_laws : TrimLaws.
Proof.
  intros before s behind Hb Ha Hu. cbn [trim_copy trim_instance]. unfold trim. rewrite drop_spaces_app by done.
  destruct s as [|c s].
  { cbn [app]. by rewrite (drop_spaces_all behind Ha). }
  unfold unspaced in Hu. cbn [head] in Hu. destruct (last (c :: s)) as [c'|] eqn:Hl; [|by apply last_None in Hl].
  destruct Hu as (Hc & Hc'). cbn [app drop_spaces]. rewrite Hc.
  change (c :: s ++ behind) with ((c :: s) ++ behind). rewrite reverse_app, drop_spaces_app by (by rewrite forallb_reverse).
  apply last_Some in Hl as (l & ->). rewrite reverse_app. cbn [reverse app].
  change (reverse [c'] ++ reverse l) with (c' :: reverse l). cbn [drop_spaces]. rewrite Hc'.
  by rewrite reverse_cons, reverse_involutive.
Qed.

Definition sample : Data :=
  mkData [("a", mkData [] [(0%Z, Data_atom "1" INTERPRETED); (1%Z, Data_atom "x y" VERBATIM)] "" None None INTERPRETED);
          ("b", mkData [] [(0%Z, Data_atom "2" INTERPRETED)] "" None None INTERPRETED)] [] "" None None INTERPRETED.

(** The first element of the second array of a text has the index 2. *)
Lemma fromJSON_asJSON_witness :
  exists d, fromJSON (asJSON (fun _ => ""%string) sample) = inr d /\
    Data_item (Data_at d "b") 0 = Data_empty /\ d_atom (Data_item (Data_at d "b") 2) = "2"%string.
Proof.
  eexists. split; [apply (fromJSON_asJSON (fun _ => ""%string) sample); by vm_compute|]. by vm_compute.
Defined.

Lemma fromJSON_enough_tokens_witness : exists e, e <> JSMN_ERROR_NOMEM /\
  parse_error JSMN_ERROR_PART "[1" = parse_error e (implode (trim_copy (explode "[1"))).
Proof. apply (fromJSON_enough_tokens "[1" (parse_error JSMN_ERROR_PART "[1") "132"). by vm_compute. Defined.

(** In an object jsmn accepts a value without a key, for which
    [fromJSON] pushes no datum: the next token finds its stack empty and the
    C++ reads the last element of an empty list. *)
Theorem keyless_member_undefined : fromJSON "{{} 1:2}" = inl JSON_undefined.
Proof. by vm_compute. Qed.
