(* ===== verification/Numbers.v ===== *)
(** * Numbers read from strings, and the delay of a send element

    [strTo<uint32_t>] and [strTo<double>] of util/Convenience.h read through an
    input stream in the "C" locale; a double is an IEEE binary64 number, for
    which the [SpecFloat] of the Standard Library is used. [None] is a value
    that the C++ leaves undefined. *)

From Stdlib Require Import SpecFloat.
From stdpp Require Import base list strings.
From S2P Require Import Prelude Strings Data.

Local Open Scope Z_scope.

(** ** Reading *)

Definition is_digit (c : Ascii.ascii) : bool := bool_decide (is_Some (digit_value c)).

Fixpoint span_digits (s : list Ascii.ascii) : list Ascii.ascii * list Ascii.ascii :=
  match s with
  | c :: s' => if is_digit c then let '(d, r) := span_digits s' in (c :: d, r) else ([], s)
  | [] => ([], [])
  end.

Definition decimal (ds : list Ascii.ascii) : Z :=
  foldl (fun acc c => 10 * acc + Z.of_nat (default 0%nat (digit_value c))) 0 ds.

(** The stream of an empty or blank string is at its end before anything is
    read, and then the variable is never written. A failed conversion writes
    0, an overflow the largest value. *)
Definition strTo_uint32 (tmp : string) : option Z :=
  match skip_blanks (explode tmp) with
  | [] => None
  | s => Some (Z.min (decimal (fst (span_digits s))) (2 ^ 32 - 1))
  end.

(** [m * 10 ^ e], rounded to the nearest double. *)
Definition decimal_to_double (m e : Z) : spec_float :=
  match m with
  | Zpos m' =>
      if 0 <=? e then binary_normalize 53 1024 (m * 10 ^ e) 0 false
      else match 10 ^ (- e) with
           | Zpos d => SFdiv 53 1024 (S754_finite false m' 0) (S754_finite false d 0)
           | _ => S754_nan
           end
  | _ => S754_zero false
  end.

(** Digits with a decimal point, then an exponent; the stream collects the
    characters that can continue a number and fails on an empty mantissa or exponent. *)
Definition read_double (s : list Ascii.ascii) : spec_float :=
  let '(whole, s) := span_digits s in
  let '(frac, s) := match s with
                    | c :: s' => if Ascii.eqb c "." then span_digits s' else ([], s)
                    | [] => ([], [])
                    end in
  let mantissa := decimal (whole ++ frac) in
  let scale := - Z.of_nat (length frac) in
  match whole ++ frac, s with
  | [], _ => S754_zero false
  | _, c :: s =>
      if Ascii.eqb c "e" || Ascii.eqb c "E" then
        let '(negative, s) := match s with
                              | c :: s' => if Ascii.eqb c "-" then (true, s')
                                           else if Ascii.eqb c "+" then (false, s') else (false, s)
                              | [] => (false, [])
                              end in
        match fst (span_digits s) with
        | [] => S754_zero false
        | ex => decimal_to_double mantissa (scale + if negative : bool then - decimal ex else decimal ex)
        end
      else decimal_to_double mantissa scale
  | _, [] => decimal_to_double mantissa scale
  end.

Definition strTo_double (tmp : string) : option spec_float :=
  match skip_blanks (explode tmp) with
  | [] => None
  | s => Some (read_double s)
  end.

(** Conversion to [uint32_t] truncates and is undefined out of range. *)
Definition double_to_uint32 (x : spec_float) : option Z :=
  match x with
  | S754_zero _ => Some 0
  | S754_finite false m e =>
      let z := if 0 <=? e then Zpos m * 2 ^ e else Zpos m / 2 ^ (- e) in
      if z <? 2 ^ 32 then Some z else None
  | S754_finite true m e => if Zpos m <? 2 ^ (- e) then Some 0 else None
  | _ => None
  end.

Definition thousand : spec_float := binary_normalize 53 1024 1000 0 false.

(** ** The delay of a send element *)

(** The delay in milliseconds. The error for an unknown unit is logged and leaves 0. *)
Definition delay_ms (delay : string) : option Z :=
  if String.eqb delay "" then Some 0
  else
    let delayAttr := parseNumAttr delay in
    if iequals (na_unit delayAttr) "ms" then strTo_uint32 (na_value delayAttr)
    else if iequals (na_unit delayAttr) "s" then
      x ← strTo_double (na_value delayAttr); double_to_uint32 (SFmul 53 1024 x thousand)
    else if String.eqb (na_unit delayAttr) "" then strTo_uint32 (na_value delayAttr)
    else Some 0.


(** ** Whole numbers *)

Lemma span_digits_all ds : Forall (fun c => is_digit c = true) ds -> span_digits ds = (ds, []).
Proof. induction 1 as [|c ds Hc _ IH]; [done|]. cbn. by rewrite Hc, IH. Qed.

Lemma digit_char c : is_digit c = true ->
  num_char c = true /\ blank_char c = false /\ ISWHITESPACE c = false /\ c <> "e"%char.
Proof. destruct c as [[] [] [] [] [] [] [] []]; vm_compute; done. Qed.

Lemma explode_digits ds : ds <> [] -> Forall (fun c => is_digit c = true) ds ->
  skip_blanks (explode (implode ds)) = ds.
Proof.
  intros Hne Hds. rewrite explode_implode. destruct Hds as [|c ds Hc Hds]; [done|].
  cbn. by rewrite (proj1 (proj2 (proj2 (digit_char c Hc)))).
Qed.

Lemma parse_digits ds u : ds <> [] -> Forall (fun c => is_digit c = true) ds ->
  Forall (fun c => num_char c = false /\ blank_char c = false) u ->
  parseNumAttr (implode (ds ++ u)) = mkNumAttr (implode ds) (implode u).
Proof.
  intros Hne Hds Hu. apply parseNumAttr_split; [done| |done].
  eapply Forall_impl; [exact Hds|]. intros c (? & ? & _)%digit_char. done.
Qed.

Lemma implode_nonempty a : a <> [] -> String.eqb (implode a) "" = false.
Proof. by destruct a. Qed.

Lemma strTo_uint32_digits ds : ds <> [] -> Forall (fun c => is_digit c = true) ds ->
  strTo_uint32 (implode ds) = Some (Z.min (decimal ds) (2 ^ 32 - 1)).
Proof.
  intros Hne Hds. unfold strTo_uint32. rewrite explode_digits by done.
  destruct ds as [|c ds]; [done|]. by rewrite span_digits_all by done.
Qed.

Lemma strTo_double_digits ds : ds <> [] -> Forall (fun c => is_digit c = true) ds ->
  strTo_double (implode ds) = Some (decimal_to_double (decimal ds) 0).
Proof.
  intros Hne Hds. unfold strTo_double. rewrite explode_digits by done.
  destruct ds as [|c ds]; [done|]. unfold read_double. rewrite span_digits_all by done.
  by rewrite app_nil_r.
Qed.

Lemma decimal_nonneg ds : 0 <= decimal ds.
Proof.
  unfold decimal. cut (forall acc, 0 <= acc ->
    0 <= foldl (fun acc c => 10 * acc + Z.of_nat (default 0%nat (digit_value c))) acc ds); [auto with lia|].
  induction ds as [|c ds IH]; intros acc H; [done|]. cbn [foldl]. apply IH. lia.
Qed.

(** Checked for every number of seconds up to an hour. *)
Definition seconds_exact (n : Z) : bool :=
  bool_decide (double_to_uint32 (SFmul 53 1024 (decimal_to_double n 0) thousand) = Some (1000 * n)).

Lemma seconds_upto_an_hour n : 0 <= n <= 3600 -> seconds_exact n = true.
Proof.
  intros Hn. assert (H : forallb (fun k => seconds_exact (Z.of_nat k)) (seq 0 3601) = true)
    by (vm_compute; reflexivity).
  rewrite forallb_forall in H. rewrite <- (Z2Nat.id n) by lia. apply H, in_seq. lia.
Qed.

(** A whole number of milliseconds, and of seconds. *)
Lemma delay_ms_millis ds u : ds <> [] -> Forall (fun c => is_digit c = true) ds -> u ∈ [""; "ms"; "MS"]%string ->
  delay_ms (implode (ds ++ explode u)) = Some (Z.min (decimal ds) (2 ^ 32 - 1)).
Proof.
  intros Hne Hds Hu. unfold delay_ms. rewrite implode_nonempty by by destruct ds.
  assert (HF : Forall (fun c => num_char c = false /\ blank_char c = false) (explode u))
    by (repeat (apply elem_of_cons in Hu as [->|Hu]; [repeat constructor|]); by apply elem_of_nil in Hu).
  rewrite parse_digits, implode_explode by done. cbn [na_unit na_value].
  rewrite strTo_uint32_digits by done.
  repeat (apply elem_of_cons in Hu as [->|Hu]; [done|]). by apply elem_of_nil in Hu.
Qed.

Lemma delay_ms_seconds ds : ds <> [] -> Forall (fun c => is_digit c = true) ds -> decimal ds <= 3600 ->
  delay_ms (implode (ds ++ explode "s")) = Some (1000 * decimal ds).
Proof.
  intros Hne Hds Hhour. unfold delay_ms. rewrite implode_nonempty by by destruct ds.
  rewrite parse_digits; [|done|done|by repeat constructor]. cbn [na_unit na_value].
  change (iequals (implode (explode "s")) "ms") with false. cbn iota.
  change (iequals (implode (explode "s")) "s") with true. cbn iota.
  rewrite strTo_double_digits by done. cbn [mbind option_bind].
  assert (H := seconds_upto_an_hour (decimal ds) (conj (decimal_nonneg ds) Hhour)).
  by apply bool_decide_eq_true in H.
Qed.

(** ** Properties *)

(** A delay written as a whole number is read exactly: as milliseconds
    with the unit ms or none, up to the largest 32-bit value, where it is
    clamped; as seconds with the unit s, for up to an hour. A fraction of a
    second may come out a millisecond short, an unknown unit is no delay, and a
    delay without any digit reads a variable that was never written. *)
Theorem delay_units ds :
  ds <> [] -> Forall (fun c => is_digit c = true) ds ->
  (forall u, u ∈ [""; "ms"; "MS"]%string ->
     delay_ms (implode (ds ++ explode u)) = Some (Z.min (decimal ds) (2 ^ 32 - 1))) /\
  (decimal ds <= 3600 -> delay_ms (implode (ds ++ explode "s")) = Some (1000 * decimal ds)) /\
  delay_ms "1.001s" = Some 1000 /\ delay_ms "10min" = Some 0 /\ delay_ms "soon" = None.
Proof.
  intros Hne Hds. split; [intros u; by apply delay_ms_millis|]. split; [by apply delay_ms_seconds|by vm_compute].
Qed.

Lemma delay_units_witness : delay_ms "90s" = Some 90000.
Proof.
  refine (proj1 (proj2 (delay_units (explode "90") _ _)) _); [done|by repeat constructor|].
  vm_compute. discriminate.
Defined.
