(* ===== verification/Chart.v ===== *)
(** * The compiled chart: [FastMicroStep::init]

    [FastMicroStep] flattens the SCXML document into two arrays, the states in
    document order and the transitions in postfix order of their states, with
    bit sets for ancestors, children, completion, targets, exit set and
    conflicts. This file models the data, [resortStates] and [init] without
    the optional cache files, and proves the chart well formed. *)

From stdpp Require Import base list gmap strings.
From S2P Require Import Prelude Strings Dom Predicates.

Local Open Scope nat_scope.

(** ** Constants *)

Definition USCXML_TRANS_SPONTANEOUS : Z := 0x01.
Definition USCXML_TRANS_TARGETLESS : Z := 0x02.
Definition USCXML_TRANS_INTERNAL : Z := 0x04.
Definition USCXML_TRANS_HISTORY : Z := 0x08.
Definition USCXML_TRANS_INITIAL : Z := 0x10.

Definition USCXML_STATE_ATOMIC : Z := 0x01.
Definition USCXML_STATE_PARALLEL : Z := 0x02.
Definition USCXML_STATE_COMPOUND : Z := 0x03.
Definition USCXML_STATE_FINAL : Z := 0x04.
Definition USCXML_STATE_HISTORY_DEEP : Z := 0x05.
Definition USCXML_STATE_HISTORY_SHALLOW : Z := 0x06.
Definition USCXML_STATE_INITIAL : Z := 0x07.
Definition USCXML_STATE_HAS_HISTORY : Z := 0x80.
Definition USCXML_STATE_MASK (t : Z) : Z := Z.land t 0x7F.

Inductive Binding := EARLY | LATE.

(** ** Data *)

Record State (node : Type) := mkState {
  s_element : node;
  s_completion : gset nat;
  s_children : gset nat;
  s_ancestors : gset nat;
  s_parent : nat;
  s_documentOrder : nat;
  s_data : list node;
  s_invoke : list node;
  s_onEntry : list node;
  s_onExit : list node;
  s_doneData : option node;
  s_type : Z;
}.
Arguments mkState {node}.
Arguments s_element {node}. Arguments s_completion {node}. Arguments s_children {node}.
Arguments s_ancestors {node}. Arguments s_parent {node}. Arguments s_documentOrder {node}.
Arguments s_data {node}. Arguments s_invoke {node}. Arguments s_onEntry {node}.
Arguments s_onExit {node}. Arguments s_doneData {node}. Arguments s_type {node}.

Record Transition (node : Type) := mkTransition {
  t_element : node;
  t_conflicts : gset nat;
  t_exitSet : gset nat;
  t_source : nat;
  t_target : gset nat;
  t_onTrans : option node;
  t_event : string;
  t_cond : string;
  t_type : Z;
}.
Arguments mkTransition {node}.
Arguments t_element {node}. Arguments t_conflicts {node}. Arguments t_exitSet {node}.
Arguments t_source {node}. Arguments t_target {node}. Arguments t_onTrans {node}.
Arguments t_event {node}. Arguments t_cond {node}. Arguments t_type {node}.

Record Chart (node : Type) := mkChart {
  c_states : list (State node);
  c_transitions : list (Transition node);
  c_stateIds : gmap string nat;
  c_binding : Binding;
}.
Arguments mkChart {node}.
Arguments c_states {node}. Arguments c_transitions {node}.
Arguments c_stateIds {node}. Arguments c_binding {node}.

(** ** [resortStates] *)

Section Resort.
Context {node : Type} `{!EqDecision node} {D : DomOps node}.

(** [element->insertBefore(child, element->getFirstChild())] *)
Definition move_to_front (child : node) (l : list node) : list node :=
  child :: filter (fun c => c <> child) l.

(** One pass over the children moves those satisfying [p] to the top. *)
Definition resort_pass (p : node -> bool) (l : list node) : list node :=
  foldl (fun l child => if p child then move_to_front child l else l) l l.

Definition resort_children (element : node) (xmlPrefix : string) : list node :=
  let isHist child := String.eqb (getTagName child) (xmlPrefix +:+ "history") in
  let shallow := resort_pass (fun child => isHist child &&
    (negb (HAS_ATTR element "type") || iequals (ATTR element "type") "shallow"))
    (childElements element) in
  let deep := resort_pass (fun child => isHist child &&
    HAS_ATTR element "type" && iequals (ATTR element "type") "deep") shallow in
  resort_pass (fun child => String.eqb (getLocalName child) "initial") deep.

(** The DOM once every element from [scxml] down has its children resorted. *)
Definition resortStates (scxml : node) (xmlPrefix : string) : DomOps node := {|
  getParentNode := getParentNode;
  childElements n :=
    if bool_decide (scxml ∈ n :: parents n) then resort_children n xmlPrefix else childElements n;
  textChildren := textChildren;
  getTagName := getTagName;
  getLocalName := getLocalName;
  getPrefix := getPrefix;
  getAttribute := getAttribute;
  nodeDepth := nodeDepth;
  nodeSize := nodeSize;
|}.

(** [_xmlPrefix] of the machine. *)
Definition machine_prefix (scxml : node) : string :=
  match getPrefix scxml with
  | Some p => if String.eqb p "" then ""%string else (p +:+ ":")%string
  | None => ""%string
  end.

End Resort.

(** ** [init] *)

Section Init.
Context {node : Type} `{!EqDecision node, !Countable node} {D : DomOps node}.
Context (scxml : node).
Let _xmlPrefix : string := machine_prefix scxml.

Definition machine_binding : Binding :=
  if HAS_ATTR scxml "binding" && iequals (ATTR scxml "binding") "late" then LATE else EARLY.

Definition state_tags : list string :=
  (fun t => _xmlPrefix +:+ t)%string <$>
    ["state"; "parallel"; "scxml"; "initial"; "final"; "history"]%string.

Definition state_elements : list node := inDocumentOrder state_tags scxml.

(** User data "uscxmlState" of an element: the index of its state. *)
Definition state_index (e : node) : option nat := fst <$> list_find (fun x => x = e) state_elements.

Definition collect_ids : gmap string nat :=
  foldl (fun m '(i, e) => if HAS_ATTR e "id" then <[ATTR e "id" := i]> m else m)
    ∅ (imap (fun i e => (i, e)) state_elements).

(** The walk that turns an element list into bits: element [j] is marked when
    it is the front of the list; the list must be used up in the end. *)
Fixpoint mark_front (l : list (option node)) (j : nat) (els : list node) : gset nat * list (option node) :=
  match els with
  | [] => (∅, l)
  | e :: els =>
      match l with
      | Some x :: l' =>
          if bool_decide (e = x)
          then let '(bits, rest) := mark_front l' (S j) els in ({[j]} ∪ bits, rest)
          else mark_front l (S j) els
      | _ => mark_front l (S j) els
      end
  end.

(** [assert(completion.size() == 0)] *)
Definition to_bits (l : list (option node)) : option (gset nat) :=
  match mark_front l 0 state_elements with
  | (bits, []) => Some bits
  | _ => None
  end.

Definition is_deep (history : node) : bool :=
  HAS_ATTR history "type" && iequals (ATTR history "type") "deep".

Definition getHistoryCompletion (history : node) : list node :=
  List.filter (fun e =>
    negb (bool_decide (e = history)) && negb (isHistory e) &&
    (if is_deep history then isDescendant (Some e) (getParentNode history)
     else bool_decide (getParentNode e = getParentNode history))) state_elements.

(** User data "hasHistoryChild" that [getHistoryCompletion] leaves on the
    history element: the last other history below its parent. *)
Definition hasHistoryChild (history : node) : option nat :=
  last (omap (fun '(j, e) =>
    if negb (bool_decide (e = history)) && isDescendant (Some e) (getParentNode history) && isHistory e
    then Some j else None) (imap (fun j e => (j, e)) state_elements)).

Definition getCompletion (state : node) : list (option node) :=
  if isHistory state then Some <$> getHistoryCompletion state
  else if isParallel state then Some <$> getChildStates state true
  else if HAS_ATTR state "initial" then getStates (tokenize (ATTR state "initial")) scxml
  else
    match filterChildElements (_xmlPrefix +:+ "initial") state false with
    | initElem :: _ => [Some initElem]
    | [] =>
        match List.find (fun c => isState c true) (childElements state) with
        | Some childElem => [Some childElem]
        | None => []
        end
    end.

Definition state_type (e : node) : Z :=
  if iequals (getTagName e) (_xmlPrefix +:+ "initial") then USCXML_STATE_INITIAL
  else if isFinal e then USCXML_STATE_FINAL
  else if isHistory e then
    if is_deep e then USCXML_STATE_HISTORY_DEEP else USCXML_STATE_HISTORY_SHALLOW
  else if isAtomic e then USCXML_STATE_ATOMIC
  else if isParallel e then USCXML_STATE_PARALLEL
  else USCXML_STATE_COMPOUND.

(** The states met on the way up, until an element that is no state. *)
Definition state_parents (e : node) : list nat :=
  omap state_index (takeWhile (fun p => bool_decide (is_Some (state_index p))) (parents e)).

(** Bits that the upward walk of every state sets in its ancestors. *)
Definition state_children (i : nat) : gset nat :=
  list_to_set (omap (fun '(j, e) => if bool_decide (i ∈ state_parents e) then Some j else None)
    (imap (fun j e => (j, e)) state_elements)).

(** The data elements initialised on entry of a state. *)
Definition state_data (i : nat) (e : node) : list node :=
  match machine_binding with
  | EARLY =>
      if i =? 0 then
        filterChildElementsOf (_xmlPrefix +:+ "data")
          (List.filter (fun elem => areFromSameMachine elem scxml)
            (filterChildElements (_xmlPrefix +:+ "datamodel") e true)) false
      else []
  | LATE =>
      match childElements e with
      | [] => []
      | _ =>
          filterChildElementsOf (_xmlPrefix +:+ "data")
            (filterChildElements (_xmlPrefix +:+ "datamodel") e false) false
      end
  end.

Definition init_state (i : nat) (e : node) : option (State node) :=
  completion ← to_bits (getCompletion e);
  let child_elems tag :=
    match childElements e with [] => [] | _ => filterChildElements (_xmlPrefix +:+ tag) e false end in
  let type := state_type e in
  Some {|
    s_element := e;
    s_documentOrder := i;
    s_completion := completion;
    s_children := state_children i;
    s_ancestors := list_to_set (state_parents e);
    s_parent := default 0 (getParentNode e ≫= state_index);
    s_data := state_data i e;
    s_invoke := child_elems "invoke";
    s_onEntry := if i =? 0 then child_elems "script" else child_elems "onentry";
    s_onExit := child_elems "onexit";
    s_doneData := head (child_elems "donedata");
    s_type := if bool_decide (isHistory e /\ hasHistoryChild e = Some i)
              then Z.lor type USCXML_STATE_HAS_HISTORY else type;
  |}.

(** *** Exit sets and conflicts, with the cache of exit sets *)

Definition getExitSetCached (cache : gmap node (list node)) (t : node)
    : list node * gmap node (list node) :=
  match cache !! t with
  | Some l => (l, cache)
  | None => let l := getExitSet t scxml in (l, <[t := l]> cache)
  end.

Definition conflictsCached (cache : gmap node (list node)) (t1 t2 : node)
    : bool * gmap node (list node) :=
  if same_source (getSourceState t1) (getSourceState t2) then (true, cache)
  else if isDescendant (getSourceState t1) (getSourceState t2) then (true, cache)
  else if isDescendant (getSourceState t2) (getSourceState t1) then (true, cache)
  else
    let '(l1, cache) := getExitSetCached cache t1 in
    let '(l2, cache) := getExitSetCached cache t2 in
    (hasIntersection l1 l2, cache).

(** Row [i] of the conflict matrix from column [i] on. *)
Fixpoint conflict_row (cache : gmap node (list node)) (t : node) (ts : list (nat * node))
    : gset nat * gmap node (list node) :=
  match ts with
  | [] => (∅, cache)
  | (j, t') :: ts =>
      let '(b, cache) := conflictsCached cache t t' in
      let '(row, cache) := conflict_row cache t ts in
      (if b then {[j]} ∪ row else row, cache)
  end.

(** All rows: the columns below [i] are copied from the earlier rows. *)
Fixpoint init_conflicts (cache : gmap node (list node)) (rows : list (gset nat))
    (ts : list (nat * node)) : list (list node * gset nat) :=
  match ts with
  | [] => []
  | (i, t) :: ts' =>
      let '(exitList, cache) := getExitSetCached cache t in
      let '(upper, cache) := conflict_row cache t ts in
      let lower : gset nat :=
        list_to_set (filter (fun j => i ∈ default ∅ (rows !! j)) (seq 0 i)) in
      let row := upper ∪ lower in
      (exitList, row) :: init_conflicts cache (rows ++ [row]) ts'
  end.

Definition transition_elements : list node :=
  let prefix := XML_PREFIX scxml in
  filterChildElementsOf (prefix +:+ "transition")
    (inPostFixOrder ((fun t => prefix +:+ t)%string <$>
       ["scxml"; "state"; "final"; "history"; "initial"; "parallel"]%string) scxml) false.

Definition transition_type (t : node) : Z :=
  let flag (b : bool) (m : Z) (z : Z) := if b then Z.lor z m else z in
  let parentTag := match getParentNode t with Some p => getTagName p | None => ""%string end in
  let z := flag (negb (HAS_ATTR t "target")) USCXML_TRANS_TARGETLESS 0%Z in
  let z := flag (HAS_ATTR t "type" && iequals (ATTR t "type") "internal") USCXML_TRANS_INTERNAL z in
  let z := flag (negb (HAS_ATTR t "event")) USCXML_TRANS_SPONTANEOUS z in
  let z := flag (iequals parentTag (_xmlPrefix +:+ "history")) USCXML_TRANS_HISTORY z in
  flag (iequals parentTag (_xmlPrefix +:+ "initial")) USCXML_TRANS_INITIAL z.

Definition transition_target (t : node) : gset nat :=
  list_to_set (omap (fun i => collect_ids !! i) (tokenize (ATTR t "target"))).

Definition init_transition (t : node) (exitList : list node) (row : gset nat)
    : option (Transition node) :=
  exitSet ← to_bits (Some <$> exitList);
  Some {|
    t_element := t;
    t_conflicts := row;
    t_exitSet := exitSet;
    t_source := default 0 (getParentNode t ≫= state_index);
    t_target := transition_target t;
    t_onTrans := match childElements t with [] => None | _ => Some t end;
    t_event := if HAS_ATTR t "event" then ATTR t "event" else ""%string;
    t_cond := if HAS_ATTR t "cond" then ATTR t "cond" else ""%string;
    t_type := transition_type t;
  |}.

(** [init] on a DOM whose states are resorted; [None] when an assertion fails. *)
Definition init_chart : option (Chart node) :=
  states ← mapM (fun '(i, e) => init_state i e) (imap (fun i e => (i, e)) state_elements);
  let ts := transition_elements in
  transitions ← mapM (fun '(t, (exitList, row)) => init_transition t exitList row)
    (zip ts (init_conflicts ∅ [] (imap (fun i t => (i, t)) ts)));
  Some (mkChart states transitions collect_ids machine_binding).

End Init.

(** [FastMicroStep::init(scxml)] *)
Definition init {node : Type} `{!EqDecision node, !Countable node} (D : DomOps node) (scxml : node)
    : option (Chart node) :=
  init_chart (D := resortStates scxml (machine_prefix scxml)) scxml.

(** ** Resorting keeps the document *)

Section ResortLemmas.
Context {node : Type} `{!EqDecision node} {D : DomOps node} {DL : DomLaws node}.

Lemma move_to_front_perm child (l : list node) :
  NoDup l -> child ∈ l -> move_to_front child l ≡ₚ l.
Proof.
  intros Hnd Hc. unfold move_to_front. apply NoDup_Permutation; [|done|].
  - constructor; [|by apply NoDup_filter]. rewrite list_elem_of_filter. naive_solver.
  - intros x. rewrite elem_of_cons, list_elem_of_filter.
    destruct (decide (x = child)) as [->|]; naive_solver.
Qed.

Lemma resort_pass_perm p (l : list node) : NoDup l -> resort_pass p l ≡ₚ l.
Proof.
  intros Hnd. unfold resort_pass.
  assert (Hg : forall cs acc, acc ≡ₚ l -> cs ⊆ l ->
    foldl (fun l child => if p child then move_to_front child l else l) acc cs ≡ₚ l).
  { induction cs as [|c cs IH]; intros acc Ha Hs; [done|]. simpl.
    apply IH; [|set_solver]. case_match; [|done].
    rewrite move_to_front_perm; [done|by rewrite Ha|]. rewrite Ha. set_solver. }
  by apply Hg.
Qed.

Lemma resort_children_perm e prefix : resort_children e prefix ≡ₚ childElements e.
Proof.
  unfold resort_children. pose proof (dom_children_NoDup e) as Hnd.
  rewrite resort_pass_perm, resort_pass_perm, resort_pass_perm; try done.
  - by rewrite resort_pass_perm.
  - rewrite resort_pass_perm; rewrite resort_pass_perm; done.
Qed.

Lemma resortStates_children scxml prefix e :
  childElements (DomOps := resortStates scxml prefix) e ≡ₚ childElements e.
Proof. cbn. case_bool_decide; [apply resort_children_perm|done]. Qed.

Lemma list_sum_perm l1 l2 : l1 ≡ₚ l2 -> list_sum l1 = list_sum l2.
Proof. induction 1; simpl; lia. Qed.

#[export] Instance resortStates_laws scxml prefix : DomLaws node (H := resortStates scxml prefix).
Proof.
  constructor.
  - intros p c. rewrite resortStates_children. apply (dom_parent_child (H := D)).
  - intros p. rewrite resortStates_children. apply dom_children_NoDup.
  - intros p c. apply (dom_depth (H := D)).
  - intros e. apply (dom_tag (H := D)).
  - intros p. rewrite (list_sum_perm _ (nodeSize <$> childElements (DomOps := D) p)).
    + apply (dom_size (H := D)).
    + change (@nodeSize _ (resortStates scxml prefix)) with (@nodeSize _ D).
      by rewrite resortStates_children.
Qed.

End ResortLemmas.

(** ** Well-formed charts *)

Section Access.
Context {node : Type}.

Definition state_set (f : State node -> gset nat) (c : Chart node) (i : nat) : gset nat :=
  match c_states c !! i with Some s => f s | None => ∅ end.

(** The bit sets and numbers of [USCXML_GET_STATE(i)] and [USCXML_GET_TRANS(i)]. *)
Definition ancestors_of : Chart node -> nat -> gset nat := state_set s_ancestors.
Definition children_of : Chart node -> nat -> gset nat := state_set s_children.
Definition completion_of : Chart node -> nat -> gset nat := state_set s_completion.
Definition parent_of (c : Chart node) (i : nat) : nat :=
  match c_states c !! i with Some s => s_parent s | None => 0 end.
Definition type_of (c : Chart node) (i : nat) : Z :=
  match c_states c !! i with Some s => s_type s | None => 0%Z end.

Definition trans_set (f : Transition node -> gset nat) (c : Chart node) (i : nat) : gset nat :=
  match c_transitions c !! i with Some t => f t | None => ∅ end.

Definition n_states (c : Chart node) : nat := length (c_states c).
Definition n_transitions (c : Chart node) : nat := length (c_transitions c).

(** A set of state indices within the chart. *)
Definition in_range (c : Chart node) (X : gset nat) : Prop := forall i, i ∈ X -> i < n_states c.

(** What the step function relies on. *)
Record chart_wf (c : Chart node) : Prop := {
  wf_order i s : c_states c !! i = Some s -> s_documentOrder s = i;
  wf_anc_lt i a : a ∈ ancestors_of c i -> a < i;
  wf_anc_trans i a b : a ∈ ancestors_of c i -> b ∈ ancestors_of c a -> b ∈ ancestors_of c i;
  wf_children i j : j ∈ children_of c i <-> i ∈ ancestors_of c j;
  wf_parent i a : a ∈ ancestors_of c i ->
    parent_of c i ∈ ancestors_of c i /\ (a = parent_of c i \/ a ∈ ancestors_of c (parent_of c i));
  wf_completion i : in_range c (completion_of c i);
  wf_exit_range t : in_range c (trans_set t_exitSet c t);
  wf_target_range t : in_range c (trans_set t_target c t);
  wf_source_range t tr : c_transitions c !! t = Some tr -> n_states c <> 0 ->
    t_source tr < n_states c;
  wf_conflict_refl t : t < n_transitions c -> t ∈ trans_set t_conflicts c t;
  wf_conflict_sym t u : t ∈ trans_set t_conflicts c u <-> u ∈ trans_set t_conflicts c t;
  wf_conflict_exit t u k : k ∈ trans_set t_exitSet c t -> k ∈ trans_set t_exitSet c u ->
    u ∈ trans_set t_conflicts c t;
}.

Lemma state_set_range f c i j : j ∈ state_set f c i -> i < n_states c.
Proof.
  unfold state_set. case_match eqn:E; [|set_solver]. intros _. by apply lookup_lt_Some in E.
Qed.

End Access.

Section InitLemmas.
Context {node : Type} `{!EqDecision node, !Countable node} {D : DomOps node} {DL : DomLaws node}.
Context (scxml : node).
Notation elems := (state_elements scxml).
Notation index := (state_index scxml).

Lemma state_elements_NoDup : NoDup elems.
Proof. apply inDocumentOrder_NoDup. Qed.

Lemma state_index_spec e i : index e = Some i <-> elems !! i = Some e.
Proof.
  unfold state_index. split.
  - intros ([j x] & Hf & ->)%fmap_Some. cbn.
    apply list_find_Some in Hf as (Hl & -> & _). done.
  - intros Hi. match goal with |- context [@list_find _ ?p ?d ?l] =>
      destruct (@list_find _ p d l) as [[j x]|] eqn:Hf end; simpl.
    + apply list_find_Some in Hf as (Hl & -> & _). f_equal.
      eapply NoDup_lookup; [apply state_elements_NoDup|done|done].
    + apply list_find_None in Hf. rewrite Forall_forall in Hf.
      exfalso. apply (Hf e); [|done]. by eapply list_elem_of_lookup_2.
Qed.

Lemma state_parents_unfold e :
  state_parents scxml e =
  match getParentNode e with
  | Some p => match index p with Some i => i :: state_parents scxml p | None => [] end
  | None => []
  end.
Proof.
  unfold state_parents. rewrite parents_unfold. case_match; [|done]. simpl.
  destruct (index n) eqn:E.
  - rewrite bool_decide_eq_true_2 by eauto. simpl. by rewrite E.
  - rewrite bool_decide_eq_false_2; [done|]. by intros [? ?].
Qed.

Lemma state_parents_elem e a :
  a ∈ state_parents scxml e -> exists x, elems !! a = Some x /\ x ∈ parents e.
Proof.
  induction e as [e IH] using parent_ind. rewrite state_parents_unfold, (parents_unfold e).
  destruct (getParentNode e) as [p|]; [|by intros ?%elem_of_nil].
  destruct (index p) as [i|] eqn:Ei; [|by intros ?%elem_of_nil].
  apply state_index_spec in Ei. intros [->|Ha]%elem_of_cons.
  - exists p. split; [done|]. by left.
  - destruct (IH p eq_refl Ha) as (x & Hx & Hp). exists x. split; [done|]. by right.
Qed.

Lemma state_parents_lt i e a :
  elems !! i = Some e -> a ∈ state_parents scxml e -> a < i.
Proof.
  intros Hi Ha. apply state_parents_elem in Ha as (x & Hx & Hp).
  destruct (decide (a < i)) as [|Hn]; [done|]. exfalso.
  destruct (decide (a = i)) as [->|]; [simplify_eq; by apply parents_irrefl in Hp|].
  pose proof (StronglySorted_lookup _ _ i a e x
    (inDocumentOrder_sorted (state_tags scxml) scxml) ltac:(lia) Hi Hx) as [_ Hr].
  by apply Hr.
Qed.

Lemma state_parents_trans e a x b :
  a ∈ state_parents scxml e -> elems !! a = Some x -> b ∈ state_parents scxml x ->
  b ∈ state_parents scxml e.
Proof.
  intros Ha Hx Hb. induction e as [e IH] using parent_ind.
  rewrite (state_parents_unfold e) in Ha |- *.
  destruct (getParentNode e) as [p|]; [|by apply elem_of_nil in Ha].
  destruct (index p) as [i|] eqn:Ei; [|by apply elem_of_nil in Ha].
  apply elem_of_cons in Ha as [->|Ha]; apply elem_of_cons; right.
  - apply state_index_spec in Ei. by simplify_eq.
  - by apply IH.
Qed.

(** *** From element lists to bits *)

Lemma mark_front_in l j (els : list node) bits :
  mark_front l j els = (bits, []) -> forall o, o ∈ l -> exists e, e ∈ els /\ o = Some e.
Proof.
  revert l j bits. induction els as [|e els IH]; intros l j bits; simpl.
  - intros [= _ ->] o Ho. by apply elem_of_nil in Ho.
  - destruct l as [|[x|] l'].
    + intros H o Ho. by apply elem_of_nil in Ho.
    + case_bool_decide as He; [|intros H o Ho; destruct (IH _ _ _ H o Ho) as (y & ? & ?); eexists; split; [by right|done]].
      destruct (mark_front l' (S j) els) as [b r] eqn:E. intros [= _ ->] o.
      intros [->|Ho]%elem_of_cons; [exists x; subst; split; [by left|done]|].
      destruct (IH _ _ _ E o Ho) as (y & ? & ->). exists y. split; [by right|done].
    + intros H o Ho. destruct (IH _ _ _ H o Ho) as (y & ? & ->). exists y. split; [by right|done].
Qed.

Lemma mark_front_bits (els : list node) : forall l j bits,
  NoDup els -> mark_front l j els = (bits, []) ->
  forall k, k ∈ bits <-> exists e, j <= k /\ els !! (k - j) = Some e /\ Some e ∈ l.
Proof.
  assert (Hshift : forall (e0 : node) els j k (P : node -> Prop),
    (exists e, S j <= k /\ els !! (k - S j) = Some e /\ P e) <->
    (exists e, j <= k /\ k <> j /\ (e0 :: els) !! (k - j) = Some e /\ P e)).
  { intros e0 es j k P. split; intros (e & Hk & Hl); exists e.
    - split; [lia|]. split; [lia|]. by replace (k - j) with (S (k - S j)) by lia.
    - destruct Hl as (Hn & Hl). split; [lia|]. by replace (k - j) with (S (k - S j)) in Hl by lia. }
  induction els as [|e els IH]; intros l j bits Hnd; simpl.
  - intros [= <- ->] k. split; [set_solver|]. intros (e & _ & _ & He). by apply elem_of_nil in He.
  - inversion Hnd as [|? ? He Hnd']; subst. destruct l as [|[x|] l'].
    + intros H k. rewrite (IH _ _ _ Hnd' H k). split; intros (? & _ & _ & Hx); by apply elem_of_nil in Hx.
    + case_bool_decide as Hex.
      * subst x. destruct (mark_front l' (S j) els) as [b r] eqn:E. intros [= <- ->] k.
        rewrite elem_of_union, elem_of_singleton, (IH _ _ _ Hnd' E k).
        rewrite (Hshift e els j k (fun y => Some y ∈ l')).
        destruct (decide (k = j)) as [->|Hk].
        { split; [intros _|by left]. exists e. rewrite Nat.sub_diag. split_and!; [lia|done|by left]. }
        split.
        { intros [?|(y & ? & _ & ? & ?)]; [done|]. exists y. split_and!; [lia|done|by right]. }
        intros (y & Hjk & Hl & Hy). right. exists y. split_and!; try done.
        apply elem_of_cons in Hy as [[= ->]|?]; [|done]. exfalso. apply He.
        replace (k - j) with (S (k - S j)) in Hl by lia. by eapply list_elem_of_lookup_2.
      * intros H k. rewrite (IH _ _ _ Hnd' H k), (Hshift e els j k (fun y => Some y ∈ Some x :: l')).
        split; [intros (y & ? & _ & ? & ?); eauto|]. intros (y & Hjk & Hl & Hy). exists y.
        split_and!; try done. intros ->. rewrite Nat.sub_diag in Hl. injection Hl as ->.
        destruct (mark_front_in _ _ _ _ H _ Hy) as (z & Hz & [= ->]). done.
    + intros H k. rewrite (IH _ _ _ Hnd' H k), (Hshift e els j k (fun y => Some y ∈ None :: l')).
      split; [intros (y & ? & _ & ? & ?); eauto|]. intros (y & Hjk & Hl & Hy). exists y.
      split_and!; try done. intros ->. rewrite Nat.sub_diag in Hl. injection Hl as ->.
      destruct (mark_front_in _ _ _ _ H _ Hy) as (z & Hz & [= ->]). done.
Qed.

Lemma to_bits_spec l bits :
  to_bits scxml l = Some bits ->
  forall k, k ∈ bits <-> exists e, elems !! k = Some e /\ Some e ∈ l.
Proof.
  unfold to_bits. destruct (mark_front l 0 elems) as [b [|]] eqn:E; [|done].
  intros [= ->] k. rewrite (mark_front_bits elems l 0 bits state_elements_NoDup E k).
  rewrite Nat.sub_0_r. split; [intros (e & _ & ?); eauto|intros (e & ?); eauto with lia].
Qed.


(** *** The ids and the targets *)

Lemma collect_ids_spec k i :
  collect_ids scxml !! k = Some i -> exists e, elems !! i = Some e /\ getAttribute e "id" = Some k.
Proof.
  unfold collect_ids.
  set (l := imap _ _).
  assert (Hl : forall j e, (j, e) ∈ l -> elems !! j = Some e).
  { intros j e (j' & Hj)%list_elem_of_lookup. subst l. rewrite list_lookup_imap in Hj.
    destruct (elems !! j') eqn:E; simplify_eq/=. done. }
  clearbody l.
  assert (Hg : forall m : gmap string nat,
    (forall i, m !! k = Some i -> exists e, elems !! i = Some e /\ getAttribute e "id" = Some k) ->
    forall i, foldl (fun m '(i, e) => if HAS_ATTR e "id" then <[ATTR e "id" := i]> m else m) m l !! k
      = Some i -> exists e, elems !! i = Some e /\ getAttribute e "id" = Some k).
  { induction l as [|[j e] l IH]; intros m Hm i'; [apply Hm|]. simpl. apply IH.
    { intros j' e' Hj. apply Hl. by right. }
    intros i0. unfold HAS_ATTR, ATTR. destruct (getAttribute e "id") as [id|] eqn:E; [|apply Hm].
    simpl. destruct (decide (id = k)) as [->|Hne].
    - rewrite lookup_insert_eq. intros [= <-]. exists e. split; [|done]. apply Hl. by left.
    - rewrite lookup_insert_ne by done. apply Hm. }
  apply Hg. intros i0. by rewrite lookup_empty.
Qed.

(** *** The conflict matrix *)

Definition cache_ok (cache : gmap node (list node)) : Prop :=
  forall t l, cache !! t = Some l -> l = getExitSet t scxml.

Lemma getExitSetCached_spec cache t :
  cache_ok cache ->
  exists cache', getExitSetCached scxml cache t = (getExitSet t scxml, cache') /\ cache_ok cache'.
Proof.
  intros Hc. unfold getExitSetCached. destruct (cache !! t) as [l|] eqn:E.
  - exists cache. split; [|done]. by rewrite (Hc _ _ E).
  - eexists. split; [done|]. intros t' l. destruct (decide (t = t')) as [->|Hne].
    + rewrite lookup_insert_eq. by intros [= <-].
    + rewrite lookup_insert_ne by done. apply Hc.
Qed.

Lemma conflictsCached_spec cache t1 t2 :
  cache_ok cache ->
  exists cache', conflictsCached scxml cache t1 t2 = (conflicts t1 t2 scxml, cache') /\ cache_ok cache'.
Proof.
  intros Hc. unfold conflictsCached, conflicts.
  destruct (same_source _ _); [by exists cache|].
  destruct (isDescendant (getSourceState t1) _); [by exists cache|].
  destruct (isDescendant (getSourceState t2) _); [by exists cache|].
  destruct (getExitSetCached_spec cache t1 Hc) as (c1 & -> & Hc1).
  destruct (getExitSetCached_spec c1 t2 Hc1) as (c2 & -> & Hc2). by exists c2.
Qed.

Lemma conflict_row_spec t ts : forall cache, cache_ok cache ->
  exists row cache', conflict_row scxml cache t ts = (row, cache') /\ cache_ok cache' /\
    forall j, j ∈ row <-> exists u, (j, u) ∈ ts /\ conflicts t u scxml = true.
Proof.
  induction ts as [|[j u] ts IH]; intros cache Hc; simpl.
  { exists ∅, cache. split; [done|]. split; [done|]. set_solver. }
  destruct (conflictsCached_spec cache t u Hc) as (c1 & -> & Hc1).
  destruct (IH c1 Hc1) as (row & c2 & -> & Hc2 & Hr).
  exists (if conflicts t u scxml then {[j]} ∪ row else row), c2. split; [done|]. split; [done|].
  intros k. destruct (conflicts t u scxml) eqn:E.
  - rewrite elem_of_union, elem_of_singleton, Hr. set_solver.
  - rewrite Hr. split; [set_solver|]. intros (v & [[= -> ->]|Hv]%elem_of_cons & Hvc); [congruence|]. eauto.
Qed.

Lemma elem_of_enumerated (T : list node) i j u :
  (j, u) ∈ drop i (imap (fun i t => (i, t)) T) <-> i <= j /\ T !! j = Some u.
Proof.
  rewrite list_elem_of_lookup. setoid_rewrite lookup_drop. setoid_rewrite list_lookup_imap.
  split.
  - intros (k & Hk). destruct (T !! (i + k)) eqn:E; simplify_eq/=. split; [lia|done].
  - intros (Hij & Hu). exists (j - i). replace (i + (j - i)) with j by lia. by rewrite Hu.
Qed.

Lemma init_conflicts_spec (T : list node) n : forall i cache rows,
  length T = i + n -> cache_ok cache -> length rows = i ->
  (forall k t row, T !! k = Some t -> rows !! k = Some row ->
     forall j, j ∈ row <-> exists u, T !! j = Some u /\ conflicts t u scxml = true) ->
  let out := init_conflicts scxml cache rows (drop i (imap (fun i t => (i, t)) T)) in
  length out = n /\
  forall k t, T !! (i + k) = Some t -> exists row, out !! k = Some (getExitSet t scxml, row) /\
     forall j, j ∈ row <-> exists u, T !! j = Some u /\ conflicts t u scxml = true.
Proof.
  induction n as [|n IH]; intros i cache rs HT Hc Hrs Hrows; simpl.
  { rewrite drop_ge by (rewrite length_imap; lia). split; [done|]. intros k t Hk.
    apply lookup_lt_Some in Hk. lia. }
  destruct (lookup_lt_is_Some_2 T i) as [t Ht]; [lia|].
  rewrite (drop_S _ (i, t) i) by (by rewrite list_lookup_imap, Ht). cbn [init_conflicts].
  destruct (getExitSetCached_spec cache t Hc) as (c1 & -> & Hc1).
  destruct (conflict_row_spec t ((i, t) :: drop (S i) (imap (fun i t => (i, t)) T)) c1 Hc1)
    as (upper & c2 & -> & Hc2 & Hu).
  set (row := upper ∪ _).
  assert (Hrow : forall j, j ∈ row <-> exists u, T !! j = Some u /\ conflicts t u scxml = true).
  { intros j. subst row. rewrite elem_of_union, Hu, elem_of_list_to_set, list_elem_of_filter, elem_of_seq.
    rewrite <- (drop_S (imap (fun i t => (i, t)) T) (i, t) i) by (by rewrite list_lookup_imap, Ht).
    setoid_rewrite elem_of_enumerated. split.
    - intros [(u & (? & ?) & ?)|(Hin & Hj)]; [eauto|].
      destruct (lookup_lt_is_Some_2 T j) as [u Hj']; [lia|].
      destruct (lookup_lt_is_Some_2 rs j) as [r Hr]; [lia|].
      rewrite Hr in Hin. simpl in Hin. apply (Hrows j u r Hj' Hr) in Hin as (v & Hv & Hcv).
      simplify_eq. exists u. by rewrite conflicts_sym.
    - intros (u & Hj & Hcu). destruct (decide (i <= j)); [left; eauto|right].
      split; [|lia]. destruct (lookup_lt_is_Some_2 rs j) as [r Hr]; [lia|].
      rewrite Hr. simpl. apply (Hrows j u r Hj Hr). exists t. by rewrite conflicts_sym. }
  clearbody row. clear Hu upper.
  destruct (IH (S i) c2 (rs ++ [row])) as (Hlen & Hout); [lia|done|rewrite length_app; simpl; lia| |].
  { intros k t' r Hk. destruct (decide (k < i)).
    - rewrite lookup_app_l by lia. by apply Hrows.
    - rewrite lookup_app_r by lia. intros Hr.
      assert (k = i) as -> by (apply lookup_lt_Some in Hr; simpl in Hr; lia).
      rewrite Hrs, Nat.sub_diag in Hr. simplify_eq/=. done. }
  split; [simpl; f_equal; done|]. intros [|k] t' Hk.
  - rewrite Nat.add_0_r in Hk. simplify_eq. exists row. done.
  - simpl. apply Hout. by replace (S i + k) with (i + S k) by lia.
Qed.

(** *** The result of [init_chart] *)

Lemma enumerated_lookup {B} (T : list B) i x :
  imap (fun i t => (i, t)) T !! i = Some x <-> exists t, x = (i, t) /\ T !! i = Some t.
Proof.
  rewrite list_lookup_imap. destruct (T !! i); simpl; naive_solver.
Qed.

Lemma init_chart_states c : init_chart scxml = Some c ->
  length (c_states c) = length elems /\
  forall i e, elems !! i = Some e ->
    exists s, c_states c !! i = Some s /\ init_state scxml i e = Some s.
Proof.
  unfold init_chart. destruct (mapM _ (imap _ elems)) as [sts|] eqn:E; [|done]. simpl.
  destruct (mapM _ (zip _ _)) as [trs|]; [|done]. intros [= <-]. simpl.
  apply mapM_Some in E. split; [by rewrite <- (Forall2_length _ _ _ E), length_imap|].
  intros i e Hi. destruct (Forall2_lookup_l _ _ _ i (i, e) E) as (s & Hs & Hf); [|eauto].
  apply enumerated_lookup. eauto.
Qed.

Lemma init_chart_state c i s : init_chart scxml = Some c -> c_states c !! i = Some s ->
  exists e, elems !! i = Some e /\ init_state scxml i e = Some s.
Proof.
  intros (Hlen & Hs)%init_chart_states Hi.
  destruct (lookup_lt_is_Some_2 elems i) as [e He]; [apply lookup_lt_Some in Hi; lia|].
  destruct (Hs i e He) as (s' & Hs' & Hf). exists e. split; [done|]. by simplify_eq.
Qed.

Lemma init_chart_transition c i t : init_chart scxml = Some c ->
  transition_elements scxml !! i = Some t ->
  exists tr row, c_transitions c !! i = Some tr /\
    init_transition scxml t (getExitSet t scxml) row = Some tr /\
    forall j, j ∈ row <->
      exists u, transition_elements scxml !! j = Some u /\ conflicts t u scxml = true.
Proof.
  unfold init_chart. destruct (mapM _ (imap _ elems)) as [sts|]; [|done]. simpl.
  destruct (mapM _ (zip _ _)) as [trs|] eqn:E; [|done]. intros [= <-] Ht. simpl.
  apply mapM_Some in E.
  destruct (init_conflicts_spec (transition_elements scxml) (length (transition_elements scxml)) 0 ∅ [])
    as (Hlen & Hout); [done| |done|done|].
  { intros ? ?. by rewrite lookup_empty. }
  rewrite drop_0 in Hout. destruct (Hout i t Ht) as (row & Hrow & Hj).
  destruct (Forall2_lookup_l _ _ _ i (t, (getExitSet t scxml, row)) E) as (tr & Htr & Hf).
  { apply lookup_zip_with_Some. eauto. }
  exists tr, row. done.
Qed.

Lemma init_chart_trans c i tr : init_chart scxml = Some c -> c_transitions c !! i = Some tr ->
  exists t, transition_elements scxml !! i = Some t.
Proof.
  unfold init_chart. destruct (mapM _ (imap _ elems)) as [sts|]; [|done]. simpl.
  destruct (mapM _ (zip _ _)) as [trs|] eqn:E; [|done]. intros [= <-] Ht. simpl in Ht.
  apply mapM_Some in E. destruct (Forall2_lookup_r _ _ _ i tr E Ht) as ([t x] & Hz & _).
  apply lookup_zip_with_Some in Hz as (? & ? & [= <- <-] & Hl & _). eauto.
Qed.


Lemma init_state_fields i e s : init_state scxml i e = Some s ->
  s_element s = e /\ s_documentOrder s = i /\ s_ancestors s = list_to_set (state_parents scxml e) /\
  s_children s = state_children scxml i /\ s_parent s = default 0 (getParentNode e ≫= index) /\
  to_bits scxml (getCompletion scxml e) = Some (s_completion s).
Proof. unfold init_state. intros (b & Hb & [= <-])%bind_Some. done. Qed.

Lemma ancestors_of_spec c : init_chart scxml = Some c ->
  forall i a, a ∈ ancestors_of c i <-> exists e, elems !! i = Some e /\ a ∈ state_parents scxml e.
Proof.
  intros Hc i a. unfold ancestors_of, state_set. destruct (c_states c !! i) as [s|] eqn:Es.
  - destruct (init_chart_state c i s Hc Es) as (e & He & (_ & _ & -> & _)%init_state_fields).
    rewrite elem_of_list_to_set, He. naive_solver.
  - split; [set_solver|]. intros (e & He & _).
    destruct (proj2 (init_chart_states c Hc) i e He) as (s & Hs & _). congruence.
Qed.

Lemma children_of_spec c : init_chart scxml = Some c ->
  forall i j, j ∈ children_of c i <-> exists e, elems !! j = Some e /\ i ∈ state_parents scxml e.
Proof.
  intros Hc i j.
  assert (Hi : j ∈ state_children scxml i <-> exists e, elems !! j = Some e /\ i ∈ state_parents scxml e).
  { unfold state_children. rewrite elem_of_list_to_set, list_elem_of_omap. split.
    - intros ([j' e] & (k & Hk)%list_elem_of_lookup & Hj). apply enumerated_lookup in Hk as (? & [= -> ->] & ?).
      case_bool_decide; simplify_eq. eauto.
    - intros (e & He & Hp). exists (j, e). rewrite bool_decide_eq_true_2 by done. split; [|done].
      apply list_elem_of_lookup. exists j. apply enumerated_lookup. eauto. }
  unfold children_of, state_set. destruct (c_states c !! i) as [s|] eqn:Es.
  - destruct (init_chart_state c i s Hc Es) as (e & He & (_ & _ & _ & -> & _)%init_state_fields). done.
  - split; [set_solver|]. intros (e & He & (x & Hx & _)%state_parents_elem).
    destruct (proj2 (init_chart_states c Hc) i x Hx) as (s & Hs & _). congruence.
Qed.

Lemma parent_of_spec c i e : init_chart scxml = Some c -> elems !! i = Some e ->
  parent_of c i = default 0 (getParentNode e ≫= index).
Proof.
  intros Hc He. destruct (proj2 (init_chart_states c Hc) i e He) as (s & Hs & Hi).
  unfold parent_of. rewrite Hs. by apply init_state_fields in Hi as (_ & _ & _ & _ & -> & _).
Qed.

Lemma to_bits_range l bits k : to_bits scxml l = Some bits -> k ∈ bits -> k < length elems.
Proof.
  intros Hl Hk. apply (to_bits_spec l bits Hl) in Hk as (e & He & _). by eapply lookup_lt_Some.
Qed.

Lemma conflicts_of_spec c : init_chart scxml = Some c ->
  forall i j, j ∈ trans_set t_conflicts c i <->
    exists t u, transition_elements scxml !! i = Some t /\ transition_elements scxml !! j = Some u /\
      conflicts t u scxml = true.
Proof.
  intros Hc i j. unfold trans_set. split.
  - destruct (c_transitions c !! i) as [tr|] eqn:Et; [|set_solver].
    destruct (init_chart_trans c i tr Hc Et) as (t & Ht).
    destruct (init_chart_transition c i t Hc Ht) as (tr' & row & Htr' & Hi & Hrow). simplify_eq.
    unfold init_transition in Hi. apply bind_Some in Hi as (b & _ & [= <-]). simpl.
    rewrite Hrow. naive_solver.
  - intros (t & u & Ht & Hu & Htu).
    destruct (init_chart_transition c i t Hc Ht) as (tr & row & -> & Hi & Hrow).
    unfold init_transition in Hi. apply bind_Some in Hi as (b & _ & [= <-]). simpl.
    apply Hrow. eauto.
Qed.

Lemma exitSet_of_spec c : init_chart scxml = Some c ->
  forall i k, k ∈ trans_set t_exitSet c i <->
    exists t e, transition_elements scxml !! i = Some t /\ elems !! k = Some e /\
      e ∈ getExitSet t scxml.
Proof.
  intros Hc i k. unfold trans_set. split.
  - destruct (c_transitions c !! i) as [tr|] eqn:Et; [|set_solver].
    destruct (init_chart_trans c i tr Hc Et) as (t & Ht).
    destruct (init_chart_transition c i t Hc Ht) as (tr' & row & Htr' & Hi & _). simplify_eq.
    unfold init_transition in Hi. apply bind_Some in Hi as (b & Hb & [= <-]). simpl.
    rewrite (to_bits_spec _ _ Hb k). intros (e & He & (? & [= <-] & Hx)%list_elem_of_fmap).
    exists t, e. done.
  - intros (t & e & Ht & He & Hx).
    destruct (init_chart_transition c i t Hc Ht) as (tr & row & -> & Hi & _).
    unfold init_transition in Hi. apply bind_Some in Hi as (b & Hb & [= <-]). simpl.
    rewrite (to_bits_spec _ _ Hb k). exists e. split; [done|]. by apply list_elem_of_fmap_2.
Qed.

Lemma init_chart_wf c : init_chart scxml = Some c -> chart_wf c.
Proof.
  intros Hc. pose proof (ancestors_of_spec c Hc) as Ha. pose proof (children_of_spec c Hc) as Hch.
  pose proof (proj1 (init_chart_states c Hc)) as Hlen.
  constructor.
  - intros i s Hs. destruct (init_chart_state c i s Hc Hs) as (e & _ & Hi).
    by apply init_state_fields in Hi as (_ & ? & _).
  - intros i a (e & He & Hp)%Ha. by eapply state_parents_lt.
  - intros i a b (e & He & Hp)%Ha (x & Hx & Hq)%Ha. apply Ha. exists e. split; [done|].
    by eapply state_parents_trans.
  - intros i j. by rewrite Hch, Ha.
  - intros i a (e & He & Hp)%Ha. rewrite (parent_of_spec c i e Hc He).
    rewrite state_parents_unfold in Hp.
    assert (Hin : forall p k, getParentNode e = Some p -> index p = Some k -> k ∈ ancestors_of c i).
    { intros p k E Ek. apply Ha. exists e. split; [done|]. rewrite state_parents_unfold, E, Ek. by left. }
    destruct (getParentNode e) as [p|]; [|by apply elem_of_nil in Hp]. simpl.
    destruct (index p) as [k|] eqn:Ek; [|by apply elem_of_nil in Hp]. simpl.
    split; [by eapply Hin|]. apply elem_of_cons in Hp as [->|Hp]; [by left|right].
    apply Ha. exists p. split; [by apply state_index_spec|done].
  - intros i k. unfold completion_of, state_set. destruct (c_states c !! i) as [s|] eqn:Es; [|set_solver].
    destruct (init_chart_state c i s Hc Es) as (e & He & (_ & _ & _ & _ & _ & Hb)%init_state_fields).
    intros Hk. unfold n_states. rewrite Hlen. by eapply to_bits_range.
  - intros i k (t & e & _ & He & _)%(exitSet_of_spec c Hc). unfold n_states. rewrite Hlen.
    by eapply lookup_lt_Some.
  - intros i k. unfold trans_set. destruct (c_transitions c !! i) as [tr|] eqn:Et; [|set_solver].
    destruct (init_chart_trans c i tr Hc Et) as (t & Ht).
    destruct (init_chart_transition c i t Hc Ht) as (tr' & row & Htr' & Hi & _). simplify_eq.
    unfold init_transition in Hi. apply bind_Some in Hi as (b & _ & [= <-]). simpl.
    unfold transition_target. rewrite elem_of_list_to_set, list_elem_of_omap.
    intros (id & _ & (e & He & _)%collect_ids_spec). unfold n_states. rewrite Hlen. by eapply lookup_lt_Some.
  - intros i tr Et Hn. destruct (init_chart_trans c i tr Hc Et) as (t & Ht).
    destruct (init_chart_transition c i t Hc Ht) as (tr' & row & Htr' & Hi & _). simplify_eq.
    unfold init_transition in Hi. apply bind_Some in Hi as (b & _ & [= <-]). simpl.
    destruct (getParentNode t ≫= index) as [k|] eqn:Ek; simpl; [|lia].
    apply bind_Some in Ek as (p & _ & Hk%state_index_spec). unfold n_states. rewrite Hlen.
    by eapply lookup_lt_Some.
  - intros i [tr Ht]%lookup_lt_is_Some_2. destruct (init_chart_trans c i tr Hc Ht) as (t & Htt).
    apply (conflicts_of_spec c Hc). exists t, t. split_and!; [done|done|apply conflicts_refl].
  - intros i j. rewrite !(conflicts_of_spec c Hc).
    split; intros (t & u & Ht & Hu & Htu); exists u, t; rewrite conflicts_sym; eauto.
  - intros i j k (t & e & Ht & He & Hte)%(exitSet_of_spec c Hc) (u & e' & Hu & He' & Hue)%(exitSet_of_spec c Hc).
    simplify_eq. apply (conflicts_of_spec c Hc). exists t, u. split_and!; [done..|].
    unfold conflicts. apply orb_true_iff. right. apply hasIntersection_spec. eauto.
Qed.


(** *** Transitions in postfix order of their parents *)

Definition transition_tags : list string :=
  ((fun t => XML_PREFIX scxml +:+ t) <$>
     ["scxml"; "state"; "final"; "history"; "initial"; "parallel"])%string.

Lemma transition_elements_sorted :
  StronglySorted (fun t u => forall p q, getParentNode t = Some p -> getParentNode u = Some q ->
    p ∉ parents q) (transition_elements scxml).
Proof.
  unfold transition_elements, filterChildElementsOf.
  assert (Hpar : forall b t tag, t ∈ filterChildElements tag b false -> getParentNode t = Some b).
  { intros b t tag (Ht & _)%filterChildElements_elem. by apply dom_parent_child. }
  eapply StronglySorted_flat_map_sorted; [apply inPostFixOrder_sorted| |].
  - intros b _. assert (Hg : forall l : list node, (forall t, t ∈ l -> getParentNode t = Some b) ->
      StronglySorted (fun t u => forall p q, getParentNode t = Some p -> getParentNode u = Some q ->
        p ∉ parents q) l).
    { induction l as [|t l IH]; intros Hl; constructor.
      - apply IH. intros. apply Hl. by right.
      - apply Forall_forall. intros u Hu p q.
        rewrite (Hl t) by (by left). rewrite (Hl u) by (by right).
        intros [= <-] [= <-]. apply parents_irrefl. }
    apply Hg. intros t. apply Hpar.
  - intros b1 b2 t u [_ Hb] Ht%Hpar Hu%Hpar p q. congruence.
Qed.

Lemma machine_prefix_spec : getPrefix scxml <> Some ""%string -> machine_prefix scxml = XML_PREFIX scxml.
Proof.
  unfold machine_prefix, XML_PREFIX. destruct (getPrefix scxml) as [p|]; [|done].
  intros Hp. destruct (String.eqb_spec p ""); [by subst|done].
Qed.

Lemma transition_parent_index t : getPrefix scxml <> Some ""%string ->
  t ∈ transition_elements scxml ->
  exists p k, getParentNode t = Some p /\ index p = Some k /\ elems !! k = Some p.
Proof.
  intros Hpre%machine_prefix_spec Ht. unfold transition_elements, filterChildElementsOf in Ht.
  apply elem_of_flat_map in Ht as (p & Hp & Ht).
  apply filterChildElements_elem in Ht as (Ht & _).
  apply inPostFixOrder_elem in Hp as (Htag & Hin).
  assert (He : p ∈ elems).
  { unfold state_elements. apply inDocumentOrder_elem. split; [|done].
    unfold tag_in, state_tags in *. rewrite Hpre. bool_prop. apply bool_decide_eq_true.
    set_solver. }
  apply list_elem_of_lookup in He as (k & Hk). exists p, k.
  split; [by apply dom_parent_child|]. split; [by apply state_index_spec|done].
Qed.

Lemma t_source_spec c i t : init_chart scxml = Some c -> transition_elements scxml !! i = Some t ->
  exists tr, c_transitions c !! i = Some tr /\ t_source tr = default 0 (getParentNode t ≫= index) /\
    t_element tr = t.
Proof.
  intros Hc Ht. destruct (init_chart_transition c i t Hc Ht) as (tr & row & Htr & Hi & _).
  exists tr. split; [done|]. unfold init_transition in Hi. by apply bind_Some in Hi as (b & _ & [= <-]).
Qed.

Lemma init_chart_priority c i j ti tj : init_chart scxml = Some c -> getPrefix scxml <> Some ""%string ->
  c_transitions c !! i = Some ti -> c_transitions c !! j = Some tj ->
  t_source tj ∈ ancestors_of c (t_source ti) -> i < j.
Proof.
  intros Hc Hpre Hi Hj Ha.
  destruct (init_chart_trans c i ti Hc Hi) as (t & Ht).
  destruct (init_chart_trans c j tj Hc Hj) as (u & Hu).
  destruct (t_source_spec c i t Hc Ht) as (? & ? & Hsi & _).
  destruct (t_source_spec c j u Hc Hu) as (? & ? & Hsj & _). simplify_eq.
  destruct (transition_parent_index t Hpre) as (p & k & Hp & Hk & Hek); [by eapply list_elem_of_lookup_2|].
  destruct (transition_parent_index u Hpre) as (q & l & Hq & Hl & Hel); [by eapply list_elem_of_lookup_2|].
  rewrite Hp in Hsi. rewrite Hq in Hsj. simpl in *. rewrite Hk in Hsi. rewrite Hl in Hsj. simpl in *.
  rewrite Hsi, Hsj in Ha. apply (ancestors_of_spec c Hc) in Ha as (e & He & (x & Hx & Hxp)%state_parents_elem).
  simplify_eq.
  destruct (decide (i < j)) as [|Hn]; [done|exfalso].
  destruct (decide (i = j)) as [->|].
  - simplify_eq. by apply parents_irrefl in Hxp.
  - pose proof (StronglySorted_lookup _ _ j i u t transition_elements_sorted ltac:(lia) Hu Ht) as Hr.
    by eapply Hr.
Qed.

(** *** The history flag *)

Lemma hasHistoryChild_other i e : elems !! i = Some e -> hasHistoryChild scxml e <> Some i.
Proof.
  unfold hasHistoryChild. intros Hi (x & Hx & Hf)%last_Some_elem_of%list_elem_of_omap.
  apply list_elem_of_lookup in Hx as (k & Hk). apply enumerated_lookup in Hk as (y & -> & Hy).
  case_match eqn:E; [|done]. bool_prop. simplify_eq.
Qed.

Lemma state_type_small e : Z.land (state_type scxml e) USCXML_STATE_HAS_HISTORY = 0%Z.
Proof. unfold state_type. repeat case_match; reflexivity. Qed.

Lemma init_chart_no_history_flag c i s : init_chart scxml = Some c -> c_states c !! i = Some s ->
  s_type s = state_type scxml (s_element s).
Proof.
  intros Hc (e & He & Hs)%init_chart_state; [|done].
  unfold init_state in Hs. apply bind_Some in Hs as (b & _ & [= <-]). simpl.
  rewrite bool_decide_eq_false_2; [done|]. intros [_ Hh]. by eapply hasHistoryChild_other.
Qed.

End InitLemmas.

(** ** Properties of [init] *)

Section InitTheorems.
Context {node : Type} `{!EqDecision node, !Countable node} (D : DomOps node) {DL : DomLaws node}.
Context (scxml : node) (c : Chart node) (Hinit : init D scxml = Some c).
Let D' : DomOps node := resortStates scxml (machine_prefix scxml).

(** C19: the chart that [init] compiles is well formed: states carry their
    document order, ancestors precede their descendants and are closed under
    the parent, children mirror ancestors, every completion, exit and target
    set and every source lies in the state array, and the conflict matrix is
    reflexive and symmetric. *)
Theorem init_wf : chart_wf c.
Proof. by apply (init_chart_wf (D := D') scxml). Qed.

(** C20: the bit matrices of the transitions, computed with a cache and by
    mirroring the lower triangle, are the exit sets and the pairwise
    conflicts of [Predicates.cpp] on the resorted document. *)
Theorem init_matrices :
  (forall i k, k ∈ trans_set t_exitSet c i <->
     exists t e, transition_elements (D := D') scxml !! i = Some t /\
       state_elements (D := D') scxml !! k = Some e /\ e ∈ getExitSet (D := D') t scxml) /\
  (forall i j, j ∈ trans_set t_conflicts c i <->
     exists t u, transition_elements (D := D') scxml !! i = Some t /\
       transition_elements (D := D') scxml !! j = Some u /\ conflicts (D := D') t u scxml = true).
Proof.
  split; [by apply (exitSet_of_spec (D := D') scxml c)|by apply (conflicts_of_spec (D := D') scxml c)].
Qed.

(** Transitions are stored so that one whose source is a descendant of
    another's source comes first, which is the priority the step relies on. *)
Theorem init_priority i j ti tj :
  getPrefix scxml <> Some ""%string ->
  c_transitions c !! i = Some ti -> c_transitions c !! j = Some tj ->
  t_source tj ∈ ancestors_of c (t_source ti) -> i < j.
Proof. apply (init_chart_priority (D := D') scxml c i j ti tj Hinit). Qed.

(** No state ever gets the flag USCXML_STATE_HAS_HISTORY: the user data
    that [init] tests names another history, never the tested one. *)
Theorem init_no_history_flag i s :
  c_states c !! i = Some s -> Z.land (s_type s) USCXML_STATE_HAS_HISTORY = 0%Z.
Proof.
  intros Hs. rewrite (init_chart_no_history_flag (D := D') scxml c i s Hinit Hs).
  apply (state_type_small (D := D') scxml).
Qed.

End InitTheorems.

(** ** A compiled sample *)

Definition nested_histories : list row := rows
  (Xml "scxml" [("initial", "p")] []
    [Xml "state" [("id", "p")] []
      [Xml "history" [("id", "h"); ("type", "deep")] [] [Xml "transition" [("target", "s1")] [] []];
       Xml "state" [("id", "s1")] []
         [Xml "history" [("id", "h2")] [] [Xml "transition" [("target", "s2")] [] []];
          Xml "state" [("id", "s2")] [] [Xml "transition" [("event", "e"); ("target", "q")] [] []]];
       Xml "transition" [("event", "f"); ("target", "q")] [] []];
     Xml "final" [("id", "q")] [] []]).

Definition history_dom : DomOps nat := table_dom nested_histories.
Definition history_laws : @DomLaws nat history_dom := table_laws nested_histories eq_refl.

Definition history_chart : Chart nat :=
  default (mkChart [] [] ∅ EARLY) (init history_dom 0).

Lemma history_chart_init : init history_dom 0 = Some history_chart.
Proof. by vm_compute. Qed.

Lemma init_wf_witness : n_states history_chart = 7 /\ chart_wf history_chart.
Proof.
  split; [by vm_compute|].
  exact (init_wf (DL := history_laws) history_dom 0 history_chart history_chart_init).
Defined.

Lemma init_matrices_witness : 3 ∈ trans_set t_conflicts history_chart 2.
Proof.
  apply (proj2 (init_matrices (DL := history_laws) history_dom 0 history_chart history_chart_init)).
  exists 8, 9. split; [by vm_compute|]. split; by vm_compute.
Defined.

Lemma init_priority_witness : 2 < 3.
Proof.
  destruct (c_transitions history_chart !! 2) as [ti|] eqn:Ei; [|by vm_compute in Ei].
  destruct (c_transitions history_chart !! 3) as [tj|] eqn:Ej; [|by vm_compute in Ej].
  apply (init_priority (DL := history_laws) history_dom 0 history_chart history_chart_init 2 3 ti tj);
    [by vm_compute|done|done|].
  assert (Hi : t_source <$> (c_transitions history_chart !! 2) = Some 5) by (by vm_compute).
  assert (Hj : t_source <$> (c_transitions history_chart !! 3) = Some 1) by (by vm_compute).
  rewrite Ei in Hi. rewrite Ej in Hj. injection Hi as ->. injection Hj as ->.
  apply (bool_decide_unpack _). by vm_compute.
Defined.

Lemma init_no_history_flag_witness :
  Z.land (type_of history_chart 2) USCXML_STATE_HAS_HISTORY = 0%Z.
Proof.
  destruct (c_states history_chart !! 2) as [s|] eqn:Es; [|by vm_compute in Es].
  unfold type_of. rewrite Es.
  exact (init_no_history_flag history_dom 0 history_chart history_chart_init 2 s Es).
Defined.
