(* ===== verification/Effects.v ===== *)
(** * Effects: state and exceptions

    The interpreter threads mutable objects through calls that may throw. [M]
    is a state monad with exceptions in which the state survives a throw, as
    the members of an object do; [hoare] is the partial-correctness judgement
    used to reason about it, with a postcondition for either way out. Every
    computation of [M] is a total function, so it also terminates. *)

From stdpp Require Import base list.
From S2P Require Import Prelude.

Definition M (X St A : Type) : Type := St -> (X + A) * St.

#[export] Instance M_ret X St : MRet (M X St) := fun A a s => (inr a, s).
#[export] Instance M_bind X St : MBind (M X St) := fun A B f m s =>
  match m s with
  | (inr a, s') => f a s'
  | (inl x, s') => (inl x, s')
  end.

Section Effects.
Context {X St : Type}.
Implicit Types (P : St -> Prop).

Definition get : M X St St := fun s => (inr s, s).
Definition modify (f : St -> St) : M X St unit := fun s => (inr tt, f s).
Definition throw {A} (x : X) : M X St A := fun s => (inl x, s).

(** [try { m } catch (...) { }] *)
Definition try_ (m : M X St unit) : M X St unit := fun s => (inr tt, snd (m s)).

(** [try { m } catch (T x) { h x }] where [p] recognises [T]. *)
Definition catch_if {A} (p : X -> bool) (m : M X St A) (h : X -> M X St A) : M X St A := fun s =>
  match m s with
  | (inl x, s') => if p x then h x s' else (inl x, s')
  | r => r
  end.

Definition when (b : bool) (m : M X St unit) : M X St unit := if b then m else mret tt.

Fixpoint forM_ {A} (l : list A) (f : A -> M X St unit) : M X St unit :=
  match l with
  | [] => mret tt
  | x :: l => f x ≫= fun _ => forM_ l f
  end.

Fixpoint foldM {A B} (f : A -> B -> M X St B) (l : list A) (b : B) : M X St B :=
  match l with
  | [] => mret b
  | x :: l => f x b ≫= foldM f l
  end.

Definition hoare {A} P (m : M X St A) (Q : A -> St -> Prop) (E : St -> Prop) : Prop :=
  forall s, P s -> match m s with (inr a, s') => Q a s' | (inl _, s') => E s' end.

Lemma hoare_ret {A} (a : A) (Q : A -> St -> Prop) E : hoare (Q a) (mret a) Q E.
Proof. by intros s. Qed.

Lemma hoare_bind {A B} P (m : M X St A) (f : A -> M X St B) R Q E :
  hoare P m R E -> (forall a, hoare (R a) (f a) Q E) -> hoare P (m ≫= f) Q E.
Proof.
  intros Hm Hf s Hs. specialize (Hm s Hs). unfold mbind, M_bind.
  destruct (m s) as [[x|a] s']; [done|]. by apply Hf.
Qed.

Lemma hoare_conseq {A} P P' (m : M X St A) Q Q' (E E' : St -> Prop) :
  hoare P' m Q' E' -> (forall s, P s -> P' s) -> (forall a s, Q' a s -> Q a s) ->
  (forall s, E' s -> E s) -> hoare P m Q E.
Proof.
  intros Hm HP HQ HE s Hs. specialize (Hm s (HP s Hs)). destruct (m s) as [[x|a] s']; auto.
Qed.

Lemma hoare_pre {A} P P' (m : M X St A) Q E :
  hoare P' m Q E -> (forall s, P s -> P' s) -> hoare P m Q E.
Proof. intros Hm HP. by eapply hoare_conseq. Qed.

Lemma hoare_get (Q : St -> St -> Prop) E : hoare (fun s => Q s s) get Q E.
Proof. by intros s. Qed.

(** Reading the state gives the value that the precondition speaks of. *)
Lemma hoare_get_bind {B} P (f : St -> M X St B) Q E :
  (forall s0, P s0 -> hoare (fun s => s = s0) (f s0) Q E) -> hoare P (get ≫= f) Q E.
Proof. intros Hf s Hs. by apply (Hf s Hs s). Qed.

Lemma hoare_modify f (Q : unit -> St -> Prop) E : hoare (fun s => Q tt (f s)) (modify f) Q E.
Proof. by intros s. Qed.

Lemma hoare_try P m (Q : St -> Prop) E :
  hoare P m (fun _ => Q) Q -> hoare P (try_ m) (fun _ => Q) E.
Proof. intros Hm s Hs. specialize (Hm s Hs). unfold try_. by destruct (m s) as [[x|a] s']. Qed.

Lemma hoare_when P b m (Q : unit -> St -> Prop) E :
  (b = true -> hoare P m Q E) -> (b = false -> forall s, P s -> Q tt s) -> hoare P (when b m) Q E.
Proof. intros Ht Hf s Hs. destruct b; [by apply Ht|by apply Hf]. Qed.

Lemma hoare_forM {A} (I : list A -> St -> Prop) (l : list A) f E :
  (forall dn x rest, l = dn ++ x :: rest ->
     hoare (I dn) (f x) (fun _ => I (dn ++ [x])) E) ->
  hoare (I []) (forM_ l f) (fun _ => I l) E.
Proof.
  intros Hf.
  assert (Hg : forall rest dn, l = dn ++ rest ->
    hoare (I dn) (forM_ rest f) (fun _ => I l) E).
  { induction rest as [|x rest IH]; intros dn Hl; simpl.
    - rewrite app_nil_r in Hl. rewrite Hl. by intros s.
    - eapply hoare_bind; [by apply (Hf dn x rest)|]. intros ?. apply IH. by rewrite <- app_assoc. }
  by apply (Hg l []).
Qed.

(** The special case of an invariant that does not mention the progress. *)
Lemma hoare_forM_inv {A} (I : St -> Prop) (l : list A) f (E : St -> Prop) :
  (forall x, x ∈ l -> hoare I (f x) (fun _ => I) E) -> hoare I (forM_ l f) (fun _ => I) E.
Proof.
  intros Hf. apply (hoare_forM (fun _ => I)). intros dn x rest ->. apply Hf. set_solver.
Qed.

Lemma hoare_foldM {A B} (I : list A -> B -> St -> Prop) (f : A -> B -> M X St B) l b E :
  (forall dn x rest b, l = dn ++ x :: rest ->
     hoare (I dn b) (f x b) (fun b' => I (dn ++ [x]) b') E) ->
  hoare (I [] b) (foldM f l b) (fun b' => I l b') E.
Proof.
  intros Hf.
  assert (Hg : forall rest dn b, l = dn ++ rest ->
    hoare (I dn b) (foldM f rest b) (fun b' => I l b') E).
  { induction rest as [|x rest IH]; intros dn b0 Hl; simpl.
    - rewrite app_nil_r in Hl. rewrite Hl. by intros s.
    - eapply hoare_bind; [by apply (Hf dn x rest)|]. intros b1. apply IH. by rewrite <- app_assoc. }
  by apply (Hg l []).
Qed.

End Effects.

(** ** Equality of computations *)

Definition meq {X St A} (m1 m2 : M X St A) : Prop := forall s, m1 s = m2 s.

#[export] Instance meq_equivalence {X St A} : Equivalence (@meq X St A).
Proof.
  split; [by intros m s|by intros m1 m2 H s|]. intros m1 m2 m3 H1 H2 s. by rewrite H1.
Qed.

#[export] Instance meq_bind {X St A B} :
  Proper (pointwise_relation A meq ==> meq ==> meq) (@mbind (M X St) _ A B).
Proof.
  intros f g Hfg m1 m2 Hm s. unfold mbind, M_bind. rewrite Hm.
  destruct (m2 s) as [[x|a] s']; [done|]. apply Hfg.
Qed.

Lemma meq_forM {X St A} (l : list A) (f g : A -> M X St unit) :
  (forall x, x ∈ l -> meq (f x) (g x)) -> meq (forM_ l f) (forM_ l g).
Proof.
  induction l as [|x l IH]; intros Hfg; [done|]. cbn.
  apply meq_bind; [|apply Hfg; left]. intros _. apply IH. intros y Hy. apply Hfg. by right.
Qed.

Lemma bind_assoc {X St A B C} (m : M X St A) (f : A -> M X St B) (g : B -> M X St C) :
  meq ((m ≫= f) ≫= g) (m ≫= fun a => f a ≫= g).
Proof. intros s. unfold mbind, M_bind. by destruct (m s) as [[x|a] s']. Qed.

(** ** Judgements that see the exception *)

Section Triple.
Context {X St : Type}.
Implicit Types (P : St -> Prop).

Definition triple {A} P (m : M X St A) (Q : A -> St -> Prop) (E : X -> St -> Prop) : Prop :=
  forall s, P s -> match m s with (inr a, s') => Q a s' | (inl x, s') => E x s' end.

Lemma triple_ret {A} P (a : A) (Q : A -> St -> Prop) E :
  (forall s, P s -> Q a s) -> triple P (mret a) Q E.
Proof. intros H s. apply H. Qed.

Lemma triple_bind {A B} P (m : M X St A) (f : A -> M X St B) R Q E :
  triple P m R E -> (forall a, triple (R a) (f a) Q E) -> triple P (m ≫= f) Q E.
Proof.
  intros Hm Hf s Hs. specialize (Hm s Hs). unfold mbind, M_bind.
  destruct (m s) as [[x|a] s']; [done|]. by apply Hf.
Qed.

Lemma triple_conseq {A} P P' (m : M X St A) (Q Q' : A -> St -> Prop) (E E' : X -> St -> Prop) :
  triple P' m Q' E' -> (forall s, P s -> P' s) -> (forall a s, Q' a s -> Q a s) ->
  (forall x s, E' x s -> E x s) -> triple P m Q E.
Proof.
  intros Hm HP HQ HE s Hs. specialize (Hm s (HP s Hs)). destruct (m s) as [[x|a] s']; auto.
Qed.

Lemma triple_meq {A} P (m m' : M X St A) Q E : meq m m' -> triple P m Q E -> triple P m' Q E.
Proof. intros Hm Ht s Hs. rewrite <- Hm. by apply Ht. Qed.

Lemma triple_forM {A} (I : St -> Prop) (l : list A) f (E : X -> St -> Prop) :
  (forall x, x ∈ l -> triple I (f x) (fun _ => I) E) -> triple I (forM_ l f) (fun _ => I) E.
Proof.
  induction l as [|x l IH]; intros Hf; [by apply triple_ret|]. cbn.
  eapply triple_bind; [apply Hf; left|]. intros ?. apply IH. intros y Hy. apply Hf. by right.
Qed.

End Triple.

#[export] Hint Resolve hoare_ret hoare_try : uscxml.
