(* ===== verification/MicroStep.v ===== *)
(** * The micro stepper: [FastMicroStep::step]

    The state machine of the interpreter. [MicroState] holds the members of
    [FastMicroStep] that change, [MicroStepCallbacks] is the interface it calls
    (datamodel, executable content, queues, invokers, monitors), and one
    definition per labelled phase of [step] follows the code. Bit sets are
    finite sets of indices into the arrays of the chart. *)

From stdpp Require Import base list gmap strings.
From S2P Require Import Prelude Strings Dom Predicates Data Chart Effects.

Local Open Scope nat_scope.

(** ** Constants and state *)

Definition USCXML_CTX_PRISTINE : Z := 0x00.
Definition USCXML_CTX_SPONTANEOUS : Z := 0x01.
Definition USCXML_CTX_INITIALIZED : Z := 0x02.
Definition USCXML_CTX_TOP_LEVEL_FINAL : Z := 0x04.
Definition USCXML_CTX_TRANSITION_FOUND : Z := 0x08.
Definition USCXML_CTX_FINISHED : Z := 0x10.
Definition USCXML_CTX_STABLE : Z := 0x20.

Definition has_flag (flags mask : Z) : bool := negb (Z.land flags mask =? 0)%Z.
Definition clear_flag (flags mask : Z) : Z := Z.land flags (Z.lnot mask).

Inductive InterpreterState :=
| USCXML_FINISHED | USCXML_UNDEF | USCXML_IDLE | USCXML_INITIALIZED | USCXML_INSTANTIATED
| USCXML_MICROSTEPPED | USCXML_MACROSTEPPED | USCXML_CANCELLED.

Record MicroState := mkMicroState {
  _flags : Z;
  _configuration : gset nat;
  _invocations : gset nat;
  _history : gset nat;
  _initializedData : gset nat;
  _microstepConfigurations : gset (gset nat);
  _isCancelled : bool;
  _event : Event;
}.

Definition set_flags f ms := mkMicroState (f (_flags ms)) (_configuration ms) (_invocations ms)
  (_history ms) (_initializedData ms) (_microstepConfigurations ms) (_isCancelled ms) (_event ms).
Definition set_configuration f ms := mkMicroState (_flags ms) (f (_configuration ms)) (_invocations ms)
  (_history ms) (_initializedData ms) (_microstepConfigurations ms) (_isCancelled ms) (_event ms).
Definition set_invocations f ms := mkMicroState (_flags ms) (_configuration ms) (f (_invocations ms))
  (_history ms) (_initializedData ms) (_microstepConfigurations ms) (_isCancelled ms) (_event ms).
Definition set_history h ms := mkMicroState (_flags ms) (_configuration ms) (_invocations ms)
  h (_initializedData ms) (_microstepConfigurations ms) (_isCancelled ms) (_event ms).
Definition set_initializedData f ms := mkMicroState (_flags ms) (_configuration ms) (_invocations ms)
  (_history ms) (f (_initializedData ms)) (_microstepConfigurations ms) (_isCancelled ms) (_event ms).
Definition set_microstepConfigurations f ms := mkMicroState (_flags ms) (_configuration ms) (_invocations ms)
  (_history ms) (_initializedData ms) (f (_microstepConfigurations ms)) (_isCancelled ms) (_event ms).
Definition set_isCancelled b ms := mkMicroState (_flags ms) (_configuration ms) (_invocations ms)
  (_history ms) (_initializedData ms) (_microstepConfigurations ms) b (_event ms).
Definition set_event e ms := mkMicroState (_flags ms) (_configuration ms) (_invocations ms)
  (_history ms) (_initializedData ms) (_microstepConfigurations ms) (_isCancelled ms) e.

(** The constructor, before [init] sizes the bit sets. *)
Definition pristine : MicroState :=
  mkMicroState USCXML_CTX_PRISTINE ∅ ∅ ∅ ∅ ∅ false (Event_default "").

(** Calls of [USCXML_MONITOR_CALLBACK] and [USCXML_MONITOR_CALLBACK1]. *)
Inductive MonitorCall (node : Type) :=
| beforeMicroStep | afterMicroStep | onStableConfiguration | beforeCompletion | afterCompletion
| beforeProcessingEvent (e : Event)
| beforeExitingState (state : node) | afterExitingState (state : node)
| beforeEnteringState (state : node) | afterEnteringState (state : node)
| beforeTakingTransition (transition : node) | afterTakingTransition (transition : node)
| reportIssue (message : string).
Arguments beforeMicroStep {node}. Arguments afterMicroStep {node}.
Arguments onStableConfiguration {node}. Arguments beforeCompletion {node}.
Arguments afterCompletion {node}. Arguments beforeProcessingEvent {node}.
Arguments beforeExitingState {node}. Arguments afterExitingState {node}.
Arguments beforeEnteringState {node}. Arguments afterEnteringState {node}.
Arguments beforeTakingTransition {node}. Arguments afterTakingTransition {node}.
Arguments reportIssue {node}.

(** The interface to the rest of the interpreter, whose state is [W] and whose
    exceptions are [X]. A callback may read the stepper (the In() predicate
    asks for the configuration) and change [W], but not the stepper. While
    [dequeueExternal] blocks, another thread may call [markAsCancelled]: the
    boolean it returns says so. *)
Class MicroStepCallbacks (node W X : Type) := {
  dequeueInternal : MicroState -> M X W Event;
  dequeueExternal : Z -> MicroState -> M X W (Event * bool);
  isMatched : Event -> string -> bool;
  raiseDoneEvent : node -> option node -> MicroState -> M X W unit;
  isTrue : string -> MicroState -> M X W bool;
  initData : node -> MicroState -> M X W unit;
  process : node -> MicroState -> M X W unit;
  invoke : node -> MicroState -> M X W unit;
  uninvoke : node -> MicroState -> M X W unit;
  monitor : MonitorCall node -> MicroState -> M X W unit;
}.

(** The local bit sets of [step]. *)
Record Sets := mkSets {
  exitSet : gset nat;
  targetSet : gset nat;
  conflictSet : gset nat;
  transSet : gset nat;
}.

Definition is_history_type (t : Z) : bool :=
  (USCXML_STATE_MASK t =? USCXML_STATE_HISTORY_SHALLOW)%Z ||
  (USCXML_STATE_MASK t =? USCXML_STATE_HISTORY_DEEP)%Z.

Definition is_pseudo_type (t : Z) : bool :=
  is_history_type t || (USCXML_STATE_MASK t =? USCXML_STATE_INITIAL)%Z.

(** The set bits of [X] below [n], in the order of [find_first]/[find_next]. *)
Definition bits (n : nat) (X : gset nat) : list nat := filter (fun i => i ∈ X) (seq 0 n).

Definition BIT_HAS_AND (X Y : gset nat) : bool := negb (bool_decide (X ∩ Y = ∅)).

Section Step.
Context {node W X : Type} {CB : MicroStepCallbacks node W X}.
Context (c : Chart node).
Abbreviation n := (n_states c).
Abbreviation nt := (n_transitions c).

Definition Step (A : Type) : Type := M X (MicroState * W) A.

Definition call {A} (f : MicroState -> M X W A) : Step A := fun '(ms, s) =>
  let '(r, s') := f ms s in (r, (ms, s')).

Definition getm : Step MicroState := fun st => (inr (fst st), st).
Definition update (f : MicroState -> MicroState) : Step unit := modify (fun '(ms, s) => (f ms, s)).

Definition state_list (f : State node -> list node) (i : nat) : list node :=
  match c_states c !! i with Some s => f s | None => [] end.

Definition with_element (i : nat) (f : node -> Step unit) : Step unit :=
  match c_states c !! i with Some s => f (s_element s) | None => mret tt end.

Definition with_transition (i : nat) (f : Transition node -> Step unit) : Step unit :=
  match c_transitions c !! i with Some t => f t | None => mret tt end.

(** *** TOP_LEVEL_FINAL: exit what is active, cancel all invokers *)

Definition run_exit_handlers (i : nat) : Step unit :=
  forM_ (state_list s_onExit i) (fun block => try_ (call (process block))).

Definition uninvoke_all (i : nat) : Step unit :=
  forM_ (state_list s_invoke i) (fun inv => call (uninvoke inv)).

Definition finalize_state (i : nat) : Step unit :=
  ms ← getm;
  (if bool_decide (i ∈ _configuration ms) then run_exit_handlers i else mret tt);;
  ms ← getm;
  if bool_decide (i ∈ _invocations ms)
  then uninvoke_all i;; update (set_invocations (fun inv => inv ∖ {[i]}))
  else mret tt.

Definition finalize : Step InterpreterState :=
  call (monitor beforeCompletion);;
  forM_ (reverse (seq 0 n)) finalize_state;;
  update (set_flags (fun f => Z.lor f USCXML_CTX_FINISHED));;
  call (monitor afterCompletion);;
  mret USCXML_FINISHED.

(** *** Invocations follow the configuration between macro steps *)

Definition invoke_all (i : nat) : Step unit :=
  forM_ (state_list s_invoke i) (fun inv => try_ (call (invoke inv))).

Definition manage_invocation (i : nat) : Step unit :=
  ms ← getm;
  (if negb (bool_decide (i ∈ _configuration ms)) && bool_decide (i ∈ _invocations ms)
   then uninvoke_all i;; update (set_invocations (fun inv => inv ∖ {[i]}))
   else mret tt);;
  ms ← getm;
  if bool_decide (i ∈ _configuration ms) && negb (bool_decide (i ∈ _invocations ms))
  then invoke_all i;; update (set_invocations (fun inv => {[i]} ∪ inv))
  else mret tt.

Definition manage_invocations : Step unit := forM_ (seq 0 n) manage_invocation.

(** *** SELECT_TRANSITIONS *)

Definition pseudo_transition (t : Transition node) : bool :=
  negb (Z.land (t_type t) (Z.lor USCXML_TRANS_HISTORY USCXML_TRANS_INITIAL) =? 0)%Z.

(** Is it spontaneous without an event or vice versa, and does the event match? *)
Definition event_matches (e : Event) (t : Transition node) : bool :=
  let no_desc := String.eqb (t_event t) "" in
  ((no_desc && negb (Event_bool e)) || (negb no_desc && Event_bool e)) &&
  (negb (Event_bool e) || isMatched e (t_event t)).

Definition guard_holds (t : Transition node) : Step bool :=
  if String.eqb (t_cond t) "" then mret true else call (isTrue (t_cond t)).

Definition add_transition (i : nat) (t : Transition node) (sets : Sets) : Sets := {|
  conflictSet := conflictSet sets ∪ t_conflicts t;
  targetSet := targetSet sets ∪ t_target t;
  exitSet := exitSet sets ∪ t_exitSet t;
  transSet := {[i]} ∪ transSet sets;
|}.

(** What is tested before the guard is evaluated. *)
Definition candidate (ms : MicroState) (sets : Sets) (i : nat) (t : Transition node) : bool :=
  negb (pseudo_transition t) && bool_decide (t_source t ∈ _configuration ms) &&
  negb (bool_decide (i ∈ conflictSet sets)) && event_matches (_event ms) t.

Definition select_one (i : nat) (sets : Sets) : Step Sets :=
  match c_transitions c !! i with
  | Some t =>
      ms ← getm;
      if candidate ms sets i t then
        enabled ← guard_holds t;
        if enabled : bool then
          update (set_flags (fun f => Z.lor f USCXML_CTX_TRANSITION_FOUND));;
          mret (add_transition i t sets)
        else mret sets
      else mret sets
  | None => mret sets
  end.

Definition no_sets : Sets := mkSets ∅ ∅ ∅ ∅.

Definition select_transitions : Step Sets :=
  update (set_flags (fun f => clear_flag f USCXML_CTX_STABLE));;
  foldM select_one (seq 0 nt) no_sets.

(** *** REMEMBER_HISTORY *)

Definition remember_one (config exits : gset nat) (history : gset nat) (i : nat) : gset nat :=
  if is_history_type (type_of c i) && bool_decide (parent_of c i ∈ exits)
  then (history ∖ completion_of c i) ∪ (completion_of c i ∩ config)
  else history.

Definition remember_history (config exits history : gset nat) : gset nat :=
  foldl (remember_one config exits) history (seq 0 n).

(** *** ESTABLISH_ENTRYSET *)

Definition source_of (j : nat) : nat :=
  match c_transitions c !! j with Some t => t_source t | None => 0 end.
Definition target_of (j : nat) : gset nat := trans_set t_target c j.

Definition add_ancestors (i : nat) (entry : gset nat) : gset nat := entry ∪ ancestors_of c i.

Definition with_ancestors (targets : gset nat) : gset nat :=
  find_loop n id add_ancestors n (find_first n targets) targets.

Section Descend.
Context (config history exits : gset nat).

Definition default_history (i : nat) (st : gset nat * gset nat) : gset nat * gset nat :=
  match List.find (fun j => source_of j =? i) (seq 0 nt) with
  | Some j =>
      let '(entry, trans) := st in
      let entry := entry ∪ target_of j in
      let entry :=
        if (USCXML_STATE_MASK (type_of c i) =? USCXML_STATE_HISTORY_DEEP)%Z &&
           negb (BIT_HAS_AND (target_of j) (children_of c i))
        then match List.find (fun k => bool_decide (k ∈ target_of j)) (seq (i + 1) (n - (i + 1))) with
             | Some k => entry ∪ ancestors_of c k
             | None => entry
             end
        else entry in
      (entry, {[j]} ∪ trans)
  | None => st
  end.

Definition nested_histories_of (j : nat) (entry : gset nat) : gset nat :=
  foldl (fun entry k =>
    if is_history_type (type_of c k) && bool_decide (k ∈ children_of c j)
    then {[k]} ∪ entry else entry) entry (seq (j + 1) (n - (j + 1))).

Definition restore_history (i : nat) (entry : gset nat) : gset nat :=
  let entry := entry ∪ (completion_of c i ∩ history) in
  if (type_of c i =? Z.lor USCXML_STATE_HAS_HISTORY USCXML_STATE_HISTORY_DEEP)%Z
  then foldl (fun entry j =>
         if bool_decide (j ∈ completion_of c i) && bool_decide (j ∈ entry) &&
            has_flag (type_of c j) USCXML_STATE_HAS_HISTORY
         then nested_histories_of j entry else entry) entry (seq (i + 1) (n - (i + 1)))
  else entry.

Definition initial_transition (i : nat) (st : gset nat * gset nat) (j : nat) : gset nat * gset nat :=
  let '(entry, trans) := st in
  if source_of j =? i then
    let entry := (entry ∖ {[i]}) ∪ target_of j in
    (foldl (fun entry k =>
       if bool_decide (k ∈ target_of j) then entry ∪ ancestors_of c k else entry)
       entry (seq (i + 1) (n - (i + 1))), {[j]} ∪ trans)
  else st.

Definition complete_compound (i : nat) (entry : gset nat) : gset nat :=
  if negb (BIT_HAS_AND entry (children_of c i)) &&
     (negb (BIT_HAS_AND config (children_of c i)) || BIT_HAS_AND exits (children_of c i))
  then
    let entry := entry ∪ completion_of c i in
    if negb (BIT_HAS_AND (completion_of c i) (children_of c i)) then
      match List.find (fun j => bool_decide (j ∈ completion_of c i)) (seq (i + 1) (n - (i + 1))) with
      | Some j => entry ∪ ancestors_of c j
      | None => entry
      end
    else entry
  else entry.

Definition descend (i : nat) (st : gset nat * gset nat) : gset nat * gset nat :=
  let '(entry, trans) := st in
  let t := USCXML_STATE_MASK (type_of c i) in
  if (t =? USCXML_STATE_PARALLEL)%Z then (entry ∪ completion_of c i, trans)
  else if is_history_type t then
    if negb (BIT_HAS_AND (completion_of c i) history) && negb (bool_decide (parent_of c i ∈ config))
    then default_history i st
    else (restore_history i entry, trans)
  else if (t =? USCXML_STATE_INITIAL)%Z then foldl (initial_transition i) st (seq 0 nt)
  else if (t =? USCXML_STATE_COMPOUND)%Z then (complete_compound i entry, trans)
  else st.

(** The entry set and the transitions taken on the way. *)
Definition establish_entryset (targets trans : gset nat) : gset nat * gset nat :=
  let entry := with_ancestors targets in
  find_loop n fst descend n (find_first n entry) (entry, trans).

End Descend.

(** *** EXIT_STATES, TAKE_TRANSITIONS *)

Definition exit_state (exits : gset nat) (i : nat) : Step unit :=
  ms ← getm;
  if bool_decide (i ∈ exits) && bool_decide (i ∈ _configuration ms) then
    with_element i (fun e => call (monitor (beforeExitingState e)));;
    run_exit_handlers i;;
    update (set_configuration (fun conf => conf ∖ {[i]}));;
    with_element i (fun e => call (monitor (afterExitingState e)))
  else mret tt.

Definition exit_states (exits : gset nat) : Step unit :=
  forM_ (reverse (seq 0 n)) (exit_state exits).

Definition take_transition (t : Transition node) : Step unit :=
  call (monitor (beforeTakingTransition (t_element t)));;
  (match t_onTrans t with
   | Some block => try_ (call (process block))
   | None => mret tt
   end);;
  call (monitor (afterTakingTransition (t_element t))).

Definition take_transitions (trans : gset nat) : Step unit :=
  forM_ (bits nt trans) (fun i => with_transition i (fun t =>
    if pseudo_transition t then mret tt else take_transition t)).

(** *** Done events *)

Definition ancestor_count (i : nat) : nat := size (ancestors_of c i).
Definition is_parallel (i : nat) : bool :=
  (USCXML_STATE_MASK (type_of c i) =? USCXML_STATE_PARALLEL)%Z.
Definition is_final (i : nat) : bool :=
  (USCXML_STATE_MASK (type_of c i) =? USCXML_STATE_FINAL)%Z.

Definition sym_diff (A B : gset nat) : gset nat := (A ∖ B) ∪ (B ∖ A).

(** Upwards from [pState], drop the parallel states whose children are gone. *)
Fixpoint drop_parallels (fuel nFinalParent pState : nat) (tmpStates : gset nat) : gset nat :=
  match fuel with
  | 0 => tmpStates
  | S fuel =>
      if 0 <? ancestor_count pState then
        let nParent := parent_of c pState in
        if is_parallel nParent then
          if negb (BIT_HAS_AND tmpStates (children_of c nParent)) then
            let tmpStates := tmpStates ∖ {[nParent]} in
            if bool_decide (tmpStates = ∅) then tmpStates
            else if nParent =? nFinalParent then tmpStates
            else drop_parallels fuel nFinalParent nParent tmpStates
          else tmpStates
        else tmpStates
      else tmpStates
  end.

(** The children of the parallel state that no active final state accounts for. *)
Definition drop_final (nFinalParent : nat) (tmpStates : gset nat) (k : nat) : gset nat :=
  if bool_decide (nFinalParent ∈ ancestors_of c k) && is_final k then
    let stateParent := parent_of c k in
    let tmpStates := sym_diff tmpStates (children_of c stateParent) ∖ {[stateParent]} in
    drop_parallels n nFinalParent stateParent tmpStates
  else tmpStates.

Definition unfinished (config : gset nat) (nFinalParent : nat) : gset nat :=
  foldl (drop_final nFinalParent) (children_of c nFinalParent) (bits n config).

Fixpoint raise_parallel_done (fuel pFinalParent : nat) : Step unit :=
  match fuel with
  | 0 => mret tt
  | S fuel =>
      if 0 <? ancestor_count pFinalParent then
        let nFinalParent := parent_of c pFinalParent in
        if is_parallel nFinalParent then
          ms ← getm;
          (if bool_decide (unfinished (_configuration ms) nFinalParent = ∅) then
             match c_states c !! nFinalParent with
             | Some s => call (raiseDoneEvent (s_element s) (s_doneData s))
             | None => mret tt
             end
           else mret tt);;
          raise_parallel_done fuel nFinalParent
        else mret tt
      else mret tt
  end.

Definition enter_final (i : nat) : Step unit :=
  if (ancestor_count i =? 1) && bool_decide (0 ∈ ancestors_of c i) then
    update (set_flags (fun f => Z.lor f USCXML_CTX_TOP_LEVEL_FINAL))
  else
    match c_states c !! parent_of c i, c_states c !! i with
    | Some p, Some s => call (raiseDoneEvent (s_element p) (s_doneData s))
    | _, _ => mret tt
    end;;
    raise_parallel_done n (parent_of c i).

(** *** ENTER_STATES *)

Definition init_state_data (i : nat) : Step unit :=
  ms ← getm;
  if bool_decide (i ∈ _initializedData ms) then mret tt
  else
    forM_ (state_list s_data i) (fun d => call (initData d));;
    update (set_initializedData (fun d => {[i]} ∪ d)).

Definition take_pseudo_transitions (trans : gset nat) (i : nat) : Step unit :=
  forM_ (seq 0 nt) (fun j => with_transition j (fun t =>
    if bool_decide (j ∈ trans) && pseudo_transition t && (parent_of c (t_source t) =? i)
    then take_transition t else mret tt)).

Definition enter_state (trans : gset nat) (i : nat) : Step unit :=
  ms ← getm;
  if bool_decide (i ∈ _configuration ms) then mret tt
  else if is_pseudo_type (type_of c i) then mret tt
  else
    with_element i (fun e => call (monitor (beforeEnteringState e)));;
    update (set_configuration (fun conf => {[i]} ∪ conf));;
    init_state_data i;;
    forM_ (state_list s_onEntry i) (fun block => try_ (call (process block)));;
    with_element i (fun e => call (monitor (afterEnteringState e)));;
    take_pseudo_transitions trans i;;
    if is_final i then enter_final i else mret tt.

Definition enter_states (entry trans : gset nat) : Step unit :=
  forM_ (bits n entry) (enter_state trans).

Definition endless_loop_warning : string :=
  "Reentering same configuration during microstep  - possible endless loop".

Definition note_configuration : Step unit :=
  ms ← getm;
  when (bool_decide (_configuration ms ∈ _microstepConfigurations ms))
    (call (monitor (reportIssue endless_loop_warning)));;
  update (fun ms => set_microstepConfigurations (fun s => {[_configuration ms]} ∪ s) ms).

(** From ESTABLISH_ENTRYSET to the end of the micro step. *)
Definition microstep (exits targets trans : gset nat) : Step InterpreterState :=
  ms ← getm;
  let '(entry, trans) :=
    establish_entryset (_configuration ms) (_history ms) exits targets trans in
  exit_states exits;;
  take_transitions trans;;
  enter_states entry trans;;
  call (monitor afterMicroStep);;
  note_configuration;;
  mret USCXML_MICROSTEPPED.

(** From SELECT_TRANSITIONS on. *)
Definition select_and_step : Step InterpreterState :=
  sets ← select_transitions;
  ms ← getm;
  let exits := exitSet sets ∩ _configuration ms in
  if has_flag (_flags ms) USCXML_CTX_TRANSITION_FOUND then
    update (set_flags (fun f => clear_flag (Z.lor f USCXML_CTX_SPONTANEOUS) USCXML_CTX_TRANSITION_FOUND));;
    call (monitor beforeMicroStep);;
    update (fun ms => set_history (remember_history (_configuration ms) exits (_history ms)) ms);;
    microstep exits (targetSet sets) (transSet sets)
  else
    update (set_flags (fun f => clear_flag f USCXML_CTX_SPONTANEOUS));;
    mret USCXML_MICROSTEPPED.

Definition process_event (e : Event) : Step InterpreterState :=
  call (monitor (beforeProcessingEvent e));;
  select_and_step.

Definition step (blockMs : Z) : Step InterpreterState :=
  ms ← getm;
  if has_flag (_flags ms) USCXML_CTX_FINISHED then mret USCXML_FINISHED
  else if has_flag (_flags ms) USCXML_CTX_TOP_LEVEL_FINAL then finalize
  else if (_flags ms =? USCXML_CTX_PRISTINE)%Z then
    update (set_flags (fun f => Z.lor f (Z.lor USCXML_CTX_SPONTANEOUS USCXML_CTX_INITIALIZED)));;
    call (monitor beforeMicroStep);;
    microstep ∅ (completion_of c 0) ∅
  else if has_flag (_flags ms) USCXML_CTX_SPONTANEOUS then
    update (set_event (Event_default ""));;
    select_and_step
  else
    e ← call dequeueInternal;
    update (set_event e);;
    if Event_bool e then process_event e
    else
      manage_invocations;;
      ms ← getm;
      if negb (has_flag (_flags ms) USCXML_CTX_STABLE) then
        call (monitor onStableConfiguration);;
        update (fun ms => set_flags (fun f => Z.lor f USCXML_CTX_STABLE)
                            (set_microstepConfigurations (fun _ => ∅) ms));;
        mret USCXML_MACROSTEPPED
      else
        e ← call (dequeueExternal blockMs);
        update (fun ms => set_isCancelled (_isCancelled ms || snd e) (set_event (fst e) ms));;
        if Event_bool (fst e) then process_event (fst e)
        else
          ms ← getm;
          if _isCancelled ms then
            update (set_flags (fun f => Z.lor f USCXML_CTX_TOP_LEVEL_FINAL));;
            mret USCXML_CANCELLED
          else mret USCXML_IDLE.

(** ** The other operations *)

Definition markAsCancelled (ms : MicroState) : MicroState := set_isCancelled true ms.

Definition reset (ms : MicroState) : MicroState :=
  mkMicroState USCXML_CTX_PRISTINE ∅ ∅ ∅ ∅ (_microstepConfigurations ms) false (_event ms).

Definition isInState (ms : MicroState) (stateId : string) : bool :=
  match c_stateIds c !! stateId with
  | Some i => bool_decide (i ∈ _configuration ms)
  | None => false
  end.

Definition getConfiguration (ms : MicroState) : list node :=
  omap (fun i => s_element <$> c_states c !! i) (bits n (_configuration ms)).

End Step.
