(* ===== verification/StepLemmas.v ===== *)
(** * Reasoning about the micro stepper

    Rules for computations of the stepper whose callbacks are arbitrary, the
    exact effect of each phase on the stepper's own state, and the invariants
    every step keeps however the callbacks answer or throw. *)

From stdpp Require Import base list gmap strings.
From S2P Require Import Prelude Strings Dom Predicates Data Chart Effects MicroStep.

Local Open Scope nat_scope.

Lemma elem_of_bits n X i : i ∈ bits n X <-> i ∈ X /\ i < n.
Proof. unfold bits. rewrite list_elem_of_filter, elem_of_seq. naive_solver lia. Qed.

Lemma BIT_HAS_AND_spec X Y : BIT_HAS_AND X Y = true <-> exists k, k ∈ X /\ k ∈ Y.
Proof.
  unfold BIT_HAS_AND. rewrite negb_true_iff, bool_decide_eq_false. split.
  - intros Hn. destruct (set_choose_or_empty (X ∩ Y)) as [[k Hk]|He]; [set_solver|].
    exfalso. apply Hn. by apply leibniz_equiv.
  - intros (k & HX & HY) He. set_solver.
Qed.

Lemma BIT_HAS_AND_false X Y : BIT_HAS_AND X Y = false <-> X ∩ Y = ∅.
Proof. unfold BIT_HAS_AND. by rewrite negb_false_iff, bool_decide_eq_true. Qed.

Section Rules.
Context {node W X : Type} {CB : MicroStepCallbacks node W X} (c : Chart node).
Notation Step := (@Step W X).

(** Judgements about the stepper's state only. *)
Definition hoare_ms {A} (P : MicroState -> Prop) (m : Step A) (Q : A -> MicroState -> Prop)
    (E : MicroState -> Prop) : Prop :=
  hoare (fun st => P (fst st)) m (fun a st => Q a (fst st)) (fun st => E (fst st)).

Lemma hoare_ms_ret {A} (a : A) (P : MicroState -> Prop) (Q : A -> MicroState -> Prop) E :
  (forall ms, P ms -> Q a ms) -> hoare_ms P (mret a) Q E.
Proof. intros HP st. apply HP. Qed.

Lemma hoare_ms_bind {A B} P (m : Step A) (f : A -> Step B) R Q E :
  hoare_ms P m R E -> (forall a, hoare_ms (R a) (f a) Q E) -> hoare_ms P (m ≫= f) Q E.
Proof. intros Hm Hf. eapply hoare_bind; [exact Hm|]. intros a. apply Hf. Qed.

Lemma hoare_ms_conseq {A} (P P' : MicroState -> Prop) (m : Step A) (Q Q' : A -> MicroState -> Prop) (E E' : MicroState -> Prop) :
  hoare_ms P' m Q' E' -> (forall s, P s -> P' s) -> (forall a s, Q' a s -> Q a s) ->
  (forall s, E' s -> E s) -> hoare_ms P m Q E.
Proof. intros Hm HP HQ HE. eapply hoare_conseq; [exact Hm|intros s; apply HP|intros a s; apply HQ|intros s; apply HE]. Qed.

Lemma hoare_ms_post {A} (P : MicroState -> Prop) (m : Step A) (Q Q' : A -> MicroState -> Prop) E :
  hoare_ms P m Q E -> (forall a s, Q a s -> Q' a s) -> hoare_ms P m Q' E.
Proof. intros Hm HQ. by apply (hoare_ms_conseq P P m Q' Q E E Hm). Qed.

(** Both postconditions of one computation. *)
Lemma hoare_ms_and {A} (P : MicroState -> Prop) (m : Step A) (Q1 Q2 : A -> MicroState -> Prop) :
  hoare_ms P m Q1 (fun _ => True) -> hoare_ms P m Q2 (fun _ => True) ->
  hoare_ms P m (fun a ms => Q1 a ms /\ Q2 a ms) (fun _ => True).
Proof. intros H1 H2 st HP. specialize (H1 st HP). specialize (H2 st HP). by destruct (m st) as [[x|a] st']. Qed.

Lemma hoare_ms_getm {B} (P : MicroState -> Prop) (f : MicroState -> Step B) Q E :
  (forall ms0, P ms0 -> hoare_ms (fun ms => ms = ms0) (f ms0) Q E) ->
  hoare_ms P (getm ≫= f) Q E.
Proof. intros Hf st Hst. by apply (Hf _ Hst st). Qed.

Lemma hoare_ms_update (P : MicroState -> Prop) f (Q : unit -> MicroState -> Prop) E :
  (forall ms, P ms -> Q tt (f ms)) -> hoare_ms P (update f) Q E.
Proof. intros HP [ms s] Hst. by apply HP. Qed.

(** A callback leaves the stepper alone, whether or not it throws. *)
Lemma hoare_ms_call {A} (f : MicroState -> M X W A) (P : MicroState -> Prop) :
  hoare_ms P (call f) (fun _ => P) P.
Proof. intros [ms s] HP. unfold call. by destruct (f ms s) as [[x|a] s']. Qed.

Lemma hoare_ms_try (P : MicroState -> Prop) (m : Step unit) (Q : MicroState -> Prop) E :
  hoare_ms P m (fun _ => Q) Q -> hoare_ms P (try_ m) (fun _ => Q) E.
Proof.
  intros Hm. exact (hoare_try (fun st => P (fst st)) m (fun st => Q (fst st)) (fun st => E (fst st)) Hm).
Qed.

Lemma hoare_ms_forM {A} (I : list A -> MicroState -> Prop) (l : list A) (f : A -> Step unit) E :
  (forall dn x rest, l = dn ++ x :: rest -> hoare_ms (I dn) (f x) (fun _ => I (dn ++ [x])) E) ->
  hoare_ms (I []) (forM_ l f) (fun _ => I l) E.
Proof.
  intros Hf. apply (hoare_forM (fun dn st => I dn (fst st)) l f (fun st => E (fst st))). exact Hf.
Qed.

(** *** Invariants *)

Definition preserves {A} (I : MicroState -> Prop) (m : Step A) : Prop := hoare_ms I m (fun _ => I) I.

Lemma preserves_ret {A} I (a : A) : preserves I (mret a).
Proof. by apply hoare_ms_ret. Qed.

Lemma preserves_bind {A B} I (m : Step A) (f : A -> Step B) :
  preserves I m -> (forall a, preserves I (f a)) -> preserves I (m ≫= f).
Proof. intros Hm Hf. by eapply hoare_ms_bind. Qed.

Lemma preserves_getm {B} (I : MicroState -> Prop) (f : MicroState -> Step B) :
  (forall ms0, I ms0 -> preserves I (f ms0)) -> preserves I (getm ≫= f).
Proof.
  intros Hf. apply hoare_ms_getm. intros ms0 H0.
  eapply hoare_ms_conseq; [apply (Hf ms0 H0)|by intros ? ->|done|done].
Qed.

Lemma preserves_update (I : MicroState -> Prop) f : (forall ms, I ms -> I (f ms)) -> preserves I (update f).
Proof. intros HI. by apply hoare_ms_update. Qed.

Lemma preserves_call {A} I (f : MicroState -> M X W A) : preserves I (call f).
Proof. apply hoare_ms_call. Qed.

Lemma preserves_try I (m : Step unit) : preserves I m -> preserves I (try_ m).
Proof. apply hoare_ms_try. Qed.

Lemma preserves_forM {A} I (l : list A) (f : A -> Step unit) :
  (forall x, x ∈ l -> preserves I (f x)) -> preserves I (forM_ l f).
Proof.
  intros Hf. apply (hoare_ms_forM (fun _ => I)). intros dn x rest ->. apply Hf. set_solver.
Qed.

Lemma preserves_foldM {A B} I (f : A -> B -> Step B) (l : list A) b :
  (forall x b, x ∈ l -> preserves I (f x b)) -> preserves I (foldM f l b).
Proof.
  intros Hf. apply (hoare_foldM (fun _ _ st => I (fst st)) f l b).
  intros dn x rest b' ->. apply Hf. set_solver.
Qed.

Lemma preserves_with_element I i f : (forall e, preserves I (f e)) -> preserves I (with_element c i f).
Proof. intros Hf. unfold with_element. case_match; [apply Hf|apply preserves_ret]. Qed.

Lemma preserves_with_transition I i (f : Transition node -> Step unit) :
  (forall t, preserves I (f t)) -> preserves I (with_transition c i f).
Proof. intros Hf. unfold with_transition. case_match; [apply Hf|apply preserves_ret]. Qed.

End Rules.

(** Break a computation into its parts, for an invariant. *)
Ltac preserve :=
  repeat (first
    [ apply preserves_ret | apply preserves_call
    | apply preserves_with_element; intros ?
    | apply preserves_with_transition; intros ?
    | apply preserves_getm; intros ? ?
    | apply preserves_bind; [|intros ?]
    | apply preserves_try
    | apply preserves_forM; intros ? ?
    | apply preserves_foldM; intros ? ? ?
    | apply preserves_update
    | match goal with
      | |- preserves _ (match ?x with _ => _ end) => destruct x eqn:?
      end ]).

(** Flags that leave another one alone. *)
Lemma has_flag_lor_other z x m : Z.land x m = 0%Z -> has_flag (Z.lor z x) m = has_flag z m.
Proof. intros Hx. unfold has_flag. by rewrite Z.land_lor_distr_l, Hx, Z.lor_0_r. Qed.

Lemma has_flag_clear_other z x m : Z.land (Z.lnot x) m = m -> has_flag (clear_flag z x) m = has_flag z m.
Proof. intros Hx. unfold has_flag, clear_flag. by rewrite <- Z.land_assoc, Hx. Qed.

Section Phases.
Context {node W X : Type} {CB : MicroStepCallbacks node W X} (c : Chart node).
Abbreviation n := (n_states c).
Abbreviation nt := (n_transitions c).
Notation Step := (@Step W X).

(** *** Phases that leave the stepper alone *)

Lemma run_exit_handlers_preserves I i : preserves I (run_exit_handlers (X := X) c i).
Proof. unfold run_exit_handlers. preserve. Qed.

Lemma uninvoke_all_preserves I i : preserves I (uninvoke_all (X := X) c i).
Proof. unfold uninvoke_all. preserve. Qed.

Lemma invoke_all_preserves I i : preserves I (invoke_all (X := X) c i).
Proof. unfold invoke_all. preserve. Qed.

Lemma take_transition_preserves I t : preserves I (take_transition (X := X) t).
Proof. unfold take_transition. preserve. Qed.

Lemma take_transitions_preserves I trans : preserves I (take_transitions (X := X) c trans).
Proof. unfold take_transitions. preserve; apply take_transition_preserves. Qed.

Lemma take_pseudo_preserves I trans i : preserves I (take_pseudo_transitions (X := X) c trans i).
Proof. unfold take_pseudo_transitions. preserve; apply take_transition_preserves. Qed.

Lemma raise_parallel_done_preserves I fuel : forall p,
  preserves I (raise_parallel_done (X := X) c fuel p).
Proof. induction fuel as [|fuel IH]; intros p; simpl; preserve; apply IH. Qed.

Lemma on_entry_preserves I i :
  preserves I (forM_ (state_list c s_onEntry i) (fun block => try_ (call (process (X := X) block)))).
Proof. preserve. Qed.

End Phases.

(** ** Effects

    A phase that ends without an exception changes the stepper by a function,
    whatever the callbacks do. *)

Section EffectRules.
Context {node W X : Type} {CB : MicroStepCallbacks node W X} (c : Chart node).
Notation Step := (@Step W X).

Definition effect {A} (m : Step A) (g : MicroState -> MicroState) : Prop :=
  forall ms0, hoare_ms (fun ms => ms = ms0) m (fun _ ms => ms = g ms0) (fun _ => True).

Lemma effect_ret {A} (a : A) : effect (mret a) id.
Proof. intros ms0. by apply hoare_ms_ret. Qed.

Lemma effect_none {A} (m : Step A) : (forall I, preserves I m) -> effect m id.
Proof. intros Hm ms0. by eapply hoare_ms_conseq; [apply (Hm (fun ms => ms = ms0))|..]. Qed.

Lemma effect_update f : effect (update f) f.
Proof. intros ms0. apply hoare_ms_update. by intros ? ->. Qed.

Lemma effect_bind {A B} (m : Step A) (f : A -> Step B) g h :
  effect m g -> (forall a, effect (f a) h) -> effect (m ≫= f) (fun ms => h (g ms)).
Proof. intros Hm Hf ms0. eapply hoare_ms_bind; [apply Hm|]. intros a. apply Hf. Qed.

Lemma effect_getm {B} (f : MicroState -> Step B) g :
  (forall ms0, effect (f ms0) (g ms0)) -> effect (getm ≫= f) (fun ms => g ms ms).
Proof. intros Hf ms0. apply hoare_ms_getm. intros ? ->. apply Hf. Qed.

Lemma effect_forM {A} (l : list A) (f : A -> Step unit) g :
  (forall x, effect (f x) (g x)) -> effect (forM_ l f) (fun ms => foldl (fun ms x => g x ms) ms l).
Proof.
  intros Hf. induction l as [|x l IH]; simpl; [apply effect_ret|].
  exact (effect_bind (f x) _ (g x) (fun ms => foldl (fun ms x => g x ms) ms l) (Hf x) (fun _ => IH)).
Qed.

Lemma effect_ext {A} (m : Step A) g h : effect m g -> (forall ms, g ms = h ms) -> effect m h.
Proof.
  intros Hm He ms0. eapply hoare_ms_conseq; [exact (Hm ms0)|done| |done].
  intros _ ms ->. apply He.
Qed.

(** Prefix and suffix that leave the stepper alone. *)
Lemma effect_skip {A B} (m : Step A) (f : A -> Step B) h :
  (forall I, preserves I m) -> (forall a, effect (f a) h) -> effect (m ≫= f) h.
Proof. intros Hm Hf. apply (effect_bind m f id h); [by apply effect_none|done]. Qed.

Lemma effect_then_skip {A B} (m : Step A) (f : A -> Step B) g :
  effect m g -> (forall a I, preserves I (f a)) -> effect (m ≫= f) g.
Proof. intros Hm Hf. apply (effect_bind m f g id); [done|]. intros a. apply effect_none. apply Hf. Qed.

End EffectRules.

Section PhaseEffects.
Context {node W X : Type} {CB : MicroStepCallbacks node W X} (c : Chart node).
Abbreviation n := (n_states c).
Abbreviation nt := (n_transitions c).
Notation Step := (@Step W X).

Lemma MicroState_eta ms :
  mkMicroState (_flags ms) (_configuration ms) (_invocations ms) (_history ms) (_initializedData ms)
    (_microstepConfigurations ms) (_isCancelled ms) (_event ms) = ms.
Proof. by destruct ms. Qed.

(** *** EXIT_STATES *)

Lemma exit_state_effect exits i :
  effect (exit_state (X := X) c exits i) (set_configuration (fun conf => conf ∖ (exits ∩ {[i]}))).
Proof.
  unfold exit_state.
  eapply effect_ext.
  { apply effect_getm with (g := fun ms0 =>
      if bool_decide (i ∈ exits) && bool_decide (i ∈ _configuration ms0)
      then set_configuration (fun conf => conf ∖ {[i]}) else id).
    intros ms0. destruct (_ && _); [|apply effect_ret].
    apply effect_skip; [intros; preserve|intros _].
    apply effect_skip; [intros; apply run_exit_handlers_preserves|intros _].
    apply effect_then_skip; [apply effect_update|]. intros; preserve. }
  intros ms. simpl. destruct (bool_decide (i ∈ exits) && _) eqn:Hb.
  - bool_prop. unfold set_configuration. f_equal. set_solver.
  - rewrite <- (MicroState_eta ms) at 1. unfold set_configuration, id. f_equal.
    apply andb_false_iff in Hb as [Hb|Hb]; bool_prop; set_solver.
Qed.

Lemma foldl_exit exits l : forall ms,
  foldl (fun ms i => set_configuration (fun conf => conf ∖ (exits ∩ {[i]})) ms) ms l =
  set_configuration (fun conf => conf ∖ (exits ∩ list_to_set l)) ms.
Proof.
  induction l as [|i l IH]; intros ms; simpl.
  - rewrite <- (MicroState_eta ms) at 1. unfold set_configuration. f_equal. set_solver.
  - rewrite IH. unfold set_configuration; simpl. f_equal. set_solver.
Qed.

Lemma elem_of_reverse_seq i k : i ∈ reverse (seq 0 k) <-> i < k.
Proof. rewrite elem_of_reverse, elem_of_seq. lia. Qed.

Lemma exit_states_effect exits :
  effect (exit_states (X := X) c exits)
    (set_configuration (fun conf => conf ∖ (exits ∩ list_to_set (seq 0 n)))).
Proof.
  unfold exit_states. eapply effect_ext; [apply effect_forM; intros; apply exit_state_effect|].
  intros ms. cbn beta. rewrite foldl_exit. unfold set_configuration. f_equal.
  apply set_eq. intros k. rewrite !elem_of_difference, !elem_of_intersection, !elem_of_list_to_set.
  by rewrite elem_of_reverse.
Qed.

(** *** ENTER_STATES *)

Definition top_level_final (i : nat) : bool :=
  is_final c i && (ancestor_count c i =? 1) && bool_decide (0 ∈ ancestors_of c i).

(** What entering state [i] does to the stepper. *)
Definition entered (i : nat) (ms : MicroState) : MicroState :=
  if bool_decide (i ∈ _configuration ms) || is_pseudo_type (type_of c i) then ms
  else set_flags (fun f => if top_level_final i then Z.lor f USCXML_CTX_TOP_LEVEL_FINAL else f)
         (set_initializedData (fun d => {[i]} ∪ d) (set_configuration (fun conf => {[i]} ∪ conf) ms)).

Lemma init_state_data_effect i :
  effect (init_state_data (X := X) c i) (set_initializedData (fun d => {[i]} ∪ d)).
Proof.
  unfold init_state_data. eapply effect_ext.
  { apply effect_getm with (g := fun ms0 =>
      if bool_decide (i ∈ _initializedData ms0) then id else set_initializedData (fun d => {[i]} ∪ d)).
    intros ms0. case_bool_decide; [apply effect_ret|].
    apply effect_skip; [intros; preserve|intros _; apply effect_update]. }
  intros ms. simpl. case_bool_decide as Hi; [|done].
  rewrite <- (MicroState_eta ms) at 1. unfold set_initializedData, id. f_equal. set_solver.
Qed.

Lemma enter_final_effect i : is_final c i = true ->
  effect (enter_final (X := X) c i)
    (set_flags (fun f => if top_level_final i then Z.lor f USCXML_CTX_TOP_LEVEL_FINAL else f)).
Proof.
  intros Hf. unfold enter_final, top_level_final. rewrite Hf. cbn [andb].
  destruct (_ && _); [apply effect_update|].
  eapply effect_ext with (g := id); [|intros ms; symmetry; apply MicroState_eta].
  apply effect_none. intros I.
  apply preserves_bind; [preserve|]. intros ?. apply raise_parallel_done_preserves.
Qed.

Lemma enter_state_effect trans i : effect (enter_state (X := X) c trans i) (entered i).
Proof.
  unfold enter_state.
  set (flag := fun f => if top_level_final i then Z.lor f USCXML_CTX_TOP_LEVEL_FINAL else f).
  set (conf := fun conf : gset nat => {[i]} ∪ conf). set (dat := fun d : gset nat => {[i]} ∪ d).
  set (body := fun ms => set_flags flag (set_initializedData dat (set_configuration conf ms))).
  apply effect_ext with (g := fun ms0 =>
    (if bool_decide (i ∈ _configuration ms0) || is_pseudo_type (type_of c i) then id else body) ms0).
  2:{ intros ms. unfold entered. by destruct (_ || _). }
  apply effect_getm with (g := fun ms0 =>
    if bool_decide (i ∈ _configuration ms0) || is_pseudo_type (type_of c i) then id else body).
  intros ms0. case_bool_decide; [apply effect_ret|]. cbn [orb].
  destruct (is_pseudo_type _); [apply effect_ret|].
  apply effect_skip; [intros; preserve|intros _].
  apply (effect_bind _ _ (set_configuration conf) (fun ms => set_flags flag (set_initializedData dat ms)));
    [apply effect_update|intros _].
  apply (effect_bind _ _ (set_initializedData dat) (set_flags flag));
    [apply init_state_data_effect|intros _].
  apply effect_skip; [intros; apply on_entry_preserves|intros _].
  apply effect_skip; [intros; preserve|intros _].
  apply effect_skip; [intros; apply take_pseudo_preserves|intros _].
  destruct (is_final c i) eqn:Hf; [by apply enter_final_effect|].
  eapply effect_ext with (g := id); [apply effect_ret|]. intros ms.
  subst flag. unfold top_level_final. rewrite Hf. symmetry. apply MicroState_eta.
Qed.

(** The states of [entry] that become active. *)
Definition proper_of (entry : gset nat) : gset nat :=
  list_to_set (filter (fun i => is_pseudo_type (type_of c i) = false) (bits n entry)).

Lemma elem_of_proper_of entry i :
  i ∈ proper_of entry <-> i ∈ entry /\ i < n /\ is_pseudo_type (type_of c i) = false.
Proof.
  unfold proper_of. rewrite elem_of_list_to_set, list_elem_of_filter, elem_of_bits. tauto.
Qed.

Definition enter_all (l : list nat) (ms : MicroState) : MicroState := foldl (fun ms i => entered i ms) ms l.

(** The entered states of [l] that are new to [conf]. *)
Definition fresh_of (conf : gset nat) (l : list nat) : gset nat :=
  list_to_set (filter (fun i => is_pseudo_type (type_of c i) = false) l) ∖ conf.

Lemma elem_of_fresh_of conf l k :
  k ∈ fresh_of conf l <-> k ∈ l /\ k ∉ conf /\ is_pseudo_type (type_of c k) = false.
Proof.
  unfold fresh_of. rewrite elem_of_difference, elem_of_list_to_set, list_elem_of_filter. tauto.
Qed.

#[local] Instance set_unfold_fresh_of k conf l P Q :
  SetUnfoldElemOf k conf P -> SetUnfoldElemOf k l Q ->
  SetUnfoldElemOf k (fresh_of conf l) (Q /\ ~ P /\ is_pseudo_type (type_of c k) = false).
Proof. intros [HP] [HQ]. constructor. by rewrite elem_of_fresh_of, HP, HQ. Qed.

#[local] Instance set_unfold_proper_of k entry P :
  SetUnfoldElemOf k entry P ->
  SetUnfoldElemOf k (proper_of entry) (P /\ k < n /\ is_pseudo_type (type_of c k) = false).
Proof. intros [HP]. constructor. by rewrite elem_of_proper_of, HP. Qed.

Lemma entered_fields i ms :
  _configuration (entered i ms) = _configuration ms ∪ fresh_of (_configuration ms) [i] /\
  _initializedData (entered i ms) = _initializedData ms ∪ fresh_of (_configuration ms) [i] /\
  _history (entered i ms) = _history ms /\ _invocations (entered i ms) = _invocations ms /\
  _microstepConfigurations (entered i ms) = _microstepConfigurations ms /\
  _isCancelled (entered i ms) = _isCancelled ms /\ _event (entered i ms) = _event ms.
Proof.
  unfold entered. case_bool_decide as Hi; cbn [orb].
  - split_and!; try done; set_solver.
  - assert (Hf : fresh_of (_configuration ms) [i] = if is_pseudo_type (type_of c i) then ∅ else {[i]}).
    { apply set_eq. intros k. rewrite elem_of_fresh_of, list_elem_of_singleton.
      destruct (is_pseudo_type (type_of c i)) eqn:Hp; set_unfold; split; try done;
        [intros (-> & _ & ?); congruence|by intros (-> & _)|by intros ->]. }
    rewrite Hf. destruct (is_pseudo_type _); simpl; split_and!; set_solver.
Qed.

Lemma fresh_of_cons conf i l :
  fresh_of conf [i] ∪ fresh_of (conf ∪ fresh_of conf [i]) l = fresh_of conf (i :: l).
Proof.
  apply set_eq. intros k. destruct (decide (k ∈ conf)), (decide (k = i)); set_solver.
Qed.

Lemma enter_all_fields l : forall ms,
  let ms' := enter_all l ms in
  _configuration ms' = _configuration ms ∪ fresh_of (_configuration ms) l /\
  _initializedData ms' = _initializedData ms ∪ fresh_of (_configuration ms) l /\
  _history ms' = _history ms /\ _invocations ms' = _invocations ms /\
  _microstepConfigurations ms' = _microstepConfigurations ms /\
  _isCancelled ms' = _isCancelled ms /\ _event ms' = _event ms.
Proof.
  induction l as [|i l IH]; intros ms; simpl.
  - assert (He : fresh_of (_configuration ms) [] = ∅) by (unfold fresh_of; simpl; set_solver).
    rewrite He, !(right_id_L ∅ (∪)). done.
  - destruct (entered_fields i ms) as (Hc & Hd & Hh & Hi & Hm & Hx & Hev).
    destruct (IH (entered i ms)) as (Hc' & Hd' & Hh' & Hi' & Hm' & Hx' & Hev').
    rewrite Hc', Hd', Hh', Hi', Hm', Hx', Hev', Hc, Hd, Hh, Hi, Hm, Hx, Hev.
    rewrite <- !(assoc_L (∪)), !fresh_of_cons. done.
Qed.

Definition microstep_result (exits targets trans : gset nat) (ms : MicroState) : MicroState :=
  let entry := fst (establish_entryset c (_configuration ms) (_history ms) exits targets trans) in
  let ms' := enter_all (bits n entry)
    (set_configuration (fun conf => conf ∖ (exits ∩ list_to_set (seq 0 n))) ms) in
  set_microstepConfigurations (fun s => {[_configuration ms']} ∪ s) ms'.

Lemma note_configuration_effect :
  effect (note_configuration (node := node) (X := X))
    (fun ms => set_microstepConfigurations (fun s => {[_configuration ms]} ∪ s) ms).
Proof.
  unfold note_configuration.
  apply effect_getm with (g := fun _ ms => set_microstepConfigurations (fun s => {[_configuration ms]} ∪ s) ms).
  intros ms0. apply effect_skip; [intros; unfold when; preserve|intros _]. apply effect_update.
Qed.

Lemma microstep_effect exits targets trans :
  effect (microstep (X := X) c exits targets trans) (microstep_result exits targets trans).
Proof.
  unfold microstep, microstep_result.
  apply effect_getm with (g := fun ms0 ms =>
    let entry := fst (establish_entryset c (_configuration ms0) (_history ms0) exits targets trans) in
    let ms' := enter_all (bits n entry)
      (set_configuration (fun conf => conf ∖ (exits ∩ list_to_set (seq 0 n))) ms) in
    set_microstepConfigurations (fun s => {[_configuration ms']} ∪ s) ms').
  intros ms0. destruct (establish_entryset _ _ _ _ _ _) as [entry trans']. cbn [fst]. cbv zeta.
  apply (effect_bind _ _ (set_configuration (fun conf => conf ∖ (exits ∩ list_to_set (seq 0 n))))
    (fun ms => set_microstepConfigurations (fun s => {[_configuration (enter_all (bits n entry) ms)]} ∪ s)
                 (enter_all (bits n entry) ms))); [apply exit_states_effect|intros _].
  apply effect_skip; [intros; apply take_transitions_preserves|intros _].
  apply (effect_bind _ _ (enter_all (bits n entry))
    (fun ms => set_microstepConfigurations (fun s => {[_configuration ms]} ∪ s) ms)).
  { apply effect_forM. intros. apply enter_state_effect. }
  intros _. apply effect_skip; [intros; preserve|intros _].
  apply effect_then_skip; [apply note_configuration_effect|]. intros. apply preserves_ret.
Qed.

(** The configuration after a micro step. *)
Lemma microstep_result_fields exits targets trans ms :
  in_range c (_configuration ms) ->
  let ms' := microstep_result exits targets trans ms in
  let entry := fst (establish_entryset c (_configuration ms) (_history ms) exits targets trans) in
  _configuration ms' = (_configuration ms ∖ exits) ∪ proper_of entry /\
  _initializedData ms' = _initializedData ms ∪ (_configuration ms' ∖ (_configuration ms ∖ exits)) /\
  _history ms' = _history ms /\ _invocations ms' = _invocations ms /\
  _isCancelled ms' = _isCancelled ms /\ _event ms' = _event ms.
Proof.
  intros Hr. unfold microstep_result. cbv zeta.
  set (entry := fst _). set (ms1 := set_configuration _ ms).
  destruct (enter_all_fields (bits n entry) ms1) as (Hc & Hd & Hh & Hi & Hm & Hx & Hev).
  cbn [_configuration _initializedData _history _invocations _isCancelled _event set_microstepConfigurations].
  rewrite Hc, Hd, Hh, Hi, Hx, Hev. subst ms1. cbn [set_configuration _configuration _initializedData _history
    _invocations _isCancelled _event].
  assert (Hex : _configuration ms ∖ (exits ∩ list_to_set (seq 0 n)) = _configuration ms ∖ exits).
  { apply set_eq. intros k. rewrite !elem_of_difference, elem_of_intersection, elem_of_list_to_set, elem_of_seq.
    split; [|naive_solver]. intros [Hk Hn]. split; [done|]. intros He. apply Hn. specialize (Hr k Hk). split; [done|lia]. }
  rewrite Hex. split_and!; try done; apply set_eq; intros k;
    destruct (decide (k ∈ _configuration ms ∖ exits)); set_unfold; rewrite elem_of_bits; naive_solver.
Qed.

Lemma microstep_result_init exits targets trans ms :
  has_flag (_flags (microstep_result exits targets trans ms)) USCXML_CTX_INITIALIZED =
  has_flag (_flags ms) USCXML_CTX_INITIALIZED.
Proof.
  assert (Hall : forall l ms, has_flag (_flags (enter_all l ms)) USCXML_CTX_INITIALIZED =
    has_flag (_flags ms) USCXML_CTX_INITIALIZED).
  { clear. induction l as [|i l IH]; intros ms; [done|]. cbn. etransitivity; [apply IH|].
    unfold entered. destruct (_ || _); [done|]. cbn [_flags set_flags set_initializedData set_configuration].
    destruct (top_level_final i); [by apply has_flag_lor_other|done]. }
  unfold microstep_result. cbv zeta. cbn [_flags set_microstepConfigurations]. by rewrite Hall.
Qed.

End PhaseEffects.

(** ** SELECT_TRANSITIONS *)

Section Select.
Context {node W X : Type} {CB : MicroStepCallbacks node W X} (c : Chart node).
Abbreviation nt := (n_transitions c).
Notation Step := (@Step W X).

Definition found (ms : MicroState) : MicroState :=
  set_flags (fun f => Z.lor f USCXML_CTX_TRANSITION_FOUND) ms.

(** The guard of [t] was evaluated in some state and found false. *)
Definition guard_false (t : Transition node) (ms : MicroState) : Prop :=
  exists w, fst (guard_holds (X := X) t (ms, w)) = inr false.

Definition guard_true (t : Transition node) (ms : MicroState) : Prop :=
  exists w, fst (guard_holds (X := X) t (ms, w)) = inr true.

(** To reason about the selection: an invariant that survives taking and
    skipping a transition. *)
Lemma select_rule (I : list nat -> Sets -> MicroState -> Prop) :
  (forall dn i rest t sets ms, seq 0 nt = dn ++ i :: rest -> c_transitions c !! i = Some t ->
     I dn sets ms -> candidate ms sets i t = true -> guard_true t ms ->
     I (dn ++ [i]) (add_transition i t sets) (found ms)) ->
  (forall dn i rest t sets ms, seq 0 nt = dn ++ i :: rest -> c_transitions c !! i = Some t ->
     I dn sets ms -> candidate ms sets i t = false \/ guard_false t ms -> I (dn ++ [i]) sets ms) ->
  hoare_ms (fun ms => I [] no_sets (set_flags (fun f => clear_flag f USCXML_CTX_STABLE) ms))
    (select_transitions (X := X) c) (fun sets ms => I (seq 0 nt) sets ms) (fun _ => True).
Proof.
  intros Htake Hskip. unfold select_transitions.
  eapply hoare_ms_bind with (R := fun _ ms => I [] no_sets ms);
    [apply hoare_ms_update; intros ms HI; exact HI|]. intros _.
  apply (hoare_foldM (fun dn sets st => I dn sets (fst st)) _ (seq 0 nt) no_sets (fun _ => True)).
  intros dn i rest sets Hseq [ms w] HI. cbn [fst] in HI. unfold select_one.
  destruct (c_transitions c !! i) as [t|] eqn:Ht.
  2:{ exfalso. apply lookup_ge_None in Ht.
      assert (i ∈ seq 0 nt) as Hi by (rewrite Hseq; set_solver). apply elem_of_seq in Hi.
      unfold n_transitions in Hi. lia. }
  unfold mbind at 1, M_bind at 1, getm. cbn [fst].
  destruct (candidate ms sets i t) eqn:Hcand.
  2:{ cbn. eapply Hskip; eauto. }
  pose proof (preserves_call (X := X) (fun m => m = ms) (isTrue (t_cond t))) as Hcall.
  assert (Hguard : hoare_ms (fun m => m = ms) (guard_holds (X := X) t) (fun _ m => m = ms) (fun m => m = ms)).
  { unfold guard_holds. destruct (String.eqb _ _); [by apply hoare_ms_ret|exact Hcall]. }
  specialize (Hguard (ms, w) eq_refl). unfold mbind, M_bind.
  destruct (guard_holds t (ms, w)) as [[x|b] [ms' w']] eqn:Hg; [done|]. cbn [fst] in Hguard. subst ms'.
  destruct b; cbn.
  - eapply Htake; eauto. exists w. by rewrite Hg.
  - eapply Hskip; eauto. right. exists w. by rewrite Hg.
Qed.

Lemma select_preserves (I : MicroState -> Prop) :
  (forall ms f, I ms -> I (set_flags f ms)) -> preserves I (select_transitions (X := X) c).
Proof.
  intros HI. unfold select_transitions.
  apply preserves_bind; [apply preserves_update; intros; by apply HI|]. intros _.
  apply preserves_foldM. intros i sets _. unfold select_one, guard_holds. preserve; intros; by apply HI.
Qed.

(** Everything but the guard that enables transition [t] in [ms]. *)
Definition eligible (ms : MicroState) (t : Transition node) : bool :=
  negb (pseudo_transition t) && bool_decide (t_source t ∈ _configuration ms) && event_matches (_event ms) t.

Lemma candidate_spec ms sets i t :
  candidate ms sets i t = eligible ms t && negb (bool_decide (i ∈ conflictSet sets)).
Proof. unfold candidate, eligible. by destruct (pseudo_transition t), (bool_decide _), (bool_decide _), (event_matches _ _). Qed.

Definition union_of (f : Transition node -> gset nat) (ts : gset nat) : gset nat :=
  set_bind (trans_set f c) ts.

Lemma union_of_add f i ts t : c_transitions c !! i = Some t ->
  union_of f ({[i]} ∪ ts) = union_of f ts ∪ f t.
Proof.
  intros Ht. unfold union_of. apply set_eq. intros k.
  rewrite elem_of_union, !elem_of_set_bind. setoid_rewrite elem_of_union. setoid_rewrite elem_of_singleton.
  assert (Hi : trans_set f c i = f t) by (unfold trans_set; by rewrite Ht).
  split.
  - intros (j & [->|Hj] & Hk); [right; by rewrite Hi in Hk|left; eauto].
  - intros [(j & Hj & Hk)|Hk]; [eauto|]. exists i. rewrite Hi. auto.
Qed.

(** What is always true of the selected sets. *)
Record selected (ms0 : MicroState) (dn : list nat) (sets : Sets) (ms : MicroState) : Prop := {
  sel_config : _configuration ms = _configuration ms0;
  sel_event : _event ms = _event ms0;
  sel_history : _history ms = _history ms0;
  sel_done i : i ∈ transSet sets -> i ∈ dn;
  sel_eligible i : i ∈ transSet sets -> exists t, c_transitions c !! i = Some t /\ eligible ms0 t = true;
  sel_exit : exitSet sets = union_of t_exitSet (transSet sets);
  sel_target : targetSet sets = union_of t_target (transSet sets);
  sel_conflict : conflictSet sets = union_of t_conflicts (transSet sets);
  sel_free i j : i ∈ transSet sets -> j ∈ transSet sets -> i < j -> j ∉ trans_set t_conflicts c i;
  sel_flag : has_flag (_flags ms) USCXML_CTX_TRANSITION_FOUND =
    has_flag (_flags ms0) USCXML_CTX_TRANSITION_FOUND || negb (bool_decide (transSet sets = ∅));
  sel_init : has_flag (_flags ms) USCXML_CTX_INITIALIZED = has_flag (_flags ms0) USCXML_CTX_INITIALIZED;
}.

Lemma seq_split_lt dn : forall k len i rest,
  seq k len = dn ++ i :: rest -> forall j, j ∈ dn -> j < i.
Proof.
  induction dn as [|x dn IH]; intros k len i rest Hs j Hj; [by apply elem_of_nil in Hj|].
  destruct len as [|len]; [done|]. simpl in Hs. injection Hs as <- Hs.
  apply elem_of_cons in Hj as [->|Hj]; [|by eapply IH].
  assert (Hi : i ∈ seq (S k) len) by (rewrite Hs; set_solver). apply elem_of_seq in Hi. lia.
Qed.

Lemma has_flag_found z : has_flag (Z.lor z USCXML_CTX_TRANSITION_FOUND) USCXML_CTX_TRANSITION_FOUND = true.
Proof.
  unfold has_flag. rewrite Z.land_lor_distr_l.
  apply negb_true_iff, Z.eqb_neq. intros H. apply Z.lor_eq_0_iff in H as [_ H]. done.
Qed.

Lemma selected_take ms0 dn i rest t sets ms :
  seq 0 nt = dn ++ i :: rest -> c_transitions c !! i = Some t ->
  selected ms0 dn sets ms -> candidate ms sets i t = true ->
  selected ms0 (dn ++ [i]) (add_transition i t sets) (found ms).
Proof.
  intros Hs Ht [Hc He Hh Hd Hel Hx Htg Hcf Hfree Hfl Hini] Hcand.
  rewrite candidate_spec in Hcand. bool_prop.
  split; try done; cbn [transSet add_transition exitSet targetSet conflictSet].
  - intros j [->%elem_of_singleton|Hj]%elem_of_union; [set_solver|]. apply elem_of_app. left. by apply Hd.
  - intros j [->%elem_of_singleton|Hj]%elem_of_union; [|by apply Hel].
    exists t. split; [done|]. unfold eligible in *. by rewrite Hc, He in *.
  - by rewrite (union_of_add _ _ _ _ Ht), Hx.
  - by rewrite (union_of_add _ _ _ _ Ht), Htg.
  - by rewrite (union_of_add _ _ _ _ Ht), Hcf.
  - intros j k Hj Hk Hlt. apply elem_of_union in Hk as [->%elem_of_singleton|Hk].
    + apply elem_of_union in Hj as [->%elem_of_singleton|Hj]; [lia|].
      intros Hin. apply H0. rewrite Hcf. apply elem_of_set_bind. eauto.
    + apply elem_of_union in Hj as [->%elem_of_singleton|Hj]; [|by apply Hfree].
      apply Hd in Hk. pose proof (seq_split_lt _ _ _ _ _ Hs k Hk). lia.
  - unfold found. cbn [_flags set_flags]. rewrite has_flag_found.
    rewrite bool_decide_eq_false_2; [by rewrite orb_true_r|].
    intros Hemp. assert (i ∈ {[i]} ∪ transSet sets) as Hin by set_solver. rewrite Hemp in Hin. set_solver.
  - rewrite <- Hini. by apply has_flag_lor_other.
Qed.

Lemma selected_start ms0 : 
  selected ms0 [] no_sets (set_flags (fun f => clear_flag f USCXML_CTX_STABLE) ms0).
Proof.
  split; try done; try (by unfold union_of; simpl; apply set_eq; intros k; rewrite elem_of_set_bind; set_solver).
  - cbn [_flags set_flags transSet no_sets]. rewrite has_flag_clear_other, bool_decide_eq_true_2 by done.
    by rewrite orb_false_r.
  - by apply has_flag_clear_other.
Qed.

Lemma selected_skip ms0 dn i sets ms : selected ms0 dn sets ms -> selected ms0 (dn ++ [i]) sets ms.
Proof. intros [? ? ? Hd ? ? ? ? ? ? ?]. split; try done. intros j Hj%Hd. set_solver. Qed.

Lemma select_selected ms0 :
  hoare_ms (fun ms => ms = ms0) (select_transitions (X := X) c)
    (fun sets ms => selected ms0 (seq 0 nt) sets ms) (fun _ => True).
Proof.
  eapply hoare_ms_conseq; [apply (select_rule (selected ms0))| | |done].
  - intros. by eapply selected_take.
  - intros. by apply selected_skip.
  - intros ms ->. apply selected_start.
  - done.
Qed.

End Select.

(** ** REMEMBER_HISTORY *)

Section History.
Context {node : Type} (c : Chart node).
Abbreviation n := (n_states c).

Lemma remember_history_elem config exits history k :
  k ∈ remember_history c config exits history <->
  ((exists i, i < n /\ is_history_type (type_of c i) = true /\ parent_of c i ∈ exits /\ k ∈ completion_of c i)
     /\ k ∈ config) \/
  (~ (exists i, i < n /\ is_history_type (type_of c i) = true /\ parent_of c i ∈ exits /\ k ∈ completion_of c i)
     /\ k ∈ history).
Proof.
  unfold remember_history.
  assert (Hg : forall m, k ∈ foldl (remember_one c config exits) history (seq 0 m) <->
    ((exists i, i < m /\ is_history_type (type_of c i) = true /\ parent_of c i ∈ exits /\ k ∈ completion_of c i)
       /\ k ∈ config) \/
    (~ (exists i, i < m /\ is_history_type (type_of c i) = true /\ parent_of c i ∈ exits /\ k ∈ completion_of c i)
       /\ k ∈ history)); [|apply Hg].
  induction m as [|m IH].
  { simpl. split; [intros Hk; right; split; [intros (i & ? & _); lia|done]|].
    intros [[(i & ? & _) _]|[_ ?]]; [lia|done]. }
  rewrite seq_S, foldl_app. cbn [foldl Nat.add]. unfold remember_one at 1.
  set (covers i := is_history_type (type_of c i) = true /\ parent_of c i ∈ exits /\ k ∈ completion_of c i).
  change (exists i, i < m /\ _) with (exists i, i < m /\ covers i) in IH.
  change (exists i, i < S m /\ _) with (exists i, i < S m /\ covers i).
  assert (HS : (exists i, i < S m /\ covers i) <-> (exists i, i < m /\ covers i) \/ covers m).
  { split.
    - intros (i & Hi & Hc). destruct (decide (i = m)) as [->|]; [by right|left; exists i; split; [lia|done]].
    - intros [(i & Hi & Hc)|Hc]; [exists i; split; [lia|done]|exists m; split; [lia|done]]. }
  rewrite HS. destruct (is_history_type (type_of c m)) eqn:Ht; cbn [andb].
  2:{ rewrite IH. assert (~ covers m) by (intros [? _]; congruence). tauto. }
  case_bool_decide as Hp.
  2:{ rewrite IH. assert (~ covers m) by (intros (_ & ? & _); done). tauto. }
  rewrite elem_of_union, elem_of_difference, elem_of_intersection, IH.
  assert (Hk : covers m <-> k ∈ completion_of c m) by (unfold covers; tauto).
  rewrite Hk. destruct (decide (k ∈ completion_of c m)); tauto.
Qed.

End History.
