(* ===== verification/Recorder.v ===== *)
(** * A recording environment

    An implementation of [MicroStepCallbacks] whose world is two event queues
    and the list of the calls made. It answers conditions and throws from
    executable content as two oracles say, and serves to state in which order
    the stepper calls its environment, and to run charts. *)

From stdpp Require Import base list gmap strings.
From S2P Require Import Prelude Strings Dom Predicates Data Chart Effects MicroStep.

Local Open Scope nat_scope.

Inductive Call (node : Type) :=
| CProcess (block : node) | CInvoke (inv : node) | CUninvoke (inv : node) | CInitData (data : node)
| CDone (state : node) (doneData : option node) | CIsTrue (cond : string)
| CMonitor (m : MonitorCall node).
Arguments CProcess {node}. Arguments CInvoke {node}. Arguments CUninvoke {node}.
Arguments CInitData {node}. Arguments CDone {node}. Arguments CIsTrue {node}. Arguments CMonitor {node}.

Record World (node : Type) := mkWorld {
  w_internal : list Event;
  w_external : list Event;
  w_trace : list (Call node);
}.
Arguments mkWorld {node}. Arguments w_internal {node}. Arguments w_external {node}. Arguments w_trace {node}.

Section Recorder.
Context {node : Type} (truth : string -> bool) (throws : node -> bool).

Definition record (call : Call node) (w : World node) : World node :=
  mkWorld (w_internal w) (w_external w) (w_trace w ++ [call]).

Definition log (call : Call node) : M unit (World node) unit := fun w => (inr tt, record call w).

Definition log_throw (n : node) (call : Call node) : M unit (World node) unit := fun w =>
  (if throws n then inl tt else inr tt, record call w).

Definition no_event : Event := Event_default "".

Definition recorder : MicroStepCallbacks node (World node) unit := {|
  dequeueInternal _ w :=
    match w_internal w with
    | [] => (inr no_event, w)
    | e :: es => (inr e, mkWorld es (w_external w) (w_trace w))
    end;
  dequeueExternal _ _ w :=
    match w_external w with
    | [] => (inr (no_event, false), w)
    | e :: es => (inr (e, false), mkWorld (w_internal w) es (w_trace w))
    end;
  isMatched e desc := nameMatch desc (e_name e);
  raiseDoneEvent state doneData _ := log (CDone state doneData);
  isTrue cond _ w := (inr (truth cond), record (CIsTrue cond) w);
  initData data _ := log (CInitData data);
  process block _ := log_throw block (CProcess block);
  invoke inv _ := log_throw inv (CInvoke inv);
  uninvoke inv _ := log (CUninvoke inv);
  monitor m _ := log (CMonitor m);
|}.

(** Run [k] steps and list the configurations they end in. *)
Fixpoint run (c : Chart node) (k : nat) (st : MicroState * World node)
    : list (list nat) * (MicroState * World node) :=
  match k with
  | 0 => ([], st)
  | S k =>
      let st' := snd (step (CB := recorder) c 0%Z st) in
      let '(confs, final) := run c k st' in
      (bits (n_states c) (_configuration (fst st')) :: confs, final)
  end.

End Recorder.

Definition external (name : string) : Event := Event_named name EXTERNAL.
Definition world_of {node} (events : list string) : World node := mkWorld [] (external <$> events) [].

(** The configurations of the first [k] steps on a document. *)
Definition configurations (doc : list row) (events : list string) (k : nat) : list (list nat) :=
  match init (table_dom doc) 0 with
  | Some c => fst (run (fun _ => true) (fun _ => false) c k (pristine, world_of events))
  | None => []
  end.
