(* ===== verification/Legal.v ===== *)
(** * Legal configurations

    A configuration of a chart is legal only if it is closed under parents,
    contains no pseudo states and all children of its parallel states. This
    file shows that every step of the micro stepper keeps it so, for charts
    whose completions, default targets and exit sets have the shape
    [chart_regular] describes, and evaluates the stepper on two charts outside
    that shape where it is lost. *)

From stdpp Require Import base list gmap strings.
From S2P Require Import Prelude Strings Dom Predicates Data Chart Effects MicroStep StepLemmas Recorder.

Local Open Scope nat_scope.

Section Regular.
Context {node : Type} (c : Chart node).
Abbreviation n := (n_states c).
Abbreviation nt := (n_transitions c).

Definition masked (i : nat) : Z := USCXML_STATE_MASK (type_of c i).

(** The states of [X] come after [i] and add nothing above [i]. *)
Definition below (i : nat) (up : gset nat) (X : gset nat) : Prop :=
  set_Forall (fun k => i < k /\ ancestors_of c k ⊆ up) X.

Definition no_new_above (i : nat) (X : gset nat) : Prop :=
  set_Forall (fun k => i < k /\ set_Forall (fun a => a ∈ ancestors_of c i \/ i < a) (ancestors_of c k)) X.

(** The transition of a history or initial pseudo state. *)
Definition default_regular (i j : nat) : Prop :=
  (masked i = USCXML_STATE_HISTORY_SHALLOW -> below i (ancestors_of c i) (target_of c j)) /\
  (masked i = USCXML_STATE_HISTORY_DEEP -> no_new_above i (target_of c j) /\ size (target_of c j) = 1) /\
  (masked i = USCXML_STATE_INITIAL -> no_new_above i (target_of c j)).

Definition state_regular (i : nat) : Prop :=
  has_flag (type_of c i) USCXML_STATE_HAS_HISTORY = false /\
  set_Forall (fun a => is_pseudo_type (type_of c a) = false) (ancestors_of c i) /\
  (masked i = USCXML_STATE_PARALLEL \/ masked i = USCXML_STATE_COMPOUND ->
     below i ({[i]} ∪ ancestors_of c i) (completion_of c i)) /\
  (masked i = USCXML_STATE_PARALLEL ->
     set_Forall (fun k => is_pseudo_type (type_of c k) = false) (completion_of c i)) /\
  (masked i = USCXML_STATE_HISTORY_SHALLOW -> below i (ancestors_of c i) (completion_of c i)) /\
  (masked i = USCXML_STATE_HISTORY_DEEP ->
     below i (ancestors_of c i ∪ completion_of c i) (completion_of c i) /\
     Forall (fun j => j <> i -> is_history_type (type_of c j) = true ->
               completion_of c i ∩ completion_of c j = ∅) (seq 0 n)) /\
  Forall (fun j => source_of c j = i -> default_regular i j) (seq 0 nt).

(** An exit set contains the descendants of its states, and with a child of a
    parallel state that state. *)
Definition exits_regular (exits : gset nat) : Prop :=
  Forall (fun i =>
    (is_pseudo_type (type_of c i) = false -> ~ (ancestors_of c i ∩ exits = ∅) -> i ∈ exits) /\
    (masked i = USCXML_STATE_PARALLEL -> ~ (completion_of c i ∩ exits = ∅) -> i ∈ exits)) (seq 0 n).

Definition chart_regular : Prop :=
  Forall state_regular (seq 0 n) /\
  Forall (fun t => exits_regular (trans_set t_exitSet c t)) (seq 0 nt).

#[export] Instance below_dec i up Y : Decision (below i up Y).
Proof. unfold below. apply _. Defined.
#[export] Instance no_new_above_dec i Y : Decision (no_new_above i Y).
Proof. unfold no_new_above. apply _. Defined.
#[export] Instance default_regular_dec i j : Decision (default_regular i j).
Proof. unfold default_regular. apply _. Defined.
#[export] Instance state_regular_dec i : Decision (state_regular i).
Proof. unfold state_regular. apply _. Defined.
#[export] Instance exits_regular_dec Y : Decision (exits_regular Y).
Proof. unfold exits_regular. apply _. Defined.
#[export] Instance chart_regular_dec : Decision chart_regular.
Proof. unfold chart_regular. apply _. Defined.

Definition closed (Y : gset nat) : Prop := forall i a, i ∈ Y -> a ∈ ancestors_of c i -> a ∈ Y.

Definition parallel_complete (Y : gset nat) : Prop :=
  forall p, p ∈ Y -> masked p = USCXML_STATE_PARALLEL -> completion_of c p ⊆ Y.

Definition proper (Y : gset nat) : Prop := forall i, i ∈ Y -> is_pseudo_type (type_of c i) = false.

Definition history_closed (hist : gset nat) : Prop :=
  forall i, masked i = USCXML_STATE_HISTORY_DEEP -> forall k a, k ∈ completion_of c i -> k ∈ hist ->
    a ∈ ancestors_of c k -> a ∈ ancestors_of c i \/ (a ∈ completion_of c i /\ a ∈ hist).

(** What every step keeps. *)
Record legal (ms : MicroState) : Prop := {
  legal_range : in_range c (_configuration ms);
  legal_proper : proper (_configuration ms);
  legal_closed : closed (_configuration ms);
  legal_parallel : parallel_complete (_configuration ms);
  legal_history : history_closed (_history ms);
}.

End Regular.

Section Entry.
Context {node : Type} (c : Chart node) (WF : chart_wf c) (HR : chart_regular c).
Abbreviation n := (n_states c).
Abbreviation nt := (n_transitions c).

Lemma ancestors_range i a : a ∈ ancestors_of c i -> i < n.
Proof. apply state_set_range. Qed.

Lemma completion_range i k : k ∈ completion_of c i -> k < n.
Proof. apply (wf_completion c WF). Qed.

Lemma regular_at i : i < n -> state_regular c i.
Proof. intros Hi. destruct HR as [Hs _]. rewrite Forall_forall in Hs. apply Hs, elem_of_seq. lia. Qed.

(** *** Ancestors of the targets *)

Lemma with_ancestors_elem targets k :
  k ∈ with_ancestors c targets <-> k ∈ targets \/ exists i, i ∈ targets /\ k ∈ ancestors_of c i.
Proof.
  unfold with_ancestors. change (find_first n targets) with (find_first n (id targets)).
  rewrite find_loop_scan by lia.
  assert (Hinv : forall k, k ∈ scan_loop id (add_ancestors c) (seq 0 n) targets <->
    k ∈ targets \/ exists i, i < 0 + n /\ i ∈ targets /\ k ∈ ancestors_of c i).
  { apply (scan_loop_inv id (add_ancestors c) (fun j E => forall k, k ∈ E <->
      k ∈ targets \/ exists i, i < j /\ i ∈ targets /\ k ∈ ancestors_of c i)).
    - intros k0. split; [by left|]. intros [?|(i & ? & _)]; [done|lia].
    - intros i E Hi HE k0. unfold id. case_bool_decide as Hin.
      + assert (Hit : i ∈ targets).
        { apply HE in Hin as [?|(j & Hj & _ & Ha)]; [done|].
          pose proof (wf_anc_lt c WF j i Ha). lia. }
        unfold add_ancestors. rewrite elem_of_union, HE. split.
        * intros [[?|(j & ? & ?)]|Ha]; [by left|right; exists j; split; [lia|done]|].
          right. exists i. split_and!; [lia|done|done].
        * intros [?|(j & Hj & Ht & Ha)]; [by left; left|].
          destruct (decide (j = i)) as [->|]; [by right|]. left. right. exists j. split_and!; [lia|done|done].
      + rewrite HE. split; (intros [?|(j & Hj & Ht & Ha)]; [by left|right; exists j; split_and!; try done]);
          [lia|]. destruct (decide (j = i)) as [->|]; [|lia]. exfalso. apply Hin. apply HE. by left. }
  rewrite Hinv. split; (intros [?|(i & Hi)]; [by left|right; exists i]).
  - by destruct Hi as (_ & ? & ?).
  - destruct Hi as (Ht & Ha). pose proof (ancestors_range i k Ha). split_and!; [lia|done|done].
Qed.

Lemma with_ancestors_closed targets : closed c (with_ancestors c targets).
Proof.
  intros i a. rewrite !with_ancestors_elem. intros [Hi|(j & Hj & Hi)] Ha; right; [eauto|].
  exists j. split; [done|]. by eapply wf_anc_trans.
Qed.


(** *** Descendants *)

(** [E'] is [E] with states after [i] added; a pseudo state [i] may go. *)
Record grows (i : nat) (E E' : gset nat) : Prop := {
  grows_closed : closed c E';
  grows_keep k : k ∈ E -> k <> i -> k ∈ E';
  grows_self : i ∈ E -> is_pseudo_type (type_of c i) = false -> i ∈ E';
  grows_new k : k ∈ E' -> k ∈ E \/ i < k;
}.

Lemma grows_refl i E : closed c E -> grows i E E.
Proof. split; auto. Qed.

Lemma grows_trans i E1 E2 E3 : grows i E1 E2 -> grows i E2 E3 -> grows i E1 E3.
Proof.
  intros [C1 K1 S1 N1] [C2 K2 S2 N2]. split; auto. intros k [Hk|Hk]%N2; auto.
Qed.

Lemma grows_union i E Y :
  closed c E ->
  (forall k, k ∈ Y -> (k ∈ E \/ i < k) /\ forall a, a ∈ ancestors_of c k -> a ∈ E \/ a ∈ Y) ->
  grows i E (E ∪ Y).
Proof.
  intros HE HY. split.
  - intros k a. rewrite !elem_of_union. intros [Hk|Hk] Ha; [left; by eapply HE|]. by eapply HY.
  - set_solver.
  - set_solver.
  - intros k [Hk|Hk]%elem_of_union; [by left|]. by apply HY.
Qed.

Lemma pseudo_no_children i : is_pseudo_type (type_of c i) = true -> forall k, i ∉ ancestors_of c k.
Proof.
  intros Hp k Hk. pose proof (ancestors_range k i Hk) as Hr.
  destruct (regular_at k Hr) as (_ & Ha & _). specialize (Ha i Hk). simpl in Ha. congruence.
Qed.

Lemma grows_remove i E : closed c E -> is_pseudo_type (type_of c i) = true -> grows i E (E ∖ {[i]}).
Proof.
  intros HE Hp. split.
  - intros k a [Hk _]%elem_of_difference Ha. apply elem_of_difference. split; [by eapply HE|].
    intros ->%elem_of_singleton. by eapply pseudo_no_children.
  - set_solver.
  - congruence.
  - set_solver.
Qed.

Lemma find_seq_spec (P : nat -> bool) lo len k :
  List.find P (seq lo len) = Some k -> P k = true /\ lo <= k.
Proof.
  intros (Hin & HP)%List.find_some. split; [done|]. apply in_seq in Hin. lia.
Qed.

Lemma grows_below i E Y :
  closed c E -> ancestors_of c i ⊆ E -> i ∈ E -> below c i ({[i]} ∪ ancestors_of c i) Y ->
  grows i E (E ∪ Y).
Proof.
  intros HE Ha Hi HY. apply grows_union; [done|]. intros k Hk. destruct (HY k Hk) as [Hlt Hup].
  split; [by right|]. intros a Hak%Hup. left. set_solver.
Qed.

Lemma below_weaken i X1 X2 Y : X1 ⊆ X2 -> below c i X1 Y -> below c i X2 Y.
Proof. intros HX HY k Hk. destruct (HY k Hk). split; [done|set_solver]. Qed.

Lemma source_default i j : i < n -> source_of c j = i -> j < nt -> default_regular c i j.
Proof.
  intros Hi Hs Hj. destruct (regular_at i Hi) as (_ & _ & _ & _ & _ & _ & Hd).
  rewrite Forall_forall in Hd. apply Hd; [|done]. apply elem_of_seq. lia.
Qed.

Lemma target_range j k : k ∈ target_of c j -> k < n.
Proof. apply (wf_target_range c WF). Qed.

(** One default transition of an initial pseudo state. *)
Lemma add_target_ancestors_spec i (Y E : gset nat) :
  forall len k, k ∈ foldl (fun (entry : gset nat) k => if bool_decide (k ∈ Y) then entry ∪ ancestors_of c k else entry)
      E (seq (i + 1) len) <->
    k ∈ E \/ exists t, i < t < i + 1 + len /\ t ∈ Y /\ k ∈ ancestors_of c t.
Proof.
  induction len as [|len IH]; intros k.
  { simpl. split; [by left|]. intros [?|(t & ? & _)]; [done|lia]. }
  rewrite seq_S, foldl_app. cbn [foldl]. case_bool_decide as Hin.
  - rewrite elem_of_union, IH. split.
    + intros [[?|(t & ? & ?)]|Ha]; [by left|right; exists t; split; [lia|done]|].
      right. exists (i + 1 + len). split; [lia|done].
    + intros [?|(t & Ht & HY & Ha)]; [by left; left|].
      destruct (decide (t = i + 1 + len)) as [->|]; [by right|].
      left; right. exists t. split; [lia|done].
  - rewrite IH. split; (intros [?|(t & Ht & HY & Ha)]; [by left|right; exists t]); [split; [lia|done]|].
    destruct (decide (t = i + 1 + len)) as [->|]; [done|]. split; [lia|done].
Qed.

Lemma grows_initial i j E T E' T' :
  i < n -> masked c i = USCXML_STATE_INITIAL -> is_pseudo_type (type_of c i) = true ->
  closed c E -> ancestors_of c i ⊆ E -> j < nt ->
  initial_transition c i (E, T) j = (E', T') -> grows i E E'.
Proof.
  intros Hi Hm Hp HE Ha Hj. unfold initial_transition.
  destruct (Nat.eqb_spec (source_of c j) i) as [Hs|Hs]; [|intros [= -> ->]; by apply grows_refl].
  intros [= <- _].
  destruct (source_default i j Hi Hs Hj) as (_ & _ & Hreg). specialize (Hreg Hm).
  set (E1 := E ∖ {[i]}).
  assert (HE1 : grows i E E1) by by apply grows_remove.
  assert (Ha1 : ancestors_of c i ⊆ E1).
  { intros a Hia. apply elem_of_difference. split; [by apply Ha|]. intros ->%elem_of_singleton.
    by apply (wf_anc_lt c WF) in Hia; lia. }
  eapply grows_trans; [exact HE1|].
  assert (HU : grows i E1 (E1 ∪ (target_of c j ∪ set_bind (ancestors_of c) (target_of c j)))).
  { apply grows_union; [apply HE1|]. intros k. rewrite elem_of_union, elem_of_set_bind.
    intros [Hk|(t & Ht & Hk)].
    - destruct (Hreg k Hk) as [Hlt _]. split; [by right|]. intros a Hak. right.
      apply elem_of_union. right. apply elem_of_set_bind. eauto.
    - destruct (Hreg t Ht) as [Hlt Hup]. specialize (Hup k Hk). simpl in Hup. split; [set_solver|].
      intros a Hak. right. apply elem_of_union. right. apply elem_of_set_bind. exists t. split; [done|].
      by eapply wf_anc_trans. }
  match goal with |- grows i _ ?F => assert (Heq : F = E1 ∪ (target_of c j ∪ set_bind (ancestors_of c) (target_of c j))) end.
  2:{ by rewrite Heq. }
  apply set_eq. intros k. rewrite add_target_ancestors_spec, !elem_of_union, elem_of_set_bind.
  split.
  - intros [[?|?]|(t & _ & Ht & Hk)]; [by left|by right; left|]. right; right. eauto.
  - intros [?|[?|(t & Ht & Hk)]]; [by left; left|by left; right|]. right. exists t.
    destruct (Hreg t Ht) as [Hlt _]. pose proof (target_range j t Ht). split; [lia|done].
Qed.

Lemma type_masked_history i : is_history_type (masked c i) = is_history_type (type_of c i).
Proof.
  unfold is_history_type, masked, USCXML_STATE_MASK. by rewrite <- !Z.land_assoc.
Qed.

Lemma grows_default_history i E T E' T' :
  i < n -> is_history_type (type_of c i) = true -> closed c E -> ancestors_of c i ⊆ E -> 
  default_history c i (E, T) = (E', T') -> grows i E E'.
Proof.
  intros Hi Ht HE Ha. unfold default_history.
  destruct (List.find _ (seq 0 nt)) as [j|] eqn:Hf; [|intros [= -> ->]; by apply grows_refl].
  apply List.find_some in Hf as (Hj & Hs). apply in_seq in Hj. apply Nat.eqb_eq in Hs.
  destruct (source_default i j Hi Hs ltac:(lia)) as (Hsh & Hdp & _).
  assert (Hc : BIT_HAS_AND (target_of c j) (children_of c i) = false).
  { apply BIT_HAS_AND_false. apply set_eq. intros k. rewrite elem_of_intersection.
    split; [|set_solver]. intros [_ Hk]. apply (wf_children c WF) in Hk. exfalso.
    apply (pseudo_no_children i) in Hk; [done|]. unfold is_pseudo_type. by rewrite Ht. }
  rewrite Hc. cbn [negb]. rewrite andb_true_r.
  destruct (Z.eqb_spec (USCXML_STATE_MASK (type_of c i)) USCXML_STATE_HISTORY_DEEP) as [Hd|Hd].
  - destruct (Hdp Hd) as (Hnew & Hsize). apply size_1_elem_of in Hsize as (k & Hk%leibniz_equiv).
    assert (Hkt : k ∈ target_of c j) by (rewrite Hk; by apply elem_of_singleton).
    destruct (Hnew k Hkt) as [Hlt Hup]. pose proof (target_range j k Hkt) as Hkn.
    rewrite Hk. clear Hc Hsh Hdp Hnew Hs.
    destruct (List.find _ (seq (i + 1) _)) as [k'|] eqn:Hf.
    2:{ exfalso. eapply List.find_none with (x := k) in Hf; [|apply in_seq; lia].
        bool_prop. by apply Hf, elem_of_singleton. }
    apply find_seq_spec in Hf as [Hk' _]. bool_prop. apply elem_of_singleton in Hk' as ->.
    intros [= <- _]. rewrite <- (assoc_L (∪)). apply grows_union; [done|].
    intros a [->%elem_of_singleton|Hak]%elem_of_union.
    + split; [by right|]. intros a Hak. right. apply elem_of_union. by right.
    + specialize (Hup a Hak). simpl in Hup. split; [destruct Hup; [left; by apply Ha|by right]|].
      intros b Hb. right. apply elem_of_union. right. by eapply wf_anc_trans.
  - intros [= <- _]. apply grows_union; [done|]. intros k Hk.
    assert (Hm : masked c i = USCXML_STATE_HISTORY_SHALLOW).
    { unfold is_history_type in Ht. apply orb_true_iff in Ht as [Ht|Ht]; apply Z.eqb_eq in Ht; done. }
    destruct (Hsh Hm k Hk) as [Hlt Hup]. split; [by right|]. intros a Hak. left. set_solver.
Qed.

Lemma grows_restore_history history i E :
  i < n -> is_history_type (type_of c i) = true -> closed c E -> ancestors_of c i ⊆ E ->
  history_closed c history -> grows i E (restore_history c history i E).
Proof.
  intros Hi Ht HE Ha Hh. destruct (regular_at i Hi) as (Hflag & _ & _ & _ & Hsh & Hdp & _).
  unfold restore_history.
  destruct (Z.eqb_spec (type_of c i) (Z.lor USCXML_STATE_HAS_HISTORY USCXML_STATE_HISTORY_DEEP)) as [Hty|_].
  { by rewrite Hty in Hflag. }
  apply grows_union; [done|]. intros k [Hk Hkh]%elem_of_intersection.
  unfold is_history_type in Ht. apply orb_true_iff in Ht as [Ht|Ht]; apply Z.eqb_eq in Ht.
  - destruct (Hsh Ht k Hk) as [Hlt Hup]. split; [by right|]. intros a Hak. left. set_solver.
  - destruct (Hdp Ht) as [Hb _]. destruct (Hb k Hk) as [Hlt _]. split; [by right|].
    intros a Hak. destruct (Hh i Ht k a Hk Hkh Hak) as [?|[? ?]]; [left|right]; set_solver.
Qed.


Lemma grows_compound config exits i E :
  i < n -> masked c i = USCXML_STATE_COMPOUND -> closed c E -> i ∈ E ->
  grows i E (complete_compound c config exits i E).
Proof.
  intros Hi Hm HE Hin. destruct (regular_at i Hi) as (_ & _ & Hb & _). specialize (Hb (or_intror Hm)).
  assert (Ha : ancestors_of c i ⊆ E) by (intros a; by apply HE).
  unfold complete_compound. destruct (_ && _); [|by apply grows_refl].
  assert (HU : grows i E (E ∪ completion_of c i)) by by apply grows_below.
  destruct (negb _); [|done]. destruct (List.find _ _) as [j|] eqn:Hf; [|done].
  apply find_seq_spec in Hf as [Hj _]. bool_prop. destruct (Hb j Hj) as [_ Hup].
  replace (E ∪ completion_of c i ∪ ancestors_of c j) with (E ∪ completion_of c i); [done|].
  rewrite (comm_L (∪) _ (ancestors_of c j)). symmetry. apply subseteq_union_1_L. intros a Hak%Hup. apply elem_of_union. left.
  apply elem_of_union in Hak as [->%elem_of_singleton|Hak]; [done|by apply Ha].
Qed.

Lemma is_pseudo_masked i t :
  masked c i = t -> is_pseudo_type t = false -> is_pseudo_type (type_of c i) = false.
Proof.
  intros <-. unfold is_pseudo_type. rewrite type_masked_history. unfold masked, USCXML_STATE_MASK.
  by rewrite <- Z.land_assoc.
Qed.

Lemma descend_grows config history exits i E T :
  i < n -> closed c E -> i ∈ E -> history_closed c history ->
  grows i E (fst (descend c config history exits i (E, T))).
Proof.
  intros Hi HE Hin Hh. assert (Ha : ancestors_of c i ⊆ E) by (intros a; by apply HE).
  unfold descend. cbv zeta. fold (masked c i).
  destruct (Z.eqb_spec (masked c i) USCXML_STATE_PARALLEL) as [Hp|_].
  { destruct (regular_at i Hi) as (_ & _ & Hb & _). cbn [fst]. apply grows_below; auto. }
  destruct (is_history_type (masked c i)) eqn:Ht.
  { rewrite type_masked_history in Ht. destruct (_ && _).
    - destruct (default_history c i (E, T)) as [E' T'] eqn:Hd. by eapply grows_default_history.
    - by apply grows_restore_history. }
  destruct (Z.eqb_spec (masked c i) USCXML_STATE_INITIAL) as [Hm|_].
  2:{ destruct (Z.eqb_spec (masked c i) USCXML_STATE_COMPOUND) as [Hm|_]; [|by apply grows_refl].
      by apply grows_compound. }
  assert (Hp : is_pseudo_type (type_of c i) = true).
  { unfold is_pseudo_type. apply orb_true_iff. right. by apply Z.eqb_eq. }
  assert (Hl : forall js E1 T1, (forall j, j ∈ js -> j < nt) -> grows i E E1 ->
    grows i E (fst (foldl (initial_transition c i) (E1, T1) js))).
  { induction js as [|j js IH]; intros E1 T1 Hjs HG; [done|]. cbn [foldl].
    destruct (initial_transition c i (E1, T1) j) as [E2 T2] eqn:Hstep.
    apply IH; [intros; apply Hjs; by right|]. eapply grows_trans; [exact HG|].
    eapply (grows_initial i j E1 T1); eauto; [apply HG| |apply Hjs; by left].
    intros a Hia. apply (grows_keep _ _ _ HG); [by apply Ha|]. intros ->.
    by apply (wf_anc_lt c WF) in Hia; lia. }
  apply Hl; [|by apply grows_refl]. intros j Hj%elem_of_seq. lia.
Qed.

Lemma descend_parallel config history exits i E T :
  masked c i = USCXML_STATE_PARALLEL ->
  completion_of c i ⊆ fst (descend c config history exits i (E, T)).
Proof.
  intros Hp. unfold descend. cbv zeta. fold (masked c i). rewrite Hp. cbn. set_solver.
Qed.

(** The entry set is closed under parents and contains the children of its
    parallel states. *)
Lemma establish_entryset_regular config history exits targets trans :
  history_closed c history ->
  let E := fst (establish_entryset c config history exits targets trans) in
  closed c E /\ forall p, p ∈ E -> p < n -> masked c p = USCXML_STATE_PARALLEL -> completion_of c p ⊆ E.
Proof.
  intros Hh. unfold establish_entryset. cbv zeta.
  set (E0 := with_ancestors c targets).
  change (find_first n E0) with (find_first n (fst (E0, trans))).
  rewrite find_loop_scan by lia.
  apply (scan_loop_inv fst (descend c config history exits) (fun i st => closed c (fst st) /\
    forall p, p ∈ fst st -> p < i -> masked c p = USCXML_STATE_PARALLEL -> completion_of c p ⊆ fst st)).
  { split; [apply with_ancestors_closed|]. intros. lia. }
  intros i [E T] Hi [HE HP]. cbn [fst] in *. case_bool_decide as Hin.
  2:{ split; [done|]. intros p Hp Hlt. apply HP; [done|]. destruct (decide (p = i)) as [->|]; [done|lia]. }
  pose proof (descend_grows config history exits i E T ltac:(lia) HE Hin Hh) as HG.
  pose proof (descend_parallel config history exits i E T) as Hpar.
  set (E' := fst (descend c config history exits i (E, T))) in *. clearbody E'.
  split; [apply HG|]. intros p Hp Hlt Hmp.
  destruct (decide (p = i)) as [->|Hne]; [by apply Hpar|].
  destruct (grows_new _ _ _ HG p Hp) as [HpE|]; [|lia].
  intros k Hk. pose proof (HP p HpE ltac:(lia) Hmp k Hk) as HkE.
  destruct (decide (k = i)) as [->|]; [|by apply (grows_keep _ _ _ HG)].
  apply (grows_self _ _ _ HG HkE).
  destruct (regular_at p ltac:(lia)) as (_ & _ & _ & Hpp & _). by apply (Hpp Hmp).
Qed.

(** *** History *)

Lemma remember_history_closed config exits history :
  closed c config -> history_closed c history -> history_closed c (remember_history c config exits history).
Proof.
  intros HC HH i Hd k a Hk. rewrite !remember_history_elem.
  assert (Hi : i < n).
  { unfold completion_of in Hk. by apply state_set_range in Hk. }
  destruct (regular_at i Hi) as (_ & _ & _ & _ & _ & Hdp & _). destruct (Hdp Hd) as [Hb Hdisj].
  assert (Honly : forall j x, j < n -> is_history_type (type_of c j) = true ->
    x ∈ completion_of c i -> x ∈ completion_of c j -> j = i).
  { intros j x Hj Ht Hx Hx'. destruct (decide (j = i)) as [|Hne]; [done|]. exfalso.
    rewrite Forall_forall in Hdisj.
    pose proof (Hdisj j ltac:(apply elem_of_seq; lia) Hne Ht) as He.
    assert (Hin : x ∈ completion_of c i ∩ completion_of c j) by (by apply elem_of_intersection).
    rewrite He in Hin. by apply elem_of_empty in Hin. }
  intros [[(j & Hj & Ht & Hpe & Hkj) Hkc]|[Hno Hkh]] Ha.
  - assert (j = i) as -> by by eapply Honly.
    destruct (Hb k Hk) as [_ Hup]. pose proof (Hup a Ha) as Hu. apply elem_of_union in Hu. destruct Hu as [|Hac]; [by left|right].
    split; [done|]. left. split; [exists i; split_and!; done|]. by eapply HC.
  - destruct (HH i Hd k a Hk Hkh Ha) as [?|[Hac Hah]]; [by left|right]. split; [done|]. right.
    split; [|done]. intros (j & Hj & Ht & Hpe & Haj). apply Hno.
    assert (j = i) as -> by by eapply Honly. exists i; split_and!; done.
Qed.

End Entry.

(** ** What a step keeps *)

Section StepRule.
Context {node W X : Type} {CB : MicroStepCallbacks node W X} (c : Chart node).
Abbreviation nt := (n_transitions c).
Notation Step := (@Step W X).

(** Nothing has happened to the configuration. *)
Definition same_place (ms ms' : MicroState) : Prop :=
  _configuration ms' = _configuration ms /\ _history ms' = _history ms /\
  has_flag (_flags ms') USCXML_CTX_INITIALIZED = has_flag (_flags ms) USCXML_CTX_INITIALIZED.

(** What the micro step for the selected transitions makes of [ms1]. *)
Definition selected_result (sets : Sets) (ms0 ms1 : MicroState) : MicroState :=
  let exits := exitSet sets ∩ _configuration ms0 in
  microstep_result c exits (targetSet sets) (transSet sets)
    (set_history (remember_history c (_configuration ms0) exits (_history ms0)) ms1).

Lemma same_place_refl ms : same_place ms ms.
Proof. done. Qed.

Section Rule.
Context (I : MicroState -> Prop).
Hypothesis I_ext : forall ms ms', same_place ms ms' -> I ms -> I ms'.
Hypothesis I_selected : forall ms0 sets ms ms1,
  I ms0 -> selected c ms0 (seq 0 nt) sets ms -> same_place ms0 ms1 -> I (selected_result sets ms0 ms1).
Hypothesis I_start : forall ms ms1, I ms -> _flags ms = USCXML_CTX_PRISTINE ->
  _configuration ms1 = _configuration ms -> _history ms1 = _history ms ->
  has_flag (_flags ms1) USCXML_CTX_INITIALIZED = true ->
  I (microstep_result c ∅ (completion_of c 0) ∅ ms1).

Lemma rule_update f : (forall ms, same_place ms (f ms)) -> preserves (X := X) (W := W) I (update f).
Proof. intros Hf. apply preserves_update. intros ms. by apply I_ext. Qed.

(** Any computation that keeps [I] in both ways out. *)
Lemma rule_preserves {A} (m : Step A) : preserves I m -> hoare_ms I m (fun _ => I) (fun _ => True).
Proof. intros Hm st Hst. specialize (Hm st Hst). by destruct (m st) as [[x|a] st']. Qed.

Lemma rule_bind {A B} (m : Step A) (f : A -> Step B) : preserves I m ->
  (forall a, hoare_ms I (f a) (fun _ => I) (fun _ => True)) ->
  hoare_ms I (mbind f m) (fun _ => I) (fun _ => True).
Proof. intros Hm Hf. eapply hoare_ms_bind; [by apply rule_preserves|exact Hf]. Qed.

Lemma rule_at {A} (m : Step A) ms0 : I ms0 -> hoare_ms I m (fun _ => I) (fun _ => True) ->
  hoare_ms (fun ms => ms = ms0) m (fun _ => I) (fun _ => True).
Proof. intros H0 Hm. eapply hoare_ms_conseq; [exact Hm|by intros ? ->|done|done]. Qed.

(** The flags that are set and cleared besides that of the start. *)
Lemma same_place_lor x ms : Z.land x USCXML_CTX_INITIALIZED = 0%Z ->
  same_place ms (set_flags (fun f => Z.lor f x) ms).
Proof. intros Hx. split_and!; [done..|]. by apply has_flag_lor_other. Qed.
Lemma same_place_clear x ms : Z.land (Z.lnot x) USCXML_CTX_INITIALIZED = USCXML_CTX_INITIALIZED ->
  same_place ms (set_flags (fun f => clear_flag f x) ms).
Proof. intros Hx. split_and!; [done..|]. by apply has_flag_clear_other. Qed.

Lemma microstep_after exits targets trans (J : MicroState -> Prop) :
  (forall ms, J ms -> I (microstep_result c exits targets trans ms)) ->
  hoare_ms J (microstep (X := X) c exits targets trans) (fun _ => I) (fun _ => True).
Proof.
  intros HJ st Hst.
  pose proof (microstep_effect (X := X) c exits targets trans (fst st) st eq_refl) as Hm.
  destruct (microstep _ _ _ _ st) as [[x|r] st']; [done|]. rewrite Hm. by apply HJ.
Qed.

Lemma selected_place ms0 dn sets ms : selected c ms0 dn sets ms -> same_place ms0 ms.
Proof. intros Hs. split_and!; apply Hs. Qed.

Lemma select_and_step_rule :
  hoare_ms I (select_and_step (X := X) c) (fun _ => I) (fun _ => True).
Proof.
  assert (Hg : forall ms0, I ms0 ->
    hoare_ms (fun ms => ms = ms0) (select_and_step (X := X) c) (fun _ => I) (fun _ => True)).
  2:{ intros st HI. by apply (Hg (fst st) HI st). }
  intros ms0 HI. unfold select_and_step. eapply hoare_ms_bind; [apply select_selected|].
  intros sets. apply hoare_ms_getm. intros ms Hsel. pose proof (selected_place _ _ _ _ Hsel) as Hpl.
  destruct (has_flag _ _).
  2:{ apply rule_at; [by apply (I_ext ms0)|]. apply rule_bind; [|intros ?; by apply hoare_ms_ret].
      apply rule_update. intros. by apply same_place_clear. }
  eapply hoare_ms_bind with (R := fun _ => same_place ms).
  { apply hoare_ms_update. intros ? ->. split_and!; [done..|]. cbn [_flags set_flags].
    by rewrite has_flag_clear_other, has_flag_lor_other. }
  intros _. eapply hoare_ms_bind with (R := fun _ => same_place ms).
  { eapply hoare_ms_conseq; [apply hoare_ms_call|intros ? HP; exact HP|done|done]. }
  intros _. eapply hoare_ms_bind with (R := fun _ ms2 => exists ms1, same_place ms0 ms1 /\
    ms2 = set_history (remember_history c (_configuration ms0) (exitSet sets ∩ _configuration ms0) (_history ms0)) ms1).
  { apply hoare_ms_update. intros ms1 (Hc & Hh & Hf). destruct Hpl as (Hc' & Hh' & Hf'). exists ms1.
    split; [split_and!; congruence|]. congruence. }
  intros _. destruct Hpl as (-> & _). apply microstep_after. intros ? (ms1 & Hpl & ->).
  by apply (I_selected ms0 sets ms).
Qed.

Lemma step_rule blockMs : hoare_ms I (step (X := X) c blockMs) (fun _ => I) (fun _ => True).
Proof.
  unfold step. apply hoare_ms_getm. intros ms0 HI.
  assert (Hcall : forall A (f : MicroState -> M X W A), preserves I (call f)) by (intros; preserve).
  assert (Hplace : forall f, (forall ms, _configuration (f ms) = _configuration ms /\
    _history (f ms) = _history ms /\ _flags (f ms) = _flags ms) -> preserves (X := X) (W := W) I (update f)).
  { intros f Hf. apply rule_update. intros ms. destruct (Hf ms) as (? & ? & Hfl). split_and!; [done..|by rewrite Hfl]. }
  destruct (has_flag _ USCXML_CTX_FINISHED); [by apply rule_at, hoare_ms_ret|].
  destruct (has_flag _ USCXML_CTX_TOP_LEVEL_FINAL).
  { apply rule_at, rule_preserves; [done|]. unfold finalize, finalize_state, run_exit_handlers, uninvoke_all.
    preserve; intros ms Hms; apply (I_ext ms); try done; by apply same_place_lor. }
  destruct (Z.eqb_spec (_flags ms0) USCXML_CTX_PRISTINE) as [Hfl|_].
  { eapply hoare_ms_bind with (R := fun _ ms => _configuration ms = _configuration ms0 /\
      _history ms = _history ms0 /\ has_flag (_flags ms) USCXML_CTX_INITIALIZED = true).
    { apply hoare_ms_update. intros ? ->. split_and!; [done..|]. cbn [_flags set_flags]. by rewrite Hfl. }
    intros _. eapply hoare_ms_bind with (R := fun _ ms => _configuration ms = _configuration ms0 /\
      _history ms = _history ms0 /\ has_flag (_flags ms) USCXML_CTX_INITIALIZED = true).
    { eapply hoare_ms_conseq; [apply hoare_ms_call|intros ? HP; exact HP|done|done]. }
    intros _. apply microstep_after. intros ms (? & ? & ?). by apply (I_start ms0). }
  apply rule_at; [done|].
  destruct (has_flag _ USCXML_CTX_SPONTANEOUS).
  { apply rule_bind; [by apply Hplace|]. intros _. apply select_and_step_rule. }
  assert (Hev : forall e, hoare_ms I (process_event (X := X) c e) (fun _ => I) (fun _ => True)).
  { intros e. apply rule_bind; [apply Hcall|]. intros _. apply select_and_step_rule. }
  apply rule_bind; [apply Hcall|]. intros e.
  apply rule_bind; [by apply Hplace|]. intros _. destruct (Event_bool e); [apply Hev|].
  apply rule_bind.
  { unfold manage_invocations, manage_invocation, uninvoke_all, invoke_all.
    preserve; intros ms Hms; by apply (I_ext ms). }
  intros _. apply hoare_ms_getm. intros ms1 HI1. apply rule_at; [done|].
  destruct (negb _).
  { apply rule_bind; [apply Hcall|]. intros _. apply rule_bind; [|intros _; by apply hoare_ms_ret].
    apply rule_update. intros ms. split_and!; [done..|]. by apply has_flag_lor_other. }
  apply rule_bind; [apply Hcall|]. intros [e' b].
  apply rule_bind; [by apply Hplace|]. intros _. cbn [fst]. destruct (Event_bool e'); [apply Hev|].
  apply rule_preserves. preserve; intros ms Hms; apply (I_ext ms); try done; by apply same_place_lor.
Qed.

End Rule.
End StepRule.

(** ** Steps keep the configuration legal *)

Section StepLegal.
Context {node W X : Type} {CB : MicroStepCallbacks node W X}.
Context (c : Chart node) (WF : chart_wf c) (HR : chart_regular c).
Abbreviation n := (n_states c).
Abbreviation nt := (n_transitions c).
Notation Step := (@Step W X).

Lemma legal_ext ms ms' :
  _configuration ms' = _configuration ms -> _history ms' = _history ms -> legal c ms -> legal c ms'.
Proof. intros Hc Hh [? ? ? ? ?]. split; rewrite ?Hc, ?Hh; done. Qed.

Lemma not_disjoint (Y1 Y2 : gset nat) k : k ∈ Y1 -> k ∈ Y2 -> ~ (Y1 ∩ Y2 = ∅).
Proof. intros H1 H2 He. assert (k ∈ Y1 ∩ Y2) by (by apply elem_of_intersection). set_solver. Qed.

Lemma microstep_result_legal exits targets trans ms :
  legal c ms -> exits_regular c exits ->
  legal c (microstep_result c (exits ∩ _configuration ms) targets trans ms).
Proof.
  intros HL Hex. pose proof (legal_range _ _ HL) as Hr.
  destruct (microstep_result_fields c (exits ∩ _configuration ms) targets trans ms Hr)
    as (Hc & _ & Hh & _).
  destruct (establish_entryset_regular c WF HR (_configuration ms) (_history ms)
    (exits ∩ _configuration ms) targets trans (legal_history _ _ HL)) as [HE HP].
  set (E := fst (establish_entryset _ _ _ _ _ _)) in *. clearbody E.
  set (ms' := microstep_result _ _ _ _ _) in *. clearbody ms'.
  unfold exits_regular in Hex. rewrite Forall_forall in Hex.
  assert (Hin : forall k, k ∈ _configuration ms' <->
    (k ∈ _configuration ms /\ k ∉ exits) \/ (k ∈ E /\ k < n /\ is_pseudo_type (type_of c k) = false)).
  { intros k. rewrite Hc, elem_of_union, elem_of_proper_of, elem_of_difference, elem_of_intersection. tauto. }
  split; [| | | |by rewrite Hh; apply HL].
  - intros k [[Hk _]|[_ [Hk _]]]%Hin; [by apply Hr|done].
  - intros k [[Hk _]|[_ [_ Hk]]]%Hin; [by apply (legal_proper _ _ HL k)|done].
  - intros k a Hk Ha. pose proof (ancestors_range c k a Ha) as Hkn.
    apply Hin. apply Hin in Hk as [[Hk Hne]|(Hk & _ & Hp)]; [left|right].
    + split; [by apply (legal_closed _ _ HL k a)|]. intros Hae. apply Hne.
      destruct (Hex k ltac:(apply elem_of_seq; lia)) as [Hx _].
      apply Hx; [by apply (legal_proper _ _ HL k)|by apply (not_disjoint _ _ a)].
    + split; [by apply (HE k a)|]. pose proof (wf_anc_lt c WF k a Ha). split; [lia|].
      destruct (regular_at c HR k Hkn) as (_ & Hanc & _). by apply Hanc.
  - intros p Hp Hm k Hk. pose proof (completion_range c WF p k Hk) as Hkn.
    assert (Hpn : p < n) by (unfold completion_of in Hk; by apply state_set_range in Hk).
    apply Hin. apply Hin in Hp as [[Hp Hne]|(Hp & _ & _)]; [left|right].
    + split; [by apply (legal_parallel _ _ HL p Hp Hm k)|]. intros Hke. apply Hne.
      destruct (Hex p ltac:(apply elem_of_seq; lia)) as [_ Hx].
      apply Hx; [done|by apply (not_disjoint _ _ k)].
    + split; [by apply (HP p Hp Hpn Hm k)|]. split; [done|].
      destruct (regular_at c HR p Hpn) as (_ & _ & _ & Hpp & _). by apply (Hpp Hm).
Qed.

Lemma not_disjoint_elem (Y1 Y2 : gset nat) : ~ (Y1 ∩ Y2 = ∅) -> exists k, k ∈ Y1 /\ k ∈ Y2.
Proof.
  intros Hn. apply BIT_HAS_AND_spec. unfold BIT_HAS_AND. by apply negb_true_iff, bool_decide_eq_false.
Qed.

Lemma exits_regular_selected ts : exits_regular c (union_of c t_exitSet ts).
Proof.
  unfold exits_regular. rewrite Forall_forall. intros i Hi.
  assert (Hg : forall Z, (forall t, t < nt -> ~ (Z ∩ trans_set t_exitSet c t = ∅) -> i ∈ trans_set t_exitSet c t) ->
    ~ (Z ∩ union_of c t_exitSet ts = ∅) -> i ∈ union_of c t_exitSet ts).
  { intros Z HZ (k & Hk & (t & Ht & Hkt)%elem_of_set_bind)%not_disjoint_elem.
    apply elem_of_set_bind. exists t. split; [done|]. apply HZ; [|by apply (not_disjoint _ _ k)].
    unfold trans_set in Hkt. destruct (c_transitions c !! t) eqn:E; [|set_solver].
    by apply lookup_lt_Some in E. }
  destruct HR as [_ Hex]. rewrite Forall_forall in Hex.
  assert (Hreg : forall t, t < nt -> exits_regular c (trans_set t_exitSet c t)).
  { intros t Ht. apply Hex, elem_of_seq. lia. }
  unfold exits_regular in Hreg.
  split; intros Hp; apply Hg; intros t Ht; specialize (Hreg t Ht); rewrite Forall_forall in Hreg;
    by apply (Hreg i Hi).
Qed.

Lemma select_and_step_legal ms0 sets ms ms1 :
  legal c ms0 -> selected c ms0 (seq 0 nt) sets ms -> same_place ms0 ms1 ->
  legal c (selected_result c sets ms0 ms1).
Proof.
  intros HL Hsel (Hc & Hh & _). unfold selected_result. rewrite <- Hc.
  set (ms2 := set_history _ ms1). change (_configuration ms1) with (_configuration ms2).
  apply microstep_result_legal.
  - subst ms2. split; cbn [_configuration _history set_history]; rewrite ?Hc; try apply HL.
    rewrite <- Hc. apply remember_history_closed; [done|rewrite Hc; apply HL|apply HL].
  - rewrite (sel_exit _ _ _ _ _ Hsel). apply exits_regular_selected.
Qed.

Lemma exits_regular_empty : exits_regular c ∅.
Proof. apply Forall_forall. intros i _. rewrite !(right_absorb_L ∅ (∩)). split; by intros _ []. Qed.

Lemma step_keeps_legal blockMs :
  hoare_ms (legal c) (step (X := X) c blockMs) (fun _ => legal c) (fun _ => True).
Proof.
  apply step_rule.
  - intros ms ms' (Hc & Hh & _). by apply legal_ext.
  - intros. by eapply select_and_step_legal.
  - intros ms ms1 HL _ Hc Hh _. rewrite <- (left_absorb_L ∅ (∩) (_configuration ms1)).
    apply microstep_result_legal; [by apply (legal_ext ms)|apply exits_regular_empty].
Qed.

(** The constructor's state is legal. *)
Lemma pristine_legal : legal c pristine.
Proof.
  split; try (intros i; simpl; set_solver); intros i; simpl; try done; intros; set_solver.
Qed.

(** The states a stepper gets into: steps that do not throw, resets and
    cancellations, with any callbacks and any environment. *)
Inductive reachable : MicroState -> Prop :=
| reach_pristine : reachable pristine
| reach_step ms w blockMs r ms' w' :
    reachable ms -> step (X := X) c blockMs (ms, w) = (inr r, (ms', w')) -> reachable ms'
| reach_cancel ms : reachable ms -> reachable (markAsCancelled ms)
| reach_reset ms : reachable ms -> reachable (reset ms).

(** In every reachable state of the stepper, whatever events arrive and
    however the callbacks answer, the configuration lies within the chart,
    holds no pseudo states, is closed under parents and contains all children
    of its parallel states, and the recorded deep histories are closed. *)
Theorem reachable_legal ms : reachable ms -> legal c ms.
Proof.
  induction 1 as [|ms w b r ms' w' _ IH Hs|ms _ IH|ms _ IH].
  - apply pristine_legal.
  - pose proof (step_keeps_legal b (ms, w) IH) as Hk. by rewrite Hs in Hk.
  - by apply (legal_ext ms).
  - apply (legal_ext pristine); [done|done|apply pristine_legal].
Qed.

End StepLegal.

(** ** Charts to evaluate *)

Definition compiled (doc : list row) : Chart nat :=
  default (mkChart [] [] ∅ EARLY) (init (table_dom doc) 0).

(** A parallel state, a shallow and a deep history, an initial element and an
    invocation, all of the regular shape. *)
Definition regular_doc : list row := rows
  (Xml "scxml" [("initial", "p")] []
    [Xml "parallel" [("id", "p")] []
      [Xml "state" [("id", "r1")] []
        [Xml "history" [("id", "h1")] [] [Xml "transition" [("target", "a")] [] []];
         Xml "state" [("id", "a")] []
           [Xml "transition" [("event", "go"); ("target", "b")] [] []];
         Xml "final" [("id", "b")] [] [Xml "onentry" [] [] []]];
       Xml "state" [("id", "r2")] []
        [Xml "initial" [] [] [Xml "transition" [("target", "x")] [] []];
         Xml "state" [("id", "x")] [] [Xml "invoke" [] [] []; Xml "onexit" [] [] []];
         Xml "final" [("id", "y")] [] []];
       Xml "transition" [("event", "leave"); ("target", "q")] [] []];
     Xml "state" [("id", "q")] []
       [Xml "history" [("id", "h2"); ("type", "deep")] [] [Xml "transition" [("target", "q1")] [] []];
        Xml "state" [("id", "q0")] [] [Xml "state" [("id", "q1")] [] []];
        Xml "transition" [("event", "back"); ("target", "h1")] [] [];
        Xml "transition" [("event", "deep"); ("target", "h2")] [] []];
     Xml "final" [("id", "end")] [] []]).

Definition regular_dom : DomOps nat := table_dom regular_doc.
Definition regular_laws : @DomLaws nat regular_dom := table_laws regular_doc eq_refl.
Definition regular_chart : Chart nat := compiled regular_doc.

Lemma regular_chart_init : init regular_dom 0 = Some regular_chart.
Proof. by vm_compute. Qed.

Lemma regular_chart_wf : chart_wf regular_chart.
Proof.
  apply (init_chart_wf (D := resortStates 0 "") (DL := resortStates_laws (DL := regular_laws) 0 "") 0).
  exact regular_chart_init.
Qed.

Lemma regular_chart_regular : chart_regular regular_chart.
Proof. apply (bool_decide_unpack _). by vm_compute. Qed.

Definition started : unit + InterpreterState :=
  fst (step (CB := recorder (fun _ => true) (fun _ => false)) regular_chart 0%Z (pristine, world_of [])).
Definition started_state : MicroState * World nat :=
  snd (step (CB := recorder (fun _ => true) (fun _ => false)) regular_chart 0%Z (pristine, world_of [])).

Lemma started_reachable : reachable (CB := recorder (fun _ => true) (fun _ => false)) regular_chart (fst started_state).
Proof.
  destruct started_state as [ms' w'] eqn:E.
  apply (reach_step (CB := recorder (fun _ => true) (fun _ => false)) regular_chart
    pristine (world_of []) 0%Z USCXML_MICROSTEPPED ms' w'); [constructor|].
  rewrite <- E. unfold started_state.
  assert (Hr : started = inr USCXML_MICROSTEPPED) by (by vm_compute). unfold started in Hr.
  by rewrite <- Hr, <- surjective_pairing.
Qed.

Lemma reachable_legal_witness :
  bits 15 (_configuration (fst started_state)) = [0; 1; 2; 4; 6; 8] /\
  legal regular_chart (fst started_state).
Proof.
  split; [by vm_compute|].
  apply (reachable_legal (CB := recorder (fun _ => true) (fun _ => false)) regular_chart
    regular_chart_wf regular_chart_regular). exact started_reachable.
Defined.

(** *** Where the shape is not given *)

(** A compound state whose attribute initial names a deep descendant. *)
Definition deep_initial_doc : list row := rows
  (Xml "scxml" [("initial", "a")] []
    [Xml "state" [("id", "a"); ("initial", "c")] []
      [Xml "state" [("id", "b")] [] [Xml "state" [("id", "c")] [] []]]]).

(** A compound state below the root whose initial attribute names a
    state that is not its child is entered without the states in between: here
    the machine starts in {scxml, a, c}, and the parent b of c is not active. *)
Theorem deep_initial_not_closed :
  configurations deep_initial_doc [] 1 = [[0; 1; 3]] /\ ~ closed (compiled deep_initial_doc) {[0; 1; 3]}.
Proof.
  split; [by vm_compute|]. intros Hc.
  assert (H2 : 2 ∈ ({[0; 1; 3]} : gset nat)).
  { apply (Hc 3); [set_solver|]. apply (bool_decide_unpack _). by vm_compute. }
  revert H2. apply (bool_decide_unpack _). by vm_compute.
Qed.

(** A shallow history nested below the parent of a deep one. *)
Definition nested_history_doc : list row := rows
  (Xml "scxml" [("initial", "q")] []
    [Xml "state" [("id", "p")] []
      [Xml "history" [("id", "H"); ("type", "deep")] [] [Xml "transition" [("target", "s1")] [] []];
       Xml "state" [("id", "s1")] []
         [Xml "history" [("id", "h")] [] [Xml "transition" [("target", "s1a")] [] []];
          Xml "state" [("id", "s1a")] [] [Xml "transition" [("event", "go"); ("target", "s3")] [] []]];
       Xml "state" [("id", "s2")] [] [Xml "state" [("id", "s2b")] [] []];
       Xml "state" [("id", "s3")] [] [Xml "transition" [("event", "back"); ("target", "H")] [] []];
       Xml "transition" [("event", "out"); ("target", "q")] [] []];
     Xml "state" [("id", "q")] []
       [Xml "transition" [("event", "in1"); ("target", "s1")] [] [];
        Xml "transition" [("event", "in2"); ("target", "s2b")] [] []]]).

(** The histories of nested states share one bit set, so a deep history
    can be restored with states recorded at different times: here s2, s2b are
    recorded when p is left, s1a when s1 is left, and returning to the deep
    history activates s1a without its parent s1, beside s2. *)
Theorem nested_history_not_closed :
  last (configurations nested_history_doc ["in2"; "out"; "in1"; "go"; "back"] 16) = Some [0; 1; 5; 6; 7] /\
  ~ closed (compiled nested_history_doc) {[0; 1; 5; 6; 7]}.
Proof.
  split; [by vm_compute|]. intros Hc.
  assert (H3 : 3 ∈ ({[0; 1; 5; 6; 7]} : gset nat)).
  { apply (Hc 5); [set_solver|]. apply (bool_decide_unpack _). by vm_compute. }
  revert H3. apply (bool_decide_unpack _). by vm_compute.
Qed.
