(* ===== verification/Complete.v ===== *)
(** * Legal configurations: one active child per compound state

    The part of legality that depends on what the targets of a transition, the
    default transitions of pseudo states and the recorded histories have in
    common: in every reachable configuration each active compound state has
    exactly one active child. [chart_tree] is the shape of a chart for which
    this holds; it can be evaluated. *)

From stdpp Require Import base list gmap strings.
From S2P Require Import Prelude Strings Dom Predicates Data Chart Effects MicroStep StepLemmas Recorder Legal.

Local Open Scope nat_scope.

Section Shape.
Context {node : Type} (c : Chart node).
Abbreviation n := (n_states c).
Abbreviation nt := (n_transitions c).

Definition child (p k : nat) : Prop := p ∈ ancestors_of c k /\ parent_of c k = p.
Definition genuine (k : nat) : Prop := is_pseudo_type (type_of c k) = false.
Definition compound (p : nat) : Prop := masked c p = USCXML_STATE_COMPOUND.
Definition parallel (p : nat) : Prop := masked c p = USCXML_STATE_PARALLEL.

Definition at_most_one (p : nat) (Y : gset nat) : Prop :=
  set_Forall (fun k1 => set_Forall (fun k2 =>
    child p k1 /\ genuine k1 -> child p k2 /\ genuine k2 -> k1 = k2) Y) Y.

(** A history among the targets is alone below its parent, which is entered. *)
Definition history_alone (d : nat) (T : gset nat) (h : nat) : Prop :=
  is_history_type (type_of c h) = true /\ parent_of c h ∈ ancestors_of c h /\
  d ∈ ancestors_of c (parent_of c h) /\
  set_Forall (fun k => parent_of c h ∈ ancestors_of c k -> k = h) T.

(** The targets [T] of one transition with domain [d]. *)
Definition fragment (d : nat) (T : gset nat) : Prop :=
  set_Forall (fun k => d ∈ ancestors_of c k /\ (genuine k \/ history_alone d T k)) T /\
  Forall (fun p => compound p -> at_most_one p (with_ancestors c T)) (seq 0 n).

Definition default_target (i j : nat) : Prop :=
  fragment (parent_of c i) (target_of c j) /\ target_of c j <> ∅ /\ set_Forall genuine (target_of c j).

(** A pseudo state comes before its proper siblings and has one transition. *)
Definition pseudo_shape (i : nat) : Prop :=
  parent_of c i ∈ ancestors_of c i /\
  (compound (parent_of c i) \/ parallel (parent_of c i)) /\
  Forall (fun k => parent_of c i ∈ ancestors_of c k -> genuine k -> i < k) (seq 0 n) /\
  Exists (fun j => source_of c j = i) (seq 0 nt) /\
  Forall (fun j => source_of c j = i -> default_target i j) (seq 0 nt).

Definition history_shape (i : nat) : Prop :=
  set_Forall (fun k => parent_of c i ∈ ancestors_of c k /\ genuine k /\
    (masked c i = USCXML_STATE_HISTORY_SHALLOW -> child (parent_of c i) k)) (completion_of c i) /\
  set_Exists (child (parent_of c i)) (completion_of c i) /\
  Forall (fun k => child (parent_of c i) k -> genuine k -> k ∈ completion_of c i) (seq 0 n) /\
  Forall (fun j => is_history_type (type_of c j) = true -> completion_of c i ∩ completion_of c j <> ∅ ->
    parent_of c i = parent_of c j) (seq 0 n).

Definition state_shape (i : nat) : Prop :=
  (i <> 0 -> 0 ∈ ancestors_of c i) /\
  (compound i -> i <> 0 -> size (completion_of c i) = 1 /\
     set_Forall (fun k => child i k /\ is_history_type (type_of c k) = false) (completion_of c i)) /\
  (parallel i -> Forall (fun k => k ∈ completion_of c i <-> child i k /\ genuine k) (seq 0 n)) /\
  (is_pseudo_type (type_of c i) = true -> pseudo_shape i) /\
  (is_history_type (type_of c i) = true -> history_shape i) /\
  (masked c i = USCXML_STATE_INITIAL -> compound (parent_of c i) /\
     Forall (fun j => Forall (fun j' => source_of c j = i -> source_of c j' = i -> j = j') (seq 0 nt)) (seq 0 nt)).

(** A transition leaves all proper states below its domain, which is its
    source or above, for targets below the domain; or it has none. *)
Definition domain_of (j d : nat) : Prop :=
  compound d /\ (d = source_of c j \/ d ∈ ancestors_of c (source_of c j)) /\
  target_of c j <> ∅ /\ fragment d (target_of c j) /\
  Forall (fun k => k ∈ trans_set t_exitSet c j <-> d ∈ ancestors_of c k /\ genuine k) (seq 0 n).

Definition transition_shape (j : nat) : Prop :=
  match c_transitions c !! j with
  | Some t => pseudo_transition t = true \/ (target_of c j = ∅ /\ trans_set t_exitSet c j = ∅) \/
              Exists (domain_of j) (seq 0 n)
  | None => True
  end.

Definition chart_tree : Prop :=
  compound 0 /\ completion_of c 0 <> ∅ /\ fragment 0 (completion_of c 0) /\
  Forall state_shape (seq 0 n) /\ Forall transition_shape (seq 0 nt).

#[export] Instance child_dec p k : Decision (child p k).
Proof. unfold child. apply _. Defined.
#[export] Instance genuine_dec k : Decision (genuine k).
Proof. unfold genuine. apply _. Defined.
#[export] Instance compound_dec k : Decision (compound k).
Proof. unfold compound. apply _. Defined.
#[export] Instance parallel_dec k : Decision (parallel k).
Proof. unfold parallel. apply _. Defined.
#[export] Instance at_most_one_dec p Y : Decision (at_most_one p Y).
Proof. unfold at_most_one. apply _. Defined.
#[export] Instance history_alone_dec d T h : Decision (history_alone d T h).
Proof. unfold history_alone. apply _. Defined.
#[export] Instance fragment_dec d T : Decision (fragment d T).
Proof. unfold fragment. apply _. Defined.
#[export] Instance pseudo_shape_dec i : Decision (pseudo_shape i).
Proof. unfold pseudo_shape, default_target. apply _. Defined.
#[export] Instance history_shape_dec i : Decision (history_shape i).
Proof. unfold history_shape. apply _. Defined.
#[export] Instance state_shape_dec i : Decision (state_shape i).
Proof. unfold state_shape. apply _. Defined.
#[export] Instance transition_shape_dec j : Decision (transition_shape j).
Proof. unfold transition_shape, domain_of. destruct (_ !! j); apply _. Defined.
#[export] Instance chart_tree_dec : Decision chart_tree.
Proof. unfold chart_tree. apply _. Defined.

(** ** Complete configurations *)

(** The whole machine is inactive, or the root is active and every active
    compound state has exactly one active child. *)
Definition config_complete (Y : gset nat) : Prop :=
  Y = ∅ \/ (0 ∈ Y /\ forall p, p ∈ Y -> compound p -> exists! k, k ∈ Y /\ child p k).

(** What a history recorded is part of such a configuration. *)
Definition history_complete (hist : gset nat) : Prop :=
  forall i, i < n -> is_history_type (type_of c i) = true ->
    forall p, compound p -> at_most_one p (completion_of c i ∩ hist).

Record complete (ms : MicroState) : Prop := {
  complete_config : config_complete (_configuration ms);
  complete_history : history_complete (_history ms);
}.

End Shape.

(** ** Trees *)

Section Tree.
Context {node : Type} (c : Chart node) (WF : chart_wf c) (HR : chart_regular c).
Abbreviation n := (n_states c).
Abbreviation anc := (ancestors_of c).

Lemma anc_irrefl k : k ∉ anc k.
Proof. intros Hk%(wf_anc_lt c WF). lia. Qed.

Lemma anc_chain k a b : a ∈ anc k -> b ∈ anc k -> a = b \/ a ∈ anc b \/ b ∈ anc a.
Proof.
  revert a b. induction (lt_wf k) as [k _ IH]. intros a b Ha Hb.
  destruct (wf_parent c WF k a Ha) as [Hp Hpa], (wf_parent c WF k b Hb) as [_ Hpb].
  pose proof (wf_anc_lt c WF _ _ Hp) as Hlt.
  destruct Hpa as [->|Hpa], Hpb as [->|Hpb]; auto. by apply (IH (parent_of c k)).
Qed.

Lemma child_anc p k a : child c p k -> a ∈ anc k <-> a = p \/ a ∈ anc p.
Proof.
  intros [Hp Hpar]. split.
  - intros Ha. destruct (wf_parent c WF k a Ha) as [_ H]. by rewrite Hpar in H.
  - intros [->|Ha]; [done|]. by eapply (wf_anc_trans c WF).
Qed.

(** The state below [p] on the way to a descendant. *)
Lemma anc_child p k : p ∈ anc k -> exists k', child c p k' /\ (k' = k \/ k' ∈ anc k).
Proof.
  revert p. induction (lt_wf k) as [k _ IH]. intros p Hp.
  destruct (wf_parent c WF k p Hp) as [Hk [Hpp|Hpp]]; [exists k; split; [by split|by left]|].
  destruct (IH (parent_of c k) ltac:(by apply (wf_anc_lt c WF)) p Hpp) as (k' & Hc & Hk').
  exists k'. split; [done|]. right. destruct Hk' as [->|Hk']; [done|]. by eapply (wf_anc_trans c WF).
Qed.

(** Two children of [p] on one path are equal. *)
Lemma child_chain p k1 k2 k : child c p k1 -> child c p k2 ->
  (k1 = k \/ k1 ∈ anc k) -> (k2 = k \/ k2 ∈ anc k) -> k1 = k2.
Proof.
  intros H1 H2 Hk1 Hk2.
  assert (Hno : forall a b, child c p a -> child c p b -> a ∉ anc b).
  { intros a b [Ha _] Hb [->|Hab]%(child_anc p b a Hb); [by eapply anc_irrefl|].
    apply (wf_anc_lt c WF) in Ha, Hab. lia. }
  destruct Hk1 as [->|Hk1], Hk2 as [->|Hk2]; [done| | |].
  - by destruct (Hno k2 k).
  - by destruct (Hno k1 k).
  - destruct (anc_chain k k1 k2 Hk1 Hk2) as [?|[?|?]]; [done|by destruct (Hno k1 k2)|by destruct (Hno k2 k1)].
Qed.

Lemma child_range p k : child c p k -> k < n.
Proof. intros [Hk _]. by eapply ancestors_range. Qed.

Lemma anc_genuine k a : a ∈ anc k -> genuine c a.
Proof.
  intros Ha. pose proof (ancestors_range c k a Ha) as Hk.
  destruct (regular_at c HR k Hk) as (_ & Hp & _). by apply Hp.
Qed.

Lemma compound_range p : compound c p -> p < n.
Proof.
  unfold compound, masked, type_of. intros Hm. destruct (c_states c !! p) eqn:E; [|done].
  by apply lookup_lt_Some in E.
Qed.

Lemma compound_genuine p : compound c p -> genuine c p.
Proof. intros Hm. by apply (is_pseudo_masked c p USCXML_STATE_COMPOUND). Qed.
Lemma parallel_genuine p : parallel c p -> genuine c p.
Proof. intros Hm. by apply (is_pseudo_masked c p USCXML_STATE_PARALLEL). Qed.
Lemma compound_parallel p : compound c p -> parallel c p -> False.
Proof. unfold compound, parallel. intros -> ?. done. Qed.

Lemma at_most_one_subset p Y1 Y2 : Y1 ⊆ Y2 -> at_most_one c p Y2 -> at_most_one c p Y1.
Proof. intros HY H k1 H1 k2 H2. apply H; by apply HY. Qed.

Lemma closed_child Y p k : closed c Y -> k ∈ Y -> p ∈ anc k -> exists k', k' ∈ Y /\ child c p k'.
Proof.
  intros HY Hk Hp. destruct (anc_child p k Hp) as (k' & Hc & [->|Hk']); [by exists k|].
  exists k'. split; [by eapply HY|done].
Qed.

Lemma closure_elem T k : k ∈ with_ancestors c T <-> exists t, t ∈ T /\ (k = t \/ k ∈ anc t).
Proof.
  rewrite (with_ancestors_elem c WF). split.
  - intros [Hk|(t & Ht & Hk)]; [by exists k; auto|by exists t; auto].
  - intros (t & Ht & [->|Hk]); [by left|right; eauto].
Qed.

(** Relative to a state above or in a set of targets. *)
Lemma fragment_above d T k : fragment c d T -> k ∈ with_ancestors c T -> d ∈ anc k \/ k = d \/ k ∈ anc d.
Proof.
  intros [HT _] (t & Ht & Hk)%closure_elem. destruct (HT t Ht) as [Hd _].
  destruct Hk as [->|Hk]; [by left|]. destruct (anc_chain t k d Hk Hd) as [->|[?|?]]; auto.
Qed.

Lemma fragment_unique d T p : fragment c d T -> compound c p -> at_most_one c p (with_ancestors c T).
Proof.
  intros [_ HU] Hp. rewrite Forall_forall in HU. apply HU; [|done]. apply elem_of_seq.
  pose proof (compound_range p Hp). lia.
Qed.

End Tree.

(** ** Filling the entry set

    [A] is what stays active of [config] when [exits] are left; [F] relates the
    domains of the transitions taken to their targets. *)

Section Fill.
Context {node : Type} (c : Chart node) (WF : chart_wf c) (HR : chart_regular c) (HT : chart_tree c).
Abbreviation n := (n_states c).
Abbreviation nt := (n_transitions c).
Abbreviation anc := (ancestors_of c).
Context (config history exits targets : gset nat) (F : nat -> gset nat -> Prop).
Abbreviation A := (config ∖ exits).

(** What is known when the entry set is computed. *)
Record entry_situation : Prop := {
  en_closed : closed c A;
  en_config : closed c config;
  en_parallel : parallel_complete c config;
  en_parallel_kept : parallel_complete c A;
  en_complete : config_complete c config;
  en_history : history_closed c history;
  en_history_one : history_complete c history;
  en_exits : exits ⊆ config;
  en_recorded h : h < n -> is_history_type (type_of c h) = true -> parent_of c h ∈ config ->
    parent_of c h ∈ exits -> completion_of c h ∩ history = completion_of c h ∩ config;
  en_genuine k : k ∈ config -> genuine c k;
  en_range k : k ∈ config -> k < n;
  en_exits_up k a : k ∈ config -> a ∈ anc k -> a ∈ exits -> k ∈ exits;
  en_targets k : k ∈ targets <-> exists d T, F d T /\ k ∈ T;
  en_fragment d T : F d T -> fragment c d T;
  en_nonempty d T : F d T -> T <> ∅;
  en_separate d T d' T' k : F d T -> F d' T' -> d ∈ anc k -> d' ∈ anc k -> d = d' /\ T = T';
  en_fresh d T k : F d T -> d ∈ anc k -> k ∉ A;
  en_domain d T k : F d T -> k = d \/ k ∈ anc d -> k ∈ A \/ k = 0;
  en_exited x : x ∈ config -> x ∈ exits -> exists d T, F d T /\ d ∈ anc x;
}.
Context (EN : entry_situation).

Lemma shape_at i : i < n -> state_shape c i.
Proof.
  intros Hi. destruct HT as (_ & _ & _ & Hs & _). rewrite Forall_forall in Hs. apply Hs, elem_of_seq. lia.
Qed.

(** [q] waits to be replaced by states below its parent. *)
Definition pending (E : gset nat) (q : nat) : Prop :=
  parent_of c q ∉ A /\ forall k, k ∈ E -> parent_of c q ∈ anc k -> k <> q ->
    parallel c (parent_of c q) /\ child c (parent_of c q) k /\ genuine c k.

Record filling (i : nat) (E : gset nat) : Prop := {
  f_closed : closed c E;
  f_targets : targets ⊆ E;
  f_some k : k ∈ E -> targets <> ∅;
  f_pending q : q ∈ E -> q < n -> is_pseudo_type (type_of c q) = true -> i <= q -> pending E q;
  f_unique p : compound c p -> at_most_one c p (E ∪ A);
  f_exists p : p ∈ E -> p < i -> compound c p ->
    exists k, k ∈ E ∪ A /\ child c p k /\ (genuine c k \/ i <= k);
}.

(** *** The targets and their ancestors *)

Lemma entry_elem k : k ∈ with_ancestors c targets <-> exists d T, F d T /\ k ∈ with_ancestors c T.
Proof.
  rewrite (closure_elem c WF). setoid_rewrite (closure_elem c WF). split.
  - intros (t & (d & T & HF & Ht)%(en_targets EN) & Hk). eauto 6.
  - intros (d & T & HF & t & Ht & Hk). exists t. split; [apply (en_targets EN)|]; eauto.
Qed.

Lemma entry_class k : k ∈ with_ancestors c targets ->
  k ∈ A \/ k = 0 \/ exists d T, F d T /\ k ∈ with_ancestors c T /\ d ∈ anc k.
Proof.
  intros (d & T & HF & Hk)%entry_elem.
  destruct (fragment_above c WF d T k (en_fragment EN d T HF) Hk) as [?|Hd]; [eauto 7|].
  destruct (en_domain EN d T k HF Hd); auto.
Qed.

Lemma fresh_genuine d T x : F d T -> d ∈ anc x -> x ∉ A.
Proof. apply (en_fresh EN). Qed.

Lemma entry_unique p : compound c p -> at_most_one c p (with_ancestors c targets ∪ A).
Proof.
  intros Hp.
  assert (HA : at_most_one c p A).
  { intros k1 [Hk1 _]%elem_of_difference k2 [Hk2 _]%elem_of_difference [Hc1 _] [Hc2 _].
    destruct (en_complete EN) as [->|[_ Hone]]; [by apply elem_of_empty in Hk1|].
    assert (Hpc : p ∈ config) by (apply (en_config EN k1); [done|apply Hc1]).
    destruct (Hone p Hpc Hp) as (k & _ & Hu). transitivity k; [symmetry|]; by apply Hu. }
  assert (Hbelow : forall k1 k2, k1 ∈ A -> child c p k1 -> child c p k2 ->
    forall d T, F d T -> k2 ∈ with_ancestors c T -> d ∈ anc k2 -> False).
  { intros k1 k2 Hk1 Hc1 Hc2 d T HF Hk2 Hd.
    apply (child_anc c WF p k2 d Hc2) in Hd. apply (en_fresh EN d T k1 HF); [|done].
    by apply (child_anc c WF p k1 d Hc1). }
  assert (Hzero : forall k, child c p k -> k <> 0).
  { intros k [Hk _] ->. apply (wf_anc_lt c WF) in Hk. lia. }
  intros k1 Hk1 k2 Hk2 Hg1 Hg2. pose proof (proj1 Hg1) as Hc1. pose proof (proj1 Hg2) as Hc2.
  assert (Hcl : forall k, k ∈ with_ancestors c targets ∪ A -> child c p k ->
    k ∈ A \/ exists d T, F d T /\ k ∈ with_ancestors c T /\ d ∈ anc k).
  { intros k [Hk|Hk]%elem_of_union Hck; [|by left]. apply entry_class in Hk as [?|[->|?]]; auto.
    by destruct (Hzero 0). }
  apply Hcl in Hk1; [|done]. apply Hcl in Hk2; [|done].
  destruct Hk1 as [Hk1|(d1 & T1 & HF1 & Hk1 & Hd1)], Hk2 as [Hk2|(d2 & T2 & HF2 & Hk2 & Hd2)].
  - by apply HA.
  - by destruct (Hbelow k1 k2 Hk1 Hc1 Hc2 d2 T2).
  - by destruct (Hbelow k2 k1 Hk2 Hc2 Hc1 d1 T1).
  - apply (child_anc c WF p k1 d1 Hc1) in Hd1. apply (child_anc c WF p k1 d1 Hc1) in Hd1 as Hd1'.
    apply (child_anc c WF p k2 d2 Hc2) in Hd2. apply (child_anc c WF p k1 d2 Hc1) in Hd2 as Hd2'.
    destruct (en_separate EN d1 T1 d2 T2 k1 HF1 HF2 Hd1' Hd2') as [<- <-].
    by apply (fragment_unique c d1 T1 p (en_fragment EN d1 T1 HF1) Hp).
Qed.

(** A history among the targets waits. *)
Lemma target_pseudo q : q ∈ with_ancestors c targets -> is_pseudo_type (type_of c q) = true ->
  exists d T, F d T /\ q ∈ T /\ history_alone c d T q.
Proof.
  intros Hq Hps. apply (closure_elem c WF) in Hq as (t & Ht & Hq).
  destruct Hq as [->|Hq]; [|apply (anc_genuine c HR) in Hq; unfold genuine in Hq; congruence].
  apply (en_targets EN) in Ht as (d & T & HF & Ht). exists d, T. split_and!; [done..|].
  destruct (en_fragment EN d T HF) as [Hf _]. destruct (Hf t Ht) as [_ [Hg|Ha]]; [|done].
  unfold genuine in Hg. congruence.
Qed.

Lemma target_pending q : q ∈ with_ancestors c targets -> is_pseudo_type (type_of c q) = true ->
  pending (with_ancestors c targets) q.
Proof.
  intros Hq Hps. destruct (target_pseudo q Hq Hps) as (d & T & HF & HqT & _ & Hpar & Hd & Halone).
  assert (Hdq : d ∈ anc q) by by eapply (wf_anc_trans c WF).
  split; [by apply (en_fresh EN d T)|].
  intros k Hk Hpk Hne. exfalso.
  apply (closure_elem c WF) in Hk as (t & (d' & T' & HF' & Ht)%(en_targets EN) & Hk).
  assert (Hpt : parent_of c q ∈ anc t) by (destruct Hk as [->|Hk]; [done|by eapply (wf_anc_trans c WF)]).
  destruct (en_fragment EN d' T' HF') as [Hf _]. destruct (Hf t Ht) as [Hd' _].
  assert (Hdt : d ∈ anc t) by (by apply (wf_anc_trans c WF t (parent_of c q))).
  destruct (en_separate EN d T d' T' t HF HF' Hdt Hd') as [<- <-].
  assert (t = q) as -> by by apply (Halone t).
  destruct Hk as [->|Hk]; [done|]. destruct (wf_parent c WF q k Hk) as [_ [->|Hk']].
  - by apply (anc_irrefl c WF) in Hpk.
  - apply (wf_anc_lt c WF) in Hpk, Hk'. lia.
Qed.

Lemma filling_start : filling 0 (with_ancestors c targets).
Proof.
  split.
  - apply (with_ancestors_closed c WF).
  - intros k Hk. apply (closure_elem c WF). by exists k; split; [|left].
  - intros k (t & Ht & _)%(closure_elem c WF) He. rewrite He in Ht. by apply elem_of_empty in Ht.
  - intros q Hq _ Hps _. by apply target_pending.
  - apply entry_unique.
  - lia.
Qed.

(** *** One more state of the scan *)

(** [E'] extends [E] below [b], which is entered. *)
Record extends (i b : nat) (E E' : gset nat) : Prop := {
  ex_grows : grows c i E E';
  ex_self : i ∈ E' \/ masked c i = USCXML_STATE_INITIAL;
  ex_fresh : b ∉ A;
  ex_below k : k ∈ E' -> k ∉ E -> b ∈ anc k;
  ex_unique p : compound c p -> p = b \/ b ∈ anc p -> at_most_one c p E';
  ex_pending_new q : q ∈ E' -> q ∉ E -> is_pseudo_type (type_of c q) = true -> pending E' q;
  ex_pending_old q k : q ∈ E -> q < n -> is_pseudo_type (type_of c q) = true -> i < q ->
    k ∈ E' -> k ∉ E -> parent_of c q ∈ anc k ->
    parallel c (parent_of c q) /\ child c (parent_of c q) k /\ genuine c k;
  ex_exists p : compound c p -> p = i \/ (is_pseudo_type (type_of c i) = true /\ p = parent_of c i) ->
    exists k, k ∈ E' ∪ A /\ child c p k /\ (genuine c k \/ i < k);
}.

Lemma fresh_below b k : b ∉ A -> b ∈ anc k -> k ∉ A.
Proof. intros Hb Hk HkA. apply Hb. by apply (en_closed EN k). Qed.

Lemma pending_extend i b E E' q : extends i b E E' -> i ∈ E -> q ∈ E -> q < n ->
  is_pseudo_type (type_of c q) = true -> i < q -> pending E q -> pending E' q.
Proof.
  intros HX Hi Hq Hqn Hps Hlt [Hp Hk]. split; [done|]. intros k Hk' Hpk Hne.
  destruct (decide (k ∈ E)) as [HkE|HkE]; [by apply Hk|]. by eapply (ex_pending_old _ _ _ _ HX).
Qed.

Lemma unique_extend i b E E' p : extends i b E E' -> i ∈ E -> compound c p ->
  at_most_one c p (E ∪ A) -> at_most_one c p (E' ∪ A).
Proof.
  intros HX Hi Hp HU k1 Hk1 k2 Hk2 Hg1 Hg2.
  destruct (decide (p = b \/ b ∈ anc p)) as [Hb|Hb].
  - assert (Hin : forall k, k ∈ E' ∪ A -> child c p k -> k ∈ E').
    { intros k [Hk|Hk]%elem_of_union Hc; [done|]. exfalso.
      apply (fresh_below b k (ex_fresh _ _ _ _ HX)); [|done]. apply (child_anc c WF p k b Hc).
      destruct Hb; auto. }
    apply (ex_unique _ _ _ _ HX p Hp Hb); [apply Hin; [done|apply Hg1]|apply Hin; [done|apply Hg2]|done|done].
  - assert (Hin : forall k, k ∈ E' ∪ A -> child c p k -> k ∈ E ∪ A).
    { intros k [Hk|Hk]%elem_of_union Hc; [|by apply elem_of_union; right].
      destruct (decide (k ∈ E)) as [HkE|HkE]; [by apply elem_of_union; left|]. exfalso.
      apply Hb. pose proof (ex_below _ _ _ _ HX k Hk HkE) as Hbk.
      apply (child_anc c WF p k b Hc) in Hbk. destruct Hbk; auto. }
    apply HU; [apply Hin; [done|apply Hg1]|apply Hin; [done|apply Hg2]|done|done].
Qed.

Lemma target_not_initial q : q ∈ targets -> masked c q <> USCXML_STATE_INITIAL.
Proof.
  intros Ht Hm. assert (Hps : is_pseudo_type (type_of c q) = true).
  { unfold is_pseudo_type. apply orb_true_iff. right. by apply Z.eqb_eq. }
  destruct (target_pseudo q) as (d & T & _ & _ & Hh & _); [apply (closure_elem c WF); by exists q; split; [|left]|done|].
  rewrite <- type_masked_history, Hm in Hh. done.
Qed.

Lemma filling_extend i b E E' : i < n -> i ∈ E -> filling i E -> extends i b E E' -> filling (S i) E'.
Proof.
  intros Hi Hin HF HX. pose proof (ex_grows _ _ _ _ HX) as HG.
  assert (Hkeep : forall k, k ∈ E -> k = i \/ k ∈ E').
  { intros k Hk. destruct (decide (k = i)); [by left|right]. by apply (grows_keep _ _ _ _ HG). }
  split.
  - apply HG.
  - intros k Hk. destruct (Hkeep k (f_targets _ _ HF k Hk)) as [->|]; [|done].
    destruct (ex_self _ _ _ _ HX) as [|Hm]; [done|]. by apply target_not_initial in Hk.
  - intros _ _. by apply (f_some _ _ HF i).
  - intros q Hq Hqn Hps Hlt. destruct (decide (q ∈ E)) as [HqE|HqE].
    + eapply pending_extend; eauto. apply (f_pending _ _ HF q HqE Hqn Hps). lia.
    + by apply (ex_pending_new _ _ _ _ HX).
  - intros p Hp. eapply unique_extend; eauto. by apply (f_unique _ _ HF).
  - intros p Hp Hlt Hcp.
    assert (Hold : p ∈ E). { destruct (grows_new _ _ _ _ HG p Hp); [done|lia]. }
    destruct (decide (p = i)) as [->|Hne]; [by apply (ex_exists _ _ _ _ HX); auto|].
    destruct (f_exists _ _ HF p Hold ltac:(lia) Hcp) as (k & Hk & Hc & Hgk).
    destruct (decide (k = i)) as [->|Hki].
    + destruct (is_pseudo_type (type_of c i)) eqn:Hps.
      * destruct Hc as [_ <-]. apply (ex_exists _ _ _ _ HX); auto.
      * exists i. split_and!; [|done|by left]. apply elem_of_union. left. by apply (grows_self _ _ _ _ HG).
    + exists k. split_and!; [|done|destruct Hgk; [by left|right; lia]].
      apply elem_of_union in Hk as [Hk|Hk]; apply elem_of_union; [left|by right].
      by destruct (Hkeep k Hk).
Qed.

(** Nothing is added. *)
Lemma filling_skip i E : filling i E -> (i ∈ E -> genuine c i) ->
  (i ∈ E -> compound c i -> exists k, k ∈ E ∪ A /\ child c i k /\ (genuine c k \/ i < k)) -> filling (S i) E.
Proof.
  intros HF Hg Hex. split; try apply HF.
  - intros q Hq Hn Hps Hlt. apply (f_pending _ _ HF q Hq Hn Hps). lia.
  - intros p Hp Hlt Hcp. destruct (decide (p = i)) as [->|Hne]; [by apply Hex|].
    destruct (f_exists _ _ HF p Hp ltac:(lia) Hcp) as (k & Hk & Hc & Hgk). exists k. split_and!; [done..|].
    destruct Hgk as [?|Hle]; [by left|]. destruct (decide (k = i)) as [->|]; [|right; lia].
    apply elem_of_union in Hk as [Hk|[Hk _]%elem_of_difference]; left; [by apply Hg|].
    by apply (en_genuine EN).
Qed.

(** Everything that is added stays active anyway. *)
Lemma filling_kept i E E' : i ∈ E -> filling i E -> ~ compound c i -> genuine c i -> grows c i E E' ->
  (forall k, k ∈ E' -> k ∈ E \/ k ∈ A) -> E ⊆ E' -> filling (S i) E'.
Proof.
  intros Hin HF Hni Hgi HG Hnew Hsub.
  assert (HA : forall k, k ∈ A -> genuine c k) by (intros k [Hk _]%elem_of_difference; by apply (en_genuine EN)).
  split.
  - apply HG.
  - intros k Hk. by apply Hsub, (f_targets _ _ HF).
  - intros _ _. by apply (f_some _ _ HF i).
  - intros q Hq Hqn Hps Hlt. destruct (Hnew q Hq) as [HqE|HqA].
    2:{ apply HA in HqA. unfold genuine in HqA. congruence. }
    destruct (f_pending _ _ HF q HqE Hqn Hps ltac:(lia)) as [Hp Hk]. split; [done|].
    intros k Hk' Hpk Hne. destruct (Hnew k Hk') as [HkE|HkA]; [by apply Hk|].
    by destruct (fresh_below _ k Hp Hpk).
  - intros p Hp. apply (at_most_one_subset c p _ (E ∪ A)); [|by apply (f_unique _ _ HF)].
    intros k [Hk|Hk]%elem_of_union; apply elem_of_union; [by apply Hnew|by right].
  - intros p Hp Hlt Hcp. destruct (decide (p = i)) as [->|Hne]; [done|].
    destruct (grows_new _ _ _ _ HG p Hp) as [HpE|]; [|lia].
    destruct (f_exists _ _ HF p HpE ltac:(lia) Hcp) as (k & Hk & Hc & Hgk).
    exists k. split_and!; [|done|].
    + apply elem_of_union in Hk as [Hk|Hk]; apply elem_of_union; [left; by apply Hsub|by right].
    + destruct Hgk as [?|Hle]; [by left|]. destruct (decide (k = i)) as [->|]; [by left|right; lia].
Qed.

(** A waiting pseudo state precedes the proper states below its parent. *)
Lemma pseudo_before q k : q < n -> is_pseudo_type (type_of c q) = true -> parent_of c q ∈ anc k ->
  genuine c k -> q < k.
Proof.
  intros Hq Hps Hk Hg. destruct (shape_at q Hq) as (_ & _ & _ & Hsh & _).
  destruct (Hsh Hps) as (_ & _ & Hlt & _). rewrite Forall_forall in Hlt. apply Hlt; [|done|done].
  apply elem_of_seq. pose proof (ancestors_range c k _ Hk). lia.
Qed.

Lemma pseudo_parent q : q < n -> is_pseudo_type (type_of c q) = true -> parent_of c q ∈ anc q.
Proof. intros Hq Hps. destruct (shape_at q Hq) as (_ & _ & _ & Hsh & _). by destruct (Hsh Hps). Qed.

(** A child of [i] below the parent of a waiting state: that parent is [i]. *)
Lemma pending_parent i k q : q < n -> is_pseudo_type (type_of c q) = true -> genuine c i -> i < q ->
  child c i k -> parent_of c q ∈ anc k -> parent_of c q = i.
Proof.
  intros Hq Hps Hg Hlt Hc Hp. apply (child_anc c WF i k _ Hc) in Hp as [?|Hp]; [done|].
  pose proof (pseudo_before q i Hq Hps Hp Hg). lia.
Qed.

Lemma fill_parallel i E : i < n -> i ∈ E -> parallel c i -> grows c i E (E ∪ completion_of c i) ->
  filling i E -> filling (S i) (E ∪ completion_of c i).
Proof.
  intros Hi Hin Hp HG HF. destruct (shape_at i Hi) as (_ & _ & Hpar & _). specialize (Hpar Hp).
  rewrite Forall_forall in Hpar.
  assert (Hco : forall k, k ∈ completion_of c i -> child c i k /\ genuine c k).
  { intros k Hk. apply Hpar; [|done]. apply elem_of_seq. pose proof (completion_range c WF i k Hk). lia. }
  pose proof (parallel_genuine c i Hp) as Hg.
  assert (Hnc : ~ compound c i) by (intros Hc; by eapply compound_parallel).
  destruct (decide (i ∈ A)) as [HiA|HiA].
  { apply (filling_kept i E); [done..| |set_solver].
    intros k [Hk|Hk]%elem_of_union; [by left|right]. by apply (en_parallel_kept EN i HiA Hp). }
  apply (filling_extend i i E); [done..|]. split; [done| |done| | | | |].
  - left. set_solver.
  - intros k [Hk|Hk]%elem_of_union HkE; [done|]. by apply Hco.
  - intros p Hcp Hpi.
    assert (Hold : forall k, k ∈ E ∪ completion_of c i -> child c p k -> k ∈ E ∪ A).
    { intros k [Hk|Hk]%elem_of_union Hck; apply elem_of_union; [by left|]. exfalso. apply Hnc.
      destruct (Hco k Hk) as [[_ <-] _]. by destruct Hck as [_ ->]. }
    intros k1 H1 k2 H2 Hg1 Hg2.
    apply (f_unique _ _ HF p Hcp); [apply Hold; [done|apply Hg1]|apply Hold; [done|apply Hg2]|done|done].
  - intros q [Hq|Hq]%elem_of_union Hq' Hps; [done|]. apply Hco in Hq as [_ Hgq]. unfold genuine in Hgq. congruence.
  - intros q k Hq Hqn Hps Hlt [Hk|Hk]%elem_of_union HkE Hpk; [done|]. destruct (Hco k Hk) as [Hck Hgk].
    pose proof (pending_parent i k q Hqn Hps Hg Hlt Hck Hpk) as ->. done.
  - intros p Hcp [->|[Hps _]]; [done|]. unfold genuine in Hg. congruence.
Qed.

(** *** Compound states *)

Lemma descendants_spec i Y : BIT_HAS_AND Y (children_of c i) = true <-> exists k, k ∈ Y /\ i ∈ anc k.
Proof.
  rewrite BIT_HAS_AND_spec. by setoid_rewrite (wf_children c WF).
Qed.

Lemma descendants_none i Y : BIT_HAS_AND Y (children_of c i) = false <-> forall k, k ∈ Y -> i ∉ anc k.
Proof.
  rewrite <- not_true_iff_false, descendants_spec. naive_solver.
Qed.

(** A compound state that is active has an active child. *)
Lemma config_child i : i ∈ config -> compound c i -> exists k, k ∈ config /\ child c i k.
Proof.
  intros Hi Hc. destruct (en_complete EN) as [He|[_ Hone]]; [by rewrite He in Hi|].
  destruct (Hone i Hi Hc) as (k & [Hk Hck] & _). eauto.
Qed.

(** Either a kept compound state keeps its child, or it gets another. *)
Lemma kept_or_targeted j i E : filling j E -> i ∈ A ->
  (exists x, x ∈ exits /\ i ∈ anc x) -> exists k, k ∈ E /\ i ∈ anc k.
Proof.
  intros HF HiA (x & Hx & Hix).
  destruct (en_exited EN x (en_exits EN x Hx) Hx) as (d & T & HFd & Hd).
  pose proof (en_nonempty EN d T HFd) as (t & Ht)%set_choose_L.
  destruct (en_fragment EN d T HFd) as [Hf _]. destruct (Hf t Ht) as [Hdt _].
  exists t. split; [apply (f_targets _ _ HF), (en_targets EN); eauto|].
  destruct (anc_chain c WF x i d Hix Hd) as [->|[Hid|Hdi]]; [done| |].
  - by apply (wf_anc_trans c WF t d).
  - by destruct (en_fresh EN d T i HFd Hdi).
Qed.

Lemma compound_skipped i E : i < n -> i ∈ E -> compound c i -> filling i E ->
  (exists k, k ∈ E /\ i ∈ anc k) \/
    ((exists k, k ∈ config /\ i ∈ anc k) /\ forall k, k ∈ exits -> i ∉ anc k) ->
  filling (S i) E.
Proof.
  intros Hi Hin Hc HF Hcase. apply filling_skip; [done|intros _; by apply (compound_genuine c)|].
  intros _ _. destruct Hcase as [(k & Hk & Hik)|[(k & Hk & Hik) Hno]].
  - destruct (closed_child c WF E i k (f_closed _ _ HF) Hk Hik) as (k' & Hk' & Hck).
    exists k'. split_and!; [by apply elem_of_union; left|done|]. right. apply (wf_anc_lt c WF), Hck.
  - destruct (config_child i (en_config EN k i Hk Hik) Hc) as (k' & Hk' & Hck).
    exists k'. split_and!; [|done|left; by apply (en_genuine EN)].
    apply elem_of_union. right. apply elem_of_difference. split; [done|]. intros He%Hno. by destruct Hck.
Qed.

Lemma compound_completed i E k : i < n -> i ∈ E -> compound c i -> child c i k -> i ∉ A ->
  (forall x, x ∈ E -> i ∉ anc x) -> grows c i E (E ∪ {[k]}) -> filling i E -> filling (S i) (E ∪ {[k]}).
Proof.
  intros Hi Hin Hc Hck HiA Hno HG HF. pose proof (compound_genuine c i Hc) as Hg.
  assert (Hnew : forall x, x ∈ E ∪ {[k]} -> i ∈ anc x -> x = k).
  { intros x [Hx|Hx%elem_of_singleton]%elem_of_union Hix; [|done]. by destruct (Hno x Hx). }
  apply (filling_extend i i E); [done..|]. split; [done| |done| | | | |].
  - left. set_solver.
  - intros x [Hx| ->%elem_of_singleton]%elem_of_union HxE; [done|apply Hck].
  - intros p Hcp Hpi k1 H1 k2 H2 [Hc1 _] [Hc2 _].
    assert (Hx : forall x, x ∈ E ∪ {[k]} -> child c p x -> x = k).
    { intros x Hx Hcx. apply Hnew; [done|]. apply (child_anc c WF p x i Hcx). destruct Hpi; auto. }
    by rewrite (Hx k1 H1 Hc1), (Hx k2 H2 Hc2).
  - intros q [Hq| ->%elem_of_singleton]%elem_of_union Hq' Hps; [done|]. unfold pending.
    destruct Hck as [Hik ->]. split; [done|]. intros x Hx Hix Hne. by destruct Hne; apply Hnew.
  - intros q x Hq Hqn Hps Hlt Hx HxE Hpx. exfalso.
    assert (x = k) as -> by (apply elem_of_union in Hx as [|?%elem_of_singleton]; done).
    pose proof (pending_parent i k q Hqn Hps Hg Hlt Hck Hpx) as Hpi.
    apply (Hno q Hq). rewrite <- Hpi. by apply pseudo_parent.
  - intros p Hcp Hpi. exists k. assert (p = i) as ->.
    { destruct Hpi as [?|[Hps _]]; [done|]. unfold genuine in Hg. congruence. }
    split_and!; [set_solver|done|right; apply (wf_anc_lt c WF), Hck].
Qed.

Lemma fill_compound i E : i < n -> i ∈ E -> compound c i -> filling i E ->
  grows c i E (complete_compound c config exits i E) -> filling (S i) (complete_compound c config exits i E).
Proof.
  intros Hi Hin Hc HF. unfold complete_compound.
  destruct (BIT_HAS_AND E (children_of c i)) eqn:HE; cbn [negb andb].
  { intros _. apply compound_skipped; [done..|]. left. by apply descendants_spec. }
  pose proof (proj1 (descendants_none i E) HE) as Hno.
  destruct (_ || _) eqn:Hx.
  2:{ intros _. apply orb_false_iff in Hx as [Hcf Hex]. apply compound_skipped; [done..|]. right.
      split; [by apply descendants_spec, negb_false_iff|by apply descendants_none]. }
  assert (HiA : i ∉ A).
  { intros HiA. pose proof HiA as [Hic _]%elem_of_difference.
    destruct (config_child i Hic Hc) as (k & Hk & [Hik _]).
    assert (Hcf : BIT_HAS_AND config (children_of c i) = true) by (apply descendants_spec; eauto).
    rewrite Hcf in Hx. cbn [negb orb] in Hx. apply descendants_spec in Hx.
    destruct (kept_or_targeted i i E HF HiA Hx) as (x & HxE & Hix). by apply (Hno x). }
  assert (Hi0 : i <> 0).
  { intros ->. pose proof (f_some _ _ HF 0 Hin) as (t & Ht)%set_choose_L.
    apply (Hno t); [by apply (f_targets _ _ HF)|].
    apply (en_targets EN) in Ht as (d & T & HFd & Ht). destruct (en_fragment EN d T HFd) as [Hf _].
    destruct (Hf t Ht) as [Hdt _]. pose proof (ancestors_range c t d Hdt) as Htn.
    apply (wf_anc_lt c WF) in Hdt. destruct (shape_at t Htn) as (H0 & _). apply H0. lia. }
  destruct (shape_at i Hi) as (_ & Hsh & _). destruct (Hsh Hc Hi0) as [Hsz Hch].
  apply size_1_elem_of in Hsz as (k & Hk%leibniz_equiv). rewrite Hk in *.
  destruct (Hch k ltac:(by apply elem_of_singleton)) as [Hck _].
  assert (Hd : BIT_HAS_AND {[k]} (children_of c i) = true).
  { apply descendants_spec. exists k. split; [by apply elem_of_singleton|apply Hck]. }
  rewrite Hd. cbn [negb]. intros HG. by apply compound_completed.
Qed.

(** *** Pseudo states *)

(** A waiting state is replaced by states below its parent [b]. *)
Lemma replace_extends i E E' (b := parent_of c i) : i < n -> i ∈ E -> is_pseudo_type (type_of c i) = true ->
  filling i E -> grows c i E E' -> i ∈ E' \/ masked c i = USCXML_STATE_INITIAL ->
  (forall k, k ∈ E' -> k ∉ E -> b ∈ anc k /\ genuine c k) ->
  (forall p, compound c p -> at_most_one c p (E' ∖ E)) ->
  (compound c b -> exists k, k ∈ E' /\ child c b k /\ genuine c k) -> extends i b E E'.
Proof.
  intros Hi Hin Hps HF HG Hself Hnew Hone Hex.
  destruct (f_pending _ _ HF i Hin Hi Hps ltac:(lia)) as [Hfresh Hpend]. fold b in Hfresh, Hpend.
  assert (Hps_g : forall k, genuine c k -> k <> i) by (intros k Hk ->; unfold genuine in Hk; congruence).
  split; [done|done|done| | | | |].
  - intros k Hk HkE. by apply Hnew.
  - intros p Hcp Hpb k1 H1 k2 H2 Hg1 Hg2.
    assert (Hno : forall k, k ∈ E' -> child c p k /\ genuine c k -> k ∈ E' ∖ E).
    { intros k Hk [Hck Hgk]. apply elem_of_difference. split; [done|]. intros HkE.
      assert (Hbk : b ∈ anc k) by (apply (child_anc c WF p k b Hck); destruct Hpb; auto).
      destruct (Hpend k HkE Hbk (Hps_g k Hgk)) as (Hpar & [_ Hcb] & _).
      destruct Hck as [_ Hcp']. rewrite Hcp' in Hcb. rewrite Hcb in Hcp.
      by apply (compound_parallel c b). }
    apply (Hone p Hcp); [by apply Hno..|done|done].
  - intros q Hq HqE Hqp. destruct (Hnew q Hq HqE) as [_ Hg]. unfold genuine in Hg. congruence.
  - intros q k Hq Hqn Hqp Hlt Hk HkE Hpk. exfalso. destruct (Hnew k Hk HkE) as [Hbk Hgk].
    destruct (f_pending _ _ HF q Hq Hqn Hqp ltac:(lia)) as [_ Hqpend].
    pose proof (pseudo_parent i Hi Hps) as Hbi. fold b in Hbi. pose proof (pseudo_parent q Hqn Hqp) as Hpq.
    assert (H1 : parent_of c q ∉ anc i).
    { intros Ha. destruct (Hqpend i Hin Ha ltac:(lia)) as (_ & _ & Hg). by apply Hps_g in Hg. }
    assert (H2 : b ∉ anc q).
    { intros Ha. destruct (Hpend q Hq Ha ltac:(lia)) as (_ & _ & Hg). unfold genuine in Hg. congruence. }
    destruct (anc_chain c WF k b (parent_of c q) Hbk Hpk) as [Heq|[Hb|Hq']].
    + by rewrite Heq in H2.
    + apply H2. by apply (wf_anc_trans c WF q (parent_of c q)).
    + apply H1. by apply (wf_anc_trans c WF i b).
  - intros p Hcp [->|[_ ->]].
    + apply (compound_genuine c) in Hcp. by apply Hps_g in Hcp.
    + destruct (Hex Hcp) as (k & Hk & Hck & Hgk). exists k. split_and!; [by apply elem_of_union; left|done|by left].
Qed.

Lemma genuine_on_path k p k' : genuine c k -> child c p k' -> k' = k \/ k' ∈ anc k -> genuine c k'.
Proof. intros Hg _ [->|Hk]; [done|by eapply (anc_genuine c HR)]. Qed.

Lemma default_of i j : i < n -> is_pseudo_type (type_of c i) = true -> source_of c j = i -> j < nt ->
  default_target c i j.
Proof.
  intros Hi Hps Hj Hjn. destruct (shape_at i Hi) as (_ & _ & _ & Hsh & _).
  destruct (Hsh Hps) as (_ & _ & _ & _ & Hd). rewrite Forall_forall in Hd. apply Hd; [|done].
  apply elem_of_seq. lia.
Qed.

(** Replacing by default targets and their ancestors. *)
Lemma default_extends i j E E' : i < n -> i ∈ E -> is_pseudo_type (type_of c i) = true ->
  filling i E -> grows c i E E' -> i ∈ E' \/ masked c i = USCXML_STATE_INITIAL ->
  source_of c j = i -> j < nt -> target_of c j ⊆ E' ->
  (forall k, k ∈ E' -> k ∈ E \/ k ∈ with_ancestors c (target_of c j)) -> extends i (parent_of c i) E E'.
Proof.
  intros Hi Hin Hps HF HG Hself Hj Hjn Hsub Hnew.
  destruct (default_of i j Hi Hps Hj Hjn) as (Hfr & Hne & Hgen).
  pose proof (pseudo_parent i Hi Hps) as Hbi.
  apply replace_extends; [done..| | |].
  - intros k Hk HkE. destruct (Hnew k Hk) as [|Hkt]; [done|]. split.
    + destruct (fragment_above c WF _ _ k Hfr Hkt) as [?|[->|Hka]]; [done| |]; exfalso; apply HkE.
      * by apply (f_closed _ _ HF i).
      * apply (f_closed _ _ HF i); [done|]. by apply (wf_anc_trans c WF i (parent_of c i)).
    + apply (closure_elem c WF) in Hkt as (t & Ht & [->|Hka]); [by apply Hgen|by eapply (anc_genuine c HR)].
  - intros p Hcp. apply (at_most_one_subset c p _ (with_ancestors c (target_of c j))).
    + intros k [Hk HkE]%elem_of_difference. by destruct (Hnew k Hk).
    + by apply (fragment_unique c _ _ p Hfr).
  - intros _. apply set_choose_L in Hne as (t & Ht). destruct Hfr as [Hf _]. destruct (Hf t Ht) as [Hbt _].
    destruct (anc_child c WF _ t Hbt) as (k & Hck & Hk). exists k. split_and!; [|done|].
    + destruct Hk as [->|Hk]; [by apply Hsub|]. apply (grows_closed _ _ _ _ HG t); [by apply Hsub|done].
    + eapply genuine_on_path; [|done..]. by apply Hgen.
Qed.

Lemma default_history_spec i E T : i < n -> is_history_type (type_of c i) = true ->
  exists j, source_of c j = i /\ j < nt /\ target_of c j ⊆ fst (default_history c i (E, T)) /\
    E ⊆ fst (default_history c i (E, T)) /\
    forall k, k ∈ fst (default_history c i (E, T)) -> k ∈ E \/ k ∈ with_ancestors c (target_of c j).
Proof.
  intros Hi Hh. assert (Hps : is_pseudo_type (type_of c i) = true) by (unfold is_pseudo_type; by rewrite Hh).
  unfold default_history. destruct (List.find _ (seq 0 nt)) as [j|] eqn:Hf.
  2:{ exfalso. destruct (shape_at i Hi) as (_ & _ & _ & Hsh & _). destruct (Hsh Hps) as (_ & _ & _ & He & _).
      apply Exists_exists in He as (j & Hj & Hs). eapply List.find_none with (x := j) in Hf.
      - by apply Nat.eqb_neq in Hf.
      - by apply list_elem_of_In. }
  apply List.find_some in Hf as (Hj & Hs). apply in_seq in Hj. apply Nat.eqb_eq in Hs.
  exists j. cbn [fst].
  assert (Hcl : forall k, k ∈ target_of c j -> k ∈ with_ancestors c (target_of c j)).
  { intros k Hk. apply (closure_elem c WF). exists k. auto. }
  destruct (_ && _); [destruct (List.find _ (seq (i + 1) _)) as [k|] eqn:Hf|]; split_and!; try done; try lia;
    try set_solver.
  apply find_seq_spec in Hf as [Hk _]. bool_prop. intros x. rewrite !elem_of_union.
  intros [[?|?]|Hx]; [by left|right; by apply Hcl|]. right. apply (closure_elem c WF). eauto.
Qed.

Lemma restored_genuine i k : i < n -> is_history_type (type_of c i) = true -> k ∈ completion_of c i ->
  parent_of c i ∈ anc k /\ genuine c k.
Proof.
  intros Hi Hh Hk. destruct (shape_at i Hi) as (_ & _ & _ & _ & Hsh & _). destruct (Hsh Hh) as (Hco & _).
  by destruct (Hco k Hk) as (? & ? & _).
Qed.

(** A history that is restored has something to restore. *)
Lemma restored_some i : i < n -> is_history_type (type_of c i) = true -> parent_of c i ∉ A ->
  completion_of c i ∩ history <> ∅ \/ parent_of c i ∈ config -> completion_of c i ∩ history <> ∅.
Proof.
  intros Hi Hh HbA [?|Hb]; [done|].
  assert (Hex : parent_of c i ∈ exits).
  { destruct (decide (parent_of c i ∈ exits)); [done|]. by destruct HbA; apply elem_of_difference. }
  rewrite (en_recorded EN i Hi Hh Hb Hex).
  assert (Hps : is_pseudo_type (type_of c i) = true) by (unfold is_pseudo_type; by rewrite Hh).
  destruct (shape_at i Hi) as (_ & _ & _ & Hp & Hsh & _).
  destruct (Hsh Hh) as (Hco & (k & Hk & Hck) & Hall & _). destruct (Hp Hps) as (_ & Hkind & _).
  assert (Hx : exists x, x ∈ completion_of c i /\ x ∈ config); [|set_solver].
  destruct Hkind as [Hc|Hpar].
  - destruct (config_child _ Hb Hc) as (x & Hx & Hcx). exists x. split; [|done].
    rewrite Forall_forall in Hall. apply Hall; [|done|by apply (en_genuine EN)].
    apply elem_of_seq. pose proof (child_range c _ x Hcx). lia.
  - exists k. split; [done|]. pose proof (ancestors_range c k _ (proj1 Hck)) as Hkn.
    apply (en_parallel EN _ Hb Hpar). pose proof (ancestors_range c i _ (pseudo_parent i Hi Hps)) as _.
    assert (Hbn : parent_of c i < n).
    { unfold parallel, masked, type_of in Hpar. destruct (c_states c !! parent_of c i) eqn:E; [|done].
      by apply lookup_lt_Some in E. }
    destruct (shape_at _ Hbn) as (_ & _ & Hps' & _). specialize (Hps' Hpar). rewrite Forall_forall in Hps'.
    apply Hps'; [apply elem_of_seq; lia|]. split; [done|]. by destruct (Hco k Hk) as (_ & ? & _).
Qed.

Lemma restore_history_spec i E : i < n -> restore_history c history i E = E ∪ (completion_of c i ∩ history).
Proof.
  intros Hi. unfold restore_history. destruct (regular_at c HR i Hi) as (Hflag & _).
  destruct (Z.eqb_spec (type_of c i) (Z.lor USCXML_STATE_HAS_HISTORY USCXML_STATE_HISTORY_DEEP)) as [Hty|_]; [|done].
  by rewrite Hty in Hflag.
Qed.

Lemma fill_history i E T : i < n -> i ∈ E -> is_history_type (type_of c i) = true -> filling i E ->
  let E' := fst (descend c config history exits i (E, T)) in
  grows c i E E' -> filling (S i) E'.
Proof.
  intros Hi Hin Hh HF. cbv zeta. unfold descend. cbv zeta.
  assert (Hps : is_pseudo_type (type_of c i) = true) by (unfold is_pseudo_type; by rewrite Hh).
  assert (Hm : is_history_type (USCXML_STATE_MASK (type_of c i)) = true) by (by rewrite <- Hh, <- type_masked_history).
  assert (Hnp : (USCXML_STATE_MASK (type_of c i) =? USCXML_STATE_PARALLEL)%Z = false).
  { apply Z.eqb_neq. intros Hp. by rewrite Hp in Hm. }
  rewrite Hm, Hnp.
  destruct (negb _ && negb _) eqn:Hcond.
  - destruct (default_history_spec i E T Hi Hh) as (j & Hj & Hjn & Hsub & HEsub & Hnew). intros HG.
    eapply filling_extend; [done..|]. eapply default_extends; [done..| | | | |]; [left|done..]. by apply HEsub.
  - cbn [fst]. rewrite restore_history_spec by done. intros HG.
    destruct (f_pending _ _ HF i Hin Hi Hps ltac:(lia)) as [Hfresh _].
    assert (Hsome : completion_of c i ∩ history <> ∅).
    { apply restored_some; [done..|]. apply andb_false_iff in Hcond as [Hx|Hx]; apply negb_false_iff in Hx.
      - left. apply BIT_HAS_AND_spec in Hx as (k & Hk). set_solver.
      - right. by apply bool_decide_eq_true in Hx. }
    assert (HY : forall k, k ∈ E ∪ (completion_of c i ∩ history) -> k ∉ E -> k ∈ completion_of c i ∩ history) by set_solver.
    eapply filling_extend; [done..|]. apply replace_extends; [done..| | | |].
    + left. set_solver.
    + intros k Hk HkE. apply restored_genuine; [done..|]. specialize (HY k Hk HkE). set_solver.
    + intros p Hcp. apply (at_most_one_subset c p _ (completion_of c i ∩ history)); [set_solver|].
      by apply (en_history_one EN).
    + intros _. apply set_choose_L in Hsome as (t & Ht). pose proof Ht as [Htc _]%elem_of_intersection.
      destruct (restored_genuine i t Hi Hh Htc) as [Hbt Hgt].
      destruct (anc_child c WF _ t Hbt) as (k & Hck & Hk). exists k. split_and!; [|done|by eapply genuine_on_path].
      assert (Ht' : t ∈ E ∪ (completion_of c i ∩ history)) by (apply elem_of_union; by right).
      destruct Hk as [->|Hk]; [done|]. by apply (grows_closed _ _ _ _ HG t).
Qed.

Lemma initial_transitions_spec i j js : forall E T, source_of c j = i ->
  (forall j', j' ∈ js -> source_of c j' = i -> j' = j) ->
  let E' := fst (foldl (initial_transition c i) (E, T) js) in
  (forall k, k ∈ target_of c j -> k ∈ E \/ j ∈ js -> k <> i -> k ∈ E') /\
  forall k, k ∈ E' -> k ∈ E \/ k ∈ with_ancestors c (target_of c j).
Proof.
  induction js as [|x js IH]; intros E T Hj Hu.
  { cbn. split; [|by left]. by intros k _ [?|?%elem_of_nil]. }
  cbn [foldl]. cbv zeta.
  assert (Hcl : forall k, k ∈ target_of c j -> k ∈ with_ancestors c (target_of c j)).
  { intros k Hk. apply (closure_elem c WF). exists k. auto. }
  destruct (initial_transition c i (E, T) x) as [E1 T1] eqn:Hx.
  destruct (IH E1 T1 Hj ltac:(intros; apply Hu; [by right|done])) as [Hin Hout]. cbv zeta in Hin, Hout.
  unfold initial_transition in Hx. destruct (Nat.eqb_spec (source_of c x) i) as [Hs|Hs].
  - assert (x = j) as -> by (apply Hu; [by left|done]). injection Hx as HE1 _. symmetry in HE1.
    assert (HE : forall k, k ∈ E1 <-> (k ∈ E ∖ {[i]} ∪ target_of c j) \/
      exists t, i < t < i + 1 + (n - (i + 1)) /\ t ∈ target_of c j /\ k ∈ anc t).
    { intros k. rewrite HE1. apply add_target_ancestors_spec. }
    split.
    + intros k Hk _ Hne. apply Hin; [done| |done]. left. apply HE. left. set_solver.
    + intros k Hk. destruct (Hout k Hk) as [Hk1|]; [|by right]. apply HE in Hk1.
      destruct Hk1 as [Hk1|(t & _ & Ht & Hkt)].
      * apply elem_of_union in Hk1 as [[? _]%elem_of_difference|?]; [by left|right; by apply Hcl].
      * right. apply (closure_elem c WF). eauto.
  - injection Hx as <- <-. split; [|done]. intros k Hk [?|[->|?]%elem_of_cons] Hne; [apply Hin; auto|done|apply Hin; auto].
Qed.

Lemma fill_initial i E T : i < n -> i ∈ E -> masked c i = USCXML_STATE_INITIAL -> filling i E ->
  let E' := fst (descend c config history exits i (E, T)) in
  grows c i E E' -> filling (S i) E'.
Proof.
  intros Hi Hin Hm HF. cbv zeta. unfold descend. cbv zeta. fold (masked c i). rewrite Hm. cbn [Z.eqb].
  assert (Hps : is_pseudo_type (type_of c i) = true).
  { unfold is_pseudo_type. apply orb_true_iff. right. by apply Z.eqb_eq. }
  destruct (shape_at i Hi) as (_ & _ & _ & Hp & _ & Hinit). destruct (Hinit Hm) as [_ Hu].
  destruct (Hp Hps) as (_ & _ & _ & He & _). apply Exists_exists in He as (j & Hj & Hs).
  pose proof Hj as Hjn%elem_of_seq.
  destruct (initial_transitions_spec i j (seq 0 nt) E T Hs) as [Hsub Hnew].
  { intros j' Hj' Hs'. rewrite Forall_forall in Hu. specialize (Hu j' Hj'). rewrite Forall_forall in Hu. by apply Hu. }
  intros HG. eapply filling_extend; [done..|].
  apply (default_extends i j); [done..|by right|done|lia| |done].
  intros k Hk. apply Hsub; [done|by right|]. intros ->.
  destruct (default_of i j Hi Hps Hs ltac:(lia)) as (_ & _ & Hg). specialize (Hg i Hk). unfold genuine in Hg. simpl in Hg. congruence.
Qed.

(** *** The whole entry set *)

Lemma fill_step i E T : i < n -> i ∈ E -> filling i E ->
  filling (S i) (fst (descend c config history exits i (E, T))).
Proof.
  intros Hi Hin HF.
  pose proof (descend_grows c WF HR config history exits i E T Hi (f_closed _ _ HF) Hin (en_history EN)) as HG.
  destruct (is_history_type (type_of c i)) eqn:Hh; [by apply fill_history|].
  destruct (decide (masked c i = USCXML_STATE_INITIAL)) as [Hm|Hm]; [by apply fill_initial|].
  assert (Hg : genuine c i).
  { unfold genuine, is_pseudo_type. rewrite Hh. cbn [orb]. by apply Z.eqb_neq. }
  revert HG. unfold descend. cbv zeta. fold (masked c i).
  rewrite type_masked_history, Hh, (proj2 (Z.eqb_neq _ _) Hm).
  destruct (Z.eqb_spec (masked c i) USCXML_STATE_PARALLEL) as [Hp|_]; [intros HG; by apply fill_parallel|].
  destruct (Z.eqb_spec (masked c i) USCXML_STATE_COMPOUND) as [Hc|Hnc]; [intros HG; by apply fill_compound|].
  intros _. by apply filling_skip.
Qed.

Lemma establish_filling trans :
  filling n (fst (establish_entryset c config history exits targets trans)).
Proof.
  unfold establish_entryset.
  change (find_first n (with_ancestors c targets)) with (find_first n (fst (with_ancestors c targets, trans))).
  rewrite find_loop_scan by lia.
  apply (scan_loop_inv fst (descend c config history exits) (fun i st => filling i (fst st)) 0 n).
  { apply filling_start. }
  intros i [E T] Hi HF. cbn [fst] in *. case_bool_decide as Hin; [apply fill_step; [lia|done..]|].
  by apply filling_skip.
Qed.

(** What was active and is not left, with what is entered. *)
Lemma entered_complete Y trans :
  (forall k, k ∈ Y <-> k ∈ A \/
     (k ∈ fst (establish_entryset c config history exits targets trans) /\ k < n /\ genuine c k)) ->
  closed c Y -> config_complete c Y.
Proof.
  intros HY Hcl. pose proof (establish_filling trans) as HF.
  set (E := fst _) in *. clearbody E.
  assert (HEA : forall k, k ∈ Y -> k ∈ E ∪ A).
  { intros k [?|[? _]]%HY; apply elem_of_union; auto. }
  assert (Hgen : forall k, k ∈ Y -> genuine c k).
  { intros k [[Hk _]%elem_of_difference|(_ & _ & ?)]%HY; [by apply (en_genuine EN)|done]. }
  destruct (decide (Y = ∅)) as [|Hne]; [by left|right]. split.
  { apply set_choose_L in Hne as [k Hk]. destruct (decide (k = 0)) as [->|Hk0]; [done|].
    apply (Hcl k); [done|]. destruct (decide (k < n)) as [Hkn|Hkn]; [by apply (shape_at k Hkn)|]. exfalso.
    apply HY in Hk as [[Hk _]%elem_of_difference|(_ & ? & _)]; [|done].
    destruct (en_complete EN) as [He|[H0 _]]; [by rewrite He in Hk|].
    by apply Hkn, (en_range EN). }
  intros p Hp Hcp.
  assert (Hex : exists k, k ∈ Y /\ child c p k).
  { apply HEA in Hp as Hp'. destruct (decide (p ∈ E)) as [HpE|HpE].
    - destruct (f_exists _ _ HF p HpE ltac:(by apply compound_range) Hcp) as (k & Hk & Hck & Hg).
      pose proof (child_range c p k Hck). exists k. split; [|done]. apply HY.
      apply elem_of_union in Hk as [Hk|Hk]; [right|by left]. split_and!; [done..|]. destruct Hg; [done|lia].
    - assert (HpA : p ∈ A) by (apply elem_of_union in Hp' as [?|?]; done). pose proof HpA as [Hpc _]%elem_of_difference.
      destruct (config_child p Hpc Hcp) as (k & Hk & Hck). exists k. split; [|done]. apply HY. left.
      apply elem_of_difference. split; [done|]. intros Hkx. apply HpE.
      destruct (kept_or_targeted n p E HF HpA) as (x & Hx & Hpx); [by exists k; split; [|apply Hck]|].
      by apply (f_closed _ _ HF x). }
  destruct Hex as (k & Hk & Hck). exists k. split; [done|]. intros k' [Hk' Hck'].
  apply (f_unique _ _ HF p Hcp); [by apply HEA..|split; [done|by apply Hgen]|split; [done|by apply Hgen]].
Qed.

End Fill.

(** ** Steps keep the configuration complete *)

Section StepComplete.
Context {node W X : Type} {CB : MicroStepCallbacks node W X}.
Context (c : Chart node) (WF : chart_wf c) (HR : chart_regular c) (HT : chart_tree c).
Abbreviation n := (n_states c).
Abbreviation nt := (n_transitions c).
Abbreviation anc := (ancestors_of c).

(** What a step keeps: nothing is active before the machine is initialised. *)
Record sound (ms : MicroState) : Prop := {
  sound_legal : legal c ms;
  sound_complete : complete c ms;
  sound_started : _configuration ms = ∅ \/ has_flag (_flags ms) USCXML_CTX_INITIALIZED = true;
}.

Lemma config_unique p Y : closed c Y -> config_complete c Y -> compound c p -> at_most_one c p Y.
Proof.
  intros HC HY Hp k1 Hk1 k2 Hk2 [Hc1 _] [Hc2 _].
  destruct HY as [->|[_ Hone]]; [by apply elem_of_empty in Hk1|].
  assert (Hpc : p ∈ Y) by (apply (HC k1); [done|apply Hc1]).
  destruct (Hone p Hpc Hp) as (k & _ & Hu). transitivity k; [symmetry|]; by apply Hu.
Qed.

Lemma same_completion_parent i j k : i < n -> is_history_type (type_of c i) = true ->
  is_history_type (type_of c j) = true -> k ∈ completion_of c i -> k ∈ completion_of c j ->
  parent_of c i = parent_of c j.
Proof.
  intros Hi Hh Hj Hki Hkj. destruct (shape_at c HT i Hi) as (_ & _ & _ & _ & Hsh & _).
  destruct (Hsh Hh) as (_ & _ & _ & Hov). rewrite Forall_forall in Hov. apply Hov; [|done|].
  - apply elem_of_seq. pose proof (state_set_range _ _ _ _ Hkj). lia.
  - intros He. assert (Hk : k ∈ completion_of c i ∩ completion_of c j) by (by apply elem_of_intersection).
    rewrite He in Hk. by apply elem_of_empty in Hk.
Qed.

(** What a history holds after the states in [exits] were remembered. *)
Lemma remembered config exits history h : h < n -> is_history_type (type_of c h) = true ->
  completion_of c h ∩ remember_history c config exits history =
  if bool_decide (parent_of c h ∈ exits) then completion_of c h ∩ config else completion_of c h ∩ history.
Proof.
  intros Hn Hh. apply set_eq. intros k. rewrite elem_of_intersection, remember_history_elem.
  assert (Hx : k ∈ completion_of c h ->
    (exists i, i < n /\ is_history_type (type_of c i) = true /\ parent_of c i ∈ exits /\ k ∈ completion_of c i) <->
    parent_of c h ∈ exits).
  { intros Hk. split; [|by exists h]. intros (i & Hi & Hhi & Hp & Hki).
    by rewrite (same_completion_parent h i k). }
  case_bool_decide as Hp; rewrite elem_of_intersection; split.
  - intros [Hk [[_ Hc]|[Hno _]]]; [done|]. destruct Hno. by apply Hx.
  - intros [Hk Hc]. split; [done|]. left. split; [by apply Hx|done].
  - intros [Hk [[He _]|[_ Hc]]]; [by apply Hx in He|done].
  - intros [Hk Hc]. split; [done|]. right. split; [by intros He%Hx|done].
Qed.

Lemma remember_complete config exits history : closed c config -> config_complete c config ->
  history_complete c history -> history_complete c (remember_history c config exits history).
Proof.
  intros HC HY HH i Hi Hh p Hp. rewrite (remembered config exits history i Hi Hh).
  case_bool_decide; [|by apply HH].
  apply (at_most_one_subset c p _ config); [set_solver|by apply config_unique].
Qed.

(** *** The domains of the selected transitions *)

Section Selected.
Context (ms0 : MicroState) (sets : Sets) (ms : MicroState).
Hypothesis Hs : sound ms0.
Hypothesis Hsel : selected c ms0 (seq 0 nt) sets ms.
Abbreviation config := (_configuration ms0).
Abbreviation ts := (transSet sets).
Abbreviation exits := (exitSet sets ∩ config).

Definition taken (d : nat) (T : gset nat) : Prop := exists j, j ∈ ts /\ domain_of c j d /\ T = target_of c j.

Lemma elem_of_union_of f k : k ∈ union_of c f ts <-> exists j, j ∈ ts /\ k ∈ trans_set f c j.
Proof. apply elem_of_set_bind. Qed.

Lemma taken_shape j : j ∈ ts ->
  (target_of c j = ∅ /\ trans_set t_exitSet c j = ∅) \/ exists d, domain_of c j d.
Proof.
  intros Hj. destruct (sel_eligible _ _ _ _ _ Hsel j Hj) as (t & Ht & He).
  destruct HT as (_ & _ & _ & _ & Htr). rewrite Forall_forall in Htr.
  pose proof (sel_done _ _ _ _ _ Hsel j Hj) as Hjn. specialize (Htr j Hjn). unfold transition_shape in Htr.
  rewrite Ht in Htr. unfold eligible in He. bool_prop.
  destruct Htr as [Hp|[?|Hd]]; [congruence|by left|right]. apply Exists_exists in Hd as (d & _ & Hd). eauto.
Qed.

Lemma domain_exit j d k : domain_of c j d -> k ∈ trans_set t_exitSet c j <-> d ∈ anc k /\ genuine c k.
Proof.
  intros (_ & _ & _ & _ & Hx). rewrite Forall_forall in Hx. split.
  - intros Hk. apply Hx; [|done]. apply elem_of_seq. pose proof (wf_exit_range c WF j k Hk). lia.
  - intros [Hd Hg]. apply Hx; [|done]. apply elem_of_seq. pose proof (ancestors_range c k d Hd). lia.
Qed.

(** A proper state below the domain. *)
Lemma domain_some j d : domain_of c j d -> exists x, d ∈ anc x /\ genuine c x.
Proof.
  intros (_ & _ & (t & Ht)%set_choose_L & [Hf _] & _). destruct (Hf t Ht) as [Hd [Hg|(_ & Hp & Hdp & _)]]; [eauto|].
  exists (parent_of c t). split; [done|]. by apply (anc_genuine c HR t).
Qed.

Lemma exits_overlap j j' k : j ∈ ts -> j' ∈ ts -> k ∈ trans_set t_exitSet c j -> k ∈ trans_set t_exitSet c j' -> j = j'.
Proof.
  intros Hj Hj' Hk Hk'. destruct (Nat.lt_trichotomy j j') as [Hlt|[|Hlt]]; [|done|]; exfalso.
  - apply (sel_free _ _ _ _ _ Hsel j j' Hj Hj' Hlt). by apply (wf_conflict_exit c WF j j' k).
  - apply (sel_free _ _ _ _ _ Hsel j' j Hj' Hj Hlt). by apply (wf_conflict_exit c WF j' j k).
Qed.

(** Domains on one path are equal, and so are their transitions. *)
Lemma taken_nested j d j' d' : j ∈ ts -> j' ∈ ts -> domain_of c j d -> domain_of c j' d' ->
  d = d' \/ d ∈ anc d' -> j = j'.
Proof.
  intros Hj Hj' Hd Hd' Hle. destruct (domain_some j' d' Hd') as (x & Hx & Hg).
  apply (exits_overlap j j' x); [done..| |by apply (domain_exit j' d')].
  apply (domain_exit j d); [done|]. split; [|done].
  destruct Hle as [->|Hle]; [done|by apply (wf_anc_trans c WF x d')].
Qed.

Lemma taken_separate d T d' T' k : taken d T -> taken d' T' -> d ∈ anc k -> d' ∈ anc k -> d = d' /\ T = T'.
Proof.
  intros (j & Hj & Hd & ->) (j' & Hj' & Hd' & ->) Hk Hk'.
  assert (Hdom : forall d1 d2, domain_of c j d1 -> domain_of c j d2 -> d1 ∉ anc d2).
  { intros d1 d2 H1 H2 Hlt.
    assert (Hx : d2 ∈ trans_set t_exitSet c j).
    { apply (domain_exit j d1); [done|]. split; [done|]. by apply (compound_genuine c), H2. }
    apply (domain_exit j d2 d2 H2) in Hx as [Hx _]. by apply (anc_irrefl c WF) in Hx. }
  destruct (anc_chain c WF k d d' Hk Hk') as [->|[Hlt|Hlt]].
  - split; [done|]. by rewrite (taken_nested j d' j' d') by auto.
  - assert (j = j') as -> by (apply (taken_nested j d j' d'); auto). by destruct (Hdom d d').
  - assert (j' = j) as -> by (apply (taken_nested j' d' j d); auto). by destruct (Hdom d' d).
Qed.

Lemma taken_situation :
  entry_situation c config (remember_history c config exits (_history ms0)) exits (targetSet sets) taken.
Proof.
  destruct Hs as [HL [HCc HCh] _].
  assert (Hgen : forall k, k ∈ config -> genuine c k) by apply (legal_proper _ _ HL).
  assert (Hexit : forall k, k ∈ exits <-> k ∈ config /\ exists d T, taken d T /\ d ∈ anc k).
  { intros k. rewrite elem_of_intersection, (sel_exit _ _ _ _ _ Hsel), elem_of_union_of. split.
    - intros [(j & Hj & Hk) Hkc]. split; [done|].
      destruct (taken_shape j Hj) as [[_ He]|(d & Hd)]; [rewrite He in Hk; by apply elem_of_empty in Hk|].
      exists d, (target_of c j). split; [by exists j|]. by apply (domain_exit j d k Hd) in Hk as [? _].
    - intros [Hkc (d & T & (j & Hj & Hd & _) & Hdk)]. split; [|done]. exists j. split; [done|].
      apply (domain_exit j d k Hd). auto. }
  assert (Hup : forall k a, k ∈ config -> a ∈ anc k -> a ∈ exits -> k ∈ exits).
  { intros k a Hk Ha (_ & d & T & Ht & Hd)%Hexit. apply Hexit. split; [done|]. exists d, T. split; [done|].
    by apply (wf_anc_trans c WF k a). }
  split.
  - intros k a [Hk Hkx]%elem_of_difference Ha. apply elem_of_difference.
    split; [by apply (legal_closed _ _ HL k)|]. intros Hax. by apply Hkx, (Hup k a).
  - apply HL.
  - apply HL.
  - intros p [Hp Hpx]%elem_of_difference Hpar k Hk. pose proof (legal_parallel _ _ HL p Hp Hpar k Hk) as Hkc.
    apply elem_of_difference. split; [done|]. intros (_ & d & T & Ht & Hd)%Hexit. apply Hpx, Hexit.
    split; [done|]. exists d, T. split; [done|].
    pose proof (legal_range _ _ HL p Hp) as Hpn. destruct (shape_at c HT p Hpn) as (_ & _ & Hpsh & _).
    specialize (Hpsh Hpar). rewrite Forall_forall in Hpsh.
    destruct (proj1 (Hpsh k ltac:(apply elem_of_seq; pose proof (legal_range _ _ HL k Hkc); lia)) Hk) as [Hck _].
    apply (child_anc c WF p k d Hck) in Hd as [->|?]; [|done]. destruct Ht as (j & _ & [Hc _] & _).
    by destruct (compound_parallel c p).
  - done.
  - apply (remember_history_closed c HR); apply HL.
  - apply remember_complete; [apply HL|done|done].
  - set_solver.
  - intros h Hh Hht _ Hpx. rewrite (remembered config exits _ h Hh Hht). by rewrite bool_decide_eq_true_2.
  - done.
  - apply HL.
  - done.
  - intros k. rewrite (sel_target _ _ _ _ _ Hsel), elem_of_union_of. split.
    + intros (j & Hj & Hk). destruct (taken_shape j Hj) as [[He _]|(d & Hd)].
      * unfold target_of in He. rewrite He in Hk. by apply elem_of_empty in Hk.
      * exists d, (target_of c j). split; [by exists j|done].
    + intros (d & T & (j & Hj & _ & ->) & Hk). by exists j.
  - intros d T (j & _ & Hd & ->). apply Hd.
  - intros d T (j & _ & Hd & ->). apply Hd.
  - apply taken_separate.
  - intros d T k Ht Hd [Hk Hkx]%elem_of_difference. apply Hkx, Hexit. eauto.
  - intros d T k (j & Hj & Hd & ->) Hk. left.
    assert (Hkc : k ∈ config).
    { destruct (sel_eligible _ _ _ _ _ Hsel j Hj) as (t & Htr & He). unfold eligible in He. bool_prop.
      assert (Hsrc : source_of c j ∈ config) by (unfold source_of; by rewrite Htr).
      destruct Hd as (_ & Hsd & _).
      assert (Hdc : d ∈ config) by (destruct Hsd as [->|Hsd]; [done|by apply (legal_closed _ _ HL (source_of c j))]).
      destruct Hk as [->|Hk]; [done|by apply (legal_closed _ _ HL d)]. }
    apply elem_of_difference. split; [done|]. intros (_ & d' & T' & Ht' & Hd')%Hexit.
    destruct (domain_some j d Hd) as (x & Hx & _).
    assert (Hdd : d' ∈ anc d) by (destruct Hk as [->|Hk]; [done|by apply (wf_anc_trans c WF d k)]).
    assert (Htk : taken d (target_of c j)) by by exists j.
    destruct (taken_separate d' T' d _ x Ht' Htk) as [-> _]; [by apply (wf_anc_trans c WF x d)|done|].
    by apply (anc_irrefl c WF) in Hdd.
  - intros x Hx Hxx. by apply Hexit in Hxx as [_ ?].
Qed.

Lemma selected_sound ms1 : same_place ms0 ms1 -> sound (selected_result c sets ms0 ms1).
Proof.
  intros Hpl. pose proof (select_and_step_legal c WF HR ms0 sets ms ms1 (sound_legal _ Hs) Hsel Hpl) as HL'.
  destruct Hpl as (Hc & Hh & Hf). pose proof (legal_range _ _ (sound_legal _ Hs)) as Hr.
  unfold selected_result in *. cbv zeta in *.
  set (ms2 := set_history _ ms1) in *. set (res := microstep_result c _ _ _ ms2) in *.
  destruct (microstep_result_fields c exits (targetSet sets) ts ms2) as (Hrc & _ & Hrh & _).
  { subst ms2. cbn [_configuration set_history]. by rewrite Hc. }
  fold res in Hrc, Hrh. cbn [_configuration _history set_history ms2] in Hrc, Hrh. rewrite Hc in Hrc.
  assert (Hin : forall k, k ∈ _configuration res <-> k ∈ config ∖ exits \/
    (k ∈ fst (establish_entryset c config (remember_history c config exits (_history ms0)) exits (targetSet sets) ts)
     /\ k < n /\ genuine c k)).
  { intros k. by rewrite Hrc, elem_of_union, elem_of_proper_of. }
  split; [done| |].
  - split.
    + eapply (entered_complete c WF HR HT config _ exits (targetSet sets) taken taken_situation);
        [exact Hin|apply HL'].
    + rewrite Hrh. apply remember_complete; [apply (sound_legal _ Hs)|apply (sound_complete _ Hs)..].
  - destruct (decide (config = ∅)) as [He|Hne].
    + left. apply elem_of_equiv_empty_L. intros k Hk. apply Hin in Hk as [Hk|(Hk & _)]; [set_solver|].
      apply (f_some _ _ _ _ _ _ (establish_filling c WF HR HT config _ exits (targetSet sets) taken taken_situation ts)) in Hk.
      apply set_choose_L in Hk as (t & Ht). rewrite (sel_target _ _ _ _ _ Hsel) in Ht.
      apply elem_of_union_of in Ht as (j & Hj & _).
      destruct (sel_eligible _ _ _ _ _ Hsel j Hj) as (tr & _ & Hel). unfold eligible in Hel. bool_prop. set_solver.
    + right. unfold res. rewrite microstep_result_init. subst ms2. cbn [_flags set_history]. rewrite Hf.
      by destruct (sound_started _ Hs).
Qed.

End Selected.

(** *** The first micro step *)

Lemma start_situation history : history_closed c history -> history_complete c history ->
  entry_situation c ∅ history ∅ (completion_of c 0) (fun d T => d = 0 /\ T = completion_of c 0).
Proof.
  intros HH HHo. destruct HT as (H0 & Hne & Hfr & _).
  assert (HA : forall k, k ∉ (∅ : gset nat) ∖ ∅) by set_solver.
  split; try done; try (by intros ? ? []%HA); try (by intros ? []%HA).
  - by left.
  - intros k. split; [by exists 0, (completion_of c 0)|]. by intros (d & T & [_ ->] & ?).
  - by intros d T [-> ->].
  - by intros d T [-> ->].
  - by intros d T d' T' k [-> ->] [-> ->].
  - intros d T k [-> ->] [->|Hk]; [by right|]. apply (wf_anc_lt c WF) in Hk. lia.
Qed.

Lemma started_sound ms ms1 : sound ms -> _flags ms = USCXML_CTX_PRISTINE ->
  _configuration ms1 = _configuration ms -> _history ms1 = _history ms ->
  has_flag (_flags ms1) USCXML_CTX_INITIALIZED = true ->
  sound (microstep_result c ∅ (completion_of c 0) ∅ ms1).
Proof.
  intros [HL [HC HCh] Hst] Hfl Hc Hh Hf.
  assert (He : _configuration ms = ∅) by (destruct Hst as [?|Hst]; [done|by rewrite Hfl in Hst]).
  assert (HL' : legal c (microstep_result c ∅ (completion_of c 0) ∅ ms1)).
  { rewrite <- (left_absorb_L ∅ (∩) (_configuration ms1)).
    apply microstep_result_legal; [done|done|by apply (legal_ext c ms)|apply exits_regular_empty]. }
  rewrite He in Hc.
  destruct (microstep_result_fields c ∅ (completion_of c 0) ∅ ms1) as (Hrc & _ & Hrh & _); [rewrite Hc; intros k; set_solver|].
  split; [done| |right; by rewrite microstep_result_init].
  split; [|by rewrite Hrh, Hh].
  eapply (entered_complete c WF HR HT ∅ (_history ms1) ∅ (completion_of c 0) _).
  - rewrite Hh. apply start_situation; [apply HL|done].
  - intros k. rewrite Hrc, elem_of_union, elem_of_proper_of, Hc. done.
  - apply HL'.
Qed.

Lemma sound_ext ms ms' : same_place ms ms' -> sound ms -> sound ms'.
Proof.
  intros (Hc & Hh & Hf) [HL [HC HCh] Hst]. split; [by apply (legal_ext c ms)|split|]; by rewrite ?Hc, ?Hh, ?Hf.
Qed.

Lemma step_keeps_sound blockMs : hoare_ms sound (step (X := X) c blockMs) (fun _ => sound) (fun _ => True).
Proof.
  apply step_rule.
  - intros ms ms'. apply sound_ext.
  - intros. by eapply selected_sound.
  - intros. by eapply started_sound.
Qed.

Lemma pristine_sound : sound pristine.
Proof.
  split; [by apply pristine_legal| |by left]. split; [by left|].
  intros i _ _ p _ k1 Hk1. cbn in Hk1. set_solver.
Qed.

(** What a sound state says of its configuration. *)
Lemma sound_spelled_out ms : sound ms ->
  let Y := _configuration ms in
  Y = ∅ \/
  (0 ∈ Y /\ (forall k, k ∈ Y -> k < n /\ genuine c k /\ anc k ⊆ Y) /\
   (forall p, p ∈ Y -> compound c p -> exists! k, k ∈ Y /\ child c p k) /\
   (forall p, p ∈ Y -> parallel c p -> forall k, child c p k -> genuine c k -> k ∈ Y)).
Proof.
  intros [HL [[He|[H0 Hone]] _] _]; [by left|right]. split_and!; [done| |done|].
  - intros k Hk. split_and!; [by apply HL|by apply (legal_proper _ _ HL)|].
    intros a Ha. by apply (legal_closed _ _ HL k).
  - intros p Hp Hpar k Hck Hg. apply (legal_parallel _ _ HL p Hp Hpar).
    destruct (shape_at c HT p ltac:(by apply HL)) as (_ & _ & Hps & _). specialize (Hps Hpar).
    rewrite Forall_forall in Hps. apply Hps; [|done]. apply elem_of_seq. pose proof (child_range c p k Hck). lia.
Qed.

(** C1: the configuration of the state machine is legal in the sense of the
    SCXML recommendation. For a chart of regular tree shape, in every reachable
    state of the stepper, whatever events arrive and however the callbacks
    answer, either nothing is active yet, or the root is active, no pseudo
    state is, every active state's ancestors are, every active parallel state
    has all its children active, and every active compound state has exactly
    one active child. *)
Theorem reachable_complete ms : reachable (CB := CB) c ms ->
  let Y := _configuration ms in
  Y = ∅ \/
  (0 ∈ Y /\ (forall k, k ∈ Y -> k < n /\ genuine c k /\ anc k ⊆ Y) /\
   (forall p, p ∈ Y -> compound c p -> exists! k, k ∈ Y /\ child c p k) /\
   (forall p, p ∈ Y -> parallel c p -> forall k, child c p k -> genuine c k -> k ∈ Y)).
Proof.
  intros Hr. apply sound_spelled_out.
  induction Hr as [|ms w b r ms' w' _ IH Hs|ms _ IH|ms _ IH].
  - apply pristine_sound.
  - pose proof (step_keeps_sound b (ms, w) IH) as Hk. by rewrite Hs in Hk.
  - by apply (sound_ext ms).
  - destruct pristine_sound as [HL [HC HCh] Hst]. split; [by apply (legal_ext c pristine)|by split|by left].
Qed.

End StepComplete.

(** ** Charts to evaluate *)

Lemma regular_chart_tree : chart_tree regular_chart.
Proof. apply (bool_decide_unpack _). by vm_compute. Qed.

Lemma reachable_complete_witness :
  2 ∈ _configuration (fst started_state) /\
  exists! k, k ∈ _configuration (fst started_state) /\ child regular_chart 2 k.
Proof.
  assert (H2 : 2 ∈ _configuration (fst started_state)) by (apply (bool_decide_unpack _); by vm_compute).
  split; [done|]. pose proof started_reachable as Hr. revert H2 Hr.
  generalize (fst started_state) as ms. intros ms H2 Hr.
  destruct (reachable_complete (CB := recorder (fun _ => true) (fun _ => false)) regular_chart
    regular_chart_wf regular_chart_regular regular_chart_tree ms Hr) as [He|(_ & _ & Hone & _)].
  - rewrite He in H2. by apply elem_of_empty in H2.
  - apply Hone; [done|]. by vm_compute.
Defined.

(** *** A history entered from its siblings *)

Definition own_history_doc : list row := rows
  (Xml "scxml" [("initial", "p")] []
    [Xml "state" [("id", "p")] []
      [Xml "history" [("id", "h")] [] [Xml "transition" [("target", "b")] [] []];
       Xml "state" [("id", "a")] [] [Xml "transition" [("event", "go"); ("target", "h")] [] []];
       Xml "state" [("id", "b")] [] []]]).

(** A history that is entered from below its parent, before the parent was
    ever left, is neither restored nor does its default transition fire: here
    the compound state p is active and none of its children is. *)
Theorem own_history_childless :
  last (configurations own_history_doc ["go"] 6) = Some [0; 1] /\
  compound (compiled own_history_doc) 1 /\ ~ exists k, k ∈ ({[0; 1]} : gset nat) /\ child (compiled own_history_doc) 1 k.
Proof.
  split_and!; [by vm_compute|by vm_compute|].
  intros (k & [->%elem_of_singleton| ->%elem_of_singleton]%elem_of_union & Hk); revert Hk;
    apply (bool_decide_unpack _); by vm_compute.
Qed.
