(* ===== verification/StepTheorems.v ===== *)
(** * What a step of the machine does

    The properties of [FastMicroStep::step]: which transitions it selects,
    the configuration it reaches, when it reports a stable machine, how it
    finishes, and in which order it calls its environment. *)

From stdpp Require Import base list gmap strings.
From S2P Require Import Prelude Strings Dom Predicates Data Chart Effects MicroStep StepLemmas Recorder.

Local Open Scope nat_scope.

Section StepTheorems.
Context {node W X : Type} {CB : MicroStepCallbacks node W X} (c : Chart node).
Abbreviation n := (n_states c).
Abbreviation nt := (n_transitions c).
Notation Step := (@Step W X).

(** *** Selection *)

Definition enabled (truth : string -> bool) (ms : MicroState) (t : Transition node) : bool :=
  eligible ms t && (String.eqb (t_cond t) "" || truth (t_cond t)).

Lemma guard_answer (truth : string -> bool) (t : Transition node) st :
  (forall e ms w, fst (isTrue (node := node) (X := X) e ms w) = inr (truth e)) ->
  fst (guard_holds (X := X) t st) = inr (String.eqb (t_cond t) "" || truth (t_cond t)).
Proof.
  intros Ht. unfold guard_holds. destruct (String.eqb _ _); [done|]. destruct st as [ms w].
  unfold call. specialize (Ht (t_cond t) ms w). by destruct (isTrue _ _ _).
Qed.

(** The selection, and what every lemma about it needs. *)
Lemma select_optimal (truth : string -> bool) ms0 :
  chart_wf c ->
  (forall e ms w, fst (isTrue (node := node) (X := X) e ms w) = inr (truth e)) ->
  hoare_ms (fun ms => ms = ms0) (select_transitions (X := X) c)
    (fun sets _ =>
       (forall i, i ∈ transSet sets <-> exists t, c_transitions c !! i = Some t /\
          enabled truth ms0 t = true /\
          forall j, j ∈ transSet sets -> j < i -> i ∉ trans_set t_conflicts c j) /\
       (forall i j, i ∈ transSet sets -> j ∈ transSet sets -> i <> j -> j ∉ trans_set t_conflicts c i) /\
       exitSet sets = union_of c t_exitSet (transSet sets) /\
       targetSet sets = union_of c t_target (transSet sets))
    (fun _ => True).
Proof.
  intros WF Htruth.
  set (I := fun dn sets ms => selected c ms0 dn sets ms /\
    (forall i t, i ∈ transSet sets -> c_transitions c !! i = Some t -> enabled truth ms0 t = true) /\
    (forall i t, i ∈ dn -> c_transitions c !! i = Some t -> enabled truth ms0 t = true ->
       i ∈ transSet sets \/ exists j, j ∈ transSet sets /\ j < i /\ i ∈ trans_set t_conflicts c j)).
  eapply hoare_ms_conseq; [apply (select_rule c I)| | |done].
  - intros dn i rest t sets ms Hs Ht (Hsel & Hen & Hall) Hcand (w & Hg). split; [|split].
    + by eapply selected_take.
    + intros j u [->%elem_of_singleton|Hj]%elem_of_union Hu; [|by eapply Hen].
      simplify_eq. rewrite (guard_answer truth) in Hg by done. injection Hg as Hg.
      rewrite candidate_spec in Hcand. bool_prop. unfold enabled. rewrite Hg, andb_true_r.
      unfold eligible in *. by rewrite (sel_config _ _ _ _ _ Hsel), (sel_event _ _ _ _ _ Hsel) in *.
    + cbn [transSet add_transition]. intros j u [Hj| ->%list_elem_of_singleton]%elem_of_app Hu He.
      * destruct (Hall j u Hj Hu He) as [?|(k & ? & ?)]; [left; set_solver|right]. exists k. set_solver.
      * left. set_solver.
  - intros dn i rest t sets ms Hs Ht (Hsel & Hen & Hall) Hno. split; [|split].
    + by apply selected_skip.
    + done.
    + intros j u [Hj| ->%list_elem_of_singleton]%elem_of_app Hu He; [by eapply Hall|].
      simplify_eq. unfold enabled in He. bool_prop. destruct Hno as [Hno|(w & Hg)].
      2:{ rewrite (guard_answer truth) in Hg by done. injection Hg as Hg. congruence. }
      rewrite candidate_spec in Hno.
      assert (Hel : eligible ms t = true).
      { unfold eligible in *. by rewrite (sel_config _ _ _ _ _ Hsel), (sel_event _ _ _ _ _ Hsel). }
      rewrite Hel in Hno. cbn in Hno. bool_prop. rewrite (sel_conflict _ _ _ _ _ Hsel) in Hno.
      apply elem_of_set_bind in Hno as (k & Hk & Hik). right. exists k. split_and!; [done| |done].
      eapply seq_split_lt; [exact Hs|]. by apply (sel_done _ _ _ _ _ Hsel).
  - intros ms ->. split; [apply selected_start|]. split; [set_solver|].
    intros i t Hi. by apply elem_of_nil in Hi.
  - intros sets ms (Hsel & Hen & Hall).
    assert (Hfree : forall i j, i ∈ transSet sets -> j ∈ transSet sets -> i <> j ->
      j ∉ trans_set t_conflicts c i).
    { intros i j Hi Hj Hne. destruct (decide (i < j)); [by apply (sel_free _ _ _ _ _ Hsel)|].
      rewrite (wf_conflict_sym c WF). apply (sel_free _ _ _ _ _ Hsel); [done|done|lia]. }
    split_and!; [|done|by apply Hsel|by apply Hsel]. intros i. split.
    + intros Hi. destruct (sel_eligible _ _ _ _ _ Hsel i Hi) as (t & Ht & _).
      exists t. split_and!; [done|by eapply Hen|]. intros j Hj Hlt. by apply (sel_free _ _ _ _ _ Hsel).
    + intros (t & Ht & He & Hno). assert (Hi : i ∈ seq 0 nt).
      { apply elem_of_seq. apply lookup_lt_Some in Ht. unfold n_transitions. lia. }
      destruct (Hall i t Hi Ht He) as [?|(j & Hj & Hlt & Hc)]; [done|]. by apply Hno in Hc.
Qed.

(** C3: SELECT_TRANSITIONS computes the optimal transition set. If the
    datamodel answers each condition consistently, a transition is selected
    exactly when it is enabled and no selected transition of higher priority
    conflicts with it; the selection is free of conflicts, and the exit and
    target sets are the unions over it. *)
Theorem selection_optimal (truth : string -> bool) ms0 :
  chart_wf c ->
  (forall e ms w, fst (isTrue (node := node) (X := X) e ms w) = inr (truth e)) ->
  hoare_ms (fun ms => ms = ms0) (select_transitions (X := X) c)
    (fun sets _ =>
       (forall i, i ∈ transSet sets <-> exists t, c_transitions c !! i = Some t /\
          enabled truth ms0 t = true /\
          forall j, j ∈ transSet sets -> j < i -> i ∉ trans_set t_conflicts c j) /\
       (forall i j, i ∈ transSet sets -> j ∈ transSet sets -> i <> j -> j ∉ trans_set t_conflicts c i) /\
       exitSet sets = union_of c t_exitSet (transSet sets) /\
       targetSet sets = union_of c t_target (transSet sets))
    (fun _ => True).
Proof. apply select_optimal. Qed.

(** *** The configuration *)

(** C6: a micro step that ends without an exception
    reaches the old configuration without the exit
    set, plus the states of the entry set that are no pseudo states; it marks
    the entered states as initialised, and leaves history, invocations and the
    event alone. *)
Theorem microstep_configuration exits targets trans ms0 :
  in_range c (_configuration ms0) ->
  let entry := fst (establish_entryset c (_configuration ms0) (_history ms0) exits targets trans) in
  hoare_ms (fun ms => ms = ms0) (microstep (X := X) c exits targets trans)
    (fun _ ms =>
       _configuration ms = (_configuration ms0 ∖ exits) ∪ proper_of c entry /\
       _initializedData ms = _initializedData ms0 ∪ (_configuration ms ∖ (_configuration ms0 ∖ exits)) /\
       _history ms = _history ms0 /\ _invocations ms = _invocations ms0 /\ _event ms = _event ms0)
    (fun _ => True).
Proof.
  intros Hr entry. eapply hoare_ms_conseq; [apply (microstep_effect c exits targets trans ms0)|done| |done].
  intros _ ms ->. destruct (microstep_result_fields c exits targets trans ms0 Hr)
    as (Hc & Hd & Hh & Hi & _ & He). cbv zeta in *. by rewrite Hd.
Qed.

(** C26: after REMEMBER_HISTORY a state is recorded exactly if it is active
    and covered by a history whose parent is exited, or was recorded before
    and is covered by no such history. *)
Theorem remember_history_spec config exits history k :
  let covered := exists i, i < n /\ is_history_type (type_of c i) = true /\
    parent_of c i ∈ exits /\ k ∈ completion_of c i in
  k ∈ remember_history c config exits history <->
  (covered /\ k ∈ config) \/ (~ covered /\ k ∈ history).
Proof. cbv zeta. apply remember_history_elem. Qed.

(** *** Invocations and the stable machine *)

Definition managed (i : nat) (ms : MicroState) : MicroState :=
  set_invocations (fun inv => if bool_decide (i ∈ _configuration ms) then {[i]} ∪ inv else inv ∖ {[i]}) ms.

Lemma manage_invocation_effect i : effect (manage_invocation (X := X) c i) (managed i).
Proof.
  unfold manage_invocation.
  set (drop ms := (if negb (bool_decide (i ∈ _configuration ms)) && bool_decide (i ∈ _invocations ms)
    then set_invocations (fun inv => inv ∖ {[i]}) else id) ms).
  set (add ms := (if bool_decide (i ∈ _configuration ms) && negb (bool_decide (i ∈ _invocations ms))
    then set_invocations (fun inv => {[i]} ∪ inv) else id) ms).
  apply effect_ext with (g := fun ms => add (drop ms)).
  - apply effect_getm with (g := fun ms0 ms => add
      ((if negb (bool_decide (i ∈ _configuration ms0)) && bool_decide (i ∈ _invocations ms0)
        then set_invocations (fun inv => inv ∖ {[i]}) else id) ms)).
    intros ms0. refine (effect_bind _ _ (if negb (bool_decide (i ∈ _configuration ms0)) && bool_decide (i ∈ _invocations ms0)
        then set_invocations (fun inv => inv ∖ {[i]}) else id) add _ _).
    { destruct (_ && _); [|apply effect_ret].
      apply effect_skip; [intros; apply uninvoke_all_preserves|intros _; apply effect_update]. }
    intros _. apply effect_getm with (g := fun ms0 =>
      if bool_decide (i ∈ _configuration ms0) && negb (bool_decide (i ∈ _invocations ms0))
      then set_invocations (fun inv => {[i]} ∪ inv) else id).
    intros ms1. destruct (_ && _); [|apply effect_ret].
    apply effect_skip; [intros; apply invoke_all_preserves|intros _; apply effect_update].
  - intros ms. subst add drop. unfold managed. cbv beta. rewrite <- (MicroState_eta ms).
    unfold set_invocations, id. cbn [_flags _configuration _invocations _history _initializedData
      _microstepConfigurations _isCancelled _event].
    repeat (case_bool_decide; cbn [negb andb _flags _configuration _invocations _history _initializedData
      _microstepConfigurations _isCancelled _event]); try done; f_equal; set_solver.
Qed.

Lemma manage_invocations_effect :
  effect (manage_invocations (X := X) c)
    (fun ms => set_invocations (fun inv => (_configuration ms ∩ list_to_set (seq 0 n)) ∪
                                  (inv ∖ list_to_set (seq 0 n))) ms).
Proof.
  unfold manage_invocations. eapply effect_ext; [apply effect_forM; intros; apply manage_invocation_effect|].
  intros ms. cbn beta. generalize (seq 0 n) as l. intros l.
  assert (Hg : forall l inv, foldl (fun ms i => managed i ms) (set_invocations (fun _ => inv) ms) l =
    set_invocations (fun _ => (_configuration ms ∩ list_to_set l) ∪ (inv ∖ list_to_set l)) ms).
  { clear l. induction l as [|i l IH]; intros inv; cbn [foldl list_to_set].
    - unfold set_invocations; f_equal. set_solver.
    - set (inv' := if bool_decide (i ∈ _configuration ms) then {[i]} ∪ inv else inv ∖ {[i]}).
      assert (Hs : managed i (set_invocations (fun _ => inv) ms) = set_invocations (fun _ => inv') ms) by done.
      rewrite Hs, IH. unfold set_invocations; f_equal. clear Hs IH. subst inv'. apply set_eq. intros k.
      case_bool_decide; destruct (decide (k ∈ l)), (decide (k = i)) as [->|]; set_solver. }
  specialize (Hg l (_invocations ms)). 
  replace (set_invocations (fun _ => _invocations ms) ms) with ms in Hg by by destruct ms.
  by rewrite Hg.
Qed.

(** Only the last command decides what a computation returns. *)
Definition returns {A} (m : Step A) (v : A) : Prop :=
  hoare_ms (fun _ => True) m (fun r _ => r = v) (fun _ => True).

Lemma returns_ret {A} (v : A) : returns (mret v) v.
Proof. by apply hoare_ms_ret. Qed.

Lemma returns_bind {A B} (m : Step A) (f : A -> Step B) v :
  (forall a, returns (f a) v) -> returns (m ≫= f) v.
Proof.
  intros Hf st _. unfold mbind, M_bind. destruct (m st) as [[x|a] st']; [done|]. by apply (Hf a st').
Qed.

Lemma returns_getm {A} (f : MicroState -> Step A) v :
  (forall ms, returns (f ms) v) -> returns (getm ≫= f) v.
Proof. intros Hf. apply returns_bind, Hf. Qed.

Lemma select_and_step_returns : returns (select_and_step (X := X) c) USCXML_MICROSTEPPED.
Proof.
  unfold select_and_step, microstep. repeat (first [apply returns_ret | apply returns_bind; intros ?]).
  destruct (has_flag _ _); repeat (first [apply returns_ret | apply returns_bind; intros ?]).
  destruct (establish_entryset _ _ _ _ _ _). repeat (first [apply returns_ret | apply returns_bind; intros ?]).
Qed.

Lemma hoare_ms_returns {A} (P : MicroState -> Prop) (m : Step A) v (Q : A -> MicroState -> Prop) :
  returns m v -> (forall ms, Q v ms) -> hoare_ms P m Q (fun _ => True).
Proof.
  intros Hm HQ st _. specialize (Hm st I). destruct (m st) as [[x|a] st']; [done|]. by subst.
Qed.

(** When a step reports a stable machine (USCXML_MACROSTEPPED) or an
    idle one (USCXML_IDLE), the configuration has not changed in this step and
    exactly the active states have their invokers running; the flag
    USCXML_CTX_STABLE is set. *)
Theorem step_stable blockMs ms0 :
  in_range c (_configuration ms0) -> in_range c (_invocations ms0) ->
  hoare_ms (fun ms => ms = ms0) (step (X := X) c blockMs)
    (fun r ms => r = USCXML_MACROSTEPPED \/ r = USCXML_IDLE ->
       _configuration ms = _configuration ms0 /\ _invocations ms = _configuration ms /\
       has_flag (_flags ms) USCXML_CTX_STABLE = true)
    (fun _ => True).
Proof.
  intros Hc Hi. unfold step. apply hoare_ms_getm. intros ms1 ->.
  destruct (has_flag _ USCXML_CTX_FINISHED); [apply hoare_ms_ret; by intros ? _ [?|?]|].
  destruct (has_flag _ USCXML_CTX_TOP_LEVEL_FINAL).
  { eapply hoare_ms_returns with (v := USCXML_FINISHED); [|by intros ? [?|?]].
    unfold finalize. repeat (first [apply returns_ret | apply returns_bind; intros ?]). }
  destruct (_ =? _)%Z.
  { eapply hoare_ms_returns with (v := USCXML_MICROSTEPPED); [|by intros ? [?|?]]. unfold microstep.
    repeat (first [apply returns_ret | apply returns_bind; intros ?]).
    destruct (establish_entryset _ _ _ _ _ _). repeat (first [apply returns_ret | apply returns_bind; intros ?]). }
  assert (Hev : forall P e, hoare_ms P (process_event (X := X) c e) (fun r ms =>
    r = USCXML_MACROSTEPPED \/ r = USCXML_IDLE -> _configuration ms = _configuration ms0 /\
       _invocations ms = _configuration ms /\ has_flag (_flags ms) USCXML_CTX_STABLE = true) (fun _ => True)).
  { intros P e. eapply hoare_ms_returns; [apply returns_bind; intros; apply select_and_step_returns|by intros ? [?|?]]. }
  destruct (has_flag _ USCXML_CTX_SPONTANEOUS).
  { eapply hoare_ms_returns; [apply returns_bind; intros; apply select_and_step_returns|by intros ? [?|?]]. }
  set (P := fun ms => _configuration ms = _configuration ms0 /\ _invocations ms = _invocations ms0).
  set (R := fun ms => _configuration ms = _configuration ms0 /\ _invocations ms = _configuration ms0).
  eapply hoare_ms_bind with (R := fun _ => P).
  { eapply hoare_ms_conseq; [apply (hoare_ms_call dequeueInternal P)|by intros ? ->|done|done]. }
  intros e. eapply hoare_ms_bind with (R := fun _ => P); [by apply hoare_ms_update|]. intros _.
  destruct (Event_bool e); [apply Hev|].
  eapply hoare_ms_bind with (R := fun _ => R).
  { intros st HP. pose proof (manage_invocations_effect (fst st) st eq_refl) as Hm.
    destruct (manage_invocations c st) as [[x|a] st']; [done|]. rewrite Hm. destruct HP as [HPc HPi].
    split; [done|]. cbn [set_invocations _invocations]. rewrite HPc, HPi. apply set_eq. intros k.
    rewrite elem_of_union, elem_of_difference, elem_of_intersection, elem_of_list_to_set, elem_of_seq.
    split; [intros [[? _]|[Hk Hn]]; [done|]|].
    - apply Hi in Hk. exfalso. apply Hn. lia.
    - intros Hk. left. apply Hc in Hk as Hk'. split; [done|lia]. }
  intros _. apply hoare_ms_getm. intros ms1 HR. destruct (has_flag (_flags ms1) USCXML_CTX_STABLE) eqn:Hst; cbn [negb].
  2:{ eapply hoare_ms_bind with (R := fun _ => R).
      { eapply hoare_ms_conseq; [apply (hoare_ms_call _ R)|by intros ? ->|done|done]. }
      intros _. eapply hoare_ms_bind with (R := fun _ ms => R ms /\ has_flag (_flags ms) USCXML_CTX_STABLE = true).
      { apply hoare_ms_update. intros ms HRm. split; [done|]. cbn [set_flags _flags set_microstepConfigurations].
        unfold has_flag. rewrite Z.land_lor_distr_l. apply negb_true_iff, Z.eqb_neq.
        intros [_ Hz]%Z.lor_eq_0_iff. done. }
      intros _. apply hoare_ms_ret. intros ms [[HRc HRi] Hf] _. by rewrite HRi, HRc. }
  set (R' := fun ms => R ms /\ has_flag (_flags ms) USCXML_CTX_STABLE = true).
  eapply hoare_ms_bind with (R := fun _ => R').
  { eapply hoare_ms_conseq; [apply (hoare_ms_call _ R')|by intros ? ->|done|done]. }
  intros [e' b]. eapply hoare_ms_bind with (R := fun _ => R'); [by apply hoare_ms_update|]. intros _.
  cbn [fst]. destruct (Event_bool e'); [apply Hev|].
  apply hoare_ms_getm. intros ms2 [[HRc HRi] Hf]. destruct (_isCancelled ms2).
  - eapply hoare_ms_returns with (v := USCXML_CANCELLED); [apply returns_bind; intros; apply returns_ret|by intros ? [?|?]].
  - apply hoare_ms_ret. intros ms -> _. by rewrite HRi, HRc.
Qed.

End StepTheorems.

(** *** Finalisation *)

Section Finish.
Context {node W X : Type} {CB : MicroStepCallbacks node W X} (c : Chart node).
Abbreviation n := (n_states c).

Lemma finalize_state_effect i :
  effect (finalize_state (X := X) c i) (set_invocations (fun inv => inv ∖ {[i]})).
Proof.
  unfold finalize_state.
  apply effect_getm with (g := fun _ => set_invocations (fun inv => inv ∖ {[i]})). intros ms0.
  apply effect_skip; [intros; destruct (bool_decide _); [apply run_exit_handlers_preserves|preserve]|intros _].
  apply effect_ext with (g := fun ms => (if bool_decide (i ∈ _invocations ms)
    then set_invocations (fun inv => inv ∖ {[i]}) else id) ms).
  - apply effect_getm with (g := fun ms => if bool_decide (i ∈ _invocations ms)
      then set_invocations (fun inv => inv ∖ {[i]}) else id).
    intros ms1. case_bool_decide; [|apply effect_ret].
    apply effect_skip; [intros; apply uninvoke_all_preserves|intros _; apply effect_update].
  - intros ms. case_bool_decide as Hi; [done|]. rewrite <- (MicroState_eta ms) at 1.
    unfold set_invocations, id. cbn [_flags _configuration _invocations _history _initializedData
      _microstepConfigurations _isCancelled _event]. f_equal. set_solver.
Qed.

Lemma finalize_effect :
  effect (finalize (X := X) c) (fun ms => set_flags (fun f => Z.lor f USCXML_CTX_FINISHED)
    (set_invocations (fun inv => inv ∖ list_to_set (seq 0 n)) ms)).
Proof.
  unfold finalize. apply effect_skip; [intros; preserve|intros _].
  refine (effect_bind _ _ (set_invocations (fun inv => inv ∖ list_to_set (seq 0 n)))
    (set_flags (fun f => Z.lor f USCXML_CTX_FINISHED)) _ _).
  - eapply effect_ext; [apply effect_forM; intros; apply finalize_state_effect|].
    intros ms. cbn beta.
    assert (Hg : forall l inv, foldl (fun ms i => set_invocations (fun inv => inv ∖ {[i]}) ms)
        (set_invocations (fun _ => inv) ms) l = set_invocations (fun _ => inv ∖ list_to_set l) ms).
    { induction l as [|i l IH]; intros inv; cbn [foldl].
      - unfold set_invocations; f_equal. set_solver.
      - change (set_invocations (fun inv => inv ∖ {[i]}) (set_invocations (fun _ => inv) ms))
          with (set_invocations (fun _ => inv ∖ {[i]}) ms). rewrite IH.
        unfold set_invocations; f_equal. set_solver. }
    specialize (Hg (reverse (seq 0 n)) (_invocations ms)).
    replace (set_invocations (fun _ => _invocations ms) ms) with ms in Hg by by destruct ms.
    rewrite Hg. unfold set_invocations; f_equal. apply set_eq. intros k.
    by rewrite !elem_of_difference, !elem_of_list_to_set, elem_of_reverse.
  - intros _. apply effect_then_skip; [apply effect_update|]. intros; preserve.
Qed.

(** Once a top-level final state is reached or the machine cancelled
    (USCXML_CTX_TOP_LEVEL_FINAL), the next step, if its callbacks do not throw,
    reports USCXML_FINISHED, leaves the configuration intact, has no invoker
    running and sets USCXML_CTX_FINISHED; every further step reports
    USCXML_FINISHED, calls nothing and changes nothing. *)
Theorem step_finish blockMs ms0 :
  in_range c (_invocations ms0) ->
  has_flag (_flags ms0) USCXML_CTX_TOP_LEVEL_FINAL = true ->
  has_flag (_flags ms0) USCXML_CTX_FINISHED = false ->
  hoare_ms (fun ms => ms = ms0) (step (X := X) c blockMs)
    (fun r ms => r = USCXML_FINISHED /\ _configuration ms = _configuration ms0 /\ _invocations ms = ∅ /\
       has_flag (_flags ms) USCXML_CTX_FINISHED = true /\
       forall blockMs' w, step (X := X) c blockMs' (ms, w) = (inr USCXML_FINISHED, (ms, w)))
    (fun _ => True).
Proof.
  intros Hinv Htop Hfin. unfold step at 1. apply hoare_ms_getm. intros ms1 ->. rewrite Hfin, Htop.
  intros st Hst0. pose proof (finalize_effect ms0 st Hst0) as He. clear Hst0.
  assert (Hr : returns (finalize (X := X) c) USCXML_FINISHED).
  { unfold finalize. repeat (first [apply returns_ret | apply returns_bind; intros ?]). }
  specialize (Hr st I). destruct (finalize c st) as [[x|r] st'] eqn:Hst; [done|]. rewrite He. clear He.
  assert (Hf : has_flag (Z.lor (_flags ms0) USCXML_CTX_FINISHED) USCXML_CTX_FINISHED = true).
  { unfold has_flag. rewrite Z.land_lor_distr_l. apply negb_true_iff, Z.eqb_neq.
    intros [_ Hz]%Z.lor_eq_0_iff. done. }
  split_and!; [done|done| |done|].
  - cbn [set_flags set_invocations _invocations]. apply set_eq. intros k.
    rewrite elem_of_difference, elem_of_list_to_set, elem_of_seq. split; [|set_solver].
    intros [Hk Hn]. exfalso. apply Hn. apply Hinv in Hk. lia.
  - intros b w. unfold step, mbind, M_bind, getm. cbn [fst _flags set_flags set_invocations]. by rewrite Hf.
Qed.

End Finish.

(** *** The order of executable content *)

Section Order.
Context {node : Type} (truth : string -> bool) (throws : node -> bool) (c : Chart node).
Abbreviation n := (n_states c).
Abbreviation nt := (n_transitions c).
Notation World := (World node).
#[local] Instance recording : MicroStepCallbacks node World unit := recorder truth throws.
Notation Step := (@Step World unit).

Definition element_calls (i : nat) (f : node -> MonitorCall node) : list (Call node) :=
  match c_states c !! i with Some s => [CMonitor (f (s_element s))] | None => [] end.

(** The calls of a state that is exited, of a transition that is taken. *)
Definition exit_calls (i : nat) : list (Call node) :=
  element_calls i beforeExitingState ++ (CProcess <$> state_list c s_onExit i) ++
  element_calls i afterExitingState.

Definition transition_calls (t : Transition node) : list (Call node) :=
  [CMonitor (beforeTakingTransition (t_element t))] ++
  match t_onTrans t with Some block => [CProcess block] | None => [] end ++
  [CMonitor (afterTakingTransition (t_element t))].

Definition take_calls (j : nat) : list (Call node) :=
  match c_transitions c !! j with
  | Some t => if pseudo_transition t then [] else transition_calls t
  | None => []
  end.

Definition with_calls (w : World) (calls : list (Call node)) : World :=
  mkWorld (w_internal w) (w_external w) (w_trace w ++ calls).

Lemma with_calls_app w l1 l2 : with_calls (with_calls w l1) l2 = with_calls w (l1 ++ l2).
Proof. unfold with_calls. simpl. by rewrite (assoc_L (++)). Qed.

Lemma with_calls_nil w : with_calls w [] = w.
Proof. destruct w. unfold with_calls. simpl. by rewrite app_nil_r. Qed.

(** [m] runs through and logs [calls]. *)
Definition logs {A} (m : Step A) (ms : MicroState) (a : A) (ms' : MicroState) (calls : list (Call node)) : Prop :=
  forall w, m (ms, w) = (inr a, (ms', with_calls w calls)).

Lemma logs_ret {A} (a : A) ms : logs (mret a) ms a ms [].
Proof. intros w. by rewrite with_calls_nil. Qed.

Lemma logs_bind {A B} (m : Step A) (f : A -> Step B) ms a ms1 b ms2 l1 l2 :
  logs m ms a ms1 l1 -> logs (f a) ms1 b ms2 l2 -> logs (m ≫= f) ms b ms2 (l1 ++ l2).
Proof.
  intros Hm Hf w. unfold mbind, M_bind. rewrite Hm, Hf. by rewrite with_calls_app.
Qed.

Lemma logs_monitor m ms : logs (call (monitor (X := unit) m)) ms tt ms [CMonitor m].
Proof. done. Qed.

Lemma logs_process block ms : logs (try_ (call (process (X := unit) block))) ms tt ms [CProcess block].
Proof. intros w. unfold try_, call. simpl. unfold log_throw. by destruct (throws block). Qed.

Lemma logs_update f ms : logs (update (X := unit) f) ms tt (f ms) [].
Proof. intros w. rewrite with_calls_nil. done. Qed.

Lemma logs_forM {A} (l : list A) (f : A -> Step unit) ms (g : A -> list (Call node)) :
  (forall x, logs (f x) ms tt ms (g x)) -> logs (forM_ l f) ms tt ms (flat_map g l).
Proof.
  intros Hf. induction l as [|x l IH]; [apply logs_ret|]. simpl. eapply logs_bind; [apply Hf|exact IH].
Qed.

Lemma flat_map_single {A B} (f : A -> B) l : flat_map (fun x => [f x]) l = f <$> l.
Proof. induction l as [|x l IH]; [done|]. simpl. by rewrite IH. Qed.

Lemma logs_blocks (blocks : list node) ms :
  logs (forM_ blocks (fun block => try_ (call (process (X := unit) block)))) ms tt ms (CProcess <$> blocks).
Proof. rewrite <- flat_map_single. apply logs_forM. intros. apply logs_process. Qed.

Lemma logs_element i f ms :
  logs (with_element c i (fun e => call (monitor (X := unit) (f e)))) ms tt ms (element_calls i f).
Proof. unfold with_element, element_calls. case_match; [apply logs_monitor|apply logs_ret]. Qed.

Lemma logs_exit_state exits i ms :
  i ∈ exits -> i ∈ _configuration ms ->
  logs (exit_state c exits i) ms tt (set_configuration (fun conf => conf ∖ {[i]}) ms) (exit_calls i).
Proof.
  intros Hi Hc w. unfold exit_state, mbind at 1, M_bind at 1, getm. cbn [fst].
  rewrite !bool_decide_eq_true_2 by done. cbn [andb]. revert w.
  change (logs (with_element c i (fun e => call (monitor (X := unit) (beforeExitingState e)));;
    run_exit_handlers c i;; update (set_configuration (fun conf => conf ∖ {[i]}));;
    with_element c i (fun e => call (monitor (afterExitingState e)))) ms tt
    (set_configuration (fun conf => conf ∖ {[i]}) ms) (exit_calls i)).
  unfold exit_calls. eapply logs_bind; [apply logs_element|].
  eapply logs_bind; [apply logs_blocks|].
  change (element_calls i afterExitingState) with ([] ++ element_calls i afterExitingState).
  eapply logs_bind; [apply logs_update|apply logs_element].
Qed.

Lemma logs_exit_skip exits i ms :
  ~ (i ∈ exits /\ i ∈ _configuration ms) -> logs (exit_state (X := unit) c exits i) ms tt ms [].
Proof.
  intros Hn w. rewrite with_calls_nil. unfold exit_state, mbind, M_bind, getm. cbn [fst].
  destruct (bool_decide _ && bool_decide _) eqn:Hb; [|done]. bool_prop. tauto.
Qed.

Lemma logs_exit_states exits (Y : gset nat) l : forall ms, NoDup l ->
  (forall i, i ∈ l -> i ∈ Y <-> i ∈ exits /\ i ∈ _configuration ms) ->
  exists ms', logs (forM_ l (exit_state (X := unit) c exits)) ms tt ms'
    (flat_map exit_calls (filter (fun i => i ∈ Y) l)).
Proof.
  induction l as [|i l IH]; intros ms Hnd HY; [exists ms; apply logs_ret|].
  inversion Hnd as [|? ? Hi Hnd']; subst. cbn [forM_].
  pose proof (HY i ltac:(by left)) as HYi. destruct (decide (i ∈ Y)) as [Hin|Hn].
  - rewrite filter_cons_True by done. apply HYi in Hin as [He Hc].
    destruct (IH (set_configuration (fun conf => conf ∖ {[i]}) ms) Hnd') as [ms' Hl].
    { intros j Hj. rewrite HY by (by right). cbn [set_configuration _configuration].
      rewrite elem_of_difference, elem_of_singleton. split; [|tauto].
      intros [? ?]. split_and!; [done|done|]. by intros ->. }
    exists ms'. cbn [flat_map]. eapply logs_bind; [by apply logs_exit_state|exact Hl].
  - rewrite filter_cons_False by done. destruct (IH ms Hnd') as [ms' Hl].
    { intros j Hj. apply HY. by right. }
    exists ms'. change (flat_map exit_calls ?l) with ([] ++ flat_map exit_calls l).
    eapply logs_bind; [apply logs_exit_skip; by rewrite <- HYi|exact Hl].
Qed.

Lemma logs_take_transitions trans ms :
  logs (take_transitions (X := unit) c trans) ms tt ms (flat_map take_calls (bits nt trans)).
Proof.
  unfold take_transitions. apply logs_forM. intros j. unfold with_transition, take_calls.
  destruct (c_transitions c !! j) as [t|]; [|apply logs_ret].
  destruct (pseudo_transition t); [apply logs_ret|]. unfold take_transition, transition_calls.
  eapply logs_bind; [apply logs_monitor|]. eapply logs_bind; [|apply logs_monitor].
  destruct (t_onTrans t); [apply logs_process|apply logs_ret].
Qed.

Definition is_done (call : Call node) : Prop := match call with CDone _ _ => True | _ => False end.

(** A computation that at most raises done events and keeps [f]. *)
Definition logs_done (m : Step unit) : Prop := forall ms, exists ms' dn,
  logs m ms tt ms' dn /\ Forall is_done dn /\
  _configuration ms' = _configuration ms /\ _initializedData ms' = _initializedData ms.

Lemma logs_done_ret : logs_done (mret tt).
Proof. intros ms. exists ms, []. split; [apply logs_ret|done]. Qed.

Lemma logs_done_raise p d : logs_done (call (raiseDoneEvent (X := unit) p d)).
Proof. intros ms. exists ms, [CDone p d]. split; [done|]. split; [by repeat constructor|done]. Qed.

Lemma logs_done_bind (m1 m2 : Step unit) : logs_done m1 -> logs_done m2 -> logs_done (m1;; m2).
Proof.
  intros H1 H2 ms. destruct (H1 ms) as (ms1 & l1 & Hl1 & Hd1 & Hc1 & Hi1).
  destruct (H2 ms1) as (ms2 & l2 & Hl2 & Hd2 & Hc2 & Hi2). exists ms2, (l1 ++ l2).
  split; [eapply logs_bind; [exact Hl1|exact Hl2]|]. split; [by apply Forall_app|]. split; congruence.
Qed.

Lemma logs_done_getm (f : MicroState -> Step unit) : (forall ms, logs_done (f ms)) -> logs_done (getm ≫= f).
Proof. intros Hf ms. apply (Hf ms ms). Qed.

Lemma raise_parallel_done_logs fuel : forall p, logs_done (raise_parallel_done (X := unit) c fuel p).
Proof.
  induction fuel as [|fuel IH]; intros p; cbn [raise_parallel_done]; [apply logs_done_ret|].
  destruct (0 <? _); [|apply logs_done_ret]. cbv zeta.
  destruct (is_parallel _ _); [|apply logs_done_ret]. apply logs_done_getm. intros ms.
  apply logs_done_bind; [|apply IH]. destruct (bool_decide _); [|apply logs_done_ret].
  case_match; [apply logs_done_raise|apply logs_done_ret].
Qed.

Lemma enter_final_logs i : logs_done (enter_final (X := unit) c i).
Proof.
  unfold enter_final. destruct (_ && _).
  - intros ms. exists (set_flags (fun f => Z.lor f USCXML_CTX_TOP_LEVEL_FINAL) ms), [].
    split; [apply logs_update|done].
  - apply logs_done_bind; [|apply raise_parallel_done_logs].
    repeat case_match; first [apply logs_done_raise|apply logs_done_ret].
Qed.

(** The default transitions of the histories and the initial below [i]. *)
Definition pseudo_calls (trans : gset nat) (i j : nat) : list (Call node) :=
  match c_transitions c !! j with
  | Some t =>
      if bool_decide (j ∈ trans) && pseudo_transition t && (parent_of c (t_source t) =? i)
      then transition_calls t else []
  | None => []
  end.

Definition enter_calls (D trans : gset nat) (i : nat) : list (Call node) :=
  element_calls i beforeEnteringState ++
  (if bool_decide (i ∈ D) then [] else CInitData <$> state_list c s_data i) ++
  (CProcess <$> state_list c s_onEntry i) ++
  element_calls i afterEnteringState ++
  flat_map (pseudo_calls trans i) (seq 0 nt).

Lemma logs_take_transition t ms : logs (take_transition (X := unit) t) ms tt ms (transition_calls t).
Proof.
  unfold take_transition, transition_calls. eapply logs_bind; [apply logs_monitor|].
  eapply logs_bind; [|apply logs_monitor]. destruct (t_onTrans t); [apply logs_process|apply logs_ret].
Qed.

Lemma logs_pseudo trans i ms :
  logs (take_pseudo_transitions (X := unit) c trans i) ms tt ms (flat_map (pseudo_calls trans i) (seq 0 nt)).
Proof.
  unfold take_pseudo_transitions. apply logs_forM. intros j. unfold with_transition, pseudo_calls.
  destruct (c_transitions c !! j) as [t|]; [|apply logs_ret].
  destruct (_ && _); [apply logs_take_transition|apply logs_ret].
Qed.

Lemma logs_getm {A} (f : MicroState -> Step A) ms a ms' l :
  logs (f ms) ms a ms' l -> logs (getm ≫= f) ms a ms' l.
Proof. done. Qed.

Lemma logs_init_data i ms :
  exists ms', logs (init_state_data (X := unit) c i) ms tt ms'
    (if bool_decide (i ∈ _initializedData ms) then [] else CInitData <$> state_list c s_data i) /\
  _configuration ms' = _configuration ms /\ _initializedData ms' = {[i]} ∪ _initializedData ms.
Proof.
  destruct (decide (i ∈ _initializedData ms)) as [Hi|Hi].
  - exists ms. rewrite bool_decide_eq_true_2 by done. split; [|split; [done|set_solver]].
    apply logs_getm. rewrite bool_decide_eq_true_2 by done. apply logs_ret.
  - exists (set_initializedData (fun d => {[i]} ∪ d) ms). rewrite bool_decide_eq_false_2 by done.
    split; [|done]. apply logs_getm. rewrite bool_decide_eq_false_2 by done.
    rewrite <- (app_nil_r (CInitData <$> _)). eapply logs_bind; [|apply logs_update].
    rewrite <- flat_map_single. by apply logs_forM.
Qed.

Lemma logs_enter_state trans i ms :
  i ∉ _configuration ms -> is_pseudo_type (type_of c i) = false ->
  exists ms' dn, logs (enter_state (X := unit) c trans i) ms tt ms' (enter_calls (_initializedData ms) trans i ++ dn) /\
    Forall is_done dn /\ _configuration ms' = {[i]} ∪ _configuration ms /\
    _initializedData ms' = {[i]} ∪ _initializedData ms.
Proof.
  intros Hc Hp.
  destruct (logs_init_data i (set_configuration (fun conf => {[i]} ∪ conf) ms)) as (ms1 & Hi & Hc1 & Hd1).
  cbn [set_configuration _configuration _initializedData] in Hc1, Hd1.
  assert (Hf : logs_done (if is_final c i then enter_final c i else mret tt)).
  { destruct (is_final c i); [apply enter_final_logs|apply logs_done_ret]. }
  destruct (Hf ms1) as (ms2 & dn & Hl & Hdn & Hc2 & Hd2). exists ms2, dn.
  split; [|split; [done|split; congruence]].
  unfold enter_state. apply logs_getm. rewrite bool_decide_eq_false_2 by done. rewrite Hp.
  unfold enter_calls. rewrite <- !(assoc_L (++)).
  eapply logs_bind; [apply logs_element|].
  match goal with |- logs _ _ _ _ ?l => rewrite <- (app_nil_l l) end.
  eapply logs_bind; [apply logs_update|]. eapply logs_bind; [exact Hi|].
  eapply logs_bind; [apply logs_blocks|]. eapply logs_bind; [apply logs_element|].
  eapply logs_bind; [apply logs_pseudo|exact Hl].
Qed.

Lemma logs_enter_skip trans i ms :
  i ∈ _configuration ms \/ is_pseudo_type (type_of c i) = true ->
  logs (enter_state (X := unit) c trans i) ms tt ms [].
Proof.
  intros Hs. unfold enter_state. apply logs_getm. case_bool_decide; [apply logs_ret|].
  destruct Hs as [?|Hp]; [done|]. rewrite Hp. apply logs_ret.
Qed.

Definition entry_part (D trans : gset nat) (i : nat) (calls : list (Call node)) : Prop :=
  exists dn, calls = enter_calls D trans i ++ dn /\ Forall is_done dn.

Lemma logs_enter_states trans (Y D : gset nat) l : forall ms, NoDup l ->
  (forall i, i ∈ l -> (i ∈ Y <-> i ∉ _configuration ms /\ is_pseudo_type (type_of c i) = false) /\
                      (i ∈ D <-> i ∈ _initializedData ms)) ->
  exists ms' ls, logs (forM_ l (enter_state (X := unit) c trans)) ms tt ms' (concat ls) /\
    Forall2 (entry_part D trans) (filter (fun i => i ∈ Y) l) ls.
Proof.
  induction l as [|i l IH]; intros ms Hnd HY; [exists ms, []; split; [apply logs_ret|constructor]|].
  inversion Hnd as [|? ? Hi Hnd']; subst. cbn [forM_].
  destruct (HY i ltac:(by left)) as [HYi HDi]. destruct (decide (i ∈ Y)) as [Hin|Hn].
  - rewrite filter_cons_True by done. apply HYi in Hin as [Hc Hp].
    destruct (logs_enter_state trans i ms Hc Hp) as (ms1 & dn & Hl & Hdn & Hc1 & Hd1).
    destruct (IH ms1 Hnd') as (ms2 & ls & Hl2 & HF).
    { intros j Hj. assert (j <> i) by (by intros ->). rewrite Hc1, Hd1.
      destruct (HY j ltac:(by right)) as [HYj HDj]. rewrite HYj, HDj, !elem_of_union, !elem_of_singleton.
      split; split; tauto. }
    exists ms2, ((enter_calls (_initializedData ms) trans i ++ dn) :: ls).
    split; [cbn [concat]; eapply logs_bind; [exact Hl|exact Hl2]|]. constructor; [|done].
    exists dn. split; [|done]. unfold enter_calls. by rewrite (bool_decide_ext _ _ HDi).
  - rewrite filter_cons_False by done. destruct (IH ms Hnd') as (ms2 & ls & Hl2 & HF).
    { intros j Hj. apply HY. by right. }
    exists ms2, ls. split; [|done]. rewrite <- (app_nil_l (concat ls)).
    eapply logs_bind; [|exact Hl2]. apply logs_enter_skip.
    destruct (decide (i ∈ _configuration ms)); [by left|right].
    destruct (is_pseudo_type _) eqn:Hp; [done|]. exfalso. apply Hn, HYi. done.
Qed.

Lemma logs_note_configuration ms :
  exists ms' l, logs (note_configuration (node := node) (X := unit)) ms tt ms' l /\
    (l = [] \/ l = [CMonitor (reportIssue endless_loop_warning)]).
Proof.
  eexists _, (if bool_decide (_configuration ms ∈ _microstepConfigurations ms)
    then [CMonitor (reportIssue endless_loop_warning)] else []).
  split; [|case_match; auto]. apply logs_getm. match goal with |- logs _ _ _ _ ?l => rewrite <- (app_nil_r l) end.
  eapply logs_bind; [|apply logs_update]. unfold when. case_match; [apply logs_monitor|apply logs_ret].
Qed.

(** C5: a micro step first exits the active states of the exit set in
    reverse document order, each with its onexit blocks, then runs the content
    of the selected transitions in their order, then enters the new states in
    document order: data first unless it was initialised before, onentry
    blocks, the content of the default transitions below the state, done
    events. A block that throws does not disturb the order. *)
Theorem microstep_order exits targets trans ms w :
  in_range c (_configuration ms) ->
  let '(entry, trans') := establish_entryset c (_configuration ms) (_history ms) exits targets trans in
  exists ms' ls rest,
    microstep (X := unit) c exits targets trans (ms, w) = (inr USCXML_MICROSTEPPED, (ms', with_calls w
      (flat_map exit_calls (reverse (bits n (exits ∩ _configuration ms))) ++
       flat_map take_calls (bits nt trans') ++ concat ls ++ rest))) /\
    Forall2 (entry_part (_initializedData ms) trans')
      (bits n (proper_of c entry ∖ (_configuration ms ∖ exits))) ls /\
    (rest = [CMonitor afterMicroStep] \/
     rest = [CMonitor afterMicroStep; CMonitor (reportIssue endless_loop_warning)]).
Proof.
  intros Hr. destruct (establish_entryset _ _ _ _ _ _) as [entry trans'] eqn:HE.
  destruct (logs_exit_states exits (exits ∩ _configuration ms) (reverse (seq 0 n)) ms)
    as [ms1 Hexit].
  { rewrite reverse_Permutation. apply NoDup_seq. }
  { intros i _. by rewrite elem_of_intersection. }
  rewrite filter_reverse in Hexit. fold (bits n (exits ∩ _configuration ms)) in Hexit.
  pose proof (exit_states_effect (X := unit) c exits ms (ms, w) eq_refl) as Heff.
  unfold exit_states in Heff. rewrite Hexit in Heff. cbn [fst] in Heff.
  set (Y := proper_of c entry ∖ (_configuration ms ∖ exits)).
  destruct (logs_enter_states trans' Y (_initializedData ms) (bits n entry) ms1) as (ms2 & ls & Henter & HF).
  { apply NoDup_filter, NoDup_seq. }
  { intros i [Hi Hin]%elem_of_bits. subst Y ms1. cbn [set_configuration _configuration _initializedData].
    split; [|done]. rewrite !elem_of_difference, elem_of_proper_of, elem_of_intersection, elem_of_list_to_set, elem_of_seq.
    split; [intros [(_ & _ & ?) Hn]|intros [Hn ?]]; split_and!; try done; [intros [? He]|intros [? He]];
      apply Hn; (split; [done|]); [intros ?; apply He; split; [done|lia]|by intros [? _]]. }
  assert (HY : filter (fun i => i ∈ Y) (bits n entry) = bits n Y).
  { unfold bits. rewrite list_filter_filter. apply list_filter_iff. intros i.
    subst Y. rewrite elem_of_difference, elem_of_proper_of. tauto. }
  rewrite HY in HF.
  assert (Hrest : exists ms3 rest, logs (call (monitor (X := unit) afterMicroStep);; note_configuration;;
      mret USCXML_MICROSTEPPED) ms2 USCXML_MICROSTEPPED ms3 rest /\
    (rest = [CMonitor afterMicroStep] \/
     rest = [CMonitor afterMicroStep; CMonitor (reportIssue endless_loop_warning)])).
  { destruct (logs_note_configuration ms2) as (ms3 & l & Hnote & Hl). exists ms3, (CMonitor afterMicroStep :: l).
    split; [|destruct Hl as [->| ->]; auto]. rewrite <- (app_nil_r l).
    eapply (logs_bind _ _ _ _ _ _ _ [_]); [apply logs_monitor|].
    eapply logs_bind; [exact Hnote|apply logs_ret]. }
  destruct Hrest as (ms3 & rest & Hrest & Hcases). exists ms3, ls, rest. split; [|done].
  revert w. change (logs (microstep (X := unit) c exits targets trans) ms USCXML_MICROSTEPPED ms3
    (flat_map exit_calls (reverse (bits n (exits ∩ _configuration ms))) ++
     flat_map take_calls (bits nt trans') ++ concat ls ++ rest)).
  unfold microstep. apply logs_getm. rewrite HE.
  eapply logs_bind; [exact Hexit|]. eapply logs_bind; [apply logs_take_transitions|].
  eapply logs_bind; [exact Henter|exact Hrest].
Qed.

End Order.

(** ** Witnesses *)

Definition toggle_doc : list row := rows
  (Xml "scxml" [("initial", "a")] []
    [Xml "state" [("id", "a")] []
       [Xml "invoke" [] [] []; Xml "onexit" [] [] [];
        Xml "transition" [("event", "e"); ("cond", "c1"); ("target", "b")] [] [];
        Xml "transition" [("event", "e"); ("target", "f")] [] []];
     Xml "state" [("id", "b")] [] [Xml "onentry" [] [] []];
     Xml "final" [("id", "f")] [] []]).

Definition toggle_laws : @DomLaws nat (table_dom toggle_doc) := table_laws toggle_doc eq_refl.
Definition toggle_chart : Chart nat := default (mkChart [] [] ∅ EARLY) (init (table_dom toggle_doc) 0).

Lemma toggle_chart_wf : chart_wf toggle_chart.
Proof.
  apply (init_chart_wf (D := resortStates 0 "") (DL := resortStates_laws (DL := toggle_laws) 0 "") 0).
  assert (Hi : init (table_dom toggle_doc) 0 = Some toggle_chart) by (by vm_compute). exact Hi.
Qed.

(** In state a, processing the event e. *)
Definition in_a : MicroState :=
  mkMicroState USCXML_CTX_INITIALIZED {[0; 1]} {[0; 1]} ∅ {[0; 1]} ∅ false (external "e").

Definition no_c1 : MicroStepCallbacks nat (World nat) unit := recorder (fun _ => false) (fun _ => true).

Lemma selection_optimal_witness : exists sets,
  fst (select_transitions (CB := no_c1) toggle_chart (in_a, world_of [])) = inr sets /\
  1 ∈ transSet sets.
Proof.
  pose proof (selection_optimal (CB := no_c1) toggle_chart (fun _ => false) in_a toggle_chart_wf
    (fun _ _ _ => eq_refl) (in_a, world_of []) eq_refl) as Hsel.
  destruct (select_transitions (CB := no_c1) toggle_chart (in_a, world_of [])) as [[x|sets] st] eqn:E.
  - assert (Hn : match fst (select_transitions (CB := no_c1) toggle_chart (in_a, world_of [])) with
                 | inl _ => False | inr _ => True end) by (by vm_compute).
    rewrite E in Hn. done.
  - exists sets. split; [done|]. destruct Hsel as (Hiff & _). apply Hiff.
    destruct (c_transitions toggle_chart !! 1) as [t|] eqn:Et; [|by vm_compute in Et].
    exists t. split; [done|]. split.
    + assert (Ho : (enabled (CB := no_c1) (fun _ => false) in_a <$> (c_transitions toggle_chart !! 1)) = Some true)
        by (by vm_compute). rewrite Et in Ho. by injection Ho.
    + intros j Hj Hlt. assert (j = 0) as -> by lia. apply Hiff in Hj as (t0 & Ht0 & He & _).
      assert (Ho : (enabled (CB := no_c1) (fun _ => false) in_a <$> (c_transitions toggle_chart !! 0)) = Some false)
        by (by vm_compute). rewrite Ht0 in Ho. injection Ho as Ho. congruence.
Defined.

Lemma in_a_range : in_range toggle_chart (_configuration in_a).
Proof. intros i Hi. assert (i < 2) by set_solver by lia. vm_compute. lia. Qed.

Lemma microstep_configuration_witness :
  hoare_ms (fun ms => ms = in_a) (microstep (CB := no_c1) toggle_chart {[1]} {[2]} {[0]})
    (fun _ ms => 1 ∉ _configuration ms) (fun _ => True).
Proof.
  pose proof (microstep_configuration (CB := no_c1) toggle_chart {[1]} {[2]} {[0]} in_a in_a_range) as H.
  cbv zeta in H. refine (hoare_ms_post _ _ _ _ _ H _).
  intros r ms (Hc & _). rewrite Hc. apply (bool_decide_unpack _). by vm_compute.
Defined.

Lemma step_stable_witness :
  hoare_ms (fun ms => ms = in_a) (step (CB := no_c1) toggle_chart 0%Z)
    (fun r ms => r = USCXML_MACROSTEPPED -> _invocations ms = {[0; 1]}) (fun _ => True).
Proof.
  pose proof (step_stable (CB := no_c1) toggle_chart 0%Z in_a in_a_range in_a_range) as H.
  cbv zeta in H. refine (hoare_ms_post _ _ _ _ _ H _).
  intros r ms Hs Hr. destruct (Hs (or_introl Hr)) as (Hc & Hi & _). by rewrite Hi, Hc.
Defined.

Definition in_a_final : MicroState := set_flags (fun f => Z.lor f USCXML_CTX_TOP_LEVEL_FINAL) in_a.

Lemma step_finish_witness :
  hoare_ms (fun ms => ms = in_a_final) (step (CB := no_c1) toggle_chart 0%Z)
    (fun r ms => r = USCXML_FINISHED /\ _invocations ms = ∅) (fun _ => True).
Proof.
  pose proof (step_finish (CB := no_c1) toggle_chart 0%Z in_a_final in_a_range eq_refl eq_refl) as H.
  cbv zeta in H. refine (hoare_ms_post _ _ _ _ _ H _).
  intros r ms (Hr & _ & Hi & _). done.
Defined.

Lemma microstep_order_witness : exists ms' calls,
  microstep (CB := no_c1) toggle_chart {[1]} {[2]} {[0]} (in_a, world_of []) =
    (inr USCXML_MICROSTEPPED, (ms', with_calls (world_of []) calls)) /\
  take 3 calls = [CMonitor (beforeExitingState 1); CProcess 3; CMonitor (afterExitingState 1)].
Proof.
  pose proof (microstep_order (fun _ => false) (fun _ => true) toggle_chart {[1]} {[2]} {[0]} in_a
    (world_of []) in_a_range) as Ho.
  destruct (establish_entryset _ _ _ _ _ _) as [entry trans'].
  destruct Ho as (ms' & ls & rest & Hm & _). eexists ms', _. split; [exact Hm|].
  assert (Hx : flat_map (exit_calls toggle_chart) (reverse (bits (n_states toggle_chart)
    ({[1]} ∩ _configuration in_a))) = [CMonitor (beforeExitingState 1); CProcess 3; CMonitor (afterExitingState 1)])
    by (by vm_compute).
  by rewrite Hx.
Defined.
