(* ===== verification/EventQueue.v ===== *)
(** * Event queues: [BasicEventQueue] and [BasicDelayedEventQueue]

    A queue is shared between threads: every operation holds the mutex, and a
    blocked [dequeue] releases it while it waits. The delayed queue keeps a
    map of pending events and drives libevent, which is not part of the
    sources: the model records the calls made to it, and lets the timer
    callback of any pending event run at any time, in its two critical
    sections. *)

From stdpp Require Import base list gmap strings.
From S2P Require Import Prelude Strings Data.

Local Open Scope nat_scope.

(** ** [BasicEventQueue] *)

Module BasicEventQueue.

Definition queue : Type := list Event.

Definition SIZE_MAX : Z := (2 ^ 64 - 1)%Z.

Definition enqueue (event : Event) (_queue : queue) : queue := _queue ++ [event].
Definition reset (_queue : queue) : queue := [].

(** The waiting loop. Each element of the schedule is one return from the wait
    on the condition variable: what other threads enqueued meanwhile, and
    whether the clock has passed the end time. [None]: still waiting. *)
Fixpoint wait (forever expired : bool) (schedule : list (list Event * bool)) (_queue : queue)
    : option queue :=
  match _queue with
  | [] =>
      if negb forever && expired then Some []
      else match schedule with
           | [] => None
           | (arrived, expired) :: schedule => wait forever expired schedule (_queue ++ arrived)
           end
  | _ => Some _queue
  end.

Definition await (blockMs : Z) (expired : bool) (schedule : list (list Event * bool)) (_queue : queue)
    : option queue :=
  if (blockMs =? SIZE_MAX)%Z then wait true expired schedule _queue
  else if (0 <? blockMs)%Z then wait false expired schedule _queue
  else Some _queue.

Definition dequeue (blockMs : Z) (expired : bool) (schedule : list (list Event * bool)) (_queue : queue)
    : option (Event * queue) :=
  match await blockMs expired schedule _queue with
  | Some (event :: rest) => Some (event, rest)
  | Some [] => Some (Event_default "", [])
  | None => None
  end.

Definition serialize (_queue : queue) : Data :=
  match _queue with
  | [] => Data_empty
  | _ => Data_put "BasicEventQueue"
           (set_array (imap (fun i event => (Z.of_nat i, e_data event)) _queue) Data_empty) Data_empty
  end.

Definition deserialize (data : Data) (_queue : queue) : queue :=
  if hasKey data "BasicEventQueue"
  then _queue ++ ((fun '(_, event) => Event_fromData "" event) <$> d_array (Data_at data "BasicEventQueue"))
  else _queue.

(** *** A queue under use *)

Inductive op := Enqueue (event : Event) | Dequeue.

(** Run non-blocking operations; collect the events that were dequeued. *)
Fixpoint run (ops : list op) (_queue : queue) : list Event * queue :=
  match ops with
  | [] => ([], _queue)
  | Enqueue e :: ops => run ops (enqueue e _queue)
  | Dequeue :: ops =>
      match dequeue 0 false [] _queue with
      | Some (e, rest) =>
          let '(out, q) := run ops rest in
          (match _queue with [] => out | _ => e :: out end, q)
      | None => ([], _queue)
      end
  end.

Definition enqueued (ops : list op) : list Event :=
  omap (fun o => match o with Enqueue e => Some e | Dequeue => None end) ops.

Lemma wait_spec forever schedule : forall expired (q : queue) q',
  wait forever expired schedule q = Some q' ->
  exists arrived, q' = q ++ arrived /\ (forever = true -> q' <> []) /\
    exists k, arrived = concat (take k schedule).*1.
Proof.
  induction schedule as [|[arr ex] sched IH]; intros expired q q'.
  - destruct q as [|e q]; cbn.
    + destruct forever; [done|]. destruct expired; [|done]. intros [= <-]. exists []. split; [done|].
      split; [done|]. by exists 0.
    + intros [= <-]. exists []. rewrite app_nil_r. split; [done|]. split; [done|]. by exists 0.
  - destruct q as [|e q]; cbn.
    + destruct (negb forever && expired) eqn:Hb.
      * intros [= <-]. exists []. split; [done|]. bool_prop. split; [by intros ->|by exists 0].
      * intros (arrived & -> & Hne & k & ->)%IH. eexists. split; [done|]. split; [done|]. by exists (S k).
    + intros [= <-]. exists []. rewrite app_nil_r. split; [done|]. split; [done|]. by exists 0.
Qed.

Lemma wait_wakes forever schedule : forall expired,
  (exists arr, arr ∈ schedule.*1 /\ arr <> []) -> is_Some (wait forever expired schedule []).
Proof.
  induction schedule as [|[arr ex] sched IH]; intros expired (a & Ha & Hne); [by apply elem_of_nil in Ha|].
  cbn. destruct (negb forever && expired); [by eexists|].
  destruct arr as [|e arr].
  - apply IH. exists a. split; [|done]. cbn in Ha. apply elem_of_cons in Ha as [->|?]; done.
  - destruct sched; by eexists.
Qed.

Lemma dequeue_now (q : queue) :
  dequeue 0 false [] q = Some (match q with [] => (Event_default "", []) | e :: rest => (e, rest) end).
Proof. by destruct q. Qed.

(** The queue is first in, first out and loses nothing: what was dequeued,
    followed by what is left, is what was there, followed by what was enqueued. *)
Lemma fifo ops (q : queue) :
  let '(out, rest) := run ops q in out ++ rest = q ++ enqueued ops.
Proof.
  revert q. induction ops as [|[e|] ops IH]; intros q; cbn.
  - by rewrite app_nil_r.
  - specialize (IH (enqueue e q)). destruct (run ops _) as [out q']. rewrite IH.
    unfold enqueue. by rewrite <- (assoc_L (++)).
  - rewrite dequeue_now. destruct q as [|x q].
    + specialize (IH []). by destruct (run ops []) as [out q'].
    + specialize (IH q). destruct (run ops q) as [out q']. cbn. by rewrite IH.
Qed.

(** A blocking dequeue returns as soon as another thread has enqueued an
    event, and then the oldest one; without a time limit it never returns the
    empty event of a time-out. *)
Theorem dequeue_blocking blockMs expired schedule :
  (0 < blockMs)%Z -> (exists arr, arr ∈ schedule.*1 /\ arr <> []) ->
  exists event rest, dequeue blockMs expired schedule [] = Some (event, rest) /\
    ((event = Event_default "" /\ rest = [] /\ (blockMs <> SIZE_MAX)%Z) \/
     exists k, event :: rest = concat (take k schedule).*1).
Proof.
  intros Hb Hw. unfold dequeue, await.
  assert (H0 : (0 <? blockMs)%Z = true) by by apply Z.ltb_lt.
  destruct (blockMs =? SIZE_MAX)%Z eqn:HM.
  - destruct (wait_wakes true schedule expired Hw) as [q' Hq]. rewrite Hq.
    apply wait_spec in Hq as (arr & -> & Hne & k & ->). cbn in *.
    destruct (concat _) as [|e r] eqn:Hc; [by destruct (Hne eq_refl)|].
    exists e, r. split; [done|]. right. by exists k.
  - rewrite H0. destruct (wait_wakes false schedule expired Hw) as [q' Hq]. rewrite Hq.
    apply wait_spec in Hq as (arr & -> & _ & k & ->). cbn.
    destruct (concat _) as [|e r] eqn:Hc.
    + eexists _, _. split; [done|]. left. split_and!; [done|done|]. by apply Z.eqb_neq.
    + exists e, r. split; [done|]. right. by exists k.
Qed.

Lemma dequeue_blocking_witness : exists event rest,
  dequeue SIZE_MAX false [([], true); ([Event_named "a" EXTERNAL], false)] [] = Some (event, rest) /\
  e_name event = "a"%string.
Proof.
  destruct (dequeue_blocking SIZE_MAX false [([], true); ([Event_named "a" EXTERNAL], false)])
    as (event & rest & Hd & Hcase); [done| |].
  - exists [Event_named "a" EXTERNAL]. split; [apply list_elem_of_further, list_elem_of_here|done].
  - exists event, rest. split; [exact Hd|]. vm_compute in Hd. by injection Hd as <- _.
Defined.

(** A serialised queue restores only the data of its events: every event
    comes back as [Event::fromData] of its data, so a plain
    event loses its name. *)
Theorem deserialize_serialize (q : queue) :
  deserialize (serialize q) [] = (fun event => Event_fromData "" (e_data event)) <$> q /\
  e_name <$> deserialize (serialize [Event_named "a" EXTERNAL]) [] = [""%string].
Proof.
  split; [|by vm_compute]. unfold deserialize, serialize. destruct q as [|e q]; [done|].
  rewrite hasKey_put_eq, Data_at_put_eq. cbn [app set_array d_array Data_empty].
  generalize (e :: q) as l. intros l. change (d_array (set_array ?a Data_empty)) with a.
  rewrite fmap_imap. apply list_eq. intros i. rewrite list_lookup_imap, list_lookup_fmap.
  by destruct (l !! i).
Qed.

End BasicEventQueue.

(** ** [BasicDelayedEventQueue] *)

Module BasicDelayedEventQueue.

(** A [timeval]. *)
Record timeval := mkTimeval { tv_sec : Z; tv_usec : Z }.

Definition to_int32 (z : Z) : Z := ((z + 2 ^ 31) mod 2 ^ 32 - 2 ^ 31)%Z.

Definition delay_of (delayMs : Z) : timeval :=
  mkTimeval (to_int32 (delayMs / 1000)) (to_int32 ((delayMs mod 1000) * 1000)).

(** [evutil_timeradd]: POSIX timeradd. *)
Definition timeradd (a b : timeval) : timeval :=
  let usec := (tv_usec a + tv_usec b)%Z in
  if (1000000 <=? usec)%Z then mkTimeval (tv_sec a + tv_sec b + 1) (usec - 1000000)
  else mkTimeval (tv_sec a + tv_sec b) usec.

Definition microseconds (t : timeval) : Z := (tv_sec t * 1000000 + tv_usec t)%Z.

(** The handle is the [struct event] that [event_new] returned. *)
Record callbackData := mkCallbackData {
  userData : Event;
  handle : nat;
  added : timeval;
  due : timeval;
}.

(** Calls to libevent. *)
Inductive LoopCall :=
| event_new (h : nat) (eventUUID : string)
| event_add (h : nat) (delay : timeval)
| event_del (h : nat)
| event_free (h : nat).

(** [_timer] is the position of the timer thread: between the two critical
    sections of [timerCallback] for an event, or outside; [ready] lists the
    calls of [eventReady]. *)
Record state := mkState {
  _callbackData : gmap string callbackData;
  _queue : list Event;
  _timer : option (string * Event);
  calls : list LoopCall;
  ready : list (string * Event);
}.

Definition log (cs : list LoopCall) (st : state) : state :=
  mkState (_callbackData st) (_queue st) (_timer st) (calls st ++ cs) (ready st).
Definition set_callbackData f st :=
  mkState (f (_callbackData st)) (_queue st) (_timer st) (calls st) (ready st).

Definition cancelDelayed (eventId : string) (st : state) : state :=
  match _callbackData st !! eventId with
  | Some cb => set_callbackData (delete eventId) (log [event_del (handle cb); event_free (handle cb)] st)
  | None => st
  end.

(** [now] and [h] are what the clock and [event_new] return. *)
Definition enqueueDelayed (now : timeval) (h : nat) (event : Event) (delayMs : Z) (eventUUID : string)
    (st : state) : state :=
  let st := match _callbackData st !! eventUUID with
            | Some _ => cancelDelayed eventUUID st
            | None => st
            end in
  let delay := delay_of delayMs in
  set_callbackData <[eventUUID := mkCallbackData event h now (timeradd delay now)]>
    (log [event_new h eventUUID; event_add h delay] st).

(** The first entry of the map, until there is none. *)
Definition sorted_keys {V} (m : gmap string V) : list string :=
  merge_sort String.le (map_to_list m).*1.

Definition cancelAllDelayed (st : state) : state :=
  foldl (fun st uuid => cancelDelayed uuid st) st (sorted_keys (_callbackData st)).

Definition reset (st : state) : state :=
  let st := cancelAllDelayed st in
  mkState (_callbackData st) [] (_timer st) (calls st) (ready st).

(** The first critical section of [timerCallback], for a pending event. *)
Definition timer_begin (eventUUID : string) (st : state) : state :=
  match _callbackData st !! eventUUID with
  | Some cb =>
      let st := log [event_free (handle cb)] st in
      mkState (_callbackData st) (_queue st) (Some (eventUUID, userData cb)) (calls st) (ready st)
  | None => st
  end.

(** The call of [eventReady] and the second critical section. *)
Definition timer_end (st : state) : state :=
  match _timer st with
  | Some (eventUUID, event) =>
      mkState (delete eventUUID (_callbackData st)) (_queue st) None (calls st)
        (ready st ++ [(eventUUID, event)])
  | None => st
  end.

(** The timer callback when no other thread comes in between. *)
Definition timerCallback (eventUUID : string) (st : state) : state := timer_end (timer_begin eventUUID st).

Definition initial : state := mkState ∅ [] None [] [].

Definition handles (st : state) : list nat := handle <$> (map_to_list (_callbackData st)).*2.

Definition allocated (cs : list LoopCall) : list nat :=
  omap (fun c => match c with event_new h _ => Some h | _ => None end) cs.
Definition freed (cs : list LoopCall) : list nat :=
  omap (fun c => match c with event_free h => Some h | _ => None end) cs.

(** Operations of the threads. [Timer] is a whole callback; [TimerBegin] and
    [TimerEnd] are its halves. [event_new] returns memory that is not in use. *)
Inductive step (interleaved : bool) : state -> state -> Prop :=
| step_enqueue now h event delayMs uuid st :
    h ∉ allocated (calls st) -> step interleaved st (enqueueDelayed now h event delayMs uuid st)
| step_cancel uuid st : step interleaved st (cancelDelayed uuid st)
| step_cancelAll st : step interleaved st (cancelAllDelayed st)
| step_reset st : step interleaved st (reset st)
| step_timer uuid st : step interleaved st (timerCallback uuid st)
| step_timer_begin uuid st : interleaved = true -> _timer st = None -> step interleaved st (timer_begin uuid st)
| step_timer_end st : interleaved = true -> step interleaved st (timer_end st).

Definition reachable (interleaved : bool) : state -> Prop := rtc (step interleaved) initial.

(** *** Discipline of the handles *)

(** Every handle is allocated once; those not freed yet are exactly the
    handles of the pending events. *)
Record disciplined (st : state) : Prop := {
  dis_idle : _timer st = None;
  dis_alloc : NoDup (allocated (calls st));
  dis_freed : NoDup (freed (calls st));
  dis_pending u cb : _callbackData st !! u = Some cb ->
    handle cb ∈ allocated (calls st) /\ handle cb ∉ freed (calls st);
  dis_distinct u v cb cb' : _callbackData st !! u = Some cb -> _callbackData st !! v = Some cb' ->
    handle cb = handle cb' -> u = v;
  dis_all h : h ∈ allocated (calls st) -> h ∈ freed (calls st) \/
    exists u cb, _callbackData st !! u = Some cb /\ handle cb = h;
  dis_only h : h ∈ freed (calls st) -> h ∈ allocated (calls st);
}.

Lemma allocated_app cs cs' : allocated (cs ++ cs') = allocated cs ++ allocated cs'.
Proof. apply omap_app. Qed.
Lemma freed_app cs cs' : freed (cs ++ cs') = freed cs ++ freed cs'.
Proof. apply omap_app. Qed.

(** Releasing one pending event, with or without [event_del]. *)
Lemma disciplined_release u cb cs st st' :
  disciplined st -> _callbackData st !! u = Some cb ->
  allocated cs = [] -> freed cs = [handle cb] -> _timer st' = None ->
  _callbackData st' = delete u (_callbackData st) -> calls st' = calls st ++ cs -> disciplined st'.
Proof.
  intros [Ht Ha Hf Hp Hd Hall Ho] Hu HA HF Ht' Hc Hcs.
  destruct (Hp u cb Hu) as [Hin Hnf].
  split; rewrite ?Hc, ?Hcs, ?allocated_app, ?freed_app, ?HA, ?HF, ?app_nil_r; try done.
  - apply NoDup_app. split; [done|]. split; [|apply NoDup_singleton].
    intros h Hh ->%list_elem_of_singleton. done.
  - intros v cb' [Hne Hv]%lookup_delete_Some. destruct (Hp v cb' Hv) as [? ?]. split; [done|].
    intros [?|Heq%list_elem_of_singleton]%elem_of_app; [done|].
    apply Hne. by apply (Hd u v cb cb' Hu Hv).
  - intros v w cb1 cb2 [_ H1]%lookup_delete_Some [_ H2]%lookup_delete_Some. by apply Hd.
  - intros h Hh. destruct (Hall h Hh) as [?|(v & cb' & Hv & <-)].
    + left. apply elem_of_app. by left.
    + destruct (decide (v = u)) as [->|Hne].
      * simplify_eq. left. apply elem_of_app. right. by left.
      * right. exists v, cb'. split; [|done]. by rewrite lookup_delete_ne.
  - intros h [Hh|Heq%list_elem_of_singleton]%elem_of_app; [by apply Ho|by subst].
Qed.

Lemma disciplined_cancel u st : disciplined st -> disciplined (cancelDelayed u st).
Proof.
  intros HD. unfold cancelDelayed. destruct (_callbackData st !! u) as [cb|] eqn:E; [|done].
  eapply (disciplined_release u cb [event_del (handle cb); event_free (handle cb)]); try done. apply HD.
Qed.

Lemma disciplined_timer u st : disciplined st -> disciplined (timerCallback u st).
Proof.
  intros HD. unfold timerCallback, timer_begin. destruct (_callbackData st !! u) as [cb|] eqn:E.
  - eapply (disciplined_release u cb [event_free (handle cb)]); done.
  - unfold timer_end. by rewrite (dis_idle _ HD).
Qed.

Lemma cancel_lookup u v st : _callbackData (cancelDelayed u st) !! v =
  if decide (u = v) then None else _callbackData st !! v.
Proof.
  unfold cancelDelayed. destruct (_callbackData st !! u) eqn:E; cbn.
  - case_decide as H; [subst; by rewrite lookup_delete_eq|by rewrite lookup_delete_ne].
  - case_decide; [by subst|done].
Qed.

Lemma cancel_allocated u st : allocated (calls (cancelDelayed u st)) = allocated (calls st).
Proof.
  unfold cancelDelayed. destruct (_callbackData st !! u); [|done]. cbn.
  rewrite allocated_app. apply app_nil_r.
Qed.

Lemma disciplined_add now h event delay u st :
  disciplined st -> h ∉ allocated (calls st) -> _callbackData st !! u = None ->
  disciplined (set_callbackData <[u := mkCallbackData event h now (timeradd delay now)]>
    (log [event_new h u; event_add h delay] st)).
Proof.
  intros [Ht Ha Hf Hp Hd Hall Ho] Hh Hu.
  assert (HA : allocated (calls st ++ [event_new h u; event_add h delay]) = allocated (calls st) ++ [h])
    by (by rewrite allocated_app).
  assert (HF : freed (calls st ++ [event_new h u; event_add h delay]) = freed (calls st))
    by (rewrite freed_app; apply app_nil_r).
  assert (Hfresh : forall v cb, _callbackData st !! v = Some cb -> handle cb <> h).
  { intros v cb Hv <-. by apply Hh, (Hp v). }
  split; cbn [set_callbackData log calls _callbackData _timer]; rewrite ?HA, ?HF; try done.
  - apply NoDup_app. split; [done|]. split; [|apply NoDup_singleton].
    intros k Hk ->%list_elem_of_singleton. done.
  - intros v cb [[<- <-]|[_ Hv]]%lookup_insert_Some; cbn.
    + split; [apply elem_of_app; right; by left|]. intros Hf'. by apply Hh, Ho.
    + destruct (Hp v cb Hv). split; [apply elem_of_app; by left|done].
  - intros v w cb1 cb2 [[<- <-]|[_ Hv]]%lookup_insert_Some [[<- <-]|[_ Hw]]%lookup_insert_Some; cbn.
    + done.
    + intros He. by destruct (Hfresh w cb2 Hw).
    + intros He. by destruct (Hfresh v cb1 Hv).
    + by apply Hd.
  - intros k [Hk| ->%list_elem_of_singleton]%elem_of_app.
    + destruct (Hall k Hk) as [?|(v & cb & Hv & <-)]; [by left|right]. exists v, cb. split; [|done].
      rewrite lookup_insert_ne; [done|]. by intros ->; rewrite Hu in Hv.
    + right. eexists u, _. split; [by rewrite lookup_insert_eq|done].
  - intros k Hk. apply elem_of_app. left. by apply Ho.
Qed.

Lemma disciplined_enqueue now h event delayMs u st :
  disciplined st -> h ∉ allocated (calls st) -> disciplined (enqueueDelayed now h event delayMs u st).
Proof.
  intros HD Hh. unfold enqueueDelayed.
  assert (Hst : (match _callbackData st !! u with Some _ => cancelDelayed u st | None => st end) = cancelDelayed u st).
  { unfold cancelDelayed. by destruct (_callbackData st !! u). }
  rewrite Hst. apply disciplined_add; [by apply disciplined_cancel|by rewrite cancel_allocated|].
  rewrite cancel_lookup. by case_decide.
Qed.

Lemma disciplined_cancelAll st : disciplined st -> disciplined (cancelAllDelayed st).
Proof.
  intros HD. unfold cancelAllDelayed. generalize (sorted_keys (_callbackData st)) as ks.
  intros ks. revert st HD. induction ks as [|u ks IH]; intros st HD; [done|].
  apply IH. by apply disciplined_cancel.
Qed.

Lemma disciplined_initial : disciplined initial.
Proof.
  split; cbn; try constructor; try done; intros *; rewrite ?lookup_empty; try done; by intros ?%elem_of_nil.
Qed.

Lemma disciplined_step st st' : disciplined st -> step false st st' -> disciplined st'.
Proof.
  intros HD. inversion 1; subst; try done.
  - by apply disciplined_enqueue.
  - by apply disciplined_cancel.
  - by apply disciplined_cancelAll.
  - destruct (disciplined_cancelAll st HD) as [? ? ? ? ? ? ?]. unfold reset. by split.
  - by apply disciplined_timer.
Qed.

Lemma cancelAll_empty st : _callbackData (cancelAllDelayed st) = ∅.
Proof.
  assert (Hg : forall ks st u, _callbackData (foldl (fun st uuid => cancelDelayed uuid st) st ks) !! u =
    if decide (u ∈ ks) then None else _callbackData st !! u).
  { clear st. induction ks as [|k ks IH]; intros st u; cbn [foldl].
    - case_decide as H; [by apply elem_of_nil in H|done].
    - rewrite IH, cancel_lookup. repeat case_decide; subst; try done; exfalso; set_solver. }
  apply map_eq. intros u. unfold cancelAllDelayed. rewrite Hg, lookup_empty.
  case_decide as Hn; [done|]. destruct (_callbackData st !! u) as [cb|] eqn:E; [|done].
  exfalso. apply Hn. unfold sorted_keys. rewrite merge_sort_Permutation.
  apply list_elem_of_fmap. exists (u, cb). split; [done|]. by apply elem_of_map_to_list.
Qed.

(** As long as no other thread gets in between the two critical sections
    of a timer callback, every event that was allocated in libevent is freed
    at most once, and those not freed yet are exactly the ones of the pending
    events; cancelling everything frees them all. *)
Theorem handles_freed_once st :
  reachable false st ->
  NoDup (freed (calls st)) /\
  (forall h, h ∈ allocated (calls st) -> h ∉ freed (calls st) <->
     exists u cb, _callbackData st !! u = Some cb /\ handle cb = h) /\
  allocated (calls (cancelAllDelayed st)) ≡ₚ freed (calls (cancelAllDelayed st)).
Proof.
  intros Hr.
  assert (HD : disciplined st).
  { unfold reachable in Hr. revert Hr. generalize disciplined_initial. intros Hi Hr.
    induction Hr as [st|st st1 st2 Hs _ IH]; [done|]. apply IH. by eapply disciplined_step. }
  split; [apply HD|]. split.
  - intros h Hh. split.
    + intros Hn. by destruct (dis_all _ HD h Hh).
    + intros (u & cb & Hu & <-). by apply (dis_pending _ HD u).
  - pose proof (disciplined_cancelAll st HD) as HC. pose proof (cancelAll_empty st) as He.
    apply NoDup_Permutation; [apply HC|apply HC|]. intros h. split; [|apply HC].
    intros Hh. destruct (dis_all _ HC h Hh) as [?|(u & cb & Hu & _)]; [done|].
    rewrite He, lookup_empty in Hu. done.
Qed.

Definition delayed (uuid : string) : Event := mkEvent "" "tick" EXTERNAL "" "" "" false "" Data_empty [] [] uuid.
Definition one_pending : state := enqueueDelayed (mkTimeval 0 0) 0 (delayed "u") 1500 "u" initial.

Lemma handles_freed_once_witness : allocated (calls (cancelAllDelayed one_pending)) ≡ₚ [0].
Proof.
  destruct (handles_freed_once one_pending) as (_ & _ & Hp).
  - apply rtc_once. apply step_enqueue. by intros ?%elem_of_nil.
  - rewrite Hp. by vm_compute.
Defined.

(** Between its two critical sections the timer callback has freed the
    event but still lists it as pending, so a cancellation by another thread
    at that moment passes the freed event to event_del and event_free again,
    and the cancelled event is delivered all the same. *)
Theorem cancel_race :
  exists st, reachable true st /\ freed (calls st) = [0; 0] /\
    calls st = [event_new 0 "u"; event_add 0 (mkTimeval 1 500000); event_free 0; event_del 0; event_free 0] /\
    ready st = [("u"%string, delayed "u")].
Proof.
  exists (timer_end (cancelDelayed "u" (timer_begin "u" one_pending))).
  split; [|split_and!; by vm_compute].
  eapply rtc_l; [apply (step_enqueue true (mkTimeval 0 0) 0 (delayed "u") 1500 "u"); by intros ?%elem_of_nil|].
  eapply rtc_l; [apply (step_timer_begin true "u"); done|].
  eapply rtc_l; [apply (step_cancel true "u")|].
  apply rtc_once. by apply step_timer_end.
Qed.

(** A delay below 2^31 seconds is not truncated: the due time lies exactly
    the delay after the time of sending, as a normalised timeval. *)
Theorem due_after_delay now h event delayMs uuid st :
  (0 <= delayMs < 2 ^ 31 * 1000)%Z -> (0 <= tv_usec now < 1000000)%Z ->
  exists cb, _callbackData (enqueueDelayed now h event delayMs uuid st) !! uuid = Some cb /\
    userData cb = event /\ (0 <= tv_usec (due cb) < 1000000)%Z /\
    microseconds (due cb) = (microseconds now + delayMs * 1000)%Z.
Proof.
  intros Hd Hu. eexists. split; [unfold enqueueDelayed; cbn; apply lookup_insert_eq|].
  split; [done|]. cbn [due]. unfold timeradd, delay_of. cbn [tv_sec tv_usec].
  assert (Hi : forall z, (0 <= z < 2 ^ 31)%Z -> to_int32 z = z).
  { intros z Hz. unfold to_int32. rewrite Z.mod_small by lia. lia. }
  pose proof (Z.mod_pos_bound delayMs 1000 ltac:(lia)) as Hm.
  pose proof (Z.div_mod delayMs 1000 ltac:(lia)) as Hdm.
  rewrite !Hi by (split; [apply Z.mul_nonneg_nonneg || apply Z.div_pos; lia|]; try lia; apply Z.div_lt_upper_bound; lia).
  destruct (Z.leb_spec 1000000 (delayMs mod 1000 * 1000 + tv_usec now)); cbn [tv_usec tv_sec microseconds];
    unfold microseconds; cbn [tv_usec tv_sec]; lia.
Qed.

Lemma due_after_delay_witness :
  exists cb, _callbackData one_pending !! "u"%string = Some cb /\ microseconds (due cb) = 1500000%Z.
Proof.
  destruct (due_after_delay (mkTimeval 0 0) 0 (delayed "u") 1500 "u" initial) as (cb & Hc & _ & _ & Hm);
    [lia|cbn; lia|]. exists cb. split; [exact Hc|]. rewrite Hm. reflexivity.
Defined.

(** Serialisation goes through the queue of [BasicEventQueue], which only
    [enqueue] fills, and stores the data of its events. *)
Definition serialize (now : timeval) (st : state) : Data :=
  match _queue st with
  | [] => Data_empty
  | _ => Data_put "BasicDelayedEventQueue"
           (set_array (imap (fun i event => (Z.of_nat i, e_data event)) (_queue st)) Data_empty) Data_empty
  end.

(** The handles [hs] are what [event_new] returns. *)
Fixpoint restore (now : timeval) (hs : list nat) (entries : list Data) (st : state) : state :=
  match hs, entries with
  | h :: hs, d :: entries =>
      let e := Event_fromData "" (Data_at d "event") in
      restore now hs entries (enqueueDelayed now h e (Z.of_nat (strTo_size (d_atom (Data_at d "delay")))) (e_uuid e) st)
  | _, _ => st
  end.

Definition deserialize (now : timeval) (hs : list nat) (data : Data) (st : state) : state :=
  if hasKey data "BasicDelayedEventQueue"
  then restore now hs (d_array (Data_at data "BasicDelayedEventQueue")).*2 st else st.

Lemma reachable_queue b st : reachable b st -> _queue st = [].
Proof.
  assert (Hcancel : forall u st, _queue (cancelDelayed u st) = _queue st).
  { intros u s. unfold cancelDelayed. by destruct (_callbackData s !! u). }
  assert (Hbegin : forall u st, _queue (timer_begin u st) = _queue st).
  { intros u s. unfold timer_begin. by destruct (_callbackData s !! u). }
  assert (Hend : forall st, _queue (timer_end st) = _queue st).
  { intros s. unfold timer_end. by destruct (_timer s) as [[]|]. }
  assert (Hall : forall st, _queue (cancelAllDelayed st) = _queue st).
  { intros s. unfold cancelAllDelayed. generalize (sorted_keys (_callbackData s)) as ks. intros ks.
    revert s. induction ks as [|u ks IH]; intros s; [done|]. cbn [foldl]. by rewrite IH, Hcancel. }
  assert (Hs : forall st st', step b st st' -> _queue st = [] -> _queue st' = []).
  { intros s s'. inversion 1; subst; rewrite ?Hcancel, ?Hall, ?Hbegin, ?Hend; try done.
    - unfold enqueueDelayed. destruct (_callbackData s !! uuid); cbn; by rewrite ?Hcancel.
    - unfold timerCallback. by rewrite Hend, Hbegin. }
  unfold reachable. intros Hr. assert (H0 : _queue initial = []) by done.
  revert Hr H0. generalize initial. intros s0 Hr. induction Hr as [|s1 s2 s3 H1 _ IH]; [done|].
  intros H0. apply IH. by eapply Hs.
Qed.

(** Serialising a delayed queue keeps none of its pending events: the
    result is empty whatever is pending, so restoring it leaves a queue as it
    was. *)
Theorem serialize_forgets b now hs st st' :
  reachable b st -> serialize now st = Data_empty /\ deserialize now hs (serialize now st) st' = st'.
Proof. intros Hr%reachable_queue. unfold serialize. by rewrite Hr. Qed.

Lemma serialize_forgets_witness :
  is_Some (_callbackData one_pending !! "u"%string) /\ serialize (mkTimeval 0 0) one_pending = Data_empty.
Proof.
  split; [by vm_compute; eexists|].
  apply (serialize_forgets false (mkTimeval 0 0) [] one_pending initial).
  apply rtc_once. apply step_enqueue. by intros ?%elem_of_nil.
Defined.

End BasicDelayedEventQueue.
