(* ===== verification/Content.v ===== *)
(** * Executable content: [BasicContentExecutor]

    The interpreter of executable content, invocations and done events. The
    rest of the interpreter is behind the class [ContentExecutorCallbacks]
    (ContentExecutorImpl.h); UUIDs, URLs, the XML parser and custom executable
    content are behind [ContentPlatform]. The executor's own state are the
    invoke ids it attaches to the DOM and its custom elements. Assertions are
    compiled out, as in a release build. *)

From stdpp Require Import base list gmap strings.
From S2P Require Import Prelude Strings Dom Predicates Data Effects Numbers.

Local Open Scope nat_scope.

(** ** Exceptions *)

(** What is thrown: an [ErrorEvent], an [Event], or anything else. Two more
    ways not to return are no exceptions and never caught: [Undefined] stands
    for undefined behaviour of the C++, [Blocked] for a thread that is still
    waiting. *)
Inductive Exn := ErrorEvent (e : Event) | PlainEvent (e : Event) | OtherException | Undefined | Blocked.

Section Catch.
Context {St A : Type}.

(** [catch (ErrorEvent e)], and [catch (Event e)], which an [ErrorEvent] matches too. *)
Definition catch_error (m : M Exn St A) (h : Event -> M Exn St A) : M Exn St A := fun s =>
  match m s with (inl (ErrorEvent e), s') => h e s' | r => r end.
Definition catch_event (m : M Exn St A) (h : Event -> M Exn St A) : M Exn St A := fun s =>
  match m s with
  | (inl (ErrorEvent e), s') | (inl (PlainEvent e), s') => h e s'
  | r => r
  end.
(** Both clauses on one [try]. *)
Definition catch_error_event (m : M Exn St A) (h h' : Event -> M Exn St A) : M Exn St A := fun s =>
  match m s with
  | (inl (ErrorEvent e), s') => h e s'
  | (inl (PlainEvent e), s') => h' e s'
  | r => r
  end.
(** [try { m } catch (...) { }] with the result of [m], if any. *)
Definition attempt (m : M Exn St A) : M Exn St (option A) := fun s =>
  match m s with
  | (inl Undefined, s') => (inl Undefined, s')
  | (inl Blocked, s') => (inl Blocked, s')
  | (inl _, s') => (inr None, s')
  | (inr a, s') => (inr (Some a), s')
  end.
End Catch.

(** ** Members of an event *)

Definition set_name name (e : Event) : Event :=
  mkEvent (e_raw e) name (e_eventType e) (e_origin e) (e_origintype e) (e_sendid e)
    (e_hideSendId e) (e_invokeid e) (e_data e) (e_namelist e) (e_params e) (e_uuid e).
Definition set_eventType type (e : Event) : Event :=
  mkEvent (e_raw e) (e_name e) type (e_origin e) (e_origintype e) (e_sendid e)
    (e_hideSendId e) (e_invokeid e) (e_data e) (e_namelist e) (e_params e) (e_uuid e).
Definition set_sendid sendid (e : Event) : Event :=
  mkEvent (e_raw e) (e_name e) (e_eventType e) (e_origin e) (e_origintype e) sendid
    (e_hideSendId e) (e_invokeid e) (e_data e) (e_namelist e) (e_params e) (e_uuid e).
Definition set_hideSendId b (e : Event) : Event :=
  mkEvent (e_raw e) (e_name e) (e_eventType e) (e_origin e) (e_origintype e) (e_sendid e)
    b (e_invokeid e) (e_data e) (e_namelist e) (e_params e) (e_uuid e).
Definition set_invokeid invokeid (e : Event) : Event :=
  mkEvent (e_raw e) (e_name e) (e_eventType e) (e_origin e) (e_origintype e) (e_sendid e)
    (e_hideSendId e) invokeid (e_data e) (e_namelist e) (e_params e) (e_uuid e).
Definition set_data data (e : Event) : Event :=
  mkEvent (e_raw e) (e_name e) (e_eventType e) (e_origin e) (e_origintype e) (e_sendid e)
    (e_hideSendId e) (e_invokeid e) data (e_namelist e) (e_params e) (e_uuid e).
Definition set_namelist f (e : Event) : Event :=
  mkEvent (e_raw e) (e_name e) (e_eventType e) (e_origin e) (e_origintype e) (e_sendid e)
    (e_hideSendId e) (e_invokeid e) (e_data e) (f (e_namelist e)) (e_params e) (e_uuid e).
Definition set_params f (e : Event) : Event :=
  mkEvent (e_raw e) (e_name e) (e_eventType e) (e_origin e) (e_origintype e) (e_sendid e)
    (e_hideSendId e) (e_invokeid e) (e_data e) (e_namelist e) (f (e_params e)) (e_uuid e).

(** [e.data.compound[key] = value] *)
Definition annotate (key : string) (value : Data) (e : Event) : Event :=
  set_data (Data_put key value (e_data e)) e.

(** The macros [ERROR_EXECUTION], [ERROR_EXECUTION2] and [ERROR_COMMUNICATION]. *)
Definition ERROR (uuid name cause file line : string) : Event :=
  set_eventType PLATFORM (set_name name
    (annotate "line" (Data_atom line INTERPRETED) (annotate "file" (Data_atom file VERBATIM)
      (annotate "cause" (Data_atom cause VERBATIM) (Event_default uuid))))).
Definition ERROR_EXECUTION (uuid cause file line : string) : Event :=
  ERROR uuid "error.execution" cause file line.
Definition ERROR_EXECUTION2 (uuid cause file line xpath : string) : Event :=
  annotate "xpath" (Data_atom xpath VERBATIM) (ERROR uuid "error.execution" cause file line).
Definition ERROR_COMMUNICATION (uuid cause file line : string) : Event :=
  ERROR uuid "error.communication" cause file line.

(** ** The surroundings *)

Inductive ContentMonitor (node : Type) :=
| beforeExecutingContent (block : node) | afterExecutingContent (block : node)
| beforeInvoking (invoke : node) (invokeid : string) | afterInvoking (invoke : node) (invokeid : string)
| beforeUninvoking (invoke : node) (invokeid : string) | afterUninvoking (invoke : node) (invokeid : string).
Arguments beforeExecutingContent {node}. Arguments afterExecutingContent {node}.
Arguments beforeInvoking {node}. Arguments afterInvoking {node}.
Arguments beforeUninvoking {node}. Arguments afterUninvoking {node}.

Module BasicContentExecutor.

(** What the executor reads of a DOM node besides [DomOps]; [indeterminate] is
    the type of a [Data] made from a node, which its constructor does not set. *)
Class ContentDom (node : Type) := {
  getNamespaceURI : node -> string;
  getAttributes : node -> list (string * string);
  firstChildText : node -> option string;
  address : node -> positive;
  indeterminate : DataType;
}.

Class ContentExecutorCallbacks (node W : Type) := {
  enqueueInternal : Event -> M Exn W unit;
  cancelDelayed : string -> M Exn W unit;
  isTrue : string -> M Exn W bool;
  getLength : string -> M Exn W Z;
  setForeach : string -> string -> string -> Z -> M Exn W unit;
  evalAsData : string -> M Exn W Data;
  eval : string -> M Exn W unit;
  getAsData : string -> M Exn W Data;
  assign : string -> Data -> list (string * string) -> M Exn W unit;
  isValidExprSyntax : string -> M Exn W bool;
  getInvokeId : M Exn W string;
  getBaseURL : M Exn W string;
  checkValidSendType : string -> string -> M Exn W unit;
  enqueue : string -> string -> Z -> Event -> M Exn W unit;
  invoke_ : string -> string -> bool -> option node -> Event -> M Exn W unit;
  uninvoke_ : string -> M Exn W unit;
  getCurrentEvent : M Exn W Event;
  getMonitors : ContentMonitor node -> M Exn W unit;
  log : string -> Data -> M Exn W unit;
  createExecutableContent : string -> string -> M Exn W nat;
}.

(** [parseDocument] parses what an URL refers to and imports it; [adopt]
    replaces the child elements of an element by an imported node. Custom
    content is a handle. *)
Class ContentPlatform (node W : Type) := {
  getUUID : M Exn W string;
  isAbsolute : string -> bool;
  resolve : string -> string -> string;
  getInContent : string -> M Exn W string;
  parseDocument : string -> M Exn W positive;
  adopt : node -> positive -> M Exn W unit;
  hasExecutableContent : string -> string -> bool;
  enterElement : nat -> node -> M Exn W unit;
  processChildren : nat -> M Exn W bool;
  exitElement : nat -> node -> M Exn W unit;
}.

(** The executor: user data "invokeid" of DOM nodes, and [_customExecContent]. *)
Record Executor (node : Type) `{Countable node} := mkExecutor {
  invokeIds : gmap node string;
  _customExecContent : gmap node nat;
}.
Arguments mkExecutor {node _ _}. Arguments invokeIds {node _ _}. Arguments _customExecContent {node _ _}.

Section Executor.
Context {node W : Type} `{Countable node} {D : DomOps node} {CD : ContentDom node}
  {CB : ContentExecutorCallbacks node W} {CP : ContentPlatform node W} (FILE : string).

Definition Content (A : Type) : Type := M Exn (Executor node * W) A.

(** Code that fills in a local event; the event is lost when it throws. *)
Definition Local_ (A : Type) : Type := M Exn (Event * (Executor node * W)) A.

Definition call {A} (m : M Exn W A) : Content A := fun '(ex, w) =>
  let '(r, w') := m w in (r, (ex, w')).
Definition lift {A} (m : Content A) : Local_ A := fun '(e, s) =>
  let '(r, s') := m s in (r, (e, s')).
Definition edit (f : Event -> Event) : Local_ unit := modify (fun '(e, s) => (f e, s)).
Definition local_event : Local_ Event := fun st => (inr (fst st), st).
Definition with_local {A} (e : Event) (m : Local_ A) : Content A := fun s =>
  let '(r, (_, s')) := m (e, s) in (r, s').
Definition executor : Content (Executor node) := fun s => (inr (fst s), s).
Definition update (f : Executor node -> Executor node) : Content unit := modify (fun '(ex, w) => (f ex, w)).

Definition new_event : Content Event := uuid ← call getUUID; mret (Event_default uuid).

Definition throw_execution2 {A} (cause line : string) (n : node) : Content A :=
  uuid ← call getUUID; throw (ErrorEvent (ERROR_EXECUTION2 uuid cause FILE line (xPathForNode n ""))).

(** [ERROR_EXECUTION_RETHROW(exc, caption, node)] *)
Definition captioned (caption : string) (n : node) (exc : Event) : Event :=
  annotate "caption" (Data_atom caption VERBATIM)
    (annotate "xpath" (Data_atom (xPathForNode n "") VERBATIM) exc).
Definition rethrow {A} (caption : string) (n : node) (m : Local_ A) : Local_ A :=
  catch_error m (fun e => throw (ErrorEvent (captioned caption n e))).

(** ** Data of elements *)

Definition normalized (d : Data) : Data :=
  match d_type d with VERBATIM => set_atom (spaceNormalize (d_atom d)) d | INTERPRETED => d end.

Definition node_data (type : DataType) (n : positive) : Data := mkData [] [] "" (Some n) None type.

(** The datum that the data model makes of a text, or else the text. *)
Definition text_data (d : option Data) (content : string) : Data :=
  match d with
  | Some d => if Data_is_empty d then Data_atom (spaceNormalize content) VERBATIM else normalized d
  | None => Data_atom (spaceNormalize content) VERBATIM
  end.

Definition remote_data (element : node) : Content Data :=
  let src := ATTR element "src" in
  url ← (if isAbsolute src then mret src else base ← call getBaseURL; mret (resolve base src));
  content ← call (getInContent url);
  parsed ← attempt (newNode ← call (parseDocument url); call (adopt element newNode);; mret newNode);
  match parsed with
  | Some newNode => mret (node_data INTERPRETED newNode)
  | None => d ← attempt (call (getAsData content)); mret (text_data d content)
  end.

Definition local_data (element : node) : Content Data :=
  match childElements element with
  | _ :: _ => mret (node_data indeterminate (address element))
  | [] =>
      match textChildren element with
      | [] => mret Data_empty
      | texts =>
          let content := foldr (fun a b => a +:+ b) ""%string texts in
          if String.eqb (getLocalName element) "content"
          then d ← attempt (call (getAsData content)); mret (text_data d content)
          else d ← call (getAsData content); mret (text_data (Some d) content)
      end
  end.

Definition elementAsData (element : node) : Content Data :=
  if HAS_ATTR element "expr" then mret (Data_atom (ATTR element "expr") INTERPRETED)
  else if HAS_ATTR element "src" then remote_data element
  else local_data element.

Definition elementAsEvaluatedData (element : node) : Content Data :=
  d ← elementAsData element;
  if (match d_type d with INTERPRETED => true | VERBATIM => false end) &&
     negb (String.eqb (d_atom d) "") && negb (isNumeric (d_atom d) 10)
  then call (evalAsData (d_atom d)) else mret d.

(** ** Name lists and parameters of the local event *)

Definition processNameLists (element : node) : Local_ unit :=
  if HAS_ATTR element "namelist"
  then forM_ (tokenize (ATTR element "namelist")) (fun name =>
         d ← lift (call (evalAsData name)); edit (set_namelist (str_put name d)))
  else mret tt.

Definition param_data (param : node) : Content Data :=
  if HAS_ATTR param "expr" then call (evalAsData (ATTR param "expr"))
  else if HAS_ATTR param "location" then call (evalAsData (ATTR param "location"))
  else elementAsEvaluatedData param.

Definition children_named (name : string) (element : node) : list node :=
  filterChildElements (XML_PREFIX element +:+ name) element false.

Definition processParams (element : node) : Local_ unit :=
  forM_ (children_named "param" element) (fun param =>
    d ← lift (param_data param);
    edit (set_params (multimap_insert String.compare (ATTR param "name") d))).

Definition processContent (element : node) : Local_ unit :=
  match children_named "content" element with
  | content :: _ => d ← lift (elementAsEvaluatedData content); edit (set_data d)
  | [] => mret tt
  end.

(** ** The elements *)

Definition processRaise (content : node) : Content unit :=
  call (enqueueInternal (Event_named (ATTR content "event") INTERNAL)).

(** An attribute, or the value of its expression. *)
Definition attr_or_expr (exprAttr attr : string) (default : string) (element : node) : Content string :=
  if HAS_ATTR element exprAttr then d ← call (evalAsData (ATTR element exprAttr)); mret (d_atom d)
  else if HAS_ATTR element attr then mret (ATTR element attr)
  else mret default.

(** An id made from that of the parent state. *)
Definition generated_id (element : node) : Content string :=
  uuid ← call getUUID;
  match getParentState element with
  | Some parent => mret (ATTR parent "id" +:+ "." +:+ uuid)%string
  | None => throw Undefined
  end.

Definition send_id (element : node) : Local_ unit :=
  if HAS_ATTR element "id" then edit (set_sendid (ATTR element "id"))
  else
    sendid ← lift (generated_id element);
    edit (set_sendid sendid);;
    if HAS_ATTR element "idlocation"
    then lift (call (assign (ATTR element "idlocation") (Data_atom sendid VERBATIM) []))
    else edit (set_hideSendId true).

Definition send_delay (element : node) : Content Z :=
  delay ← attr_or_expr "delayexpr" "delay" "" element;
  match delay_ms delay with Some ms => mret ms | None => throw Undefined end.

Definition SCXMLEventProcessor : string := "http://www.w3.org/TR/scxml/#SCXMLEventProcessor".

Definition send_event (element : node) : Local_ unit :=
  edit (set_eventType EXTERNAL);;
  invokeId ← lift (call getInvokeId);
  (if String.eqb invokeId "" then mret tt else edit (set_invokeid invokeId));;
  name ← rethrow "Syntax error in send element eventexpr" element
           (lift (attr_or_expr "eventexpr" "event" "" element));
  edit (set_name name);;
  target ← rethrow "Syntax error in send element targetexpr" element
             (lift (attr_or_expr "targetexpr" "target" "" element));
  type ← rethrow "Syntax error in send element typeexpr" element
           (lift (attr_or_expr "typeexpr" "type" SCXMLEventProcessor element));
  rethrow "Syntax error in send element idlocation" element (send_id element);;
  delayMs ← rethrow "Syntax error in send element delayexpr" element (lift (send_delay element));
  rethrow "Syntax error in send element namelist" element (processNameLists element);;
  rethrow "Syntax error in send element param expr" element (processParams element);;
  rethrow "Syntax error in send element content" element (processContent element);;
  sendEvent ← local_event;
  catch_error (lift (call (checkValidSendType type target))) (fun e =>
    throw (ErrorEvent (set_sendid (e_sendid sendEvent)
      (annotate "xpath" (Data_atom (xPathForNode element "") VERBATIM) e))));;
  lift (call (enqueue type target delayMs sendEvent)).

Definition processSend (element : node) : Content unit :=
  sendEvent ← new_event; with_local sendEvent (send_event element).

Definition processCancel (content : node) : Content unit :=
  sendid ← (if HAS_ATTR content "sendid" then mret (ATTR content "sendid")
            else if HAS_ATTR content "sendidexpr"
            then d ← call (evalAsData (ATTR content "sendidexpr")); mret (d_atom d)
            else throw_execution2 "Cancel element has neither sendid nor sendidexpr attribute" "220" content);
  call (cancelDelayed sendid).

Definition processAssign (content : node) : Content unit :=
  d ← elementAsData content; call (assign (ATTR content "location") d (getAttributes content)).

Definition processLog (content : node) : Content unit :=
  d ← call (evalAsData (ATTR content "expr")); call (log (ATTR content "label") d).

Definition processScript (content : node) : Content unit :=
  call (eval (default ""%string (firstChildText content))).

(** ** [process] *)

Section Process.
Context (process : node -> Content unit).

Fixpoint processIf_loop (prefix : string) (children : list node) (blockIsTrue : bool) : Content unit :=
  match children with
  | [] => mret tt
  | childElem :: rest =>
      if iequals (getTagName childElem) (prefix +:+ "elseif") then
        if blockIsTrue then mret tt
        else b ← call (isTrue (ATTR childElem "cond")); processIf_loop prefix rest b
      else if iequals (getTagName childElem) (prefix +:+ "else") then
        if blockIsTrue then mret tt else processIf_loop prefix rest true
      else
        (if blockIsTrue then process childElem else mret tt);;
        processIf_loop prefix rest blockIsTrue
  end.

Definition processIf (content : node) : Content unit :=
  blockIsTrue ← call (isTrue (ATTR content "cond"));
  processIf_loop (XML_PREFIX content) (childElements content) blockIsTrue.

(** The length is stored as a [uint32_t]. *)
Definition processForeach (content : node) : Content unit :=
  let array := ATTR content "array" in
  let item := ATTR content "item" in
  let index := if HAS_ATTR content "index" then ATTR content "index" else ""%string in
  iterations ← call (getLength array);
  forM_ (seqZ 0 (iterations mod 2 ^ 32)) (fun iteration =>
    call (setForeach item array index iteration);;
    forM_ (childElements content) process).

(** An empty finalize element copies what its invoke element lists. *)
Definition finalize_names (invokeElem : node) : Content unit :=
  event ← call getCurrentEvent;
  forM_ (tokenize (ATTR invokeElem "namelist")) (fun name =>
    match str_find name (e_namelist event) with
    | Some d => call (assign name d [])
    | None => match str_find name (d_compound (e_data event)) with
              | Some d => call (assign name d [])
              | None => mret tt
              end
    end).

Definition processFinalize (block : node) : Content unit :=
  match childElements block with
  | [] => match getParentNode block with
          | Some invokeElem =>
              if iequals (getTagName invokeElem) (XML_PREFIX block +:+ "invoke")
              then finalize_names invokeElem else mret tt
          | None => mret tt
          end
  | children => forM_ children process
  end.

Definition processCustom (block : node) : Content unit :=
  ex ← executor;
  h ← match _customExecContent ex !! block with
      | Some h => mret h
      | None =>
          h ← call (createExecutableContent (getLocalName block) (getNamespaceURI block));
          update (fun ex => mkExecutor (invokeIds ex) (<[block := h]> (_customExecContent ex)));;
          mret h
      end;
  call (enterElement h block);;
  b ← call (processChildren h);
  (if b : bool then forM_ (childElements block) process else mret tt);;
  call (exitElement h block).

(** An unknown element is logged and ignored. *)
Definition dispatch (block : node) : Content unit :=
  let tagName := getTagName block in
  let xmlPrefix := XML_PREFIX block in
  if iequals tagName (xmlPrefix +:+ "raise") then processRaise block
  else if iequals tagName (xmlPrefix +:+ "send") then processSend block
  else if iequals tagName (xmlPrefix +:+ "cancel") then processCancel block
  else if iequals tagName (xmlPrefix +:+ "if") then processIf block
  else if iequals tagName (xmlPrefix +:+ "assign") then processAssign block
  else if iequals tagName (xmlPrefix +:+ "foreach") then processForeach block
  else if iequals tagName (xmlPrefix +:+ "log") then processLog block
  else if iequals tagName (xmlPrefix +:+ "script") then processScript block
  else if hasExecutableContent (getLocalName block) (getNamespaceURI block) then processCustom block
  else mret tt.

Definition is_block (block : node) : bool :=
  let tagName := getTagName block in
  let xmlPrefix := XML_PREFIX block in
  iequals tagName (xmlPrefix +:+ "onentry") || iequals tagName (xmlPrefix +:+ "onexit") ||
  iequals tagName (xmlPrefix +:+ "transition").

(** A failing element reports its error once: what it rethrows is an [Event],
    which the enclosing elements do not catch. *)
Definition process_body (block : node) : Content unit :=
  if is_block block
  then catch_event (forM_ (childElements block) process) (fun e => throw (PlainEvent e))
  else if iequals (getTagName block) (XML_PREFIX block +:+ "finalize") then processFinalize block
  else
    catch_error (call (getMonitors (beforeExecutingContent block));; dispatch block) (fun exc =>
      call (enqueueInternal exc);;
      call (getMonitors (afterExecutingContent block));;
      throw (PlainEvent exc));;
    call (getMonitors (afterExecutingContent block)).

End Process.

(** The recursion follows the tree. *)
Fixpoint process_fuel (fuel : nat) (block : node) : Content unit :=
  match fuel with
  | 0 => mret tt
  | S fuel => process_body (process_fuel fuel) block
  end.

Definition process (block : node) : Content unit := process_fuel (S (nodeSize block)) block.

(** ** Invocations *)

(** The id of an invocation, kept at the element for [uninvoke]. *)
Definition invoke_id (element : node) : Local_ unit :=
  (if HAS_ATTR element "id" then edit (set_invokeid (ATTR element "id"))
   else
     invokeid ← lift (generated_id element);
     edit (set_invokeid invokeid);;
     if HAS_ATTR element "idlocation"
     then lift (call (assign (ATTR element "idlocation") (Data_atom invokeid VERBATIM) []))
     else mret tt);;
  e ← local_event;
  lift (update (fun ex => mkExecutor (<[element := e_invokeid e]> (invokeIds ex)) (_customExecContent ex))).

Definition invoke_event (element : node) : Local_ unit :=
  type ← lift (attr_or_expr "typeexpr" "type" "http://www.w3.org/TR/scxml/" element);
  source ← lift (attr_or_expr "srcexpr" "src" "" element);
  rethrow "Syntax error in invoke element idlocation" element (invoke_id element);;
  rethrow "Syntax error in send element namelist" element (processNameLists element);;
  rethrow "Syntax error in send element param expr" element (processParams element);;
  rethrow "Syntax error in invoke element content" element (processContent element);;
  let autoForward := HAS_ATTR element "autoforward" && iequals (ATTR element "autoforward") "true" in
  let finalize := head (children_named "finalize" element) in
  invokeEvent ← local_event;
  lift (call (getMonitors (beforeInvoking element (e_invokeid invokeEvent))));;
  lift (call (invoke_ type source autoForward finalize invokeEvent));;
  lift (call (getMonitors (afterInvoking element (e_invokeid invokeEvent)))).

Definition invoke (element : node) : Content unit :=
  invokeEvent ← new_event; with_local invokeEvent (invoke_event element).

(** Without an invoke id a string is made from a null pointer. *)
Definition uninvoke (inv : node) : Content unit :=
  ex ← executor;
  match invokeIds ex !! inv with
  | None => throw Undefined
  | Some invokeId =>
      call (getMonitors (beforeUninvoking inv invokeId));;
      call (uninvoke_ invokeId);;
      call (getMonitors (afterUninvoking inv invokeId));;
      update (fun ex => mkExecutor (delete inv (invokeIds ex)) (_customExecContent ex))
  end.

(** ** Done events *)

Definition done_content (doneData : node) : Local_ unit :=
  match children_named "content" doneData with
  | [] => mret tt
  | content :: _ =>
      legal ← (if HAS_ATTR content "expr" then lift (call (isValidExprSyntax (ATTR content "expr")))
               else mret true);
      if legal : bool then d ← lift (elementAsEvaluatedData content); edit (set_data d)
      else lift (throw_execution2 ("Expression '" +:+ ATTR content "expr" +:+ "' is not a legal data value")
                   "553" content)
  end.

Definition done_data (doneData : node) : Local_ unit :=
  catch_error_event
    (rethrow "Syntax error in donedata element namelist" doneData (processNameLists doneData);;
     rethrow "Syntax error in donedata element param expr" doneData (processParams doneData);;
     rethrow "Syntax error in donedata element content" doneData (done_content doneData))
    (fun exc => edit (set_data Data_empty);; lift (call (enqueueInternal exc)))
    (fun e => throw (PlainEvent (captioned "Error in donedata element" doneData e))).

Definition optional_data (doneData : option node) : Local_ unit :=
  match doneData with Some doneData => done_data doneData | None => mret tt end.

Definition done_name (state : node) : string :=
  ("done.state." +:+ if HAS_ATTR state "id" then ATTR state "id" else idForNode state)%string.

Definition done_event (state : node) (doneData : option node) : Local_ unit :=
  edit (set_name (done_name state));;
  optional_data doneData;;
  doneEvent ← local_event;
  lift (call (enqueueInternal doneEvent)).

Definition raiseDoneEvent (state : node) (doneData : option node) : Content unit :=
  doneEvent ← new_event; with_local doneEvent (done_event state doneData).

End Executor.

End BasicContentExecutor.
