(* ===== verification/ContentTheorems.v ===== *)
(** * Theorems about executable content

    The recursion of [process] is well founded; errors are reported once; done
    events are always raised; a send element sends one event or none; [if]
    chooses its first true branch; invoke ids. The theorems hold for any
    implementation of the callbacks that throws what their hypotheses allow. *)

From stdpp Require Import base list gmap strings.
From S2P Require Import Prelude Strings Dom Predicates Data Effects Numbers Content.
Import BasicContentExecutor.

Local Open Scope nat_scope.

(** ** The recursion *)

Section Unfold.
Context {node W : Type} `{Countable node} {D : DomOps node} {DL : DomLaws node} {CD : ContentDom node}
  {CB : ContentExecutorCallbacks node W} {CP : ContentPlatform node W} (FILE : string).
Implicit Types (p q : node -> @Content node W _ _ unit).

Lemma child_size block c : c ∈ childElements block -> nodeSize c < nodeSize block.
Proof.
  intros Hc. eapply Nat.le_lt_trans; [|apply dom_size]. apply (list_elem_of_fmap_2 nodeSize) in Hc.
  revert Hc. generalize (nodeSize <$> childElements block) (nodeSize c). intros l x Hx.
  induction Hx as [x l|x y l _ IH]; [change (x <= x + list_sum l)|change (x <= y + list_sum l)]; lia.
Qed.

Lemma catch_error_meq {St A} (m m' : M Exn St A) h : meq m m' -> meq (catch_error m h) (catch_error m' h).
Proof. intros Hm s. unfold catch_error. by rewrite Hm. Qed.

Lemma catch_event_meq {St A} (m m' : M Exn St A) h : meq m m' -> meq (catch_event m h) (catch_event m' h).
Proof. intros Hm s. unfold catch_event. by rewrite Hm. Qed.

Lemma processIf_loop_meq p q prefix children :
  (forall c, c ∈ children -> meq (p c) (q c)) ->
  forall b, meq (processIf_loop p prefix children b) (processIf_loop q prefix children b).
Proof.
  induction children as [|c children IH]; intros Hpq b; [done|]. cbn.
  assert (Hrest := fun b => IH (fun x Hx => Hpq x (list_elem_of_further _ _ _ Hx)) b).
  destruct (iequals _ _); [destruct b; [done|]; apply meq_bind; [intros b'; apply Hrest|done]|].
  destruct (iequals _ _); [destruct b; [done|apply Hrest]|].
  apply meq_bind; [intros _; apply Hrest|]. destruct b; [|done]. apply Hpq. left.
Qed.

Lemma dispatch_meq p q block :
  (forall c, c ∈ childElements block -> meq (p c) (q c)) ->
  meq (dispatch FILE p block) (dispatch FILE q block).
Proof.
  intros Hpq. unfold dispatch.
  do 3 (destruct (iequals _ _); [done|]).
  destruct (iequals _ _); [apply meq_bind; [|done]; intros b; by apply processIf_loop_meq|].
  destruct (iequals _ _); [done|].
  destruct (iequals _ _).
  { apply meq_bind; [|done]. intros n. apply meq_forM. intros i _. apply meq_bind; [|done].
    intros _. by apply meq_forM. }
  do 2 (destruct (iequals _ _); [done|]). destruct (hasExecutableContent _ _); [|done].
  unfold processCustom. do 3 (apply meq_bind; [intros ?|done]). apply meq_bind; [intros b|done].
  apply meq_bind; [done|]. destruct b; [by apply meq_forM|done].
Qed.

Lemma process_body_meq p q block :
  (forall c, c ∈ childElements block -> meq (p c) (q c)) ->
  meq (process_body FILE p block) (process_body FILE q block).
Proof.
  intros Hpq. unfold process_body. destruct (is_block block).
  { by apply catch_event_meq, meq_forM. }
  destruct (iequals _ _).
  { unfold processFinalize. destruct (childElements block) eqn:Hc; [done|]. by apply meq_forM. }
  apply meq_bind; [done|]. apply catch_error_meq, meq_bind; [|done]. intros _. by apply dispatch_meq.
Qed.

Lemma process_fuel_enough k k' block :
  nodeSize block < k -> nodeSize block < k' -> meq (process_fuel FILE k block) (process_fuel FILE k' block).
Proof.
  revert k' block. induction k as [|k IH]; intros [|k'] block Hk Hk'; [lia..|].
  cbn. apply process_body_meq. intros c Hc%child_size. apply IH; lia.
Qed.

(** [process] is the solution of its recursion equation: the fuel, one
    more than the size of the block, is never exhausted, so the function is the
    recursive function of the source. *)
Theorem process_unfold block : meq (process FILE block) (process_body FILE (process FILE) block).
Proof.
  unfold process at 1. cbn [process_fuel]. apply process_body_meq. intros c Hc%child_size.
  apply process_fuel_enough; lia.
Qed.

End Unfold.

(** ** What the executor hands to the rest of the interpreter

    [observed] keeps, beside any implementation of the callbacks, a list of the
    events that were enqueued internally, of those that were sent, and of the
    invocations that were started and ended. *)

Inductive Note :=
| NInternal (e : Event)
| NSend (type target : string) (delayMs : Z) (e : Event)
| NInvoke (invokeid : string)
| NUninvoke (invokeid : string).

Section Observed.
Context {node W : Type}.

Definition unnoted {A} (m : M Exn W A) : M Exn (W * list Note) A := fun '(w, l) =>
  let '(r, w') := m w in (r, (w', l)).
Definition noted (note : Note) (m : M Exn W unit) : M Exn (W * list Note) unit := fun '(w, l) =>
  match m w with
  | (inr _, w') => (inr tt, (w', l ++ [note]))
  | (inl x, w') => (inl x, (w', l))
  end.

Definition observed (CB : ContentExecutorCallbacks node W) : ContentExecutorCallbacks node (W * list Note) := {|
  enqueueInternal e := noted (NInternal e) (enqueueInternal e);
  cancelDelayed i := unnoted (cancelDelayed i);
  isTrue e := unnoted (isTrue e);
  getLength e := unnoted (getLength e);
  setForeach i a x n := unnoted (setForeach i a x n);
  evalAsData e := unnoted (evalAsData e);
  eval e := unnoted (eval e);
  getAsData e := unnoted (getAsData e);
  assign l d a := unnoted (assign l d a);
  isValidExprSyntax e := unnoted (isValidExprSyntax e);
  getInvokeId := unnoted getInvokeId;
  getBaseURL := unnoted getBaseURL;
  checkValidSendType t g := unnoted (checkValidSendType t g);
  enqueue t g d e := noted (NSend t g d e) (enqueue t g d e);
  invoke_ t s a f e := noted (NInvoke (e_invokeid e)) (invoke_ t s a f e);
  uninvoke_ i := noted (NUninvoke i) (uninvoke_ i);
  getCurrentEvent := unnoted getCurrentEvent;
  getMonitors m := unnoted (getMonitors m);
  log l d := unnoted (log l d);
  createExecutableContent l n := unnoted (createExecutableContent l n);
|}.

Definition observed_platform (CP : ContentPlatform node W) : ContentPlatform node (W * list Note) := {|
  getUUID := unnoted getUUID;
  isAbsolute := isAbsolute;
  resolve := resolve;
  getInContent u := unnoted (getInContent u);
  parseDocument u := unnoted (parseDocument u);
  adopt e n := unnoted (adopt e n);
  hasExecutableContent := hasExecutableContent;
  enterElement h b := unnoted (enterElement h b);
  processChildren h := unnoted (processChildren h);
  exitElement h b := unnoted (exitElement h b);
|}.

(** [m] throws nothing but what [Ex] allows. *)
Definition throws {A} (Ex : Exn -> Prop) (m : M Exn W A) : Prop :=
  forall w, match m w with (inl x, _) => Ex x | (inr _, _) => True end.

(** What [catch (...)] catches. *)
Definition regular_exception (x : Exn) : Prop := x <> Undefined /\ x <> Blocked.

(** The callbacks and the platform throw only what [Ex] allows, the XML parser
    whatever it likes; queueing an event, drawing a UUID and telling the
    monitors does not fail. *)
Record callbacks_throw (Ex : Exn -> Prop) (CB : ContentExecutorCallbacks node W)
    (CP : ContentPlatform node W) : Prop := {
  ct_enqueueInternal e : throws (fun _ => False) (enqueueInternal e);
  ct_cancelDelayed i : throws Ex (cancelDelayed i);
  ct_isTrue e : throws Ex (isTrue e);
  ct_getLength e : throws Ex (getLength e);
  ct_setForeach i a x n : throws Ex (setForeach i a x n);
  ct_evalAsData e : throws Ex (evalAsData e);
  ct_eval e : throws Ex (eval e);
  ct_getAsData e : throws Ex (getAsData e);
  ct_assign l d a : throws Ex (assign l d a);
  ct_isValidExprSyntax e : throws Ex (isValidExprSyntax e);
  ct_getInvokeId : throws Ex getInvokeId;
  ct_getBaseURL : throws Ex getBaseURL;
  ct_checkValidSendType t g : throws Ex (checkValidSendType t g);
  ct_enqueue t g d e : throws Ex (enqueue t g d e);
  ct_getCurrentEvent : throws Ex getCurrentEvent;
  ct_getMonitors m : throws (fun _ => False) (getMonitors m);
  ct_log l d : throws Ex (log l d);
  ct_createExecutableContent l n : throws Ex (createExecutableContent l n);
  ct_getUUID : throws (fun _ => False) getUUID;
  ct_getInContent u : throws Ex (getInContent u);
  ct_parseDocument u : throws regular_exception (parseDocument u);
  ct_adopt e n : throws regular_exception (adopt e n);
  ct_enterElement h b : throws Ex (enterElement h b);
  ct_processChildren h : throws Ex (processChildren h);
  ct_exitElement h b : throws Ex (exitElement h b);
}.

End Observed.

(** *** Computations that leave an observation unchanged *)

Section Keeps.
Context {St O A : Type} (obs : St -> O) (Ex : Exn -> Prop).

Definition keeps (m : M Exn St A) : Prop := forall o,
  triple (fun s => obs s = o) m (fun _ s => obs s = o) (fun x s => obs s = o /\ Ex x).

End Keeps.

Section KeepsRules.
Context {St O : Type} (obs : St -> O) (Ex : Exn -> Prop).

Lemma keeps_ret {A} (a : A) : keeps obs Ex (mret a).
Proof. by intros o s. Qed.

Lemma keeps_bind {A B} (m : M Exn St A) (f : A -> M Exn St B) :
  keeps obs Ex m -> (forall a, keeps obs Ex (f a)) -> keeps obs Ex (m ≫= f).
Proof. intros Hm Hf o. eapply triple_bind; [apply Hm|]. intros a. apply Hf. Qed.

Lemma keeps_throw {A} x : Ex x -> keeps obs Ex (throw (A := A) x).
Proof. by intros Hx o s. Qed.

Lemma keeps_forM {A} (l : list A) f : (forall x, x ∈ l -> keeps obs Ex (f x)) -> keeps obs Ex (forM_ l f).
Proof. intros Hf o. apply triple_forM. intros x Hx. by apply Hf. Qed.

Lemma keeps_attempt {A} (m : M Exn St A) : keeps obs Ex m -> keeps obs Ex (attempt m).
Proof.
  intros Hm o s Hs. specialize (Hm o s Hs). unfold attempt.
  destruct (m s) as [[[]|a] s']; first [exact Hm|exact (proj1 Hm)].
Qed.

Lemma keeps_attempt_any {A} (m : M Exn St A) :
  keeps obs regular_exception m -> keeps obs Ex (attempt m).
Proof.
  intros Hm o s Hs. specialize (Hm o s Hs). unfold attempt.
  destruct (m s) as [[[]|a] s']; first [exact Hm|exact (proj1 Hm)|by destruct Hm as [_ [[] ?]]|by destruct Hm as [_ [? []]]].
Qed.

Lemma keeps_modify f : (forall s, obs (f s) = obs s) -> keeps obs Ex (modify f).
Proof. intros Hf o s <-. apply Hf. Qed.

Lemma keeps_catch {A} (m : M Exn St A) h :
  keeps obs Ex m -> (forall e, Ex (ErrorEvent e) -> keeps obs Ex (h e)) -> keeps obs Ex (catch_error m h).
Proof.
  intros Hm Hh o s Hs. specialize (Hm o s Hs). unfold catch_error.
  destruct (m s) as [[[]|a] s']; [|done..]. destruct Hm as [Hs' Hx]. by apply Hh.
Qed.

Lemma keeps_weaken {A} (Ex' : Exn -> Prop) (m : M Exn St A) :
  (forall x, Ex' x -> Ex x) -> keeps obs Ex' m -> keeps obs Ex m.
Proof. intros HE Hm o. eapply triple_conseq; [apply (Hm o)|done..|]. intros x s [? ?]. auto. Qed.

End KeepsRules.

(** *** The operations of the executor, up to an observation *)

Create HintDb calm.

Section ExecutorKeeps.
Context {node W O : Type} `{Countable node} {D : DomOps node} {CD : ContentDom node}
  (CB : ContentExecutorCallbacks node W) (CP : ContentPlatform node W) (FILE : string).
Context (f : gmap node string -> list Note -> O) (Ex : Exn -> Prop).
#[local] Existing Instance observed.
#[local] Existing Instance observed_platform.

Definition seen (s : Executor node * (W * list Note)) : O := f (invokeIds (fst s)) (snd (snd s)).
Abbreviation calm := (keeps seen Ex).
Abbreviation calm_local := (keeps (fun s : Event * _ => seen (snd s)) Ex).

Context (Hthrow : callbacks_throw Ex CB CP).
(** Errors stay allowed when they are annotated. *)
Context (Ex_annotated : forall d i e, Ex (ErrorEvent e) -> Ex (ErrorEvent (set_data d e)) /\
                                      Ex (ErrorEvent (set_sendid i e))).
Context (Ex_execution : forall u c l x, Ex (ErrorEvent (ERROR_EXECUTION2 u c FILE l x))).

Lemma keeps_call {A} Ex' (m : M Exn W A) : throws Ex' m -> keeps seen Ex' (call (unnoted m)).
Proof.
  intros Hm o [ex [w l]] Hs. specialize (Hm w). unfold call, unnoted.
  by destruct (m w) as [[x|a] w'].
Qed.

Lemma calm_call {A} (m : M Exn W A) : throws Ex m -> calm (call (unnoted m)).
Proof. apply keeps_call. Qed.

Lemma calm_call_safe {A} (m : M Exn W A) : throws (fun _ => False) m -> calm (call (unnoted m)).
Proof. intros Hm. apply calm_call. intros w. specialize (Hm w). by destruct (m w) as [[]]. Qed.

Lemma calm_noted note (m : M Exn W unit) :
  (forall i l, f i (l ++ [note]) = f i l) -> throws Ex m -> calm (call (noted note m)).
Proof.
  intros Hf Hm o [ex [w l]] Hs. specialize (Hm w). unfold call, noted.
  destruct (m w) as [[x|a] w']; [done|]. by rewrite <- Hs; apply Hf.
Qed.

Lemma calm_lift {A} (m : @Content node (W * list Note) _ _ A) : calm m -> calm_local (lift m).
Proof.
  intros Hm o [e s] Hs. specialize (Hm o s Hs). unfold lift. by destruct (m s) as [[x|a] s'].
Qed.

Lemma calm_edit g : calm_local (edit g).
Proof. apply keeps_modify. by intros [e s]. Qed.

Lemma calm_local_event : calm_local local_event.
Proof. by intros o s. Qed.

Lemma calm_with_local {A} e (m : @Local_ node (W * list Note) _ _ A) : calm_local m -> calm (with_local e m).
Proof.
  intros Hm o s Hs. specialize (Hm o (e, s) Hs). unfold with_local.
  by destruct (m (e, s)) as [[x|a] [e' s']].
Qed.

Lemma calm_executor : calm executor.
Proof. by intros o s. Qed.

Lemma calm_update g : (forall ex, invokeIds (g ex) = invokeIds ex) -> calm (update g).
Proof. intros Hg. apply keeps_modify. intros [ex w]. unfold seen. cbn. by rewrite Hg. Qed.

Lemma calm_rethrow {A} caption n (m : @Local_ node (W * list Note) _ _ A) :
  calm_local m -> calm_local (rethrow caption n m).
Proof.
  intros Hm. apply keeps_catch; [done|]. intros e He. apply keeps_throw.
  unfold captioned, annotate. by apply (Ex_annotated _ ""), (Ex_annotated _ "").
Qed.

Lemma calm_throw_execution2 {A} c l n : calm (throw_execution2 FILE (A := A) c l n).
Proof.
  apply keeps_bind; [apply calm_call_safe, Hthrow|]. intros u. by apply keeps_throw.
Qed.

(** Decompose a computation into calls. *)
Ltac calm_case :=
  match goal with
  | |- keeps _ _ (if ?b then _ else _) => destruct b
  | |- keeps _ _ (match ?d with _ => _ end) => destruct d eqn:?
  | |- keeps _ _ (let '(_, _) := ?p in _) => destruct p
  end.
Ltac calm_step :=
  first
  [ solve [eauto with calm]
  | apply keeps_ret
  | apply calm_edit | apply calm_local_event | apply calm_executor | by apply calm_update
  | apply calm_throw_execution2
  | apply calm_call; apply Hthrow
  | apply calm_call_safe; apply Hthrow
  | apply calm_lift
  | apply calm_rethrow
  | apply keeps_attempt
  | apply keeps_bind; [|intros ?]
  | apply keeps_forM; intros ? ?
  | calm_case ].
Ltac calm := repeat calm_step.

Lemma calm_remote_data element : calm (remote_data element).
Proof.
  unfold remote_data.
  assert (Hp : forall url, calm (attempt (newNode ← call (parseDocument url);
                                          call (adopt element newNode);; mret newNode))).
  { intros url. apply keeps_attempt_any, keeps_bind; [apply keeps_call, Hthrow|]. intros n.
    apply keeps_bind; [apply keeps_call, Hthrow|]. intros _. apply keeps_ret. }
  calm.
Qed.
#[local] Hint Resolve calm_remote_data : calm.

Lemma calm_local_data element : calm (local_data element).
Proof. unfold local_data. calm. Qed.
#[local] Hint Resolve calm_local_data : calm.

Lemma calm_elementAsData element : calm (elementAsData element).
Proof. unfold elementAsData. calm. Qed.
#[local] Hint Resolve calm_elementAsData : calm.

Lemma calm_elementAsEvaluatedData element : calm (elementAsEvaluatedData element).
Proof. unfold elementAsEvaluatedData. calm. Qed.
#[local] Hint Resolve calm_elementAsEvaluatedData : calm.

Lemma calm_processNameLists element : calm_local (processNameLists element).
Proof. unfold processNameLists. calm. Qed.
#[local] Hint Resolve calm_processNameLists : calm.

Lemma calm_processParams element : calm_local (processParams element).
Proof. unfold processParams, param_data. calm. Qed.
#[local] Hint Resolve calm_processParams : calm.

Lemma calm_processContent element : calm_local (processContent element).
Proof. unfold processContent. calm. Qed.
#[local] Hint Resolve calm_processContent : calm.

Lemma calm_attr_or_expr e a d element : calm (attr_or_expr e a d element).
Proof. unfold attr_or_expr. calm. Qed.
#[local] Hint Resolve calm_attr_or_expr : calm.

Lemma calm_done_content doneData : calm_local (done_content FILE doneData).
Proof. unfold done_content. calm. Qed.

Lemma calm_new_event : calm new_event.
Proof. unfold new_event. calm. Qed.

Lemma calm_processCancel content : calm (processCancel FILE content).
Proof. unfold processCancel. calm. Qed.

Lemma calm_processAssign content : calm (processAssign content).
Proof. unfold processAssign. calm. Qed.

Lemma calm_processLog content : calm (processLog content).
Proof. unfold processLog. calm. Qed.

Lemma calm_processScript content : calm (processScript content).
Proof. unfold processScript. calm. Qed.

Lemma calm_finalize_names invokeElem : calm (finalize_names invokeElem).
Proof. unfold finalize_names. calm. Qed.

(** With [Ex Undefined] also what may run into undefined behaviour. *)
Context (Ex_undefined : Ex Undefined).

Lemma calm_undefined {A} : calm (throw (A := A) Undefined).
Proof. by apply keeps_throw. Qed.
#[local] Hint Resolve calm_undefined : calm.

Lemma calm_generated_id element : calm (generated_id element).
Proof. unfold generated_id. calm. Qed.
#[local] Hint Resolve calm_generated_id : calm.

Lemma calm_send_id element : calm_local (send_id element).
Proof. unfold send_id. calm. Qed.

Lemma calm_send_delay element : calm (send_delay element).
Proof. unfold send_delay. calm. Qed.

End ExecutorKeeps.

(** ** Errors of executable content *)

(** The errors among the internal events: [raise] makes internal events. *)
Definition errors (l : list Note) : list Event :=
  omap (fun n => match n with
                 | NInternal e => if e_eventType e =? PLATFORM then Some e else None
                 | _ => None
                 end) l.

Definition platform_error (x : Exn) : Prop :=
  match x with ErrorEvent e => e_eventType e = PLATFORM | Undefined => True | _ => False end.

Definition is_finalize {node} `{DomOps node} (block : node) : bool :=
  negb (is_block block) && iequals (getTagName block) (XML_PREFIX block +:+ "finalize").

Section ErrorsOnce.
Context {node W : Type} `{Countable node} {D : DomOps node} {CD : ContentDom node}
  (CB : ContentExecutorCallbacks node W) (CP : ContentPlatform node W) (FILE : string).
#[local] Existing Instance observed.
#[local] Existing Instance observed_platform.
Context (Hthrow : callbacks_throw platform_error CB CP).
Context (Hdoc : forall block c : node, is_block block = true -> c ∈ childElements block -> is_finalize c = false).

Abbreviation reported := (seen (node := node) (W := W) (fun _ => errors)).

(** An escaping [Event] has been reported once; an [ErrorEvent] not yet. *)
Definition outcome (fin : bool) (o : list Event) (x : Exn) (s : Executor node * (W * list Note)) : Prop :=
  match x with
  | PlainEvent e => reported s = o ++ [e]
  | ErrorEvent e => fin = true /\ reported s = o /\ e_eventType e = PLATFORM
  | OtherException | Blocked => False
  | Undefined => reported s = o
  end.

Definition good {A} (fin : bool) (m : @Content node (W * list Note) _ _ A) : Prop := forall o,
  triple (fun s => reported s = o) m (fun _ s => reported s = o) (outcome fin o).

Lemma good_ret {A} fin (a : A) : good fin (mret a).
Proof. by intros o s. Qed.

Lemma good_bind {A B} fin (m : @Content node (W * list Note) _ _ A) (g : A -> @Content node (W * list Note) _ _ B) :
  good fin m -> (forall a, good fin (g a)) -> good fin (m ≫= g).
Proof. intros Hm Hg o. eapply triple_bind; [apply Hm|]. intros a. apply Hg. Qed.

Lemma good_forM {A} fin (l : list A) g : (forall x, x ∈ l -> good fin (g x)) -> good fin (forM_ l g).
Proof. intros Hg o. apply triple_forM. intros x Hx. by apply Hg. Qed.

Lemma good_calm {A} (m : @Content node (W * list Note) _ _ A) : keeps reported platform_error m -> good true m.
Proof.
  intros Hm o. eapply triple_conseq; [apply (Hm o)|done..|].
  intros [e|e| | |] s [Hs Hx]; try done; by destruct Hx.
Qed.

Lemma good_weaken {A} fin (m : @Content node (W * list Note) _ _ A) : good fin m -> good true m.
Proof.
  intros Hm o. eapply triple_conseq; [apply (Hm o)|done..|]. by intros [e|e| | |] s Hx; first [exact Hx|destruct Hx].
Qed.

(** Only an element that is not caught lets an [ErrorEvent] through. *)
Lemma good_report block (m : @Content node (W * list Note) _ _ unit) : good true m ->
  good false (catch_error m (fun exc =>
    call (enqueueInternal exc);; call (getMonitors (afterExecutingContent block));; throw (PlainEvent exc))).
Proof.
  intros Hm o s Hs. specialize (Hm o s Hs). unfold catch_error.
  destruct (m s) as [[[e|e| | |]|a] s']; [|done..]. destruct Hm as (_ & Hs' & Hp).
  destruct s' as [ex [w l]]. unfold mbind, M_bind, call. cbn.
  assert (Hq := ct_enqueueInternal _ _ _ Hthrow e w). destruct (enqueueInternal e w) as [[x|[]] w']; [done|].
  cbn. assert (Hq' := ct_getMonitors _ _ _ Hthrow (afterExecutingContent block) w').
  destruct (getMonitors _ w') as [[x|[]] w'']; [done|]. cbn. rewrite <- Hs'. unfold seen, errors. cbn.
  rewrite omap_app. cbn. by rewrite Hp.
Qed.

Lemma platform_annotated d i e : platform_error (ErrorEvent e) ->
  platform_error (ErrorEvent (set_data d e)) /\ platform_error (ErrorEvent (set_sendid i e)).
Proof. done. Qed.

Lemma good_monitor m : good false (call (getMonitors m)).
Proof.
  intros o [ex [w l]] Hs. unfold call. cbn. assert (Hm := ct_getMonitors _ _ _ Hthrow m w).
  by destruct (getMonitors m w) as [[x|[]] w'].
Qed.

Lemma calm_send element : keeps reported platform_error (processSend element).
Proof.
  apply keeps_bind; [by eapply calm_new_event|]. intros e. apply calm_with_local.
  unfold send_event.
  repeat first
    [ apply keeps_ret | apply calm_edit | apply calm_local_event
    | apply calm_rethrow; [exact platform_annotated|]
    | apply calm_lift; eapply calm_attr_or_expr; eassumption
    | eapply calm_send_id; done | apply calm_lift; eapply calm_send_delay; done
    | eapply calm_processNameLists; done
    | eapply calm_processParams; eassumption
    | eapply calm_processContent; eassumption
    | apply calm_lift, calm_noted; [|apply Hthrow]
    | apply calm_lift, calm_call; apply Hthrow
    | apply keeps_bind; [|intros ?]
    | apply keeps_catch; [|intros ? ?; apply keeps_throw]
    | match goal with |- keeps _ _ (if ?b then _ else _) => destruct b end ].
  - done.
  - intros i l. unfold errors. rewrite omap_app. apply app_nil_r.
Qed.

Section Recursion.
Context (p : node -> @Content node (W * list Note) _ _ unit).
Context (Hp : forall c, good (is_finalize c) (p c)).

Lemma good_children fin l : (forall c : node, c ∈ l -> fin = false -> is_finalize c = false) ->
  good fin (forM_ l p).
Proof.
  intros Hl. apply good_forM. intros c Hc. destruct fin.
  - by eapply good_weaken.
  - specialize (Hp c). by rewrite (Hl c Hc eq_refl) in Hp.
Qed.

Lemma good_processIf_loop prefix children : forall b, good true (processIf_loop p prefix children b).
Proof.
  induction children as [|c rest IH]; intros b; [by apply good_ret|]. cbn.
  destruct (iequals _ _).
  { destruct b; [by apply good_ret|]. apply good_bind; [|intros; apply IH].
    apply good_calm, calm_call. apply Hthrow. }
  destruct (iequals _ _); [destruct b; [by apply good_ret|apply IH]|].
  apply good_bind; [|intros; apply IH]. destruct b; [by eapply good_weaken|by apply good_ret].
Qed.

Ltac good_calls := repeat first
  [ apply good_bind; [|intros ?]
  | apply good_ret
  | apply good_calm, calm_call; apply Hthrow
  | apply good_calm, calm_executor
  | by apply good_calm, calm_update
  | apply good_forM; intros ? ?
  | match goal with |- good _ (match ?d with _ => _ end) => destruct d end ].

Lemma good_dispatch block : good true (dispatch FILE p block).
Proof.
  unfold dispatch.
  destruct (iequals _ _).
  { apply good_calm, calm_noted; [intros i l; unfold errors; rewrite omap_app; apply app_nil_r|].
    intros w. assert (Hq := ct_enqueueInternal _ _ _ Hthrow (Event_named (ATTR block "event") INTERNAL) w).
    by destruct (enqueueInternal _ w) as [[]]. }
  destruct (iequals _ _); [by apply good_calm, calm_send|].
  destruct (iequals _ _); [by apply good_calm; eapply calm_processCancel|].
  destruct (iequals _ _).
  { apply good_bind; [apply good_calm, calm_call; apply Hthrow|]. intros b. apply good_processIf_loop. }
  destruct (iequals _ _); [by apply good_calm; eapply calm_processAssign|].
  destruct (iequals _ _).
  { apply good_bind; [apply good_calm, calm_call; apply Hthrow|]. intros n. apply good_forM. intros i _.
    apply good_bind; [apply good_calm, calm_call; apply Hthrow|]. intros _. by apply good_children. }
  destruct (iequals _ _); [by apply good_calm; eapply calm_processLog|].
  destruct (iequals _ _); [by apply good_calm; eapply calm_processScript|].
  destruct (hasExecutableContent _ _); [|by apply good_ret].
  unfold processCustom. good_calls. by eapply good_weaken.
Qed.

Lemma good_process_body block : good (is_finalize block) (process_body FILE p block).
Proof.
  unfold process_body, is_finalize. destruct (is_block block) eqn:Hb; cbn [negb andb].
  { intros o s Hs. assert (Hl := good_children false (childElements block)
      (fun c Hc _ => Hdoc block c Hb Hc) o s Hs). unfold catch_event.
    destruct (forM_ _ _ s) as [[[e|e| | |]|a] s']; try done. by destruct Hl. }
  destruct (iequals _ _).
  { unfold processFinalize. destruct (childElements block) as [|c l].
    - destruct (getParentNode block) as [inv|]; [|by apply good_ret].
      destruct (iequals _ _); [|by apply good_ret]. by apply good_calm; eapply calm_finalize_names.
    - by apply good_children. }
  apply good_bind; [|intros; apply good_monitor]. apply good_report.
  apply good_bind; [eapply good_weaken, good_monitor|]. intros _. apply good_dispatch.
Qed.

End Recursion.

Lemma good_process_fuel k block : good (is_finalize block) (process_fuel FILE k block).
Proof.
  revert block. induction k as [|k IH]; intros block; [by apply good_ret|].
  by apply good_process_body.
Qed.

(** C17: an error in executable content is reported once. When the data model
    and the processors throw platform errors only, processing a block either
    ends normally and has put no error into the internal queue, or it ends with
    an [Event] and this one event has been put into the queue, however deeply
    nested the failing element was. *)
Theorem error_reported_once block ex w l :
  is_finalize block = false ->
  match process FILE block (ex, (w, l)) with
  | (inr _, (_, (_, l'))) => errors l' = errors l
  | (inl x, (_, (_, l'))) =>
      (exists e, x = PlainEvent e /\ errors l' = errors l ++ [e]) \/
      (x = Undefined /\ errors l' = errors l)
  end.
Proof.
  intros Hfin. assert (Hg := good_process_fuel (S (nodeSize block)) block (errors l) (ex, (w, l)) eq_refl).
  rewrite Hfin in Hg. unfold process.
  destruct (process_fuel _ _ _ _) as [[[e|e| | |]|a] (ex' & w' & l')]; cbn in Hg; try done.
  - by destruct Hg.
  - left. by exists e.
  - by right.
Qed.

End ErrorsOnce.

(** ** Done events *)

Section Done.
Context {node W : Type} `{Countable node} {D : DomOps node} {CD : ContentDom node}
  (CB : ContentExecutorCallbacks node W) (CP : ContentPlatform node W) (FILE : string).
#[local] Existing Instance observed.
#[local] Existing Instance observed_platform.

Definition is_error (x : Exn) : Prop := match x with ErrorEvent _ => True | _ => False end.
Context (Hthrow : callbacks_throw is_error CB CP).

(** What identifies an event is not touched by filling in its data. *)
Definition header (e : Event) : nat * string * string := (e_eventType e, e_name e, e_sendid e).
Abbreviation headed := (keeps (fun s : Event * (Executor node * (W * list Note)) => header (fst s)) (fun _ => True)).

Lemma headed_lift {A} (m : @Content node (W * list Note) _ _ A) : headed (lift m).
Proof. intros o [e s] Hs. unfold lift. by destruct (m s) as [[x|a] s']. Qed.

Lemma headed_edit g : (forall e, header (g e) = header e) -> headed (edit g).
Proof. intros Hg. apply keeps_modify. intros [e s]. apply Hg. Qed.

Lemma headed_rethrow {A} caption n (m : @Local_ node (W * list Note) _ _ A) : headed m -> headed (rethrow caption n m).
Proof. intros Hm. apply keeps_catch; [done|]. intros e _. by apply keeps_throw. Qed.

Ltac headed := repeat first
  [ apply keeps_ret | apply headed_lift | by apply headed_edit | apply headed_rethrow
  | apply keeps_bind; [|intros ?] | apply keeps_forM; intros ? ?
  | match goal with |- keeps _ _ (match ?d with _ => _ end) => destruct d end ].

Lemma headed_processNameLists element : headed (processNameLists element).
Proof. unfold processNameLists. headed. Qed.
Lemma headed_processParams element : headed (processParams element).
Proof. unfold processParams. headed. Qed.
Lemma headed_processContent element : headed (processContent element).
Proof. unfold processContent. headed. Qed.
Lemma headed_done_content doneData : headed (done_content FILE doneData).
Proof. unfold done_content. headed. Qed.

Abbreviation quiet := (keeps (fun s : Event * (Executor node * (W * list Note)) =>
  seen (fun _ l => l) (snd s)) is_error).

Definition done_body (doneData : node) : @Local_ node (W * list Note) _ _ unit :=
  rethrow "Syntax error in donedata element namelist" doneData (processNameLists doneData);;
  rethrow "Syntax error in donedata element param expr" doneData (processParams doneData);;
  rethrow "Syntax error in donedata element content" doneData (done_content FILE doneData).

Lemma headed_done_body doneData : headed (done_body doneData).
Proof.
  repeat (apply keeps_bind; [|intros _]); apply headed_rethrow;
    [apply headed_processNameLists|apply headed_processParams|apply headed_done_content].
Qed.

Lemma quiet_done_body doneData : quiet (done_body doneData).
Proof.
  assert (HA : forall d i e, is_error (ErrorEvent e) ->
    is_error (ErrorEvent (set_data d e)) /\ is_error (ErrorEvent (set_sendid i e))) by done.
  repeat (apply keeps_bind; [|intros _]); apply calm_rethrow; try done.
  - by eapply calm_processNameLists.
  - by eapply calm_processParams.
  - by eapply calm_done_content.
Qed.

Lemma triple_both {X St A} (P P' : St -> Prop) (m : M X St A) Q Q' E E' :
  triple P m Q E -> triple P' m Q' E' ->
  triple (fun s => P s /\ P' s) m (fun a s => Q a s /\ Q' a s) (fun x s => E x s /\ E' x s).
Proof.
  intros H1 H2 s [Hs Hs']. specialize (H1 s Hs). specialize (H2 s Hs').
  by destruct (m s) as [[x|a] s'].
Qed.

Lemma done_data_outcome doneData e0 ex w l :
  match done_data FILE doneData (e0, (ex, (w, l))) with
  | (inr _, (e, (_, (_, l')))) => header e = header e0 /\
      (l' = l \/ exists err, e_data e = Data_empty /\ l' = l ++ [NInternal err])
  | (inl _, _) => False
  end.
Proof.
  assert (Hb := triple_both _ _ _ _ _ _ _ (headed_done_body doneData (header e0)) (quiet_done_body doneData l)
    (e0, (ex, (w, l))) (conj eq_refl eq_refl)).
  unfold done_data, catch_error_event. fold (done_body doneData).
  destruct (done_body doneData _) as [[[e|e| | |]|a] (e1 & ex1 & w1 & l1)]; cbn in Hb;
    [|by destruct Hb as [_ [_ []]]..|].
  2:{ destruct Hb as [Hh Hl]. split; [done|]. by left. }
  destruct Hb as [[Hh _] [Hl _]]. unfold mbind, M_bind, lift, call, edit, modify. cbn.
  assert (Hq := ct_enqueueInternal _ _ _ Hthrow e w1).
  destruct (enqueueInternal e w1) as [[x|[]] w2]; [done|]. split; [done|].
  right. exists e. split; [done|]. unfold seen in Hl. cbn in Hl. by rewrite Hl.
Qed.

Lemma optional_data_outcome doneData e0 ex w l :
  match optional_data FILE doneData (e0, (ex, (w, l))) with
  | (inr _, (e, (_, (_, l')))) => header e = header e0 /\
      (l' = l \/ exists err, e_data e = Data_empty /\ l' = l ++ [NInternal err])
  | (inl _, _) => False
  end.
Proof. destruct doneData as [dd|]; [apply done_data_outcome|]. split; [done|by left]. Qed.

(** Entering a final state always raises its done event, exactly once and
    after all else: if the data for it cannot be evaluated, one error precedes
    it and its content is empty. Nothing is thrown. *)
Theorem done_event_raised state doneData ex w l :
  exists ex' w' l' done,
    raiseDoneEvent FILE state doneData (ex, (w, l)) = (inr tt, (ex', (w', l ++ l' ++ [NInternal done]))) /\
    e_name done = done_name state /\ e_eventType done = INTERNAL /\
    (l' = [] \/ exists err, l' = [NInternal err] /\ e_data done = Data_empty).
Proof.
  unfold raiseDoneEvent, new_event, with_local, done_event. unfold mbind, M_bind, mret, M_ret, call, unnoted. cbn.
  assert (Hu := ct_getUUID _ _ _ Hthrow w). destruct getUUID as [[x|uuid] w1]; [done|]. cbn.
  assert (Hd := optional_data_outcome doneData (set_name (done_name state) (Event_default uuid)) ex w1 l).
  destruct (optional_data _ _ _) as [[x|[]] (e & ex2 & w2 & l2)]; [done|].
  destruct Hd as [[= Ht Hn _] Hl]. cbn.
  assert (Hq := ct_enqueueInternal _ _ _ Hthrow e w2). destruct (enqueueInternal e w2) as [[x|[]] w3]; [done|]. cbn.
  destruct Hl as [->|(err & He & ->)].
  - exists ex2, w3, [], e. by split_and!; [| | |left].
  - exists ex2, w3, [NInternal err], e. rewrite <- (assoc_L (++)).
    split_and!; [done..|]. right. by exists err.
Qed.

End Done.

(** ** Sending *)

(** The value of an attribute that is not given by an expression. *)
Definition static_attr {node} `{DomOps node} (exprAttr attr default : string) (element : node) (v : string) : Prop :=
  HAS_ATTR element exprAttr = false -> v = if HAS_ATTR element attr then ATTR element attr else default.

Section Send.
Context {node W : Type} `{Countable node} {D : DomOps node} {CD : ContentDom node}
  (CB : ContentExecutorCallbacks node W) (CP : ContentPlatform node W) (FILE : string).
#[local] Existing Instance observed.
#[local] Existing Instance observed_platform.
Context (Hthrow : callbacks_throw (fun _ => True) CB CP).

Definition full (s : Event * (Executor node * (W * list Note))) : nat * string * string * list Note :=
  (header (fst s), seen (fun _ l => l) (snd s)).
Abbreviation fixed := (keeps full (fun _ => True)).
Abbreviation unsent l := (fun (_ : Exn) s => snd (full s) = l).

Lemma fixed_of {A} (m : @Local_ node (W * list Note) _ _ A) :
  keeps (fun s => header (fst s)) (fun _ => True) m ->
  keeps (fun s => seen (fun _ l => l) (snd s)) (fun _ => True) m -> fixed m.
Proof.
  intros Hh Hl [h l] s [= <- <-]. specialize (Hh _ s eq_refl). specialize (Hl _ s eq_refl).
  unfold full. destruct (m s) as [[x|a] s'].
  - destruct Hh as [-> _], Hl as [-> _]. done.
  - by rewrite Hh, Hl.
Qed.

Lemma fixed_lift {A} (m : @Content node (W * list Note) _ _ A) :
  keeps (seen (fun _ l => l)) (fun _ => True) m -> fixed (lift m).
Proof. intros Hm. apply fixed_of; [apply headed_lift|by apply calm_lift]. Qed.

(** Every step up to the send itself leaves the list of notes alone. *)
Lemma fixed_bind {A B} h l (m : @Local_ node (W * list Note) _ _ A) g Q :
  fixed m -> (forall a, triple (fun s => full s = (h, l)) (g a) Q (unsent l)) ->
  triple (fun s => full s = (h, l)) (m ≫= g : @Local_ node (W * list Note) _ _ B) Q (unsent l).
Proof.
  intros Hm Hg. eapply triple_bind; [|exact Hg]. eapply triple_conseq; [apply (Hm (h, l))|done..|].
  intros x s [-> _]. done.
Qed.

Lemma fixed_rethrow {A} c n (m : @Local_ node (W * list Note) _ _ A) : fixed m -> fixed (rethrow c n m).
Proof. intros Hm. apply keeps_catch; [done|]. intros e _. by apply keeps_throw. Qed.

Lemma attr_or_expr_static {A} h l c n e a d element (g : string -> @Local_ node (W * list Note) _ _ A) Q :
  (forall v, static_attr e a d element v -> triple (fun s => full s = (h, l)) (g v) Q (unsent l)) ->
  triple (fun s => full s = (h, l)) (rethrow c n (lift (attr_or_expr e a d element)) ≫= g) Q (unsent l).
Proof.
  intros Hg. unfold attr_or_expr, static_attr in *.
  destruct (HAS_ATTR element e) eqn:He.
  - apply fixed_bind; [|intros v; by apply Hg]. apply fixed_rethrow, fixed_lift.
    apply keeps_bind; [apply calm_call, Hthrow|intros ?; apply keeps_ret].
  - destruct (HAS_ATTR element a) eqn:Ha; intros [e1 s] Hs; by apply (Hg _ ltac:(done) (e1, s) Hs).
Qed.

Lemma send_id_spec type name sid l element :
  triple (fun s => full s = (type, name, sid, l)) (send_id element)
    (fun _ s => exists sid, full s = (type, name, sid, l) /\
       (HAS_ATTR element "id" = true -> sid = ATTR element "id")) (unsent l).
Proof.
  unfold send_id. destruct (HAS_ATTR element "id") eqn:Hid.
  { intros [e s] [= <- <- <- <-]. cbn. by eexists. }
  apply fixed_bind; [apply fixed_lift; by eapply calm_generated_id|]. intros i.
  assert (Hpost : forall (m : @Local_ node (W * list Note) _ _ unit), fixed m ->
    triple (fun s => full s = (type, name, i, l)) m
      (fun _ s => exists sid, full s = (type, name, sid, l) /\ (false = true -> sid = ATTR element "id")) (unsent l)).
  { intros m Hm. eapply triple_conseq; [apply (Hm (type, name, i, l))|done| |].
    - intros ? s Hs. by exists i.
    - intros x s [-> _]. done. }
  eapply triple_bind with (R := fun _ s => full s = (type, name, i, l)).
  { intros [e s] [= <- <- <- <-]. done. }
  intros _. apply Hpost. destruct (HAS_ATTR element "idlocation").
  - apply fixed_lift, calm_call, Hthrow.
  - apply fixed_of; [by apply headed_edit|apply calm_edit].
Qed.

Lemma rethrow_unsent {A} P c n (m : @Local_ node (W * list Note) _ _ A) Q l :
  triple P m Q (unsent l) -> triple P (rethrow c n m) Q (unsent l).
Proof.
  intros Hm s Hs. specialize (Hm s Hs). unfold rethrow, catch_error. by destruct (m s) as [[[]|a] s'].
Qed.

(** What is known of the event when it is sent. *)
Definition sent (element : node) (l l' : list Note) : Prop :=
  exists type target delayMs e, l' = l ++ [NSend type target delayMs e] /\
    e_eventType e = EXTERNAL /\
    static_attr "eventexpr" "event" "" element (e_name e) /\
    static_attr "targetexpr" "target" "" element target /\
    static_attr "typeexpr" "type" SCXMLEventProcessor element type /\
    (HAS_ATTR element "id" = true -> e_sendid e = ATTR element "id").

Definition ready (element : node) (name sid target type : string) : Prop :=
  static_attr "eventexpr" "event" "" element name /\
  static_attr "targetexpr" "target" "" element target /\
  static_attr "typeexpr" "type" SCXMLEventProcessor element type /\
  (HAS_ATTR element "id" = true -> sid = ATTR element "id").

(** The send itself, when the event is filled in. *)
Lemma enqueue_sent element name sid target type delayMs l : ready element name sid target type ->
  triple (fun s => full s = (EXTERNAL, name, sid, l))
    (sendEvent ← local_event;
     catch_error (lift (call (checkValidSendType type target))) (fun e =>
       throw (ErrorEvent (set_sendid (e_sendid sendEvent)
         (annotate "xpath" (Data_atom (xPathForNode element "") VERBATIM) e))));;
     lift (call (enqueue type target delayMs sendEvent)))
    (fun _ s => sent element l (snd (full s))) (unsent l).
Proof.
  intros (Hn & Ht & Hty & Hi) [e [ex [w l0]]] [= Het <- <- <-].
  unfold mbind, M_bind, catch_error, lift, call, local_event. cbn.
  destruct (checkValidSendType type target w) as [[[]|[]] w1]; try done. cbn.
  destruct (enqueue type target delayMs e w1) as [[x|[]] w2]; [done|].
  by exists type, target, delayMs, e.
Qed.

Lemma fixed_data element : fixed (processNameLists element) /\ fixed (processParams element) /\
  fixed (processContent element) /\ fixed (lift (send_delay element)).
Proof.
  split_and!; [apply fixed_of; [apply headed_processNameLists|by eapply calm_processNameLists]
    |apply fixed_of; [apply headed_processParams|by eapply calm_processParams]
    |apply fixed_of; [apply headed_processContent|by eapply calm_processContent]
    |apply fixed_lift; by eapply calm_send_delay].
Qed.

Lemma send_event_sent element h l :
  triple (fun s => full s = (h, l)) (send_event element) (fun _ s => sent element l (snd (full s))) (unsent l).
Proof.
  destruct (fixed_data element) as (Hnames & Hparams & Hcontent & Hdelay).
  destruct h as [[type0 name0] sid0]. unfold send_event.
  eapply triple_bind with (R := fun _ s => full s = (EXTERNAL, name0, sid0, l)).
  { intros [e s] [= <- <- <- <-]. done. }
  intros _. apply fixed_bind; [apply fixed_lift, calm_call, Hthrow|]. intros i.
  apply fixed_bind.
  { destruct (String.eqb i ""); [apply keeps_ret|].
    apply fixed_of; [by apply headed_edit|apply calm_edit]. }
  intros _. apply attr_or_expr_static. intros name Hname.
  eapply triple_bind with (R := fun _ s => full s = (EXTERNAL, name, sid0, l)).
  { intros [e s] [= Ht <- <- <-]. unfold full, header. cbn. by rewrite Ht. }
  intros _. apply attr_or_expr_static. intros target Htarget.
  apply attr_or_expr_static. intros type Htype.
  eapply triple_bind; [apply rethrow_unsent, send_id_spec|].
  intros _ s (sid & Hs & Hsid). revert s Hs.
  change (triple (fun s => full s = (EXTERNAL, name, sid, l)) (
    delayMs ← rethrow "Syntax error in send element delayexpr" element (lift (send_delay element));
    rethrow "Syntax error in send element namelist" element (processNameLists element);;
    rethrow "Syntax error in send element param expr" element (processParams element);;
    rethrow "Syntax error in send element content" element (processContent element);;
    sendEvent ← local_event;
    catch_error (lift (call (checkValidSendType type target))) (fun e =>
      throw (ErrorEvent (set_sendid (e_sendid sendEvent)
        (annotate "xpath" (Data_atom (xPathForNode element "") VERBATIM) e))));;
    lift (call (enqueue type target delayMs sendEvent)))
    (fun _ s => sent element l (snd (full s))) (unsent l)).
  apply fixed_bind; [by apply fixed_rethrow|]. intros delayMs.
  do 3 (apply fixed_bind; [by apply fixed_rethrow|]; intros _).
  by apply enqueue_sent.
Qed.

(** C25: a send element sends its event at most once, and exactly once unless it
    fails: nothing is sent when an expression of it cannot be evaluated or the
    target is refused. What is sent is an external event with the name,
    target, type and id that the attributes say, the type being the SCXML
    processor by default. *)
Theorem send_once element ex w l :
  match processSend element (ex, (w, l)) with
  | (inr _, (_, (_, l'))) => exists type target delayMs e, l' = l ++ [NSend type target delayMs e] /\
      e_eventType e = EXTERNAL /\
      static_attr "eventexpr" "event" "" element (e_name e) /\
      static_attr "targetexpr" "target" "" element target /\
      static_attr "typeexpr" "type" SCXMLEventProcessor element type /\
      (HAS_ATTR element "id" = true -> e_sendid e = ATTR element "id")
  | (inl _, (_, (_, l'))) => l' = l
  end.
Proof.
  assert (Hn := calm_new_event CB CP (fun _ l => l) (fun _ => True) Hthrow l (ex, (w, l)) eq_refl).
  unfold processSend. unfold mbind at 1, M_bind. destruct (new_event _) as [[x|e0] (ex1 & w1 & l1)].
  { by destruct Hn. }
  cbv in Hn. subst l1. assert (Ht := send_event_sent element (header e0) l (e0, (ex1, (w1, l))) eq_refl).
  unfold with_local. destruct (send_event element _) as [[x|a] (e2 & ex2 & w2 & l2)]; exact Ht.
Qed.

End Send.

(** ** Conditionals *)

Section Branches.
Context {node W : Type} `{Countable node} {D : DomOps node}
  {CB : ContentExecutorCallbacks node W} (process : node -> @Content node W _ _ unit).

(** The children up to the first [elseif] or [else], and the branches these open. *)
Fixpoint branches (prefix : string) (children : list node) : list node * list (option string * list node) :=
  match children with
  | [] => ([], [])
  | c :: rest =>
      let '(els, bs) := branches prefix rest in
      if iequals (getTagName c) (prefix +:+ "elseif") then ([], (Some (ATTR c "cond"), els) :: bs)
      else if iequals (getTagName c) (prefix +:+ "else") then ([], (None, els) :: bs)
      else (c :: els, bs)
  end.

(** Evaluate the conditions in order and execute the first branch that is chosen. *)
Fixpoint first_branch (bs : list (option string * list node)) : @Content node W _ _ unit :=
  match bs with
  | [] => mret tt
  | (None, els) :: _ => forM_ els process
  | (Some cond, els) :: bs =>
      b ← call (isTrue cond); if b : bool then forM_ els process else first_branch bs
  end.

Lemma processIf_loop_true prefix children :
  meq (processIf_loop process prefix children true) (forM_ (fst (branches prefix children)) process).
Proof.
  induction children as [|c rest IH]; [done|]. cbn. destruct (branches prefix rest) as [els bs].
  destruct (iequals _ _); [done|]. destruct (iequals _ _); [done|].
  cbn. apply meq_bind; [|done]. by intros _.
Qed.

Lemma processIf_loop_false prefix children :
  meq (processIf_loop process prefix children false) (first_branch (snd (branches prefix children))).
Proof.
  induction children as [|c rest IH]; [done|]. cbn.
  assert (Ht := processIf_loop_true prefix rest). destruct (branches prefix rest) as [els bs].
  destruct (iequals _ _); [apply meq_bind; [|done]; by intros []|].
  destruct (iequals _ _); [exact Ht|exact IH].
Qed.

(** An [if] element evaluates the conditions of its branches in document
    order, each at most once, and executes exactly the elements of the first
    branch whose condition holds, [else] standing for a condition that does. *)
Theorem processIf_first_branch content :
  let '(els, bs) := branches (XML_PREFIX content) (childElements content) in
  meq (processIf process content) (first_branch ((Some (ATTR content "cond"), els) :: bs)).
Proof.
  assert (Ht := processIf_loop_true (XML_PREFIX content) (childElements content)).
  assert (Hf := processIf_loop_false (XML_PREFIX content) (childElements content)).
  destruct (branches _ _) as [els bs]. apply meq_bind; [|done]. by intros [].
Qed.

End Branches.

(** ** Invoke ids *)

Section Invoke.
Context {node W : Type} `{Countable node} {D : DomOps node} {CD : ContentDom node}
  (CB : ContentExecutorCallbacks node W) (CP : ContentPlatform node W).
#[local] Existing Instance observed.
#[local] Existing Instance observed_platform.
Context (Hthrow : callbacks_throw (fun _ => True) CB CP).

Definition ids_notes (s : Executor node * (W * list Note)) : gmap node string * list Note :=
  seen (fun i l => (i, l)) s.
Definition invoke_view (s : Event * (Executor node * (W * list Note))) : string * (gmap node string * list Note) :=
  (e_invokeid (fst s), ids_notes (snd s)).
Abbreviation steady := (keeps invoke_view (fun _ => True)).
Abbreviation succeeds := (fun (_ : Exn) (_ : Event * (Executor node * (W * list Note))) => True).

Lemma steady_lift {A} (m : @Content node (W * list Note) _ _ A) :
  keeps ids_notes (fun _ => True) m -> steady (lift m).
Proof.
  intros Hm [i o] [e s] [= <- <-]. specialize (Hm _ s eq_refl). unfold lift, invoke_view.
  destruct (m s) as [[x|a] s']; cbn in *; [|by rewrite Hm]. by destruct Hm as [-> _].
Qed.

Lemma steady_edit g : (forall e, e_invokeid (g e) = e_invokeid e) -> steady (edit g).
Proof. intros Hg. apply keeps_modify. intros [e s]. unfold invoke_view. cbn. by rewrite Hg. Qed.

Lemma steady_rethrow {A} c n (m : @Local_ node (W * list Note) _ _ A) : steady m -> steady (rethrow c n m).
Proof. intros Hm. apply keeps_catch; [done|]. intros e _. by apply keeps_throw. Qed.

Lemma steady_bind {A B} v (m : @Local_ node (W * list Note) _ _ A) g Q :
  steady m -> (forall a, triple (fun s => invoke_view s = v) (g a) Q succeeds) ->
  triple (fun s => invoke_view s = v) (m ≫= g : @Local_ node (W * list Note) _ _ B) Q succeeds.
Proof. intros Hm Hg. eapply triple_bind; [|exact Hg]. by eapply triple_conseq; [apply (Hm v)|..]. Qed.

Ltac steady := repeat first
  [ apply keeps_ret
  | apply steady_lift, calm_call; apply Hthrow
  | by apply steady_edit
  | by apply steady_lift; eapply calm_elementAsEvaluatedData
  | apply keeps_bind; [|intros ?]
  | apply keeps_forM; intros ? ?
  | match goal with |- keeps _ _ (match ?d with _ => _ end) => destruct d end ].

Lemma steady_data element : steady (processNameLists element) /\ steady (processParams element) /\
  steady (processContent element).
Proof.
  split_and!.
  - unfold processNameLists. steady.
  - unfold processParams. steady. apply steady_lift. unfold param_data.
    destruct (HAS_ATTR _ _); [apply calm_call, Hthrow|]. destruct (HAS_ATTR _ _); [apply calm_call, Hthrow|].
    by eapply calm_elementAsEvaluatedData.
  - unfold processContent. steady.
Qed.

Lemma steady_attr e a d element : steady (lift (attr_or_expr e a d element)).
Proof. apply steady_lift. by eapply calm_attr_or_expr. Qed.

(** After the id is chosen it is in the event and at the element. *)
Lemma invoke_id_stored element i ids l :
  triple (fun s => invoke_view s = (i, (ids, l))) (invoke_id element)
    (fun _ s => exists id, invoke_view s = (id, (<[element := id]> ids, l))) succeeds.
Proof.
  unfold invoke_id.
  eapply triple_bind with (R := fun _ s => exists id, invoke_view s = (id, (ids, l))).
  - destruct (HAS_ATTR element "id").
    { intros [e s] [= <- <- <-]. by eexists. }
    apply steady_bind; [apply steady_lift; by eapply calm_generated_id|]. intros id.
    eapply triple_bind with (R := fun _ s => invoke_view s = (id, (ids, l))).
    { intros [e s] [= <- <- <-]. done. }
    intros _. assert (Hs : steady (if HAS_ATTR element "idlocation" then
        lift (call (assign (ATTR element "idlocation") (Data_atom id VERBATIM) [])) else mret tt)).
    { destruct (HAS_ATTR _ _); [apply steady_lift, calm_call, Hthrow|apply keeps_ret]. }
    eapply triple_conseq; [apply (Hs (id, (ids, l)))|done| |done]. intros ? s Hs'. by exists id.
  - intros _ [e [ex [w l0]]] [id [= <- <- <-]]. by exists (e_invokeid e).
Qed.

Definition invoked (element : node) (ids : gmap node string) (l : list Note)
    (s : Executor node * (W * list Note)) : Prop :=
  exists id, invokeIds (fst s) = <[element := id]> ids /\ snd (snd s) = l ++ [NInvoke id].

Lemma invoke_event_invoked element i ids l :
  triple (fun s => invoke_view s = (i, (ids, l))) (invoke_event element)
    (fun _ s => invoked element ids l (snd s)) succeeds.
Proof.
  destruct (steady_data element) as (Hnames & Hparams & Hcontent). unfold invoke_event.
  apply steady_bind; [apply steady_attr|]. intros type.
  apply steady_bind; [apply steady_attr|]. intros source.
  eapply triple_bind.
  { intros s Hs. assert (Hid := invoke_id_stored element i ids l s Hs). unfold rethrow, catch_error.
    destruct (invoke_id element s) as [[[]|a] s']; try done. exact Hid. }
  intros _ s [id Hs]. revert s Hs.
  do 3 (apply steady_bind; [by apply steady_rethrow|]; intros _).
  intros [e [ex [w l0]]] [= <- Hi ->]. unfold mbind, M_bind, lift, call, local_event. cbn.
  destruct (getMonitors (beforeInvoking _ _) w) as [[x|[]] w1]; [done|]. cbn.
  destruct (invoke_ _ _ _ _ _ w1) as [[x|[]] w2]; [done|]. cbn.
  destruct (getMonitors (afterInvoking _ _) w2) as [[x|[]] w3]; [done|]. cbn.
  by exists (e_invokeid e).
Qed.

(** An invocation that succeeds has told the interpreter exactly one invoke
    id and left it at its element; [uninvoke] of the element later ends this
    very invocation and forgets the id, whatever happened in between. *)
Theorem invoke_uninvoke element ex w l ex' w' l' :
  invoke element (ex, (w, l)) = (inr tt, (ex', (w', l'))) ->
  exists id, l' = l ++ [NInvoke id] /\ invokeIds ex' = <[element := id]> (invokeIds ex) /\
    forall c w1 l1 ex2 w2 l2,
      uninvoke element (mkExecutor (invokeIds ex') c, (w1, l1)) = (inr tt, (ex2, (w2, l2))) ->
      l2 = l1 ++ [NUninvoke id] /\ invokeIds ex2 = delete element (invokeIds ex').
Proof.
  intros Hinv. unfold invoke in Hinv. unfold mbind at 1, M_bind in Hinv.
  assert (Hn := calm_new_event CB CP (fun i l => (i, l)) (fun _ => True) Hthrow (invokeIds ex, l) (ex, (w, l)) eq_refl).
  destruct (new_event _) as [[x|e0] (ex1 & w1 & l1)]; [done|]. injection Hn as Hids ->.
  assert (Hv := invoke_event_invoked element (e_invokeid e0) (invokeIds ex) l (e0, (ex1, (w1, l)))).
  unfold with_local in Hinv. destruct (invoke_event element _) as [[x|a] [e2 s2]]; [done|].
  injection Hinv as _ ->. cbn in Hv. destruct Hv as (id & Hi & Hl).
  { unfold invoke_view, ids_notes, seen. cbn. by rewrite Hids. }
  cbn in Hi, Hl. exists id. split_and!; [done..|]. intros c wa la ex2 w2 l2.
  unfold uninvoke, executor, mbind, M_bind. cbn. rewrite Hi, lookup_insert_eq. cbn.
  destruct (getMonitors _ wa) as [[x|[]] wb]; [done|]. cbn.
  destruct (uninvoke_ id wb) as [[x|[]] wc]; [done|]. cbn.
  destruct (getMonitors _ wc) as [[x|[]] wd]; [done|]. cbn. by intros [= <- <- <-].
Qed.

End Invoke.

(** An invocation that fails in its type expression leaves no id, and ending
    it then reads a null pointer; the stepper, which counts the failed
    invocation as running, does end it. *)
Theorem failed_invoke_unsafe {node W} `{Countable node} {D : DomOps node} {CD : ContentDom node}
    {CB : ContentExecutorCallbacks node W} {CP : ContentPlatform node W} element ex w uuid w1 e w2 :
  HAS_ATTR element "typeexpr" = true -> getUUID w = (inr uuid, w1) ->
  evalAsData (ATTR element "typeexpr") w1 = (inl (ErrorEvent e), w2) ->
  invokeIds ex !! element = None ->
  invoke element (ex, w) = (inl (ErrorEvent e), (ex, w2)) /\
  uninvoke element (ex, w2) = (inl Undefined, (ex, w2)).
Proof.
  intros Ht Hu He Hid. split.
  - unfold invoke, new_event, with_local, invoke_event, attr_or_expr, mbind, M_bind, lift, call. rewrite Hu. cbn.
    by rewrite Ht, He.
  - unfold uninvoke, executor, mbind, M_bind. cbn. by rewrite Hid.
Qed.

(** ** A document to apply the theorems to *)

(** The data model evaluates every expression to itself, but fails on "bad". *)
Definition toy_data (expr : string) : M Exn unit Data := fun w =>
  (if String.eqb expr "bad" then inl (ErrorEvent (ERROR_EXECUTION "" "bad" "" ""))
   else inr (Data_atom expr INTERPRETED), w).

Definition toy : ContentExecutorCallbacks nat unit := {|
  enqueueInternal _ := mret tt;
  cancelDelayed _ := mret tt;
  isTrue cond := mret (stringIsTrue cond);
  getLength _ := mret 2%Z;
  setForeach _ _ _ _ := mret tt;
  evalAsData := toy_data;
  eval _ := mret tt;
  getAsData := toy_data;
  assign _ _ _ := mret tt;
  isValidExprSyntax expr := mret (negb (String.eqb expr "bad"));
  getInvokeId := mret ""%string;
  getBaseURL := mret ""%string;
  checkValidSendType _ _ := mret tt;
  enqueue _ _ _ _ := mret tt;
  invoke_ _ _ _ _ _ := mret tt;
  uninvoke_ _ := mret tt;
  getCurrentEvent := mret (Event_default "");
  getMonitors _ := mret tt;
  log _ _ := mret tt;
  createExecutableContent _ _ := mret 0;
|}.

Definition toy_platform : ContentPlatform nat unit := {|
  getUUID := mret "uuid"%string;
  isAbsolute _ := true;
  resolve _ src := src;
  getInContent _ := mret ""%string;
  parseDocument _ := throw OtherException;
  adopt _ _ := mret tt;
  hasExecutableContent _ _ := false;
  enterElement _ _ := mret tt;
  processChildren _ := mret false;
  exitElement _ _ := mret tt;
|}.

Definition toy_content : ContentDom nat := {|
  getNamespaceURI _ := ""%string;
  getAttributes _ := [];
  firstChildText _ := None;
  address n := Pos.of_succ_nat n;
  indeterminate := INTERPRETED;
|}.

Definition toy_doc : list row := rows
  (Xml "scxml" [] []
    [Xml "state" [("id", "s")] []
      [Xml "onentry" [] []
        [Xml "raise" [("event", "r")] [] [];
         Xml "if" [("cond", "false")] []
           [Xml "log" [("expr", "x")] [] [];
            Xml "elseif" [("cond", "true")] [] [];
            Xml "send" [("event", "e"); ("id", "i"); ("delay", "1.5s")] [] [];
            Xml "assign" [("location", "l"); ("expr", "y")] [] [];
            Xml "log" [("expr", "bad")] [] [];
            Xml "raise" [("event", "never")] [] []]];
       Xml "invoke" [("id", "inv"); ("typeexpr", "bad")] [] [];
       Xml "invoke" [("id", "ok")] [] [];
       Xml "donedata" [] [] [Xml "param" [("name", "p"); ("expr", "bad")] [] []]]])%string.

Definition toy_dom : DomOps nat := table_dom toy_doc.

Lemma toy_throws Ex : (forall e, e_eventType e = PLATFORM -> Ex (ErrorEvent e)) -> callbacks_throw Ex toy toy_platform.
Proof.
  intros HE. constructor; intros; intros []; try done; cbn; unfold toy_data;
    repeat match goal with |- context [if ?b then _ else _] => destruct b end; try done; by apply HE.
Qed.

Definition no_ids : Executor nat := mkExecutor ∅ ∅.
Definition start : Executor nat * (unit * list Note) := (no_ids, (tt, [])).
Definition notes_of {A} (r : (Exn + A) * (Executor nat * (unit * list Note))) : list Note := snd (snd (snd r)).


(** The blocks and children of the document above satisfy what the theorems ask. *)
Lemma toy_wellformed block c :
  is_block (D := toy_dom) block = true -> c ∈ @childElements nat toy_dom block ->
  is_finalize (H := toy_dom) c = false.
Proof.
  intros Hb Hc. destruct (decide (block < length toy_doc)) as [Hlt|Hge].
  - assert (Hall : forallb (fun b => forallb (fun c => negb (is_finalize (H := toy_dom) c))
      (@childElements nat toy_dom b)) (seq 0 (length toy_doc)) = true) by (vm_compute; reflexivity).
    rewrite forallb_forall in Hall. specialize (Hall block). rewrite in_seq, forallb_forall in Hall.
    apply negb_true_iff, (Hall ltac:(lia) c). by apply list_elem_of_In.
  - assert (Hn : @childElements nat toy_dom block = []).
    { change (row_children (row_at toy_doc block) = []). unfold row_at. by rewrite lookup_ge_None_2 by lia. }
    rewrite Hn in Hc. by apply elem_of_nil in Hc.
Qed.

Lemma process_unfold_witness :
  notes_of (process (D := toy_dom) (CD := toy_content) (CB := observed toy) (CP := observed_platform toy_platform)
    "" 4 start) =
  notes_of (process_body (D := toy_dom) (CD := toy_content) (CB := observed toy)
    (CP := observed_platform toy_platform) ""
    (process (D := toy_dom) (CD := toy_content) (CB := observed toy) (CP := observed_platform toy_platform) "")
    4 start).
Proof.
  unfold notes_of.
  by rewrite (process_unfold (D := toy_dom) (DL := table_laws toy_doc eq_refl) (CD := toy_content)
    (CB := observed toy) (CP := observed_platform toy_platform) "" 4 start).
Defined.

(** In the onentry block the third element of the branch fails. *)
Lemma error_reported_once_witness :
  exists e l', process (D := toy_dom) (CD := toy_content) (CB := observed toy)
      (CP := observed_platform toy_platform) "" 2 start = (inl (PlainEvent e), (no_ids, (tt, l'))) /\
    errors l' = [e].
Proof.
  assert (Ht := error_reported_once (D := toy_dom) (CD := toy_content) toy toy_platform ""
    (toy_throws platform_error (fun e H => H)) toy_wellformed 2 no_ids tt [] eq_refl).
  change (no_ids, (tt, [])) with start in Ht.
  destruct (process "" 2 start) as [r [ex' [w' l']]] eqn:Hrun.
  assert (Hr : is_Some (match r with inl (PlainEvent e) => Some e | _ => None end) /\ ex' = no_ids).
  { assert (Hv : let '(r, (ex', _)) := process (D := toy_dom) (CD := toy_content) (CB := observed toy)
      (CP := observed_platform toy_platform) "" 2 start in
      is_Some (match r with inl (PlainEvent e) => Some e | _ => None end) /\ ex' = no_ids)
      by (vm_compute; split; [by eexists|reflexivity]).
    by rewrite Hrun in Hv. }
  destruct Hr as [[e0 He] ->]. destruct r as [[]|]; try discriminate He.
  destruct Ht as [(e' & [= <-] & He')|[? _]]; [|discriminate]. destruct w'. by exists e, l'.
Defined.

Lemma done_event_raised_witness : exists ex' w' l' done,
  raiseDoneEvent (D := toy_dom) (CD := toy_content) (CB := observed toy)
    (CP := observed_platform toy_platform) "" 1 (Some 13) start
  = (inr tt, (ex', (w', [] ++ l' ++ [NInternal done]))) /\ e_name done = "done.state.s"%string /\
  e_eventType done = INTERNAL /\ (l' = [] \/ exists err, l' = [NInternal err] /\ e_data done = Data_empty).
Proof.
  exact (done_event_raised (D := toy_dom) (CD := toy_content) toy toy_platform ""
    (toy_throws is_error (fun _ _ => I)) 1 (Some 13) no_ids tt []).
Defined.

Lemma send_once_witness : exists type target delayMs e,
  notes_of (processSend (D := toy_dom) (CD := toy_content) (CB := observed toy)
    (CP := observed_platform toy_platform) 7 start) = [NSend type target delayMs e] /\
  e_name e = "e"%string /\ e_sendid e = "i"%string.
Proof.
  assert (Ht := send_once (D := toy_dom) (CD := toy_content) toy toy_platform
    (toy_throws (fun _ => True) (fun _ _ => I)) 7 no_ids tt []).
  change (no_ids, (tt, [])) with start in Ht. unfold notes_of.
  destruct (processSend 7 start) as [[x|a] [ex [w l]]] eqn:Hrun.
  { exfalso. vm_compute in Hrun. discriminate. }
  destruct Ht as (type & target & ms & e & -> & _ & Hn & _ & _ & Hi).
  exists type, target, ms, e. split; [done|]. split; [by apply Hn|by apply Hi].
Defined.

Lemma invoke_uninvoke_witness : exists id,
  notes_of (invoke (D := toy_dom) (CD := toy_content) (CB := observed toy)
    (CP := observed_platform toy_platform) 12 start) = [NInvoke id].
Proof.
  destruct (invoke (D := toy_dom) (CD := toy_content) (CB := observed toy)
    (CP := observed_platform toy_platform) 12 start) as [r [ex' [w' l']]] eqn:Hrun.
  assert (Hr : r = inr tt) by (change r with (fst (r, (ex', (w', l')))); rewrite <- Hrun; vm_compute; reflexivity). subst r.
  destruct (invoke_uninvoke (D := toy_dom) (CD := toy_content) toy toy_platform
    (toy_throws (fun _ => True) (fun _ _ => I)) 12 no_ids tt [] ex' w' l' Hrun) as (id & Hl & _).
  exists id. exact Hl.
Defined.

Lemma failed_invoke_unsafe_witness : exists e,
  invoke (D := toy_dom) (CD := toy_content) (CB := toy) (CP := toy_platform) 11 (no_ids, tt)
  = (inl (ErrorEvent e), (no_ids, tt)) /\
  uninvoke (CB := toy) 11 (no_ids, tt) = (inl Undefined, (no_ids, tt)).
Proof.
  eexists. by apply (failed_invoke_unsafe (D := toy_dom) (CD := toy_content) (CB := toy) (CP := toy_platform)
    11 no_ids tt "uuid" tt).
Defined.
