(* ===== verification/Base64.v ===== *)
(** * Base64: [util/Base64.c] and [util/Base64.hpp]

    The encoder and the decoder of libb64 are coroutines that keep the step
    they stopped at; here each is a function that consumes one character. *)

From stdpp Require Import base list option strings.
From S2P Require Import Prelude.

Local Open Scope Z_scope.

(** A [char] by its unsigned value, and the [char] a value is truncated to. *)
Definition byte (c : Ascii.ascii) : Z := Z.of_N (Ascii.N_of_ascii c).
Definition char_of (z : Z) : Ascii.ascii := Ascii.ascii_of_N (Z.to_N (z mod 256)).
Definition schar (z : Z) : Z := (z + 128) mod 256 - 128.

(** ** The encoder *)

Inductive base64_encodestep := step_A | step_B | step_C.

Record base64_encodestate := mkEncodestate {
  enc_step : base64_encodestep;
  enc_result : Z;
  enc_stepcount : Z;
}.

Definition CHARS_PER_LINE : Z := 72.

Definition base64_init_encodestate : base64_encodestate := mkEncodestate step_A 0 0.

Definition encoding : list Ascii.ascii :=
  explode "ABCDEFGHIJKLMNOPQRSTUVWXYZabcdefghijklmnopqrstuvwxyz0123456789+/".

Definition base64_encode_value (value_in : Z) : Ascii.ascii :=
  if 63 <? value_in then "="%char else char_at encoding (Z.to_nat value_in).

(** One round of the loop: what is written for the character [c]. *)
Definition encode_char (c : Ascii.ascii) (state : base64_encodestate) : list Ascii.ascii * base64_encodestate :=
  let fragment := byte c in
  let stepcount := enc_stepcount state in
  match enc_step state with
  | step_A =>
      let result := Z.shiftr (Z.land fragment 0xfc) 2 in
      ([base64_encode_value result], mkEncodestate step_B (Z.shiftl (Z.land fragment 0x03) 4) stepcount)
  | step_B =>
      let result := Z.lor (enc_result state) (Z.shiftr (Z.land fragment 0xf0) 4) in
      ([base64_encode_value result], mkEncodestate step_C (Z.shiftl (Z.land fragment 0x0f) 2) stepcount)
  | step_C =>
      let result := Z.lor (enc_result state) (Z.shiftr (Z.land fragment 0xc0) 6) in
      let result' := Z.shiftr (Z.land fragment 0x3f) 0 in
      let out := [base64_encode_value result; base64_encode_value result'] in
      if stepcount + 1 =? CHARS_PER_LINE / 4
      then (out ++ [Ascii.ascii_of_nat 10], mkEncodestate step_A result' 0)
      else (out, mkEncodestate step_A result' (stepcount + 1))
  end.

Fixpoint base64_encode_block (plaintext_in : list Ascii.ascii) (state : base64_encodestate)
    : list Ascii.ascii * base64_encodestate :=
  match plaintext_in with
  | [] => ([], state)
  | c :: plaintext_in =>
      let '(out, state) := encode_char c state in
      let '(rest, state) := base64_encode_block plaintext_in state in
      (out ++ rest, state)
  end.

Definition base64_encode_blockend (state : base64_encodestate) : list Ascii.ascii :=
  match enc_step state with
  | step_B => [base64_encode_value (enc_result state); "="%char; "="%char]
  | step_C => [base64_encode_value (enc_result state); "="%char]
  | step_A => []
  end ++ [Ascii.ascii_of_nat 10].

(** What is written to [out], and what of it is returned. *)
Definition base64Encode_buffer (data : list Ascii.ascii) (withBlockEnd : bool) : list Ascii.ascii :=
  let '(out, state) := base64_encode_block data base64_init_encodestate in
  if withBlockEnd then out ++ base64_encode_blockend state else out.

Definition base64Encode (data : list Ascii.ascii) (withBlockEnd : bool) : list Ascii.ascii :=
  if withBlockEnd then removelast (base64Encode_buffer data true) else base64Encode_buffer data false.

(** The size of [out]: [malloc(len * 1.4 + 814)]. *)
Definition buffer_size (len : nat) : Z := (Z.of_nat len * 14 + 8140) / 10.

(** ** The decoder *)

(** [plainchar] is what has been written to the character the output pointer
    stands on; [step_a] writes it without reading it. *)
Inductive base64_decodestate :=
| step_a | step_b (plainchar : Z) | step_c (plainchar : Z) | step_d (plainchar : Z).

Definition decoding : list Z :=
  [62;-1;-1;-1;63;52;53;54;55;56;57;58;59;60;61;-1;-1;-1;-2;-1;-1;-1;0;1;2;3;4;5;6;7;8;9;10;11;12;13;14;15;16;
   17;18;19;20;21;22;23;24;25;-1;-1;-1;-1;-1;-1;26;27;28;29;30;31;32;33;34;35;36;37;38;39;40;41;42;43;44;45;46;
   47;48;49;50;51].

Definition decoding_size : Z := 80.

(** [None]: the table is read behind its end. *)
Definition base64_decode_value (c : Ascii.ascii) : option Z :=
  let value_in := schar (byte c - 43) in
  if (value_in <? 0) || (decoding_size <? value_in) then Some (-1) else decoding !! Z.to_nat value_in.

Definition decode_char (c : Ascii.ascii) (state : base64_decodestate)
    : option (list Ascii.ascii * base64_decodestate) :=
  fragment ← base64_decode_value c;
  if fragment <? 0 then Some ([], state)
  else Some
    match state with
    | step_a => ([], step_b (Z.shiftl (Z.land fragment 0x3f) 2))
    | step_b p => ([char_of (Z.lor p (Z.shiftr (Z.land fragment 0x30) 4))],
                   step_c (Z.shiftl (Z.land fragment 0x0f) 4))
    | step_c p => ([char_of (Z.lor p (Z.shiftr (Z.land fragment 0x3c) 2))],
                   step_d (Z.shiftl (Z.land fragment 0x03) 6))
    | step_d p => ([char_of (Z.lor p (Z.land fragment 0x3f))], step_a)
    end.

Fixpoint base64_decode_block (code_in : list Ascii.ascii) (state : base64_decodestate)
    : option (list Ascii.ascii * base64_decodestate) :=
  match code_in with
  | [] => Some ([], state)
  | c :: code_in =>
      '(out, state) ← decode_char c state;
      '(rest, state) ← base64_decode_block code_in state;
      Some (out ++ rest, state)
  end.

Definition base64Decode (data : list Ascii.ascii) : option (list Ascii.ascii) :=
  fst <$> base64_decode_block data step_a.

(** ** The decoder undoes the encoder *)

Definition all_chars : list Ascii.ascii := Ascii.ascii_of_nat <$> seq 0 256.

Lemma elem_of_all_chars c : c ∈ all_chars.
Proof.
  apply list_elem_of_fmap. exists (Ascii.nat_of_ascii c). rewrite Ascii.ascii_nat_embedding.
  split; [done|]. apply elem_of_seq. pose proof (Ascii.nat_ascii_bounded c). lia.
Qed.

Lemma all_chars_1 (P : Ascii.ascii -> bool) : forallb P all_chars = true -> forall a, P a = true.
Proof. intros Hf a. apply (proj1 (forallb_forall P all_chars) Hf), list_elem_of_In, elem_of_all_chars. Qed.

(** The values below [n], as a check of a bounded value. *)
Lemma below (n : nat) (P : Z -> bool) : forallb (fun k => P (Z.of_nat k)) (seq 0 n) = true ->
  forall v, 0 <= v < Z.of_nat n -> P v = true.
Proof.
  intros Hf v Hv. rewrite <- (Z2Nat.id v) by lia.
  apply (proj1 (forallb_forall _ _) Hf), list_elem_of_In, elem_of_seq. lia.
Qed.

(** What a character is cut into, and the value of the sextet that is written
    for two consecutive characters. *)
Lemma parts a : let b := byte a in
  (0 <= Z.land b 0x03 < 4 /\ 0 <= Z.shiftr (Z.land b 0xf0) 4 < 16 /\ 0 <= Z.land b 0x0f < 16 /\
   0 <= Z.shiftr (Z.land b 0xc0) 6 < 4) /\
  (0 <= Z.shiftr (Z.land b 0xfc) 2 < 64 /\ 0 <= Z.shiftr (Z.land b 0x3f) 0 < 64).
Proof.
  set (ok := fun a => let b := byte a in
    (Z.land b 0x03 <? 4) && (0 <=? Z.land b 0x03) && (Z.shiftr (Z.land b 0xf0) 4 <? 16) && (0 <=? Z.shiftr (Z.land b 0xf0) 4) &&
    (Z.land b 0x0f <? 16) && (0 <=? Z.land b 0x0f) && (Z.shiftr (Z.land b 0xc0) 6 <? 4) && (0 <=? Z.shiftr (Z.land b 0xc0) 6) &&
    (Z.shiftr (Z.land b 0xfc) 2 <? 64) && (0 <=? Z.shiftr (Z.land b 0xfc) 2) &&
    (Z.shiftr (Z.land b 0x3f) 0 <? 64) && (0 <=? Z.shiftr (Z.land b 0x3f) 0)).
  assert (Hok : ok a = true) by (apply all_chars_1; by vm_compute). unfold ok in Hok. cbv zeta in *.
  rewrite !andb_true_iff, !Z.ltb_lt, !Z.leb_le in Hok. tauto.
Qed.

Lemma joined a :
  char_of (Z.lor (Z.land (byte a) 0xfc) (Z.land (byte a) 0x03)) = a /\
  char_of (Z.lor (Z.land (byte a) 0xf0) (Z.land (byte a) 0x0f)) = a /\
  char_of (Z.lor (Z.land (byte a) 0xc0) (Z.land (Z.shiftr (Z.land (byte a) 0x3f) 0) 0x3f)) = a.
Proof.
  set (ok := fun a => Ascii.eqb (char_of (Z.lor (Z.land (byte a) 0xfc) (Z.land (byte a) 0x03))) a &&
    Ascii.eqb (char_of (Z.lor (Z.land (byte a) 0xf0) (Z.land (byte a) 0x0f))) a &&
    Ascii.eqb (char_of (Z.lor (Z.land (byte a) 0xc0) (Z.land (Z.shiftr (Z.land (byte a) 0x3f) 0) 0x3f))) a).
  assert (Hok : ok a = true) by (apply all_chars_1; by vm_compute). unfold ok in Hok.
  rewrite !andb_true_iff, !Ascii.eqb_eq in Hok. tauto.
Qed.

Lemma high_parts a :
  Z.shiftl (Z.shiftr (Z.land (byte a) 0xf0) 4) 4 = Z.land (byte a) 0xf0 /\
  Z.shiftl (Z.shiftr (Z.land (byte a) 0xc0) 6) 6 = Z.land (byte a) 0xc0 /\
  Z.shiftl (Z.land (Z.shiftr (Z.land (byte a) 0xfc) 2) 0x3f) 2 = Z.land (byte a) 0xfc.
Proof.
  set (ok := fun a => (Z.shiftl (Z.shiftr (Z.land (byte a) 0xf0) 4) 4 =? Z.land (byte a) 0xf0) &&
    (Z.shiftl (Z.shiftr (Z.land (byte a) 0xc0) 6) 6 =? Z.land (byte a) 0xc0) &&
    (Z.shiftl (Z.land (Z.shiftr (Z.land (byte a) 0xfc) 2) 0x3f) 2 =? Z.land (byte a) 0xfc)).
  assert (Hok : ok a = true) by (apply all_chars_1; by vm_compute). unfold ok in Hok.
  rewrite !andb_true_iff, !Z.eqb_eq in Hok. tauto.
Qed.

Definition split_B (x y : Z) : bool :=
  let v := Z.lor (Z.shiftl x 4) y in
  (0 <=? v) && (v <? 64) && (Z.shiftr (Z.land v 0x30) 4 =? x) && (Z.shiftl (Z.land v 0x0f) 4 =? Z.shiftl y 4).
Definition split_C (x y : Z) : bool :=
  let v := Z.lor (Z.shiftl x 2) y in
  (0 <=? v) && (v <? 64) && (Z.shiftr (Z.land v 0x3c) 2 =? x) && (Z.shiftl (Z.land v 0x03) 6 =? Z.shiftl y 6).

Lemma split_B_spec x y : 0 <= x < 4 -> 0 <= y < 16 -> split_B x y = true.
Proof.
  intros Hx Hy. refine (below 16 (split_B x) _ y Hy).
  refine (below 4 (fun x => forallb (fun k => split_B x (Z.of_nat k)) (seq 0 16)) _ x Hx). by vm_compute.
Qed.
Lemma split_C_spec x y : 0 <= x < 16 -> 0 <= y < 4 -> split_C x y = true.
Proof.
  intros Hx Hy. refine (below 4 (split_C x) _ y Hy).
  refine (below 16 (fun x => forallb (fun k => split_C x (Z.of_nat k)) (seq 0 4)) _ x Hx). by vm_compute.
Qed.

Definition in_alphabet (c : Ascii.ascii) : bool :=
  existsb (Ascii.eqb c) encoding || Ascii.eqb c "=" || Ascii.eqb c (Ascii.ascii_of_nat 10).

Lemma encode_value_spec v : 0 <= v < 64 ->
  base64_decode_value (base64_encode_value v) = Some v /\ in_alphabet (base64_encode_value v) = true.
Proof.
  intros Hv.
  set (ok := fun v => match base64_decode_value (base64_encode_value v) with Some w => w =? v | None => false end &&
    in_alphabet (base64_encode_value v)).
  assert (Hok : ok v = true) by (refine (below 64 ok _ v Hv); by vm_compute). unfold ok in Hok.
  apply andb_true_iff in Hok as (Hok & ?). destruct (base64_decode_value _); [|done].
  by apply Z.eqb_eq in Hok as ->.
Qed.

Abbreviation sextet_B a b :=
  (Z.lor (Z.shiftl (Z.land (byte a) 0x03) 4) (Z.shiftr (Z.land (byte b) 0xf0) 4)).
Abbreviation sextet_C b c :=
  (Z.lor (Z.shiftl (Z.land (byte b) 0x0f) 2) (Z.shiftr (Z.land (byte c) 0xc0) 6)).

Lemma sextet_B_range a b : 0 <= sextet_B a b < 64 /\
  Z.shiftr (Z.land (sextet_B a b) 0x30) 4 = Z.land (byte a) 0x03 /\
  Z.shiftl (Z.land (sextet_B a b) 0x0f) 4 = Z.land (byte b) 0xf0.
Proof.
  pose proof (split_B_spec _ _ (proj1 (proj1 (parts a))) (proj1 (proj2 (proj1 (parts b))))) as Hs.
  unfold split_B in Hs. cbv zeta in Hs. rewrite !andb_true_iff, Z.leb_le, Z.ltb_lt, !Z.eqb_eq in Hs.
  rewrite (proj1 (high_parts b)) in Hs. tauto.
Qed.

Lemma sextet_C_range b c : 0 <= sextet_C b c < 64 /\
  Z.shiftr (Z.land (sextet_C b c) 0x3c) 2 = Z.land (byte b) 0x0f /\
  Z.shiftl (Z.land (sextet_C b c) 0x03) 6 = Z.land (byte c) 0xc0.
Proof.
  pose proof (split_C_spec _ _ (proj1 (proj2 (proj2 (proj1 (parts b))))) (proj2 (proj2 (proj2 (proj1 (parts c)))))) as Hs.
  unfold split_C in Hs. cbv zeta in Hs. rewrite !andb_true_iff, Z.leb_le, Z.ltb_lt, !Z.eqb_eq in Hs.
  rewrite (proj1 (proj2 (high_parts c))) in Hs. tauto.
Qed.

(** The last sextet of a text is that of a following NUL. *)
Lemma sextet_end a : Z.shiftl (Z.land (byte a) 0x03) 4 = sextet_B a "000" /\
  Z.shiftl (Z.land (byte a) 0x0f) 2 = sextet_C a "000".
Proof. by rewrite !Z.lor_0_r. Qed.

Lemma decode_sextet v st : 0 <= v < 64 ->
  decode_char (base64_encode_value v) st = Some
    match st with
    | step_a => ([], step_b (Z.shiftl (Z.land v 0x3f) 2))
    | step_b p => ([char_of (Z.lor p (Z.shiftr (Z.land v 0x30) 4))], step_c (Z.shiftl (Z.land v 0x0f) 4))
    | step_c p => ([char_of (Z.lor p (Z.shiftr (Z.land v 0x3c) 2))], step_d (Z.shiftl (Z.land v 0x03) 6))
    | step_d p => ([char_of (Z.lor p (Z.land v 0x3f))], step_a)
    end.
Proof.
  intros Hv. unfold decode_char. rewrite (proj1 (encode_value_spec v Hv)). cbn [mbind option_bind].
  by rewrite (proj2 (Z.ltb_ge _ _)) by lia.
Qed.

Abbreviation decodes_to v st out st' := (decode_char (base64_encode_value v) st = Some (out, st')).

Lemma decode_A a : decodes_to (Z.shiftr (Z.land (byte a) 0xfc) 2) step_a [] (step_b (Z.land (byte a) 0xfc)).
Proof. rewrite decode_sextet by apply parts. by rewrite (proj2 (proj2 (high_parts a))). Qed.

Lemma decode_B a b :
  decodes_to (sextet_B a b) (step_b (Z.land (byte a) 0xfc)) [a] (step_c (Z.land (byte b) 0xf0)).
Proof.
  destruct (sextet_B_range a b) as (Hr & Ha & Hb). rewrite decode_sextet, Ha, Hb by done. by rewrite (proj1 (joined a)).
Qed.

Lemma decode_B_end a :
  decodes_to (Z.shiftl (Z.land (byte a) 0x03) 4) (step_b (Z.land (byte a) 0xfc)) [a] (step_c 0).
Proof. rewrite (proj1 (sextet_end a)). by rewrite decode_B. Qed.

Lemma decode_C b c :
  decodes_to (sextet_C b c) (step_c (Z.land (byte b) 0xf0)) [b] (step_d (Z.land (byte c) 0xc0)).
Proof.
  destruct (sextet_C_range b c) as (Hr & Hb & Hc). rewrite decode_sextet, Hb, Hc by done.
  by rewrite (proj1 (proj2 (joined b))).
Qed.

Lemma decode_C_end b :
  decodes_to (Z.shiftl (Z.land (byte b) 0x0f) 2) (step_c (Z.land (byte b) 0xf0)) [b] (step_d 0).
Proof. rewrite (proj2 (sextet_end b)). by rewrite decode_C. Qed.

Lemma decode_D c :
  decodes_to (Z.shiftr (Z.land (byte c) 0x3f) 0) (step_d (Z.land (byte c) 0xc0)) [c] step_a.
Proof. rewrite decode_sextet by apply parts. by rewrite (proj2 (proj2 (joined c))). Qed.

Lemma decode_skip c st : c ∈ [Ascii.ascii_of_nat 10; "="%char] -> decode_char c st = Some ([], st).
Proof. by intros [->| ->%list_elem_of_singleton]%elem_of_cons. Qed.

Lemma decode_block_app s1 : forall s2 st,
  base64_decode_block (s1 ++ s2) st =
    ('(out1, st1) ← base64_decode_block s1 st;
     '(out2, st2) ← base64_decode_block s2 st1; Some (out1 ++ out2, st2)).
Proof.
  induction s1 as [|c s1 IH]; intros s2 st; simpl.
  - by destruct (base64_decode_block s2 st) as [[? ?]|].
  - destruct (decode_char c st) as [[o1 st1]|]; simpl; [|done]. rewrite IH.
    destruct (base64_decode_block s1 st1) as [[o2 st2]|]; simpl; [|done].
    destruct (base64_decode_block s2 st2) as [[o3 st3]|]; simpl; [|done]. by rewrite app_assoc.
Qed.

(** The coroutines are in step: the decoder is one character behind while the
    encoder is within a group. *)
Inductive in_step : base64_encodestate -> base64_decodestate -> list Ascii.ascii -> Prop :=
| in_step_A r n : in_step (mkEncodestate step_A r n) step_a []
| in_step_B a n : in_step (mkEncodestate step_B (Z.shiftl (Z.land (byte a) 0x03) 4) n)
                          (step_b (Z.land (byte a) 0xfc)) [a]
| in_step_C b n : in_step (mkEncodestate step_C (Z.shiftl (Z.land (byte b) 0x0f) 2) n)
                          (step_c (Z.land (byte b) 0xf0)) [b].

Lemma encode_char_in_step c enc dec pending : in_step enc dec pending ->
  exists out dec' pending',
    base64_decode_block (fst (encode_char c enc)) dec = Some (out, dec') /\
    in_step (snd (encode_char c enc)) dec' pending' /\ out ++ pending' = pending ++ [c].
Proof.
  intros []; cbn [encode_char enc_step enc_result enc_stepcount fst snd base64_decode_block].
  - rewrite decode_A. by eexists _, _, _; split_and!; [|constructor|].
  - rewrite decode_B. by eexists _, _, _; split_and!; [|constructor|].
  - case_match; cbn [fst snd app base64_decode_block]; rewrite decode_C; cbn [mbind option_bind];
      rewrite decode_D; cbn [mbind option_bind]; rewrite ?decode_skip by set_solver;
      by eexists _, _, _; split_and!; [|constructor|].
Qed.

Lemma encode_block_in_step data : forall enc dec pending, in_step enc dec pending ->
  exists out dec' pending',
    base64_decode_block (fst (base64_encode_block data enc)) dec = Some (out, dec') /\
    in_step (snd (base64_encode_block data enc)) dec' pending' /\ out ++ pending' = pending ++ data.
Proof.
  induction data as [|c data IH]; intros enc dec pending Hin; simpl.
  - eexists [], dec, pending. split_and!; [done|done|by rewrite app_nil_r].
  - destruct (encode_char_in_step c enc dec pending Hin) as (o1 & dec1 & p1 & Hd1 & Hin1 & He1).
    destruct (encode_char c enc) as [w1 enc1]. cbn [fst snd] in *.
    destruct (IH enc1 dec1 p1 Hin1) as (o2 & dec2 & p2 & Hd2 & Hin2 & He2).
    destruct (base64_encode_block data enc1) as [w2 enc2]. cbn [fst snd] in *.
    eexists (o1 ++ o2), dec2, p2. split_and!; [|done|].
    + by rewrite decode_block_app, Hd1; simpl; rewrite Hd2.
    + by rewrite <- app_assoc, He2, app_assoc, He1, <- app_assoc.
Qed.

Lemma blockend_in_step enc dec pending : in_step enc dec pending ->
  exists dec', base64_decode_block (removelast (base64_encode_blockend enc)) dec = Some (pending, dec').
Proof.
  intros []; cbn [base64_encode_blockend enc_step enc_result app removelast base64_decode_block]; [eauto| |];
    rewrite ?decode_B_end, ?decode_C_end; cbn [mbind option_bind];
    rewrite !decode_skip by set_solver; eauto.
Qed.

Lemma blockend_not_nil enc : base64_encode_blockend enc <> [].
Proof. unfold base64_encode_blockend. by destruct (enc_step enc). Qed.

Lemma base64Decode_base64Encode data : base64Decode (base64Encode data true) = Some data.
Proof.
  unfold base64Decode, base64Encode, base64Encode_buffer.
  destruct (encode_block_in_step data _ _ _ (in_step_A 0 0)) as (o & dec & p & Hd & Hin & He).
  fold base64_init_encodestate in Hd, Hin. destruct (base64_encode_block data _) as [w enc].
  cbn [fst snd] in *. rewrite removelast_app by apply blockend_not_nil. rewrite decode_block_app, Hd.
  destruct (blockend_in_step _ _ _ Hin) as (dec' & He').
  cbn [mbind option_bind]. rewrite He'. cbn. by rewrite He.
Qed.

(** ** The characters of the encoder *)

Lemma alphabet_A a : in_alphabet (base64_encode_value (Z.shiftr (Z.land (byte a) 0xfc) 2)) = true.
Proof. apply encode_value_spec, parts. Qed.
Lemma alphabet_B a b : in_alphabet (base64_encode_value (sextet_B a b)) = true.
Proof. apply encode_value_spec, sextet_B_range. Qed.
Lemma alphabet_B_end a : in_alphabet (base64_encode_value (Z.shiftl (Z.land (byte a) 0x03) 4)) = true.
Proof. rewrite (proj1 (sextet_end a)). apply alphabet_B. Qed.
Lemma alphabet_C a b : in_alphabet (base64_encode_value (sextet_C a b)) = true.
Proof. apply encode_value_spec, sextet_C_range. Qed.
Lemma alphabet_C_end a : in_alphabet (base64_encode_value (Z.shiftl (Z.land (byte a) 0x0f) 2)) = true.
Proof. rewrite (proj2 (sextet_end a)). apply alphabet_C. Qed.
Lemma alphabet_D a : in_alphabet (base64_encode_value (Z.shiftr (Z.land (byte a) 0x3f) 0)) = true.
Proof. apply encode_value_spec, parts. Qed.

Lemma encode_char_alphabet c enc dec pending : in_step enc dec pending ->
  forallb in_alphabet (fst (encode_char c enc)) = true.
Proof.
  intros []; cbn [encode_char enc_step enc_result enc_stepcount fst forallb].
  - by rewrite alphabet_A.
  - by rewrite alphabet_B.
  - case_match; cbn [fst app forallb]; by rewrite alphabet_C, alphabet_D.
Qed.

Lemma encode_block_alphabet data : forall enc dec pending, in_step enc dec pending ->
  forallb in_alphabet (fst (base64_encode_block data enc)) = true.
Proof.
  induction data as [|c data IH]; intros enc dec pending Hin; [done|]. simpl.
  pose proof (encode_char_alphabet c enc dec pending Hin) as Hc.
  destruct (encode_char_in_step c enc dec pending Hin) as (o & dec' & p' & _ & Hin' & _).
  destruct (encode_char c enc) as [w enc']. specialize (IH enc' dec' p' Hin'). cbn [fst snd] in *.
  destruct (base64_encode_block data enc') as [w' enc'']. cbn [fst] in *. by rewrite forallb_app, Hc, IH.
Qed.

Lemma base64Encode_alphabet data : forallb in_alphabet (base64Encode data true) = true.
Proof.
  unfold base64Encode, base64Encode_buffer.
  pose proof (encode_block_alphabet data _ _ _ (in_step_A 0 0)) as Hc.
  destruct (encode_block_in_step data _ _ _ (in_step_A 0 0)) as (o & dec & p & _ & Hin & _).
  fold base64_init_encodestate in Hc, Hin. destruct (base64_encode_block data _) as [w enc].
  cbn [fst snd] in *. rewrite removelast_app by apply blockend_not_nil. rewrite forallb_app, Hc. cbn [andb].
  destruct Hin; cbn [base64_encode_blockend enc_step enc_result app removelast forallb]; [done| |];
    by rewrite ?alphabet_B_end, ?alphabet_C_end.
Qed.

(** ** The buffer of the encoder *)

(** Eighteen groups of three characters take 73: the state accounts for the
    difference since the last new line. *)
Definition credit (enc : base64_encodestate) : Z :=
  3 * enc_stepcount enc + match enc_step enc with step_A => 0 | step_B => 19 | step_C => 38 end.

Lemma encode_char_size c enc : 0 <= enc_stepcount enc < 18 ->
  0 <= enc_stepcount (snd (encode_char c enc)) < 18 /\
  54 * Z.of_nat (length (fst (encode_char c enc))) + credit (snd (encode_char c enc)) = 73 + credit enc.
Proof.
  destruct enc as [[] r n]; unfold credit; cbn [encode_char enc_step enc_result enc_stepcount fst snd length]; [lia..|].
  change (CHARS_PER_LINE / 4) with 18.
  destruct (n + 1 =? 18) eqn:Hn; cbn [fst snd enc_stepcount enc_step length app]; [apply Z.eqb_eq in Hn|apply Z.eqb_neq in Hn]; lia.
Qed.

Lemma encode_block_size data : forall enc, 0 <= enc_stepcount enc < 18 ->
  0 <= credit (snd (base64_encode_block data enc)) /\
  54 * Z.of_nat (length (fst (base64_encode_block data enc))) + credit (snd (base64_encode_block data enc)) =
  73 * Z.of_nat (length data) + credit enc.
Proof.
  induction data as [|c data IH]; intros enc Hn; simpl.
  - split; [|lia]. unfold credit. destruct (enc_step enc); lia.
  - destruct (encode_char_size c enc Hn) as (Hn1 & Hs1). destruct (encode_char c enc) as [w1 enc1].
    cbn [fst snd] in *. destruct (IH enc1 Hn1) as (Hp & Hs). destruct (base64_encode_block data enc1) as [w2 enc2].
    cbn [fst snd] in *. split; [done|]. rewrite length_app. lia.
Qed.

(** What the encoder writes for [len] characters, new lines and padding
    included, fits into the buffer of [len * 1.4 + 814] bytes it allocates. *)
Theorem base64Encode_fits data withBlockEnd :
  Z.of_nat (length (base64Encode_buffer data withBlockEnd)) <= buffer_size (length data).
Proof.
  unfold base64Encode_buffer, buffer_size.
  destruct (encode_block_size data base64_init_encodestate ltac:(done)) as (Hp & Hs).
  destruct (base64_encode_block data _) as [w enc]. cbn [fst snd] in *. change (credit base64_init_encodestate) with 0 in Hs.
  apply Z.div_le_lower_bound; [done|]. destruct withBlockEnd; [|lia]. rewrite length_app.
  assert (length (base64_encode_blockend enc) <= 4)%nat by (unfold base64_encode_blockend; destruct (enc_step enc); simpl; lia).
  lia.
Qed.

(** The character behind the last one of the table is looked up behind its end. *)
Lemma decode_value_undefined c : base64_decode_value c = None <-> c = "{"%char.
Proof.
  assert (Hb : match base64_decode_value c with None => true | Some _ => false end = Ascii.eqb c "{"%char).
  { apply eqb_true_iff. revert c. refine (all_chars_1 (fun c => Bool.eqb _ _) _). by vm_compute. }
  rewrite <- Ascii.eqb_eq, <- Hb. by destruct (base64_decode_value c).
Qed.
