(* ===== verification/Serialize.v ===== *)
(** * Saving and restoring the stepper: [FastMicroStep::serialize], [deserialize]

    The bit sets of the stepper are written as Base64 of their blocks and
    their size. [boost::dynamic_bitset] is not part of the sources: the class
    [DynamicBitset] lists what the code uses of it and [BitsetLaws] what its
    documentation promises. Blocks are 64 bits wide and stored little endian. *)

From stdpp Require Import base list gmap strings.
From S2P Require Import Prelude Strings Dom Predicates Data Chart Effects MicroStep StepLemmas Recorder Content Base64.

Local Open Scope nat_scope.

(** ** Bit sets *)

Class DynamicBitset (B : Type) := {
  bitset : nat -> gset nat -> B;
  bs_size : B -> nat;
  bs_test : B -> nat -> bool;
  to_block_range : B -> list Z;
  init_from_block_range : list Z -> B;
  bs_resize : B -> nat -> B;
}.

Definition num_blocks (size : nat) : nat := (size + 63) / 64.

Class BitsetLaws (B : Type) `{DynamicBitset B} := {
  bitset_size n s : bs_size (bitset n s) = n;
  bitset_test n s k : bs_test (bitset n s) k = bool_decide (k < n /\ k ∈ s);
  test_size b k : bs_test b k = true -> k < bs_size b;
  blocks_length b : length (to_block_range b) = num_blocks (bs_size b);
  blocks_bound b x : x ∈ to_block_range b -> (0 <= x < 2 ^ 64)%Z;
  blocks_test b k x : to_block_range b !! (k / 64) = Some x ->
    Z.testbit x (Z.of_nat (k mod 64)) = bs_test b k;
  init_size l : bs_size (init_from_block_range l) = 64 * length l;
  init_test l k x : l !! (k / 64) = Some x ->
    bs_test (init_from_block_range l) k = Z.testbit x (Z.of_nat (k mod 64));
  resize_size b n : bs_size (bs_resize b n) = n;
  resize_test b n k : bs_test (bs_resize b n) k = bool_decide (k < n) && bs_test b k;
}.

Module FastMicroStep.

(** *** Bytes of blocks, as [memcpy] copies them *)

Definition block_bytes (x : Z) : list Ascii.ascii :=
  (fun k => char_of (Z.shiftr x (8 * Z.of_nat k))) <$> seq 0 8.

Definition bytes_block (l : list Ascii.ascii) : Z :=
  foldr (fun c x => Z.lor (byte c) (Z.shiftl x 8)) 0%Z l.

Fixpoint blocks_of (n : nat) (l : list Ascii.ascii) : list Z :=
  match n with 0 => [] | S n => bytes_block (take 8 l) :: blocks_of n (drop 8 l) end.

Section Bitsets.
Context {B : Type} {BS : DynamicBitset B}.

Definition toBase64 (b : B) : string :=
  let bytes := to_block_range b ++ [(Z.of_nat (bs_size b) mod 2 ^ 64)%Z] in
  implode (base64Encode (flat_map block_bytes bytes) true).

(** [None]: the vector of blocks is empty, or too short for the bytes. *)
Definition fromBase64 (encoded : string) : option B :=
  decoded ← base64Decode (explode encoded);
  let bytes := blocks_of (length decoded / 8) decoded in
  if negb (length decoded mod 8 =? 0) then None
  else
    size ← last bytes;
    Some (bs_resize (init_from_block_range (removelast bytes)) (Z.to_nat size)).

End Bitsets.

Section Serialize.
Context {node W B : Type} {BS : DynamicBitset B} {CB : MicroStepCallbacks node W Exn}.
Context (throw_platform : string -> string -> M Exn W unit) (c : Chart node).

Definition encoded (s : gset nat) : Data := Data_atom (toBase64 (bitset (n_states c) s)) VERBATIM.

Definition serialize (ms : MicroState) : Data :=
  Data_put "intializedData" (encoded (_initializedData ms))
    (Data_put "histories" (encoded (_history ms))
      (Data_put "invocations" (encoded (_invocations ms))
        (Data_put "configuration" (encoded (_configuration ms)) Data_empty))).

(** A bit set without a bit for every state, and for no others, is taken to
    be undefined when it is read, not only once it is used. *)
Definition member (encodedState : Data) (key : string) : @Step W Exn (gset nat) :=
  match fromBase64 (B := B) (d_atom (Data_at encodedState key)) with
  | Some b =>
      if bs_size b =? n_states c
      then mret (list_to_set (filter (fun k => bs_test b k = true) (seq 0 (n_states c))))
      else throw Undefined
  | None => throw Undefined
  end.

Definition reinvoke (i : nat) : @Step W Exn unit :=
  ms ← getm;
  if bool_decide (i ∈ _invocations ms)
  then forM_ (state_list c s_invoke i) (fun inv => attempt (call (invoke inv));; mret tt)
  else mret tt.

Definition deserialize (encodedState : Data) : @Step W Exn unit :=
  if negb (hasKey encodedState "configuration") || negb (hasKey encodedState "invocations") ||
     negb (hasKey encodedState "histories") || negb (hasKey encodedState "intializedData")
  then call (fun _ => throw_platform "Data does not contain required fields for deserialization " "103")
  else
    s ← member encodedState "configuration"; update (set_configuration (fun _ => s));;
    s ← member encodedState "invocations"; update (set_invocations (fun _ => s));;
    s ← member encodedState "histories"; update (set_history s);;
    s ← member encodedState "intializedData"; update (set_initializedData (fun _ => s));;
    forM_ (seq 0 (n_states c)) reinvoke;;
    update (set_flags (fun f => Z.lor f USCXML_CTX_INITIALIZED)).

End Serialize.

(** ** A bit set comes back *)

Lemma block_bytes_length x : length (block_bytes x) = 8.
Proof. done. Qed.

Lemma byte_char_of z : byte (char_of z) = (z mod 256)%Z.
Proof.
  unfold byte, char_of. pose proof (Z.mod_pos_bound z 256 ltac:(done)).
  rewrite Ascii.N_ascii_embedding; [|lia]. lia.
Qed.

Lemma shift_bytes x k : (0 <= k)%Z ->
  Z.lor (Z.shiftr x k mod 256) (Z.shiftl (Z.shiftr x (k + 8)) 8) = Z.shiftr x k.
Proof.
  intros Hk. apply Z.bits_inj'. intros i Hi. change 256%Z with (2 ^ 8)%Z.
  rewrite Z.lor_spec. destruct (Z.ltb_spec i 8).
  - rewrite Z.mod_pow2_bits_low by done. rewrite (Z.shiftl_spec_low _ _ i) by done. apply orb_false_r.
  - rewrite Z.mod_pow2_bits_high by lia. rewrite Z.shiftl_spec, !Z.shiftr_spec by lia.
    simpl. f_equal. lia.
Qed.

Lemma bytes_block_bytes x : (0 <= x < 2 ^ 64)%Z -> bytes_block (block_bytes x) = x.
Proof.
  intros Hx. unfold block_bytes. cbn [seq fmap list_fmap bytes_block foldr].
  rewrite !byte_char_of.
  assert (Hz : Z.shiftr x (8 * Z.of_nat 7 + 8) = 0%Z) by (rewrite Z.shiftr_div_pow2; [|lia]; apply Z.div_small; simpl; lia).
  rewrite <- Hz.
  repeat match goal with
  | |- context [Z.lor (Z.shiftr x (8 * Z.of_nat ?k) mod 256) (Z.shiftl (Z.shiftr x ?m) 8)] =>
      replace (Z.shiftr x m) with (Z.shiftr x (8 * Z.of_nat k + 8)) by (f_equal; lia);
      rewrite (shift_bytes x (8 * Z.of_nat k)) by lia
  end.
  by rewrite Z.shiftr_0_r.
Qed.

Lemma blocks_of_bytes l : (forall x, x ∈ l -> (0 <= x < 2 ^ 64)%Z) ->
  blocks_of (length l) (flat_map block_bytes l) = l.
Proof.
  induction l as [|x l IH]; intros Hl; [done|]. cbn [length blocks_of flat_map].
  rewrite take_app_length', drop_app_length' by done.
  rewrite bytes_block_bytes by set_solver. rewrite IH; [done|]. set_solver.
Qed.

Lemma bytes_length l : length (flat_map block_bytes l) = 8 * length l.
Proof. induction l as [|x l IH]; [done|]. cbn [flat_map length]. rewrite length_app, block_bytes_length, IH. lia. Qed.

Section Roundtrip.
Context {B : Type} {BS : DynamicBitset B} {BL : BitsetLaws B}.

Lemma fromBase64_toBase64 (b : B) : (Z.of_nat (bs_size b) < 2 ^ 64)%Z ->
  exists b', fromBase64 (toBase64 b) = Some b' /\ bs_size b' = bs_size b /\
    forall k, bs_test b' k = bs_test b k.
Proof.
  intros Hs. unfold fromBase64, toBase64. rewrite explode_implode, base64Decode_base64Encode.
  cbn [mbind option_bind]. rewrite bytes_length, Nat.mul_comm, Nat.Div0.mod_mul, Nat.div_mul by done.
  cbn [Nat.eqb negb]. rewrite (Z.mod_small (Z.of_nat _)) by lia.
  rewrite blocks_of_bytes.
  2:{ intros x [Hx| ->%list_elem_of_singleton]%elem_of_app; [by eapply blocks_bound|lia]. }
  rewrite last_snoc, removelast_last. eexists. split; [done|]. rewrite resize_size, Nat2Z.id.
  split; [done|]. intros k. rewrite resize_test. case_bool_decide as Hk; simpl.
  - destruct (lookup_lt_is_Some_2 (to_block_range b) (k / 64)) as [x Hx].
    { rewrite blocks_length. unfold num_blocks.
      pose proof (Nat.div_mod_eq k 64). pose proof (Nat.mod_upper_bound k 64 ltac:(done)).
      pose proof (Nat.div_mod_eq (bs_size b + 63) 64). pose proof (Nat.mod_upper_bound (bs_size b + 63) 64 ltac:(done)). lia. }
    by rewrite (init_test _ _ _ Hx), (blocks_test _ _ _ Hx).
  - destruct (bs_test b k) eqn:Ht; [|done]. apply test_size in Ht. lia.
Qed.

End Roundtrip.

(** ** A machine comes back *)

Section Restore.
Context {node W B : Type} {BS : DynamicBitset B} {BL : BitsetLaws B} {CB : MicroStepCallbacks node W Exn}.
Context (throw_platform : string -> string -> M Exn W unit) (c : Chart node).

(** The members of [ms] that are stored, with the others as in [ms0]. *)
Definition restored (ms ms0 : MicroState) : MicroState :=
  mkMicroState (_flags ms0) (_configuration ms) (_invocations ms) (_history ms) (_initializedData ms)
    (_microstepConfigurations ms0) (_isCancelled ms0) (_event ms0).

(** The invoke elements of the states whose invokers were running. *)
Definition running_invokes (ms : MicroState) : list node :=
  flat_map (fun i => if bool_decide (i ∈ _invocations ms) then state_list c s_invoke i else []) (seq 0 (n_states c)).

Definition invoke_all (ms : MicroState) (l : list node) : M Exn W unit :=
  forM_ l (fun inv => attempt (invoke inv ms);; mret tt).

Lemma forM_app {A St} (l1 l2 : list A) (f : A -> M Exn St unit) s :
  forM_ (l1 ++ l2) f s = (forM_ l1 f;; forM_ l2 f) s.
Proof.
  revert s. induction l1 as [|x l1 IH]; intros s; [done|].
  simpl. unfold mbind, M_bind. destruct (f x s) as [[e|[]] s']; [done|]. apply IH.
Qed.

Lemma invoke_all_app ms l1 l2 w : invoke_all ms (l1 ++ l2) w = (invoke_all ms l1;; invoke_all ms l2) w.
Proof. apply forM_app. Qed.

Lemma attempt_call {A} (m : MicroState -> M Exn W A) ms w :
  (attempt (call m);; mret tt) (ms, w) = (let '(r, w') := (attempt (m ms);; mret tt) w in (r, (ms, w'))).
Proof. unfold mbind, M_bind, attempt, call. by destruct (m ms w) as [[[]|] w']. Qed.

Lemma forM_attempt_call (l : list node) ms w :
  forM_ l (fun inv => attempt (call (invoke inv));; mret tt) (ms, w) =
  (let '(r, w') := invoke_all ms l w in (r, (ms, w'))).
Proof.
  unfold invoke_all. revert w. induction l as [|inv l IH]; intros w; [done|]. cbn [forM_].
  unfold mbind at 1, M_bind at 1. rewrite attempt_call. unfold mbind at 3, M_bind at 3.
  destruct ((attempt (invoke inv ms);; mret tt) w) as [[e|[]] w']; [done|apply IH].
Qed.

Lemma reinvoke_one i ms w :
  reinvoke c i (ms, w) =
  (if bool_decide (i ∈ _invocations ms)
   then forM_ (state_list c s_invoke i) (fun inv => attempt (call (invoke inv));; mret tt) (ms, w)
   else (inr tt, (ms, w))).
Proof. unfold reinvoke, mbind, M_bind at 1, getm. cbn [fst]. by case_bool_decide. Qed.

Lemma reinvoke_spec (idxs : list nat) ms w :
  forM_ idxs (reinvoke c) (ms, w) =
  (let '(r, w') := invoke_all ms (flat_map (fun i => if bool_decide (i ∈ _invocations ms)
     then state_list c s_invoke i else []) idxs) w in (r, (ms, w'))).
Proof.
  revert w. induction idxs as [|i idxs IH]; intros w; [done|]. cbn [forM_ flat_map].
  unfold mbind at 1, M_bind at 1. rewrite reinvoke_one. case_bool_decide; [|apply IH]. rewrite forM_attempt_call, invoke_all_app.
  unfold mbind, M_bind. destruct (invoke_all _ _ w) as [[e|[]] w']; [done|apply IH].
Qed.

Lemma member_encoded (s : gset nat) key d : in_range c s ->
  (Z.of_nat (n_states c) < 2 ^ 64)%Z ->
  member (B := B) c (Data_put key (encoded (B := B) c s) d) key = (mret s : @Step W Exn (gset nat)).
Proof.
  intros Hs Hn. unfold member. rewrite Data_at_put_eq. unfold encoded. cbn [d_atom Data_atom].
  destruct (fromBase64_toBase64 (bitset (n_states c) s)) as (b & -> & Hb & Ht); [by rewrite bitset_size|].
  rewrite Hb, bitset_size, Nat.eqb_refl. f_equal. apply set_eq. intros k.
  rewrite elem_of_list_to_set, list_elem_of_filter, elem_of_seq, Ht, bitset_test, bool_decide_eq_true.
  split; [tauto|]. intros Hk. apply Hs in Hk as Hk'. split; [done|lia].
Qed.

Lemma member_put_ne key key' v d : key <> key' ->
  member (B := B) c (Data_put key v d) key' = (member (B := B) c d key' : @Step W Exn (gset nat)).
Proof. intros. unfold member. by rewrite Data_at_put_ne. Qed.

(** Restoring what was saved of a machine into another one brings back the
    configuration, the running invocations, the histories and the set of
    initialised data, starts the invokers that were running again in document
    order, whatever errors that raises, and marks the machine as initialised. *)
Lemma deserialize_saved ms ms0 w :
  in_range c (_configuration ms ∪ _invocations ms ∪ _history ms ∪ _initializedData ms) ->
  (Z.of_nat (n_states c) < 2 ^ 64)%Z ->
  deserialize (B := B) throw_platform c (serialize (B := B) c ms) (ms0, w) =
  match invoke_all (restored ms ms0) (running_invokes ms) w with
  | (inr _, w') => (inr tt, (set_flags (fun f => Z.lor f USCXML_CTX_INITIALIZED) (restored ms ms0), w'))
  | (inl x, w') => (inl x, (restored ms ms0, w'))
  end.
Proof.
  intros Hk Hn. unfold deserialize, serialize. autorewrite with uscxml_rw. cbn [negb orb].
  rewrite !(member_put_ne "intializedData" "configuration"), !(member_put_ne "histories" "configuration"),
    !(member_put_ne "invocations" "configuration"), !(member_put_ne "intializedData" "invocations"),
    !(member_put_ne "histories" "invocations"), !(member_put_ne "intializedData" "histories") by done.
  rewrite !member_encoded by (done || (intros k Hin; apply Hk; set_solver)).
  cbv beta iota delta [mbind M_bind mret M_ret update modify]. rewrite reinvoke_spec.
  change (set_initializedData _ _) with (restored ms ms0). change (flat_map _ _) with (running_invokes ms).
  by destruct (invoke_all _ _ w) as [[x|[]] w'].
Qed.

Lemma manage_invocations_noop ms (w : W) : _invocations ms = _configuration ms ->
  manage_invocations c (ms, w) = (inr tt, (ms, w)).
Proof.
  intros Hi. unfold manage_invocations. induction (seq 0 (n_states c)) as [|i l IH]; [done|]. cbn [forM_].
  assert (Hone : manage_invocation c i (ms, w) = (inr tt, (ms, w))).
  { unfold manage_invocation, mbind, M_bind, getm. cbn [fst].
    destruct (bool_decide (i ∈ _configuration ms)) eqn:E; rewrite Hi, E; cbn; by rewrite Hi, ?E. }
  unfold mbind, M_bind. by rewrite Hone.
Qed.

Lemma step_waiting ms w1 w2 blockMs e : _flags ms = USCXML_CTX_INITIALIZED -> _invocations ms = _configuration ms ->
  Event_bool e = false -> (forall ms', dequeueInternal ms' w1 = (inr e, w1)) ->
  (forall ms', monitor onStableConfiguration ms' w1 = (inr tt, w2)) ->
  MicroStep.step c blockMs (ms, w1) =
  (inr USCXML_MACROSTEPPED,
   (mkMicroState (Z.lor USCXML_CTX_INITIALIZED USCXML_CTX_STABLE) (_configuration ms) (_invocations ms) (_history ms)
      (_initializedData ms) ∅ (_isCancelled ms) e, w2)).
Proof.
  intros Hf Hi He Hdeq Hmon. unfold MicroStep.step, mbind, M_bind at 1, getm. cbn [fst]. rewrite Hf.
  change (has_flag USCXML_CTX_INITIALIZED USCXML_CTX_FINISHED) with false.
  change (has_flag USCXML_CTX_INITIALIZED USCXML_CTX_TOP_LEVEL_FINAL) with false.
  change (USCXML_CTX_INITIALIZED =? USCXML_CTX_PRISTINE)%Z with false.
  change (has_flag USCXML_CTX_INITIALIZED USCXML_CTX_SPONTANEOUS) with false. cbn iota.
  cbv beta iota delta [M_bind call update modify]. rewrite Hdeq, He.
  rewrite manage_invocations_noop by done. cbn [fst _flags set_event]. rewrite Hf.
  change (has_flag USCXML_CTX_INITIALIZED USCXML_CTX_STABLE) with false. cbn iota beta delta [negb].
  rewrite Hmon. unfold set_flags. cbn. by rewrite Hf.
Qed.

(** A machine that is saved while it waits for events and restored into a
    fresh one reports its stable configuration once more and is then as it
    was, but for the event of its last step. *)
Theorem restored_waits ms w w1 w2 blockMs e :
  in_range c (_configuration ms ∪ _invocations ms ∪ _history ms ∪ _initializedData ms) ->
  (Z.of_nat (n_states c) < 2 ^ 64)%Z ->
  _flags ms = Z.lor USCXML_CTX_INITIALIZED USCXML_CTX_STABLE ->
  _invocations ms = _configuration ms ->
  invoke_all (restored ms pristine) (running_invokes ms) w = (inr tt, w1) ->
  Event_bool e = false -> (forall ms', dequeueInternal ms' w1 = (inr e, w1)) ->
  (forall ms', monitor onStableConfiguration ms' w1 = (inr tt, w2)) ->
  (deserialize (B := B) throw_platform c (serialize (B := B) c ms);; MicroStep.step c blockMs) (pristine, w) =
  (inr USCXML_MACROSTEPPED,
   (mkMicroState (_flags ms) (_configuration ms) (_invocations ms) (_history ms) (_initializedData ms) ∅ false e, w2)).
Proof.
  intros Hk Hn Hf Hi Hinv He Hdeq Hmon. unfold mbind at 1, M_bind at 1.
  rewrite deserialize_saved by done. rewrite Hinv. rewrite Hf.
  by apply (step_waiting (set_flags (fun f => Z.lor f USCXML_CTX_INITIALIZED) (restored ms pristine)) w1 w2 blockMs e).
Qed.

(** That a machine has finished is not stored: whatever the flags of the
    machine that is saved, the one that is restored into a fresh machine is
    neither finished nor about to finish, and waits for events. *)
Theorem finished_forgotten ms w ms' w' :
  in_range c (_configuration ms ∪ _invocations ms ∪ _history ms ∪ _initializedData ms) ->
  (Z.of_nat (n_states c) < 2 ^ 64)%Z ->
  deserialize (B := B) throw_platform c (serialize (B := B) c ms) (pristine, w) = (inr tt, (ms', w')) ->
  _configuration ms' = _configuration ms /\ _flags ms' = USCXML_CTX_INITIALIZED.
Proof.
  intros Hk Hn. rewrite deserialize_saved by done.
  destruct (invoke_all _ _ w) as [[x|[]] w1]; [done|]. by intros [= <- <-].
Qed.

End Restore.

End FastMicroStep.

(** ** Bit sets as a size and a set of indices *)

Record Bits := mkBits { b_size : nat; b_set : gset nat }.

Definition bits_test (b : Bits) (k : nat) : bool := bool_decide (k < b_size b /\ k ∈ b_set b).

Definition select (n : nat) (f : nat -> bool) : gset nat := list_to_set (filter (fun k => f k = true) (seq 0 n)).

Fixpoint block_value (n : nat) (f : nat -> bool) : Z :=
  match n with
  | 0 => 0%Z
  | S n => if f n then Z.lor (block_value n f) (2 ^ Z.of_nat n) else block_value n f
  end.

#[export] Instance bits_bitset : DynamicBitset Bits := {|
  bitset := mkBits;
  bs_size := b_size;
  bs_test := bits_test;
  to_block_range b := (fun i => block_value 64 (fun j => bits_test b (64 * i + j))) <$> seq 0 (num_blocks (b_size b));
  init_from_block_range l :=
    mkBits (64 * length l)
      (select (64 * length l) (fun k => Z.testbit (default 0%Z (l !! (k / 64))) (Z.of_nat (k mod 64))));
  bs_resize b n := mkBits n (select n (bits_test b));
|}.

Lemma elem_of_select n f k : k ∈ select n f <-> k < n /\ f k = true.
Proof. unfold select. rewrite elem_of_list_to_set, list_elem_of_filter, elem_of_seq. intuition lia. Qed.

Lemma block_value_testbit f n k : Z.testbit (block_value n f) (Z.of_nat k) = bool_decide (k < n) && f k.
Proof.
  induction n as [|n IH]; cbn [block_value];
    [by rewrite Z.bits_0, bool_decide_eq_false_2 by lia|].
  assert (Hs : Z.testbit (2 ^ Z.of_nat n) (Z.of_nat k) = bool_decide (k = n)).
  { rewrite Z.pow2_bits_eqb by lia. apply eq_iff_eq_true. rewrite bool_decide_eq_true, Z.eqb_eq. lia. }
  destruct (f n) eqn:Hf; rewrite ?Z.lor_spec, IH, ?Hs; repeat case_bool_decide; simpl; try lia; subst;
    rewrite ?Hf, ?orb_true_r, ?orb_false_r; try done; exfalso; lia.
Qed.

Lemma block_value_bound f n : (0 <= block_value n f < 2 ^ Z.of_nat n)%Z.
Proof.
  induction n as [|n IH]; [done|]. cbn [block_value].
  rewrite Nat2Z.inj_succ, Z.pow_succ_r by lia.
  destruct (f n); [|lia]. split; [apply Z.lor_nonneg; lia|].
  rewrite <- Z.lxor_lor, <- Z.add_nocarry_lxor; [lia| |];
    apply Z.bits_inj'; intros i Hi; rewrite Z.land_spec, Z.bits_0, Z.pow2_bits_eqb by lia;
    (destruct (Z.eqb_spec (Z.of_nat n) i) as [<-|]; [|apply andb_false_r]);
    rewrite andb_true_r, block_value_testbit; by rewrite bool_decide_eq_false_2 by lia.
Qed.

#[export] Instance bits_laws : BitsetLaws Bits.
Proof.
  split; cbn [bitset bs_size bs_test to_block_range init_from_block_range bs_resize bits_bitset b_size]; try done.
  - intros b k [? _]%bool_decide_eq_true. done.
  - intros b. by rewrite length_fmap, length_seq.
  - intros b x (i & -> & _)%list_elem_of_fmap. apply (block_value_bound _ 64).
  - intros b k x (i & -> & [-> Hi]%lookup_seq)%list_lookup_fmap_Some.
    pose proof (Nat.mod_upper_bound k 64 ltac:(done)). rewrite block_value_testbit, bool_decide_eq_true_2 by done.
    cbn [andb]. f_equal. pose proof (Nat.div_mod_eq k 64). lia.
  - intros l k x Hl. unfold bits_test. cbn [b_size b_set].
    assert (k < 64 * length l).
    { apply lookup_lt_Some in Hl. pose proof (Nat.div_mod_eq k 64). pose proof (Nat.mod_upper_bound k 64 ltac:(done)). lia. }
    apply eq_iff_eq_true. rewrite bool_decide_eq_true, elem_of_select, Hl. simpl. tauto.
  - intros b n k. unfold bits_test at 1. cbn [b_size b_set]. apply eq_iff_eq_true.
    rewrite bool_decide_eq_true, elem_of_select, andb_true_iff, bool_decide_eq_true. tauto.
Qed.

(** ** Examples *)

(** The recording environment with the exceptions of the interpreter. *)
Definition as_exn {St A} (m : M unit St A) : M Exn St A := fun s =>
  match m s with (inl _, s') => (inl OtherException, s') | (inr a, s') => (inr a, s') end.

Definition exn_callbacks {node W} (CB : MicroStepCallbacks node W unit) : MicroStepCallbacks node W Exn := {|
  dequeueInternal ms := as_exn (dequeueInternal ms);
  dequeueExternal blockMs ms := as_exn (dequeueExternal blockMs ms);
  isMatched := isMatched;
  raiseDoneEvent state doneData ms := as_exn (raiseDoneEvent state doneData ms);
  isTrue cond ms := as_exn (isTrue cond ms);
  initData data ms := as_exn (initData data ms);
  process block ms := as_exn (process block ms);
  invoke inv ms := as_exn (invoke inv ms);
  uninvoke inv ms := as_exn (uninvoke inv ms);
  monitor m ms := as_exn (monitor m ms);
|}.

Definition invoking_doc : list row := rows
  (Xml "scxml" [("initial", "a")] []
    [Xml "state" [("id", "a")] []
       [Xml "invoke" [] [] []; Xml "transition" [("event", "e"); ("target", "f")] [] []];
     Xml "final" [("id", "f")] [] []]).

Definition invoking_chart : Chart nat := default (mkChart [] [] ∅ EARLY) (init (table_dom invoking_doc) 0).

#[local] Instance calls : MicroStepCallbacks nat (World nat) Exn :=
  exn_callbacks (recorder (fun _ => true) (fun _ => true)).

(** A step and its answer; the state after [k] steps with the event [e]. *)
Definition one_step (st : MicroState * World nat) := MicroStep.step (CB := calls) invoking_chart 0%Z st.
Definition after (k : nat) : MicroState * World nat :=
  Nat.iter k (fun st => snd (one_step st)) (pristine, world_of ["e"]).
Definition answers (k : nat) (st : MicroState * World nat) : list (option InterpreterState) :=
  (fun j => match fst (one_step (Nat.iter j (fun st => snd (one_step st)) st)) with inr r => Some r | inl _ => None end)
    <$> seq 0 k.

Definition no_throw : string -> string -> M Exn (World nat) unit := fun _ _ => throw OtherException.

Definition restore (ms : MicroState) : MicroState * World nat :=
  snd (FastMicroStep.deserialize (B := Bits) no_throw invoking_chart
         (FastMicroStep.serialize (B := Bits) invoking_chart ms) (pristine, world_of [])).

Lemma in_invoking_range (s : gset nat) : bool_decide (set_Forall (fun i => i < n_states invoking_chart) s) = true ->
  in_range invoking_chart s.
Proof. by intros Hs%bool_decide_eq_true i Hi%Hs. Qed.

Lemma restored_waits_witness : exists ms w2,
  (FastMicroStep.deserialize (B := Bits) no_throw invoking_chart
     (FastMicroStep.serialize (B := Bits) invoking_chart (fst (after 3)));; MicroStep.step invoking_chart 0%Z)
    (pristine, world_of []) = (inr USCXML_MACROSTEPPED, (ms, w2)) /\
  _configuration ms = {[0; 1]}.
Proof.
  set (w1 := snd (FastMicroStep.invoke_all (FastMicroStep.restored (fst (after 3)) pristine)
    (FastMicroStep.running_invokes invoking_chart (fst (after 3))) (world_of []))).
  eexists _, _. split.
  - apply (FastMicroStep.restored_waits no_throw invoking_chart (fst (after 3)) (world_of []) w1
      (record (CMonitor onStableConfiguration) w1) 0%Z no_event).
    + apply in_invoking_range. by vm_compute.
    + by vm_compute.
    + by vm_compute.
    + by vm_compute.
    + by vm_compute.
    + done.
    + intros ms'. by vm_compute.
    + intros ms'. by vm_compute.
  - apply (bool_decide_unpack _). by vm_compute.
Defined.

(** After the final state has been entered the machine has finished; the one
    that is restored from it reports a stable configuration, then idles. *)
Lemma finished_forgotten_witness :
  fst (one_step (after 5)) = inr USCXML_FINISHED /\
  _flags (fst (restore (fst (after 5)))) = USCXML_CTX_INITIALIZED /\
  answers 3 (restore (fst (after 5))) = [Some USCXML_MACROSTEPPED; Some USCXML_IDLE; Some USCXML_IDLE].
Proof.
  split; [by vm_compute|]. split; [|by vm_compute].
  assert (Hd : FastMicroStep.deserialize (B := Bits) no_throw invoking_chart
    (FastMicroStep.serialize (B := Bits) invoking_chart (fst (after 5))) (pristine, world_of []) =
    (inr tt, (fst (restore (fst (after 5))), snd (restore (fst (after 5)))))) by (by vm_compute).
  refine (proj2 (FastMicroStep.finished_forgotten no_throw invoking_chart _ _ _ _ _ _ Hd)).
  - apply in_invoking_range. by vm_compute.
  - by vm_compute.
Defined.
