(* ===== verification/Interpreter.v ===== *)
(** * The interpreter: [InterpreterImpl] and the SCXML event processor

    [InterpreterImpl] owns the queues, the targets of delayed events, the
    invokers and the I/O processors, and implements the callbacks of the
    stepper and of the executor: the last section composes the three. Data
    models, invokers, other I/O processors and other sessions are plugins with
    a state of their own, behind the class [Plugins]. *)

From stdpp Require Import base list gmap strings.
From S2P Require Import Prelude Strings Dom Predicates Data Chart Effects MicroStep EventQueue Numbers Content.

Local Open Scope nat_scope.

Module InterpreterImpl.

(** An I/O processor: the SCXML processor, or a plugin. *)
Inductive IOProcessor := SCXMLIOProcessor | PluginIOProcessor (h : nat).

(** What [init] fixes for the life of the interpreter. *)
Record Config := mkConfig {
  _sessionId : string;
  _invokeId : string;
  _invokeReq : Event;
  _baseURL : string;
  _ioProcs : gmap string IOProcessor;
  _parentQueue : bool;
}.

(** The members that change. [_invokers] holds handles of plugins. [now],
    [fresh] and [wakeups] are the clock, the next address [event_new] will
    return, and what happens to a thread that waits for an external event. *)
Record Impl (node : Type) := mkImpl {
  _internalQueue : BasicEventQueue.queue;
  _externalQueue : BasicEventQueue.queue;
  _delayQueue : BasicDelayedEventQueue.state;
  _delayedEventTargets : gmap string (string * string * string);
  _currEvent : Event;
  _invokers : gmap string nat;
  _finalize : gmap string (option node);
  _autoForwarders : gset string;
  now : BasicDelayedEventQueue.timeval;
  fresh : nat;
  wakeups : list (list Event * bool);
}.
Arguments mkImpl {node}. Arguments _internalQueue {node}. Arguments _externalQueue {node}.
Arguments _delayQueue {node}. Arguments _delayedEventTargets {node}. Arguments _currEvent {node}.
Arguments _invokers {node}. Arguments _finalize {node}. Arguments _autoForwarders {node}.
Arguments now {node}. Arguments fresh {node}. Arguments wakeups {node}.

Section Setters.
Context {node : Type}.
Implicit Types (i : Impl node).

Definition set_internalQueue f i :=
  mkImpl (f (_internalQueue i)) (_externalQueue i) (_delayQueue i) (_delayedEventTargets i) (_currEvent i)
    (_invokers i) (_finalize i) (_autoForwarders i) (now i) (fresh i) (wakeups i).
Definition set_externalQueue f i :=
  mkImpl (_internalQueue i) (f (_externalQueue i)) (_delayQueue i) (_delayedEventTargets i) (_currEvent i)
    (_invokers i) (_finalize i) (_autoForwarders i) (now i) (fresh i) (wakeups i).
Definition set_delayQueue f i :=
  mkImpl (_internalQueue i) (_externalQueue i) (f (_delayQueue i)) (_delayedEventTargets i) (_currEvent i)
    (_invokers i) (_finalize i) (_autoForwarders i) (now i) (fresh i) (wakeups i).
Definition set_targets f i :=
  mkImpl (_internalQueue i) (_externalQueue i) (_delayQueue i) (f (_delayedEventTargets i)) (_currEvent i)
    (_invokers i) (_finalize i) (_autoForwarders i) (now i) (fresh i) (wakeups i).
Definition set_currEvent e i :=
  mkImpl (_internalQueue i) (_externalQueue i) (_delayQueue i) (_delayedEventTargets i) e
    (_invokers i) (_finalize i) (_autoForwarders i) (now i) (fresh i) (wakeups i).
Definition set_invokers f i :=
  mkImpl (_internalQueue i) (_externalQueue i) (_delayQueue i) (_delayedEventTargets i) (_currEvent i)
    (f (_invokers i)) (_finalize i) (_autoForwarders i) (now i) (fresh i) (wakeups i).
Definition set_finalize (f : gmap string (option node) -> gmap string (option node)) i : Impl node :=
  mkImpl (_internalQueue i) (_externalQueue i) (_delayQueue i) (_delayedEventTargets i) (_currEvent i)
    (_invokers i) (f (_finalize i)) (_autoForwarders i) (now i) (fresh i) (wakeups i).
Definition set_autoForwarders f i :=
  mkImpl (_internalQueue i) (_externalQueue i) (_delayQueue i) (_delayedEventTargets i) (_currEvent i)
    (_invokers i) (_finalize i) (f (_autoForwarders i)) (now i) (fresh i) (wakeups i).
Definition set_fresh h i :=
  mkImpl (_internalQueue i) (_externalQueue i) (_delayQueue i) (_delayedEventTargets i) (_currEvent i)
    (_invokers i) (_finalize i) (_autoForwarders i) (now i) h (wakeups i).
Definition set_wakeups l i :=
  mkImpl (_internalQueue i) (_externalQueue i) (_delayQueue i) (_delayedEventTargets i) (_currEvent i)
    (_invokers i) (_finalize i) (_autoForwarders i) (now i) (fresh i) l.
End Setters.

(** The plugins, with state [P]. The data model asks whether a state is active. *)
Class Plugins (node P : Type) := {
  evalAsBool : (string -> bool) -> string -> M Exn P bool;
  evalAsData : (string -> bool) -> string -> M Exn P Data;
  eval : (string -> bool) -> string -> M Exn P unit;
  getAsData : string -> M Exn P Data;
  assign : string -> Data -> list (string * string) -> M Exn P unit;
  init : string -> Data -> list (string * string) -> M Exn P unit;
  getLength : string -> M Exn P Z;
  setForeach : string -> string -> string -> Z -> M Exn P unit;
  setEvent : Event -> M Exn P unit;
  isValidExprSyntax : string -> M Exn P bool;
  createInvoker : string -> M Exn P nat;
  invoker_invoke : nat -> string -> Event -> M Exn P unit;
  invoker_uninvoke : nat -> M Exn P unit;
  invoker_eventFromSCXML : nat -> Event -> M Exn P unit;
  proc_isValidTarget : nat -> string -> M Exn P bool;
  proc_eventFromSCXML : nat -> string -> Event -> M Exn P unit;
  session_enqueueExternal : string -> Event -> M Exn P (option bool);
  parent_enqueue : Event -> M Exn P unit;
  log : string -> Data -> M Exn P unit;
  createExecutableContent : string -> string -> M Exn P nat;
  content_monitor : ContentMonitor node -> M Exn P unit;
  step_monitor : MonitorCall node -> M Exn P unit;
}.

Section Interpreter.
Context {node P : Type} {PL : Plugins node P} {CP : BasicContentExecutor.ContentPlatform node P}
  (cfg : Config) (FILE : string -> string).

Definition I (A : Type) : Type := M Exn (Impl node * P) A.

Definition plug {A} (m : M Exn P A) : I A := fun '(i, p) => let '(r, p') := m p in (r, (i, p')).
Definition self : I (Impl node) := fun s => (inr (fst s), s).
Definition update (f : Impl node -> Impl node) : I unit := modify (fun '(i, p) => (f i, p)).

Definition throw_execution {A} (cause file line : string) : I A :=
  uuid ← plug BasicContentExecutor.getUUID; throw (ErrorEvent (ERROR_EXECUTION uuid cause (FILE file) line)).
Definition throw_communication {A} (cause file line : string) : I A :=
  uuid ← plug BasicContentExecutor.getUUID; throw (ErrorEvent (ERROR_COMMUNICATION uuid cause (FILE file) line)).
Definition throw_platform {A} (cause file line : string) : I A :=
  uuid ← plug BasicContentExecutor.getUUID;
  throw (ErrorEvent (ERROR uuid "error.platform" cause (FILE file) line)).

(** ** Queues *)

Definition enqueueInternal (event : Event) : I unit := update (set_internalQueue (BasicEventQueue.enqueue event)).
Definition enqueueExternal (event : Event) : I unit := update (set_externalQueue (BasicEventQueue.enqueue event)).

Definition dequeueInternal : I Event :=
  i ← self;
  match BasicEventQueue.dequeue 0 false [] (_internalQueue i) with
  | Some (e, rest) =>
      update (fun i => set_currEvent e (set_internalQueue (fun _ => rest) i));;
      (if Event_bool e then plug (setEvent e) else mret tt);;
      mret e
  | None => throw Blocked
  end.

(** ** The SCXML event processor *)

Definition scxml_type : string := "http://www.w3.org/TR/scxml/#SCXMLEventProcessor".

Definition scxml_isValidTarget (target : string) : I bool :=
  let t := explode target in
  if (0 <? length t) && (negb (Ascii.eqb (char_at t 0) "#") || negb (Ascii.eqb (char_at t 1) "_"))
  then throw_execution ("Target '" +:+ target +:+ "' not supported in send") "SCXMLIOProcessor.cpp" "72"
  else mret true.

Definition enqueueAtInvoker (invokeId : string) (event : Event) : I unit :=
  i ← self;
  match _invokers i !! invokeId with
  | Some h =>
      r ← attempt (plug (invoker_eventFromSCXML h event));
      match r with
      | Some _ => mret tt
      | None => throw_communication ("Exception caught while sending event to invoker '" +:+ invokeId +:+ "'")
                  "InterpreterImpl.cpp" "615"
      end
  | None => throw_communication ("Can not send to invoked component '" +:+ invokeId +:+ "', no such invokeId")
              "InterpreterImpl.cpp" "618"
  end.

Definition enqueueAtParent (event : Event) : I unit :=
  if _parentQueue cfg then plug (parent_enqueue event)
  else throw_communication "Sending to parent invoker, but none is set" "InterpreterImpl.cpp" "627".

(** The session itself is registered; of another one the plugins know whether
    it exists ([None]) and is still alive. *)
Definition enqueueAtSession (sessionId : string) (event : Event) : I unit :=
  if String.eqb sessionId (_sessionId cfg) then enqueueExternal event
  else
    r ← plug (session_enqueueExternal sessionId event);
    match r with
    | Some true => mret tt
    | Some false => throw_communication ("Can not send to scxml session " +:+ sessionId +:+ " - not known")
                      "SCXMLIOProcessor.cpp" "133"
    | None => throw_communication "Invalid target scxml session for send" "SCXMLIOProcessor.cpp" "136"
    end.

Definition stamped (event : Event) : Event :=
  mkEvent (e_raw event) (e_name event) (e_eventType event) ("#_scxml_" +:+ _sessionId cfg) scxml_type
    (e_sendid event) (e_hideSendId event) (e_invokeid event) (e_data event) (e_namelist event)
    (e_params event) (e_uuid event).

Definition scxml_eventFromSCXML (target : string) (event : Event) : I unit :=
  let eventCopy := stamped event in
  let t := explode target in
  if length t =? 0 then enqueueExternal eventCopy
  else if iequals target "#_internal" then enqueueInternal eventCopy
  else if iequals target "#_parent" then enqueueAtParent eventCopy
  else if (8 <? length t) && iequals (implode (substr t 0 8)) "#_scxml_"
  then enqueueAtSession (implode (drop 8 t)) eventCopy
  else if (2 <? length t) && iequals (implode (substr t 0 2)) "#_"
  then enqueueAtInvoker (implode (drop 2 t)) eventCopy
  else throw_communication ("Not sure what to make of the target '" +:+ target +:+ "' - raising error")
         "SCXMLIOProcessor.cpp" "149".

Definition isValidTarget (proc : IOProcessor) (target : string) : I bool :=
  match proc with
  | SCXMLIOProcessor => scxml_isValidTarget target
  | PluginIOProcessor h => plug (proc_isValidTarget h target)
  end.

Definition eventFromSCXML (proc : IOProcessor) (target : string) (event : Event) : I unit :=
  match proc with
  | SCXMLIOProcessor => scxml_eventFromSCXML target event
  | PluginIOProcessor h => plug (proc_eventFromSCXML h target event)
  end.

(** ** Sending *)

Definition checkValidSendType (type target : string) : I unit :=
  match _ioProcs cfg !! type with
  | None => throw_execution ("Type '" +:+ type +:+ "' not supported for sending") "InterpreterImpl.cpp" "489"
  | Some proc =>
      ok ← isValidTarget proc target;
      if ok : bool then mret tt
      else throw_communication ("Target '" +:+ target +:+ "' not supported in send") "InterpreterImpl.cpp" "493"
  end.

(** An unknown UUID makes an empty entry, as [operator[]] does. *)
Definition eventReady (sendEvent : Event) (eventUUID : string) : I unit :=
  i ← self;
  let '(_, type, target) := default ("", "", "")%string (_delayedEventTargets i !! eventUUID) in
  let type := if String.eqb type "" then scxml_type else type in
  update (set_targets (delete eventUUID));;
  match _ioProcs cfg !! type with
  | Some proc => eventFromSCXML proc target sendEvent
  | None => throw_platform ("No IO processor " +:+ type +:+ " known") "InterpreterImpl.cpp" "572"
  end.

Definition delay_event (delayMs : Z) (sendEvent : Event) : Impl node -> Impl node := fun i =>
  set_fresh (S (fresh i)) (set_delayQueue
    (BasicDelayedEventQueue.enqueueDelayed (now i) (fresh i) sendEvent delayMs (e_uuid sendEvent)) i).

Definition enqueue (type target : string) (delayMs : Z) (sendEvent : Event) : I unit :=
  update (set_targets <[e_uuid sendEvent := (e_sendid sendEvent, type, target)]>);;
  if (delayMs =? 0)%Z then eventReady sendEvent (e_uuid sendEvent)
  else update (delay_event delayMs sendEvent).

Definition cancel_one (sendId : string) (i : Impl node) (uuid : string) : Impl node :=
  match _delayedEventTargets i !! uuid with
  | Some (sendid, _, _) =>
      if String.eqb sendid sendId
      then set_targets (delete uuid) (set_delayQueue (BasicDelayedEventQueue.cancelDelayed uuid) i)
      else i
  | None => i
  end.

Definition cancel_all (sendId : string) (i : Impl node) : Impl node :=
  foldl (cancel_one sendId) i (BasicDelayedEventQueue.sorted_keys (_delayedEventTargets i)).

Definition cancelDelayed (sendId : string) : I unit := update (cancel_all sendId).

(** The timer thread: what [timerCallback] does for a pending event, in its
    two critical sections with [eventReady] in between. *)
Definition timer_begin (uuid : string) : I unit :=
  update (set_delayQueue (BasicDelayedEventQueue.timer_begin uuid)).
Definition timer_end : I unit :=
  i ← self;
  match BasicDelayedEventQueue._timer (_delayQueue i) with
  | Some (uuid, event) => eventReady event uuid;; update (set_delayQueue BasicDelayedEventQueue.timer_end)
  | None => mret tt
  end.

(** ** Invokers *)

Definition invoke (type src : string) (autoForward : bool) (finalize : option node) (invokeEvent : Event) : I unit :=
  let tmp := if String.eqb src "" then ""%string
             else if BasicContentExecutor.isAbsolute src then src
             else BasicContentExecutor.resolve (_baseURL cfg) src in
  h ← plug (createInvoker type);
  update (set_finalize <[e_invokeid invokeEvent := finalize]>);;
  update (set_invokers <[e_invokeid invokeEvent := h]>);;
  plug (invoker_invoke h tmp invokeEvent);;
  if autoForward then update (set_autoForwarders (fun s => {[e_invokeid invokeEvent]} ∪ s)) else mret tt.

Definition uninvoke (invokeId : string) : I unit :=
  i ← self;
  match _invokers i !! invokeId with
  | Some h =>
      plug (invoker_uninvoke h);;
      update (set_autoForwarders (fun s => s ∖ {[invokeId]}));;
      update (set_finalize (delete invokeId));;
      update (set_invokers (delete invokeId))
  | None => mret tt
  end.

(** Errors in conditions are reported and count as false. *)
Definition isTrue (inState : string -> bool) (expr : string) : I bool :=
  catch_error (plug (evalAsBool inState expr)) (fun e => enqueueInternal e;; mret false).

End Interpreter.

(** ** The callbacks of the executor and its platform *)

Section Compose.
Context {node P : Type} `{Countable node} {D : DomOps node} {CD : BasicContentExecutor.ContentDom node}
  {PL : Plugins node P} {CP : BasicContentExecutor.ContentPlatform node P}
  (cfg : Config) (FILE : string -> string).

#[export] Instance content_platform : BasicContentExecutor.ContentPlatform node (Impl node * P) := {|
  BasicContentExecutor.getUUID := plug BasicContentExecutor.getUUID;
  BasicContentExecutor.isAbsolute := BasicContentExecutor.isAbsolute;
  BasicContentExecutor.resolve := BasicContentExecutor.resolve;
  BasicContentExecutor.getInContent u := plug (BasicContentExecutor.getInContent u);
  BasicContentExecutor.parseDocument u := plug (BasicContentExecutor.parseDocument u);
  BasicContentExecutor.adopt e n := plug (BasicContentExecutor.adopt e n);
  BasicContentExecutor.hasExecutableContent := BasicContentExecutor.hasExecutableContent;
  BasicContentExecutor.enterElement h b := plug (BasicContentExecutor.enterElement h b);
  BasicContentExecutor.processChildren h := plug (BasicContentExecutor.processChildren h);
  BasicContentExecutor.exitElement h b := plug (BasicContentExecutor.exitElement h b);
|}.

(** [inState] is [isInState] of the stepper at the time of the call. *)
Definition content_callbacks (inState : string -> bool)
    : BasicContentExecutor.ContentExecutorCallbacks node (Impl node * P) := {|
  BasicContentExecutor.enqueueInternal := enqueueInternal;
  BasicContentExecutor.cancelDelayed := cancelDelayed;
  BasicContentExecutor.isTrue := isTrue inState;
  BasicContentExecutor.getLength expr := plug (getLength expr);
  BasicContentExecutor.setForeach item array index k := plug (setForeach item array index k);
  BasicContentExecutor.evalAsData expr := plug (evalAsData inState expr);
  BasicContentExecutor.eval content := plug (eval inState content);
  BasicContentExecutor.getAsData expr := plug (getAsData expr);
  BasicContentExecutor.assign location data attrs := plug (assign location data attrs);
  BasicContentExecutor.isValidExprSyntax expr := plug (isValidExprSyntax expr);
  BasicContentExecutor.getInvokeId := mret (_invokeId cfg);
  BasicContentExecutor.getBaseURL := mret (_baseURL cfg);
  BasicContentExecutor.checkValidSendType := checkValidSendType cfg FILE;
  BasicContentExecutor.enqueue := enqueue cfg FILE;
  BasicContentExecutor.invoke_ := invoke cfg;
  BasicContentExecutor.uninvoke_ := uninvoke;
  BasicContentExecutor.getCurrentEvent := i ← self; mret (_currEvent i);
  BasicContentExecutor.getMonitors m := plug (content_monitor m);
  BasicContentExecutor.log label data := plug (log label data);
  BasicContentExecutor.createExecutableContent name ns := plug (createExecutableContent name ns);
|}.

(** The state below the stepper: the executor's and the interpreter's. *)
Definition World : Type := BasicContentExecutor.Executor node * (Impl node * P).

Definition low {A} (m : @I node P A) : M Exn World A := BasicContentExecutor.call m.

Definition process (inState : string -> bool) (block : node) : M Exn World unit :=
  BasicContentExecutor.process (CB := content_callbacks inState) (FILE "BasicContentExecutor.cpp") block.

(** The data element of an invoked session takes its value from the parameters
    or the name list of the invocation, or else from its content. *)
Definition initData (inState : string -> bool) (root : node) : M Exn World unit :=
  let id := ATTR root "id" in
  let additionalAttr := BasicContentExecutor.getAttributes root in
  catch_error
    (match getParam (e_params (_invokeReq cfg)) id with
     | Some d => low (plug (init id d additionalAttr))
     | None =>
         match str_find id (e_namelist (_invokeReq cfg)) with
         | Some d => low (plug (init id d additionalAttr))
         | None =>
             d ← BasicContentExecutor.elementAsData (CB := content_callbacks inState) root;
             low (plug (init id d additionalAttr))
         end
     end)
    (fun e => low (enqueueInternal (annotate "xpath" (Data_atom (xPathForNode root "") VERBATIM) e))).

Definition forward_one (event : Event) (invokeId : string) : @I node P unit :=
  i ← self;
  match _invokers i !! invokeId with
  | Some h => if bool_decide (invokeId ∈ _autoForwarders i) then plug (invoker_eventFromSCXML h event) else mret tt
  | None => mret tt
  end.

(** What is done with an external event before transitions are selected:
    finalize, then forwarding, in the order of the invoke ids. *)
Definition run_finalize (inState : string -> bool) (event : Event) : M Exn World unit :=
  i ← low self;
  if String.eqb (e_invokeid event) "" then mret tt
  else match _finalize i !! e_invokeid event with
       | Some (Some finalize) => process inState finalize
       | _ => mret tt
       end.

Definition forward (event : Event) : @I node P unit :=
  i ← self; forM_ (BasicDelayedEventQueue.sorted_keys (_invokers i)) (forward_one event).

Definition receive (inState : string -> bool) (event : Event) : M Exn World unit :=
  low (plug (setEvent event));; run_finalize inState event;; low (forward event).

Definition dequeueExternal (inState : string -> bool) (blockMs : Z) : M Exn World Event :=
  i ← low self;
  match BasicEventQueue.dequeue blockMs false (wakeups i) (_externalQueue i) with
  | None => throw Blocked
  | Some (e, rest) =>
      low (update (fun i => set_wakeups [] (set_currEvent e (set_externalQueue (fun _ => rest) i))));;
      (if Event_bool e then receive inState e else mret tt);;
      mret e
  end.

(** ** The callbacks of the stepper *)

(** [cancelled] tells whether another thread cancels the session during the step. *)
Definition microstep_callbacks (c : Chart node) (cancelled : bool) : MicroStepCallbacks node World Exn := {|
  MicroStep.dequeueInternal _ := low dequeueInternal;
  MicroStep.dequeueExternal blockMs ms := e ← dequeueExternal (isInState c ms) blockMs; mret (e, cancelled);
  MicroStep.isMatched event eventDesc := nameMatch eventDesc (e_name event);
  MicroStep.raiseDoneEvent state doneData ms :=
    BasicContentExecutor.raiseDoneEvent (CB := content_callbacks (isInState c ms))
      (FILE "BasicContentExecutor.cpp") state doneData;
  MicroStep.isTrue cond ms := low (isTrue (isInState c ms) cond);
  MicroStep.initData data ms := initData (isInState c ms) data;
  MicroStep.process block ms := process (isInState c ms) block;
  MicroStep.invoke inv ms := BasicContentExecutor.invoke (CB := content_callbacks (isInState c ms)) inv;
  MicroStep.uninvoke inv ms := BasicContentExecutor.uninvoke (CB := content_callbacks (isInState c ms)) inv;
  MicroStep.monitor m _ := low (plug (step_monitor m));
|}.

(** ** The interpreter *)

(** The machine is compiled by the first step ([init]) and kept. *)
Record Session := mkSession {
  _isInitialized : bool;
  _state : InterpreterState;
  _microStepper : MicroState;
  world : World;
}.

Definition step (c : Chart node) (cancelled : bool) (blockMs : Z) (s : Session) : (Exn + InterpreterState) * Session :=
  if _isInitialized s then
    match MicroStep.step (CB := microstep_callbacks c cancelled) c blockMs (_microStepper s, world s) with
    | (inr r, (ms, w)) => (inr r, mkSession true r ms w)
    | (inl x, (ms, w)) => (inl x, mkSession true (_state s) ms w)
    end
  else (inr USCXML_INITIALIZED, mkSession true USCXML_INITIALIZED (_microStepper s) (world s)).

(** The queues of events are not touched. *)
Definition reset (s : Session) : Session :=
  let '(ex, (i, p)) := world s in
  mkSession false USCXML_INSTANTIATED (MicroStep.reset (_microStepper s))
    (ex, (set_delayQueue BasicDelayedEventQueue.reset i, p)).

Definition cancel (unblock : Event) (s : Session) : Session :=
  let '(ex, (i, p)) := world s in
  mkSession (_isInitialized s) (_state s) (markAsCancelled (_microStepper s))
    (ex, (set_externalQueue (BasicEventQueue.enqueue unblock) i, p)).

End Compose.

End InterpreterImpl.
