(* ===== verification/Lifting.v ===== *)
(** * Invariants of the surroundings

    The stepper and the executor touch the rest of the interpreter only through
    their callbacks, so an invariant of the rest that every callback keeps,
    whether it returns or throws, is kept by every operation of the two. *)

From stdpp Require Import base list gmap strings.
From S2P Require Import Prelude Strings Dom Predicates Data Chart Effects MicroStep EventQueue Numbers Content.

Local Open Scope nat_scope.

(** ** Computations that keep an invariant *)

Section Stable.
Context {X St : Type} (J : St -> Prop).

Definition stable {A} (m : M X St A) : Prop := triple J m (fun _ => J) (fun _ => J).

Lemma stable_ret {A} (a : A) : stable (mret a).
Proof. by apply triple_ret. Qed.
Lemma stable_throw {A} x : stable (throw (A := A) x).
Proof. by intros s. Qed.
Lemma stable_bind {A B} (m : M X St A) (f : A -> M X St B) :
  stable m -> (forall a, stable (f a)) -> stable (m ≫= f).
Proof. intros Hm Hf. eapply triple_bind; [exact Hm|]. intros a. apply Hf. Qed.
Lemma stable_forM {A} (l : list A) f : (forall x, x ∈ l -> stable (f x)) -> stable (forM_ l f).
Proof. apply triple_forM. Qed.
Lemma stable_foldM {A B} (l : list A) (f : A -> B -> M X St B) : (forall x b, stable (f x b)) ->
  forall b, stable (foldM f l b).
Proof.
  intros Hf. induction l as [|x l IH]; intros b; [apply stable_ret|]. cbn. by apply stable_bind.
Qed.
Lemma stable_try (m : M X St unit) : stable m -> stable (try_ m).
Proof. intros Hm s Hs. specialize (Hm s Hs). unfold try_. by destruct (m s) as [[x|a] s']. Qed.
Lemma stable_modify f : (forall s, J s -> J (f s)) -> stable (modify f).
Proof. intros Hf s. apply Hf. Qed.

End Stable.

Section StableCatch.
Context {St : Type} (J : St -> Prop).

Lemma stable_catch_error {A} (m : M Exn St A) h :
  stable J m -> (forall e, stable J (h e)) -> stable J (catch_error m h).
Proof.
  intros Hm Hh s Hs. specialize (Hm s Hs). unfold catch_error.
  destruct (m s) as [[[]|a] s']; try done. by apply Hh.
Qed.
Lemma stable_catch_event {A} (m : M Exn St A) h :
  stable J m -> (forall e, stable J (h e)) -> stable J (catch_event m h).
Proof.
  intros Hm Hh s Hs. specialize (Hm s Hs). unfold catch_event.
  destruct (m s) as [[[]|a] s']; try done; by apply Hh.
Qed.
Lemma stable_catch_error_event {A} (m : M Exn St A) h h' :
  stable J m -> (forall e, stable J (h e)) -> (forall e, stable J (h' e)) -> stable J (catch_error_event m h h').
Proof.
  intros Hm Hh Hh' s Hs. specialize (Hm s Hs). unfold catch_error_event.
  destruct (m s) as [[[]|a] s']; try done; [by apply Hh|by apply Hh'].
Qed.
Lemma stable_attempt {A} (m : M Exn St A) : stable J m -> stable J (attempt m).
Proof. intros Hm s Hs. specialize (Hm s Hs). unfold attempt. by destruct (m s) as [[[]|a] s']. Qed.

End StableCatch.

(** ** The executor *)

Module Content.
Import BasicContentExecutor.

Record callbacks_stable {node W} (J : W -> Prop) (CB : ContentExecutorCallbacks node W)
    (CP : ContentPlatform node W) : Prop := {
  cs_enqueueInternal e : stable J (enqueueInternal e);
  cs_cancelDelayed i : stable J (cancelDelayed i);
  cs_isTrue e : stable J (isTrue e);
  cs_getLength e : stable J (getLength e);
  cs_setForeach i a x n : stable J (setForeach i a x n);
  cs_evalAsData e : stable J (evalAsData e);
  cs_eval e : stable J (eval e);
  cs_getAsData e : stable J (getAsData e);
  cs_assign l d a : stable J (assign l d a);
  cs_isValidExprSyntax e : stable J (isValidExprSyntax e);
  cs_getInvokeId : stable J getInvokeId;
  cs_getBaseURL : stable J getBaseURL;
  cs_checkValidSendType t g : stable J (checkValidSendType t g);
  cs_enqueue t g d e : stable J (enqueue t g d e);
  cs_invoke t s a f e : stable J (invoke_ t s a f e);
  cs_uninvoke i : stable J (uninvoke_ i);
  cs_getCurrentEvent : stable J getCurrentEvent;
  cs_getMonitors m : stable J (getMonitors m);
  cs_log l d : stable J (log l d);
  cs_createExecutableContent l n : stable J (createExecutableContent l n);
  cs_getUUID : stable J getUUID;
  cs_getInContent u : stable J (getInContent u);
  cs_parseDocument u : stable J (parseDocument u);
  cs_adopt e n : stable J (adopt e n);
  cs_enterElement h b : stable J (enterElement h b);
  cs_processChildren h : stable J (processChildren h);
  cs_exitElement h b : stable J (exitElement h b);
}.

Section ExecutorStable.
Context {node W : Type} `{Countable node} {D : DomOps node} {CD : ContentDom node}
  {CB : ContentExecutorCallbacks node W} {CP : ContentPlatform node W} (FILE : string).
Context (J : W -> Prop) (HJ : callbacks_stable J CB CP).

Abbreviation steady := (stable (fun s : Executor node * W => J (snd s))).
Abbreviation steady_local := (stable (fun s : Event * (Executor node * W) => J (snd (snd s)))).

Lemma stable_call {A} (m : M Exn W A) : stable J m -> steady (call m).
Proof. intros Hm [ex w] Hw. specialize (Hm w Hw). unfold call. by destruct (m w) as [[x|a] w']. Qed.
Lemma stable_lift {A} (m : @Content node W _ _ A) : steady m -> steady_local (lift m).
Proof. intros Hm [e s] Hs. specialize (Hm s Hs). unfold lift. by destruct (m s) as [[x|a] s']. Qed.
Lemma stable_with_local {A} e (m : @Local_ node W _ _ A) : steady_local m -> steady (with_local e m).
Proof.
  intros Hm s Hs. specialize (Hm (e, s) Hs). unfold with_local. by destruct (m (e, s)) as [[x|a] [e' s']].
Qed.
Lemma stable_edit f : steady_local (edit f).
Proof. apply stable_modify. by intros [e s]. Qed.
Lemma stable_update f : steady (update f).
Proof. apply stable_modify. by intros [ex w]. Qed.

Ltac stable_exec := repeat first
  [ apply stable_ret | apply stable_throw | apply stable_edit | apply stable_update
  | by (intros s Hs; exact Hs)
  | apply stable_call; apply HJ
  | apply stable_lift | apply stable_with_local | apply stable_attempt
  | apply stable_catch_error; [|intros ?]
  | apply stable_forM; intros ? ?
  | apply stable_bind; [|intros ?]
  | match goal with |- stable _ (match ?d with _ => _ end) => destruct d end ].

Lemma stable_elementAsData element : steady (elementAsData element).
Proof. unfold elementAsData, remote_data, local_data. stable_exec. Qed.

Lemma stable_elementAsEvaluatedData element : steady (elementAsEvaluatedData element).
Proof. unfold elementAsEvaluatedData. apply stable_bind; [apply stable_elementAsData|]. intros d. stable_exec. Qed.

Lemma stable_processNameLists element : steady_local (processNameLists element).
Proof. unfold processNameLists. stable_exec. Qed.
Lemma stable_processParams element : steady_local (processParams element).
Proof.
  apply stable_forM. intros p _. apply stable_bind; [apply stable_lift|intros d; apply stable_edit].
  unfold param_data. destruct (HAS_ATTR _ _); [stable_exec|]. destruct (HAS_ATTR _ _); [stable_exec|].
  apply stable_elementAsEvaluatedData.
Qed.
Lemma stable_processContent element : steady_local (processContent element).
Proof.
  unfold processContent. destruct (children_named _ _); [stable_exec|].
  apply stable_bind; [apply stable_lift, stable_elementAsEvaluatedData|intros d; apply stable_edit].
Qed.
Lemma stable_rethrow {A} c n (m : @Local_ node W _ _ A) : steady_local m -> steady_local (rethrow c n m).
Proof. intros Hm. apply stable_catch_error; [done|]. intros e. apply stable_throw. Qed.

Lemma stable_attr_or_expr e a d element : steady (attr_or_expr e a d element).
Proof. unfold attr_or_expr. stable_exec. Qed.
Lemma stable_generated_id element : steady (generated_id element).
Proof. unfold generated_id. stable_exec. Qed.
Lemma stable_new_event : steady new_event.
Proof. unfold new_event. stable_exec. Qed.

Lemma stable_send_id element : steady_local (send_id element).
Proof.
  unfold send_id. destruct (HAS_ATTR _ _); [stable_exec|].
  apply stable_bind; [apply stable_lift, stable_generated_id|]. intros i. stable_exec.
Qed.

Lemma stable_invoke_id element : steady_local (invoke_id element).
Proof.
  apply stable_bind.
  - destruct (HAS_ATTR _ _); [apply stable_edit|].
    apply stable_bind; [apply stable_lift, stable_generated_id|]. intros i. stable_exec.
  - intros _. apply stable_bind; [by intros s Hs|]. intros e'. apply stable_lift, stable_update.
Qed.

Ltac stable_event := repeat first
  [ apply stable_processNameLists | apply stable_processParams | apply stable_processContent
  | apply stable_send_id | apply stable_invoke_id | apply stable_lift, stable_attr_or_expr
  | apply stable_rethrow | apply stable_edit
  | by (intros s Hs; exact Hs)
  | apply stable_lift, stable_call; apply HJ
  | apply stable_catch_error; [|intros ?; apply stable_throw]
  | apply stable_bind; [|intros ?] ].

Lemma stable_processSend element : steady (processSend element).
Proof.
  apply stable_bind; [apply stable_new_event|]. intros e. apply stable_with_local. unfold send_event.
  stable_event; [destruct (String.eqb _ _); [apply stable_ret|apply stable_edit]|].
  apply stable_lift. unfold send_delay. apply stable_bind; [apply stable_attr_or_expr|].
  intros d. destruct (delay_ms d); [apply stable_ret|apply stable_throw].
Qed.

Lemma stable_processIf_loop p prefix children : (forall c, steady (p c)) ->
  forall b, steady (processIf_loop p prefix children b).
Proof.
  intros Hp. induction children as [|c rest IH]; intros b; [apply stable_ret|]. cbn.
  destruct (iequals _ _).
  { destruct b; [apply stable_ret|]. apply stable_bind; [apply stable_call, HJ|]. intros b. apply IH. }
  destruct (iequals _ _); [destruct b; [apply stable_ret|apply IH]|].
  apply stable_bind; [destruct b; [apply Hp|apply stable_ret]|]. intros _. apply IH.
Qed.

Lemma stable_process_body p block : (forall c, steady (p c)) -> steady (process_body FILE p block).
Proof.
  intros Hp. unfold process_body. destruct (is_block block).
  { apply stable_catch_event; [by apply stable_forM|]. intros e. apply stable_throw. }
  destruct (iequals _ _).
  { unfold processFinalize, finalize_names. destruct (childElements block); [stable_exec|by apply stable_forM]. }
  apply stable_bind; [|intros _; apply stable_call, HJ].
  apply stable_catch_error; [|intros e; stable_exec].
  apply stable_bind; [apply stable_call, HJ|]. intros _. unfold dispatch.
  destruct (iequals _ _); [unfold processRaise; stable_exec|].
  destruct (iequals _ _); [apply stable_processSend|].
  destruct (iequals _ _); [unfold processCancel, throw_execution2; stable_exec|].
  destruct (iequals _ _).
  { apply stable_bind; [apply stable_call, HJ|]. intros b. by apply stable_processIf_loop. }
  destruct (iequals _ _).
  { apply stable_bind; [apply stable_elementAsData|]. intros d. apply stable_call, HJ. }
  destruct (iequals _ _).
  { apply stable_bind; [apply stable_call, HJ|]. intros n. apply stable_forM. intros i _.
    apply stable_bind; [apply stable_call, HJ|]. intros _. by apply stable_forM. }
  destruct (iequals _ _); [unfold processLog; stable_exec|].
  destruct (iequals _ _); [unfold processScript; stable_exec|].
  destruct (hasExecutableContent _ _); [|apply stable_ret]. unfold processCustom. stable_exec; apply Hp.
Qed.

Lemma stable_process block : steady (process FILE block).
Proof.
  unfold process. generalize (S (nodeSize block)) as k. intros k. revert block.
  induction k as [|k IH]; intros block; [apply stable_ret|]. by apply stable_process_body.
Qed.

Lemma stable_invoke element : steady (invoke element).
Proof.
  apply stable_bind; [apply stable_new_event|]. intros e. apply stable_with_local. unfold invoke_event.
  stable_event.
Qed.

Lemma stable_uninvoke element : steady (uninvoke element).
Proof. unfold uninvoke. stable_exec. Qed.

Lemma stable_raiseDoneEvent state doneData : steady (raiseDoneEvent FILE state doneData).
Proof.
  apply stable_bind; [apply stable_new_event|]. intros e. apply stable_with_local. unfold done_event.
  apply stable_bind; [apply stable_edit|]. intros _. apply stable_bind.
  - destruct doneData as [dd|]; [|apply stable_ret]. apply stable_catch_error_event.
    + stable_event. unfold done_content. destruct (children_named _ _); [apply stable_ret|].
      apply stable_bind; [destruct (HAS_ATTR _ _); stable_exec|]. intros b. destruct b.
      * apply stable_bind; [apply stable_lift, stable_elementAsEvaluatedData|intros d; apply stable_edit].
      * unfold throw_execution2. stable_exec.
    + intros exc. stable_exec.
    + intros exc. apply stable_throw.
  - intros _. stable_exec.
Qed.

End ExecutorStable.
End Content.

(** ** The stepper *)

Section StepStable.
Context {node W X : Type} {CB : MicroStepCallbacks node W X} (c : Chart node) (J : W -> Prop).

Record step_callbacks_stable : Prop := {
  ss_dequeueInternal ms : stable J (dequeueInternal ms);
  ss_dequeueExternal b ms : stable J (dequeueExternal b ms);
  ss_raiseDoneEvent s d ms : stable J (raiseDoneEvent s d ms);
  ss_isTrue e ms : stable J (isTrue e ms);
  ss_initData d ms : stable J (initData d ms);
  ss_process b ms : stable J (process b ms);
  ss_invoke i ms : stable J (invoke i ms);
  ss_uninvoke i ms : stable J (uninvoke i ms);
  ss_monitor m ms : stable J (monitor m ms);
}.
Context (HJ : step_callbacks_stable).

Abbreviation firm := (stable (X := X) (fun st : MicroState * W => J (snd st))).

Lemma firm_call {A} (f : MicroState -> M X W A) : (forall ms, stable J (f ms)) -> firm (call f).
Proof. intros Hf [ms w] Hw. specialize (Hf ms w Hw). unfold call. by destruct (f ms w) as [[x|a] w']. Qed.
Lemma firm_update f : firm (update f).
Proof. apply stable_modify. by intros [ms w]. Qed.

Ltac firm := repeat first
  [ apply stable_ret | apply firm_update
  | by (intros st Hst; exact Hst)
  | apply firm_call; intros ?; apply HJ
  | apply stable_try
  | apply stable_forM; intros ? ?
  | apply stable_bind; [|intros ?]
  | match goal with |- stable _ (match ?d with _ => _ end) => destruct d end ].

Lemma firm_take_transition t : firm (take_transition t).
Proof. unfold take_transition. firm. Qed.

Lemma firm_raise_parallel_done fuel : forall i, firm (raise_parallel_done c fuel i).
Proof.
  induction fuel as [|fuel IH]; intros i; [apply stable_ret|]. cbn [raise_parallel_done].
  destruct (0 <? _); [|apply stable_ret]. destruct (is_parallel c _); [|apply stable_ret].
  apply stable_bind; [by intros st|]. intros ms. apply stable_bind; [firm|]. intros _. apply IH.
Qed.

Lemma firm_enter_state trans i : firm (enter_state c trans i).
Proof.
  unfold enter_state, with_element, init_state_data, take_pseudo_transitions, with_transition, enter_final.
  apply stable_bind; [by intros st|]. intros ms. destruct (bool_decide _); [apply stable_ret|].
  destruct (is_pseudo_type _); [apply stable_ret|].
  repeat (apply stable_bind; [firm; apply firm_take_transition|intros _]).
  destruct (is_final c i); [|apply stable_ret]. destruct (_ && _); [apply firm_update|].
  apply stable_bind; [firm|]. intros _. apply firm_raise_parallel_done.
Qed.

Lemma firm_microstep exits targets trans : firm (microstep c exits targets trans).
Proof.
  unfold microstep. apply stable_bind; [by intros st|]. intros ms.
  destruct (establish_entryset _ _ _ _ _ _) as [entry trans'].
  unfold exit_states, exit_state, with_element, run_exit_handlers, take_transitions, with_transition,
    note_configuration, when.
  apply stable_bind; [firm|]. intros _. apply stable_bind; [firm; apply firm_take_transition|]. intros _.
  apply stable_bind; [apply stable_forM; intros i _; apply firm_enter_state|]. intros _. firm.
Qed.

Lemma firm_select_transitions : firm (select_transitions c).
Proof.
  unfold select_transitions. apply stable_bind; [apply firm_update|]. intros _. apply stable_foldM.
  intros i sets. unfold select_one, guard_holds. firm.
Qed.

Lemma firm_select_and_step : firm (select_and_step c).
Proof.
  unfold select_and_step. apply stable_bind; [apply firm_select_transitions|]. intros sets.
  apply stable_bind; [by intros st|]. intros ms. destruct (has_flag _ _).
  - do 3 (apply stable_bind; [firm|intros _]). apply firm_microstep.
  - firm.
Qed.

Lemma firm_process_event e : firm (process_event c e).
Proof. apply stable_bind; [firm|]. intros _. apply firm_select_and_step. Qed.

(** A step keeps what the callbacks keep, also when it throws. *)
Lemma step_stable_world blockMs : firm (step c blockMs).
Proof.
  unfold step. apply stable_bind; [by intros st|]. intros ms.
  destruct (has_flag _ _); [apply stable_ret|]. destruct (has_flag _ _).
  { unfold finalize, finalize_state, run_exit_handlers, uninvoke_all. firm. }
  destruct (_ =? _)%Z.
  { apply stable_bind; [firm|]. intros _. apply stable_bind; [firm|]. intros _. apply firm_microstep. }
  destruct (has_flag _ _).
  { apply stable_bind; [firm|]. intros _. apply firm_select_and_step. }
  apply stable_bind; [firm|]. intros e. apply stable_bind; [firm|]. intros _.
  destruct (Event_bool e); [apply firm_process_event|].
  apply stable_bind.
  { unfold manage_invocations, manage_invocation, uninvoke_all, invoke_all. firm. }
  intros _. apply stable_bind; [by intros st|]. intros ms'. destruct (negb _); [firm|].
  apply stable_bind; [firm|]. intros e'. apply stable_bind; [firm|]. intros _.
  destruct (Event_bool _); [apply firm_process_event|]. firm.
Qed.

End StepStable.
