(* ===== verification/InterpreterTheorems.v ===== *)
(** * Theorems about the interpreter

    The delayed events of a session refine a map of pending sends; what the
    interpreter promises to the executor; the invariants of the stepper hold in
    every session. *)

From stdpp Require Import base list gmap strings.
From S2P Require Import Prelude Strings Dom Predicates Data Chart Effects MicroStep Recorder Legal Complete EventQueue Numbers Content ContentTheorems Interpreter Lifting.
Import InterpreterImpl.

Local Open Scope nat_scope.

(** ** Pending sends

    The specification of delayed sends is a map from the UUID of an event to
    what was asked for. The implementation keeps it in two maps, one in the
    interpreter and one in the delay queue. *)

Definition Send : Type := (string * string * string) * Event.
Definition sendid_of (s : Send) : string := (fst s).1.1.

Inductive Op :=
| OpSend (type target : string) (delayMs : Z) (sendEvent : Event)
| OpCancel (sendId : string)
| OpFire (uuid : string).

Definition spec_op (op : Op) (pending : gmap string Send) : gmap string Send :=
  match op with
  | OpSend type target _ e => <[e_uuid e := ((e_sendid e, type, target), e)]> pending
  | OpCancel sendId => filter (fun '(_, s) => sendid_of s <> sendId) pending
  | OpFire uuid => delete uuid pending
  end.

Section Pending.
Context {node P : Type} {PL : Plugins node P} {CP : BasicContentExecutor.ContentPlatform node P}
  (cfg : Config) (FILE : string -> string).
Implicit Types (i : Impl node).

Definition pending i : gmap string Send :=
  map_zip_with (fun t cb => (t, BasicDelayedEventQueue.userData cb)) (_delayedEventTargets i)
    (BasicDelayedEventQueue._callbackData (_delayQueue i)).

Record consistent i : Prop := {
  con_dom : dom (_delayedEventTargets i) = dom (BasicDelayedEventQueue._callbackData (_delayQueue i));
  con_idle : BasicDelayedEventQueue._timer (_delayQueue i) = None;
}.

Definition run_op (op : Op) : @I node P unit :=
  match op with
  | OpSend type target delayMs e => enqueue cfg FILE type target delayMs e
  | OpCancel sendId => cancelDelayed sendId
  | OpFire uuid => timer_begin uuid;; timer_end cfg FILE
  end.

(** A send with a delay; a timer that was set. *)
Definition enabled (op : Op) i : Prop :=
  match op with
  | OpSend _ _ delayMs _ => delayMs <> 0%Z
  | OpCancel _ => True
  | OpFire uuid => is_Some (pending i !! uuid)
  end.

Lemma lookup_pending i u : pending i !! u =
  match _delayedEventTargets i !! u, BasicDelayedEventQueue._callbackData (_delayQueue i) !! u with
  | Some t, Some cb => Some (t, BasicDelayedEventQueue.userData cb)
  | _, _ => None
  end.
Proof. unfold pending. rewrite map_lookup_zip_with. by destruct (_ !! u), (_ !! u). Qed.

Lemma consistent_lookup i u : consistent i ->
  is_Some (_delayedEventTargets i !! u) <->
  is_Some (BasicDelayedEventQueue._callbackData (_delayQueue i) !! u).
Proof. intros [Hd _]. by rewrite <- !elem_of_dom, Hd. Qed.

(** *** Cancelling *)

(** Removing an entry from both maps. *)
Lemma pending_remove i u (q' : BasicDelayedEventQueue.state) :
  (forall v, BasicDelayedEventQueue._callbackData q' !! v =
     if decide (u = v) then None else BasicDelayedEventQueue._callbackData (_delayQueue i) !! v) ->
  BasicDelayedEventQueue._timer q' = None -> consistent i ->
  let i' := set_targets (delete u) (set_delayQueue (fun _ => q') i) in
  consistent i' /\ pending i' = delete u (pending i).
Proof.
  intros Hq Ht [Hd _]. split.
  - split; [|done]. apply set_eq. intros v. cbn. rewrite !elem_of_dom, Hq, lookup_delete.
    destruct (decide (u = v)); [done|]. by rewrite <- !elem_of_dom, Hd.
  - apply map_eq. intros v. rewrite lookup_delete, !lookup_pending. cbn. rewrite Hq, lookup_delete.
    by destruct (decide (u = v)).
Qed.

Definition drop_one (sendId : string) (m : gmap string Send) (u : string) : gmap string Send :=
  match m !! u with
  | Some s => if String.eqb (sendid_of s) sendId then delete u m else m
  | None => m
  end.

Lemma drop_all_lookup sendId us m v :
  foldl (drop_one sendId) m us !! v =
    match m !! v with
    | Some s => if bool_decide (v ∈ us) && String.eqb (sendid_of s) sendId then None else Some s
    | None => None
    end.
Proof.
  revert m. induction us as [|u us IH]; intros m; cbn; [by destruct (m !! v)|].
  rewrite IH. assert (Hu : drop_one sendId m u !! v =
    match m !! v with
    | Some s => if bool_decide (v = u) && String.eqb (sendid_of s) sendId then None else Some s
    | None => None
    end).
  { unfold drop_one. destruct (decide (v = u)) as [->|Hne].
    - rewrite bool_decide_true by done. destruct (m !! u) as [s|] eqn:Hm; [|by rewrite Hm].
      destruct (String.eqb _ _); [by rewrite lookup_delete_eq|by rewrite Hm].
    - rewrite bool_decide_false by done. destruct (m !! u) as [s|]; [|by destruct (m !! v)].
      destruct (String.eqb _ _); [rewrite lookup_delete_ne by done|]; by destruct (m !! v). }
  rewrite Hu. destruct (m !! v) as [s|]; [|done].
  destruct (bool_decide (v = u)) eqn:E1, (String.eqb (sendid_of s) sendId) eqn:E2; cbn; rewrite ?E2;
    repeat case_bool_decide; set_solver.
Qed.

Lemma cancel_one_spec sendId i u : consistent i ->
  consistent (cancel_one sendId i u) /\ pending (cancel_one sendId i u) = drop_one sendId (pending i) u.
Proof.
  intros HC. unfold cancel_one, drop_one. rewrite lookup_pending.
  destruct (_delayedEventTargets i !! u) as [[[sid type] target]|] eqn:Ht; [|done].
  destruct (proj1 (consistent_lookup i u HC)) as [cb Hcb]; [by rewrite Ht|]. rewrite Hcb. cbn.
  destruct (String.eqb sid sendId); [|done].
  apply (pending_remove i u (BasicDelayedEventQueue.cancelDelayed u (_delayQueue i))); [| |done].
  - intros v. apply BasicDelayedEventQueue.cancel_lookup.
  - unfold BasicDelayedEventQueue.cancelDelayed. rewrite Hcb. apply HC.
Qed.

Lemma sorted_keys_elem {V} (m : gmap string V) u :
  u ∈ BasicDelayedEventQueue.sorted_keys m <-> is_Some (m !! u).
Proof.
  unfold BasicDelayedEventQueue.sorted_keys. rewrite merge_sort_Permutation.
  rewrite list_elem_of_fmap. split.
  - intros [[k v] [-> Hk]]. apply elem_of_map_to_list in Hk. by eexists.
  - intros [v Hv]. exists (u, v). split; [done|]. by apply elem_of_map_to_list.
Qed.

Lemma cancel_all_spec sendId i : consistent i ->
  consistent (cancel_all sendId i) /\ pending (cancel_all sendId i) = spec_op (OpCancel sendId) (pending i).
Proof.
  intros HC. unfold cancel_all.
  assert (Hg : forall us j, consistent j -> consistent (foldl (cancel_one sendId) j us) /\
    pending (foldl (cancel_one sendId) j us) = foldl (drop_one sendId) (pending j) us).
  { induction us as [|u us IH]; intros j Hj; [done|]. cbn.
    destruct (cancel_one_spec sendId j u Hj) as [Hj' <-]. by apply IH. }
  destruct (Hg (BasicDelayedEventQueue.sorted_keys (_delayedEventTargets i)) i HC) as [HC' ->].
  split; [done|]. apply map_eq. intros v. rewrite drop_all_lookup. cbn. rewrite map_lookup_filter.
  destruct (pending i !! v) as [s|] eqn:Hv; [|done]. cbn.
  rewrite bool_decide_true; [|apply sorted_keys_elem; rewrite lookup_pending in Hv;
    destruct (_delayedEventTargets i !! v); [by eexists|done]].
  cbn. destruct (String.eqb_spec (sendid_of s) sendId) as [He|Hne].
  - by rewrite option_guard_False by (by intros ?).
  - by rewrite option_guard_True.
Qed.

(** *** Sending and firing *)

Lemma delay_event_spec i type target delayMs e : consistent i ->
  let i' := delay_event delayMs e (set_targets <[e_uuid e := (e_sendid e, type, target)]> i) in
  consistent i' /\ pending i' = spec_op (OpSend type target delayMs e) (pending i).
Proof.
  intros [Hd Hi]. cbn zeta. unfold delay_event, BasicDelayedEventQueue.enqueueDelayed.
  cbn [_delayQueue set_targets].
  set (q := match BasicDelayedEventQueue._callbackData (_delayQueue i) !! e_uuid e with
            | Some _ => BasicDelayedEventQueue.cancelDelayed (e_uuid e) (_delayQueue i)
            | None => _delayQueue i end).
  assert (Hq : forall v, v <> e_uuid e -> BasicDelayedEventQueue._callbackData q !! v =
    BasicDelayedEventQueue._callbackData (_delayQueue i) !! v).
  { intros v Hv. unfold q. destruct (_ !! e_uuid e); [|done].
    rewrite BasicDelayedEventQueue.cancel_lookup. by rewrite decide_False by congruence. }
  assert (Hqt : BasicDelayedEventQueue._timer q = None).
  { unfold q, BasicDelayedEventQueue.cancelDelayed. by destruct (_ !! e_uuid e). }
  split.
  - split; [|done]. apply set_eq. intros v. cbn. rewrite !elem_of_dom.
    destruct (decide (v = e_uuid e)) as [->|Hv].
    + by rewrite !lookup_insert_eq.
    + rewrite !lookup_insert_ne by done. rewrite Hq by done. by rewrite <- !elem_of_dom, Hd.
  - apply map_eq. intros v. rewrite lookup_pending. unfold spec_op. cbn - [pending].
    destruct (decide (v = e_uuid e)) as [->|Hv].
    + by rewrite !lookup_insert_eq.
    + rewrite !lookup_insert_ne by done. rewrite Hq by done. by rewrite lookup_pending.
Qed.

(** Handing over an event touches neither map. *)
Definition same_sends i i' : Prop :=
  _delayedEventTargets i' = _delayedEventTargets i /\ _delayQueue i' = _delayQueue i.

Definition sends_kept {A} (m : @I node P A) : Prop := forall i p, same_sends i (fst (snd (m (i, p)))).

Lemma kept_ret {A} (a : A) : sends_kept (mret a).
Proof. done. Qed.
Lemma kept_throw {A} x : sends_kept (throw (A := A) x).
Proof. done. Qed.
Lemma kept_plug {A} (m : M Exn P A) : sends_kept (plug m).
Proof. intros i p. unfold plug. by destruct (m p). Qed.
Lemma kept_self : sends_kept self.
Proof. done. Qed.
Lemma kept_update f : (forall i, same_sends i (f i)) -> sends_kept (update f).
Proof. intros Hf i p. apply Hf. Qed.
Lemma kept_bind {A B} (m : @I node P A) (f : A -> @I node P B) :
  sends_kept m -> (forall a, sends_kept (f a)) -> sends_kept (m ≫= f).
Proof.
  intros Hm Hf i p. specialize (Hm i p). unfold mbind, M_bind.
  destruct (m (i, p)) as [[x|a] [i' p']]; [done|]. specialize (Hf a i' p'). cbn in Hm.
  destruct Hm as [Ht Hq], Hf as [Ht' Hq']. split; congruence.
Qed.
Lemma kept_attempt {A} (m : @I node P A) : sends_kept m -> sends_kept (attempt m).
Proof. intros Hm i p. specialize (Hm i p). unfold attempt. by destruct (m (i, p)) as [[[]|a] s]. Qed.

Ltac kept := repeat first
  [ apply kept_ret | apply kept_throw | apply kept_plug | apply kept_self | by apply kept_update
  | apply kept_attempt | apply kept_bind; [|intros ?]
  | match goal with |- sends_kept (match ?d with _ => _ end) => destruct d end ].

Lemma kept_eventFromSCXML proc target e : sends_kept (eventFromSCXML cfg FILE proc target e).
Proof.
  unfold eventFromSCXML, scxml_eventFromSCXML, enqueueExternal, enqueueInternal, enqueueAtParent,
    enqueueAtSession, enqueueAtInvoker, throw_communication.
  destruct proc; kept.
Qed.

(** What is handed over when a timer fires, and to whom. *)
Definition deliver (s : Send) : @I node P unit :=
  let '((_, type, target), e) := s in
  let type := if String.eqb type "" then scxml_type else type in
  match _ioProcs cfg !! type with
  | Some proc => eventFromSCXML cfg FILE proc target e
  | None => throw_platform FILE ("No IO processor " +:+ type +:+ " known") "InterpreterImpl.cpp" "572"
  end.

Lemma kept_deliver s : sends_kept (deliver s).
Proof.
  destruct s as [[[sid type] target] e]. unfold deliver. destruct (_ !! _); [apply kept_eventFromSCXML|].
  unfold throw_platform. kept.
Qed.

(** The timer of a pending send: the target is forgotten, the event handed
    over, the timer forgotten; an exception of the hand-over leaves the callback. *)
Lemma fire_spec i p uuid s : consistent i -> pending i !! uuid = Some s ->
  exists i1, _internalQueue i1 = _internalQueue i /\ _externalQueue i1 = _externalQueue i /\
    _invokers i1 = _invokers i /\
    match deliver s (i1, p) with
    | (inr _, (i2, p2)) => exists i3, run_op (OpFire uuid) (i, p) = (inr tt, (i3, p2)) /\
        consistent i3 /\ pending i3 = delete uuid (pending i) /\
        _internalQueue i3 = _internalQueue i2 /\ _externalQueue i3 = _externalQueue i2
    | (inl x, (i2, p2)) => run_op (OpFire uuid) (i, p) = (inl x, (i2, p2)) /\
        pending i2 = delete uuid (pending i)
    end.
Proof.
  intros HC Hs. rewrite lookup_pending in Hs.
  destruct (_delayedEventTargets i !! uuid) as [[[sid type] target]|] eqn:Ht; [|done].
  destruct (BasicDelayedEventQueue._callbackData (_delayQueue i) !! uuid) as [cb|] eqn:Hcb; [|done].
  injection Hs as <-.
  set (q1 := BasicDelayedEventQueue.timer_begin uuid (_delayQueue i)).
  set (i1 := set_targets (delete uuid) (set_delayQueue (fun _ => q1) i)).
  assert (Hq1 : BasicDelayedEventQueue._callbackData q1 = BasicDelayedEventQueue._callbackData (_delayQueue i) /\
    BasicDelayedEventQueue._timer q1 = Some (uuid, BasicDelayedEventQueue.userData cb)).
  { unfold q1, BasicDelayedEventQueue.timer_begin. by rewrite Hcb. }
  exists i1. split_and!; [done..|].
  assert (Hrun : run_op (OpFire uuid) (i, p) =
    (deliver (sid, type, target, BasicDelayedEventQueue.userData cb);;
     update (set_delayQueue BasicDelayedEventQueue.timer_end)) (i1, p)).
  { cbn [run_op]. unfold timer_begin, timer_end, update, modify, self. unfold mbind at 1 2, M_bind at 1 2. cbn.
    fold q1. rewrite (proj2 Hq1). unfold eventReady, self, update, modify, deliver, mbind, M_bind. cbn.
    by rewrite Ht. }
  rewrite Hrun. unfold mbind, M_bind.
  assert (Hk := kept_deliver (sid, type, target, BasicDelayedEventQueue.userData cb) i1 p).
  destruct (deliver _ (i1, p)) as [[x|[]] [i2 p2]]; cbn in Hk; destruct Hk as [Hk1 Hk2].
  - split; [done|]. apply map_eq. intros v. rewrite lookup_delete, !lookup_pending, Hk1, Hk2. cbn.
    rewrite (proj1 Hq1), lookup_delete. by destruct (decide (uuid = v)).
  - eexists. split; [done|].
    destruct (pending_remove i uuid (BasicDelayedEventQueue.timer_end q1)) as [Hc Hp]; [| |done|].
    { intros v. unfold BasicDelayedEventQueue.timer_end. rewrite (proj2 Hq1). cbn.
      by rewrite lookup_delete, (proj1 Hq1). }
    { unfold BasicDelayedEventQueue.timer_end. by rewrite (proj2 Hq1). }
    split_and!; [| |done|done].
    + destruct Hc as [Hd Hi]. split; cbn; rewrite ?Hk1, ?Hk2; done.
    + rewrite <- Hp. unfold pending. cbn. by rewrite Hk1, Hk2.
Qed.

(** C12: delayed sends refine the map of pending sends. From a state in which
    the two maps agree, sending with a delay, cancelling and a firing timer
    each do to the pending sends what the specification says, and the maps
    agree again; cancelling removes all sends with the id and no other. Only
    a timer can throw, and then its send is not pending any more. *)
Theorem pending_sends_refined op i p :
  consistent i -> enabled op i ->
  match run_op op (i, p) with
  | (inr _, (i', _)) => consistent i' /\ pending i' = spec_op op (pending i)
  | (inl _, (i', _)) => (exists uuid, op = OpFire uuid) /\ pending i' = spec_op op (pending i)
  end.
Proof.
  intros HC Hop. destruct op as [type target delayMs e|sendId|uuid].
  - cbn in Hop. cbn [run_op]. unfold enqueue, update, modify, mbind, M_bind.
    rewrite (proj2 (Z.eqb_neq _ _) Hop). by apply delay_event_spec.
  - by apply cancel_all_spec.
  - destruct Hop as [s Hs]. destruct (fire_spec i p uuid s HC Hs) as (i1 & _ & _ & _ & Hf).
    destruct (deliver s (i1, p)) as [[x|a] [i2 p2]].
    + destruct Hf as [-> Hp]. split; [by exists uuid|done].
    + destruct Hf as (i3 & -> & Hc & Hp & _). done.
Qed.

(** A send whose delay has passed is handed to the processor its type
    names, with its target; when that fails, which it does for an invoke id
    that is not running, the error is neither reported to the session nor
    caught in the timer thread, while the same send without a delay reports it. *)
Theorem late_error_escapes i p uuid sid e invokeId uuid' p' :
  consistent i -> pending i !! uuid = Some ((sid, scxml_type, "#_" +:+ invokeId), e)%string ->
  _ioProcs cfg !! scxml_type = Some SCXMLIOProcessor ->
  length (explode invokeId) <> 0 -> _invokers i !! invokeId = None ->
  iequals ("#_" +:+ invokeId) "#_internal" = false -> iequals ("#_" +:+ invokeId) "#_parent" = false ->
  iequals (implode (substr (explode ("#_" +:+ invokeId)) 0 8)) "#_scxml_" = false ->
  BasicContentExecutor.getUUID p = (inr uuid', p') ->
  exists err i', run_op (OpFire uuid) (i, p) = (inl (ErrorEvent err), (i', p')) /\
    e_name err = "error.communication"%string /\ _internalQueue i' = _internalQueue i /\
    _externalQueue i' = _externalQueue i.
Proof.
  intros HC Hs Hio Hlen Hinv H1 H2 H3 Hu.
  destruct (fire_spec i p uuid _ HC Hs) as (i1 & Hi1 & Hi2 & Hi3 & Hf).
  assert (Hx : explode ("#_" +:+ invokeId) = "#"%char :: "_"%char :: explode invokeId) by done.
  assert (Hd : exists err, deliver ((sid, scxml_type, ("#_" +:+ invokeId)%string), e) (i1, p) =
    (inl (ErrorEvent err), (i1, p')) /\ e_name err = "error.communication"%string).
  { unfold deliver. change (String.eqb scxml_type "") with false. cbn iota. rewrite Hio. unfold eventFromSCXML, scxml_eventFromSCXML.
    rewrite H1, H2, H3, Hx. rewrite andb_false_r. cbn [length Nat.eqb].
    replace (2 <? S (S (length (explode invokeId)))) with true by (symmetry; apply Nat.ltb_lt; lia).
    change (iequals (implode (substr ("#"%char :: "_"%char :: explode invokeId) 0 2)) "#_") with true.
    cbn [andb]. change (drop 2 ("#"%char :: "_"%char :: explode invokeId)) with (explode invokeId).
    rewrite implode_explode. unfold enqueueAtInvoker, self, mbind, M_bind. cbn.
    rewrite Hi3, Hinv. unfold throw_communication, plug, mbind, M_bind. rewrite Hu. cbn. by eexists. }
  destruct Hd as (err & Hd & Hn). rewrite Hd in Hf. destruct Hf as [Hrun _].
  exists err, i1. done.
Qed.

End Pending.

(** ** What the interpreter promises to the executor and the stepper *)

Section Promises.
Context {node P : Type} `{Countable node} {D : DomOps node} {CD : BasicContentExecutor.ContentDom node}
  {PL : Plugins node P} {CP : BasicContentExecutor.ContentPlatform node P}
  (cfg : Config) (FILE : string -> string).
Implicit Types (i : Impl node).

(** Finalize handlers and forwarding are kept for running invocations only. *)
Record invocations_ok i : Prop := {
  io_finalize : dom (_finalize i) = dom (_invokers i);
  io_forward : _autoForwarders i ⊆ dom (_invokers i);
}.

Definition ok (s : Impl node * P) : Prop := invocations_ok (fst s).
Abbreviation sound := (stable (X := Exn) ok).

Lemma sound_plug {A} (m : M Exn P A) : sound (plug m).
Proof. intros [i p] Hi. unfold plug. by destruct (m p) as [[x|a] p']. Qed.
Lemma sound_self : sound self.
Proof. by intros [i p] Hi. Qed.
Lemma sound_update f : (forall i, invocations_ok i -> invocations_ok (f i)) -> sound (update f).
Proof. intros Hf. apply stable_modify. intros [i p]. apply Hf. Qed.

(** Members that do not concern the invocations. *)
Lemma sound_other f :
  (forall i, _finalize (f i) = _finalize i /\ _invokers (f i) = _invokers i /\ _autoForwarders (f i) = _autoForwarders i) ->
  sound (update f).
Proof.
  intros Hf. apply sound_update. intros i [H1 H2]. destruct (Hf i) as (E1 & E2 & E3).
  split; by rewrite ?E1, ?E2, ?E3.
Qed.

Ltac sound := repeat first
  [ apply stable_ret | apply stable_throw | apply sound_plug | apply sound_self
  | by (apply sound_other; intros [])
  | apply stable_attempt | apply stable_catch_error; [|intros ?]
  | apply stable_forM; intros ? ?
  | apply stable_bind; [|intros ?]
  | match goal with |- stable _ (match ?d with _ => _ end) => destruct d end ].

Lemma sound_eventFromSCXML proc target e : sound (eventFromSCXML cfg FILE proc target e).
Proof.
  unfold eventFromSCXML, scxml_eventFromSCXML, enqueueAtParent, enqueueAtSession, enqueueAtInvoker,
    throw_communication. destruct proc; sound.
Qed.

Lemma sound_eventReady e uuid : sound (eventReady cfg FILE e uuid).
Proof.
  unfold eventReady. apply stable_bind; [apply sound_self|]. intros i.
  destruct (default _ _) as [[sid type] target]. apply stable_bind; [sound|]. intros _.
  destruct (_ !! _); [apply sound_eventFromSCXML|]. unfold throw_platform. sound.
Qed.

Lemma sound_enqueue type target delayMs e : sound (enqueue cfg FILE type target delayMs e).
Proof.
  unfold enqueue. apply stable_bind; [sound|]. intros _.
  destruct (_ =? _)%Z; [apply sound_eventReady|]. sound.
Qed.

Lemma cancel_all_invocations sendId i : _finalize (cancel_all sendId i) = _finalize i /\
  _invokers (cancel_all sendId i) = _invokers i /\ _autoForwarders (cancel_all sendId i) = _autoForwarders i.
Proof.
  unfold cancel_all. generalize (BasicDelayedEventQueue.sorted_keys (_delayedEventTargets i)) as us. intros us.
  revert i. induction us as [|u us IH]; intros i; [done|]. cbn. destruct (IH (cancel_one sendId i u)) as (-> & -> & ->).
  unfold cancel_one. destruct (_ !! u) as [[[sid ?] ?]|]; [|done]. by destruct (String.eqb _ _).
Qed.

Lemma sound_checkValidSendType type target : sound (checkValidSendType cfg FILE type target).
Proof.
  unfold checkValidSendType, isValidTarget, scxml_isValidTarget, throw_execution, throw_communication.
  destruct (_ !! _) as [[|h]|]; sound.
Qed.

Lemma sound_invoke type src fwd fin e : sound (invoke (PL := PL) cfg type src fwd fin e).
Proof.
  unfold invoke. apply stable_bind; [apply sound_plug|]. intros h [i p] [Hf Ha].
  cbn in Hf, Ha. unfold mbind, M_bind, update, modify, plug. cbn.
  destruct (invoker_invoke _ _ _ _) as [[x|[]] p'].
  - split; cbn; [by rewrite !dom_insert_L, Hf|]. rewrite dom_insert_L. set_solver.
  - destruct fwd; cbn; split; cbn; rewrite ?dom_insert_L, ?Hf; set_solver.
Qed.

Lemma sound_uninvoke id : sound (uninvoke (PL := PL) id).
Proof.
  unfold uninvoke. apply stable_bind; [apply sound_self|]. intros i0. destruct (_ !! id) as [h|]; [|apply stable_ret].
  apply stable_bind; [apply sound_plug|]. intros _ [i p] [Hf Ha].
  unfold mbind, M_bind, update, modify. cbn. cbn in Hf, Ha.
  split; cbn; rewrite !dom_delete_L, ?Hf; set_solver.
Qed.

Lemma sound_isTrue inState expr : sound (isTrue inState expr).
Proof. unfold isTrue, enqueueInternal. sound. Qed.

Lemma content_callbacks_sound inState : Lifting.Content.callbacks_stable ok
  (content_callbacks cfg FILE inState) (content_platform (node := node)).
Proof.
  constructor; intros; cbn;
    first [ apply sound_isTrue | apply sound_checkValidSendType | apply sound_enqueue
          | apply sound_invoke | apply sound_uninvoke | sound ].
  apply sound_other. intros j. apply cancel_all_invocations.
Qed.

(** The same for the world of the stepper. *)
Definition world_ok (w : World (node := node) (P := P)) : Prop := ok (snd w).

Lemma low_sound {A} (m : @I node P A) : sound m -> stable world_ok (low m).
Proof. apply Lifting.Content.stable_call. Qed.

Lemma sound_process inState block : stable world_ok (process cfg FILE inState block).
Proof. apply Lifting.Content.stable_process, content_callbacks_sound. Qed.

Lemma sound_initData inState root : stable world_ok (initData cfg FILE inState root).
Proof.
  unfold initData. apply stable_catch_error; [|intros e; apply low_sound; unfold enqueueInternal; sound].
  destruct (getParam _ _); [apply low_sound; sound|]. destruct (str_find _ _); [apply low_sound; sound|].
  apply stable_bind; [|intros d; apply low_sound; sound].
  eapply (Lifting.Content.stable_elementAsData _ (content_callbacks_sound inState)).
Qed.

Lemma sound_receive inState e : stable world_ok (receive cfg FILE inState e).
Proof.
  unfold receive, run_finalize. apply stable_bind; [apply low_sound; sound|]. intros _.
  apply stable_bind; [|intros _; apply low_sound; unfold forward, forward_one; sound].
  apply stable_bind; [apply low_sound, sound_self|]. intros i.
  destruct (String.eqb _ _); [apply stable_ret|]. destruct (_ !! _) as [[f|]|]; [apply sound_process|apply stable_ret..].
Qed.

Lemma sound_dequeueExternal inState b : stable world_ok (dequeueExternal cfg FILE inState b).
Proof.
  unfold dequeueExternal. apply stable_bind; [apply low_sound, sound_self|]. intros i.
  destruct (BasicEventQueue.dequeue _ _ _ _) as [[e rest]|]; [|apply stable_throw].
  apply stable_bind; [apply low_sound; sound|]. intros _.
  apply stable_bind; [destruct (Event_bool e); [apply sound_receive|apply stable_ret]|]. intros _. apply stable_ret.
Qed.

Lemma microstep_callbacks_sound c cancelled :
  Lifting.step_callbacks_stable (CB := microstep_callbacks cfg FILE c cancelled) world_ok.
Proof.
  constructor; intros; cbn.
  - apply low_sound. unfold dequeueInternal. sound.
  - apply stable_bind; [apply sound_dequeueExternal|]. intros e. apply stable_ret.
  - apply Lifting.Content.stable_raiseDoneEvent, content_callbacks_sound.
  - apply low_sound, sound_isTrue.
  - apply sound_initData.
  - apply sound_process.
  - apply Lifting.Content.stable_invoke, content_callbacks_sound.
  - eapply (Lifting.Content.stable_uninvoke _ (content_callbacks_sound _)).
  - apply low_sound. sound.
Qed.

End Promises.

(** ** Sessions *)

Section Sessions.
Context {node P : Type} `{Countable node} {D : DomOps node} {CD : BasicContentExecutor.ContentDom node}
  {PL : Plugins node P} {CP : BasicContentExecutor.ContentPlatform node P}
  (cfg : Config) (FILE : string -> string) (c : Chart node).

Definition on_impl (f : Impl node -> Impl node) (s : Session (node := node) (P := P)) : Session (node := node) (P := P) :=
  mkSession (_isInitialized s) (_state s) (_microStepper s)
    (fst (world s), (f (fst (snd (world s))), snd (snd (world s)))).

(** How one thing that happens to a session leaves its stepper: in a state
    between two steps, out of a step that threw, or as a new one. *)
Inductive Left := Between | Thrown | Anew.

(** What happens to a session: its own steps, whether they return or a plugin
    throws out of them, the calls of the API, events from other sessions, the
    timer thread, the passing of time, and the life of the plugins. *)
Inductive session_step : Left -> Session (node := node) (P := P) -> Session (node := node) (P := P) -> Prop :=
| by_step cancelled blockMs r s s' : step cfg FILE c cancelled blockMs s = (r, s') ->
    session_step (match r with inl _ => Thrown | inr _ => Between end) s s'
| by_reset s : session_step Anew s (reset s)
| by_cancel unblock s : session_step Between s (cancel unblock s)
| by_event e s : session_step Between s (on_impl (set_externalQueue (BasicEventQueue.enqueue e)) s)
| by_timer_begin uuid s : session_step Between s
    (on_impl (set_delayQueue (BasicDelayedEventQueue.timer_begin uuid)) s)
| by_timer_end s : session_step Between s
    (mkSession (_isInitialized s) (_state s) (_microStepper s) (snd (low (timer_end cfg FILE) (world s))))
| by_environment t l s : session_step Between s
    (on_impl (fun i => mkImpl (_internalQueue i) (_externalQueue i) (_delayQueue i) (_delayedEventTargets i)
       (_currEvent i) (_invokers i) (_finalize i) (_autoForwarders i) t (fresh i) l) s)
| by_plugin p s : session_step Between s
    (mkSession (_isInitialized s) (_state s) (_microStepper s) (fst (world s), (fst (snd (world s)), p))).

Definition new_impl : Impl node :=
  mkImpl [] [] BasicDelayedEventQueue.initial ∅ (Event_default "") ∅ ∅ ∅
    (BasicDelayedEventQueue.mkTimeval 0 0) 0 [].

Definition new_session (p : P) : Session (node := node) (P := P) :=
  mkSession false USCXML_INSTANTIATED pristine (BasicContentExecutor.mkExecutor ∅ ∅, (new_impl, p)).

(** A session some time after its creation, and whether no step has thrown
    since then or since it was last reset. *)
Inductive session_after (p : P) : bool -> Session (node := node) (P := P) -> Prop :=
| after_creation : session_after p true (new_session p)
| after_more intact l s s' : session_after p intact s -> session_step l s s' ->
    session_after p (match l with Between => intact | Thrown => false | Anew => true end) s'.

Record session_ok (intact : bool) (s : Session (node := node) (P := P)) : Prop := {
  so_legal : intact = true -> sound c (_microStepper s);
  so_invocations : world_ok (world s);
}.

Context (WF : chart_wf c) (HR : chart_regular c) (HT : chart_tree c).

Lemma session_ok_step intact l s s' : session_ok intact s -> session_step l s s' ->
  session_ok (match l with Between => intact | Thrown => false | Anew => true end) s'.
Proof.
  intros [HL HI] Hstep. destruct Hstep as [cancelled b r s s' Hs|s|u s|e s|u s|s|t l s|p s].
  - unfold step in Hs. destruct (_isInitialized s); [|injection Hs as <- <-; by split].
    assert (Hw := Lifting.step_stable_world c world_ok (microstep_callbacks_sound cfg FILE c cancelled) b
      (_microStepper s, world s) HI).
    assert (Hl := step_keeps_sound (CB := microstep_callbacks cfg FILE c cancelled) c WF HR HT b
      (_microStepper s, world s)).
    destruct (MicroStep.step _ _ _) as [[x|r'] [ms w]]; injection Hs as <- <-; split; auto; done.
  - destruct s as [ini st ms [ex [i p]]]. split; [|by destruct HI; split]. intros _.
    by apply (sound_ext c pristine); [|apply pristine_sound].
  - destruct s as [ini st ms [ex [i p]]]. split; [intros Hn; apply (sound_ext c ms); [done|exact (HL Hn)]|by destruct HI; split].
  - destruct s as [ini st ms [ex [i p]]]. split; [exact HL|by destruct HI; split].
  - destruct s as [ini st ms [ex [i p]]]. split; [exact HL|by destruct HI; split].
  - split; [exact HL|]. assert (Ht : stable (ok (node := node) (P := P)) (timer_end cfg FILE)).
    { unfold timer_end. apply stable_bind; [apply sound_self|]. intros i.
      destruct (BasicDelayedEventQueue._timer _) as [[u e]|]; [|apply stable_ret].
      apply stable_bind; [apply sound_eventReady|]. intros _. by apply sound_other. }
    specialize (low_sound _ Ht (world s) HI). cbn. by destruct (low _ _) as [[x|a] w'].
  - destruct s as [ini st ms [ex [i p0]]]. split; [exact HL|by destruct HI; split].
  - split; [exact HL|by destruct HI; split].
Qed.

Lemma session_after_ok p intact s : session_after p intact s -> session_ok intact s.
Proof.
  induction 1 as [|intact l s s' _ IH Hs]; [|by eapply session_ok_step].
  split; [intros _; by apply pristine_sound|]. split; [|apply empty_subseteq].
  change (dom (∅ : gmap string (option node)) = dom (∅ : gmap string nat)). by rewrite !dom_empty_L.
Qed.

(** C2: in a session of a well-formed chart of regular tree shape, the finalize
    handlers that are registered are those of the running invocations, and
    events are forwarded to running invocations only. This holds after any
    sequence of steps, resets, cancellations, events, timer ticks and changes
    of the plugins' own state, also when plugins throw out of steps. And as
    long as no step has thrown since the session was created or last reset, its
    configuration is legal: nothing is active yet, or the root is, with the
    ancestors of every active state, exactly one child of every active compound
    state, and all children of every active parallel state. After a step that
    threw this may fail until the next reset ([thrown_step_illegal]). *)
Theorem session_invariant p intact s : session_after p intact s ->
  let i := fst (snd (world s)) in
  dom (_finalize i) = dom (_invokers i) /\ _autoForwarders i ⊆ dom (_invokers i) /\
  (intact = true ->
   let Y := _configuration (_microStepper s) in
   Y = ∅ \/
   (0 ∈ Y /\ (forall k, k ∈ Y -> k < n_states c /\ genuine c k /\ ancestors_of c k ⊆ Y) /\
    (forall q, q ∈ Y -> compound c q -> exists! k, k ∈ Y /\ child c q k) /\
    (forall q, q ∈ Y -> parallel c q -> forall k, child c q k -> genuine c k -> k ∈ Y))).
Proof.
  intros Hs. cbv zeta. destruct (session_after_ok p intact s Hs) as [HL [Hf Ha]]. split; [exact Hf|]. split; [exact Ha|].
  intros Hi. exact (sound_spelled_out c HT _ (HL Hi)).
Qed.

End Sessions.

(** ** A session to apply the theorems to *)

Definition toy_plugins : Plugins nat unit := {|
  evalAsBool _ cond := mret (stringIsTrue cond);
  evalAsData _ := toy_data;
  eval _ _ := mret tt;
  getAsData := toy_data;
  assign _ _ _ := mret tt;
  init _ _ _ := mret tt;
  getLength _ := mret 0%Z;
  setForeach _ _ _ _ := mret tt;
  setEvent _ := mret tt;
  isValidExprSyntax _ := mret true;
  createInvoker _ := mret 0;
  invoker_invoke _ _ _ := mret tt;
  invoker_uninvoke _ := mret tt;
  invoker_eventFromSCXML _ _ := mret tt;
  proc_isValidTarget _ _ := mret true;
  proc_eventFromSCXML _ _ _ := mret tt;
  session_enqueueExternal _ _ := mret None;
  parent_enqueue _ := mret tt;
  log _ _ := mret tt;
  createExecutableContent _ _ := mret 0;
  content_monitor _ := mret tt;
  step_monitor _ := mret tt;
|}.

Definition toy_config : Config :=
  mkConfig "session" "" (Event_default "") "" {[ scxml_type := SCXMLIOProcessor ]} false.

(** A session with one delayed send "s" to an invocation that does not exist. *)
Definition waiting : Impl nat :=
  delay_event 1500 (set_sendid "s" (Event_default "u"))
    (set_targets <["u"%string := ("s", scxml_type, "#_child")%string]> new_impl).

Lemma waiting_consistent : consistent waiting.
Proof. split; [apply (bool_decide_unpack _); by vm_compute|done]. Qed.

Lemma pending_sends_refined_witness :
  pending (cancel_all "s" waiting) = spec_op (OpCancel "s") (pending waiting) /\
  map_to_list (pending (cancel_all "s" waiting)) = [].
Proof.
  assert (Hr := pending_sends_refined (PL := toy_plugins) (CP := toy_platform) toy_config id (OpCancel "s")
    waiting tt waiting_consistent Logic.I).
  split; [exact (proj2 Hr)|]. by vm_compute.
Defined.

Lemma late_error_escapes_witness : exists err i',
  run_op (PL := toy_plugins) (CP := toy_platform) toy_config id (OpFire "u") (waiting, tt)
    = (inl (ErrorEvent err), (i', tt)) /\ e_name err = "error.communication"%string.
Proof.
  destruct (late_error_escapes (PL := toy_plugins) (CP := toy_platform) toy_config id waiting tt "u" "s"
    (set_sendid "s" (Event_default "u")) "child" "uuid" tt) as (err & i' & Hr & Hn & _);
    [exact waiting_consistent|by vm_compute..|].
  by exists err, i'.
Defined.

(** The session after its initialisation and its first micro step. *)
Definition toy_step (s : Session (node := nat) (P := unit)) : (Exn + InterpreterState) * Session :=
  step (D := regular_dom) (CD := toy_content) (PL := toy_plugins) (CP := toy_platform)
    toy_config id regular_chart false 0 s.

Definition toy_session : Session := snd (toy_step (snd (toy_step (new_session tt)))).

Lemma session_invariant_witness :
  bits 15 (_configuration (_microStepper toy_session)) = [0; 1; 2; 4; 6; 8] /\
  exists! k, k ∈ _configuration (_microStepper toy_session) /\ child regular_chart 2 k.
Proof.
  assert (Hb : bits 15 (_configuration (_microStepper toy_session)) = [0; 1; 2; 4; 6; 8]) by by vm_compute. split; [exact Hb|].
  assert (H2 : 2 ∈ _configuration (_microStepper toy_session)) by (apply (bool_decide_unpack _); by vm_compute).
  assert (Hs : session_after (D := regular_dom) (CD := toy_content) (PL := toy_plugins) (CP := toy_platform)
    toy_config id regular_chart tt true toy_session).
  { assert (Hrun : forall s, (exists r, fst (toy_step s) = inr r) -> session_step (D := regular_dom) (CD := toy_content)
      (PL := toy_plugins) (CP := toy_platform) toy_config id regular_chart Between s (snd (toy_step s))).
    { intros s (r & Hr). apply (by_step _ _ _ false 0%Z (inr r)). change (toy_step s = (inr r, snd (toy_step s))).
      by rewrite <- Hr, <- surjective_pairing. }
    refine (after_more _ _ _ tt true Between _ _ (after_more _ _ _ tt true Between _ _ (after_creation _ _ _ tt) _) _).
    - apply Hrun. exists USCXML_INITIALIZED. by vm_compute.
    - apply Hrun. exists USCXML_MICROSTEPPED. by vm_compute. }
  destruct (session_invariant (D := regular_dom) (CD := toy_content) (PL := toy_plugins) (CP := toy_platform)
    toy_config id regular_chart regular_chart_wf regular_chart_regular regular_chart_tree tt true toy_session Hs)
    as (_ & _ & Hl).
  destruct (Hl eq_refl) as [He|(_ & _ & Hone & _)]; [exfalso; rewrite He in H2; by apply elem_of_empty in H2|].
  apply Hone; [exact H2|by vm_compute].
Defined.

(** A monitor that throws when state 4, element 5, is about to be entered: the exception
    leaves the step, and the compound state 2 is active without a child. *)
Definition throwing_plugins : Plugins nat unit := {|
  evalAsBool := evalAsBool (Plugins := toy_plugins);
  evalAsData := evalAsData (Plugins := toy_plugins);
  eval := eval (Plugins := toy_plugins);
  getAsData := getAsData (Plugins := toy_plugins);
  assign := assign (Plugins := toy_plugins);
  init := init (Plugins := toy_plugins);
  getLength := getLength (Plugins := toy_plugins);
  setForeach := setForeach (Plugins := toy_plugins);
  setEvent := setEvent (Plugins := toy_plugins);
  isValidExprSyntax := isValidExprSyntax (Plugins := toy_plugins);
  createInvoker := createInvoker (Plugins := toy_plugins);
  invoker_invoke := invoker_invoke (Plugins := toy_plugins);
  invoker_uninvoke := invoker_uninvoke (Plugins := toy_plugins);
  invoker_eventFromSCXML := invoker_eventFromSCXML (Plugins := toy_plugins);
  proc_isValidTarget := proc_isValidTarget (Plugins := toy_plugins);
  proc_eventFromSCXML := proc_eventFromSCXML (Plugins := toy_plugins);
  session_enqueueExternal := session_enqueueExternal (Plugins := toy_plugins);
  parent_enqueue := parent_enqueue (Plugins := toy_plugins);
  log := log (Plugins := toy_plugins);
  createExecutableContent := createExecutableContent (Plugins := toy_plugins);
  content_monitor := content_monitor (Plugins := toy_plugins);
  step_monitor m := match m with MicroStep.beforeEnteringState 5 => throw OtherException | _ => mret tt end;
|}.

Definition throwing_step (s : Session (node := nat) (P := unit)) : (Exn + InterpreterState) * Session :=
  step (D := regular_dom) (CD := toy_content) (PL := throwing_plugins) (CP := toy_platform)
    toy_config id regular_chart false 0 s.

Definition thrown_session : (Exn + InterpreterState) * Session := throwing_step (snd (throwing_step (new_session tt))).

Example thrown_step_illegal :
  fst thrown_session = inl OtherException /\
  bits 15 (_configuration (_microStepper (snd thrown_session))) = [0; 1; 2] /\
  compound regular_chart 2 /\ Forall (fun k => ~ child regular_chart 2 k) [0; 1; 2].
Proof.
  split; [by vm_compute|]. split; [by vm_compute|].
  split; apply (bool_decide_unpack _); by vm_compute.
Qed.
