(* ===== verification/Persistence.v ===== *)
(** * Saving and restoring a session: [InterpreterImpl::serialize], [deserialize]

    What a session stores is one datum, written as JSON text: the state of the
    stepper, the values of the data elements, the state of the invokers and
    the external events. Restoring it reads the text into a session that
    [init] has just prepared for the same document. *)

From stdpp Require Import base list gmap strings.
From S2P Require Import Prelude Strings Dom Predicates Data Json JsonTokens JsonTheorems Chart Effects MicroStep EventQueue.
From S2P Require Import Legal Recorder Content ContentTheorems Base64 Serialize Interpreter InterpreterTheorems.

Local Open Scope nat_scope.

Module SessionState.
Import InterpreterImpl.

(** The part of an invoker that is called here. *)
Class InvokerState (P : Type) := {
  invoker_serialize : nat -> M Exn P Data;
  invoker_deserialize : nat -> Data -> M Exn P unit;
}.

Section Persist.
Context {node P B : Type} `{Countable node} {D : DomOps node} {CD : BasicContentExecutor.ContentDom node}
  {PL : Plugins node P} {CP : BasicContentExecutor.ContentPlatform node P} {IS : InvokerState P}
  {BS : DynamicBitset B} {TR : Trim} (cfg : Config) (FILE : string -> string).

(** The root of the document, the XML serialiser, and the MD5 digest of the
    document it writes. *)
Context (_scxml : node) (node_xml : positive -> string) (_md5 : string).

Abbreviation Here := (World (node := node) (P := P)).

Definition lift_micro {A} (m : @Step Here Exn A) : Session (node := node) (P := P) -> (Exn + A) * Session := fun s =>
  let '(r, (ms, w)) := m (_microStepper s, world s) in (r, mkSession (_isInitialized s) (_state s) ms w).

Definition elements (name : string) : list node := inDocumentOrder [XML_PREFIX _scxml +:+ name] _scxml.

Definition executor : M Exn Here (BasicContentExecutor.Executor node) := fun w => (inr (fst w), w).

(** [_invokers[invokeId]] for the id the executor attached to an element. *)
Definition invoker_of (invokeElem : node) : M Exn Here (option nat) :=
  ex ← executor; i ← low self;
  mret (BasicContentExecutor.invokeIds ex !! invokeElem ≫= fun invokeId => _invokers i !! invokeId).

(** [serialized[section][key] = value] *)
Definition put_in (section key : string) (value : Data) (serialized : Data) : Data :=
  Data_put section (Data_put key value (Data_at serialized section)) serialized.

Definition save_datum (inState : string -> bool) (data : node) (serialized : Data) : M Exn Here Data :=
  if HAS_ATTR data "id" then
    value ← low (plug (evalAsData inState (ATTR data "id")));
    mret (put_in "datamodel" (ATTR data "id") value serialized)
  else mret serialized.

Definition save_invoker (invokeElem : node) (serialized : Data) : M Exn Here Data :=
  h ← invoker_of invokeElem;
  match h with
  | Some h =>
      value ← low (plug (invoker_serialize h));
      mret (put_in "invoker" (xPathForNode invokeElem "") value serialized)
  | None => mret serialized
  end.

Definition fixed_data (c : Chart node) (ms : MicroState) : Data :=
  Data_put "microstepper" (FastMicroStep.serialize (B := B) c ms)
    (Data_put "url" (Data_atom (_baseURL cfg) VERBATIM)
      (Data_put "md5" (Data_atom _md5 VERBATIM) Data_empty)).

Definition serialized_data (c : Chart node) : @Step Here Exn Data :=
  ms ← getm;
  serialized ← call (fun ms => foldM (save_datum (isInState c ms)) (elements "data") (fixed_data c ms));
  serialized ← call (fun _ => foldM save_invoker (elements "invoke") serialized);
  i ← call (fun _ => low self);
  let serialized := Data_put "externalQueue" (BasicEventQueue.serialize (_externalQueue i)) serialized in
  mret (Data_put "delayQueue" (BasicDelayedEventQueue.serialize (now i) (_delayQueue i)) serialized).

(** Between two macro steps only. *)
Definition stable (state : InterpreterState) : bool :=
  match state with USCXML_IDLE | USCXML_MACROSTEPPED | USCXML_FINISHED => true | _ => false end.

Definition throw_here {A} (cause line : string) : M Exn Here A :=
  low (throw_platform FILE cause "InterpreterImpl.cpp" line).

Definition serialize (c : Chart node) (s : Session (node := node) (P := P)) : (Exn + string) * Session :=
  lift_micro
    (if stable (_state s) then d ← serialized_data c; mret (asJSON node_xml d)
     else call (fun _ => throw_here "Cannot serialize an unstable interpreter" "230")) s.

(** ** Restoring *)

Definition restore_queues (state : Data) (i : Impl node) : Impl node :=
  let i := if hasKey state "externalQueue"
           then set_externalQueue (BasicEventQueue.deserialize (Data_at state "externalQueue")) i else i in
  if hasKey state "delayQueue" then
    let saved := Data_at state "delayQueue" in
    let hs := seq (fresh i) (length (d_array (Data_at saved "BasicDelayedEventQueue"))) in
    set_fresh (fresh i + length hs) (set_delayQueue (BasicDelayedEventQueue.deserialize (now i) hs saved) i)
  else i.

Definition restore_datum (state : Data) (data : node) : M Exn Here unit :=
  let id := ATTR data "id" in
  if HAS_ATTR data "id" && hasKey (Data_at state "datamodel") id
  then low (plug (init id (Data_at (Data_at state "datamodel") id) []))
  else mret tt.

Definition restore_invoker (state : Data) (invokeElem : node) : M Exn Here unit :=
  h ← invoker_of invokeElem;
  match h with
  | Some h =>
      let path := xPathForNode invokeElem "" in
      if hasKey state "invoker" && hasKey (Data_at state "invoker") path
      then low (plug (invoker_deserialize h (Data_at (Data_at state "invoker") path)))
      else mret tt
  | None => mret tt
  end.

Definition restore_state (c : Chart node) (cancelled : bool) (state : Data) : @Step Here Exn unit :=
  if negb (hasKey state "microstepper") then call (fun _ => throw_here "No microstepper information in serialized state" "173")
  else if negb (hasKey state "url") then call (fun _ => throw_here "No url information in serialized state" "177")
  else if negb (hasKey state "md5") then call (fun _ => throw_here "No MD5 hash in serialized state" "181")
  else
    call (fun _ => low (update (restore_queues state)));;
    if negb (String.eqb (d_atom (Data_at state "md5")) _md5)
    then call (fun _ => throw_here "MD5 hash mismatch in serialized state" "200")
    else
      call (fun _ => forM_ (elements "data") (restore_datum state));;
      FastMicroStep.deserialize (B := B) (CB := microstep_callbacks cfg FILE c cancelled)
        (fun cause line => low (throw_platform FILE cause "FastMicroStep.cpp" line)) c (Data_at state "microstepper");;
      call (fun _ => forM_ (elements "invoke") (restore_invoker state)).

(** [init] has been called, which the flag of the session says. *)
Definition deserialize (c : Chart node) (cancelled : bool) (encodedState : string) (s : Session (node := node) (P := P)) : (Exn + unit) * Session :=
  lift_micro
    (match fromJSON encodedState with
     | inr state => restore_state c cancelled state
     | inl (JSON_throw cause line) => call (fun _ => low (throw_platform FILE cause "Data.cpp" line))
     | inl JSON_undefined => throw Undefined
     end) (mkSession true (_state s) (_microStepper s) (world s)).

End Persist.

(** ** What is stored can be read back *)

(** An object whose keys and members JSON text can carry. *)
Definition object_ok (d : Data) : Prop := exists c, d = mkData c [] "" None None INTERPRETED /\ keys_sorted c /\
  Forall (fun e => safe_string (fst e) = true /\ jsonable (snd e) = true) c.

Lemma object_ok_empty : object_ok Data_empty.
Proof. exists []. split_and!; [done|constructor|constructor]. Qed.

Lemma object_ok_put k v d : safe_string k = true -> jsonable v = true -> object_ok d -> object_ok (Data_put k v d).
Proof.
  intros Hk Hv (c & -> & Hs & Hc). exists (str_put k v c). split_and!; [done|by apply keys_sorted_put|].
  clear Hs. unfold str_put. induction c as [|[a w] c IH]; cbn [map_put]; [by repeat constructor|].
  inversion Hc; subst. destruct (String.compare k a);
    [by constructor|constructor; [done|by constructor]|constructor; [done|by apply IH]].
Qed.

Lemma object_ok_jsonable d : object_ok d -> jsonable d = true.
Proof.
  intros (c & -> & Hs & Hc). destruct c as [|e c]; [done|]. cbn [jsonable].
  rewrite bool_decide_eq_true_2 by done. cbn [andb]. revert Hc. generalize (e :: c) as l. clear.
  induction 1 as [|x l (Hk & Hv) Hl IH]; [done|]. cbn [forallb]. by rewrite Hk, Hv.
Qed.

Lemma read_compound_find k c : forall idx, match str_find k c with
  | Some v => exists i, str_find k (fst (read_compound idx c)) = Some (fst (read_back i v))
  | None => str_find k (fst (read_compound idx c)) = None
  end.
Proof.
  unfold str_find. induction c as [|[a w] c IH]; intros idx; [done|]. cbn [read_compound map_find].
  destruct (read_back idx w) as [w' idx'] eqn:Hw. specialize (IH idx').
  destruct (read_compound idx' c) as [c' idx'']. cbn [fst map_find] in *.
  destruct (String.compare k a); [|done..]. exists idx. by rewrite Hw.
Qed.

Lemma read_back_at d k idx : object_ok d -> hasKey d k = true ->
  hasKey (fst (read_back idx d)) k = true /\
  exists i, Data_at (fst (read_back idx d)) k = fst (read_back i (Data_at d k)).
Proof.
  intros (c & -> & _ & _) Hk. unfold hasKey, Data_at in *. cbn [d_compound] in *. rewrite read_back_unfold.
  pose proof (read_compound_find k c idx) as Hf. destruct (read_compound idx c) as [c' idx'].
  cbn [read_array fst d_compound] in *. destruct (str_find k c) as [v|]; [|done].
  destruct Hf as (i & Hf). rewrite Hf. split; [done|]. by exists i.
Qed.

Lemma read_back_verbatim s idx : read_back idx (Data_atom s VERBATIM) = (Data_atom s VERBATIM, idx).
Proof. by destruct s. Qed.

Section Restored.
Context {node P B : Type} `{Countable node} {D : DomOps node} {CD : BasicContentExecutor.ContentDom node}
  {PL : Plugins node P} {CP : BasicContentExecutor.ContentPlatform node P} {IS : InvokerState P}
  {BS : DynamicBitset B} {BL : BitsetLaws B} `{TL : TrimLaws} (cfg : Config) (FILE : string -> string).
Context (_scxml : node) (node_xml : positive -> string) (_md5 : string).

Lemma read_back_micro (c : Chart node) ms idx :
  read_back idx (FastMicroStep.serialize (B := B) c ms) = (FastMicroStep.serialize (B := B) c ms, idx).
Proof.
  unfold FastMicroStep.serialize, FastMicroStep.encoded.
  generalize (FastMicroStep.toBase64 (B := B) (bitset (n_states c) (_initializedData ms))) as s1,
    (FastMicroStep.toBase64 (B := B) (bitset (n_states c) (_history ms))) as s2,
    (FastMicroStep.toBase64 (B := B) (bitset (n_states c) (_invocations ms))) as s3,
    (FastMicroStep.toBase64 (B := B) (bitset (n_states c) (_configuration ms))) as s4.
  intros. by destruct s1, s2, s3, s4.
Qed.

Lemma micro_object_ok (c : Chart node) ms : object_ok (FastMicroStep.serialize (B := B) c ms).
Proof.
  assert (He : forall s, jsonable (FastMicroStep.encoded (B := B) c s) = true).
  { intros s. unfold FastMicroStep.encoded. cbn [jsonable Data_atom]. unfold safe_string, FastMicroStep.toBase64.
    rewrite explode_implode. apply forallb_forall. intros x Hx.
    pose proof (proj1 (forallb_forall _ _) (base64Encode_alphabet _) x Hx) as Ha. clear -Ha.
    destruct x as [[] [] [] [] [] [] [] []]; vm_compute in Ha; try discriminate Ha; done. }
  unfold FastMicroStep.serialize. repeat (apply object_ok_put; [done|apply He|]). apply object_ok_empty.
Qed.

(** What the surroundings of a session have to keep to so that JSON text can
    carry its state. *)
Record storable (s : Session (node := node) (P := P)) : Prop := {
  st_md5 : safe_string _md5 = true;
  st_url : safe_string (_baseURL cfg) = true;
  st_ids e : e ∈ elements _scxml "data" -> safe_string (ATTR e "id") = true;
  st_paths e : e ∈ elements _scxml "invoke" -> safe_string (xPathForNode e "") = true;
  st_values e inState p v p' : e ∈ elements _scxml "data" ->
    evalAsData inState (ATTR e "id") p = (inr v, p') -> jsonable v = true;
  st_invokers h p v p' : invoker_serialize h p = (inr v, p') -> jsonable v = true;
  st_events e : e ∈ _externalQueue (fst (snd (world s))) -> jsonable (e_data e) = true;
  st_delayed : BasicDelayedEventQueue._queue (_delayQueue (fst (snd (world s)))) = [];
}.

(** The datum while it is put together. *)
Record building (c : Chart node) (ms : MicroState) (d : Data) : Prop := {
  bd_object : object_ok d;
  bd_datamodel : object_ok (Data_at d "datamodel");
  bd_invoker : object_ok (Data_at d "invoker");
  bd_keys : hasKey d "microstepper" = true /\ hasKey d "url" = true /\ hasKey d "md5" = true;
  bd_micro : Data_at d "microstepper" = FastMicroStep.serialize (B := B) c ms;
  bd_md5 : Data_at d "md5" = Data_atom _md5 VERBATIM;
}.

Lemma building_put c ms k v d : k ∉ ["datamodel"; "invoker"; "microstepper"; "url"; "md5"]%string ->
  safe_string k = true -> jsonable v = true -> building c ms d -> building c ms (Data_put k v d).
Proof.
  rewrite !not_elem_of_cons. intros (? & ? & ? & ? & ? & _) Hk Hv [].
  split; rewrite ?Data_at_put_ne, ?hasKey_put_ne by done; try done. by apply object_ok_put.
Qed.

Lemma building_put_in c ms section k v d : section = "datamodel"%string \/ section = "invoker"%string ->
  safe_string k = true -> jsonable v = true -> building c ms d -> building c ms (put_in section k v d).
Proof.
  intros Hs Hk Hv []. unfold put_in.
  assert (Hin : object_ok (Data_put k v (Data_at d section))) by (apply object_ok_put; [done|done|by destruct Hs; subst]).
  destruct Hs; subst; split; rewrite ?Data_at_put_eq, ?Data_at_put_ne, ?hasKey_put_ne by done; try done;
    by apply object_ok_put; [..|apply object_ok_jsonable|].
Qed.

Lemma foldM_inv {A St} (I : Data -> St -> Prop) (f : A -> Data -> M Exn St Data) l : forall b w b' w',
  (forall x d w d' w', x ∈ l -> I d w -> f x d w = (inr d', w') -> I d' w') ->
  I b w -> foldM f l b w = (inr b', w') -> I b' w'.
Proof.
  induction l as [|x l IH]; intros b w b' w' Hf Hb; cbn [foldM]; [by intros [= <- <-]|].
  unfold mbind, M_bind. destruct (f x b w) as [[e|d] w1] eqn:E; [done|].
  apply IH; [intros y ? ? ? ? Hy; apply Hf; by right|]. eapply Hf; [by left|done|done].
Qed.

Lemma save_datum_ok c ms s inState e d w d' w' : storable s -> e ∈ elements _scxml "data" ->
  building c ms d /\ fst (snd w) = fst (snd (world s)) -> save_datum inState e d w = (inr d', w') ->
  building c ms d' /\ fst (snd w') = fst (snd (world s)).
Proof.
  intros Hst He (Hd & Hw). unfold save_datum. destruct (HAS_ATTR e "id"); [|by intros [= <- <-]].
  destruct w as [ex [i p]]. unfold mbind, M_bind, low, BasicContentExecutor.call, plug.
  destruct (evalAsData inState (ATTR e "id") p) as [[x|v] p'] eqn:E; [done|]. intros [= <- <-]. split; [|done].
  apply building_put_in; [by left|by eapply st_ids|by eapply st_values|done].
Qed.

Lemma save_invoker_ok c ms s e d w d' w' : storable s -> e ∈ elements _scxml "invoke" ->
  building c ms d /\ fst (snd w) = fst (snd (world s)) -> save_invoker e d w = (inr d', w') ->
  building c ms d' /\ fst (snd w') = fst (snd (world s)).
Proof.
  intros Hst He (Hd & Hw). unfold save_invoker, invoker_of. destruct w as [ex [i p]].
  unfold mbind, M_bind, executor, low, BasicContentExecutor.call, self, plug, mret, M_ret. cbn [fst snd].
  destruct (option_bind _ _ _ _) as [h|]; [|by intros [= <- <-]].
  destruct (invoker_serialize h p) as [[x|v] p'] eqn:E; [done|]. intros [= <- <-]. split; [|done].
  apply building_put_in; [by right|by eapply st_paths|by eapply st_invokers|done].
Qed.

Lemma queue_jsonable q : (forall e, e ∈ q -> jsonable (e_data e) = true) -> jsonable (BasicEventQueue.serialize q) = true.
Proof.
  intros Hq. unfold BasicEventQueue.serialize. destruct q as [|e q]; [done|].
  cbn [imap set_array]. apply object_ok_jsonable. apply object_ok_put; [done| |apply object_ok_empty].
  cbn [jsonable set_array]. apply forallb_forall. intros [i d] Hin. cbn [snd].
  apply list_elem_of_In in Hin. change (_ :: _) with (imap (fun i event => (Z.of_nat i, e_data event)) (e :: q)) in Hin.
  apply list_elem_of_lookup in Hin as (k & Hk). rewrite list_lookup_imap in Hk.
  destruct ((e :: q) !! k) as [e'|] eqn:He; [|done]. injection Hk as _ <-. apply Hq. by eapply list_elem_of_lookup_2.
Qed.

Lemma fixed_data_ok c s : storable s -> building c (_microStepper s) (fixed_data (B := B) cfg _md5 c (_microStepper s)).
Proof.
  intros []. unfold fixed_data. split; autorewrite with uscxml_rw; try done; try apply object_ok_empty.
  repeat apply object_ok_put; try done; [by apply object_ok_jsonable, micro_object_ok|apply object_ok_empty].
Qed.

Lemma serialized_data_ok c s d ms w : storable s ->
  serialized_data (B := B) cfg _scxml _md5 c (_microStepper s, world s) = (inr d, (ms, w)) ->
  ms = _microStepper s /\ building c (_microStepper s) d.
Proof.
  intros Hst. unfold serialized_data, mbind, M_bind, getm, call. cbn [fst].
  destruct (foldM (save_datum _) _ _ _) as [[x|d1] w1] eqn:E1; [done|].
  destruct (foldM save_invoker _ _ _) as [[x|d2] w2] eqn:E2; [done|].
  apply (foldM_inv (fun d w => building c (_microStepper s) d /\ fst (snd w) = fst (snd (world s)))) in E1 as (Hd1 & Hw1).
  2:{ intros; by eapply save_datum_ok. }
  2:{ split; [by apply fixed_data_ok|done]. }
  apply (foldM_inv (fun d w => building c (_microStepper s) d /\ fst (snd w) = fst (snd (world s)))) in E2 as (Hd2 & Hw2).
  2:{ intros; by eapply save_invoker_ok. }
  2:{ by split. }
  destruct w2 as [ex [i p]]. cbn [fst snd low BasicContentExecutor.call self] in *. unfold low, BasicContentExecutor.call, self.
  cbn [fst]. intros [= <- <- _]. split; [done|]. subst i.
  apply building_put; [set_solver|done| |].
  { unfold BasicDelayedEventQueue.serialize. by rewrite (st_delayed s Hst). }
  apply building_put; [set_solver|done| |done]. apply queue_jsonable, Hst.
Qed.

Lemma call_keeps {A} (f : MicroState -> M Exn (World (node := node) (P := P)) A) ms w a ms' w' :
  call f (ms, w) = (inr a, (ms', w')) -> ms' = ms.
Proof. unfold call. destruct (f ms w) as [r w1]. by intros [= _ <- _]. Qed.

Lemma restore_state_micro c cancelled state ms0 ms w ms' w' :
  (Z.of_nat (n_states c) < 2 ^ 64)%Z ->
  in_range c (_configuration ms0 ∪ _invocations ms0 ∪ _history ms0 ∪ _initializedData ms0) ->
  hasKey state "microstepper" = true /\ hasKey state "url" = true /\ hasKey state "md5" = true ->
  Data_at state "md5" = Data_atom _md5 VERBATIM ->
  Data_at state "microstepper" = FastMicroStep.serialize (B := B) c ms0 ->
  restore_state (B := B) cfg FILE _scxml _md5 c cancelled state (ms, w) = (inr tt, (ms', w')) ->
  ms' = set_flags (fun f => Z.lor f USCXML_CTX_INITIALIZED) (FastMicroStep.restored ms0 ms).
Proof.
  intros Hn Hr (Hk1 & Hk2 & Hk3) Hmd5 Hmicro. unfold restore_state. rewrite Hk1, Hk2, Hk3, Hmd5, Hmicro.
  cbn [negb d_atom Data_atom]. rewrite String.eqb_refl. cbn [negb]. unfold mbind, M_bind.
  destruct (call _ (ms, w)) as [[x|[]] [ms1 w1]] eqn:E1; [done|]. apply call_keeps in E1 as ->.
  destruct (call _ (ms, w1)) as [[x|[]] [ms2 w2]] eqn:E2; [done|]. apply call_keeps in E2 as ->.
  rewrite FastMicroStep.deserialize_saved by done.
  destruct (FastMicroStep.invoke_all _ _ w2) as [[x|[]] w3]; [done|]. by intros ->%call_keeps.
Qed.

Lemma building_read_back c ms d : building c ms d ->
  let state := fst (read_back 0 d) in
  fromJSON (asJSON node_xml d) = inr state /\
  (hasKey state "microstepper" = true /\ hasKey state "url" = true /\ hasKey state "md5" = true) /\
  Data_at state "md5" = Data_atom _md5 VERBATIM /\
  Data_at state "microstepper" = FastMicroStep.serialize (B := B) c ms.
Proof.
  intros [Ho _ _ (Hk1 & Hk2 & Hk3) Hm Hmd] state. split_and!.
  - refine (fromJSON_read node_xml d _ _); [by apply object_ok_jsonable|]. destruct Ho as (cs & -> & _ & _). by destruct cs.
  - apply read_back_at; done.
  - apply read_back_at; done.
  - apply read_back_at; done.
  - destruct (read_back_at d "md5" 0 Ho Hk3) as (_ & i & Hi). unfold state. by rewrite Hi, Hmd, read_back_verbatim.
  - destruct (read_back_at d "microstepper" 0 Ho Hk1) as (_ & i & Hi). unfold state. by rewrite Hi, Hm, read_back_micro.
Qed.

(** C13: a session that is saved in a stable state and restored into another
    session of the same document comes back: if restoring does not fail, the
    stepper has the configuration, the running invocations, the histories and
    the initialised data it had, and is marked as initialised. What the data
    model, the invokers and the queue hold must fit into JSON text. *)
Theorem session_restored c cancelled s s1 text s2 s3 :
  storable s -> (Z.of_nat (n_states c) < 2 ^ 64)%Z ->
  in_range c (_configuration (_microStepper s) ∪ _invocations (_microStepper s) ∪
              _history (_microStepper s) ∪ _initializedData (_microStepper s)) ->
  serialize (B := B) cfg FILE _scxml node_xml _md5 c s = (inr text, s1) ->
  deserialize (B := B) cfg FILE _scxml _md5 c cancelled text s2 = (inr tt, s3) ->
  stable (_state s) = true /\
  _microStepper s3 = set_flags (fun f => Z.lor f USCXML_CTX_INITIALIZED)
    (FastMicroStep.restored (_microStepper s) (_microStepper s2)).
Proof.
  intros Hst Hn Hr. unfold serialize, deserialize, lift_micro.
  destruct (stable (_state s)) eqn:Hs.
  2:{ unfold call, throw_here, low, BasicContentExecutor.call, throw_platform, mbind, M_bind, throw.
      destruct (world s) as [ex [i p]]. destruct (plug _ _) as [[x|u] [i' p']]; by intros. }
  unfold mbind at 1, M_bind at 1.
  destruct (serialized_data _ _ _ _ _) as [[x|d] [ms w]] eqn:Hd; [done|]. cbn [mret M_ret].
  intros [= <- _]. apply serialized_data_ok in Hd as (-> & Hd); [|done].
  destruct (building_read_back _ _ _ Hd) as (Hj & Hk & Hmd & Hm). rewrite Hj.
  destruct (restore_state _ _ _ _ _ _ _ _) as [[x|[]] [ms' w']] eqn:E; intros [= <-]. split; [done|].
  by eapply restore_state_micro in E.
Qed.

End Restored.

(** ** A session that is saved and restored *)

Definition saved_doc : list row := rows
  (Xml "scxml" [("initial", "a")] []
    [Xml "datamodel" [] [] [Xml "data" [("id", "x")] [] []];
     Xml "state" [("id", "a")] [] [Xml "invoke" [("id", "i")] [] []; Xml "transition" [("event", "e"); ("target", "b")] [] []];
     Xml "state" [("id", "b")] [] []]).

Definition saved_chart : Chart nat := compiled saved_doc.
#[local] Instance saved_dom : DomOps nat := table_dom saved_doc.
#[local] Existing Instances toy_content toy_plugins toy_platform.
#[local] Instance toy_invokers : InvokerState unit := {|
  invoker_serialize _ := mret (Data_atom "running" VERBATIM);
  invoker_deserialize _ _ := mret tt;
|}.

Definition fresh_session : Session (node := nat) (P := unit) := new_session tt.
Definition run_steps (k : nat) : Session (node := nat) (P := unit) :=
  Nat.iter k (fun s => snd (step toy_config id saved_chart false 0 s)) fresh_session.

Definition save (s : Session (node := nat) (P := unit)) := serialize (B := Bits) toy_config id 0 (fun _ => ""%string) "MD5" saved_chart s.
Definition load (text : string) (s : Session (node := nat) (P := unit)) := deserialize (B := Bits) toy_config id 0 "MD5" saved_chart false text s.


Definition saved_text : string := match fst (save (run_steps 4)) with inr text => text | inl _ => "" end.

Lemma toy_value_jsonable p v p' : toy_data "x" p = (inr v, p') -> jsonable v = true.
Proof. unfold toy_data. cbn. by intros [= <- _]. Qed.

Lemma saved_storable : storable toy_config 0 "MD5" (run_steps 4).
Proof.
  assert (Hd : elements 0 "data" = [2]) by (by vm_compute).
  assert (Hi : elements 0 "invoke" = [4]) by (by vm_compute).
  assert (Hx : ATTR 2 "id" = "x"%string) by (by vm_compute).
  assert (Hq : _externalQueue (fst (snd (world (run_steps 4)))) = []) by (by vm_compute).
  assert (Hq' : BasicDelayedEventQueue._queue (_delayQueue (fst (snd (world (run_steps 4))))) = []) by (by vm_compute).
  generalize dependent (run_steps 4). intros s Hq Hq'. split; [done|done| | | | | |exact Hq'].
  - intros e. rewrite Hd. intros ->%list_elem_of_singleton. by rewrite Hx.
  - intros e. rewrite Hi. intros ->%list_elem_of_singleton. by vm_compute.
  - intros e inState p v p'. rewrite Hd. intros ->%list_elem_of_singleton. rewrite Hx. apply toy_value_jsonable.
  - intros h p v p'. unfold invoker_serialize, toy_invokers. intros He. by injection He as <- _.
  - intros e He. rewrite Hq in He. destruct (not_elem_of_nil _ He).
Qed.

Definition saved_sets (s : Session (node := nat) (P := unit)) : gset nat :=
  _configuration (_microStepper s) ∪ _invocations (_microStepper s) ∪
  _history (_microStepper s) ∪ _initializedData (_microStepper s).

Lemma session_restored_witness :
  fst (load saved_text fresh_session) = inr tt /\
  _configuration (_microStepper (snd (load saved_text fresh_session))) = {[0; 1]}.
Proof.
  assert (Hsave : fst (save (run_steps 4)) = inr saved_text) by (by vm_compute).
  assert (Hload : fst (load saved_text fresh_session) = inr tt) by (by vm_compute).
  assert (Hsets : bool_decide (set_Forall (fun i => i < 3) (saved_sets (run_steps 4))) = true) by (by vm_compute).
  assert (Hn : bool_decide (n_states saved_chart = 3) = true) by (by vm_compute).
  assert (Hconf : bool_decide (_configuration (_microStepper (run_steps 4)) = {[0; 1]}) = true) by (by vm_compute).
  apply bool_decide_eq_true in Hsets, Hn, Hconf. pose proof saved_storable as Hst. split; [exact Hload|].
  rewrite <- Hconf. revert Hsets Hst Hsave Hload. generalize (run_steps 4) as s, fresh_session as s2, saved_text as text.
  intros s s2 text Hsets Hst Hsave Hload. unfold save, load in *.
  destruct (serialize _ _ _ _ _ _ s) as [r1 s1] eqn:E1. destruct (deserialize _ _ _ _ _ _ _ s2) as [r2 s3] eqn:E2.
  cbn [fst snd] in *. subst r1 r2.
  destruct (session_restored (B := Bits) toy_config id 0 (fun _ => ""%string) "MD5" saved_chart false s s1 text s2 s3)
    as (_ & ->); [exact Hst|rewrite Hn; done|intros i Hi; rewrite Hn; exact (Hsets i Hi)|exact E1|exact E2|].
  reflexivity.
Defined.

End SessionState.
