(* ===== verification/Issue.v ===== *)
(** * Validation of a document: [InterpreterIssue]

    [InterpreterIssue::forInterpreter] of [debug/InterpreterIssue.cpp] collects
    the issues of a document check by check, in the order of the code. What it
    asks the factory and the data model is the record [Surroundings]. *)

From stdpp Require Import base list gmap strings sorting.
From S2P Require Import Prelude Strings Dom Predicates.

Local Open Scope nat_scope.

Module InterpreterIssue.

Inductive IssueSeverity := USCXML_ISSUE_FATAL | USCXML_ISSUE_WARNING | USCXML_ISSUE_INFO.

#[export] Instance IssueSeverity_eq_dec : EqDecision IssueSeverity.
Proof. solve_decision. Defined.

Record Issue (node : Type) := mkIssue {
  xPath : string;
  message : string;
  issue_node : node;
  severity : IssueSeverity;
}.
Arguments mkIssue {node}. Arguments xPath {node}. Arguments message {node}.
Arguments issue_node {node}. Arguments severity {node}.

(** Further accessors of DOM nodes: the namespace, the number of child nodes
    of any type, and the address, by which [std::map<DOMElement*, T>] orders. *)
Class IssueDom (node : Type) := {
  getNamespaceURI : node -> string;
  childNodes : node -> nat;
  address : node -> positive;
}.

(** The interpreter's plugins: what the factory knows, the invokers and I/O
    processors that are instantiated, and the data model in effect. *)
Record Surroundings := mkSurroundings {
  hasInvoker : string -> bool;
  hasIOProcessor : string -> bool;
  hasExecutableContent : string -> string -> bool;
  hasDataModel : string -> bool;
  invokers : gset string;
  ioProcs : gset string;
  dataModel : bool;
  isValidExprSyntax : string -> bool;
  isValidScriptSyntax : string -> bool;
}.

(** The order of the keys of a map by addresses. *)
Definition key_le {V} (x y : positive * V) : Prop := (fst x <= fst y)%positive.
#[export] Instance key_le_dec {V} (x y : positive * V) : Decision (key_le x y).
Proof. unfold key_le. apply _. Defined.

Section Issues.
Context {node : Type} `{Countable node} {D : DomOps node} {ID : IssueDom node} (env : Surroundings).

Definition issue (severity : IssueSeverity) (message : string) (n : node) : Issue node :=
  mkIssue (xPathForNode n "") message n severity.
Definition fatal : string -> node -> Issue node := issue USCXML_ISSUE_FATAL.
Definition warning : string -> node -> Issue node := issue USCXML_ISSUE_WARNING.
Definition info : string -> node -> Issue node := issue USCXML_ISSUE_INFO.
Definition when_ (b : bool) (i : Issue node) : list (Issue node) := if b then [i] else [].

(** ** Collecting the elements *)

Abbreviation NodeSets := (gmap string (list node)).

Definition insert_node (sets : NodeSets) (child : node) : NodeSets :=
  <[getLocalName child := default [] (sets !! getLocalName child) ++ [child]]> sets.

Fixpoint assembleNodeSets_fuel (fuel : nat) (nsPrefix : string) (n : node) (sets : NodeSets) : NodeSets :=
  match fuel with
  | 0 => sets
  | S fuel =>
      foldl (fun sets childElem =>
        assembleNodeSets_fuel fuel nsPrefix childElem
          (if String.prefix nsPrefix (getTagName childElem) then insert_node sets childElem else sets))
        sets (childElements n)
  end.

Definition assembleNodeSets (nsPrefix : string) (n : node) : NodeSets :=
  assembleNodeSets_fuel (nodeSize n) nsPrefix n ∅.

(** ** Configurations below a state *)

Definition combine (existing nested : list (gset node)) : list (gset node) :=
  flat_map (fun existingConfig => (fun newConfig => existingConfig ∪ newConfig) <$> nested) existing.

(** Here the prefix is used without its colon. *)
Definition nested_state (root child : node) : bool :=
  let nsPrefix := default ""%string (getPrefix root) in
  iequals (getTagName child) (nsPrefix +:+ "state") ||
  iequals (getTagName child) (nsPrefix +:+ "parallel") ||
  iequals (getTagName child) (nsPrefix +:+ "final").

Fixpoint getAllConfigurations_fuel (fuel : nat) (root : node) : list (gset node) :=
  match fuel with
  | 0 => []
  | S fuel =>
      let localName := getLocalName root in
      match List.filter (nested_state root) (childElements root) with
      | [] => [{[root]}]
      | children =>
          foldl (fun allConfigurations childElem =>
            let nestedConfigurations := getAllConfigurations_fuel fuel childElem in
            if String.eqb localName "parallel" && (0 <? length allConfigurations)
            then combine allConfigurations nestedConfigurations
            else allConfigurations ++
              ((fun newConfig => if String.eqb localName "scxml" then newConfig else {[root]} ∪ newConfig)
                 <$> nestedConfigurations)) [] children
      end
  end.

Definition getAllConfigurations (root : node) : list (gset node) :=
  getAllConfigurations_fuel (S (nodeSize root)) root.

(** ** Can states be active together? *)

Definition related (s1 s2 : node) : bool :=
  isDescendant (Some s1) (Some s2) || isDescendant (Some s2) (Some s1) ||
  existsb (fun parent => isDescendant (Some s2) (Some parent) && isParallel parent) (parents s1).

Fixpoint hasLegalCompletion (states : list node) : bool :=
  match states with
  | [] => true
  | s1 :: rest => forallb (related s1) rest && hasLegalCompletion rest
  end.

(** ** The checks *)

Section Checks.
Context (scxml : node) (xmlNSPrefix : string).
Let nodeSets : NodeSets := assembleNodeSets xmlNSPrefix scxml.

Definition elements_named (name : string) : list node := default [] (nodeSets !! name).

Definition scxmls : list node := elements_named "scxml" ++ [scxml].
Definition transitions : list node := elements_named "transition".
Definition initials : list node := elements_named "initial".
Definition histories : list node := elements_named "history".
Definition allStates : list node :=
  elements_named "state" ++ elements_named "parallel" ++ histories ++ elements_named "final".
Definition allExecContents : list node :=
  flat_map elements_named
    ["raise"; "if"; "elseif"; "else"; "foreach"; "log"; "send"; "assign"; "script"; "cancel"]%string.
Definition allElements : list node :=
  scxmls ++ allStates ++ allExecContents ++
  flat_map elements_named
    ["transition"; "initial"; "onentry"; "onexit"; "datamodel"; "data"; "donedata"; "content"; "param";
     "invoke"; "finalize"]%string.

(** "[name]: " of the machine an element belongs to. *)
Definition sInterpreter (n : node) : string :=
  match getScxmlNode n with
  | Some root => if HAS_ATTR root "name" then ("[" +:+ ATTR root "name" +:+ "]: ")%string else ""%string
  | None => ""%string
  end.

Definition transitions_of (state : node) : list node :=
  filterChildElements (XML_PREFIX state +:+ "transition") state false.

Definition history_target (state transition target : node) : list (Issue node) :=
  let stateId := ATTR state "id" in
  if HAS_ATTR state "type" && String.eqb (ATTR state "type") "deep" then
    when_ (negb (isDescendant (Some target) (getParentNode state)))
      (fatal (sInterpreter state +:+ "Transition in deep history pseudo-state '" +:+ stateId +:+
        "' has illegal target state '" +:+ ATTR target "id" +:+ "'") transition)
  else
    when_ (negb (bool_decide (getParentNode target = getParentNode state)))
      (fatal (sInterpreter state +:+ "Transition in shallow history pseudo-state '" +:+ stateId +:+
        "' has illegal target state '" +:+ ATTR target "id" +:+ "'") transition).

Definition history_issues (state : node) : list (Issue node) :=
  let stateId := ATTR state "id" in
  match transitions_of state with
  | [] => [fatal (sInterpreter state +:+ "History pseudo-state with id '" +:+ stateId +:+
             "' has no default transition") state]
  | [transition] =>
      when_ (HAS_ATTR transition "cond") (fatal (sInterpreter state +:+ "Transition in history pseudo-state '" +:+
        stateId +:+ "' must not have a condition") transition) ++
      when_ (HAS_ATTR transition "event") (fatal (sInterpreter state +:+ "Transition in history pseudo-state '" +:+
        stateId +:+ "' must not have an event attribute") transition) ++
      (if HAS_ATTR transition "target"
       then flat_map (history_target state transition) (getTargetStates transition scxml)
       else [fatal (sInterpreter state +:+ "Transition in history pseudo-state '" +:+ stateId +:+
               "' has no target") transition])
  | _ => [fatal (sInterpreter state +:+ "History pseudo-state with id '" +:+ stateId +:+
            "' has multiple transitions") state]
  end.

Abbreviation Seen := (gmap string node).

(** [reachable] maps every machine to its reachable states. *)
Definition state_issues (reachable : node -> option (list node)) (state : node) (seen : Seen)
    : list (Issue node) * Seen :=
  let s := sInterpreter state in
  let stateId := ATTR state "id" in
  if isMember state (elements_named "final") && negb (HAS_ATTR state "id") then ([], seen)
  else if negb (HAS_ATTR state "id") then ([fatal (s +:+ "State has no 'id' attribute") state], seen)
  else if String.eqb stateId "" then ([fatal (s +:+ "State has empty 'id' attribute") state], seen)
  else
    let hist := if String.eqb (getLocalName state) "history" then history_issues state else [] in
    let unreachable :=
      match getScxmlNode state ≫= reachable with
      | Some l => when_ (negb (isMember state l))
                    (warning (s +:+ "State with id '" +:+ stateId +:+ "' is unreachable") state)
      | None => []
      end in
    match seen !! stateId with
    | Some other =>
        if areFromSameMachine other state
        then (hist ++ unreachable ++ [fatal (s +:+ "Duplicate state with id '" +:+ stateId +:+ "'") state], seen)
        else (hist ++ unreachable, <[stateId := state]> seen)
    | None => (hist ++ unreachable, <[stateId := state]> seen)
    end.

Definition states_issues (reachable : node -> option (list node)) : list (Issue node) * Seen :=
  foldl (fun '(issues, seen) state =>
    let '(new, seen) := state_issues reachable state seen in (issues ++ new, seen)) ([], ∅) allStates.

Definition target_issues (seen : Seen) (transition : node) : list (Issue node) :=
  if HAS_ATTR transition "target" then
    let targetIds := tokenize (ATTR transition "target") in
    when_ (length targetIds =? 0)
      (fatal (sInterpreter transition +:+ "Transition has empty target state list") transition) ++
    flat_map (fun targetId => when_ (bool_decide (seen !! targetId = None))
      (fatal (sInterpreter transition +:+ "Transition has non-existant target state with id '" +:+
        targetId +:+ "'") transition)) targetIds
  else [].

(** Is a transition never selected because of an earlier one? *)
Definition preempted_by (transition earlier : node) : bool :=
  negb (HAS_ATTR earlier "cond") &&
  (negb (HAS_ATTR earlier "event") ||
   (HAS_ATTR transition "event" &&
    forallb (fun event => nameMatch (ATTR earlier "event") event) (tokenize (ATTR transition "event")))).

Fixpoint redundant (earlier ts : list node) : list (Issue node) :=
  match ts with
  | [] => []
  | t :: ts =>
      when_ (existsb (preempted_by t) earlier) (info "Transition can never be optimally enabled" t) ++
      redundant (earlier ++ [t]) ts
  end.

Definition redundancy_issues : list (Issue node) :=
  flat_map (fun state => redundant [] (transitions_of state)) allStates.

Definition useless_history (history : node) : list (Issue node) :=
  match getParentNode history with
  | None => []
  | Some parent =>
      if isAtomic parent
      then [info ("Useless history '" +:+ ATTR history "id" +:+ "' in atomic state") history]
      else when_ (length (getAllConfigurations parent) <=? 1)
             (info ("Useless history '" +:+ ATTR history "id" +:+ "' in state with single legal configuration") history)
  end.

Definition descendant_states (state : node) : list node :=
  flat_map (fun name => filterChildElements (XML_PREFIX state +:+ name) state true)
    ["state"; "parallel"; "final"; "history"]%string.

Definition initial_attr_issues (seen : Seen) (state : node) : list (Issue node) :=
  if HAS_ATTR state "initial" then
    flat_map (fun i =>
      match seen !! i with
      | None => [fatal ("Initial attribute has invalid target state with id '" +:+ i +:+ "'") state]
      | Some s => when_ (negb (isMember s (descendant_states state)))
                    (fatal ("Initial attribute references non-child state '" +:+ i +:+ "'") state)
      end) (tokenize (ATTR state "initial"))
  else [].

(** *** Sets of targets *)

Definition with_attr (attr : string) (l : list node) : list (node * string) :=
  omap (fun n => if HAS_ATTR n attr then Some (n, ATTR n attr) else None) l.

Definition targetIdSets : list (node * string) :=
  let m : gmap positive (node * string) :=
    foldl (fun m '(n, s) => <[address n := (n, s)]> m) ∅
      (with_attr "target" transitions ++ with_attr "target" initials ++ with_attr "initial" allStates) in
  snd <$> merge_sort key_le (map_to_list m).

Definition legal_set_issues (seen : Seen) (entry : node * string) : list (Issue node) :=
  match mapM (fun i => seen !! i) (tokenize (snd entry)) with
  | Some targets => when_ (negb (hasLegalCompletion targets))
                      (fatal "Target states cause illegal configuration" (fst entry))
  | None => []
  end.

(** *** Initial elements *)

Definition initial_transitions (initial : node) : list node :=
  filterChildElements (XML_PREFIX initial +:+ "transition") initial true.

Definition initial_count_issues (initial : node) : list (Issue node) :=
  when_ (negb (length (initial_transitions initial) =? 1))
    (fatal "Initial element must define exactly one transition" initial).

Definition initial_transition_issues (seen : Seen) (transition : node) : list (Issue node) :=
  when_ (HAS_ATTR transition "cond") (fatal "Initial transition cannot have a condition" transition) ++
  when_ (HAS_ATTR transition "event") (fatal "Initial transition cannot be eventful" transition) ++
  match getParentNode transition ≫= getParentNode with
  | Some state =>
      if isState state true then
        flat_map (fun i =>
          when_ (match seen !! i with Some s => negb (isMember s (descendant_states state)) | None => true end)
            (fatal ("Target of initial transition references non-child state '" +:+ i +:+ "'") transition))
          (tokenize (ATTR transition "target"))
      else []
  | None => []
  end.

(** *** Plugins *)

Definition invoker_issues (invoke : node) : list (Issue node) :=
  if HAS_ATTR invoke "type" && negb (hasInvoker env (ATTR invoke "type")) then
    if HAS_ATTR invoke "id" && bool_decide (ATTR invoke "id" ∈ invokers env) then []
    else [issue (if HAS_ATTR invoke "idlocation" then USCXML_ISSUE_WARNING else USCXML_ISSUE_FATAL)
            ("Invoke with unknown type '" +:+ ATTR invoke "type" +:+ "'") invoke]
  else [].

Definition ioprocessor_issues (send : node) : list (Issue node) :=
  when_ (HAS_ATTR send "type" && negb (hasIOProcessor env (ATTR send "type")) &&
         negb (bool_decide (ATTR send "type" ∈ ioProcs env)))
    (fatal ("Send to unknown IO Processor '" +:+ ATTR send "type" +:+ "'") send).

Definition content_issues (block : node) : list (Issue node) :=
  flat_map (fun execContent =>
    when_ (negb (isMember execContent allExecContents) &&
           negb (hasExecutableContent env (getLocalName execContent) (getNamespaceURI execContent)))
      (fatal ("Executable content element '" +:+ getLocalName execContent +:+ "' in namespace '" +:+
        getNamespaceURI execContent +:+ "' unknown") execContent)) (childElements block).

(** *** Parents and required attributes *)

Definition execContentSet : list string :=
  ["if"; "elseif"; "else"; "foreach"; "raise"; "send"; "cancel"; "assign"; "script"; "log"]%string.

Definition reqAttr (localName : string) : list string :=
  match localName with
  | "scxml" => ["version"; "xmlns"]
  | "raise" => ["event"]
  | "if" | "elseif" => ["cond"]
  | "foreach" => ["array"; "item"]
  | "data" => ["id"]
  | "assign" => ["location"]
  | "param" => ["name"]
  | _ => []
  end%string.

Definition validChildren : list (string * list string) := [
  ("scxml", ["state"; "parallel"; "final"; "datamodel"; "script"]);
  ("state", ["onentry"; "onexit"; "transition"; "state"; "parallel"; "history"; "datamodel"; "invoke";
             "initial"; "final"]);
  ("parallel", ["onentry"; "onexit"; "transition"; "state"; "parallel"; "history"; "datamodel"; "invoke"]);
  ("transition", execContentSet); ("onentry", execContentSet); ("onexit", execContentSet);
  ("finalize", execContentSet); ("if", execContentSet); ("elseif", execContentSet);
  ("else", execContentSet); ("foreach", execContentSet);
  ("initial", ["transition"]); ("history", ["transition"]);
  ("final", ["onentry"; "onexit"; "donedata"]);
  ("datamodel", ["data"]); ("donedata", ["content"; "param"]); ("send", ["content"; "param"]);
  ("invoke", ["content"; "param"; "finalize"])]%string.

Definition validParents (localName : string) : list string :=
  omap (fun '(parent, children) => if bool_decide (localName ∈ children) then Some parent else None)
    validChildren.

Definition attribute_issues (element : node) : list (Issue node) :=
  let localName := getLocalName element in
  flat_map (fun attr =>
    when_ (negb (HAS_ATTR element attr)) (warning ("Element " +:+ localName +:+
      " is missing required attribute '" +:+ attr +:+ "'") element) ++
    when_ (HAS_ATTR element attr && String.eqb (ATTR element attr) "") (warning ("Required attribute '" +:+
      attr +:+ "' of element " +:+ localName +:+ " is empty") element)) (reqAttr localName).

Definition parent_issues (element : node) : list (Issue node) :=
  let localName := getLocalName element in
  if String.eqb localName "scxml" then []
  else match getParentNode element with
       | None => [warning ("Parent of " +:+ localName +:+ " is no element") element]
       | Some parent =>
           when_ (negb (bool_decide (getLocalName parent ∈ validParents localName)))
             (warning ("Element " +:+ localName +:+ " can be no child of " +:+ getLocalName parent) element)
       end.

(** *** Constraints on attributes *)

Definition not_both (a b message : string) (n : node) : list (Issue node) :=
  when_ (HAS_ATTR n a && HAS_ATTR n b) (warning message n).

Definition children_named (name : string) (n : node) : list node :=
  filterChildElements (XML_PREFIX n +:+ name) n false.
Definition some_child (name : string) (n : node) : bool := 0 <? length (children_named name n).

Definition initial_constraints (initial : node) : list (Issue node) :=
  match getParentNode initial with
  | Some state =>
      when_ (HAS_ATTR state "initial") (warning "State with initial attribute cannot have <initial> child " state) ++
      when_ (isAtomic state) (warning "Atomic state cannot have <initial> child " state)
  | None => []
  end.

Definition atomic_constraints (state : node) : list (Issue node) :=
  when_ (isAtomic state && HAS_ATTR state "initial") (warning "Atomic state cannot have initial attribute " state).

Definition childless (attr message : string) (n : node) : list (Issue node) :=
  when_ (HAS_ATTR n attr && (0 <? childNodes n)) (warning message n).

Definition send_constraints (send : node) : list (Issue node) :=
  not_both "event" "eventexpr" "Send element cannot have both event and eventexpr attribute" send ++
  not_both "target" "targetexpr" "Send element cannot have both target and targetexpr attribute" send ++
  not_both "type" "typeexpr" "Send element cannot have both type and typeexpr attribute" send ++
  not_both "id" "idlocation" "Send element cannot have both id and idlocation attribute" send ++
  not_both "delay" "delayexpr" "Send element cannot have both delay and delayexpr attribute" send ++
  when_ (HAS_ATTR send "delay" && HAS_ATTR send "target" && String.eqb (ATTR send "target") "_internal")
    (warning "Send element cannot have delay with target _internal" send) ++
  when_ (HAS_ATTR send "namelist" && some_child "content" send)
    (warning "Send element cannot have namelist attribute and content child" send) ++
  when_ (some_child "param" send && some_child "content" send)
    (warning "Send element cannot have param child and content child" send).

Definition cancel_constraints : node -> list (Issue node) :=
  not_both "sendid" "sendidexpr" "Cancel element cannot have both sendid and eventexpr sendidexpr".

Definition invoke_constraints (invoke : node) : list (Issue node) :=
  not_both "type" "typeexpr" "Invoke element cannot have both type and typeexpr attribute" invoke ++
  not_both "src" "srcexpr" "Invoke element cannot have both src and srcexpr attribute" invoke ++
  not_both "id" "idlocation" "Invoke element cannot have both id and idlocation attribute" invoke ++
  when_ (HAS_ATTR invoke "namelist" && some_child "param" invoke)
    (warning "Invoke element cannot have namelist attribute and param child" invoke) ++
  when_ (HAS_ATTR invoke "src" && some_child "content" invoke)
    (warning "Invoke element cannot have src attribute and content child" invoke).

Definition donedata_constraints (donedata : node) : list (Issue node) :=
  when_ (some_child "content" donedata && some_child "param" donedata)
    (warning "Donedata element cannot have param child and content child" donedata).

Definition constraint_issues : list (Issue node) :=
  flat_map initial_constraints initials ++
  flat_map atomic_constraints allStates ++
  flat_map (childless "expr" "Assign element cannot have expr attribute and children") (elements_named "assign") ++
  flat_map (childless "expr" "Content element cannot have expr attribute and children") (elements_named "content") ++
  flat_map (not_both "expr" "location" "Param element cannot have both expr and location attribute")
    (elements_named "param") ++
  flat_map (childless "src" "Script element cannot have src attribute and children") (elements_named "script") ++
  flat_map send_constraints (elements_named "send") ++
  flat_map cancel_constraints (elements_named "cancel") ++
  flat_map invoke_constraints (elements_named "invoke") ++
  flat_map donedata_constraints (elements_named "donedata").

(** *** Syntax, as the data model sees it *)

Definition bad_expr (attr : string) (n : node) : bool :=
  HAS_ATTR n attr && negb (isValidExprSyntax env (ATTR n attr)).

Definition syntax_issue (attr : string) (n : node) : list (Issue node) :=
  when_ (bad_expr attr n) (warning ("Syntax error in " +:+ attr +:+ " attribute") n).

(** Only the first error of an element is reported. *)
Definition first_syntax_issue (attrs : list string) (n : node) : list (Issue node) :=
  match List.find (fun attr => bad_expr attr n) attrs with
  | Some attr => [warning ("Syntax error in " +:+ attr +:+ " attribute") n]
  | None => []
  end.

Definition script_syntax (script : node) : list (Issue node) :=
  when_ ((0 <? childNodes script) &&
         negb (isValidScriptSyntax env (foldr (fun a b => a +:+ b)%string ""%string (textChildren script))))
    (warning "Syntax error in script" script).

Definition syntax_issues : list (Issue node) :=
  flat_map script_syntax (elements_named "script") ++
  flat_map (syntax_issue "cond") (transitions ++ elements_named "if" ++ elements_named "elseif") ++
  flat_map (syntax_issue "expr") (flat_map elements_named ["log"; "data"; "assign"; "content"; "param"]%string) ++
  flat_map (fun foreach => flat_map (fun attr => syntax_issue attr foreach) ["array"; "item"; "index"]%string)
    (elements_named "foreach") ++
  flat_map (fun send => flat_map (fun attr => syntax_issue attr send)
    ["eventexpr"; "targetexpr"; "typeexpr"; "idlocation"; "delayexpr"]%string) (elements_named "send") ++
  flat_map (first_syntax_issue ["typeexpr"; "srcexpr"; "idlocation"]%string) (elements_named "invoke") ++
  flat_map (syntax_issue "sendidexpr") (elements_named "cancel").

(** *** All checks *)

Definition structure_issues (seen : Seen) : list (Issue node) :=
  flat_map (target_issues seen) transitions ++
  redundancy_issues ++
  flat_map useless_history histories ++
  flat_map (initial_attr_issues seen) (allStates ++ [scxml]) ++
  flat_map (legal_set_issues seen) targetIdSets ++
  flat_map initial_count_issues initials ++
  flat_map (initial_transition_issues seen) (flat_map initial_transitions initials) ++
  flat_map invoker_issues (elements_named "invoke") ++
  flat_map ioprocessor_issues (elements_named "send") ++
  flat_map content_issues
    (elements_named "onentry" ++ elements_named "onexit" ++ transitions ++ elements_named "finalize") ++
  flat_map (fun element => attribute_issues element ++ parent_issues element) allElements ++
  constraint_issues.

(** [None]: [getReachableStates] dereferences a null pointer. *)
Definition reachable_sets : option (gmap node (list node)) :=
  foldl (fun m s => m ← m; l ← getReachableStates s; Some (<[s := l]> m)) (Some ∅) scxmls.

Definition forInterpreter : option (list (Issue node)) :=
  reachable ← reachable_sets;
  let '(issues, seen) := states_issues (fun root => reachable !! root) in
  let issues := issues ++ structure_issues seen in
  if negb (dataModel env) && HAS_ATTR scxml "datamodel" && negb (hasDataModel env (ATTR scxml "datamodel"))
  then Some (issues ++ [fatal ("SCXML document requires unknown datamodel '" +:+ ATTR scxml "datamodel" +:+ "'") scxml])
  else Some (issues ++ syntax_issues).

End Checks.
End Issues.

End InterpreterIssue.
