(* ===== verification/IssueTheorems.v ===== *)
(** * What validation establishes

    The configurations that are enumerated below a state, the test for target
    sets, and what a document without fatal issues is known to satisfy; then
    documents whose problems escape or crash the validation. *)

From stdpp Require Import base list gmap strings sorting.
From S2P Require Import Prelude Strings Dom Predicates Data Chart Effects MicroStep StepLemmas Recorder Legal Complete Issue.
Import InterpreterIssue.

Local Open Scope nat_scope.

(** ** Configurations *)

Section Configurations.
Context {node : Type} `{Countable node} {D : DomOps node} {DL : DomLaws node}.

Abbreviation nested r := (List.filter (nested_state r) (childElements r)).

(** The sets of states below and with [r] that can be active together. *)
Inductive configuration : node -> gset node -> Prop :=
| conf_atomic r : nested r = [] -> configuration r {[r]}
| conf_compound r ch C : getLocalName r <> "parallel"%string -> ch ∈ nested r -> configuration ch C ->
    configuration r (if String.eqb (getLocalName r) "scxml" then C else {[r]} ∪ C)
| conf_parallel r Cs : getLocalName r = "parallel"%string -> nested r <> [] ->
    Forall2 configuration (nested r) Cs -> configuration r ({[r]} ∪ ⋃ Cs).

Lemma configuration_inv r C : configuration r C ->
  (nested r = [] /\ C = {[r]}) \/
  (getLocalName r <> "parallel"%string /\ exists ch C', ch ∈ nested r /\ configuration ch C' /\
     C = if String.eqb (getLocalName r) "scxml" then C' else {[r]} ∪ C') \/
  (getLocalName r = "parallel"%string /\ nested r <> [] /\ exists Cs, Forall2 configuration (nested r) Cs /\ C = {[r]} ∪ ⋃ Cs).
Proof. destruct 1; [by left|right; left; eauto 6|right; right; eauto]. Qed.

Lemma elem_of_combine existing nested (C : gset node) :
  C ∈ combine existing nested <-> exists C1 C2, C1 ∈ existing /\ C2 ∈ nested /\ C = C1 ∪ C2.
Proof.
  unfold combine. rewrite elem_of_flat_map. setoid_rewrite list_elem_of_fmap. naive_solver.
Qed.

Section Fold.
Context (conf : node -> list (gset node)) (r : node).

(** One child of [root], as the code combines it. *)
Definition add_child (all : list (gset node)) (ch : node) : list (gset node) :=
  if String.eqb (getLocalName r) "parallel" && (0 <? length all)
  then combine all (conf ch)
  else all ++ ((fun C => if String.eqb (getLocalName r) "scxml" then C else {[r]} ∪ C) <$> conf ch).

Lemma add_children_compound children : forall all C, String.eqb (getLocalName r) "parallel" = false ->
  C ∈ foldl add_child all children <-> C ∈ all \/
    exists ch C', ch ∈ children /\ C' ∈ conf ch /\ C = if String.eqb (getLocalName r) "scxml" then C' else {[r]} ∪ C'.
Proof.
  induction children as [|ch children IH]; intros all C Hp; cbn [foldl].
  { split; [by left|]. intros [?|(ch & _ & Hc & _)]; [done|by apply elem_of_nil in Hc]. }
  rewrite IH by done. unfold add_child. rewrite Hp. cbn [andb]. rewrite elem_of_app, list_elem_of_fmap.
  setoid_rewrite elem_of_cons. naive_solver.
Qed.

Lemma combine_nonempty (l1 l2 : list (gset node)) : l1 <> [] -> l2 <> [] -> combine l1 l2 <> [].
Proof. by destruct l1, l2. Qed.

Lemma add_children_parallel children : forall all C, String.eqb (getLocalName r) "parallel" = true ->
  all <> [] -> (forall ch, ch ∈ children -> conf ch <> []) ->
  foldl add_child all children <> [] /\
  (C ∈ foldl add_child all children <->
    exists C0 Cs, C0 ∈ all /\ Forall2 (fun ch C' => C' ∈ conf ch) children Cs /\ C = C0 ∪ ⋃ Cs).
Proof.
  induction children as [|ch children IH]; intros all C Hp Hall Hne; cbn [foldl].
  { split; [done|]. split.
    - intros HC. exists C, []. split_and!; [done|constructor|]. cbn. by rewrite (right_id_L ∅ (∪)).
    - intros (C0 & Cs & HC & ->%Forall2_nil_inv_l & ->). cbn. by rewrite (right_id_L ∅ (∪)). }
  assert (Hstep : add_child all ch = combine all (conf ch)).
  { unfold add_child. rewrite Hp. by destruct all. }
  rewrite Hstep. destruct (IH (combine all (conf ch)) C Hp) as [Hn ->].
  { apply combine_nonempty; [done|]. apply Hne. by left. }
  { intros ch' Hch'. apply Hne. by right. }
  split; [done|]. split.
  - intros (C0 & Cs & (C1 & C2 & H1 & H2 & ->)%elem_of_combine & HCs & ->).
    exists C1, (C2 :: Cs). split_and!; [done|by constructor|]. cbn. by rewrite (assoc_L (∪)).
  - intros (C0 & Cs & H0 & (C2 & Cs' & H2 & HCs & ->)%Forall2_cons_inv_l & ->).
    exists (C0 ∪ C2), Cs'. split_and!; [apply elem_of_combine; eauto|done|]. cbn. by rewrite (assoc_L (∪)).
Qed.

End Fold.

Lemma nested_smaller r ch : ch ∈ nested r -> nodeSize ch < nodeSize r.
Proof.
  intros [Hch _]%elem_of_List_filter. pose proof (dom_size r). pose proof (list_sum_elem nodeSize _ _ Hch). lia.
Qed.

(** A parallel state: one configuration of every child. *)
Lemma parallel_configurations conf r C : String.eqb (getLocalName r) "parallel" = true -> nested r <> [] ->
  (forall ch, ch ∈ nested r -> conf ch <> []) ->
  foldl (add_child conf r) [] (nested r) <> [] /\
  (C ∈ foldl (add_child conf r) [] (nested r) <->
    exists Cs, Forall2 (fun ch C' => C' ∈ conf ch) (nested r) Cs /\ C = {[r]} ∪ ⋃ Cs).
Proof.
  intros Hp Hne Hconf. destruct (nested r) as [|c1 cs]; [done|]. cbn [foldl].
  assert (H1 : add_child conf r [] c1 = (fun C => {[r]} ∪ C) <$> conf c1).
  { unfold add_child. cbn [length Nat.ltb Nat.leb]. rewrite andb_false_r. cbn [app].
    apply String.eqb_eq in Hp. by rewrite Hp. }
  rewrite H1. destruct (add_children_parallel conf r cs ((fun C => {[r]} ∪ C) <$> conf c1) C Hp) as [Hn ->].
  { specialize (Hconf c1 ltac:(by left)). by destruct (conf c1). }
  { intros ch Hch. apply Hconf. by right. }
  split; [done|]. split.
  - intros (C0 & Cs & (C1 & -> & HC1)%list_elem_of_fmap & HCs & ->). exists (C1 :: Cs).
    split; [by constructor|]. cbn. by rewrite (assoc_L (∪)).
  - intros (Cs & (C1 & Cs' & HC1 & HCs & ->)%Forall2_cons_inv_l & ->).
    exists ({[r]} ∪ C1), Cs'. split_and!; [|done|].
    + apply list_elem_of_fmap. eauto.
    + cbn. by rewrite (assoc_L (∪)).
Qed.

Lemma Forall2_ext {A B} (P Q : A -> B -> Prop) l k :
  (forall x y, x ∈ l -> P x y <-> Q x y) -> Forall2 P l k <-> Forall2 Q l k.
Proof.
  intros HPQ. revert k. induction l as [|x l IH]; intros k.
  - split; inversion 1; constructor.
  - destruct k as [|y k]; [split; inversion 1|]. rewrite !Forall2_cons.
    rewrite (HPQ x y) by by left. rewrite IH; [done|]. intros ? ? ?. apply HPQ. by right.
Qed.

Lemma configurations_fuel fuel : forall r, nodeSize r < fuel ->
  getAllConfigurations_fuel fuel r <> [] /\
  forall C, C ∈ getAllConfigurations_fuel fuel r <-> configuration r C.
Proof.
  induction fuel as [|fuel IH]; intros r Hr; [lia|]. cbn [getAllConfigurations_fuel].
  fold (add_child (getAllConfigurations_fuel fuel) r).
  assert (Hch : forall ch, ch ∈ nested r -> getAllConfigurations_fuel fuel ch <> [] /\
    forall C, C ∈ getAllConfigurations_fuel fuel ch <-> configuration ch C).
  { intros ch Hc. apply IH. pose proof (nested_smaller r ch Hc). lia. }
  destruct (nested r) as [|c1 cs] eqn:Hn.
  { split; [done|]. intros C. rewrite list_elem_of_singleton. split; [intros ->; by constructor|].
    intros [[_ ?]|[(_ & ch & C' & Hc & _)|(_ & Hne & _)]]%configuration_inv; [done| |].
    - rewrite Hn in Hc. by apply elem_of_nil in Hc.
    - by rewrite Hn in Hne. }
  rewrite <- Hn in *. assert (Hne : nested r <> []) by (by rewrite Hn). clear Hn c1 cs.
  destruct (String.eqb_spec (getLocalName r) "parallel") as [Hp|Hp].
  - apply String.eqb_eq in Hp.
    destruct (parallel_configurations (getAllConfigurations_fuel fuel) r ∅ Hp Hne) as [Hnn _]; [by intros; apply Hch|].
    split; [done|]. intros C.
    destruct (parallel_configurations (getAllConfigurations_fuel fuel) r C Hp Hne) as [_ ->]; [by intros; apply Hch|].
    split.
    + intros (Cs & HCs & ->). apply conf_parallel; [by apply String.eqb_eq|done|].
      eapply Forall2_ext; [|exact HCs]. intros ch C' Hc. symmetry. by apply Hch.
    + intros [[? _]|[(Hnp & _)|(_ & _ & Cs & HCs & ->)]]%configuration_inv; [done|by apply String.eqb_eq in Hp|].
      exists Cs. split; [|done]. eapply Forall2_ext; [|exact HCs]. intros ch C' Hc. by apply Hch.
  - assert (Hpf : String.eqb (getLocalName r) "parallel" = false) by (by apply String.eqb_neq).
    assert (Hin : forall C, C ∈ foldl (add_child (getAllConfigurations_fuel fuel) r) [] (nested r) <-> configuration r C).
    { intros C. rewrite add_children_compound by done. split.
      - intros [?%elem_of_nil|(ch & C' & Hc & HC' & ->)]; [done|].
        apply (conf_compound r ch C'); [done..|]. by apply Hch.
      - intros [[? _]|[(_ & ch & C' & Hc & HC' & ->)|(Hpp & _)]]%configuration_inv; [done| |done]. right.
        exists ch, C'. split_and!; [done|by apply Hch|done]. }
    split; [|done]. intros He. destruct (nested r) as [|c1 cs] eqn:Hn; [done|].
    destruct (Hch c1 ltac:(by left)) as [Hc1 _]. destruct (getAllConfigurations_fuel fuel c1) as [|C1 l] eqn:E; [done|].
    assert (Hx : (if String.eqb (getLocalName r) "scxml" then C1 else {[r]} ∪ C1) ∈ ([] : list (gset node))).
    { rewrite <- He. apply add_children_compound; [done|]. right. exists c1, C1. split_and!; [by left| |done].
      rewrite E. by left. }
    by apply elem_of_nil in Hx.
Qed.

(** The configurations enumerated for a state are exactly the sets of states
    that can be active together with it: one child of a compound state, all
    children of a parallel state, recursively. There is always one. *)
Theorem getAllConfigurations_spec r C :
  getAllConfigurations r <> [] /\ (C ∈ getAllConfigurations r <-> configuration r C).
Proof.
  destruct (configurations_fuel (S (nodeSize r)) r ltac:(lia)) as [Hne Hin]. split; [done|apply Hin].
Qed.

End Configurations.

(** ** Sets of targets *)

Section LegalCompletion.
Context {node : Type} `{!EqDecision node} {D : DomOps node} {DL : DomLaws node}.

Definition compatible (s1 s2 : node) : Prop :=
  s2 ∈ parents s1 \/ s1 ∈ parents s2 \/ exists p, p ∈ parents s1 /\ p ∈ parents s2 /\ isParallel p = true.

Lemma related_spec s1 s2 : related s1 s2 = true <-> compatible s1 s2.
Proof.
  unfold related, compatible. rewrite !orb_true_iff, !isDescendant_spec, existsb_exists. split.
  - intros [[?|?]|(p & Hp & [Hd%isDescendant_spec Hpar]%andb_true_iff)]; [by left|by right; left|].
    right; right. exists p. split_and!; [by apply list_elem_of_In|done..].
  - intros [?|[?|(p & Hp & Hd & Hpar)]]; [by left; left|by left; right|]. right. exists p.
    split; [by apply list_elem_of_In|]. apply andb_true_iff. split; [by apply isDescendant_spec|done].
Qed.

(** A set of targets passes the test exactly when any two of them lie one
    below the other or have a common parallel ancestor, whichever it is. *)
Theorem hasLegalCompletion_spec (l : list node) :
  hasLegalCompletion l = true <->
  forall i j s1 s2, i < j -> l !! i = Some s1 -> l !! j = Some s2 -> compatible s1 s2.
Proof.
  induction l as [|s l IH]; cbn [hasLegalCompletion]; [done|].
  rewrite andb_true_iff, forallb_forall, IH. setoid_rewrite <- list_elem_of_In. setoid_rewrite related_spec.
  split.
  - intros [Hs Hl] [|i] [|j] s1 s2 Hlt H1 H2; try lia; cbn in *.
    + injection H1 as <-. apply Hs. by eapply list_elem_of_lookup_2.
    + apply (Hl i j); [lia|done..].
  - intros Hl. split.
    + intros s2 (j & Hj)%list_elem_of_lookup. apply (Hl 0 (S j)); [lia|done..].
    + intros i j s1 s2 Hlt. apply (Hl (S i) (S j)). lia.
Qed.

End LegalCompletion.

(** ** Documents without fatal issues *)

Section Validated.
Context {node : Type} `{Countable node} {D : DomOps node} {ID : IssueDom node} (env : Surroundings).
Context (scxml : node) (xmlNSPrefix : string).
Abbreviation named := (elements_named scxml xmlNSPrefix).
Abbreviation states := (allStates scxml xmlNSPrefix).

Definition quiet (issues : list (Issue node)) : Prop := Forall (fun i => severity i <> USCXML_ISSUE_FATAL) issues.

Lemma quiet_app l1 l2 : quiet (l1 ++ l2) <-> quiet l1 /\ quiet l2.
Proof. apply Forall_app. Qed.

Lemma quiet_flat_map {A} (f : A -> list (Issue node)) l : quiet (flat_map f l) <-> forall x, x ∈ l -> quiet (f x).
Proof.
  unfold quiet. setoid_rewrite Forall_forall. setoid_rewrite elem_of_flat_map. naive_solver.
Qed.

Lemma quiet_fatal b message n : quiet (when_ b (fatal message n)) <-> b = false.
Proof.
  destruct b; [|by split; [|constructor]]. split; [|done]. intros Hq. by apply Forall_cons in Hq as [Hq _].
Qed.

Lemma quiet_one message n : ~ quiet [fatal message n].
Proof. intros Hq. by apply Forall_cons in Hq as [Hq _]. Qed.

(** *** The states seen *)

Definition identified (s : node) : Prop := s ∉ named "final" \/ HAS_ATTR s "id" = true.

Lemma final_skipped s : isMember s (named "final") && negb (HAS_ATTR s "id") = true <-> ~ identified s.
Proof.
  unfold identified. rewrite andb_true_iff, negb_true_iff, isMember_spec.
  destruct (HAS_ATTR s "id"), (decide (s ∈ named "final")); naive_solver.
Qed.

(** The states with the id of [s1] are all of its machine. *)
Definition one_machine (dn : list node) (s1 : node) : Prop :=
  forall s, s ∈ dn -> ATTR s "id" = ATTR s1 "id" -> areFromSameMachine s s1 = true.

Lemma one_machine_app l1 l2 s : one_machine (l1 ++ l2) s -> one_machine l1 s.
Proof. intros Ho s' Hs'. apply Ho, elem_of_app. by left. Qed.

Lemma same_machine_euclidean s1 s2 s3 :
  areFromSameMachine s1 s3 = true -> areFromSameMachine s2 s3 = true -> areFromSameMachine s1 s2 = true.
Proof. unfold areFromSameMachine. rewrite !bool_decide_eq_true. by intros -> ->. Qed.

(** What the loop over the states knows after [dn]. *)
Record seen_ok (dn : list node) (issues : list (Issue node)) (seen : gmap string node) : Prop := {
  seen_state i s : seen !! i = Some s -> s ∈ dn /\ ATTR s "id" = i;
  seen_id s : quiet issues -> s ∈ dn -> identified s ->
    HAS_ATTR s "id" = true /\ ATTR s "id" <> ""%string /\ is_Some (seen !! ATTR s "id");
  seen_history s : quiet issues -> s ∈ dn -> identified s -> getLocalName s = "history"%string ->
    quiet (history_issues scxml s);
  seen_unique s1 s2 : quiet issues -> s1 ∈ dn -> s2 ∈ dn -> identified s1 -> identified s2 ->
    ATTR s1 "id" = ATTR s2 "id" -> one_machine dn s1 -> s1 = s2;
}.

Lemma state_issues_ok reachable dn issues seen s : seen_ok dn issues seen ->
  let '(new, seen') := state_issues scxml xmlNSPrefix reachable s seen in
  seen_ok (dn ++ [s]) (issues ++ new) seen'.
Proof.
  intros [Hst Hid Hh Hu]. unfold state_issues.
  assert (Hbad : forall new, ~ quiet new \/ ~ identified s -> seen_ok (dn ++ [s]) (issues ++ new) seen).
  { intros new Hbad. split.
    - intros i s' Hs'. destruct (Hst i s' Hs'). split; [apply elem_of_app; by left|done].
    - intros s' [Hq Hq']%quiet_app [Hin|Heq%list_elem_of_singleton]%elem_of_app Hi; [by apply Hid|].
      subst s'. by destruct Hbad.
    - intros s' [Hq Hq']%quiet_app [Hin|Heq%list_elem_of_singleton]%elem_of_app Hi; [by apply Hh|].
      subst s'. by destruct Hbad.
    - intros s1 s2 [Hq Hq']%quiet_app [H1|H1%list_elem_of_singleton]%elem_of_app
        [H2|H2%list_elem_of_singleton]%elem_of_app Hi1 Hi2 He Hone; subst; try (by destruct Hbad).
      apply Hu; try done. by eapply one_machine_app. }
  destruct (isMember s (named "final") && negb (HAS_ATTR s "id")) eqn:Hfin.
  { apply Hbad. right. by apply final_skipped. }
  destruct (HAS_ATTR s "id") eqn:Hhas; cbn [negb]; [|apply Hbad; left; apply quiet_one].
  destruct (String.eqb_spec (ATTR s "id") "") as [He|He]; [apply Hbad; left; apply quiet_one|].
  set (hist := if String.eqb (getLocalName s) "history" then _ else _).
  set (unreachable := match getScxmlNode s ≫= reachable with Some l => _ | None => _ end).
  assert (Hhist : quiet hist -> getLocalName s = "history"%string -> quiet (history_issues scxml s)).
  { subst hist. intros Hq Hn. by rewrite Hn in Hq. }
  assert (Hgood : (forall other, seen !! ATTR s "id" = Some other -> areFromSameMachine other s = false) ->
    seen_ok (dn ++ [s]) (issues ++ hist ++ unreachable) (<[ATTR s "id" := s]> seen)).
  { intros Hother. split.
    - intros i s' [[<- <-]|[Hne Hs']]%lookup_insert_Some; [split; [apply elem_of_app; right; by left|done]|].
      destruct (Hst i s' Hs'). split; [apply elem_of_app; by left|done].
    - intros s' (Hq & _)%quiet_app [Hin|Heq%list_elem_of_singleton]%elem_of_app Hi.
      + destruct (Hid s' Hq Hin Hi) as (? & ? & ?). split_and!; [done..|].
        destruct (decide (ATTR s "id" = ATTR s' "id")) as [->|]; [by rewrite lookup_insert_eq|by rewrite lookup_insert_ne].
      + subst s'. split_and!; [done..|]. by rewrite lookup_insert_eq.
    - intros s' (Hq & (Hqh & _)%quiet_app)%quiet_app [Hin|Heq%list_elem_of_singleton]%elem_of_app Hi Hn; [by apply Hh|].
      subst s'. by apply Hhist.
    - intros s1 s2 (Hq & _)%quiet_app Hs1 Hs2 Hi1 Hi2 Heq Hone.
      assert (Hnew : forall s', s' ∈ dn -> identified s' -> ATTR s' "id" = ATTR s1 "id" -> ATTR s "id" = ATTR s1 "id" -> False).
      { intros s' Hin Hi Heq' Hs. destruct (Hid s' Hq Hin Hi) as (_ & _ & (other & Ho)). rewrite Heq', <- Hs in Ho.
        pose proof (Hother other Ho) as Hm. destruct (Hst _ _ Ho) as [Hod Hoi].
        rewrite (same_machine_euclidean other s s1) in Hm; [done|apply Hone; [set_solver|congruence]..]. }
      apply elem_of_app in Hs1 as [H1|H1%list_elem_of_singleton], Hs2 as [H2|H2%list_elem_of_singleton]; subst; try done.
      + apply Hu; try done. by eapply one_machine_app.
      + by destruct (Hnew s1 H1 Hi1).
      + by destruct (Hnew s2 H2 Hi2). }
  destruct (seen !! ATTR s "id") as [other|] eqn:Ho; [|by apply Hgood].
  destruct (areFromSameMachine other s) eqn:Hm.
  - apply Hbad. left. rewrite !quiet_app. intros (_ & _ & Hq). by apply quiet_one in Hq.
  - apply Hgood. intros ? [= <-]. done.
Qed.

Lemma states_issues_ok reachable :
  let '(issues, seen) := states_issues scxml xmlNSPrefix reachable in seen_ok states issues seen.
Proof.
  unfold states_issues. generalize states as l. intros l.
  induction l as [|s l IH] using rev_ind.
  { cbn. split; intros; set_solver. }
  rewrite foldl_snoc. destruct (foldl _ _ l) as [issues seen].
  pose proof (state_issues_ok reachable l issues seen s IH) as Hs.
  by destruct (state_issues scxml xmlNSPrefix reachable s seen).
Qed.

(** *** The sets of elements *)

Lemma insert_node_named (sets : gmap string (list node)) ch :
  (forall name l, sets !! name = Some l -> Forall (fun s => getLocalName s = name) l) ->
  forall name l, insert_node sets ch !! name = Some l -> Forall (fun s => getLocalName s = name) l.
Proof.
  intros Hs name l. unfold insert_node. intros [[<- <-]|[_ Hl]]%lookup_insert_Some; [|by eapply Hs].
  apply Forall_app. split; [|by constructor].
  destruct (sets !! getLocalName ch) eqn:E; [by apply Hs|constructor].
Qed.

Lemma assemble_named fuel : forall n (sets : gmap string (list node)),
  (forall name l, sets !! name = Some l -> Forall (fun s => getLocalName s = name) l) ->
  forall name l, assembleNodeSets_fuel fuel xmlNSPrefix n sets !! name = Some l -> Forall (fun s => getLocalName s = name) l.
Proof.
  induction fuel as [|fuel IH]; intros n sets Hs; [exact Hs|]. cbn [assembleNodeSets_fuel].
  revert sets Hs. induction (childElements n) as [|ch chs IHc]; intros sets Hs; [exact Hs|]. cbn [foldl].
  apply IHc, IH. destruct (String.prefix _ _); [by apply insert_node_named|exact Hs].
Qed.

Lemma named_local name s : s ∈ named name -> getLocalName s = name.
Proof.
  unfold elements_named. destruct (_ !! name) as [l|] eqn:E; [|by intros ?%elem_of_nil].
  cbn. intros Hs. eapply assemble_named in E; [|intros ? ?; by rewrite lookup_empty].
  rewrite Forall_forall in E. by apply E.
Qed.

Lemma elem_of_states s : s ∈ states <-> exists name, name ∈ ["state"; "parallel"; "history"; "final"]%string /\ s ∈ named name.
Proof.
  unfold allStates, histories. rewrite !elem_of_app. split.
  - intros [Hs|[Hs|[Hs|Hs]]]; (eexists; split; [|exact Hs]); set_solver.
  - intros (name & Hn & Hs). rewrite !elem_of_cons in Hn.
    destruct Hn as [->|[->|[->|[->|Hn]]]]; [tauto..|by apply elem_of_nil in Hn].
Qed.

(** Every target set of a transition is checked. *)
Definition address_inj : Prop := forall n1 n2 : node, address n1 = address n2 -> n1 = n2.

Section Addresses.
Context (Hinj : address_inj).

Lemma insert_entries (l : list (node * string)) (m : gmap positive (node * string)) n s : 
  (forall s', (n, s') ∈ l -> s' = s) ->
  (n, s) ∈ l \/ m !! address n = Some (n, s) ->
  foldl (fun m '(n, s) => <[address n := (n, s)]> m) m l !! address n = Some (n, s).
Proof.
  revert m. induction l as [|[n' s'] l IH]; intros m Hu Hin; cbn [foldl].
  { by destruct Hin as [?%elem_of_nil|?]. }
  apply IH; [intros; apply Hu; by right|].
  destruct (decide (n' = n)) as [->|Hne].
  - right. rewrite lookup_insert_eq. by rewrite (Hu s') by by left.
  - rewrite lookup_insert_ne by (intros ?%Hinj; done). destruct Hin as [[?|?]%elem_of_cons|?]; auto. simplify_eq.
Qed.

Lemma elem_of_with_attr attr (l : list node) n s :
  (n, s) ∈ with_attr attr l <-> n ∈ l /\ HAS_ATTR n attr = true /\ s = ATTR n attr.
Proof.
  unfold with_attr. rewrite list_elem_of_omap. split.
  - intros (x & Hx & Hs). destruct (HAS_ATTR x attr) eqn:E; [|done]. by injection Hs as <- <-.
  - intros (Hn & Ha & ->). exists n. by rewrite Ha.
Qed.

Lemma transition_target_checked t : t ∈ transitions scxml xmlNSPrefix -> HAS_ATTR t "target" = true ->
  (t, ATTR t "target") ∈ targetIdSets scxml xmlNSPrefix.
Proof.
  intros Ht Ha. unfold targetIdSets. set (l := with_attr _ _ ++ _).
  apply list_elem_of_fmap. exists (address t, (t, ATTR t "target")). split; [done|].
  rewrite merge_sort_Permutation. apply elem_of_map_to_list. apply insert_entries.
  - intros s' [Hs|[Hs|Hs]%elem_of_app]%elem_of_app; apply elem_of_with_attr in Hs as (Hn & _ & ->); [done|done|].
    apply elem_of_states in Hn as (name & Hname & Hn). apply named_local in Hn. apply named_local in Ht.
    rewrite Ht in Hn. subst name. set_solver.
  - left. apply elem_of_app. left. by apply elem_of_with_attr.
Qed.

End Addresses.

(** *** What is established *)

(** Ids that name states of the document, of whichever machine, any two of
    which lie one below the other or below a common parallel state. Targets
    that can be active together are like that, but not only they:
    [validated_two_children] has two children of a compound state. *)
Definition resolves (ids : list string) : Prop :=
  exists targets, Forall2 (fun i s => s ∈ states /\ ATTR s "id" = i) ids targets /\
    forall i j s1 s2, i < j -> targets !! i = Some s1 -> targets !! j = Some s2 -> compatible s1 s2.

Definition names_descendant (s : node) (i : string) : Prop :=
  exists s', s' ∈ states /\ s' ∈ descendant_states s /\ ATTR s' "id" = i.

Record validated : Prop := {
  v_id s : s ∈ states -> identified s -> HAS_ATTR s "id" = true /\ ATTR s "id" <> ""%string;
  v_unique s1 s2 : s1 ∈ states -> s2 ∈ states -> identified s1 -> identified s2 -> ATTR s1 "id" = ATTR s2 "id" ->
    one_machine states s1 -> s1 = s2;
  v_history h : h ∈ histories scxml xmlNSPrefix -> exists t, transitions_of h = [t] /\
    HAS_ATTR t "cond" = false /\ HAS_ATTR t "event" = false /\ HAS_ATTR t "target" = true /\
    forall target, target ∈ getTargetStates t scxml ->
      if HAS_ATTR h "type" && String.eqb (ATTR h "type") "deep"
      then isDescendant (Some target) (getParentNode h) = true else getParentNode target = getParentNode h;
  v_targets t : t ∈ transitions scxml xmlNSPrefix -> HAS_ATTR t "target" = true ->
    tokenize (ATTR t "target") <> [] /\ resolves (tokenize (ATTR t "target"));
  v_initial_attr s i : s ∈ states \/ s = scxml -> HAS_ATTR s "initial" = true ->
    i ∈ tokenize (ATTR s "initial") -> names_descendant s i;
  v_initials x : x ∈ initials scxml xmlNSPrefix -> exists t, initial_transitions x = [t] /\
    HAS_ATTR t "cond" = false /\ HAS_ATTR t "event" = false /\
    forall p i, getParentNode t ≫= getParentNode = Some p -> isState p true = true ->
      i ∈ tokenize (ATTR t "target") -> names_descendant p i;
  v_datamodel : dataModel env = true \/ HAS_ATTR scxml "datamodel" = false \/
    hasDataModel env (ATTR scxml "datamodel") = true;
}.

(** *** From the checks *)

Lemma seen_lookup dn issues seen i s : seen_ok dn issues seen -> dn = states ->
  seen !! i = Some s -> s ∈ states /\ ATTR s "id" = i.
Proof. intros Hok -> Hs. by apply (seen_state _ _ _ Hok). Qed.

Section Sound.
Context (issues : list (Issue node)) (seen : gmap string node).
Hypothesis Hok : seen_ok states issues seen.
Hypothesis Hq : quiet issues.
Hypothesis Hst : quiet (structure_issues env scxml xmlNSPrefix seen).

Lemma structure_parts :
  (forall t, t ∈ transitions scxml xmlNSPrefix -> quiet (target_issues seen t)) /\
  (forall s, s ∈ states \/ s = scxml -> quiet (initial_attr_issues seen s)) /\
  (forall e, e ∈ targetIdSets scxml xmlNSPrefix -> quiet (legal_set_issues seen e)) /\
  (forall x, x ∈ initials scxml xmlNSPrefix -> quiet (initial_count_issues x)) /\
  (forall x t, x ∈ initials scxml xmlNSPrefix -> t ∈ initial_transitions x -> quiet (initial_transition_issues seen t)).
Proof.
  unfold structure_issues in Hst. rewrite !quiet_app, !quiet_flat_map in Hst.
  destruct Hst as (Ht & _ & _ & Hi & Hl & Hc & Hit & _). split_and!; [done| |done|done|].
  - intros s Hs. apply Hi. rewrite elem_of_app, list_elem_of_singleton. done.
  - intros x t Hx Ht'. apply Hit, elem_of_flat_map. eauto.
Qed.

Lemma sound_targets t : address_inj -> t ∈ transitions scxml xmlNSPrefix -> HAS_ATTR t "target" = true ->
  tokenize (ATTR t "target") <> [] /\ resolves (tokenize (ATTR t "target")).
Proof.
  intros Hinj Ht Ha. destruct structure_parts as (Htg & _ & Hl & _).
  specialize (Htg t Ht). unfold target_issues in Htg. rewrite Ha, quiet_app, quiet_fatal, quiet_flat_map in Htg.
  destruct Htg as [Hlen Hids]. split; [by destruct (tokenize _)|].
  assert (Hres : is_Some (mapM (fun i => seen !! i) (tokenize (ATTR t "target")))).
  { apply mapM_is_Some_2, Forall_forall. intros i Hi. specialize (Hids i Hi). rewrite quiet_fatal in Hids.
    apply bool_decide_eq_false in Hids. cbn. by destruct (seen !! i). }
  destruct Hres as (targets & Hm). specialize (Hl _ (transition_target_checked Hinj t Ht Ha)).
  unfold legal_set_issues in Hl. cbn [snd] in Hl. rewrite Hm, quiet_fatal in Hl. exists targets.
  split; [|by apply hasLegalCompletion_spec, negb_false_iff]. apply mapM_Some in Hm. eapply Forall2_impl; [exact Hm|].
  intros i s Hs. by apply (seen_lookup _ _ _ _ _ Hok).
Qed.

Lemma sound_names s i : (match seen !! i with Some s' => negb (isMember s' (descendant_states s)) | None => true end) = false ->
  names_descendant s i.
Proof.
  destruct (seen !! i) as [s'|] eqn:E; [|done]. intros Hm%negb_false_iff%isMember_spec.
  destruct (seen_lookup _ _ _ _ _ Hok eq_refl E). by exists s'.
Qed.

Lemma sound_initial_attr s i : s ∈ states \/ s = scxml -> HAS_ATTR s "initial" = true ->
  i ∈ tokenize (ATTR s "initial") -> names_descendant s i.
Proof.
  intros Hs Ha Hi. destruct structure_parts as (_ & Hin & _). specialize (Hin s Hs).
  unfold initial_attr_issues in Hin. rewrite Ha, quiet_flat_map in Hin. specialize (Hin i Hi).
  apply sound_names. destruct (seen !! i); [by apply quiet_fatal in Hin|by apply quiet_one in Hin].
Qed.

Lemma sound_initials x : x ∈ initials scxml xmlNSPrefix -> exists t, initial_transitions x = [t] /\
  HAS_ATTR t "cond" = false /\ HAS_ATTR t "event" = false /\
  forall p i, getParentNode t ≫= getParentNode = Some p -> isState p true = true ->
    i ∈ tokenize (ATTR t "target") -> names_descendant p i.
Proof.
  intros Hx. destruct structure_parts as (_ & _ & _ & Hc & Hit). specialize (Hc x Hx).
  unfold initial_count_issues in Hc. rewrite quiet_fatal in Hc. bool_prop.
  destruct (initial_transitions x) as [|t [|? ?]] eqn:E; try done. exists t. split; [done|].
  specialize (Hit x t Hx ltac:(rewrite E; by left)). unfold initial_transition_issues in Hit.
  rewrite !quiet_app, !quiet_fatal in Hit. destruct Hit as (? & ? & Hp). split_and!; [done..|].
  intros p i Hpp Hsp Hi. rewrite Hpp, Hsp, quiet_flat_map in Hp. specialize (Hp i Hi). rewrite quiet_fatal in Hp.
  by apply sound_names.
Qed.

Lemma sound_history h : h ∈ histories scxml xmlNSPrefix -> exists t, transitions_of h = [t] /\
  HAS_ATTR t "cond" = false /\ HAS_ATTR t "event" = false /\ HAS_ATTR t "target" = true /\
  forall target, target ∈ getTargetStates t scxml ->
    if HAS_ATTR h "type" && String.eqb (ATTR h "type") "deep"
    then isDescendant (Some target) (getParentNode h) = true else getParentNode target = getParentNode h.
Proof.
  intros Hh. pose proof (named_local _ _ Hh) as Hn.
  assert (Hs : h ∈ states) by (apply elem_of_states; exists "history"%string; set_solver).
  assert (Hi : identified h) by (left; intros Hf%named_local; congruence).
  pose proof (seen_history _ _ _ Hok h Hq Hs Hi Hn) as Hhi. unfold history_issues in Hhi.
  destruct (transitions_of h) as [|t [|? ?]]; [by apply quiet_one in Hhi| |by apply quiet_one in Hhi].
  rewrite !quiet_app, !quiet_fatal in Hhi. destruct Hhi as (? & ? & Ht). exists t. split_and!; [done..| |].
  - destruct (HAS_ATTR t "target"); [done|by apply quiet_one in Ht].
  - intros target Htg. destruct (HAS_ATTR t "target"); [|by apply quiet_one in Ht].
    rewrite quiet_flat_map in Ht. specialize (Ht target Htg). unfold history_target in Ht.
    destruct (_ && _); rewrite quiet_fatal in Ht; [by apply negb_false_iff|].
    by apply negb_false_iff, bool_decide_eq_true in Ht.
Qed.

End Sound.

(** C24: a document for which validation reports no fatal issue has a
    non-empty id for every state but final ones without one; two states have
    different ids, unless a state of another machine in the document has the id
    too, which hides a duplicate; every history has one default transition to
    states it may name; initial elements and attributes name descendants; the
    targets of every transition are states of the document, in whichever of its
    machines, and any two of them lie one below the other or have a common
    parallel ancestor, which is all that the test for a legal configuration
    asks for and does not make them states that can be active together; and
    the data model is known. *)
Theorem validated_document issues : address_inj ->
  forInterpreter env scxml xmlNSPrefix = Some issues -> quiet issues -> validated.
Proof.
  intros Hinj. unfold forInterpreter. destruct (reachable_sets _ _) as [reachable|]; [|done].
  cbn [mbind option_bind]. pose proof (states_issues_ok (fun root => reachable !! root)) as Hok.
  destruct (states_issues _ _ _) as [iss seen]. intros Hissues Hq.
  assert (Hparts : quiet iss /\ quiet (structure_issues env scxml xmlNSPrefix seen) /\
    negb (dataModel env) && HAS_ATTR scxml "datamodel" && negb (hasDataModel env (ATTR scxml "datamodel")) = false).
  { destruct (_ && negb _); injection Hissues as <-; rewrite !quiet_app in Hq; [|tauto].
    destruct Hq as (_ & Hq). by apply quiet_one in Hq. }
  destruct Hparts as (Hqi & Hqs & Hdm). split.
  - intros s Hs Hi. by destruct (seen_id _ _ _ Hok s Hqi Hs Hi) as (? & ? & _).
  - intros s1 s2. by apply (seen_unique _ _ _ Hok s1 s2 Hqi).
  - by apply (sound_history iss seen).
  - intros t. by apply (sound_targets iss seen).
  - intros s i. by apply (sound_initial_attr iss seen).
  - by apply (sound_initials iss seen).
  - destruct (dataModel env), (HAS_ATTR scxml "datamodel"), (hasDataModel env _); auto.
Qed.

End Validated.

(** ** Documents to validate *)

Definition known_plugins : Surroundings :=
  mkSurroundings (fun _ => true) (fun _ => true) (fun _ _ => true) (fun _ => true) ∅ ∅ true
    (fun _ => true) (fun _ => true).

#[local] Instance table_issue_dom : IssueDom nat := {|
  getNamespaceURI _ := "http://www.w3.org/2005/07/scxml"%string;
  childNodes _ := 0;
  address := Pos.of_succ_nat;
|}.

Definition validate (doc : list row) : option (list (Issue nat)) :=
  forInterpreter (D := table_dom doc) known_plugins 0 "".

Lemma table_addresses : address_inj (node := nat).
Proof. intros n1 n2 Hn. by apply SuccNat2Pos.inj in Hn. Qed.

Lemma validated_document_witness :
  exists t, transitions_of (D := regular_dom) 3 = [t] /\ @HAS_ATTR nat regular_dom t "target" = true.
Proof.
  assert (Hv : validated (D := regular_dom) known_plugins 0 "").
  { apply (validated_document (D := regular_dom) known_plugins 0 ""
      (default [] (forInterpreter (D := regular_dom) known_plugins 0 ""))).
    - apply table_addresses.
    - by vm_compute.
    - unfold quiet. apply (bool_decide_unpack _). by vm_compute. }
  destruct (v_history (D := regular_dom) _ _ _ Hv 3) as (t & Ht & _ & _ & Ha & _).
  - apply (bool_decide_unpack _). by vm_compute.
  - exists t. done.
Defined.

Lemma getAllConfigurations_spec_witness :
  exists C, C ∈ getAllConfigurations (D := regular_dom) 1 /\ configuration (D := regular_dom) 1 C.
Proof.
  assert (Hin : {[1; 2; 5; 9; 12]} ∈ getAllConfigurations (D := regular_dom) 1).
  { apply (bool_decide_unpack _). by vm_compute. }
  exists {[1; 2; 5; 9; 12]}. split; [done|].
  by apply (getAllConfigurations_spec (D := regular_dom) (DL := regular_laws) 1).
Defined.

Lemma hasLegalCompletion_spec_witness : compatible (D := regular_dom) 5 12.
Proof.
  apply (hasLegalCompletion_spec (D := regular_dom) [5; 12]) with (i := 0) (j := 1); [|lia|done..].
  by vm_compute.
Defined.

(** Two children of a compound state below a parallel one as the targets of one
    transition. *)
Definition two_children_doc : list row := rows
  (Xml "scxml" [("initial", "p"); ("xmlns", "http://www.w3.org/2005/07/scxml"); ("version", "1.0")] []
    [Xml "parallel" [("id", "p")] []
      [Xml "state" [("id", "r1")] [] [Xml "state" [("id", "a")] [] []; Xml "state" [("id", "b")] [] []];
       Xml "state" [("id", "r2")] []
         [Xml "state" [("id", "x")] [] [Xml "transition" [("event", "go"); ("target", "a b")] [] []]]]]).

(** Validation accepts target states that cannot be active together as
    long as some parallel state lies above both: this document has no issue
    at all, and its machine gets into a configuration with both children of a
    compound state. *)
Theorem validated_two_children :
  validate two_children_doc = Some [] /\
  last (configurations two_children_doc ["go"] 6) = Some [0; 1; 2; 3; 4; 5; 6] /\
  compound (compiled two_children_doc) 2 /\
  child (compiled two_children_doc) 2 3 /\ child (compiled two_children_doc) 2 4.
Proof. split_and!; try (by vm_compute); apply (bool_decide_unpack _); by vm_compute. Qed.

(** An initial attribute that names no state. *)
Definition dangling_initial_doc : list row := rows
  (Xml "scxml" [("xmlns", "http://www.w3.org/2005/07/scxml"); ("version", "1.0")] []
    [Xml "state" [("id", "a"); ("initial", "nope")] [] [Xml "state" [("id", "b")] [] []]]).

(** An initial attribute without a target is one of the fatal issues that
    validation looks for, but the search for reachable states, which runs
    first, puts the null pointer into its list and dereferences it. *)
Theorem dangling_initial_crashes :
  validate dangling_initial_doc = None /\
  initial_attr_issues (D := table_dom dangling_initial_doc) {[ "a"%string := 1; "b"%string := 2 ]} 1 <> [].
Proof. split; by vm_compute. Qed.
