(* ===== verification/CBits.v ===== *)
(** * Bit arrays of the emitted C code: [transform/ChartToC.cpp]

    The C code that [ChartToC] prints keeps sets of states and transitions in
    arrays of [unsigned char]. This file models its macros ([writeMacros]), its
    loops over such arrays ([writeHelpers]) and the printing of a table row as
    an initializer ([writeCharArrayInitList]). An access outside of an array is
    undefined in C: the operations return [None] there, so that a theorem with
    a [Some] also says that no such access happens. Only the first [nb] bytes
    of an array are in use, what is behind them may be anything. *)

From stdpp Require Import base list gmap strings.
From S2P Require Import Prelude.

Local Open Scope nat_scope.

(** ** Bytes *)

Abbreviation bytes := (list Z).

Definition u8 (z : Z) : Z := (z mod 256)%Z.
Definition is_byte (b : Z) : Prop := (0 <= b < 256)%Z.
#[export] Instance is_byte_dec b : Decision (is_byte b).
Proof. unfold is_byte. apply _. Defined.

(** ** [writeMacros] *)

(** [((bitset[idx >> 3] &  (1 << (idx & 7))) != 0)] *)
Definition BIT_HAS (idx : nat) (bitset : bytes) : option bool :=
  b ← bitset !! Nat.shiftr idx 3;
  Some (negb (Z.land b (Z.shiftl 1 (Z.of_nat (Nat.land idx 7))) =? 0)%Z).

(** [bitset[idx >> 3] |= (1 << (idx & 7));] *)
Definition BIT_SET_AT (idx : nat) (bitset : bytes) : option bytes :=
  b ← bitset !! Nat.shiftr idx 3;
  Some (<[Nat.shiftr idx 3 := u8 (Z.lor b (Z.shiftl 1 (Z.of_nat (Nat.land idx 7))))]> bitset).

(** [bitset[idx >> 3] &= (1 << (idx & 7)) ^ 0xFF;] *)
Definition BIT_CLEAR (idx : nat) (bitset : bytes) : option bytes :=
  b ← bitset !! Nat.shiftr idx 3;
  Some (<[Nat.shiftr idx 3 :=
    u8 (Z.land b (Z.lxor (Z.shiftl 1 (Z.of_nat (Nat.land idx 7))) 0xFF))]> bitset).

(** ** [writeHelpers]: the loops [while(i--)] over the bytes *)

Fixpoint bit_has_and (a b : bytes) (i : nat) : option bool :=
  match i with
  | 0 => Some false
  | S i =>
      x ← a !! i; y ← b !! i;
      if negb (Z.land x y =? 0)%Z then Some true else bit_has_and a b i
  end.

Fixpoint bit_clear_all (a : bytes) (i : nat) : option bytes :=
  match i with
  | 0 => Some a
  | S i => _ ← a !! i; bit_clear_all (<[i := 0%Z]> a) i
  end.

Fixpoint bit_has_any (a : bytes) (i : nat) : option bool :=
  match i with
  | 0 => Some false
  | S i => x ← a !! i; if (0 <? x)%Z then Some true else bit_has_any a i
  end.

(** [dest[i] op mask[i]] for every byte from the last one down. *)
Fixpoint bytewise (f : Z -> Z -> Z) (dest mask : bytes) (i : nat) : option bytes :=
  match i with
  | 0 => Some dest
  | S i => d ← dest !! i; m ← mask !! i; bytewise f (<[i := u8 (f d m)]> dest) mask i
  end.

Definition bit_or : bytes -> bytes -> nat -> option bytes := bytewise Z.lor.
Definition bit_copy : bytes -> bytes -> nat -> option bytes := bytewise (fun _ s => s).
Definition bit_and_not : bytes -> bytes -> nat -> option bytes :=
  bytewise (fun d m => Z.land d (Z.lnot m)).
Definition bit_and : bytes -> bytes -> nat -> option bytes := bytewise Z.land.

(** [((n + 7) & ~7) >> 3] *)
Definition nr_bytes (n : nat) : nat :=
  Z.to_nat (Z.shiftr (Z.land (Z.of_nat n + 7) (Z.lnot 7)) 3).

(** ** The set an array stands for *)

Section Sets.
Context (nb : nat).

Definition bit (a : bytes) (i : nat) : bool :=
  match a !! (i / 8) with Some b => Z.testbit b (Z.of_nat (i mod 8)) | None => false end.

(** The members recorded in the first [nb] bytes. *)
Definition set_of (a : bytes) : gset nat :=
  list_to_set (filter (fun i => bit a i = true) (seq 0 (8 * nb))).

(** The first [nb] bytes are within the array, and bytes. *)
Definition array_ok (a : bytes) : Prop := nb <= length a /\ forall i b, a !! i = Some b -> is_byte b.

(** The array [a] stands for the set [X]. *)
Definition stands_for (a : bytes) (X : gset nat) : Prop := array_ok a /\ set_of a = X.

Lemma elem_of_set_of a i : i ∈ set_of a <-> i < 8 * nb /\ bit a i = true.
Proof.
  unfold set_of. rewrite elem_of_list_to_set, list_elem_of_filter, elem_of_seq. naive_solver lia.
Qed.

Lemma shiftr3 i : Nat.shiftr i 3 = i / 8.
Proof. by rewrite Nat.shiftr_div_pow2. Qed.

Lemma land7 i : Nat.land i 7 = i mod 8.
Proof. change 7 with (Nat.ones 3). by rewrite Nat.land_ones. Qed.

Lemma index_lt i : i < 8 * nb -> i / 8 < nb.
Proof. intros Hi. by apply Nat.Div0.div_lt_upper_bound. Qed.

Lemma mod8_lt i : i mod 8 < 8.
Proof. by apply Nat.mod_upper_bound. Qed.

Lemma index_split i j : i / 8 = j / 8 -> i mod 8 = j mod 8 -> i = j.
Proof. intros Hd Hm. rewrite (Nat.div_mod i 8), (Nat.div_mod j 8) by done. by rewrite Hd, Hm. Qed.

Lemma array_byte a i : array_ok a -> i < nb -> exists b, a !! i = Some b /\ is_byte b.
Proof.
  intros [Hl Hb] Hi. destruct (lookup_lt_is_Some_2 a i) as [b Hib]; [lia|]. exists b. naive_solver.
Qed.

Lemma bit_lookup a i b : a !! (i / 8) = Some b -> bit a i = Z.testbit b (Z.of_nat (i mod 8)).
Proof. unfold bit. by intros ->. Qed.

Lemma u8_testbit z k : (0 <= k < 8)%Z -> Z.testbit (u8 z) k = Z.testbit z k.
Proof. intros Hk. unfold u8. change 256%Z with (2 ^ 8)%Z. apply Z.mod_pow2_bits_low. lia. Qed.

Lemma u8_byte z : is_byte (u8 z).
Proof. unfold u8, is_byte. apply Z.mod_pos_bound. lia. Qed.

(** Storing a byte changes the bits of that byte and no other. *)
Lemma bit_insert a q x i : q < length a ->
  bit (<[q := x]> a) i = if i / 8 =? q then Z.testbit x (Z.of_nat (i mod 8)) else bit a i.
Proof.
  intros Hq. unfold bit. destruct (Nat.eqb_spec (i / 8) q) as [->|Hne].
  - by rewrite list_lookup_insert_eq.
  - by rewrite list_lookup_insert_ne.
Qed.

Lemma array_ok_insert a q x : array_ok a -> is_byte x -> array_ok (<[q := x]> a).
Proof.
  intros [Hl Hb] Hx. split; [by rewrite length_insert|]. intros i b.
  intros [(-> & <- & _)|[_ Hi]]%list_lookup_insert_Some; [done|by apply (Hb i)].
Qed.

Lemma land_pow2 b k : (0 <= k)%Z -> negb (Z.land b (Z.shiftl 1 k) =? 0)%Z = Z.testbit b k.
Proof.
  intros Hk. rewrite Z.shiftl_1_l. destruct (Z.testbit b k) eqn:Ht.
  - apply negb_true_iff, Z.eqb_neq. intros H0.
    assert (Z.testbit (Z.land b (2 ^ k)) k = false) as Hf by (rewrite H0; apply Z.bits_0).
    rewrite Z.land_spec, Ht, Z.pow2_bits_true in Hf by done. done.
  - apply negb_false_iff, Z.eqb_eq. apply Z.bits_inj'. intros j Hj.
    rewrite Z.land_spec, Z.bits_0. destruct (decide (j = k)) as [->|]; [by rewrite Ht|].
    rewrite Z.pow2_bits_false by done. apply andb_false_r.
Qed.

(** ** The macros on sets *)

Lemma BIT_HAS_spec a X i : stands_for a X -> i < 8 * nb -> BIT_HAS i a = Some (bool_decide (i ∈ X)).
Proof.
  intros [Hok <-] Hi. unfold BIT_HAS. rewrite shiftr3, land7.
  destruct (array_byte a (i / 8) Hok (index_lt i Hi)) as (b & Hb & _). rewrite Hb. cbn [mbind option_bind].
  f_equal. rewrite land_pow2 by lia. rewrite <- (bit_lookup _ _ _ Hb).
  apply eq_bool_prop_intro. rewrite bool_decide_spec, elem_of_set_of. split; [|by intros [_ ->]].
  intros ?%Is_true_eq_true. done.
Qed.

Lemma set_of_ext a X : (forall i, i < 8 * nb -> bit a i = bool_decide (i ∈ X)) ->
  (forall i, i ∈ X -> i < 8 * nb) -> set_of a = X.
Proof.
  intros Hb Hr. apply set_eq. intros i. rewrite elem_of_set_of. split.
  - intros [Hi Ht]. rewrite Hb in Ht by done. by apply bool_decide_eq_true in Ht.
  - intros Hx. pose proof (Hr i Hx). split; [done|]. rewrite Hb by done. by apply bool_decide_eq_true.
Qed.

Lemma stands_for_bit a X i : stands_for a X -> i < 8 * nb -> bit a i = bool_decide (i ∈ X).
Proof.
  intros [_ <-] Hi. apply eq_bool_prop_intro. rewrite bool_decide_spec, elem_of_set_of.
  split; [|by intros [_ ->]]. intros ?%Is_true_eq_true. done.
Qed.

Lemma stands_for_range a X i : stands_for a X -> i ∈ X -> i < 8 * nb.
Proof. intros [_ <-]. rewrite elem_of_set_of. tauto. Qed.

Lemma pow2_testbit (k j : nat) : Z.testbit (Z.shiftl 1 (Z.of_nat k)) (Z.of_nat j) = (j =? k).
Proof.
  rewrite Z.shiftl_1_l. destruct (Nat.eqb_spec j k) as [->|Hne].
  - apply Z.pow2_bits_true. lia.
  - apply Z.pow2_bits_false. lia.
Qed.

(** A store into the byte of [i] that changes only the bit [i mod 8]. *)
Lemma store_bit a X Y i x : stands_for a X -> i < 8 * nb -> is_byte x ->
  (forall j, j < 8 -> j <> i mod 8 -> forall b, a !! (i / 8) = Some b ->
     Z.testbit x (Z.of_nat j) = Z.testbit b (Z.of_nat j)) ->
  Z.testbit x (Z.of_nat (i mod 8)) = bool_decide (i ∈ Y) ->
  (forall k, k <> i -> k ∈ Y <-> k ∈ X) ->
  stands_for (<[i / 8 := x]> a) Y.
Proof.
  intros Ha Hi Hx Hother Hbit Hsame. pose proof Ha as [Hok _].
  destruct (array_byte a (i / 8) Hok (index_lt i Hi)) as (b & Hb & _).
  split; [by apply array_ok_insert|]. apply set_of_ext.
  - intros k Hk. rewrite bit_insert by by eapply lookup_lt_Some.
    destruct (decide (k = i)) as [->|Hne]; [by rewrite Nat.eqb_refl|].
    rewrite (bool_decide_ext (k ∈ Y) (k ∈ X)) by by apply Hsame.
    rewrite <- (stands_for_bit a X k Ha Hk).
    destruct (Nat.eqb_spec (k / 8) (i / 8)) as [He|]; [|done].
    rewrite (Hother (k mod 8) (mod8_lt k)) with (b := b); [|by intros Hm; apply Hne, index_split|done].
    symmetry. apply bit_lookup. by rewrite He.
  - intros k Hk. destruct (decide (k = i)) as [->|Hne]; [done|].
    apply (stands_for_range a X k Ha). by apply Hsame.
Qed.

Lemma BIT_SET_AT_spec a X i : stands_for a X -> i < 8 * nb ->
  exists a', BIT_SET_AT i a = Some a' /\ stands_for a' ({[i]} ∪ X).
Proof.
  intros Ha Hi. pose proof Ha as [Hok _].
  destruct (array_byte a (i / 8) Hok (index_lt i Hi)) as (b & Hb & _).
  unfold BIT_SET_AT. rewrite shiftr3, land7, Hb. cbn [mbind option_bind]. eexists. split; [done|].
  eapply store_bit; [done|done|apply u8_byte| | |].
  - intros j Hj Hne b' Hb'. simplify_eq. rewrite u8_testbit by lia.
    rewrite Z.lor_spec, pow2_testbit. destruct (Nat.eqb_spec j (i mod 8)); [done|]. apply orb_false_r.
  - rewrite u8_testbit by (pose proof (mod8_lt i); lia). rewrite Z.lor_spec, pow2_testbit, Nat.eqb_refl, orb_true_r.
    symmetry. apply bool_decide_eq_true. set_solver.
  - set_solver.
Qed.

Lemma BIT_CLEAR_spec a X i : stands_for a X -> i < 8 * nb ->
  exists a', BIT_CLEAR i a = Some a' /\ stands_for a' (X ∖ {[i]}).
Proof.
  intros Ha Hi. pose proof Ha as [Hok _].
  destruct (array_byte a (i / 8) Hok (index_lt i Hi)) as (b & Hb & _).
  unfold BIT_CLEAR. rewrite shiftr3, land7, Hb. cbn [mbind option_bind]. eexists. split; [done|].
  assert (Hff : forall j, j < 8 -> Z.testbit 0xFF (Z.of_nat j) = true).
  { intros j Hj. change 0xFF%Z with (Z.ones 8). apply Z.ones_spec_low. lia. }
  eapply store_bit; [done|done|apply u8_byte| | |].
  - intros j Hj Hne b' Hb'. simplify_eq. rewrite u8_testbit by lia.
    rewrite Z.land_spec, Z.lxor_spec, pow2_testbit, Hff by done.
    destruct (Nat.eqb_spec j (i mod 8)); [done|]. apply andb_true_r.
  - pose proof (mod8_lt i). rewrite u8_testbit by lia.
    rewrite Z.land_spec, Z.lxor_spec, pow2_testbit, Nat.eqb_refl, Hff by done. rewrite andb_false_r.
    symmetry. apply bool_decide_eq_false. set_solver.
  - set_solver.
Qed.

(** ** The loops on sets *)

Lemma bytewise_spec f (g : bool -> bool -> bool) :
  (forall x y j, j < 8 -> Z.testbit (f x y) (Z.of_nat j) = g (Z.testbit x (Z.of_nat j)) (Z.testbit y (Z.of_nat j))) ->
  forall k d m, k <= nb -> array_ok d -> array_ok m ->
  exists d', bytewise f d m k = Some d' /\ array_ok d' /\
    forall i, i < 8 * nb -> bit d' i = if i / 8 <? k then g (bit d i) (bit m i) else bit d i.
Proof.
  intros Hf. induction k as [|k IH]; intros d m Hk Hd Hm; cbn [bytewise].
  - by exists d.
  - destruct (array_byte d k Hd ltac:(lia)) as (x & Hx & _).
    destruct (array_byte m k Hm ltac:(lia)) as (y & Hy & _).
    rewrite Hx, Hy. cbn [mbind option_bind].
    destruct (IH (<[k := u8 (f x y)]> d) m ltac:(lia)) as (d' & -> & Hok & Hb);
      [by apply array_ok_insert, u8_byte|done|].
    exists d'. split; [done|]. split; [done|]. intros i Hi. rewrite Hb by done.
    rewrite bit_insert by by eapply lookup_lt_Some.
    destruct (Nat.ltb_spec (i / 8) k), (Nat.ltb_spec (i / 8) (S k)), (Nat.eqb_spec (i / 8) k); try lia; try done.
    subst k. rewrite u8_testbit by (pose proof (mod8_lt i); lia). rewrite Hf by apply mod8_lt.
    by rewrite <- (bit_lookup _ _ _ Hx), <- (bit_lookup _ _ _ Hy).
Qed.

(** A byte-wise operation whose bits follow [g] computes the set operation [op]. *)
Lemma bytewise_set f (g : bool -> bool -> bool) (op : gset nat -> gset nat -> gset nat) d m X Y :
  (forall x y j, j < 8 -> Z.testbit (f x y) (Z.of_nat j) = g (Z.testbit x (Z.of_nat j)) (Z.testbit y (Z.of_nat j))) ->
  (forall i, bool_decide (i ∈ op X Y) = g (bool_decide (i ∈ X)) (bool_decide (i ∈ Y))) ->
  (forall i, i ∈ op X Y -> i ∈ X \/ i ∈ Y) ->
  array_ok d -> (forall i, i < 8 * nb -> bit d i = bool_decide (i ∈ X)) ->
  (forall i, i ∈ X -> i < 8 * nb) -> stands_for m Y ->
  exists d', bytewise f d m nb = Some d' /\ stands_for d' (op X Y).
Proof.
  intros Hf Hop Hr Hd HX Hlt HY. pose proof HY as [Hm _].
  destruct (bytewise_spec f g Hf nb d m (le_n _) Hd Hm) as (d' & -> & Hok & Hb).
  exists d'. split; [done|]. split; [done|]. apply set_of_ext.
  - intros i Hi. rewrite Hb by done. pose proof (index_lt i Hi) as Hq. apply Nat.ltb_lt in Hq as ->.
    by rewrite HX, (stands_for_bit m Y i HY Hi), Hop.
  - intros i [Hi|Hi]%Hr; [by apply Hlt|by apply (stands_for_range m Y i HY)].
Qed.

Lemma stands_for_bits a X : stands_for a X ->
  array_ok a /\ (forall i, i < 8 * nb -> bit a i = bool_decide (i ∈ X)) /\ (forall i, i ∈ X -> i < 8 * nb).
Proof.
  intros Ha. split; [apply Ha|]. split; [intros i; by apply stands_for_bit|intros i; by apply (stands_for_range a X i)].
Qed.

Lemma bit_or_spec d m X Y : stands_for d X -> stands_for m Y ->
  exists d', bit_or d m nb = Some d' /\ stands_for d' (X ∪ Y).
Proof.
  intros (Hd & HX & Hlt)%stands_for_bits HY.
  apply (bytewise_set _ orb (∪)); try done; [by intros; rewrite Z.lor_spec| |set_solver].
  intros. apply eq_bool_prop_intro. rewrite orb_True, !bool_decide_spec. set_solver.
Qed.

Lemma bit_and_spec d m X Y : stands_for d X -> stands_for m Y ->
  exists d', bit_and d m nb = Some d' /\ stands_for d' (X ∩ Y).
Proof.
  intros (Hd & HX & Hlt)%stands_for_bits HY.
  apply (bytewise_set _ andb (∩)); try done; [by intros; rewrite Z.land_spec| |set_solver].
  intros. apply eq_bool_prop_intro. rewrite andb_True, !bool_decide_spec. set_solver.
Qed.

Lemma bit_and_not_spec d m X Y : stands_for d X -> stands_for m Y ->
  exists d', bit_and_not d m nb = Some d' /\ stands_for d' (X ∖ Y).
Proof.
  intros (Hd & HX & Hlt)%stands_for_bits HY.
  apply (bytewise_set _ (fun x y => x && negb y) (∖)); try done; [| |set_solver].
  - intros x y j Hj. by rewrite Z.land_spec, Z.lnot_spec by lia.
  - intros. apply eq_bool_prop_intro. rewrite andb_True, negb_True, !bool_decide_spec. set_solver.
Qed.

(** Whatever was in the destination of a copy is lost. *)
Lemma bit_copy_spec d m Y : array_ok d -> stands_for m Y ->
  exists d', bit_copy d m nb = Some d' /\ stands_for d' Y.
Proof.
  intros Hd HY. apply (bytewise_set _ (fun _ y => y) (fun _ Y => Y) d m (set_of d)); try done; [by right| |].
  - intros i Hi. by apply stands_for_bit.
  - intros i. rewrite elem_of_set_of. tauto.
Qed.

Lemma bit_clear_all_from k : forall a, k <= nb -> array_ok a ->
  exists a', bit_clear_all a k = Some a' /\ array_ok a' /\
    forall i, i < 8 * nb -> bit a' i = if i / 8 <? k then false else bit a i.
Proof.
  induction k as [|k IH]; intros a Hk Ha; cbn [bit_clear_all].
  - by exists a.
  - destruct (array_byte a k Ha ltac:(lia)) as (x & Hx & _). rewrite Hx. cbn [mbind option_bind].
    destruct (IH (<[k := 0%Z]> a) ltac:(lia)) as (a' & -> & Hok & Hb);
      [by apply array_ok_insert|].
    exists a'. split; [done|]. split; [done|]. intros i Hi. rewrite Hb by done.
    rewrite bit_insert by by eapply lookup_lt_Some.
    destruct (Nat.ltb_spec (i / 8) k), (Nat.ltb_spec (i / 8) (S k)), (Nat.eqb_spec (i / 8) k); try lia; try done.
    by rewrite Z.bits_0.
Qed.

Lemma bit_clear_all_spec a : array_ok a ->
  exists a', bit_clear_all a nb = Some a' /\ stands_for a' ∅.
Proof.
  intros Ha. destruct (bit_clear_all_from nb a (le_n _) Ha) as (a' & -> & Hok & Hb).
  exists a'. split; [done|]. split; [done|]. apply set_of_ext; [|set_solver].
  intros i Hi. rewrite Hb by done. pose proof (index_lt i Hi) as Hq. apply Nat.ltb_lt in Hq as ->.
  symmetry. by apply bool_decide_eq_false.
Qed.

(** A non-zero byte has a set bit. *)
Lemma byte_nonzero x : is_byte x -> x <> 0%Z -> exists j, j < 8 /\ Z.testbit x (Z.of_nat j) = true.
Proof.
  intros Hx H0. exists (Z.to_nat (Z.log2 x)). destruct Hx as [Hx1 Hx2].
  pose proof (Z.log2_nonneg x). assert (Z.log2 x < 8)%Z by (apply Z.log2_lt_pow2; lia).
  rewrite Z2Nat.id by done. split; [lia|]. apply Z.bit_log2. lia.
Qed.

Lemma div8 q j : j < 8 -> (q * 8 + j) / 8 = q /\ (q * 8 + j) mod 8 = j.
Proof.
  intros Hj. rewrite Nat.add_comm, Nat.div_add, Nat.Div0.mod_add by done.
  by rewrite Nat.div_small, Nat.mod_small.
Qed.

Lemma bit_has_and_from k : forall a b, k <= nb -> array_ok a -> array_ok b ->
  exists r, bit_has_and a b k = Some r /\
    (r = true <-> exists i, i / 8 < k /\ bit a i = true /\ bit b i = true).
Proof.
  induction k as [|k IH]; intros a b Hk Ha Hb; cbn [bit_has_and].
  - exists false. split; [done|]. naive_solver lia.
  - destruct (array_byte a k Ha ltac:(lia)) as (x & Hx & [Hx1 Hx2]).
    destruct (array_byte b k Hb ltac:(lia)) as (y & Hy & [Hy1 Hy2]).
    rewrite Hx, Hy. cbn [mbind option_bind]. destruct (Z.eqb_spec (Z.land x y) 0) as [H0|H0]; cbn [negb].
    + destruct (IH a b ltac:(lia) Ha Hb) as (r & -> & Hr). exists r. split; [done|]. rewrite Hr.
      split; intros (i & Hi & Hai & Hbi); exists i; (split; [|done]); [lia|].
      destruct (decide (i / 8 = k)) as [He|]; [|lia]. exfalso.
      rewrite (bit_lookup a i x) in Hai by by rewrite He. rewrite (bit_lookup b i y) in Hbi by by rewrite He.
      assert (Z.testbit (Z.land x y) (Z.of_nat (i mod 8)) = true) as Ht by by rewrite Z.land_spec, Hai, Hbi.
      by rewrite H0, Z.bits_0 in Ht.
    + exists true. split; [done|]. split; [|done]. intros _.
      assert (0 <= Z.land x y)%Z by (apply Z.land_nonneg; lia).
      assert (Z.land x y < 256)%Z.
      { destruct (Z.eq_dec (Z.land x y) 0); [lia|]. change 256%Z with (2 ^ 8)%Z. apply Z.log2_lt_pow2; [lia|].
        apply (Z.le_lt_trans _ (Z.min (Z.log2 x) (Z.log2 y))); [by apply Z.log2_land|].
        apply Z.min_lt_iff. left. destruct (Z.eq_dec x 0) as [->|]; [done|]. apply Z.log2_lt_pow2; lia. }
      destruct (byte_nonzero (Z.land x y)) as (j & Hj & Ht); [done|done|].
      rewrite Z.land_spec in Ht. apply andb_true_iff in Ht as [Htx Hty].
      destruct (div8 k j Hj) as [Hd Hm]. exists (k * 8 + j).
      rewrite (bit_lookup a _ x), (bit_lookup b _ y), Hm by by rewrite Hd. rewrite Hd. split; [lia|done].
Qed.

Lemma bit_has_and_spec a b X Y : stands_for a X -> stands_for b Y ->
  bit_has_and a b nb = Some (negb (bool_decide (X ∩ Y = ∅))).
Proof.
  intros Ha Hb. destruct (bit_has_and_from nb a b (le_n _)) as (r & -> & Hr); [apply Ha|apply Hb|].
  f_equal. apply eq_bool_prop_intro. rewrite negb_True, bool_decide_spec.
  transitivity (r = true); [split; [apply Is_true_eq_true|by intros ->]|]. rewrite Hr.
  assert (Hlt : forall i, i / 8 < nb -> i < 8 * nb).
  { intros i Hi. pose proof (Nat.div_mod i 8 ltac:(done)). pose proof (mod8_lt i). lia. }
  split.
  - intros (i & Hi%Hlt & Hai & Hbi). rewrite (stands_for_bit a X i Ha Hi) in Hai.
    rewrite (stands_for_bit b Y i Hb Hi) in Hbi. bool_prop. set_solver.
  - intros (i & Hi)%set_choose_L. apply elem_of_intersection in Hi as [HX HY]. exists i.
    pose proof (stands_for_range a X i Ha HX) as Hi.
    rewrite (stands_for_bit a X i Ha Hi), (stands_for_bit b Y i Hb Hi), !bool_decide_eq_true.
    split; [by apply index_lt|done].
Qed.

Lemma bit_has_any_from k : forall a, k <= nb -> array_ok a ->
  exists r, bit_has_any a k = Some r /\ (r = true <-> exists i, i / 8 < k /\ bit a i = true).
Proof.
  induction k as [|k IH]; intros a Hk Ha; cbn [bit_has_any].
  - exists false. split; [done|]. naive_solver lia.
  - destruct (array_byte a k Ha ltac:(lia)) as (x & Hx & [Hx1 Hx2]).
    rewrite Hx. cbn [mbind option_bind]. destruct (Z.ltb_spec 0 x).
    + exists true. split; [done|]. split; [|done]. intros _.
      destruct (byte_nonzero x) as (j & Hj & Ht); [done|lia|].
      destruct (div8 k j Hj) as [Hd Hm]. exists (k * 8 + j).
      rewrite (bit_lookup a _ x), Hm by by rewrite Hd. rewrite Hd. split; [lia|done].
    + destruct (IH a ltac:(lia) Ha) as (r & -> & Hr). exists r. split; [done|]. rewrite Hr.
      split; intros (i & Hi & Hai); exists i; (split; [|done]); [lia|].
      destruct (decide (i / 8 = k)) as [He|]; [|lia]. exfalso.
      rewrite (bit_lookup a i x) in Hai by by rewrite He. assert (x = 0%Z) as -> by lia.
      by rewrite Z.bits_0 in Hai.
Qed.

Lemma bit_has_any_spec a X : stands_for a X -> bit_has_any a nb = Some (negb (bool_decide (X = ∅))).
Proof.
  intros Ha. destruct (bit_has_any_from nb a (le_n _)) as (r & -> & Hr); [apply Ha|].
  f_equal. apply eq_bool_prop_intro. rewrite negb_True, bool_decide_spec.
  transitivity (r = true); [split; [apply Is_true_eq_true|by intros ->]|]. rewrite Hr. split.
  - intros (i & Hi & Hai) ->. assert (i < 8 * nb).
    { pose proof (Nat.div_mod i 8 ltac:(done)). pose proof (mod8_lt i). lia. }
    rewrite (stands_for_bit a ∅ i Ha) in Hai by done. bool_prop. set_solver.
  - intros (i & HX)%set_choose_L. exists i. pose proof (stands_for_range a X i Ha HX) as Hi.
    rewrite (stands_for_bit a X i Ha Hi), bool_decide_eq_true. split; [by apply index_lt|done].
Qed.

End Sets.

Lemma nr_bytes_div n : nr_bytes n = (n + 7) / 8.
Proof.
  unfold nr_bytes. rewrite <- Z.ldiff_land. change 7%Z with (Z.ones 3) at 2.
  rewrite Z.ldiff_ones_r, Z.shiftr_shiftl_l, Z.sub_diag, Z.shiftl_0_r, Z.shiftr_div_pow2 by lia.
  apply Nat2Z.inj. rewrite Z2Nat.id by (apply Z.div_pos; lia).
  rewrite Nat2Z.inj_div, Nat2Z.inj_add. done.
Qed.

(** The bytes cover all [n] bits and less than one byte too much. *)
Lemma nr_bytes_bounds n : n <= 8 * nr_bytes n < n + 8.
Proof.
  rewrite nr_bytes_div. pose proof (Nat.div_mod (n + 7) 8 ltac:(done)).
  pose proof (Nat.mod_upper_bound (n + 7) 8 ltac:(done)). lia.
Qed.

(** ** [writeCharArrayInitList] *)

Module Initializer.

(** Conversion to [char], signed on the platforms the code is built for. *)
Definition s8 (z : Z) : Z := ((z + 128) mod 256 - 128)%Z.

(** The loop over [boolString]: the characters it appends to [charArray]. *)
Fixpoint pack (bools : list ascii) (index : nat) (currChar : Z) : list Z :=
  match bools with
  | [] => if index =? 0 then [] else [currChar]
  | b :: bools =>
      let currChar :=
        if Ascii.eqb b "1" then s8 (Z.lor currChar (Z.shiftl 1 (Z.of_nat index))) else currChar in
      if S index =? 8 then currChar :: pack bools 0 0 else pack bools (S index) currChar
  end.

Definition hex_digit (d : nat) : ascii :=
  default "0"%char (explode "0123456789abcdef" !! d).

(** [setw(2) << setfill('0') << hex << int(c & 0xFF)] *)
Definition put_byte (c : Z) : list ascii :=
  let v := Z.to_nat (Z.land c 0xFF) in [hex_digit (v / 16); hex_digit (v mod 16)].

Fixpoint put_list (seperator : list ascii) (charArray : list Z) : list ascii :=
  match charArray with
  | [] => []
  | c :: charArray => seperator ++ explode "0x" ++ put_byte c ++ put_list (explode ", ") charArray
  end.

Definition writeCharArrayInitList (boolString : string) : string :=
  implode (put_list [] (pack (explode boolString) 0 0)).

(** How a C compiler reads the list: the language, not code of the project. *)
Definition hex_value (c : ascii) : option nat :=
  fst <$> list_find (fun d => d = c) (explode "0123456789abcdef").

Fixpoint read_list (s : list ascii) : option bytes :=
  match s with
  | "0"%char :: "x"%char :: h :: l :: rest =>
      h ← hex_value h; l ← hex_value l;
      let v := Z.of_nat (16 * h + l) in
      match rest with
      | [] => Some [v]
      | ","%char :: " "%char :: rest => vs ← read_list rest; Some (v :: vs)
      | _ => None
      end
  | _ => None
  end.

(** [const unsigned char a[size] = { initializer };] *)
Definition read_initializer (size : nat) (s : string) : option bytes :=
  vs ← (if String.eqb s "" then Some [] else read_list (explode s));
  if length vs <=? size then Some (vs ++ replicate (size - length vs) 0%Z) else None.

Lemma hex_round d : d < 16 -> hex_value (hex_digit d) = Some d.
Proof. intros Hd. do 16 (destruct d as [|d]; [done|]). lia. Qed.

Lemma put_byte_range c : Z.to_nat (Z.land c 0xFF) < 256.
Proof.
  change 0xFF%Z with (Z.ones 8). rewrite Z.land_ones by lia.
  pose proof (Z.mod_pos_bound c (2 ^ 8) ltac:(lia)). change (2 ^ 8)%Z with 256%Z in *. lia.
Qed.

Lemma land_ff c : Z.land c 0xFF = u8 c.
Proof. change 0xFF%Z with (Z.ones 8). by rewrite Z.land_ones. Qed.

(** What the compiler reads is what was packed. *)
Lemma read_put l : l <> [] -> read_list (put_list [] l) = Some (u8 <$> l).
Proof.
  induction l as [|c l IH]; [done|]. intros _. cbn [put_list app]. unfold put_byte.
  pose proof (put_byte_range c) as Hc. set (v := Z.to_nat (Z.land c 0xFF)) in *.
  change (explode "0x") with ["0"%char; "x"%char]. cbn [app read_list].
  rewrite (hex_round (v / 16)) by (apply Nat.Div0.div_lt_upper_bound; lia).
  rewrite (hex_round (v mod 16)) by (by apply Nat.mod_upper_bound). cbn [mbind option_bind].
  rewrite <- (Nat.div_mod v 16) by done.
  assert (Z.of_nat v = u8 c) as ->.
  { unfold v. rewrite land_ff, Z2Nat.id; [done|]. apply u8_byte. }
  destruct l as [|c' l]; [done|]. cbn [put_list]. change (explode ", ") with [","%char; " "%char]. cbn [app].
  specialize (IH ltac:(done)). cbn [put_list app] in IH.
  change (explode ", ") with [","%char; " "%char] in IH. by rewrite IH.
Qed.

Lemma bit_cons x l i : bit (x :: l) i = if i <? 8 then Z.testbit x (Z.of_nat i) else bit l (i - 8).
Proof.
  unfold bit. destruct (Nat.ltb_spec i 8) as [Hi|Hi].
  - by rewrite Nat.div_small, Nat.mod_small.
  - assert (i / 8 = S ((i - 8) / 8) /\ i mod 8 = (i - 8) mod 8) as [-> ->]; [|done].
    pose proof (Nat.div_add (i - 8) 1 8 ltac:(done)) as Hd. pose proof (Nat.Div0.mod_add (i - 8) 1 8) as Hm.
    replace (i - 8 + 1 * 8) with i in Hd, Hm by lia. rewrite Hd. lia.
Qed.

Lemma s8_testbit z k : (0 <= k < 8)%Z -> Z.testbit (u8 (s8 z)) k = Z.testbit z k.
Proof.
  intros Hk. assert (u8 (s8 z) = u8 z) as ->; [|by apply u8_testbit]. unfold u8, s8.
  rewrite Zminus_mod_idemp_l. f_equal. lia.
Qed.

Definition is_one (b : ascii) : bool := Ascii.eqb b "1".

(** Bit [i] of the packed bytes is the [i]-th character. *)
Lemma pack_bit bools : forall index cur i, index < 8 ->
  (forall j, index <= j < 8 -> Z.testbit (u8 cur) (Z.of_nat j) = false) ->
  bit (u8 <$> pack bools index cur) i =
  if i <? index then Z.testbit (u8 cur) (Z.of_nat i) else from_option is_one false (bools !! (i - index)).
Proof.
  induction bools as [|b bools IH]; intros index cur i Hi Hz; cbn [pack].
  - rewrite lookup_nil. cbn [from_option]. destruct (Nat.eqb_spec index 0) as [->|H0].
    + cbn. unfold bit. rewrite lookup_nil. by destruct (i <? 0) eqn:E.
    + cbn [fmap list_fmap]. rewrite bit_cons. destruct (Nat.ltb_spec i 8) as [H8|H8].
      * destruct (Nat.ltb_spec i index); [done|]. apply Hz. lia.
      * unfold bit. rewrite lookup_nil. destruct (Nat.ltb_spec i index); [lia|done].
  - set (cur' := if Ascii.eqb b "1" then _ else _).
    assert (Hc : forall j, j < 8 -> Z.testbit (u8 cur') (Z.of_nat j) =
      if j =? index then is_one b else Z.testbit (u8 cur) (Z.of_nat j)).
    { intros j Hj. unfold cur', is_one. destruct (Ascii.eqb b "1") eqn:Eb.
      - rewrite s8_testbit by lia. rewrite Z.lor_spec, pow2_testbit, <- (u8_testbit cur) by lia.
        destruct (Nat.eqb_spec j index) as [->|]; [apply orb_true_r|apply orb_false_r].
      - destruct (Nat.eqb_spec j index) as [->|]; [|done]. apply Hz. lia. }
    destruct (Nat.eqb_spec (S index) 8) as [H8|H8].
    + cbn [fmap list_fmap]. rewrite bit_cons. destruct (Nat.ltb_spec i 8) as [Hlt|Hge].
      * rewrite Hc by done. destruct (Nat.eqb_spec i index) as [->|Hne].
        -- by rewrite Nat.ltb_irrefl, Nat.sub_diag.
        -- destruct (Nat.ltb_spec i index); [done|lia].
      * rewrite IH; [|lia|]; [|intros j _; apply Z.bits_0].
        destruct (Nat.ltb_spec i index); [lia|]. cbn [Nat.ltb Nat.leb].
        replace (i - index) with (S (i - 8)) by lia. cbn. by rewrite Nat.sub_0_r.
    + rewrite IH; [|lia|].
      2:{ intros j Hj. rewrite Hc by lia. destruct (Nat.eqb_spec j index); [lia|]. apply Hz. lia. }
      destruct (Nat.ltb_spec i (S index)) as [Hs|Hs].
      * rewrite Hc by lia. destruct (Nat.eqb_spec i index) as [->|Hne].
        -- by rewrite Nat.ltb_irrefl, Nat.sub_diag.
        -- destruct (Nat.ltb_spec i index); [done|lia].
      * destruct (Nat.ltb_spec i index); [lia|]. by replace (i - index) with (S (i - S index)) by lia.
Qed.

Lemma pack_length bools : forall index cur, index < 8 ->
  8 * length (pack bools index cur) = 8 * nr_bytes (index + length bools).
Proof.
  induction bools as [|b bools IH]; intros index cur Hi; cbn [pack length].
  - rewrite nr_bytes_div, Nat.add_0_r. destruct (Nat.eqb_spec index 0) as [->|]; [done|].
    replace (index + 7) with (index - 1 + 1 * 8) by lia. rewrite Nat.div_add by done.
    by rewrite Nat.div_small by lia.
  - destruct (Nat.eqb_spec (S index) 8).
    + cbn [length]. rewrite Nat.mul_succ_r, IH by lia. rewrite !nr_bytes_div.
      replace (index + S (length bools) + 7) with (0 + length bools + 7 + 1 * 8) by lia.
      rewrite Nat.div_add by done. lia.
    + rewrite IH by lia. by replace (S index + length bools) with (index + S (length bools)) by lia.
Qed.

(** The positions of the character 1. *)
Definition ones (boolString : string) : gset nat :=
  list_to_set (filter (fun i => from_option is_one false (explode boolString !! i) = true)
    (seq 0 (length (explode boolString)))).

Lemma elem_of_ones s i : i ∈ ones s <-> from_option is_one false (explode s !! i) = true.
Proof.
  unfold ones. rewrite elem_of_list_to_set, list_elem_of_filter, elem_of_seq. split; [tauto|].
  intros H. split; [done|]. destruct (explode s !! i) as [b|] eqn:E; [|done].
  apply lookup_lt_Some in E. lia.
Qed.

Lemma bit_app_zeros l k i : bit (l ++ replicate k 0%Z) i = bit l i.
Proof.
  unfold bit. destruct (l !! (i / 8)) as [b|] eqn:E; [by rewrite (lookup_app_l_Some _ _ _ _ E)|].
  rewrite lookup_app_r by by apply lookup_ge_None_1.
  destruct (replicate k 0%Z !! (i / 8 - length l)) as [x|] eqn:Er; [|done].
  apply lookup_replicate in Er as [-> _]. apply Z.bits_0.
Qed.

Lemma read_packed boolString :
  (if String.eqb (writeCharArrayInitList boolString) "" then Some []
   else read_list (explode (writeCharArrayInitList boolString))) =
  Some (u8 <$> pack (explode boolString) 0 0).
Proof.
  unfold writeCharArrayInitList. destruct (pack (explode boolString) 0 0) as [|c l] eqn:E; [done|].
  destruct (String.eqb_spec (implode (put_list [] (c :: l))) "") as [He|_].
  - cbn [put_list app] in He. by change (explode "0x") with ["0"%char; "x"%char] in He.
  - rewrite explode_implode. by apply read_put.
Qed.

Lemma row_initializer size boolString :
  nr_bytes (length (explode boolString)) <= size ->
  exists a, read_initializer size (writeCharArrayInitList boolString) = Some a /\
    length a = size /\ stands_for size a (ones boolString).
Proof.
  intros Hs. unfold read_initializer. rewrite read_packed. cbn [mbind option_bind].
  pose proof (pack_length (explode boolString) 0 0 ltac:(lia)) as Hl. cbn [Nat.add] in Hl.
  set (a := u8 <$> pack (explode boolString) 0 0).
  assert (Hla : length a <= size) by (unfold a; rewrite length_fmap; lia).
  apply Nat.leb_le in Hla as Hb. rewrite Hb. eexists. split; [done|].
  assert (Hlen : length (a ++ replicate (size - length a) 0%Z) = size)
    by (rewrite length_app, length_replicate; lia).
  split; [done|]. split; [split; [lia|]|].
  - intros i b [Hi|[_ Hi]]%lookup_app_Some.
    + unfold a in Hi. apply list_lookup_fmap_Some in Hi as (x & -> & _). apply u8_byte.
    + by apply lookup_replicate in Hi as [-> _].
  - apply set_eq. intros i. rewrite elem_of_set_of, elem_of_ones, bit_app_zeros. unfold a.
    rewrite pack_bit by (try lia; intros j _; apply Z.bits_0). cbn [Nat.ltb Nat.leb]. rewrite Nat.sub_0_r.
    split; [tauto|]. intros H. split; [|done].
    destruct (explode boolString !! i) as [b|] eqn:E; [|done]. apply lookup_lt_Some in E.
    pose proof (nr_bytes_bounds (length (explode boolString))). lia.
Qed.

(** A printed row read back by a C compiler is an array of the size of the
    declaration in which exactly the bits of the row are set: the order of the
    bits in the bytes is that of the macros, and what the row leaves over of
    its last byte and of the array is zero. *)
Theorem initializer_roundtrip size boolString :
  nr_bytes (length (explode boolString)) <= size ->
  exists a, read_initializer size (writeCharArrayInitList boolString) = Some a /\
    length a = size /\ stands_for size a (ones boolString).
Proof. apply row_initializer. Qed.

Lemma initializer_roundtrip_witness : exists a,
  read_initializer 2 (writeCharArrayInitList "011100001") = Some a /\ length a = 2 /\
  stands_for 2 a (ones "011100001").
Proof. apply (initializer_roundtrip 2 "011100001"). vm_compute. lia. Defined.

End Initializer.
