(* ===== verification/CStep.v ===== *)
(** * The emitted state machine: [uscxml_step] of [transform/ChartToC.cpp]

    [ChartToC] prints a table per state and per transition ([writeTypes],
    [writeStates], [writeTransitions]) and one generic C function that runs
    them ([writeFSM]). This file models the tables, the context and every phase
    of that function. What C leaves undefined - an access outside of an array,
    a call through a null pointer - is the outcome [Undefined]. *)

From stdpp Require Import base list gmap strings.
From S2P Require Import Prelude CBits Effects.

Local Open Scope nat_scope.

(** ** [writeMacros]: return codes, flags and types *)

Definition USCXML_ERR_OK : Z := 0.
Definition USCXML_ERR_IDLE : Z := 1.
Definition USCXML_ERR_DONE : Z := 2.

Definition C_TRANS_SPONTANEOUS : Z := 0x01.
Definition C_TRANS_TARGETLESS : Z := 0x02.
Definition C_TRANS_INTERNAL : Z := 0x04.
Definition C_TRANS_HISTORY : Z := 0x08.
Definition C_TRANS_INITIAL : Z := 0x10.

Definition C_STATE_ATOMIC : Z := 0x01.
Definition C_STATE_PARALLEL : Z := 0x02.
Definition C_STATE_COMPOUND : Z := 0x03.
Definition C_STATE_FINAL : Z := 0x04.
Definition C_STATE_HISTORY_DEEP : Z := 0x05.
Definition C_STATE_HISTORY_SHALLOW : Z := 0x06.
Definition C_STATE_INITIAL : Z := 0x07.
Definition C_STATE_HAS_HISTORY : Z := 0x80.
Definition C_STATE_MASK (t : Z) : Z := Z.land t 0x7F.

Definition C_CTX_PRISTINE : Z := 0x00.
Definition C_CTX_SPONTANEOUS : Z := 0x01.
Definition C_CTX_INITIALIZED : Z := 0x02.
Definition C_CTX_TOP_LEVEL_FINAL : Z := 0x04.
Definition C_CTX_TRANSITION_FOUND : Z := 0x08.
Definition C_CTX_FINISHED : Z := 0x10.

(** ** [writeTypes] *)

Record elem_donedata := mkElemDonedata {
  dd_source : nat;
  dd_content : option string;
  dd_contentexpr : option string;
  dd_params : option nat;
}.

(** [USCXML_ELEM_DONEDATA_IS_SET] *)
Definition donedata_is_set (d : elem_donedata) : bool :=
  bool_decide (is_Some (dd_content d)) || bool_decide (is_Some (dd_contentexpr d)) ||
  bool_decide (is_Some (dd_params d)).

(** Function pointers are values of [Fn]; [None] is the null pointer. *)
Record uscxml_state (Fn : Type) := mkUscxmlState {
  cs_name : option string;
  cs_parent : nat;
  cs_on_entry : option Fn;
  cs_on_exit : option Fn;
  cs_invoke : option Fn;
  cs_children : bytes;
  cs_completion : bytes;
  cs_ancestors : bytes;
  cs_data : option nat;
  cs_type : Z;
}.
Arguments mkUscxmlState {Fn}. Arguments cs_name {Fn}. Arguments cs_parent {Fn}.
Arguments cs_on_entry {Fn}. Arguments cs_on_exit {Fn}. Arguments cs_invoke {Fn}.
Arguments cs_children {Fn}. Arguments cs_completion {Fn}. Arguments cs_ancestors {Fn}.
Arguments cs_data {Fn}. Arguments cs_type {Fn}.

Record uscxml_transition (Fn : Type) := mkUscxmlTransition {
  ct_source : nat;
  ct_target : bytes;
  ct_event : option string;
  ct_condition : option string;
  ct_is_enabled : option Fn;
  ct_on_transition : option Fn;
  ct_type : Z;
  ct_conflicts : bytes;
  ct_exit_set : bytes;
}.
Arguments mkUscxmlTransition {Fn}. Arguments ct_source {Fn}. Arguments ct_target {Fn}.
Arguments ct_event {Fn}. Arguments ct_condition {Fn}. Arguments ct_is_enabled {Fn}.
Arguments ct_on_transition {Fn}. Arguments ct_type {Fn}. Arguments ct_conflicts {Fn}.
Arguments ct_exit_set {Fn}.

(** [m_width] is the width of [USCXML_NR_STATES_TYPE] and
    [USCXML_NR_TRANS_TYPE], of which [uscxml_step] uses the larger one. *)
Record uscxml_machine (Fn : Type) := mkUscxmlMachine {
  m_width : Z;
  m_nr_states : nat;
  m_nr_transitions : nat;
  m_states : list (uscxml_state Fn);
  m_transitions : list (uscxml_transition Fn);
  m_donedata : list elem_donedata;
  m_script : option Fn;
}.
Arguments mkUscxmlMachine {Fn}. Arguments m_width {Fn}. Arguments m_nr_states {Fn}.
Arguments m_nr_transitions {Fn}. Arguments m_states {Fn}. Arguments m_transitions {Fn}.
Arguments m_donedata {Fn}. Arguments m_script {Fn}.

Record uscxml_ctx (Ev : Type) := mkUscxmlCtx {
  x_flags : Z;
  x_config : bytes;
  x_history : bytes;
  x_invocations : bytes;
  x_initialized_data : bytes;
  x_event : option Ev;
}.
Arguments mkUscxmlCtx {Ev}. Arguments x_flags {Ev}. Arguments x_config {Ev}.
Arguments x_history {Ev}. Arguments x_invocations {Ev}. Arguments x_initialized_data {Ev}.
Arguments x_event {Ev}.

Section Updates.
Context {Ev : Type}.
Definition with_flags f (x : uscxml_ctx Ev) : uscxml_ctx Ev := mkUscxmlCtx (f (x_flags x)) (x_config x) (x_history x)
  (x_invocations x) (x_initialized_data x) (x_event x).
Definition with_config a (x : uscxml_ctx Ev) : uscxml_ctx Ev := mkUscxmlCtx (x_flags x) a (x_history x)
  (x_invocations x) (x_initialized_data x) (x_event x).
Definition with_history a (x : uscxml_ctx Ev) : uscxml_ctx Ev := mkUscxmlCtx (x_flags x) (x_config x) a
  (x_invocations x) (x_initialized_data x) (x_event x).
Definition with_invocations a (x : uscxml_ctx Ev) : uscxml_ctx Ev := mkUscxmlCtx (x_flags x) (x_config x) (x_history x)
  a (x_initialized_data x) (x_event x).
Definition with_initialized_data a (x : uscxml_ctx Ev) : uscxml_ctx Ev := mkUscxmlCtx (x_flags x) (x_config x) (x_history x)
  (x_invocations x) a (x_event x).
Definition with_event e (x : uscxml_ctx Ev) : uscxml_ctx Ev := mkUscxmlCtx (x_flags x) (x_config x) (x_history x)
  (x_invocations x) (x_initialized_data x) e.
End Updates.

(** The callbacks of the context and what the function pointers of the tables
    do. All get a pointer to a constant context: they change [W], the rest of
    the world, only. Every callback of the context may be NULL, as the host
    program leaves it; the function pointers of the tables are in the tables.
    The results of [run_invoke], [raise_done_event] and [exec_content_init] are
    ignored by the code. *)
Class UscxmlCallbacks (Fn Ev W : Type) := {
  dequeue_internal : option (uscxml_ctx Ev -> W -> option Ev * W);
  dequeue_external : option (uscxml_ctx Ev -> W -> option Ev * W);
  is_matched : option (uscxml_ctx Ev -> uscxml_transition Fn -> Ev -> W -> Z * W);
  run_enabled : Fn -> uscxml_ctx Ev -> uscxml_transition Fn -> W -> Z * W;
  exec_content : Fn -> uscxml_ctx Ev -> nat -> option Ev -> W -> Z * W;
  run_invoke : Fn -> uscxml_ctx Ev -> nat -> bool -> W -> Z * W;
  raise_done_event : option (uscxml_ctx Ev -> nat -> option elem_donedata -> W -> Z * W);
  exec_content_init : option (uscxml_ctx Ev -> nat -> W -> Z * W);
}.

(** The callbacks that the code calls without a test for NULL. *)
Definition callback_missing {Fn Ev W : Type} {CB : UscxmlCallbacks Fn Ev W} : Prop :=
  is_matched (UscxmlCallbacks := CB) = None \/ raise_done_event (UscxmlCallbacks := CB) = None.

(** How the function is left before its end; a call of NULL is undefined. *)
Inductive Stop :=
| Return (err : Z)
| Undefined
| OutOfFuel.

(** The arrays on the stack, uninitialised on entry. *)
Record Stack := mkStack {
  k_conflicts : bytes;
  k_trans_set : bytes;
  k_target_set : bytes;
  k_exit_set : bytes;
  k_entry_set : bytes;
  k_tmp_states : bytes;
}.

(** ** Loops with a counter of [w] bits *)

Definition wrap_counter (w : Z) (i : nat) : nat := Z.to_nat (Z.of_nat i mod 2 ^ w).

Section Loops.
Context {St : Type} (w : Z).

(** [for (i = lo; i < N; i++) { body }], threading the local variables [b];
    the counter starts over when it exceeds its width. *)
Fixpoint for_fuel {B} (fuel : nat) (i N : nat) (body : nat -> B -> M Stop St B) (b : B) : M Stop St B :=
  match fuel with
  | 0 => throw OutOfFuel
  | S fuel => if i <? N then b ← body i b; for_fuel fuel (wrap_counter w (i + 1)) N body b else mret b
  end.

Definition for_ {B} (lo N : nat) (body : nat -> B -> M Stop St B) (b : B) : M Stop St B :=
  for_fuel (S N) lo N body b.

(** [for (j = lo; j < N; j++) if (test) { ...; break; }]: where it stops. *)
Fixpoint search_fuel (fuel : nat) (i N : nat) (test : nat -> M Stop St bool) : M Stop St (option nat) :=
  match fuel with
  | 0 => throw OutOfFuel
  | S fuel =>
      if i <? N
      then b ← test i; if b : bool then mret (Some i) else search_fuel fuel (wrap_counter w (i + 1)) N test
      else mret None
  end.

Definition search (lo N : nat) (test : nat -> M Stop St bool) : M Stop St (option nat) :=
  search_fuel (S N) lo N test.

(** [i = N; while (i-- > 0) { body }] *)
Definition down_ (N : nat) (body : nat -> M Stop St unit) : M Stop St unit :=
  forM_ (reverse (seq 0 N)) body.

End Loops.

(** ** [uscxml_step] *)

Section Step.
Context {Fn Ev W : Type} {CB : UscxmlCallbacks Fn Ev W}.
Context (m : uscxml_machine Fn).

Definition CM (A : Type) : Type := M Stop (uscxml_ctx Ev * W) A.

Definition checked {A} (r : option A) : CM A := fun s =>
  match r with Some a => (inr a, s) | None => (inl Undefined, s) end.

Definition ctx : CM (uscxml_ctx Ev) := fun s => (inr (fst s), s).
Definition set_ctx (f : uscxml_ctx Ev -> uscxml_ctx Ev) : CM unit := modify (fun '(x, s) => (f x, s)).

(** A call through a function pointer. *)
Definition invoke_fn {A} (f : uscxml_ctx Ev -> W -> A * W) : CM A := fun '(x, s) =>
  let '(a, s') := f x s in (inr a, (x, s')).

Definition GET_STATE (i : nat) : CM (uscxml_state Fn) := checked (m_states m !! i).
Definition GET_TRANS (i : nat) : CM (uscxml_transition Fn) := checked (m_transitions m !! i).

Abbreviation N_STATES := (m_nr_states m).
Abbreviation N_TRANS := (m_nr_transitions m).
Abbreviation nr_states_bytes := (nr_bytes (m_nr_states m)).
Abbreviation nr_trans_bytes := (nr_bytes (m_nr_transitions m)).
Abbreviation w := (m_width m).

Definition flag_set (flags mask : Z) : bool := negb (Z.land flags mask =? 0)%Z.

(** [if unlikely((err = fn(...)) != USCXML_ERR_OK) return err;] *)
Definition or_return (call : CM Z) : CM unit :=
  err ← call; if (err =? USCXML_ERR_OK)%Z then mret tt else throw (Return err).

Definition c_run_content (f : option Fn) (i : nat) : CM unit :=
  match f with
  | Some f => or_return (invoke_fn (fun x => exec_content f x i (x_event x)))
  | None => mret tt
  end.

Definition c_run_invoke (i : nat) (uninvoke : bool) : CM unit :=
  s ← GET_STATE i;
  match cs_invoke s with
  | Some f => _ ← invoke_fn (fun x => run_invoke f x i uninvoke); mret tt
  | None => mret tt
  end.

Definition c_clear_invocation (i : nat) : CM unit :=
  x ← ctx; inv ← checked (BIT_CLEAR i (x_invocations x)); set_ctx (with_invocations inv).

(** *** USCXML_CTX_TOP_LEVEL_FINAL *)

Definition c_finish_state (i : nat) : CM unit :=
  x ← ctx;
  active ← checked (BIT_HAS i (x_config x));
  (if active : bool then s ← GET_STATE i; c_run_content (cs_on_exit s) i else mret tt);;
  x ← ctx;
  invoked ← checked (BIT_HAS i (x_invocations x));
  if invoked : bool then c_run_invoke i true;; c_clear_invocation i else mret tt.

Definition c_finish : CM Z :=
  down_ N_STATES c_finish_state;;
  set_ctx (with_flags (fun f => Z.lor f C_CTX_FINISHED));;
  mret USCXML_ERR_DONE.

(** *** Invocations *)

Definition c_manage_invocation (i : nat) (_ : unit) : CM unit :=
  x ← ctx;
  active ← checked (BIT_HAS i (x_config x));
  invoked ← checked (BIT_HAS i (x_invocations x));
  (if negb active && invoked then c_run_invoke i true;; c_clear_invocation i else mret tt);;
  x ← ctx;
  invoked ← checked (BIT_HAS i (x_invocations x));
  if active && negb invoked then
    c_run_invoke i false;;
    x ← ctx; inv ← checked (BIT_SET_AT i (x_invocations x)); set_ctx (with_invocations inv)
  else mret tt.

(** *** SELECT_TRANSITIONS *)

Record Selection := mkSelection {
  l_conflicts : bytes;
  l_target_set : bytes;
  l_exit_set : bytes;
  l_trans_set : bytes;
}.

Definition c_matches (t : uscxml_transition Fn) : CM bool :=
  x ← ctx;
  match x_event x with
  | None => mret true
  | Some e => f ← checked is_matched; r ← invoke_fn (fun x => f x t e); mret (0 <? r)%Z
  end.

Definition c_enabled (t : uscxml_transition Fn) : CM bool :=
  match ct_condition t with
  | None => mret true
  | Some _ =>
      f ← checked (ct_is_enabled t);
      r ← invoke_fn (fun x => run_enabled f x t); mret (0 <? r)%Z
  end.

Definition c_take (i : nat) (t : uscxml_transition Fn) (l : Selection) : CM Selection :=
  set_ctx (with_flags (fun f => Z.lor f C_CTX_TRANSITION_FOUND));;
  conflicts ← checked (bit_or (l_conflicts l) (ct_conflicts t) nr_trans_bytes);
  target_set ← checked (bit_or (l_target_set l) (ct_target t) nr_states_bytes);
  exit_set ← checked (bit_or (l_exit_set l) (ct_exit_set t) nr_states_bytes);
  trans_set ← checked (BIT_SET_AT i (l_trans_set l));
  mret (mkSelection conflicts target_set exit_set trans_set).

Definition c_select_one (i : nat) (l : Selection) : CM Selection :=
  t ← GET_TRANS i;
  if flag_set (ct_type t) (Z.lor C_TRANS_HISTORY C_TRANS_INITIAL) then mret l else
  x ← ctx;
  active ← checked (BIT_HAS (ct_source t) (x_config x));
  if negb active then mret l else
  preempted ← checked (BIT_HAS i (l_conflicts l));
  if preempted : bool then mret l else
  if bool_decide (is_Some (ct_event t) <-> is_Some (x_event x)) then
    matches ← c_matches t;
    enabled ← (if matches : bool then c_enabled t else mret false);
    if enabled : bool then c_take i t l else mret l
  else mret l.

Definition c_select (target_set trans_set : bytes) (stack : Stack) : CM Selection :=
  conflicts ← checked (bit_clear_all (k_conflicts stack) nr_trans_bytes);
  exit_set ← checked (bit_clear_all (k_exit_set stack) nr_states_bytes);
  l ← for_ w 0 N_TRANS c_select_one (mkSelection conflicts target_set exit_set trans_set);
  x ← ctx;
  exit_set ← checked (bit_and (l_exit_set l) (x_config x) nr_states_bytes);
  mret (mkSelection (l_conflicts l) (l_target_set l) exit_set (l_trans_set l)).

(** *** REMEMBER_HISTORY *)

Definition c_is_history (t : Z) : bool :=
  (C_STATE_MASK t =? C_STATE_HISTORY_SHALLOW)%Z || (C_STATE_MASK t =? C_STATE_HISTORY_DEEP)%Z.

Definition c_remember_one (exit_set : bytes) (i : nat) (tmp_states : bytes) : CM bytes :=
  s ← GET_STATE i;
  if negb (c_is_history (cs_type s)) then mret tmp_states else
  leaving ← checked (BIT_HAS (cs_parent s) exit_set);
  if negb leaving then mret tmp_states else
  tmp_states ← checked (bit_copy tmp_states (cs_completion s) nr_states_bytes);
  x ← ctx;
  tmp_states ← checked (bit_and tmp_states (x_config x) nr_states_bytes);
  history ← checked (bit_and_not (x_history x) (cs_completion s) nr_states_bytes);
  history ← checked (bit_or history tmp_states nr_states_bytes);
  set_ctx (with_history history);;
  mret tmp_states.

Definition c_remember_history (exit_set : bytes) (tmp_states : bytes) : CM bytes :=
  for_ w 0 N_STATES (c_remember_one exit_set) tmp_states.

(** *** ESTABLISH_ENTRY_SET *)

Definition c_add_ancestors (i : nat) (entry_set : bytes) : CM bytes :=
  h ← checked (BIT_HAS i entry_set);
  if h : bool then s ← GET_STATE i; checked (bit_or entry_set (cs_ancestors s) nr_states_bytes)
  else mret entry_set.

(** [(entry_set, trans_set, tmp_states)] *)
Definition Entry : Type := bytes * bytes * bytes.

Definition c_source_is (i j : nat) : CM bool := t ← GET_TRANS j; mret (ct_source t =? i).

(** The ancestors of the first member of [a] behind [i]. *)
Definition c_ancestors_of_first (i : nat) (a entry_set : bytes) : CM bytes :=
  k ← search w (i + 1) N_STATES (fun k => checked (BIT_HAS k a));
  match k with
  | Some k => s ← GET_STATE k; checked (bit_or entry_set (cs_ancestors s) nr_states_bytes)
  | None => mret entry_set
  end.

Definition c_default_history (i : nat) (e : Entry) : CM Entry :=
  let '(entry_set, trans_set, tmp_states) := e in
  j ← search w 0 N_TRANS (c_source_is i);
  match j with
  | None => mret e
  | Some j =>
      t ← GET_TRANS j;
      s ← GET_STATE i;
      entry_set ← checked (bit_or entry_set (ct_target t) nr_states_bytes);
      entry_set ←
        (if (C_STATE_MASK (cs_type s) =? C_STATE_HISTORY_DEEP)%Z then
           child ← checked (bit_has_and (ct_target t) (cs_children s) nr_states_bytes);
           if negb child then c_ancestors_of_first i (ct_target t) entry_set else mret entry_set
         else mret entry_set);
      trans_set ← checked (BIT_SET_AT j trans_set);
      mret (entry_set, trans_set, tmp_states)
  end.

Definition c_nested_history (children : bytes) (k : nat) (entry_set : bytes) : CM bytes :=
  s ← GET_STATE k;
  if c_is_history (cs_type s) then
    child ← checked (BIT_HAS k children);
    if child : bool then checked (BIT_SET_AT k entry_set) else mret entry_set
  else mret entry_set.

Definition c_nested_histories (completion : bytes) (j : nat) (entry_set : bytes) : CM bytes :=
  covered ← checked (BIT_HAS j completion);
  if negb covered then mret entry_set else
  entered ← checked (BIT_HAS j entry_set);
  if negb entered then mret entry_set else
  s ← GET_STATE j;
  if flag_set (cs_type s) C_STATE_HAS_HISTORY
  then for_ w (j + 1) N_STATES (c_nested_history (cs_children s)) entry_set
  else mret entry_set.

Definition c_restore_history (i : nat) (e : Entry) : CM Entry :=
  let '(entry_set, trans_set, tmp_states) := e in
  s ← GET_STATE i;
  tmp_states ← checked (bit_copy tmp_states (cs_completion s) nr_states_bytes);
  x ← ctx;
  tmp_states ← checked (bit_and tmp_states (x_history x) nr_states_bytes);
  entry_set ← checked (bit_or entry_set tmp_states nr_states_bytes);
  entry_set ←
    (if (cs_type s =? Z.lor C_STATE_HAS_HISTORY C_STATE_HISTORY_DEEP)%Z
     then for_ w (i + 1) N_STATES (c_nested_histories (cs_completion s)) entry_set
     else mret entry_set);
  mret (entry_set, trans_set, tmp_states).

Definition c_initial_ancestors (target : bytes) (k : nat) (entry_set : bytes) : CM bytes :=
  h ← checked (BIT_HAS k target);
  if h : bool then s ← GET_STATE k; checked (bit_or entry_set (cs_ancestors s) nr_states_bytes)
  else mret entry_set.

Definition c_initial_transition (i j : nat) (e : Entry) : CM Entry :=
  let '(entry_set, trans_set, tmp_states) := e in
  t ← GET_TRANS j;
  if ct_source t =? i then
    trans_set ← checked (BIT_SET_AT j trans_set);
    entry_set ← checked (BIT_CLEAR i entry_set);
    entry_set ← checked (bit_or entry_set (ct_target t) nr_states_bytes);
    entry_set ← for_ w (i + 1) N_STATES (c_initial_ancestors (ct_target t)) entry_set;
    mret (entry_set, trans_set, tmp_states)
  else mret e.

Definition c_complete_compound (i : nat) (exit_set entry_set : bytes) : CM bytes :=
  s ← GET_STATE i;
  x ← ctx;
  has_child ← checked (bit_has_and entry_set (cs_children s) nr_states_bytes);
  if has_child : bool then mret entry_set else
  active ← checked (bit_has_and (x_config x) (cs_children s) nr_states_bytes);
  needed ← (if negb active then mret true
            else checked (bit_has_and exit_set (cs_children s) nr_states_bytes));
  if negb needed then mret entry_set else
  entry_set ← checked (bit_or entry_set (cs_completion s) nr_states_bytes);
  direct ← checked (bit_has_and (cs_completion s) (cs_children s) nr_states_bytes);
  if negb direct then c_ancestors_of_first i (cs_completion s) entry_set else mret entry_set.

Definition c_descend (exit_set : bytes) (i : nat) (e : Entry) : CM Entry :=
  let '(entry_set, trans_set, tmp_states) := e in
  h ← checked (BIT_HAS i entry_set);
  if negb h then mret e else
  s ← GET_STATE i;
  let t := C_STATE_MASK (cs_type s) in
  if (t =? C_STATE_PARALLEL)%Z then
    entry_set ← checked (bit_or entry_set (cs_completion s) nr_states_bytes);
    mret (entry_set, trans_set, tmp_states)
  else if c_is_history (cs_type s) then
    x ← ctx;
    recorded ← checked (bit_has_and (cs_completion s) (x_history x) nr_states_bytes);
    inside ← (if recorded : bool then mret true else checked (BIT_HAS (cs_parent s) (x_config x)));
    if negb inside then c_default_history i e else c_restore_history i e
  else if (t =? C_STATE_INITIAL)%Z then for_ w 0 N_TRANS (c_initial_transition i) e
  else if (t =? C_STATE_COMPOUND)%Z then
    entry_set ← c_complete_compound i exit_set entry_set;
    mret (entry_set, trans_set, tmp_states)
  else mret e.

Definition c_establish_entry_set (target_set exit_set entry_set : bytes) (trans_set tmp_states : bytes) : CM Entry :=
  entry_set ← checked (bit_copy entry_set target_set nr_states_bytes);
  entry_set ← for_ w 0 N_STATES c_add_ancestors entry_set;
  for_ w 0 N_STATES (c_descend exit_set) (entry_set, trans_set, tmp_states).

(** *** EXIT_STATES, TAKE_TRANSITIONS *)

Definition c_exit_state (exit_set : bytes) (i : nat) : CM unit :=
  leaving ← checked (BIT_HAS i exit_set);
  if negb leaving then mret tt else
  x ← ctx;
  active ← checked (BIT_HAS i (x_config x));
  if negb active then mret tt else
  s ← GET_STATE i;
  c_run_content (cs_on_exit s) i;;
  x ← ctx; config ← checked (BIT_CLEAR i (x_config x)); set_ctx (with_config config).

Definition c_take_transition (trans_set : bytes) (i : nat) (_ : unit) : CM unit :=
  taken ← checked (BIT_HAS i trans_set);
  if negb taken then mret tt else
  t ← GET_TRANS i;
  if flag_set (ct_type t) (Z.lor C_TRANS_HISTORY C_TRANS_INITIAL) then mret tt
  else c_run_content (ct_on_transition t) (ct_source t).

(** *** ENTER_STATES *)

Definition c_is_pseudo (t : Z) : bool :=
  (C_STATE_MASK t =? C_STATE_HISTORY_DEEP)%Z || (C_STATE_MASK t =? C_STATE_HISTORY_SHALLOW)%Z ||
  (C_STATE_MASK t =? C_STATE_INITIAL)%Z.

Definition c_init_data (i : nat) (s : uscxml_state Fn) : CM unit :=
  x ← ctx;
  done ← checked (BIT_HAS i (x_initialized_data x));
  if done : bool then mret tt else
  (match cs_data s, exec_content_init with
   | Some d, Some f => _ ← invoke_fn (fun x => f x d); mret tt
   | _, _ => mret tt
   end);;
  x ← ctx;
  data ← checked (BIT_SET_AT i (x_initialized_data x));
  set_ctx (with_initialized_data data).

Definition c_pseudo_transition (trans_set : bytes) (i j : nat) (_ : unit) : CM unit :=
  taken ← checked (BIT_HAS j trans_set);
  if negb taken then mret tt else
  t ← GET_TRANS j;
  if negb (flag_set (ct_type t) (Z.lor C_TRANS_HISTORY C_TRANS_INITIAL)) then mret tt else
  s ← GET_STATE (ct_source t);
  if cs_parent s =? i then c_run_content (ct_on_transition t) i else mret tt.

(** [while (USCXML_ELEM_DONEDATA_IS_SET(donedata)) { ... donedata++; }] *)
Fixpoint c_find_donedata (i : nat) (ds : list elem_donedata) : CM (option elem_donedata) :=
  match ds with
  | [] => throw Undefined
  | d :: ds =>
      if donedata_is_set d then if dd_source d =? i then mret (Some d) else c_find_donedata i ds
      else mret None
  end.

Definition c_raise_done (i : nat) (d : option elem_donedata) : CM unit :=
  f ← checked raise_done_event; _ ← invoke_fn (fun x => f x i d); mret tt.

(** The active descendants of the parallel state [j] that no final state accounts for. *)
Definition c_unfinished_one (j k : nat) (tmp_states : bytes) : CM bytes :=
  s ← GET_STATE k;
  below ← checked (BIT_HAS j (cs_ancestors s));
  if negb below then mret tmp_states else
  x ← ctx;
  active ← checked (BIT_HAS k (x_config x));
  if negb active then mret tmp_states else
  if (C_STATE_MASK (cs_type s) =? C_STATE_FINAL)%Z
  then checked (bit_and_not tmp_states (cs_ancestors s) nr_states_bytes)
  else checked (BIT_SET_AT k tmp_states).

Definition c_parallel_done (i j : nat) (tmp_states : bytes) : CM bytes :=
  p ← GET_STATE j;
  if negb (C_STATE_MASK (cs_type p) =? C_STATE_PARALLEL)%Z then mret tmp_states else
  s ← GET_STATE i;
  above ← checked (BIT_HAS j (cs_ancestors s));
  if negb above then mret tmp_states else
  tmp_states ← checked (bit_clear_all tmp_states nr_states_bytes);
  tmp_states ← for_ w 0 N_STATES (c_unfinished_one j) tmp_states;
  rest ← checked (bit_has_any tmp_states nr_states_bytes);
  (if negb rest then c_raise_done j None else mret tt);;
  mret tmp_states.

Definition c_enter_final (i : nat) (s : uscxml_state Fn) (tmp_states : bytes) : CM bytes :=
  first ← checked (cs_ancestors s !! 0);
  (if (first =? 0x01)%Z then set_ctx (with_flags (fun f => Z.lor f C_CTX_TOP_LEVEL_FINAL))
   else d ← c_find_donedata i (m_donedata m); c_raise_done (cs_parent s) d);;
  for_ w 0 N_STATES (c_parallel_done i) tmp_states.

Definition c_enter_state (entry_set trans_set : bytes) (i : nat) (tmp_states : bytes) : CM bytes :=
  entered ← checked (BIT_HAS i entry_set);
  if negb entered then mret tmp_states else
  x ← ctx;
  active ← checked (BIT_HAS i (x_config x));
  if active : bool then mret tmp_states else
  s ← GET_STATE i;
  if c_is_pseudo (cs_type s) then mret tmp_states else
  config ← checked (BIT_SET_AT i (x_config x));
  set_ctx (with_config config);;
  c_init_data i s;;
  c_run_content (cs_on_entry s) i;;
  for_ w 0 N_TRANS (c_pseudo_transition trans_set i) tt;;
  if (C_STATE_MASK (cs_type s) =? C_STATE_FINAL)%Z then c_enter_final i s tmp_states else mret tmp_states.

(** From ESTABLISH_ENTRY_SET to the end. *)
Definition c_microstep (target_set exit_set trans_set tmp_states : bytes) (stack : Stack) : CM Z :=
  e ← c_establish_entry_set target_set exit_set (k_entry_set stack) trans_set tmp_states;
  let '(entry_set, trans_set, tmp_states) := e in
  down_ N_STATES (c_exit_state exit_set);;
  for_ w 0 N_TRANS (c_take_transition trans_set) tt;;
  _ ← for_ w 0 N_STATES (c_enter_state entry_set trans_set) tmp_states;
  mret USCXML_ERR_OK.

(** *** DEQUEUE_EVENT: the event to process, or the code to return *)

Definition c_dequeue (queue : option (uscxml_ctx Ev -> W -> option Ev * W)) : CM bool :=
  match queue with
  | None => mret false
  | Some f => e ← invoke_fn f; set_ctx (with_event e);; mret (bool_decide (is_Some e))
  end.

Definition c_next_event : CM (option Z) :=
  x ← ctx;
  if flag_set (x_flags x) C_CTX_SPONTANEOUS then set_ctx (with_event None);; mret None else
  internal ← c_dequeue dequeue_internal;
  if internal : bool then mret None else
  for_ w 0 N_STATES c_manage_invocation tt;;
  external ← c_dequeue dequeue_external;
  if external : bool then mret None else
  mret (Some (match dequeue_external with None => USCXML_ERR_DONE | Some _ => USCXML_ERR_IDLE end)).

(** From SELECT_TRANSITIONS to the end: [None] for [goto DEQUEUE_EVENT]. *)
Definition c_select_and_step (target_set trans_set : bytes) (stack : Stack) : CM (option Z * Selection) :=
  l ← c_select target_set trans_set stack;
  x ← ctx;
  if flag_set (x_flags x) C_CTX_TRANSITION_FOUND then
    set_ctx (with_flags (fun f => Z.land (Z.lor f C_CTX_SPONTANEOUS) (Z.lnot C_CTX_TRANSITION_FOUND)));;
    tmp_states ← c_remember_history (l_exit_set l) (k_tmp_states stack);
    code ← c_microstep (l_target_set l) (l_exit_set l) (l_trans_set l) tmp_states stack;
    mret (Some code, l)
  else
    set_ctx (with_flags (fun f => Z.land f (Z.lnot C_CTX_SPONTANEOUS)));;
    mret (None, l).

(** The stack when control is back at DEQUEUE_EVENT. *)
Definition stack_after (l : Selection) (stack : Stack) : Stack :=
  mkStack (l_conflicts l) (k_trans_set stack) (k_target_set stack) (l_exit_set l)
    (k_entry_set stack) (k_tmp_states stack).

(** DEQUEUE_EVENT to the end; [goto DEQUEUE_EVENT] takes one unit of fuel. *)
Fixpoint c_event_loop (fuel : nat) (target_set trans_set : bytes) (stack : Stack) : CM Z :=
  match fuel with
  | 0 => throw OutOfFuel
  | S fuel =>
      r ← c_next_event;
      match r with
      | Some code => mret code
      | None =>
          r ← c_select_and_step target_set trans_set stack;
          match fst r with
          | Some code => mret code
          | None => let l := snd r in
              c_event_loop fuel (l_target_set l) (l_trans_set l) (stack_after l stack)
          end
      end
  end.

(** USCXML_CTX_PRISTINE, with [goto ESTABLISH_ENTRY_SET]. *)
Definition c_first_step (target_set trans_set : bytes) (stack : Stack) : CM Z :=
  (match m_script m with
   | Some f => _ ← invoke_fn (fun x => exec_content f x 0 None); mret tt
   | None => mret tt
   end);;
  s ← GET_STATE 0;
  target_set ← checked (bit_or target_set (cs_completion s) nr_states_bytes);
  set_ctx (with_flags (fun f => Z.lor f (Z.lor C_CTX_SPONTANEOUS C_CTX_INITIALIZED)));;
  c_microstep target_set (k_exit_set stack) trans_set (k_tmp_states stack) stack.

Definition uscxml_step (fuel : nat) (stack : Stack) : CM Z :=
  x ← ctx;
  if flag_set (x_flags x) C_CTX_FINISHED then mret USCXML_ERR_DONE else
  if flag_set (x_flags x) C_CTX_TOP_LEVEL_FINAL then c_finish else
  target_set ← checked (bit_clear_all (k_target_set stack) nr_states_bytes);
  trans_set ← checked (bit_clear_all (k_trans_set stack) nr_trans_bytes);
  if (x_flags x =? C_CTX_PRISTINE)%Z then c_first_step target_set trans_set stack
  else c_event_loop fuel target_set trans_set stack.

(** The value the function returns. *)
Definition returned (r : Stop + Z) : option Z :=
  match r with inr code => Some code | inl (Return err) => Some err | inl _ => None end.

End Step.
