(* ===== verification/CTables.v ===== *)
(** * The tables of the emitted machine: [ChartToC::prepare] and its printers

    [prepare] orders the document and leaves what it computes as attributes of
    the elements; [writeStates], [writeTransitions], [writeElementInfo] and
    [writeMachineInfo] print them as initialisers of C arrays. This file models
    both, with the value a C compiler gives to each initialiser, down to the
    [uscxml_machine] of CStep.v. A row that does not compile, as its number is
    missing, is [None]. Attributes of the transformer's own names
    (hasHistoryChild, dataIndex, paramIndex) are taken to be absent from the
    source document, and the sizes of the bit arrays, computed with [float]s in
    the code, are the exact ones, which holds up to 2^24 states. *)

From stdpp Require Import base list gmap strings.
From S2P Require Import Prelude Strings Data Numbers CBits CStep Dom Predicates Chart.

Local Open Scope nat_scope.

(** ** Bit rows *)

Section Rows.
Context {A : Type}.

(** The loops that append a 1 or a 0 for every member of a list. *)
Definition boolString (p : A -> bool) (l : list A) : string :=
  implode ((fun x => if p x then "1"%char else "0"%char) <$> l).

(** The array a C compiler makes of the printed row. *)
Definition row_bytes (size : nat) (bools : string) : option bytes :=
  Initializer.read_initializer size (Initializer.writeCharArrayInitList bools).

End Rows.

(** The smallest of the four integer types. *)
Definition data_type (n : nat) : Z :=
  if (Z.of_nat n <? 2 ^ 8)%Z then 8
  else if (Z.of_nat n <? 2 ^ 16)%Z then 16
  else if (Z.of_nat n <? 2 ^ 32)%Z then 32
  else 64.

(** The functions that [writeExecContent] prints, by the element they are for. *)
Inductive Handler (node : Type) :=
| on_entry_fn (state : node)
| on_exit_fn (state : node)
| invoke_fn_of (state : node)
| is_enabled_fn (transition : node)
| on_trans_fn (transition : node)
| global_script_fn.
Arguments on_entry_fn {node}. Arguments on_exit_fn {node}. Arguments invoke_fn_of {node}.
Arguments is_enabled_fn {node}. Arguments on_trans_fn {node}. Arguments global_script_fn {node}.

(** ** [resortStates] *)

Section Resort.
Context {node : Type} `{!EqDecision node} {D : DomOps node}.

(** The prefix is that of each element, and the third pass compares tag names. *)
Definition p_resort_children (element : node) : list node :=
  let prefix := XML_PREFIX element in
  let isHist child := String.eqb (getTagName child) (prefix +:+ "history") in
  let shallow := resort_pass (fun child => isHist child &&
    (negb (HAS_ATTR element "type") || iequals (ATTR element "type") "shallow"))
    (childElements element) in
  let deep := resort_pass (fun child => isHist child &&
    HAS_ATTR element "type" && iequals (ATTR element "type") "deep") shallow in
  resort_pass (fun child => String.eqb (getTagName child) (prefix +:+ "initial")) deep.

Definition p_resortStates (scxml : node) : DomOps node := {|
  getParentNode := getParentNode;
  childElements n :=
    if bool_decide (scxml ∈ n :: parents n) then p_resort_children n else childElements n;
  textChildren := textChildren;
  getTagName := getTagName;
  getLocalName := getLocalName;
  getPrefix := getPrefix;
  getAttribute := getAttribute;
  nodeDepth := nodeDepth;
  nodeSize := nodeSize;
|}.

End Resort.

(** ** [prepare] *)

Section Prepare.
Context {node : Type} `{!EqDecision node} {D : DomOps node}.
Context (scxml : node).
Let P : string := XML_PREFIX scxml.

Definition p_state_tags : list string :=
  (fun t => P +:+ t)%string <$> ["scxml"; "state"; "final"; "history"; "initial"; "parallel"]%string.

(** [_states] and [_transitions] *)
Definition p_states : list node := inDocumentOrder p_state_tags scxml.

Definition p_transitions : list node :=
  filterChildElementsOf (P +:+ "transition") (inPostFixOrder p_state_tags scxml) false.

(** The attribute documentOrder of an element that is a state. *)
Definition p_index (e : node) : option nat := fst <$> list_find (fun x => x = e) p_states.

Definition childBools (state : node) : string :=
  boolString (fun e => bool_decide (getParentNode e = Some state)) p_states.

Definition ancBools (state : node) : string :=
  boolString (fun e => isDescendant (Some state) (Some e)) p_states.

Definition exitSetBools (transition : node) : string :=
  let exitSet := getExitSet transition scxml in
  boolString (fun e => isMember e exitSet) p_states.

Definition p_conflicts (transition t2 : node) : bool :=
  hasIntersection (getExitSet transition scxml) (getExitSet t2 scxml) ||
  bool_decide (getSourceState transition = getSourceState t2) ||
  isDescendant (getSourceState transition) (getSourceState t2) ||
  isDescendant (getSourceState t2) (getSourceState transition).

Definition conflictBools (transition : node) : string :=
  boolString (p_conflicts transition) p_transitions.

Definition is_target (targets : list string) (state : node) : bool :=
  HAS_ATTR state "id" && bool_decide (implode (escape (explode (ATTR state "id"))) ∈ targets).

(** The attribute targetBools, left out for a targetless transition. *)
Definition targetBools (transition : node) : option string :=
  if HAS_ATTR transition "target"
  then Some (boolString (is_target (tokenize (ATTR transition "target"))) p_states)
  else None.

(** *** [setHistoryCompletion] *)

(** The local variables of the loop, and the completions it has set. *)
Record Coverage := mkCoverage {
  h_covered : list node;
  h_perParentcovered : list node;
  h_parent : option node;
  h_completions : list (node * list node);
}.

Definition history_completion (covered : list node) (history : node) : list node :=
  let deep := HAS_ATTR history "type" && iequals (ATTR history "type") "deep" in
  List.filter (fun state =>
    negb (bool_decide (state = history)) && negb (isMember state covered) &&
    (if deep then isDescendant (Some state) (getParentNode history)
     else bool_decide (getParentNode state = getParentNode history)) &&
    negb (isHistory state)) p_states.

Definition cover_history (c : Coverage) (history : node) : Coverage :=
  let same := bool_decide (h_parent c = getParentNode history) in
  let covered := if same then h_covered c else h_covered c ++ h_perParentcovered c in
  let perParentcovered := if same then h_perParentcovered c else [] in
  let completion := history_completion covered history in
  mkCoverage covered (perParentcovered ++ completion) (getParentNode history)
    ((history, completion) :: h_completions c).

Definition setHistoryCompletion : list (node * list node) :=
  h_completions (foldl cover_history (mkCoverage [] [] None [])
    (inPostFixOrder [P +:+ "history"]%string scxml)).

(** The attribute hasHistoryChild, from [prepare] and [setHistoryCompletion]. *)
Definition p_hasHistoryChild (state : node) : bool :=
  existsb (fun e => bool_decide (getParentNode e = Some state) && isHistory e) p_states ||
  (String.eqb (getTagName state) (P +:+ "history") &&
   existsb (fun e => negb (bool_decide (e = state)) &&
     isDescendant (Some e) (getParentNode state) && isHistory e) p_states).

(** *** [setStateCompletion] *)

Definition p_completion (state : node) : list (option node) :=
  if isHistory state then
    Some <$> match List.find (fun hc => bool_decide (fst hc = state)) setHistoryCompletion with
             | Some (_, completion) => completion
             | None => []
             end
  else if isParallel state then Some <$> getChildStates state true
  else if HAS_ATTR state "initial" then getStates (tokenize (ATTR state "initial")) scxml
  else
    match filterChildElements (XML_PREFIX state +:+ "initial") state false with
    | initElem :: _ => [Some initElem]
    | [] =>
        match List.find (fun c => isState c true) (childElements state) with
        | Some childElem => [Some childElem]
        | None => []
        end
    end.

Definition completionBools (state : node) : string :=
  let completion := p_completion state in
  boolString (fun e => bool_decide (Some e ∈ completion)) p_states.

(** *** Sizes *)

Definition stateCharArraySize : nat := nr_bytes (length p_states).
Definition transCharArraySize : nat := nr_bytes (length p_transitions).

End Prepare.

(** ** [writeElementInfo]: rows of executable content *)

(** A printed string literal [escape(s)] is the string [s]; the serialisation
    of the children of a content element is Xerces' and a parameter. *)
Record elem_data := mkElemData {
  ed_id : option string; ed_src : option string; ed_expr : option string; ed_content : option string;
}.

Record elem_param := mkElemParam {
  ep_name : option string; ep_expr : option string; ep_location : option string;
}.

Record elem_foreach := mkElemForeach {
  ef_array : option string; ef_item : option string; ef_index : option string;
}.

Record elem_assign := mkElemAssign {
  ea_location : option string; ea_expr : option string; ea_content : option string;
}.

Record elem_send := mkElemSend {
  es_event : option string; es_eventexpr : option string; es_target : option string;
  es_targetexpr : option string; es_type : option string; es_typeexpr : option string;
  es_id : option string; es_idlocation : option string; es_delay : option Z;
  es_delayexpr : option string; es_namelist : option string; es_content : option string;
  es_contentexpr : option string; es_params : option nat;
}.

(** [strTo<unsigned long>], of 64 bits. *)
Definition strTo_ulong (tmp : string) : option Z :=
  match skip_blanks (explode tmp) with
  | [] => None
  | s => Some (Z.min (decimal (fst (span_digits s))) (2 ^ 64 - 1))%Z
  end.

(** The delay in milliseconds; [None] is a variable that was never written. *)
Definition printed_delay (attr : string) : option Z :=
  let delay := parseNumAttr attr in
  if String.eqb (na_unit delay) "ms" then strTo_ulong (na_value delay)
  else if String.eqb (na_unit delay) "s" then
    v ← strTo_ulong (na_value delay); Some ((v * 1000) mod 2 ^ 64)%Z
  else strTo_ulong (na_value delay).

Section Elements.
Context {node : Type} `{!EqDecision node} {D : DomOps node}.
Context (content_text : node -> string) (scxml : node).
Let P : string := XML_PREFIX scxml.

Definition literal (e : node) (attr : string) : option string := getAttribute e attr.

(** The text of the first text child: a blank one leaves the field out. *)
Definition text_literal (e : node) : option string :=
  match textChildren e with
  | text :: _ =>
      if forallb ISWHITESPACE (explode text) then None else Some text
  | [] => None
  end.

Definition data_row (data : node) : elem_data :=
  mkElemData (literal data "id") (literal data "src") (literal data "expr") (text_literal data).

Definition param_row (param : node) : elem_param :=
  mkElemParam (literal param "name") (literal param "expr") (literal param "location").

(** An attribute that is set several times keeps the last value. *)
Definition last_set (e : node) (l : list (node * nat)) : option nat :=
  snd <$> last (filter (fun x => fst x = e) l).

(** *** The rows of foreach and assign elements *)

Definition elem_foreachs : list elem_foreach :=
  (fun e => mkElemForeach (literal e "array") (literal e "item") (literal e "index")) <$>
    inDocumentOrder [P +:+ "foreach"]%string scxml.

Definition elem_assigns : list elem_assign :=
  (fun e => mkElemAssign (literal e "location") (literal e "expr") (text_literal e)) <$>
    inDocumentOrder [P +:+ "assign"]%string scxml.

(** *** The data rows and the attribute dataIndex *)

Definition data_elements : list node := inDocumentOrder [P +:+ "data"]%string scxml.

(** The loop over the data elements: a row of null pointers is [None]. *)
Fixpoint data_loop (binding : Binding) (i dataIndexOffset : nat) (parent : option node) (datas : list node)
    : list (option elem_data) * list (node * nat) :=
  match datas with
  | [] => ([None], [])
  | data :: datas =>
      let state := getParentNode data ≫= getParentNode in
      let fresh := negb (bool_decide (state = parent)) in
      let late := match binding with LATE => fresh | EARLY => false end in
      let offset := if late && (0 <? i) then S dataIndexOffset else dataIndexOffset in
      let '(rows, index) := data_loop binding (S i) offset state datas in
      ((if late && (0 <? i) then [None] else []) ++ Some (data_row data) :: rows,
       match state with
       | Some s => if late then (s, i + offset) :: index else index
       | None => index
       end)
  end.

Definition elem_datas : list (option elem_data) :=
  match data_elements with [] => [] | _ => fst (data_loop (machine_binding scxml) 0 0 None data_elements) end.

Definition dataIndex (state : node) : option nat :=
  match data_elements with
  | [] => None
  | _ =>
      match machine_binding scxml with
      | EARLY => if bool_decide (head (p_states scxml) = Some state) then Some 0 else None
      | LATE => last_set state (snd (data_loop LATE 0 0 None data_elements))
      end
  end.

(** *** The param rows and the attribute paramIndex *)

Definition param_elements : list node := inDocumentOrder [P +:+ "param"]%string scxml.

Fixpoint param_loop (i : nat) (parent : option node) (params : list node)
    : list (option elem_param) * list (node * nat) :=
  match params with
  | [] => ([None], [])
  | param :: params =>
      let fresh := negb (bool_decide (getParentNode param = parent)) in
      let '(rows, index) := param_loop (S i) (if fresh then getParentNode param else parent) params in
      ((if fresh && (0 <? i) then [None] else []) ++ Some (param_row param) :: rows,
       match getParentNode param with
       | Some e => if fresh then (e, i) :: index else index
       | None => index
       end)
  end.

Definition elem_params : list (option elem_param) :=
  match param_elements with [] => [] | _ => fst (param_loop 0 None param_elements) end.

Definition paramIndex (e : node) : option nat := last_set e (snd (param_loop 0 None param_elements)).

(** *** The rows of send elements *)

(** The content and contentexpr fields of a send or donedata element. *)
Definition content_fields (e : node) : option string * option string :=
  match filterChildElements (XML_PREFIX e +:+ "content") e false with
  | c :: _ => (if String.eqb (content_text c) "" then None else Some (content_text c), literal c "expr")
  | [] => (None, None)
  end.

Definition send_row (send : node) : elem_send := {|
  es_event := literal send "event"; es_eventexpr := literal send "eventexpr";
  es_target := literal send "target"; es_targetexpr := literal send "targetexpr";
  es_type := literal send "type"; es_typeexpr := literal send "typeexpr";
  es_id := literal send "id"; es_idlocation := literal send "idlocation";
  es_delay := if HAS_ATTR send "delay" then printed_delay (ATTR send "delay") else Some 0%Z;
  es_delayexpr := literal send "delayexpr"; es_namelist := literal send "namelist";
  es_content := fst (content_fields send); es_contentexpr := snd (content_fields send);
  es_params := paramIndex send;
|}.

Definition elem_sends : list elem_send := send_row <$> inDocumentOrder [P +:+ "send"]%string scxml.

(** *** The donedata rows *)

Definition donedata_elements : list node := inDocumentOrder [P +:+ "donedata"]%string scxml.

Definition donedata_row (donedata : node) : option elem_donedata :=
  source ← getParentNode donedata ≫= p_index scxml;
  Some (mkElemDonedata source (fst (content_fields donedata)) (snd (content_fields donedata))
    (paramIndex donedata)).

Definition elem_donedatas : option (list elem_donedata) :=
  rows ← mapM donedata_row donedata_elements;
  Some (rows ++ [mkElemDonedata 0 None None None]).

End Elements.

(** ** [writeStates], [writeTransitions] and [writeMachineInfo] *)

Section Printers.
Context {node : Type} `{!EqDecision node} {D : DomOps node}.
Context (content_text : node -> string) (scxml : node).
Let P : string := XML_PREFIX scxml.
Let statesSize : nat := stateCharArraySize scxml.
Let transSize : nat := transCharArraySize scxml.

Definition _hasNativeDataModel : bool :=
  HAS_ATTR scxml "datamodel" && String.eqb (ATTR scxml "datamodel") "native".

(** A handler is printed for an element with such a child. *)
Definition handler_of (tag : string) (f : Handler node) (state : node) : option (Handler node) :=
  if 0 <? length (filterChildElements (P +:+ tag) state false) then Some f else None.

Definition p_state_type (state : node) : Z :=
  let type :=
    if iequals (getTagName state) "initial" then C_STATE_INITIAL
    else if isFinal state then C_STATE_FINAL
    else if isHistory state then
      if HAS_ATTR state "type" && iequals (ATTR state "type") "deep"
      then C_STATE_HISTORY_DEEP else C_STATE_HISTORY_SHALLOW
    else if isAtomic state then C_STATE_ATOMIC
    else if isParallel state then C_STATE_PARALLEL
    else C_STATE_COMPOUND in
  if p_hasHistoryChild scxml state then Z.lor type C_STATE_HAS_HISTORY else type.

Definition writeState (i : nat) (state : node) : option (uscxml_state (Handler node)) :=
  parent ← (if i =? 0 then Some 0 else getParentNode state ≫= p_index scxml);
  children ← row_bytes statesSize (childBools scxml state);
  completion ← row_bytes statesSize (completionBools scxml state);
  ancestors ← row_bytes statesSize (ancBools scxml state);
  Some {|
    cs_name := literal state "id";
    cs_parent := parent;
    cs_on_entry := handler_of "onentry" (on_entry_fn state) state;
    cs_on_exit := handler_of "onexit" (on_exit_fn state) state;
    cs_invoke := handler_of "invoke" (invoke_fn_of state) state;
    cs_children := children;
    cs_completion := completion;
    cs_ancestors := ancestors;
    cs_data := dataIndex scxml state;
    cs_type := p_state_type state;
  |}.

Definition p_transition_type (t : node) : Z :=
  let flag (b : bool) (mask : Z) (z : Z) := if b then Z.lor z mask else z in
  let parentTag := match getParentNode t with Some p => getTagName p | None => ""%string end in
  let z := flag (negb (HAS_ATTR t "target")) C_TRANS_TARGETLESS 0%Z in
  let z := flag (HAS_ATTR t "type" && iequals (ATTR t "type") "internal") C_TRANS_INTERNAL z in
  let z := flag (negb (HAS_ATTR t "event")) C_TRANS_SPONTANEOUS z in
  let z := flag (iequals parentTag "history") C_TRANS_HISTORY z in
  flag (iequals parentTag "initial") C_TRANS_INITIAL z.

Definition writeTransition (t : node) : option (uscxml_transition (Handler node)) :=
  source ← getParentNode t ≫= p_index scxml;
  target ← match targetBools scxml t with
           | Some bools => row_bytes statesSize bools
           | None => Initializer.read_initializer statesSize "0x00"
           end;
  conflicts ← row_bytes transSize (conflictBools scxml t);
  exit_set ← row_bytes statesSize (exitSetBools scxml t);
  Some {|
    ct_source := source;
    ct_target := target;
    ct_event := literal t "event";
    ct_condition := if HAS_ATTR t "cond" && negb _hasNativeDataModel then literal t "cond" else None;
    ct_is_enabled := if HAS_ATTR t "cond" then Some (is_enabled_fn t) else None;
    ct_on_transition := match childElements t with [] => None | _ => Some (on_trans_fn t) end;
    ct_type := p_transition_type t;
    ct_conflicts := conflicts;
    ct_exit_set := exit_set;
  |}.

(** The machine, with the counter type of the loops over states and transitions. *)
Definition writeMachineInfo : option (uscxml_machine (Handler node)) :=
  let states := p_states scxml in
  let transitions := p_transitions scxml in
  state_rows ← mapM (fun '(i, e) => writeState i e) (imap (fun i e => (i, e)) states);
  transition_rows ← mapM writeTransition transitions;
  donedata ← elem_donedatas content_text scxml;
  Some {|
    m_width := Z.max (data_type (length states)) (data_type (length transitions));
    m_nr_states := length states;
    m_nr_transitions := length transitions;
    m_states := state_rows;
    m_transitions := transition_rows;
    m_donedata := donedata;
    m_script := if 0 <? length (filterChildElements (P +:+ "script") scxml false)
                then Some global_script_fn else None;
  |}.

End Printers.

(** The constructor [ChartToC::ChartToC] up to the emitted machine. *)
Definition ChartToC {node : Type} `{!EqDecision node} (D : DomOps node) (content_text : node -> string)
    (scxml : node) : option (uscxml_machine (Handler node)) :=
  writeMachineInfo (D := p_resortStates scxml) content_text scxml.
