(* ===== verification/CEntry.v ===== *)
(** * The tables of the emitted machine as a chart; the entry set

    [tables] reads the bit arrays, parents and types of the printed tables as
    a [Chart]. The phases of [uscxml_step] that only compute with bit arrays
    (REMEMBER_HISTORY and ESTABLISH_ENTRY_SET) are shown to compute what
    [FastMicroStep::step] computes with bit sets on that chart, without an
    access outside of an array and without a counter that wraps around. *)

From stdpp Require Import base list gmap strings.
From S2P Require Import Prelude CBits Effects CStep Dom Predicates Chart MicroStep StepLemmas.

Local Open Scope nat_scope.

(** ** Loops *)

Section Loops.
Context {St : Type} (w : Z).
Implicit Types st : St.

Lemma wrap_counter_small i N : i < N -> (Z.of_nat N < 2 ^ w)%Z -> wrap_counter w (i + 1) = S i.
Proof.
  intros Hi Hw. unfold wrap_counter. rewrite Z.mod_small by lia. lia.
Qed.

(** As long as the bound fits into the counter, the loops visit [lo .. N-1]. *)
Lemma for_fuel_foldM {B} (body : nat -> B -> M Stop St B) N : (Z.of_nat N < 2 ^ w)%Z ->
  forall k i fuel b st, N - i = k -> k < fuel ->
  for_fuel w fuel i N body b st = foldM body (seq i k) b st.
Proof.
  intros Hw. induction k as [|k IH]; intros i fuel b st Hk Hf; (destruct fuel as [|fuel]; [lia|]); cbn [for_fuel seq foldM].
  - destruct (Nat.ltb_spec i N); [lia|done].
  - destruct (Nat.ltb_spec i N) as [Hi|]; [|lia]. rewrite (wrap_counter_small i N) by done.
    unfold mbind, M_bind. destruct (body i b st) as [[x|b1] s1]; [done|]. apply IH; lia.
Qed.

Lemma for_foldM {B} (body : nat -> B -> M Stop St B) lo N b st : (Z.of_nat N < 2 ^ w)%Z ->
  for_ w lo N body b st = foldM body (seq lo (N - lo)) b st.
Proof. intros Hw. apply for_fuel_foldM; [done|done|lia]. Qed.

(** A computation that neither fails nor changes the state. *)
Definition computes {A} (c : M Stop St A) (st : St) (R : A -> Prop) : Prop :=
  exists a, c st = (inr a, st) /\ R a.

Lemma computes_ret {A} (a : A) st (R : A -> Prop) : R a -> computes (mret a) st R.
Proof. intros HR. by exists a. Qed.

Lemma computes_bind {A B} (c : M Stop St A) (f : A -> M Stop St B) st (R : A -> Prop) (R' : B -> Prop) :
  computes c st R -> (forall a, R a -> computes (f a) st R') -> computes (c ≫= f) st R'.
Proof. intros (a & Hc & HR) Hf. unfold computes, mbind, M_bind. rewrite Hc. by apply Hf. Qed.

Lemma computes_post {A} (c : M Stop St A) st (R R' : A -> Prop) :
  computes c st R -> (forall a, R a -> R' a) -> computes c st R'.
Proof. intros (a & Hc & HR) Hw. exists a. auto. Qed.

(** The loop computes the fold of [f] when one round of it does. *)
Lemma computes_for {B B'} (body : nat -> B -> M Stop St B) (f : B' -> nat -> B') (R : B -> B' -> Prop) lo N b b' st :
  (Z.of_nat N < 2 ^ w)%Z ->
  (forall i b b', lo <= i < N -> R b b' -> computes (body i b) st (fun b1 => R b1 (f b' i))) ->
  R b b' -> computes (for_ w lo N body b) st (fun b1 => R b1 (foldl f b' (seq lo (N - lo)))).
Proof.
  intros Hw Hbody HR. unfold computes. rewrite for_foldM by done.
  assert (Hg : forall l b b', (forall i, i ∈ l -> lo <= i < N) -> R b b' ->
    computes (foldM body l b) st (fun b1 => R b1 (foldl f b' l))).
  { induction l as [|i l IH]; intros b0 b0' Hl H0; cbn [foldM foldl]; [by apply computes_ret|].
    eapply computes_bind; [apply (Hbody i b0 b0'); [apply Hl; left|done]|].
    intros b1 H1. apply IH; [|done]. intros j Hj. apply Hl. by right. }
  apply Hg; [|done]. intros i Hi%elem_of_seq. lia.
Qed.

Lemma computes_search_from test (p : nat -> bool) N st : (Z.of_nat N < 2 ^ w)%Z ->
  forall k i fuel, N - i = k -> k < fuel ->
  (forall j, i <= j < N -> computes (test j) st (fun b => b = p j)) ->
  search_fuel w fuel i N test st = (inr (List.find p (seq i k)), st).
Proof.
  intros Hw. induction k as [|k IH]; intros i fuel Hk Hf Ht; (destruct fuel as [|fuel]; [lia|]); cbn [search_fuel seq List.find].
  - destruct (Nat.ltb_spec i N); [lia|done].
  - destruct (Nat.ltb_spec i N) as [Hi|]; [|lia]. rewrite (wrap_counter_small i N) by done.
    destruct (Ht i) as (b & Hb & ->); [lia|]. unfold mbind, M_bind. rewrite Hb.
    destruct (p i); [done|]. apply IH; [lia|lia|]. intros j Hj. apply Ht. lia.
Qed.

Lemma computes_search test (p : nat -> bool) lo N st : (Z.of_nat N < 2 ^ w)%Z ->
  (forall j, lo <= j < N -> computes (test j) st (fun b => b = p j)) ->
  computes (search w lo N test) st (fun r => r = List.find p (seq lo (N - lo))).
Proof.
  intros Hw Ht. eexists. split; [apply computes_search_from; [done|done|lia|done]|done].
Qed.

End Loops.

(** ** The tables as a chart *)

Section Tables.
Context {Fn : Type} (m : uscxml_machine Fn).
Abbreviation nbs := (nr_bytes (m_nr_states m)).
Abbreviation nbt := (nr_bytes (m_nr_transitions m)).
Abbreviation setS := (set_of nbs).

(** Only what the pure phases read; handlers are not part of it. *)
Definition table_state (i : nat) (s : uscxml_state Fn) : State nat := {|
  s_element := i;
  s_completion := setS (cs_completion s);
  s_children := setS (cs_children s);
  s_ancestors := setS (cs_ancestors s);
  s_parent := cs_parent s;
  s_documentOrder := i;
  s_data := []; s_invoke := []; s_onEntry := []; s_onExit := []; s_doneData := None;
  s_type := cs_type s;
|}.

Definition table_transition (i : nat) (t : uscxml_transition Fn) : Transition nat := {|
  t_element := i;
  t_conflicts := set_of nbt (ct_conflicts t);
  t_exitSet := setS (ct_exit_set t);
  t_source := ct_source t;
  t_target := setS (ct_target t);
  t_onTrans := None;
  t_event := default ""%string (ct_event t);
  t_cond := default ""%string (ct_condition t);
  t_type := ct_type t;
|}.

Definition tables : Chart nat :=
  mkChart (imap table_state (m_states m)) (imap table_transition (m_transitions m)) ∅ EARLY.

(** What the transformer guarantees of the tables it prints: the counts are
    those of the arrays and fit into the counter type, the rows have at least
    the bytes in use, references are in range, a guard comes with its function,
    the done data are terminated. *)
Record machine_ok : Prop := {
  ok_nr_states : length (m_states m) = m_nr_states m;
  ok_nr_transitions : length (m_transitions m) = m_nr_transitions m;
  ok_width_states : (Z.of_nat (m_nr_states m) < 2 ^ m_width m)%Z;
  ok_width_transitions : (Z.of_nat (m_nr_transitions m) < 2 ^ m_width m)%Z;
  ok_nonempty : 0 < m_nr_states m;
  ok_state i s : m_states m !! i = Some s ->
    array_ok nbs (cs_children s) /\ array_ok nbs (cs_completion s) /\ array_ok nbs (cs_ancestors s) /\
    cs_parent s < m_nr_states m;
  ok_transition i t : m_transitions m !! i = Some t ->
    array_ok nbs (ct_target t) /\ array_ok nbs (ct_exit_set t) /\ array_ok nbt (ct_conflicts t) /\
    ct_source t < m_nr_states m /\ (is_Some (ct_condition t) -> is_Some (ct_is_enabled t));
  ok_donedata : exists d, d ∈ m_donedata m /\ donedata_is_set d = false;
}.

(** An empty event descriptor or guard is a missing one for the interpreter
    only. *)
Definition attributes_ok : Prop := forall i t, m_transitions m !! i = Some t ->
  ct_event t <> Some ""%string /\ ct_condition t <> Some ""%string.

Context (OK : machine_ok).

Lemma stands_for_row a : array_ok nbs a -> stands_for nbs a (setS a).
Proof. intros Ha. by split. Qed.

Lemma get_state i : i < m_nr_states m -> exists s, m_states m !! i = Some s.
Proof. intros Hi. apply lookup_lt_is_Some_2. by rewrite (ok_nr_states OK). Qed.

Lemma get_transition i : i < m_nr_transitions m -> exists t, m_transitions m !! i = Some t.
Proof. intros Hi. apply lookup_lt_is_Some_2. by rewrite (ok_nr_transitions OK). Qed.

Lemma tables_state i s : m_states m !! i = Some s -> c_states tables !! i = Some (table_state i s).
Proof. intros Hs. cbn. by rewrite list_lookup_imap, Hs. Qed.

Lemma tables_transition i t : m_transitions m !! i = Some t ->
  c_transitions tables !! i = Some (table_transition i t).
Proof. intros Ht. cbn. by rewrite list_lookup_imap, Ht. Qed.

Lemma n_states_tables : n_states tables = m_nr_states m.
Proof. unfold n_states. cbn. by rewrite length_imap, (ok_nr_states OK). Qed.

Lemma n_transitions_tables : n_transitions tables = m_nr_transitions m.
Proof. unfold n_transitions. cbn. by rewrite length_imap, (ok_nr_transitions OK). Qed.

(** The accessors of the chart on a row of the tables. *)
Lemma table_row i s : m_states m !! i = Some s ->
  ancestors_of tables i = setS (cs_ancestors s) /\ children_of tables i = setS (cs_children s) /\
  completion_of tables i = setS (cs_completion s) /\ parent_of tables i = cs_parent s /\
  type_of tables i = cs_type s.
Proof.
  intros Hs%tables_state. unfold ancestors_of, children_of, completion_of, parent_of, type_of, state_set.
  by rewrite Hs.
Qed.

Lemma table_trans i t : m_transitions m !! i = Some t ->
  source_of tables i = ct_source t /\ target_of tables i = setS (ct_target t).
Proof. intros Ht%tables_transition. unfold source_of, target_of, trans_set. by rewrite Ht. Qed.

Lemma index_states i : i < m_nr_states m -> i < 8 * nbs.
Proof. pose proof (nr_bytes_bounds (m_nr_states m)). lia. Qed.

Lemma index_trans i : i < m_nr_transitions m -> i < 8 * nbt.
Proof. pose proof (nr_bytes_bounds (m_nr_transitions m)). lia. Qed.

End Tables.

(** ** Rules for one access *)

Section Rules.
Context {Fn Ev W : Type} (m : uscxml_machine Fn).
Implicit Types (st : uscxml_ctx Ev * W).

Lemma computes_HAS {B} nb a X i (f : bool -> CM B) st (R : B -> Prop) :
  stands_for nb a X -> i < 8 * nb -> computes (f (bool_decide (i ∈ X))) st R ->
  computes (checked (BIT_HAS i a) ≫= f) st R.
Proof. intros Ha Hi Hf. rewrite (BIT_HAS_spec nb a X i) by done. exact Hf. Qed.

Lemma computes_has_and {B} nb a b X Y (f : bool -> CM B) st (R : B -> Prop) :
  stands_for nb a X -> stands_for nb b Y -> computes (f (BIT_HAS_AND X Y)) st R ->
  computes (checked (bit_has_and a b nb) ≫= f) st R.
Proof. intros Ha Hb Hf. rewrite (bit_has_and_spec nb a b X Y) by done. exact Hf. Qed.

Lemma computes_op {B} nb Y (r : option bytes) (f : bytes -> CM B) st (R : B -> Prop) :
  (exists d, r = Some d /\ stands_for nb d Y) ->
  (forall d, stands_for nb d Y -> computes (f d) st R) -> computes (checked r ≫= f) st R.
Proof. intros (d & -> & Hd) Hf. exact (Hf d Hd). Qed.

Lemma computes_op_last nb Y (r : option bytes) st (R : bytes -> Prop) :
  (exists d, r = Some d /\ stands_for nb d Y) -> (forall d, stands_for nb d Y -> R d) -> computes (checked r) st R.
Proof. intros (d & -> & Hd) HR. exists d. auto. Qed.

Lemma computes_state {B} i s (f : uscxml_state Fn -> CM B) st (R : B -> Prop) :
  m_states m !! i = Some s -> computes (f s) st R -> computes (GET_STATE m i ≫= f) st R.
Proof. intros Hs Hf. unfold GET_STATE. rewrite Hs. exact Hf. Qed.

Lemma computes_trans {B} i t (f : uscxml_transition Fn -> CM B) st (R : B -> Prop) :
  m_transitions m !! i = Some t -> computes (f t) st R -> computes (GET_TRANS m i ≫= f) st R.
Proof. intros Hs Hf. unfold GET_TRANS. rewrite Hs. exact Hf. Qed.

Lemma computes_ctx {B} (f : uscxml_ctx Ev -> CM B) st (R : B -> Prop) :
  computes (f (fst st)) st R -> computes (ctx ≫= f) st R.
Proof. intros Hf. exact Hf. Qed.

End Rules.

Section Pure.
Context {Fn Ev W : Type} {CB : UscxmlCallbacks Fn Ev W} (m : uscxml_machine Fn) (OK : machine_ok m).
Abbreviation N := (m_nr_states m).
Abbreviation NT := (m_nr_transitions m).
Abbreviation nbs := (nr_bytes (m_nr_states m)).
Abbreviation nbt := (nr_bytes (m_nr_transitions m)).
Abbreviation setS := (set_of nbs).
Abbreviation T := (tables m).
Implicit Types (st : uscxml_ctx Ev * W).

(** *** ESTABLISH_ENTRY_SET: the ancestors *)

Lemma add_ancestors_computes i a X st : i < N -> stands_for nbs a X ->
  computes (c_add_ancestors m i a) st
    (fun a' => stands_for nbs a' (if bool_decide (i ∈ X) then add_ancestors T i X else X)).
Proof.
  intros Hi Ha. destruct (get_state m OK i Hi) as [s Hs].
  destruct (ok_state m OK i s Hs) as (_ & _ & Hanc & _). destruct (table_row m i s Hs) as (He & _).
  unfold c_add_ancestors. eapply computes_HAS; [done|by apply (index_states m)|].
  case_bool_decide; [|by apply computes_ret].
  eapply computes_state; [done|].
  apply (computes_op_last nbs (X ∪ setS (cs_ancestors s))); [by apply bit_or_spec|].
  intros d Hd. unfold add_ancestors. by rewrite He.
Qed.

Lemma with_ancestors_computes a X st : stands_for nbs a X ->
  computes (for_ (m_width m) 0 N (c_add_ancestors m) a) st
    (fun a' => stands_for nbs a' (with_ancestors T X)).
Proof.
  intros Ha. unfold with_ancestors. rewrite n_states_tables by done.
  change (find_first N X) with (find_first N (id X)).
  rewrite find_loop_scan by done. unfold scan_loop.
  replace (seq 0 N) with (seq 0 (N - 0)) by (by rewrite Nat.sub_0_r). apply computes_for; [apply OK| |done].
  intros i b X0 Hi HX. apply add_ancestors_computes; [lia|done].
Qed.

(** The ancestors of the first member of [a] behind [i]. *)
Lemma ancestors_of_first_computes i a e X E st : i < N -> stands_for nbs a X -> stands_for nbs e E ->
  computes (c_ancestors_of_first m i a e) st (fun e' => stands_for nbs e'
    match List.find (fun k => bool_decide (k ∈ X)) (seq (i + 1) (N - (i + 1))) with
    | Some k => E ∪ ancestors_of T k
    | None => E
    end).
Proof.
  intros Hi Ha He. unfold c_ancestors_of_first. eapply computes_bind.
  { apply (computes_search _ _ (fun k => bool_decide (k ∈ X))); [apply OK|].
    intros j Hj. rewrite (BIT_HAS_spec nbs a X j) by (first [done|apply (index_states m); lia]).
    by apply computes_ret. }
  intros r ->. destruct (List.find _ _) as [k|] eqn:Hf; [|by apply computes_ret].
  apply find_some in Hf as [Hk _]. apply in_seq in Hk.
  destruct (get_state m OK k) as [s Hs]; [lia|].
  destruct (ok_state m OK k s Hs) as (_ & _ & Hanc & _). destruct (table_row m k s Hs) as (Heq & _).
  eapply computes_state; [done|]. rewrite Heq.
  eapply computes_op_last; [by apply bit_or_spec; [|apply (stands_for_row m)]|done].
Qed.

(** *** The descendants *)

Definition entry_rel (e : Entry) (E : gset nat * gset nat) : Prop :=
  stands_for nbs (fst (fst e)) (fst E) /\ stands_for nbt (snd (fst e)) (snd E) /\ array_ok nbs (snd e).

Lemma default_history_computes i e E st : i < N -> entry_rel e E ->
  computes (c_default_history m i e) st (fun e' => entry_rel e' (default_history T i E)).
Proof.
  intros Hi He. destruct e as [[es ts] tmp], E as [Es Ts]. pose proof He as (He1 & He2 & He3). cbn [fst snd] in *.
  unfold c_default_history, default_history. rewrite n_transitions_tables, n_states_tables by done.
  eapply computes_bind.
  { apply (computes_search _ _ (fun j => source_of T j =? i)); [apply OK|].
    intros j Hj. destruct (get_transition m OK j) as [t Ht]; [lia|]. unfold c_source_is.
    eapply computes_trans; [done|]. destruct (table_trans m j t Ht) as [-> _]. by apply computes_ret. }
  intros r ->. rewrite Nat.sub_0_r. destruct (List.find _ _) as [j|] eqn:Hf; [|by apply computes_ret].
  apply find_some in Hf as [Hj _]. apply in_seq in Hj.
  destruct (get_transition m OK j) as [t Ht]; [lia|]. destruct (get_state m OK i Hi) as [s Hs].
  destruct (ok_state m OK i s Hs) as (Hch & _ & _ & _). destruct (ok_transition m OK j t Ht) as (Htg & _).
  destruct (table_row m i s Hs) as (_ & Hc & _ & _ & Hty). destruct (table_trans m j t Ht) as [_ Htt].
  eapply computes_trans; [done|]. eapply computes_state; [done|].
  eapply computes_op; [by apply bit_or_spec; [|apply (stands_for_row m)]|]. intros es1 Hes1.
  rewrite Hty, Htt, Hc. eapply computes_bind with (R := fun e1 => stands_for nbs e1
      (if (USCXML_STATE_MASK (cs_type s) =? USCXML_STATE_HISTORY_DEEP)%Z &&
          negb (BIT_HAS_AND (setS (ct_target t)) (setS (cs_children s)))
       then match List.find (fun k => bool_decide (k ∈ setS (ct_target t))) (seq (i + 1) (N - (i + 1))) with
            | Some k => (Es ∪ setS (ct_target t)) ∪ ancestors_of T k
            | None => Es ∪ setS (ct_target t)
            end
       else Es ∪ setS (ct_target t))).
  - change (C_STATE_MASK (cs_type s) =? C_STATE_HISTORY_DEEP)%Z
      with (USCXML_STATE_MASK (cs_type s) =? USCXML_STATE_HISTORY_DEEP)%Z.
    destruct (_ =? _)%Z; cbn [andb]; [|by apply computes_ret].
    eapply computes_has_and; [by apply (stands_for_row m)|by apply (stands_for_row m)|].
    destruct (negb _); [|by apply computes_ret].
    by apply ancestors_of_first_computes; [|apply (stands_for_row m)|].
  - intros es2 Hes2. eapply computes_op; [apply BIT_SET_AT_spec; [done|apply (index_trans m); lia]|].
    intros ts' Hts. apply computes_ret. done.
Qed.

Lemma nested_history_computes children C k a X st : k < N -> stands_for nbs children C -> stands_for nbs a X ->
  computes (c_nested_history m children k a) st (fun a' => stands_for nbs a'
    (if is_history_type (type_of T k) && bool_decide (k ∈ C) then {[k]} ∪ X else X)).
Proof.
  intros Hk HC Ha. destruct (get_state m OK k Hk) as [s Hs].
  destruct (table_row m k s Hs) as (_ & _ & _ & _ & Hty). unfold c_nested_history.
  eapply computes_state; [done|]. rewrite Hty. change (c_is_history (cs_type s)) with (is_history_type (cs_type s)).
  destruct (is_history_type _); cbn [andb]; [|by apply computes_ret].
  eapply computes_HAS; [done|by apply (index_states m)|]. case_bool_decide; [|by apply computes_ret].
  eapply computes_op_last; [by apply BIT_SET_AT_spec; [|apply (index_states m)]|done].
Qed.

Lemma nested_histories_computes completion C j a X st : j < N -> stands_for nbs completion C -> stands_for nbs a X ->
  computes (c_nested_histories m completion j a) st (fun a' => stands_for nbs a'
    (if bool_decide (j ∈ C) && bool_decide (j ∈ X) && has_flag (type_of T j) USCXML_STATE_HAS_HISTORY
     then nested_histories_of T j X else X)).
Proof.
  intros Hj HC Ha. destruct (get_state m OK j Hj) as [s Hs]. destruct (ok_state m OK j s Hs) as (Hch & _).
  destruct (table_row m j s Hs) as (_ & Hc & _ & _ & Hty). unfold c_nested_histories.
  eapply computes_HAS; [done|by apply (index_states m)|].
  case_bool_decide; cbn [negb andb]; [|by apply computes_ret].
  eapply computes_HAS; [done|by apply (index_states m)|].
  case_bool_decide; cbn [negb andb]; [|by apply computes_ret].
  eapply computes_state; [done|]. rewrite Hty.
  change (flag_set (cs_type s) C_STATE_HAS_HISTORY) with (has_flag (cs_type s) USCXML_STATE_HAS_HISTORY).
  destruct (has_flag _ _); [|by apply computes_ret]. unfold nested_histories_of. rewrite n_states_tables by done.
  apply computes_for; [apply OK| |done]. intros k b X0 Hk HX. rewrite Hc.
  apply nested_history_computes; [lia|by apply (stands_for_row m)|done].
Qed.

Lemma restore_history_computes i e E st H : i < N -> entry_rel e E -> stands_for nbs (x_history (fst st)) H ->
  computes (c_restore_history m i e) st (fun e' => entry_rel e' (restore_history T H i (fst E), snd E)).
Proof.
  intros Hi He Hh. destruct e as [[es ts] tmp], E as [Es Ts]. destruct He as (He1 & He2 & He3). cbn [fst snd] in *.
  destruct (get_state m OK i Hi) as [s Hs]. destruct (ok_state m OK i s Hs) as (_ & Hcp & _).
  destruct (table_row m i s Hs) as (_ & _ & Hc & _ & Hty).
  unfold c_restore_history, restore_history. eapply computes_state; [done|].
  eapply computes_op; [by apply bit_copy_spec; [|apply (stands_for_row m)]|]. intros tmp1 Htmp1. apply computes_ctx.
  eapply computes_op; [by apply bit_and_spec|]. intros tmp2 Htmp2.
  eapply computes_op; [by apply bit_or_spec|]. intros es1 Hes1. rewrite Hty, Hc, n_states_tables by done.
  eapply computes_bind; [|intros es2 Hes2; apply computes_ret; split; [exact Hes2|split; [done|apply Htmp2]]].
  change (cs_type s =? Z.lor C_STATE_HAS_HISTORY C_STATE_HISTORY_DEEP)%Z
    with (cs_type s =? Z.lor USCXML_STATE_HAS_HISTORY USCXML_STATE_HISTORY_DEEP)%Z.
  destruct (_ =? _)%Z; [|by apply computes_ret].
  apply computes_for; [apply OK| |done]. intros j b X Hj HX.
  apply nested_histories_computes; [lia|by apply (stands_for_row m)|done].
Qed.

Lemma initial_transition_computes i j e E st : i < N -> j < NT -> entry_rel e E ->
  computes (c_initial_transition m i j e) st (fun e' => entry_rel e' (initial_transition T i E j)).
Proof.
  intros Hi Hj He. destruct e as [[es ts] tmp], E as [Es Ts]. pose proof He as (He1 & He2 & He3). cbn [fst snd] in *.
  destruct (get_transition m OK j Hj) as [t Ht]. destruct (ok_transition m OK j t Ht) as (Htg & _).
  destruct (table_trans m j t Ht) as [Hsrc Htt]. unfold c_initial_transition, initial_transition.
  eapply computes_trans; [done|]. rewrite Hsrc, Htt, n_states_tables by done.
  destruct (_ =? _); [|by apply computes_ret].
  eapply computes_op; [by apply BIT_SET_AT_spec; [|apply (index_trans m)]|]. intros ts1 Hts1.
  eapply computes_op; [by apply BIT_CLEAR_spec; [|apply (index_states m)]|]. intros es1 Hes1.
  eapply computes_op; [by apply bit_or_spec; [|apply (stands_for_row m)]|]. intros es2 Hes2.
  eapply computes_bind; [|intros es3 Hes3; apply computes_ret; split; [exact Hes3|done]].
  apply computes_for; [apply OK| |done]. intros k b X Hk HX. unfold c_initial_ancestors.
  eapply computes_HAS; [by apply (stands_for_row m)|apply (index_states m); lia|].
  case_bool_decide; [|by apply computes_ret].
  destruct (get_state m OK k) as [s Hs]; [lia|]. destruct (ok_state m OK k s Hs) as (_ & _ & Hanc & _).
  destruct (table_row m k s Hs) as (-> & _). eapply computes_state; [done|].
  eapply computes_op_last; [by apply bit_or_spec; [|apply (stands_for_row m)]|done].
Qed.

Lemma complete_compound_computes i exits X a E C st : i < N -> stands_for nbs exits X -> stands_for nbs a E ->
  stands_for nbs (x_config (fst st)) C ->
  computes (c_complete_compound m i exits a) st (fun a' => stands_for nbs a' (complete_compound T C X i E)).
Proof.
  intros Hi HX Ha HC. destruct (get_state m OK i Hi) as [s Hs]. destruct (ok_state m OK i s Hs) as (Hch & Hcp & _).
  destruct (table_row m i s Hs) as (_ & Hc & Hcc & _ & _).
  unfold c_complete_compound, complete_compound. rewrite Hc, Hcc, n_states_tables by done.
  eapply computes_state; [done|]. apply computes_ctx.
  eapply computes_has_and; [done|by apply (stands_for_row m)|].
  destruct (BIT_HAS_AND E _); cbn [negb andb]; [by apply computes_ret|].
  eapply computes_has_and; [done|by apply (stands_for_row m)|].
  eapply computes_bind with (R := fun b => b = negb (BIT_HAS_AND C (setS (cs_children s))) ||
    BIT_HAS_AND X (setS (cs_children s))).
  { destruct (BIT_HAS_AND C _); cbn [negb orb]; [|by apply computes_ret].
    rewrite (bit_has_and_spec nbs exits (cs_children s) X (setS (cs_children s))) by (done || by apply (stands_for_row m)).
    by apply computes_ret. }
  intros b ->. destruct (_ || _); cbn [negb]; [|by apply computes_ret].
  eapply computes_op; [by apply bit_or_spec; [|apply (stands_for_row m)]|]. intros a1 Ha1.
  eapply computes_has_and; [by apply (stands_for_row m)|by apply (stands_for_row m)|].
  destruct (negb _); [|by apply computes_ret].
  by apply ancestors_of_first_computes; [|apply (stands_for_row m)|].
Qed.

Context (config history exits : gset nat).

Lemma mask_idem t : USCXML_STATE_MASK (USCXML_STATE_MASK t) = USCXML_STATE_MASK t.
Proof. unfold USCXML_STATE_MASK. by rewrite <- Z.land_assoc. Qed.

Lemma descend_computes exit_set i e E st : i < N -> entry_rel e E ->
  stands_for nbs exit_set exits -> stands_for nbs (x_config (fst st)) config ->
  stands_for nbs (x_history (fst st)) history ->
  computes (c_descend m exit_set i e) st (fun e' => entry_rel e'
    (if bool_decide (i ∈ fst E) then descend T config history exits i E else E)).
Proof.
  intros Hi He Hx Hc Hh. destruct e as [[es ts] tmp], E as [Es Ts]. pose proof He as (He1 & He2 & He3). cbn [fst snd] in *.
  unfold c_descend, descend. eapply computes_HAS; [done|by apply (index_states m)|].
  case_bool_decide; cbn [negb]; [|by apply computes_ret].
  destruct (get_state m OK i Hi) as [s Hs]. destruct (ok_state m OK i s Hs) as (_ & Hcp & _ & Hpar).
  destruct (table_row m i s Hs) as (_ & _ & Hcc & Hpa & Hty). eapply computes_state; [done|].
  rewrite Hty, Hcc, Hpa. cbv zeta. unfold c_is_history, is_history_type. rewrite !mask_idem.
  change C_STATE_MASK with USCXML_STATE_MASK. change C_STATE_PARALLEL with USCXML_STATE_PARALLEL.
  change C_STATE_HISTORY_SHALLOW with USCXML_STATE_HISTORY_SHALLOW.
  change C_STATE_HISTORY_DEEP with USCXML_STATE_HISTORY_DEEP.
  change C_STATE_INITIAL with USCXML_STATE_INITIAL. change C_STATE_COMPOUND with USCXML_STATE_COMPOUND.
  destruct (_ =? USCXML_STATE_PARALLEL)%Z.
  { eapply computes_op; [by apply bit_or_spec; [|apply (stands_for_row m)]|]. intros es1 Hes1. by apply computes_ret. }
  destruct (_ || _).
  - apply computes_ctx. eapply computes_has_and; [by apply (stands_for_row m)|done|].
    eapply computes_bind with (R := fun b => negb b =
      negb (BIT_HAS_AND (setS (cs_completion s)) history) && negb (bool_decide (cs_parent s ∈ config))).
    { destruct (BIT_HAS_AND _ _); cbn [negb andb]; [by apply computes_ret|].
      rewrite (BIT_HAS_spec nbs _ config _ Hc (index_states m _ Hpar)). by apply computes_ret. }
    intros b ->. destruct (_ && _); [exact (default_history_computes i (es, ts, tmp) (Es, Ts) st Hi He)|].
    by apply (restore_history_computes i (es, ts, tmp) (Es, Ts)).
  - destruct (_ =? USCXML_STATE_INITIAL)%Z.
    + rewrite n_transitions_tables by done. replace (seq 0 NT) with (seq 0 (NT - 0)) by (by rewrite Nat.sub_0_r).
      apply computes_for; [apply OK| |done]. intros j b E0 Hj HE. apply initial_transition_computes; [done|lia|done].
    + destruct (_ =? USCXML_STATE_COMPOUND)%Z; [|by apply computes_ret].
      eapply computes_bind; [by apply complete_compound_computes|]. intros a' Ha'. by apply computes_ret.
Qed.

(** ESTABLISH_ENTRY_SET computes the entry set of the stepper, whatever is in
    the uninitialised array it starts with. *)
Lemma establish_entry_set_computes target_set exit_set entry_set trans_set tmp_states targets trans st :
  stands_for nbs target_set targets -> stands_for nbt trans_set trans ->
  array_ok nbs entry_set -> array_ok nbs tmp_states ->
  stands_for nbs exit_set exits -> stands_for nbs (x_config (fst st)) config ->
  stands_for nbs (x_history (fst st)) history ->
  computes (c_establish_entry_set m target_set exit_set entry_set trans_set tmp_states) st
    (fun e => entry_rel e (establish_entryset T config history exits targets trans)).
Proof.
  intros Ht Htr He Htmp Hx Hc Hh. unfold c_establish_entry_set, establish_entryset.
  eapply computes_op; [by apply bit_copy_spec|]. intros es1 Hes1.
  eapply computes_bind; [by apply with_ancestors_computes|]. intros es2 Hes2. cbv zeta.
  rewrite n_states_tables by done.
  change (find_first N (with_ancestors T targets)) with (find_first N (fst (with_ancestors T targets, trans))).
  rewrite find_loop_scan by done.
  unfold scan_loop. replace (seq 0 N) with (seq 0 (N - 0)) by (by rewrite Nat.sub_0_r). apply computes_for; [apply OK| |done].
  intros i b E Hi HE. apply descend_computes; [lia|done..].
Qed.

End Pure.
