(* ===== verification/CRefine.v ===== *)
(** * The emitted [uscxml_step] against [FastMicroStep::step]

    The phases of the emitted function that change the context or call back,
    related to the sets of the stepper: leaving, taking and entering move the
    context along the set operations of [MicroStep] on the chart of the
    tables, and selection asks the same questions and finds the same
    transitions. Every lemma also says that the phase performs no undefined
    access, whatever the callbacks do, but for the call of one that is NULL. *)

From stdpp Require Import base list gmap strings.
From S2P Require Import Prelude Data CBits Effects CStep Dom Predicates Chart MicroStep StepLemmas CEntry.

Local Open Scope nat_scope.

Section Moves.
Context {Fn Ev W : Type} {CB : UscxmlCallbacks Fn Ev W} (m : uscxml_machine Fn) (OK : machine_ok m).
Context (read_event : Ev -> Event).
Abbreviation N := (m_nr_states m).
Abbreviation NT := (m_nr_transitions m).
Abbreviation nbs := (nr_bytes (m_nr_states m)).
Abbreviation nbt := (nr_bytes (m_nr_transitions m)).
Abbreviation setS := (set_of nbs).
Abbreviation T := (tables m).
Abbreviation CMW := (@CM Ev W).

(** ** Contexts and the state of the stepper *)

(** The flags of the context are those of the stepper without STABLE. *)
Definition shared_flags (f : Z) : Z := Z.land f 0x1F.

Definition event_related (e : option Ev) (ev : Event) : Prop :=
  match e with Some e => ev = read_event e | None => Event_bool ev = false end.

Record related (x : uscxml_ctx Ev) (ms : MicroState) : Prop := {
  rel_flags : x_flags x = shared_flags (_flags ms);
  rel_config : stands_for nbs (x_config x) (_configuration ms);
  rel_history : stands_for nbs (x_history x) (_history ms);
  rel_invocations : stands_for nbs (x_invocations x) (_invocations ms);
  rel_data : stands_for nbs (x_initialized_data x) (_initializedData ms);
  rel_event : event_related (x_event x) (_event ms);
}.

(** The sizes of the arrays of a context and of the stack. *)
Record ctx_ok (x : uscxml_ctx Ev) : Prop := {
  ctx_flags : shared_flags (x_flags x) = x_flags x;
  ctx_config : array_ok nbs (x_config x);
  ctx_history : array_ok nbs (x_history x);
  ctx_invocations : array_ok nbs (x_invocations x);
  ctx_data : array_ok nbs (x_initialized_data x);
}.

Record stack_ok (k : Stack) : Prop := {
  st_conflicts : array_ok nbt (k_conflicts k);
  st_trans_set : array_ok nbt (k_trans_set k);
  st_target_set : array_ok nbs (k_target_set k);
  st_exit_set : array_ok nbs (k_exit_set k);
  st_entry_set : array_ok nbs (k_entry_set k);
  st_tmp_states : array_ok nbs (k_tmp_states k);
}.

(** The only ways to leave a phase early are an error code of a handler, and
    the call of a callback that is NULL. *)
Definition handler_error (e : Stop) : Prop :=
  (exists err, e = Return err /\ err <> USCXML_ERR_OK) \/ (e = Undefined /\ callback_missing (CB := CB)).

(** From contexts related to [ms] to contexts related to [ms'], with a result
    that satisfies [Q], or out with the error of a handler. *)
Definition moves {A} (c : CMW A) (ms ms' : MicroState) (Q : A -> Prop) : Prop :=
  triple (fun s => related (fst s) ms) c (fun a s => related (fst s) ms' /\ Q a)
    (fun e s => handler_error e /\ exists ms'', related (fst s) ms'').

Lemma moves_ret {A} (a : A) ms (Q : A -> Prop) : Q a -> moves (mret a) ms ms Q.
Proof. intros HQ. by apply triple_ret. Qed.

Lemma moves_bind {A B} (c : CMW A) (f : A -> CMW B) ms ms1 ms2 (R : A -> Prop) (Q : B -> Prop) :
  moves c ms ms1 R -> (forall a, R a -> moves (f a) ms1 ms2 Q) -> moves (c ≫= f) ms ms2 Q.
Proof.
  intros Hc Hf. eapply triple_bind; [exact Hc|]. intros a s [Hs HR]. by apply (Hf a HR s).
Qed.

Lemma moves_post {A} (c : CMW A) ms ms' (R Q : A -> Prop) :
  moves c ms ms' R -> (forall a, R a -> Q a) -> moves c ms ms' Q.
Proof. intros Hc HQ. eapply triple_conseq; [exact Hc|done| |done]. intros a s [Hs HR]. auto. Qed.

(** What reads the context goes on from the context it read. *)
Lemma moves_at {A} (c : CMW A) ms ms' (Q : A -> Prop) :
  (forall s, related (fst s) ms ->
     triple (fun s' => s' = s) c (fun a s => related (fst s) ms' /\ Q a)
       (fun e s => handler_error e /\ exists ms'', related (fst s) ms'')) -> moves c ms ms' Q.
Proof. intros Hc s Hs. by apply (Hc s Hs s). Qed.

Lemma moves_ctx {A} (f : uscxml_ctx Ev -> CMW A) ms ms' (Q : A -> Prop) :
  (forall x, related x ms -> moves (f x) ms ms' Q) -> moves (ctx ≫= f) ms ms' Q.
Proof. intros Hf s Hs. exact (Hf (fst s) Hs s Hs). Qed.

(** A pure phase may use what is known of the context. *)
Lemma moves_pure {A} (c : CMW A) ms (Q : A -> Prop) :
  (forall s, related (fst s) ms -> computes c s Q) -> moves c ms ms Q.
Proof. intros Hc s Hs. destruct (Hc s Hs) as (a & -> & HQ). done. Qed.

Lemma moves_call {A} (f : uscxml_ctx Ev -> W -> A * W) ms : moves (invoke_fn f) ms ms (fun _ => True).
Proof. intros [x s] Hs. unfold invoke_fn. by destruct (f x s). Qed.

(** A call through a callback that may be NULL. *)
Lemma moves_callback {F A B} (f : option F) (call : F -> uscxml_ctx Ev -> W -> A * W) (g : A -> CMW B) ms ms' (Q : B -> Prop) :
  (f = None -> callback_missing (CB := CB)) -> (forall a, moves (g a) ms ms' Q) ->
  moves (f ← checked f; a ← invoke_fn (call f); g a) ms ms' Q.
Proof.
  intros Hn Hg. destruct f as [f|].
  - eapply (moves_bind (invoke_fn (call f)) g); [apply moves_call|auto].
  - intros s Hs. split; [right; auto|by exists ms].
Qed.

Lemma moves_set f ms ms' : (forall x, related x ms -> related (f x) ms') ->
  moves (set_ctx f : CMW unit) ms ms' (fun _ => True).
Proof. intros Hf [x s] Hs. split; [by apply Hf|done]. Qed.

Lemma moves_HAS {B} nb a X i (f : bool -> CMW B) ms ms' (Q : B -> Prop) :
  stands_for nb a X -> i < 8 * nb -> moves (f (bool_decide (i ∈ X))) ms ms' Q ->
  moves (checked (BIT_HAS i a) ≫= f) ms ms' Q.
Proof. intros Ha Hi Hf. rewrite (BIT_HAS_spec nb a X i) by done. exact Hf. Qed.

Lemma moves_op {B} nb Y (r : option bytes) (f : bytes -> CMW B) ms ms' (Q : B -> Prop) :
  (exists d, r = Some d /\ stands_for nb d Y) ->
  (forall d, stands_for nb d Y -> moves (f d) ms ms' Q) -> moves (checked r ≫= f) ms ms' Q.
Proof. intros (d & -> & Hd) Hf. exact (Hf d Hd). Qed.

Lemma moves_some {A B} (a : A) (f : A -> CMW B) ms ms' (Q : B -> Prop) :
  moves (f a) ms ms' Q -> moves (checked (Some a) ≫= f) ms ms' Q.
Proof. intros Hf. exact Hf. Qed.

Lemma moves_state {B} i s (f : uscxml_state Fn -> CMW B) ms ms' (Q : B -> Prop) :
  m_states m !! i = Some s -> moves (f s) ms ms' Q -> moves (GET_STATE m i ≫= f) ms ms' Q.
Proof. intros Hs Hf. unfold GET_STATE. rewrite Hs. exact Hf. Qed.

Lemma moves_trans {B} i t (f : uscxml_transition Fn -> CMW B) ms ms' (Q : B -> Prop) :
  m_transitions m !! i = Some t -> moves (f t) ms ms' Q -> moves (GET_TRANS m i ≫= f) ms ms' Q.
Proof. intros Hs Hf. unfold GET_TRANS. rewrite Hs. exact Hf. Qed.

(** Loops follow the fold of what one round does. *)
Lemma moves_foldM {B} (body : nat -> B -> CMW B) (g : MicroState -> nat -> MicroState) (Q : B -> Prop) l :
  (forall i b ms, i ∈ l -> Q b -> moves (body i b) ms (g ms i) Q) ->
  forall b ms, Q b -> moves (foldM body l b) ms (foldl g ms l) Q.
Proof.
  induction l as [|i l IH]; intros Hb b ms HQ; cbn [foldM foldl]; [by apply moves_ret|].
  eapply moves_bind; [apply Hb; [left|done]|]. intros b1 H1. apply IH; [|done].
  intros j b2 ms2 Hj. apply Hb. by right.
Qed.

Lemma moves_for {B} (body : nat -> B -> CMW B) (g : MicroState -> nat -> MicroState) (Q : B -> Prop) bound b ms :
  (Z.of_nat bound < 2 ^ m_width m)%Z ->
  (forall i b ms, i < bound -> Q b -> moves (body i b) ms (g ms i) Q) ->
  Q b -> moves (for_ (m_width m) 0 bound body b) ms (foldl g ms (seq 0 bound)) Q.
Proof.
  intros Hw Hb HQ s Hs. rewrite for_foldM by done. rewrite Nat.sub_0_r.
  apply (moves_foldM body g Q (seq 0 bound)); [|done|done].
  intros i b1 ms1 Hi%elem_of_seq. apply Hb. lia.
Qed.

Lemma foldl_same ms (l : list nat) : foldl (fun (ms : MicroState) (_ : nat) => ms) ms l = ms.
Proof. by induction l. Qed.

(** A loop whose rounds leave the state alone. *)
Lemma moves_for_same {B} (body : nat -> B -> CMW B) (Q : B -> Prop) bound b ms :
  (Z.of_nat bound < 2 ^ m_width m)%Z ->
  (forall i b ms, i < bound -> Q b -> moves (body i b) ms ms Q) ->
  Q b -> moves (for_ (m_width m) 0 bound body b) ms ms Q.
Proof.
  intros Hw Hb HQ. pose proof (moves_for body (fun ms _ => ms) Q bound b ms Hw Hb HQ) as H.
  by rewrite foldl_same in H.
Qed.

Lemma moves_down (body : nat -> CMW unit) (g : MicroState -> nat -> MicroState) bound ms :
  (forall i ms, i < bound -> moves (body i) ms (g ms i) (fun _ => True)) ->
  moves (down_ bound body) ms (foldl g ms (reverse (seq 0 bound))) (fun _ => True).
Proof.
  intros Hb. unfold down_.
  assert (Hg : forall l ms, (forall i, i ∈ l -> i < bound) ->
    moves (forM_ l body) ms (foldl g ms l) (fun _ => True)).
  { induction l as [|i l IH]; intros ms1 Hl; cbn [forM_ foldl]; [by apply moves_ret|].
    eapply moves_bind; [apply Hb, Hl; left|]. intros _ _. apply IH. intros j Hj. apply Hl. by right. }
  apply Hg. intros i. rewrite elem_of_reverse, elem_of_seq. lia.
Qed.

(** *** Updates of related states *)

Lemma related_config a X x ms : stands_for nbs a X -> related x ms ->
  related (with_config a x) (set_configuration (fun _ => X) ms).
Proof. intros Ha []. by split. Qed.

Lemma related_history a X x ms : stands_for nbs a X -> related x ms ->
  related (with_history a x) (set_history X ms).
Proof. intros Ha []. by split. Qed.

Lemma related_invocations a X x ms : stands_for nbs a X -> related x ms ->
  related (with_invocations a x) (set_invocations (fun _ => X) ms).
Proof. intros Ha []. by split. Qed.

Lemma related_data a X x ms : stands_for nbs a X -> related x ms ->
  related (with_initialized_data a x) (set_initializedData (fun _ => X) ms).
Proof. intros Ha []. by split. Qed.

Lemma related_flags f g x ms : (forall z, f (shared_flags z) = shared_flags (g z)) -> related x ms ->
  related (with_flags f x) (set_flags g ms).
Proof. intros Hf [Hfl ? ? ? ? ?]. split; try done. cbn. by rewrite Hfl, Hf. Qed.

Lemma shared_lor b z : shared_flags b = b -> Z.lor (shared_flags z) b = shared_flags (Z.lor z b).
Proof. unfold shared_flags. intros Hb. by rewrite Z.land_lor_distr_l, Hb. Qed.

Lemma shared_clear b z : Z.land (shared_flags z) (Z.lnot b) = shared_flags (Z.land z (Z.lnot b)).
Proof. unfold shared_flags. rewrite <- !Z.land_assoc. f_equal. apply Z.land_comm. Qed.

(** A flag of the context is that of the stepper. *)
Lemma related_flag x ms mask : related x ms -> shared_flags mask = mask ->
  flag_set (x_flags x) mask = has_flag (_flags ms) mask.
Proof.
  intros HR Hm. unfold flag_set, has_flag. rewrite (rel_flags _ _ HR). unfold shared_flags in *.
  by rewrite <- Z.land_assoc, (Z.land_comm 31), Hm.
Qed.

(** *** Handlers and invocations *)

Lemma moves_content f i ms : moves (c_run_content f i) ms ms (fun _ => True).
Proof.
  unfold c_run_content, or_return. destruct f as [f|]; [|by apply moves_ret].
  eapply moves_bind; [apply moves_call|]. intros err _.
  destruct (Z.eqb_spec err USCXML_ERR_OK) as [|Hne]; [by apply moves_ret|].
  intros s Hs. split; [left; by exists err|by exists ms].
Qed.

Lemma moves_invoke i u ms : i < N -> moves (c_run_invoke m i u) ms ms (fun _ => True).
Proof.
  intros Hi. destruct (get_state m OK i Hi) as [s Hs]. unfold c_run_invoke.
  eapply moves_state; [done|]. destruct (cs_invoke s); [|by apply moves_ret].
  eapply moves_bind; [apply moves_call|]. intros _ _. by apply moves_ret.
Qed.

(** *** EXIT_STATES *)

Definition exited (exits : gset nat) (ms : MicroState) (i : nat) : MicroState :=
  set_configuration (fun conf => conf ∖ (exits ∩ {[i]})) ms.

Lemma set_configuration_same X ms : X = _configuration ms -> set_configuration (fun _ => X) ms = ms.
Proof. intros ->. by destruct ms. Qed.

Lemma exit_state_moves exit_set exits i ms : i < N -> stands_for nbs exit_set exits ->
  moves (c_exit_state m exit_set i) ms (exited exits ms i) (fun _ => True).
Proof.
  intros Hi Hx. unfold c_exit_state.
  assert (Hnone : i ∉ exits \/ i ∉ _configuration ms -> exited exits ms i = ms).
  { intros H. change (exited exits ms i) with (set_configuration (fun _ => _configuration ms ∖ (exits ∩ {[i]})) ms).
    apply set_configuration_same. set_solver. }
  eapply moves_HAS; [done|by apply (index_states m)|].
  case_bool_decide as Hix; cbn [negb]; [|rewrite Hnone by (by left); by apply moves_ret].
  apply moves_ctx. intros x Hrel. eapply moves_HAS; [apply Hrel|by apply (index_states m)|].
  case_bool_decide as Hic; cbn [negb]; [|rewrite Hnone by (by right); by apply moves_ret].
  destruct (get_state m OK i Hi) as [s Hs]. eapply moves_state; [done|].
  eapply moves_bind; [apply moves_content|]. intros _ _. apply moves_ctx. intros x1 Hrel1.
  eapply moves_op; [apply BIT_CLEAR_spec; [apply Hrel1|by apply (index_states m)]|]. intros a Ha.
  apply moves_set. intros x2 Hrel2.
  replace (exited exits ms i) with (set_configuration (fun _ => _configuration ms ∖ {[i]}) ms).
  - by apply related_config.
  - unfold exited, set_configuration. f_equal. set_solver.
Qed.

Lemma exit_states_moves exit_set exits ms : stands_for nbs exit_set exits ->
  moves (down_ N (c_exit_state m exit_set)) ms
    (set_configuration (fun conf => conf ∖ (exits ∩ list_to_set (seq 0 N))) ms) (fun _ => True).
Proof.
  intros Hx. pose proof (moves_down (c_exit_state m exit_set) (exited exits) N ms) as H.
  unfold exited in H at 2. rewrite foldl_exit in H.
  replace (list_to_set (reverse (seq 0 N)) : gset nat) with (list_to_set (seq 0 N) : gset nat) in H.
  - apply H. intros i ms1 Hi. by apply exit_state_moves.
  - apply set_eq. intros k. by rewrite !elem_of_list_to_set, elem_of_reverse.
Qed.

(** *** TAKE_TRANSITIONS *)

Lemma take_transitions_moves trans_set trans ms : stands_for nbt trans_set trans ->
  moves (for_ (m_width m) 0 NT (c_take_transition m trans_set) tt) ms ms (fun _ => True).
Proof.
  intros Ht. apply moves_for_same; [apply OK| |done]. intros i [] ms1 Hi _. unfold c_take_transition.
  eapply moves_HAS; [done|by apply (index_trans m)|]. case_bool_decide; cbn [negb]; [|by apply moves_ret].
  destruct (get_transition m OK i Hi) as [t Hit]. eapply moves_trans; [done|].
  destruct (flag_set _ _); [by apply moves_ret|apply moves_content].
Qed.

(** *** ENTER_STATES *)

(** The test [ancestors[0] == 0x01] of a final state. *)
Definition top_level_byte (i : nat) : bool :=
  match m_states m !! i with
  | Some s => (C_STATE_MASK (cs_type s) =? C_STATE_FINAL)%Z && bool_decide (cs_ancestors s !! 0 = Some 0x01%Z)
  | None => false
  end.

Definition c_entered (ms : MicroState) (i : nat) : MicroState :=
  if bool_decide (i ∈ _configuration ms) || is_pseudo_type (type_of T i) then ms
  else set_flags (fun f => if top_level_byte i then Z.lor f USCXML_CTX_TOP_LEVEL_FINAL else f)
         (set_initializedData (fun d => {[i]} ∪ d) (set_configuration (fun conf => {[i]} ∪ conf) ms)).

Lemma init_data_moves i s ms : i < N ->
  moves (c_init_data i s) ms (set_initializedData (fun d => {[i]} ∪ d) ms) (fun _ => True).
Proof.
  intros Hi. unfold c_init_data. apply moves_ctx. intros x Hrel.
  eapply moves_HAS; [apply Hrel|by apply (index_states m)|]. case_bool_decide as Hd.
  - replace (set_initializedData _ ms) with ms; [by apply moves_ret|]. destruct ms as [fl co iv hi da mc ca ev].
    unfold set_initializedData. cbn [_flags _configuration _invocations _history _initializedData
      _microstepConfigurations _isCancelled _event] in *. f_equal. set_solver.
  - eapply moves_bind with (ms1 := ms) (R := fun _ => True).
    { destruct (cs_data s), (exec_content_init (UscxmlCallbacks := CB)); try by apply moves_ret.
      eapply moves_bind; [apply moves_call|]. intros _ _. by apply moves_ret. }
    intros _ _. apply moves_ctx. intros x1 Hrel1.
    eapply moves_op; [apply BIT_SET_AT_spec; [apply Hrel1|by apply (index_states m)]|]. intros a Ha.
    apply moves_set. intros x2 Hrel2. by apply related_data.
Qed.

Lemma pseudo_transitions_moves trans_set trans i ms : stands_for nbt trans_set trans ->
  moves (for_ (m_width m) 0 NT (c_pseudo_transition m trans_set i) tt) ms ms (fun _ => True).
Proof.
  intros Ht. apply moves_for_same; [apply OK| |done]. intros j [] ms1 Hj _. unfold c_pseudo_transition.
  eapply moves_HAS; [done|by apply (index_trans m)|]. case_bool_decide; cbn [negb]; [|by apply moves_ret].
  destruct (get_transition m OK j Hj) as [t Hjt]. destruct (ok_transition m OK j t Hjt) as (_ & _ & _ & Hsrc & _).
  eapply moves_trans; [done|]. destruct (negb _); [by apply moves_ret|].
  destruct (get_state m OK (ct_source t) Hsrc) as [s Hs]. eapply moves_state; [done|].
  destruct (_ =? _); [apply moves_content|by apply moves_ret].
Qed.

Lemma find_donedata_moves i ms : moves (c_find_donedata i (m_donedata m)) ms ms (fun _ => True).
Proof.
  destruct (ok_donedata m OK) as (d & Hd & Hset). revert Hd. induction (m_donedata m) as [|d0 ds IH]; intros Hd.
  - by apply elem_of_nil in Hd.
  - cbn [c_find_donedata]. destruct (donedata_is_set d0) eqn:E0; [|by apply moves_ret].
    destruct (_ =? _); [by apply moves_ret|]. apply IH.
    apply elem_of_cons in Hd as [->|Hd]; [congruence|done].
Qed.

Lemma raise_done_moves i d ms : moves (c_raise_done i d : CMW unit) ms ms (fun _ => True).
Proof. apply (moves_callback raise_done_event (fun f x => f x i d)); [by right|intros _; by apply moves_ret]. Qed.

(** The round of the check for completed parallel states, on sets. *)
Definition unfinished_round (config : gset nat) (j : nat) (X : gset nat) (k : nat) : gset nat :=
  if bool_decide (j ∈ ancestors_of T k) && bool_decide (k ∈ config) then
    if is_final T k then X ∖ ancestors_of T k else {[k]} ∪ X
  else X.

Definition c_unfinished (config : gset nat) (j : nat) : gset nat :=
  foldl (unfinished_round config j) ∅ (seq 0 N).

Lemma unfinished_computes j a (st : uscxml_ctx Ev * W) ms : related (fst st) ms -> j < N -> array_ok nbs a -> stands_for nbs a ∅ ->
  computes (for_ (m_width m) 0 N (c_unfinished_one m j) a) st
    (fun a' => stands_for nbs a' (c_unfinished (_configuration ms) j)).
Proof.
  intros Hrel Hj Ha HX. unfold c_unfinished. replace (seq 0 N) with (seq 0 (N - 0)) by (by rewrite Nat.sub_0_r).
  apply computes_for; [apply OK| |done]. intros k b X Hk HbX.
  destruct (get_state m OK k) as [s Hs]; [lia|]. destruct (ok_state m OK k s Hs) as (_ & _ & Hanc & _).
  destruct (table_row m k s Hs) as (Han & _ & _ & _ & Hty).
  unfold c_unfinished_one, unfinished_round, is_final. rewrite Han, Hty.
  eapply computes_state; [done|]. eapply computes_HAS; [by apply (stands_for_row m)|by apply (index_states m)|].
  case_bool_decide; cbn [negb andb]; [|by apply computes_ret].
  apply computes_ctx. eapply computes_HAS; [apply Hrel|apply (index_states m); lia|].
  case_bool_decide; cbn [negb]; [|by apply computes_ret].
  change (C_STATE_MASK (cs_type s) =? C_STATE_FINAL)%Z with (USCXML_STATE_MASK (cs_type s) =? USCXML_STATE_FINAL)%Z.
  destruct (_ =? _)%Z.
  - eapply computes_op_last; [by apply bit_and_not_spec; [|apply (stands_for_row m)]|done].
  - eapply computes_op_last; [by apply BIT_SET_AT_spec; [|apply (index_states m); lia]|done].
Qed.

Lemma parallel_done_moves i j a ms : i < N -> j < N -> array_ok nbs a ->
  moves (c_parallel_done m i j a) ms ms (array_ok nbs).
Proof.
  intros Hi Hj Ha. destruct (get_state m OK i Hi) as [s Hs]. destruct (get_state m OK j Hj) as [p Hp].
  destruct (ok_state m OK i s Hs) as (_ & _ & Hanc & _). unfold c_parallel_done.
  eapply moves_state; [done|]. destruct (negb _); [by apply moves_ret|].
  eapply moves_state; [done|]. eapply moves_HAS; [by apply (stands_for_row m)|by apply (index_states m)|].
  case_bool_decide; cbn [negb]; [|by apply moves_ret].
  eapply moves_op; [by apply bit_clear_all_spec|]. intros a1 Ha1.
  eapply moves_bind with (R := fun a2 => stands_for nbs a2 (c_unfinished (_configuration ms) j)).
  { apply moves_pure. intros st Hst. apply unfinished_computes; [done|done|apply Ha1|done]. }
  intros a2 Ha2. rewrite (bit_has_any_spec nbs a2 _ Ha2). apply moves_some.
  eapply moves_bind with (R := fun _ => True).
  - destruct (negb _); [apply raise_done_moves|by apply moves_ret].
  - intros _ _. apply moves_ret, Ha2.
Qed.

Lemma enter_final_moves i s a ms : i < N -> m_states m !! i = Some s ->
  (C_STATE_MASK (cs_type s) =? C_STATE_FINAL)%Z = true -> array_ok nbs a ->
  moves (c_enter_final m i s a) ms
    (set_flags (fun f => if top_level_byte i then Z.lor f USCXML_CTX_TOP_LEVEL_FINAL else f) ms) (array_ok nbs).
Proof.
  intros Hi Hs Hf Ha. destruct (ok_state m OK i s Hs) as (_ & _ & Hanc & _).
  unfold c_enter_final, top_level_byte. rewrite Hs, Hf. cbn [andb].
  assert (H0 : 0 < nbs) by (pose proof (nr_bytes_bounds N); pose proof (ok_nonempty m OK); lia).
  destruct (array_byte nbs (cs_ancestors s) 0 Hanc H0) as (b & Hb & _). rewrite Hb. apply moves_some.
  eapply moves_bind with (R := fun _ => True)
    (ms1 := set_flags (fun f => if bool_decide (Some b = Some 1%Z) then Z.lor f USCXML_CTX_TOP_LEVEL_FINAL else f) ms).
  - destruct (Z.eqb_spec b 1) as [->|Hne].
    + rewrite bool_decide_eq_true_2 by done. apply moves_set. intros x Hrel.
      apply related_flags; [|done]. intros z. by apply shared_lor.
    + rewrite bool_decide_eq_false_2 by congruence.
      replace (set_flags (fun f => f) ms) with ms by (by destruct ms).
      eapply moves_bind; [apply find_donedata_moves|]. intros d _. apply raise_done_moves.
  - intros _ _. apply moves_for_same; [apply OK| |done]. intros j b1 ms1 Hj Hb1. by apply parallel_done_moves.
Qed.

Lemma enter_state_moves entry_set entry trans_set trans i a ms : i < N ->
  stands_for nbs entry_set entry -> stands_for nbt trans_set trans -> array_ok nbs a ->
  moves (c_enter_state m entry_set trans_set i a) ms
    (if bool_decide (i ∈ entry) then c_entered ms i else ms) (array_ok nbs).
Proof.
  intros Hi He Ht Ha. destruct (get_state m OK i Hi) as [s Hs].
  destruct (table_row m i s Hs) as (_ & _ & _ & _ & Hty). unfold c_enter_state, c_entered. rewrite Hty.
  eapply moves_HAS; [done|by apply (index_states m)|]. case_bool_decide as Hie; cbn [negb]; [|by apply moves_ret].
  apply moves_ctx. intros x Hrel. eapply moves_HAS; [apply Hrel|by apply (index_states m)|].
  case_bool_decide as Hic; cbn [orb]; [by apply moves_ret|]. eapply moves_state; [done|].
  replace (c_is_pseudo (cs_type s)) with (is_pseudo_type (cs_type s))
    by (unfold c_is_pseudo, is_pseudo_type, is_history_type; f_equal; apply orb_comm).
  destruct (is_pseudo_type _); [by apply moves_ret|].
  eapply moves_op; [apply BIT_SET_AT_spec; [apply Hrel|by apply (index_states m)]|]. intros c Hc.
  eapply moves_bind.
  { apply moves_set with (ms' := set_configuration (fun _ => {[i]} ∪ _configuration ms) ms).
    intros x1 Hrel1. by apply related_config. }
  intros _ _. eapply moves_bind; [by apply init_data_moves|]. intros _ _.
  eapply moves_bind; [apply moves_content|]. intros _ _.
  eapply moves_bind; [by apply (pseudo_transitions_moves trans_set trans)|]. intros _ _.
  change (set_configuration (fun _ => {[i]} ∪ _configuration ms) ms)
    with (set_configuration (fun conf => {[i]} ∪ conf) ms).
  destruct (_ =? C_STATE_FINAL)%Z eqn:Hf; [by apply enter_final_moves|].
  match goal with |- moves _ ?ms1 _ _ => replace (set_flags _ ms1) with ms1 end; [by apply moves_ret|].
  unfold top_level_byte. rewrite Hs, Hf. by destruct ms.
Qed.

(** ** From ESTABLISH_ENTRY_SET to the end *)

Definition c_enter_all (entry : gset nat) (ms : MicroState) : MicroState :=
  foldl (fun ms i => if bool_decide (i ∈ entry) then c_entered ms i else ms) ms (seq 0 N).

Definition c_microstep_result (exits targets trans : gset nat) (ms : MicroState) : MicroState :=
  let entry := fst (establish_entryset T (_configuration ms) (_history ms) exits targets trans) in
  c_enter_all entry (set_configuration (fun conf => conf ∖ (exits ∩ list_to_set (seq 0 N))) ms).

Lemma microstep_moves target_set targets exit_set exits trans_set trans tmp_states stack ms :
  stack_ok stack -> stands_for nbs target_set targets -> stands_for nbs exit_set exits ->
  stands_for nbt trans_set trans -> array_ok nbs tmp_states ->
  moves (c_microstep m target_set exit_set trans_set tmp_states stack) ms
    (c_microstep_result exits targets trans ms) (fun r => r = USCXML_ERR_OK).
Proof.
  intros Hk Ht Hx Htr Htmp. unfold c_microstep, c_microstep_result.
  set (E := establish_entryset T (_configuration ms) (_history ms) exits targets trans).
  eapply moves_bind with (R := fun e => entry_rel m e E).
  { apply moves_pure. intros st Hrel.
    apply establish_entry_set_computes; try done; [apply Hk|apply Hrel|apply Hrel]. }
  intros [[entry_set ts] tmp] (He1 & He2 & He3). cbn [fst snd] in *. cbv zeta.
  eapply moves_bind; [by apply exit_states_moves|]. intros _ _.
  eapply moves_bind; [by eapply take_transitions_moves|]. intros _ _.
  eapply moves_bind with (R := array_ok nbs); [|intros ? _; by apply moves_ret].
  unfold c_enter_all. apply (moves_for _ (fun ms i => if bool_decide (i ∈ fst E) then c_entered ms i else ms));
    [apply OK| |done].
  intros i b ms1 Hi Hb. by eapply enter_state_moves.
Qed.

End Moves.

(** ** SELECT_TRANSITIONS, REMEMBER_HISTORY *)

Section Select.
Context {Fn Ev W : Type} {CB : UscxmlCallbacks Fn Ev W} (m : uscxml_machine Fn) (OK : machine_ok m).
Context (read_event : Ev -> Event).
Abbreviation N := (m_nr_states m).
Abbreviation NT := (m_nr_transitions m).
Abbreviation nbs := (nr_bytes (m_nr_states m)).
Abbreviation nbt := (nr_bytes (m_nr_transitions m)).
Abbreviation setS := (set_of nbs).
Abbreviation T := (tables m).
Abbreviation CMW := (@CM Ev W).
Abbreviation related := (related m read_event).

(** As [moves], when the state reached depends on the callbacks. *)
Definition leads {A} (c : CMW A) (ms : MicroState) (Q : A -> MicroState -> Prop) (E : Stop -> Prop) : Prop :=
  triple (fun s => related (fst s) ms) c (fun a s => exists ms', related (fst s) ms' /\ Q a ms')
    (fun e s => E e /\ exists ms', related (fst s) ms').

Lemma leads_ret {A} (a : A) ms (Q : A -> MicroState -> Prop) E : Q a ms -> leads (mret a) ms Q E.
Proof. intros HQ. apply triple_ret. eauto. Qed.

Lemma leads_bind {A B} (c : CMW A) (f : A -> CMW B) ms (R : A -> MicroState -> Prop) Q E :
  leads c ms R E -> (forall a ms1, R a ms1 -> leads (f a) ms1 Q E) -> leads (c ≫= f) ms Q E.
Proof.
  intros Hc Hf. eapply triple_bind; [exact Hc|]. intros a s (ms1 & Hs & HR). by apply (Hf a ms1 HR s).
Qed.

Lemma leads_post {A} (c : CMW A) ms (R Q : A -> MicroState -> Prop) E :
  leads c ms R E -> (forall a ms', R a ms' -> Q a ms') -> leads c ms Q E.
Proof. intros Hc HQ. eapply triple_conseq; [exact Hc|done| |done]. intros a s (ms' & Hs & HR). eauto. Qed.

Lemma leads_moves {A} (c : CMW A) ms ms' (R : A -> Prop) (Q : A -> MicroState -> Prop) (E : Stop -> Prop) :
  moves m read_event c ms ms' R -> (forall a, R a -> Q a ms') -> (forall e, handler_error e -> E e) -> leads c ms Q E.
Proof.
  intros Hc HQ HE. eapply triple_conseq; [exact Hc|done| |].
  - intros a s [Hs HR]. eauto.
  - intros e s [He Hs]. auto.
Qed.

Lemma leads_ctx {A} (f : uscxml_ctx Ev -> CMW A) ms (Q : A -> MicroState -> Prop) E :
  (forall x, related x ms -> leads (f x) ms Q E) -> leads (ctx ≫= f) ms Q E.
Proof. intros Hf s Hs. exact (Hf (fst s) Hs s Hs). Qed.

Lemma leads_checked {A B} (r : option A) a (f : A -> CMW B) ms (Q : B -> MicroState -> Prop) E :
  r = Some a -> leads (f a) ms Q E -> leads (checked r ≫= f) ms Q E.
Proof. intros -> Hf. exact Hf. Qed.

Lemma leads_op {B} nb Y (r : option bytes) (f : bytes -> CMW B) ms (Q : B -> MicroState -> Prop) E :
  (exists d, r = Some d /\ stands_for nb d Y) ->
  (forall d, stands_for nb d Y -> leads (f d) ms Q E) -> leads (checked r ≫= f) ms Q E.
Proof. intros (d & -> & Hd) Hf. exact (Hf d Hd). Qed.

(** *** REMEMBER_HISTORY *)

Definition remembered (exits : gset nat) (ms : MicroState) (i : nat) : MicroState :=
  set_history (remember_one T (_configuration ms) exits (_history ms) i) ms.

Lemma remember_one_moves exit_set exits i a ms : i < N -> stands_for nbs exit_set exits -> array_ok nbs a ->
  moves m read_event (c_remember_one m exit_set i a : CMW bytes) ms (remembered exits ms i) (array_ok nbs).
Proof.
  intros Hi Hx Ha. destruct (get_state m OK i Hi) as [s Hs].
  destruct (ok_state m OK i s Hs) as (_ & Hcp & _ & Hpar).
  destruct (table_row m i s Hs) as (_ & _ & Hcc & Hpa & Hty).
  unfold c_remember_one, remembered, remember_one. rewrite Hty, Hcc, Hpa.
  assert (Hnone : set_history (_history ms) ms = ms) by (by destruct ms).
  eapply moves_state; [done|]. change (c_is_history (cs_type s)) with (is_history_type (cs_type s)).
  destruct (is_history_type _); cbn [negb andb]; [|rewrite Hnone; by apply moves_ret].
  eapply moves_HAS; [done|by apply (index_states m)|].
  case_bool_decide; cbn [negb]; [|rewrite Hnone; by apply moves_ret].
  eapply moves_op; [by apply bit_copy_spec; [|apply (stands_for_row m)]|]. intros t1 Ht1.
  apply moves_ctx. intros x Hrel.
  eapply moves_op; [by apply bit_and_spec; [|apply Hrel]|]. intros t2 Ht2.
  eapply moves_op; [by apply bit_and_not_spec; [apply Hrel|apply (stands_for_row m)]|]. intros h1 Hh1.
  eapply moves_op; [by apply bit_or_spec|]. intros h2 Hh2.
  eapply moves_bind with (R := fun _ => True); [|intros _ _; apply moves_ret, Ht2].
  apply moves_set. intros x1 Hrel1. by apply related_history.
Qed.

Lemma foldl_remembered exits l : forall ms,
  foldl (remembered exits) ms l = set_history (foldl (remember_one T (_configuration ms) exits) (_history ms) l) ms.
Proof.
  induction l as [|i l IH]; intros ms; [by destruct ms|]. cbn [foldl]. rewrite IH. by destruct ms.
Qed.

Lemma remember_history_moves exit_set exits a ms : stands_for nbs exit_set exits -> array_ok nbs a ->
  moves m read_event (c_remember_history m exit_set a : CMW bytes) ms
    (set_history (remember_history T (_configuration ms) exits (_history ms)) ms) (array_ok nbs).
Proof.
  intros Hx Ha. unfold remember_history. rewrite n_states_tables, <- foldl_remembered by done.
  apply moves_for; [apply OK| |done]. intros i b ms1 Hi Hb. by apply remember_one_moves.
Qed.

(** *** The arrays of the selection *)

Record selection_rel (l : Selection) (sets : Sets) : Prop := {
  sel_conflicts : stands_for nbt (l_conflicts l) (conflictSet sets);
  sel_targets : stands_for nbs (l_target_set l) (targetSet sets);
  sel_exits : stands_for nbs (l_exit_set l) (exitSet sets);
  sel_trans : stands_for nbt (l_trans_set l) (transSet sets);
}.

Lemma take_run i t l sets (x : uscxml_ctx Ev) (s : W) : i < NT -> m_transitions m !! i = Some t -> selection_rel l sets ->
  exists l', c_take m i t l (x, s) = (inr l', (with_flags (fun f => Z.lor f C_CTX_TRANSITION_FOUND) x, s)) /\
    selection_rel l' (add_transition i (table_transition m i t) sets).
Proof.
  intros Hi Ht [Hc Htg Hx Htr]. destruct (ok_transition m OK i t Ht) as (Ht1 & Ht2 & Ht3 & _).
  unfold c_take. set (x1 := with_flags _ x).
  change (exists l', ?rest (x1, s) = (inr l', (x1, s)) /\ ?R l') with (computes (rest) (x1, s) R).
  eapply computes_op; [apply bit_or_spec; [exact Hc|split; [exact Ht3|reflexivity]]|]. intros a1 Ha1.
  eapply computes_op; [apply bit_or_spec; [exact Htg|by apply (stands_for_row m)]|]. intros a2 Ha2.
  eapply computes_op; [apply bit_or_spec; [exact Hx|by apply (stands_for_row m)]|]. intros a3 Ha3.
  eapply computes_op; [apply BIT_SET_AT_spec; [exact Htr|by apply (index_trans m)]|]. intros a4 Ha4.
  apply computes_ret. by split.
Qed.

Lemma related_found x ms : related x ms -> related (with_flags (fun f => Z.lor f C_CTX_TRANSITION_FOUND) x) (found ms).
Proof. intros Hrel. apply related_flags; [|done]. intros z. by apply shared_lor. Qed.

Definition reached (ms ms' : MicroState) : Prop := ms' = ms \/ ms' = found ms.

Lemma found_found ms : found (found ms) = found ms.
Proof. unfold found, set_flags. cbn. by rewrite <- Z.lor_assoc. Qed.

Lemma reached_found ms ms' : reached ms ms' -> reached ms (found ms').
Proof. intros [->| ->]; right; [done|apply found_found]. Qed.

Lemma moves_matches t ms : moves m read_event (c_matches t) ms ms (fun _ => True).
Proof.
  unfold c_matches. apply moves_ctx. intros x _. destruct (x_event x) as [e|]; [|by apply moves_ret].
  apply (moves_callback m read_event is_matched (fun f x => f x t e)); [by left|intros r; by apply moves_ret].
Qed.

Lemma moves_enabled i t ms : m_transitions m !! i = Some t -> moves m read_event (c_enabled t) ms ms (fun _ => True).
Proof.
  intros Ht. unfold c_enabled. destruct (ct_condition t) eqn:Hc; [|by apply moves_ret].
  destruct (ok_transition m OK i t Ht) as (_ & _ & _ & _ & Hen).
  destruct (Hen ltac:(by rewrite Hc)) as [f ->]. apply moves_some.
  eapply moves_bind; [apply moves_call|]. intros r _. by apply moves_ret.
Qed.

(** Whatever the callbacks answer, the arrays stand for the sets of some
    selection, and FOUND is set when there is a transition in it. *)
Lemma select_one_leads i l ms : i < NT -> (exists sets, selection_rel l sets) ->
  leads (c_select_one m i l) ms (fun l' ms' => reached ms ms' /\ exists sets, selection_rel l' sets) handler_error.
Proof.
  intros Hi [sets Hl]. destruct (get_transition m OK i Hi) as [t Ht]. unfold c_select_one, GET_TRANS.
  assert (Hskip : forall ms0, ms0 = ms -> leads (mret l) ms0
    (fun l' ms' => reached ms ms' /\ exists sets, selection_rel l' sets) handler_error).
  { intros ? ->. apply leads_ret. split; [by left|by exists sets]. }
  eapply leads_checked; [done|]. destruct (flag_set _ _); [by apply Hskip|].
  apply leads_ctx. intros x Hrel. destruct (ok_transition m OK i t Ht) as (_ & _ & _ & Hsrc & _).
  eapply leads_checked; [apply (BIT_HAS_spec nbs); [apply Hrel|by apply (index_states m)]|].
  destruct (negb _); [by apply Hskip|].
  eapply leads_checked; [apply (BIT_HAS_spec nbt); [apply Hl|by apply (index_trans m)]|].
  destruct (bool_decide (i ∈ _)); [by apply Hskip|]. destruct (bool_decide (_ <-> _)); [|by apply Hskip].
  eapply leads_bind with (R := fun _ ms1 => ms1 = ms); [by eapply leads_moves; [apply moves_matches| |]|].
  intros b1 ms1 ->. eapply leads_bind with (R := fun _ ms1 => ms1 = ms).
  { destruct b1; [by eapply leads_moves; [by eapply moves_enabled| |]|by apply leads_ret]. }
  intros b2 ms2 ->. destruct b2; [|by apply Hskip].
  intros [x2 s2] Hrel2. destruct (take_run i t l sets x2 s2 Hi Ht Hl) as (l' & -> & Hl').
  exists (found ms). split; [by apply related_found|]. split; [by right|]. eexists. exact Hl'.
Qed.

Lemma select_leads target_set targets trans_set trans stack ms : stack_ok m stack ->
  stands_for nbs target_set targets -> stands_for nbt trans_set trans ->
  leads (c_select m target_set trans_set stack) ms
    (fun l ms' => reached ms ms' /\ exists sets, selection_rel l sets) handler_error.
Proof.
  intros Hk Ht Htr. unfold c_select.
  eapply leads_op; [apply bit_clear_all_spec, Hk|]. intros c Hc.
  eapply leads_op; [apply bit_clear_all_spec, Hk|]. intros e He.
  eapply leads_bind with (R := fun l ms' => reached ms ms' /\ exists sets, selection_rel l sets).
  - assert (H : forall idxs l ms1, (forall i, i ∈ idxs -> i < NT) -> reached ms ms1 -> (exists sets, selection_rel l sets) ->
      leads (foldM (c_select_one m) idxs l) ms1 (fun l' ms' => reached ms ms' /\ exists sets, selection_rel l' sets) handler_error).
    { induction idxs as [|i idxs IH]; intros l ms1 Hi Hms Hl; cbn [foldM]; [by apply leads_ret|].
      eapply leads_bind; [apply (select_one_leads i l ms1); [apply Hi; left|done]|].
      intros l' ms2 [H12 Hl']. apply IH; [intros j Hj; apply Hi; by right| |done].
      destruct H12 as [->| ->]; [done|by apply reached_found]. }
    intros s Hs. rewrite for_foldM by apply OK. rewrite Nat.sub_0_r. revert s Hs. apply H; [|by left|].
    + intros i Hi%elem_of_seq. lia.
    + by exists (mkSets ∅ targets ∅ trans).
  - intros l ms1 [Hr [sets [Hl1 Hl2 Hl3 Hl4]]]. apply leads_ctx. intros x Hrel.
    eapply leads_op; [apply bit_and_spec; [exact Hl3|apply Hrel]|]. intros e2 He2.
    apply leads_ret. split; [done|].
    by exists (mkSets (exitSet sets ∩ _configuration ms1) (targetSet sets) (conflictSet sets) (transSet sets)).
Qed.

(** *** Step by step with the interpreter *)

Context {X : Type} {CBi : MicroStepCallbacks nat W X}.

(** What ties the callbacks of an embedding to those of the interpreter: the
    event is never empty, [is_matched] is set and events match the same descriptors, and a guard is
    answered alike with the same effects. *)
Class Embedding : Prop := {
  emb_event e : Event_bool (read_event e) = true;
  emb_matched x t e s d : ct_event t = Some d ->
    exists f r, is_matched = Some f /\ f x t e s = (r, s) /\ (0 <? r)%Z = isMatched (read_event e) d;
  emb_enabled x ms t f cond s : related x ms -> ct_condition t = Some cond -> ct_is_enabled t = Some f ->
    exists r s', run_enabled f x t s = (r, s') /\ isTrue cond ms s = (inr (0 <? r)%Z, s');
}.

Context {EMB : Embedding} (ATT : attributes_ok m).

(** The two runs of one computation each: same world, related states. *)
Definition lockstep {A B} (c : CMW A) (d : Step (X := X) B) (x : uscxml_ctx Ev) (ms : MicroState) (s : W)
    (Q : A -> B -> uscxml_ctx Ev -> MicroState -> Prop) : Prop :=
  exists a b x' ms' s', c (x, s) = (inr a, (x', s')) /\ d (ms, s) = (inr b, (ms', s')) /\ related x' ms' /\ Q a b x' ms'.

Lemma lockstep_ret {A B} (a : A) (b : B) x ms s (Q : A -> B -> uscxml_ctx Ev -> MicroState -> Prop) :
  related x ms -> Q a b x ms -> lockstep (mret a) (mret b) x ms s Q.
Proof. intros Hrel HQ. by exists a, b, x, ms, s. Qed.

Lemma lockstep_bind {A B A' B'} (c : CMW A) (f : A -> CMW A') (d : Step B) (g : B -> Step B') x ms s R Q :
  lockstep c d x ms s R ->
  (forall a b x' ms' s', related x' ms' -> R a b x' ms' -> lockstep (f a) (g b) x' ms' s' Q) ->
  lockstep (c ≫= f) (d ≫= g) x ms s Q.
Proof.
  intros (a & b & x' & ms' & s' & Hc & Hd & Hrel & HR) Hf.
  destruct (Hf a b x' ms' s' Hrel HR) as (a2 & b2 & x2 & ms2 & s2 & Hf1 & Hg1 & H2).
  exists a2, b2, x2, ms2, s2. unfold mbind, M_bind. rewrite Hc, Hd. done.
Qed.

Lemma lockstep_checked {A A' B} (r : option A) a (f : A -> CMW A') (d : Step B) x ms s Q :
  r = Some a -> lockstep (f a) d x ms s Q -> lockstep (checked r ≫= f) d x ms s Q.
Proof. intros -> Hf. exact Hf. Qed.

Lemma lockstep_left {A A' B} (c : CMW A) a (f : A -> CMW A') (d : Step B) x ms s Q :
  c (x, s) = (inr a, (x, s)) -> lockstep (f a) d x ms s Q -> lockstep (c ≫= f) d x ms s Q.
Proof. intros Hc Hf. unfold lockstep, mbind, M_bind. rewrite Hc. exact Hf. Qed.

Lemma lockstep_op {A' B} nb Y (r : option bytes) (f : bytes -> CMW A') (d : Step B) x ms s Q :
  (exists a, r = Some a /\ stands_for nb a Y) ->
  (forall a, stands_for nb a Y -> lockstep (f a) d x ms s Q) -> lockstep (checked r ≫= f) d x ms s Q.
Proof. intros (a & -> & Ha) Hf. exact (Hf a Ha). Qed.

Lemma flag_pseudo i t : flag_set (ct_type t) (Z.lor C_TRANS_HISTORY C_TRANS_INITIAL) =
  pseudo_transition (table_transition m i t).
Proof. done. Qed.

Lemma event_condition i t x ms : m_transitions m !! i = Some t -> related x ms ->
  bool_decide (is_Some (ct_event t) <-> is_Some (x_event x)) =
  (let no_desc := String.eqb (t_event (table_transition m i t)) "" in
   (no_desc && negb (Event_bool (_event ms))) || (negb no_desc && Event_bool (_event ms))).
Proof.
  intros Ht Hrel. destruct (ATT i t Ht) as (Hev & _).
  pose proof (rel_event _ _ _ _ Hrel) as He. unfold event_related in He. cbn [t_event table_transition].
  destruct (x_event x) as [e|] eqn:Ex.
  - rewrite He, emb_event. destruct (ct_event t) as [d|] eqn:Ed; cbn [default from_option id].
    + rewrite bool_decide_eq_true_2 by (split; eauto). destruct (String.eqb_spec d "") as [->|]; [done|done].
    + rewrite bool_decide_eq_false_2; [done|]. intros [_ H]. by destruct H.
  - rewrite He. destruct (ct_event t) as [d|] eqn:Ed; cbn [default from_option id].
    + destruct (String.eqb_spec d "") as [->|]; [done|]. apply bool_decide_eq_false_2. intros [H _]. by destruct H.
    + by apply bool_decide_eq_true_2.
Qed.

(** Matching has no effect and gives the answer of the interpreter. *)
Lemma matches_run t x ms s : related x ms ->
  (is_Some (ct_event t) <-> is_Some (x_event x)) ->
  c_matches t (x, s) = (inr (negb (Event_bool (_event ms)) || isMatched (_event ms) (default ""%string (ct_event t))), (x, s)).
Proof.
  intros Hrel Hiff. pose proof (rel_event _ _ _ _ Hrel) as He. unfold event_related in He.
  unfold c_matches, mbind, M_bind, ctx. cbn [fst]. destruct (x_event x) as [e|] eqn:Ex.
  - destruct (proj2 Hiff ltac:(eauto)) as [d Hd]. destruct (emb_matched x t e s d Hd) as (f & r & Hf & Hr & Hb).
    rewrite Hf. unfold checked, invoke_fn. rewrite Hr, He, emb_event, Hd. cbn [default from_option id negb orb]. by rewrite <- Hb.
  - by rewrite He.
Qed.

Lemma enabled_run i t x ms s : m_transitions m !! i = Some t -> related x ms ->
  exists b s', c_enabled t (x, s) = (inr b, (x, s')) /\
    guard_holds (X := X) (table_transition m i t) (ms, s) = (inr b, (ms, s')).
Proof.
  intros Ht Hrel. destruct (ok_transition m OK i t Ht) as (_ & _ & _ & _ & Hen). destruct (ATT i t Ht) as (_ & Hne).
  unfold c_enabled, guard_holds. cbn [t_cond table_transition].
  destruct (ct_condition t) as [cond|] eqn:Hc; cbn [default from_option id]; [|by exists true, s].
  destruct (Hen ltac:(eauto)) as [f Hf]. destruct (emb_enabled x ms t f cond s Hrel Hc Hf) as (r & s' & Hr & Hi).
  exists (0 <? r)%Z, s'. rewrite Hf. destruct (String.eqb_spec cond "") as [->|]; [done|].
  unfold checked, invoke_fn, call, mbind, M_bind. cbn. by rewrite Hr, Hi.
Qed.

Definition same_situation (ms ms' : MicroState) : Prop :=
  _configuration ms' = _configuration ms /\ _event ms' = _event ms /\ _history ms' = _history ms.

Lemma candidate_unfold ms sets i t : candidate ms sets i t =
  negb (pseudo_transition t) && (bool_decide (t_source t ∈ _configuration ms) &&
    (negb (bool_decide (i ∈ conflictSet sets)) && event_matches (_event ms) t)).
Proof. unfold candidate. by rewrite !andb_assoc. Qed.

Lemma select_one_lockstep i l sets x ms (s : W) : i < NT -> selection_rel l sets -> related x ms ->
  lockstep (c_select_one m i l) (select_one T i sets) x ms s
    (fun l' sets' _ ms' => selection_rel l' sets' /\ same_situation ms ms').
Proof.
  intros Hi Hl Hrel. destruct (get_transition m OK i Hi) as [t Ht].
  destruct (ok_transition m OK i t Ht) as (_ & _ & _ & Hsrc & _).
  unfold select_one. rewrite (tables_transition m i t Ht). set (tt' := table_transition m i t).
  assert (Hskip : lockstep (mret l) (mret sets) x ms s
    (fun l' sets' _ ms' => selection_rel l' sets' /\ same_situation ms ms')) by by apply lockstep_ret.
  unfold c_select_one, GET_TRANS. eapply lockstep_checked; [done|]. rewrite (flag_pseudo i t). fold tt'.
  change (lockstep (?c) (getm ≫= ?g) x ms s ?Q) with (lockstep c (g ms) x ms s Q). cbv beta.
  rewrite candidate_unfold. destruct (pseudo_transition tt'); cbn [negb andb]; [exact Hskip|].
  change (lockstep (ctx ≫= ?f) ?d x ms s ?Q) with (lockstep (f x) d x ms s Q). cbv beta.
  eapply lockstep_checked; [apply (BIT_HAS_spec nbs); [apply Hrel|by apply (index_states m)]|].
  change (t_source tt') with (ct_source t). destruct (bool_decide (ct_source t ∈ _)); cbn [negb andb]; [|exact Hskip].
  eapply lockstep_checked; [apply (BIT_HAS_spec nbt); [apply Hl|by apply (index_trans m)]|].
  destruct (bool_decide (i ∈ _)); cbn [negb andb]; [exact Hskip|].
  pose proof (event_condition i t x ms Ht Hrel) as Hec. cbv zeta in Hec. fold tt' in Hec.
  unfold event_matches. cbv zeta. rewrite <- Hec. clear Hec.
  destruct (bool_decide (_ <-> _)) eqn:Hcond; cbn [andb]; [|exact Hskip]. apply bool_decide_eq_true in Hcond.
  eapply lockstep_left; [exact (matches_run t x ms s Hrel Hcond)|].
  change (t_event tt') with (default ""%string (ct_event t)).
  destruct (negb (Event_bool _) || _); [|exact Hskip].
  eapply (lockstep_bind _ _ _ _ _ _ _ (fun b b' x' ms' => b = b' /\ ms' = ms)).
  { destruct (enabled_run i t x ms s Ht Hrel) as (b & s' & Hb & Hb'). by exists b, b, x, ms, s'. }
  intros b ? x1 ms1 s1 Hrel1 [<- ->]. destruct b; [|by apply lockstep_ret].
  destruct (take_run i t l sets x1 s1 Hi Ht Hl) as (l' & Hl1 & Hl').
  eexists l', _, _, (found ms), s1. split; [exact Hl1|]. split; [done|]. split; [by apply related_found|]. done.
Qed.

Lemma select_lockstep target_set targets trans_set trans stack x ms s : stack_ok m stack -> related x ms ->
  stands_for nbs target_set targets -> stands_for nbt trans_set trans -> targets = ∅ -> trans = ∅ ->
  lockstep (c_select m target_set trans_set stack) (select_transitions T) x ms s
    (fun l sets _ ms' => same_situation ms ms' /\
       selection_rel l (mkSets (exitSet sets ∩ _configuration ms) (targetSet sets) (conflictSet sets) (transSet sets))).
Proof.
  intros Hk Hrel Ht Htr -> ->. unfold c_select, select_transitions.
  eapply lockstep_op; [apply bit_clear_all_spec, Hk|]. intros c Hc.
  eapply lockstep_op; [apply bit_clear_all_spec, Hk|]. intros e He.
  change (lockstep ?c (update ?f;; ?d) x ms s ?Q) with (lockstep c d x (f ms) s Q).
  set (ms0 := set_flags _ ms).
  assert (Hrel0 : related x ms0).
  { destruct Hrel as [Hf ? ? ? ? ?]. split; try done. rewrite Hf. unfold ms0, shared_flags, clear_flag, set_flags.
    cbn [_flags]. rewrite <- Z.land_assoc. done. }
  assert (H : forall idxs l sets x1 ms1 s1, (forall i, i ∈ idxs -> i < NT) -> selection_rel l sets -> related x1 ms1 ->
    same_situation ms ms1 ->
    lockstep (foldM (c_select_one m) idxs l) (foldM (select_one T) idxs sets) x1 ms1 s1
      (fun l' sets' _ ms' => selection_rel l' sets' /\ same_situation ms ms')).
  { induction idxs as [|i idxs IH]; intros l sets x1 ms1 s1 Hi Hl Hr1 Hs1; cbn [foldM]; [by apply lockstep_ret|].
    eapply lockstep_bind; [apply select_one_lockstep; [apply Hi; left|exact Hl|exact Hr1]|].
    intros l' sets' x2 ms2 s2 Hr2 [Hl2 (Hs2 & Hs3 & Hs4)]. apply IH; [intros j Hj; apply Hi; by right|done|done|].
    destruct Hs1 as (H1 & H2 & H3). split_and!; congruence. }
  rewrite n_transitions_tables by done.
  specialize (H (seq 0 NT) (mkSelection c target_set e trans_set) no_sets x ms0 s).
  destruct H as (l & sets & x' & ms' & s' & Hc1 & Hd1 & Hr1 & Hl1 & Hs1);
    [intros i Hi%elem_of_seq; lia|by split|done|done|].
  destruct Hl1 as [Hl1 Hl2 Hl3 Hl4].
  destruct (bit_and_spec nbs _ _ _ _ Hl3 (rel_config _ _ _ _ Hr1)) as (e2 & He2 & Hx2).
  exists (mkSelection (l_conflicts l) (l_target_set l) e2 (l_trans_set l)), sets, x', ms', s'.
  unfold mbind at 1, M_bind at 1. rewrite for_foldM, Nat.sub_0_r, Hc1 by apply OK.
  unfold mbind, M_bind, ctx, checked. cbn [fst]. rewrite He2. split; [done|]. split; [done|]. split; [done|].
  split; [done|]. destruct Hs1 as (Hcf & _ & _). split; try done. cbn. by rewrite <- Hcf.
Qed.

End Select.
