(* ===== verification/CTheorems.v ===== *)
(** * Properties of the emitted machine

    Memory safety of [uscxml_step] under arbitrary callbacks, of which two must
    be there, the agreement of
    a micro step of the emitted code with one of the interpreter on the same
    tables, the independence of the first step of what is on the stack, the
    condition under which a parallel state is done, termination, and what goes
    wrong with final states in machines of more than eight states. *)

From stdpp Require Import base list gmap strings.
From S2P Require Import Prelude Strings Data CBits Effects CStep Dom Predicates Chart MicroStep StepLemmas Recorder CEntry CRefine.

Local Open Scope nat_scope.

Section Step.
Context {Fn Ev W : Type} {CB : UscxmlCallbacks Fn Ev W} (m : uscxml_machine Fn) (OK : machine_ok m).
Context (read_event : Ev -> Event).
Abbreviation N := (m_nr_states m).
Abbreviation NT := (m_nr_transitions m).
Abbreviation nbs := (nr_bytes (m_nr_states m)).
Abbreviation nbt := (nr_bytes (m_nr_transitions m)).
Abbreviation setS := (set_of nbs).
Abbreviation T := (tables m).
Abbreviation CMW := (@CM Ev W).
Abbreviation related := (related m read_event).
Abbreviation moves := (@CRefine.moves Fn Ev W CB m read_event _).
Abbreviation leads := (@CRefine.leads Fn Ev W m read_event _).

(** ** Invocations and the end of the machine *)

Definition with_invoked (inv : gset nat) (ms : MicroState) : MicroState := set_invocations (fun _ => inv) ms.

Lemma with_invoked_same inv ms : inv = _invocations ms -> with_invoked inv ms = ms.
Proof. intros ->. by destruct ms. Qed.

Lemma clear_invocation_moves i ms : i < N ->
  moves (c_clear_invocation i : CMW unit) ms (with_invoked (_invocations ms ∖ {[i]}) ms) (fun _ => True).
Proof.
  intros Hi. unfold c_clear_invocation. apply moves_ctx. intros x Hrel.
  eapply moves_op; [apply BIT_CLEAR_spec; [apply Hrel|by apply (index_states m)]|]. intros a Ha.
  apply moves_set. intros x1 Hrel1. by apply related_invocations.
Qed.

Lemma finish_state_moves i ms : i < N ->
  moves (c_finish_state m i) ms (with_invoked (_invocations ms ∖ {[i]}) ms) (fun _ => True).
Proof.
  intros Hi. unfold c_finish_state. apply moves_ctx. intros x Hrel.
  eapply moves_HAS; [apply Hrel|by apply (index_states m)|].
  eapply moves_bind with (R := fun _ => True).
  { case_bool_decide; [|by apply moves_ret]. destruct (get_state m OK i Hi) as [s Hs].
    eapply moves_state; [done|]. apply moves_content. }
  intros _ _. apply moves_ctx. intros x1 Hrel1. eapply moves_HAS; [apply Hrel1|by apply (index_states m)|].
  case_bool_decide.
  - eapply moves_bind; [by apply moves_invoke|]. intros _ _. by apply clear_invocation_moves.
  - rewrite with_invoked_same by set_solver. by apply moves_ret.
Qed.

Lemma foldl_invoked l : forall ms, foldl (fun ms i => with_invoked (_invocations ms ∖ {[i]}) ms) ms l =
  with_invoked (_invocations ms ∖ list_to_set l) ms.
Proof.
  induction l as [|i l IH]; intros ms; cbn [foldl list_to_set].
  - rewrite with_invoked_same; [done|set_solver].
  - rewrite IH. unfold with_invoked, set_invocations. f_equal. cbn. set_solver.
Qed.

(** What the stepper is like after the machine has finished. *)
Definition c_finished (ms : MicroState) : MicroState :=
  set_flags (fun f => Z.lor f USCXML_CTX_FINISHED) (with_invoked (_invocations ms ∖ list_to_set (seq 0 N)) ms).

Lemma finish_moves ms : moves (c_finish m) ms (c_finished ms) (fun r => r = USCXML_ERR_DONE).
Proof.
  unfold c_finish. eapply moves_bind.
  { apply (moves_down m read_event _ (fun ms i => with_invoked (_invocations ms ∖ {[i]}) ms)).
    intros i ms1 Hi. by apply finish_state_moves. }
  intros _ _. rewrite foldl_invoked. eapply moves_bind with (R := fun _ => True).
  - apply moves_set with (ms' := c_finished ms). intros x Hrel. unfold c_finished.
    replace (list_to_set (seq 0 N) : gset nat) with (list_to_set (reverse (seq 0 N)) : gset nat).
    + apply related_flags; [|done]. intros z. by apply shared_lor.
    + apply set_eq. intros k. by rewrite !elem_of_list_to_set, elem_of_reverse.
  - intros _ _. by apply moves_ret.
Qed.

Definition c_managed (ms : MicroState) (i : nat) : MicroState :=
  with_invoked (if bool_decide (i ∈ _configuration ms) then {[i]} ∪ _invocations ms else _invocations ms ∖ {[i]}) ms.

Lemma manage_invocation_moves i u ms : i < N -> moves (c_manage_invocation m i u) ms (c_managed ms i) (fun _ => True).
Proof.
  intros Hi. unfold c_manage_invocation, c_managed. apply moves_ctx. intros x Hrel.
  eapply moves_HAS; [apply Hrel|by apply (index_states m)|].
  eapply moves_HAS; [apply Hrel|by apply (index_states m)|].
  case_bool_decide as Hc; cbn [negb andb].
  - eapply (moves_bind m read_event (mret tt)); [by apply moves_ret with (Q := fun _ => True)|]. intros _ _.
    apply moves_ctx. intros x1 Hrel1. eapply moves_HAS; [apply Hrel1|by apply (index_states m)|].
    case_bool_decide as Hinv; cbn [negb].
    + rewrite with_invoked_same by set_solver. by apply moves_ret.
    + eapply moves_bind; [by apply moves_invoke|]. intros _ _. apply moves_ctx. intros x2 Hrel2.
      eapply moves_op; [apply BIT_SET_AT_spec; [apply Hrel2|by apply (index_states m)]|]. intros a Ha.
      apply moves_set. intros x3 Hrel3. by apply related_invocations.
  - eapply moves_bind with (ms1 := with_invoked (_invocations ms ∖ {[i]}) ms) (R := fun _ => True).
    { case_bool_decide.
      - eapply moves_bind; [by apply moves_invoke|]. intros _ _. by apply clear_invocation_moves.
      - rewrite with_invoked_same by set_solver. by apply moves_ret. }
    intros _ _. apply moves_ctx. intros x1 Hrel1. eapply moves_HAS; [apply Hrel1|by apply (index_states m)|].
    by apply moves_ret.
Qed.

Lemma foldl_managed l : forall ms, foldl c_managed ms l =
  with_invoked ((_configuration ms ∩ list_to_set l) ∪ (_invocations ms ∖ list_to_set l)) ms.
Proof.
  induction l as [|i l IH]; intros ms; cbn [foldl list_to_set].
  - rewrite with_invoked_same; [done|set_solver].
  - rewrite IH. unfold c_managed, with_invoked, set_invocations. f_equal.
    cbn [_configuration _invocations]. apply set_eq. intros k.
    case_bool_decide; destruct (decide (k ∈ l)), (decide (k = i)) as [->|]; set_solver.
Qed.

(** Before an external event is taken the invocations are those of the configuration. *)
Lemma manage_invocations_moves ms :
  moves (for_ (m_width m) 0 N (c_manage_invocation m) tt) ms
    (with_invoked ((_configuration ms ∩ list_to_set (seq 0 N)) ∪ (_invocations ms ∖ list_to_set (seq 0 N))) ms)
    (fun _ => True).
Proof.
  rewrite <- foldl_managed. apply moves_for; [apply OK| |done]. intros i b ms1 Hi _. by apply manage_invocation_moves.
Qed.

(** ** DEQUEUE_EVENT *)

Definition event_of (e : option Ev) : Event := match e with Some e => read_event e | None => Event_default "" end.

Lemma dequeue_leads q ms : leads (c_dequeue q) ms (fun _ _ => True) handler_error.
Proof.
  unfold c_dequeue. destruct q as [f|]; [|by apply leads_ret].
  eapply leads_bind with (R := fun _ _ => True); [by eapply leads_moves; [apply moves_call| |]|].
  intros e ms1 _. eapply leads_bind with (R := fun _ _ => True); [|intros; by apply leads_ret].
  eapply leads_moves; [|done|done]. apply moves_set with (ms' := set_event (event_of e) ms1).
  intros x []. split; try done. by destruct e.
Qed.

Lemma next_event_leads ms : leads (c_next_event m) ms (fun _ _ => True) handler_error.
Proof.
  unfold c_next_event. apply leads_ctx. intros x Hrel. destruct (flag_set _ _).
  { eapply leads_bind with (R := fun _ _ => True); [|intros; by apply leads_ret].
    eapply leads_moves; [|done|done]. apply moves_set with (ms' := set_event (Event_default "") ms).
    intros x1 []. by split. }
  eapply leads_bind; [apply dequeue_leads|]. intros [] ms1 _; [by apply leads_ret|].
  eapply leads_bind with (R := fun _ _ => True); [by eapply leads_moves; [apply manage_invocations_moves| |]|].
  intros _ ms2 _. eapply leads_bind; [apply dequeue_leads|]. intros [] ms3 _; by apply leads_ret.
Qed.

(** ** The whole function *)

Lemma related_spontaneous x ms : related x ms ->
  related (with_flags (fun f => Z.land (Z.lor f C_CTX_SPONTANEOUS) (Z.lnot C_CTX_TRANSITION_FOUND)) x)
    (set_flags (fun f => clear_flag (Z.lor f USCXML_CTX_SPONTANEOUS) USCXML_CTX_TRANSITION_FOUND) ms).
Proof.
  intros Hrel. apply related_flags; [|done]. intros z. unfold clear_flag.
  rewrite <- shared_clear. f_equal. by apply shared_lor.
Qed.

Lemma related_unspontaneous x ms : related x ms ->
  related (with_flags (fun f => Z.land f (Z.lnot C_CTX_SPONTANEOUS)) x)
    (set_flags (fun f => clear_flag f USCXML_CTX_SPONTANEOUS) ms).
Proof. intros Hrel. apply related_flags; [|done]. intros z. apply shared_clear. Qed.

(** The part of the step behind the selection. *)
Definition c_react (l : Selection) (stack : Stack) : CMW (option Z * Selection) :=
  x ← ctx;
  if flag_set (x_flags x) C_CTX_TRANSITION_FOUND then
    set_ctx (with_flags (fun f => Z.land (Z.lor f C_CTX_SPONTANEOUS) (Z.lnot C_CTX_TRANSITION_FOUND)));;
    tmp_states ← c_remember_history m (l_exit_set l) (k_tmp_states stack);
    code ← c_microstep m (l_target_set l) (l_exit_set l) (l_trans_set l) tmp_states stack;
    mret (Some code, l)
  else
    set_ctx (with_flags (fun f => Z.land f (Z.lnot C_CTX_SPONTANEOUS)));;
    mret (None, l).

(** The stepper behind the selection of [sets] in [ms]. *)
Definition reacted (sets : Sets) (ms : MicroState) : MicroState :=
  if has_flag (_flags ms) USCXML_CTX_TRANSITION_FOUND then
    let ms1 := set_flags (fun f => clear_flag (Z.lor f USCXML_CTX_SPONTANEOUS) USCXML_CTX_TRANSITION_FOUND) ms in
    c_microstep_result m (exitSet sets) (targetSet sets) (transSet sets)
      (set_history (remember_history T (_configuration ms) (exitSet sets) (_history ms)) ms1)
  else set_flags (fun f => clear_flag f USCXML_CTX_SPONTANEOUS) ms.

Definition found_code (ms : MicroState) : option Z :=
  if has_flag (_flags ms) USCXML_CTX_TRANSITION_FOUND then Some USCXML_ERR_OK else None.

Lemma react_moves l sets stack ms : stack_ok m stack -> selection_rel m l sets ->
  moves (c_react l stack) ms (reacted sets ms) (fun r => fst r = found_code ms /\ snd r = l).
Proof.
  intros Hk [Hl1 Hl2 Hl3 Hl4]. unfold c_react, reacted, found_code. apply moves_ctx. intros x Hrel.
  rewrite (related_flag m read_event x ms) by done.
  change C_CTX_TRANSITION_FOUND with USCXML_CTX_TRANSITION_FOUND. destruct (has_flag _ _).
  - eapply moves_bind.
    { apply moves_set. intros x1 Hrel1. apply related_spontaneous, Hrel1. }
    intros _ _. eapply moves_bind; [apply remember_history_moves; [done|exact Hl3|apply Hk]|].
    intros tmp Htmp. eapply moves_bind; [by apply microstep_moves|]. intros code ->. by apply moves_ret.
  - eapply moves_bind; [|intros _ _; by apply moves_ret].
    apply moves_set. intros x1 Hrel1. apply related_unspontaneous, Hrel1.
Qed.

Lemma select_and_step_leads target_set targets trans_set trans stack ms : stack_ok m stack ->
  stands_for nbs target_set targets -> stands_for nbt trans_set trans ->
  leads (c_select_and_step m target_set trans_set stack) ms
    (fun r _ => exists sets, selection_rel m (snd r) sets) handler_error.
Proof.
  intros Hk Ht Htr. change (c_select_and_step m target_set trans_set stack)
    with (c_select m target_set trans_set stack ≫= fun l => c_react l stack).
  eapply leads_bind; [by apply (select_leads m OK read_event _ targets _ trans)|].
  intros l ms1 [_ [sets Hl]]. eapply leads_moves; [by apply react_moves| |done].
  intros r [_ ->]. by exists sets.
Qed.

Definition no_undefined (e : Stop) : Prop := e = Undefined -> callback_missing (CB := CB).

Lemma handler_error_defined e : handler_error e -> no_undefined e.
Proof. intros [(err & -> & _)|[-> Hm]]; [done|by intros _]. Qed.

Lemma leads_weaken {A} (c : CMW A) ms (Q : A -> MicroState -> Prop) (E E' : Stop -> Prop) :
  leads c ms Q E -> (forall e, E e -> E' e) -> leads c ms Q E'.
Proof. intros Hc HE. eapply triple_conseq; [exact Hc|done|done|]. intros e s [He Hs]. auto. Qed.

Lemma stack_after_ok l sets stack : stack_ok m stack -> selection_rel m l sets -> stack_ok m (stack_after l stack).
Proof. intros [] []. by split; [apply sel_conflicts| | |apply sel_exits| |]. Qed.

Lemma event_loop_leads fuel : forall target_set targets trans_set trans stack ms, stack_ok m stack ->
  stands_for nbs target_set targets -> stands_for nbt trans_set trans ->
  leads (c_event_loop m fuel target_set trans_set stack) ms (fun _ _ => True) no_undefined.
Proof.
  induction fuel as [|fuel IH]; intros target_set targets trans_set trans stack ms Hk Ht Htr; cbn [c_event_loop].
  { intros s Hs. split; [done|by exists ms]. }
  eapply leads_bind; [eapply leads_weaken; [apply next_event_leads|apply handler_error_defined]|].
  intros [code|] ms1 _; [by apply leads_ret|].
  eapply leads_bind; [eapply leads_weaken; [by eapply select_and_step_leads|apply handler_error_defined]|].
  intros [[code|] l] ms2 [sets Hl]; cbn [fst snd]; [by apply leads_ret|].
  eapply IH; [by eapply stack_after_ok|apply Hl|apply Hl].
Qed.

Lemma moves_leads {A} (c : CMW A) ms ms' (R : A -> Prop) : moves c ms ms' R ->
  leads c ms (fun _ _ => True) no_undefined.
Proof. intros Hc. eapply leads_moves; [exact Hc|done|apply handler_error_defined]. Qed.

(** The state in which the first micro step starts. *)
Definition started_flags : MicroState -> MicroState :=
  set_flags (fun f => Z.lor f (Z.lor USCXML_CTX_SPONTANEOUS USCXML_CTX_INITIALIZED)).

Lemma first_step_moves target_set trans_set stack ms : stack_ok m stack ->
  stands_for nbs target_set ∅ -> stands_for nbt trans_set ∅ ->
  moves (c_first_step m target_set trans_set stack) ms
    (c_microstep_result m (set_of nbs (k_exit_set stack)) (completion_of T 0) ∅ (started_flags ms))
    (fun r => r = USCXML_ERR_OK).
Proof.
  intros Hk Ht Htr. unfold c_first_step. eapply moves_bind with (R := fun _ => True) (ms1 := ms).
  { destruct (m_script m); [|by apply moves_ret]. eapply moves_bind; [apply moves_call|]. intros _ _. by apply moves_ret. }
  intros _ _. destruct (get_state m OK 0 (ok_nonempty m OK)) as [s0 Hs0].
  destruct (ok_state m OK 0 s0 Hs0) as (_ & Hcp & _). destruct (table_row m 0 s0 Hs0) as (_ & _ & Hcc & _).
  eapply moves_state; [done|]. eapply moves_op; [by apply bit_or_spec; [|apply (stands_for_row m)]|].
  intros t2 Ht2. rewrite Hcc. eapply moves_bind.
  { apply moves_set with (ms' := started_flags ms).
    intros x1 Hrel1. apply related_flags; [|done]. intros z. by apply shared_lor. }
  intros _ _. apply microstep_moves; [done|done| |split; [apply Hk|reflexivity]|exact Htr|apply Hk].
  by rewrite (left_id_L ∅ (∪)) in Ht2.
Qed.

Lemma step_leads fuel stack ms : stack_ok m stack ->
  leads (uscxml_step m fuel stack) ms (fun _ _ => True) no_undefined.
Proof.
  intros Hk. unfold uscxml_step. apply leads_ctx. intros x Hrel.
  destruct (flag_set _ C_CTX_FINISHED); [by apply leads_ret|].
  destruct (flag_set _ C_CTX_TOP_LEVEL_FINAL); [eapply moves_leads, finish_moves|].
  eapply leads_op; [apply bit_clear_all_spec, Hk|]. intros target_set Ht.
  eapply leads_op; [apply bit_clear_all_spec, Hk|]. intros trans_set Htr.
  destruct (_ =? _)%Z; [|by eapply event_loop_leads].
  eapply moves_leads. apply (first_step_moves target_set trans_set stack ms Hk Ht Htr).
Qed.

End Step.

(** ** Memory safety *)

Section Safety.
Context {Fn Ev W : Type} {CB : UscxmlCallbacks Fn Ev W} (m : uscxml_machine Fn) (OK : machine_ok m).
Abbreviation nbs := (nr_bytes (m_nr_states m)).

Definition no_read (_ : Ev) : Event := Event_default "".

(** The state of the stepper a context stands for. *)
Definition state_of (x : uscxml_ctx Ev) : MicroState :=
  mkMicroState (x_flags x) (set_of nbs (x_config x)) (set_of nbs (x_invocations x)) (set_of nbs (x_history x))
    (set_of nbs (x_initialized_data x)) ∅ false (Event_default "").

Lemma related_state_of x : ctx_ok m x -> related m no_read x (state_of x).
Proof.
  intros []. split; try (by split).
  - done.
  - unfold event_related. by destruct (x_event x).
Qed.

Lemma related_ctx_ok x ms : related m no_read x ms -> ctx_ok m x.
Proof.
  intros [Hf [? _] [? _] [? _] [? _] _]. split; try done. rewrite Hf. unfold shared_flags.
  by rewrite <- Z.land_assoc.
Qed.

(** No call goes wrong on tables as the transformer prints them, but through a
    callback that is NULL. *)
Lemma step_defined fuel stack x s : ctx_ok m x -> stack_ok m stack ->
  let '(r, (x', _)) := uscxml_step m fuel stack (x, s) in (r = inl Undefined -> callback_missing (CB := CB)) /\ ctx_ok m x'.
Proof.
  intros Hx Hk. pose proof (step_leads m OK no_read fuel stack (state_of x) Hk (x, s) (related_state_of x Hx)) as H.
  destruct (uscxml_step m fuel stack (x, s)) as [[e|r] [x' s']]; cbn in H.
  - destruct H as [He [ms' Hms]]. split; [|by eapply related_ctx_ok]. intros [= ->]. by apply He.
  - destruct H as [ms' [Hms _]]. split; [done|by eapply related_ctx_ok].
Qed.

End Safety.

(** ** The same micro steps as the interpreter *)

Section Refinement.
Context {Fn Ev W X : Type} {CB : UscxmlCallbacks Fn Ev W} {CBi : MicroStepCallbacks nat W X}.
Context (m : uscxml_machine Fn) (OK : machine_ok m) (read_event : Ev -> Event).
Abbreviation N := (m_nr_states m).
Abbreviation nbs := (nr_bytes (m_nr_states m)).
Abbreviation nbt := (nr_bytes (m_nr_transitions m)).
Abbreviation T := (tables m).
Abbreviation related := (related m read_event).

(** The first byte of the ancestors tells a top-level final state: always so
    with at most eight states. *)
Definition finals_ok : Prop := forall i, i < N -> top_level_byte m i = top_level_final T i.

Lemma foldl_filter {A B} (P : B -> Prop) `{forall b, Decision (P b)} (f : A -> B -> A) l : forall a,
  foldl f a (filter P l) = foldl (fun a b => if bool_decide (P b) then f a b else a) a l.
Proof.
  induction l as [|b l IH]; intros a; [done|]. rewrite filter_cons. cbn [foldl].
  destruct (decide (P b)); [rewrite bool_decide_eq_true_2 by done|rewrite bool_decide_eq_false_2 by done]; apply IH.
Qed.

Lemma foldl_ext_in {A B} (f g : A -> B -> A) l : forall a,
  (forall a b, b ∈ l -> f a b = g a b) -> foldl f a l = foldl g a l.
Proof.
  induction l as [|b l IH]; intros a Hfg; [done|]. cbn [foldl]. rewrite Hfg by by left.
  apply IH. intros a' b' Hb. apply Hfg. by right.
Qed.

Lemma enter_all_same entry ms : finals_ok -> c_enter_all m entry ms = enter_all T (bits N entry) ms.
Proof.
  intros Hf. unfold c_enter_all, enter_all, bits. rewrite foldl_filter. apply foldl_ext_in.
  intros ms1 i Hi%elem_of_seq. case_bool_decide; [|done]. unfold c_entered, entered.
  by rewrite Hf by lia.
Qed.

Lemma microstep_result_same exits targets trans ms : finals_ok ->
  microstep_result T exits targets trans ms =
  set_microstepConfigurations (fun s => {[_configuration (c_microstep_result m exits targets trans ms)]} ∪ s)
    (c_microstep_result m exits targets trans ms).
Proof.
  intros Hf. unfold microstep_result, c_microstep_result. cbv zeta.
  by rewrite enter_all_same, n_states_tables by done.
Qed.

Lemma related_noted x ms f : related x ms -> related x (set_microstepConfigurations f ms).
Proof. intros []. by split. Qed.

Lemma run_effect {A} (d : Step (W := W) (X := X) A) g ms s b ms' s' :
  effect d g -> d (ms, s) = (inr b, (ms', s')) -> ms' = g ms.
Proof. intros Hd Hr. specialize (Hd ms (ms, s) eq_refl). rewrite Hr in Hd. exact Hd. Qed.

(** The interpreter behind its selection. *)
Definition i_react (sets : Sets) : Step (W := W) (X := X) InterpreterState :=
  ms ← getm;
  let exits := exitSet sets ∩ _configuration ms in
  if has_flag (_flags ms) USCXML_CTX_TRANSITION_FOUND then
    update (set_flags (fun f => clear_flag (Z.lor f USCXML_CTX_SPONTANEOUS) USCXML_CTX_TRANSITION_FOUND));;
    call (monitor beforeMicroStep);;
    update (fun ms => set_history (remember_history T (_configuration ms) exits (_history ms)) ms);;
    microstep T exits (targetSet sets) (transSet sets)
  else
    update (set_flags (fun f => clear_flag f USCXML_CTX_SPONTANEOUS));;
    mret USCXML_MICROSTEPPED.

Lemma i_react_effect sets ms s b ms' s' :
  finals_ok -> i_react sets (ms, s) = (inr b, (ms', s')) ->
  let r := reacted m (mkSets (exitSet sets ∩ _configuration ms) (targetSet sets) (conflictSet sets) (transSet sets)) ms in
  ms' = r \/ ms' = set_microstepConfigurations (fun s => {[_configuration r]} ∪ s) r.
Proof.
  intros Hf Hr r. unfold i_react in Hr. change ((getm ≫= ?f) (ms, s)) with (f ms (ms, s)) in Hr.
  cbv beta zeta in Hr. subst r. unfold reacted. destruct (has_flag _ _).
  - right. set (exits := exitSet sets ∩ _configuration ms) in *.
    eapply run_effect in Hr; [|refine (effect_bind _ _ _ (fun ms1 => microstep_result T exits (targetSet sets) (transSet sets)
      (set_history (remember_history T (_configuration ms1) exits (_history ms1)) ms1)) (effect_update _) _)].
    2:{ intros _. apply effect_skip; [intros; apply preserves_call|intros _].
        exact (effect_bind _ _ _ _ (effect_update _) (fun _ => microstep_effect T exits (targetSet sets) (transSet sets))). }
    by rewrite Hr, microstep_result_same.
  - left. eapply run_effect in Hr; [exact Hr|]. apply (effect_bind _ _ _ id (effect_update _)).
    intros _. apply effect_ret.
Qed.

(** *** The first step *)

Lemma find_loop_ext {St} k (bs : St -> gset nat) (f g : nat -> St -> St) : (forall i st, f i st = g i st) ->
  forall fuel cur st, find_loop k bs f fuel cur st = find_loop k bs g fuel cur st.
Proof.
  intros Hfg. induction fuel as [|fuel IH]; intros [i|] st; cbn [find_loop]; try done. rewrite Hfg. apply IH.
Qed.

(** The entry set of an empty configuration does not depend on the exit set. *)
Lemma establish_entryset_no_config history exits exits' targets trans :
  establish_entryset T ∅ history exits targets trans = establish_entryset T ∅ history exits' targets trans.
Proof.
  apply find_loop_ext. intros i [E ts]. unfold descend.
  assert (Hc : complete_compound T ∅ exits i E = complete_compound T ∅ exits' i E); [|by rewrite Hc].
  unfold complete_compound. assert (Hb : forall Y, BIT_HAS_AND (∅ : gset nat) Y = false)
    by (intros Y; unfold BIT_HAS_AND; rewrite bool_decide_eq_true_2 by set_solver; done).
  by rewrite Hb.
Qed.

Lemma first_result exits exits' targets trans ms : _configuration ms = ∅ ->
  c_microstep_result m exits targets trans ms = c_microstep_result m exits' targets trans ms.
Proof.
  intros Hc. unfold c_microstep_result. rewrite Hc, (establish_entryset_no_config _ exits exits'). f_equal.
  unfold set_configuration. rewrite Hc. f_equal. set_solver.
Qed.

(** C27: the first call jumps over the initialisation of the exit set and
    reads it all the same. Whatever these bytes are, the first step ends, when
    no handler fails, where the first micro step of the interpreter ends on the
    same tables: in the states that the completion of the root leads to. *)
Theorem first_step_refines fuel stack x ms s r x' s1 ms' b s2 :
  finals_ok -> stack_ok m stack -> related x ms -> _configuration ms = ∅ ->
  x_flags x = C_CTX_PRISTINE -> _flags ms = USCXML_CTX_PRISTINE ->
  uscxml_step m fuel stack (x, s) = (inr r, (x', s1)) ->
  step (X := X) T 0%Z (ms, s) = (inr b, (ms', s2)) ->
  r = USCXML_ERR_OK /\ related x' ms' /\ _configuration ms' =
    proper_of T (fst (establish_entryset T ∅ (_history ms) ∅ (completion_of T 0) ∅)).
Proof.
  intros Hf Hk Hrel Hconf Hp Hp' Hc Hi.
  destruct (bit_clear_all_spec nbs _ (st_target_set _ _ Hk)) as (target_set & Hct & Ht).
  destruct (bit_clear_all_spec nbt _ (st_trans_set _ _ Hk)) as (trans_set & Hcr & Htr).
  assert (Hs : uscxml_step m fuel stack (x, s) = c_first_step m target_set trans_set stack (x, s)).
  { unfold uscxml_step. change ((ctx ≫= ?f) (x, s)) with (f x (x, s)). cbv beta. by rewrite Hp, Hct, Hcr. }
  rewrite Hs in Hc. pose proof (first_step_moves m OK read_event target_set trans_set stack ms Hk Ht Htr (x, s) Hrel) as H.
  rewrite Hc in H. destruct H as [Hrel' ->].
  rewrite (first_result _ ∅) in Hrel' by done. split; [done|].
  unfold step in Hi. change ((getm ≫= ?f) (ms, s)) with (f ms (ms, s)) in Hi. cbv beta in Hi. rewrite Hp' in Hi.
  change (has_flag USCXML_CTX_PRISTINE USCXML_CTX_FINISHED) with false in Hi.
  change (has_flag USCXML_CTX_PRISTINE USCXML_CTX_TOP_LEVEL_FINAL) with false in Hi. cbn [Z.eqb USCXML_CTX_PRISTINE] in Hi.
  eapply run_effect in Hi; [|refine (effect_bind _ _ started_flags (microstep_result T ∅ (completion_of T 0) ∅) (effect_update _) _)].
  2:{ intros _. apply effect_skip; [intros; apply preserves_call|intros _; apply microstep_effect]. }
  assert (Hr : in_range T (_configuration (started_flags ms))) by (change (in_range T (_configuration ms)); rewrite Hconf; intros k; set_solver).
  destruct (microstep_result_fields T ∅ (completion_of T 0) ∅ (started_flags ms) Hr) as [Hcf _]. cbv zeta in Hcf.
  rewrite <- Hi in Hcf. split.
  - rewrite Hi, microstep_result_same by done. by apply related_noted.
  - rewrite Hcf. change (_configuration (started_flags ms)) with (_configuration ms).
    change (_history (started_flags ms)) with (_history ms). rewrite Hconf. set_solver.
Qed.

(** *** Later steps *)

Context (EMB : Embedding m read_event) (ATT : attributes_ok m).

(** C4: started from related states with the same event and the same rest of
    the world, SELECT_TRANSITIONS to the end of the emitted function and of
    [FastMicroStep::step] on the same tables select the same transitions and,
    when no handler fails in either, end in related states: the configuration,
    the recorded history, the initialised states, the invocations and the
    flags agree. *)
Theorem select_and_step_refines target_set trans_set stack x ms s r x' s1 b ms' s2 :
  finals_ok -> stack_ok m stack -> related x ms ->
  stands_for nbs target_set ∅ -> stands_for nbt trans_set ∅ ->
  c_select_and_step m target_set trans_set stack (x, s) = (inr r, (x', s1)) ->
  select_and_step T (ms, s) = (inr b, (ms', s2)) ->
  related x' ms' /\
  exists sets, fst (select_transitions (X := X) T (ms, s)) = inr sets /\
    selection_rel m (snd r) (mkSets (exitSet sets ∩ _configuration ms) (targetSet sets) (conflictSet sets) (transSet sets)).
Proof.
  intros Hf Hk Hrel Ht Htr Hc Hi.
  destruct (select_lockstep m OK read_event ATT target_set ∅ trans_set ∅ stack x ms s Hk Hrel Ht Htr eq_refl eq_refl)
    as (l & sets & x1 & ms1 & s' & Hc1 & Hi1 & Hrel1 & (Hcf & _ & _) & Hl).
  change (c_select_and_step m target_set trans_set stack)
    with (c_select m target_set trans_set stack ≫= fun l => c_react m l stack) in Hc.
  change (select_and_step T) with (select_transitions (X := X) T ≫= i_react) in Hi.
  unfold mbind, M_bind in Hc, Hi. rewrite Hc1 in Hc. rewrite Hi1 in Hi.
  pose proof (react_moves m OK read_event l _ stack ms1 Hk Hl (x1, s') Hrel1) as Hm. rewrite Hc in Hm.
  destruct Hm as [Hrel' [_ Hr]]. rewrite <- Hcf in Hrel'. split.
  - destruct (i_react_effect sets ms1 s' b ms' s2 Hf Hi) as [->| ->]; [exact Hrel'|by apply related_noted].
  - exists sets. rewrite Hi1, Hr. done.
Qed.

End Refinement.

(** ** Termination *)

Section Termination.
Context {Fn Ev W : Type} {CB : UscxmlCallbacks Fn Ev W} (m : uscxml_machine Fn) (OK : machine_ok m).
Context (size : W -> nat).
Abbreviation CMW := (@CM Ev W).
Abbreviation nbs := (nr_bytes (m_nr_states m)).
Abbreviation nbt := (nr_bytes (m_nr_transitions m)).

Definition taken_from (s : W) (r : option Ev * W) : Prop :=
  match fst r with Some _ => size (snd r) < size s | None => size (snd r) <= size s end.

(** [size] counts the pending events: taking one out makes it smaller, and
    selecting transitions and managing invocations does not add any. *)
Class FiniteEvents : Prop := {
  fin_internal f x s : dequeue_internal (UscxmlCallbacks := CB) = Some f -> taken_from s (f x s);
  fin_external f x s : dequeue_external (UscxmlCallbacks := CB) = Some f -> taken_from s (f x s);
  fin_matched f x t e s : is_matched = Some f -> size (snd (f x t e s)) <= size s;
  fin_enabled f x t s : size (snd (run_enabled f x t s)) <= size s;
  fin_invoke f x i u s : size (snd (run_invoke f x i u s)) <= size s;
}.

Context {FIN : FiniteEvents}.

(** A phase that adds no events. *)
Definition calm {A} (c : CMW A) : Prop := forall x s, size (snd (snd (c (x, s)))) <= size s.

Lemma calm_ret {A} (a : A) : calm (mret a).
Proof. intros x s. done. Qed.

Lemma calm_throw {A} e : calm (throw e : CMW A).
Proof. intros x s. done. Qed.

Lemma calm_bind {A B} (c : CMW A) (f : A -> CMW B) : calm c -> (forall a, calm (f a)) -> calm (c ≫= f).
Proof.
  intros Hc Hf x s. unfold mbind, M_bind. specialize (Hc x s). destruct (c (x, s)) as [[e|a] [x' s']]; [done|].
  specialize (Hf a x' s'). cbn in *. lia.
Qed.

Lemma calm_checked {A} (r : option A) : calm (checked r).
Proof. intros x s. by destruct r. Qed.

Lemma calm_ctx {A} (f : uscxml_ctx Ev -> CMW A) : (forall x, calm (f x)) -> calm (ctx ≫= f).
Proof. intros Hf x s. exact (Hf x x s). Qed.

Lemma calm_set f : calm (set_ctx f : CMW unit).
Proof. intros x s. done. Qed.

Lemma calm_callback {A} (f : uscxml_ctx Ev -> W -> A * W) :
  (forall x s, size (snd (f x s)) <= size s) -> calm (invoke_fn f).
Proof. intros Hf x s. unfold invoke_fn. specialize (Hf x s). by destruct (f x s). Qed.

Lemma calm_for {B} w lo N (body : nat -> B -> CMW B) b : (forall i b, calm (body i b)) -> calm (for_ w lo N body b).
Proof.
  intros Hb. unfold for_. generalize (S N) as fuel. intros fuel. revert lo b.
  induction fuel as [|fuel IH]; intros lo b; cbn [for_fuel]; [apply calm_throw|].
  destruct (_ <? _); [|apply calm_ret]. by apply calm_bind.
Qed.

Ltac calm_step := first
  [ apply calm_ret | apply calm_checked | apply calm_set | apply calm_throw
  | apply calm_for; intros | apply calm_callback; intros | apply calm_ctx; intros
  | apply calm_bind; [|intros] | match goal with |- calm (match ?b with _ => _ end) => destruct b end ].

Lemma calm_matches t : calm (c_matches t).
Proof.
  unfold c_matches. apply calm_ctx. intros x. destruct (x_event x) as [e|]; [|apply calm_ret].
  destruct is_matched as [f|] eqn:Ef; [|intros ? ?; done].
  intros x1 s. change ((checked (Some f) ≫= ?g) (x1, s)) with (g f (x1, s)). cbv beta.
  apply (calm_bind (invoke_fn (fun x => f x t e))); [|intros; apply calm_ret]. apply calm_callback. intros. by apply fin_matched.
Qed.

Lemma calm_select target_set trans_set stack : calm (c_select m target_set trans_set stack).
Proof.
  unfold c_select, c_select_one, GET_TRANS, c_enabled, c_take. repeat (apply calm_matches || calm_step).
  apply fin_enabled.
Qed.

Lemma calm_manage : calm (for_ (m_width m) 0 (m_nr_states m) (c_manage_invocation m) tt).
Proof.
  unfold c_manage_invocation, c_run_invoke, c_clear_invocation, GET_STATE. repeat calm_step; apply fin_invoke.
Qed.

(** Taking an event out: fewer events are left when there was one. *)
Definition takes (c : CMW bool) : Prop := forall x s,
  match c (x, s) with
  | (inr true, (_, s')) => size s' < size s
  | (_, (_, s')) => size s' <= size s
  end.

Lemma dequeue_takes q : (forall f x s, q = Some f -> taken_from s (f x s)) -> takes (c_dequeue q).
Proof.
  intros Hq x s. unfold c_dequeue. destruct q as [f|]; [|cbn; lia].
  unfold taken_from in Hq. unfold mbind, M_bind, invoke_fn. specialize (Hq f x s eq_refl).
  destruct (f x s) as [[e|] s']; exact Hq.
Qed.

Lemma next_event_shrinks x s : flag_set (x_flags x) C_CTX_SPONTANEOUS = false ->
  match c_next_event m (x, s) with
  | (inr None, (_, s')) => size s' < size s
  | _ => True
  end.
Proof.
  intros Hf. unfold c_next_event. change ((ctx ≫= ?f) (x, s)) with (f x (x, s)). cbv beta. rewrite Hf.
  pose proof (dequeue_takes dequeue_internal fin_internal x s) as Hi.
  unfold mbind at 1, M_bind at 1. destruct (c_dequeue dequeue_internal (x, s)) as [[e|[]] [x1 s1]]; [done|done|].
  unfold mbind at 1, M_bind at 1. pose proof (calm_manage x1 s1) as Hm.
  destruct (for_ _ _ _ _ _ (x1, s1)) as [[e|u] [x2 s2]]; [done|]. cbn [snd] in Hm.
  pose proof (dequeue_takes dequeue_external fin_external x2 s2) as He.
  unfold mbind at 1, M_bind at 1. destruct (c_dequeue dequeue_external (x2, s2)) as [[e|[]] [x3 s3]]; cbn; [done|lia|done].
Qed.

Lemma bind_inr {St A B} (c : M Stop St A) (f : A -> M Stop St B) s b s' :
  (c ≫= f) s = (inr b, s') -> exists a s1, c s = (inr a, s1) /\ f a s1 = (inr b, s').
Proof. unfold mbind, M_bind. destruct (c s) as [[e|a] s1]; [done|]. eauto. Qed.

Lemma bind_run {St A B} (c : M Stop St A) (f : A -> M Stop St B) s a s' :
  c s = (inr a, s') -> (c ≫= f) s = f a s'.
Proof. unfold mbind, M_bind. by intros ->. Qed.

(** After a round without a transition the next one takes an event. *)
Lemma react_unspontaneous read_event l sets stack ms x s l' x' s' : stack_ok m stack -> selection_rel m l sets ->
  related m read_event x ms -> c_react m l stack (x, s) = (inr (None, l'), (x', s')) ->
  s' = s /\ flag_set (x_flags x') C_CTX_SPONTANEOUS = false.
Proof.
  intros Hk Hl Hrel Hr. unfold c_react in Hr. change ((ctx ≫= ?f) (x, s)) with (f x (x, s)) in Hr. cbv beta in Hr.
  destruct (flag_set _ C_CTX_TRANSITION_FOUND).
  - exfalso. apply bind_inr in Hr as (? & s1 & _ & Hr). apply bind_inr in Hr as (tmp & s2 & _ & Hr).
    by apply bind_inr in Hr as (code & s3 & _ & Hr).
  - cbn in Hr. injection Hr as _ <- <-. split; [done|]. unfold flag_set. cbn [x_flags with_flags].
    rewrite <- Z.land_assoc. change (Z.land (Z.lnot C_CTX_SPONTANEOUS) C_CTX_SPONTANEOUS) with 0%Z. by rewrite Z.land_0_r.
Qed.

Definition ends {A} (r : (Stop + A) * (uscxml_ctx Ev * W)) : Prop := fst r <> inl OutOfFuel.

Lemma handler_error_ends {A} e s : handler_error (CB := CB) e -> ends ((inl e : Stop + A), s).
Proof. by intros [(err & -> & _)|[-> _]]. Qed.

(** When the event loop has taken an event or goes on without one, enough fuel
    for the events behind it lets it end. *)
Lemma event_loop_ends fuel : forall target_set targets trans_set trans stack x ms s, stack_ok m stack ->
  stands_for nbs target_set targets -> stands_for nbt trans_set trans -> related m no_read x ms ->
  (if flag_set (x_flags x) C_CTX_SPONTANEOUS then S (size s) < fuel else size s < fuel) ->
  ends (c_event_loop m fuel target_set trans_set stack (x, s)).
Proof.
  induction fuel as [|fuel IH]; intros target_set targets trans_set trans stack x ms s Hk Ht Htr Hrel Hfuel;
    [destruct (flag_set _ _); lia|]. cbn [c_event_loop]. unfold mbind at 1, M_bind at 1.
  pose proof (next_event_leads m OK no_read ms (x, s) Hrel) as Hn.
  assert (Hsize : match c_next_event m (x, s) with (inr None, (_, s')) => size s' < fuel | _ => True end).
  { destruct (flag_set (x_flags x) C_CTX_SPONTANEOUS) eqn:Hf.
    - unfold c_next_event. change ((ctx ≫= ?f) (x, s)) with (f x (x, s)). cbv beta. rewrite Hf.
      change (size s < fuel). lia.
    - pose proof (next_event_shrinks x s Hf) as Hs.
      destruct (c_next_event m (x, s)) as [[e|[code|]] [x1 s1]]; [done|done|lia]. }
  destruct (c_next_event m (x, s)) as [[e|[code|]] [x1 s1]]; cbn [fst snd] in *.
  { by apply handler_error_ends, Hn. }
  { done. }
  destruct Hn as (ms1 & Hrel1 & _). change (c_select_and_step m target_set trans_set stack)
    with (c_select m target_set trans_set stack ≫= fun l => c_react m l stack). unfold mbind, M_bind.
  pose proof (select_leads m OK no_read target_set targets trans_set trans stack ms1 Hk Ht Htr (x1, s1) Hrel1) as Hsel.
  pose proof (calm_select target_set trans_set stack x1 s1) as Hc.
  destruct (c_select m target_set trans_set stack (x1, s1)) as [[e|l] [x2 s2]]; cbn [fst snd] in *.
  { by apply handler_error_ends, Hsel. }
  destruct Hsel as (ms2 & Hrel2 & _ & sets & Hl).
  pose proof (react_moves m OK no_read l sets stack ms2 Hk Hl (x2, s2) Hrel2) as Hr.
  destruct (c_react m l stack (x2, s2)) as [[e|[[code|] l']] [x3 s3]] eqn:Er; cbn [fst snd] in *.
  { by apply handler_error_ends, Hr. }
  { done. }
  destruct Hr as [Hrel3 [_ ->]]. destruct (react_unspontaneous no_read l sets stack ms2 x2 s2 _ x3 s3 Hk Hl Hrel2 Er) as [-> Hf].
  eapply IH; [by eapply (stack_after_ok m)|apply Hl|apply Hl|exact Hrel3|]. rewrite Hf. lia.
Qed.

(** C28: as long as only finitely many events are pending, every call of
    [uscxml_step] returns: going back to DEQUEUE_EVENT for events that enable
    no transition comes to an end. The only other outcome is the call of a
    callback that the host left NULL. *)
Theorem uscxml_step_returns fuel stack x s : ctx_ok m x -> stack_ok m stack -> S (size s) < fuel ->
  (exists code, returned (fst (uscxml_step m fuel stack (x, s))) = Some code) \/
  (fst (uscxml_step m fuel stack (x, s)) = inl Undefined /\ callback_missing (CB := CB)).
Proof.
  intros Hx Hk Hfuel.
  assert (Hgood : forall r : Stop + Z, (r = inl Undefined -> callback_missing (CB := CB)) -> r <> inl OutOfFuel ->
    (exists code, returned r = Some code) \/ (r = inl Undefined /\ callback_missing (CB := CB))).
  { intros [[err| |]|code] Hu Ho; cbn; try done; [left; eauto|right; auto|left; eauto]. }
  pose proof (step_defined m OK fuel stack x s Hx Hk) as Hd.
  destruct (uscxml_step m fuel stack (x, s)) as [r [x' s']] eqn:Es. cbn [fst]. apply Hgood; [apply Hd|].
  assert (Hends : ends (uscxml_step m fuel stack (x, s))); [|by rewrite Es in Hends].
  clear Es Hd Hgood r x' s'. set (ms := state_of m x). pose proof (related_state_of m x Hx) as Hrel. fold ms in Hrel.
  unfold uscxml_step. change ((ctx ≫= ?f) (x, s)) with (f x (x, s)). cbv beta.
  assert (Hmoves : forall (c : CMW Z) ms1 Q, moves m no_read c ms ms1 Q -> ends (c (x, s))).
  { intros c ms1 Q Hc. specialize (Hc (x, s) Hrel). destruct (c (x, s)) as [[e|r] s1]; [|done].
    by apply handler_error_ends, Hc. }
  destruct (flag_set _ C_CTX_FINISHED); [done|].
  destruct (flag_set _ C_CTX_TOP_LEVEL_FINAL); [eapply Hmoves, (finish_moves m OK)|].
  destruct (bit_clear_all_spec nbs _ (st_target_set _ _ Hk)) as (target_set & Hct & Ht). rewrite Hct.
  destruct (bit_clear_all_spec nbt _ (st_trans_set _ _ Hk)) as (trans_set & Hcr & Htr). rewrite Hcr.
  change ((checked (Some ?a) ≫= ?f) (x, s)) with (f a (x, s)). cbv beta.
  change ((checked (Some ?a) ≫= ?f) (x, s)) with (f a (x, s)). cbv beta.
  destruct (_ =? _)%Z.
  - eapply Hmoves, (first_step_moves m OK); done.
  - eapply event_loop_ends; [done|done|done|exact Hrel|]. destruct (flag_set _ _); lia.
Qed.

End Termination.

(** ** Done events of parallel states *)

Section Parallel.
Context {Fn Ev W : Type} {CB : UscxmlCallbacks Fn Ev W} (m : uscxml_machine Fn) (OK : machine_ok m).
Context (read_event : Ev -> Event).
Abbreviation N := (m_nr_states m).
Abbreviation nbs := (nr_bytes (m_nr_states m)).
Abbreviation T := (tables m).

(** Every active descendant of [j] is final or has an active final descendant. *)
Definition all_reach_final (config : gset nat) (j : nat) : Prop :=
  forall k, k ∈ config -> k < N -> j ∈ ancestors_of T k -> is_final T k = false ->
    exists f, f ∈ config /\ f < N /\ j ∈ ancestors_of T f /\ is_final T f = true /\ k ∈ ancestors_of T f.

Lemma unfinished_elem config j : (forall i a, a ∈ ancestors_of T i -> a < i) ->
  forall n k, k ∈ foldl (unfinished_round m config j) ∅ (seq 0 n) <->
    k < n /\ k ∈ config /\ j ∈ ancestors_of T k /\ is_final T k = false /\
    ~ exists f, f < n /\ f ∈ config /\ j ∈ ancestors_of T f /\ is_final T f = true /\ k ∈ ancestors_of T f.
Proof.
  intros Hlt. induction n as [|n IH]; intros k.
  - cbn. split; [set_solver|lia].
  - rewrite seq_S, foldl_app. cbn [foldl Nat.add]. unfold unfinished_round at 1.
    destruct (bool_decide (j ∈ ancestors_of T n) && bool_decide (n ∈ config)) eqn:Hb.
    + bool_prop. destruct (is_final T n) eqn:Hf.
      * rewrite elem_of_difference, IH. split.
        -- intros [(Hk & Hc & Hj & Hnf & Hno) Hna]. split_and!; try done; [lia|].
           intros (f & Hfn & Hfc & Hfj & Hff & Hfk). destruct (decide (f = n)) as [->|]; [done|].
           apply Hno. exists f. split_and!; try done. lia.
        -- intros (Hk & Hc & Hj & Hnf & Hno). split; [split_and!; try done|].
           ++ destruct (decide (k = n)) as [->|]; [congruence|lia].
           ++ intros (f & Hfn & Hrest). apply Hno. exists f. split; [lia|done].
           ++ intros Ha. apply Hno. exists n. split_and!; try done. lia.
      * rewrite elem_of_union, elem_of_singleton, IH. split.
        -- intros [->|(Hk & Hc & Hj & Hnf & Hno)].
           ++ split_and!; try done; [lia|]. intros (f & Hfn & _ & _ & Hff & Hfk). apply Hlt in Hfk.
              assert (f = n) by lia. congruence.
           ++ split_and!; try done; [lia|]. intros (f & Hfn & Hfc & Hfj & Hff & Hfk).
              destruct (decide (f = n)) as [->|]; [congruence|]. apply Hno. exists f. split_and!; try done. lia.
        -- intros (Hk & Hc & Hj & Hnf & Hno). destruct (decide (k = n)) as [->|]; [by left|]. right.
           split_and!; try done; [lia|]. intros (f & Hfn & Hrest). apply Hno. exists f. split; [lia|done].
    + rewrite IH. split.
      * intros (Hk & Hc & Hj & Hnf & Hno). split_and!; try done; [lia|].
        intros (f & Hfn & Hfc & Hfj & Hff & Hfk). destruct (decide (f = n)) as [->|].
        -- rewrite !bool_decide_eq_true_2 in Hb by done. done.
        -- apply Hno. exists f. split_and!; try done. lia.
      * intros (Hk & Hc & Hj & Hnf & Hno). split_and!; try done.
        -- destruct (decide (k = n)) as [->|]; [|lia]. rewrite !bool_decide_eq_true_2 in Hb by done. done.
        -- intros (f & Hfn & Hrest). apply Hno. exists f. split; [lia|done].
Qed.

Lemma unfinished_empty config j : (forall i a, a ∈ ancestors_of T i -> a < i) ->
  c_unfinished m config j = ∅ <-> all_reach_final config j.
Proof.
  intros Hlt. unfold c_unfinished, all_reach_final. split.
  - intros He k Hk HkN Hj Hnf.
    destruct (decide (Exists (fun f => f ∈ config /\ j ∈ ancestors_of T f /\ is_final T f = true /\ k ∈ ancestors_of T f) (seq 0 N)))
      as [Hex|Hno].
    + apply Exists_exists in Hex as (f & Hf%elem_of_seq & Hfc & Hfj & Hff & Hfk). exists f. split_and!; try done. lia.
    + exfalso. assert (Hin : k ∈ foldl (unfinished_round m config j) ∅ (seq 0 N)); [|rewrite He in Hin; set_solver].
      apply unfinished_elem; [done|]. split_and!; try done.
      intros (f & HfN & Hfc & Hfj & Hff & Hfk). apply Hno, Exists_exists. exists f.
      split; [apply elem_of_seq; lia|done].
  - intros Hall. apply set_eq. intros k. split; [|set_solver]. rewrite unfinished_elem by done.
    intros (HkN & Hk & Hj & Hnf & Hno). exfalso. apply Hno.
    destruct (Hall k Hk HkN Hj Hnf) as (f & Hfc & HfN & Hfj & Hff & Hfk). by exists f.
Qed.

(** On entry of a final state [i], for a parallel state [j] among its
    ancestors, the emitted code raises [done.state] of [j] exactly when every
    active descendant of [j] that is not final has an active final descendant,
    and changes nothing else. *)
Theorem parallel_done_raised i j a x s ms f : raise_done_event = Some f ->
  (forall i a, a ∈ ancestors_of T i -> a < i) -> related m read_event x ms ->
  i < N -> j < N -> array_ok nbs a -> is_parallel T j = true -> j ∈ ancestors_of T i ->
  exists a', array_ok nbs a' /\
    (all_reach_final (_configuration ms) j ->
       c_parallel_done m i j a (x, s) = (inr a', (x, snd (f x j None s)))) /\
    (~ all_reach_final (_configuration ms) j -> c_parallel_done m i j a (x, s) = (inr a', (x, s))).
Proof.
  intros Hdone Hlt Hrel Hi Hj Ha Hpar Hji. pose proof (unfinished_empty (_configuration ms) j Hlt) as Hue.
  destruct (get_state m OK i Hi) as [si Hsi]. destruct (get_state m OK j Hj) as [sj Hsj].
  destruct (ok_state m OK i si Hsi) as (_ & _ & Hanc & _).
  destruct (table_row m i si Hsi) as (Hai & _). destruct (table_row m j sj Hsj) as (_ & _ & _ & _ & Htj).
  rewrite Hai in Hji. unfold is_parallel in Hpar. rewrite Htj in Hpar.
  destruct (bit_clear_all_spec nbs a Ha) as (a1 & Hc1 & Ha1).
  destruct (unfinished_computes m OK read_event j a1 (x, s) ms Hrel Hj (proj1 Ha1) Ha1) as (a2 & Hf & Ha2).
  exists a2. split; [apply Ha2|].
  assert (Hrun : c_parallel_done m i j a (x, s) =
    ((if bool_decide (c_unfinished m (_configuration ms) j = ∅) then c_raise_done j None else mret tt);; mret a2) (x, s)).
  { unfold c_parallel_done, GET_STATE. rewrite Hsi, Hsj.
    change ((checked (Some ?r) ≫= ?f) (x, s)) with (f r (x, s)). cbv beta.
    change (C_STATE_MASK (cs_type sj) =? C_STATE_PARALLEL)%Z with (USCXML_STATE_MASK (cs_type sj) =? USCXML_STATE_PARALLEL)%Z.
    rewrite Hpar. cbn [negb].
    change ((checked (Some ?r) ≫= ?f) (x, s)) with (f r (x, s)). cbv beta.
    rewrite (BIT_HAS_spec nbs _ _ j (stands_for_row m _ Hanc)) by by apply index_states.
    rewrite bool_decide_eq_true_2 by done. rewrite Hc1.
    change ((checked (Some ?r) ≫= ?f) (x, s)) with (f r (x, s)). cbv beta. cbn [negb].
    change ((checked (Some ?r) ≫= ?f) (x, s)) with (f r (x, s)). cbv beta.
    rewrite (bind_run _ _ _ _ _ Hf), (bit_has_any_spec nbs a2 _ Ha2).
    change ((checked (Some ?r) ≫= ?f) (x, s)) with (f r (x, s)). cbv beta. by rewrite negb_involutive. }
  rewrite Hrun. split; intros Hu; rewrite <- Hue in Hu.
  - rewrite bool_decide_eq_true_2 by done.
    unfold c_raise_done, invoke_fn, mbind, M_bind. rewrite Hdone. cbn. by destruct (f x j None s).
  - by rewrite bool_decide_eq_false_2 by done.
Qed.

(** ** Top-level final states *)

(** The test [ancestors[0] == 0x01] looks at the first eight states
    only: a final state below a state of a higher index is entered as if it were
    a child of the root, and the machine will finish; in the interpreter it is
    not. *)
Theorem nested_final_finishes i s a ms :
  m_states m !! i = Some s -> is_final T i = true -> 0 ∈ ancestors_of T i ->
  a ∈ ancestors_of T i -> 8 <= a -> (forall b, b ∈ ancestors_of T i -> b = 0 \/ 8 <= b) ->
  i ∉ _configuration ms -> has_flag (_flags ms) USCXML_CTX_TOP_LEVEL_FINAL = false ->
  has_flag (_flags (c_entered m ms i)) USCXML_CTX_TOP_LEVEL_FINAL = true /\
  has_flag (_flags (entered T i ms)) USCXML_CTX_TOP_LEVEL_FINAL = false.
Proof.
  intros Hs Hfin H0 Ha Ha8 Hall Hic Hfl. destruct (ok_state m OK i s Hs) as (_ & _ & Hok & _).
  destruct (table_row m i s Hs) as (Han & _ & _ & _ & Hty).
  assert (Hps : is_pseudo_type (type_of T i) = false).
  { unfold is_final in Hfin. unfold is_pseudo_type, is_history_type. apply Z.eqb_eq in Hfin. by rewrite Hfin. }
  unfold c_entered, entered. rewrite bool_decide_eq_false_2, Hps by done. cbn [orb _flags set_flags set_initializedData set_configuration].
  assert (Hc : top_level_byte m i = true).
  { unfold top_level_byte. rewrite Hs. unfold is_final in Hfin. rewrite Hty in Hfin.
    change (C_STATE_MASK (cs_type s) =? C_STATE_FINAL)%Z with (USCXML_STATE_MASK (cs_type s) =? USCXML_STATE_FINAL)%Z.
    rewrite Hfin. cbn [andb]. apply bool_decide_eq_true.
    assert (Hn : 0 < nbs) by (pose proof (nr_bytes_bounds N); pose proof (ok_nonempty m OK); lia).
    destruct (array_byte nbs (cs_ancestors s) 0 Hok Hn) as (b & Hb & Hbb). rewrite Hb. f_equal.
    assert (Hbit : forall j, j < 8 -> Z.testbit b (Z.of_nat j) = bool_decide (j = 0)).
    { intros j Hj. pose proof (stands_for_bit nbs (cs_ancestors s) _ j (stands_for_row m _ Hok)) as Hsb.
      rewrite <- Han in Hsb. rewrite (bit_lookup _ _ b) in Hsb by by rewrite Nat.div_small.
      rewrite Nat.mod_small in Hsb by done. rewrite Hsb by lia. apply bool_decide_ext. split.
      - intros Hja. destruct (Hall j Hja); lia.
      - by intros ->. }
    apply Z.bits_inj'. intros k Hk. destruct (decide (k < 8)%Z) as [H8|H8].
    - rewrite <- (Z2Nat.id k) by done. rewrite Hbit by lia. case_bool_decide as Hk0.
      + by rewrite Hk0.
      + change 1%Z with (2 ^ 0)%Z. rewrite Z.pow2_bits_false by lia. done.
    - destruct Hbb. rewrite (Z.bits_above_log2 1) by (cbn; lia).
      destruct (Z.eq_dec b 0) as [->|]; [apply Z.bits_0|]. apply Z.bits_above_log2; [lia|].
      apply (Z.lt_le_trans _ 8); [|lia]. apply Z.log2_lt_pow2; lia. }
  rewrite Hc. split.
  - unfold has_flag. rewrite Z.land_lor_distr_l. apply negb_true_iff, Z.eqb_neq. intros Hz.
    apply Z.lor_eq_0_iff in Hz as [_ Hz]. done.
  - assert (Ht : top_level_final T i = false); [|by rewrite Ht].
    unfold top_level_final, ancestor_count. rewrite Hfin. cbn [andb].
    destruct (Nat.eqb_spec (size (ancestors_of T i)) 1) as [H1|]; [|done]. exfalso.
    assert (Hsub : size ({[0; a]} : gset nat) <= size (ancestors_of T i)) by (apply subseteq_size; set_solver).
    rewrite size_union, !size_singleton in Hsub; [lia|].
    apply disjoint_singleton_l. rewrite elem_of_singleton. lia.
Qed.

End Parallel.
