(* ===== verification/CTransform.v ===== *)
(** * The transformer and the interpreter compile the same chart

    The tables of CTables.v satisfy what the emitted function relies on, and
    are, read as a chart, the chart that [FastMicroStep::init] compiles, up to
    the differences stated here. Together with CTheorems.v this gives the
    properties of the emitted program of a document. *)

From Stdlib Require Import FunctionalExtensionality.
From stdpp Require Import base list gmap strings.
From S2P Require Import Prelude Strings CBits Effects CStep Dom Predicates Chart CTables MicroStep StepLemmas CEntry CRefine CTheorems.

Local Open Scope nat_scope.

(** ** Bit rows *)

Section RowLemmas.
Context {A : Type}.

Lemma boolString_length (p : A -> bool) l : length (explode (boolString p l)) = length l.
Proof. unfold boolString. by rewrite explode_implode, length_fmap. Qed.

Lemma boolString_ones (p : A -> bool) l i :
  i ∈ Initializer.ones (boolString p l) <-> exists x, l !! i = Some x /\ p x = true.
Proof.
  rewrite Initializer.elem_of_ones. unfold boolString. rewrite explode_implode, list_lookup_fmap.
  destruct (l !! i) as [x|]; cbn.
  - split; [|intros (? & [= <-] & ->); done]. intros H. exists x. split; [done|]. by destruct (p x).
  - split; [done|]. by intros (? & [=] & _).
Qed.

Lemma row_bytes_spec (p : A -> bool) l : exists a,
  row_bytes (nr_bytes (length l)) (boolString p l) = Some a /\ array_ok (nr_bytes (length l)) a /\
  forall i, i ∈ set_of (nr_bytes (length l)) a <-> exists x, l !! i = Some x /\ p x = true.
Proof.
  pose proof (Initializer.row_initializer (nr_bytes (length l)) (boolString p l)) as H.
  rewrite boolString_length in H. destruct (H ltac:(lia)) as (a & Ha & _ & Hok & Hset).
  exists a. split; [done|]. split; [done|]. intros i. by rewrite Hset, boolString_ones.
Qed.

Lemma zero_row size : 0 < size -> exists a,
  Initializer.read_initializer size "0x00" = Some a /\ array_ok size a /\ set_of size a = ∅.
Proof.
  intros Hs. pose proof (Initializer.row_initializer size "0") as H. destruct H as (a & Ha & _ & Hok & Hset).
  { change (nr_bytes (length (explode "0"))) with 1. lia. }
  exists a. split; [done|]. split; [done|]. rewrite Hset. apply set_eq. intros i.
  rewrite Initializer.elem_of_ones. change (explode "0") with ["0"%char].
  destruct i as [|[|i]]; cbn; set_solver.
Qed.

End RowLemmas.

Lemma data_type_fits n : (Z.of_nat n < 2 ^ 64)%Z -> (Z.of_nat n < 2 ^ data_type n)%Z.
Proof.
  intros Hn. unfold data_type. repeat case_match; [by apply Z.ltb_lt..|done].
Qed.

Lemma find_index_spec {A} `{!EqDecision A} (l : list A) (e : A) i : NoDup l ->
  fst <$> list_find (fun x => x = e) l = Some i <-> l !! i = Some e.
Proof.
  intros Hnd. split.
  - intros ([j x] & (Hl & -> & _)%list_find_Some & ->)%fmap_Some. done.
  - intros Hi. destruct (list_find_elem_of (fun x => x = e) l e) as [[j x] Hf]; [by eapply list_elem_of_lookup_2|done|].
    rewrite Hf. apply list_find_Some in Hf as (Hl & -> & _). cbn. f_equal. by eapply NoDup_lookup.
Qed.

(** ** The printed machine *)

Section Machine.
Context {node : Type} `{!EqDecision node} {D : DomOps node} {DL : DomLaws node}.
Context (scxml : node).
Notation states := (p_states scxml).
Notation transitions := (p_transitions scxml).
Notation nbs := (nr_bytes (length states)).
Notation nbt := (nr_bytes (length transitions)).

Lemma p_states_NoDup : NoDup states.
Proof. apply inDocumentOrder_NoDup. Qed.

Lemma p_index_spec e i : p_index scxml e = Some i <-> states !! i = Some e.
Proof. apply find_index_spec, p_states_NoDup. Qed.

Lemma p_index_lt e i : p_index scxml e = Some i -> i < length states.
Proof. intros Hi%p_index_spec. by eapply lookup_lt_Some. Qed.

(** What a row of the state table says. *)
Lemma writeState_spec i e s : writeState scxml i e = Some s ->
  (if i =? 0 then Some 0 else getParentNode e ≫= p_index scxml) = Some (cs_parent s) /\
  cs_type s = p_state_type scxml e /\
  array_ok nbs (cs_children s) /\ array_ok nbs (cs_completion s) /\ array_ok nbs (cs_ancestors s) /\
  (forall j, j ∈ set_of nbs (cs_children s) <-> exists x, states !! j = Some x /\ getParentNode x = Some e) /\
  (forall j, j ∈ set_of nbs (cs_completion s) <-> exists x, states !! j = Some x /\ Some x ∈ p_completion scxml e) /\
  (forall j, j ∈ set_of nbs (cs_ancestors s) <-> exists x, states !! j = Some x /\ x ∈ parents e).
Proof.
  unfold writeState, stateCharArraySize, childBools, completionBools, ancBools.
  destruct (row_bytes_spec (fun x => bool_decide (getParentNode x = Some e)) states) as (ch & -> & Hch & Hch').
  destruct (row_bytes_spec (fun x => bool_decide (Some x ∈ p_completion scxml e)) states) as (co & -> & Hco & Hco').
  destruct (row_bytes_spec (fun x => isDescendant (Some e) (Some x)) states) as (an & -> & Han & Han').
  intros (p & Hp & [= <-])%bind_Some. cbn [cs_parent cs_type cs_children cs_completion cs_ancestors].
  setoid_rewrite bool_decide_eq_true in Hch'. setoid_rewrite bool_decide_eq_true in Hco'.
  setoid_rewrite isDescendant_spec in Han'. split_and!; done.
Qed.

Lemma writeTransition_spec t r : 0 < length states -> writeTransition scxml t = Some r ->
  getParentNode t ≫= p_index scxml = Some (ct_source r) /\ ct_type r = p_transition_type t /\
  array_ok nbs (ct_target r) /\ array_ok nbs (ct_exit_set r) /\ array_ok nbt (ct_conflicts r) /\
  (is_Some (ct_condition r) -> is_Some (ct_is_enabled r)) /\
  (forall j, j ∈ set_of nbs (ct_target r) <->
     exists x, states !! j = Some x /\ is_target (tokenize (ATTR t "target")) x = true /\ HAS_ATTR t "target" = true) /\
  (forall j, j ∈ set_of nbs (ct_exit_set r) <-> exists x, states !! j = Some x /\ x ∈ getExitSet t scxml) /\
  (forall j, j ∈ set_of nbt (ct_conflicts r) <-> exists u, transitions !! j = Some u /\ p_conflicts scxml t u = true).
Proof.
  intros Hn. unfold writeTransition, stateCharArraySize, transCharArraySize, conflictBools, exitSetBools.
  destruct (row_bytes_spec (p_conflicts scxml t) transitions) as (co & -> & Hco & Hco').
  destruct (row_bytes_spec (fun e => isMember e (getExitSet t scxml)) states) as (ex & -> & Hex & Hex').
  setoid_rewrite isMember_spec in Hex'.
  intros (p & Hp & (tg & Htg & [= <-])%bind_Some)%bind_Some.
  cbn [ct_source ct_type ct_target ct_exit_set ct_conflicts ct_condition ct_is_enabled].
  assert (Ht : array_ok nbs tg /\ forall j, j ∈ set_of nbs tg <->
     exists x, states !! j = Some x /\ is_target (tokenize (ATTR t "target")) x = true /\ HAS_ATTR t "target" = true).
  { unfold targetBools in Htg. destruct (HAS_ATTR t "target").
    - destruct (row_bytes_spec (is_target (tokenize (ATTR t "target"))) states) as (a & Ha & Hok & Ha').
      rewrite Ha in Htg. injection Htg as <-. split; [done|]. intros j. rewrite Ha'. naive_solver.
    - pose proof (nr_bytes_bounds (length states)).
      destruct (zero_row nbs ltac:(lia)) as (a & Ha & Hok & Ha'). rewrite Ha in Htg. injection Htg as <-.
      split; [done|]. intros j. rewrite Ha'. split; [set_solver|]. by intros (x & _ & _ & ?). }
  destruct Ht as [Ht Ht']. split_and!; try done.
  destruct (HAS_ATTR t "cond"); [by eauto|]. by intros [? [=]].
Qed.

Lemma p_states_nonempty : getLocalName scxml = "scxml"%string -> 0 < length states.
Proof.
  intros Htag. assert (Hin : scxml ∈ states).
  { apply inDocumentOrder_elem. split; [|constructor].
    unfold tag_in. apply bool_decide_eq_true. rewrite dom_tag, Htag. apply list_elem_of_fmap. exists "scxml"%string.
    split; [done|by left]. }
  apply list_elem_of_lookup in Hin as (i & Hi). apply lookup_lt_Some in Hi. lia.
Qed.

Context (content_text : node -> string).

Lemma writeMachineInfo_fields m : writeMachineInfo content_text scxml = Some m ->
  m_nr_states m = length states /\ m_nr_transitions m = length transitions /\
  m_width m = Z.max (data_type (length states)) (data_type (length transitions)) /\
  Forall2 (fun '(i, e) s => writeState scxml i e = Some s) (imap (fun i e => (i, e)) states) (m_states m) /\
  Forall2 (fun t r => writeTransition scxml t = Some r) transitions (m_transitions m) /\
  elem_donedatas content_text scxml = Some (m_donedata m).
Proof.
  unfold writeMachineInfo. intros (ss & Hs & (ts & Ht & (dd & Hd & [= <-])%bind_Some)%bind_Some)%bind_Some.
  cbn [m_nr_states m_nr_transitions m_width m_states m_transitions m_donedata].
  split_and!; try done; [|by apply mapM_Some].
  apply mapM_Some in Hs. eapply Forall2_impl; [exact Hs|]. by intros [i e] s.
Qed.

Lemma machine_state m i s : writeMachineInfo content_text scxml = Some m ->
  m_states m !! i = Some s <-> exists e, states !! i = Some e /\ writeState scxml i e = Some s.
Proof.
  intros (_ & _ & _ & HF & _)%writeMachineInfo_fields. split.
  - intros Hs. destruct (Forall2_lookup_r _ _ _ i s HF Hs) as ([j e] & Hj & Hw).
    apply enumerated_lookup in Hj as (e' & [= -> ->] & He). eauto.
  - intros (e & He & Hw). destruct (Forall2_lookup_l _ _ _ i (i, e) HF) as (s' & Hs & Hw').
    { apply enumerated_lookup. eauto. }
    congruence.
Qed.

Lemma machine_transition m i r : writeMachineInfo content_text scxml = Some m ->
  m_transitions m !! i = Some r <-> exists t, transitions !! i = Some t /\ writeTransition scxml t = Some r.
Proof.
  intros (_ & _ & _ & _ & HF & _)%writeMachineInfo_fields. split.
  - intros Hr. destruct (Forall2_lookup_r _ _ _ i r HF Hr) as (t & Ht & Hw). eauto.
  - intros (t & Ht & Hw). destruct (Forall2_lookup_l _ _ _ i t HF Ht) as (r' & Hr & Hw'). congruence.
Qed.

End Machine.

(** ** What [uscxml_step] relies on *)

Section Guarantees.
Context {node : Type} `{!EqDecision node} {D : DomOps node} {DL : DomLaws node}.
Context (content_text : node -> string) (scxml : node) (m : uscxml_machine (Handler node)).
Context (Hm : writeMachineInfo content_text scxml = Some m).
Context (Hroot : getLocalName scxml = "scxml"%string).

Definition countable_in_64_bits : Prop :=
  (Z.of_nat (length (p_states scxml)) < 2 ^ 64)%Z /\ (Z.of_nat (length (p_transitions scxml)) < 2 ^ 64)%Z.

Lemma width_fits n : (Z.of_nat n < 2 ^ 64)%Z -> (data_type n <= m_width m)%Z -> (Z.of_nat n < 2 ^ m_width m)%Z.
Proof.
  intros Hn Hw. apply (Z.lt_le_trans _ _ _ (data_type_fits n Hn)). by apply Z.pow_le_mono_r.
Qed.

Lemma parent_in_range i e p : (if i =? 0 then Some 0 else getParentNode e ≫= p_index scxml) = Some p ->
  p < length (p_states scxml).
Proof.
  destruct (i =? 0); [intros [= <-]; by apply p_states_nonempty|].
  intros (x & _ & Hi)%bind_Some. by eapply p_index_lt.
Qed.

Lemma machine_tables_ok : countable_in_64_bits -> machine_ok m.
Proof.
  intros [Hs Ht]. destruct (writeMachineInfo_fields _ _ _ Hm) as (HN & HT & Hw & Hst & Htr & Hdd).
  pose proof (p_states_nonempty scxml Hroot) as Hne. split.
  - rewrite HN. apply Forall2_length in Hst. by rewrite <- Hst, length_imap.
  - rewrite HT. apply Forall2_length in Htr. done.
  - rewrite HN. apply width_fits; [done|]. rewrite Hw. lia.
  - rewrite HT. apply width_fits; [done|]. rewrite Hw. lia.
  - by rewrite HN.
  - rewrite HN. intros i s (e & He & Hws)%(machine_state _ _ _ _ _ Hm).
    destruct (writeState_spec _ _ _ _ Hws) as (Hp & _ & ? & ? & ? & _). split_and!; try done.
    by eapply parent_in_range.
  - rewrite HN, HT. intros i r (t & Hti & Hwt)%(machine_transition _ _ _ _ _ Hm).
    destruct (writeTransition_spec scxml t r Hne Hwt) as (Hp & _ & ? & ? & ? & ? & _). split_and!; try done.
    apply bind_Some in Hp as (x & _ & Hi). by eapply p_index_lt.
  - unfold elem_donedatas in Hdd. apply bind_Some in Hdd as (rows & _ & [= Hdd]). rewrite <- Hdd.
    exists (mkElemDonedata 0 None None None). split; [|done]. apply elem_of_app. right. by left.
Qed.

End Guarantees.

(** *** When the output compiles *)

Section Defined.
Context {node : Type} `{!EqDecision node} {D : DomOps node} {DL : DomLaws node}.
Context (content_text : node -> string) (scxml : node).

(** Every state but the first, and every donedata element, is a child of a state. *)
Definition states_nested : Prop :=
  (forall i e, p_states scxml !! S i = Some e -> exists p, getParentNode e = Some p /\ p ∈ p_states scxml) /\
  (forall d, d ∈ donedata_elements scxml -> exists p, getParentNode d = Some p /\ p ∈ p_states scxml).

Lemma parent_index_Some e : is_Some (getParentNode e ≫= p_index scxml) <->
  exists p, getParentNode e = Some p /\ p ∈ p_states scxml.
Proof.
  split.
  - intros (i & (p & Hp & Hi%p_index_spec)%bind_Some). exists p. split; [done|]. by eapply list_elem_of_lookup_2.
  - intros (p & Hp & (i & Hi%p_index_spec)%list_elem_of_lookup). rewrite Hp. by exists i.
Qed.

Lemma transition_parent t : t ∈ p_transitions scxml -> is_Some (getParentNode t ≫= p_index scxml).
Proof.
  intros (p & Hp & Ht)%elem_of_flat_map. apply filterChildElements_elem in Ht as (Ht & _).
  apply inPostFixOrder_elem in Hp. apply parent_index_Some. exists p.
  split; [by apply dom_parent_child|by apply inDocumentOrder_elem].
Qed.

Lemma writeState_Some i e : is_Some (writeState scxml i e) <->
  is_Some (if i =? 0 then Some 0 else getParentNode e ≫= p_index scxml).
Proof.
  unfold writeState, stateCharArraySize, childBools, completionBools, ancBools. split.
  - intros (s & (p & -> & _)%bind_Some). eauto.
  - intros [p ->]. cbn [mbind option_bind].
    destruct (row_bytes_spec (fun x => bool_decide (getParentNode x = Some e)) (p_states scxml)) as (ch & -> & _).
    destruct (row_bytes_spec (fun x => bool_decide (Some x ∈ p_completion scxml e)) (p_states scxml)) as (co & -> & _).
    destruct (row_bytes_spec (fun x => isDescendant (Some e) (Some x)) (p_states scxml)) as (an & -> & _).
    by eexists.
Qed.

Lemma writeTransition_Some t : 0 < length (p_states scxml) -> t ∈ p_transitions scxml ->
  is_Some (writeTransition scxml t).
Proof.
  intros Hn [p Hp]%transition_parent. unfold writeTransition, stateCharArraySize, transCharArraySize, conflictBools, exitSetBools, targetBools.
  rewrite Hp. cbn [mbind option_bind].
  destruct (row_bytes_spec (p_conflicts scxml t) (p_transitions scxml)) as (co & -> & _).
  destruct (row_bytes_spec (fun e => isMember e (getExitSet t scxml)) (p_states scxml)) as (ex & -> & _).
  destruct (HAS_ATTR t "target").
  - destruct (row_bytes_spec (is_target (tokenize (ATTR t "target"))) (p_states scxml)) as (a & -> & _). by eexists.
  - pose proof (nr_bytes_bounds (length (p_states scxml))).
    destruct (zero_row (nr_bytes (length (p_states scxml))) ltac:(lia)) as (a & -> & _). by eexists.
Qed.

Lemma machine_defined : getLocalName scxml = "scxml"%string ->
  is_Some (writeMachineInfo content_text scxml) <-> states_nested.
Proof.
  intros Hne%p_states_nonempty. unfold states_nested.
  assert (Hdd : is_Some (elem_donedatas content_text scxml) <->
    forall d, d ∈ donedata_elements scxml -> exists p, getParentNode d = Some p /\ p ∈ p_states scxml).
  { setoid_rewrite <- parent_index_Some. unfold elem_donedatas. split.
    - intros (x & (rows & Hrows & _)%bind_Some) d Hd. apply mapM_Some in Hrows.
      apply list_elem_of_lookup in Hd as (i & Hi). destruct (Forall2_lookup_l _ _ _ i d Hrows Hi) as (r & _ & Hr).
      unfold donedata_row in Hr. apply bind_Some in Hr as (s & -> & _). by eexists.
    - intros Hall. destruct (mapM_is_Some_2 (donedata_row content_text scxml) (donedata_elements scxml)) as [rows ->].
      + apply Forall_forall. intros d Hd. cbn. unfold donedata_row. destruct (Hall d Hd) as [s ->]. by eexists.
      + by eexists. }
  rewrite <- Hdd. setoid_rewrite <- parent_index_Some. split.
  - intros [m Hm]. destruct (writeMachineInfo_fields _ _ _ Hm) as (_ & _ & _ & HF & _ & Hd). split; [|by eexists].
    intros i e He. destruct (Forall2_lookup_l _ _ _ (S i) (S i, e) HF) as (s & _ & Hs).
    { apply enumerated_lookup. eauto. }
    apply (writeState_Some (S i) e). by eexists.
  - intros [Hst [dd Hd]]. unfold writeMachineInfo.
    destruct (mapM_is_Some_2 (fun '(i, e) => writeState scxml i e) (imap (fun i e => (i, e)) (p_states scxml))) as [ss ->].
    { apply Forall_forall. intros x (i & (e & -> & He)%enumerated_lookup)%list_elem_of_lookup.
      apply writeState_Some. destruct i; [by eexists|]. by eapply Hst. }
    destruct (mapM_is_Some_2 (writeTransition scxml) (p_transitions scxml)) as [ts ->].
    { apply Forall_forall. intros t Ht. by apply writeTransition_Some. }
    cbn [mbind option_bind]. rewrite Hd. by eexists.
Qed.

End Defined.

(** ** The same chart as [FastMicroStep::init] *)

Section Agreement.
Context {node : Type} `{!EqDecision node, !Countable node} {D : DomOps node} {DL : DomLaws node}.
Context (scxml : node).

(** No element has a prefix: the SCXML namespace is the default one. *)
Definition unprefixed : Prop := forall e, getPrefix e = None.

Context (Hpre : unprefixed).

Lemma unprefixed_prefix e : XML_PREFIX e = ""%string /\ machine_prefix scxml = ""%string /\ getTagName e = getLocalName e.
Proof. unfold XML_PREFIX, machine_prefix. by rewrite dom_tag, !Hpre. Qed.

(** The two orders in which the tags are listed make no difference. *)
Lemma filterElementGeneric_tags l1 l2 order emb (Htags : forall e, tag_in l1 e = tag_in l2 e) fuel :
  forall root incl, filterElementGeneric_fuel fuel l1 root order emb incl =
                    filterElementGeneric_fuel fuel l2 root order emb incl.
Proof.
  induction fuel as [|fuel IH]; intros root incl; [done|]. cbn [filterElementGeneric_fuel].
  rewrite Htags. do 2 f_equal. apply flat_map_ext. intros c. destruct order; rewrite ?Htags, ?IH; done.
Qed.

Lemma tag_in_spec l (e : node) : tag_in l e = bool_decide (getTagName e ∈ l).
Proof. done. Qed.

Lemma states_same : p_states scxml = state_elements scxml.
Proof.
  apply filterElementGeneric_tags. intros e. unfold tag_in, p_state_tags, state_tags.
  destruct (unprefixed_prefix scxml) as (-> & -> & _). apply bool_decide_ext. cbn. set_solver.
Qed.

Lemma index_same e : p_index scxml e = state_index scxml e.
Proof. unfold p_index, state_index. by rewrite states_same. Qed.

Lemma transitions_same : p_transitions scxml = transition_elements scxml.
Proof. done. Qed.

Lemma conflicts_same t u : p_conflicts scxml t u = conflicts t u scxml.
Proof.
  unfold p_conflicts, conflicts, same_source.
  destruct (hasIntersection _ _), (bool_decide _), (isDescendant _ _), (isDescendant _ _); done.
Qed.

Lemma completion_same e : isHistory e = false -> p_completion scxml e = getCompletion scxml e.
Proof.
  intros Hh. unfold p_completion, getCompletion. rewrite Hh.
  destruct (unprefixed_prefix e) as (-> & -> & _). done.
Qed.

Lemma type_same e : p_state_type scxml e = state_type scxml e \/
  p_state_type scxml e = Z.lor (state_type scxml e) USCXML_STATE_HAS_HISTORY.
Proof.
  unfold p_state_type, state_type. destruct (unprefixed_prefix e) as (_ & -> & _).
  change ("" +:+ "initial")%string with "initial"%string. cbv zeta. fold (is_deep e). unfold is_deep.
  destruct (p_hasHistoryChild scxml e); [right|left];
    destruct (iequals (getTagName e) "initial"), (isFinal e), (isHistory e),
      (HAS_ATTR e "type" && iequals (ATTR e "type") "deep"), (isAtomic e), (isParallel e); reflexivity.
Qed.

Lemma transition_type_same t : p_transition_type t = transition_type scxml t.
Proof. unfold p_transition_type, transition_type. by destruct (unprefixed_prefix scxml) as (_ & -> & _). Qed.

(** Every ancestor that is a state is reached through states. *)
Lemma ancestors_same e i : states_nested scxml -> p_states scxml !! i = Some e ->
  forall a, a ∈ state_parents scxml e <-> exists x, p_states scxml !! a = Some x /\ x ∈ parents e.
Proof.
  intros [Hn _]. revert i. induction e as [e IH] using parent_ind. intros i Hi a. split.
  { intros Ha%state_parents_elem. by rewrite states_same. }
  intros (x & Hx & Hp).
  assert (Hlt : a < i).
  { destruct (decide (a < i)) as [|Hge]; [done|exfalso]. destruct (decide (a = i)) as [->|].
    - simplify_eq. by apply parents_irrefl in Hp.
    - pose proof (StronglySorted_lookup _ _ i a e x (inDocumentOrder_sorted (p_state_tags scxml) scxml)
        ltac:(lia) Hi Hx) as [_ Hr]. by apply Hr. }
  destruct i as [|i]; [lia|]. destruct (Hn i e Hi) as (p & Ep & (k & Hk)%list_elem_of_lookup).
  rewrite state_parents_unfold, Ep. rewrite parents_unfold, Ep in Hp.
  assert (Hidx : state_index scxml p = Some k) by by rewrite <- index_same; apply p_index_spec.
  rewrite Hidx. apply elem_of_cons in Hp as [->|Hp].
  - assert (a = k) as -> by (eapply NoDup_lookup; [apply (p_states_NoDup scxml)|done|done]). by left.
  - right. apply (IH p Ep k Hk). eauto.
Qed.

Lemma enumerate_rows {B} (f : B -> gset nat) (l : list B) i j :
  j ∈ match l !! i with Some s => f s | None => ∅ end <-> exists s, l !! i = Some s /\ j ∈ f s.
Proof. destruct (l !! i); set_solver. Qed.

(** *** The state tables *)

Context (content_text : node -> string) (m : uscxml_machine (Handler node)) (c : Chart node).
Context (Hm : writeMachineInfo content_text scxml = Some m) (Hc : init_chart scxml = Some c).
Context (Hroot : getLocalName scxml = "scxml"%string).
Notation states := (p_states scxml).

Lemma nested_states : states_nested scxml.
Proof. apply (machine_defined content_text scxml Hroot). by exists m. Qed.

(** A row of the tables and the state it is printed for. *)
Lemma table_of i e : states !! i = Some e ->
  exists s, m_states m !! i = Some s /\ writeState scxml i e = Some s /\
    ancestors_of (tables m) i = set_of (nr_bytes (length states)) (cs_ancestors s) /\
    children_of (tables m) i = set_of (nr_bytes (length states)) (cs_children s) /\
    completion_of (tables m) i = set_of (nr_bytes (length states)) (cs_completion s) /\
    parent_of (tables m) i = cs_parent s /\ type_of (tables m) i = cs_type s.
Proof.
  intros He. destruct (writeMachineInfo_fields _ _ _ Hm) as (HN & _ & _ & HF & _).
  destruct (Forall2_lookup_l _ _ _ i (i, e) HF) as (s & Hs & Hw); [apply enumerated_lookup; eauto|].
  exists s. destruct (table_row m i s Hs) as (H1 & H2 & H3 & H4 & H5). rewrite HN in H1, H2, H3. done.
Qed.

Lemma states_length : length (m_states m) = length states.
Proof.
  destruct (writeMachineInfo_fields _ _ _ Hm) as (_ & _ & _ & HF & _). apply Forall2_length in HF.
  by rewrite <- HF, length_imap.
Qed.

Lemma no_table_row i : states !! i = None -> c_states (tables m) !! i = None.
Proof. intros Hi. apply lookup_ge_None in Hi. apply lookup_ge_None. cbn. rewrite length_imap, states_length. lia. Qed.

Lemma ancestors_agree i : ancestors_of (tables m) i = ancestors_of c i.
Proof.
  apply set_eq. intros a. rewrite (ancestors_of_spec scxml c Hc), <- states_same.
  destruct (states !! i) as [e|] eqn:He.
  - destruct (table_of i e He) as (s & _ & Hw & -> & _). apply writeState_spec in Hw as (_ & _ & _ & _ & _ & _ & _ & ->).
    rewrite <- (ancestors_same e i nested_states He a). naive_solver.
  - unfold ancestors_of, state_set. rewrite no_table_row by done. set_solver.
Qed.

Lemma parent_agree i : parent_of (tables m) i = parent_of c i.
Proof.
  destruct (states !! i) as [e|] eqn:He.
  - destruct (table_of i e He) as (s & _ & Hw & _ & _ & _ & -> & _).
    apply writeState_spec in Hw as (Hp & _). rewrite (parent_of_spec scxml c i e Hc) by by rewrite <- states_same.
    destruct (getParentNode e) as [p|] eqn:Ep; cbn [mbind option_bind] in Hp |- *.
    + rewrite <- index_same. destruct i as [|i]; cbn [Nat.eqb] in Hp; [|by rewrite Hp].
      injection Hp as <-. destruct (p_index scxml p) as [k|] eqn:Hk; [|done]. exfalso.
      assert (Hlt : k < 0); [|lia]. apply (state_parents_lt scxml 0 e); [by rewrite <- states_same|].
      rewrite state_parents_unfold, Ep, <- index_same, Hk. by left.
    + destruct i; [by injection Hp as <-|done].
  - unfold parent_of. rewrite no_table_row by done. apply lookup_ge_None in He.
    destruct (c_states c !! i) eqn:Ei; [|done]. apply lookup_lt_Some in Ei.
    rewrite (proj1 (init_chart_states scxml c Hc)), <- states_same in Ei. lia.
Qed.

Lemma children_agree i j : j ∈ children_of (tables m) i <-> j ∈ children_of c i /\ parent_of c j = i.
Proof.
  rewrite (children_of_spec scxml c Hc), <- states_same.
  assert (Hch : j ∈ children_of (tables m) i <->
    exists e x, states !! i = Some e /\ states !! j = Some x /\ getParentNode x = Some e).
  { destruct (states !! i) as [e|] eqn:He.
    - destruct (table_of i e He) as (s & _ & Hw & _ & -> & _).
      apply writeState_spec in Hw as (_ & _ & _ & _ & _ & -> & _). naive_solver.
    - unfold children_of, state_set. rewrite no_table_row by done. set_solver. }
  rewrite Hch. split.
  - intros (e & x & He & Hx & Hp). assert (Hi : state_index scxml e = Some i) by by rewrite <- index_same; apply p_index_spec.
    rewrite (parent_of_spec scxml c j x Hc) by by rewrite <- states_same. rewrite Hp. cbn [mbind option_bind]. rewrite Hi. split; [|done].
    exists x. split; [done|]. rewrite state_parents_unfold, Hp, Hi. by left.
  - intros [(x & Hx & Hp) Hpar]. rewrite (parent_of_spec scxml c j x Hc) in Hpar by by rewrite <- states_same.
    rewrite state_parents_unfold in Hp. destruct (getParentNode x) as [e|] eqn:Ep; [|by apply elem_of_nil in Hp].
    cbn [mbind option_bind] in Hpar. destruct (state_index scxml e) as [k|] eqn:Hk; [|by apply elem_of_nil in Hp]. cbn in Hpar. subst k.
    rewrite <- index_same in Hk. apply p_index_spec in Hk. by exists e, x.
Qed.

Lemma type_agree i : USCXML_STATE_MASK (type_of (tables m) i) = type_of c i.
Proof.
  destruct (states !! i) as [e|] eqn:He.
  - destruct (table_of i e He) as (s & _ & Hw & _ & _ & _ & _ & ->).
    apply writeState_spec in Hw as (_ & -> & _). rewrite states_same in He.
    destruct (proj2 (init_chart_states scxml c Hc) i e He) as (st & Hs & Hi). unfold type_of. rewrite Hs.
    rewrite (init_chart_no_history_flag scxml c i st Hc Hs). apply init_state_fields in Hi as (-> & _).
    destruct (type_same e) as [-> | ->]; unfold state_type; repeat case_match; reflexivity.
  - unfold type_of. rewrite no_table_row by done. apply lookup_ge_None in He.
    destruct (c_states c !! i) eqn:Ei; [|done]. apply lookup_lt_Some in Ei.
    rewrite (proj1 (init_chart_states scxml c Hc)), <- states_same in Ei. lia.
Qed.

Lemma completion_agree i e : states !! i = Some e -> isHistory e = false ->
  completion_of (tables m) i = completion_of c i.
Proof.
  intros He Hh. destruct (table_of i e He) as (s & _ & Hw & _ & _ & -> & _).
  apply writeState_spec in Hw as (_ & _ & _ & _ & _ & _ & Hco & _). apply set_eq. intros k. rewrite Hco.
  rewrite states_same in *. destruct (proj2 (init_chart_states scxml c Hc) i e He) as (st & Hs & Hi).
  unfold completion_of, state_set. rewrite Hs. apply init_state_fields in Hi as (_ & _ & _ & _ & _ & Hb).
  rewrite (to_bits_spec scxml _ _ Hb). by rewrite completion_same.
Qed.

(** *** The transition tables *)

Lemma transition_of i t : p_transitions scxml !! i = Some t ->
  exists r tr, m_transitions m !! i = Some r /\ writeTransition scxml t = Some r /\
    c_transitions (tables m) !! i = Some (table_transition m i r) /\ c_transitions c !! i = Some tr /\
    exists row, init_transition scxml t (getExitSet t scxml) row = Some tr /\
      forall j, j ∈ row <-> exists u, p_transitions scxml !! j = Some u /\ p_conflicts scxml t u = true.
Proof.
  intros Ht. destruct (writeMachineInfo_fields _ _ _ Hm) as (_ & _ & _ & _ & HF & _).
  destruct (Forall2_lookup_l _ _ _ i t HF Ht) as (r & Hr & Hw).
  destruct (init_chart_transition scxml c i t Hc Ht) as (tr & row & Htr & Hi & Hrow).
  exists r, tr. split_and!; try done; [by apply tables_transition|]. exists row. split; [done|].
  intros j. rewrite Hrow. by setoid_rewrite conflicts_same.
Qed.

Lemma no_table_transition i : p_transitions scxml !! i = None ->
  c_transitions (tables m) !! i = None /\ c_transitions c !! i = None.
Proof.
  intros Hi. destruct (writeMachineInfo_fields _ _ _ Hm) as (_ & _ & _ & _ & HF & _). split.
  - apply lookup_ge_None in Hi. apply lookup_ge_None. cbn. rewrite length_imap.
    apply Forall2_length in HF. lia.
  - destruct (c_transitions c !! i) as [tr|] eqn:Et; [|done].
    destruct (init_chart_trans scxml c i tr Hc Et) as (t & Ht). rewrite transitions_same in Hi. congruence.
Qed.

Lemma transition_agree i :
  source_of (tables m) i = source_of c i /\ trans_set t_exitSet (tables m) i = trans_set t_exitSet c i /\
  trans_set t_conflicts (tables m) i = trans_set t_conflicts c i /\
  (t_type <$> (c_transitions (tables m) !! i)) = (t_type <$> (c_transitions c !! i)).
Proof.
  unfold source_of, trans_set. destruct (p_transitions scxml !! i) as [t|] eqn:Ht.
  2:{ by destruct (no_table_transition i Ht) as [-> ->]. }
  destruct (transition_of i t Ht) as (r & tr & _ & Hw & -> & -> & row & Hi & Hrow).
  destruct (writeTransition_spec scxml t r (p_states_nonempty scxml Hroot) Hw)
    as (Hsrc & Hty & _ & _ & _ & _ & _ & Hx & Hcf).
  destruct (writeMachineInfo_fields _ _ _ Hm) as (HN & HT & _).
  unfold init_transition in Hi. apply bind_Some in Hi as (b & Hb & [= <-]).
  cbn [t_source t_exitSet t_conflicts t_type table_transition fmap option_fmap option_map]. split_and!.
  - destruct (getParentNode t) as [p|]; cbn [mbind option_bind] in Hsrc |- *; [|done].
    by rewrite <- index_same, Hsrc.
  - rewrite HN. apply set_eq. intros k. rewrite Hx, (to_bits_spec scxml _ _ Hb), <- states_same.
    setoid_rewrite list_elem_of_fmap. naive_solver.
  - rewrite HT. apply set_eq. intros k. by rewrite Hcf, Hrow.
  - by rewrite Hty, transition_type_same.
Qed.

(** With ids that are distinct and need no escape, the targets agree as well. *)
Definition plain_ids : Prop := forall e, e ∈ states -> HAS_ATTR e "id" = true ->
  implode (escape (explode (ATTR e "id"))) = ATTR e "id" /\
  forall e', e' ∈ states -> getAttribute e' "id" = getAttribute e "id" -> e' = e.

Lemma id_collected e i : plain_ids -> states !! i = Some e -> HAS_ATTR e "id" = true ->
  collect_ids scxml !! ATTR e "id" = Some i.
Proof.
  intros Hids He Hid.
  assert (Hin : is_Some (collect_ids scxml !! ATTR e "id")).
  { unfold collect_ids. rewrite <- states_same.
    assert (Hl : (i, e) ∈ imap (fun i e => (i, e)) states)
      by (apply list_elem_of_lookup; exists i; apply enumerated_lookup; eauto).
    generalize (∅ : gmap string nat). induction (imap _ _) as [|[j x] l IH]; intros acc; [by apply elem_of_nil in Hl|].
    cbn [foldl]. assert (Hkeep : forall l (acc : gmap string nat), is_Some (acc !! ATTR e "id") ->
      is_Some (foldl (fun m '(i, e) => if HAS_ATTR e "id" then <[ATTR e "id" := i]> m else m) acc l !! ATTR e "id")).
    { induction l0 as [|[k y] l0 IH0]; intros a Ha; [done|]. cbn [foldl]. apply IH0.
      destruct (HAS_ATTR y "id"); [|done]. apply lookup_insert_is_Some'. by right. }
    apply elem_of_cons in Hl as [[= -> ->]|Hl]; [|by apply IH].
    apply Hkeep. rewrite Hid. rewrite lookup_insert_eq. by eexists. }
  destruct Hin as [k Hk]. rewrite Hk. f_equal. apply collect_ids_spec in Hk as (x & Hx & Hxid).
  rewrite <- states_same in Hx.
  assert (x = e) as ->.
  { apply (Hids e); [by eapply list_elem_of_lookup_2|done|by eapply list_elem_of_lookup_2|].
    rewrite Hxid. unfold HAS_ATTR, ATTR in *. by destruct (getAttribute e "id"). }
  eapply NoDup_lookup; [apply p_states_NoDup|done|done].
Qed.

Lemma transition_target_elem t k : plain_ids -> k ∈ transition_target scxml t <->
  exists x, states !! k = Some x /\ is_target (tokenize (ATTR t "target")) x = true /\ HAS_ATTR t "target" = true.
Proof.
  intros Hids. unfold transition_target. rewrite elem_of_list_to_set, list_elem_of_omap. split.
  - intros (id & Hin & Hk). apply collect_ids_spec in Hk as (x & Hx & Hid). rewrite <- states_same in Hx.
    assert (Hh : HAS_ATTR x "id" = true) by by unfold HAS_ATTR; rewrite Hid.
    exists x. split; [done|]. split.
    + unfold is_target. rewrite Hh. apply bool_decide_eq_true. destruct (Hids x) as [-> _]; [by eapply list_elem_of_lookup_2|done|].
      unfold ATTR. by rewrite Hid.
    + unfold HAS_ATTR, ATTR in *. destruct (getAttribute t "target"); [done|].
      change (tokenize (default ""%string None)) with (@nil string) in Hin. by apply elem_of_nil in Hin.
  - intros (x & Hx & Hit & Hh). unfold is_target in Hit. apply andb_true_iff in Hit as [Hid Hin].
    apply bool_decide_eq_true in Hin. destruct (Hids x) as [He _]; [by eapply list_elem_of_lookup_2|done|].
    rewrite He in Hin. exists (ATTR x "id"). split; [done|]. by apply id_collected.
Qed.

Lemma target_agree i : plain_ids -> target_of (tables m) i = target_of c i.
Proof.
  intros Hids. unfold target_of, trans_set. destruct (p_transitions scxml !! i) as [t|] eqn:Ht.
  2:{ by destruct (no_table_transition i Ht) as [-> ->]. }
  destruct (transition_of i t Ht) as (r & tr & _ & Hw & -> & -> & row & Hi & _).
  destruct (writeTransition_spec scxml t r (p_states_nonempty scxml Hroot) Hw) as (_ & _ & _ & _ & _ & _ & Htg & _).
  destruct (writeMachineInfo_fields _ _ _ Hm) as (HN & _).
  unfold init_transition in Hi. apply bind_Some in Hi as (b & _ & [= <-]).
  cbn [t_target table_transition]. rewrite HN. apply set_eq. intros k. by rewrite Htg, transition_target_elem.
Qed.

End Agreement.

(** ** Histories below the parent of a deep history *)

Section Coverage.
Context {node : Type} `{!EqDecision node} {D : DomOps node} {DL : DomLaws node}.
Context (scxml : node).

(** Proper states below the parent of the deep history [h]. *)
Definition below (h e : node) : Prop :=
  e ∈ p_states scxml /\ isHistory e = false /\ isDescendant (Some e) (getParentNode h) = true.

(** They are covered once the histories next to [h] are done with. *)
Definition claimed (h : node) (c : Coverage) : Prop :=
  (forall e, below h e -> e ∈ h_covered c) \/
  (h_parent c = getParentNode h /\ forall e, below h e -> e ∈ h_covered c ++ h_perParentcovered c).

Lemma history_completion_elem covered h e : e ∈ history_completion scxml covered h -> e ∉ covered.
Proof.
  unfold history_completion. intros (He & Hb)%elem_of_List_filter. bool_prop. by rewrite <- isMember_spec, not_true_iff_false.
Qed.

Lemma claimed_after h c : isHistory h = true -> HAS_ATTR h "type" && iequals (ATTR h "type") "deep" = true -> claimed h (cover_history scxml c h).
Proof.
  intros Hhist Hdeep. right. split; [done|]. intros e (Hin & Hh & Hd).
  assert (Hne : e <> h) by congruence. unfold cover_history. cbn [h_covered h_perParentcovered].
  set (covered := if bool_decide (h_parent c = getParentNode h) then _ else _).
  rewrite !elem_of_app. destruct (isMember e covered) eqn:Hc; [left; by apply isMember_spec|].
  right; right. unfold history_completion. apply elem_of_List_filter. split; [done|].
  by rewrite Hdeep, Hc, Hd, Hh, bool_decide_eq_false_2.
Qed.

Lemma claimed_step h c h' : claimed h c -> claimed h (cover_history scxml c h').
Proof.
  unfold claimed, cover_history. cbn [h_covered h_perParentcovered h_parent].
  intros [Hc|[Hp Hc]]; case_bool_decide as Hs.
  - by left.
  - left. intros e He. apply elem_of_app. left. auto.
  - right. split; [congruence|]. intros e He. specialize (Hc e He). rewrite !elem_of_app in *. tauto.
  - by left.
Qed.

Lemma claimed_fold h l c : claimed h c -> claimed h (foldl (cover_history scxml) c l).
Proof. revert c. induction l as [|x l IH]; intros c Hc; [done|]. cbn [foldl]. by apply IH, claimed_step. Qed.

Lemma claimed_empty h h' c p : claimed h c -> getParentNode h = Some p ->
  isDescendant (getParentNode h') (getParentNode h) = true ->
  exists c', cover_history scxml c h' = c' /\ head (h_completions c') = Some (h', []).
Proof.
  intros Hc Hp Hd. eexists. split; [done|]. unfold cover_history. cbn [h_completions head]. do 2 f_equal.
  set (covered := if bool_decide _ then _ else _).
  assert (Hall : forall e, below h e -> e ∈ covered).
  { subst covered. intros e He. destruct Hc as [Hc|[Hpar Hc]].
    - case_bool_decide; [auto|]. apply elem_of_app. left. auto.
    - rewrite bool_decide_eq_false_2; [auto|]. rewrite Hpar. intros Heq. rewrite <- Heq, Hp in Hd.
      apply isDescendant_spec, parents_irrefl in Hd. done. }
  rewrite Hp in Hd. destruct (getParentNode h') as [p'|] eqn:Hp'; [|done]. apply isDescendant_spec in Hd.
  destruct (history_completion scxml covered h') as [|e l] eqn:E; [done|exfalso].
  assert (Hin : e ∈ history_completion scxml covered h') by (rewrite E; left).
  pose proof (history_completion_elem covered h' e Hin) as Hnot. apply Hnot, Hall.
  unfold history_completion in Hin. apply elem_of_List_filter in Hin as [He Hb]. bool_prop.
  assert (Hpe : p ∈ parents e).
  { rewrite Hp' in *. match goal with H : (if _ then _ else _) = true |- _ => rename H into Hif end.
    destruct (HAS_ATTR h' "type" && _).
    - apply isDescendant_spec in Hif. by eapply parents_trans.
    - apply bool_decide_eq_true in Hif. rewrite parents_unfold, Hif. by right. }
  unfold below. rewrite Hp. split_and!; try done. by apply isDescendant_spec.
Qed.

Lemma find_completion h l c : h ∉ l ->
  List.find (fun hc => bool_decide (fst hc = h)) (h_completions (foldl (cover_history scxml) c l)) =
  List.find (fun hc => bool_decide (fst hc = h)) (h_completions c).
Proof.
  revert c. induction l as [|x l IH]; intros c Hh; [done|]. cbn [foldl]. apply not_elem_of_cons in Hh as [Hx Hl].
  rewrite IH by done. unfold cover_history. cbn [h_completions List.find fst].
  by rewrite bool_decide_eq_false_2.
Qed.

(** A history that comes after a deep history and whose parent lies below
    the parent of that one gets an empty completion: the deep history has
    claimed all states there, so the emitted machine never restores this one. *)
Theorem covered_history_empty l1 h l2 h' l3 :
  inPostFixOrder [XML_PREFIX scxml +:+ "history"]%string scxml = l1 ++ h :: l2 ++ h' :: l3 ->
  isHistory h = true -> HAS_ATTR h "type" && iequals (ATTR h "type") "deep" = true -> isHistory h' = true ->
  isDescendant (getParentNode h') (getParentNode h) = true ->
  p_completion scxml h' = [].
Proof.
  intros Hl Hh Hdeep Hh' Hd. unfold p_completion, setHistoryCompletion. rewrite Hh', Hl.
  rewrite foldl_app. cbn [foldl]. rewrite foldl_app. cbn [foldl]. set (c1 := foldl _ _ l1).
  pose proof (claimed_fold h l2 _ (claimed_after h c1 Hh Hdeep)) as Hc. set (c2 := foldl _ _ l2) in *.
  assert (Hp : exists p, getParentNode h = Some p).
  { destruct (getParentNode h); [by eexists|]. unfold isDescendant in Hd. by destruct (getParentNode h'). }
  destruct Hp as [p Hp]. destruct (claimed_empty h h' c2 p Hc Hp Hd) as (c3 & -> & Hc3).
  rewrite find_completion.
  - destruct (h_completions c3) as [|x l]; [done|]. injection Hc3 as ->. cbn [List.find fst].
    by rewrite bool_decide_eq_true_2.
  - pose proof (inPostFixOrder_NoDup [XML_PREFIX scxml +:+ "history"]%string scxml) as Hnd. rewrite Hl in Hnd.
    apply NoDup_app in Hnd as (_ & _ & Hnd). apply NoDup_cons in Hnd as [_ Hnd].
    apply NoDup_app in Hnd as (_ & _ & Hnd). by apply NoDup_cons in Hnd as [? _].
Qed.

End Coverage.

(** ** Properties of the transformer *)

Section Transform.
Context {node : Type} `{!EqDecision node, !Countable node} (D : DomOps node) {DL : DomLaws node}.
Context (content_text : node -> string) (scxml : node).
Let D' : DomOps node := p_resortStates scxml.

#[local] Instance p_resorted_laws : DomLaws node (H := D').
Proof.
  assert (Hperm : forall e, p_resort_children e ≡ₚ childElements e).
  { intros e. unfold p_resort_children. pose proof (dom_children_NoDup e) as Hnd.
    rewrite resort_pass_perm, resort_pass_perm, resort_pass_perm; try done.
    - by rewrite resort_pass_perm.
    - rewrite resort_pass_perm; rewrite resort_pass_perm; done. }
  assert (Hch : forall e, childElements (DomOps := D') e ≡ₚ childElements e)
    by (intros e; cbn; case_bool_decide; [apply Hperm|done]).
  constructor.
  - intros p c. rewrite Hch. apply (dom_parent_child (H := D)).
  - intros p. rewrite Hch. apply dom_children_NoDup.
  - intros p c. apply (dom_depth (H := D)).
  - intros e. apply (dom_tag (H := D)).
  - intros p. rewrite (list_sum_perm _ (nodeSize <$> childElements (DomOps := D) p)).
    + apply (dom_size (H := D)).
    + change (@nodeSize _ D') with (@nodeSize _ D). by rewrite Hch.
Qed.

(** The transformer prints a program that compiles exactly for the
    documents in which every state and every donedata element is a child of a
    state, and its tables are then as the emitted function needs them: the
    counters are wide enough, the rows have the declared size, every number is
    in range, every guard has its function, the done data are terminated. *)
Theorem ChartToC_machine_ok : getLocalName scxml = "scxml"%string ->
  countable_in_64_bits (D := D') scxml ->
  (is_Some (ChartToC D content_text scxml) <-> states_nested (D := D') scxml) /\
  forall m, ChartToC D content_text scxml = Some m -> machine_ok m.
Proof.
  intros Hroot Hcount. split.
  - by apply (machine_defined (D := D') content_text scxml).
  - intros m Hm. by apply (machine_tables_ok (D := D') content_text scxml).
Qed.

Lemma resorted_same : unprefixed -> p_resortStates scxml = resortStates scxml (machine_prefix scxml).
Proof.
  intros Hpre. unfold p_resortStates, resortStates. f_equal. apply functional_extensionality. intros n.
  unfold p_resort_children, resort_children.
  assert (Hx : forall e, XML_PREFIX e = ""%string /\ machine_prefix scxml = ""%string)
    by (intros e; unfold XML_PREFIX, machine_prefix; by rewrite !Hpre).
  destruct (Hx n) as [-> ->]. change ("" +:+ "initial")%string with "initial"%string.
  assert (Hf : (fun child => String.eqb (getTagName child) "initial") =
               (fun child => String.eqb (getLocalName child) "initial")).
  { apply functional_extensionality. intros e. by rewrite dom_tag, Hpre. }
  by rewrite Hf.
Qed.

(** C7: on a document without prefixes the transformer and the interpreter
    compile the same chart: the printed tables have the interpreter's
    ancestors, parents, types and completions of states, and its sources, exit
    sets, conflicts and types of transitions; the targets agree when ids are
    distinct and contain nothing to escape. The children are the direct ones
    only, and the completion of a history is left out. *)
Theorem tables_agree c m : unprefixed -> getLocalName scxml = "scxml"%string ->
  init D scxml = Some c -> ChartToC D content_text scxml = Some m ->
  (forall i, ancestors_of (tables m) i = ancestors_of c i /\ parent_of (tables m) i = parent_of c i /\
     USCXML_STATE_MASK (type_of (tables m) i) = type_of c i) /\
  (forall i j, j ∈ children_of (tables m) i <-> j ∈ children_of c i /\ parent_of c j = i) /\
  (forall i e, p_states (D := D') scxml !! i = Some e -> isHistory (D := D') e = false ->
     completion_of (tables m) i = completion_of c i) /\
  (forall i, source_of (tables m) i = source_of c i /\
     trans_set t_exitSet (tables m) i = trans_set t_exitSet c i /\
     trans_set t_conflicts (tables m) i = trans_set t_conflicts c i /\
     (t_type <$> (c_transitions (tables m) !! i)) = (t_type <$> (c_transitions c !! i))) /\
  (plain_ids (D := D') scxml -> forall i, target_of (tables m) i = target_of c i).
Proof.
  intros Hpre Hroot Hc Hm. unfold init in Hc. rewrite <- resorted_same in Hc by done. fold D' in Hc.
  assert (Hpre' : unprefixed (D := D')) by exact Hpre.
  split; [intros i; split_and!|split; [intros i j|split; [intros i e He Hh|split; [intros i|intros Hids i]]]].
  - by apply (ancestors_agree (D := D') scxml Hpre' content_text m c).
  - by apply (parent_agree (D := D') scxml Hpre' content_text m c).
  - by apply (type_agree (D := D') scxml Hpre' content_text m c).
  - by apply (children_agree (D := D') scxml Hpre' content_text m c).
  - by apply (completion_agree (D := D') scxml Hpre' content_text m c) with e.
  - by apply (transition_agree (D := D') scxml Hpre' content_text m c).
  - by apply (target_agree (D := D') scxml Hpre' content_text m c).
Qed.

(** C18: whatever the callbacks do and whatever is on the stack, the program
    printed for a document accesses nothing outside of its arrays and, in any
    call on a context of the right size, calls no null pointer, neither of its
    tables nor of the context, but the two callbacks that it calls without a
    test: with [is_matched] and [raise_done_event] set, nothing undefined
    happens; when something does, the host has left one of these two NULL. The
    context keeps its size and its flags in any case. What the functions do
    that the tables point to is a parameter here. *)
Theorem emitted_step_defined {Ev W : Type} {CB : UscxmlCallbacks (Handler node) Ev W} m fuel stack x s :
  getLocalName scxml = "scxml"%string -> countable_in_64_bits (D := D') scxml ->
  ChartToC D content_text scxml = Some m -> ctx_ok m x -> stack_ok m stack ->
  let '(r, (x', _)) := uscxml_step m fuel stack (x, s) in
  (r = inl Undefined -> is_matched (UscxmlCallbacks := CB) = None \/ raise_done_event (UscxmlCallbacks := CB) = None) /\ ctx_ok m x'.
Proof.
  intros Hroot Hcount Hm. apply (step_defined m). by apply (machine_tables_ok (D := D') content_text scxml).
Qed.

End Transform.
