(* ===== verification/CRows.v ===== *)
(** * Which rows an element of the emitted program finds

    [writeElementInfo] prints the data and param elements of a document as two
    arrays with rows of null pointers in between, and leaves the index of its
    first row with every owner. A callback reads from there to the next row of
    null pointers. *)

From stdpp Require Import base list gmap strings.
From S2P Require Import Prelude Strings Data Numbers CBits CStep Dom Predicates Chart CTables.

Local Open Scope nat_scope.

(** The rows from an index to the next row of null pointers. *)
Fixpoint run {Row} (rows : list (option Row)) : list Row :=
  match rows with
  | Some r :: rows => r :: run rows
  | _ => []
  end.

Definition rows_at {Row} (rows : list (option Row)) (index : nat) : list Row := run (drop index rows).

Lemma run_rows {Row} (l : list Row) rest : head rest = Some None -> run ((Some <$> l) ++ rest) = l.
Proof.
  intros Hr. induction l as [|r l IH]; cbn.
  - destruct rest as [|[|] rest]; [done|done|done].
  - by f_equal.
Qed.

Section Rows.
Context {node : Type} `{!EqDecision node} {D : DomOps node}.
Context (scxml : node).

Lemma last_set_app (e : node) l1 l2 (k : nat) : (forall x, x ∈ l1 ++ l2 -> fst x <> e) -> last_set e (l1 ++ (e, k) :: l2) = Some k.
Proof.
  intros Hne. unfold last_set. rewrite filter_app, filter_cons_True by done.
  assert (Hnil : forall l : list (node * nat), (forall x, x ∈ l -> fst x <> e) -> filter (fun x => fst x = e) l = []).
  { induction l as [|x l IH]; intros Hl; [done|]. rewrite filter_cons_False by (apply Hl; left).
    apply IH. intros y Hy. apply Hl. by right. }
  rewrite !Hnil; [done| |]; intros x Hx; apply Hne, elem_of_app; auto.
Qed.

(** ** Data *)

Definition data_owner (data : node) : option node := getParentNode data ≫= getParentNode.

(** Rows printed so far: one for each element and one for each separator. *)
Lemma data_loop_app l1 : forall i offset parent l2, exists rows index offset' parent',
  data_loop LATE i offset parent (l1 ++ l2) =
    (rows ++ fst (data_loop LATE (i + length l1) offset' parent' l2),
     index ++ snd (data_loop LATE (i + length l1) offset' parent' l2)) /\
  length rows + offset = length l1 + offset' /\
  parent' = match last l1 with Some d => data_owner d | None => parent end /\
  (forall x, x ∈ index -> exists d, d ∈ l1 /\ data_owner d = Some (fst x)).
Proof.
  induction l1 as [|d l1 IH]; intros i offset parent l2.
  - exists [], [], offset, parent. cbn [length app]. rewrite Nat.add_0_r. split_and!; try done.
    + by destruct (data_loop _ _ _ _ _).
    + by intros x ?%elem_of_nil.
  - cbn [app data_loop]. fold (data_owner d). set (late := negb (bool_decide (data_owner d = parent))).
    set (off := if late && (0 <? i) then S offset else offset).
    destruct (IH (S i) off (data_owner d) l2) as (rows & index & offset' & parent' & Heq & Hlen & Hpar & Hidx).
    rewrite Heq. cbn [length]. rewrite <- Nat.add_succ_comm.
    exists ((if late && (0 <? i) then [None] else []) ++ Some (data_row d) :: rows),
      (match data_owner d with Some s => if late then [(s, i + off)] else [] | None => [] end ++ index), offset', parent'.
    split_and!.
    + rewrite <- !app_assoc. destruct (data_owner d); [destruct late|]; done.
    + rewrite length_app. cbn [length]. subst off. destruct (late && _); cbn [length]; lia.
    + rewrite Hpar. destruct l1 as [|d' l1]; [done|]. rewrite (last_cons_cons d).
      destruct (last (d' :: l1)) eqn:El; [done|]. by apply last_None in El.
    + intros x [Hx|Hx]%elem_of_app.
      * exists d. split; [left|]. destruct (data_owner d); [|by apply elem_of_nil in Hx].
        destruct late; [|by apply elem_of_nil in Hx]. by apply list_elem_of_singleton in Hx as ->.
      * destruct (Hidx x Hx) as (d' & Hd & Ho). exists d'. split; [by right|done].
Qed.

(** Elements of one owner follow each other. *)
Lemma data_loop_same s l : forall i offset rest, Forall (fun d => data_owner d = Some s) l ->
  data_loop LATE i offset (Some s) (l ++ rest) =
    ((Some <$> (data_row <$> l)) ++ fst (data_loop LATE (i + length l) offset (Some s) rest),
     snd (data_loop LATE (i + length l) offset (Some s) rest)).
Proof.
  induction l as [|d l IH]; intros i offset rest Hl.
  - cbn [length app fmap list_fmap]. rewrite Nat.add_0_r. by destruct (data_loop _ _ _ _ _).
  - inversion Hl as [|? ? Hd Hl']; subst. cbn [app data_loop]. fold (data_owner d). rewrite Hd.
    rewrite bool_decide_eq_true_2 by done. cbn [negb andb]. rewrite IH by done.
    cbn [length fmap list_fmap app]. by rewrite <- Nat.add_succ_comm.
Qed.

(** Behind the elements of an owner comes a row of null pointers. *)
Lemma data_loop_next s i offset rest : 0 < i -> (forall d, d ∈ rest -> data_owner d <> Some s) ->
  head (fst (data_loop LATE i offset (Some s) rest)) = Some None.
Proof.
  intros Hi Hrest. destruct rest as [|d rest]; [done|]. cbn [data_loop]. fold (data_owner d).
  rewrite bool_decide_eq_false_2 by (apply Hrest; left). cbn [negb andb].
  rewrite (proj2 (Nat.ltb_lt 0 i)) by done. by destruct (data_loop _ _ _ _ _).
Qed.

Lemma data_rows_at l1 d l2 l3 s : Forall (fun d => data_owner d = Some s) (d :: l2) ->
  (forall x, x ∈ l1 ++ l3 -> data_owner x <> Some s) ->
  let out := data_loop LATE 0 0 None (l1 ++ (d :: l2) ++ l3) in
  exists k, last_set s (snd out) = Some k /\ rows_at (fst out) k = data_row <$> d :: l2.
Proof.
  intros [Hd Hl2]%Forall_cons Hother. cbv zeta.
  assert (H1 : forall x, x ∈ l1 -> data_owner x <> Some s) by (intros x Hx; apply Hother, elem_of_app; by left).
  assert (H3 : forall x, x ∈ l3 -> data_owner x <> Some s) by (intros x Hx; apply Hother, elem_of_app; by right).
  destruct (data_loop_app l1 0 0 None ((d :: l2) ++ l3)) as (rows & index & off & par & -> & Hlen & Hpar & Hidx).
  cbn [fst snd Nat.add]. cbn [app data_loop]. fold (data_owner d). rewrite Hd.
  assert (Hne : Some s <> par).
  { subst par. destruct (last l1) as [x|] eqn:El; [|done]. intros He. symmetry in He. revert He.
    apply H1. by apply last_Some_elem_of. }
  rewrite bool_decide_eq_false_2 by done. cbn [negb andb].
  set (off' := if 0 <? length l1 then S off else off). rewrite data_loop_same by done.
  cbn [fst snd]. set (rest := data_loop LATE _ _ _ l3).
  exists (length l1 + off'). split.
  - apply last_set_app. intros x [Hx|Hx]%elem_of_app.
    + destruct (Hidx x Hx) as (y & Hy & Ho). intros Hs. rewrite Hs in Ho. by apply (H1 y).
    + subst rest. destruct (data_loop_app l3 (S (length l1) + length l2) off' (Some s) [])
        as (r3 & i3 & o3 & p3 & Heq & _ & _ & Hi3). rewrite app_nil_r in Heq. rewrite Heq in Hx. cbn in Hx.
      rewrite app_nil_r in Hx. destruct (Hi3 x Hx) as (y & Hy & Ho). intros Hs. rewrite Hs in Ho. by apply (H3 y).
  - unfold rows_at. rewrite drop_app_ge by (subst off'; destruct (0 <? length l1); lia).
    assert (Hdrop : forall l : list (option elem_data),
      drop (length l1 + off' - length rows) ((if 0 <? length l1 then [None] else []) ++ l) = l).
    { intros l. subst off'. destruct (0 <? length l1).
      - by replace (length l1 + S off - length rows) with 1 by lia.
      - by replace (length l1 + off - length rows) with 0 by lia. }
    rewrite Hdrop. change (Some (data_row d) :: (Some <$> (data_row <$> l2)) ++ fst rest)
      with ((Some <$> (data_row <$> d :: l2)) ++ fst rest).
    apply run_rows. apply data_loop_next; [lia|done].
Qed.

Lemma data_loop_early l : forall i parent, fst (data_loop EARLY i 0 parent l) = (Some <$> (data_row <$> l)) ++ [None].
Proof.
  induction l as [|d l IH]; intros i parent; [done|]. cbn [data_loop andb].
  specialize (IH (S i) (getParentNode d ≫= getParentNode)). destruct (data_loop _ _ _ _ l). cbn in *. by rewrite IH.
Qed.

(** The rows a state is initialised from. With late binding, a state whose
    data elements follow each other in the document finds exactly these; with
    early binding the root finds all of them, and no other state any. *)
Theorem data_rows_found :
  (forall l1 l2 l3 s, machine_binding scxml = LATE -> data_elements scxml = l1 ++ l2 ++ l3 ->
     l2 <> [] -> Forall (fun d => data_owner d = Some s) l2 -> (forall d, d ∈ l1 ++ l3 -> data_owner d <> Some s) ->
     exists k, dataIndex scxml s = Some k /\ rows_at (elem_datas scxml) k = data_row <$> l2) /\
  (forall s k, machine_binding scxml = EARLY -> dataIndex scxml s = Some k ->
     head (p_states scxml) = Some s /\ rows_at (elem_datas scxml) k = data_row <$> data_elements scxml).
Proof.
  unfold dataIndex, elem_datas. split.
  - intros l1 l2 l3 s -> Hds Hne Hl2 Hother. rewrite Hds. destruct l2 as [|d l2]; [done|].
    assert (Hcons : exists x l, l1 ++ (d :: l2) ++ l3 = x :: l) by (destruct l1; by do 2 eexists).
    destruct Hcons as (x & l & Hcons). destruct (data_rows_at l1 d l2 l3 s Hl2 Hother) as (k & Hk).
    exists k. by rewrite Hcons in Hk |- *.
  - intros s k ->. destruct (data_elements scxml) as [|d l]; [done|]. case_bool_decide; [|done].
    intros [= <-]. split; [done|]. unfold rows_at. rewrite drop_0, data_loop_early. by apply run_rows.
Qed.

(** ** Params *)

Lemma param_loop_same e l : forall i rest, Forall (fun p => getParentNode p = Some e) l ->
  param_loop i (Some e) (l ++ rest) =
    ((Some <$> (param_row <$> l)) ++ fst (param_loop (i + length l) (Some e) rest),
     snd (param_loop (i + length l) (Some e) rest)).
Proof.
  induction l as [|p l IH]; intros i rest Hl.
  - cbn [length app fmap list_fmap]. rewrite Nat.add_0_r. by destruct (param_loop _ _ _).
  - inversion Hl as [|? ? Hp Hl']; subst. cbn [app param_loop]. rewrite Hp.
    rewrite bool_decide_eq_true_2 by done. cbn [negb andb]. rewrite IH by done.
    cbn [length fmap list_fmap app]. by rewrite <- Nat.add_succ_comm.
Qed.

Lemma param_loop_keys l : forall i parent x, x ∈ snd (param_loop i parent l) ->
  exists p, p ∈ l /\ getParentNode p = Some (fst x).
Proof.
  induction l as [|p l IH]; intros i parent x; cbn [param_loop]; [by intros ?%elem_of_nil|].
  set (next := if negb _ then _ else _). specialize (IH (S i) next x).
  destruct (param_loop (S i) next l) as [rows index]. cbn [snd] in *.
  assert (Hrec : x ∈ index -> exists p0, p0 ∈ p :: l /\ getParentNode p0 = Some (fst x)).
  { intros Hx. destruct (IH Hx) as (q & Hq & Hk). exists q. split; [by right|done]. }
  destruct (getParentNode p) as [e|] eqn:Ep; [|exact Hrec]. destruct (negb _); [|exact Hrec].
  intros [->|Hx]%elem_of_cons; [|by apply Hrec]. exists p. split; [left|done].
Qed.

(** The index of the params does not count the separators: the first
    element with params finds its own, the second one finds the separator and
    so no params at all. *)
Theorem second_params_lost l1 l2 l3 e1 e2 : param_elements scxml = l1 ++ l2 ++ l3 ->
  l1 <> [] -> Forall (fun p => getParentNode p = Some e1) l1 ->
  l2 <> [] -> Forall (fun p => getParentNode p = Some e2) l2 ->
  e1 <> e2 -> (forall p, p ∈ l3 -> getParentNode p <> Some e1 /\ getParentNode p <> Some e2) ->
  paramIndex scxml e1 = Some 0 /\ rows_at (elem_params scxml) 0 = param_row <$> l1 /\
  exists k, paramIndex scxml e2 = Some k /\ rows_at (elem_params scxml) k = [].
Proof.
  intros Hps Hne1 Hl1 Hne2 Hl2 Hne Hl3. destruct l1 as [|p1 l1]; [done|]. destruct l2 as [|p2 l2]; [done|].
  apply Forall_cons in Hl1 as [Hp1 Hl1]. apply Forall_cons in Hl2 as [Hp2 Hl2].
  unfold paramIndex, elem_params. rewrite Hps.
  assert (Hout : exists rows index, param_loop 0 None ((p1 :: l1) ++ (p2 :: l2) ++ l3) =
    ((Some <$> (param_row <$> p1 :: l1)) ++ None :: rows, (e1, 0) :: (e2, S (length l1)) :: index) /\
    forall x, x ∈ index -> fst x <> e1 /\ fst x <> e2).
  { cbn [app param_loop]. rewrite Hp1. cbn [negb andb]. rewrite bool_decide_eq_false_2 by done. cbn [negb Nat.ltb Nat.leb andb].
    rewrite param_loop_same by done. cbn [app param_loop Nat.add]. rewrite Hp2. rewrite bool_decide_eq_false_2 by congruence.
    cbn [negb andb Nat.ltb Nat.leb]. rewrite param_loop_same by done. cbn [fst snd app].
    eexists _, _. split; [done|]. intros x (q & Hq & Hk)%param_loop_keys. destruct (Hl3 q Hq). split; congruence. }
  destruct Hout as (rows & index & Heq & Hidx). cbn [app] in Heq |- *. rewrite Heq. cbn [fst snd]. split_and!.
  - apply (last_set_app e1 [] _ 0). intros x [->|Hx]%elem_of_cons; [by apply not_eq_sym|]. by apply Hidx.
  - unfold rows_at. rewrite drop_0. by apply run_rows.
  - exists (S (length l1)). split.
    + apply (last_set_app e2 [(e1, 0)] _ (S (length l1))). intros x [->|Hx]%elem_of_cons; [done|]. by apply Hidx.
    + unfold rows_at. rewrite drop_app_ge by (rewrite !length_fmap; cbn; lia).
      rewrite !length_fmap. cbn [length]. by rewrite Nat.sub_diag.
Qed.

End Rows.

(** ** Delays *)

Lemma strTo_ulong_digits ds : ds <> [] -> Forall (fun c => is_digit c = true) ds ->
  strTo_ulong (implode ds) = Some (Z.min (decimal ds) (2 ^ 64 - 1))%Z.
Proof.
  intros Hne Hds. unfold strTo_ulong. rewrite explode_digits by done.
  destruct ds as [|c ds]; [done|]. by rewrite span_digits_all by done.
Qed.

(** A delay that is a whole number with the unit ms, s or none is printed
    as the number of milliseconds the interpreter waits, up to 2^32 - 1 of them
    and an hour of seconds. Others differ: fractions of a second are cut off,
    an unknown unit counts as milliseconds, units are case-sensitive. *)
Theorem printed_delay_agrees ds : ds <> [] -> Forall (fun c => is_digit c = true) ds ->
  (forall u, u ∈ [""; "ms"]%string -> (decimal ds < 2 ^ 32)%Z ->
     printed_delay (implode (ds ++ explode u)) = delay_ms (implode (ds ++ explode u))) /\
  ((decimal ds <= 3600)%Z -> printed_delay (implode (ds ++ explode "s")) = delay_ms (implode (ds ++ explode "s"))) /\
  (printed_delay "1.5s", delay_ms "1.5s") = (Some 1000%Z, Some 1500%Z) /\
  (printed_delay "10min", delay_ms "10min") = (Some 10%Z, Some 0%Z) /\
  (printed_delay "90S", delay_ms "90S") = (Some 90%Z, Some 90000%Z).
Proof.
  intros Hne Hds. pose proof (decimal_nonneg ds) as H0. split; [|split; [|by vm_compute]].
  - intros u Hu Hmax. rewrite delay_ms_millis; [|done|done|set_solver].
    assert (HF : Forall (fun c => num_char c = false /\ blank_char c = false) (explode u))
      by (repeat (apply elem_of_cons in Hu as [->|Hu]; [repeat constructor|]); by apply elem_of_nil in Hu).
    unfold printed_delay. rewrite parse_digits, implode_explode by done. cbn [na_unit na_value].
    rewrite strTo_ulong_digits by done. rewrite !Z.min_l by lia.
    repeat (apply elem_of_cons in Hu as [->|Hu]; [done|]). by apply elem_of_nil in Hu.
  - intros Hhour. rewrite delay_ms_seconds by done. unfold printed_delay.
    rewrite parse_digits; [|done|done|by repeat constructor]. cbn [na_unit na_value].
    change (String.eqb (implode (explode "s")) "ms") with false. cbn iota.
    change (String.eqb (implode (explode "s")) "s") with true. cbn iota.
    rewrite strTo_ulong_digits by done. cbn [mbind option_bind]. f_equal. rewrite Z.min_l by lia.
    rewrite Z.mod_small by lia. lia.
Qed.

Lemma printed_delay_agrees_witness : printed_delay (implode (explode "90" ++ explode "s")) = Some 90000%Z.
Proof.
  rewrite (proj1 (proj2 (printed_delay_agrees (explode "90") ltac:(done) ltac:(by repeat constructor))));
    [by vm_compute|]. vm_compute. discriminate.
Defined.
