(* ===== verification/CContent.v ===== *)
(** * The executable content of the emitted program

    [writeExecContent] prints a C function for every block of executable
    content. This file has the statements it prints as data, the translation
    from the document, and what the statements do when they run. [None] is
    output that does not compile. Scripts and guards of the native data model,
    which are C code themselves, are left out, and an unsupported element is
    skipped, as its assertion is compiled out. *)

From stdpp Require Import base list gmap strings.
From S2P Require Import Prelude Strings CBits Effects CStep Dom Predicates Chart CTables.

Local Open Scope nat_scope.

Definition USCXML_ERR_MISSING_CALLBACK : Z := 3.

(** ** The statements *)

(** Rows of foreach, assign and send elements are passed by their index. The
    guard of a branch is [None] for the last [else]. *)
Inductive Stmt :=
| SScript (src text : option string)
| SLog (label expr : option string)
| SForeach (row : nat) (body : list Stmt)
| SIf (branches : list (option (option string) * list Stmt))
| SAssign (row : nat)
| SRaise (event : option string)
| SSend (row : nat)
| SCancel (sendid sendidexpr : option string).

(** ** [writeExecContent(stream, node, indent)] *)

Section Write.
Context {node : Type} `{!EqDecision node} {D : DomOps node}.
Context (scxml : node).

(** The attribute documentOrder of a foreach, assign or send element. *)
Definition row_index (tag : string) (e : node) : option nat :=
  fst <$> list_find (fun x => x = e) (inDocumentOrder [XML_PREFIX scxml +:+ tag]%string scxml).

Definition is_tag (tag : string) (e : node) : bool := String.eqb (getTagName e) (XML_PREFIX e +:+ tag).

(** Text between the elements would be printed as code. *)
Definition only_blank_text (e : node) : bool := forallb (fun t => forallb ISWHITESPACE (explode t)) (textChildren e).

Definition script_text (e : node) : option string :=
  match textChildren e with
  | text :: _ => Some (if forallb ISWHITESPACE (explode text) then ""%string else text)
  | [] => None
  end.

(** The children of an if element, cut at [elseif] and [else]; a branch behind
    the last one does not compile. *)
Fixpoint if_branches (write : node -> option (list Stmt)) (guard : option (option string)) (children : list node)
    : option (list (option (option string) * list Stmt)) :=
  match children with
  | [] => Some [(guard, [])]
  | c :: children =>
      if String.eqb (getTagName c) "elseif" then
        match guard with
        | None => None
        | Some _ => rest ← if_branches write (Some (literal c "cond")) children; Some ((guard, []) :: rest)
        end
      else if String.eqb (getTagName c) "else" then
        match guard with
        | None => None
        | Some _ => rest ← if_branches write None children; Some ((guard, []) :: rest)
        end
      else
        s ← write c;
        rest ← if_branches write guard children;
        match rest with
        | (g, body) :: rest => Some ((g, s ++ body) :: rest)
        | [] => None
        end
  end.

Fixpoint writeExecContent_fuel (fuel : nat) (e : node) : option (list Stmt) :=
  match fuel with
  | 0 => None
  | S fuel =>
      let children := r ← mapM (writeExecContent_fuel fuel) (childElements e); Some (concat r) in
      if is_tag "onentry" e || is_tag "onexit" e || is_tag "transition" e || is_tag "finalize" e then
        if only_blank_text e then children else None
      else if is_tag "script" e then Some [SScript (literal e "src") (script_text e)]
      else if is_tag "log" e then Some [SLog (literal e "label") (literal e "expr")]
      else if is_tag "foreach" e then
        if only_blank_text e then i ← row_index "foreach" e; body ← children; Some [SForeach i body] else None
      else if is_tag "if" e then
        if only_blank_text e then
          branches ← if_branches (writeExecContent_fuel fuel) (Some (literal e "cond")) (childElements e);
          Some [SIf branches]
        else None
      else if is_tag "assign" e then i ← row_index "assign" e; Some [SAssign i]
      else if is_tag "raise" e then Some [SRaise (literal e "event")]
      else if is_tag "send" e then i ← row_index "send" e; Some [SSend i]
      else if is_tag "cancel" e then Some [SCancel (literal e "sendid") (literal e "sendidexpr")]
      else Some []
  end.

Definition writeExecContent (e : node) : option (list Stmt) := writeExecContent_fuel (S (nodeSize e)) e.

(** The blocks of a state with the given tag, one function each. *)
Definition blocks (tag : string) (state : node) : option (list (list Stmt)) :=
  mapM writeExecContent (filterChildElements (XML_PREFIX state +:+ tag) state false).

(** The body of the function for a transition. *)
Definition transition_block (t : node) : option (list Stmt) :=
  r ← mapM writeExecContent (childElements t); Some (concat r).

End Write.

(** ** Running the statements *)

(** The callbacks the statements use, each of which may be missing. *)
Class ContentCallbacks (Ev W : Type) := {
  is_true : option (uscxml_ctx Ev -> option string -> W -> Z * W);
  exec_content_script : option (uscxml_ctx Ev -> option string -> option string -> W -> Z * W);
  exec_content_log : option (uscxml_ctx Ev -> option string -> option string -> W -> Z * W);
  exec_content_foreach_init : option (uscxml_ctx Ev -> nat -> W -> Z * W);
  exec_content_foreach_next : option (uscxml_ctx Ev -> nat -> W -> Z * W);
  exec_content_foreach_done : option (uscxml_ctx Ev -> nat -> W -> Z * W);
  exec_content_assign : option (uscxml_ctx Ev -> nat -> W -> Z * W);
  exec_content_raise : option (uscxml_ctx Ev -> option string -> W -> Z * W);
  exec_content_send : option (uscxml_ctx Ev -> nat -> W -> Z * W);
  exec_content_cancel : option (uscxml_ctx Ev -> option string -> option string -> W -> Z * W);
}.

(** How a block is left before its end. *)
Inductive Leave :=
| Returned (code : Z)
| LoopLimit.

Section Run.
Context {Ev W : Type} {CC : ContentCallbacks Ev W} (x : uscxml_ctx Ev) (limit : nat).

(** The variable [err] and the rest of the world. *)
Definition Block (A : Type) : Type := M Leave (Z * W) A.

Definition callback (f : W -> Z * W) : Block Z := fun '(err, s) => let '(r, s') := f s in (inr r, (err, s')).
Definition get_err : Block Z := fun s => (inr (fst s), s).
Definition set_err (r : Z) : Block unit := modify (fun '(_, s) => (r, s)).

(** [return err;] *)
Definition return_err {A} : Block A := err ← get_err; throw (Returned err).

(** [if likely(f != NULL) { if (f(...) != USCXML_ERR_OK) return err; } else return USCXML_ERR_MISSING_CALLBACK;] *)
Definition call_or_leave (f : option (W -> Z * W)) : Block unit :=
  match f with
  | Some f => r ← callback f; if (r =? USCXML_ERR_OK)%Z then mret tt else return_err
  | None => throw (Returned USCXML_ERR_MISSING_CALLBACK)
  end.

(** [while (next(...) == USCXML_ERR_OK) { body }] *)
Fixpoint while_next (fuel : nat) (next : W -> Z * W) (body : Block unit) : Block unit :=
  match fuel with
  | 0 => throw LoopLimit
  | S fuel =>
      r ← callback next;
      if (r =? USCXML_ERR_OK)%Z then body;; while_next fuel next body else mret tt
  end.

Definition run_list (run : Stmt -> Block unit) : list Stmt -> Block unit :=
  fix go l := match l with [] => mret tt | s :: l => run s;; go l end.

(** [if (is_true(...)) { ... } else if (is_true(...)) { ... } else { ... }] *)
Definition run_branches (run : Stmt -> Block unit) (test : option string -> W -> Z * W)
    : list (option (option string) * list Stmt) -> Block unit :=
  fix go l :=
    match l with
    | [] => mret tt
    | (None, body) :: _ => run_list run body
    | (Some cond, body) :: l =>
        r ← callback (test cond);
        if (r =? 0)%Z then go l else run_list run body
    end.

Fixpoint run_stmt (stmt : Stmt) : Block unit :=
  match stmt with
  | SScript src text =>
      match exec_content_script with
      | Some f =>
          r ← callback (f x src text);
          set_err r;;
          if (r =? USCXML_ERR_OK)%Z then mret tt else return_err
      | None => throw (Returned USCXML_ERR_MISSING_CALLBACK)
      end
  | SLog label expr => call_or_leave ((fun f => f x label expr) <$> exec_content_log)
  | SForeach row body =>
      match exec_content_foreach_init, exec_content_foreach_next, exec_content_foreach_done with
      | Some init, Some next, Some done =>
          call_or_leave (Some (init x row));;
          while_next limit (next x row) (run_list run_stmt body);;
          call_or_leave (Some (done x row))
      | _, _, _ => throw (Returned USCXML_ERR_MISSING_CALLBACK)
      end
  | SIf branches =>
      match is_true with
      | Some test => run_branches run_stmt (test x) branches
      | None => throw (Returned USCXML_ERR_MISSING_CALLBACK)
      end
  | SAssign row => call_or_leave ((fun f => f x row) <$> exec_content_assign)
  | SRaise event => call_or_leave ((fun f => f x event) <$> exec_content_raise)
  | SSend row => call_or_leave ((fun f => f x row) <$> exec_content_send)
  | SCancel sendid sendidexpr => call_or_leave ((fun f => f x sendid sendidexpr) <$> exec_content_cancel)
  end.

(** [int err = USCXML_ERR_OK; ... return USCXML_ERR_OK;] *)
Definition run_block (block : list Stmt) (s : W) : option Z * W :=
  match run_list run_stmt block (USCXML_ERR_OK, s) with
  | (inr _, (_, s')) => (Some USCXML_ERR_OK, s')
  | (inl (Returned code), (_, s')) => (Some code, s')
  | (inl LoopLimit, (_, s')) => (None, s')
  end.

(** The functions for onentry, onexit and global scripts call their blocks
    one after the other and do not look at the results. *)
Fixpoint run_blocks (bs : list (list Stmt)) (s : W) : option Z * W :=
  match bs with
  | [] => (Some USCXML_ERR_OK, s)
  | b :: bs =>
      match run_block b s with
      | (Some _, s') => run_blocks bs s'
      | (None, s') => (None, s')
      end
  end.

(** The function is_enabled of a transition. *)
Definition run_is_enabled (cond : string) (s : W) : Z * W :=
  match is_true with
  | Some test => test x (Some cond) s
  | None => (USCXML_ERR_MISSING_CALLBACK, s)
  end.

End Run.
