(* ===== verification/CContentTheorems.v ===== *)
(** * What the printed executable content does

    Errors end a block but are not reported, the blocks of a state never
    report any, and loops over finite collections end. *)

From stdpp Require Import base list gmap strings.
From S2P Require Import Prelude Strings CBits Effects CStep Dom Predicates Chart CTables CContent.

Local Open Scope nat_scope.

(** Induction over statements and the lists of statements in them. *)
Section StmtInd.
Context (P : Stmt -> Prop).
Context (Hscript : forall src text, P (SScript src text)) (Hlog : forall l e, P (SLog l e)).
Context (Hforeach : forall row body, Forall P body -> P (SForeach row body)).
Context (Hif : forall branches, Forall (fun b => Forall P (snd b)) branches -> P (SIf branches)).
Context (Hassign : forall row, P (SAssign row)) (Hraise : forall e, P (SRaise e)).
Context (Hsend : forall row, P (SSend row)) (Hcancel : forall i e, P (SCancel i e)).

Fixpoint stmt_ind' (s : Stmt) : P s :=
  let all := fix all l : Forall P l :=
    match l with [] => Forall_nil_2 _ | s :: l => Forall_cons_2 _ _ _ (stmt_ind' s) (all l) end in
  match s with
  | SScript src text => Hscript src text
  | SLog l e => Hlog l e
  | SForeach row body => Hforeach row body (all body)
  | SIf branches => Hif branches
      ((fix go l : Forall (fun b => Forall P (snd b)) l :=
          match l with [] => Forall_nil_2 _ | b :: l => Forall_cons_2 _ _ _ (all (snd b)) (go l) end) branches)
  | SAssign row => Hassign row
  | SRaise e => Hraise e
  | SSend row => Hsend row
  | SCancel i e => Hcancel i e
  end.

End StmtInd.

Section Run.
Context {Ev W : Type} {CC : ContentCallbacks Ev W} (x : uscxml_ctx Ev) (limit : nat).
Abbreviation run := (run_stmt x limit).
Abbreviation BK := (@Block W).

Lemma run_list_app l1 l2 st : run_list run (l1 ++ l2) st =
  match run_list run l1 st with (inr _, st') => run_list run l2 st' | (inl e, st') => (inl e, st') end.
Proof.
  revert st. induction l1 as [|s l1 IH]; intros st; [done|]. cbn [app run_list].
  unfold mbind, M_bind. destruct (run s st) as [[e|[]] st']; [done|]. apply IH.
Qed.

(** ** Errors *)

(** A block goes on only with [err] at success. *)
Definition clean {A} (c : BK A) : Prop := forall s,
  match c (USCXML_ERR_OK, s) with (inr _, (err, _)) => err = USCXML_ERR_OK | _ => True end.

Lemma clean_ret {A} (a : A) : clean (mret a : BK A).
Proof. done. Qed.

Lemma clean_bind {A B} (c : BK A) (f : A -> BK B) : clean c -> (forall a, clean (f a)) -> clean (c ≫= f).
Proof.
  intros Hc Hf s. specialize (Hc s). unfold mbind, M_bind. destruct (c (USCXML_ERR_OK, s)) as [[e|a] [err s']]; [done|].
  subst err. apply Hf.
Qed.

Lemma clean_throw {A} e : clean (throw e : BK A).
Proof. done. Qed.

Lemma clean_return {A} : clean (return_err : BK A).
Proof. done. Qed.

Lemma clean_callback f : clean (callback f).
Proof. intros s. unfold callback. by destruct (f s). Qed.

#[local] Hint Resolve clean_ret clean_throw clean_return clean_callback : uscxml.

Lemma clean_call f : clean (call_or_leave f).
Proof.
  unfold call_or_leave. destruct f as [f|]; [|auto with uscxml]. apply clean_bind; [auto with uscxml|].
  intros r. destruct (_ =? _)%Z; auto with uscxml.
Qed.

Lemma clean_while next body fuel : clean body -> clean (while_next fuel next body).
Proof.
  intros Hb. induction fuel as [|fuel IH]; [apply clean_throw|]. cbn [while_next].
  apply clean_bind; [auto with uscxml|]. intros r. destruct (_ =? _)%Z; [|auto with uscxml].
  by apply clean_bind.
Qed.

Lemma clean_list l : Forall (fun s => clean (run s)) l -> clean (run_list run l).
Proof. induction 1 as [|s l Hs _ IH]; [apply clean_ret|]. by apply (clean_bind (run s)). Qed.

Lemma clean_stmt s : clean (run s).
Proof.
  induction s as [src text|l e|row body IH|branches IH|row|e|row|i e] using stmt_ind'; cbn [run_stmt].
  - destruct exec_content_script as [f|]; [|apply clean_throw]. intros s. unfold mbind, M_bind, callback.
    destruct (f x src text s) as [r s']. cbn. destruct (Z.eqb_spec r USCXML_ERR_OK); [done|]. done.
  - apply clean_call.
  - destruct exec_content_foreach_init; [|apply clean_throw]. destruct exec_content_foreach_next; [|apply clean_throw].
    destruct exec_content_foreach_done; [|apply clean_throw]. apply clean_bind; [apply clean_call|intros _].
    apply clean_bind; [apply clean_while; by apply clean_list|intros _; apply clean_call].
  - destruct is_true as [test|]; [|apply clean_throw]. induction IH as [|[[c|] body] l Hb _ IHl]; [apply clean_ret| |].
    + cbn [run_branches]. apply clean_bind; [apply clean_callback|]. intros r. destruct (_ =? _)%Z; [exact IHl|by apply clean_list].
    + cbn [run_branches]. by apply clean_list.
  - apply clean_call.
  - apply clean_call.
  - apply clean_call.
  - apply clean_call.
Qed.

(** What a failing callback of a statement without inner statements leaves. *)
Definition fails (stmt : Stmt) (s : W) (s' : W) : Prop := exists f r,
  match stmt with
  | SLog label expr => (fun f => f x label expr) <$> exec_content_log
  | SAssign row => (fun f => f x row) <$> exec_content_assign
  | SRaise event => (fun f => f x event) <$> exec_content_raise
  | SSend row => (fun f => f x row) <$> exec_content_send
  | SCancel sendid sendidexpr => (fun f => f x sendid sendidexpr) <$> exec_content_cancel
  | SForeach row _ =>
      match exec_content_foreach_next, exec_content_foreach_done with
      | Some _, Some _ => (fun f => f x row) <$> exec_content_foreach_init
      | _, _ => None
      end
  | _ => None
  end = Some f /\ f s = (r, s') /\ r <> USCXML_ERR_OK.

(** When the callback of a log, assign, raise, send or cancel element or
    of the start of a foreach element fails, the rest of its block is skipped,
    and the block returns the code for success: the code of the callback is
    compared, but never stored in [err]. *)
Theorem failure_reported_as_success before stmt after s s1 s2 :
  run_block x limit before s = (Some USCXML_ERR_OK, s1) ->
  fst (run_list run before (USCXML_ERR_OK, s)) = inr tt ->
  fails stmt s1 s2 ->
  run_block x limit (before ++ stmt :: after) s = (Some USCXML_ERR_OK, s2).
Proof.
  intros Hb Hend (f & r & Hf & Hr & Hne). unfold run_block in *. rewrite run_list_app.
  pose proof (clean_list before ltac:(apply Forall_forall; intros; apply clean_stmt) s) as Hclean.
  destruct (run_list run before (USCXML_ERR_OK, s)) as [res [err s']]. cbn in Hend. subst res err.
  injection Hb as ->. apply Z.eqb_neq in Hne.
  assert (Hrun : run stmt (USCXML_ERR_OK, s1) = (inl (Returned USCXML_ERR_OK), (USCXML_ERR_OK, s2))).
  { assert (Hcall : call_or_leave (Some f) (USCXML_ERR_OK, s1) = (inl (Returned USCXML_ERR_OK), (USCXML_ERR_OK, s2))).
    { unfold call_or_leave, mbind, M_bind, callback. rewrite Hr, Hne. done. }
    destruct stmt; try done; cbn [run_stmt]; [by rewrite Hf| |by rewrite Hf..].
    destruct exec_content_foreach_next; [|done]. destruct exec_content_foreach_done; [|done].
    destruct exec_content_foreach_init; [|done]. injection Hf as <-. unfold mbind, M_bind at 1. by rewrite Hcall. }
  cbn [run_list]. unfold mbind, M_bind. by rewrite Hrun.
Qed.

(** The functions for onentry and onexit return success or not at all. *)
Lemma blocks_succeed bs s : match fst (run_blocks x limit bs s) with Some code => code = USCXML_ERR_OK | None => True end.
Proof.
  revert s. induction bs as [|b bs IH]; intros s; [done|]. cbn [run_blocks].
  destruct (run_block x limit b s) as [[code|] s']; [apply IH|done].
Qed.

(** ** Loops end *)

Context (budget : nat -> W -> nat).

(** No callback but the start of its own loop adds to the rounds left of a
    foreach element, and every round takes one. *)
Definition spends {A} (f : W -> A * W) (except : option nat) : Prop :=
  forall s row, except <> Some row -> budget row (snd (f s)) <= budget row s.

Class BoundedLoops : Prop := {
  bl_limit row s : budget row s < limit;
  bl_next f row s s' : exec_content_foreach_next = Some f -> f x row s = (USCXML_ERR_OK, s') -> budget row s' < budget row s;
  bl_true f c : is_true = Some f -> spends (f x c) None;
  bl_script f c t : exec_content_script = Some f -> spends (f x c t) None;
  bl_log f l e : exec_content_log = Some f -> spends (f x l e) None;
  bl_init f row : exec_content_foreach_init = Some f -> spends (f x row) (Some row);
  bl_step f row : exec_content_foreach_next = Some f -> spends (f x row) None;
  bl_done f row : exec_content_foreach_done = Some f -> spends (f x row) None;
  bl_assign f row : exec_content_assign = Some f -> spends (f x row) None;
  bl_raise f e : exec_content_raise = Some f -> spends (f x e) None;
  bl_send f row : exec_content_send = Some f -> spends (f x row) None;
  bl_cancel f i e : exec_content_cancel = Some f -> spends (f x i e) None;
}.

(** No foreach element inside of itself. *)
Fixpoint well_nested (outer : list nat) (stmt : Stmt) : Prop :=
  match stmt with
  | SForeach row body => row ∉ outer /\ (fix all l := match l with [] => True | s :: l => well_nested (row :: outer) s /\ all l end) body
  | SIf branches =>
      (fix each bs := match bs with
       | [] => True
       | b :: bs => (fix all l := match l with [] => True | s :: l => well_nested outer s /\ all l end) (snd b) /\ each bs
       end) branches
  | _ => True
  end.

Fixpoint all_nested (outer : list nat) (l : list Stmt) : Prop :=
  match l with [] => True | s :: l => well_nested outer s /\ all_nested outer l end.

(** Ends, and leaves the surrounding loops no more rounds than before. *)
Definition good (outer : list nat) {A} (c : BK A) : Prop := forall st,
  fst (c st) <> inl LoopLimit /\ forall row, row ∈ outer -> budget row (snd (snd (c st))) <= budget row (snd st).

Lemma sound_block_ret outer {A} (a : A) : good outer (mret a : BK A).
Proof. by intros st. Qed.

Lemma good_return outer {A} code : good outer (throw (Returned code) : BK A).
Proof. by intros st. Qed.

Lemma good_return_err outer {A} : good outer (return_err : BK A).
Proof. by intros st. Qed.

Lemma sound_block_bind outer {A B} (c : BK A) (f : A -> BK B) :
  good outer c -> (forall a, good outer (f a)) -> good outer (c ≫= f).
Proof.
  intros Hc Hf st. specialize (Hc st). unfold mbind, M_bind. destruct (c st) as [[e|a] st']; cbn [fst snd] in *.
  - destruct Hc as [Hne Hb]. split; [|done]. intros [= ->]. done.
  - destruct Hc as [_ Hb]. destruct (Hf a st') as [Hne Hb']. split; [done|]. intros row Hr.
    specialize (Hb row Hr). specialize (Hb' row Hr). lia.
Qed.

Lemma good_callback outer f except : spends f except -> (forall row, except = Some row -> row ∉ outer) -> good outer (callback f).
Proof.
  intros Hf Hex [err s]. unfold callback. specialize (Hf s). destruct (f s) as [r s']. cbn [fst snd] in *.
  split; [done|]. intros row Hr. apply Hf. intros He. by apply (Hex row He).
Qed.

Lemma good_set_err outer r : good outer (set_err r : BK unit).
Proof. by intros [err s]. Qed.

Lemma good_call outer f except : (forall g, f = Some g -> spends g except) -> (forall row, except = Some row -> row ∉ outer) ->
  good outer (call_or_leave f).
Proof.
  intros Hf Hex. unfold call_or_leave. destruct f as [f|]; [|apply good_return].
  apply sound_block_bind; [by apply (good_callback outer f except); [apply Hf|]|].
  intros r. destruct (_ =? _)%Z; [apply sound_block_ret|apply good_return_err].
Qed.

Lemma well_nested_foreach outer row body :
  well_nested outer (SForeach row body) <-> row ∉ outer /\ all_nested (row :: outer) body.
Proof.
  cbn [well_nested]. apply and_iff_compat_l. induction body as [|s l IH]; [done|]. by rewrite IH.
Qed.

Lemma well_nested_if outer branches :
  well_nested outer (SIf branches) <-> Forall (fun b => all_nested outer (snd b)) branches.
Proof.
  cbn [well_nested]. induction branches as [|b bs IH]; [by rewrite Forall_nil|]. rewrite Forall_cons, <- IH.
  apply and_iff_compat_r. induction (snd b) as [|s l IHl]; [done|]. by rewrite IHl.
Qed.

Lemma good_list outer l : Forall (fun s => forall o, well_nested o s -> good o (run s)) l ->
  all_nested outer l -> good outer (run_list run l).
Proof.
  induction 1 as [|s l Hs _ IH]; [intros _; apply sound_block_ret|]. intros [Hn Hl].
  apply (sound_block_bind outer (run s)); [by apply Hs|]. intros _. by apply IH.
Qed.

Context {BL : BoundedLoops}.

Lemma good_while outer row next body : exec_content_foreach_next = Some next -> row ∉ outer ->
  good (row :: outer) body ->
  forall fuel err s, budget row s < fuel ->
    fst (while_next fuel (next x row) body (err, s)) <> inl LoopLimit /\
    forall r, r ∈ row :: outer -> budget r (snd (snd (while_next fuel (next x row) body (err, s)))) <= budget r s.
Proof.
  intros Hnext Hrow Hbody. induction fuel as [|fuel IH]; intros err s Hf; [lia|]. cbn [while_next].
  pose proof (bl_step next row Hnext s) as Hstep. unfold mbind, M_bind, callback.
  destruct (next x row s) as [r s1] eqn:Er. cbn [fst snd] in Hstep.
  destruct (Z.eqb_spec r USCXML_ERR_OK) as [->|].
  2:{ split; [done|]. intros r' _. by apply Hstep. }
  pose proof (bl_next next row s s1 Hnext Er) as Hlt. specialize (Hbody (err, s1)).
  destruct (body (err, s1)) as [[e|[]] [err' s2]] eqn:Eb; cbn [fst snd] in *.
  - destruct Hbody as [Hne Hb]. split; [intros [= ->]; done|]. intros r' Hr. specialize (Hb r' Hr).
    specialize (Hstep r' ltac:(done)). lia.
  - destruct Hbody as [_ Hb]. pose proof (Hb row ltac:(left)) as Hbrow.
    destruct (IH err' s2 ltac:(lia)) as [Hne Hrest]. split; [exact Hne|].
    intros r' Hr. specialize (Hb r' Hr). specialize (Hrest r' Hr). specialize (Hstep r' ltac:(done)). lia.
Qed.

Lemma good_stmt s : forall outer, well_nested outer s -> good outer (run s).
Proof.
  assert (Hleaf : forall {A} (cb : option A) (g : A -> W -> Z * W) outer,
    (forall f, cb = Some f -> spends (g f) None) -> good outer (call_or_leave (g <$> cb))).
  { intros A cb g outer Hcb. apply (good_call outer _ None); [|done]. destruct cb as [f|]; [|done]. intros h [= <-]. by apply Hcb. }
  induction s as [src text|l e|row body IH|branches IH|row|e|row|i e] using stmt_ind'; intros outer Hn; cbn [run_stmt].
  - destruct exec_content_script as [f|] eqn:Ef; [|apply good_return].
    apply sound_block_bind; [apply (good_callback outer _ None); [by apply bl_script|done]|]. intros r.
    apply sound_block_bind; [apply good_set_err|intros _]. destruct (_ =? _)%Z; [apply sound_block_ret|apply good_return_err].
  - apply Hleaf. intros f. apply bl_log.
  - apply well_nested_foreach in Hn as [Hrow Hbody].
    destruct exec_content_foreach_init as [init|] eqn:Ei; [|apply good_return].
    destruct exec_content_foreach_next as [next|] eqn:En; [|apply good_return].
    destruct exec_content_foreach_done as [fin|] eqn:Ed; [|apply good_return].
    apply sound_block_bind; [apply (good_call outer _ (Some row)); [intros g [= <-]; by apply bl_init|by intros r [= <-]]|intros _].
    apply sound_block_bind.
    + intros [err s]. destruct (good_while outer row next _ En Hrow (good_list _ body IH Hbody) limit err s (bl_limit row s)) as [Hne Hr].
      split; [exact Hne|]. intros r Hin. apply Hr. by right.
    + intros _. apply (good_call outer _ None); [intros g [= <-]; by apply bl_done|done].
  - apply well_nested_if in Hn. destruct is_true as [test|] eqn:Et; [|apply good_return].
    induction IH as [|[[c|] body] l Hb _ IHl]; [apply sound_block_ret| |]; apply Forall_cons in Hn as [Hn Hns]; cbn [run_branches].
    + apply sound_block_bind; [apply (good_callback outer _ None); [by apply bl_true|done]|]. intros r.
      destruct (_ =? _)%Z; [by apply IHl|by apply good_list].
    + by apply good_list.
  - apply Hleaf. intros f. apply bl_assign.
  - apply Hleaf. intros f. apply bl_raise.
  - apply Hleaf. intros f. apply bl_send.
  - apply Hleaf. intros f. apply bl_cancel.
Qed.

Lemma block_returns block s : all_nested [] block -> is_Some (fst (run_block x limit block s)).
Proof.
  intros Hn. pose proof (good_list [] block ltac:(apply Forall_forall; intros; by apply good_stmt) Hn (USCXML_ERR_OK, s)) as [Hne _].
  unfold run_block. destruct (run_list run block (USCXML_ERR_OK, s)) as [[[code|]|[]] [err s']]; cbn in *;
    [by eexists|done|by eexists].
Qed.

Lemma blocks_return bs s : Forall (all_nested []) bs -> is_Some (fst (run_blocks x limit bs s)).
Proof.
  intros Hbs. revert s. induction Hbs as [|b bs Hb _ IH]; intros s; [by eexists|]. cbn [run_blocks].
  pose proof (block_returns b s Hb) as [code Hc]. destruct (run_block x limit b s) as [[c|] s']; [apply IH|done].
Qed.

End Run.

(** ** What the transformer prints is well nested *)

Section Written.
Context {node : Type} `{!EqDecision node} {D : DomOps node} {DL : DomLaws node}.
Context (scxml : node).

(** The rows of the foreach elements around an element. *)
Definition outer_of (outer : list nat) (e : node) : Prop := forall i, i ∈ outer ->
  exists a, a ∈ parents e /\ row_index scxml "foreach" a = Some i.

Lemma row_index_inj tag a b i : row_index scxml tag a = Some i -> row_index scxml tag b = Some i -> a = b.
Proof.
  unfold row_index. intros ([j y] & Ha & ->)%fmap_Some ([j' z] & Hb & Hj)%fmap_Some. cbn in Hj. subst j'.
  apply list_find_Some in Ha as (Ha & -> & _). apply list_find_Some in Hb as (Hb & -> & _). congruence.
Qed.

Lemma all_nested_app outer l1 l2 : all_nested outer (l1 ++ l2) <-> all_nested outer l1 /\ all_nested outer l2.
Proof. induction l1 as [|s l1 IH]; cbn; [tauto|]. rewrite IH. tauto. Qed.

Lemma all_nested_concat outer ls : Forall (all_nested outer) ls -> all_nested outer (concat ls).
Proof. induction 1 as [|l ls Hl _ IH]; [done|]. cbn. by apply all_nested_app. Qed.

Lemma if_branches_nested write outer cs : forall guard branches,
  (forall c s, c ∈ cs -> write c = Some s -> all_nested outer s) ->
  if_branches write guard cs = Some branches -> Forall (fun b => all_nested outer (snd b)) branches.
Proof.
  induction cs as [|c cs IH]; intros guard branches Hw; cbn [if_branches].
  { intros [= <-]. by repeat constructor. }
  assert (Hw' : forall c0 s, c0 ∈ cs -> write c0 = Some s -> all_nested outer s) by (intros c0 s Hc; apply Hw; by right).
  destruct (String.eqb _ "elseif"); [|destruct (String.eqb _ "else")].
  - destruct guard; [|done]. intros (rest & Hr & [= <-])%bind_Some. constructor; [done|]. by eapply IH.
  - destruct guard; [|done]. intros (rest & Hr & [= <-])%bind_Some. constructor; [done|]. by eapply IH.
  - intros (s & Hs & (rest & Hr & Hb)%bind_Some)%bind_Some. apply IH in Hr; [|done].
    destruct rest as [|[g body] rest]; [done|]. injection Hb as <-. apply Forall_cons in Hr as [Hbody Hrest].
    constructor; [|done]. cbn. apply all_nested_app. split; [|done]. apply (Hw c s); [left|done].
Qed.

Lemma written_nested fuel : forall e outer stmts, outer_of outer e ->
  writeExecContent_fuel scxml fuel e = Some stmts -> all_nested outer stmts.
Proof.
  induction fuel as [|fuel IH]; intros e outer stmts Ho; [done|]. cbn [writeExecContent_fuel].
  assert (Hchild : forall c o, c ∈ childElements e -> (forall i, i ∈ o -> i ∈ outer \/ row_index scxml "foreach" e = Some i) -> outer_of o c).
  { intros c o Hc Hin i [Hi|Hi]%Hin; rewrite (parents_child e c Hc).
    - destruct (Ho i Hi) as (a & Ha & Hr). exists a. split; [by right|done].
    - exists e. split; [by left|done]. }
  assert (Hchildren : forall o r, (forall i, i ∈ o -> i ∈ outer \/ row_index scxml "foreach" e = Some i) ->
    mapM (writeExecContent_fuel scxml fuel) (childElements e) = Some r -> all_nested o (concat r)).
  { intros o r Hin Hr. apply all_nested_concat. apply mapM_Some in Hr. apply Forall_forall. intros l Hl.
    apply list_elem_of_lookup in Hl as (k & Hk). destruct (Forall2_lookup_r _ _ _ k l Hr Hk) as (c & Hc & Hw).
    apply (IH c); [|done]. apply Hchild; [by eapply list_elem_of_lookup_2|done]. }
  destruct (_ || _ || _ || _).
  { destruct (only_blank_text e); [|done]. intros (r & Hr & [= <-])%bind_Some. apply Hchildren; [auto|done]. }
  destruct (is_tag "script" e); [by intros [= <-]|]. destruct (is_tag "log" e); [by intros [= <-]|].
  destruct (is_tag "foreach" e).
  { destruct (only_blank_text e); [|done]. intros (i & Hi & (body & (r & Hr & [= <-])%bind_Some & [= <-])%bind_Some)%bind_Some.
    split; [|done]. apply well_nested_foreach. split.
    - intros Hin. destruct (Ho i Hin) as (a & Ha & Hai). pose proof (row_index_inj _ _ _ _ Hi Hai) as ->.
      by apply parents_irrefl in Ha.
    - apply Hchildren; [|done]. intros j [->|Hj]%elem_of_cons; auto. }
  destruct (is_tag "if" e).
  { destruct (only_blank_text e); [|done]. intros (bs & Hb & [= <-])%bind_Some. split; [|done]. apply well_nested_if.
    eapply if_branches_nested; [|exact Hb]. intros c s Hc Hw. apply (IH c); [|done]. apply Hchild; auto. }
  destruct (is_tag "assign" e); [by intros (i & _ & [= <-])%bind_Some|].
  destruct (is_tag "raise" e); [by intros [= <-]|].
  destruct (is_tag "send" e); [by intros (i & _ & [= <-])%bind_Some|].
  destruct (is_tag "cancel" e); by intros [= <-].
Qed.

(** As long as every foreach callback runs out of items, the functions
    printed for the content of a state or a transition return, and those of a
    state return success, whatever their blocks returned. *)
Theorem printed_content_returns {Ev W : Type} {CC : ContentCallbacks Ev W} (x : uscxml_ctx Ev) limit
    (budget : nat -> W -> nat) {BL : BoundedLoops x limit budget} tag state t bs block s :
  blocks scxml tag state = Some bs -> transition_block scxml t = Some block ->
  fst (run_blocks x limit bs s) = Some USCXML_ERR_OK /\ is_Some (fst (run_block x limit block s)).
Proof.
  assert (Hnone : forall e, outer_of [] e) by (intros e i Hi; by apply elem_of_nil in Hi).
  intros Hbs Hblock. split.
  - pose proof (blocks_succeed x limit bs s) as Hok.
    destruct (blocks_return x limit budget (BL := BL) bs s) as [code Hc]; [|rewrite Hc in Hok |- *; by f_equal].
    apply mapM_Some in Hbs. apply Forall_forall. intros b (k & Hk)%list_elem_of_lookup.
    destruct (Forall2_lookup_r _ _ _ k b Hbs Hk) as (e & _ & He). by eapply written_nested.
  - apply (block_returns x limit budget (BL := BL)). apply bind_Some in Hblock as (r & Hr & [= <-]).
    apply all_nested_concat. apply mapM_Some in Hr. apply Forall_forall. intros b (k & Hk)%list_elem_of_lookup.
    destruct (Forall2_lookup_r _ _ _ k b Hr Hk) as (e & _ & He). by eapply written_nested.
Qed.

End Written.

(** ** Samples *)

Module ContentSample.

(** A world that counts the rounds left of each foreach element and the log
    entries written; sending fails. *)
Definition Counters : Type := gmap nat nat * nat.

Definition rounds (row : nat) (s : Counters) : nat := Nat.min 3 (default 0 (fst s !! row)).

#[export] Instance failing_send : ContentCallbacks Ascii.ascii Counters := {|
  is_true := Some (fun _ _ s => (1%Z, s));
  exec_content_script := None;
  exec_content_log := Some (fun _ _ _ s => (USCXML_ERR_OK, (fst s, S (snd s))));
  exec_content_foreach_init := Some (fun _ row s => (USCXML_ERR_OK, (<[row := 3]> (fst s), snd s)));
  exec_content_foreach_next := Some (fun _ row s =>
    match rounds row s with
    | 0 => (4%Z, s)
    | S n => (USCXML_ERR_OK, (<[row := n]> (fst s), snd s))
    end);
  exec_content_foreach_done := Some (fun _ _ s => (USCXML_ERR_OK, s));
  exec_content_assign := None;
  exec_content_raise := None;
  exec_content_send := Some (fun _ _ s => (5%Z, s));
  exec_content_cancel := None;
|}.

Definition nowhere : uscxml_ctx Ascii.ascii := mkUscxmlCtx 0 [] [] [] [] None.

Lemma rounds_insert row row' n s : rounds row' (<[row := n]> (fst s), snd s) = (if decide (row = row') then Nat.min 3 n else rounds row' s).
Proof.
  unfold rounds. cbn [fst]. destruct (decide (row = row')) as [->|Hne].
  - by rewrite lookup_insert_eq.
  - by rewrite lookup_insert_ne.
Qed.

Lemma rounds_bounded : BoundedLoops nowhere 4 rounds.
Proof.
  assert (Hsame : forall A (a : A) e, spends rounds (fun s : Counters => (a, s)) e) by (intros A a e s row _; apply Nat.le_refl).
  split; try (intros; done).
  - intros row s. unfold rounds. lia.
  - intros f row s s' [= <-]. cbv beta. destruct (rounds row s) as [|n] eqn:Er; [by intros [= ?]|]. intros [= <-].
    rewrite rounds_insert, decide_True by done. lia.
  - intros f c [= <-]. apply Hsame.
  - intros f l e [= <-] s row _. apply Nat.le_refl.
  - intros f row [= <-] s row' Hne. cbv beta. cbn [snd]. rewrite rounds_insert, decide_False; [lia|]. intros ->. done.
  - intros f row [= <-] s row' _. cbv beta. destruct (rounds row s) as [|n] eqn:Er; [apply Nat.le_refl|]. cbn [snd].
    rewrite rounds_insert. destruct (decide (row = row')) as [->|]; lia.
  - intros f row [= <-]. apply Hsame.
  - intros f row [= <-]. apply Hsame.
Qed.

Lemma failure_reported_as_success_witness :
  run_block nowhere 4 [SLog None None; SSend 0; SLog None None] (∅, 0) = (Some USCXML_ERR_OK, (∅, 1)).
Proof.
  apply (failure_reported_as_success nowhere 4 [SLog None None] (SSend 0) [SLog None None] (∅, 0) (∅, 1)).
  - done.
  - done.
  - by exists (fun s => (5%Z, s)), 5%Z.
Defined.

Definition loop_doc : list row := rows
  (Xml "scxml" [] []
    [Xml "state" [("id", "a")] []
      [Xml "onentry" [] []
         [Xml "foreach" [("array", "xs"); ("item", "x")] []
           [Xml "log" [("expr", "x")] [] []; Xml "if" [("cond", "c")] [] [Xml "log" [] [] []; Xml "else" [] [] []]]];
       Xml "transition" [("event", "e")] [] [Xml "send" [("event", "f")] [] []]]]).

Definition loop_dom : DomOps nat := table_dom loop_doc.
Definition loop_laws : @DomLaws nat loop_dom := table_laws loop_doc eq_refl.

Definition entry_blocks : list (list Stmt) :=
  [[SForeach 0 [SLog None (Some "x"%string); SIf [(Some (Some "c"%string), [SLog None None]); (None, [])]]]].

Lemma printed_content_returns_witness :
  fst (run_blocks nowhere 4 entry_blocks (∅, 0)) = Some USCXML_ERR_OK /\ snd (snd (run_blocks nowhere 4 entry_blocks (∅, 0))) = 6.
Proof.
  split; [|by vm_compute].
  refine (proj1 (printed_content_returns (D := loop_dom) (DL := loop_laws) 0 nowhere 4 rounds (BL := rounds_bounded)
    "onentry" 1 8 entry_blocks [SSend 0] (∅, 0) _ _)); by vm_compute.
Defined.

End ContentSample.
