(* ===== verification/CSample.v ===== *)
(** * Emitted programs run on sample documents

    An environment for the emitted function, next to the recording environment
    of the interpreter, and documents on which the theorems about the
    transformer are applied. *)

From stdpp Require Import base list gmap strings.
From S2P Require Import Prelude Strings Data CBits Effects CStep Dom Predicates Chart CTables MicroStep StepLemmas Recorder CEntry CRefine CTheorems CTransform CRows CContent CContentTheorems Numbers.

Local Open Scope nat_scope.

(** ** An environment

    Events are letters; guards hold, handlers are recorded and succeed. *)

Definition letter_event (e : Ascii.ascii) : Event := external (String.String e "").

Definition letter_of (e : Event) : Ascii.ascii := default "?"%char (head (explode (e_name e))).

Definition note (call : Call nat) (w : World nat) : Z * World nat := (USCXML_ERR_OK, record call w).

#[export] Instance sample_callbacks : UscxmlCallbacks (Handler nat) Ascii.ascii (World nat) := {|
  dequeue_internal := Some (fun _ w => (None, w));
  dequeue_external := Some (fun _ w =>
    match w_external w with
    | [] => (None, w)
    | e :: es => (Some (letter_of e), mkWorld (w_internal w) es (w_trace w))
    end);
  is_matched := Some (fun _ t e w => ((if nameMatch (default "" (ct_event t)) (String.String e "") then 1 else 0)%Z, w));
  run_enabled _ _ t w := (1%Z, record (CIsTrue (default "" (ct_condition t))) w);
  exec_content _ _ i _ := note (CProcess i);
  run_invoke _ _ i _ := note (CInvoke i);
  raise_done_event := Some (fun _ i _ => note (CDone i None));
  exec_content_init := None;
|}.

Definition sample_recorder : MicroStepCallbacks nat (World nat) unit := recorder (fun _ => true) (fun _ => false).

Lemma sample_embedding m : Embedding (CBi := sample_recorder) m letter_event.
Proof.
  split.
  - done.
  - intros x t e s d Hd. eexists _, _. split; [done|]. split; [done|]. rewrite Hd. cbn. by destruct (nameMatch _ _).
  - intros x ms t f cond s _ Hc _. cbn. rewrite Hc. eexists _, _. split; [done|]. done.
Qed.

Definition pending (w : World nat) : nat := length (w_external w).

Lemma sample_finite : FiniteEvents pending.
Proof.
  split.
  - intros f x s [= <-]. unfold taken_from. cbn. lia.
  - intros f x s [= <-]. unfold taken_from, pending. destruct (w_external s) as [|e es] eqn:E; cbn; [by rewrite E|lia].
  - intros f x t e s [= <-]. cbn. lia.
  - intros f x t s. unfold pending. cbn. lia.
  - intros f x i u s. unfold pending. cbn. lia.
Qed.

(** ** Running a document *)

Definition no_machine : uscxml_machine (Handler nat) := mkUscxmlMachine 8 0 0 [] [] [] None.

Definition machine_of (doc : list row) : uscxml_machine (Handler nat) :=
  default no_machine (ChartToC (table_dom doc) (fun _ => ""%string) 0).

(** Uninitialised bytes. *)
Definition garbage (n : nat) : bytes := replicate n 0xA5%Z.

Definition sample_stack (m : uscxml_machine (Handler nat)) : Stack :=
  let s := garbage (nr_bytes (m_nr_states m)) in
  let t := garbage (nr_bytes (m_nr_transitions m)) in
  mkStack t t s s s s.

Definition zeros (m : uscxml_machine (Handler nat)) : bytes := replicate (nr_bytes (m_nr_states m)) 0%Z.

Definition pristine_ctx (m : uscxml_machine (Handler nat)) : uscxml_ctx Ascii.ascii :=
  mkUscxmlCtx C_CTX_PRISTINE (zeros m) (zeros m) (zeros m) (zeros m) None.

Definition letters (s : string) : World nat := mkWorld [] (letter_event <$> explode s) [].

Fixpoint run_steps (m : uscxml_machine (Handler nat)) (k : nat) (st : uscxml_ctx Ascii.ascii * World nat)
    : uscxml_ctx Ascii.ascii * World nat :=
  match k with
  | 0 => st
  | S k => run_steps m k (snd (uscxml_step m 20 (sample_stack m) st))
  end.

(** The active states after [k] calls of the emitted function. *)
Definition c_configuration (doc : list row) (events : string) (k : nat) : list nat :=
  let m := machine_of doc in
  elements (set_of (nr_bytes (m_nr_states m)) (x_config (fst (run_steps m k (pristine_ctx m, letters events))))).

Definition nested_deep : list row := rows
  (Xml "scxml" [("initial", "p")] []
    [Xml "state" [("id", "p")] []
      [Xml "history" [("id", "h"); ("type", "deep")] [] [Xml "transition" [("target", "s1")] [] []];
       Xml "state" [("id", "s1")] []
         [Xml "history" [("id", "h2")] [] [Xml "transition" [("target", "s2")] [] []];
          Xml "state" [("id", "s2")] [] [Xml "transition" [("event", "e"); ("target", "s3")] [] []];
          Xml "state" [("id", "s3")] [] []];
       Xml "transition" [("event", "f"); ("target", "q")] [] []];
     Xml "state" [("id", "q")] [] [Xml "transition" [("event", "g"); ("target", "h")] [] []]]).

(** ** The transformer *)

Definition nested_dom : DomOps nat := table_dom nested_deep.
Definition nested_laws : @DomLaws nat nested_dom := table_laws nested_deep eq_refl.
Definition nested_machine : uscxml_machine (Handler nat) := Eval vm_compute in machine_of nested_deep.

Lemma nested_machine_printed : ChartToC nested_dom (fun _ => ""%string) 0 = Some nested_machine.
Proof. by vm_compute. Qed.

Lemma nested_counts : @countable_in_64_bits nat (p_resortStates (D := nested_dom) 0) 0.
Proof. split; by vm_compute. Qed.

Lemma ChartToC_machine_ok_witness : machine_ok nested_machine.
Proof.
  exact (proj2 (ChartToC_machine_ok (DL := nested_laws) nested_dom (fun _ => ""%string) 0 eq_refl nested_counts)
    nested_machine nested_machine_printed).
Defined.

Definition nested_chart : Chart nat := default (mkChart [] [] ∅ EARLY) (init nested_dom 0).

Lemma nested_chart_init : init nested_dom 0 = Some nested_chart.
Proof. by vm_compute. Qed.

Lemma tables_agree_witness :
  ancestors_of (tables nested_machine) 4 = ancestors_of nested_chart 4 /\
  parent_of (tables nested_machine) 4 = parent_of nested_chart 4 /\
  USCXML_STATE_MASK (type_of (tables nested_machine) 4) = type_of nested_chart 4.
Proof.
  exact (proj1 (tables_agree (DL := nested_laws) nested_dom (fun _ => ""%string) 0 nested_chart nested_machine
    (fun _ => eq_refl) eq_refl nested_chart_init nested_machine_printed) 4).
Defined.

Lemma zeros_ok nb : array_ok nb (replicate nb 0%Z).
Proof.
  split; [by rewrite length_replicate|]. intros i b [-> _]%lookup_replicate. split; lia.
Qed.

Lemma garbage_ok nb : array_ok nb (garbage nb).
Proof.
  split; [unfold garbage; by rewrite length_replicate|]. intros i b [-> _]%lookup_replicate. split; lia.
Qed.

Lemma pristine_ok m : ctx_ok m (pristine_ctx m).
Proof. split; [done|apply zeros_ok..]. Qed.

Lemma sample_stack_ok m : stack_ok m (sample_stack m).
Proof. split; apply garbage_ok. Qed.

Lemma emitted_step_defined_witness :
  let w := letters "efg" in
  fst (uscxml_step nested_machine 20 (sample_stack nested_machine) (pristine_ctx nested_machine, w)) <> inl Undefined.
Proof.
  intros w. pose proof (emitted_step_defined (DL := nested_laws) nested_dom (fun _ => ""%string) 0 nested_machine 20
    (sample_stack nested_machine) (pristine_ctx nested_machine) w eq_refl nested_counts nested_machine_printed
    (pristine_ok _) (sample_stack_ok _)) as H.
  destruct (uscxml_step nested_machine 20 (sample_stack nested_machine) (pristine_ctx nested_machine, w)) as [r [x' s']].
  intros Hr. by destruct (proj1 H Hr).
Defined.

Lemma covered_history_empty_witness :
  p_completion (D := p_resortStates (D := nested_dom) 0) 0 5 = [].
Proof.
  apply (covered_history_empty (D := p_resortStates (D := nested_dom) 0)
    (DL := p_resorted_laws nested_dom (DL := nested_laws) 0) 0 [] 2 [] 5 []); by vm_compute.
Defined.

(** What comes of an empty completion. The inner history is entered with
    the states that the outer, deep one restores, finds nothing recorded, and
    takes its default transition: the emitted machine is then in two children
    of one compound state. The interpreter restores the recorded state alone. *)
Theorem restored_into_two_children :
  c_configuration nested_deep "efg" 4 = [6; 5; 3; 1; 0] /\
  last (configurations nested_deep ["e"; "f"; "g"]%string 10) = Some [0; 1; 3; 6].
Proof. split; by vm_compute. Qed.

(** ** Rows *)

Definition two_sends : list row := rows
  (Xml "scxml" [("binding", "late")] []
    [Xml "state" [("id", "a")] []
      [Xml "datamodel" [] [] [Xml "data" [("id", "x"); ("expr", "1")] [] []; Xml "data" [("id", "y")] [] []];
       Xml "onentry" [] []
         [Xml "send" [("event", "e")] [] [Xml "param" [("name", "n1")] [] []];
          Xml "send" [("event", "f")] [] [Xml "param" [("name", "n2")] [] []]]];
     Xml "state" [("id", "b")] []
      [Xml "datamodel" [] [] [Xml "data" [("id", "z"); ("expr", "2")] [] []]]]).

Definition two_sends_dom : DomOps nat := p_resortStates (D := table_dom two_sends) 0.

Lemma data_rows_found_witness : exists k,
  dataIndex (D := two_sends_dom) 0 10 = Some k /\
  rows_at (elem_datas (D := two_sends_dom) 0) k = [mkElemData (Some "z"%string) None (Some "2"%string) None].
Proof.
  destruct (proj1 (data_rows_found (D := two_sends_dom) 0) [3; 4] [12] [] 10) as (k & Hk & Hr).
  - by vm_compute.
  - by vm_compute.
  - done.
  - by repeat constructor.
  - intros d Hd. rewrite app_nil_r in Hd. repeat (apply elem_of_cons in Hd as [->|Hd]; [done|]). by apply elem_of_nil in Hd.
  - exists k. split; [exact Hk|exact Hr].
Defined.

Lemma second_params_lost_witness : exists k,
  paramIndex (D := two_sends_dom) 0 8 = Some k /\ rows_at (elem_params (D := two_sends_dom) 0) k = [].
Proof.
  refine (proj2 (proj2 (second_params_lost (D := two_sends_dom) 0 [7] [9] [] 6 8 _ _ _ _ _ _ _))).
  - by vm_compute.
  - done.
  - by repeat constructor.
  - done.
  - by repeat constructor.
  - done.
  - intros p Hp. by apply elem_of_nil in Hp.
Defined.

(** ** The emitted function *)

Lemma nested_ok : machine_ok nested_machine.
Proof.
  apply (machine_tables_ok (D := p_resortStates (D := nested_dom) 0) (DL := p_resorted_laws nested_dom (DL := nested_laws) 0)
    (fun _ => ""%string) 0); [by vm_compute|done|exact nested_counts].
Qed.

Lemma nested_attributes : attributes_ok nested_machine.
Proof.
  intros i t Ht. apply list_elem_of_lookup_2 in Ht.
  assert (H : forallb (fun t => bool_decide (ct_event t <> Some ""%string) && bool_decide (ct_condition t <> Some ""%string))
    (m_transitions nested_machine) = true) by by vm_compute.
  rewrite forallb_forall in H. apply list_elem_of_In, H in Ht. bool_prop. done.
Qed.

Lemma nested_finals : finals_ok nested_machine.
Proof.
  intros i Hi. assert (H : forallb (fun i => Bool.eqb (top_level_byte nested_machine i) (top_level_final (tables nested_machine) i))
    (seq 0 (m_nr_states nested_machine)) = true) by by vm_compute.
  rewrite forallb_forall in H. apply eqb_prop, H, in_seq. lia.
Qed.

(** A state of the stepper for a context. *)
Definition sample_state (x : uscxml_ctx Ascii.ascii) : MicroState :=
  let nb := nr_bytes (m_nr_states nested_machine) in
  mkMicroState (x_flags x) (set_of nb (x_config x)) (set_of nb (x_invocations x)) (set_of nb (x_history x))
    (set_of nb (x_initialized_data x)) ∅ false
    (match x_event x with Some e => letter_event e | None => Event_default "" end).

Lemma sample_related x : ctx_ok nested_machine x -> related nested_machine letter_event x (sample_state x).
Proof.
  intros []. split; try (by split).
  - done.
  - unfold event_related. cbn. by destruct (x_event x).
Qed.

(** In the states that the initial configuration leads to, with the event e. *)
Definition with_letter (x : uscxml_ctx Ascii.ascii) (e : Ascii.ascii) : uscxml_ctx Ascii.ascii :=
  with_event (Some e) x.

Definition started : uscxml_ctx Ascii.ascii := Eval vm_compute in fst (run_steps nested_machine 1 (pristine_ctx nested_machine, letters "")).

Lemma started_ok : ctx_ok nested_machine (with_letter started "e").
Proof.
  split; [done|..]; (split; [vm_compute; lia|]; intros i b Hb; destruct i; [injection Hb as <-; split; lia|done]).
Qed.

Definition after_e :=
  c_select_and_step nested_machine (zeros nested_machine) (replicate (nr_bytes (m_nr_transitions nested_machine)) 0%Z)
    (sample_stack nested_machine) (with_letter started "e", letters "").

Definition after_e_interpreter :=
  select_and_step (CB := sample_recorder) (tables nested_machine) (sample_state (with_letter started "e"), letters "").

Lemma set_of_zeros nb k : set_of nb (replicate k 0%Z) = ∅.
Proof.
  apply set_eq. intros i. rewrite elem_of_set_of. split; [|set_solver]. intros [_ Hb]. unfold bit in Hb.
  destruct (replicate k 0%Z !! (i / 8)) as [b|] eqn:E; [|done]. apply lookup_replicate in E as [-> _].
  by rewrite Z.bits_0 in Hb.
Qed.

Lemma select_and_step_refines_witness :
  related nested_machine letter_event (fst (snd after_e)) (fst (snd after_e_interpreter)) /\
  set_of 1 (x_config (fst (snd after_e))) = {[0; 1; 3; 6]}.
Proof.
  split; [|by vm_compute].
  destruct after_e as [[e|r] [x' s1]] eqn:Ec; [by vm_compute in Ec|].
  destruct after_e_interpreter as [[e|b] [ms' s2]] eqn:Ei; [by vm_compute in Ei|].
  exact (proj1 (select_and_step_refines (CBi := sample_recorder) nested_machine nested_ok letter_event
    (sample_embedding nested_machine) nested_attributes _ _ _ _ _ _ r x' s1 b ms' s2 nested_finals
    (sample_stack_ok _) (sample_related _ started_ok) (conj (zeros_ok _) (set_of_zeros _ _)) (conj (zeros_ok _) (set_of_zeros _ _)) Ec Ei)).
Defined.

Definition first_call := uscxml_step nested_machine 20 (sample_stack nested_machine) (pristine_ctx nested_machine, letters "").
Definition first_call_interpreter :=
  step (CB := sample_recorder) (tables nested_machine) 0%Z (sample_state (pristine_ctx nested_machine), letters "").

Lemma first_step_refines_witness :
  related nested_machine letter_event (fst (snd first_call)) (fst (snd first_call_interpreter)).
Proof.
  destruct first_call as [[e|r] [x' s1]] eqn:Ec; [by vm_compute in Ec|].
  destruct first_call_interpreter as [[e|b] [ms' s2]] eqn:Ei; [by vm_compute in Ei|].
  refine (proj1 (proj2 (first_step_refines (CBi := sample_recorder) nested_machine nested_ok letter_event 20
    (sample_stack nested_machine) (pristine_ctx nested_machine) (sample_state (pristine_ctx nested_machine)) (letters "")
    r x' s1 ms' b s2 nested_finals (sample_stack_ok _) (sample_related _ (pristine_ok _)) _ eq_refl eq_refl Ec Ei))).
  apply set_of_zeros.
Defined.

Lemma uscxml_step_returns_witness : exists code,
  returned (fst (uscxml_step nested_machine 6 (sample_stack nested_machine) (pristine_ctx nested_machine, letters "xyz"))) = Some code.
Proof.
  destruct (uscxml_step_returns nested_machine nested_ok pending (FIN := sample_finite) 6 (sample_stack nested_machine)
    (pristine_ctx nested_machine) (letters "xyz") (pristine_ok _) (sample_stack_ok _)) as [H|H].
  - vm_compute. lia.
  - done.
  - by destruct H as [_ [H|H]].
Defined.

(** ** Final states *)

(** A check that every state comes behind its ancestors. *)
Definition ancestors_first (m : uscxml_machine (Handler nat)) : bool :=
  forallb (fun i => forallb (fun a => a <? i) (elements (ancestors_of (tables m) i))) (seq 0 (length (m_states m))).

Lemma ancestors_first_spec m : ancestors_first m = true -> forall i a, a ∈ ancestors_of (tables m) i -> a < i.
Proof.
  intros Hc i a Ha. assert (Hi : i < length (m_states m)).
  { apply state_set_range in Ha. unfold n_states in Ha. cbn in Ha. by rewrite length_imap in Ha. }
  unfold ancestors_first in Hc. rewrite forallb_forall in Hc. specialize (Hc i ltac:(apply in_seq; lia)).
  rewrite forallb_forall in Hc. apply Nat.ltb_lt, Hc. by apply list_elem_of_In, elem_of_elements.
Qed.

Definition parallel_doc : list row := rows
  (Xml "scxml" [("initial", "p")] []
    [Xml "parallel" [("id", "p")] []
      [Xml "state" [("id", "a")] [] [Xml "final" [("id", "fa")] [] []];
       Xml "state" [("id", "b")] [] [Xml "final" [("id", "fb")] [] []]]]).

Definition parallel_laws : @DomLaws nat (table_dom parallel_doc) := table_laws parallel_doc eq_refl.
Definition parallel_machine : uscxml_machine (Handler nat) := Eval vm_compute in machine_of parallel_doc.

Lemma parallel_ok : machine_ok parallel_machine.
Proof.
  apply (machine_tables_ok (D := p_resortStates (D := table_dom parallel_doc) 0)
    (DL := p_resorted_laws (table_dom parallel_doc) (DL := parallel_laws) 0) (fun _ => ""%string) 0);
    [by vm_compute|done|split; by vm_compute].
Qed.

(** A host that leaves [raise_done_event] NULL, as WaterPump.cxx does: the
    first call on the parallel document enters both final states and calls it. *)
Definition without_done : UscxmlCallbacks (Handler nat) Ascii.ascii (World nat) := {|
  dequeue_internal := dequeue_internal (UscxmlCallbacks := sample_callbacks);
  dequeue_external := dequeue_external (UscxmlCallbacks := sample_callbacks);
  is_matched := is_matched (UscxmlCallbacks := sample_callbacks);
  run_enabled := run_enabled (UscxmlCallbacks := sample_callbacks);
  exec_content := exec_content (UscxmlCallbacks := sample_callbacks);
  run_invoke := run_invoke (UscxmlCallbacks := sample_callbacks);
  raise_done_event := None;
  exec_content_init := None;
|}.

Example null_callback_called :
  fst (uscxml_step (CB := without_done) parallel_machine 20 (sample_stack parallel_machine)
    (pristine_ctx parallel_machine, letters "")) = inl Undefined.
Proof. by vm_compute. Qed.

(** All states of the parallel document are active. *)
Definition all_active : uscxml_ctx Ascii.ascii := mkUscxmlCtx C_CTX_INITIALIZED [0x3F%Z] [0%Z] [0%Z] [0%Z] None.

Lemma one_byte_ok b : (0 <= b < 256)%Z -> array_ok 1 [b].
Proof. intros Hb. split; [done|]. intros [|i] b' H; [injection H as <-; exact Hb|done]. Qed.

Lemma all_active_related : related parallel_machine letter_event all_active
  (mkMicroState C_CTX_INITIALIZED {[0; 1; 2; 3; 4; 5]} ∅ ∅ ∅ ∅ false (Event_default "")).
Proof.
  split; [done| | | | |done].
  - split; [by apply one_byte_ok|by vm_compute].
  - split; [by apply one_byte_ok|by vm_compute].
  - split; [by apply one_byte_ok|by vm_compute].
  - split; [by apply one_byte_ok|by vm_compute].
Qed.

Lemma parallel_done_raised_witness : exists a',
  c_parallel_done parallel_machine 5 1 [0%Z] (all_active, letters "") =
    (inr a', (all_active, snd (note (CDone 1 None) (letters "")))).
Proof.
  destruct (parallel_done_raised (CB := sample_callbacks) parallel_machine parallel_ok letter_event 5 1 [0%Z] all_active (letters "") _ (fun _ i _ => note (CDone i None)) eq_refl
    (ancestors_first_spec parallel_machine ltac:(by vm_compute)) all_active_related ltac:(by vm_compute; lia) ltac:(by vm_compute; lia)
    (one_byte_ok 0 ltac:(lia)) ltac:(by vm_compute) ltac:(apply (bool_decide_unpack _); by vm_compute)) as (a' & _ & Hall & _).
  exists a'. apply Hall. intros k Hk HkN Hj Hf. cbn [_configuration] in Hk.
  assert (Hcases : k = 2 \/ k = 4).
  { repeat (apply elem_of_union in Hk as [Hk|Hk]; [|]); apply elem_of_singleton in Hk as ->; auto;
      try by vm_compute in Hf; exfalso; revert Hj; apply (bool_decide_unpack (_ ∉ _)); by vm_compute. }
  destruct Hcases as [-> | ->]; [exists 3|exists 5]; (split_and!; [set_solver|vm_compute; lia| |by vm_compute|]);
    apply (bool_decide_unpack _); by vm_compute.
Defined.

(** Eight states in front of the parent of a final state. *)
Definition late_final : list row := rows
  (Xml "scxml" [("initial", "f")] []
    (((fun i => Xml "state" [("id", i)] [] []) <$> ["a"; "b"; "c"; "d"; "e"; "g"; "h"]%string) ++
     [Xml "state" [("id", "s")] [] [Xml "final" [("id", "f")] [] []]])).

Definition late_laws : @DomLaws nat (table_dom late_final) := table_laws late_final eq_refl.
Definition late_machine : uscxml_machine (Handler nat) := Eval vm_compute in machine_of late_final.

Lemma late_ok : machine_ok late_machine.
Proof.
  apply (machine_tables_ok (D := p_resortStates (D := table_dom late_final) 0)
    (DL := p_resorted_laws (table_dom late_final) (DL := late_laws) 0) (fun _ => ""%string) 0);
    [by vm_compute|done|split; by vm_compute].
Qed.

Lemma nested_final_finishes_witness :
  has_flag (_flags (c_entered late_machine pristine 9)) USCXML_CTX_TOP_LEVEL_FINAL = true /\
  has_flag (_flags (entered (tables late_machine) 9 pristine)) USCXML_CTX_TOP_LEVEL_FINAL = false.
Proof.
  destruct (m_states late_machine !! 9) as [s|] eqn:Es; [|by vm_compute in Es].
  apply (nested_final_finishes late_machine late_ok 9 s 8 pristine Es).
  - by vm_compute.
  - apply (bool_decide_unpack _). by vm_compute.
  - apply (bool_decide_unpack _). by vm_compute.
  - lia.
  - assert (H : forallb (fun b => (b =? 0) || (8 <=? b)) (elements (ancestors_of (tables late_machine) 9)) = true) by by vm_compute.
    rewrite forallb_forall in H. intros b Hb. specialize (H b ltac:(by apply list_elem_of_In, elem_of_elements)).
    apply orb_true_iff in H as [H|H]; [left; by apply Nat.eqb_eq|right; by apply Nat.leb_le].
  - set_solver.
  - done.
Defined.
