(* ===== verification/Trie.v ===== *)
(** * The trie of event names: [transform/Trie.cpp]

    The transformers keep the event names of a document in a trie whose edges
    are the tokens between separators, and ask it for the names an event
    descriptor stands for. A node is owned by its parent, so the trie is a
    tree value here; the order of the answers follows the addresses of the
    nodes, which are a parameter. *)

From stdpp Require Import base list strings.
From S2P Require Import Prelude Strings Data.

Local Open Scope nat_scope.

(** ** Nodes *)

(** [t_new] is the number of the [new] that made the node. *)
Inductive TrieNode := mkTrieNode
  (t_new : nat) (t_hasWord : bool) (t_index : nat) (t_identifier t_value : string)
  (t_childs : list (string * TrieNode)).

Definition node_new (n : TrieNode) := match n with mkTrieNode a _ _ _ _ _ => a end.
Definition hasWord (n : TrieNode) := match n with mkTrieNode _ h _ _ _ _ => h end.
Definition index (n : TrieNode) := match n with mkTrieNode _ _ i _ _ _ => i end.
Definition identifier (n : TrieNode) := match n with mkTrieNode _ _ _ i _ _ => i end.
Definition value (n : TrieNode) := match n with mkTrieNode _ _ _ _ v _ => v end.
Definition childs (n : TrieNode) := match n with mkTrieNode _ _ _ _ _ c => c end.

Definition new_TrieNode (k : nat) : TrieNode := mkTrieNode k false 0 "" "" [].

Definition set_childs (c : list (string * TrieNode)) (n : TrieNode) : TrieNode :=
  match n with mkTrieNode a h i s v _ => mkTrieNode a h i s v c end.

(** The trie, and how many nodes were made. *)
Record Trie := mkTrie { root : TrieNode; lastIndex : nat; made : nat }.

Definition new_Trie : Trie := mkTrie (new_TrieNode 0) 0 1.

(** [boost::replace_all(identifier, ".", "_")] *)
Definition escapeWord (word : string) : string :=
  implode ((fun c => if Ascii.eqb c "." then "_"%char else c) <$> explode word).

Section Trie.
Context (seperator : list Ascii.ascii).

(** [word.find(seperator, offset)] *)
Definition find_sub (word : list Ascii.ascii) (offset : nat) : option nat :=
  head (filter (fun i => substr word i (length seperator) = seperator)
    (seq offset (S (length word) - length seperator - offset))).

(** The token and the next offset; [None] is [std::string::npos]. *)
Fixpoint getNextToken_fuel (fuel : nat) (word : list Ascii.ascii) (offset : nat) : list Ascii.ascii * option nat :=
  match fuel with
  | 0 => ([], None)
  | S fuel =>
      if length word <=? offset then ([], None)
      else if 0 <? length seperator then
        match find_sub word offset with
        | Some sepPos =>
            if sepPos =? offset then getNextToken_fuel fuel word (offset + length seperator)
            else (substr word offset (sepPos - offset), Some (sepPos + length seperator))
        | None => (substr word offset (length word - offset), None)
        end
      else ([char_at word offset], Some (offset + 1))
  end.

Definition getNextToken (word : list Ascii.ascii) (offset : nat) : list Ascii.ascii * option nat :=
  getNextToken_fuel (S (length word)) word offset.

(** The tokens that the loops of [addWord] and [getNodeWithPrefix] see. *)
Fixpoint word_tokens_fuel (fuel : nat) (word : list Ascii.ascii) (offset : nat) : list string :=
  match fuel with
  | 0 => []
  | S fuel =>
      let '(token, next) := getNextToken word offset in
      (if 0 <? length token then [implode token] else []) ++
      match next with Some next => word_tokens_fuel fuel word next | None => [] end
  end.

Definition word_tokens (word : string) : list string :=
  word_tokens_fuel (S (length (explode word))) (explode word) 0.

(** The rest of [addWord] for the tokens still to go, with [lastIndex] and the
    number of nodes made so far. *)
Fixpoint insert_path (path : list string) (word : string) (last next : nat) (currNode : TrieNode)
    : TrieNode * nat * nat :=
  match path with
  | [] =>
      if hasWord currNode then (currNode, last, next)
      else (mkTrieNode (node_new currNode) true last (escapeWord word) word (childs currNode), S last, next)
  | prefix :: path =>
      let '(child, next) :=
        match str_find prefix (childs currNode) with
        | Some child => (child, next)
        | None => (new_TrieNode next, S next)
        end in
      let '(child, last, next) := insert_path path word last next child in
      (set_childs (str_put prefix child (childs currNode)) currNode, last, next)
  end.

Definition addWord (t : Trie) (word : string) : Trie :=
  let '(r, last, next) := insert_path (word_tokens word) word (lastIndex t) (made t) (root t) in
  mkTrie r last next.

Fixpoint node_at (path : list string) (currNode : TrieNode) : option TrieNode :=
  match path with
  | [] => Some currNode
  | token :: path => child ← str_find token (childs currNode); node_at path child
  end.

Definition getNodeWithPrefix (t : Trie) (prefix : string) : option TrieNode :=
  node_at (word_tokens prefix) (root t).

(** *** Collecting *)

Context (address : nat -> Z).

(** [std::list::merge] of lists of pointers: the second list's elements are
    moved in front of the first greater one of the first list. The lists are
    not always sorted, as the standard asks for; this is what the loop does. *)
Fixpoint merge (first : list TrieNode) : list TrieNode -> list TrieNode :=
  match first with
  | [] => fun second => second
  | x :: first' =>
      fix go (second : list TrieNode) : list TrieNode :=
        match second with
        | [] => x :: first'
        | y :: second' =>
            if (address (node_new y) <? address (node_new x))%Z then y :: go second'
            else x :: merge first' (y :: second')
        end
  end.

Fixpoint getChildsWithWords (node : TrieNode) : list TrieNode :=
  foldl merge (if hasWord node then [node] else [])
    ((fix go (l : list (string * TrieNode)) : list (list TrieNode) :=
        match l with [] => [] | (_, child) :: l => getChildsWithWords child :: go l end) (childs node)).

Definition getWordsWithPrefix (t : Trie) (prefix : string) : list TrieNode :=
  match getNodeWithPrefix t prefix with
  | Some prefixNode => getChildsWithWords prefixNode
  | None => []
  end.

End Trie.

(** ** Tokens *)

Definition is_sep (c x : Ascii.ascii) : bool := Ascii.eqb x c.

(** The non-empty runs between the separators. *)
Definition runs (c : Ascii.ascii) (word : list Ascii.ascii) : list string :=
  implode <$> words_by (is_sep c) [] word.

Lemma words_by_run p u : forall acc l, (forall x, x ∈ u -> p x = false) ->
  words_by p acc (u ++ l) = words_by p (acc ++ u) l.
Proof.
  induction u as [|x u IH]; intros acc l Hu; [by rewrite app_nil_r|].
  cbn [app words_by]. rewrite (Hu x) by by left.
  rewrite IH by (intros; apply Hu; by right). by rewrite <- app_assoc.
Qed.

Lemma words_by_sep p u c l : (forall x, x ∈ u -> p x = false) -> p c = true ->
  words_by p [] (u ++ c :: l) = flush u ++ words_by p [] l.
Proof. intros Hu Hc. rewrite words_by_run by done. cbn [words_by app]. by rewrite Hc. Qed.

Lemma words_by_last p u : (forall x, x ∈ u -> p x = false) -> words_by p [] u = flush u.
Proof. intros Hu. rewrite <- (app_nil_r u) at 1. by rewrite words_by_run. Qed.

Section Tokens.
Context (c : Ascii.ascii) (word : list Ascii.ascii).

Lemma find_sub_Some offset i : offset <= length word -> find_sub [c] word offset = Some i ->
  offset <= i /\ word !! i = Some c /\ forall j, offset <= j < i -> word !! j <> Some c.
Proof.
  intros Hoff Hf. unfold find_sub in Hf.
  assert (Hd : forall k off, head (filter (fun i => substr word i (length [c]) = [c]) (seq off k)) = Some i ->
    off <= i /\ word !! i = Some c /\ forall j, off <= j < i -> word !! j <> Some c); [|by eapply Hd].
  assert (Hone : forall j, substr word j 1 = [c] <-> word !! j = Some c).
  { intros j. unfold substr. destruct (word !! j) as [x|] eqn:E.
    - rewrite (drop_S _ _ _ E). cbn [take]. split; by intros [= ->].
    - apply lookup_ge_None in E. rewrite drop_ge by done. by split. }
  clear Hf. intros k. induction k as [|k IH]; intros off Hf; [done|]. cbn [seq] in Hf.
  rewrite filter_cons in Hf. destruct (decide _) as [Hs|Hs].
  - injection Hf as ->. split; [done|]. split; [by apply Hone|]. intros j ?. lia.
  - apply IH in Hf as (Hle & Hi & Hn). split; [lia|]. split; [done|].
    intros j Hj. destruct (decide (j = off)) as [->|]; [|apply Hn; lia].
    intros E. apply Hs. by apply Hone.
Qed.

Lemma find_sub_None offset : find_sub [c] word offset = None ->
  forall j, offset <= j -> word !! j <> Some c.
Proof.
  unfold find_sub. intros Hf%head_None j Hj Hc.
  assert (Hin : j ∈ filter (fun i => substr word i (length [c]) = [c]) (seq offset (S (length word) - length [c] - offset))).
  { apply list_elem_of_filter. split.
    - unfold substr. rewrite (drop_S _ _ _ Hc). done.
    - apply elem_of_seq. apply lookup_lt_Some in Hc. cbn [length]. lia. }
  rewrite Hf in Hin. by apply elem_of_nil in Hin.
Qed.

(** What one call of [getNextToken] reads. *)
Lemma getNextToken_spec fuel : forall offset, length word - offset < fuel ->
  let '(token, next) := getNextToken_fuel [c] fuel word offset in
  words_by (is_sep c) [] (drop offset word) =
    flush token ++ match next with Some next => words_by (is_sep c) [] (drop next word) | None => [] end /\
  match next with Some next => offset < next /\ offset < length word | None => True end.
Proof.
  induction fuel as [|fuel IH]; intros offset Hf; [lia|]. cbn [getNextToken_fuel].
  destruct (length word <=? offset) eqn:El; bool_prop.
  { apply Nat.leb_le in El. by rewrite drop_ge by lia. }
  apply Nat.leb_gt in El. change (0 <? length [c]) with true. cbv iota.
  destruct (find_sub [c] word offset) as [i|] eqn:Ei.
  - apply find_sub_Some in Ei as (Hle & Hi & Hn); [|lia].
    pose proof (lookup_lt_Some _ _ _ Hi) as Hlt.
    assert (Hsplit : drop offset word = substr word offset (i - offset) ++ c :: drop (S i) word).
    { unfold substr. rewrite <- (take_drop (i - offset) (drop offset word)) at 1. f_equal.
      rewrite drop_drop. replace (offset + (i - offset)) with i by lia. by apply drop_S. }
    assert (Hrun : forall x, x ∈ substr word offset (i - offset) -> is_sep c x = false).
    { intros x (k & Hk)%list_elem_of_lookup. unfold substr in Hk. apply lookup_take_Some in Hk as [Hk Hlt'].
      rewrite lookup_drop in Hk. unfold is_sep. apply Ascii.eqb_neq. intros ->. apply (Hn (offset + k)); [lia|done]. }
    rewrite Hsplit. rewrite words_by_sep; [|done|unfold is_sep; by rewrite Ascii.eqb_refl].
    cbn [length]. rewrite !Nat.add_1_r. destruct (i =? offset) eqn:Eo; bool_prop.
    + subst i. rewrite Nat.sub_diag. specialize (IH (S offset) ltac:(lia)).
      destruct (getNextToken_fuel _ _ _ _) as [token next]. destruct IH as [IH Hnext].
      rewrite IH. split; [done|]. destruct next; [lia|done].
    + split; [done|]. lia.
  - split; [|done]. rewrite app_nil_r. unfold substr. rewrite take_ge by (rewrite length_drop; lia).
    apply words_by_last. intros x (k & Hk)%list_elem_of_lookup. rewrite lookup_drop in Hk.
    unfold is_sep. apply Ascii.eqb_neq. intros ->. eapply find_sub_None; [done| |done]. lia.
Qed.

Lemma word_tokens_fuel_runs fuel : forall offset, length word - offset < fuel ->
  word_tokens_fuel [c] fuel word offset = implode <$> words_by (is_sep c) [] (drop offset word).
Proof.
  induction fuel as [|fuel IH]; intros offset Hf; [lia|]. cbn [word_tokens_fuel].
  pose proof (getNextToken_spec (S (length word)) offset ltac:(lia)) as Hs.
  unfold getNextToken. destruct (getNextToken_fuel _ _ _ _) as [token next]. destruct Hs as [-> Hnext].
  rewrite fmap_app. f_equal; [by destruct token|]. destruct next as [next|]; [|done].
  apply IH. lia.
Qed.

End Tokens.

Lemma word_tokens_runs c word : word_tokens [c] word = runs c (explode word).
Proof. unfold word_tokens. rewrite word_tokens_fuel_runs by lia. done. Qed.

(** ** What the trie holds *)

Fixpoint word_at (path : list string) (n : TrieNode) : option string :=
  match path with
  | [] => if hasWord n then Some (value n) else None
  | token :: path => match str_find token (childs n) with Some child => word_at path child | None => None end
  end.

Lemma word_at_node path n :
  word_at path n = match node_at path n with Some m => if hasWord m then Some (value m) else None | None => None end.
Proof.
  revert n. induction path as [|token path IH]; intros n; [done|]. cbn [word_at node_at].
  destruct (str_find token (childs n)) as [child|]; [|done]. apply IH.
Qed.

Lemma word_at_below path path' n m : node_at path n = Some m -> word_at (path ++ path') n = word_at path' m.
Proof.
  revert n. induction path as [|token path IH]; intros n; cbn [node_at app]; [by intros [= ->]|].
  intros (child & Hc & Hm)%bind_Some. cbn [word_at]. rewrite Hc. by apply IH.
Qed.

Lemma word_at_new path k : word_at path (new_TrieNode k) = None.
Proof. by destruct path. Qed.

Lemma word_at_insert path word : forall last next n path',
  word_at path' (insert_path path word last next n).1.1 =
  if decide (path' = path) then Some (default word (word_at path n)) else word_at path' n.
Proof.
  induction path as [|token path IH]; intros last next n path'; cbn [insert_path].
  - destruct n as [a h ix s v ch]. cbn [hasWord node_new childs word_at]. destruct path' as [|t' path'].
    + cbn. by destruct h.
    + rewrite decide_False by done. by destruct h.
  - destruct n as [a h ix s v ch]. cbn [childs].
    set (start := match str_find token ch with Some child => (child, next) | None => (new_TrieNode next, S next) end).
    destruct start as [child next'] eqn:Es.
    pose proof (IH last next' child) as Hc.
    destruct (insert_path path word last next' child) as [[child' last'] next''] eqn:Ei. cbn [fst] in Hc |- *.
    assert (Hold : forall q, word_at q child = match str_find token ch with Some c => word_at q c | None => None end).
    { intros q. unfold start in Es. destruct (str_find token ch); injection Es as <- <-; [done|apply word_at_new]. }
    destruct path' as [|t' path']; cbn [word_at set_childs hasWord value childs].
    { rewrite decide_False by done. done. }
    destruct (decide (t' = token)) as [->|Ht].
    + rewrite str_find_put_eq, Hc. rewrite !Hold. destruct (decide (path' = path)) as [->|Hp].
      * by rewrite decide_True.
      * rewrite decide_False by congruence. done.
    + rewrite str_find_put_ne by done. rewrite decide_False by congruence. done.
Qed.

(** *** Well-formed nodes *)

Inductive trie_ok : TrieNode -> Prop :=
| trie_ok_intro n : keys_sorted (childs n) -> (forall t m, (t, m) ∈ childs n -> trie_ok m) -> trie_ok n.

Lemma keys_sorted_find {V} k (v : V) m : keys_sorted m -> (k, v) ∈ m -> str_find k m = Some v.
Proof.
  intros Hnd%keys_sorted_NoDup Hin. induction m as [|[a w] m IH]; [by apply elem_of_nil in Hin|].
  cbn in Hnd. apply NoDup_cons in Hnd as [Ha Hnd]. rewrite str_find_cons.
  apply elem_of_cons in Hin as [[= -> ->]|Hin].
  - by rewrite (proj2 (string_compare_eq a a) eq_refl).
  - destruct (String.compare k a) eqn:E; [|by apply IH..]. apply string_compare_eq in E as ->.
    destruct Ha. apply list_elem_of_fmap. by exists (a, v).
Qed.

Lemma str_find_elem {V} k (v : V) m : str_find k m = Some v -> (k, v) ∈ m.
Proof.
  induction m as [|[a w] m IH]; [done|]. rewrite str_find_cons.
  destruct (String.compare k a) eqn:E; [|right; by apply IH..].
  apply string_compare_eq in E as ->. intros [= ->]. by left.
Qed.

Lemma str_put_elem {V} k (v : V) m k' v' : (k', v') ∈ str_put k v m -> (k', v') = (k, v) \/ (k', v') ∈ m.
Proof.
  unfold str_put. induction m as [|[a w] m IH]; cbn [map_put]; [intros ->%list_elem_of_singleton; by left|].
  destruct (String.compare k a); rewrite !elem_of_cons; tauto.
Qed.

Lemma trie_ok_new k : trie_ok (new_TrieNode k).
Proof. constructor; [constructor|]. intros t m Hin. by apply elem_of_nil in Hin. Qed.

Lemma trie_ok_insert path word : forall last next n, trie_ok n -> trie_ok (insert_path path word last next n).1.1.
Proof.
  induction path as [|token path IH]; intros last next n Hn; cbn [insert_path].
  - destruct (hasWord n); [done|]. destruct Hn as [[a h ix s v ch] Hk Hc]. by constructor.
  - set (start := match str_find token (childs n) with Some child => (child, next) | None => (new_TrieNode next, S next) end).
    destruct start as [child next'] eqn:Es.
    assert (Hchild : trie_ok child).
    { unfold start in Es. destruct (str_find token (childs n)) as [c'|] eqn:Ef; injection Es as <- <-; [|apply trie_ok_new].
      destruct Hn as [n Hk Hc]. eapply Hc, str_find_elem, Ef. }
    pose proof (IH last next' child Hchild) as Hi.
    destruct (insert_path path word last next' child) as [[child' last'] next'']. cbn [fst] in Hi |- *.
    destruct Hn as [[a h ix s v ch] Hk Hc]. cbn [set_childs childs] in *. constructor; cbn [childs].
    + by apply keys_sorted_put.
    + intros t m [[= -> ->]|Hin]%str_put_elem; [done|]. by eapply Hc.
Qed.

(** *** The words below a node *)

Lemma merge_Permutation address l1 : forall l2, merge address l1 l2 ≡ₚ l1 ++ l2.
Proof.
  induction l1 as [|x l1 IH1]; intros l2; [done|]. induction l2 as [|y l2 IH2]; [by rewrite app_nil_r|].
  cbn [merge] in IH2 |- *. destruct (address (node_new y) <? address (node_new x))%Z.
  - rewrite IH2. cbn [app]. rewrite perm_swap. f_equiv. apply Permutation_middle.
  - rewrite IH1. done.
Qed.

Lemma foldl_merge address ls l : foldl (merge address) l ls ≡ₚ l ++ concat ls.
Proof.
  revert l. induction ls as [|l' ls IH]; intros l; cbn [foldl concat]; [by rewrite app_nil_r|].
  rewrite IH, merge_Permutation. by rewrite app_assoc.
Qed.

(** The order apart, a node's word comes with the words of its children. *)
Lemma getChildsWithWords_Permutation address n :
  getChildsWithWords address n ≡ₚ
  (if hasWord n then [n] else []) ++ flat_map (fun c => getChildsWithWords address c.2) (childs n).
Proof.
  destruct n as [a h ix s v ch]. cbn [getChildsWithWords hasWord childs]. rewrite foldl_merge. f_equiv.
  apply Permutation_refl'. induction ch as [|[t m] ch IH]; [done|]. cbn. by f_equal.
Qed.

Lemma word_of_descendant address n v : trie_ok n ->
  v ∈ value <$> getChildsWithWords address n <-> exists path, word_at path n = Some v.
Proof.
  induction 1 as [n Hk _ IH]. rewrite (fmap_Permutation value _ _ (getChildsWithWords_Permutation address n)).
  rewrite fmap_app, elem_of_app. split.
  - intros [Hv|Hv].
    + exists []. cbn. destruct (hasWord n); [|by apply elem_of_nil in Hv]. by apply list_elem_of_singleton in Hv as ->.
    + apply list_elem_of_fmap in Hv as (m & -> & ([t ch] & Hin & Hm)%elem_of_flat_map).
      destruct (proj1 (IH t ch Hin)) as (path & Hp); [apply list_elem_of_fmap; by exists m|].
      exists (t :: path). cbn [word_at]. by rewrite (keys_sorted_find _ _ _ Hk Hin).
  - intros ([|t path] & Hp); cbn [word_at] in Hp.
    + left. destruct (hasWord n); [|done]. injection Hp as <-. by left.
    + right. destruct (str_find t (childs n)) as [ch|] eqn:Ef; [|done]. apply str_find_elem in Ef.
      assert (Hv : v ∈ value <$> getChildsWithWords address ch) by (apply (IH t ch Ef); by exists path).
      apply list_elem_of_fmap in Hv as (m & -> & Hm). apply list_elem_of_fmap. exists m. split; [done|].
      apply elem_of_flat_map. by exists (t, ch).
Qed.

Lemma NoDup_flat_map {A B} (f : A -> list B) l :
  NoDup l -> (forall x, x ∈ l -> NoDup (f x)) ->
  (forall x y z, x ∈ l -> y ∈ l -> z ∈ f x -> z ∈ f y -> x = y) -> NoDup (flat_map f l).
Proof.
  induction 1 as [|x l Hx Hl IH]; intros Hf Hd; cbn [flat_map]; [constructor|].
  apply NoDup_app. split; [apply Hf; by left|]. split.
  - intros z Hz (y & Hy & Hz')%elem_of_flat_map. apply Hx.
    enough (x = y) as -> by done. apply (Hd x y z); [by left|by right|done..].
  - apply IH; [intros; apply Hf; by right|]. intros x' y' z ? ?. apply Hd; by right.
Qed.

Lemma fmap_flat_map' {A B C} (g : B -> C) (f : A -> list B) l : g <$> flat_map f l = flat_map (fun x => g <$> f x) l.
Proof. induction l as [|x l IH]; [done|]. cbn [flat_map]. by rewrite fmap_app, IH. Qed.

(** When a node's path can be read off its word, no word comes twice. *)
Lemma words_NoDup address (tok : string -> list string) n : trie_ok n -> forall pre,
  (forall path v, word_at path n = Some v -> tok v = pre ++ path) ->
  NoDup (value <$> getChildsWithWords address n).
Proof.
  induction 1 as [n Hk Hok IH]. intros pre Htok.
  rewrite (fmap_Permutation value _ _ (getChildsWithWords_Permutation address n)), fmap_app, fmap_flat_map'.
  assert (Hch : forall t ch v, (t, ch) ∈ childs n -> v ∈ value <$> getChildsWithWords address ch ->
    exists path, tok v = pre ++ t :: path).
  { intros t ch v Hin (path & Hp)%word_of_descendant; [|by eapply Hok]. exists path. apply Htok.
    cbn [word_at]. by rewrite (keys_sorted_find _ _ _ Hk Hin). }
  apply NoDup_app. split; [destruct (hasWord n); cbn; repeat constructor; by intros ?%elem_of_nil|]. split.
  - intros v Hv ([t ch] & Hin & Hv')%elem_of_flat_map. destruct (Hch t ch v Hin Hv') as (path & Hp).
    assert (Hv0 : word_at [] n = Some v).
    { cbn. destruct (hasWord n); [|by apply elem_of_nil in Hv]. by apply list_elem_of_singleton in Hv as ->. }
    apply Htok in Hv0. rewrite Hp in Hv0. by apply app_inv_head in Hv0.
  - apply NoDup_flat_map.
    + eapply NoDup_fmap_1, keys_sorted_NoDup, Hk.
    + intros [t ch] Hin. apply (IH t ch Hin (pre ++ [t])). intros path v Hp. rewrite <- app_assoc. apply Htok.
      cbn [app word_at]. by rewrite (keys_sorted_find _ _ _ Hk Hin).
    + intros [t ch] [t' ch'] v Hin Hin' Hv Hv'.
      destruct (Hch t ch v Hin Hv) as (path & Hp), (Hch t' ch' v Hin' Hv') as (path' & Hp').
      rewrite Hp in Hp'. apply app_inv_head in Hp' as [= -> _]. f_equal.
      apply (keys_sorted_find _ _ _ Hk) in Hin, Hin'. congruence.
Qed.

(** ** The trie of a list of words *)

Section Words.
Context (seperator : list Ascii.ascii).
Notation tokens := (word_tokens seperator).

Definition trie_of (ws : list string) : Trie := foldl (addWord seperator) new_Trie ws.

Definition same_tokens (path : list string) (w : string) : bool := bool_decide (tokens w = path).

Lemma addWord_word_at t w path :
  word_at path (root (addWord seperator t w)) =
  if decide (path = tokens w) then Some (default w (word_at path (root t))) else word_at path (root t).
Proof.
  unfold addWord. pose proof (word_at_insert (tokens w) w (lastIndex t) (made t) (root t) path) as H.
  destruct (insert_path _ _ _ _ _) as [[r last] next]. cbn [root fst] in *. rewrite H.
  by destruct (decide (path = tokens w)) as [->|].
Qed.

Lemma trie_of_word_at ws path : word_at path (root (trie_of ws)) = List.find (same_tokens path) ws.
Proof.
  unfold trie_of. enough (H : forall t, word_at path (root (foldl (addWord seperator) t ws)) =
    match word_at path (root t) with Some v => Some v | None => List.find (same_tokens path) ws end).
  { rewrite H. cbn [root new_Trie]. by rewrite word_at_new. }
  induction ws as [|w ws IH]; intros t; cbn [foldl List.find]; [by destruct (word_at path (root t))|].
  rewrite IH, addWord_word_at. unfold same_tokens.
  destruct (decide (path = tokens w)) as [->|Hp]; [rewrite bool_decide_eq_true_2 by done; by destruct (word_at _ _)|].
  rewrite bool_decide_eq_false_2 by done. done.
Qed.

Lemma trie_of_ok ws : trie_ok (root (trie_of ws)).
Proof.
  unfold trie_of. enough (H : forall t, trie_ok (root t) -> trie_ok (root (foldl (addWord seperator) t ws)))
    by apply H, trie_ok_new.
  induction ws as [|w ws IH]; intros t Ht; [done|]. cbn [foldl]. apply IH. unfold addWord.
  pose proof (trie_ok_insert (tokens w) w (lastIndex t) (made t) (root t) Ht) as H.
  by destruct (insert_path _ _ _ _ _) as [[r last] next].
Qed.

Lemma node_at_ok path n m : trie_ok n -> node_at path n = Some m -> trie_ok m.
Proof.
  revert n. induction path as [|t path IH]; intros n Hn; cbn [node_at]; [by intros [= <-]|].
  intros (ch & Hf & Hm)%bind_Some. eapply IH; [|exact Hm]. destruct Hn as [n Hk Hc]. eapply Hc, str_find_elem, Hf.
Qed.

Lemma words_with_prefix address ws p :
  (forall v, v ∈ value <$> getWordsWithPrefix seperator address (trie_of ws) p <->
     List.find (same_tokens (tokens v)) ws = Some v /\ tokens p `prefix_of` tokens v) /\
  NoDup (value <$> getWordsWithPrefix seperator address (trie_of ws) p).
Proof.
  pose proof (trie_of_ok ws) as Hok. pose proof (trie_of_word_at ws) as Hat.
  assert (Htok : forall path v, word_at path (root (trie_of ws)) = Some v -> tokens v = path).
  { intros path v. rewrite Hat. intros [_ H%bool_decide_eq_true]%List.find_some. done. }
  assert (Hall : forall v path, word_at path (root (trie_of ws)) = Some v ->
    List.find (same_tokens (tokens v)) ws = Some v).
  { intros v path Hv. rewrite <- Hat. by rewrite (Htok _ _ Hv). }
  unfold getWordsWithPrefix, getNodeWithPrefix.
  destruct (node_at (tokens p) (root (trie_of ws))) as [n|] eqn:En.
  - pose proof (fun path => word_at_below _ path _ _ En) as Hbelow. pose proof (node_at_ok _ _ _ Hok En) as Hn. split.
    + intros v. rewrite (word_of_descendant address n v Hn). split.
      * intros (path & Hp). rewrite <- Hbelow in Hp. split; [by eapply Hall|]. exists path. by apply Htok.
      * intros (Hf & path & Hp). exists path. by rewrite <- Hbelow, Hat, <- Hp.
    + apply (words_NoDup address tokens n Hn (tokens p)). intros path v. rewrite <- Hbelow. apply Htok.
  - split; [|constructor]. intros v. split; [by intros ?%elem_of_nil|]. intros (Hf & path & Hp). exfalso.
    rewrite Hp, <- Hat, word_at_node in Hf.
    destruct (node_at (tokens p ++ path) (root (trie_of ws))) as [m|] eqn:Em; [|done]. clear Hf Hp Hall Htok Hat Hok.
    revert En Em. generalize (root (trie_of ws)). induction (tokens p) as [|t q IH]; intros r; [done|]. cbn [app node_at].
    destruct (str_find t (childs r)) as [ch|]; [|done]. apply IH.
Qed.

End Words.

(** ** Descriptors *)

Fixpoint join_runs (c : Ascii.ascii) (ws : list (list Ascii.ascii)) : list Ascii.ascii :=
  match ws with
  | [] => []
  | w :: ws' => match ws' with [] => w | _ => w ++ c :: join_runs c ws' end
  end.

(** A name without an empty token: no dot at its ends and no two in a row. *)
Definition proper (c : Ascii.ascii) (w : string) : Prop :=
  explode w = join_runs c (words_by (is_sep c) [] (explode w)).

#[export] Instance proper_dec c w : Decision (proper c w).
Proof. unfold proper. apply _. Defined.

Lemma join_runs_app c a b : a <> [] -> b <> [] -> join_runs c (a ++ b) = join_runs c a ++ c :: join_runs c b.
Proof.
  intros Ha Hb. induction a as [|w a IH]; [done|]. destruct a as [|w' a].
  - cbn [app join_runs]. by destruct b.
  - cbn [app join_runs] in *. by rewrite IH, <- app_assoc.
Qed.

Lemma words_by_split p c u : forall acc l, p c = true ->
  words_by p acc (u ++ c :: l) = words_by p acc u ++ words_by p [] l.
Proof.
  induction u as [|x u IH]; intros acc l Hc; cbn [app words_by]; [by rewrite Hc|].
  destruct (p x); rewrite IH by done; [by rewrite app_assoc|done].
Qed.

Lemma runs_inj c v w : proper c v -> proper c w -> runs c (explode v) = runs c (explode w) -> v = w.
Proof.
  intros Hv Hw Heq%(list_fmap_eq_inj implode implode_inj). apply explode_inj. by rewrite Hv, Hw, Heq.
Qed.

Lemma runs_prefix c d v : proper c d -> proper c v ->
  runs c (explode d) `prefix_of` runs c (explode v) <->
  explode d = [] \/ v = d \/ exists rest, explode v = explode d ++ c :: rest.
Proof.
  intros Hd Hv. unfold runs. split.
  - intros (r & Hr). destruct (decide (words_by (is_sep c) [] (explode d) = [])) as [E|E].
    { left. by rewrite Hd, E. }
    right. apply fmap_app_inv in Hr as (a & b & Ha & -> & Hab).
    apply (list_fmap_eq_inj implode implode_inj) in Ha. rewrite <- Ha in Hab.
    destruct b as [|x b].
    + left. rewrite app_nil_r in Hab. apply explode_inj. by rewrite Hv, Hab, <- Hd.
    + right. exists (join_runs c (x :: b)). rewrite Hv, Hab, join_runs_app by done. by rewrite <- Hd.
  - intros [->|[->|(rest & ->)]]; [apply prefix_nil|done|].
    rewrite words_by_split by (unfold is_sep; by rewrite Ascii.eqb_refl). rewrite fmap_app. by eexists.
Qed.

(** Asked for a descriptor, the trie of a list of proper event names
    answers with exactly the names the descriptor stands for - itself and its
    extensions by a dot, or all of them for the empty descriptor - and with
    each of them once, wherever its nodes are allocated. *)
Theorem trie_descriptors (address : nat -> Z) ws d :
  Forall (proper ".") ws -> proper "." d ->
  (forall v, v ∈ value <$> getWordsWithPrefix ["."%char] address (trie_of ["."%char] ws) d <->
     v ∈ ws /\ (explode d = [] \/ v = d \/ exists rest, explode v = explode d ++ "."%char :: rest)) /\
  NoDup (value <$> getWordsWithPrefix ["."%char] address (trie_of ["."%char] ws) d).
Proof.
  intros Hws Hd. destruct (words_with_prefix ["."%char] address ws d) as [Hin Hnd]. split; [|done].
  intros v. rewrite Hin, !word_tokens_runs. unfold same_tokens. rewrite Forall_forall in Hws. split.
  - intros [[Hv _]%List.find_some Hp]. apply list_elem_of_In in Hv. split; [done|].
    apply runs_prefix in Hp; auto.
  - intros [Hv Hp]. split; [|by apply runs_prefix; auto].
    destruct (List.find _ ws) as [w|] eqn:Ef.
    + apply List.find_some in Ef as [Hw Ht%bool_decide_eq_true]. apply list_elem_of_In in Hw.
      rewrite word_tokens_runs in Ht. f_equal. apply (runs_inj "."); auto.
    + apply list_elem_of_In in Hv. apply (List.find_none _ _ Ef), bool_decide_eq_false in Hv.
      by rewrite word_tokens_runs in Hv.
Qed.

Definition sample_words : list string := ["error.execution"; "error"; "done.state.s1"; "errors"]%string.

Lemma trie_descriptors_witness :
  "error.execution"%string ∈ value <$> getWordsWithPrefix ["."%char] Z.of_nat (trie_of ["."%char] sample_words) "error".
Proof.
  apply (trie_descriptors Z.of_nat sample_words "error"); [repeat constructor|done|].
  split; [by left|]. right. right. by exists (explode "execution").
Defined.
