(* ===== verification/VhdlFifo.v ===== *)
(** * The event queue of the emitted hardware: [writeFiFo] of [transform/ChartToVHDL.cpp]

    [std_fifo] is a ring buffer of [FIFO_DEPTH] words with a pointer to the
    next word to write, one to the next word to read, and a flag that tells a
    full buffer from an empty one. The process runs at every rising edge; what
    its signals were before the reset is arbitrary. *)

From stdpp Require Import base list.
From S2P Require Import Prelude.

Local Open Scope nat_scope.

Section Fifo.
Context {A : Type} (FIFO_DEPTH : nat).

(** The variables of [fifo_proc] and its output ports. *)
Record Fifo := mkFifo {
  Memory : list A; Head : nat; Tail : nat; Looped : bool;
  data_out : A; empty : bool; full : bool;
}.

Definition fifo_reset (f : Fifo) : Fifo := mkFifo (Memory f) 0 0 false (data_out f) true false.

Definition fifo_read (f : Fifo) : Fifo :=
  if Looped f || negb (Head f =? Tail f) then
    let out := match Memory f !! Tail f with Some x => x | None => data_out f end in
    if Tail f =? FIFO_DEPTH - 1 then mkFifo (Memory f) (Head f) 0 false out (empty f) (full f)
    else mkFifo (Memory f) (Head f) (Tail f + 1) (Looped f) out (empty f) (full f)
  else f.

Definition fifo_write (data_in : A) (f : Fifo) : Fifo :=
  if negb (Looped f) || negb (Head f =? Tail f) then
    let memory := <[Head f := data_in]> (Memory f) in
    if Head f =? FIFO_DEPTH - 1 then mkFifo memory 0 (Tail f) true (data_out f) (empty f) (full f)
    else mkFifo memory (Head f + 1) (Tail f) (Looped f) (data_out f) (empty f) (full f)
  else f.

Definition fifo_flags (f : Fifo) : Fifo :=
  let set e fl := mkFifo (Memory f) (Head f) (Tail f) (Looped f) (data_out f) e fl in
  if Head f =? Tail f then if Looped f then set (empty f) true else set true (full f)
  else set false false.

(** One rising edge. *)
Definition fifo_proc (rst write_en read_en : bool) (data_in : A) (f : Fifo) : Fifo :=
  if rst then fifo_reset f
  else
    let f := if read_en then fifo_read f else f in
    let f := if write_en then fifo_write data_in f else f in
    fifo_flags f.

(** ** The abstract queue *)

(** The words waiting, oldest first. *)
Definition contents (f : Fifo) : list A :=
  if Looped f then drop (Tail f) (Memory f) ++ take (Head f) (Memory f)
  else substr (Memory f) (Tail f) (Head f - Tail f).

(** A queue of at most [FIFO_DEPTH] words and the word read last: reading
    comes before writing, and a word for which there is no room is lost. *)
Definition queue_read (qo : list A * A) : list A * A :=
  match fst qo with x :: q => (q, x) | [] => qo end.

Definition queue_write (data_in : A) (qo : list A * A) : list A * A :=
  if length (fst qo) <? FIFO_DEPTH then (fst qo ++ [data_in], snd qo) else qo.

Definition queue_proc (write_en read_en : bool) (data_in : A) (qo : list A * A) : list A * A :=
  let qo := if read_en then queue_read qo else qo in
  if write_en then queue_write data_in qo else qo.

(** ** Refinement *)

#[local] Arguments substr : simpl never.
#[local] Arguments Nat.sub : simpl never.
#[local] Arguments Nat.ltb : simpl never.

Record pointers_ok (f : Fifo) : Prop := {
  ok_memory : length (Memory f) = FIFO_DEPTH;
  ok_head : Head f < FIFO_DEPTH;
  ok_tail : Tail f < FIFO_DEPTH;
  ok_order : if Looped f then Head f <= Tail f else Tail f <= Head f;
}.

Definition fifo_ok (f : Fifo) : Prop :=
  pointers_ok f /\ empty f = bool_decide (contents f = []) /\
  full f = bool_decide (length (contents f) = FIFO_DEPTH).

Definition abstraction (f : Fifo) : list A * A := (contents f, data_out f).

Lemma contents_length f : pointers_ok f ->
  length (contents f) = if Looped f then FIFO_DEPTH + Head f - Tail f else Head f - Tail f.
Proof.
  intros [Hm Hh Ht Ho]. unfold contents, substr. destruct (Looped f).
  - rewrite length_app, length_drop, length_take, Hm. lia.
  - rewrite length_take, length_drop, Hm. lia.
Qed.

Lemma fifo_read_ok f : pointers_ok f ->
  pointers_ok (fifo_read f) /\ abstraction (fifo_read f) = queue_read (abstraction f).
Proof.
  intros Hok. pose proof (contents_length f Hok) as Hlen. destruct Hok as [Hm Hh Ht Ho].
  destruct f as [mem h t lp out e fl]. unfold fifo_read, abstraction, queue_read, contents in *. cbn in *.
  destruct (lp || negb (h =? t)) eqn:Ec.
  - assert (Hlt : t < length mem) by lia. destruct (lookup_lt_is_Some_2 mem t Hlt) as [x Hx]. rewrite Hx.
    destruct (Nat.eqb_spec t (FIFO_DEPTH - 1)) as [Et|Et]; cbn.
    + destruct lp; [|cbn in *; bool_prop; lia]. split; [split; cbn; lia|].
      rewrite (drop_S _ _ _ Hx), (drop_ge mem (S t)) by lia. unfold substr. rewrite drop_0, Nat.sub_0_r. done.
    + split.
      * split; cbn; try lia. destruct lp; [|cbn in *; bool_prop; lia]. lia.
      * destruct lp; cbn in *; bool_prop.
        -- rewrite (drop_S _ _ _ Hx), Nat.add_1_r. done.
        -- unfold substr. rewrite (drop_S _ _ _ Hx), Nat.add_1_r.
           replace (h - t) with (S (h - S t)) by lia. done.
  - destruct lp; [done|]. cbn in Ec. bool_prop. subst h. split; [by split|].
    cbn. unfold substr. by rewrite Nat.sub_diag.
Qed.

Lemma take_snoc_insert (l : list A) i x : i < length l -> take (S i) (<[i := x]> l) = take i l ++ [x].
Proof.
  intros Hi. rewrite (take_S_r _ _ x) by by apply list_lookup_insert_eq. by rewrite take_insert_ge.
Qed.

Lemma substr_insert (l : list A) t h x : t <= h -> h < length l ->
  substr (<[h := x]> l) t (S h - t) = substr l t (h - t) ++ [x].
Proof.
  intros Ht Hh. unfold substr. rewrite <- !skipn_firstn_comm, take_snoc_insert by lia.
  by rewrite drop_app_le by (rewrite length_take; lia).
Qed.

Lemma fifo_write_ok d f : pointers_ok f ->
  pointers_ok (fifo_write d f) /\ abstraction (fifo_write d f) = queue_write d (abstraction f).
Proof.
  intros Hok. pose proof (contents_length f Hok) as Hlen. destruct Hok as [Hm Hh Ht Ho].
  unfold fifo_write, queue_write, abstraction. cbn [fst snd]. rewrite Hlen. unfold contents. clear Hlen.
  destruct f as [mem h t lp out e fl]. cbn in *.
  destruct (negb lp || negb (h =? t)) eqn:Ec.
  - rewrite (proj2 (Nat.ltb_lt _ _)) by (destruct lp; cbn in *; bool_prop; lia).
    destruct (Nat.eqb_spec h (FIFO_DEPTH - 1)) as [Eh|Eh]; cbn.
    + destruct lp; [cbn in *; bool_prop; lia|]. split; [split; cbn; rewrite ?length_insert; lia|].
      cbn [take]. rewrite app_nil_r. rewrite <- substr_insert by lia. unfold substr.
      by rewrite take_ge by (rewrite length_drop, length_insert; lia).
    + split; [split; cbn; rewrite ?length_insert; try lia; destruct lp; cbn in *; bool_prop; lia|].
      rewrite Nat.add_1_r. destruct lp; cbn in *; bool_prop.
      * rewrite drop_insert_lt by lia. rewrite take_snoc_insert by lia. by rewrite app_assoc.
      * by rewrite substr_insert by lia.
  - destruct lp; [|done]. cbn in Ec. bool_prop. subst h. split; [by split|].
    by rewrite (proj2 (Nat.ltb_ge _ _)) by lia.
Qed.

#[local] Arguments contents : simpl never.

(** With pointers that are right, the new flags are right when no full buffer
    was marked empty before and no empty one full. *)
Lemma fifo_flags_ok f : 1 <= FIFO_DEPTH -> pointers_ok f ->
  (empty f = true -> length (contents f) < FIFO_DEPTH) -> (full f = true -> contents f <> []) ->
  fifo_ok (fifo_flags f) /\ abstraction (fifo_flags f) = abstraction f.
Proof.
  intros Hd Hok He Hf. pose proof (contents_length f Hok) as Hlen.
  assert (Hnil : contents f = [] <-> length (contents f) = 0) by (split; [by intros ->|apply nil_length_inv]).
  destruct f as [mem h t lp out e fl].
  assert (Hc : forall e' fl', contents (mkFifo mem h t lp out e' fl') = contents (mkFifo mem h t lp out e fl)) by done.
  assert (Hp : forall e' fl', pointers_ok (mkFifo mem h t lp out e' fl')) by (intros; by destruct Hok).
  destruct Hok as [Hm Hh Ht Ho]. unfold fifo_flags, fifo_ok, abstraction. cbn in *.
  destruct (Nat.eqb_spec h t) as [E|E]; [destruct lp|destruct lp]; cbn in *; rewrite !Hc;
    (split; [split; [apply Hp|]|done]); split; symmetry.
  - destruct e; [specialize (He eq_refl); lia|]. rewrite bool_decide_eq_false, Hnil. lia.
  - rewrite bool_decide_eq_true. lia.
  - rewrite bool_decide_eq_true, Hnil. lia.
  - destruct fl; [exfalso; apply (Hf eq_refl), Hnil; lia|]. rewrite bool_decide_eq_false. lia.
  - rewrite bool_decide_eq_false, Hnil. lia.
  - rewrite bool_decide_eq_false. lia.
  - rewrite bool_decide_eq_false, Hnil. lia.
  - rewrite bool_decide_eq_false. lia.
Qed.

Lemma fifo_flags_kept f d : empty (fifo_read f) = empty f /\ full (fifo_read f) = full f /\
  empty (fifo_write d f) = empty f /\ full (fifo_write d f) = full f.
Proof. unfold fifo_read, fifo_write. repeat case_match; done. Qed.

(** An edge changes the number of waiting words by at most one. *)
Lemma queue_proc_length write_en read_en d qo :
  length (fst qo) - 1 <= length (fst (queue_proc write_en read_en d qo)) <= length (fst qo) + 1.
Proof.
  destruct qo as [q out]. unfold queue_proc, queue_write.
  assert (Hr : forall b, length q - 1 <= length (fst (if b : bool then queue_read (q, out) else (q, out))) <= length q).
  { intros [|]; [|cbn; lia]. unfold queue_read. destruct q; cbn; lia. }
  specialize (Hr read_en). destruct write_en; [|cbn [fst]; lia].
  destruct (if read_en then _ else _) as [q' out']. cbn [fst] in *.
  case_match; cbn [fst]; rewrite ?length_app; cbn [length]; lia.
Qed.

Lemma fifo_proc_ok f write_en read_en data_in : 2 <= FIFO_DEPTH ->
  (length (Memory f) = FIFO_DEPTH ->
   fifo_ok (fifo_proc true write_en read_en data_in f) /\
   abstraction (fifo_proc true write_en read_en data_in f) = ([], data_out f)) /\
  (fifo_ok f ->
   fifo_ok (fifo_proc false write_en read_en data_in f) /\
   abstraction (fifo_proc false write_en read_en data_in f) = queue_proc write_en read_en data_in (abstraction f)).
Proof.
  intros Hd. split.
  - intros Hm. unfold fifo_proc, fifo_reset, fifo_ok, abstraction. cbn.
    split; [|done]. split; [split; cbn; lia|]. split; [done|]. symmetry. apply bool_decide_eq_false.
    change (0 <> FIFO_DEPTH). lia.
  - intros (Hok & He & Hf). unfold fifo_proc, queue_proc.
    set (f1 := if read_en then fifo_read f else f).
    assert (H1 : pointers_ok f1 /\ abstraction f1 = (if read_en then queue_read (abstraction f) else abstraction f)).
    { unfold f1. destruct read_en; [by apply fifo_read_ok|done]. }
    set (f2 := if write_en then fifo_write data_in f1 else f1).
    assert (H2 : pointers_ok f2 /\ abstraction f2 =
      (if write_en then queue_write data_in (abstraction f1) else abstraction f1)).
    { unfold f2. destruct write_en; [apply fifo_write_ok, H1|]. by destruct H1. }
    destruct H1 as [Hp1 H1], H2 as [Hp2 H2]. rewrite <- H1, <- H2.
    assert (Hflags : empty f2 = empty f /\ full f2 = full f).
    { destruct (fifo_flags_kept f data_in) as (? & ? & _), (fifo_flags_kept f1 data_in) as (_ & _ & ? & ?).
      unfold f2, f1 in *. destruct write_en, read_en; split; congruence. }
    destruct Hflags as [He2 Hf2]. pose proof (queue_proc_length write_en read_en data_in (abstraction f)) as Hlen.
    unfold queue_proc in Hlen. rewrite <- H1, <- H2 in Hlen. cbn [abstraction fst] in Hlen.
    apply fifo_flags_ok; [lia|done|..].
    + rewrite He2, He, bool_decide_eq_true. intros Hnil. rewrite Hnil in Hlen. cbn in Hlen. lia.
    + rewrite Hf2, Hf, bool_decide_eq_true. intros Hfull Hnil. rewrite Hnil in Hlen. cbn in Hlen. lia.
Qed.

(** C32: the ring buffer implements a bounded queue. From any state in which its
    flags tell the truth, a clock edge does to the waiting words and to the
    word on the output port what the abstract queue does - so words leave in
    the order in which they came, and one that finds the buffer full is
    dropped - and the flags tell the truth again; the reset empties it. *)
Theorem fifo_refines_queue f write_en read_en data_in : 2 <= FIFO_DEPTH ->
  (length (Memory f) = FIFO_DEPTH ->
   fifo_ok (fifo_proc true write_en read_en data_in f) /\
   abstraction (fifo_proc true write_en read_en data_in f) = ([], data_out f)) /\
  (fifo_ok f ->
   fifo_ok (fifo_proc false write_en read_en data_in f) /\
   abstraction (fifo_proc false write_en read_en data_in f) = queue_proc write_en read_en data_in (abstraction f)).
Proof. apply fifo_proc_ok. Qed.

End Fifo.

Definition sample_fifo : Fifo := mkFifo [7; 8] 1 1 true 0 false true.

Lemma fifo_refines_queue_witness :
  abstraction (fifo_proc 2 false true true 9 sample_fifo) = ([7; 9], 8).
Proof.
  apply (fifo_refines_queue 2 sample_fifo true true 9); [lia|].
  split; [split; cbn; lia|]. by split.
Defined.
