(* ===== verification/VhdlController.v ===== *)
(** * The event controller of the emitted hardware

    [writeEventController] of transform/ChartToVHDL.cpp prints a sequencer for
    the raise and send elements of the document: while the micro stepper is
    stalled, each element whose block runs puts its event on a bus, in document
    order, and then the micro stepper is let go. The sequencer is modelled with
    the lines of the micro stepper as inputs. *)

From stdpp Require Import base list strings.
From S2P Require Import Prelude.

Local Open Scope nat_scope.
#[local] Arguments Nat.ltb : simpl never.
#[local] Arguments Nat.leb : simpl never.
#[local] Arguments Nat.eqb : simpl never.
#[local] Arguments Nat.min : simpl never.
#[local] Arguments Nat.sub : simpl never.

(** The registers of [ex_content_block]. *)
Record Controller := mkController {
  done_sig : list bool; event_bus : string; event_we : bool; cmpl_buf : bool; completed : bool;
}.

Section Controller.
(** The codes of the elements' events; [getLineForExecContent] gives the line
    of each element, [busy] is the disjunction of all lines. *)
Context (codes : list string).
Notation n := (length codes).

Definition on (l : list bool) (i : nat) : bool := default false (l !! i).

Section Lines.
Context (lines : list bool) (busy : bool).

(** [seq_i_sig]: the first is '1', each other one looks at its predecessor. *)
Fixpoint seq_sig (c : Controller) (i : nat) : bool :=
  match i with
  | 0 => true
  | S i' => on (done_sig c) i' || (negb (on lines i) && seq_sig c i')
  end.

Definition start_sig (c : Controller) (i : nat) : bool :=
  on lines i && negb (on (done_sig c) i) && seq_sig c i.

Definition micro_stepper_en (c : Controller) : bool := completed c || negb busy.

(** The chain [if start_0_sig ... elsif start_1_sig ...]. *)
Definition first_start (c : Controller) : option nat :=
  head (List.filter (start_sig c) (seq 0 n)).

(** One rising edge without reset. *)
Definition ex_content_block (c : Controller) : Controller :=
  let cmpl := if micro_stepper_en c then false else seq_sig c (n - 1) in
  match first_start c with
  | Some i => mkController (<[i := true]> (done_sig c)) (default ""%string (codes !! i)) true cmpl (cmpl_buf c)
  | None =>
      if micro_stepper_en c
      then mkController (replicate n false) (event_bus c) false cmpl (cmpl_buf c)
      else mkController (done_sig c) (event_bus c) (event_we c) cmpl (cmpl_buf c)
  end.

End Lines.

Definition controller_reset (zeros : string) : Controller := mkController (replicate n false) zeros false false false.

(** The state after [k] edges while the lines stay as they are. *)
Fixpoint controller_run (lines : list bool) (k : nat) (c : Controller) : Controller :=
  match k with 0 => c | S k => controller_run lines k (ex_content_block lines true c) end.

(** What the queue behind the bus is told to store at these edges. *)
Fixpoint bus_writes (lines : list bool) (k : nat) (c : Controller) : list string :=
  match k with
  | 0 => []
  | S k => (if event_we c then [event_bus c] else []) ++ bus_writes lines k (ex_content_block lines true c)
  end.

Lemma controller_run_S lines k c : controller_run lines (S k) c = ex_content_block lines true (controller_run lines k c).
Proof. revert c. induction k as [|k IH]; intros c; [done|]. cbn [controller_run] in *. by rewrite IH. Qed.

Lemma bus_writes_add lines j k c :
  bus_writes lines (j + k) c = bus_writes lines j c ++ bus_writes lines k (controller_run lines j c).
Proof. revert c. induction j as [|j IH]; intros c; [done|]. cbn. by rewrite IH, app_assoc. Qed.

(** The active elements come first. *)
Definition lines_prefix (lines : list bool) : Prop :=
  forall i, on lines (S i) = true -> on lines i = true.

(** ** A run of active elements *)

Section Active.
Context (lines : list bool).

(** Idle, as after the reset or after the micro stepper was let go. *)
Definition idle (c : Controller) : Prop :=
  done_sig c = replicate n false /\ event_we c = false /\ cmpl_buf c = false /\ completed c = false.

(** *** Stuck *)

(** An active element behind an inactive one blocks everything behind it. *)
Definition blocked (i : nat) (c : Controller) : Prop :=
  on (done_sig c) i = false /\ (forall j, i < j -> on (done_sig c) j = false) /\ cmpl_buf c = false /\ completed c = false.

Lemma on_insert l i j b : on (<[i := b]> l) j = if decide (i = j /\ i < length l) then b else on l j.
Proof.
  unfold on. destruct (decide (i = j)) as [->|Hne].
  - destruct (decide (j < length l)) as [Hl|Hl].
    + rewrite decide_True by done. by rewrite list_lookup_insert_eq.
    + rewrite decide_False by tauto. by rewrite list_insert_ge by lia.
  - rewrite decide_False by tauto. by rewrite list_lookup_insert_ne.
Qed.

Lemma blocked_seq i c j : on lines i = false -> on lines (S i) = true -> blocked i c -> i < j -> seq_sig lines c j = false.
Proof.
  intros Hi Hs (Hd & Hb & _) Hj. induction j as [|j IH]; [lia|]. cbn [seq_sig].
  destruct (decide (j = i)) as [->|Hne]; [by rewrite Hd, Hs|].
  rewrite IH by lia. rewrite Hb by lia. by rewrite andb_false_r.
Qed.

Lemma first_start_Some c i : first_start lines c = Some i -> i < n /\ start_sig lines c i = true.
Proof.
  unfold first_start. intros H. destruct (List.filter _ _) as [|x l] eqn:E; [done|]. injection H as ->.
  assert (Hin : In i (List.filter (start_sig lines c) (seq 0 n))) by (rewrite E; by left).
  apply filter_In in Hin as [Hin Hs]. apply in_seq in Hin. split; [lia|done].
Qed.

Lemma blocked_step i c : length lines = n -> on lines i = false -> on lines (S i) = true -> blocked i c ->
  blocked i (ex_content_block lines true c) /\ micro_stepper_en true c = false.
Proof.
  intros Hlen Hi Hs Hb. assert (Hn : S i < n).
  { rewrite <- Hlen. unfold on in Hs. destruct (lines !! S i) eqn:E; [|done]. by eapply lookup_lt_Some. }
  pose proof (fun j => blocked_seq i c j Hi Hs Hb) as Hseq. destruct Hb as (Hd & Hb & Hc & Hco).
  assert (Hen : micro_stepper_en true c = false) by (unfold micro_stepper_en; by rewrite Hco). split; [|done].
  unfold ex_content_block. rewrite Hen, Hseq by lia.
  destruct (first_start lines c) as [j|] eqn:Ef; [|by split_and!].
  apply first_start_Some in Ef as [Hj Hst]. unfold start_sig in Hst. bool_prop.
  assert (Hji : j < i).
  { destruct (decide (j < i)) as [|Hge]; [done|]. destruct (decide (j = i)) as [->|]; [congruence|].
    rewrite Hseq in * by lia. done. }
  unfold blocked. cbn. split_and!; [|intros k Hk| |]; try done; rewrite on_insert, decide_False by lia; auto.
Qed.

Lemma blocked_run i k : forall c, length lines = n -> on lines i = false -> on lines (S i) = true -> blocked i c ->
  micro_stepper_en true (controller_run lines k c) = false.
Proof.
  induction k as [|k IH]; intros c Hlen Hi Hs Hb; cbn [controller_run].
  - by apply (blocked_step i).
  - apply IH; [done..|]. by apply (blocked_step i).
Qed.

(** *** Running through *)

Lemma replicate_middle s (r : list bool) : replicate s true ++ true :: r = true :: replicate s true ++ r.
Proof. induction s as [|s IH]; cbn; [done|by rewrite IH]. Qed.

Lemma take_numbered m : m <= n -> (fun i => default ""%string (codes !! (i - 1))) <$> seq 1 m = take m codes.
Proof.
  intros Hm. apply list_eq. intros i. rewrite list_lookup_fmap. destruct (decide (i < m)) as [Hi|Hi].
  - rewrite lookup_seq_lt, lookup_take_lt by done. cbn. replace (S i - 1) with i by lia.
    destruct (lookup_lt_is_Some_2 codes i ltac:(lia)) as [x Hx]. by rewrite Hx.
  - rewrite lookup_seq_ge, lookup_take_ge by lia. done.
Qed.

Section Prefix.
Context (k : nat) (Hk : k <= n) (Hon : forall i, on lines i = (i <? k)).

(** After [s] edges: the first [s] elements are done, the last of them is on
    the bus; when the last active one is done, completion is on its way. *)
Record at_phase (s : nat) (c : Controller) : Prop := {
  ph_done : done_sig c = replicate s true ++ replicate (n - s) false;
  ph_we : event_we c = (0 <? s);
  ph_bus : 0 < s -> event_bus c = default ""%string (codes !! (s - 1));
  ph_cmpl : cmpl_buf c = ((0 <? k) && (s =? k));
  ph_completed : completed c = false;
}.

Lemma idle_phase c : 0 < k -> idle c -> at_phase 0 c.
Proof.
  intros Hpos (Hd & Hw & Hc & Hco). split; rewrite ?Nat.sub_0_r; try done; [lia|].
  rewrite Hc. symmetry. apply andb_false_iff. right. apply Nat.eqb_neq. lia.
Qed.

Lemma phase_done s c i : at_phase s c -> s <= n -> on (done_sig c) i = (i <? s).
Proof.
  intros [-> _ _ _ _] Hs. unfold on. destruct (Nat.ltb_spec i s).
  - rewrite lookup_app_l by (by rewrite length_replicate). by rewrite lookup_replicate_2.
  - rewrite lookup_app_r by (by rewrite length_replicate).
    destruct (replicate (n - s) false !! _) as [b|] eqn:E; [|done]. by apply lookup_replicate in E as [-> _].
Qed.

Lemma phase_seq s c j : at_phase s c -> s <= k -> seq_sig lines c j = (Nat.min j (k - 1) <=? s).
Proof.
  intros Hp Hs. induction j as [|j IH]; [done|]. cbn [seq_sig].
  rewrite IH, Hon, (phase_done s) by (done || lia). apply eq_true_iff_eq.
  rewrite orb_true_iff, andb_true_iff, negb_true_iff, Nat.ltb_lt, Nat.ltb_ge, !Nat.leb_le. lia.
Qed.

Lemma phase_start s c i : at_phase s c -> s <= k -> start_sig lines c i = true <-> i = s /\ s < k.
Proof.
  intros Hp Hs. unfold start_sig. rewrite (phase_seq s), Hon, (phase_done s) by (done || lia).
  rewrite !andb_true_iff, negb_true_iff, Nat.ltb_lt, Nat.ltb_ge, Nat.leb_le. lia.
Qed.

Lemma phase_first_start s c : at_phase s c -> s <= k -> first_start lines c = if s <? k then Some s else None.
Proof.
  intros Hp Hs. destruct (first_start lines c) as [i|] eqn:Ef.
  - apply first_start_Some in Ef as [_ [-> Hlt]%(phase_start s)]; [|done..]. by rewrite (proj2 (Nat.ltb_lt s k)).
  - destruct (Nat.ltb_spec s k) as [Hlt|]; [|done]. exfalso. unfold first_start in Ef. apply head_None in Ef.
    assert (Hin : In s (List.filter (start_sig lines c) (seq 0 n))); [|by rewrite Ef in Hin].
    apply filter_In. split; [apply in_seq; lia|]. by apply (phase_start s).
Qed.

Lemma phase_step s c : 0 < n -> at_phase s c -> s < k -> at_phase (S s) (ex_content_block lines true c).
Proof.
  intros Hn Hp Hs. unfold ex_content_block. rewrite (phase_first_start s c Hp) by lia.
  rewrite (proj2 (Nat.ltb_lt s k) Hs). rewrite (phase_seq s c (n - 1) Hp) by lia.
  destruct Hp as [Hd Hw Hb Hc Hco]. unfold micro_stepper_en. rewrite Hco. split; cbn.
  - rewrite Hd, insert_app_r_alt by (by rewrite length_replicate). rewrite length_replicate, Nat.sub_diag.
    replace (n - s) with (S (n - S s)) by lia. cbn [replicate insert list_insert].
    apply replicate_middle.
  - done.
  - intros _. by replace (S s - 1) with s by lia.
  - apply eq_true_iff_eq. rewrite andb_true_iff, Nat.leb_le, Nat.ltb_lt, Nat.eqb_eq. lia.
  - rewrite Hc. apply andb_false_iff. right. apply Nat.eqb_neq. lia.
Qed.

Lemma run_phase j : forall s c, 0 < n -> at_phase s c -> s + j <= k -> at_phase (s + j) (controller_run lines j c).
Proof.
  induction j as [|j IH]; intros s c Hn Hp Hs; cbn [controller_run]; [by rewrite Nat.add_0_r|].
  replace (s + S j) with (S s + j) by lia. apply IH; [done| |lia]. apply phase_step; [done..|lia].
Qed.

Lemma run_writes j : forall s c, 0 < n -> 0 < s -> at_phase s c -> s + j = k ->
  bus_writes lines j c ++ [default ""%string (codes !! (k - 1))] =
  (fun i => default ""%string (codes !! (i - 1))) <$> seq s (S j).
Proof.
  induction j as [|j IH]; intros s c Hn Hpos Hp Hs; cbn [bus_writes].
  - by assert (s = k) as -> by lia.
  - rewrite <- app_assoc, (IH (S s)) by (try apply phase_step; (done || lia)). cbn [seq fmap list_fmap].
    destruct Hp as [_ Hwe Hb _ _]. rewrite Hwe, (proj2 (Nat.ltb_lt 0 s)) by done. cbn [app]. by rewrite Hb.
Qed.

(** The two edges after the last active element. *)
Lemma phase_finish c : 0 < n -> 0 < k -> at_phase k c ->
  let c1 := ex_content_block lines true c in
  event_we c1 = true /\ event_bus c1 = default ""%string (codes !! (k - 1)) /\
  micro_stepper_en true c = false /\ micro_stepper_en true c1 = true.
Proof.
  intros Hn Hpos Hp. unfold ex_content_block. rewrite (phase_first_start k c Hp), Nat.ltb_irrefl by lia.
  destruct Hp as [Hd Hw Hb Hc Hco]. rewrite Nat.eqb_refl in Hc. rewrite (proj2 (Nat.ltb_lt 0 k)) in Hw, Hc by done.
  unfold micro_stepper_en. rewrite Hco. cbn. rewrite Hw, Hc. split_and!; try done. by apply Hb.
Qed.

End Prefix.

(** The number of active elements, when they come first. *)
Lemma lines_prefix_count : length lines = n -> lines_prefix lines -> exists k, k <= n /\ forall i, on lines i = (i <? k).
Proof.
  intros Hlen Hp. assert (Hdown : forall d i, on lines (i + d) = true -> on lines i = true).
  { induction d as [|d IH]; intros i; [by rewrite Nat.add_0_r|]. rewrite Nat.add_succ_r. intros H%Hp. auto. }
  assert (Hout : forall i, n <= i -> on lines i = false).
  { intros i Hi. unfold on. by rewrite lookup_ge_None_2 by lia. }
  assert (Hk : forall m, m <= n -> (forall i, m <= i -> on lines i = false) ->
    exists k, k <= n /\ forall i, on lines i = (i <? k)); [|by apply (Hk n)].
  induction m as [|m IH]; intros Hm Hf.
  - exists 0. split; [lia|]. intros i. rewrite Hf by lia. symmetry. apply Nat.ltb_ge. lia.
  - destruct (on lines m) eqn:E; [|apply IH; [lia|]; intros i Hi; destruct (decide (i = m)) as [->|]; [done|apply Hf; lia]].
    exists (S m). split; [done|]. intros i. destruct (Nat.ltb_spec i (S m)).
    + apply (Hdown (m - i)). by replace (i + (m - i)) with m by lia.
    + apply Hf. lia.
Qed.

End Active.

(** ** Properties *)

(** C33: the sequencer lets the micro stepper go again exactly when no active
    raise or send element comes behind an inactive one in the document;
    otherwise it is stalled for ever. *)
Theorem controller_completes lines c : 0 < n -> length lines = n -> idle c ->
  (exists k, micro_stepper_en true (controller_run lines k c) = true) <-> lines_prefix lines.
Proof.
  intros Hn Hlen (Hd & Hw & Hc & Hco). split.
  - intros (k & Hk) i Hs. destruct (on lines i) eqn:Hi; [done|].
    rewrite (blocked_run lines i k c Hlen Hi Hs) in Hk; [done|].
    assert (Hdone : forall j, on (done_sig c) j = false).
    { intros j. unfold on. rewrite Hd. destruct (replicate n false !! j) eqn:E; [|done].
      by apply lookup_replicate in E as [-> _]. }
    by split_and!.
  - intros (k & Hk & Hon)%(lines_prefix_count lines Hlen).
    destruct (decide (k = 0)) as [->|Hk0].
    + assert (Hseq : forall c' j, seq_sig lines c' j = true).
      { intros c'. induction j as [|j IH]; [done|]. cbn [seq_sig]. rewrite Hon, IH. by rewrite orb_true_r. }
      assert (Hst : forall c', first_start lines c' = None).
      { intros c'. destruct (first_start lines c') as [i|] eqn:E; [|done].
        apply first_start_Some in E as [_ E]. unfold start_sig in E. rewrite Hon, (proj2 (Nat.ltb_ge i 0)) in E by lia. done. }
      assert (Hstep : forall c', completed c' = false -> ex_content_block lines true c' =
        mkController (done_sig c') (event_bus c') (event_we c') true (cmpl_buf c')).
      { intros c' Hc'. unfold ex_content_block, micro_stepper_en. by rewrite Hst, Hseq, Hc'. }
      exists 2. cbn [controller_run]. rewrite (Hstep c Hco), Hstep by done. done.
    + pose proof (idle_phase k Hk c ltac:(lia) (conj Hd (conj Hw (conj Hc Hco)))) as Hp.
      pose proof (run_phase lines k Hk Hon k 0 c Hn Hp (le_n k)) as Hrun.
      exists (S k). rewrite controller_run_S. by apply (phase_finish lines k Hk Hon _ Hn ltac:(lia) Hrun).
Qed.

(** When the first [k] elements are the active ones, the queue behind the
    bus is told to store their events in document order - and the last one
    twice, as it is still on the bus at the edge at which the micro stepper
    goes on. *)
Theorem controller_writes lines c k : length lines = n -> idle c -> 0 < k <= n ->
  (forall i, on lines i = (i <? k)) ->
  bus_writes lines (k + 2) c = take k codes ++ [default ""%string (codes !! (k - 1))] /\
  (forall j, j <= k -> micro_stepper_en true (controller_run lines j c) = false) /\
  micro_stepper_en true (controller_run lines (k + 1) c) = true.
Proof.
  intros Hlen Hidle Hk Hon. assert (Hn : 0 < n) by lia.
  pose proof (idle_phase k ltac:(lia) c ltac:(lia) Hidle) as Hp.
  pose proof (run_phase lines k ltac:(lia) Hon k 0 c Hn Hp (le_n k)) as Hrun.
  destruct (phase_finish lines k ltac:(lia) Hon _ Hn ltac:(lia) Hrun) as (Hw & Hb & _ & Hen).
  split; [|split].
  - destruct k as [|m]; [lia|]. replace (S m + 2) with (1 + (m + 2)) by lia.
    rewrite !bus_writes_add. change (bus_writes lines 1 c) with ((if event_we c then [event_bus c] else []) ++ []).
    rewrite (ph_we _ _ _ Hp), Nat.ltb_irrefl. cbn [app]. change (controller_run lines m (controller_run lines 1 c)) with (controller_run lines (S m) c).
    cbn [bus_writes]. rewrite Hw, Hb, (ph_we _ _ _ Hrun), (ph_bus _ _ _ Hrun) by lia. cbn [Nat.add].
    change (0 <? S m) with true. cbn [app].
    pose proof (run_writes lines (S m) ltac:(lia) Hon m 1 (controller_run lines 1 c)) as Hrw.
    rewrite take_numbered in Hrw by lia. rewrite <- Hrw; [by rewrite <- app_assoc|done|lia| |lia].
    apply (phase_step lines (S m) ltac:(lia) Hon 0); [done..|lia].
  - intros j Hj. pose proof (run_phase lines k ltac:(lia) Hon j 0 c Hn Hp Hj) as Hpj.
    unfold micro_stepper_en. by rewrite (ph_completed _ _ _ Hpj).
  - by rewrite Nat.add_1_r, controller_run_S.
Qed.

End Controller.

Definition sample_codes : list string := ["00"; "01"; "00"]%string.

Lemma controller_completes_witness :
  (exists k, micro_stepper_en true
     (controller_run sample_codes [true; true; false] k (controller_reset sample_codes "00")) = true) /\
  ~ exists k, micro_stepper_en true
     (controller_run sample_codes [false; true; false] k (controller_reset sample_codes "00")) = true.
Proof.
  split.
  - apply (controller_completes sample_codes [true; true; false]); [by vm_compute; lia|done|done|].
    by intros [|[|[|i]]].
  - intros H. apply (controller_completes sample_codes [false; true; false]) in H; [|by vm_compute; lia|done|done].
    by specialize (H 0 eq_refl).
Defined.

Lemma controller_writes_witness :
  bus_writes sample_codes [true; true; false] 4 (controller_reset sample_codes "00") = ["00"; "01"; "01"]%string.
Proof.
  apply (controller_writes sample_codes [true; true; false] (controller_reset sample_codes "00") 2);
    [done|done|split; vm_compute; lia|]. by intros [|[|[|i]]].
Defined.
