(* ===== verification/Vhdl.v ===== *)
(** * The emitted hardware: the micro stepper of [transform/ChartToVHDL.cpp]

    [ChartToVHDL] prints a chart as a circuit: signals for every state and
    transition, equations between them, and clocked registers. The equations
    are expression trees ([VNode] of ChartToVHDL.h), modelled here with the
    signals they mention; how they are printed, and what value they have, are
    functions on them. The bit rows read by the printers are those of
    CTables.v, on the document that [prepare] ordered. *)

From stdpp Require Import base list strings pretty.
From S2P Require Import Prelude Strings Data Dom Predicates CTables Trie.

Local Open Scope nat_scope.

(** ** Signals *)

Inductive Signal :=
| LIT (b : bool)
| in_optimal_transition_set (i : nat)
| optimal_transition_set_combined_sig
| spontaneous_active
| spontaneous_en
| state_active (i : nat)
| state_next (i : nat)
| in_entry_set (i : nat)
| in_exit_set (i : nat)
| in_complete_entry_set (i : nat)
| in_complete_entry_set_up (i : nat)
| event_sig (macro : string)
| transition_condition_fulfilled (i : nat)
| completed_sig
| en
| stall.

#[export] Instance signal_eq_dec : EqDecision Signal.
Proof. solve_decision. Defined.

Definition signal_name (s : Signal) : string :=
  match s with
  | LIT b => if b then "'1'" else "'0'"
  | in_optimal_transition_set i => "in_optimal_transition_set_" +:+ pretty i +:+ "_sig"
  | optimal_transition_set_combined_sig => "optimal_transition_set_combined_sig"
  | spontaneous_active => "spontaneous_active"
  | spontaneous_en => "spontaneous_en"
  | state_active i => "state_active_" +:+ pretty i +:+ "_sig"
  | state_next i => "state_next_" +:+ pretty i +:+ "_sig"
  | in_entry_set i => "in_entry_set_" +:+ pretty i +:+ "_sig"
  | in_exit_set i => "in_exit_set_" +:+ pretty i +:+ "_sig"
  | in_complete_entry_set i => "in_complete_entry_set_" +:+ pretty i +:+ "_sig"
  | in_complete_entry_set_up i => "in_complete_entry_set_up_" +:+ pretty i +:+ "_sig"
  | event_sig macro => "event_" +:+ macro +:+ "_sig"
  | transition_condition_fulfilled i => "transition_condition_fulfilled_" +:+ pretty i +:+ "_i"
  | completed_sig => "completed_sig"
  | en => "en"
  | stall => "stall"
  end.

(** ** Expressions *)

Inductive VNode :=
| VLine (name : Signal)
| VAnd (v : list VNode)
| VOr (v : list VNode)
| VNot (v : VNode)
| VNop (v : VNode).

Definition endl : string := newline.

Fixpoint print (padding : string) (n : VNode) : string :=
  match n with
  | VLine name => " " +:+ signal_name name
  | VAnd v =>
      endl +:+ padding +:+ "( '1' " +:+
      foldr String.append ""
        ((fun c => endl +:+ padding +:+ "  and" +:+ c) <$> (print (padding +:+ "    ") <$> v)) +:+
      padding +:+ ")" +:+ endl
  | VOr v =>
      endl +:+ padding +:+ "( '0' " +:+
      foldr String.append ""
        ((fun c => endl +:+ padding +:+ "  or" +:+ c) <$> (print (padding +:+ "    ") <$> v)) +:+
      endl +:+ padding +:+ ")" +:+ endl
  | VNot v => " ( not" +:+ print (padding +:+ "  ") v +:+ " )"
  | VNop v => print padding v
  end.

(** [VASSIGN]: a concurrent signal assignment. *)
Definition VAssign : Type := Signal * VNode.

Definition print_assign (a : VAssign) : string :=
  " " +:+ signal_name a.1 +:+ " <=" +:+ print "  " a.2 +:+ ";" +:+ endl.

(** The value of an expression; the printed constants '1' and '0' are units. *)
Fixpoint eval (env : Signal -> bool) (n : VNode) : bool :=
  match n with
  | VLine (LIT b) => b
  | VLine name => env name
  | VAnd v => forallb (eval env) v
  | VOr v => existsb (eval env) v
  | VNot v => negb (eval env v)
  | VNop v => eval env v
  end.

(** Signals that are at rest: every assignment holds. *)
Definition at_rest (env : Signal -> bool) (circuit : list VAssign) : Prop :=
  forall s e, (s, e) ∈ circuit -> env s = eval env e.

(** ** [escapeMacro] of util/String.cpp *)

Definition macro_char (c : Ascii.ascii) : bool :=
  let n := Ascii.nat_of_ascii c in
  ((48 <=? n) && (n <=? 57)) || ((65 <=? n) && (n <=? 90)) || ((97 <=? n) && (n <=? 122)) || (n =? 95).

Section Macro.
(** [std::hash<std::string>]; the sum [returnValue += strHash(...)] appends
    the number as one character. *)
Context (strHash : string -> Z).

Definition escapeMacro (s : string) : string :=
  let specialChars := List.filter (fun c => negb (macro_char c)) (explode s) in
  implode (List.filter macro_char (explode s) ++
    match specialChars with
    | [] => []
    | _ => ["_"%char; Ascii.ascii_of_nat (Z.to_nat (strHash (implode specialChars) mod 256))]
    end).

End Macro.

(** ** The printers *)

(** [bools[i]]: a string ends with a NUL; [None] is an access behind it. *)
Definition bool_at (bools : string) (i : nat) : option bool :=
  match explode bools !! i with
  | Some c => Some (Ascii.eqb c "1")
  | None => if i =? length (explode bools) then Some false else None
  end.

(** The members of a numbered list whose bit is set. *)
Definition select_bits {A} (bit : nat -> A -> option bool) (l : list A) : option (list nat) :=
  bits ← mapM (fun ix => bit ix.1 ix.2) (imap pair l);
  Some (filter (fun i => bits !! i = Some true) (seq 0 (length l))).

Section Printers.
Context {node : Type} `{!EqDecision node} {D : DomOps node}.
Context (scxml : node) (strHash : string -> Z) (address : nat -> Z).
Let P : string := XML_PREFIX scxml.
Notation states := (p_states scxml).
Notation transitions := (p_transitions scxml).

(** *** [findEvents] *)

Definition ends_with (c : Ascii.ascii) (s : list Ascii.ascii) : bool := bool_decide (last s = Some c).

Definition event_word (eventName : string) : string :=
  let s := explode eventName in
  let s := if ends_with "*" s then take (length s - 1) s else s in
  implode (if ends_with "." s then take (length s - 1) s else s).

Definition event_words (withEvent : node) : list string :=
  if HAS_ATTR withEvent "event" then
    List.filter (fun w => 0 <? length (explode w)) (event_word <$> tokenize (ATTR withEvent "event"))
  else [].

Definition findEvents : list string :=
  flat_map event_words (inDocumentOrder ((fun t => P +:+ t)%string <$> ["raise"; "send"; "transition"]%string) scxml).

Definition dot : list Ascii.ascii := ["."%char].
Definition _eventTrie : Trie := trie_of dot findEvents.
Definition _eventNames : list string := value <$> getWordsWithPrefix dot address _eventTrie "".

(** [ceil(abs(log2(n)))]; for no event at all an infinity is converted to an integer. *)
Definition _eventBitSize : option nat :=
  match length _eventNames with 0 => None | n => Some (Nat.log2_up n) end.

(** The literals printed for the [jj]-th event. *)
Definition event_code (bits jj : nat) : string := toBinStr (Z.of_nat jj) (bits + 1).

(** *** [writeOptimalTransitionSetSelection] *)

Definition name_matchers (transition : node) : list VNode :=
  if HAS_ATTR transition "event" then
    flat_map (fun desc =>
      (fun n => VLine (event_sig (escapeMacro strHash (value n)))) <$>
        getWordsWithPrefix dot address _eventTrie (if String.eqb desc "*" then "" else desc))
      (tokenize (ATTR transition "event"))
  else [VLine (LIT true)].

Definition conflicters (i : nat) (transition : node) : option (list VNode) :=
  bits ← mapM (bool_at (conflictBools scxml transition)) (seq 0 i);
  Some ((fun j => VLine (in_optimal_transition_set j)) <$> filter (fun j => bits !! j = Some true) (seq 0 i)).

Definition select_transition (i : nat) (transition : node) : option VAssign :=
  source ← getParentNode transition ≫= p_index scxml;
  conf ← conflicters i transition;
  Some (in_optimal_transition_set i,
    VAnd [if HAS_ATTR transition "event" then VNot (VLine spontaneous_active) else VNop (VLine spontaneous_en);
          VNop (VLine (if HAS_ATTR transition "cond" then transition_condition_fulfilled i else LIT true));
          VLine (state_active source);
          VOr (name_matchers transition);
          VNot (VOr conf)]).

Definition writeOptimalTransitionSetSelection : option (list VAssign) :=
  selected ← mapM (fun ix => select_transition ix.1 ix.2) (imap pair transitions);
  Some (selected ++
    [(optimal_transition_set_combined_sig,
      VOr ((fun i => VLine (in_optimal_transition_set i)) <$> seq 0 (length transitions)));
     (spontaneous_active,
      VOr ((fun ix => VLine (in_optimal_transition_set ix.1)) <$>
        List.filter (fun ix => negb (HAS_ATTR ix.2 "event")) (imap pair transitions)))]).

(** *** [writeExitSet] *)

Definition exit_state (i : nat) : option VAssign :=
  exitsetters ← select_bits (fun _ t => bool_at (exitSetBools scxml t) i) transitions;
  Some (in_exit_set i,
    VAnd [VLine (state_active i); VOr ((fun j => VLine (in_optimal_transition_set j)) <$> exitsetters)]).

Definition writeExitSet : option (list VAssign) := mapM exit_state (seq 0 (length states)).

(** *** [writeCompleteEntrySet] *)

(** The attribute parent; only the root is without one. *)
Definition parent_attr (state : node) : option nat := getParentNode state ≫= p_index scxml.

(** The bit that is read is that of the state itself, for every [tmp_state]. *)
Definition entry_setters (i : nat) (state : node) : option (list VNode) :=
  if isCompound state || isParallel state then
    select_bits (fun _ _ => bool_at (childBools scxml state) i) states ≫= fun setters : list nat =>
    Some ((fun k => VLine (in_complete_entry_set_up k)) <$> setters)
  else Some [].

Definition complete_entry_up (i : nat) (state : node) : option VAssign :=
  optimal ← select_bits (fun _ t => bool_at (default ""%string (targetBools scxml t)) i) transitions;
  complete ← entry_setters i state;
  Some (in_complete_entry_set_up i,
    VOr [VOr ((fun j => VLine (in_optimal_transition_set j)) <$> optimal); VOr complete]).

(** Whether the state is what its parent, a compound one, is completed with. *)
Definition default_completion (parentState : node) (i : nat) (state : node) : bool :=
  let parentInit := ATTR parentState "initial" in
  if String.eqb parentInit "" then
    match p_index scxml parentState with Some q => q + 1 =? i | None => false end
  else String.eqb (ATTR state "id") parentInit.

Definition other_active (k : nat) : VNode :=
  VNot (VAnd [VLine (state_active k); VNot (VLine (in_exit_set k))]).

Definition descendant_completion (i parent : nat) (state : node) : option (list VNode) :=
  match getParentState state with
  | Some parentState =>
      pi ← p_index scxml parentState;
      if isCompound parentState then
        if default_completion parentState i state then
          parentNode ← states !! parent;
          select_bits (fun k _ => if k =? i then Some false else bool_at (childBools scxml parentNode) k) states
            ≫= fun others : list nat =>
          Some (VLine (in_entry_set pi) :: (other_active <$> others))
        else Some [VLine (LIT false)]
      else if isParallel parentState then Some [VLine (in_complete_entry_set pi)]
      else Some []
  | None => Some []
  end.

Definition complete_entry (i parent : nat) (state : node) : option VAssign :=
  descendantCompletion ← descendant_completion i parent state;
  Some (in_complete_entry_set i, VOr [VLine (in_complete_entry_set_up i); VAnd descendantCompletion]).

Definition numbered_states : list (nat * nat * node) :=
  omap (fun ix => parent ← parent_attr ix.2; Some (ix.1, parent, ix.2)) (imap pair states).

Definition writeCompleteEntrySet : option (list VAssign) :=
  up ← mapM (fun x => complete_entry_up x.1.1 x.2) numbered_states;
  down ← mapM (fun x => complete_entry x.1.1 x.1.2 x.2) numbered_states;
  Some (up ++ down).

(** *** [writeEntrySet], [writeActiveStateNplusOne], [writeSystemSignalMapping] *)

Definition writeEntrySet : list VAssign :=
  (fun i => (in_entry_set i, VAnd [VLine (in_complete_entry_set i);
    VOr [VLine (in_exit_set i); VNot (VLine (state_active i))]])) <$> seq 0 (length states).

Definition next_state (i : nat) (state : node) : VAssign :=
  (state_next i,
   match parent_attr state with
   | None => VNot (VLine completed_sig)
   | Some _ => VOr [VLine (in_complete_entry_set i);
                    VAnd [VNot (VLine (in_exit_set i)); VLine (state_active i)]]
   end).

Definition writeActiveStateNplusOne : list VAssign := imap next_state states.

Definition topLevelFinal : list node := filterChildElements (P +:+ "final") scxml false.

Definition writeSystemSignalMapping : option (list VAssign) :=
  finals ← mapM (p_index scxml) topLevelFinal;
  Some [(completed_sig, VOr ((fun i => VLine (state_active i)) <$> finals));
        (stall, VOr [VNot (VLine en); VLine completed_sig])].

(** The combinational part of the architecture, in the order it is printed. *)
Definition writeMicroStepper : option (list VAssign) :=
  selection ← writeOptimalTransitionSetSelection;
  exits ← writeExitSet;
  entries ← writeCompleteEntrySet;
  mapping ← writeSystemSignalMapping;
  Some (selection ++ exits ++ entries ++ writeEntrySet ++ writeActiveStateNplusOne ++ mapping).

End Printers.
