(* ===== verification/VhdlClock.v ===== *)
(** * The emitted hardware, clocked

    The processes of the micro stepper that [ChartToVHDL] prints: the event,
    spontaneous, state and error handlers, with the queue of VhdlFifo.v and the
    equations of Vhdl.v between two edges. [settle] is the simulation of the
    equations in delta cycles; [cycle] is one period of the clock of the test
    bench, which wires the micro stepper to the event controller of
    VhdlController.v and to a condition solver whose outputs are constant. *)

From stdpp Require Import base list strings.
From S2P Require Import Prelude Strings Data Dom Predicates CTables Trie VhdlFifo Vhdl VhdlController.

Local Open Scope nat_scope.

(** ** Delta cycles *)

Definition Values : Type := list (Signal * bool).

Definition value_env (base : Signal -> bool) (vals : Values) (s : Signal) : bool :=
  match List.find (fun v => bool_decide (v.1 = s)) vals with Some v => v.2 | None => base s end.

(** All assignments are evaluated on the values before. *)
Definition delta (base : Signal -> bool) (circuit : list VAssign) (vals : Values) : Values :=
  (fun a => (a.1, eval (value_env base vals) a.2)) <$> circuit.

Fixpoint settle (fuel : nat) (base : Signal -> bool) (circuit : list VAssign) (vals : Values) : option Values :=
  match fuel with
  | 0 => None
  | S fuel =>
      let vals' := delta base circuit vals in
      if bool_decide (vals' = vals) then Some vals else settle fuel base circuit vals'
  end.

(** ** The event queue and the event handler *)

Section Events.
(** The codes of the event names, and the macros of their signals. *)
Context (event_codes macros : list string).

Definition FIFO_DEPTH : nat := 256.

Record EventRegs := mkEventRegs {
  ev_fifo : Fifo (A := string); ev_lines : list bool; ev_dequeued : bool; ev_consumed : bool;
}.

(** [case next_event is when ... ] *)
Definition next_event_lines (next_event : string) : option (list bool) :=
  match List.find (fun cm => bool_decide (cm.1 = next_event)) (zip event_codes macros) with
  | Some (_, macro) => Some ((fun macro2 => bool_decide (macro = macro2)) <$> macros)
  | None => None
  end.

Definition no_lines : list bool := (fun _ => false) <$> macros.

Definition event_rising (rst write_en stalled : bool) (data_in : string) (e : EventRegs) : EventRegs :=
  mkEventRegs (fifo_proc FIFO_DEPTH rst write_en (negb stalled) data_in (ev_fifo e))
    (ev_lines e) (ev_dequeued e) (ev_consumed e).

(** [event_handler] at a falling edge; [consumes] is the value of the
    disjunction that is assigned to event_consumed. *)
Definition event_falling (rst stalled consumes : bool) (e : EventRegs) : EventRegs :=
  if rst then mkEventRegs (ev_fifo e) no_lines false false
  else if stalled then e
  else if negb (empty (ev_fifo e)) then
    match next_event_lines (data_out (ev_fifo e)) with
    | Some lines => mkEventRegs (ev_fifo e) lines true consumes
    | None => mkEventRegs (ev_fifo e) no_lines false consumes
    end
  else if ev_consumed e then mkEventRegs (ev_fifo e) no_lines false consumes
  else mkEventRegs (ev_fifo e) (ev_lines e) (ev_dequeued e) consumes.

(** *** The last event waits for the next one *)

(** A period without reset and without a write: stalled at the rising edge,
    stalled at the falling one, and what is assigned to event_consumed. *)
Definition quiet_period (x : bool * bool * bool) (e : EventRegs) : EventRegs :=
  event_falling false x.1.2 x.2 (event_rising false false x.1.1 "" e).

Definition quiet_periods (l : list (bool * bool * bool)) (e : EventRegs) : EventRegs :=
  foldl (fun e x => quiet_period x e) e l.

(** At most one word, and no event is signalled. *)
Definition waiting (w : string) (e : EventRegs) : Prop :=
  fifo_ok FIFO_DEPTH (ev_fifo e) /\ ev_lines e = no_lines /\ ev_dequeued e = false /\
  (contents (ev_fifo e) = [w] /\ next_event_lines (data_out (ev_fifo e)) = None \/
   contents (ev_fifo e) = [] /\ data_out (ev_fifo e) = w).

Lemma quiet_period_waiting w x e : waiting w e -> waiting w (quiet_period x e) /\
  (x.1.1 = false \/ contents (ev_fifo e) = [] -> contents (ev_fifo (quiet_period x e)) = [] /\ data_out (ev_fifo (quiet_period x e)) = w).
Proof.
  intros (Hok & Hl & Hd & Hq). destruct x as [[st1 st2] cons]. unfold quiet_period. cbn [fst snd].
  destruct (fifo_proc_ok FIFO_DEPTH (ev_fifo e) false (negb st1) ""%string) as [_ Hf]; [unfold FIFO_DEPTH; lia|].
  specialize (Hf Hok). unfold event_rising. set (f' := fifo_proc _ _ _ _ _ _) in *. destruct Hf as [Hok' Hab]. clearbody f'.
  assert (Hq' : (contents f' = [w] /\ next_event_lines (data_out f') = None /\ st1 = true /\ contents (ev_fifo e) <> [] \/
    contents f' = [] /\ data_out f' = w)).
  { unfold abstraction, queue_proc, queue_read in Hab. cbn [fst] in Hab.
    destruct Hq as [[Hq Hn]|[Hq Ho]]; rewrite Hq in Hab; destruct st1; cbn in Hab; injection Hab as -> ->; [left; by rewrite Hq|right; done..]. }
  assert (He : empty f' = bool_decide (contents f' = [])) by apply Hok'.
  unfold event_falling. cbn [ev_fifo ev_lines ev_dequeued ev_consumed].
  assert (Hgoal : forall e', ev_fifo e' = f' -> ev_lines e' = no_lines -> ev_dequeued e' = false ->
    waiting w e' /\ (st1 = false \/ contents (ev_fifo e) = [] -> contents (ev_fifo e') = [] /\ data_out (ev_fifo e') = w)).
  { intros e' Hf' Hl' Hd'. unfold waiting. rewrite Hf'. split; [split_and!; try done; tauto|].
    destruct Hq' as [(_ & _ & -> & ?)|?]; [by intros [?|?]|tauto]. }
  destruct st2; [by apply Hgoal|]. rewrite He.
  destruct Hq' as [(Hq' & Hn & _)|[Hq' Ho]]; rewrite Hq'; cbn [bool_decide negb]; rewrite ?bool_decide_eq_false_2, ?bool_decide_eq_true_2 by done; cbn [negb].
  - rewrite Hn. by apply Hgoal.
  - destruct (ev_consumed e); by apply Hgoal.
Qed.

Lemma quiet_waiting w l : forall e, waiting w e -> waiting w (quiet_periods l e) /\
  (Exists (fun x => x.1.1 = false) l \/ contents (ev_fifo e) = [] ->
   contents (ev_fifo (quiet_periods l e)) = [] /\ data_out (ev_fifo (quiet_periods l e)) = w).
Proof.
  induction l as [|x l IH]; intros e He; cbn [quiet_periods foldl].
  - split; [done|]. intros [H|H]; [by inversion H|]. split; [done|].
    destruct He as (_ & _ & _ & [[He _]|[_ He]]); [congruence|done].
  - destruct (quiet_period_waiting w x e He) as [Hx Hout]. destruct (IH _ Hx) as [Hl Hout']. split; [done|].
    intros H. apply Hout'. destruct H as [H|H]; [|right; by apply Hout; right].
    apply Exists_cons in H as [H|H]; [right; by apply Hout; left|by left].
Qed.

(** An event that is alone in the queue is not signalled, however many
    periods pass without another write: the queue hands it out and is empty in
    the same moment, and the handler ignores an empty queue. It is signalled
    as soon as the next event is written. *)
Theorem last_event_waits w l e v consumes : waiting w e ->
  (ev_lines (quiet_periods l e) = no_lines /\ ev_dequeued (quiet_periods l e) = false) /\
  (Exists (fun x => x.1.1 = false) l ->
   event_falling false false consumes (event_rising false true false v (quiet_periods l e)) =
   match next_event_lines w with
   | Some lines => mkEventRegs (fifo_proc FIFO_DEPTH false true true v (ev_fifo (quiet_periods l e))) lines true consumes
   | None => mkEventRegs (fifo_proc FIFO_DEPTH false true true v (ev_fifo (quiet_periods l e))) no_lines false consumes
   end).
Proof.
  intros Hw. destruct (quiet_waiting w l e Hw) as [(Hok & Hl & Hd & _) Hout]. split; [done|].
  intros [Hc Ho]%(fun H => Hout (or_introl H)). set (e' := quiet_periods l e) in *. clearbody e'.
  destruct (fifo_proc_ok FIFO_DEPTH (ev_fifo e') true true v) as [_ Hf]; [unfold FIFO_DEPTH; lia|].
  specialize (Hf Hok). unfold event_rising. cbn [negb]. set (f' := fifo_proc _ _ _ _ _ _) in *. clearbody f'.
  destruct Hf as [(_ & He & _) Hab]. unfold abstraction, queue_proc, queue_read, queue_write in Hab. rewrite Hc, Ho in Hab.
  change (length (fst ([] : list string, w)) <? FIFO_DEPTH) with true in Hab. cbn in Hab. injection Hab as Hc' Ho'.
  unfold event_falling. cbn [ev_fifo ev_lines ev_dequeued ev_consumed].
  rewrite He, Hc', Ho', bool_decide_eq_false_2 by done. done.
Qed.

End Events.

(** ** The clocked system of a document *)

Section System.
Context {node : Type} `{!EqDecision node} {D : DomOps node}.
Context (scxml : node) (strHash : string -> Z) (address : nat -> Z).
Let P : string := XML_PREFIX scxml.
Notation states := (p_states scxml).
Notation transitions := (p_transitions scxml).
Notation names := (_eventNames scxml address).

Definition event_macros : list string := escapeMacro strHash <$> names.

Definition all_event_codes (bits : nat) : list string := event_code bits <$> seq 0 (length names).

(** *** The lines of executable content *)

Definition _execContent : list node :=
  inDocumentOrder ((fun t => P +:+ t)%string <$> ["raise"; "send"]%string) scxml.

Definition has_child (tag : string) (e : node) : bool :=
  0 <? length (filterChildElements (P +:+ tag) e false).

(** [getLineForExecContent]; its local names are compared with prefixed ones. *)
Definition getLineForExecContent (elem : node) : option Signal :=
  head (omap (fun e =>
    let localName := getLocalName e in
    if String.eqb localName (P +:+ "transition")
    then i ← fst <$> list_find (fun t => t = e) transitions; Some (in_optimal_transition_set i)
    else if String.eqb localName (P +:+ "onentry")
    then i ← getParentNode e ≫= p_index scxml; Some (in_entry_set i)
    else if String.eqb localName (P +:+ "onexit")
    then i ← getParentNode e ≫= p_index scxml; Some (in_exit_set i)
    else None) (elem :: parents elem)).

(** The outputs of the micro stepper that stall it when they are set; without
    executable content the event controller only sets its enable. *)
Definition stalling_signals : list Signal :=
  if bool_decide (_execContent = []) then [] else
  concat (imap (fun i s => (if has_child "onentry" s then [in_entry_set i] else []) ++
                           (if has_child "onexit" s then [in_exit_set i] else [])) states) ++
  concat (imap (fun i t => match childElements t with [] => [] | _ => [in_optimal_transition_set i] end) transitions).

(** The code of the event of an element, or the number behind the last one. *)
Definition exec_code (bits : nat) (elem : node) : string :=
  event_code bits (match list_find (fun n => n = ATTR elem "event") names with
                   | Some (i, _) => i | None => length names end).

(** *** Registers *)

Record Registers := mkRegisters {
  r_active : list bool;
  r_entry0 : bool;
  r_spontaneous_en : bool;
  r_error : bool;
  r_events : EventRegs;
}.

(** The signals that the equations read but do not assign; the condition
    solver drives all its outputs with '0'. *)
Definition register_env (r : Registers) (s : Signal) : bool :=
  match s with
  | LIT b => b
  | state_active i => on (r_active r) i
  | in_complete_entry_set i => (i =? 0) && r_entry0 r
  | spontaneous_en => r_spontaneous_en r
  | event_sig macro => existsb (fun ml => String.eqb ml.1 macro && ml.2) (zip event_macros (ev_lines (r_events r)))
  | _ => false
  end.

(** The value of the disjunction assigned to event_consumed. *)
Definition event_consumed (env : Signal -> bool) : bool :=
  existsb (fun it => HAS_ATTR it.2 "event" && env (in_optimal_transition_set it.1)) (imap pair transitions).

(** The rising edge of [state_proc], [spontaneous_handler], [error_handler]
    and the queue. *)
Definition rising (rst write_en stalled : bool) (data_in : string) (env : Signal -> bool) (r : Registers) : Registers :=
  mkRegisters
    (if rst then (fun _ => false) <$> states
     else if stalled then r_active r else (fun i => env (state_next i)) <$> seq 0 (length states))
    (if rst then true else if stalled then r_entry0 r else false)
    (if rst then true
     else if stalled then r_spontaneous_en r
     else if r_spontaneous_en r then env optimal_transition_set_combined_sig
     else ev_dequeued (r_events r) || (negb (ev_dequeued (r_events r)) && empty (ev_fifo (r_events r))))
    (if rst then false else full (ev_fifo (r_events r)))
    (event_rising rst write_en stalled data_in (r_events r)).

Definition falling (codes : list string) (rst stalled : bool) (env : Signal -> bool) (r : Registers) : Registers :=
  mkRegisters (r_active r) (r_entry0 r) (r_spontaneous_en r) (r_error r)
    (event_falling codes event_macros rst stalled (event_consumed env) (r_events r)).

(** *** One period *)

(** Enough delta cycles for equations that do not depend on themselves. *)
Definition delta_limit (circuit : list VAssign) : nat := S (length circuit).

Definition System : Type := Registers * Controller.

Definition stalled_by (env : Signal -> bool) (c : Controller) : bool :=
  negb (micro_stepper_en (existsb env stalling_signals) c) || env completed_sig.

Definition settled (circuit : list VAssign) (vals : Values) (r : Registers) : option Values :=
  settle (delta_limit circuit) (register_env r) circuit vals.

(** The signals at rest, the rising edge, rest again, and the falling edge;
    [None] also when an element of executable content has no line to print. *)
Definition cycle (bits : nat) (circuit : list VAssign) (st : System * Values) : option (System * Values) :=
  let '((r, c), vals) := st in
  vals ← settled circuit vals r;
  let env := value_env (register_env r) vals in
  lines ← mapM (fun e => env <$> getLineForExecContent e) _execContent;
  let r1 := rising false (event_we c) (stalled_by env c) (event_bus c) env r in
  let c1 := ex_content_block (exec_code bits <$> _execContent) lines (existsb env stalling_signals) c in
  vals1 ← settled circuit vals r1;
  let env1 := value_env (register_env r1) vals1 in
  Some ((falling (all_event_codes bits) false (stalled_by env1 c1) env1 r1, c1), vals1).

Fixpoint cycles (k bits : nat) (circuit : list VAssign) (st : System * Values) : option (System * Values) :=
  match k with 0 => Some st | S k => cycle bits circuit st ≫= cycles k bits circuit end.

(** After the reset; the memory of the queue is arbitrary. *)
Definition reset_system (bits : nat) (circuit : list VAssign) (junk : string) : System * Values :=
  let zeros := implode (replicate (bits + 1) "0"%char) in
  let none := (fun _ => false) <$> event_macros in
  let fifo := mkFifo (replicate FIFO_DEPTH junk) 0 0 false junk true false in
  ((mkRegisters ((fun _ => false) <$> states) true true false (mkEventRegs fifo none false false),
    controller_reset (exec_code bits <$> _execContent) zeros),
   (fun a => (a.1, false)) <$> circuit).

(** The active states after [k] periods. *)
Definition run_hardware (k : nat) (junk : string) : option (list nat) :=
  bits ← _eventBitSize scxml address;
  circuit ← writeMicroStepper scxml strHash address;
  st ← cycles k bits circuit (reset_system bits circuit junk);
  Some (filter (fun i => on (r_active (st.1.1)) i = true) (seq 0 (length states))).

End System.
