(* ===== verification/VhdlTheorems.v ===== *)
(** * Properties of the emitted micro stepper

    Signals at rest solve the printed equations. This file shows what such a
    solution is: the transitions it selects are those that the interpreter
    selects, its event lines mean what the descriptors say, and - where the
    equations leave something out - what the circuit does instead. *)

From stdpp Require Import base list gmap strings.
From S2P Require Import Prelude Strings Data Effects Dom Predicates Chart CBits CTables MicroStep StepLemmas StepTheorems CTransform Trie Vhdl.

Local Open Scope nat_scope.

(** ** Bits *)

Lemma bool_at_boolString {A} (p : A -> bool) l i x : l !! i = Some x -> bool_at (boolString p l) i = Some (p x).
Proof.
  intros Hi. unfold bool_at, boolString. rewrite explode_implode, list_lookup_fmap, Hi. cbn. by destruct (p x).
Qed.

Lemma mapM_lookup {A B} (f : A -> option B) l k i x : mapM f l = Some k -> l !! i = Some x -> exists y, k !! i = Some y /\ f x = Some y.
Proof. intros HF%mapM_Some Hi. by destruct (Forall2_lookup_l _ _ _ i x HF Hi) as (y & Hy & Hf); eauto. Qed.

Lemma mapM_lookup_r {A B} (f : A -> option B) l k i y : mapM f l = Some k -> k !! i = Some y -> exists x, l !! i = Some x /\ f x = Some y.
Proof. intros HF%mapM_Some Hi. by destruct (Forall2_lookup_r _ _ _ i y HF Hi) as (x & Hx & Hf); eauto. Qed.

Lemma imap_pair_lookup {A} (l : list A) i x : imap pair l !! i = Some x <-> exists y, x = (i, y) /\ l !! i = Some y.
Proof. rewrite list_lookup_imap. destruct (l !! i) as [y|]; cbn; naive_solver. Qed.

Lemma select_bits_spec {A} bit (l : list A) k : select_bits bit l = Some k ->
  forall i, i ∈ k <-> exists x, l !! i = Some x /\ bit i x = Some true.
Proof.
  unfold select_bits. intros (bits & Hb & [= <-])%bind_Some i. rewrite list_elem_of_filter, elem_of_seq. split.
  - intros [Hi _]. destruct (mapM_lookup_r _ _ _ i true Hb Hi) as (ix & (x & -> & Hx)%imap_pair_lookup & Hbit). eauto.
  - intros (x & Hx & Hbit). destruct (mapM_lookup _ _ _ i (i, x) Hb) as (b & Hi & Hb'); [apply imap_pair_lookup; eauto|].
    cbn in Hb'. rewrite Hbit in Hb'. injection Hb' as <-. split; [done|]. apply lookup_lt_Some in Hx. lia.
Qed.

Lemma existsb_fmap {A B} (p : B -> bool) (f : A -> B) l : existsb p (f <$> l) = true <-> exists x, x ∈ l /\ p (f x) = true.
Proof.
  rewrite existsb_exists. setoid_rewrite <- list_elem_of_In. setoid_rewrite list_elem_of_fmap. naive_solver.
Qed.

(** Two ways of selecting in order agree when the candidates and the conflicts do. *)
Lemma greedy_unique (ready : nat -> Prop) (conf : nat -> nat -> Prop) (A B : nat -> Prop) :
  (forall i, A i <-> ready i /\ forall j, j < i -> A j -> ~ conf j i) ->
  (forall i, B i <-> ready i /\ forall j, j < i -> B j -> ~ conf j i) ->
  forall i, A i <-> B i.
Proof.
  intros HA HB i. induction (lt_wf i) as [i _ IH]. rewrite HA, HB. split; intros [Hr Hc]; (split; [done|]).
  - intros j Hj Hb. apply Hc; [done|]. by apply IH.
  - intros j Hj Ha. apply Hc; [done|]. by apply IH.
Qed.

(** ** Selection *)

Section Hardware.
Context {node : Type} `{!EqDecision node} {D : DomOps node} {DL : DomLaws node}.
Context (scxml : node) (strHash : string -> Z) (address : nat -> Z) (env : Signal -> bool).
Notation states := (p_states scxml).
Notation transitions := (p_transitions scxml).

Definition source_index (t : node) : option nat := getParentNode t ≫= p_index scxml.

(** What the equation of a transition tests before the conflicts. *)
Definition line_ready (i : nat) (t : node) : bool :=
  (if HAS_ATTR t "event" then negb (env spontaneous_active) else env spontaneous_en) &&
  (if HAS_ATTR t "cond" then env (transition_condition_fulfilled i) else true) &&
  match source_index t with Some s => env (state_active s) | None => false end &&
  existsb (eval env) (name_matchers scxml strHash address t).

Lemma conflicters_spec i t l : transitions !! i = Some t -> conflicters scxml i t = Some l ->
  existsb (eval env) l = true <->
  exists j u, j < i /\ transitions !! j = Some u /\ p_conflicts scxml t u = true /\ env (in_optimal_transition_set j) = true.
Proof.
  intros Hi. unfold conflicters. intros (bits & Hb & [= <-])%bind_Some. rewrite existsb_fmap. cbn [eval].
  setoid_rewrite list_elem_of_filter. setoid_rewrite elem_of_seq. apply lookup_lt_Some in Hi.
  assert (Hbit : forall j, j < i -> exists u, transitions !! j = Some u /\
    (bits !! j = Some true <-> p_conflicts scxml t u = true)).
  { intros j Hj. destruct (lookup_lt_is_Some_2 transitions j ltac:(lia)) as [u Hu]. exists u. split; [done|].
    destruct (mapM_lookup _ _ _ j j Hb) as (b & -> & Hc); [by apply lookup_seq_lt|].
    unfold conflictBools in Hc. rewrite (bool_at_boolString _ _ _ u Hu) in Hc. injection Hc as <-.
    by split; [intros [= ->]|intros ->]. }
  split.
  - intros (j & [Hbj Hj] & Hin). destruct (Hbit j ltac:(lia)) as (u & Hu & Hc). exists j, u. split; [lia|]. split; [done|]. split; [by apply Hc|done].
  - intros (j & u & Hj & Hu & Hc & Hin). exists j. destruct (Hbit j Hj) as (u' & Hu' & Hc').
    assert (u' = u) as -> by congruence. split; [split; [by apply Hc'|lia]|done].
Qed.

Context (selection : list VAssign).
Context (Hsel : writeOptimalTransitionSetSelection scxml strHash address = Some selection).
Context (Hrest : at_rest env selection).

(** The value of the line of a transition. *)
Lemma selection_line i t : transitions !! i = Some t ->
  env (in_optimal_transition_set i) = true <->
  line_ready i t = true /\ forall j u, j < i -> transitions !! j = Some u -> p_conflicts scxml t u = true ->
    env (in_optimal_transition_set j) = false.
Proof.
  intros Ht. unfold writeOptimalTransitionSetSelection in Hsel. apply bind_Some in Hsel as (sel & Hm & [= Heq]).
  destruct (mapM_lookup _ _ _ i (i, t) Hm) as (a & Ha & Hs); [apply imap_pair_lookup; eauto|].
  cbn in Hs. unfold select_transition in Hs. apply bind_Some in Hs as (src & Hsrc & (conf & Hconf & [= <-])%bind_Some).
  rewrite (Hrest (in_optimal_transition_set i) _) at 1 by (rewrite <- Heq; apply elem_of_app; left; by eapply list_elem_of_lookup_2).
  cbn [eval forallb]. unfold line_ready, source_index. rewrite Hsrc. rewrite !andb_true_iff, negb_true_iff.
  rewrite <- not_true_iff_false, (conflicters_spec i t conf Ht Hconf).
  assert (Hev : eval env (if HAS_ATTR t "event" then VNot (VLine spontaneous_active) else VNop (VLine spontaneous_en)) =
    if HAS_ATTR t "event" then negb (env spontaneous_active) else env spontaneous_en) by by destruct (HAS_ATTR t "event").
  rewrite Hev.
  assert (Hco : eval env (VLine (if HAS_ATTR t "cond" then transition_condition_fulfilled i else LIT true)) =
    if HAS_ATTR t "cond" then env (transition_condition_fulfilled i) else true) by by destruct (HAS_ATTR t "cond").
  cbn [eval] in Hco. rewrite Hco. split.
  - intros (? & ? & ? & ? & Hn & _). split; [tauto|]. intros j u Hj Hu Hc. apply not_true_iff_false. intros Hin. apply Hn. eauto 10.
  - intros [[[[? ?] ?] ?] Hn]. split_and!; try done. intros (j & u & Hj & Hu & Hc & Hin). specialize (Hn j u Hj Hu Hc). congruence.
Qed.

Lemma spontaneous_line : env spontaneous_active = true <->
  exists i t, transitions !! i = Some t /\ HAS_ATTR t "event" = false /\ env (in_optimal_transition_set i) = true.
Proof.
  unfold writeOptimalTransitionSetSelection in Hsel. apply bind_Some in Hsel as (sel & Hm & [= Heq]).
  rewrite (Hrest spontaneous_active _) by (rewrite <- Heq; apply elem_of_app; right; right; by left).
  cbn [eval]. rewrite existsb_fmap. cbn [eval].
  split.
  - intros ([i t] & Hin & Hl). apply list_elem_of_In, filter_In in Hin as [Hin Hev]. apply list_elem_of_In, list_elem_of_lookup in Hin as (k & (t' & [= -> ->] & Ht)%imap_pair_lookup).
    exists k, t'. cbn in *. bool_prop. done.
  - intros (i & t & Ht & Hev & Hl). exists (i, t). split; [|done]. apply list_elem_of_In, filter_In. split; [|cbn; by rewrite Hev].
    apply list_elem_of_In, list_elem_of_lookup. exists i. apply imap_pair_lookup. eauto.
Qed.

Context (exits : list VAssign) (Hexits : writeExitSet scxml = Some exits) (Hrest' : at_rest env exits).

Lemma exit_line i : i < length states -> env (in_exit_set i) = true <->
  env (state_active i) = true /\ exists j t e, transitions !! j = Some t /\ states !! i = Some e /\
    e ∈ getExitSet t scxml /\ env (in_optimal_transition_set j) = true.
Proof.
  intros Hi. destruct (mapM_lookup _ _ _ i i Hexits) as (a & Ha & Hs); [by apply lookup_seq_lt|].
  unfold exit_state in Hs. apply bind_Some in Hs as (setters & Hset & [= <-]).
  pose proof (select_bits_spec _ _ _ Hset) as Hspec.
  rewrite (Hrest' (in_exit_set i) _) by (by eapply list_elem_of_lookup_2).
  cbn [eval forallb]. rewrite andb_true_r, andb_true_iff, existsb_fmap. cbn [eval]. setoid_rewrite Hspec.
  destruct (lookup_lt_is_Some_2 states i Hi) as [e He].
  assert (Hbit : forall t, bool_at (exitSetBools scxml t) i = Some true <-> e ∈ getExitSet t scxml).
  { intros t. unfold exitSetBools. rewrite (bool_at_boolString _ _ _ e He), <- isMember_spec.
    by split; [intros [= ->]|intros ->]. }
  setoid_rewrite Hbit. split.
  - intros [Hact (j & (t & Ht & Hin) & Hj)]. split; [done|]. by exists j, t, e.
  - intros [Hact (j & t & e' & Ht & He' & Hin & Hj)]. split; [done|]. exists j. split; [|done]. exists t.
    split; [done|]. congruence.
Qed.

End Hardware.

(** ** The interpreter's selection *)

Section Interpreter.
Context {node : Type} `{!EqDecision node, !Countable node} {D : DomOps node} {DL : DomLaws node}.
Context {W X : Type} {CB : MicroStepCallbacks node W X}.
Context (scxml : node) (strHash : string -> Z) (address : nat -> Z).
Notation states := (p_states scxml).
Notation transitions := (p_transitions scxml).

(** The registers and inputs of the circuit show the state of the interpreter:
    the active states, whether an event is processed and which descriptors it
    matches, and the conditions. No pseudo state is active, and no attribute
    event or cond is written but empty. *)
Record mirrors (env : Signal -> bool) (truth : string -> bool) (ms : MicroState) : Prop := {
  mi_active : forall i e, states !! i = Some e -> env (state_active i) = bool_decide (i ∈ _configuration ms);
  mi_phase : env spontaneous_en = negb (Event_bool (_event ms));
  mi_event : forall t, t ∈ transitions -> HAS_ATTR t "event" = true ->
    existsb (eval env) (name_matchers scxml strHash address t) =
    Event_bool (_event ms) && isMatched (_event ms) (ATTR t "event");
  mi_cond : forall i t, transitions !! i = Some t -> HAS_ATTR t "cond" = true ->
    env (transition_condition_fulfilled i) = truth (ATTR t "cond");
  mi_proper : forall i e, i ∈ _configuration ms -> states !! i = Some e ->
    iequals (getTagName e) "history" = false /\ iequals (getTagName e) "initial" = false;
  mi_written : forall t, t ∈ transitions ->
    (HAS_ATTR t "event" = true -> ATTR t "event" <> ""%string) /\ (HAS_ATTR t "cond" = true -> ATTR t "cond" <> ""%string);
}.

Context (c : Chart node) (Hpre : unprefixed) (Hc : init_chart scxml = Some c).

Lemma source_not_pseudo t p : getParentNode t = Some p ->
  iequals (getTagName p) "history" = false -> iequals (getTagName p) "initial" = false ->
  Z.land (transition_type scxml t) (Z.lor USCXML_TRANS_HISTORY USCXML_TRANS_INITIAL) = 0%Z.
Proof.
  intros Hp Hh Hi. unfold transition_type. destruct (unprefixed_prefix scxml Hpre scxml) as (_ & -> & _).
  change ("" +:+ "history")%string with "history"%string. change ("" +:+ "initial")%string with "initial"%string.
  rewrite Hp, Hh, Hi.
  destruct (HAS_ATTR t "target"), (HAS_ATTR t "type" && _), (HAS_ATTR t "event"); reflexivity.
Qed.

(** A transition of the chart and its element. *)
Lemma chart_transition i tr : c_transitions c !! i = Some tr <->
  exists t, transitions !! i = Some t /\ c_transitions c !! i = Some tr /\
    t_source tr = default 0 (source_index scxml t) /\ is_Some (source_index scxml t) /\
    t_type tr = transition_type scxml t /\
    t_event tr = (if HAS_ATTR t "event" then ATTR t "event" else ""%string) /\
    t_cond tr = (if HAS_ATTR t "cond" then ATTR t "cond" else ""%string).
Proof.
  split; [|by intros (? & _ & ? & _)]. intros Htr. destruct (init_chart_trans scxml c i tr Hc Htr) as (t & Ht).
  exists t. split; [done|]. split; [done|].
  destruct (init_chart_transition scxml c i t Hc Ht) as (tr' & row & Htr' & Hi & _). simplify_eq.
  unfold init_transition in Hi. apply bind_Some in Hi as (b & _ & [= <-]). cbn. unfold source_index.
  split_and!; try done.
  - destruct (getParentNode t) as [p|]; [|done]. cbn [mbind option_bind]. by rewrite (index_same scxml Hpre).
  - apply transition_parent. by eapply list_elem_of_lookup_2.
Qed.

Lemma line_ready_enabled env truth ms i t tr :
  mirrors env truth ms -> transitions !! i = Some t -> c_transitions c !! i = Some tr ->
  (HAS_ATTR t "event" = true -> Event_bool (_event ms) = true -> env spontaneous_active = false) ->
  line_ready scxml strHash address env i t = enabled truth ms tr.
Proof.
  intros [Hact Hphase Hev Hcond Hprop Hwr] Ht Htr Hspon.
  assert (Hin : t ∈ transitions) by (by eapply list_elem_of_lookup_2). destruct (Hwr t Hin) as [Hwe Hwc].
  destruct (proj1 (chart_transition i tr) Htr) as (t' & Ht' & _ & Hsrc & [k Hk] & Hty & Hevt & Hco). simplify_eq.
  unfold line_ready, enabled, eligible, event_matches, pseudo_transition. rewrite Hk, Hsrc, Hty, Hevt, Hco, Hk. change (default 0 (Some k)) with k.
  unfold source_index in Hk. apply bind_Some in Hk as (p & Hp & Hk). apply p_index_spec in Hk.
  rewrite (Hact k p Hk). destruct (bool_decide (k ∈ _configuration ms)) eqn:Eb.
  2:{ by rewrite !andb_false_r. }
  bool_prop. destruct (Hprop k p Eb Hk) as [Hh Hi]. rewrite (source_not_pseudo t p Hp Hh Hi). cbn [negb Z.eqb andb].
  rewrite andb_true_r. specialize (Hev t Hin).
  assert (Hc' : (if HAS_ATTR t "cond" then env (transition_condition_fulfilled i) else true) =
    String.eqb (if HAS_ATTR t "cond" then ATTR t "cond" else "") "" || truth (if HAS_ATTR t "cond" then ATTR t "cond" else "")).
  { destruct (HAS_ATTR t "cond") eqn:E; [|done]. rewrite (Hcond i t Ht E).
    by rewrite (proj2 (String.eqb_neq _ _) (Hwc eq_refl)). }
  rewrite Hc'. destruct (String.eqb _ _ || truth _); [|by rewrite !andb_false_r].
  rewrite !andb_true_r. destruct (HAS_ATTR t "event") eqn:E.
  - rewrite (Hev eq_refl), (proj2 (String.eqb_neq _ _) (Hwe eq_refl)). cbn [negb andb orb].
    destruct (Event_bool (_event ms)); [rewrite Hspon by done|destruct (env spontaneous_active)]; done.
  - unfold name_matchers. rewrite E, Hphase. by destruct (Event_bool (_event ms)).
Qed.

(** With an event, no line of an eventless transition is set. *)
Lemma phase_spontaneous env truth ms selection : mirrors env truth ms ->
  writeOptimalTransitionSetSelection scxml strHash address = Some selection -> at_rest env selection ->
  Event_bool (_event ms) = true -> env spontaneous_active = false.
Proof.
  intros Hm Hsel Hrest He. apply not_true_iff_false. rewrite (spontaneous_line scxml strHash address env selection Hsel Hrest).
  intros (i & t & Ht & Hev & Hl). apply (selection_line scxml strHash address env selection Hsel Hrest i t Ht) in Hl as [Hl _].
  unfold line_ready in Hl. rewrite Hev, (mi_phase _ _ _ Hm), He in Hl. done.
Qed.

Lemma p_conflicts_matrix i j t u : transitions !! i = Some t -> transitions !! j = Some u ->
  p_conflicts scxml t u = true <-> i ∈ trans_set t_conflicts c j.
Proof.
  intros Ht Hu. rewrite (wf_conflict_sym _ (init_chart_wf scxml c Hc)), (conflicts_of_spec scxml c Hc), conflicts_same.
  split; [intros H; by exists t, u|]. intros (t' & u' & Ht' & Hu' & H).
  change (transition_elements scxml !! i = Some t) in Ht. change (transition_elements scxml !! j = Some u) in Hu.
  by simplify_eq.
Qed.

Lemma hardware_selects_resorted env truth ms selection exits :
  mirrors env truth ms ->
  (forall e ms w, fst (isTrue (node := node) (W := W) (X := X) e ms w) = inr (truth e)) ->
  writeOptimalTransitionSetSelection scxml strHash address = Some selection -> at_rest env selection ->
  writeExitSet scxml = Some exits -> at_rest env exits ->
  hoare_ms (fun m => m = ms) (select_transitions (W := W) (X := X) c)
    (fun sets _ =>
       (forall i t, transitions !! i = Some t -> env (in_optimal_transition_set i) = true <-> i ∈ transSet sets) /\
       (forall i e, states !! i = Some e ->
          env (in_exit_set i) = true <-> i ∈ _configuration ms /\ i ∈ exitSet sets))
    (fun _ => True).
Proof.
  intros Hm Htruth Hsel Hrest Hex Hrest'.
  eapply hoare_ms_conseq; [apply (select_optimal c truth ms (init_chart_wf scxml c Hc) Htruth)|done| |done].
  intros sets ms' (Hin & _ & Hexits & _).
  assert (Hlines : forall i, (exists t, transitions !! i = Some t /\ env (in_optimal_transition_set i) = true) <-> i ∈ transSet sets).
  { apply (greedy_unique (fun i => exists tr, c_transitions c !! i = Some tr /\ enabled truth ms tr = true)
      (fun j i => i ∈ trans_set t_conflicts c j)).
    - intros i. split.
      + intros (t & Ht & Hl). apply (selection_line scxml strHash address env selection Hsel Hrest i t Ht) in Hl as [Hr Hfree].
        destruct (init_chart_transition scxml c i t Hc Ht) as (tr & row & Htr & _).
        split; [exists tr; split; [done|]; rewrite <- (line_ready_enabled env truth ms i t tr) by (done || by eauto using phase_spontaneous); done|].
        intros j Hj (u & Hu & Hlj) Hcf. apply (p_conflicts_matrix i j t u Ht Hu) in Hcf. specialize (Hfree j u Hj Hu Hcf). congruence.
      + intros [(tr & Htr & Hen) Hfree]. destruct (proj1 (chart_transition i tr) Htr) as (t & Ht & _).
        exists t. split; [done|]. apply (selection_line scxml strHash address env selection Hsel Hrest i t Ht). split.
        * rewrite (line_ready_enabled env truth ms i t tr) by (done || by eauto using phase_spontaneous). done.
        * intros j u Hj Hu Hcf%(p_conflicts_matrix i j t u Ht Hu). apply not_true_iff_false. intros Hl. apply (Hfree j Hj); eauto.
    - intros i. rewrite Hin. split.
      + intros (tr & Htr & Hen & Hfree). split; [by exists tr|]. intros j Hj Hb. by apply Hfree.
      + intros [(tr & Htr & Hen) Hfree]. exists tr. split; [done|]. split; [done|]. intros j Hb Hj. by apply Hfree. }
  split.
  - intros i t Ht. rewrite <- Hlines. split; [by eauto|]. by intros (t' & _ & ?).
  - intros i e He. rewrite (exit_line scxml env exits Hex Hrest' i) by by eapply lookup_lt_Some.
    rewrite (mi_active _ _ _ Hm i e He), bool_decide_eq_true, Hexits. unfold union_of. rewrite elem_of_set_bind.
    setoid_rewrite (exitSet_of_spec scxml c Hc). setoid_rewrite <- Hlines. rewrite <- (states_same scxml Hpre).
    split; intros [Hact Hx]; (split; [done|]).
    + destruct Hx as (j & t & e' & Ht & He' & Hxe & Hl). exists j. split; [by eauto|]. by exists t, e'.
    + destruct Hx as (j & (t & Ht & Hl) & t' & e' & Ht' & He' & Hxe).
      change (transitions !! j = Some t') in Ht'. exists j, t, e'. by simplify_eq.
Qed.

End Interpreter.

(** ** Event lines *)

Lemma words_by_elem p l : forall acc w, w ∈ words_by p acc l -> w <> [].
Proof.
  induction l as [|c l IH]; intros acc w; cbn [words_by].
  - destruct acc; cbn; [by intros ?%elem_of_nil|by intros ->%list_elem_of_singleton].
  - destruct (p c); [|apply IH]. intros [Hw|Hw]%elem_of_app; [|by eapply IH].
    destruct acc; cbn in Hw; [by apply elem_of_nil in Hw|]. by apply list_elem_of_singleton in Hw as ->.
Qed.

(** A descriptor that findEvents would not shorten, or the wildcard alone. *)
Definition plain_descriptor (desc : string) : Prop := desc = "*"%string \/ proper "." desc.

(** What the descriptors of SCXML say of an event name. *)
Definition describes (desc w : string) : Prop :=
  desc = "*"%string \/ w = desc \/ exists rest, explode w = explode desc ++ "."%char :: rest.

(** What the printed lines make of a descriptor: but for the wildcard, each of
    its tokens is looked up as it is. *)
Definition listens (desc w : string) : Prop :=
  desc = "*"%string \/ runs "." (explode desc) `prefix_of` runs "." (explode w).

(** The trie keeps one name for a list of tokens, the first of the document. *)
Definition known_name {node : Type} `{!EqDecision node} {D : DomOps node} (scxml : node) (w : string) : Prop :=
  List.find (same_tokens dot (word_tokens dot w)) (findEvents scxml) = Some w.

Lemma known_proper {node : Type} `{!EqDecision node} {D : DomOps node} (scxml : node) w :
  Forall (proper ".") (findEvents scxml) -> known_name scxml w <-> w ∈ findEvents scxml.
Proof.
  intros Hws. rewrite Forall_forall in Hws. unfold known_name, same_tokens. split.
  - by intros [Hw%list_elem_of_In _]%List.find_some.
  - intros Hw. destruct (List.find _ _) as [v|] eqn:Ef.
    + apply List.find_some in Ef as [Hv Ht%bool_decide_eq_true]. apply list_elem_of_In in Hv.
      unfold dot in Ht. rewrite !word_tokens_runs in Ht. f_equal. apply (runs_inj "."); auto.
    + apply list_elem_of_In in Hw. by apply (List.find_none _ _ Ef), bool_decide_eq_false in Hw.
Qed.

Lemma listens_plain desc w : explode desc <> [] -> plain_descriptor desc -> proper "." w -> listens desc w <-> describes desc w.
Proof.
  intros Hne Hd Hw. unfold listens, describes. destruct Hd as [->|Hd]; [by split; left|]. rewrite runs_prefix by done. naive_solver.
Qed.

Lemma listens_star base w : listens (base +:+ ".*") w -> "*"%string ∈ runs "." (explode w).
Proof.
  intros [Hs|(r & ->)].
  - apply (f_equal (fun x => length (explode x))) in Hs. rewrite explode_app, length_app in Hs. cbn in Hs. lia.
  - rewrite explode_app. change (explode ".*") with ("."%char :: ["*"%char]). unfold runs. rewrite words_by_split by done.
    rewrite fmap_app, !elem_of_app. left. right. cbn. by left.
Qed.

(** The names that the trie gives for one descriptor. *)
Lemma descriptor_names {node : Type} `{!EqDecision node} {D : DomOps node} (scxml : node) address desc w :
  w ∈ value <$> getWordsWithPrefix dot address (_eventTrie scxml) (if String.eqb desc "*" then "" else desc)%string <->
  known_name scxml w /\ listens desc w.
Proof.
  unfold _eventTrie. rewrite (proj1 (words_with_prefix dot address (findEvents scxml) _)). apply and_iff_compat_l.
  unfold dot. rewrite !word_tokens_runs. unfold listens. destruct (String.eqb_spec desc "*") as [->|Hne]; [|naive_solver].
  split; [by left|intros _; apply prefix_nil].
Qed.

(** C11: for every document and every event attribute, the lines that a
    transition with an event listens to are those of the names of the document
    that begin with all tokens of one of its descriptors, or of all names for
    the wildcard. For names and descriptors without empty tokens this is what
    the descriptors of SCXML describe; but the tokens of a descriptor that ends
    in ".*" include the star, so that it listens to no name but one that has a
    star among its tokens itself, where SCXML describes the names without the
    suffix. *)
Theorem event_lines {node : Type} `{!EqDecision node} {D : DomOps node} (scxml t : node)
    (strHash : string -> Z) (address : nat -> Z) (env : Signal -> bool) :
  HAS_ATTR t "event" = true ->
  (existsb (eval env) (name_matchers scxml strHash address t) = true <->
   exists desc w, desc ∈ tokenize (ATTR t "event") /\ known_name scxml w /\ listens desc w /\
     env (event_sig (escapeMacro strHash w)) = true) /\
  (Forall (proper ".") (findEvents scxml) -> forall w, known_name scxml w <-> w ∈ findEvents scxml) /\
  (forall desc w, desc ∈ tokenize (ATTR t "event") -> plain_descriptor desc -> proper "." w -> listens desc w <-> describes desc w) /\
  (forall base w, listens (base +:+ ".*") w -> "*"%string ∈ runs "." (explode w)).
Proof.
  intros Hev. split; [|split; [by intros ??; apply known_proper|split; [|apply listens_star]]].
  2:{ intros desc w Hd. apply listens_plain. rewrite tokenize_correct in Hd.
      apply list_elem_of_fmap in Hd as (w' & -> & Hw'%words_by_elem). by rewrite explode_implode. }
  unfold name_matchers. rewrite Hev, existsb_exists. setoid_rewrite <- list_elem_of_In. split.
  - intros (n & (desc & Hd & (m & -> & Hm)%list_elem_of_fmap)%elem_of_flat_map & Hl). exists desc, (value m). cbn in Hl.
    destruct (proj1 (descriptor_names scxml address desc (value m))) as [? ?]; [apply list_elem_of_fmap; by exists m|]. done.
  - intros (desc & w & Hd & Hw & Hdesc & Hl). assert (Hin := proj2 (descriptor_names scxml address desc w) (conj Hw Hdesc)).
    apply list_elem_of_fmap in Hin as (m & -> & Hm).
    exists (VLine (event_sig (escapeMacro strHash (value m)))). split; [|exact Hl]. apply elem_of_flat_map. exists desc.
    split; [done|]. apply list_elem_of_fmap. by exists m.
Qed.

(** ** The document as the interpreter compiles it *)

Section Document.
Context {node : Type} `{!EqDecision node, !Countable node} (D : DomOps node) {DL : DomLaws node}.
Context {W X : Type} {CB : MicroStepCallbacks node W X}.
Context (scxml : node) (strHash : string -> Z) (address : nat -> Z).
Let D' : DomOps node := p_resortStates scxml.

(** Signals at rest that show the state of the interpreter select exactly
    the transitions that SELECT_TRANSITIONS takes in that state, and the exit
    lines that are set are those of the active states it exits. *)
Theorem hardware_selects c env truth ms selection exits :
  unprefixed -> init D scxml = Some c ->
  mirrors (D := D') scxml strHash address env truth ms ->
  (forall e ms w, fst (isTrue (node := node) (W := W) (X := X) e ms w) = inr (truth e)) ->
  writeOptimalTransitionSetSelection (D := D') scxml strHash address = Some selection -> at_rest env selection ->
  writeExitSet (D := D') scxml = Some exits -> at_rest env exits ->
  hoare_ms (fun m => m = ms) (select_transitions (W := W) (X := X) c)
    (fun sets _ =>
       (forall i t, p_transitions (D := D') scxml !! i = Some t ->
          env (in_optimal_transition_set i) = true <-> i ∈ transSet sets) /\
       (forall i e, p_states (D := D') scxml !! i = Some e ->
          env (in_exit_set i) = true <-> i ∈ _configuration ms /\ i ∈ exitSet sets))
    (fun _ => True).
Proof.
  intros Hpre Hc. unfold init in Hc. rewrite <- resorted_same in Hc by done. fold D' in Hc.
  apply (hardware_selects_resorted (D := D') (DL := p_resorted_laws D scxml) scxml strHash address c); done.
Qed.

End Document.
