(* ===== verification/VhdlEntry.v ===== *)
(** * The entry lines of the emitted micro stepper

    What the equations for the complete entry set compute: a state is entered
    from below only if a selected transition names it, so an ancestor of a
    target is left out; and on charts without nesting, where nothing is left
    out, the next state is the configuration after the interpreter's micro
    step. *)

From stdpp Require Import base list gmap strings.
From S2P Require Import Prelude Strings Data Effects Dom Predicates Chart CBits CTables MicroStep StepLemmas StepTheorems Legal CTransform Trie Vhdl VhdlTheorems.

Local Open Scope nat_scope.

(** ** The equations *)

Section Entry.
Context {node : Type} `{!EqDecision node} {D : DomOps node} {DL : DomLaws node}.
Context (scxml : node) (env : Signal -> bool).
Notation states := (p_states scxml).
Notation transitions := (p_transitions scxml).

(** The target attribute of the transition names the state. *)
Definition names_target (t e : node) : Prop :=
  HAS_ATTR t "target" = true /\ is_target (tokenize (ATTR t "target")) e = true.

Lemma target_bit t i e : states !! i = Some e ->
  bool_at (default ""%string (targetBools scxml t)) i = Some true <-> names_target t e.
Proof.
  intros He. unfold targetBools, names_target. destruct (HAS_ATTR t "target"); cbn [from_option]; unfold id.
  - rewrite (bool_at_boolString _ _ _ e He). split; [by intros [= ->]|by intros [_ ->]].
  - unfold bool_at. change (explode "") with (@nil Ascii.ascii). destruct i; cbn; split; naive_solver.
Qed.

(** No state is its own parent, so the bit that is read is never set. *)
Lemma entry_setters_nil i e l : states !! i = Some e -> entry_setters scxml i e = Some l -> l = [].
Proof.
  intros He. unfold entry_setters. destruct (_ || _); [|by intros [= <-]].
  intros (k & Hk & [= <-])%bind_Some. destruct k as [|x k]; [done|]. exfalso.
  destruct (proj1 (select_bits_spec _ _ _ Hk x)) as (_ & _ & Hb); [by left|].
  unfold childBools in Hb. rewrite (bool_at_boolString _ _ _ e He) in Hb. injection Hb as Hb%bool_decide_eq_true.
  apply dom_depth in Hb. lia.
Qed.

Lemma numbered_elem i p e : (i, p, e) ∈ numbered_states scxml <-> states !! i = Some e /\ parent_attr scxml e = Some p.
Proof.
  unfold numbered_states. rewrite list_elem_of_omap. split.
  - intros ([j x] & Hin & (q & Hq & [= -> -> ->])%bind_Some). apply list_elem_of_lookup in Hin as (k & (y & [= -> ->] & Hy)%imap_pair_lookup). done.
  - intros [He Hp]. exists (i, e). split; [|cbn; by rewrite Hp]. apply list_elem_of_lookup. exists i. apply imap_pair_lookup. eauto.
Qed.

Lemma mapM_elem {A B} (f : A -> option B) l k x : mapM f l = Some k -> x ∈ l -> exists y, y ∈ k /\ f x = Some y.
Proof.
  intros Hm (i & Hi)%list_elem_of_lookup. destruct (mapM_lookup f l k i x Hm Hi) as (y & Hy & Hf).
  exists y. split; [by eapply list_elem_of_lookup_2|done].
Qed.

Context (entries : list VAssign) (Hentries : writeCompleteEntrySet scxml = Some entries) (Hrest : at_rest env entries).

Lemma up_line i p e : states !! i = Some e -> parent_attr scxml e = Some p ->
  env (in_complete_entry_set_up i) = true <->
  exists j t, transitions !! j = Some t /\ names_target t e /\ env (in_optimal_transition_set j) = true.
Proof.
  intros He Hp. unfold writeCompleteEntrySet in Hentries. apply bind_Some in Hentries as (up & Hup & (down & _ & [= Heq])%bind_Some).
  destruct (mapM_elem _ _ _ (i, p, e) Hup) as (a & Ha & Hs); [by apply numbered_elem|].
  cbn [fst snd] in Hs. unfold complete_entry_up in Hs. apply bind_Some in Hs as (opt & Hopt & (comp & Hcomp & [= <-])%bind_Some).
  rewrite (entry_setters_nil i e comp He Hcomp) in Ha.
  rewrite (Hrest (in_complete_entry_set_up i) _) by (rewrite <- Heq; apply elem_of_app; left; exact Ha).
  cbn [eval existsb]. rewrite !orb_false_r, existsb_fmap. cbn [eval].
  setoid_rewrite (select_bits_spec _ _ _ Hopt). setoid_rewrite (target_bit _ i e He).
  split; [intros (j & (t & ? & ?) & ?)|intros (j & t & ? & ? & ?)]; eauto 10.
Qed.

Lemma complete_line i p e : states !! i = Some e -> parent_attr scxml e = Some p ->
  exists l, descendant_completion scxml i p e = Some l /\
    env (in_complete_entry_set i) = env (in_complete_entry_set_up i) || forallb (eval env) l.
Proof.
  intros He Hp. unfold writeCompleteEntrySet in Hentries. apply bind_Some in Hentries as (up & _ & (down & Hdown & [= Heq])%bind_Some).
  destruct (mapM_elem _ _ _ (i, p, e) Hdown) as (a & Ha & Hs); [by apply numbered_elem|].
  cbn [fst snd] in Hs. unfold complete_entry in Hs. apply bind_Some in Hs as (l & Hl & [= <-]). exists l. split; [done|].
  rewrite (Hrest (in_complete_entry_set i) _) by (rewrite <- Heq; apply elem_of_app; right; exact Ha).
  cbn [eval existsb]. by rewrite orb_false_r.
Qed.

(** A state of a compound state other than the one that state is completed
    with is entered exactly when a selected transition names it as a target;
    that a descendant of it is a target makes no difference. *)
Theorem entered_as_target i p e parentState : states !! i = Some e -> parent_attr scxml e = Some p ->
  getParentState e = Some parentState -> isCompound parentState = true ->
  default_completion scxml parentState i e = false ->
  env (in_complete_entry_set i) = true <->
  exists j t, transitions !! j = Some t /\ names_target t e /\ env (in_optimal_transition_set j) = true.
Proof.
  intros He Hp Hps Hcomp Hdef. destruct (complete_line i p e He Hp) as (l & Hl & ->).
  unfold descendant_completion in Hl. rewrite Hps, Hcomp, Hdef in Hl. apply bind_Some in Hl as (pi & _ & [= <-]).
  cbn [forallb eval]. rewrite orb_false_r. by apply (up_line i p).
Qed.

(** A state that is not entered with its parent state. *)
Lemma complete_below_kept i p e parentState pi : states !! i = Some e -> parent_attr scxml e = Some p ->
  getParentState e = Some parentState -> isCompound parentState = true -> p_index scxml parentState = Some pi ->
  env (in_entry_set pi) = false ->
  env (in_complete_entry_set i) = true <->
  exists j t, transitions !! j = Some t /\ names_target t e /\ env (in_optimal_transition_set j) = true.
Proof.
  intros He Hp Hps Hcomp Hpi Hentry. destruct (complete_line i p e He Hp) as (l & Hl & ->).
  rewrite <- (up_line i p e He Hp). unfold descendant_completion in Hl. rewrite Hps, Hcomp, Hpi in Hl. cbn [mbind option_bind] in Hl.
  destruct (default_completion scxml parentState i e).
  - apply bind_Some in Hl as (pn & _ & (others & _ & [= <-])%bind_Some). cbn [forallb eval]. by rewrite Hentry, orb_false_r.
  - injection Hl as <-. cbn [forallb eval]. by rewrite orb_false_r.
Qed.

End Entry.

(** ** Charts without nesting *)

Section Flat.
Context {node : Type} `{!EqDecision node, !Countable node} {D : DomOps node} {DL : DomLaws node}.
Context (scxml : node).
Notation states := (p_states scxml).
Notation transitions := (p_transitions scxml).

(** Every state but the root is an atomic or final child of the root. *)
Definition flat_state (e : node) : Prop :=
  getParentNode e = Some scxml /\ isAtomic e = true /\ isHistory e = false /\ iequals (getTagName e) "initial" = false.

Record flat : Prop := {
  flat_children : Forall flat_state (drop 1 states);
  flat_root : states !! 0 = Some scxml /\ getParentNode scxml = None /\ HAS_ATTR scxml "id" = false;
  flat_root_type : getLocalName scxml = "scxml"%string /\ has_child_states scxml = true /\ isFinal scxml = false;
}.

Context (Hpre : unprefixed) (c : Chart node) (Hc : init_chart scxml = Some c).

Lemma target_elem j k : plain_ids scxml -> k ∈ trans_set t_target c j <->
  exists t e, transitions !! j = Some t /\ states !! k = Some e /\ names_target t e.
Proof.
  intros Hids. unfold trans_set, names_target. destruct (c_transitions c !! j) as [tr|] eqn:Htr.
  - destruct (init_chart_trans scxml c j tr Hc Htr) as (t & Ht). change (transitions !! j = Some t) in Ht.
    destruct (init_chart_transition scxml c j t Hc Ht) as (tr' & row & Htr' & Hi & _). simplify_eq.
    unfold init_transition in Hi. apply bind_Some in Hi as (b & _ & [= <-]). cbn [t_target].
    rewrite (transition_target_elem scxml Hpre t k Hids). rewrite Ht. naive_solver.
  - split; [set_solver|]. intros (t & e & Ht & _).
    destruct (init_chart_transition scxml c j t Hc Ht) as (tr' & row & Htr' & _). congruence.
Qed.

Context (Hflat : flat).

Lemma flat_at i e : states !! i = Some e -> i <> 0 -> flat_state e.
Proof.
  intros He Hi. pose proof (flat_children Hflat) as HF. rewrite Forall_forall in HF. apply HF.
  apply list_elem_of_lookup. exists (i - 1). rewrite lookup_drop. by replace (1 + (i - 1)) with i by lia.
Qed.

Lemma root_index : p_index scxml scxml = Some 0.
Proof. apply p_index_spec, (flat_root Hflat). Qed.

Lemma flat_ancestors i a : a ∈ ancestors_of c i <-> a = 0 /\ i <> 0 /\ i < length states.
Proof.
  rewrite (ancestors_of_spec scxml c Hc), <- (states_same scxml Hpre).
  assert (Hp : forall e, state_parents scxml e = match getParentNode e with
    | Some p => match p_index scxml p with Some k => k :: state_parents scxml p | None => [] end | None => [] end).
  { intros e. rewrite state_parents_unfold. destruct (getParentNode e) as [p|]; [|done]. by rewrite index_same. }
  assert (Hroot : state_parents scxml scxml = []) by (rewrite Hp; by rewrite (proj1 (proj2 (flat_root Hflat)))).
  split.
  - intros (e & He & Ha). apply lookup_lt_Some in He as Hlt. destruct (decide (i = 0)) as [->|Hi].
    + rewrite (proj1 (flat_root Hflat)) in He. injection He as <-. rewrite Hroot in Ha. by apply elem_of_nil in Ha.
    + destruct (flat_at i e He Hi) as [Hpar _]. rewrite Hp, Hpar, root_index, Hroot in Ha.
      apply list_elem_of_singleton in Ha. done.
  - intros (-> & Hi & Hlt). destruct (lookup_lt_is_Some_2 _ _ Hlt) as [e He]. exists e. split; [done|].
    destruct (flat_at i e He Hi) as [Hpar _]. rewrite Hp, Hpar, root_index. by left.
Qed.

Lemma flat_type i : i <> 0 -> i < n_states c -> type_of c i = USCXML_STATE_ATOMIC \/ type_of c i = USCXML_STATE_FINAL.
Proof.
  intros Hi [s Hs]%lookup_lt_is_Some_2. unfold type_of. rewrite Hs.
  assert (Hlt := lookup_lt_Some _ _ _ Hs). rewrite (proj1 (init_chart_states scxml c Hc)), <- (states_same scxml Hpre) in Hlt.
  destruct (lookup_lt_is_Some_2 _ _ Hlt) as [e He]. destruct (flat_at i e He Hi) as (_ & Ha & Hh & Hin).
  rewrite (states_same scxml Hpre) in He. destruct (proj2 (init_chart_states scxml c Hc) i e He) as (s' & Hs' & Hinit).
  simplify_eq. rewrite (init_chart_no_history_flag scxml c i s Hc Hs). apply init_state_fields in Hinit as (-> & _).
  unfold state_type. destruct (unprefixed_prefix scxml Hpre scxml) as (_ & -> & _).
  change ("" +:+ "initial")%string with "initial"%string. rewrite Hin, Hh, Ha. destruct (isFinal e); auto.
Qed.

Lemma flat_genuine i : i <> 0 -> i < n_states c -> is_pseudo_type (type_of c i) = false.
Proof. intros Hi Hlt. by destruct (flat_type i Hi Hlt) as [-> | ->]. Qed.

Lemma flat_root_compound : type_of c 0 = USCXML_STATE_COMPOUND.
Proof.
  destruct (flat_root Hflat) as (H0 & _ & _). destruct (flat_root_type Hflat) as (Hl & Hch & Hf).
  rewrite (states_same scxml Hpre) in H0. destruct (proj2 (init_chart_states scxml c Hc) 0 scxml H0) as (s & Hs & Hinit).
  unfold type_of. rewrite Hs, (init_chart_no_history_flag scxml c 0 s Hc Hs). apply init_state_fields in Hinit as (-> & _).
  unfold state_type. destruct (unprefixed_prefix scxml Hpre scxml) as (_ & -> & ->). rewrite Hf.
  unfold isHistory, isAtomic, isParallel, isState. rewrite Hl, Hch. reflexivity.
Qed.

(** No target is the root, which has no id. *)
Lemma flat_targets j k : plain_ids scxml -> k ∈ trans_set t_target c j -> k <> 0 /\ k < n_states c.
Proof.
  intros Hids Hk. split; [|by apply (wf_target_range c (init_chart_wf scxml c Hc) j)].
  intros ->. apply (target_elem j 0 Hids) in Hk as (t & e & _ & He & _ & Ht).
  destruct (flat_root Hflat) as (H0 & _ & Hid). assert (e = scxml) as -> by congruence. unfold is_target in Ht. by rewrite Hid in Ht.
Qed.

(** The entry set is that of the targets and the root. *)
Lemma flat_entry config history exits targets trans : (forall k, k ∈ targets -> k <> 0 /\ k < n_states c) ->
  fst (establish_entryset c config history exits targets trans) = with_ancestors c targets.
Proof.
  intros Ht. pose proof (init_chart_wf scxml c Hc) as WF. unfold establish_entryset. cbv zeta.
  set (E0 := with_ancestors c targets). change (find_first (n_states c) E0) with (find_first (n_states c) (fst (E0, trans))).
  rewrite find_loop_scan by lia.
  apply (scan_loop_inv fst (descend c config history exits) (fun _ st => fst st = E0)); [done|].
  intros i [E T] Hlt HE. cbn [fst] in *. subst E. case_bool_decide as Hin; [|done]. unfold descend.
  destruct (decide (i = 0)) as [->|Hi].
  - rewrite flat_root_compound. cbn. unfold complete_compound.
    assert (BIT_HAS_AND E0 (children_of c 0) = true) as ->; [|done].
    unfold BIT_HAS_AND. apply negb_true_iff, bool_decide_eq_false. apply (with_ancestors_elem c WF) in Hin as [Hin|(t & Hin & Ha)].
    + destruct (Ht 0 Hin). done.
    + intros Hnone. apply (not_elem_of_empty (C := gset nat) t). rewrite <- Hnone. apply elem_of_intersection.
      split; [|by apply (wf_children c WF)]. apply (with_ancestors_elem c WF). by left.
  - destruct (flat_type i Hi ltac:(lia)) as [-> | ->]; done.
Qed.

Lemma flat_parent i e : states !! i = Some e -> i <> 0 -> parent_attr scxml e = Some 0 /\ getParentState e = Some scxml.
Proof.
  intros He Hi. destruct (flat_at i e He Hi) as [Hp _]. unfold parent_attr. rewrite Hp. split; [apply root_index|].
  unfold getParentState. rewrite parents_unfold, Hp. cbn [List.find].
  destruct (flat_root_type Hflat) as (Hl & _). unfold isState. by rewrite Hl.
Qed.

Context {W X : Type} {CB : MicroStepCallbacks node W X}.
(** The lines of the next states when the reset is over. *)
Lemma flat_next env ms exits entries i e :
  states !! i = Some e -> i <> 0 ->
  env (state_active i) = bool_decide (i ∈ _configuration ms) -> env (in_complete_entry_set 0) = false ->
  writeExitSet scxml = Some exits -> at_rest env exits ->
  writeCompleteEntrySet scxml = Some entries -> at_rest env entries ->
  at_rest env (writeEntrySet scxml) -> at_rest env (writeActiveStateNplusOne scxml) ->
  env (state_next i) = true <->
  (exists j t, transitions !! j = Some t /\ names_target t e /\ env (in_optimal_transition_set j) = true) \/
  (env (in_exit_set i) = false /\ i ∈ _configuration ms).
Proof.
  intros He Hi Hact Hreset Hex Hrx Hen Hre Hrs Hrn. destruct (flat_parent i e He Hi) as [Hp Hps].
  assert (Hentry0 : env (in_entry_set 0) = false).
  { rewrite (Hrs (in_entry_set 0) (VAnd [VLine (in_complete_entry_set 0); VOr [VLine (in_exit_set 0); VNot (VLine (state_active 0))]])).
    - cbn [eval forallb]. by rewrite Hreset.
    - apply list_elem_of_fmap. exists 0. split; [done|]. apply elem_of_seq. apply lookup_lt_Some in He. lia. }
  assert (Hcomp : isCompound scxml = true).
  { destruct (flat_root_type Hflat) as (Hl & Hch & _). unfold isCompound, isState. rewrite Hl, Hch. reflexivity. }
  rewrite (Hrn (state_next i) (VOr [VLine (in_complete_entry_set i); VAnd [VNot (VLine (in_exit_set i)); VLine (state_active i)]])).
  - cbn [eval existsb forallb]. rewrite orb_false_r, andb_true_r, orb_true_iff, andb_true_iff, negb_true_iff.
    rewrite (complete_below_kept scxml env entries Hen Hre i 0 e scxml 0 He Hp Hps Hcomp root_index Hentry0).
    by rewrite Hact, bool_decide_eq_true.
  - apply list_elem_of_lookup. exists i. unfold writeActiveStateNplusOne. rewrite list_lookup_imap, He. cbn. unfold next_state. by rewrite Hp.
Qed.

(** The configuration after select_and_step, over the selected transitions. *)
Lemma flat_result sets ms0 ms1 ms2 : plain_ids scxml -> in_range c (_configuration ms0) ->
  selected c ms0 (seq 0 (n_transitions c)) sets ms1 -> _configuration ms2 = _configuration ms0 ->
  forall i, i <> 0 -> i ∈ _configuration (microstep_result c (exitSet sets ∩ _configuration ms0) (targetSet sets) (transSet sets) ms2) <->
    (exists j, j ∈ transSet sets /\ i ∈ trans_set t_target c j) \/ (i ∈ _configuration ms0 /\ i ∉ exitSet sets).
Proof.
  intros Hids Hr Hsel Hcf i Hi. pose proof (init_chart_wf scxml c Hc) as WF.
  destruct (microstep_result_fields c (exitSet sets ∩ _configuration ms0) (targetSet sets) (transSet sets) ms2) as [Hres _]; [by rewrite Hcf|].
  rewrite Hres, Hcf. assert (Htg : forall k, k ∈ targetSet sets <-> exists j, j ∈ transSet sets /\ k ∈ trans_set t_target c j).
  { intros k. rewrite (sel_target _ _ _ _ _ Hsel). unfold union_of. rewrite elem_of_set_bind. naive_solver. }
  rewrite flat_entry by (intros k (j & _ & Hk)%Htg; by eapply flat_targets).
  rewrite elem_of_union, elem_of_difference, elem_of_intersection, elem_of_proper_of, (with_ancestors_elem c WF), <- Htg.
  split.
  - intros [[Hin Hex]|[[Ht|(t & _ & Ha)] _]]; [right; split; [done|]; intros ?; by apply Hex|by left|].
    apply flat_ancestors in Ha as [-> _]. done.
  - intros [Ht|[Hin Hex]]; [right|left; split; [done|]; by intros [? _]].
    split; [by left|]. apply Htg in Ht as (j & _ & Hk). destruct (flat_targets j i Hids Hk). split; [done|by apply flat_genuine].
Qed.

End Flat.

Section Step.
Context {node : Type} `{!EqDecision node, !Countable node} (D : DomOps node) {DL : DomLaws node}.
Context {W X : Type} {CB : MicroStepCallbacks node W X}.
Context (scxml : node) (strHash : string -> Z) (address : nat -> Z).
Let D' : DomOps node := p_resortStates scxml.
Notation Step := (@Step W X).

(** On a chart whose states are children of the root, signals at rest that
    show the state of the interpreter, after the reset, set the lines of the
    next states to the configuration that the interpreter's SELECT_TRANSITIONS
    and micro step end in. *)
Theorem flat_step_refines c env truth ms selection exits entries :
  unprefixed -> init D scxml = Some c ->
  flat (D := D') scxml -> plain_ids (D := D') scxml -> in_range c (_configuration ms) ->
  has_flag (_flags ms) USCXML_CTX_TRANSITION_FOUND = false ->
  mirrors (D := D') scxml strHash address env truth ms -> env (in_complete_entry_set 0) = false ->
  (forall e ms w, fst (isTrue (node := node) (W := W) (X := X) e ms w) = inr (truth e)) ->
  writeOptimalTransitionSetSelection (D := D') scxml strHash address = Some selection -> at_rest env selection ->
  writeExitSet (D := D') scxml = Some exits -> at_rest env exits ->
  writeCompleteEntrySet (D := D') scxml = Some entries -> at_rest env entries ->
  at_rest env (writeEntrySet (D := D') scxml) -> at_rest env (writeActiveStateNplusOne (D := D') scxml) ->
  hoare_ms (fun m => m = ms) (select_and_step (X := X) c)
    (fun _ ms' => forall i e, p_states (D := D') scxml !! i = Some e -> i <> 0 ->
       env (state_next i) = true <-> i ∈ _configuration ms')
    (fun _ => True).
Proof.
  intros Hpre Hc Hflat Hids Hr Hflag Hm Hreset Htruth Hse Hrs Hex Hrx Hen Hre Hrn Hra.
  unfold init in Hc. rewrite <- resorted_same in Hc by done. fold D' in Hc.
  pose proof (p_resorted_laws D scxml : @DomLaws node D') as DL' .
  unfold select_and_step. eapply hoare_ms_bind.
  { apply hoare_ms_and; [apply (select_selected c ms)|].
    apply (hardware_selects_resorted (D := D') scxml strHash address c Hpre Hc env truth ms selection exits); done. }
  intros sets. apply hoare_ms_getm. intros ms1 [Hsel [Hlines Hexits]].
  assert (Hpl : _configuration ms1 = _configuration ms) by apply Hsel.
  assert (Hnext : forall i e, p_states (D := D') scxml !! i = Some e -> i <> 0 ->
    env (state_next i) = true <->
    (exists j, j ∈ transSet sets /\ i ∈ trans_set t_target c j) \/ (i ∈ _configuration ms /\ i ∉ exitSet sets)).
  { intros i e He Hi.
    rewrite (flat_next (D := D') scxml Hflat env ms exits entries i e He Hi (mi_active _ _ _ _ _ _ Hm i e He) Hreset Hex Hrx Hen Hre Hrn Hra).
    rewrite <- not_true_iff_false, (Hexits i e He). split.
    - intros [(j & t & Ht & Hn & Hl)|[Hne Hin]]; [left|right; by auto].
      exists j. split; [by apply (Hlines j t Ht)|]. apply (target_elem (D := D') scxml Hpre c Hc j i Hids). by exists t, e.
    - intros [(j & Hj & Hk)|[Hin Hne]]; [left|right; by naive_solver].
      apply (target_elem (D := D') scxml Hpre c Hc j i Hids) in Hk as (t & e' & Ht & He' & Hn).
      assert (e' = e) as -> by congruence. exists j, t. split_and!; try done. by apply (Hlines j t Ht). }
  destruct (has_flag (_flags ms1) USCXML_CTX_TRANSITION_FOUND) eqn:Hfound.
  - eapply hoare_ms_bind with (R := fun _ ms2 => _configuration ms2 = _configuration ms).
    { apply hoare_ms_update. by intros ? ->. }
    intros _. eapply hoare_ms_bind with (R := fun _ ms2 => _configuration ms2 = _configuration ms).
    { eapply hoare_ms_conseq; [apply hoare_ms_call|intros ? HP; exact HP|done|done]. }
    intros _. eapply hoare_ms_bind with (R := fun _ ms2 => _configuration ms2 = _configuration ms).
    { by apply hoare_ms_update. }
    intros _ st Hst. rewrite Hpl.
    pose proof (microstep_effect (X := X) c (exitSet sets ∩ _configuration ms) (targetSet sets) (transSet sets) (fst st) st eq_refl) as Hmi.
    destruct (microstep _ _ _ _ st) as [[x|r] st']; [done|]. rewrite Hmi. intros i e He Hi.
    rewrite (flat_result (D := D') scxml Hpre c Hc Hflat sets ms ms1 (fst st) Hids Hr Hsel Hst i Hi). by apply (Hnext i e).
  - eapply hoare_ms_bind with (R := fun _ ms2 => _configuration ms2 = _configuration ms).
    { apply hoare_ms_update. by intros ? ->. }
    intros _. apply hoare_ms_ret. intros ms2 Hms2 i e He Hi. rewrite Hms2, (Hnext i e He Hi).
    pose proof (sel_flag _ _ _ _ _ Hsel) as Hf. rewrite Hfound, Hflag in Hf.
    assert (Hno : transSet sets = ∅) by (destruct (decide (transSet sets = ∅)) as [|Hne]; [done|]; by rewrite bool_decide_eq_false_2 in Hf).
    rewrite (sel_exit _ _ _ _ _ Hsel), Hno. unfold union_of. rewrite elem_of_set_bind. set_solver.
Qed.

End Step.
