(* ===== verification/VhdlSystem.v ===== *)
(** * The clocked system and sample documents

    Between two edges the simulation ends in signals at rest, so the theorems
    about the equations apply to every period. Sample documents then show what
    the whole system does with nested targets, spontaneous transitions that
    conflict with others, repeated events and content in two entered states. *)

From stdpp Require Import base list gmap strings.
From S2P Require Import Prelude Strings Data Effects CBits Dom Predicates Chart CTables MicroStep StepLemmas Recorder CTransform Trie VhdlFifo Vhdl VhdlController VhdlClock VhdlTheorems VhdlEntry.

Local Open Scope nat_scope.

(** ** Rest *)

Lemma settle_fixed fuel base circuit : forall vals vals',
  settle fuel base circuit vals = Some vals' -> delta base circuit vals' = vals'.
Proof.
  induction fuel as [|fuel IH]; intros vals vals'; cbn [settle]; [done|].
  case_bool_decide as Hv; [by intros [= <-]|apply IH].
Qed.

Lemma value_env_assigned base (vals : Values) s b : NoDup (fst <$> vals) -> (s, b) ∈ vals -> value_env base vals s = b.
Proof.
  intros Hnd Hin. unfold value_env. induction vals as [|[s' b'] vals IH]; [by apply elem_of_nil in Hin|].
  cbn [List.find]. cbn in Hnd. apply NoDup_cons in Hnd as [Hn Hnd]. apply elem_of_cons in Hin as [[= <- <-]|Hin].
  - by rewrite bool_decide_eq_true_2.
  - rewrite bool_decide_eq_false_2; [by apply IH|]. cbn. intros ->. apply Hn, list_elem_of_fmap. by exists (s, b).
Qed.

(** The simulation of equations for distinct signals ends at rest. *)
Lemma settle_at_rest fuel base circuit vals vals' : NoDup (fst <$> circuit) ->
  settle fuel base circuit vals = Some vals' -> at_rest (value_env base vals') circuit.
Proof.
  intros Hnd Hs%settle_fixed s e Hin. apply value_env_assigned.
  - rewrite <- Hs. unfold delta. by rewrite <- list_fmap_compose.
  - assert (Hd : (s, eval (value_env base vals') e) ∈ delta base circuit vals')
      by (apply list_elem_of_fmap; by exists (s, e)). by rewrite Hs in Hd.
Qed.

(** ** The assigned signals are distinct *)

Lemma omap_sublist {A B C} (f : A -> option B) (h : B -> C) (k : A -> C) l :
  (forall x y, f x = Some y -> h y = k x) -> (h <$> omap f l) `sublist_of` (k <$> l).
Proof.
  intros Hf. induction l as [|x l IH]; [done|]. cbn. destruct (f x) as [y|] eqn:E; cbn.
  - rewrite (Hf x y E). by apply sublist_skip.
  - by apply sublist_cons.
Qed.

Lemma imap_pair_fst {A} (l : list A) : fst <$> imap pair l = seq 0 (length l).
Proof.
  apply list_eq. intros i. rewrite list_lookup_fmap, list_lookup_imap.
  destruct (decide (i < length l)) as [Hi|Hi].
  - rewrite lookup_seq_lt by done. by destruct (lookup_lt_is_Some_2 l i Hi) as [x ->].
  - rewrite (lookup_ge_None_2 l) by lia. symmetry. apply lookup_ge_None_2. rewrite length_seq. lia.
Qed.

Lemma mapM_fst {A B C} (f : A -> option (B * C)) (g : A -> B) l k :
  mapM f l = Some k -> (forall x y, f x = Some y -> y.1 = g x) -> fst <$> k = g <$> l.
Proof.
  intros HF%mapM_Some Hg. apply list_eq_Forall2, Forall2_fmap, Forall2_flip. eapply Forall2_impl; [exact HF|].
  intros x y Hxy. by apply Hg.
Qed.

Section Distinct.
Context {node : Type} `{!EqDecision node} {D : DomOps node} {DL : DomLaws node}.
Context (scxml : node) (strHash : string -> Z) (address : nat -> Z).
Notation states := (p_states scxml).
Notation transitions := (p_transitions scxml).

Lemma numbered_distinct : NoDup ((fun x => x.1.1) <$> numbered_states scxml).
Proof.
  eapply sublist_NoDup; [|unfold numbered_states; apply (omap_sublist _ _ fst)].
  - rewrite imap_pair_fst. apply NoDup_seq.
  - by intros [i e] y (p & _ & [= <-])%bind_Some.
Qed.

Lemma assigned_signals circuit : writeMicroStepper scxml strHash address = Some circuit ->
  fst <$> circuit =
    (in_optimal_transition_set <$> seq 0 (length transitions)) ++ [optimal_transition_set_combined_sig; spontaneous_active] ++
    (in_exit_set <$> seq 0 (length states)) ++
    (in_complete_entry_set_up <$> ((fun x => x.1.1) <$> numbered_states scxml)) ++
    (in_complete_entry_set <$> ((fun x => x.1.1) <$> numbered_states scxml)) ++
    (in_entry_set <$> seq 0 (length states)) ++ (state_next <$> seq 0 (length states)) ++ [completed_sig; stall].
Proof.
  unfold writeMicroStepper, writeOptimalTransitionSetSelection, writeCompleteEntrySet, writeSystemSignalMapping.
  intros (sel & (ts & Hts & [= <-])%bind_Some & (ex & Hex & (en & (up & Hup & (down & Hdown & [= <-])%bind_Some)%bind_Some &
    (mp & (fi & _ & [= <-])%bind_Some & [= <-])%bind_Some)%bind_Some)%bind_Some)%bind_Some.
  rewrite !fmap_app, <- !app_assoc.
  apply (mapM_fst _ (fun ix => in_optimal_transition_set ix.1)) in Hts as ->.
  2:{ intros [i t] y Hy. unfold select_transition in Hy. by apply bind_Some in Hy as (s & _ & (cf & _ & [= <-])%bind_Some). }
  apply (mapM_fst _ in_exit_set) in Hex as ->.
  2:{ intros i y Hy. unfold exit_state in Hy. by apply bind_Some in Hy as (s & _ & [= <-]). }
  apply (mapM_fst _ (fun x => in_complete_entry_set_up x.1.1)) in Hup as ->.
  2:{ intros [[i p] e] y Hy. unfold complete_entry_up in Hy. by apply bind_Some in Hy as (s & _ & (cf & _ & [= <-])%bind_Some). }
  apply (mapM_fst _ (fun x => in_complete_entry_set x.1.1)) in Hdown as ->.
  2:{ intros [[i p] e] y Hy. unfold complete_entry in Hy. by apply bind_Some in Hy as (s & _ & [= <-]). }
  rewrite <- imap_pair_fst, <- !list_fmap_compose. cbn [fmap list_fmap fst]. do 6 f_equal.
  - unfold writeEntrySet. rewrite <- list_fmap_compose. done.
  - f_equal. unfold writeActiveStateNplusOne. rewrite fmap_imap, <- (imap_pair_fst states), !fmap_imap. by apply imap_ext.
Qed.

Lemma fmap_NoDup_inj {A B} (f : A -> B) (l : list A) : (forall x y, f x = f y -> x = y) -> NoDup l -> NoDup (f <$> l).
Proof. intros Hf. by apply NoDup_fmap. Qed.

Lemma micro_stepper_distinct circuit : writeMicroStepper scxml strHash address = Some circuit -> NoDup (fst <$> circuit).
Proof.
  intros ->%assigned_signals. pose proof numbered_distinct as Hn. pose proof NoDup_seq as Hs.
  rewrite !NoDup_app. split_and!; try (apply fmap_NoDup_inj; [by intros ?? [= ->]|done]);
    try (intros s Hin Hin'; set_unfold; naive_solver).
  all: repeat constructor; set_solver.
Qed.

End Distinct.

(** ** A period *)

Lemma value_env_other base (vals : Values) s : s ∉ fst <$> vals -> value_env base vals s = base s.
Proof.
  intros Hs. unfold value_env. destruct (List.find _ vals) as [[s' b]|] eqn:E; [|done].
  apply find_some in E as [Hin He]. apply bool_decide_eq_true in He. cbn in He. subst s'.
  exfalso. apply Hs, list_elem_of_fmap. exists (s, b). split; [done|]. by apply list_elem_of_In.
Qed.

Lemma settle_signals fuel base circuit vals vals' : settle fuel base circuit vals = Some vals' -> fst <$> vals' = fst <$> circuit.
Proof. intros <-%settle_fixed. unfold delta. by rewrite <- list_fmap_compose. Qed.

Section Period.
Context {node : Type} `{!EqDecision node, !Countable node} (D : DomOps node) {DL : DomLaws node}.
Context {W X : Type} {CB : MicroStepCallbacks node W X}.
Context (scxml : node) (strHash : string -> Z) (address : nat -> Z).
Let D' : DomOps node := p_resortStates scxml.

(** A signal that no equation assigns. *)
Definition input_signal (s : Signal) : Prop :=
  match s with
  | state_active _ | spontaneous_en | event_sig _ | transition_condition_fulfilled _ => True
  | in_complete_entry_set 0 => True
  | _ => False
  end.

Lemma inputs_unassigned circuit s : p_states (D := D') scxml !! 0 = Some scxml -> getParentNode (DomOps := D') scxml = None ->
  writeMicroStepper (D := D') scxml strHash address = Some circuit -> input_signal s -> s ∉ fst <$> circuit.
Proof.
  intros H0 Hp Hw Hs. rewrite (assigned_signals (D := D') scxml strHash address circuit Hw). intros Hin.
  destruct s as [| | | | | | | | |[|i]| | | | | |]; try done; set_unfold; try naive_solver.
  assert (Hz : exists x, x ∈ numbered_states (D := D') scxml /\ x.1.1 = 0) by naive_solver.
  destruct Hz as ([[i p] e] & [He Hpar]%(numbered_elem (D := D') scxml) & Hi). cbn in Hi. simplify_eq.
  unfold parent_attr in Hpar. change (@getParentNode node D' scxml) with (@getParentNode node D scxml) in Hpar. by rewrite Hp in Hpar.
Qed.

Lemma mirrors_inputs env env' truth ms : (forall s, input_signal s -> env' s = env s) ->
  mirrors (D := D') scxml strHash address env truth ms -> mirrors (D := D') scxml strHash address env' truth ms.
Proof.
  intros He [Ha Hph Hev Hco Hpr Hw]. split; try done.
  - intros i e Hi. rewrite He by done. by eapply Ha.
  - by rewrite He.
  - intros t Ht Hevt. rewrite <- (Hev t Ht Hevt). unfold name_matchers. rewrite Hevt.
    induction (tokenize _) as [|d ds IH]; [done|]. cbn [flat_map]. rewrite !existsb_app, IH. f_equal.
    induction (getWordsWithPrefix _ _ _ _) as [|w ws IHw]; [done|]. cbn. by rewrite He, IHw.
  - intros i t Hi Hc. rewrite He by done. by eapply Hco.
Qed.

Lemma at_rest_app env l1 l2 : at_rest env (l1 ++ l2) <-> at_rest env l1 /\ at_rest env l2.
Proof. unfold at_rest. setoid_rewrite elem_of_app. naive_solver. Qed.

(** C9: on a chart whose states are children of the root, a period of the clock
    that is not stalled registers the configuration that the interpreter's
    SELECT_TRANSITIONS and micro step end in, when the registers and inputs
    show the state of the interpreter at the start of the period and the
    signals come to rest. *)
Theorem flat_period_refines c truth ms bits circuit r k vals r' k' vals' :
  unprefixed -> init D scxml = Some c ->
  flat (D := D') scxml -> plain_ids (D := D') scxml -> in_range c (_configuration ms) ->
  has_flag (_flags ms) USCXML_CTX_TRANSITION_FOUND = false ->
  (forall e ms w, fst (isTrue (node := node) (W := W) (X := X) e ms w) = inr (truth e)) ->
  writeMicroStepper (D := D') scxml strHash address = Some circuit ->
  mirrors (D := D') scxml strHash address (register_env (D := D') scxml strHash address r) truth ms -> r_entry0 r = false ->
  cycle (D := D') scxml strHash address bits circuit ((r, k), vals) = Some ((r', k'), vals') ->
  (forall v, settled (D := D') scxml strHash address circuit vals r = Some v ->
     stalled_by (D := D') scxml (value_env (register_env (D := D') scxml strHash address r) v) k = false) ->
  hoare_ms (fun m => m = ms) (select_and_step (X := X) c)
    (fun _ ms' => forall i e, p_states (D := D') scxml !! i = Some e -> i <> 0 ->
       on (r_active r') i = true <-> i ∈ _configuration ms')
    (fun _ => True).
Proof.
  intros Hpre Hc Hflat Hids Hr Hflag Htruth Hw Hm Hentry Hcyc Hst.
  pose proof (p_resorted_laws D scxml : @DomLaws node D') as DL'.
  unfold cycle in Hcyc. apply bind_Some in Hcyc as (v & Hv & (ls & _ & (v1 & _ & [= <- _ _])%bind_Some)%bind_Some).
  specialize (Hst v Hv). set (base := register_env (D := D') scxml strHash address r) in *.
  assert (Hrest : at_rest (value_env base v) circuit)
    by (eapply settle_at_rest, Hv; by apply (micro_stepper_distinct (D := D') scxml strHash address)).
  destruct (flat_root (D := D') scxml Hflat) as (H0 & Hp & _).
  assert (Hinp : forall s, input_signal s -> value_env base v s = base s).
  { intros s Hs. apply value_env_other. rewrite (settle_signals _ _ _ _ _ Hv). by apply inputs_unassigned. }
  unfold writeMicroStepper in Hw.
  apply bind_Some in Hw as (sel & Hsel & (ex & Hex & (en & Hen & (mp & _ & [= <-])%bind_Some)%bind_Some)%bind_Some).
  rewrite !at_rest_app in Hrest. destruct Hrest as (Hrs & Hrx & Hre & Hrn & Hra & _).
  eapply hoare_ms_conseq; [|intros m Hms; exact Hms| |done].
  - apply (flat_step_refines D scxml strHash address c (value_env base v) truth ms sel ex en); try done.
    + by apply (mirrors_inputs base).
    + rewrite Hinp by done. cbn. rewrite Hentry. done.
  - intros ? ms' Hms i e He Hi. cbv beta in Hms. rewrite <- (Hms i e He Hi). cbn [falling rising r_active].
    rewrite Hst. unfold on. rewrite list_lookup_fmap, lookup_seq_lt by (by eapply lookup_lt_Some). done.
Qed.

End Period.
