(* ===== verification/VhdlSample.v ===== *)
(** * Emitted hardware on sample documents

    Documents on which the theorems about the emitted micro stepper apply, and
    documents on which the whole system, run by [run_hardware], departs from
    the chart: nested targets, spontaneous transitions that conflict with
    others, repeated events, and content in two states entered in turn. *)

From stdpp Require Import base list gmap strings.
From S2P Require Import Prelude Strings Data Effects CBits Dom Predicates Chart CTables MicroStep StepLemmas Recorder CTransform CSample Trie VhdlFifo Vhdl VhdlController VhdlClock VhdlTheorems VhdlEntry VhdlSystem.

Local Open Scope nat_scope.

(** ** Running a document *)

Definition doc_dom (l : list row) : DomOps nat := p_resortStates (D := table_dom l) 0.

Definition no_hash (_ : string) : Z := 0%Z.

(** The active states after [k] periods; [junk] is what the memory of the queue
    holds before the reset. *)
Definition active_after (l : list row) (k : nat) : option (list nat) :=
  run_hardware (D := doc_dom l) 0 no_hash Z.of_nat k "U".

Definition raise (event : string) : xml := Xml "raise" [("event", event)] [] [].

(** A state with content on entry and transitions. *)
Definition state (id : string) (onentry transitions : list xml) : xml :=
  Xml "state" [("id", id)] [] (match onentry with [] => [] | _ => [Xml "onentry" [] [] onentry] end ++ transitions).

Definition on_event (event target : string) : xml := Xml "transition" [("event", event); ("target", target)] [] [].
Definition spontaneous (target : string) : xml := Xml "transition" [("target", target)] [] [].

(** ** A chart without nesting *)

Definition hops : list row := rows (Xml "scxml" [] []
  [state "a" [] [spontaneous "b"];
   state "b" [] [on_event "e" "c"];
   state "c" [] [on_event "e" "b"]]).

Definition hops_dom : DomOps nat := table_dom hops.
Definition hops_laws : @DomLaws nat hops_dom := table_laws hops eq_refl.
Definition hops_chart : Chart nat := default (mkChart [] [] ∅ EARLY) (init hops_dom 0).
(** The document as the transformer sees it. *)
#[local] Instance hops_view : DomOps nat := doc_dom hops.

Definition hops_circuit : list VAssign :=
  Eval vm_compute in default [] (writeMicroStepper 0 no_hash Z.of_nat).

(** The system after [k] periods. *)
Definition hops_after (k : nat) : option (System * Values) :=
  cycles 0 no_hash Z.of_nat k 0 hops_circuit
    (reset_system 0 no_hash Z.of_nat 0 hops_circuit "U").

Definition start : System * Values :=
  Eval vm_compute in default ((mkRegisters [] false false false (mkEventRegs (mkFifo [] 0 0 false "" false false) [] false false), controller_reset [] ""), []) (hops_after 2).
Definition stop : System * Values :=
  Eval vm_compute in default ((mkRegisters [] false false false (mkEventRegs (mkFifo [] 0 0 false "" false false) [] false false), controller_reset [] ""), []) (hops_after 3).

Definition in_a : MicroState := mkMicroState 0 {[0; 1]} ∅ ∅ {[0; 1]} ∅ false (Event_default "").

Lemma hops_flat : flat 0.
Proof.
  split; [|by vm_compute..]. apply (bool_decide_unpack _). by vm_compute.
Qed.

Lemma hops_ids : plain_ids 0.
Proof.
  assert (HF : Forall (fun e => HAS_ATTR e "id" = true ->
    implode (escape (explode (ATTR e "id"))) = ATTR e "id" /\
    Forall (fun e' => getAttribute e' "id" = getAttribute e "id" -> e' = e)
      (p_states 0)) (p_states 0)).
  { apply (bool_decide_unpack _). by vm_compute. }
  rewrite Forall_forall in HF. intros e He Hid. destruct (HF e He Hid) as [? HF']. rewrite Forall_forall in HF'. done.
Qed.

(** A statement about every numbered element of a list. *)
Lemma each_lookup {A} (P : nat -> A -> Prop) l : Forall (fun ix => P ix.1 ix.2) (imap pair l) ->
  forall i x, l !! i = Some x -> P i x.
Proof.
  intros HF i x Hi. rewrite Forall_forall in HF. apply (HF (i, x)), list_elem_of_lookup. exists i.
  apply imap_pair_lookup. eauto.
Qed.

(** [mirrors] as a decidable check. *)
Definition mirror_check (env : Signal -> bool) (truth : string -> bool) (ms : MicroState) : Prop :=
  Forall (fun ie => env (state_active ie.1) = bool_decide (ie.1 ∈ _configuration ms) /\
    (ie.1 ∈ _configuration ms -> iequals (getTagName ie.2) "history" = false /\ iequals (getTagName ie.2) "initial" = false))
    (imap pair (p_states 0)) /\
  env spontaneous_en = negb (Event_bool (_event ms)) /\
  Forall (fun it => (HAS_ATTR it.2 "event" = true -> ATTR it.2 "event" <> ""%string /\
      existsb (eval env) (name_matchers 0 no_hash Z.of_nat it.2) = Event_bool (_event ms) && isMatched (MicroStepCallbacks := sample_recorder) (_event ms) (ATTR it.2 "event")) /\
    (HAS_ATTR it.2 "cond" = true -> ATTR it.2 "cond" <> ""%string /\ env (transition_condition_fulfilled it.1) = truth (ATTR it.2 "cond")))
    (imap pair (p_transitions 0)).

Lemma mirrors_checked env truth ms : mirror_check env truth ms -> mirrors (CB := sample_recorder) 0 no_hash Z.of_nat env truth ms.
Proof.
  intros (Hs & Hph & Ht).
  pose proof (each_lookup (fun i e => env (state_active i) = bool_decide (i ∈ _configuration ms) /\
    (i ∈ _configuration ms -> iequals (getTagName e) "history" = false /\ iequals (getTagName e) "initial" = false)) _ Hs) as Hs'.
  pose proof (each_lookup (fun i t => (HAS_ATTR t "event" = true -> ATTR t "event" <> ""%string /\
      existsb (eval env) (name_matchers 0 no_hash Z.of_nat t) = Event_bool (_event ms) && isMatched (MicroStepCallbacks := sample_recorder) (_event ms) (ATTR t "event")) /\
    (HAS_ATTR t "cond" = true -> ATTR t "cond" <> ""%string /\ env (transition_condition_fulfilled i) = truth (ATTR t "cond"))) _ Ht) as Ht'.
  split; [by intros i e []%Hs'|done| | |by intros i e Hi []%Hs'; auto|].
  - intros t [i Hi]%list_elem_of_lookup Hev. by apply (Ht' i t Hi).
  - intros i t Hi Hco. by apply (Ht' i t Hi).
  - intros t [i Hi]%list_elem_of_lookup. split; intros Hx; by apply (Ht' i t Hi).
Qed.

Lemma hops_mirrors : mirrors (CB := sample_recorder) 0 no_hash Z.of_nat
  (register_env 0 no_hash Z.of_nat start.1.1) (fun _ => true) in_a.
Proof. apply mirrors_checked, (bool_decide_unpack _). by vm_compute. Qed.

Lemma flat_period_refines_witness : hoare_ms (fun m => m = in_a) (select_and_step (X := unit) (CB := sample_recorder) hops_chart)
  (fun _ ms' => 2 ∈ _configuration ms' /\ 1 ∉ _configuration ms') (fun _ => True).
Proof.
  assert (Hc : init hops_dom 0 = Some hops_chart) by by vm_compute.
  assert (Hw : writeMicroStepper 0 no_hash Z.of_nat = Some hops_circuit) by by vm_compute.
  assert (Hcyc : cycle 0 no_hash Z.of_nat 0 hops_circuit start = Some stop) by by vm_compute.
  assert (Hr : in_range hops_chart (_configuration in_a)).
  { intros i Hi. change (i ∈ ({[0; 1]} : gset nat)) in Hi. rewrite elem_of_union, !elem_of_singleton in Hi.
    assert (n_states hops_chart = 4) as -> by by vm_compute. lia. }
  assert (Hst : forall v, settled 0 no_hash Z.of_nat hops_circuit start.2 start.1.1 = Some v ->
    stalled_by 0 (value_env (register_env 0 no_hash Z.of_nat start.1.1) v) start.1.2 = false).
  { intros v. destruct (settled _ _ _ _ _ _) as [v'|] eqn:E; [|done]. intros [= <-]. revert E. vm_compute. by intros [= <-]. }
  refine (hoare_ms_post _ _ _ _ _ (flat_period_refines (CB := sample_recorder) (DL := hops_laws) hops_dom 0 no_hash Z.of_nat hops_chart (fun _ => true)
    in_a 0 hops_circuit start.1.1 start.1.2 start.2 stop.1.1 stop.1.2 stop.2
    (fun _ => eq_refl) Hc hops_flat hops_ids Hr eq_refl (fun _ _ _ => eq_refl) Hw hops_mirrors eq_refl Hcyc Hst) _).
  intros _ ms' Hms. split; [|intros Hin].
  - by apply (Hms 2 _ eq_refl).
  - by apply (Hms 1 _ eq_refl) in Hin.
Defined.

(** ** Selection with an event *)

(** The event lines after the event has been taken from the queue. *)
Definition on_e (s : Signal) : bool :=
  match s with
  | LIT b => b
  | state_active i => (i =? 0) || (i =? 2)
  | event_sig _ => true
  | in_optimal_transition_set i => i =? 1
  | in_exit_set i => i =? 2
  | optimal_transition_set_combined_sig => true
  | _ => false
  end.

Definition in_b : MicroState := mkMicroState 0 {[0; 2]} ∅ ∅ {[0; 2]} ∅ false (external "e").

Lemma in_b_mirrors : mirrors (CB := sample_recorder) 0 no_hash Z.of_nat on_e (fun _ => true) in_b.
Proof. apply mirrors_checked, (bool_decide_unpack _). by vm_compute. Qed.

Definition hops_selection : list VAssign := default [] (writeOptimalTransitionSetSelection 0 no_hash Z.of_nat).
Definition hops_exits : list VAssign := default [] (writeExitSet 0).

Lemma at_rest_checked env circuit : Forall (fun a => env a.1 = eval env a.2) circuit -> at_rest env circuit.
Proof. intros HF s e Hin. rewrite Forall_forall in HF. by apply (HF (s, e)). Qed.

Lemma hardware_selects_witness : hoare_ms (fun m => m = in_b) (select_transitions (X := unit) (CB := sample_recorder) hops_chart)
  (fun sets _ => 1 ∈ transSet sets /\ 0 ∉ transSet sets) (fun _ => True).
Proof.
  assert (Hc : init hops_dom 0 = Some hops_chart) by by vm_compute.
  assert (Hs : writeOptimalTransitionSetSelection 0 no_hash Z.of_nat = Some hops_selection) by by vm_compute.
  assert (He : writeExitSet 0 = Some hops_exits) by by vm_compute.
  assert (Hrs : at_rest on_e hops_selection) by (apply at_rest_checked, (bool_decide_unpack _); by vm_compute).
  assert (Hre : at_rest on_e hops_exits) by (apply at_rest_checked, (bool_decide_unpack _); by vm_compute).
  refine (hoare_ms_post _ _ _ _ _ (hardware_selects (CB := sample_recorder) (DL := hops_laws) hops_dom 0 no_hash Z.of_nat hops_chart on_e (fun _ => true)
    in_b hops_selection hops_exits (fun _ => eq_refl) Hc in_b_mirrors (fun _ _ _ => eq_refl) Hs Hrs He Hre) _).
  intros sets ms' [Hl _]. split; [|intros Hin].
  - by apply (Hl 1 _ eq_refl).
  - by apply (Hl 0 _ eq_refl) in Hin.
Defined.


Lemma event_lines_witness : p_transitions 0 !! 1 = Some 4 /\
  exists desc w, desc ∈ tokenize (ATTR 4 "event") /\ w ∈ findEvents 0 /\ describes desc w /\
    on_e (event_sig (escapeMacro no_hash w)) = true.
Proof.
  assert (Hwords : Forall (proper ".") (findEvents 0)) by (apply (bool_decide_unpack _); by vm_compute).
  assert (Hdescs : Forall plain_descriptor (tokenize (ATTR 4 "event"))).
  { unfold plain_descriptor. apply (bool_decide_unpack _). by vm_compute. }
  assert (Hev : HAS_ATTR 4 "event" = true) by by vm_compute. split; [by vm_compute|].
  destruct (event_lines 0 4 no_hash Z.of_nat on_e Hev) as (Hl & Hk & Hp & _).
  destruct (proj1 Hl) as (desc & w & Hd & Hw & Hls & He); [by vm_compute|]. exists desc, w.
  apply Hk in Hw as Hw'; [|done]. rewrite Forall_forall in Hwords, Hdescs.
  split_and!; [done|done|apply Hp; auto|done].
Defined.

(** The descriptor "e.*" does not listen to "e", which it describes without
    its suffix. *)
Example suffix_not_dropped : ~ listens "e.*" "e" /\ describes "e" "e".
Proof. split; [|by right; left]. intros H%(listens_star "e"). by apply list_elem_of_singleton in H. Qed.

(** ** The event handler *)

Definition one_waiting : EventRegs :=
  mkEventRegs (mkFifo ("1"%string :: replicate 255 "U"%string) 1 0 false "U" false false) [false] false false.

Lemma last_event_waits_witness :
  ev_lines (quiet_periods ["1"%string] ["e"%string] [(false, false, false); (false, false, true)] one_waiting) = [false].
Proof.
  assert (Hw : waiting ["1"%string] ["e"%string] "1" one_waiting).
  { split; [|split; [done|split; [done|left; by vm_compute]]].
    split; [split; cbn; unfold FIFO_DEPTH; lia|]. split; by vm_compute. }
  apply (last_event_waits ["1"%string] ["e"%string] "1" [(false, false, false); (false, false, true)] one_waiting "1" false Hw).
Defined.

(** ** Whole systems *)

Section Runs.
Context (l : list row).

Definition width_of : nat := default 0 (_eventBitSize (D := doc_dom l) 0 Z.of_nat).
Definition circuit_of : list VAssign := default [] (writeMicroStepper (D := doc_dom l) 0 no_hash Z.of_nat).

Definition period_of (st : System * Values) : option (System * Values) :=
  cycle (D := doc_dom l) 0 no_hash Z.of_nat width_of circuit_of st.

Definition system_after (k : nat) : option (System * Values) :=
  cycles (D := doc_dom l) 0 no_hash Z.of_nat k width_of circuit_of
    (reset_system (D := doc_dom l) 0 no_hash Z.of_nat width_of circuit_of "U").

Lemma cycles_add {node : Type} `{!EqDecision node} {D : DomOps node} scxml hash address bits circuit j k : forall st,
  cycles (node := node) scxml hash address (j + k) bits circuit st =
  cycles scxml hash address j bits circuit st ≫= cycles scxml hash address k bits circuit.
Proof.
  induction j as [|j IH]; intros st; [done|]. cbn [cycles Nat.add]. destruct (cycle _ _ _ _ _ st); [|done]. apply IH.
Qed.

Definition active_in (st : System * Values) : list nat :=
  filter (fun i => on (r_active st.1.1) i = true) (seq 0 (length (p_states (D := doc_dom l) 0))).

Definition printable : Prop :=
  is_Some (_eventBitSize (D := doc_dom l) 0 Z.of_nat) /\ is_Some (writeMicroStepper (D := doc_dom l) 0 no_hash Z.of_nat).

Lemma active_after_system k : printable -> active_after l k = active_in <$> system_after k.
Proof.
  intros [[w Hw] [c Hc]]. unfold active_after, run_hardware, system_after, width_of, circuit_of. rewrite Hw, Hc.
  cbn [mbind option_bind from_option id]. by destruct (cycles _ _ _ _ _ _ _).
Qed.

(** Two periods that lead back to the same state repeat forever. *)
Lemma runs_forever k0 st st' : printable -> system_after k0 = Some st ->
  period_of st = Some st' -> period_of st' = Some st -> active_in st' = active_in st ->
  forall k, k0 <= k -> active_after l k = Some (active_in st).
Proof.
  intros Hp H0 H1 H2 Ha k Hk. rewrite active_after_system by done.
  assert (Hk' : system_after k = Some st \/ system_after k = Some st').
  { replace k with (k0 + (k - k0)) by lia. induction (k - k0) as [|j IH]; [left; by rewrite Nat.add_0_r|].
    replace (k0 + S j) with ((k0 + j) + 1) by lia. unfold system_after in *. rewrite cycles_add.
    destruct IH as [-> | ->]; cbn [mbind option_bind cycles]; unfold period_of in *; [right; by rewrite H1|left; by rewrite H2]. }
  destruct Hk' as [-> | ->]; cbn [fmap option_fmap option_map]; [done|by rewrite Ha].
Qed.

Lemma stops_forever k0 : printable -> system_after k0 = None -> forall k, k0 <= k -> active_after l k = None.
Proof.
  intros Hp H0 k Hk. rewrite active_after_system by done. replace k with (k0 + (k - k0)) by lia.
  unfold system_after in *. rewrite cycles_add, H0. done.
Qed.

End Runs.

(** A nested target: [b1] is entered, its parent [b] is not. *)
Definition nested_target : list row := rows (Xml "scxml" [] []
  [state "a" [raise "e"] [on_event "e" "b1"]; state "b" [] [state "b1" [] []]]).

(** Two transitions of one state, one with an event and one without. *)
Definition two_ways : list row := rows (Xml "scxml" [] []
  [state "a" [raise "e"; raise "e"] [on_event "e" "b"];
   state "b" [] [on_event "e" "c"; spontaneous "d"];
   state "c" [] []; state "d" [] []]).

(** Content in two states that are entered one after the other. *)
Definition two_blocks : list row := rows (Xml "scxml" [] []
  [state "a" [raise "e"] [on_event "e" "b"];
   state "b" [raise "f"] [on_event "f" "c"];
   state "c" [] []]).

(** Content in two states, with two states between them. *)
Definition late_block : list row := rows (Xml "scxml" [] []
  [state "a" [raise "e"] [spontaneous "b"];
   state "b" [] [spontaneous "c"];
   state "c" [] [spontaneous "d"];
   state "d" [raise "f"] [on_event "f" "a"]]).

(** One event, and a transition for it in every state. *)
Definition one_event : list row := rows (Xml "scxml" [] []
  [state "a" [raise "e"] [on_event "e" "b"];
   state "b" [] [on_event "e" "c"];
   state "c" [] [on_event "e" "d"];
   state "d" [] []]).

Ltac forever k0 :=
  intros k Hk;
  match goal with |- active_after ?l _ = Some _ =>
    let st := eval vm_compute in (system_after l k0) in
    match st with Some ?st =>
      let st' := eval vm_compute in (period_of l st) in
      match st' with Some ?st' =>
        refine (eq_trans (runs_forever l k0 st st' _ _ _ _ _ k Hk) _);
        [split; eexists; vm_compute; reflexivity | vm_compute; reflexivity ..]
      end
    end
  end.

(** The state [b1] (number 3) stays active without its parent [b]. *)
Theorem parent_not_entered : forall k, 4 <= k -> active_after nested_target k = Some [0; 3].
Proof. forever 4. Qed.

(** When the event transition and the eventless one of a state conflict and
    both can be taken, the equations never come to rest: each of the two lines
    waits for the other to be clear. *)
Theorem conflict_never_rests : active_after two_ways 4 = Some [0; 1] /\
  forall k, active_after two_ways (5 + k) = None.
Proof.
  split; [by vm_compute|]. intros k. apply (stops_forever _ 5); [split; eexists; vm_compute; reflexivity|vm_compute; reflexivity|lia].
Qed.

(** The content of a state whose element is not the first of the document is
    never run, and the machine stays in the state before it forever: the
    sequence line of the element waits for the element before it, whose block
    does not run. *)
Theorem late_block_stuck : forall k, active_after late_block (6 + k) = Some [0; 3].
Proof. intros k. assert (Hk : 6 <= 6 + k) by lia. revert Hk. generalize (6 + k). clear k. forever 6. Qed.

(** The content of [b] is skipped, as the controller still reports completion. *)
Theorem block_skipped : forall k, 4 <= k -> active_after two_blocks k = Some [0; 2].
Proof. forever 4. Qed.

(** The event raised once is taken by two transitions. *)
Theorem event_delivered_twice : active_after one_event 3 = Some [0; 1] /\ active_after one_event 4 = Some [0; 2] /\
  forall k, 5 <= k -> active_after one_event k = Some [0; 3].
Proof. split; [by vm_compute|]. split; [by vm_compute|]. intros k Hk.
  assert (Hc : k = 5 \/ k = 6 \/ 7 <= k) by lia. destruct Hc as [->|[->|Hk']]; [by vm_compute..|].
  clear Hk. revert k Hk'. forever 7.
Qed.

Definition to_b1 (s : Signal) : bool :=
  match s with
  | in_optimal_transition_set _ => true
  | in_complete_entry_set_up i | in_complete_entry_set i => i =? 3
  | state_active i => (i =? 0) || (i =? 1)
  | in_exit_set i => i =? 1
  | _ => false
  end.

Definition nested_entries : list VAssign := default [] (writeCompleteEntrySet (D := doc_dom nested_target) 0).

Lemma entered_as_target_witness : to_b1 (in_complete_entry_set 3) = true /\ to_b1 (in_complete_entry_set 2) = false.
Proof.
  split; [done|].
  assert (Hen : writeCompleteEntrySet (D := doc_dom nested_target) 0 = Some nested_entries) by by vm_compute.
  assert (Hre : at_rest to_b1 nested_entries) by (apply at_rest_checked, (bool_decide_unpack _); by vm_compute).
  assert (He : exists e, p_states (D := doc_dom nested_target) 0 !! 2 = Some e /\ parent_attr (D := doc_dom nested_target) 0 e = Some 0 /\
    @getParentState _ (doc_dom nested_target) e = Some 0 /\ @isCompound _ (doc_dom nested_target) 0 = true /\
    default_completion (D := doc_dom nested_target) 0 0 2 e = false /\
    forall t, t ∈ p_transitions (D := doc_dom nested_target) 0 -> @is_target _ (doc_dom nested_target) (tokenize (@ATTR _ (doc_dom nested_target) t "target")) e = false).
  { eexists. do 5 (split; [by vm_compute|]). apply Forall_forall, (bool_decide_unpack _). by vm_compute. }
  destruct He as (e & He & Hp & Hps & Hcomp & Hdef & Hno).
  apply not_true_iff_false. intros H.
  apply (entered_as_target (D := doc_dom nested_target) (DL := p_resorted_laws (table_dom nested_target) (DL := table_laws nested_target eq_refl) 0)
    0 to_b1 nested_entries Hen Hre 2 0 e 0 He Hp Hps Hcomp Hdef) in H as (j & t & Ht & [_ Hn] & _).
  rewrite (Hno t) in Hn; [done|by eapply list_elem_of_lookup_2].
Defined.
