(* ===== verification/DataOrder.v ===== *)
(** * The order of data

    [Data::operator<] of messages/Data.h, which [operator==] and the sets of
    breakpoints are built on. It compares fields one after the other, each of
    them the other way round, with the comparisons of std::map and std::pair.
    [Data_compare] is a total order; [operator<] is its converse, so that sets
    of data are well behaved and [operator==] is equality. *)

From stdpp Require Import base list strings.
From S2P Require Import Prelude Strings Data.

Local Open Scope nat_scope.

(** ** [operator<] *)

Section Order.
(** Blobs are compared by the address of their implementation. *)
Context (address : Blob -> Z).

Definition str_lt (a b : string) : bool := match String.compare a b with Lt => true | _ => false end.

(** [std::pair]: [x < y]. *)
Definition pair_lt {K} (klt : K -> K -> bool) (lt : Data -> Data -> bool) (x y : K * Data) : bool :=
  klt x.1 y.1 || (negb (klt y.1 x.1) && lt x.2 y.2).

(** [std::map]: lexicographical order, and equality of size and entries. *)
Fixpoint map_lt {K} (klt : K -> K -> bool) (lt : Data -> Data -> bool) (l1 l2 : list (K * Data)) : bool :=
  match l1, l2 with
  | _, [] => false
  | [], _ :: _ => true
  | x :: l1, y :: l2 => if pair_lt klt lt x y then true else if pair_lt klt lt y x then false else map_lt klt lt l1 l2
  end.

Fixpoint map_eq {K} (keq : K -> K -> bool) (eq : Data -> Data -> bool) (l1 l2 : list (K * Data)) : bool :=
  match l1, l2 with
  | [], [] => true
  | x :: l1, y :: l2 => keq x.1 y.1 && eq x.2 y.2 && map_eq keq eq l1 l2
  | _, _ => false
  end.

(** Pointers: NULL is the smallest. *)
Definition node_pointer (n : option positive) : Z := match n with Some p => Zpos p | None => 0 end.
Definition type_number (t : DataType) : nat := match t with VERBATIM => 0 | INTERPRETED => 1 end.

Definition binary_lt (b1 b2 : option Blob) : bool :=
  match b1, b2 with
  | None, Some _ => true
  | Some b1, Some b2 => (address b1 <? address b2)%Z
  | _, None => false
  end.
Definition binary_eq (b1 b2 : option Blob) : bool :=
  match b1, b2 with
  | None, None => true
  | Some b1, Some b2 => (address b1 =? address b2)%Z
  | _, _ => false
  end.

Fixpoint Data_lt_fuel (fuel : nat) (self other : Data) : bool :=
  match fuel with
  | 0 => false
  | S fuel =>
      let lt := Data_lt_fuel fuel in
      let eq x y := negb (lt x y || lt y x) in
      if negb (String.eqb (d_atom other) (d_atom self)) then str_lt (d_atom other) (d_atom self)
      else if negb (map_eq Z.eqb eq (d_array other) (d_array self)) then map_lt Z.ltb lt (d_array other) (d_array self)
      else if negb (map_eq String.eqb eq (d_compound other) (d_compound self))
      then map_lt str_lt lt (d_compound other) (d_compound self)
      else if negb (node_pointer (d_node other) =? node_pointer (d_node self))%Z
      then (node_pointer (d_node other) <? node_pointer (d_node self))%Z
      else if negb (binary_eq (d_binary other) (d_binary self)) then binary_lt (d_binary other) (d_binary self)
      else if negb (type_number (d_type other) =? type_number (d_type self))
      then type_number (d_type other) <? type_number (d_type self)
      else false
  end.

Fixpoint depth (d : Data) : nat :=
  match d with
  | mkData c a _ _ _ _ =>
      S (Nat.max ((fix go (l : list (string * Data)) := match l with [] => 0 | (_, v) :: l => Nat.max (depth v) (go l) end) c)
                 ((fix go (l : list (Z * Data)) := match l with [] => 0 | (_, v) :: l => Nat.max (depth v) (go l) end) a))
  end.

(** [operator<], [operator==] *)
Definition Data_lt (self other : Data) : bool := Data_lt_fuel (Nat.max (depth self) (depth other)) self other.
Definition Data_eq (self other : Data) : bool := negb (Data_lt self other || Data_lt other self).

(** ** The total order *)

Definition cmp_then (c1 c2 : comparison) : comparison := match c1 with Eq => c2 | _ => c1 end.

Fixpoint entries_compare {K} (kcmp : K -> K -> comparison) (cmp : Data -> Data -> comparison) (l1 l2 : list (K * Data)) : comparison :=
  match l1, l2 with
  | [], [] => Eq
  | [], _ :: _ => Lt
  | _ :: _, [] => Gt
  | x :: l1, y :: l2 => cmp_then (cmp_then (kcmp x.1 y.1) (cmp x.2 y.2)) (entries_compare kcmp cmp l1 l2)
  end.

Definition binary_compare (b1 b2 : option Blob) : comparison :=
  match b1, b2 with
  | None, None => Eq
  | None, Some _ => Lt
  | Some _, None => Gt
  | Some b1, Some b2 => Z.compare (address b1) (address b2)
  end.

(** Inside of a map the data are compared with [operator<] again. *)
Fixpoint Data_compare (x y : Data) {struct x} : comparison :=
  match x, y with
  | mkData c1 a1 s1 n1 b1 t1, mkData c2 a2 s2 n2 b2 t2 =>
      cmp_then (String.compare s1 s2)
        (cmp_then (entries_compare Z.compare (fun u v => CompOpp (Data_compare u v)) a1 a2)
           (cmp_then (entries_compare String.compare (fun u v => CompOpp (Data_compare u v)) c1 c2)
              (cmp_then (Z.compare (node_pointer n1) (node_pointer n2))
                 (cmp_then (binary_compare b1 b2) (Nat.compare (type_number t1) (type_number t2))))))
  end.

End Order.

(** ** Comparisons that are total orders *)

Section Combinators.

Lemma cmp_then_eq c1 c2 : cmp_then c1 c2 = Eq <-> c1 = Eq /\ c2 = Eq.
Proof. destruct c1; cbn; intuition congruence. Qed.

Lemma cmp_then_opp c1 c2 : CompOpp (cmp_then c1 c2) = cmp_then (CompOpp c1) (CompOpp c2).
Proof. by destruct c1. Qed.

(** Transitivity of "less" and of "greater" at once. *)
Lemma cmp_then_trans r ab1 bc1 ac1 ab2 bc2 ac2 : r <> Eq ->
  (ab1 = r -> bc1 = r -> ac1 = r) -> (ab1 = Eq -> ac1 = bc1) -> (bc1 = Eq -> ac1 = ab1) ->
  (ab2 = r -> bc2 = r -> ac2 = r) ->
  cmp_then ab1 ab2 = r -> cmp_then bc1 bc2 = r -> cmp_then ac1 ac2 = r.
Proof.
  intros Hr H1 H2 H3 H4. destruct ab1, bc1; cbn; intros Hx Hy; try congruence;
    try (rewrite (H2 eq_refl); cbn; auto; done); try (rewrite (H3 eq_refl); cbn; auto; done);
    subst r; rewrite (H1 eq_refl eq_refl); done.
Qed.

(** A comparison is a total order. *)
Class TotalOrder {A} (cmp : A -> A -> comparison) : Prop := {
  order_eq a b : cmp a b = Eq <-> a = b;
  order_opp a b : cmp b a = CompOpp (cmp a b);
  order_trans a b c : cmp a b = Lt -> cmp b c = Lt -> cmp a c = Lt;
}.

#[export] Instance string_order : TotalOrder String.compare.
Proof.
  split; [apply string_compare_eq| |apply string_compare_trans].
  intros a b. apply String.compare_antisym.
Qed.

#[export] Instance Z_order : TotalOrder Z.compare.
Proof.
  split; [apply Z.compare_eq_iff|intros a b; apply Z.compare_antisym|].
  intros a b c. rewrite !Z.compare_lt_iff. lia.
Qed.

#[export] Instance nat_order : TotalOrder Nat.compare.
Proof.
  split; [apply Nat.compare_eq_iff|intros a b; apply Nat.compare_antisym|].
  intros a b c. rewrite !Nat.compare_lt_iff. lia.
Qed.

Lemma order_trans_any {A} (cmp : A -> A -> comparison) `{!TotalOrder cmp} r a b c : r <> Eq ->
  cmp a b = r -> cmp b c = r -> cmp a c = r.
Proof.
  destruct r; [done|intros _; apply order_trans|]. intros _ H1 H2.
  rewrite (order_opp (cmp := cmp) c a), (order_trans (cmp := cmp) c b a); [done|..].
  - by rewrite (order_opp (cmp := cmp) b c), H2.
  - by rewrite (order_opp (cmp := cmp) a b), H1.
Qed.

Lemma order_total {A} (cmp : A -> A -> comparison) `{!TotalOrder cmp} a b : cmp a b = Lt \/ a = b \/ cmp b a = Lt.
Proof.
  destruct (cmp a b) eqn:E; [right; left; by apply order_eq|by left|]. right; right. rewrite order_opp, E. done.
Qed.

Context {K : Type} (kcmp : K -> K -> comparison) `{!TotalOrder kcmp} (cmp : Data -> Data -> comparison).

Lemma entries_compare_eq l1 : Forall (fun e => forall y, cmp e.2 y = Eq <-> e.2 = y) l1 ->
  forall l2, entries_compare kcmp cmp l1 l2 = Eq <-> l1 = l2.
Proof.
  induction 1 as [|[k v] l1 Hv _ IH]; intros [|[k' v'] l2]; cbn; try done.
  rewrite !cmp_then_eq, order_eq, IH. cbn in Hv. rewrite Hv. split; [by intros [[-> ->] ->]|by intros [= -> -> ->]].
Qed.

Lemma entries_compare_opp l1 : Forall (fun e => forall y, cmp y e.2 = CompOpp (cmp e.2 y)) l1 ->
  forall l2, entries_compare kcmp cmp l2 l1 = CompOpp (entries_compare kcmp cmp l1 l2).
Proof.
  induction 1 as [|[k v] l1 Hv _ IH]; intros [|[k' v'] l2]; cbn; try done.
  cbn in Hv. by rewrite !cmp_then_opp, IH, Hv, (order_opp k k').
Qed.

Lemma entries_compare_trans (Heq : forall x y, cmp x y = Eq <-> x = y) r l1 : r <> Eq ->
  Forall (fun e => forall y z, cmp e.2 y = r -> cmp y z = r -> cmp e.2 z = r) l1 ->
  forall l2 l3, entries_compare kcmp cmp l1 l2 = r -> entries_compare kcmp cmp l2 l3 = r -> entries_compare kcmp cmp l1 l3 = r.
Proof.
  intros Hr.
  induction 1 as [|[k v] l1 Hv _ IH]; intros [|[k2 v2] l2] [|[k3 v3] l3]; cbn [entries_compare]; try congruence.
  cbn [fst snd] in *. apply cmp_then_trans; [done| | | |apply IH].
  - apply cmp_then_trans; [done|by apply order_trans_any| | |apply Hv].
    + intros Hk. apply order_eq in Hk. by rewrite Hk.
    + intros Hk. apply order_eq in Hk. by rewrite Hk.
  - rewrite cmp_then_eq, order_eq, Heq. by intros [-> ->].
  - rewrite cmp_then_eq, order_eq, Heq. by intros [-> ->].
Qed.

End Combinators.

Lemma Data_induction (P : Data -> Prop) :
  (forall c a s n b t, Forall (fun e => P e.2) c -> Forall (fun e => P e.2) a -> P (mkData c a s n b t)) -> forall d, P d.
Proof.
  intros Hstep. fix IH 1. intros [c a s n b t]. apply Hstep.
  - induction c as [|e c IHc]; constructor; [apply IH|exact IHc].
  - induction a as [|e a IHa]; constructor; [apply IH|exact IHa].
Qed.

Section Laws.
Context (address : Blob -> Z) `{!Inj (=) (=) address}.
Notation Data_compare := (Data_compare address).

Lemma node_pointer_inj n1 n2 : node_pointer n1 = node_pointer n2 <-> n1 = n2.
Proof. destruct n1, n2; cbn; split; congruence. Qed.

Lemma type_number_inj t1 t2 : type_number t1 = type_number t2 <-> t1 = t2.
Proof. by destruct t1, t2. Qed.

#[local] Instance binary_order : TotalOrder (binary_compare address).
Proof.
  split.
  - intros [b1|] [b2|]; cbn; try done. rewrite order_eq. split; [by intros ->%(inj address)|by intros [= ->]].
  - intros [b1|] [b2|]; cbn; try done. apply order_opp.
  - intros [b1|] [b2|] [b3|]; cbn; try done. apply order_trans.
Qed.

Lemma CompOpp_eq c : CompOpp c = Eq <-> c = Eq.
Proof. by destruct c. Qed.

Lemma CompOpp_iff c r : CompOpp c = r <-> c = CompOpp r.
Proof. by destruct c, r. Qed.

Lemma Data_compare_eq x : forall y, Data_compare x y = Eq <-> x = y.
Proof.
  induction x as [c a s n b t Hc Ha] using Data_induction. intros [c' a' s' n' b' t']. cbn [DataOrder.Data_compare].
  setoid_rewrite <- CompOpp_eq in Hc. setoid_rewrite <- CompOpp_eq in Ha.
  rewrite !cmp_then_eq, !order_eq, node_pointer_inj, type_number_inj.
  rewrite (entries_compare_eq Z.compare _ a Ha), (entries_compare_eq String.compare _ c Hc).
  split; [by intros (-> & -> & -> & -> & -> & ->)|by intros [= -> -> -> -> -> ->]].
Qed.

Lemma Data_compare_opp x : forall y, Data_compare y x = CompOpp (Data_compare x y).
Proof.
  induction x as [c a s n b t Hc Ha] using Data_induction. intros [c' a' s' n' b' t']. cbn [DataOrder.Data_compare].
  rewrite !cmp_then_opp. rewrite (entries_compare_opp Z.compare _ a), (entries_compare_opp String.compare _ c).
  - by rewrite (order_opp (cmp := String.compare) s s'), (order_opp (cmp := Z.compare) (node_pointer n)),
      (order_opp (cmp := binary_compare address) b b'), (order_opp (cmp := Nat.compare) (type_number t)).
  - eapply Forall_impl; [exact Hc|]. cbn. intros e He y. by rewrite He.
  - eapply Forall_impl; [exact Ha|]. cbn. intros e He y. by rewrite He.
Qed.

Lemma Data_compare_trans x : forall r, r <> Eq -> forall y z, Data_compare x y = r -> Data_compare y z = r -> Data_compare x z = r.
Proof.
  induction x as [c a s n b t Hc Ha] using Data_induction. intros r Hr [c2 a2 s2 n2 b2 t2] [c3 a3 s3 n3 b3 t3]. cbn [DataOrder.Data_compare].
  assert (Hsame : forall A (cmp : A -> A -> comparison), TotalOrder cmp -> forall p q r,
    (cmp p q = Eq -> cmp p r = cmp q r) /\ (cmp q r = Eq -> cmp p r = cmp p q)).
  { intros A cmp H p q r'. split; intros E; apply order_eq in E; by rewrite E. }
  assert (Hle : forall u v, CompOpp (Data_compare u v) = Eq <-> u = v) by (intros; by rewrite CompOpp_eq, Data_compare_eq).
  assert (Hlist : forall K (kcmp : K -> K -> comparison), TotalOrder kcmp -> forall l l2 l3 : list (K * Data),
    Forall (fun e => forall r, r <> Eq -> forall y z, Data_compare e.2 y = r -> Data_compare y z = r -> Data_compare e.2 z = r) l ->
    let cmp := entries_compare kcmp (fun u v => CompOpp (Data_compare u v)) in
    (cmp l l2 = r -> cmp l2 l3 = r -> cmp l l3 = r) /\ (cmp l l2 = Eq -> cmp l l3 = cmp l2 l3) /\ (cmp l2 l3 = Eq -> cmp l l3 = cmp l l2)).
  { intros K kcmp HK l l2 l3 HF. split_and!.
    - apply entries_compare_trans; [exact HK|done|done|]. eapply Forall_impl; [exact HF|]. cbn. intros e He y z.
      rewrite !CompOpp_iff. apply He. by destruct r.
    - rewrite entries_compare_eq; [by intros ->|exact HK|]. apply Forall_forall. intros. apply Hle.
    - rewrite entries_compare_eq; [by intros ->|exact HK|]. apply Forall_forall. intros. apply Hle. }
  apply cmp_then_trans; [done|exact (order_trans_any _ r _ _ _ Hr)|apply Hsame, _|apply Hsame, _|].
  destruct (Hlist Z Z.compare _ a a2 a3 Ha) as (Ha1 & Ha2 & Ha3).
  destruct (Hlist string String.compare _ c c2 c3 Hc) as (Hc1 & Hc2 & Hc3).
  apply cmp_then_trans; [done|done|done|done|]. apply cmp_then_trans; [done|done|done|done|].
  apply cmp_then_trans; [done|exact (order_trans_any _ r _ _ _ Hr)|apply Hsame, _|apply Hsame, _|].
  apply cmp_then_trans; [done|exact (order_trans_any _ r _ _ _ Hr)|apply Hsame, _|apply Hsame, _|]. exact (order_trans_any _ r _ _ _ Hr).
Qed.

#[export] Instance Data_order : TotalOrder Data_compare.
Proof. split; [apply Data_compare_eq|intros a b; apply Data_compare_opp|intros a b c; by apply Data_compare_trans]. Qed.

End Laws.

(** ** [operator<] is the converse of the order *)

Section Converse.
Context (address : Blob -> Z) `{!Inj (=) (=) address}.
Notation Data_compare := (Data_compare address).

Definition is_lt (c : comparison) : bool := match c with Lt => true | _ => false end.
Definition is_eq (c : comparison) : bool := match c with Eq => true | _ => false end.

Lemma negb_lt_gt c : negb (is_lt (CompOpp c) || is_lt c) = is_eq c.
Proof. by destruct c. Qed.

Section Maps.
Context {K : Type} (kcmp : K -> K -> comparison) `{!TotalOrder kcmp} (klt keq : K -> K -> bool) (lt eq : Data -> Data -> bool).
Context (Hklt : forall a b, klt a b = is_lt (kcmp a b)) (Hkeq : forall a b, keq a b = is_eq (kcmp a b)).
Notation cmp := (fun u v => CompOpp (Data_compare u v)).

(** What is known of the elements. *)
Definition agree (l : list (K * Data)) (P : Data -> Prop) : Prop := Forall (fun e => P e.2) l.

Lemma map_lt_compare (P : Data -> Prop) (Hlt : forall x y, P x -> P y -> lt x y = is_lt (Data_compare y x)) l1 :
  agree l1 P -> forall l2, agree l2 P -> map_lt klt lt l1 l2 = is_lt (entries_compare kcmp cmp l1 l2).
Proof.
  induction 1 as [|[k v] l1 Hv _ IH]; intros [|[k' v'] l2]; try done. intros [Hv' Hl]%Forall_cons. cbn [map_lt entries_compare pair_lt fst snd].
  unfold pair_lt. cbn [fst snd]. cbn in Hv, Hv'. rewrite !Hklt, !Hlt, (order_opp (cmp := kcmp) k k'), (order_opp (cmp := Data_compare) v v') by done.
  destruct (kcmp k k'), (Data_compare v v'); cbn; try done; by apply IH.
Qed.

Lemma map_eq_compare (P : Data -> Prop) (Heq : forall x y, P x -> P y -> eq x y = is_eq (Data_compare y x)) l1 :
  agree l1 P -> forall l2, agree l2 P -> map_eq keq eq l1 l2 = is_eq (entries_compare kcmp cmp l1 l2).
Proof.
  induction 1 as [|[k v] l1 Hv _ IH]; intros [|[k' v'] l2]; try done. intros [Hv' Hl]%Forall_cons. cbn [map_eq entries_compare fst snd].
  cbn in Hv, Hv'. rewrite Hkeq, Heq, IH, (order_opp (cmp := Data_compare) v v') by done. by destruct (kcmp k k'), (Data_compare v v').
Qed.

End Maps.

Lemma depth_unfold d : depth d = S (Nat.max (foldr (fun e n => Nat.max (depth e.2) n) 0 (d_compound d))
  (foldr (fun e n => Nat.max (depth e.2) n) 0 (d_array d))).
Proof.
  destruct d as [c a s n b t]. cbn [depth d_compound d_array]. do 2 f_equal.
  - induction c as [|[k v] c IH]; [done|]. cbn. by rewrite IH.
  - induction a as [|[k v] a IH]; [done|]. cbn. by rewrite IH.
Qed.

Lemma depth_elements {K} (l : list (K * Data)) m : foldr (fun e n => Nat.max (depth e.2) n) 0 l <= m -> agree l (fun x => depth x <= m).
Proof. induction l as [|e l IH]; cbn; [constructor|]. intros H. constructor; [lia|]. apply IH. lia. Qed.

Lemma if_eq c (x : bool) : (if negb (is_eq c) then is_lt c else x) = (match c with Eq => x | Lt => true | Gt => false end).
Proof. by destruct c. Qed.

Lemma is_lt_then c1 c2 : is_lt (cmp_then c1 c2) = (match c1 with Eq => is_lt c2 | Lt => true | Gt => false end).
Proof. by destruct c1. Qed.

Lemma string_eqb_is_eq a b : String.eqb a b = is_eq (String.compare a b).
Proof.
  apply eq_true_iff_eq. rewrite String.eqb_eq, <- string_compare_eq. by destruct (String.compare a b).
Qed.

Lemma Z_eqb_is_eq a b : Z.eqb a b = is_eq (Z.compare a b).
Proof. rewrite Z.eqb_compare. by destruct (Z.compare a b). Qed.

Lemma nat_eqb_is_eq a b : Nat.eqb a b = is_eq (Nat.compare a b).
Proof. rewrite Nat.eqb_compare. by destruct (Nat.compare a b). Qed.

Lemma nat_ltb_is_lt a b : Nat.ltb a b = is_lt (Nat.compare a b).
Proof. rewrite Nat.ltb_compare. by destruct (Nat.compare a b). Qed.

Lemma binary_eq_is_eq b1 b2 : binary_eq address b1 b2 = is_eq (binary_compare address b1 b2).
Proof. destruct b1, b2; cbn; by rewrite ?Z_eqb_is_eq. Qed.

Lemma binary_lt_is_lt b1 b2 : binary_lt address b1 b2 = is_lt (binary_compare address b1 b2).
Proof. by destruct b1, b2. Qed.

Lemma Data_lt_fuel_compare fuel : forall x y, depth x <= fuel -> depth y <= fuel ->
  Data_lt_fuel address fuel x y = is_lt (Data_compare y x).
Proof.
  induction fuel as [|fuel IH]; intros x y Hx Hy; rewrite depth_unfold in Hx, Hy; [lia|].
  set (P := fun d => depth d <= fuel).
  assert (Hlt : forall u v, P u -> P v -> Data_lt_fuel address fuel u v = is_lt (Data_compare v u)) by (intros; by apply IH).
  assert (Heq : forall u v, P u -> P v -> negb (Data_lt_fuel address fuel u v || Data_lt_fuel address fuel v u) = is_eq (Data_compare v u)).
  { intros u v Hu Hv. rewrite !Hlt, (order_opp (cmp := Data_compare) v u), orb_comm by done. apply negb_lt_gt. }
  destruct x as [c1 a1 s1 n1 b1 t1], y as [c2 a2 s2 n2 b2 t2]. cbn [d_compound d_array] in Hx, Hy.
  assert (Hels : agree c1 P /\ agree a1 P /\ agree c2 P /\ agree a2 P) by (split_and!; apply depth_elements; lia).
  destruct Hels as (Hc1 & Ha1 & Hc2 & Ha2).
  cbn [Data_lt_fuel d_compound d_array d_atom d_node d_binary d_type DataOrder.Data_compare].
  rewrite (map_lt_compare Z.compare Z.ltb _ (fun _ _ => eq_refl) P Hlt a2 Ha2 a1 Ha1).
  rewrite (map_lt_compare String.compare str_lt _ (fun _ _ => eq_refl) P Hlt c2 Hc2 c1 Hc1).
  rewrite (map_eq_compare Z.compare Z.eqb _ Z_eqb_is_eq P Heq a2 Ha2 a1 Ha1).
  rewrite (map_eq_compare String.compare String.eqb _ string_eqb_is_eq P Heq c2 Hc2 c1 Hc1).
  rewrite string_eqb_is_eq, Z_eqb_is_eq, nat_eqb_is_eq, nat_ltb_is_lt, binary_eq_is_eq, binary_lt_is_lt.
  change (str_lt s2 s1) with (is_lt (String.compare s2 s1)).
  change (node_pointer n2 <? node_pointer n1)%Z with (is_lt (Z.compare (node_pointer n2) (node_pointer n1))).
  rewrite !if_eq, !is_lt_then. repeat case_match; done.
Qed.

Lemma Data_lt_compare x y : Data_lt address x y = is_lt (Data_compare y x).
Proof. apply Data_lt_fuel_compare; lia. Qed.

(** C31: [operator<] of data is a strict total order, and [operator==] holds of
    equal data only: no two different data are equivalent in a set or map. *)
Theorem Data_lt_total_order :
  (forall x, Data_lt address x x = false) /\
  (forall x y z, Data_lt address x y = true -> Data_lt address y z = true -> Data_lt address x z = true) /\
  (forall x y, Data_lt address x y = true \/ x = y \/ Data_lt address y x = true) /\
  (forall x y, Data_eq address x y = true <-> x = y).
Proof.
  assert (Hlt : forall x y, Data_lt address x y = true <-> Data_compare y x = Lt)
    by (intros x y; rewrite Data_lt_compare; destruct (Data_compare y x); done).
  split_and!.
  - intros x. rewrite Data_lt_compare, (proj2 (Data_compare_eq address x x) eq_refl). done.
  - intros x y z. rewrite !Hlt. intros H1 H2. by apply (order_trans (cmp := Data_compare) z y x).
  - intros x y. rewrite !Hlt. destruct (order_total Data_compare y x) as [?|[?|?]]; auto.
  - intros x y. unfold Data_eq. rewrite !Data_lt_compare, (order_opp (cmp := Data_compare) x y), negb_lt_gt.
    rewrite <- (Data_compare_eq address x y). by destruct (Data_compare x y).
Qed.

End Converse.

(** ** A concrete order *)

Definition some_address (b : Blob) : Z := Zpos (encode (blob_data b, blob_mimeType b)).

#[export] Instance some_address_inj : Inj (=) (=) some_address.
Proof. intros [d m] [d' m']. unfold some_address. cbn [blob_data blob_mimeType]. intros [= H]. apply (inj encode) in H. congruence. Qed.

Lemma Data_lt_total_order_witness :
  Data_eq some_address (Data_atom "1" VERBATIM) (Data_atom "1" INTERPRETED) = false /\
  (Data_lt some_address (Data_atom "b" VERBATIM) (Data_atom "a" VERBATIM) = true).
Proof.
  pose proof (Data_lt_total_order some_address) as (_ & _ & _ & Heq). split; [|by vm_compute].
  apply not_true_iff_false. by intros H%Heq.
Defined.
