(* ===== verification/Breakpoint.v ===== *)
(** * Breakpoints: [debug/Breakpoint] and the handlers of [debug/Debugger]

    A breakpoint of the user names what to stop at, a qualified breakpoint what
    the interpreter is about to do; the debugger builds the latter from the
    callbacks of a monitor. The conversions from and to data, the order that
    the set of breakpoints uses, and the matching are modelled. *)

From stdpp Require Import base list strings.
From S2P Require Import Prelude Strings Dom Predicates Data DataOrder.

Local Open Scope nat_scope.

(** ** The class *)

Inductive When := UNDEF_WHEN | AFTER | BEFORE | ON.
Inductive Subject := UNDEF_SUBJECT | STATE | TRANSITION | STABLE | MICROSTEP | EVENT | INVOKER | EXECUTABLE.
Inductive Action := UNDEF_ACTION | ENTER | EXIT | INVOKE | UNINVOKE.

#[export] Instance when_dec : EqDecision When.
Proof. solve_decision. Defined.
#[export] Instance subject_dec : EqDecision Subject.
Proof. solve_decision. Defined.
#[export] Instance action_dec : EqDecision Action.
Proof. solve_decision. Defined.

Record Breakpoint {node : Type} := mkBreakpoint {
  enabled : bool;
  when_ : When;
  subject : Subject;
  action : Action;
  element : option node;
  invokeId : string;
  invokeType : string;
  eventName : string;
  executableName : string;
  executableXPath : string;
  stateId : string;
  transSourceId : string;
  transTargetId : string;
  condition : string;
}.
Arguments Breakpoint : clear implicits.
Arguments mkBreakpoint {node}.

Section Class.
Context {node : Type} `{BoostString}.
Notation Breakpoint := (Breakpoint node).

Definition set_enabled (e : bool) (b : Breakpoint) : Breakpoint :=
  mkBreakpoint e (when_ b) (subject b) (action b) (element b) (invokeId b) (invokeType b) (eventName b)
    (executableName b) (executableXPath b) (stateId b) (transSourceId b) (transTargetId b) (condition b).

(** The constructors [Breakpoint()] and [Breakpoint(data)]. *)
Definition Breakpoint_default : Breakpoint :=
  mkBreakpoint true UNDEF_WHEN UNDEF_SUBJECT UNDEF_ACTION None "" "" "" "" "" "" "" "" "".

Definition read_when (s : string) : When :=
  if String.eqb s "before" then BEFORE else if String.eqb s "after" then AFTER
  else if String.eqb s "on" then ON else UNDEF_WHEN.

Definition read_action (s : string) : Action :=
  if String.eqb s "enter" then ENTER else if String.eqb s "exit" then EXIT
  else if String.eqb s "invoke" then INVOKE else if String.eqb s "cancel" then UNINVOKE else UNDEF_ACTION.

Definition read_subject (s : string) : Subject :=
  if String.eqb s "state" then STATE else if String.eqb s "transition" then TRANSITION
  else if String.eqb s "stable" then STABLE else if String.eqb s "microstep" then MICROSTEP
  else if String.eqb s "event" then EVENT else if String.eqb s "invoker" then INVOKER
  else if String.eqb s "executable" then EXECUTABLE else UNDEF_SUBJECT.

Definition atom_of (data : Data) (key : string) : string :=
  if hasKey data key then d_atom (Data_at data key) else "".

Definition Breakpoint_of (data : Data) : Breakpoint :=
  mkBreakpoint true
    (if hasKey data "when" then read_when (d_atom (Data_at data "when")) else UNDEF_WHEN)
    (if hasKey data "subject" then read_subject (d_atom (Data_at data "subject")) else UNDEF_SUBJECT)
    (if hasKey data "action" then read_action (d_atom (Data_at data "action")) else UNDEF_ACTION)
    None
    (atom_of data "invokeId") (atom_of data "invokeType") (atom_of data "eventName")
    (atom_of data "execName") (atom_of data "execXPath") (atom_of data "stateId")
    (atom_of data "source") (atom_of data "target") (atom_of data "condition").

(** [operator bool] *)
Definition Breakpoint_bool (b : Breakpoint) : bool :=
  negb (bool_decide (subject b = UNDEF_SUBJECT)) || negb (bool_decide (when_ b = UNDEF_WHEN)) ||
  negb (bool_decide (action b = UNDEF_ACTION)).

(** *** [toData] *)

Definition subject_name (s : Subject) : option string :=
  match s with
  | UNDEF_SUBJECT => None
  | STATE => Some "state" | TRANSITION => Some "transition" | STABLE => Some "stable"
  | MICROSTEP => Some "microstep" | EVENT => Some "event" | INVOKER => Some "invoker"
  | EXECUTABLE => Some "executable"
  end%string.

Definition when_name (w : When) : option string :=
  match w with UNDEF_WHEN => None | AFTER => Some "after" | BEFORE => Some "before" | ON => Some "on" end%string.

Definition action_name (a : Action) : option string :=
  match a with
  | UNDEF_ACTION => None | ENTER => Some "enter" | EXIT => Some "exit"
  | INVOKE => Some "invoke" | UNINVOKE => Some "cancel"
  end%string.

(** [data.compound[key] = Data(value, VERBATIM)] *)
Definition put_atom (key value : string) (data : Data) : Data := Data_put key (Data_atom value VERBATIM) data.

Definition put_some (key : string) (value : option string) (data : Data) : Data :=
  match value with Some v => put_atom key v data | None => data end.

Definition put_given (key value : string) (data : Data) : Data :=
  if 0 <? length (explode value) then put_atom key value data else data.

(** The path of the element is up to the document. *)
Definition toData (xpath : node -> string) (b : Breakpoint) : Data :=
  let data := put_some "subject" (subject_name (subject b)) Data_empty in
  let data := put_some "when" (when_name (when_ b)) data in
  let data := put_some "action" (action_name (action b)) data in
  let data := put_given "invokeId" (invokeId b) data in
  let data := put_given "invokeType" (invokeType b) data in
  let data := put_given "eventName" (eventName b) data in
  let data := put_given "execName" (executableName b) data in
  let data := put_given "execXPath" (executableXPath b) data in
  let data := put_some "xpath" (xpath <$> element b) data in
  let data := put_given "stateId" (stateId b) data in
  let data := put_given "source" (transSourceId b) data in
  let data := put_given "target" (transTargetId b) data in
  put_given "condition" (condition b) data.

(** *** [matches] *)

(** A qualifier that is given has to be equal. *)
Definition qualifies (mine other : string) : bool :=
  negb (0 <? length (explode mine)) || String.eqb mine other.

(** [isTrue] evaluates a condition; [None] is any exception. Its value is not
    looked at. *)
Definition matches (isTrue : string -> option bool) (self other : Breakpoint) : bool :=
  if negb (bool_decide (subject self = UNDEF_SUBJECT)) && negb (bool_decide (subject other = subject self)) then false
  else if negb (bool_decide (when_ self = UNDEF_WHEN)) && negb (bool_decide (when_ other = when_ self)) then false
  else if negb (bool_decide (action self = UNDEF_ACTION)) && negb (bool_decide (action other = action self)) then false
  else if negb (qualifies (invokeId self) (invokeId other)) then false
  else if negb (qualifies (invokeType self) (invokeType other)) then false
  else if negb (qualifies (stateId self) (stateId other)) then false
  else if (0 <? length (explode (eventName self))) && negb (nameMatch (eventName self) (eventName other)) then false
  else if negb (qualifies (executableName self) (executableName other)) then false
  else if negb (qualifies (transSourceId self) (transSourceId other)) then false
  else if negb (qualifies (transTargetId self) (transTargetId other)) then false
  else if 0 <? length (explode (condition self)) then
    match isTrue (condition self) with Some _ => true | None => false end
  else true.

End Class.

(** ** Qualified breakpoints *)

Section Qualified.
Context {node : Type} `{!EqDecision node} {D : DomOps node}.
Notation Breakpoint := (Breakpoint node).

Definition template (w : When) (a : Action) : Breakpoint :=
  mkBreakpoint true w UNDEF_SUBJECT a None "" "" "" "" "" "" "" "" "".

Definition getQualifiedStateBreakpoints (state : node) (b : Breakpoint) : list Breakpoint :=
  [mkBreakpoint (enabled b) (when_ b) STATE (action b) (Some state) (invokeId b) (invokeType b) (eventName b)
     (executableName b) (executableXPath b) (ATTR state "id") (transSourceId b) (transTargetId b) (condition b)].

(** [evalAsData] of the type expression; an exception of it is passed on. *)
Definition getQualifiedInvokeBreakpoints (evalAsData : string -> option Data) (invokeElem : node) (inv : string)
    (b : Breakpoint) : option (list Breakpoint) :=
  type ← (if HAS_ATTR invokeElem "type" then Some (ATTR invokeElem "type")
          else if HAS_ATTR invokeElem "typeexpr" then d_atom <$> evalAsData (ATTR invokeElem "typeexpr")
          else Some (invokeType b));
  Some [mkBreakpoint (enabled b) (when_ b) INVOKER (action b) (Some invokeElem) inv type (eventName b)
     (executableName b) (executableXPath b) (stateId b) (transSourceId b) (transTargetId b) (condition b)].

(** One for every target; [ATTR] of a missing source is undefined. *)
Definition getQualifiedTransBreakpoints (transition root : node) (b : Breakpoint) : option (list Breakpoint) :=
  mapM (fun target =>
    source ← getSourceState transition;
    Some (mkBreakpoint (enabled b) (when_ b) TRANSITION (action b) (Some transition) (invokeId b) (invokeType b) (eventName b)
      (executableName b) (executableXPath b) (stateId b) (ATTR source "id") (ATTR target "id") (condition b)))
    (getTargetStates transition root).

(** The breakpoint of [handleExecutable], [handleEvent], [handleStable] and [handleMicrostep]. *)
Definition executable_breakpoint (elem : node) (w : When) : Breakpoint :=
  mkBreakpoint true w EXECUTABLE UNDEF_ACTION (Some elem) "" "" "" (getLocalName elem) "" "" "" "" "".
Definition event_breakpoint (name : string) (w : When) : Breakpoint :=
  mkBreakpoint true w EVENT UNDEF_ACTION None "" "" name "" "" "" "" "" "".
Definition stable_breakpoint (w : When) : Breakpoint :=
  mkBreakpoint true w STABLE UNDEF_ACTION None "" "" "" "" "" "" "" "" "".
Definition microstep_breakpoint (w : When) : Breakpoint :=
  mkBreakpoint true w MICROSTEP UNDEF_ACTION None "" "" "" "" "" "" "" "" "".

(** The callbacks of the monitor and what they ask the session about;
    [beforeCompletion] and the callbacks that [Debugger] leaves out do nothing. *)
Inductive Callback :=
| beforeTakingTransition (transition : node) | afterTakingTransition (transition : node)
| beforeExecutingContent (elem : node) | afterExecutingContent (elem : node)
| beforeExitingState (state : node) | afterExitingState (state : node)
| beforeEnteringState (state : node) | afterEnteringState (state : node)
| beforeUninvoking (elem : node) (inv : string) | afterUninvoking (elem : node) (inv : string)
| beforeInvoking (elem : node) (inv : string) | afterInvoking (elem : node) (inv : string)
| onStableConfiguration | beforeMicroStep | afterMicroStep
| beforeProcessingEvent (name : string).

Definition qualified (evalAsData : string -> option Data) (root : node) (c : Callback) : option (list Breakpoint) :=
  match c with
  | beforeTakingTransition t => getQualifiedTransBreakpoints t root (template BEFORE UNDEF_ACTION)
  | afterTakingTransition t => getQualifiedTransBreakpoints t root (template AFTER UNDEF_ACTION)
  | beforeExecutingContent e => Some [executable_breakpoint e BEFORE]
  | afterExecutingContent e => Some [executable_breakpoint e AFTER]
  | beforeExitingState s => Some (getQualifiedStateBreakpoints s (template BEFORE EXIT))
  | afterExitingState s => Some (getQualifiedStateBreakpoints s (template AFTER EXIT))
  | beforeEnteringState s => Some (getQualifiedStateBreakpoints s (template BEFORE ENTER))
  | afterEnteringState s => Some (getQualifiedStateBreakpoints s (template AFTER ENTER))
  | beforeUninvoking e i => getQualifiedInvokeBreakpoints evalAsData e i (template BEFORE UNINVOKE)
  | afterUninvoking e i => getQualifiedInvokeBreakpoints evalAsData e i (template AFTER UNINVOKE)
  | beforeInvoking e i => getQualifiedInvokeBreakpoints evalAsData e i (template BEFORE INVOKE)
  | afterInvoking e i => getQualifiedInvokeBreakpoints evalAsData e i (template AFTER INVOKE)
  | onStableConfiguration => Some [stable_breakpoint ON]
  | beforeMicroStep => Some [microstep_breakpoint BEFORE]
  | afterMicroStep => Some [microstep_breakpoint AFTER]
  | beforeProcessingEvent name => Some [event_breakpoint name BEFORE]
  end.

End Qualified.
Arguments Callback : clear implicits.
