(* ===== verification/DebugSession.v ===== *)
(** * Debug sessions: [debug/DebugSession] and [debug/Debugger]

    A session stops the thread of its interpreter in a callback, tells the
    client, and waits until the client resumes it. The commands of the client
    change the session while the thread waits; the loops of [checkBreakpoints]
    then go on with what the session has become. A waiting thread is modelled
    by what is left to do, its [Cursor]. *)

From stdpp Require Import base list gmap strings.
From S2P Require Import Prelude Strings Dom Predicates Data DataOrder Issue Breakpoint.

Local Open Scope nat_scope.

Section Session.
Context {node : Type} `{!EqDecision node} {D : DomOps node} `{BoostString}.
Notation Breakpoint := (Breakpoint node).

(** Blobs have addresses; documents give elements a path. *)
Context (address : Blob -> Z) (xpath : node -> string).

(** ** The set of breakpoints *)

Definition bp_lt (a b : Breakpoint) : bool := Data_lt address (toData xpath a) (toData xpath b).
Definition bp_equiv (a b : Breakpoint) : bool := negb (bp_lt a b || bp_lt b a).

(** The elements of the set in order. An element is a node of the tree with an
    identity, which an iterator refers to. *)
Definition Set_ : Type := list (nat * Breakpoint).

Definition set_find (b : Breakpoint) (s : Set_) : option (nat * Breakpoint) :=
  List.find (fun e => bp_equiv e.2 b) s.

Fixpoint set_insert (e : nat * Breakpoint) (s : Set_) : Set_ :=
  match s with
  | [] => [e]
  | x :: s' => if bp_lt e.2 x.2 then e :: s else x :: set_insert e s'
  end.

Definition set_erase (id : nat) (s : Set_) : Set_ := List.filter (fun e => negb (e.1 =? id)) s.

(** [_breakPoints.find(breakpoint)->enabled = value] *)
Definition set_enable (id : nat) (value : bool) (s : Set_) : Set_ :=
  (fun e => if e.1 =? id then (e.1, set_enabled value e.2) else e) <$> s.

(** ** The session *)

(** An interpreter is the address of its implementation. *)
Definition Interpreter : Type := positive.

Record Session := mkSession {
  _isStepping : bool;
  _isAttached : bool;
  _breakpointsEnabled : bool;
  _isRunning : bool;
  _interpreter : option Interpreter;
  _breakPoints : Set_;
  _nextId : nat;
  _skipTo : Breakpoint;
}.

Definition new_Session : Session := mkSession false false true false None [] 0 Breakpoint_default.

Definition set_stepping v s := mkSession v (_isAttached s) (_breakpointsEnabled s) (_isRunning s) (_interpreter s) (_breakPoints s) (_nextId s) (_skipTo s).
Definition set_attached v s := mkSession (_isStepping s) v (_breakpointsEnabled s) (_isRunning s) (_interpreter s) (_breakPoints s) (_nextId s) (_skipTo s).
Definition set_breakpointsEnabled v s := mkSession (_isStepping s) (_isAttached s) v (_isRunning s) (_interpreter s) (_breakPoints s) (_nextId s) (_skipTo s).
Definition set_running v s := mkSession (_isStepping s) (_isAttached s) (_breakpointsEnabled s) v (_interpreter s) (_breakPoints s) (_nextId s) (_skipTo s).
Definition set_interpreter v s := mkSession (_isStepping s) (_isAttached s) (_breakpointsEnabled s) (_isRunning s) v (_breakPoints s) (_nextId s) (_skipTo s).
Definition set_breakPoints v s := mkSession (_isStepping s) (_isAttached s) (_breakpointsEnabled s) (_isRunning s) (_interpreter s) v (_nextId s) (_skipTo s).
Definition set_nextId v s := mkSession (_isStepping s) (_isAttached s) (_breakpointsEnabled s) (_isRunning s) (_interpreter s) (_breakPoints s) v (_skipTo s).
Definition set_skipTo v s := mkSession (_isStepping s) (_isAttached s) (_breakpointsEnabled s) (_isRunning s) (_interpreter s) (_breakPoints s) (_nextId s) v.

(** ** Stopping *)

Section Check.
(** Evaluating a condition in the interpreter, and its active states. *)
Context (isTrue : string -> option bool) (configuration : list node).

(** [breakExecution]: what is sent to the client. Both arrays use one index. *)
Definition add_state (st : Z * Data) (state : node) : Z * Data :=
  let '(index, reply) := st in
  if HAS_ATTR state "id" then
    let id := Data_atom (ATTR state "id") VERBATIM in
    let add key (st : Z * Data) : Z * Data :=
      let '(index, reply) := st in
      let entry := Data_at reply key in
      ((index + 1)%Z, Data_put key (set_array (map_insert Z.compare index id (d_array entry)) entry) reply) in
    let st := add "activeStates"%string (index, reply) in
    if isAtomic state then add "basicStates"%string st else st
  else st.

Definition break_reply (reply : Data) : Data :=
  Data_put "replyType" (Data_atom "breakpoint" VERBATIM) (snd (foldl add_state (0%Z, reply) configuration)).

(** Where the thread waits. *)
Inductive Cursor :=
| AtSkip (rest : list Breakpoint)
| AtBreakpoint (q : Breakpoint) (rest : list Breakpoint) (next : option nat) (reply : Data)
| AtStep (rest : list Breakpoint).

(** The callback returns, the thread waits, or an iterator is used whose
    element was erased. *)
Inductive Outcome :=
| Returned
| Waiting (sent : Data) (k : Cursor)
| Dangling.

(** The first enabled breakpoint that matches, and the element the iterator
    has been advanced to. *)
Fixpoint scan (l : Set_) (q : Breakpoint) : option (Breakpoint * option nat) :=
  match l with
  | [] => None
  | (_, b) :: l =>
      if enabled b && matches isTrue b q then Some (b, fst <$> head l) else scan l q
  end.

(** The loop over the qualified breakpoints. *)
Fixpoint check (s : Session) (qualifiedBreakpoints : list Breakpoint) : Outcome :=
  match qualifiedBreakpoints with
  | [] => Returned
  | q :: rest =>
      if Breakpoint_bool (_skipTo s) then
        if matches isTrue (_skipTo s) q then
          Waiting (break_reply (Data_put "qualified" (toData xpath q) (Data_put "breakpoint" (toData xpath (_skipTo s)) Data_empty)))
            (AtSkip rest)
        else check s rest
      else
        match scan (_breakPoints s) q with
        | Some (b, next) =>
            let reply := Data_put "qualified" (toData xpath q) (Data_put "breakpoint" (toData xpath b) Data_empty) in
            Waiting (break_reply reply) (AtBreakpoint q rest next reply)
        | None =>
            if _isStepping s
            then Waiting (break_reply (Data_put "qualified" (toData xpath q) Data_empty)) (AtStep rest)
            else check s rest
        end
  end.

Definition checkBreakpoints (s : Session) (qualifiedBreakpoints : list Breakpoint) : Outcome :=
  if negb (_breakpointsEnabled s) then Returned else check s qualifiedBreakpoints.

(** The elements from the one with this identity on. *)
Fixpoint from_element (id : nat) (l : Set_) : option Set_ :=
  match l with
  | [] => None
  | e :: l' => if e.1 =? id then Some l else from_element id l'
  end.

(** The thread goes on after it was woken up. *)
Definition resume (s : Session) (k : Cursor) : Outcome * Session :=
  match k with
  | AtSkip rest => let s := set_skipTo Breakpoint_default s in (check s rest, s)
  | AtStep rest => (check s rest, s)
  | AtBreakpoint q rest next reply =>
      (match next with
       | None => check s rest
       | Some id =>
           match from_element id (_breakPoints s) with
           | None => Dangling
           | Some l =>
               match scan l q with
               | Some (b, next) =>
                   let reply := Data_put "qualified" (toData xpath q) (Data_put "breakpoint" (toData xpath b) reply) in
                   Waiting (break_reply reply) (AtBreakpoint q rest next reply)
               | None => check s rest
               end
           end
       end, s)
  end.

End Check.

(** ** The debugger *)

(** [_sessionForInterpreter] with the names of sessions. *)
Definition Debugger : Type := gmap positive nat.

Definition attachSession (impl : Interpreter) (session : nat) (d : Debugger) : Debugger := <[impl := session]> d.
Definition detachSession (impl : Interpreter) (d : Debugger) : Debugger := delete impl d.
Definition getSession (impl : Interpreter) (d : Debugger) : option nat := d !! impl.

(** A callback of the monitor: nothing happens without a running session. An
    exception of a type expression is [None]. *)
Definition handle (evalAsData : string -> option Data) (isTrue : string -> option bool) (configuration : list node)
    (root : node) (sessions : nat -> Session) (d : Debugger) (impl : Interpreter) (c : Callback node) : option Outcome :=
  match getSession impl d with
  | Some name =>
      if _isRunning (sessions name) then
        qs ← qualified evalAsData root c;
        Some (checkBreakpoints isTrue configuration (sessions name) qs)
      else Some Returned
  | None => Some Returned
  end.

(** ** Commands *)

Definition success : Data := Data_put "status" (Data_atom "success" VERBATIM) Data_empty.
Definition failure : Data := Data_put "status" (Data_atom "failure" VERBATIM) Data_empty.
Definition failed_with (reason : string) : Data :=
  Data_put "reason" (Data_atom reason VERBATIM) failure.

(** What a command does besides answering: it wakes the waiting thread up, or
    starts a new thread that steps the interpreter. *)
Record Effects := mkEffects { wakes : bool; starts : bool }.

Definition nothing : Effects := mkEffects false false.

Definition debugStart (s : Session) : Data * Session * Effects :=
  if _isAttached s then (failed_with "Already started when attached", s, nothing)
  else match _interpreter s with
       | None => (failed_with "No interpreter attached or loaded", s, nothing)
       | Some _ => (success, set_running true s, mkEffects false true)
       end.

Definition debugStep (s : Session) : Data * Session * Effects :=
  let s := set_stepping true s in
  match _interpreter s with
  | Some _ => (success, set_running true s, mkEffects true (negb (_isRunning s)))
  | None => (failure, s, mkEffects true false)
  end.

Definition debugResume (s : Session) : Data * Session * Effects := (success, set_stepping false s, mkEffects true false).

Definition debugPause (s : Session) : Data * Session * Effects :=
  (success, set_stepping true (set_skipTo Breakpoint_default s), nothing).

Definition skipToBreakPoint (data : Data) (s : Session) : Data * Session * Effects :=
  let s := set_skipTo (Breakpoint_of data) s in
  match _interpreter s with
  | Some _ => (success, set_running true s, mkEffects true (negb (_isRunning s)))
  | None => (failure, s, mkEffects true false)
  end.

Definition addBreakPoint (data : Data) (s : Session) : Data * Session :=
  let b := Breakpoint_of data in
  match set_find b (_breakPoints s) with
  | None => (success, set_nextId (S (_nextId s)) (set_breakPoints (set_insert (_nextId s, b) (_breakPoints s)) s))
  | Some _ => (failed_with "Breakpoint already exists", s)
  end.

Definition removeBreakPoint (data : Data) (s : Session) : Data * Session :=
  match set_find (Breakpoint_of data) (_breakPoints s) with
  | Some (id, _) => (success, set_breakPoints (set_erase id (_breakPoints s)) s)
  | None => (failed_with "No such breakpoint", s)
  end.

Definition switchBreakPoint (value : bool) (data : Data) (s : Session) : Data * Session :=
  match set_find (Breakpoint_of data) (_breakPoints s) with
  | Some (id, _) => (success, set_breakPoints (set_enable id value (_breakPoints s)) s)
  | None => (failed_with "No such breakpoint", s)
  end.

Definition enableBreakPoint : Data -> Session -> Data * Session := switchBreakPoint true.
Definition disableBreakPoint : Data -> Session -> Data * Session := switchBreakPoint false.
Definition enableAllBreakPoints (s : Session) : Data * Session := (success, set_breakpointsEnabled true s).
Definition disableAllBreakPoints (s : Session) : Data * Session := (success, set_breakpointsEnabled false s).

(** *** Stopping the session *)

(** The thread of the interpreter as the client sees it. A thread inside [step]
    may wait for an external event; whether its step returns depends on the
    events that come. It does so after the last callback of a step only, so
    that a thread that waits at a breakpoint does not wait for an event in the
    same step. *)
Inductive Thread := NoThread | Stepping (returns : bool) | Paused (k : Cursor) | Finished.

(** [debugStop]: [Never] when it does not return, as the thread that is joined
    waits for an event that never comes, or waits again in the callback, and
    nobody is left to wake it up; undefined when it uses a dangling iterator.
    A thread that leaves its callback finds the session detached, and ends
    when its step is over. *)
Inductive Stop := Stopped (reply : Data) (s : Session) (d : Debugger) | Never | StopUndefined.

Definition debugStop (isTrue : string -> option bool) (configuration : list node) (t : Thread) (s : Session) (d : Debugger) : Stop :=
  let d := match _interpreter s with Some impl => detachSession impl d | None => d end in
  let finish s := Stopped success (set_interpreter None (set_skipTo Breakpoint_default s)) d in
  if _isRunning s then
    match t with
    | NoThread => finish s
    | Finished | Stepping true => finish (set_running false s)
    | Stepping false => Never
    | Paused k =>
        match resume isTrue configuration (set_running false s) k with
        | (Returned, s) => finish s
        | (Waiting _ _, _) => Never
        | (Dangling, _) => StopUndefined
        end
    end
  else finish s.

(** *** Preparing and attaching *)

(** [fromXML] or [fromURL]: the new interpreter, unless it throws. *)
Definition debugPrepare (create : option Interpreter) (isTrue : string -> option bool) (configuration : list node)
    (name : nat) (data : Data) (t : Thread) (s : Session) (d : Debugger) : Stop :=
  if negb (hasKey data "xml") && negb (hasKey data "url")
  then Stopped (failed_with "No XML or URL given") s d
  else
    match debugStop isTrue configuration t s d with
    | Stopped _ s d =>
        let s := set_interpreter create (set_attached false s) in
        match create with
        | Some impl => Stopped success s (attachSession impl name d)
        | None => Stopped failure s d
        end
    | r => r
    end.

(** [getInstances] and their session ids. *)
Definition debugAttach (instances : list (Interpreter * string)) (document : Interpreter -> option positive) (name : nat)
    (data : Data) (s : Session) (d : Debugger) : Data * Session * Debugger :=
  let s := set_attached true s in
  if negb (hasKey data "attach") then (failed_with "No id to attach to given", s, d)
  else
    let interpreterId := d_atom (Data_at data "attach") in
    match List.find (fun i => String.eqb i.2 interpreterId) instances with
    | Some (impl, _) =>
        (Data_put "status" (Data_atom "success" VERBATIM)
           (Data_put "xml" (mkData [] [] "" (document impl) None INTERPRETED) Data_empty),
         set_interpreter (Some impl) s, attachSession impl name d)
    | None => (failed_with "No interpreter with given id found", s, d)
    end.

Definition debugDetach (s : Session) (d : Debugger) : Data * Session * Debugger :=
  (success, set_attached false s, match _interpreter s with Some impl => detachSession impl d | None => d end).

(** *** Asking *)

(** An issue with its specification reference, which is part of the answer. *)
Definition severity_name (s : InterpreterIssue.IssueSeverity) : string :=
  match s with InterpreterIssue.USCXML_ISSUE_FATAL => "FATAL" | InterpreterIssue.USCXML_ISSUE_WARNING => "WARN" | InterpreterIssue.USCXML_ISSUE_INFO => "INFO" end.

Definition issue_data (i : InterpreterIssue.Issue node * string) : Data :=
  put_atom "severity" (severity_name (InterpreterIssue.severity i.1))
    (put_atom "specRef" i.2 (put_atom "xPath" (InterpreterIssue.xPath i.1) (put_atom "message" (InterpreterIssue.message i.1) Data_empty))).

(** [std::map::insert] of growing indices. *)
Definition getIssues (issues : list (InterpreterIssue.Issue node * string)) : Data :=
  foldl (fun reply '(index, i) =>
      let entry := Data_at reply "issues" in
      Data_put "issues" (set_array (map_insert Z.compare index (issue_data i) (d_array entry)) entry) reply)
    success (imap (fun index i => (Z.of_nat index, i)) issues).

(** [getAsData] of the interpreter, with the data and the name of the event it
    throws. *)
Definition debugEval (has_datamodel : bool) (getAsData : string -> Data + (Data * string)) (data : Data) (s : Session) : Data :=
  if negb (hasKey data "expression") then failed_with "No expression given"
  else
    let expr := d_atom (Data_at data "expression") in
    match _interpreter s with
    | None => failed_with "No interpreter running"
    | Some _ =>
        if negb has_datamodel then failed_with "No datamodel available"
        else
          let result := match getAsData expr with
                        | inl d => d
                        | inr (d, name) => put_atom "error" name d
                        end in
          Data_put "status" (Data_atom "success" VERBATIM) (Data_put "eval" result Data_empty)
    end.

End Session.
