(* ===== verification/DebugTheorems.v ===== *)
(** * The debugger: theorems

    The set of breakpoints of a session refines a table, the stops of a
    callback are the matching breakpoints in order, and what happens to a
    waiting thread when the client changes the session. *)

From stdpp Require Import base list strings.
From S2P Require Import Prelude Strings Dom Predicates Data DataOrder Breakpoint DebugSession.

Local Open Scope nat_scope.
#[local] Arguments Nat.ltb : simpl never.

(** ** Breakpoints as data *)

Section RoundTrip.
Context {node : Type} (xpath : node -> string).
Notation Breakpoint := (Breakpoint node).

(** What data say of a breakpoint. *)
Definition described (b : Breakpoint) : Breakpoint :=
  mkBreakpoint true (when_ b) (subject b) (action b) None (invokeId b) (invokeType b) (eventName b)
    (executableName b) (executableXPath b) (stateId b) (transSourceId b) (transTargetId b) (condition b).

Definition entry (d : Data) (key : string) : option Data := str_find key (d_compound d).

Lemma entry_put key key' v d : entry (Data_put key v d) key' = if String.eqb key' key then Some v else entry d key'.
Proof.
  unfold entry, Data_put, str_find, str_put. cbn [d_compound set_compound]. rewrite map_find_put.
  - destruct (String.eqb_spec key' key) as [->|Hne]; [by rewrite (proj2 (string_compare_eq key key) eq_refl)|].
    destruct (String.compare key' key) eqn:E; [|done..]. by apply string_compare_eq in E.
  - apply string_compare_eq.
Qed.

Lemma entry_some key key' o d :
  entry (put_some key o d) key' = if String.eqb key' key then (match o with Some v => Some (Data_atom v VERBATIM) | None => entry d key' end) else entry d key'.
Proof. destruct o; cbn [put_some]; [apply entry_put|by case_match]. Qed.

Lemma entry_given key key' v d :
  entry (put_given key v d) key' = if String.eqb key' key && (0 <? length (explode v)) then Some (Data_atom v VERBATIM) else entry d key'.
Proof.
  unfold put_given. destruct (0 <? length (explode v)); [|by rewrite andb_false_r].
  rewrite andb_true_r. apply entry_put.
Qed.

Lemma read_entry {A} (f : string -> A) (u : A) d key :
  (if hasKey d key then f (d_atom (Data_at d key)) else u) = match entry d key with Some v => f (d_atom v) | None => u end.
Proof. unfold hasKey, Data_at, entry. by destruct (str_find key (d_compound d)). Qed.

Lemma given_atom (v : string) :
  (match (if Nat.ltb 0 (length (explode v)) then Some (Data_atom v VERBATIM) else None) with Some x => d_atom x | None => EmptyString end) = v.
Proof. by destruct v. Qed.

Lemma read_name {A} (f : string -> A) u (o : option string) (a : A) : match o with Some v => f v | None => u end = a ->
  match match o with Some v => Some (Data_atom v VERBATIM) | None => None end with Some v => f (d_atom v) | None => u end = a.
Proof. by destruct o. Qed.

Lemma Breakpoint_read b : Breakpoint_of (toData xpath b) = described b.
Proof.
  unfold Breakpoint_of, described, atom_of. rewrite !read_entry, !(read_entry (fun v => v)).
  unfold toData. repeat (rewrite entry_given || rewrite entry_some). cbn [String.eqb Ascii.eqb Bool.eqb andb].
  assert (Hnone : forall k, entry Data_empty k = None) by done. rewrite !Hnone. f_equal.
  1: by destruct (when_ b).
  1: by destruct (subject b).
  1: by destruct (action b).
  all: apply given_atom.
Qed.

Lemma toData_described b1 b2 : element b1 = None -> element b2 = None ->
  toData xpath b1 = toData xpath b2 <-> described b1 = described b2.
Proof.
  intros H1 H2. split.
  - intros E. by rewrite <- (Breakpoint_read b1), <- (Breakpoint_read b2), E.
  - destruct b1, b2; cbn in *; subst. by intros [= -> -> -> -> -> -> -> -> -> -> -> ->].
Qed.

Lemma Breakpoint_of_described data : described (Breakpoint_of (node := node) data) = Breakpoint_of data.
Proof. done. Qed.

End RoundTrip.

(** ** The set of breakpoints *)

Section Set_of_breakpoints.
Context {node : Type} `{!EqDecision node} (xpath : node -> string).
Context (address : Blob -> Z) `{!Inj (=) (=) address}.
Notation Breakpoint := (Breakpoint node).
Notation bp_lt := (bp_lt address xpath).
Notation bp_equiv := (bp_equiv address xpath).
Notation bp_compare b1 b2 := (Data_compare address (toData xpath b2) (toData xpath b1)).

#[export] Instance Breakpoint_dec : EqDecision Breakpoint.
Proof. solve_decision. Defined.

Lemma bp_lt_compare a b : bp_lt a b = true <-> bp_compare a b = Lt.
Proof. unfold DebugSession.bp_lt. rewrite Data_lt_compare by done. by destruct (Data_compare _ _ _). Qed.

Lemma bp_lt_trans a b c : bp_lt a b = true -> bp_lt b c = true -> bp_lt a c = true.
Proof. rewrite !bp_lt_compare. intros H1 H2. exact (order_trans (cmp := Data_compare address) _ _ _ H2 H1). Qed.

Lemma bp_equiv_iff a b : element a = None -> element b = None -> bp_equiv a b = true <-> described a = described b.
Proof.
  intros Ha Hb. rewrite <- (toData_described xpath) by done.
  unfold DebugSession.bp_equiv, DebugSession.bp_lt. rewrite !Data_lt_compare by done.
  rewrite (order_opp (cmp := Data_compare address) (toData xpath a) (toData xpath b)).
  rewrite <- (Data_compare_eq address (toData xpath a) (toData xpath b)). by destruct (Data_compare _ _ _).
Qed.

(** What every session keeps: the elements are sorted, none of them twice, and
    none has the identity of a later one. *)
Definition set_wf (n : nat) (s : Set_) : Prop :=
  StronglySorted (fun e f => bp_lt e.2 f.2 = true) s /\ NoDup s.*1 /\
  Forall (fun e => e.1 < n /\ element e.2 = None) s.

Notation set_find := (set_find address xpath).
Notation set_insert := (set_insert address xpath).

Lemma bp_lt_irrefl a b : element a = None -> element b = None -> bp_lt a b = true -> described a <> described b.
Proof.
  intros Ha Hb Hlt E. apply (bp_equiv_iff a b) in E; [|done..]. unfold DebugSession.bp_equiv in E. by rewrite Hlt in E.
Qed.

Lemma key_unique n s e f : set_wf n s -> e ∈ s -> f ∈ s -> described e.2 = described f.2 -> e = f.
Proof.
  intros (Hs & _ & Hn) He Hf E. induction Hs as [|x s Hs IH Hx]; [by apply not_elem_of_nil in He|].
  apply Forall_cons in Hn as [[_ Hx0] Hn]. pose proof (proj1 (Forall_forall _ _) Hn) as Hn'. pose proof (proj1 (Forall_forall _ _) Hx) as Hx'.
  apply elem_of_cons in He as [->|He], Hf as [->|Hf]; [done| | |by apply IH].
  - exfalso. apply (bp_lt_irrefl x.2 f.2); [done|by apply Hn'|by apply Hx'|done].
  - exfalso. apply (bp_lt_irrefl x.2 e.2); [done|by apply Hn'|by apply Hx'|done].
Qed.

Lemma elem_of_insert e (x : nat * Breakpoint) s : x ∈ set_insert e s <-> x = e \/ x ∈ s.
Proof.
  induction s as [|y s IH]; cbn; [by rewrite list_elem_of_singleton, elem_of_nil; intuition|].
  case_match; rewrite !elem_of_cons, ?IH; intuition.
Qed.

(** A breakpoint of the set is found by what describes it. *)
Lemma set_find_spec n s b e : set_wf n s -> element b = None ->
  set_find b s = Some e <-> e ∈ s /\ described e.2 = described b.
Proof.
  intros Hwf Hb. assert (Hel : forall f, f ∈ s -> element f.2 = None).
  { intros f Hf. destruct Hwf as (_ & _ & Hn). by apply (proj1 (Forall_forall _ _) Hn f Hf). }
  split.
  - intros H. apply List.find_some in H as [Hin Heq]. apply list_elem_of_In in Hin. split; [done|]. apply bp_equiv_iff; auto.
  - intros [Hin E]. destruct (set_find b s) as [f|] eqn:Hf.
    + apply List.find_some in Hf as [Hin' Heq]. apply list_elem_of_In in Hin'. f_equal.
      apply (key_unique n s); [done..|]. rewrite E. apply bp_equiv_iff; auto.
    + apply list_elem_of_In in Hin as Hin'. pose proof (List.find_none _ _ Hf _ Hin') as Hn. cbn in Hn.
      rewrite (proj2 (bp_equiv_iff e.2 b (Hel _ Hin) Hb) E) in Hn. done.
Qed.

Lemma set_find_none n s b : set_wf n s -> element b = None ->
  set_find b s = None <-> forall e, e ∈ s -> described e.2 <> described b.
Proof.
  intros Hwf Hb. rewrite eq_None_not_Some. split.
  - intros H e He E. apply H. exists e. by apply (set_find_spec n).
  - intros H [e [He E]%(set_find_spec n)]; [|done..]. by apply (H e).
Qed.

Lemma insert_wf n s b : set_wf n s -> element b = None -> (forall e, e ∈ s -> described e.2 <> described b) ->
  set_wf (S n) (set_insert (n, b) s).
Proof.
  intros (Hs & Hnd & Hn) Hb Hnew. split_and!.
  - clear Hnd. induction Hs as [|x s Hs IH Hx]; cbn; [by repeat constructor|].
    apply Forall_cons in Hn as [[_ Hx0] Hn]. destruct (bp_lt b x.2) eqn:E.
    + constructor; [by constructor|]. constructor; [done|]. eapply Forall_impl; [exact Hx|]. cbn. intros y. by apply bp_lt_trans.
    + assert (Hxb : bp_lt x.2 b = true).
      { apply not_false_iff_true. intros E'. apply (Hnew x); [left|]. apply bp_equiv_iff; [done..|].
        unfold DebugSession.bp_equiv. by rewrite E, E'. }
      constructor; [apply IH; [done|intros e He; apply Hnew; by right]|].
      apply Forall_forall. intros y [->|Hy]%elem_of_insert; [done|]. by apply (proj1 (Forall_forall _ _) Hx).
  - clear Hs Hnew Hb. induction s as [|x s IH]; cbn; [repeat constructor; by intros ?%elem_of_nil|].
    apply Forall_cons in Hn as [[Hx _] Hn]. cbn in Hnd. apply NoDup_cons in Hnd as [Hnx Hnd].
    case_match; cbn.
    + constructor; [|by constructor]. intros [->|(y & -> & Hy)%list_elem_of_fmap]%elem_of_cons; [lia|].
      apply (proj1 (Forall_forall _ _) Hn) in Hy. lia.
    + constructor; [|by apply IH]. intros (y & E & [->|Hy]%elem_of_insert)%list_elem_of_fmap; [cbn in E; lia|].
      apply Hnx. rewrite E. by apply list_elem_of_fmap_2.
  - apply Forall_forall. intros e [->|He]%elem_of_insert; cbn; [split; [lia|done]|].
    apply (proj1 (Forall_forall _ _) Hn) in He. destruct He. split; [lia|done].
Qed.

Lemma erase_wf n s id : set_wf n s -> set_wf n (set_erase id s).
Proof.
  intros (Hs & Hnd & Hn). unfold set_erase. induction Hs as [|x s Hs IH Hx]; [by repeat constructor|].
  cbn in Hnd. apply NoDup_cons in Hnd as [Hnx Hnd]. apply Forall_cons in Hn as [Hxn Hn].
  cbn. destruct (negb (x.1 =? id)); [|by apply IH]. destruct (IH Hnd Hn) as (H1 & H2 & H3).
  assert (Hsub : forall y, y ∈ List.filter (fun e => negb (e.1 =? id)) s -> y ∈ s).
  { intros y. rewrite !list_elem_of_In, List.filter_In. by intros [? _]. }
  split_and!; [|cbn|by constructor].
  - constructor; [done|]. apply Forall_forall. intros y Hy. apply (proj1 (Forall_forall _ _) Hx), Hsub, Hy.
  - constructor; [|done]. intros (y & E & Hy)%list_elem_of_fmap. apply Hnx. rewrite E. by apply list_elem_of_fmap_2, Hsub.
Qed.

Lemma set_enabled_toData v (b : Breakpoint) : toData xpath (set_enabled v b) = toData xpath b.
Proof. done. Qed.

Lemma enable_wf n s id v : set_wf n s -> set_wf n (set_enable id v s).
Proof.
  intros (Hs & Hnd & Hn). unfold set_enable.
  set (g := fun e : nat * Breakpoint => if e.1 =? id then (e.1, set_enabled v e.2) else e).
  assert (Hg1 : forall e, (g e).1 = e.1) by (intros e; unfold g; by case_match).
  assert (Hg2 : forall e, element (g e).2 = element e.2) by (intros e; unfold g; by case_match).
  assert (Hlt : forall e f, bp_lt (g e).2 (g f).2 = bp_lt e.2 f.2).
  { intros e f. unfold DebugSession.bp_lt, g. by repeat case_match. }
  split_and!.
  - clear Hnd Hn. induction Hs as [|x s Hs IH Hx]; cbn [fmap list_fmap]; constructor; [done|].
    apply Forall_fmap. eapply Forall_impl; [exact Hx|]. cbn. intros y. by rewrite Hlt.
  - rewrite <- list_fmap_compose. by rewrite (list_fmap_ext (fst ∘ g) fst s) by (intros i x _; apply Hg1).
  - apply Forall_fmap. eapply Forall_impl; [exact Hn|]. cbn. intros y. by rewrite Hg1, Hg2.
Qed.

(** *** The table that the set stands for *)

(** Which breakpoints there are, and whether they are enabled. *)
Definition Table : Type := Breakpoint -> option bool.

Definition table (s : Set_) : Table := fun b => enabled ∘ snd <$> set_find b s.

Definition table_put (b : Breakpoint) (v : option bool) (t : Table) : Table := fun b' => if decide (b' = b) then v else t b'.

Inductive Command := Add (data : Data) | Remove (data : Data) | Enable (data : Data) | Disable (data : Data).

Definition run_command (c : Command) (s : Session) : Data * Session :=
  match c with
  | Add data => addBreakPoint address xpath data s
  | Remove data => removeBreakPoint address xpath data s
  | Enable data => enableBreakPoint address xpath data s
  | Disable data => disableBreakPoint address xpath data s
  end.

(** What a command promises. *)
Definition table_command (c : Command) (t : Table) : Data * Table :=
  match c with
  | Add data =>
      let b := Breakpoint_of data in
      match t b with
      | None => (success, table_put b (Some true) t)
      | Some _ => (failed_with "Breakpoint already exists", t)
      end
  | Remove data =>
      let b := Breakpoint_of data in
      match t b with Some _ => (success, table_put b None t) | None => (failed_with "No such breakpoint", t) end
  | Enable data =>
      let b := Breakpoint_of data in
      match t b with Some _ => (success, table_put b (Some true) t) | None => (failed_with "No such breakpoint", t) end
  | Disable data =>
      let b := Breakpoint_of data in
      match t b with Some _ => (success, table_put b (Some false) t) | None => (failed_with "No such breakpoint", t) end
  end.

Fixpoint run_all {S} (step : Command -> S -> Data * S) (cs : list Command) (s : S) : list Data * S :=
  match cs with
  | [] => ([], s)
  | c :: cs => let '(reply, s) := step c s in let '(replies, s) := run_all step cs s in (reply :: replies, s)
  end.

(** A breakpoint as data describe it. *)
Definition plain (b : Breakpoint) : Prop := described b = b.

Lemma plain_element b : plain b -> element b = None.
Proof. by intros <-. Qed.

Lemma table_spec n s b v : set_wf n s -> plain b ->
  table s b = Some v <-> exists e, e ∈ s /\ described e.2 = b /\ enabled e.2 = v.
Proof.
  intros Hwf Hb. unfold table. rewrite fmap_Some. split.
  - intros (e & [He E]%(set_find_spec n) & ->); [|done|by apply plain_element]. exists e. by rewrite E.
  - intros (e & He & E & <-). exists e. split; [|done]. apply (set_find_spec n); [done|by apply plain_element|]. by rewrite Hb.
Qed.

Lemma table_of_insert n s b : set_wf n s -> plain b -> (forall e, e ∈ s -> described e.2 <> b) ->
  forall b', plain b' -> table (set_insert (n, b) s) b' = table_put b (Some (enabled b)) (table s) b'.
Proof.
  intros Hwf Hb Hnew b' Hb'.
  assert (Hwf' : set_wf (S n) (set_insert (n, b) s)) by (apply insert_wf; [done|by apply plain_element|by rewrite Hb]).
  apply option_eq. intros v. rewrite (table_spec (S n)) by done. unfold table_put. case_decide as E.
  - subst b'. split.
    + intros (e & [->|He]%elem_of_insert & E & <-); [done|]. by destruct (Hnew e).
    + intros [= <-]. exists (n, b). rewrite elem_of_insert. auto.
  - rewrite (table_spec n) by done. split; intros (e & He & Ee & Ev); exists e; rewrite elem_of_insert in *; [|auto].
    destruct He as [->|He]; [|done]. cbn in Ee. by rewrite Hb in Ee.
Qed.

Lemma elem_of_erase id (x : nat * Breakpoint) s : x ∈ set_erase id s <-> x ∈ s /\ x.1 <> id.
Proof.
  unfold set_erase. rewrite !list_elem_of_In, List.filter_In, negb_true_iff, Nat.eqb_neq. done.
Qed.

Lemma id_unique n s e f : set_wf n s -> e ∈ s -> f ∈ s -> e.1 = f.1 -> e = f.
Proof.
  intros (_ & Hnd & _) He Hf E. apply list_elem_of_lookup in He as [i Hi], Hf as [j Hj].
  assert (i = j) as ->; [|congruence]. eapply (NoDup_lookup s.*1); [done|..]; rewrite list_lookup_fmap; [by rewrite Hi|by rewrite Hj, E].
Qed.

Lemma table_of_erase n s id b : set_wf n s -> (id, b) ∈ s ->
  forall b', plain b' -> table (set_erase id s) b' = table_put (described b) None (table s) b'.
Proof.
  intros Hwf Hin b' Hb'. apply option_eq. intros v. rewrite (table_spec n) by (try apply erase_wf; done).
  unfold table_put. case_decide as E.
  - split; [|done]. intros (e & [He Hid]%elem_of_erase & Ee & _). destruct Hid.
    rewrite (key_unique n s e (id, b)); [done..|]. cbn. congruence.
  - rewrite (table_spec n) by done. split; intros (e & He & Ee & Ev); exists e; rewrite elem_of_erase in *; [naive_solver|].
    split_and!; [done| |done..]. intros Hid. rewrite (id_unique n s e (id, b)) in Ee by done. done.
Qed.

Lemma elem_of_enable id v (x : nat * Breakpoint) s : x ∈ set_enable id v s <->
  exists e, e ∈ s /\ x = (if e.1 =? id then (e.1, set_enabled v e.2) else e).
Proof. unfold set_enable. rewrite list_elem_of_fmap. naive_solver. Qed.

Lemma table_of_enable n s id b v : set_wf n s -> (id, b) ∈ s ->
  forall b', plain b' -> table (set_enable id v s) b' = table_put (described b) (Some v) (table s) b'.
Proof.
  intros Hwf Hin b' Hb'. apply option_eq. intros w. rewrite (table_spec n) by (try apply enable_wf; done).
  unfold table_put. case_decide as E.
  - subst b'. split.
    + intros (x & (e & He & ->)%elem_of_enable & Ee & <-). case_match eqn:Ei; [done|]. exfalso.
      apply Nat.eqb_neq in Ei. apply Ei. by rewrite (key_unique n s e (id, b)).
    + intros [= <-]. exists (id, set_enabled v b). split; [|done]. apply elem_of_enable. exists (id, b). cbn. by rewrite Nat.eqb_refl.
  - rewrite (table_spec n) by done. split.
    + intros (x & (e & He & ->)%elem_of_enable & Ee & Ev). case_match eqn:Ei; [|by exists e]. exfalso.
      apply Nat.eqb_eq in Ei. rewrite (id_unique n s e (id, b)) in Ee by done. by apply E.
    + intros (e & He & Ee & Ev). exists e. split; [|done]. apply elem_of_enable. exists e. split; [done|].
      case_match eqn:Ei; [|done]. apply Nat.eqb_eq in Ei. rewrite (id_unique n s e (id, b)) in Ee by done. by destruct E.
Qed.

Definition session_wf (s : Session) : Prop := set_wf (_nextId s) (_breakPoints s).

Lemma command_step c s t : session_wf s -> (forall b, plain b -> table (_breakPoints s) b = t b) ->
  let '(reply, s') := run_command c s in let '(reply', t') := table_command c t in
  reply = reply' /\ session_wf s' /\ (forall b, plain b -> table (_breakPoints s') b = t' b).
Proof.
  intros Hwf Ht.
  assert (Hput : forall (b : Breakpoint) v (t1 : Table), (forall b', plain b' -> t1 b' = table_put b v (table (_breakPoints s)) b') ->
    forall b', plain b' -> t1 b' = table_put b v t b').
  { intros b v t1 H b' Hb'. rewrite H by done. unfold table_put. case_decide; auto. }
  assert (Hof : forall data, plain (Breakpoint_of data)) by done.
  destruct c as [data|data|data|data];
    cbn [run_command table_command]; unfold addBreakPoint, removeBreakPoint, enableBreakPoint, disableBreakPoint, switchBreakPoint;
    rewrite <- (Ht (Breakpoint_of data)) by apply Hof; unfold table at 1;
    destruct (set_find (Breakpoint_of data) (_breakPoints s)) as [[id b]|] eqn:Hf; cbn [fmap option_fmap option_map];
    try (split_and!; done);
    try (apply (set_find_spec (_nextId s)) in Hf as [Hin E]; [|done..]; cbn in E; rewrite Breakpoint_of_described in E; rewrite <- E;
      split_and!; [done| |apply Hput]; [by apply erase_wf || by apply enable_wf|by apply (table_of_erase (_nextId s)) || by apply (table_of_enable (_nextId s))]).
  rewrite (set_find_none (_nextId s)) in Hf by done.
  split_and!; [done|by apply insert_wf|]. apply Hput. by apply (table_of_insert (_nextId s)).
Qed.

(** C15: whatever the commands of the client, the set of breakpoints answers as
    the table does, stands for it, and stays a set. *)
Theorem breakpoints_refine_table cs :
  let '(replies, s) := run_all run_command cs new_Session in
  let '(replies', t) := run_all table_command cs (fun _ => None) in
  replies = replies' /\ session_wf s /\ forall b, plain b -> table (_breakPoints s) b = t b.
Proof.
  assert (Hwf : session_wf new_Session) by (unfold session_wf, set_wf; cbn; split_and!; constructor).
  assert (Ht : forall b, plain b -> table (_breakPoints new_Session) b = (fun _ => None) b) by done.
  revert Hwf Ht. generalize (fun _ : Breakpoint => @None bool) as t. generalize (new_Session (node := node)) as s.
  induction cs as [|c cs IH]; intros s t Hwf Ht; [done|]. cbn [run_all]. pose proof (command_step c s t Hwf Ht) as Hstep.
  destruct (run_command c s) as [r s1], (table_command c t) as [r' t1]. destruct Hstep as (-> & Hwf1 & Ht1).
  specialize (IH s1 t1 Hwf1 Ht1). destruct (run_all run_command cs s1) as [rs s2], (run_all table_command cs t1) as [rs' t2].
  destruct IH as (-> & ? & ?). by split_and!.
Qed.

End Set_of_breakpoints.

(** ** Stops *)

Section Stops.
Context {node : Type} `{!EqDecision node} {D : DomOps node} `{BoostString} (xpath : node -> string).
Context (isTrue : string -> option bool) (configuration : list node).
Notation Breakpoint := (Breakpoint node).
Notation Session := (Session (node := node)).
Notation Set_ := (Set_ (node := node)).
Notation Outcome := (Outcome (node := node)).
Notation check := (check xpath isTrue configuration).
Notation checkBreakpoints := (checkBreakpoints xpath isTrue configuration).
Notation resume := (resume xpath isTrue configuration).
Notation scan := (scan isTrue).

(** The client goes on in the mode that the session is in. *)
Definition carry_on (s : Session) : Session := if _isStepping s then (debugStep s).1.2 else (debugResume s).1.2.

(** What the client is sent until the callback returns. *)
Fixpoint stops (fuel : nat) (s : Session) (o : Outcome) : option (list Data) :=
  match o with
  | Returned => Some []
  | Dangling => None
  | Waiting sent k =>
      match fuel with
      | 0 => None
      | S fuel => let '(o, s) := resume (carry_on s) k in cons sent <$> stops fuel s o
      end
  end.

Definition stop_data (q b : Breakpoint) : Data :=
  Data_put "qualified" (toData xpath q) (Data_put "breakpoint" (toData xpath b) Data_empty).
Definition stop_reply (q b : Breakpoint) : Data := break_reply configuration (stop_data q b).
Definition step_reply (q : Breakpoint) : Data := break_reply configuration (Data_put "qualified" (toData xpath q) Data_empty).

Definition hit (q : Breakpoint) (e : nat * Breakpoint) : bool := enabled e.2 && matches isTrue e.2 q.
Definition hits (q : Breakpoint) (l : Set_) : list Breakpoint := snd <$> List.filter (hit q) l.

(** The stops at one qualified breakpoint: at every breakpoint that matches
    it, or one when stepping. *)
Definition expected (s : Session) (q : Breakpoint) : list Data :=
  match hits q (_breakPoints s) with
  | [] => if _isStepping s then [step_reply q] else []
  | bs => stop_reply q <$> bs
  end.

Lemma stop_data_put q b q' b' : Data_put "qualified" (toData xpath q) (Data_put "breakpoint" (toData xpath b) (stop_data q' b')) = stop_data q b.
Proof. done. Qed.

Lemma scan_none l q : scan l q = None <-> hits q l = [].
Proof.
  unfold hits. induction l as [|[id b] l IH]; cbn; [done|]. unfold hit at 1. cbn.
  by destruct (enabled b && matches isTrue b q).
Qed.

Lemma scan_some l q b next : scan l q = Some (b, next) ->
  exists l1 id l2, l = l1 ++ (id, b) :: l2 /\ hits q l = b :: hits q l2 /\ next = fst <$> head l2.
Proof.
  induction l as [|[id b'] l IH]; cbn; [done|]. unfold hits. cbn [List.filter]. unfold hit at 1. cbn [snd].
  destruct (enabled b' && matches isTrue b' q).
  - intros [= -> <-]. by exists [], id, l.
  - intros (l1 & id1 & l2 & -> & Hh & ->)%IH. by exists ((id, b') :: l1), id1, l2.
Qed.

Lemma from_element_app (l1 l2 : Set_) e : e.1 ∉ l1.*1 -> from_element e.1 (l1 ++ e :: l2) = Some (e :: l2).
Proof.
  induction l1 as [|x l1 IH]; cbn; [by rewrite Nat.eqb_refl|]. intros [Hx Hl]%not_elem_of_cons.
  rewrite (proj2 (Nat.eqb_neq x.1 e.1)) by done. by apply IH.
Qed.

(** A session that runs, as it is whenever a thread waits. *)
Definition session_runs (s : Session) : Prop := _isRunning s = true /\ is_Some (_interpreter s).

Lemma carry_on_same s : session_runs s -> carry_on s = s.
Proof.
  unfold carry_on, debugStep, debugResume. destruct s as [st at_ en ru [i|] bs n sk]; intros [Hr [? Hi]]; cbn in *; [|done].
  subst. by destruct st.
Qed.

Definition reports (s : Session) (o : Outcome) (l : list Data) : Prop := forall n, stops (length l + n) s o = Some l.

Lemma reports_waiting s sent k o l : session_runs s -> resume s k = (o, s) -> reports s o l -> reports s (Waiting sent k) (sent :: l).
Proof. intros Hr Ho Hl n. cbn. by rewrite carry_on_same, Ho, Hl. Qed.

Section Callback.
Context (s : Session) (Hrun : session_runs s) (Hnd : NoDup (_breakPoints s).*1) (Hskip : Breakpoint_bool (_skipTo s) = false).

(** The rest of the loop over the set. *)
Lemma reports_next q q' b' rest out : reports s (check s rest) out -> forall l2 l1, _breakPoints s = l1 ++ l2 ->
  reports s (resume s (AtBreakpoint q rest (fst <$> head l2) (stop_data q' b'))).1 ((stop_reply q <$> hits q l2) ++ out).
Proof.
  intros Hout l2. remember (length l2) as n eqn:Hn. revert q' b' l2 Hn. induction (lt_wf n) as [n _ IH]. intros q' b' l2 -> l1 Hl.
  destruct l2 as [|e l2]; [done|]. cbn [head fmap option_fmap option_map DebugSession.resume].
  assert (Hfresh : e.1 ∉ l1.*1).
  { rewrite Hl, fmap_app in Hnd. apply NoDup_app in Hnd as (_ & Hd & _). intros Hin. apply (Hd _ Hin). left. }
  rewrite Hl, (from_element_app l1 l2 e) by done. destruct (scan (e :: l2) q) as [[b next]|] eqn:Hsc.
  - apply scan_some in Hsc as (l3 & id & l4 & E & -> & ->). rewrite stop_data_put. cbn [fst fmap list_fmap app].
    pose proof (IH (length l4)) as IH'. eapply reports_waiting; [done| |eapply (IH' _ q b l4 eq_refl (l1 ++ l3 ++ [(id, b)]))].
    + done.
    + by rewrite Hl, E, <- !app_assoc.
  - apply scan_none in Hsc. by rewrite Hsc.
  Unshelve. rewrite E, length_app. cbn. lia.
Qed.

Lemma reports_check qs : reports s (check s qs) (qs ≫= expected s).
Proof.
  induction qs as [|q qs IH]; [by intros []|]. cbn [DebugSession.check mbind list_bind]. rewrite Hskip. unfold expected at 1.
  destruct (scan (_breakPoints s) q) as [[b next]|] eqn:Hsc.
  - apply scan_some in Hsc as (l1 & id & l2 & E & -> & ->). cbn [fmap list_fmap app].
    eapply reports_waiting; [done| |eapply (reports_next q q b qs _ IH l2 (l1 ++ [(id, b)]))].
    + done.
    + by rewrite E, <- app_assoc.
  - apply scan_none in Hsc as ->. destruct (_isStepping s); [|done].
    eapply reports_waiting; [done| |exact IH]. done.
Qed.

End Callback.

(** C16: when the client goes on after every stop, a callback of a session stops
    at the enabled breakpoints that match, each of them once, for one
    qualified breakpoint after the other and in the order of the set; a
    session that is stepping also stops where nothing matches; and the
    callback returns. *)
Theorem callback_stops s qs :
  session_runs s -> NoDup (_breakPoints s).*1 -> Breakpoint_bool (_skipTo s) = false -> _breakpointsEnabled s = true ->
  let out := qs ≫= expected s in
  forall n, stops (length out + n) s (checkBreakpoints s qs) = Some out.
Proof. intros Hr Hnd Hsk He out. unfold DebugSession.checkBreakpoints. rewrite He. by apply reports_check. Qed.

(** A condition only has to be evaluated: with the negation of every
    condition the same breakpoints match. *)
Theorem conditions_negated (self other : Breakpoint) :
  matches (fun e => negb <$> isTrue e) self other = matches isTrue self other.
Proof. unfold matches. destruct (isTrue (condition self)) as [[]|]; done. Qed.

(** *** Commands while the thread waits *)

Lemma check_same s1 s2 qs : _skipTo s1 = _skipTo s2 -> _breakPoints s1 = _breakPoints s2 -> _isStepping s1 = _isStepping s2 ->
  check s1 qs = check s2 qs.
Proof. intros H1 H2 H3. induction qs as [|q qs IH]; cbn; [done|]. by rewrite H1, H2, H3, IH. Qed.

(** A breakpoint to skip to is lost when it is given while the thread waits
    at the last such breakpoint: the thread goes on as without it. *)
Theorem skip_replaced data s rest :
  let s' := (skipToBreakPoint data s).1.2 in
  (resume s' (AtSkip rest)).1 = (resume s (AtSkip rest)).1 /\ _skipTo (resume s' (AtSkip rest)).2 = Breakpoint_default.
Proof.
  split; [|done]. cbn. apply check_same; [done|..]; unfold skipToBreakPoint; cbn; by destruct (_interpreter s).
Qed.

Lemma check_waits s qs : check s qs <> Dangling.
Proof. induction qs as [|q qs IH]; cbn; [done|]. by repeat case_match. Qed.

Lemma from_element_none id (l : Set_) : from_element id l = None <-> id ∉ l.*1.
Proof.
  induction l as [|x l IH]; cbn; [split; [by intros _ ?%elem_of_nil|done]|].
  rewrite not_elem_of_cons. destruct (Nat.eqb_spec x.1 id) as [->|Hne]; [split; [done|intuition]|]. rewrite IH. intuition.
Qed.

Lemma resume_dangling s q rest id reply :
  (resume s (AtBreakpoint q rest (Some id) reply)).1 = Dangling <-> id ∉ (_breakPoints s).*1.
Proof.
  rewrite <- from_element_none. cbn. destruct (from_element id (_breakPoints s)) as [l|]; [|done].
  split; [|done]. case_match; [by case_match|]. by intros ?%check_waits.
Qed.

Context (address : Blob -> Z).

Lemma ids_insert id b (s : Set_) x : x ∈ (set_insert address xpath (id, b) s).*1 <-> x = id \/ x ∈ s.*1.
Proof.
  rewrite !list_elem_of_fmap. split.
  - intros (e & -> & [->|He]%elem_of_insert); [by left|right; by exists e].
  - intros [->|(e & -> & He)]; [exists (id, b)|exists e]; rewrite elem_of_insert; auto.
Qed.

Lemma ids_erase id (s : Set_) x : x ∈ (set_erase id s).*1 <-> x <> id /\ x ∈ s.*1.
Proof.
  rewrite !list_elem_of_fmap. split.
  - intros (e & -> & [He Hne]%elem_of_erase). split; [done|by exists e].
  - intros [Hne (e & -> & He)]. exists e. by rewrite elem_of_erase.
Qed.

Lemma ids_enable id v (s : Set_) : (set_enable id v s).*1 = s.*1.
Proof. unfold set_enable. induction s as [|x s IH]; [done|]. cbn [fmap list_fmap] in *. rewrite IH. by case_match. Qed.

(** A command that the client sends while the thread waits at a breakpoint
    leaves the thread with a dangling iterator if and only if it removes the
    breakpoint that comes next. *)
Theorem waiting_iterator c s q rest id reply : id ∈ (_breakPoints s).*1 ->
  (resume (run_command xpath address c s).2 (AtBreakpoint q rest (Some id) reply)).1 = Dangling <->
  exists data, c = Remove data /\ fst <$> set_find address xpath (Breakpoint_of data) (_breakPoints s) = Some id.
Proof.
  intros Hin. rewrite resume_dangling.
  destruct c as [data|data|data|data]; cbn [run_command];
    unfold addBreakPoint, removeBreakPoint, enableBreakPoint, disableBreakPoint, switchBreakPoint;
    destruct (set_find address xpath (Breakpoint_of data) (_breakPoints s)) as [[id' b]|] eqn:Hf;
    cbn [snd _breakPoints set_breakPoints set_nextId]; rewrite ?ids_enable, ?ids_insert, ?ids_erase;
    try (split; [intros Hn; destruct Hn; auto|intros (? & [=] & _)]; done).
  - split.
    + intros Hn. exists data. rewrite Hf. cbn. split; [done|]. f_equal. destruct (decide (id = id')); [done|]. by destruct Hn.
    + intros (? & [= <-] & E). rewrite Hf in E. cbn in E. intros [Hne _]. congruence.
  - split; [done|]. intros (? & [= <-] & E). by rewrite Hf in E.
Qed.

(** *** Stopping *)

(** Nothing more to stop at. *)
Definition quiet (s : Session) (rest : list Breakpoint) : Prop :=
  forall q, q ∈ rest -> hits q (_breakPoints s) = [] /\ _isStepping s = false.

Lemma check_returns s rest : Breakpoint_bool (_skipTo s) = false ->
  (quiet s rest /\ check s rest = Returned) \/ (~ quiet s rest /\ exists sent k, check s rest = Waiting sent k).
Proof.
  intros Hskip. induction rest as [|q rest IH]; [left; split; [by intros q ?%elem_of_nil|done]|].
  cbn [DebugSession.check]. rewrite Hskip.
  assert (Hq : quiet s (q :: rest) <-> (hits q (_breakPoints s) = [] /\ _isStepping s = false) /\ quiet s rest).
  { unfold quiet. split; [intros Hq; split; [apply Hq; left|intros; apply Hq; by right]|intros [Hq Hr] q' [->|Hin]%elem_of_cons; auto]. }
  rewrite Hq, <- scan_none. destruct (scan (_breakPoints s) q) as [[b next]|]; [right; split; [intros [[? _] _]; done|eauto]|].
  destruct (_isStepping s); [right; split; [intros [[_ ?] _]; done|eauto]|]. destruct IH as [[? ?]|[? ?]]; [left|right]; intuition.
Qed.

(** C29: stopping a session whose thread waits at a breakpoint returns if and
    only if the callback has nothing more to stop at: no later breakpoint
    matches, and the qualified breakpoints that are left neither match nor
    are stepped to. Otherwise the thread that is joined waits again, forever. *)
Theorem stop_returns s d q rest l1 l2 reply :
  NoDup (_breakPoints s).*1 -> _breakPoints s = l1 ++ l2 -> Breakpoint_bool (_skipTo s) = false -> _isRunning s = true ->
  let stopped := debugStop xpath isTrue configuration (Paused (AtBreakpoint q rest (fst <$> head l2) reply)) s d in
  let d' := match _interpreter s with Some impl => detachSession impl d | None => d end in
  (hits q l2 = [] /\ quiet s rest ->
   stopped = Stopped success (set_interpreter None (set_skipTo Breakpoint_default (set_running false s))) d') /\
  (~ (hits q l2 = [] /\ quiet s rest) -> stopped = Never).
Proof.
  intros Hnd Hl Hskip Hrun. cbn zeta. unfold debugStop. rewrite Hrun.
  assert (Hcheck : (quiet s rest /\ check (set_running false s) rest = Returned) \/
    (~ quiet s rest /\ exists sent k, check (set_running false s) rest = Waiting sent k)) by exact (check_returns (set_running false s) rest Hskip).
  cbn [DebugSession.resume _breakPoints set_running]. destruct l2 as [|e l2]; cbn [head fmap option_fmap option_map].
  - destruct Hcheck as [[Hq ->]|[Hq (sent & k & ->)]]; (split; [done|intros Hn; by destruct Hn]) || (split; [by intros [_ ?]|done]).
  - rewrite Hl, from_element_app; [|rewrite Hl, fmap_app in Hnd; apply NoDup_app in Hnd as (_ & Hd & _); intros Hin; apply (Hd _ Hin); left].
    rewrite <- scan_none. destruct (scan (e :: l2) q) as [[b next]|]; [split; [by intros [? _]|done]|].
    destruct Hcheck as [[Hq ->]|[Hq (sent & k & ->)]]; (split; [done|intros Hn; by destruct Hn]) || (split; [by intros [_ ?]|done]).
Qed.

End Stops.

(** ** A session *)

Definition traffic_doc : list row := rows
  (Xml "scxml" [] [] [Xml "state" [("id", "red")] [] []; Xml "state" [("id", "green")] [] []]).
#[local] Instance traffic_dom : DomOps nat := table_dom traffic_doc.
#[local] Existing Instance ascii_boost.

(** Elements are told apart by their number, every condition has a value. *)
Definition element_path (n : nat) : string := if n =? 0 then "/scxml" else if n =? 1 then "/scxml/state[1]" else "/scxml/state[2]".
Definition no_value (_ : string) : option bool := Some false.

(** Breakpoints as a client sends them. *)
Definition on_enter (state : string) : Data :=
  put_atom "subject" "state" (put_atom "when" "before" (put_atom "action" "enter" (put_given "stateId" state Data_empty))).

Definition traffic_commands : list Command := [Add (on_enter "red"); Add (on_enter ""); Add (on_enter "red"); Disable (on_enter ""); Remove (on_enter "green")].

Lemma breakpoints_refine_table_witness :
  let '(replies, s) := run_all (run_command (node := nat) element_path some_address) traffic_commands new_Session in
  (fun r => d_atom (Data_at r "status")) <$> replies = ["success"; "success"; "failure"; "success"; "failure"]%string /\
  table element_path some_address (_breakPoints s) (Breakpoint_of (on_enter "")) = Some false.
Proof.
  pose proof (breakpoints_refine_table (node := nat) element_path some_address traffic_commands) as H.
  destruct (run_all (run_command element_path some_address) traffic_commands new_Session) as [replies s].
  destruct (run_all table_command traffic_commands (fun _ => None)) as [replies' t] eqn:E.
  destruct H as (-> & _ & H). rewrite H by done. vm_compute in E. injection E as <- <-. split; by vm_compute.
Defined.

(** Two breakpoints, of which both match when the state red is entered. *)
Definition traffic_session : Session (node := nat) :=
  set_interpreter (Some 1%positive) (set_running true
    (run_all (run_command element_path some_address) [Add (on_enter "red"); Add (on_enter "")] new_Session).2).

Definition entering (state : nat) : list (Breakpoint nat) := getQualifiedStateBreakpoints state (template BEFORE ENTER).

Lemma callback_stops_witness :
  length <$> stops element_path no_value [] 2 traffic_session (checkBreakpoints element_path no_value [] traffic_session (entering 1)) = Some 2 /\
  length <$> stops element_path no_value [] 1 traffic_session (checkBreakpoints element_path no_value [] traffic_session (entering 2)) = Some 1.
Proof.
  split.
  - rewrite (callback_stops element_path no_value [] traffic_session (entering 1)) with (n := 0); [by vm_compute|by vm_compute; eauto| |by vm_compute..].
    apply (bool_decide_eq_true_1 _). by vm_compute.
  - rewrite (callback_stops element_path no_value [] traffic_session (entering 2)) with (n := 0); [by vm_compute|by vm_compute; eauto| |by vm_compute..].
    apply (bool_decide_eq_true_1 _). by vm_compute.
Defined.

(** The thread waits at the first of them. *)
Definition at_first : Cursor (node := nat) :=
  match checkBreakpoints element_path no_value [] traffic_session (entering 1) with
  | Waiting _ k => k
  | _ => AtStep []
  end.

Lemma waiting_iterator_witness :
  (resume element_path no_value [] (removeBreakPoint some_address element_path (on_enter "red") traffic_session).2 at_first).1 = Dangling /\
  (resume element_path no_value [] (disableBreakPoint some_address element_path (on_enter "red") traffic_session).2 at_first).1 = Returned.
Proof.
  split; [|by vm_compute].
  destruct at_first as [|q rest [id|] reply|] eqn:E; try (by vm_compute in E).
  vm_compute in E. injection E as <- <- <- <-.
  eapply (waiting_iterator element_path no_value [] some_address (Remove (on_enter "red")) traffic_session).
  - apply (bool_decide_eq_true_1 _). by vm_compute.
  - exists (on_enter "red"). split; [done|by vm_compute].
Defined.

Lemma stop_returns_witness :
  debugStop element_path no_value [] (Paused at_first) traffic_session ∅ = Never /\
  exists r s d, debugStop element_path no_value [] (Paused at_first)
    (disableBreakPoint some_address element_path (on_enter "red") traffic_session).2 ∅ = Stopped r s d.
Proof.
  split; [|vm_compute; eauto].
  destruct at_first as [|q rest next reply|] eqn:E; try (by vm_compute in E).
  assert (Hn : next = fst <$> head (drop 1 (_breakPoints traffic_session))) by (vm_compute in E |- *; congruence).
  rewrite Hn. apply (stop_returns element_path no_value [] traffic_session ∅ q rest (take 1 (_breakPoints traffic_session)) (drop 1 (_breakPoints traffic_session)) reply).
  - apply (bool_decide_eq_true_1 _). by vm_compute.
  - done.
  - by vm_compute.
  - done.
  - vm_compute in E. injection E as <- _ _ _. intros [Hh _]. by vm_compute in Hh.
Defined.

(** The session forgets a breakpoint to skip to that is given while it waits at
    the last one, stepping or not. *)
Example second_skip_lost :
  let s := (skipToBreakPoint (on_enter "red") traffic_session).1.2 in
  match checkBreakpoints element_path no_value [] s (entering 1) with
  | Waiting _ k =>
      let s := (skipToBreakPoint (on_enter "green") s).1.2 in
      let '(o, s) := resume element_path no_value [] s k in o = Returned /\ _skipTo s = Breakpoint_default
  | _ => False
  end.
Proof. by vm_compute. Qed.
