(* ===== verification/DebuggerServlet.v ===== *)
(** * The debugger's server: [debug/DebuggerServlet]

    The servlet answers HTTP requests by running the commands of debug
    sessions, and keeps what the sessions push until a client polls for it.
    Messages are pushed by the threads of the interpreters and polled for by
    that of the server, without a lock: their calls are a relation of
    interleaved statements, and [messages_delivered] holds of all of them. The
    handling of a request is given as it runs when nothing interrupts it. The
    HTTP server is not modelled: a request is its number and its data, and
    what is replied is collected in order. *)

From stdpp Require Import base list gmap strings.
From S2P Require Import Prelude Strings Dom Predicates Data DataOrder Issue Breakpoint DebugSession.

Local Open Scope nat_scope.

(** [boost::starts_with] and [boost::istarts_with] are not part of the sources. *)
Class BoostPrefix := {
  starts_with : string -> string -> bool;
  istarts_with : string -> string -> bool;
}.

(** ** Requests and commands *)

Record Request := mkRequest { req_id : positive; req_data : Data }.

Inductive Reply := Json (content : Data) | Cors (headers : list (string * string)).

Inductive SessionCommand :=
| GetIssues | EnableAll | DisableAll | SkipTo | AddOne | RemoveOne | EnableOne | DisableOne
| Stop_ | Prepare | Attach | Start | Step | Pause | Resume | Evaluate.

Section Servlet.
Context {node : Type} `{!EqDecision node} {D : DomOps node} `{BoostString} `{BoostPrefix}.
Context (address : Blob -> Z) (xpath : node -> string) (session_address : nat -> Z).
Notation Session := (Session (node := node)).

(** The command of a path; "/debug/poll" and "/debug/disconnect" come before. *)
Definition route (path : string) : option SessionCommand :=
  if starts_with path "/debug/issues" then Some GetIssues
  else if starts_with path "/debug/breakpoint/enable/all" then Some EnableAll
  else if starts_with path "/debug/breakpoint/disable/all" then Some DisableAll
  else if starts_with path "/debug/breakpoint/skipto" then Some SkipTo
  else if starts_with path "/debug/breakpoint/add" then Some AddOne
  else if starts_with path "/debug/breakpoint/remove" then Some RemoveOne
  else if starts_with path "/debug/breakpoint/enable" then Some EnableOne
  else if starts_with path "/debug/breakpoint/disable" then Some DisableOne
  else if starts_with path "/debug/stop" then Some Stop_
  else if starts_with path "/debug/prepare" then Some Prepare
  else if starts_with path "/debug/attach" then Some Attach
  else if starts_with path "/debug/start" then Some Start
  else if starts_with path "/debug/step" then Some Step
  else if starts_with path "/debug/pause" then Some Pause
  else if starts_with path "/debug/resume" then Some Resume
  else if starts_with path "/debug/eval" then Some Evaluate
  else None.

(** ** The servlet *)

(** Sessions are named by a number; a session is shared, so that they are kept
    in a store. The keys of the queues and of the requests are pointers to
    sessions, [None] for the null pointer; a key that is bound to an empty
    request is one that is not bound. [answered] is what the server has sent. *)
Record Servlet := mkServlet {
  _sessionForId : gmap string nat;
  _sendQueues : gmap (option nat) (list Data);
  _clientConns : gmap (option nat) Request;
  store : gmap nat Session;
  _sessionForInterpreter : Debugger;
  next_session : nat;
  answered : list (positive * Reply);
}.

Definition set_ids v s := mkServlet v (_sendQueues s) (_clientConns s) (store s) (_sessionForInterpreter s) (next_session s) (answered s).
Definition set_queues v s := mkServlet (_sessionForId s) v (_clientConns s) (store s) (_sessionForInterpreter s) (next_session s) (answered s).
Definition set_conns v s := mkServlet (_sessionForId s) (_sendQueues s) v (store s) (_sessionForInterpreter s) (next_session s) (answered s).
Definition set_store v s := mkServlet (_sessionForId s) (_sendQueues s) (_clientConns s) v (_sessionForInterpreter s) (next_session s) (answered s).
Definition set_debugger v s := mkServlet (_sessionForId s) (_sendQueues s) (_clientConns s) (store s) v (next_session s) (answered s).
Definition set_next v s := mkServlet (_sessionForId s) (_sendQueues s) (_clientConns s) (store s) (_sessionForInterpreter s) v (answered s).
Definition reply (r : Request) (a : Reply) (s : Servlet) : Servlet :=
  mkServlet (_sessionForId s) (_sendQueues s) (_clientConns s) (store s) (_sessionForInterpreter s) (next_session s) (answered s ++ [(req_id r, a)]).

Definition new_Servlet : Servlet := mkServlet ∅ ∅ ∅ ∅ ∅ 0 [].

(** [returnData]: a reply without a status is a success. *)
Definition with_status (d : Data) : Data :=
  if hasKey d "status" then d else Data_put "status" (Data_atom "success" VERBATIM) d.
Definition returnData (r : Request) (d : Data) (s : Servlet) : Servlet := reply r (Json (with_status d)) s.

(** ** Messages for the client

    [pushData] runs on the threads of the interpreters and the handler of a
    poll on that of the server, at the same time and without a lock. A call
    is therefore the statement it has come to, and goes on statement by
    statement. A queue is locked by each of its operations; that an access to
    one of the maps is not torn is assumed. *)

Inductive Call :=
| Push (session : option nat) (d : Data)
| Poll (session : nat) (r : Request)
(* the statements of [serverPushData] *)
| AtEmpty (session : option nat)
| AtClient (session : option nat)
| AtPop (session : option nat)
| AtReply (session : option nat) (d : Data)
| AtClear (session : option nat).

(** What a statement does to the messages: one given by a caller with or
    without a session is queued, or dropped; a poll is noted; a message is
    taken from its queue; it is handed to a request, which may be empty. *)
Inductive Delivery :=
| Queued (caller session : option nat) (d : Data)
| Dropped (d : Data)
| Polled (session : nat) (r : Request)
| Popped (session : option nat) (d : Data)
| Handed (session : option nat) (r : option Request) (d : Data).

Definition queue_of (session : option nat) (s : Servlet) : list Data := default [] (_sendQueues s !! session).
Definition put_queue (session : option nat) (queue : list Data) (s : Servlet) : Servlet :=
  set_queues (<[session := queue]> (_sendQueues s)) s.

(** Pointers are ordered by address, the null pointer first. *)
Definition pointer_before (x y : option nat) : bool :=
  match x, y with
  | None, None => false
  | None, Some _ => true
  | Some _, None => false
  | Some x, Some y => (session_address x <? session_address y)%Z
  end.

(** [_sendQueues.begin()] *)
Definition begin_queue (s : Servlet) : option (option nat) :=
  foldr (fun key best =>
      match best with
      | None => Some key
      | Some b => if pointer_before key b then Some key else Some b
      end) None ((map_to_list (_sendQueues s)).*1).

(** The statement a call has come to: what it does, and where the call goes
    on, unless it returns. [None] when it waits: an empty queue is not popped. *)
Definition call_step (c : Call) (s : Servlet) : option (list Delivery * option Call * Servlet) :=
  match c with
  | Push None d =>
      match begin_queue s with
      | None => Some ([Dropped d], Some (AtEmpty None), s)
      | Some key => Some ([Queued None key d], Some (AtEmpty None), put_queue key (queue_of key s ++ [d]) s)
      end
  | Push (Some name) d =>
      Some ([Queued (Some name) (Some name) d], Some (AtEmpty (Some name)), put_queue (Some name) (queue_of (Some name) s ++ [d]) s)
  | Poll name r =>
      Some ([Polled name r], Some (AtEmpty (Some name)), set_conns (<[Some name := r]> (_clientConns s)) s)
  | AtEmpty session =>
      let queue := queue_of session s in
      Some ([], match queue with [] => None | _ => Some (AtClient session) end, put_queue session queue s)
  | AtClient session =>
      Some ([], match _clientConns s !! session with None => None | Some _ => Some (AtPop session) end, s)
  | AtPop session =>
      match queue_of session s with
      | [] => None
      | d :: queue => Some ([Popped session d], Some (AtReply session d), put_queue session queue s)
      end
  | AtReply session d =>
      let r := _clientConns s !! session in
      Some ([Handed session r d], Some (AtClear session), match r with Some r => returnData r d s | None => s end)
  | AtClear session => Some ([], None, set_conns (delete session (_clientConns s)) s)
  end.

(** A call that nothing interrupts. *)
Fixpoint run (fuel : nat) (c : Call) (s : Servlet) : option Servlet :=
  match fuel with
  | 0 => None
  | S fuel =>
      match call_step c s with
      | Some (_, Some c, s) => run fuel c s
      | Some (_, None, s) => Some s
      | None => None
      end
  end.

Definition serverPushData (session : option nat) : Servlet -> option Servlet := run 5 (AtEmpty session).
Definition pushData (session : option nat) (d : Data) : Servlet -> option Servlet := run 6 (Push session d).
Definition poll (session : nat) (r : Request) : Servlet -> option Servlet := run 6 (Poll session r).

(** [Debugger::afterCompletion] *)
Definition afterCompletion (impl : Interpreter) (s : Servlet) : option Servlet :=
  match getSession impl (_sessionForInterpreter s) with
  | Some session => pushData (Some session) (Data_put "replyType" (Data_atom "finished" VERBATIM) Data_empty) s
  | None => Some s
  end.

(** ** Requests *)

(** What the commands find in the interpreters and their threads. *)
Record Surroundings := mkSurroundings {
  isTrue_ : nat -> string -> option bool;
  configuration_ : nat -> list node;
  thread_ : nat -> Thread (node := node);
  create_ : Data -> option Interpreter;
  (* the address, session id, name and base URL of an instance *)
  instances_ : list (Interpreter * (string * string * string));
  document_ : Interpreter -> option positive;
  issues_ : nat -> list (InterpreterIssue.Issue node * string);
  has_datamodel_ : nat -> bool;
  getAsData_ : nat -> string -> Data + (Data * string);
}.

Section Requests.
Context (env : Surroundings).

Definition session_ids : list (Interpreter * string) := (fun i => (i.1, i.2.1.1)) <$> instances_ env.

(** A command of a session: its reply, unless it never returns or is undefined. *)
Definition session_command (c : SessionCommand) (name : nat) (content : Data) (s : Session) (d : Debugger) :
    option (Data * Session * Debugger) :=
  let stopped r := match r with Stopped reply s d => Some (reply, s, d) | Never | StopUndefined => None end in
  match c with
  | GetIssues => Some (getIssues (issues_ env name), s, d)
  | EnableAll => Some (enableAllBreakPoints s, d)
  | DisableAll => Some (disableAllBreakPoints s, d)
  | SkipTo => Some ((skipToBreakPoint content s).1, d)
  | AddOne => Some (addBreakPoint address xpath content s, d)
  | RemoveOne => Some (removeBreakPoint address xpath content s, d)
  | EnableOne => Some (enableBreakPoint address xpath content s, d)
  | DisableOne => Some (disableBreakPoint address xpath content s, d)
  | Stop_ => stopped (debugStop xpath (isTrue_ env name) (configuration_ env name) (thread_ env name) s d)
  | Prepare => stopped (debugPrepare xpath (create_ env content) (isTrue_ env name) (configuration_ env name) name content (thread_ env name) s d)
  | Attach => Some (debugAttach session_ids (document_ env) name content s d)
  | Start => Some ((debugStart s).1, d)
  | Step => Some ((debugStep s).1, d)
  | Pause => Some ((debugPause s).1, d)
  | Resume => Some ((debugResume s).1, d)
  | Evaluate => Some (debugEval (has_datamodel_ env name) (getAsData_ env name) content s, s, d)
  end.

Definition isCORS (data : Data) : bool :=
  String.eqb (d_atom (Data_at data "type")) "options" && hasKey (Data_at data "header") "Origin" &&
  hasKey (Data_at data "header") "Access-Control-Request-Method".

Definition handleCORS (r : Request) (s : Servlet) : Servlet :=
  let header := Data_at (req_data r) "header" in
  let given key name := if hasKey header key then [(name, d_atom (Data_at header key))] else [] in
  reply r (Cors
    ((if hasKey header "Origin" then given "Origin"%string "Access-Control-Allow-Origin"%string
      else [("Access-Control-Allow-Origin", "*")%string]) ++
     given "Access-Control-Request-Method"%string "Access-Control-Allow-Methods"%string ++
     given "Access-Control-Request-Headers"%string "Access-Control-Allow-Headers"%string)) s.

(** The uuid of the new session is made by the platform. *)
Definition processConnect (uuid : string) (r : Request) (s : Servlet) : Servlet :=
  let name := next_session s in
  returnData r (put_atom "status" "success" (put_atom "session" uuid Data_empty))
    (set_next (S name) (set_store (<[name := new_Session]> (store s)) (set_ids (<[uuid := name]> (_sessionForId s)) s))).

Definition processListSessions (r : Request) (s : Servlet) : Servlet :=
  let session_data (i : Interpreter * (string * string * string)) :=
    let '(impl, (id, name, url)) := i in
    Data_put "xml" (mkData [] [] "" (document_ env impl) None INTERPRETED)
      (put_atom "source" url (put_atom "id" id (put_atom "name" name Data_empty))) in
  let data := foldl (fun reply '(index, i) =>
      let entry := Data_at reply "sessions" in
      Data_put "sessions" (set_array (map_insert Z.compare index (session_data i) (d_array entry)) entry) reply)
    Data_empty (imap (fun index i => (Z.of_nat index, i)) (instances_ env)) in
  returnData r (put_atom "status" "success" data) s.

(** The session is known here; the stopped session is destroyed with its
    queue and with the request that waits for it. *)
Definition processDisconnect (id : string) (name : nat) (session : Session) (r : Request) (s : Servlet) : option Servlet :=
  let d := match _interpreter session with Some impl => detachSession impl (_sessionForInterpreter s) | None => _sessionForInterpreter s end in
  match debugStop xpath (isTrue_ env name) (configuration_ env name) (thread_ env name) session d with
  | Stopped _ _ d =>
      Some (returnData r success
        (set_ids (delete id (_sessionForId s)) (set_queues (delete (Some name) (_sendQueues s)) (set_conns (delete (Some name) (_clientConns s))
          (set_store (delete name (store s)) (set_debugger d s))))))
  | Never | StopUndefined => None
  end.

(** Whether the request was handled, and the servlet afterwards; [None] when
    the command never returns. *)
Definition requestFromHTTP (uuid : string) (r : Request) (s : Servlet) : option (bool * Servlet) :=
  let data := req_data r in
  if negb (hasKey data "path") then Some (false, s)
  else if isCORS data then Some (true, handleCORS r s)
  else
    let path := d_atom (Data_at data "path") in
    if istarts_with path "/debug/connect" then Some (true, processConnect uuid r s)
    else if starts_with path "/debug/sessions" then Some (true, processListSessions r s)
    else
      let content := Data_at data "content" in
      if negb (hasKey content "session") then Some (true, returnData r (failed_with "No session given") s)
      else
        let id := d_atom (Data_at content "session") in
        match _sessionForId s !! id with
        | None => Some (true, returnData r (failed_with "No such session") s)
        | Some name =>
            let session := default new_Session (store s !! name) in
            if starts_with path "/debug/poll" then pair true <$> poll name r s
            else if starts_with path "/debug/disconnect" then pair true <$> processDisconnect id name session r s
            else
              match route path with
              | None => Some (true, s)
              | Some c =>
                  '(reply, session, d) ← session_command c name content session (_sessionForInterpreter s);
                  Some (true, returnData r reply (set_debugger d (set_store (<[name := session]> (store s)) s)))
              end
        end.

End Requests.

(** ** Delivery

    Calls begin at any time, or only when no other one runs, and those that
    run go on in any order. *)

Definition begins (c : Call) : bool := match c with Push _ _ | Poll _ _ => true | _ => false end.

Inductive proceeds (overlap : bool) : list Call * Servlet -> list Delivery -> list Call * Servlet -> Prop :=
| call_begins c calls s :
    begins c = true -> overlap = true \/ calls = [] -> proceeds overlap (calls, s) [] (calls ++ [c], s)
| call_goes_on before c after s es c' s' :
    call_step c s = Some (es, c', s') ->
    proceeds overlap (before ++ c :: after, s) es (before ++ option_list c' ++ after, s').

Inductive execution (overlap : bool) : list Delivery -> list Call * Servlet -> Prop :=
| at_start : execution overlap [] ([], new_Servlet)
| goes_on tr x es y : execution overlap tr x -> proceeds overlap x es y -> execution overlap (tr ++ es) y.

(** What an execution did to the messages of a session. *)
Section Session.
Context (session : option nat).

Definition queued (tr : list Delivery) : list Data :=
  omap (fun e => match e with Queued _ k d => if decide (k = session) then Some d else None | _ => None end) tr.
Definition popped (tr : list Delivery) : list Data :=
  omap (fun e => match e with Popped k d => if decide (k = session) then Some d else None | _ => None end) tr.
Definition handed (tr : list Delivery) : list (option Request * Data) :=
  omap (fun e => match e with Handed k r d => if decide (k = session) then Some (r, d) else None | _ => None end) tr.
Definition polled (tr : list Delivery) : list Request :=
  omap (fun e => match e with Polled k r => if decide (Some k = session) then Some r else None | _ => None end) tr.

(** The messages that calls have taken and not handed over yet. *)
Definition held (calls : list Call) : list Data :=
  omap (fun c => match c with AtReply k d => if decide (k = session) then Some d else None | _ => None end) calls.

(** A call that works on the queue of the session. *)
Definition serves (c : Call) : Prop :=
  match c with
  | Push _ _ | Poll _ _ => False
  | AtEmpty k | AtClient k | AtPop k | AtReply k _ | AtClear k => k = session
  end.

Lemma queued_app tr es : queued (tr ++ es) = queued tr ++ queued es. Proof. apply omap_app. Qed.
Lemma popped_app tr es : popped (tr ++ es) = popped tr ++ popped es. Proof. apply omap_app. Qed.
Lemma handed_app tr es : handed (tr ++ es) = handed tr ++ handed es. Proof. apply omap_app. Qed.
Lemma polled_app tr es : polled (tr ++ es) = polled tr ++ polled es. Proof. apply omap_app. Qed.
Lemma held_app l l' : held (l ++ l') = held l ++ held l'. Proof. apply omap_app. Qed.
End Session.

(** The replies of an execution. *)
Definition replies (tr : list Delivery) : list (positive * Reply) :=
  omap (fun e => match e with Handed _ (Some r) d => Some (req_id r, Json (with_status d)) | _ => None end) tr.

Lemma queue_of_put session k q s : queue_of session (put_queue k q s) = if decide (k = session) then q else queue_of session s.
Proof. unfold queue_of. cbn. case_decide as Hk; [subst; by rewrite lookup_insert_eq|by rewrite lookup_insert_ne]. Qed.

(** A statement moves messages: from the caller to the queue, to the call, to
    a request. *)
Lemma statement_moves session c s es c' s' : call_step c s = Some (es, c', s') ->
  queue_of session s ++ queued session es = popped session es ++ queue_of session s' /\
  held session [c] ++ popped session es = (handed session es).*2 ++ held session (option_list c').
Proof.
  destruct c as [[name|] d|name r|k|k|k|k d|k]; cbn [call_step]; cbv zeta.
  - intros [= <- <- <-]. rewrite queue_of_put. cbn. case_decide as Hk; [subst|]; cbn; by rewrite ?app_nil_r.
  - destruct (begin_queue s) as [k|]; intros [= <- <- <-]; rewrite ?queue_of_put; cbn; [|by rewrite app_nil_r].
    case_decide as Hk; [subst|]; cbn; by rewrite ?app_nil_r.
  - intros [= <- <- <-]. cbn. by rewrite app_nil_r.
  - intros [= <- <- <-]. rewrite queue_of_put. cbn. rewrite app_nil_r. split; [by case_decide; subst|by destruct (queue_of k s)].
  - intros [= <- <- <-]. cbn. rewrite app_nil_r. split; [done|by destruct (_clientConns s !! k)].
  - destruct (queue_of k s) as [|d q] eqn:Hq; [done|]. intros [= <- <- <-]. rewrite queue_of_put. cbn. rewrite app_nil_r.
    case_decide as Hk; [subst; by rewrite Hq|done].
  - intros [= <- <- <-]. cbn. rewrite app_nil_r. split; [by destruct (_clientConns s !! k)|by case_decide].
  - intros [= <- <- <-]. cbn. by rewrite app_nil_r.
Qed.

(** Replies go to requests of polls. *)
Lemma statement_replies session c s es c' s' : call_step c s = Some (es, c', s') ->
  answered s' = answered s ++ replies es /\
  (forall r, _clientConns s' !! session = Some r -> _clientConns s !! session = Some r \/ r ∈ polled session es) /\
  (forall r d, (r, d) ∈ handed session es -> r = _clientConns s !! session).
Proof.
  destruct c as [[name|] d|name r|k|k|k|k d|k]; cbn [call_step]; cbv zeta.
  - intros [= <- <- <-]. cbn. rewrite app_nil_r. split_and!; auto. by intros ? ? ?%elem_of_nil.
  - destruct (begin_queue s) as [k|]; intros [= <- <- <-]; cbn; rewrite app_nil_r; (split_and!; auto; by intros ? ? ?%elem_of_nil).
  - intros [= <- <- <-]. cbn. rewrite app_nil_r. split_and!; [done| |by intros ? ? ?%elem_of_nil].
    intros r'. case_decide as Hk; [subst; rewrite lookup_insert_eq; intros [= ->]; right; left|rewrite lookup_insert_ne by done; auto].
  - intros [= <- <- <-]. cbn. rewrite app_nil_r. split_and!; auto. by intros ? ? ?%elem_of_nil.
  - intros [= <- <- <-]. cbn. rewrite app_nil_r. split_and!; auto. by intros ? ? ?%elem_of_nil.
  - destruct (queue_of k s) as [|d q]; [done|]. intros [= <- <- <-]. cbn. rewrite app_nil_r. split_and!; auto. by intros ? ? ?%elem_of_nil.
  - intros [= <- <- <-]. split_and!.
    + cbn. by destruct (_clientConns s !! k); cbn; rewrite ?app_nil_r.
    + cbn. destruct (_clientConns s !! k); cbn; auto.
    + cbn. case_decide as Hk; [subst; by intros ? ? [= -> _]%list_elem_of_singleton|by intros ? ? ?%elem_of_nil].
  - intros [= <- <- <-]. cbn. rewrite app_nil_r. split_and!; [done| |by intros ? ? ?%elem_of_nil].
    intros r. destruct (decide (k = session)) as [->|]; [by rewrite lookup_delete_eq|rewrite lookup_delete_ne by done; auto].
Qed.

(** When a message and a request both wait afterwards, the call goes on to
    serve the session, or they waited before and it serves another one. *)
Lemma statement_attends session c s es c' s' : call_step c s = Some (es, c', s') ->
  (forall key d, Queued None key d ∉ es) -> queue_of session s' <> [] -> _clientConns s' !! session <> None ->
  (exists c'', c' = Some c'' /\ serves session c'') \/
  (~ serves session c /\ queue_of session s <> [] /\ _clientConns s !! session <> None).
Proof.
  destruct c as [[name|] d|name r|k|k|k|k d|k]; cbn [call_step]; cbv zeta.
  - intros [= <- <- <-] _. rewrite queue_of_put. cbn. case_decide as Hk; [subst; intros; left; by eexists|naive_solver].
  - destruct (begin_queue s) as [k|]; intros [= <- <- <-] Hn; [destruct (Hn k d); left|cbn; naive_solver].
  - intros [= <- <- <-] _. change (queue_of session (set_conns _ s)) with (queue_of session s). cbn.
    destruct (decide (Some name = session)) as [<-|]; [intros; left; by eexists|rewrite lookup_insert_ne by done; naive_solver].
  - intros [= <- <- <-] _. rewrite queue_of_put. cbn. case_decide as Hk; [subst|naive_solver].
    destruct (queue_of session s); [done|intros; left; by eexists].
  - intros [= <- <- <-] _ Hq Hc. destruct (decide (k = session)) as [->|]; [|naive_solver].
    destruct (_clientConns s !! session); [intros; left; by eexists|done].
  - destruct (queue_of k s) as [|d q] eqn:Hk; [done|]. intros [= <- <- <-] _. rewrite queue_of_put. cbn. case_decide; [subst; intros; left; by eexists|naive_solver].
  - intros [= <- <- <-] _. destruct (decide (k = session)) as [->|]; [intros; left; by eexists|]. right. destruct (_clientConns s !! k); naive_solver.
  - intros [= <- <- <-] _. change (queue_of session (set_conns _ s)) with (queue_of session s). cbn.
    destruct (decide (k = session)) as [->|]; [by rewrite lookup_delete_eq|rewrite lookup_delete_ne by done; naive_solver].
Qed.

(** A call that serves a session with a message does not wait. *)
Lemma serving_goes_on session c s : serves session c -> queue_of session s <> [] -> is_Some (call_step c s).
Proof. destruct c as [[?|] ?|? ?|?|?|?|? ?|?]; cbn; try done; intros ->; [eauto..|]. destruct (queue_of session s); [done|eauto]. Qed.

(** What holds of the messages of a session however its calls interleave. *)
Record accounted (session : option nat) (tr : list Delivery) (calls : list Call) (s : Servlet) : Prop := {
  in_order : queued session tr = popped session tr ++ queue_of session s;
  once : popped session tr ≡ₚ (handed session tr).*2 ++ held session calls;
  replied : answered s = replies tr;
  asked : forall r d, (Some r, d) ∈ handed session tr -> r ∈ polled session tr;
  asking : forall r, _clientConns s !! session = Some r -> r ∈ polled session tr;
  attended : (forall key d, Queued None key d ∉ tr) -> queue_of session s = [] \/ _clientConns s !! session = None \/
    exists c, c ∈ calls /\ serves session c;
}.

Lemma begins_serves session c : begins c = true -> held session [c] = [] /\ ~ serves session c.
Proof. destruct c; cbn; try done; auto. Qed.

Lemma execution_accounted overlap tr calls s session : execution overlap tr (calls, s) -> accounted session tr calls s.
Proof.
  intros Hrun. remember (calls, s) as x eqn:Hx. revert calls s Hx.
  induction Hrun as [|tr [calls s] es y Hex IH Hp]; intros calls' s' Hx.
  { injection Hx as <- <-. split; try done; [by intros ? ? ?%elem_of_nil|by left]. }
  subst y. specialize (IH _ _ eq_refl) as [Ho Hn Hr Ha Hk Hw]. inversion Hp as [c calls0 s0 Hb|before c after s0 es0 c' s1 Hst]; subst.
  - destruct (begins_serves session c Hb) as [Hh _]. rewrite app_nil_r. split; try done.
    + by rewrite held_app, Hh, app_nil_r.
    + intros Hnull. destruct (Hw Hnull) as [|[|(c' & Hin & Hc)]]; auto. right; right. exists c'. by rewrite elem_of_app; auto.
  - destruct (statement_moves session _ _ _ _ _ Hst) as [Hq Hd], (statement_replies session _ _ _ _ _ Hst) as (Hans & Hc & Hto).
    split.
    + rewrite queued_app, popped_app, Ho, <- !app_assoc. by f_equal.
    + rewrite popped_app, handed_app, fmap_app, Hn, !held_app.
      change (c :: after) with ([c] ++ after). rewrite held_app.
      transitivity ((handed session tr).*2 ++ (held session [c] ++ popped session es) ++ held session before ++ held session after); [solve_Permutation|].
      rewrite Hd. solve_Permutation.
    + unfold replies. rewrite omap_app. fold (replies tr) (replies es). by rewrite Hans, Hr.
    + intros r d. rewrite handed_app, polled_app, !elem_of_app. intros [Hin|Hin]; [eauto|]. left. eapply Hk. symmetry. by eapply Hto.
    + intros r Hin. rewrite polled_app, elem_of_app. destruct (Hc _ Hin); eauto.
    + intros Hnull.
      destruct (queue_of session s') eqn:Hq'; [auto|]. destruct (_clientConns s' !! session) eqn:Hc'; [|auto]. right; right.
      destruct (statement_attends session _ _ _ _ _ Hst) as [(c'' & -> & Hs)|(Hs & Hqs & Hcs)].
      * intros key d' Hin. apply (Hnull key d'), elem_of_app. auto.
      * by rewrite Hq'.
      * by rewrite Hc'.
      * exists c''. split; [|done]. rewrite !elem_of_app. right; left. left.
      * destruct Hw as [|[|(c'' & Hin & Hs')]]; [|done..|].
        { intros key d' Hin. apply (Hnull key d'), elem_of_app. auto. }
        exists c''. split; [|done]. rewrite elem_of_app, elem_of_cons in Hin. rewrite !elem_of_app. naive_solver.
Qed.

(** What holds in addition when no two calls run at the same time. *)
Definition undisturbed (c : Call) (s : Servlet) : Prop :=
  match c with AtPop k | AtReply k _ => is_Some (_clientConns s !! k) | _ => True end.

(** The request that a poll has left to be answered. *)
Definition unanswered (session : option nat) (calls : list Call) (s : Servlet) : list Request :=
  match calls with
  | [AtClear k] => if decide (k = session) then [] else option_list (_clientConns s !! session)
  | _ => option_list (_clientConns s !! session)
  end.

Definition in_turn (session : option nat) (tr : list Delivery) (calls : list Call) (s : Servlet) : Prop :=
  (calls = [] \/ exists c, calls = [c] /\ undisturbed c s) /\
  popped session tr = (handed session tr).*2 ++ held session calls /\
  exists rs, (handed session tr).*1 = Some <$> rs /\ sublist (rs ++ unanswered session calls s) (polled session tr).

Lemma statement_undisturbed c s es c' s' : call_step c s = Some (es, Some c', s') -> undisturbed c s -> undisturbed c' s'.
Proof.
  destruct c as [[name|] d|name r|k|k|k|k d|k]; cbn [call_step]; cbv zeta.
  - by intros [= <- <- <-].
  - destruct (begin_queue s); by intros [= <- <- <-].
  - by intros [= <- <- <-].
  - destruct (queue_of k s); by intros [= <- <- <-].
  - destruct (_clientConns s !! k) eqn:Hk; [|done]. intros [= <- <- <-] _. cbn. by rewrite Hk.
  - destruct (queue_of k s); by intros [= <- <- <-].
  - by intros [= <- <- <-].
  - by intros [= <- <- <-].
Qed.

(** A statement answers the request that is noted, or notes a new one. *)
Lemma statement_answers session c s es c' s' : call_step c s = Some (es, c', s') -> undisturbed c s ->
  exists rs, (handed session es).*1 = Some <$> rs /\
    sublist (rs ++ unanswered session (option_list c') s') (unanswered session [c] s ++ polled session es).
Proof.
  destruct c as [[name|] d|name r|k|k|k|k d|k]; cbn [call_step]; cbv zeta.
  - intros [= <- <- <-] _. exists []. by rewrite app_nil_r.
  - destruct (begin_queue s); intros [= <- <- <-] _; exists []; by rewrite app_nil_r.
  - intros [= <- <- <-] _. exists []. split; [done|]. cbn. case_decide as Hk; [subst; rewrite lookup_insert_eq|by rewrite lookup_insert_ne, app_nil_r].
    by apply sublist_inserts_l.
  - intros [= <- <- <-] _. exists []. split; [done|]. rewrite app_nil_r. by destruct (queue_of k s).
  - intros [= <- <- <-] _. exists []. split; [done|]. rewrite app_nil_r. by destruct (_clientConns s !! k).
  - destruct (queue_of k s); [done|]. intros [= <- <- <-] _. exists []. by rewrite app_nil_r.
  - intros [= <- <- <-] [r Hr]. cbn. rewrite Hr, app_nil_r. case_decide as Hk; [subst; exists [r]; by rewrite Hr|by exists []].
  - intros [= <- <- <-] _. exists []. split; [done|]. cbn. rewrite app_nil_r.
    case_decide as Hk; [subst; by rewrite lookup_delete_eq|by rewrite lookup_delete_ne].
Qed.

Lemma execution_in_turn tr calls s session : execution false tr (calls, s) -> in_turn session tr calls s.
Proof.
  intros Hrun. remember (calls, s) as x eqn:Hx. revert calls s Hx.
  induction Hrun as [|tr [calls s] es y Hex IH Hp]; intros calls' s' Hx.
  { injection Hx as <- <-. split_and!; [by left|done|]. by exists []. }
  subst y. specialize (IH _ _ eq_refl) as (Hone & Hpop & rs & Hrs & Hsub). inversion Hp as [c calls0 s0 Hb [|Hnil]|before c after s0 es0 c' s1 Hst]; subst; [done|..].
  - destruct (begins_serves session c Hb) as [Hh _]. rewrite app_nil_r. split_and!.
    + right. exists c. by destruct c.
    + change ([] ++ [c]) with [c]. by rewrite Hh.
    + exists rs. split; [done|]. by destruct c.
  - destruct Hone as [Hnil|(c0 & Hone & Hu)]; [by destruct before|].
    destruct before as [|? [|? ?]]; [|done..]. injection Hone as -> ->.
    destruct (statement_moves session _ _ _ _ _ Hst) as [_ Hd], (statement_answers session _ _ _ _ _ Hst Hu) as (rs' & Hrs' & Hsub').
    cbn [app] in *. rewrite app_nil_r. split_and!.
    + destruct c' as [c'|]; [right; exists c'|by left]. split; [done|]. by eapply statement_undisturbed.
    + rewrite popped_app, handed_app, fmap_app, Hpop, <- !app_assoc. by f_equal.
    + exists (rs ++ rs'). split; [by rewrite handed_app, !fmap_app, Hrs, Hrs'|]. rewrite polled_app, <- app_assoc.
      etrans; [apply sublist_app; [reflexivity|exact Hsub']|]. rewrite app_assoc. by apply sublist_app.
Qed.

(** C30: the calls of [pushData] and of polls run on several threads without a
    lock, statement by statement and in any interleaving; queues are locked,
    and accesses to the maps are taken to be atomic. The messages of a session
    that is connected are taken from its queue in the order they were pushed,
    none lost and none twice; each one that was taken is with a call that is
    about to hand it over or was handed over exactly once; replies are made
    to requests of polls of the session; and a message does not wait while a
    poll does, unless a call that serves them can go on (calls that name no
    session apart, which serve another queue than they push to). The code does
    not guarantee more: a message may be handed to an empty request, two to
    the same request, and out of order (the examples below). When no two calls
    overlap it does: the messages are handed over in order, each to a request
    of its own, in the order of the polls. *)
Theorem messages_delivered overlap tr calls s session : execution overlap tr (calls, s) ->
  (queued session tr = popped session tr ++ queue_of session s /\
   popped session tr ≡ₚ (handed session tr).*2 ++ held session calls /\
   answered s = replies tr /\
   (forall r d, (Some r, d) ∈ handed session tr -> r ∈ polled session tr) /\
   ((forall key d, Queued None key d ∉ tr) ->
    queue_of session s = [] \/ _clientConns s !! session = None \/
    exists c, c ∈ calls /\ serves session c /\ is_Some (call_step c s))) /\
  (overlap = false ->
   popped session tr = (handed session tr).*2 ++ held session calls /\
   exists rs, (handed session tr).*1 = Some <$> rs /\ sublist rs (polled session tr)).
Proof.
  intros Hrun. split.
  - destruct (execution_accounted _ _ _ _ session Hrun) as [Ho Hn Hr Ha _ Hw]. split_and!; try done. intros Hnull.
    destruct (queue_of session s) eqn:Hq; [auto|]. destruct (Hw Hnull) as [|[|(c & Hin & Hs)]]; auto. right; right. exists c. split_and!; [done..|].
    apply (serving_goes_on session); [done|by rewrite Hq].
  - intros ->. destruct (execution_in_turn _ _ _ session Hrun) as (_ & Hp & rs & Hrs & Hsub). split; [done|]. exists rs. split; [done|].
    etrans; [|exact Hsub]. by apply sublist_inserts_r.
Qed.

(** *** Schedules *)

(** An interleaving that is given by its moves: a call begins, or the one at a
    position goes on. *)
Inductive Move := Begin (c : Call) | Advance (i : nat).

Definition move (overlap : bool) (m : Move) (x : list Delivery * (list Call * Servlet)) : option (list Delivery * (list Call * Servlet)) :=
  let '(tr, (calls, s)) := x in
  match m with
  | Begin c => if begins c && (overlap || bool_decide (length calls = 0)) then Some (tr, (calls ++ [c], s)) else None
  | Advance i =>
      c ← calls !! i;
      '(es, c', s) ← call_step c s;
      Some (tr ++ es, (take i calls ++ option_list c' ++ drop (S i) calls, s))
  end.

Definition play (overlap : bool) (ms : list Move) : option (list Delivery * (list Call * Servlet)) :=
  foldl (fun x m => x ≫= move overlap m) (Some ([], ([], new_Servlet))) ms.

Lemma play_execution overlap ms tr x : play overlap ms = Some (tr, x) -> execution overlap tr x.
Proof.
  revert tr x. induction ms as [|m ms IH] using rev_ind; intros tr x; [intros [= <- <-]; constructor|].
  unfold play. rewrite foldl_app. fold (play overlap ms). destruct (play overlap ms) as [[tr0 [calls s]]|]; [|done].
  specialize (IH _ _ eq_refl). cbn. destruct m as [c|i]; cbn.
  - destruct (begins c && _) eqn:Hb; [|done]. intros [= <- <-]. rewrite <- (app_nil_r tr0). econstructor; [exact IH|].
    apply andb_true_iff in Hb as [Hb Ho]. constructor; [done|]. apply orb_true_iff in Ho as [|Ho]; [by left|right].
    by apply length_zero_iff_nil, (bool_decide_eq_true_1 _).
  - destruct (calls !! i) as [c|] eqn:Hi; [|done]. cbn. destruct (call_step c s) as [[[es c'] s']|] eqn:Hs; [|done]. cbn. intros [= <- <-].
    econstructor; [exact IH|]. rewrite <- (take_drop_middle _ _ _ Hi) at 1. by constructor.
Qed.

(** A call that nothing interrupts returns: it hands the first message to the
    request that waits, if there are both. *)
Lemma server_push_alone session s : serverPushData session s = Some (
  let s := put_queue session (queue_of session s) s in
  match queue_of session s, _clientConns s !! session with
  | d :: queue, Some r => set_conns (delete session (_clientConns s)) (returnData r d (put_queue session queue s))
  | _, _ => s
  end).
Proof.
  unfold serverPushData. cbn [run call_step]. cbv zeta. destruct (queue_of session s) as [|d q] eqn:Hq.
  { by rewrite queue_of_put, decide_True. }
  cbn [run call_step]. rewrite queue_of_put, decide_True by done. change (_clientConns (put_queue session (d :: q) s)) with (_clientConns s).
  destruct (_clientConns s !! session) as [r|] eqn:Hr; [|done]. cbn [run call_step]. rewrite queue_of_put, decide_True by done.
  cbn [run call_step]. cbv zeta. change (_clientConns (put_queue session q (put_queue session (d :: q) s))) with (_clientConns s). by rewrite Hr.
Qed.

Lemma poll_alone name r s : poll name r s = serverPushData (Some name) (set_conns (<[Some name := r]> (_clientConns s)) s).
Proof. done. Qed.

Lemma push_alone name d s : pushData (Some name) d s = serverPushData (Some name) (put_queue (Some name) (queue_of (Some name) s ++ [d]) s).
Proof. done. Qed.

(** ** Answers *)

Definition known_path (path : string) : bool :=
  istarts_with path "/debug/connect" || starts_with path "/debug/sessions" || starts_with path "/debug/disconnect" ||
  bool_decide (is_Some (route path)).

(** A request with a path of the servlet that is not a poll is answered
    when it is handled, exactly once, also when the session or its name is
    missing, or a command fails. *)
Theorem request_answered env uuid r s b s' :
  let path := d_atom (Data_at (req_data r) "path") in
  hasKey (req_data r) "path" = true -> known_path path = true -> starts_with path "/debug/poll" = false ->
  requestFromHTTP env uuid r s = Some (b, s') -> b = true /\ exists a, answered s' = answered s ++ [(req_id r, a)].
Proof.
  cbn zeta. unfold requestFromHTTP, known_path. intros -> Hk Hp. cbn [negb].
  destruct (isCORS (req_data r)); [intros [= <- <-]; eauto|].
  destruct (istarts_with _ _); [intros [= <- <-]; eauto|].
  destruct (starts_with _ "/debug/sessions"); [intros [= <- <-]; eauto|].
  destruct (negb (hasKey _ "session")); [intros [= <- <-]; eauto|].
  destruct (_sessionForId s !! _) as [name|]; [|intros [= <- <-]; eauto].
  rewrite Hp. destruct (starts_with _ "/debug/disconnect").
  - unfold processDisconnect. destruct (debugStop _ _ _ _ _ _); cbn; [intros [= <- <-]; eauto|done..].
  - cbn [orb] in Hk. apply bool_decide_eq_true_1 in Hk as [c ->].
    destruct (session_command _ _ _ _ _ _) as [[[reply' session] d]|]; cbn; [intros [= <- <-]; eauto|done].
Qed.

End Servlet.
Arguments Servlet : clear implicits.
Arguments Surroundings : clear implicits.

(** ** A server *)

#[export] Instance plain_prefix : BoostPrefix := {
  starts_with input test := String.prefix test input;
  istarts_with input test := iequals test (String.substring 0 (String.length test) input);
}.

(** No path hides another one. *)
Example routes :
  (fun p => route ("/debug/" +:+ p)) <$>
    ["issues"; "breakpoint/enable/all"; "breakpoint/disable/all"; "breakpoint/skipto"; "breakpoint/add"; "breakpoint/remove";
     "breakpoint/enable"; "breakpoint/disable"; "stop"; "prepare"; "attach"; "start"; "step"; "pause"; "resume"; "eval"; "detach"]%string =
  (Some <$> [GetIssues; EnableAll; DisableAll; SkipTo; AddOne; RemoveOne; EnableOne; DisableOne; Stop_; Prepare; Attach; Start; Step; Pause; Resume; Evaluate])
  ++ [None].
Proof. by vm_compute. Qed.

Definition quiet_surroundings : Surroundings nat :=
  mkSurroundings (fun _ _ => None) (fun _ => []) (fun _ => NoThread) (fun _ => None) [] (fun _ => None) (fun _ => []) (fun _ => false) (fun _ _ => inl Data_empty).

Definition request (n : positive) (path session : string) : Request :=
  mkRequest n (put_atom "path" path (Data_put "content" (put_atom "session" session Data_empty) Data_empty)).

#[local] Instance empty_dom : DomOps nat := table_dom [].
#[local] Existing Instance ascii_boost.

Definition connected : Servlet nat := processConnect "s" (request 1 "/debug/connect" "") new_Servlet.

Lemma request_answered_witness :
  exists s, requestFromHTTP some_address (fun _ : nat => ""%string) Z.of_nat quiet_surroundings "t" (request 2 "/debug/start" "s") connected = Some (true, s) /\
    exists a, answered s = answered connected ++ [(2%positive, a)].
Proof.
  destruct (requestFromHTTP some_address (fun _ : nat => ""%string) Z.of_nat quiet_surroundings "t" (request 2 "/debug/start" "s") connected) as [[b s]|] eqn:E;
    [|by vm_compute in E].
  pose proof (request_answered some_address (fun _ : nat => ""%string) Z.of_nat quiet_surroundings "t" (request 2 "/debug/start" "s") connected b s) as H.
  destruct H as [-> Ha]; [by vm_compute..|exact E|]. eauto.
Defined.

(** ** Interleavings *)

#[local] Notation played := (play (node := nat) Z.of_nat).
Definition text (t : string) : Data := Data_atom t VERBATIM.
Definition ask (n : positive) : Move := Begin (Poll 0 (request n "" "")).
Definition tell (t : string) : Move := Begin (Push (Some 0) (text t)).

(** What was handed over, what waits, and how many calls run. *)
Definition outcome (x : option (list Delivery * (list Call * Servlet nat))) : option (list (option positive * string) * list string * option positive * nat) :=
  match x with
  | Some (tr, (calls, s)) =>
      Some ((fun h : option Request * Data => (req_id <$> h.1, d_atom h.2)) <$> handed (Some 0) tr, d_atom <$> queue_of (Some 0) s,
            req_id <$> _clientConns s !! Some 0, length calls)
  | None => None
  end.

(** A poll that waits, and two messages that arrive at the same time. *)
Definition two_arrive : list Move :=
  [ask 1; Advance 0; Advance 0; tell "a"; tell "b"; Advance 0; Advance 0; Advance 0; Advance 1; Advance 1; Advance 1; Advance 0; Advance 1].

(** Calls one after the other. *)
Definition one_by_one : list Move :=
  [tell "a"; Advance 0; Advance 0; Advance 0; ask 1] ++ replicate 6 (Advance 0) ++ [ask 2; Advance 0; Advance 0; tell "b"] ++ replicate 6 (Advance 0).

Lemma messages_delivered_witness :
  (exists tr calls s, played true two_arrive = Some (tr, (calls, s)) /\
    popped (Some 0) tr = [text "a"; text "b"] /\ popped (Some 0) tr ≡ₚ (handed (Some 0) tr).*2 ++ held (Some 0) calls) /\
  (exists tr calls s rs, played false one_by_one = Some (tr, (calls, s)) /\
    (handed (Some 0) tr).*2 = [text "a"; text "b"] /\ (handed (Some 0) tr).*1 = Some <$> rs /\ sublist rs (polled (Some 0) tr)).
Proof.
  split.
  - destruct (played true two_arrive) as [[tr [calls s]]|] eqn:E; [|by vm_compute in E]. exists tr, calls, s. split; [done|]. split.
    + vm_compute in E. injection E as <- _ _. by vm_compute.
    + apply (messages_delivered Z.of_nat true tr calls s (Some 0) (play_execution Z.of_nat true two_arrive tr (calls, s) E)).
  - destruct (played false one_by_one) as [[tr [calls s]]|] eqn:E; [|by vm_compute in E].
    destruct (proj2 (messages_delivered Z.of_nat false tr calls s (Some 0) (play_execution Z.of_nat false one_by_one tr (calls, s) E)) eq_refl)
      as (_ & rs & Hrs & Hsub).
    exists tr, calls, s, rs. split; [done|]. split; [|done]. vm_compute in E. injection E as <- _ _. by vm_compute.
Defined.

(** Both messages are replies to the one request. *)
Example answered_twice :
  outcome (played true (two_arrive ++ [Advance 0; Advance 1])) = Some ([(Some 1%positive, "a"); (Some 1%positive, "b")]%string, [], Some 1%positive, 2).
Proof. by vm_compute. Qed.

(** The second one is a reply to an empty request. *)
Example answered_to_nobody :
  outcome (played true (two_arrive ++ [Advance 0; Advance 0; Advance 0; Advance 0])) = Some ([(Some 1%positive, "a"); (None, "b")]%string, [], None, 0).
Proof. by vm_compute. Qed.

(** They are handed over in the other order. *)
Example answered_out_of_order :
  outcome (played true (two_arrive ++ [Advance 1; Advance 1; Advance 0; Advance 0])) = Some ([(Some 1%positive, "b"); (None, "a")]%string, [], None, 0).
Proof. by vm_compute. Qed.

(** The poll that follows an answer is forgotten when it arrives before the
    call that answered is over: the next message waits. *)
Example poll_forgotten :
  outcome (played true ([ask 1; Advance 0; Advance 0; tell "a"] ++ replicate 5 (Advance 0) ++
                      [ask 2; Advance 1; Advance 1; Advance 0; tell "b"] ++ replicate 3 (Advance 0)))
  = Some ([(Some 1%positive, "a")]%string, ["b"]%string, None, 0).
Proof. by vm_compute. Qed.

(** The thread of the server waits for a message that another one took. *)
Example server_waits :
  let ms := [ask 1; Advance 0; Advance 0; tell "a"; Advance 0; Advance 0; ask 2; Advance 1; Advance 1; Advance 1; Advance 0] ++ replicate 3 (Advance 0) in
  outcome (played true ms) = Some ([(Some 2%positive, "a")]%string, [], None, 1) /\ played true (ms ++ [Advance 0]) = None.
Proof. by vm_compute. Qed.

(** A message without a session goes to the first queue, where it waits though
    a request does; the next one goes to the queue of no session. *)
Example no_session :
  let ms := [ask 1; Advance 0; Advance 0; Begin (Push None (text "a")); Advance 0; Advance 0] in
  outcome (played true ms) = Some ([], ["a"]%string, Some 1%positive, 0) /\
  (played true (ms ++ [Begin (Push None (text "b")); Advance 0]) ≫= fun x => Some (d_atom <$> queue_of None x.2.2)) = Some ["b"]%string.
Proof. by vm_compute. Qed.

(** A second poll takes the place of the first one, which is never answered. *)
Example second_poll :
  outcome (played false ([ask 1; Advance 0; Advance 0; ask 2; Advance 0; Advance 0; tell "a"] ++ replicate 6 (Advance 0)))
  = Some ([(Some 2%positive, "a")]%string, [], None, 0).
Proof. by vm_compute. Qed.
