(* ===== verification/Promela.v ===== *)
(** * The data model of Promela: [plugins/datamodel/promela]

    [PromelaDataModel] evaluates the syntax trees that a generated parser makes
    of Promela expressions, declarations and statements; variables are data
    with the keys "type", "value" and, for arrays, "size". The parser is a
    parameter: it returns a tree, or the error it reports. The operands of an
    arithmetic operator are taken from one iterator in an order that C++ leaves
    open, which is a parameter too. *)

From stdpp Require Import base list strings pretty.
From S2P Require Import Prelude Strings Data DataOrder Effects Content Json.

Local Open Scope Z_scope.

(** ** Syntax trees *)

(** The tokens that are types of nodes; [PML_OTHER] are those without a
    description, which the data model does not know either. *)
Inductive PmlType :=
| PML_PLUS | PML_MINUS | PML_TIMES | PML_DIVIDE | PML_MODULO | PML_BITAND | PML_BITXOR | PML_BITOR
| PML_GT | PML_LT | PML_GE | PML_LE | PML_EQ | PML_NE | PML_AND | PML_OR | PML_LSHIFT | PML_RSHIFT
| PML_NEG | PML_ASGN | PML_INCR | PML_DECR | PML_VAR_ARRAY | PML_DECL | PML_STMNT | PML_TYPE | PML_NAME
| PML_CONST | PML_PRINT | PML_SHOW | PML_EXPR | PML_VARLIST | PML_DECLLIST | PML_NAMELIST | PML_STRING
| PML_TYPEDEF | PML_CMPND | PML_ASSERT | PML_OTHER (token : nat).

#[export] Instance PmlType_dec : EqDecision PmlType.
Proof. solve_decision. Defined.

Inductive Node := mkNode (node_type : PmlType) (node_value : string) (operands : list Node).

Definition node_type (n : Node) : PmlType := match n with mkNode t _ _ => t end.
Definition node_value (n : Node) : string := match n with mkNode _ v _ => v end.
Definition operands (n : Node) : list Node := match n with mkNode _ _ l => l end.

Definition typeToDesc (type : PmlType) : string :=
  match type with
  | PML_PLUS => "PLUS" | PML_MINUS => "MINUS" | PML_TIMES => "TIMES" | PML_DIVIDE => "DIVIDE" | PML_MODULO => "MODULO"
  | PML_BITAND => "BITAND" | PML_BITXOR => "BITXOR" | PML_BITOR => "BITOR" | PML_GT => "GT" | PML_LT => "LT"
  | PML_GE => "GE" | PML_LE => "LE" | PML_EQ => "EQ" | PML_NE => "NE" | PML_AND => "AND" | PML_OR => "OR"
  | PML_LSHIFT => "LSHIFT" | PML_RSHIFT => "RSHIFT" | PML_NEG => "NEG" | PML_ASGN => "ASGN" | PML_INCR => "INCR"
  | PML_DECR => "DECR" | PML_VAR_ARRAY => "VAR_ARRAY" | PML_DECL => "DECL" | PML_STMNT => "STMNT" | PML_TYPE => "TYPE"
  | PML_NAME => "NAME" | PML_CONST => "CONST" | PML_PRINT => "PRINT" | PML_SHOW => "SHOW" | PML_EXPR => "EXPR"
  | PML_VARLIST => "VARLIST" | PML_DECLLIST => "DECLLIST" | PML_NAMELIST => "NAMELIST" | PML_STRING => "STRING"
  | PML_TYPEDEF => "TYPEDEF" | PML_CMPND => "CMPND" | PML_ASSERT => "ASSERT"
  | PML_OTHER token => "UNK(" +:+ pretty token +:+ ")"
  end%string.

Inductive ParserType := PROMELA_EXPR | PROMELA_DECL | PROMELA_STMNT.

#[export] Instance ParserType_dec : EqDecision ParserType.
Proof. solve_decision. Defined.

Definition parser_desc (type : ParserType) : string :=
  match type with PROMELA_EXPR => "expression" | PROMELA_DECL => "declarations" | PROMELA_STMNT => "statements" end.

(** What the parser reports: the message and where. *)
Record ParseError := mkParseError { err : string; first_line : nat; first_column : nat }.

(** ** Numbers *)

Definition int_min : Z := - 2 ^ 31.
Definition int_max : Z := 2 ^ 31 - 1.
Definition is_int (z : Z) : bool := (int_min <=? z) && (z <=? int_max).
Definition long_min : Z := - 2 ^ 63.
Definition long_max : Z := 2 ^ 63 - 1.

Fixpoint read_decimal (acc : Z) (s : list Ascii.ascii) : Z :=
  match s with
  | [] => acc
  | c :: s => match digit_value c with Some d => read_decimal (10 * acc + Z.of_nat d) s | None => acc end
  end.

(** [strTo<int>], [strTo<long>]: blanks, a sign, digits; the nearest number on
    overflow. A blank text leaves the variable unset. *)
Definition strTo_signed (low high : Z) (tmp : string) : option Z :=
  match skip_blanks (explode tmp) with
  | [] => None
  | c :: s =>
      let v := if Ascii.eqb c "-" then - read_decimal 0 s else if Ascii.eqb c "+" then read_decimal 0 s else read_decimal 0 (c :: s) in
      Some (Z.max low (Z.min high v))
  end.
Definition strTo_int : string -> option Z := strTo_signed int_min int_max.
Definition strTo_long : string -> option Z := strTo_signed long_min long_max.

Definition toStr (z : Z) : string := pretty z.

(** [Data(value)] of numbers. *)
Definition Data_number (z : Z) : Data := Data_atom (toStr z) INTERPRETED.
Definition Data_bool (b : bool) : Data := Data_atom (toStr_bool b) INTERPRETED.

(** ** The data model *)

Record State := mkState { _variables : Data; _lastMType : Z; uuids : nat }.

Definition P (A : Type) : Type := M Exn State A.

Definition put_variables (v : Data) : P unit := modify (fun s => mkState v (_lastMType s) (uuids s)).
Definition variables : P Data := s ← get; mret (_variables s).
Definition set_var (name : string) (v : Data) : P unit := vars ← variables; put_variables (Data_put name v vars).

(** An operand that is not there is read through the end of the list. *)
Definition operand (i : nat) (n : Node) : P Node :=
  match operands n !! i with Some o => mret o | None => throw Undefined end.

(** The value of an [int] that may be unset. *)
Definition known (o : option Z) : P Z := match o with Some z => mret z | None => throw Undefined end.

Section DataModel.
Context (address : Blob -> Z) (node_xml : positive -> string) (uuid_of : nat -> string) (FILE : string -> string) `{Trim}.
Context (parse : string -> ParseError + (ParserType * Node)) (operands_swapped : bool).
(** [isInState] of the interpreter at the time of the call. *)
Context (isInState : string -> bool).

Definition throw_at {A} (file line cause : string) : P A :=
  s ← get;
  put ← modify (fun s => mkState (_variables s) (_lastMType s) (S (uuids s)));
  throw (ErrorEvent (ERROR_EXECUTION (uuid_of (uuids s)) cause (FILE file) line)).
Definition throw_line {A} (line cause : string) : P A := throw_at "PromelaDataModel.cpp" line cause.

(** *** The parser *)

(** [promela_error], and [init] that throws what it leaves. *)
Definition parse_error (expr : string) (e : ParseError) (uuid : string) : Event :=
  annotate "sourceline" (Data_atom expr VERBATIM)
    (annotate "sourcemark" (Data_atom (repeat_str (first_column e) " " +:+ "^")%string VERBATIM)
      (annotate "col" (Data_atom (toStr_nat (first_column e)) VERBATIM)
        (annotate "line" (Data_atom (toStr_nat (first_line e)) VERBATIM)
          (ERROR_EXECUTION uuid (err e) (FILE "PromelaParser.cpp") "41")))).

Definition PromelaParser (expr : string) : P (ParserType * Node) :=
  match parse expr with
  | inr r => mret r
  | inl e =>
      s ← get;
      put ← modify (fun s => mkState (_variables s) (_lastMType s) (S (uuids s)));
      throw (ErrorEvent (parse_error expr e (uuid_of (uuids s))))
  end.

(** The tree of an expression of any type, and of one type. *)
Definition ast_of (expr : string) : P Node := '(_, ast) ← PromelaParser expr; mret ast.
Definition ast_as (expected : ParserType) (expr : string) : P Node :=
  '(type, ast) ← PromelaParser expr;
  if decide (type = expected) then mret ast
  else throw_at "PromelaParser.cpp" "80"
         ("Promela syntax type mismatch: Expected {" +:+ parser_desc expected +:+ "} but got " +:+ parser_desc type)%string.

Definition isValidSyntax (expr : string) : bool := match parse expr with inl _ => false | inr _ => true end.

(** *** Values *)

(** An unset number differs from the atom whatever it is. *)
Definition dataToInt (data : Data) : P Z :=
  match strTo_int (d_atom data) with
  | Some value => if String.eqb (d_atom data) (toStr value) then mret value else throw_line "375" "Operand is not integer"
  | None => throw_line "375" "Operand is not integer"
  end.

Definition dataToBool (data : Data) : P bool :=
  if (length (explode (d_atom data)) =? 0)%nat then mret false
  else match d_type data with
       | VERBATIM => mret true
       | INTERPRETED =>
           if String.eqb (d_atom data) "true" then mret true
           else if String.eqb (d_atom data) "false" then mret false
           else value ← dataToInt data; mret (negb (value =? 0))
       end.

(** An arithmetic result; signed overflow is undefined. *)
Definition checked_int (z : Z) : P Data := if is_int z then mret (Data_number z) else throw Undefined.

Definition arithmetic (type : PmlType) (a b : Z) : P Data :=
  match type with
  | PML_PLUS => checked_int (a + b)
  | PML_MINUS => checked_int (a - b)
  | PML_TIMES => checked_int (a * b)
  | PML_DIVIDE => if b =? 0 then throw Undefined else checked_int (Z.quot a b)
  | PML_MODULO => if (b =? 0) || negb (is_int (Z.quot a b)) then throw Undefined else checked_int (Z.rem a b)
  | PML_LT => mret (Data_bool (a <? b))
  | PML_LE => mret (Data_bool (a <=? b))
  | PML_GT => mret (Data_bool (b <? a))
  | PML_GE => mret (Data_bool (b <=? a))
  | PML_LSHIFT =>
      if (0 <=? b) && (b <? 32) && (0 <=? a) && (a * 2 ^ b <? 2 ^ 32)
      then mret (Data_number (if a * 2 ^ b <=? int_max then a * 2 ^ b else a * 2 ^ b - 2 ^ 32)) else throw Undefined
  (* a negative number keeps its sign, as the implementations define it *)
  | PML_RSHIFT => if (0 <=? b) && (b <? 32) then mret (Data_number (Z.shiftr a b)) else throw Undefined
  | _ => throw Undefined
  end.

(** [node->value.substr(1, node->value.size() - 2)] *)
Definition strip_quotes (s : string) : P string :=
  match explode s with
  | [] => throw OtherException
  | _ :: l => mret (implode (take (length l - 1) l))
  end.

Section Variables.
Context (evaluateExpr : Node -> P Data).

(** [_variables[name]["value"]]: the key is made when it is missing. *)
Definition value_of (name : string) : P Data :=
  vars ← variables;
  let var := Data_at vars name in
  let put := if hasKey var "value" then mret tt else set_var name (Data_put "value" Data_empty var) in
  _ ← put; mret (Data_at var "value").

(** [_variables.compound[name].compound["value"][index]]: [at] throws. *)
Definition element_of (name : string) (index : Z) : P Data :=
  v ← value_of name;
  match map_find Z.compare index (d_array v) with Some d => mret d | None => throw OtherException end.

Definition out_of_bounds (name : string) (index : Z) (size : string) : string :=
  ("Index " +:+ toStr index +:+ " in array " +:+ name +:+ "[" +:+ size +:+ "] is out of bounds")%string.

(** The name and index of a node for an element, once they are checked;
    setting and getting differ in the order of the checks. *)
Definition check_index (line name : string) (index : Z) : P unit :=
  vars ← variables;
  let size := d_atom (Data_at (Data_at vars name) "size") in
  n ← known (strTo_int size);
  if n <=? index then throw_line line (out_of_bounds name index size) else mret tt.

(** The walk along the keys of a compound value. *)
Fixpoint follow (path : string) (keys : list Node) (currData : Data) : P Data :=
  match keys with
  | [] => mret currData
  | k :: keys =>
      let path := (path +:+ "." +:+ node_value k)%string in
      if hasKey currData (node_value k) then follow path keys (Data_at currData (node_value k))
      else throw_line "692" ("No variable " +:+ path +:+ " was declared")%string
  end.

Definition getVariable (node : Node) : P Data :=
  vars ← variables;
  match node_type node with
  | PML_NAME =>
      if hasKey vars (node_value node) then value_of (node_value node)
      else throw_line "631" ("No variable " +:+ node_value node +:+ " was declared")%string
  | PML_VAR_ARRAY =>
      name ← operand 0 node; expr ← operand 1 node;
      index ← evaluateExpr expr ≫= dataToInt;
      vars ← variables;
      if negb (hasKey vars (node_value name)) then throw_line "643" ("No variable " +:+ node_value name +:+ " was declared")%string
      else if negb (hasKey (Data_at vars (node_value name)) "size") then throw_line "647" ("Variable " +:+ node_value name +:+ " is no array")%string
      else _ ← check_index "651" (node_value name) index; element_of (node_value name) index
  | PML_CMPND =>
      name ← operand 0 node;
      let undeclared line := throw_line line ("No variable " +:+ node_value name +:+ " was declared")%string in
      if String.eqb (node_value name) "_x" then
        what ← operand 1 node;
        match node_type what, operands what with
        | PML_VAR_ARRAY, [arr; index] =>
            i ← (if decide (node_type index = PML_STRING) then strip_quotes (node_value index) else mret (node_value index));
            if String.eqb (node_value arr) "states" then mret (Data_bool (isInState i)) else undeclared "679"%string
        | _, _ => undeclared "679"%string
        end
      else if negb (hasKey vars (node_value name)) then undeclared "683"%string
      else currData ← value_of (node_value name); follow (node_value name) (drop 1 (operands node)) currData
  | type => throw_line "702" ("Retrieving value of " +:+ typeToDesc type +:+ " variable not implemented")%string
  end.

Definition invalid_assignment (name : string) : bool :=
  String.eqb name "_sessionid" || String.eqb name "_name" || String.eqb name "_ioprocessors" || String.eqb name "_event".

(** [var = &(var->compound[name]); ... *var = value]: missing keys are made. *)
Fixpoint put_path (keys : list string) (value d : Data) : Data :=
  match keys with
  | [] => value
  | k :: keys => Data_put k (put_path keys value (Data_at d k)) d
  end.

(** [strTo<size_t>]: a negative number wraps around. *)
Definition array_size (size : Z) : Z := if size <? 0 then 2 ^ 64 + size else size.

Definition setVariable (node : Node) (value : Data) : P unit :=
  if invalid_assignment (node_value node) then throw_line "540" ("Cannot assign to " +:+ node_value node)%string
  else
    vars ← variables;
    let undeclared line name := throw_line line ("Variable " +:+ name +:+ " is undeclared")%string in
    match node_type node with
    | PML_VAR_ARRAY =>
        name ← operand 0 node; expr ← operand 1 node;
        let x := node_value name in
        if negb (hasKey vars x) then undeclared "551"%string x
        else if negb (hasKey (Data_at vars x) "size") then throw_line "556" ("Variable " +:+ x +:+ " is no array")%string
        else
          index ← evaluateExpr expr ≫= dataToInt;
          _ ← check_index "562" x index;
          _ ← element_of x index;
          vars ← variables;
          let v := Data_at (Data_at vars x) "value" in
          set_var x (Data_put "value" (set_array (map_put Z.compare index value (d_array v)) v) (Data_at vars x))
    | PML_NAME =>
        let x := node_value node in
        if negb (hasKey vars x) then undeclared "572"%string x
        else
          let var := Data_at vars x in
          _ ← (if hasKey var "size" then
                 if negb ((length (d_compound value) =? 0)%nat) || negb ((length (explode (d_atom value)) =? 0)%nat)
                 then throw_line "577" ("Variable " +:+ x +:+ " is an array")%string
                 else
                   n ← known (strTo_int (d_atom (Data_at var "size")));
                   if array_size n <? Z.of_nat (length (d_array value))
                   then throw_line "580" ("Array assigned to " +:+ x +:+ " is too large")%string else mret tt
               else mret tt);
          set_var x (Data_put "value" value var)
    | PML_CMPND =>
        name ← operand 0 node;
        let x := node_value name in
        if negb (hasKey vars x) then undeclared "591"%string x
        else if hasKey (Data_at vars x) "size" then throw_line "596" ("Variable " +:+ x +:+ " is an array")%string
        else
          let var := Data_at vars x in
          let v := Data_put "vis" (Data_atom "" VERBATIM) (Data_put "type" (Data_atom "compound" VERBATIM) (Data_at var "value")) in
          set_var x (Data_put "value" (put_path (node_value <$> drop 1 (operands node)) value v) var)
    | type => throw_line "616" ("No support for " +:+ typeToDesc type +:+ " variables implemented")%string
    end.

(** *** Expressions *)

(** A node, with the evaluation of its operands. *)
Definition evaluate_node (node : Node) : P Data :=
  match node_type node with
  | PML_CONST =>
      if iequals (node_value node) "false" then mret (Data_bool false)
      else if iequals (node_value node) "true" then mret (Data_bool true)
      else value ← known (strTo_int (node_value node)); mret (Data_number value)
  | PML_NAME =>
      d ← getVariable node;
      if negb ((length (explode (d_atom d)) =? 0)%nat) && isNumeric (d_atom d) 10 then mret (Data_atom (d_atom d) VERBATIM)
      else mret (Data_atom (asJSON node_xml d) VERBATIM)
  | PML_VAR_ARRAY | PML_CMPND => getVariable node
  | PML_STRING => stripped ← strip_quotes (node_value node); mret (Data_atom stripped VERBATIM)
  | PML_PLUS | PML_MINUS | PML_DIVIDE | PML_MODULO | PML_LT | PML_LE | PML_GT | PML_GE | PML_TIMES | PML_LSHIFT | PML_RSHIFT =>
      first ← operand 0 node; a ← evaluateExpr first ≫= dataToInt;
      second ← operand 1 node; b ← evaluateExpr second ≫= dataToInt;
      if operands_swapped then arithmetic (node_type node) b a else arithmetic (node_type node) a b
  | PML_EQ =>
      lhs ← operand 0 node; rhs ← operand 1 node;
      left ← evaluateExpr lhs; right ← evaluateExpr rhs;
      if Data_eq address left right then mret (Data_bool true)
      else if bool_decide (node_type lhs = PML_STRING) || bool_decide (node_type rhs = PML_STRING) ||
              match d_type left, d_type right with VERBATIM, VERBATIM => true | _, _ => false end
      then mret (Data_bool (String.eqb (d_atom left) (d_atom right)))
      else a ← dataToInt left; b ← dataToInt right; mret (Data_bool (a =? b))
  | PML_NEG => o ← operand 0 node; b ← evaluateExpr o ≫= dataToBool; mret (Data_bool (negb b))
  | PML_ASGN =>
      lhs ← operand 0 node; rhs ← operand 1 node;
      value ← evaluateExpr rhs; _ ← setVariable lhs value; mret (Data_number 0)
  | PML_AND | PML_OR =>
      lhs ← operand 0 node; rhs ← operand 1 node;
      left ← evaluateExpr lhs; right ← evaluateExpr rhs;
      truthLeft ← dataToBool left; truthRight ← dataToBool right;
      mret (Data_bool (if decide (node_type node = PML_AND) then truthLeft && truthRight else truthLeft || truthRight))
  | type => throw_line "498" ("Support for " +:+ typeToDesc type +:+ " expressions not implemented")%string
  end.

End Variables.

(** The nesting of a tree, which bounds the recursion. *)
Fixpoint node_depth (n : Node) : nat :=
  match n with mkNode _ _ l => S ((fix go (l : list Node) := match l with [] => 0%nat | o :: l => Nat.max (node_depth o) (go l) end) l) end.

Fixpoint evaluateExpr_fuel (fuel : nat) (node : Node) : P Data :=
  match fuel with O => throw Undefined | S fuel => evaluate_node (evaluateExpr_fuel fuel) node end.

Definition evaluateExpr (node : Node) : P Data := evaluateExpr_fuel (node_depth node) node.

(** *** Statements and declarations *)

Fixpoint evaluateStmnt_fuel (fuel : nat) (node : Node) : P unit :=
  match fuel with
  | O => throw Undefined
  | S fuel =>
      match node_type node with
      | PML_ASGN =>
          name ← operand 0 node; expr ← operand 1 node; value ← evaluateExpr expr; setVariable evaluateExpr name value
      | PML_STMNT => forM_ (operands node) (evaluateStmnt_fuel fuel)
      | PML_INCR =>
          name ← operand 0 node; d ← getVariable evaluateExpr name; v ← known (strTo_long (d_atom d));
          if v + 1 <=? long_max then setVariable evaluateExpr name (Data_number (v + 1)) else throw Undefined
      | PML_DECR =>
          name ← operand 0 node; d ← getVariable evaluateExpr name; v ← known (strTo_long (d_atom d));
          if long_min <=? v - 1 then setVariable evaluateExpr name (Data_number (v - 1)) else throw Undefined
      | type => throw_line "531" ("No support for " +:+ typeToDesc type +:+ " statement implemented")%string
      end
  end.

Definition evaluateStmnt (node : Node) : P unit := evaluateStmnt_fuel (node_depth node) node.

(** The next number of an mtype. *)
Definition next_mtype : P Data :=
  s ← get;
  _ ← modify (fun s => mkState (_variables s) (_lastMType s + 1) (uuids s));
  if _lastMType s <? int_max then mret (Data_number (_lastMType s)) else throw Undefined.

(** The elements of a new array: [insert] of every index below the size. *)
Definition zeros (size : Z) : list (Z * Data) := (fun i => (Z.of_nat i, Data_number 0)) <$> seq 0 (Z.to_nat size).

Definition declare_one (vis type item : Node) : P unit :=
  let variable := Data_put "type" (Data_atom (node_value type) VERBATIM) (Data_put "vis" (Data_atom (node_value vis) VERBATIM) Data_empty) in
  match node_type item with
  | PML_NAME =>
      value ← (if String.eqb (node_value type) "mtype" then next_mtype else mret (Data_number 0));
      set_var (node_value item) (Data_put "value" value variable)
  | PML_ASGN =>
      name ← operand 0 item; expr ← operand 1 item;
      value ← catch_event (evaluateExpr expr) (fun e => _ ← set_var (node_value name) variable; throw (PlainEvent e));
      set_var (node_value name) (Data_put "value" value variable)
  | PML_VAR_ARRAY =>
      name ← operand 0 item; expr ← operand 1 item;
      size ← evaluateExpr expr ≫= dataToInt;
      let variable := Data_put "size" (Data_number size) variable in
      set_var (node_value name)
        (if 0 <? size then Data_put "value" (set_array (zeros size) Data_empty) variable else variable)
  | type => throw_line "354" ("Declaring variables via " +:+ typeToDesc type +:+ " not implemented")%string
  end.

Fixpoint evaluateDecl_fuel (fuel : nat) (node : Node) : P unit :=
  match fuel with
  | O => throw Undefined
  | S fuel =>
      match node_type node with
      | PML_DECL =>
          vis ← operand 0 node; type ← operand 1 node; varlist ← operand 2 node;
          forM_ (operands varlist) (declare_one vis type)
      | PML_DECLLIST => forM_ (operands node) (evaluateDecl_fuel fuel)
      | type => throw_line "366" ("Declaring variables via " +:+ typeToDesc type +:+ " not implemented")%string
      end
  end.

Definition evaluateDecl (node : Node) : P unit := evaluateDecl_fuel (node_depth node) node.

(** ** The interface to the interpreter *)

Definition evalAsBool (expr : string) : P bool :=
  ast ← ast_as PROMELA_EXPR expr; tmp ← evaluateExpr ast;
  mret (negb (String.eqb (d_atom tmp) "false" || String.eqb (d_atom tmp) "0")).

Definition evalAsData (expr : string) : P Data := ast ← ast_of expr; evaluateExpr ast.

(** [Data::fromJSON], whose error is an [ErrorEvent]. *)
Definition from_json (text : string) : P Data :=
  match fromJSON text with
  | inr d => mret d
  | inl (JSON_throw cause line) => throw_at "Data.cpp" line cause
  | inl JSON_undefined => throw Undefined
  end.

Definition getAsData (content : string) : P Data := catch_error (evalAsData content) (fun _ => from_json content).

(** The walk of [isDeclared] along the keys, through values as well. *)
Fixpoint declared_path (keys : list Node) (var : Data) : bool :=
  match keys with
  | [] => true
  | k :: keys =>
      let name := node_value k in
      if hasKey var name then declared_path keys (Data_at var name)
      else if hasKey var "value" && hasKey (Data_at var "value") name then declared_path keys (Data_at (Data_at var "value") name)
      else false
  end.

Definition isDeclared (expr : string) : P bool :=
  ast ← ast_of expr; vars ← variables;
  match node_type ast with
  | PML_VAR_ARRAY => name ← operand 0 ast; mret (hasKey vars (node_value name))
  | PML_CMPND => mret (declared_path (operands ast) vars)
  | _ => mret (hasKey vars expr)
  end.

(** [_variables[expr]] makes an empty variable when the text is no name. *)
Definition getLength (expr : string) : P Z :=
  declared ← isDeclared expr;
  if negb declared then throw_line "206" ("Variable '" +:+ expr +:+ "' was not declared")%string
  else
    vars ← variables;
    _ ← (if hasKey vars expr then mret tt else set_var expr Data_empty);
    let var := Data_at vars expr in
    if negb (hasKey var "size") then throw_line "210" ("Variable '" +:+ expr +:+ "' is no array")%string
    else n ← known (strTo_int (d_atom (Data_at var "size"))); mret (n mod 2 ^ 32).

(** An item or index that cannot be set is declared and set again. *)
Definition set_or_declare (what : string) (ast : Node) (value : P Data) : P unit :=
  catch_error (v ← value; setVariable evaluateExpr ast v)
    (fun _ => decl ← ast_of ("int " +:+ what)%string; _ ← evaluateDecl decl; v ← value; setVariable evaluateExpr ast v).

Definition setForeach (item array index : string) (iteration : Z) : P unit :=
  itemAst ← ast_as PROMELA_EXPR item;
  _ ← (if decide (node_type itemAst = PML_NAME) then mret tt
       else throw_line "226" ("Expression '" +:+ item +:+ "' is no valid item")%string);
  arrayAst ← ast_as PROMELA_EXPR (array +:+ "[" +:+ toStr iteration +:+ "]")%string;
  _ ← set_or_declare item itemAst (getVariable evaluateExpr arrayAst);
  if (0 <? length (explode index))%nat then
    indexAst ← ast_as PROMELA_EXPR index;
    set_or_declare index indexAst (mret (Data_number iteration))
  else mret tt.

Definition assign (location : string) (data : Data) : P unit :=
  ast ← ast_of location;
  if (0 <? length (explode (d_atom data)))%nat && match d_type data with INTERPRETED => true | VERBATIM => false end
  then value ← evalAsData (d_atom data); setVariable evaluateExpr ast value
  else setVariable evaluateExpr ast data.

(** A type "int[3]" is split at its bracket. *)
Fixpoint split_bracket (s : list Ascii.ascii) : list Ascii.ascii * list Ascii.ascii :=
  match s with
  | [] => ([], [])
  | c :: s' => if Ascii.eqb c "[" then ([], s) else let '(a, b) := split_bracket s' in (c :: a, b)
  end.

Definition init (location : string) (data : Data) (attr : list (string * string)) : P unit :=
  let type := default "auto"%string (map_find String.compare "type"%string attr) in
  let '(type, arrSize) := split_bracket (explode type) in
  decl ← ast_as PROMELA_DECL (implode type +:+ " " +:+ location +:+ implode arrSize)%string;
  _ ← evaluateDecl decl;
  ast ← ast_of location;
  if (0 <? length (explode (d_atom data)))%nat && match d_type data with INTERPRETED => true | VERBATIM => false end
  then
    d ← from_json (d_atom data);
    _ ← (if Data_is_empty d then mret tt else d ← from_json (d_atom data); setVariable evaluateExpr ast d);
    setVariable evaluateExpr ast data
  else setVariable evaluateExpr ast data.

(** *** Events *)

Fixpoint adaptType (data : Data) : Data :=
  match data with
  | mkData c a s n b t =>
      if (0 <? length (explode s))%nat && isInteger s 10 then mkData c a s n b INTERPRETED
      else
        match a, c with
        | _ :: _, _ =>
            mkData c ((fix go (l : list (Z * Data)) := match l with [] => [] | (k, v) :: l => (k, adaptType v) :: go l end) a) s n b t
        | [], _ :: _ =>
            mkData ((fix go (l : list (string * Data)) := match l with [] => [] | (k, v) :: l => (k, adaptType v) :: go l end) c) a s n b t
        | [], [] => data
        end
  end.

(** A parameter or name with a number as atom becomes a number; the test holds
    of the empty atom too. *)
Definition adopt (d : Data) : P Data :=
  if isNumeric (d_atom d) 10 then v ← known (strTo_int (d_atom d)); mret (Data_number v) else mret d.

(** Only the first of the parameters with a name. *)
Fixpoint first_params (l : list (string * Data)) : list (string * Data) :=
  match l with
  | [] => []
  | (k, v) :: l => (k, v) :: List.filter (fun e => negb (String.eqb e.1 k)) (first_params l)
  end.

Definition put_adopted (e : string * Data) (data : Data) : P Data := v ← adopt e.2; mret (Data_put e.1 v data).

Definition type_name (type : nat) : string :=
  if (type =? PLATFORM)%nat then "platform" else if (type =? INTERNAL)%nat then "internal"
  else if (type =? EXTERNAL)%nat then "external" else "invalid".

Definition setEvent (event : Event) : P unit :=
  let put key value d := Data_put key (Data_atom value VERBATIM) d in
  let value :=
    put "type"%string (type_name (e_eventType event))
      (put "sendid"%string (if e_hideSendId event then "" else e_sendid event)%string
        (put "invokeid"%string (e_invokeid event) (put "origintype"%string (e_origintype event)
          (put "origin"%string (e_origin event) (put "name"%string (e_name event) Data_empty))))) in
  let data := if Data_is_empty (e_data event) then Data_empty else e_data event in
  data ← foldM put_adopted (first_params (e_params event)) data;
  data ← foldM put_adopted (e_namelist event) data;
  set_var "_event" (Data_put "value" (Data_put "data" (adaptType data) value) (Data_put "type" (Data_atom "compound" VERBATIM) Data_empty)).

(** *** [setup] *)

Record Callbacks := mkCallbacks { getSessionId : string; getName : string; getIOProcessors : list (string * Data) }.

Definition setup (cb : Callbacks) : Data :=
  let text s := Data_put "value" (Data_atom s VERBATIM) (Data_put "type" (Data_atom "string" VERBATIM) Data_empty) in
  let compound := Data_put "type" (Data_atom "compound" VERBATIM) Data_empty in
  let ioProcs :=
    match getIOProcessors cb with
    | [] => compound
    | procs => Data_put "value" (foldl (fun d '(name, v) => Data_put name v d) Data_empty procs) compound
    end in
  Data_put "_ioprocessors" ioProcs (Data_put "_name" (text (getName cb)) (Data_put "_sessionid" (text (getSessionId cb)) Data_empty)).

End DataModel.
