(* ===== verification/PromelaTheorems.v ===== *)
(** * The data model of Promela: theorems

    What expressions evaluate to: arithmetic computes with 32-bit integers
    where C++ defines it, other operators fail or are undefined, arrays are accessed within their bounds, and what
    becomes of variables that are negated, of strings, and of structured
    parameters of events. *)

From stdpp Require Import base list strings pretty.
From S2P Require Import Prelude Strings Data DataOrder Effects Content Json Promela.

Local Open Scope Z_scope.

(** ** Numbers and their texts *)

Section Numbers.

Lemma read_decimal_app acc s x : Forall (fun c => is_Some (digit_value c)) s ->
  read_decimal acc (s ++ x) = read_decimal (read_decimal acc s) x.
Proof.
  intros Hs. revert acc. induction Hs as [|c s [d Hd] _ IH]; intros acc; [done|]. cbn. rewrite Hd. apply IH.
Qed.

Lemma digit_value_char x : (x < 10)%N -> digit_value (pretty_N_char x) = Some (N.to_nat x).
Proof.
  intros Hx. assert (x = 0 \/ x = 1 \/ x = 2 \/ x = 3 \/ x = 4 \/ x = 5 \/ x = 6 \/ x = 7 \/ x = 8 \/ x = 9)%N as H by lia.
  by repeat destruct H as [->|H]; subst.
Qed.

(** The digits of a number in front of others. *)
Lemma read_pretty_go x : forall s acc, 0 <= acc ->
  exists l, explode (pretty_N_go x s) = l ++ explode s /\ Forall (fun c => is_Some (digit_value c)) l /\
    read_decimal acc l = acc * 10 ^ Z.of_nat (length l) + Z.of_N x /\ ((0 < x)%N -> l <> []).
Proof.
  induction (N.lt_wf_0 x) as [x _ IH]. intros s acc Hacc. destruct (decide (x = 0)%N) as [->|Hx].
  - exists []. rewrite pretty_N_go_0. cbn. split_and!; [done|constructor|lia|lia].
  - rewrite pretty_N_go_step by lia.
    assert (Hmod : (x `mod` 10 < 10)%N) by (by apply N.mod_lt).
    destruct (IH (x `div` 10)%N ltac:(apply N.div_lt; lia) (String (pretty_N_char (x `mod` 10)) s) acc Hacc) as (l & Hl & Hd & Hr & _).
    exists (l ++ [pretty_N_char (x `mod` 10)]). split_and!.
    + rewrite Hl, <- app_assoc. done.
    + apply Forall_app. split; [done|]. constructor; [|constructor]. rewrite digit_value_char by done. eauto.
    + rewrite read_decimal_app, Hr by done. cbn [read_decimal]. rewrite digit_value_char by done.
      rewrite length_app. cbn [length]. rewrite Nat2Z.inj_add, Z.pow_add_r by lia. change (10 ^ Z.of_nat 1) with 10.
      rewrite N_nat_Z. pose proof (N.div_mod x 10 ltac:(done)) as Hdm. rewrite Hdm at 3. rewrite N2Z.inj_add, N2Z.inj_mul. lia.
    + intros _. by destruct l.
Qed.

Lemma read_pretty p : exists l, explode (pretty (Npos p)) = l /\ Forall (fun c => is_Some (digit_value c)) l /\ read_decimal 0 l = Zpos p /\ l <> [].
Proof.
  destruct (read_pretty_go (Npos p) "" 0 ltac:(lia)) as (l & Hl & Hd & Hr & Hne). exists l. cbn [explode String.list_ascii_of_string] in Hl.
  rewrite app_nil_r in Hl. split_and!; [done|done|rewrite Hr; lia|apply Hne; lia].
Qed.

Lemma digit_no_sign c : is_Some (digit_value c) -> Ascii.eqb c "-" = false /\ Ascii.eqb c "+" = false /\ ISWHITESPACE c = false.
Proof. intros [d Hd]. destruct c as [[] [] [] [] [] [] [] []]; try done; cbn; split_and!; done. Qed.

(** A number is read back from its text, if it fits. *)
Lemma strTo_signed_toStr low high z : low <= z <= high -> strTo_signed low high (toStr z) = Some z.
Proof.
  intros Hz. unfold strTo_signed, toStr. destruct z as [|p|p].
  - change (Some (Z.max low (Z.min high 0)) = Some 0). f_equal. lia.
  - destruct (read_pretty p) as (l & Hl & Hd & Hr & Hne). change (pretty (Z.pos p)) with (pretty (Npos p)). rewrite Hl.
    destruct l as [|c l]; [done|]. apply Forall_cons in Hd as Hcd. destruct Hcd as [Hc _].
    destruct (digit_no_sign c Hc) as (H1 & H2 & H3). cbn [skip_blanks]. rewrite H3, H1, H2, Hr. f_equal. lia.
  - destruct (read_pretty p) as (l & Hl & Hd & Hr & Hne). change (pretty (Z.neg p)) with ("-" +:+ pretty (Npos p))%string.
    change (explode ("-" +:+ pretty (Npos p))%string) with ("-"%char :: explode (pretty (Npos p))). rewrite Hl.
    change (Some (Z.max low (Z.min high (- read_decimal 0 l))) = Some (Z.neg p)). rewrite Hr. f_equal. lia.
Qed.

Lemma is_int_iff z : is_int z = true <-> int_min <= z <= int_max.
Proof. unfold is_int. rewrite andb_true_iff, !Z.leb_le. done. Qed.

Lemma strTo_int_toStr z : is_int z = true -> strTo_int (toStr z) = Some z.
Proof. intros Hz%is_int_iff. by apply strTo_signed_toStr. Qed.

Lemma toStr_length z : (length (explode (toStr z)) =? 0)%nat = false.
Proof.
  unfold toStr. destruct z as [|p|p]; [done| |done]. change (pretty (Z.pos p)) with (pretty (Npos p)).
  destruct (read_pretty p) as (l & -> & _ & _ & Hne). by destruct l.
Qed.

Lemma isNumeric_toStr z : isNumeric (toStr z) 10 = true.
Proof.
  assert (Hdigits : forall l, Forall (fun c => is_Some (digit_value c)) l ->
    forallb (char_in (substr (explode ".-0123456789ABCDEF") 0 12)) l = true).
  { intros l Hl. induction Hl as [|c l [d Hd] _ IH]; [done|]. cbn [forallb]. rewrite IH, andb_true_r.
    by destruct c as [[] [] [] [] [] [] [] []]. }
  unfold isNumeric, toStr. cbn [Nat.add]. destruct z as [|p|p]; [done|..].
  - change (pretty (Z.pos p)) with (pretty (Npos p)). destruct (read_pretty p) as (l & -> & Hd & _). by apply Hdigits.
  - change (pretty (Z.neg p)) with ("-" +:+ pretty (Npos p))%string.
    change (explode ("-" +:+ pretty (Npos p))%string) with ("-"%char :: explode (pretty (Npos p))).
    destruct (read_pretty p) as (l & -> & Hd & _). cbn [forallb]. rewrite (Hdigits l Hd). done.
Qed.

End Numbers.

(** ** Running a computation *)

Lemma run_bind {A B} (m : P A) (f : A -> P B) s a s' : m s = (inr a, s') -> (m ≫= f) s = f a s'.
Proof. intros H. unfold mbind, M_bind. by rewrite H. Qed.

Lemma stop_bind {A B} (m : P A) (f : A -> P B) s x s' : m s = (inl x, s') -> (m ≫= f) s = (inl x, s').
Proof. intros H. unfold mbind, M_bind. by rewrite H. Qed.

(** ** The depth of a tree is fuel enough *)

Section Fuel.
Context (address : Blob -> Z) (node_xml : positive -> string) (uuid_of : nat -> string) (FILE : string -> string).
Context (swapped : bool) (isInState : string -> bool).
Notation evaluateExpr_fuel := (evaluateExpr_fuel address node_xml uuid_of FILE swapped isInState).
Notation evaluateExpr := (evaluateExpr address node_xml uuid_of FILE swapped isInState).
Notation getVariable := (getVariable uuid_of FILE isInState).
Notation setVariable := (setVariable uuid_of FILE).
Notation evaluate_node := (evaluate_node address node_xml uuid_of FILE swapped isInState).

Lemma bind_ext {A B} (m1 m2 : P A) (f g : A -> P B) : meq m1 m2 -> (forall a, meq (f a) (g a)) -> meq (m1 ≫= f) (m2 ≫= g).
Proof. intros Hm Hf. by apply meq_bind. Qed.

Lemma operand_depth n i o : operands n !! i = Some o -> (node_depth o < node_depth n)%nat.
Proof.
  destruct n as [t v l]. cbn [operands node_depth]. intros Hi%list_elem_of_lookup_2.
  induction l as [|x l IH]; [by apply elem_of_nil in Hi|]. apply elem_of_cons in Hi as [->|Hi]; [lia|]. specialize (IH Hi). lia.
Qed.

Lemma bind_operand {A} i n (f g : Node -> P A) :
  (forall o, (node_depth o < node_depth n)%nat -> meq (f o) (g o)) -> meq (operand i n ≫= f) (operand i n ≫= g).
Proof.
  intros H. unfold operand. destruct (operands n !! i) as [o|] eqn:E; [|done]. apply H. by eapply operand_depth.
Qed.

(** Both sides do the same until they evaluate an operand. *)
Ltac same_steps :=
  repeat first
    [ reflexivity | assumption
    | apply bind_operand; intros ??
    | apply bind_ext; [|intros ?]
    | match goal with |- meq (match ?x with _ => _ end) (match ?x with _ => _ end) => destruct x end ].

Lemma getVariable_ext f g n : (forall o, (node_depth o < node_depth n)%nat -> meq (f o) (g o)) -> meq (getVariable f n) (getVariable g n).
Proof. intros H. unfold Promela.getVariable. same_steps; by apply H. Qed.

Lemma setVariable_ext f g n v : (forall o, (node_depth o < node_depth n)%nat -> meq (f o) (g o)) -> meq (setVariable f n v) (setVariable g n v).
Proof. intros H. unfold Promela.setVariable. same_steps; by apply H. Qed.

Lemma evaluate_node_ext f g n : (forall o, (node_depth o < node_depth n)%nat -> meq (f o) (g o)) -> meq (evaluate_node f n) (evaluate_node g n).
Proof.
  intros H. unfold Promela.evaluate_node. destruct (node_type n); same_steps;
    (apply getVariable_ext || apply setVariable_ext || apply H); try done; intros o1 Ho1; apply H; lia.
Qed.

Lemma fuel_irrelevant n : forall m node, (node_depth node <= n)%nat -> (node_depth node <= m)%nat ->
  meq (evaluateExpr_fuel n node) (evaluateExpr_fuel m node).
Proof.
  induction n as [|n IH]; intros m node Hn Hm; [by destruct node; cbn in Hn; lia|].
  destruct m as [|m]; [by destruct node; cbn in Hm; lia|]. apply evaluate_node_ext. intros o Ho. apply IH; lia.
Qed.

(** A node is evaluated with the values of its operands: the recursion ends. *)
Lemma evaluateExpr_unfold node : meq (evaluateExpr node) (evaluate_node evaluateExpr node).
Proof.
  unfold Promela.evaluateExpr at 1. destruct node as [t v l] eqn:E. rewrite <- E.
  assert (Hd : exists d, node_depth node = S d) by (rewrite E; cbn; eauto). destruct Hd as [d Hd]. rewrite Hd.
  apply evaluate_node_ext. intros o Ho. apply fuel_irrelevant; lia.
Qed.

End Fuel.

(** ** Arithmetic *)

Section Evaluate.
Context (address : Blob -> Z) (node_xml : positive -> string) (uuid_of : nat -> string) (FILE : string -> string).
Context (swapped : bool) (isInState : string -> bool).
Notation evaluateExpr := (evaluateExpr address node_xml uuid_of FILE swapped isInState).
Notation evaluate_node := (evaluate_node address node_xml uuid_of FILE swapped isInState evaluateExpr).
Notation getVariable := (getVariable uuid_of FILE isInState evaluateExpr).
Notation setVariable := (setVariable uuid_of FILE evaluateExpr).
Notation dataToInt := (dataToInt uuid_of FILE).

Definition name_node (x : string) : Node := mkNode PML_NAME x [].
Definition const_node (z : Z) : Node := mkNode PML_CONST (toStr z) [].

Lemma dataToInt_number z t s : is_int z = true -> dataToInt (Data_atom (toStr z) t) s = (inr z, s).
Proof. intros Hz. unfold Promela.dataToInt. cbn [d_atom Data_atom]. rewrite strTo_int_toStr by done. by rewrite String.eqb_refl. Qed.

Lemma toStr_head z : exists c l, explode (toStr z) = c :: l /\ (is_Some (digit_value c) \/ c = "-"%char).
Proof.
  unfold toStr. destruct z as [|p|p]; [exists "0"%char, []; split; [done|left; eauto]| |].
  - change (pretty (Z.pos p)) with (pretty (Npos p)). destruct (read_pretty p) as ([|c l] & -> & Hd & _ & ?); [done|].
    apply Forall_cons in Hd as [Hc _]. exists c, l. auto.
  - exists "-"%char, (explode (pretty (Npos p))). auto.
Qed.

Lemma toStr_no_word z w : (exists c l, explode w = c :: l /\ (c = "f"%char \/ c = "t"%char)) -> iequals (toStr z) w = false.
Proof.
  intros (c & l & Hw & Hc). destruct (toStr_head z) as (d & l' & Hz & Hd). unfold iequals. rewrite Hw, Hz. case_match; [|done].
  cbn [all_pairs]. assert (Ascii.eqb (tolower d) (tolower c) = false) as ->; [|done].
  destruct Hd as [[v Hd]| ->]; [|by destruct Hc as [-> | ->]].
  destruct d as [[] [] [] [] [] [] [] []]; try done; by destruct Hc as [-> | ->].
Qed.

Lemma evaluate_const z s : is_int z = true -> evaluateExpr (const_node z) s = (inr (Data_number z), s).
Proof.
  intros Hz. rewrite (evaluateExpr_unfold address node_xml uuid_of FILE swapped isInState (const_node z) s).
  unfold Promela.evaluate_node. cbn [const_node node_type node_value].
  rewrite !toStr_no_word by (eexists _, _; split; [reflexivity|auto]).
  unfold Promela.known. rewrite strTo_int_toStr by done. done.
Qed.

(** A variable with a value. *)
Definition has_value (s : State) (x : string) (d : Data) : Prop :=
  hasKey (_variables s) x = true /\ hasKey (Data_at (_variables s) x) "value" = true /\ Data_at (Data_at (_variables s) x) "value" = d.

Lemma getVariable_name x d s : has_value s x d -> getVariable (name_node x) s = (inr d, s).
Proof.
  intros (Hx & Hv & Hd). unfold Promela.getVariable. rewrite (run_bind variables _ s (_variables s) s) by done.
  cbn [name_node node_type node_value]. rewrite Hx. unfold value_of. rewrite (run_bind variables _ s (_variables s) s) by done. rewrite Hv.
  cbn. by rewrite Hd.
Qed.

Lemma evaluate_name x d s : has_value s x d ->
  evaluateExpr (name_node x) s =
    (inr (Data_atom (if negb ((length (explode (d_atom d)) =? 0)%nat) && isNumeric (d_atom d) 10 then d_atom d else asJSON node_xml d) VERBATIM), s).
Proof.
  intros Hd. rewrite (evaluateExpr_unfold address node_xml uuid_of FILE swapped isInState (name_node x) s).
  unfold Promela.evaluate_node. cbn [name_node node_type]. change (mkNode PML_NAME x []) with (name_node x).
  unfold mbind, M_bind. rewrite (getVariable_name x d s Hd). by case_match.
Qed.

(** Expressions with integers: every production of [expr] in promela.ypp but
    those for texts and for variables of other types. A constant is what the
    scanner takes for one: digits, or a truth value; a minus in front of them
    is an operator. *)
Inductive expression :=
| Constant (digits : string) | Truth (b : bool) | Variable_ (x : string)
| Negative (e : expression) | Negation (e : expression) | Operation (op : PmlType) (e1 e2 : expression).

Definition truth_text (b : bool) : string := if b then "true" else "false".

Fixpoint tree_of (e : expression) : Node :=
  match e with
  | Constant digits => mkNode PML_CONST digits []
  | Truth b => mkNode PML_CONST (truth_text b) []
  | Variable_ x => name_node x
  | Negative e => mkNode PML_MINUS "" [tree_of e]
  | Negation e => mkNode PML_NEG "" [tree_of e]
  | Operation op e1 e2 => mkNode op "" [tree_of e1; tree_of e2]
  end.

(** The binary operators of the grammar, and those that have no case in
    [evaluateExpr]. *)
Definition is_operator (op : PmlType) : bool :=
  match op with
  | PML_PLUS | PML_MINUS | PML_TIMES | PML_DIVIDE | PML_MODULO | PML_BITAND | PML_BITXOR | PML_BITOR | PML_GT | PML_LT
  | PML_GE | PML_LE | PML_EQ | PML_NE | PML_AND | PML_OR | PML_LSHIFT | PML_RSHIFT => true
  | _ => false
  end.
Definition is_implemented (op : PmlType) : bool :=
  match op with PML_BITAND | PML_BITXOR | PML_BITOR | PML_NE => false | _ => is_operator op end.

(** What an expression evaluates to: a number, whose data is marked as a text
    when a variable was read; an error event; or nothing that C++ defines. *)
Inductive evaluated := Number (z : Z) (t : DataType) | Failed | Undefined_.

(** A text is true when it is not empty, and that of a number is not. *)
Definition is_true (z : Z) (t : DataType) : bool := match t with VERBATIM => true | INTERPRETED => negb (z =? 0) end.

(** The value of an operation on integers, when C++ defines it: the result of
    the arithmetic of integers, truncated towards zero, if an [int] holds it;
    a shift to the left of a number that is not negative, of which 32 bits are
    kept, and one to the right, rounded down. *)
Definition representable (z : Z) : option Z := if is_int z then Some z else None.
Definition wrapped (z : Z) : Z := (z + 2 ^ 31) mod 2 ^ 32 - 2 ^ 31.
Definition operation (op : PmlType) (a : Z) (ta : DataType) (b : Z) (tb : DataType) : option Z :=
  match op with
  | PML_PLUS => representable (a + b)
  | PML_MINUS => representable (a - b)
  | PML_TIMES => representable (a * b)
  | PML_DIVIDE => if b =? 0 then None else representable (Z.quot a b)
  | PML_MODULO => if b =? 0 then None else _ ← representable (Z.quot a b); Some (Z.rem a b)
  | PML_LT => Some (Z.b2z (a <? b))
  | PML_LE => Some (Z.b2z (a <=? b))
  | PML_GT => Some (Z.b2z (b <? a))
  | PML_GE => Some (Z.b2z (b <=? a))
  | PML_EQ => Some (Z.b2z (a =? b))
  | PML_AND => Some (Z.b2z (is_true a ta && is_true b tb))
  | PML_OR => Some (Z.b2z (is_true a ta || is_true b tb))
  | PML_LSHIFT => if (0 <=? b) && (b <? 32) && (0 <=? a) && (Z.shiftl a b <? 2 ^ 32) then Some (wrapped (Z.shiftl a b)) else None
  | PML_RSHIFT => if (0 <=? b) && (b <? 32) then Some (a / 2 ^ b) else None
  | _ => None
  end.

Definition computed (o : option Z) : evaluated := match o with Some z => Number z INTERPRETED | None => Undefined_ end.

Fixpoint denote (rho : string -> Z) (e : expression) : evaluated :=
  match e with
  | Constant digits => Number (Z.min int_max (read_decimal 0 (explode digits))) INTERPRETED
  | Truth b => Number (Z.b2z b) INTERPRETED
  | Variable_ x => Number (rho x) VERBATIM
  | Negative e => match denote rho e with Failed => Failed | _ => Undefined_ end
  | Negation e => match denote rho e with Number z t => Number (Z.b2z (negb (is_true z t))) INTERPRETED | r => r end
  | Operation op e1 e2 =>
      if is_implemented op then
        match denote rho e1, denote rho e2 with
        | Number a ta, Number b tb => computed (if swapped then operation op b tb a ta else operation op a ta b tb)
        | Number _ _, r => r
        | r, _ => r
        end
      else Failed
  end.

(** Constants are digits, operators are those of the grammar, variables hold
    their number. *)
Fixpoint computes (rho : string -> Z) (s : State) (e : expression) : Prop :=
  match e with
  | Constant digits => explode digits <> [] /\ Forall (fun c => is_Some (digit_value c)) (explode digits)
  | Truth _ => True
  | Variable_ x => is_int (rho x) = true /\ exists t, has_value s x (Data_atom (toStr (rho x)) t)
  | Negative e | Negation e => computes rho s e
  | Operation op e1 e2 => is_operator op = true /\ computes rho s e1 /\ computes rho s e2
  end.

(** The state after an error: only the number of events has changed. *)
Definition failed (s : State) : State := mkState (_variables s) (_lastMType s) (S (uuids s)).

Lemma throw_line_run {A} line cause s : exists e, throw_line (A := A) uuid_of FILE line cause s = (inl (ErrorEvent e), failed s).
Proof. eexists. reflexivity. Qed.

Definition gives (r : evaluated) (o : (Exn + Data) * State) (s : State) : Prop :=
  match r with
  | Number z t => o = (inr (Data_atom (toStr z) t), s)
  | Failed => exists e, o = (inl (ErrorEvent e), failed s)
  | Undefined_ => o = (inl Undefined, s)
  end.

Lemma rem_is_int a b : is_int a = true -> is_int b = true -> b <> 0 -> is_int (Z.rem a b) = true.
Proof.
  rewrite !is_int_iff. unfold int_min, int_max. intros Ha Hb Hz. pose proof (Z.rem_bound_abs a b Hz). lia.
Qed.

Lemma b2z_is_int b : is_int (Z.b2z b) = true.
Proof. by destruct b. Qed.

Lemma Data_bool_number b : Data_bool b = Data_number (Z.b2z b).
Proof. by destruct b. Qed.

Lemma read_decimal_nonneg l : forall acc, 0 <= acc -> 0 <= read_decimal acc l.
Proof. induction l as [|c l IH]; intros acc Ha; cbn; [done|]. destruct (digit_value c); [apply IH; lia|done]. Qed.

Lemma shifted_wraps z : 0 <= z < 2 ^ 32 -> wrapped z = (if z <=? int_max then z else z - 2 ^ 32).
Proof.
  intros Hz. unfold wrapped, int_max in *. destruct (Z.leb_spec z (2 ^ 31 - 1)) as [H|H].
  - rewrite Z.mod_small; lia.
  - replace (z + 2 ^ 31) with (z - 2 ^ 31 + 1 * 2 ^ 32) by lia. rewrite Z.mod_add, Z.mod_small by lia. lia.
Qed.

Lemma div_is_int a b : is_int a = true -> 0 <= b -> is_int (a / 2 ^ b) = true.
Proof.
  rewrite !is_int_iff. unfold int_min, int_max. intros Ha Hb. assert (Hp : 0 < 2 ^ b) by (by apply Z.pow_pos_nonneg). split.
  - apply Z.div_le_lower_bound; [done|]. nia.
  - apply Z.div_le_upper_bound; [done|]. nia.
Qed.

(** An arithmetic operator on numbers, as the code and as [operation] do it. *)
Definition is_arithmetic (op : PmlType) : bool :=
  match op with PML_EQ | PML_AND | PML_OR => false | _ => is_implemented op end.

Lemma arithmetic_operation op a ta b tb s : is_arithmetic op = true -> is_int a = true -> is_int b = true ->
  gives (computed (operation op a ta b tb)) (arithmetic op a b s) s.
Proof.
  intros Hop Ha Hb.
  assert (Hr : forall z, gives (computed (representable z)) (checked_int z s) s).
  { intros z. unfold representable, checked_int. by destruct (is_int z). }
  destruct op; try done; cbn [operation arithmetic]; try apply Hr; try (by rewrite Data_bool_number).
  - destruct (b =? 0); [done|apply Hr].
  - destruct (Z.eqb_spec b 0) as [|Hz]; [done|]. unfold representable. destruct (is_int (Z.quot a b)); [|done]. cbn. unfold checked_int.
    by rewrite rem_is_int.
  - destruct (Z.leb_spec 0 b), (Z.ltb_spec b 32), (Z.leb_spec 0 a); try done. rewrite Z.shiftl_mul_pow2 by done. cbn [andb].
    destruct (Z.ltb_spec (a * 2 ^ b) (2 ^ 32)); [|done]. cbn. rewrite shifted_wraps; [done|nia].
  - destruct (Z.leb_spec 0 b), (Z.ltb_spec b 32); try done. cbn [andb computed gives]. by rewrite Z.shiftr_div_pow2.
Qed.

Lemma operation_is_int op a ta b tb v : is_int a = true -> is_int b = true -> operation op a ta b tb = Some v -> is_int v = true.
Proof.
  intros Ha Hb. assert (Hr : forall z, representable z = Some v -> is_int v = true).
  { intros z. unfold representable. destruct (is_int z) eqn:E; [|done]. by intros [= <-]. }
  destruct op; cbn [operation]; try done; try (intros [= <-]; apply b2z_is_int); try apply Hr.
  - destruct (b =? 0); [done|apply Hr].
  - destruct (Z.eqb_spec b 0) as [|Hz]; [done|]. destruct (representable _); [|done]. cbn. intros [= <-]. by apply rem_is_int.
  - destruct (_ && _); [|done]. intros [= <-]. apply is_int_iff. unfold wrapped, int_min, int_max.
    pose proof (Z.mod_pos_bound (Z.shiftl a b + 2 ^ 31) (2 ^ 32) ltac:(lia)). lia.
  - destruct (Z.leb_spec 0 b), (b <? 32); try done. intros [= <-]. by apply div_is_int.
Qed.

Lemma Data_eq_atoms a b t u : a <> b -> Data_eq address (Data_atom a t) (Data_atom b u) = false.
Proof.
  intros Hne. unfold Data_eq, Data_lt. cbn [depth Data_atom]. set (n := Nat.max _ _). cbn in n. subst n. cbn [Data_lt_fuel d_atom Data_atom].
  destruct (String.eqb_spec b a) as [E|_]; [by destruct Hne|]. destruct (String.eqb_spec a b) as [E|_]; [done|]. cbn [negb].
  apply negb_false_iff, orb_true_iff. unfold str_lt. destruct (order_total String.compare b a) as [->|[E| ->]]; [by left|by destruct Hne|by right].
Qed.

Lemma toStr_eqb a b : is_int a = true -> is_int b = true -> String.eqb (toStr a) (toStr b) = (a =? b).
Proof.
  intros Ha Hb. destruct (Z.eqb_spec a b) as [->|Hne]; [apply String.eqb_refl|]. apply String.eqb_neq. intros E.
  apply (f_equal strTo_int) in E. rewrite !strTo_int_toStr in E by done. congruence.
Qed.

Lemma dataToBool_number z t s : is_int z = true -> dataToBool uuid_of FILE (Data_atom (toStr z) t) s = (inr (is_true z t), s).
Proof.
  intros Hz. unfold dataToBool. cbn [d_atom d_type Data_atom]. rewrite toStr_length. destruct t; [done|]. cbn [is_true].
  assert (Hw : forall w, (exists c l, explode w = c :: l /\ (c = "f"%char \/ c = "t"%char)) -> String.eqb (toStr z) w = false).
  { intros w Hw. apply String.eqb_neq. intros <-. pose proof (toStr_no_word z (toStr z) Hw) as E. by rewrite iequals_refl in E. }
  rewrite !Hw by (eexists _, _; split; [reflexivity|auto]). by rewrite (run_bind _ _ s z s) by by apply dataToInt_number.
Qed.

Lemma evaluate_digits digits s : explode digits <> [] -> Forall (fun c => is_Some (digit_value c)) (explode digits) ->
  evaluateExpr (mkNode PML_CONST digits []) s = (inr (Data_number (Z.min int_max (read_decimal 0 (explode digits)))), s).
Proof.
  intros Hne Hd. rewrite (evaluateExpr_unfold address node_xml uuid_of FILE swapped isInState _ s).
  unfold Promela.evaluate_node. cbn [node_type node_value]. destruct (explode digits) as [|c l] eqn:E; [done|].
  apply Forall_cons in Hd as Hcl. destruct Hcl as [Hc _]. destruct (digit_no_sign c Hc) as (H1 & H2 & H3).
  assert (Hw : forall w d l', explode w = d :: l' -> d = "f"%char \/ d = "t"%char -> iequals digits w = false).
  { intros w d l' Hw Hd'. unfold iequals. rewrite Hw, E. case_match; [|done]. cbn [all_pairs].
    assert (Ascii.eqb (tolower c) (tolower d) = false) as ->; [|done]. destruct Hc as [v Hc].
    destruct c as [[] [] [] [] [] [] [] []]; try done; by destruct Hd' as [-> | ->]. }
  rewrite (Hw "false"%string _ _ eq_refl) by auto. rewrite (Hw "true"%string _ _ eq_refl) by auto.
  unfold strTo_int, strTo_signed. rewrite E. cbn [skip_blanks]. rewrite H3, H1, H2.
  pose proof (read_decimal_nonneg (c :: l) 0 ltac:(lia)). rewrite Z.max_r by (unfold int_min, int_max; lia). done.
Qed.

(** The number of a literal fits. *)
Lemma literal_is_int l : is_int (Z.min int_max (read_decimal 0 l)) = true.
Proof. apply is_int_iff. pose proof (read_decimal_nonneg l 0 ltac:(lia)). unfold int_min, int_max in *. lia. Qed.

(** An arithmetic operator takes both numbers first. *)
Lemma evaluate_arithmetic op e1 e2 : is_arithmetic op = true ->
  meq (evaluateExpr (mkNode op "" [e1; e2])) (a ← evaluateExpr e1 ≫= dataToInt; b ← evaluateExpr e2 ≫= dataToInt;
    if swapped then arithmetic op b a else arithmetic op a b).
Proof.
  intros Hop s0. rewrite (evaluateExpr_unfold address node_xml uuid_of FILE swapped isInState _ s0).
  destruct op; try done; unfold Promela.evaluate_node; reflexivity.
Qed.

(** Other ones take both values first. *)
Definition compare_values (op : PmlType) (e1 e2 : Node) (left right : Data) : P Data :=
  match op with
  | PML_EQ =>
      if Data_eq address left right then mret (Data_bool true)
      else if bool_decide (node_type e1 = PML_STRING) || bool_decide (node_type e2 = PML_STRING) ||
              match d_type left, d_type right with VERBATIM, VERBATIM => true | _, _ => false end
      then mret (Data_bool (String.eqb (d_atom left) (d_atom right)))
      else a ← dataToInt left; b ← dataToInt right; mret (Data_bool (a =? b))
  | _ =>
      truthLeft ← dataToBool uuid_of FILE left; truthRight ← dataToBool uuid_of FILE right;
      mret (Data_bool (if decide (op = PML_AND) then truthLeft && truthRight else truthLeft || truthRight))
  end.

Lemma evaluate_comparison op e1 e2 : is_implemented op = true -> is_arithmetic op = false ->
  meq (evaluateExpr (mkNode op "" [e1; e2])) (left ← evaluateExpr e1; right ← evaluateExpr e2; compare_values op e1 e2 left right).
Proof.
  intros Hop Har s0. rewrite (evaluateExpr_unfold address node_xml uuid_of FILE swapped isInState _ s0).
  destruct op; try done; unfold Promela.evaluate_node; reflexivity.
Qed.

Lemma compare_values_run op e1 e2 a ta b tb s : is_implemented op = true -> is_arithmetic op = false ->
  is_int a = true -> is_int b = true ->
  gives (computed (operation op a ta b tb)) (compare_values op e1 e2 (Data_atom (toStr a) ta) (Data_atom (toStr b) tb) s) s.
Proof.
  intros Hop Har Ha Hb. destruct op; try done; cbn [compare_values operation computed gives].
  - destruct (Z.eqb_spec a b) as [<-|Hne].
    + assert (Hb' : Data_bool (a =? a) = Data_atom (toStr (Z.b2z true)) INTERPRETED) by (by rewrite Z.eqb_refl).
      destruct (Data_eq _ _ _); [done|]. destruct (_ || _); [by cbn [d_atom Data_atom]; rewrite String.eqb_refl|].
      by rewrite (run_bind _ _ s a s), (run_bind _ _ s a s), Hb' by by apply dataToInt_number.
    + rewrite Data_eq_atoms by (intros E; apply (f_equal (fun x => String.eqb x (toStr b))) in E;
        rewrite toStr_eqb, String.eqb_refl in E by done; by apply Z.eqb_eq in E).
      destruct (_ || _).
      * cbn [d_atom Data_atom]. rewrite toStr_eqb by done. by rewrite (proj2 (Z.eqb_neq a b) Hne).
      * rewrite (run_bind _ _ s a s), (run_bind _ _ s b s) by by apply dataToInt_number. by rewrite (proj2 (Z.eqb_neq a b) Hne).
  - rewrite (run_bind _ _ s (is_true a ta) s), (run_bind _ _ s (is_true b tb) s) by by apply dataToBool_number.
    rewrite decide_True by done. by rewrite Data_bool_number.
  - rewrite (run_bind _ _ s (is_true a ta) s), (run_bind _ _ s (is_true b tb) s) by by apply dataToBool_number.
    rewrite decide_False by done. by rewrite Data_bool_number.
Qed.

Lemma operation_swapped op a ta b tb : is_arithmetic op = false -> is_implemented op = true ->
  operation op b tb a ta = operation op a ta b tb.
Proof.
  intros Har Hop. destruct op; try done; cbn [operation]; by rewrite Z.eqb_sym || rewrite andb_comm || rewrite orb_comm.
Qed.

(** A value is bound, and an error or undefined behaviour is passed on. *)
Lemma gives_bind r (m : P Data) (f : Data -> P Data) s r' : gives r (m s) s ->
  match r with
  | Number z t => gives r' (f (Data_atom (toStr z) t) s) s
  | _ => r' = r
  end -> gives r' ((m ≫= f) s) s.
Proof.
  destruct r as [z t| |]; cbn [gives].
  - intros Hm Hf. by rewrite (run_bind _ _ _ _ _ Hm).
  - intros [e He] ->. exists e. by rewrite (stop_bind _ _ _ _ _ He).
  - intros Hm ->. by rewrite (stop_bind _ _ _ _ _ Hm).
Qed.

Lemma gives_number r (m : P Data) (f : Z -> P Data) s r' : gives r (m s) s ->
  match r with
  | Number z t => is_int z = true /\ gives r' (f z s) s
  | _ => r' = r
  end -> gives r' (((m ≫= dataToInt) ≫= f) s) s.
Proof.
  destruct r as [z t| |]; cbn [gives].
  - intros Hm [Hz Hf]. rewrite (run_bind _ _ s z s); [done|]. rewrite (run_bind _ _ _ _ _ Hm). by apply dataToInt_number.
  - intros [e He] ->. exists e. erewrite !stop_bind; [done|by apply stop_bind].
  - intros Hm ->. erewrite !stop_bind; [done|by apply stop_bind].
Qed.

Definition number_fits (r : evaluated) : Prop := match r with Number z _ => is_int z = true | _ => True end.

Lemma denote_fits rho e s : computes rho s e -> number_fits (denote rho e).
Proof.
  induction e as [ds|b|x|e IH|e IH|op e1 IH1 e2 IH2]; cbn [denote computes]; intros Hc.
  - apply literal_is_int.
  - apply b2z_is_int.
  - apply Hc.
  - by destruct (denote rho e).
  - specialize (IH Hc). destruct (denote rho e); [apply b2z_is_int|done..].
  - destruct Hc as (_ & Hc1 & Hc2). specialize (IH1 Hc1). specialize (IH2 Hc2). destruct (is_implemented op); [|done].
    destruct (denote rho e1) as [a ta| |], (denote rho e2) as [b tb| |]; try done. cbn [number_fits] in IH1, IH2.
    destruct swapped; [destruct (operation op b tb a ta) eqn:E|destruct (operation op a ta b tb) eqn:E]; try done;
      [by apply (operation_is_int _ _ _ _ _ _ IH2 IH1 E)|by apply (operation_is_int _ _ _ _ _ _ IH1 IH2 E)].
Qed.

Lemma expression_evaluates rho e s : computes rho s e -> gives (denote rho e) (evaluateExpr (tree_of e) s) s.
Proof.
  induction e as [d|b|x|e IH|e IH|op e1 IH1 e2 IH2]; cbn [denote tree_of computes]; intros Hc.
  - destruct Hc. by apply evaluate_digits.
  - rewrite (evaluateExpr_unfold address node_xml uuid_of FILE swapped isInState _ s). by destruct b.
  - destruct Hc as [Hx [t Ht]]. cbn [gives]. rewrite (evaluate_name x _ s Ht). cbn [d_atom Data_atom].
    by rewrite toStr_length, isNumeric_toStr.
  - rewrite (evaluateExpr_unfold address node_xml uuid_of FILE swapped isInState _ s).
    pose proof (denote_fits rho e s Hc) as Hf. unfold Promela.evaluate_node. cbn [node_type]. rewrite (run_bind (operand 0 _) _ s (tree_of e) s) by done.
    apply (gives_number _ _ _ _ _ (IH Hc)). by destruct (denote rho e).
  - rewrite (evaluateExpr_unfold address node_xml uuid_of FILE swapped isInState _ s).
    pose proof (denote_fits rho e s Hc) as Hf. unfold Promela.evaluate_node. cbn [node_type]. rewrite (run_bind (operand 0 _) _ s (tree_of e) s) by done.
    specialize (IH Hc). destruct (denote rho e) as [z t| |]; cbn [gives] in *.
    + rewrite (run_bind _ _ s (is_true z t) s) by (rewrite (run_bind _ _ _ _ _ IH); by apply dataToBool_number). by rewrite Data_bool_number.
    + destruct IH as [e' He]. exists e'. erewrite !stop_bind; [done|by apply stop_bind].
    + erewrite !stop_bind; [done|by apply stop_bind].
  - destruct Hc as (Hop & Hc1 & Hc2). pose proof (denote_fits rho e1 s Hc1) as Hf1. pose proof (denote_fits rho e2 s Hc2) as Hf2.
    specialize (IH1 Hc1). specialize (IH2 Hc2). destruct (is_implemented op) eqn:Hi.
    + destruct (is_arithmetic op) eqn:Har.
      * rewrite (evaluate_arithmetic op _ _ Har s). apply (gives_number _ _ _ _ _ IH1).
        destruct (denote rho e1) as [a ta| |]; [|done..]. split; [done|]. apply (gives_number _ _ _ _ _ IH2).
        destruct (denote rho e2) as [b tb| |]; [|done..]. split; [done|]. by destruct swapped; apply arithmetic_operation.
      * rewrite (evaluate_comparison op _ _ Hi Har s). apply (gives_bind _ _ _ _ _ IH1).
        destruct (denote rho e1) as [a ta| |]; [|done..]. apply (gives_bind _ _ _ _ _ IH2).
        destruct (denote rho e2) as [b tb| |]; [|done..]. rewrite (operation_swapped op a ta b tb Har Hi).
        destruct swapped; by apply compare_values_run.
    + cbn [gives]. rewrite (evaluateExpr_unfold address node_xml uuid_of FILE swapped isInState _ s).
      destruct op; try done; apply throw_line_run.
Qed.

(** C21: an expression over integers of the whole grammar (constants, truth
    values, variables that hold an integer, both prefix operators and all
    eighteen binary ones) evaluates to what it denotes. Arithmetic,
    comparisons, conjunctions and shifts give the number, and are undefined
    exactly when an operation on the way is, such as a division by zero or an
    overflow; a minus in front of an operand is always undefined, since its
    second operand is read past the end of the list; the operators that differ
    and those on bits give an error event, without their operands being
    evaluated; and the negation, conjunction or disjunction of a variable
    takes it for true whatever its number. The variables stay as they are.
    When the compiler takes the operands from the right, the operands of an
    operator change places. *)
Theorem arithmetic_evaluates rho e s : computes rho s e ->
  match denote rho e with
  | Number z t => evaluateExpr (tree_of e) s = (inr (Data_atom (toStr z) t), s)
  | Failed => exists ev, evaluateExpr (tree_of e) s = (inl (ErrorEvent ev), failed s)
  | Undefined_ => evaluateExpr (tree_of e) s = (inl Undefined, s)
  end.
Proof. apply expression_evaluates. Qed.

(** *** Arrays *)

(** An element with any expression as its index. *)
Definition element_node (x : string) (index : Node) : Node := mkNode PML_VAR_ARRAY "" [name_node x; index].

(** The index evaluates to this integer and changes nothing. *)
Definition index_is (index : Node) (i : Z) (s : State) : Prop := (evaluateExpr index ≫= dataToInt) s = (inr i, s).

(** Expressions that denote a number are indices. *)
Lemma expression_index rho e s i t : computes rho s e -> denote rho e = Number i t -> index_is (tree_of e) i s.
Proof.
  intros Hc Hd. pose proof (expression_evaluates rho e s Hc) as He. pose proof (denote_fits rho e s Hc) as Hf. rewrite Hd in He, Hf.
  unfold index_is. rewrite (run_bind _ _ _ _ _ He). by apply dataToInt_number.
Qed.

(** A variable that was declared as an array of this size: its elements are
    those below the size. *)
Record is_array (s : State) (x : string) (n : Z) : Prop := {
  arr_declared : hasKey (_variables s) x = true;
  arr_size : hasKey (Data_at (_variables s) x) "size" = true;
  arr_size_atom : d_atom (Data_at (Data_at (_variables s) x) "size") = toStr n;
  arr_int : is_int n = true;
  arr_value : hasKey (Data_at (_variables s) x) "value" = true;
  arr_elements i : is_Some (map_find Z.compare i (d_array (Data_at (Data_at (_variables s) x) "value"))) <-> 0 <= i < n;
}.

Definition element (s : State) (x : string) (i : Z) : option Data :=
  map_find Z.compare i (d_array (Data_at (Data_at (_variables s) x) "value")).

Lemma index_run z s : is_int z = true -> index_is (const_node z) z s.
Proof. intros Hz. unfold index_is. rewrite (run_bind _ _ _ _ _ (evaluate_const z s Hz)). by apply dataToInt_number. Qed.

Lemma check_index_run line s x n i : is_array s x n ->
  (i < n -> check_index uuid_of FILE line x i s = (inr tt, s)) /\
  (n <= i -> exists e, check_index uuid_of FILE line x i s = (inl (ErrorEvent e), failed s)).
Proof.
  intros Ha. unfold check_index. rewrite (run_bind variables _ s (_variables s) s) by done.
  cbn zeta. rewrite (arr_size_atom _ _ _ Ha), strTo_int_toStr by apply Ha. rewrite (run_bind (known (Some n)) _ s n s) by done.
  split; intros Hi; [by rewrite (proj2 (Z.leb_gt n i) Hi)|]. rewrite (proj2 (Z.leb_le n i) Hi). apply throw_line_run.
Qed.

Lemma element_of_run s x n i : is_array s x n ->
  element_of x i s = (match element s x i with Some d => inr d | None => inl OtherException end, s).
Proof.
  intros Ha. unfold element_of, value_of.
  rewrite (run_bind _ _ s (Data_at (Data_at (_variables s) x) "value") s).
  - unfold element. by case_match.
  - rewrite (run_bind variables _ s (_variables s) s) by done. cbn zeta. by rewrite (arr_value _ _ _ Ha).
Qed.

Lemma getVariable_element s x n index i : is_array s x n -> index_is index i s ->
  getVariable (element_node x index) s = (_ ← check_index uuid_of FILE "651" x i; element_of x i) s.
Proof.
  intros Ha Hi. unfold Promela.getVariable. rewrite (run_bind variables _ s (_variables s) s) by done.
  cbn [element_node node_type]. rewrite (run_bind (operand 0 _) _ s (name_node x) s), (run_bind (operand 1 _) _ s index s) by done.
  rewrite (run_bind _ _ s i s) by done. rewrite (run_bind variables _ s (_variables s) s) by done.
  cbn [node_value name_node]. by rewrite (arr_declared _ _ _ Ha), (arr_size _ _ _ Ha).
Qed.

(** C22: whatever expression the index of an element is, once it evaluates to
    an integer: reading gives the element for an integer within the bounds and
    an error event for one beyond the end, which leaves the variables as they
    are; a negative one, such as that of a variable or of a difference,
    passes the test of the bounds and escapes as an exception that is no
    event. *)
Theorem array_read s x n index i : is_array s x n -> index_is index i s ->
  (0 <= i < n -> exists d, element s x i = Some d /\ evaluateExpr (element_node x index) s = (inr d, s)) /\
  (n <= i -> exists e, evaluateExpr (element_node x index) s = (inl (ErrorEvent e), failed s)) /\
  (i < 0 -> i < n -> evaluateExpr (element_node x index) s = (inl OtherException, s)).
Proof.
  intros Ha Hi. rewrite (evaluateExpr_unfold address node_xml uuid_of FILE swapped isInState (element_node x index) s).
  change (evaluate_node (element_node x index) s) with (getVariable (element_node x index) s). rewrite (getVariable_element s x n index i Ha Hi).
  destruct (check_index_run "651" s x n i Ha) as [Hin Hout]. split_and!.
  - intros Hb. rewrite (run_bind _ _ s tt s) by (apply Hin; lia). rewrite (element_of_run s x n i Ha).
    destruct (proj2 (arr_elements _ _ _ Ha i) Hb) as [d Hd]. exists d. unfold element. by rewrite Hd.
  - intros Hb. destruct (Hout Hb) as [e He]. exists e. by rewrite (stop_bind _ _ _ _ _ He).
  - intros Hb Hn. rewrite (run_bind _ _ s tt s) by by apply Hin. rewrite (element_of_run s x n i Ha).
    unfold element. destruct (map_find Z.compare i _) as [d|] eqn:E; [|done].
    assert (0 <= i < n) by (apply (arr_elements _ _ _ Ha); eauto). lia.
Qed.

Lemma setVariable_element s x n index i v : is_array s x n -> index_is index i s ->
  setVariable (element_node x index) v s =
    (_ ← check_index uuid_of FILE "562" x i; _ ← element_of x i; vars ← variables;
     let a := Data_at (Data_at vars x) "value" in
     set_var x (Data_put "value" (set_array (map_put Z.compare i v (d_array a)) a) (Data_at vars x))) s.
Proof.
  intros Ha Hi. unfold Promela.setVariable. cbn [element_node node_value node_type].
  change (invalid_assignment "") with false. cbv iota. rewrite (run_bind variables _ s (_variables s) s) by done.
  cbn zeta. rewrite (run_bind (operand 0 _) _ s (name_node x) s), (run_bind (operand 1 _) _ s index s) by done.
  cbn [node_value name_node]. rewrite (arr_declared _ _ _ Ha), (arr_size _ _ _ Ha). cbn [negb].
  by rewrite (run_bind _ _ s i s) by done.
Qed.

(** C23: whatever expression the index is, once it evaluates to an integer:
    writing an element within the bounds changes that element and no other
    one, and the array keeps its size; beyond the end it is an error that
    leaves the variables as they are. *)
Theorem array_write s x n index i v : is_array s x n -> index_is index i s ->
  (0 <= i < n -> exists s', setVariable (element_node x index) v s = (inr tt, s') /\ is_array s' x n /\
     element s' x i = Some v /\ (forall j, j <> i -> element s' x j = element s x j) /\
     (forall y, y <> x -> Data_at (_variables s') y = Data_at (_variables s) y)) /\
  (n <= i -> exists e, setVariable (element_node x index) v s = (inl (ErrorEvent e), failed s)).
Proof.
  intros Ha Hi. rewrite (setVariable_element s x n index i v Ha Hi). destruct (check_index_run "562" s x n i Ha) as [Hin Hout]. split.
  - intros Hb. rewrite (run_bind _ _ s tt s) by (apply Hin; lia).
    destruct (proj2 (arr_elements _ _ _ Ha i) Hb) as [d Hd].
    rewrite (run_bind _ _ s d s) by (rewrite (element_of_run s x n i Ha); unfold element; by rewrite Hd).
    rewrite (run_bind variables _ s (_variables s) s) by done. cbn zeta.
    set (a := Data_at (Data_at (_variables s) x) "value").
    set (var := Data_put "value" (set_array (map_put Z.compare i v (d_array a)) a) (Data_at (_variables s) x)).
    exists (mkState (Data_put x var (_variables s)) (_lastMType s) (uuids s)). split; [done|].
    assert (Hel : forall j, element (mkState (Data_put x var (_variables s)) (_lastMType s) (uuids s)) x j = if decide (j = i) then Some v else element s x j).
    { intros j. unfold element. cbn [_variables]. rewrite Data_at_put_eq. unfold var. rewrite Data_at_put_eq. cbn [d_array set_array].
      case_decide as E; [subst; by apply map_find_put_eq, Z.compare_eq_iff|apply map_find_put_ne; [apply Z.compare_eq_iff|congruence]]. }
    split_and!.
    + split.
      6: { intros j. change (is_Some (element (mkState (Data_put x var (_variables s)) (_lastMType s) (uuids s)) x j) <-> 0 <= j < n).
        rewrite Hel. case_decide as E; [subst; split; [done|eauto]|apply Ha]. }
      all: cbn [_variables]; rewrite ?Data_at_put_eq; unfold var; rewrite ?hasKey_put_eq, ?hasKey_put_ne, ?Data_at_put_ne by done; try done; apply Ha.
    + rewrite Hel. by rewrite decide_True.
    + intros j Hj. rewrite Hel. by rewrite decide_False.
    + intros y Hy. cbn [_variables]. apply Data_at_put_ne. congruence.
  - intros Hb. destruct (Hout Hb) as [e He]. exists e. by rewrite (stop_bind _ _ _ _ _ He).
Qed.

Lemma zeros_find n i : is_Some (map_find Z.compare i (zeros n)) <-> 0 <= i < n.
Proof.
  unfold zeros. assert (Hg : forall m k, is_Some (map_find Z.compare i ((fun j => (Z.of_nat j, Data_number 0)) <$> seq k m)) <-> Z.of_nat k <= i < Z.of_nat k + Z.of_nat m).
  { induction m as [|m IH]; intros k; cbn [seq fmap list_fmap map_find]; [split; [by intros [? ?]|lia]|].
    destruct (Z.compare_spec i (Z.of_nat k)) as [->|Hlt|Hgt].
    - split; [lia|eauto].
    - rewrite IH. lia.
    - rewrite IH. lia. }
  rewrite Hg. lia.
Qed.

(** The declaration of an array makes its elements, for a size of at least one. *)
Theorem array_declared vis type x n s : is_int n = true -> 0 < n ->
  exists s', evaluateDecl address node_xml uuid_of FILE swapped isInState
      (mkNode PML_DECL "" [vis; type; mkNode PML_VARLIST "" [element_node x (const_node n)]]) s = (inr tt, s') /\
    is_array s' x n /\ forall y, y <> x -> Data_at (_variables s') y = Data_at (_variables s) y.
Proof.
  intros Hn Hpos. unfold evaluateDecl.
  set (item := element_node x (const_node n)). cbn [node_depth]. set (d := Nat.max _ _). cbn [evaluateDecl_fuel node_type].
  rewrite (run_bind (operand 0 _) _ s vis s), (run_bind (operand 1 _) _ s type s), (run_bind (operand 2 _) _ s (mkNode PML_VARLIST "" [item]) s) by done.
  cbn [operands forM_]. set (variable := Data_put "type" (Data_atom (node_value type) VERBATIM) (Data_put "vis" (Data_atom (node_value vis) VERBATIM) Data_empty)).
  set (var := Data_put "value" (set_array (zeros n) Data_empty) (Data_put "size" (Data_number n) variable)).
  set (s' := mkState (Data_put x var (_variables s)) (_lastMType s) (uuids s)). exists s'.
  assert (Hone : declare_one address node_xml uuid_of FILE swapped isInState vis type item s = (inr tt, s')).
  { unfold declare_one, item. cbn [element_node node_type].
    rewrite (run_bind (operand 0 _) _ s (name_node x) s), (run_bind (operand 1 _) _ s (const_node n) s) by done.
    rewrite (run_bind _ _ s n s) by by apply index_run. by rewrite (proj2 (Z.ltb_lt 0 n) Hpos). }
  rewrite (run_bind _ _ s tt s' Hone). split_and!; [done| |].
  - split; unfold s'; cbn [_variables]; rewrite ?Data_at_put_eq.
    6: { intros i. unfold var. rewrite Data_at_put_eq. cbn [d_array set_array]. apply zeros_find. }
    all: unfold var; rewrite ?hasKey_put_eq, ?hasKey_put_ne, ?Data_at_put_ne, ?hasKey_put_eq, ?Data_at_put_eq by done; done.
  - intros y Hy. unfold s'. cbn [_variables]. apply Data_at_put_ne. congruence.
Qed.

(** *** Truth and equality of variables *)

Lemma app_nonempty (a b : string) : explode a <> [] -> explode (a +:+ b) <> [].
Proof. by destruct a. Qed.

Lemma asJSON_nonempty d : (length (explode (asJSON node_xml d)) =? 0)%nat = false.
Proof.
  assert (H : explode (asJSON node_xml d) <> []).
  { unfold asJSON. destruct d as [[|[k v] c] [|[i w] a] at_ n b t]; cbn [toJSON]; try (by apply app_nonempty).
    destruct (0 <? length (explode at_))%nat eqn:E; [destruct t; [by apply app_nonempty|by destruct at_]|].
    destruct n; [by apply app_nonempty|by destruct t]. }
  by destruct (explode (asJSON node_xml d)).
Qed.

Lemma evaluate_name_text x d s : has_value s x d ->
  exists text, evaluateExpr (name_node x) s = (inr (Data_atom text VERBATIM), s) /\ (length (explode text) =? 0)%nat = false.
Proof.
  intros Hd. rewrite (evaluate_name x d s Hd). eexists. split; [done|].
  destruct (length (explode (d_atom d)) =? 0)%nat eqn:E; cbn [negb andb]; [apply asJSON_nonempty|].
  case_match; [done|apply asJSON_nonempty].
Qed.

(** The negation of a variable is false whatever the variable holds, zero
    and the empty text included: its value is read as a text, and a text is
    true when it is not empty. *)
Theorem negated_variable x d s : has_value s x d ->
  evaluateExpr (mkNode PML_NEG "" [name_node x]) s = (inr (Data_bool false), s).
Proof.
  intros Hd. destruct (evaluate_name_text x d s Hd) as (text & Ht & Hne).
  rewrite (evaluateExpr_unfold address node_xml uuid_of FILE swapped isInState _ s).
  unfold Promela.evaluate_node. cbn [node_type]. rewrite (run_bind (operand 0 _) _ s (name_node x) s) by done.
  rewrite (run_bind _ _ s true s); [done|]. rewrite (run_bind _ _ _ _ _ Ht). unfold dataToBool. cbn [d_atom Data_atom]. by rewrite Hne.
Qed.

Lemma jsonEscape_length l : (length l <= length (jsonEscape l))%nat.
Proof. induction l as [|c l IH]; cbn; [done|]. destruct (json_escape_letter c); cbn; lia. Qed.

(** A variable that was assigned a text, and is not a number, is different
    from the literal of that text. *)
Theorem text_variable_differs x (text : string) s :
  has_value s x (Data_atom text VERBATIM) -> explode text <> [] -> isNumeric text 10 = false ->
  evaluateExpr (mkNode PML_EQ "" [name_node x; mkNode PML_STRING (quote +:+ text +:+ quote) []]) s = (inr (Data_bool false), s).
Proof.
  intros Hx Hne Hnum.
  set (lit := mkNode PML_STRING (quote +:+ text +:+ quote) []).
  assert (Hlit : evaluateExpr lit s = (inr (Data_atom text VERBATIM), s)).
  { rewrite (evaluateExpr_unfold address node_xml uuid_of FILE swapped isInState _ s). unfold Promela.evaluate_node, lit.
    cbn [node_type node_value]. rewrite (run_bind _ _ s text s); [done|]. unfold strip_quotes.
    change (explode (quote +:+ text +:+ quote)) with (Ascii.ascii_of_nat 34 :: explode (text +:+ quote)).
    rewrite explode_app, length_app. cbn [length]. rewrite Nat.add_sub, take_app_length. by rewrite implode_explode. }
  assert (Hval : evaluateExpr (name_node x) s = (inr (Data_atom (quote +:+ escaped text +:+ quote) VERBATIM), s)).
  { rewrite (evaluate_name x _ s Hx). cbn [d_atom Data_atom]. rewrite Hnum, andb_false_r. unfold asJSON, Data_atom. cbn [toJSON].
    assert ((0 <? length (explode text))%nat = true) as ->; [|done]. apply Nat.ltb_lt. destruct (explode text); [done|cbn; lia]. }
  assert (Hlen : (quote +:+ escaped text +:+ quote)%string <> text).
  { intros E. apply (f_equal (fun t => length (explode t))) in E. rewrite !explode_app, !length_app in E.
    unfold escaped in E. rewrite explode_implode in E. cbn [quote explode String.list_ascii_of_string length] in E.
    pose proof (jsonEscape_length (explode text)). lia. }
  rewrite (evaluateExpr_unfold address node_xml uuid_of FILE swapped isInState _ s). unfold Promela.evaluate_node. cbn [node_type].
  rewrite (run_bind (operand 0 _) _ s (name_node x) s), (run_bind (operand 1 _) _ s lit s) by done.
  rewrite (run_bind _ _ _ _ _ Hval), (run_bind _ _ _ _ _ Hlit).
  rewrite (Data_eq_atoms _ _ _ _ Hlen). cbn [node_type name_node lit d_type d_atom Data_atom]. rewrite bool_decide_false, bool_decide_true by done. cbn [orb].
  by rewrite (proj2 (String.eqb_neq _ _) Hlen).
Qed.

(** *** System variables *)

(** The variables of the system cannot be assigned by name, but their
    fields can. *)
Theorem system_variable_fields x f v s :
  invalid_assignment x = true -> hasKey (_variables s) x = true -> hasKey (Data_at (_variables s) x) "size" = false ->
  (exists e, setVariable (name_node x) v s = (inl (ErrorEvent e), failed s)) /\
  (exists s', setVariable (mkNode PML_CMPND "" [name_node x; name_node f]) v s = (inr tt, s') /\
     Data_at (Data_at (Data_at (_variables s') x) "value") f = v).
Proof.
  intros Hx Hk Hs. split.
  - unfold Promela.setVariable. cbn [name_node node_value]. rewrite Hx. apply throw_line_run.
  - unfold Promela.setVariable. cbn [node_value node_type]. change (invalid_assignment "") with false. cbv iota.
    rewrite (run_bind variables _ s (_variables s) s), (run_bind (operand 0 _) _ s (name_node x) s) by done.
    cbn [node_value name_node]. rewrite Hk, Hs. cbn [negb]. cbn zeta. eexists. split; [reflexivity|].
    cbn [_variables drop operands fmap list_fmap node_value put_path]. by rewrite !Data_at_put_eq.
Qed.

End Evaluate.

(** ** Events *)

(** An event whose first parameter has no atom - it is structured or
    empty - cannot be given to the data model: the parameter is taken for a
    number, and the number is never read. *)
Theorem structured_parameter event k v params s :
  e_params event = (k, v) :: params -> d_atom v = ""%string -> (setEvent event s).1 = inl Undefined.
Proof.
  intros Hp Hv.
  assert (Ha : forall d, put_adopted (k, v) d s = (inl Undefined, s)).
  { intros d. unfold put_adopted. cbn [fst snd]. apply stop_bind. unfold adopt. by rewrite Hv. }
  unfold setEvent. rewrite Hp. cbn zeta. cbn [first_params foldM].
  rewrite (stop_bind _ _ s Undefined s); [done|]. apply stop_bind, Ha.
Qed.

(** ** Declared variables stay declared *)

Section Declared.
Context (address : Blob -> Z) (node_xml : positive -> string) (uuid_of : nat -> string) (FILE : string -> string) `{Trim}.
Context (parse : string -> ParseError + (ParserType * Node)) (swapped : bool) (isInState : string -> bool) (x : string).

Definition declared (s : State) : Prop := hasKey (_variables s) x = true.
Definition keeps {A} (m : P A) : Prop := hoare declared m (fun _ => declared) declared.

Lemma stays_bind {A B} (m : P A) (f : A -> P B) : keeps m -> (forall a, keeps (f a)) -> keeps (m ≫= f).
Proof. intros Hm Hf. by eapply hoare_bind. Qed.

Lemma stays_ret {A} (a : A) : keeps (mret a).
Proof. by intros s. Qed.

Lemma stays_throw {A} e : keeps (throw (A := A) e).
Proof. by intros s. Qed.

Lemma stays_set_var name v : keeps (set_var name v).
Proof.
  intros s Hs. change (hasKey (Data_put name v (_variables s)) x = true).
  destruct (decide (name = x)) as [->|Hne]; [apply hasKey_put_eq|]. by rewrite hasKey_put_ne.
Qed.

Lemma stays_get : keeps get.
Proof. by intros s. Qed.

Lemma stays_count (f : State -> State) : (forall s, _variables (f s) = _variables s) -> keeps (modify f).
Proof. intros Hf s. unfold declared. cbn. by rewrite Hf. Qed.

Lemma stays_forM {A} (l : list A) f : (forall a, keeps (f a)) -> keeps (forM_ l f).
Proof. intros Hf. apply hoare_forM_inv. intros a _. apply Hf. Qed.

Lemma stays_foldM {A B} (f : A -> B -> P B) l : (forall a b, keeps (f a b)) -> forall b, keeps (foldM f l b).
Proof. intros Hf. induction l as [|a l IH]; intros b; [apply stays_ret|]. cbn [foldM]. by apply stays_bind. Qed.

Lemma stays_catch_error {A} (m : P A) h : keeps m -> (forall e, keeps (h e)) -> keeps (catch_error m h).
Proof.
  intros Hm Hh s Hs. specialize (Hm s Hs). unfold catch_error. destruct (m s) as [[[]|] s']; try done. by apply Hh.
Qed.

Lemma stays_catch_event {A} (m : P A) h : keeps m -> (forall e, keeps (h e)) -> keeps (catch_event m h).
Proof.
  intros Hm Hh s Hs. specialize (Hm s Hs). unfold catch_event. destruct (m s) as [[[]|] s']; try done; by apply Hh.
Qed.

#[local] Hint Resolve stays_ret stays_throw stays_set_var stays_get stays_count : core.

(** The composition of steps that keep it. *)
Ltac keep :=
  repeat first
    [ progress eauto | apply stays_forM; intros ? | apply stays_foldM; intros ?? | apply stays_catch_error; [|intros ?]
    | apply stays_catch_event; [|intros ?] | apply stays_bind; [|intros ?]
    | match goal with |- keeps (match ?e with _ => _ end) => destruct e end ].

Lemma stays_throw_at {A} file line cause : keeps (throw_at (A := A) uuid_of FILE file line cause).
Proof. unfold throw_at. keep. Qed.

Lemma stays_throw_line {A} line cause : keeps (throw_line (A := A) uuid_of FILE line cause).
Proof. apply stays_throw_at. Qed.
#[local] Hint Resolve stays_throw_at stays_throw_line : core.

Lemma stays_operand i n : keeps (operand i n).
Proof. unfold operand. keep. Qed.

Lemma stays_known o : keeps (known o).
Proof. unfold known. keep. Qed.

Lemma stays_variables : keeps variables.
Proof. unfold variables. keep. Qed.

Lemma stays_dataToInt d : keeps (dataToInt uuid_of FILE d).
Proof. unfold dataToInt. keep. Qed.
#[local] Hint Resolve stays_operand stays_known stays_variables stays_dataToInt : core.

Lemma stays_dataToBool d : keeps (dataToBool uuid_of FILE d).
Proof. unfold dataToBool. keep. Qed.

Lemma stays_arithmetic op a b : keeps (arithmetic op a b).
Proof. unfold arithmetic, checked_int. keep. Qed.

Lemma stays_strip s : keeps (strip_quotes s).
Proof. unfold strip_quotes. keep. Qed.

Lemma stays_value_of name : keeps (value_of name).
Proof. unfold value_of. keep. Qed.
#[local] Hint Resolve stays_dataToBool stays_arithmetic stays_strip stays_value_of : core.

Lemma stays_element_of name i : keeps (element_of name i).
Proof. unfold element_of. keep. Qed.

Lemma stays_check_index line name i : keeps (check_index uuid_of FILE line name i).
Proof. unfold check_index. keep. Qed.

Lemma stays_follow keys : forall path d, keeps (follow uuid_of FILE path keys d).
Proof. induction keys as [|k keys IH]; intros path d; cbn [follow]; keep. Qed.
#[local] Hint Resolve stays_element_of stays_check_index stays_follow : core.

Section Eval.
Context (eval : Node -> P Data) (Heval : forall n, keeps (eval n)).
#[local] Hint Resolve Heval : core.

Lemma stays_getVariable n : keeps (getVariable uuid_of FILE isInState eval n).
Proof. unfold getVariable. keep. Qed.

Lemma stays_setVariable n v : keeps (setVariable uuid_of FILE eval n v).
Proof. unfold setVariable. keep. Qed.
#[local] Hint Resolve stays_getVariable stays_setVariable : core.

Lemma stays_evaluate_node n : keeps (evaluate_node address node_xml uuid_of FILE swapped isInState eval n).
Proof. unfold evaluate_node. keep. Qed.
End Eval.

Lemma stays_evaluateExpr n : keeps (evaluateExpr address node_xml uuid_of FILE swapped isInState n).
Proof.
  unfold evaluateExpr. generalize (node_depth n) as fuel. intros fuel. revert n.
  induction fuel as [|fuel IH]; intros n; cbn [evaluateExpr_fuel]; [apply stays_throw|by apply stays_evaluate_node].
Qed.
#[local] Hint Resolve stays_evaluateExpr stays_getVariable stays_setVariable : core.

Lemma stays_declare_one vis type item : keeps (declare_one address node_xml uuid_of FILE swapped isInState vis type item).
Proof. unfold declare_one, next_mtype. keep. Qed.
#[local] Hint Resolve stays_declare_one : core.

Lemma stays_evaluateDecl n : keeps (evaluateDecl address node_xml uuid_of FILE swapped isInState n).
Proof.
  unfold evaluateDecl. generalize (node_depth n) as fuel. intros fuel. revert n.
  induction fuel as [|fuel IH]; intros n; cbn [evaluateDecl_fuel]; keep.
Qed.

Lemma stays_parser expr : keeps (PromelaParser uuid_of FILE parse expr).
Proof. unfold PromelaParser. keep. Qed.
#[local] Hint Resolve stays_evaluateDecl stays_parser : core.

Lemma stays_ast_of expr : keeps (ast_of uuid_of FILE parse expr).
Proof. unfold ast_of. keep. Qed.

Lemma stays_ast_as t expr : keeps (ast_as uuid_of FILE parse t expr).
Proof. unfold ast_as. keep. Qed.

Lemma stays_from_json text : keeps (from_json uuid_of FILE text).
Proof. unfold from_json. keep. Qed.
#[local] Hint Resolve stays_ast_of stays_ast_as stays_from_json : core.

Lemma stays_evalAsData expr : keeps (evalAsData address node_xml uuid_of FILE parse swapped isInState expr).
Proof. unfold evalAsData. keep. Qed.
#[local] Hint Resolve stays_evalAsData : core.

Lemma stays_set_or_declare what ast v : keeps v ->
  keeps (set_or_declare address node_xml uuid_of FILE parse swapped isInState what ast v).
Proof. intros Hv. unfold set_or_declare. keep. Qed.
#[local] Hint Resolve stays_set_or_declare : core.

Lemma stays_adopted e d : keeps (put_adopted e d).
Proof. unfold put_adopted, adopt. keep. Qed.
#[local] Hint Resolve stays_adopted : core.

(** The operations that the interpreter calls. *)
Inductive Call :=
| EvalAsBool (expr : string) | EvalAsData (expr : string) | GetAsData (content : string) | GetLength (expr : string)
| SetForeach (item array index : string) (iteration : Z) | Assign (location : string) (data : Data)
| Init (location : string) (data : Data) (attr : list (string * string)) | SetEvent (event : Event).

Definition run_call (c : Call) : P unit :=
  let done {A} (m : P A) : P unit := _ ← m; mret tt in
  match c with
  | EvalAsBool expr => done (evalAsBool address node_xml uuid_of FILE parse swapped isInState expr)
  | EvalAsData expr => done (evalAsData address node_xml uuid_of FILE parse swapped isInState expr)
  | GetAsData content => done (getAsData address node_xml uuid_of FILE parse swapped isInState content)
  | GetLength expr => done (getLength uuid_of FILE parse expr)
  | SetForeach item array index i => setForeach address node_xml uuid_of FILE parse swapped isInState item array index i
  | Assign location data => assign address node_xml uuid_of FILE parse swapped isInState location data
  | Init location data attr => init address node_xml uuid_of FILE parse swapped isInState location data attr
  | SetEvent event => setEvent event
  end.

(** A variable that is declared stays declared, whatever the data model is
    asked to do and whether it succeeds or throws. *)
Theorem declared_stays c s : hasKey (_variables s) x = true -> hasKey (_variables (run_call c s).2) x = true.
Proof.
  intros Hs. assert (Hk : keeps (run_call c)).
  { destruct c; cbn [run_call]; unfold evalAsBool, getAsData, getLength, isDeclared, setForeach, assign, init, setEvent; keep. }
  specialize (Hk s Hs). by destruct (run_call c s) as [[e|[]] s'].
Qed.

End Declared.

(** ** Samples *)

Section Samples.
Notation eval := (evaluateExpr some_address (fun _ => ""%string) (fun _ => ""%string) id false (fun _ => false)).
Notation eval_swapped := (evaluateExpr some_address (fun _ => ""%string) (fun _ => ""%string) id true (fun _ => false)).

(** An integer, an array of two elements, a text, and an event. *)
Definition a_variable (value : Data) : Data := Data_put "value" value (Data_put "type" (Data_atom "int" VERBATIM) Data_empty).
Definition sample_state : State :=
  mkState
    (Data_put "zero" (a_variable (Data_number 0))
      (Data_put "seven" (a_variable (Data_number 7))
        (Data_put "word" (a_variable (Data_atom "on" VERBATIM))
          (Data_put "below" (a_variable (Data_number (-1)))
          (Data_put "_event" (a_variable (Data_put "name" (Data_atom "e" VERBATIM) Data_empty))
            (Data_put "row" (Data_put "size" (Data_number 2) (a_variable (set_array (zeros 2) Data_empty))) Data_empty)))))) 0 0.

Definition sample_values (x : string) : Z := if String.eqb x "seven" then 7 else if String.eqb x "below" then -1 else 0.

(** [seven - 3], [65536 * 65536], [seven != 3] and [!zero]. *)
Definition difference : expression := Operation PML_MINUS (Variable_ "seven") (Constant "3").
Definition too_large : expression := Operation PML_TIMES (Constant "65536") (Constant "65536").
Definition different : expression := Operation PML_NE (Variable_ "seven") (Constant "3").

Ltac sample_computes :=
  cbn [computes difference too_large different]; split_and?; try done; try (eexists; split_and!; by vm_compute);
  repeat (apply Forall_cons; split; [by eexists|]); constructor.

Lemma sample_expressions :
  Forall (computes sample_values sample_state) [difference; too_large; different; Negation (Variable_ "zero"); Negative (Constant "1")].
Proof. repeat (apply Forall_cons; split; [sample_computes|]). constructor. Qed.

Lemma arithmetic_evaluates_witness :
  eval (tree_of difference) sample_state = (inr (Data_number 4), sample_state) /\
  eval_swapped (tree_of difference) sample_state = (inr (Data_number (-4)), sample_state) /\
  eval (tree_of too_large) sample_state = (inl Undefined, sample_state) /\
  (exists e, eval (tree_of different) sample_state = (inl (ErrorEvent e), failed sample_state)) /\
  eval (tree_of (Negation (Variable_ "zero"))) sample_state = (inr (Data_number 0), sample_state) /\
  eval (tree_of (Negative (Constant "1"))) sample_state = (inl Undefined, sample_state).
Proof.
  pose proof sample_expressions as Hc. rewrite !Forall_cons in Hc. destruct Hc as (H1 & H2 & H3 & H4 & H5 & _).
  pose proof (arithmetic_evaluates some_address (fun _ => ""%string) (fun _ => ""%string) id false (fun _ => false) sample_values) as He.
  pose proof (arithmetic_evaluates some_address (fun _ => ""%string) (fun _ => ""%string) id true (fun _ => false) sample_values) as Hs.
  split_and!; [exact (He _ _ H1)|exact (Hs _ _ H1)|exact (He _ _ H2)|exact (He _ _ H3)|exact (He _ _ H4)|exact (He _ _ H5)].
Defined.

Lemma sample_array : is_array sample_state "row" 2.
Proof.
  split; try by vm_compute. intros i. change (d_array _) with (zeros 2). apply zeros_find.
Qed.

Lemma sample_index i e : computes sample_values sample_state e -> (exists t, denote false sample_values e = Number i t) ->
  index_is some_address (fun _ => ""%string) (fun _ => ""%string) id false (fun _ => false) (tree_of e) i sample_state.
Proof. intros Hc [t Ht]. by eapply expression_index. Qed.

Lemma array_read_witness :
  eval (element_node "row" (tree_of (Constant "1"))) sample_state = (inr (Data_number 0), sample_state) /\
  (exists e, eval (element_node "row" (tree_of (Variable_ "seven"))) sample_state = (inl (ErrorEvent e), failed sample_state)) /\
  eval (element_node "row" (tree_of (Variable_ "below"))) sample_state = (inl OtherException, sample_state) /\
  eval (element_node "row" (tree_of (Operation PML_MINUS (Constant "0") (Constant "1")))) sample_state = (inl OtherException, sample_state).
Proof.
  pose proof (array_read some_address (fun _ => ""%string) (fun _ => ""%string) id false (fun _ => false) sample_state "row" 2) as Hr.
  assert (H1 := sample_index 1 (Constant "1") ltac:(sample_computes) ltac:(by eexists)).
  assert (H7 := sample_index 7 (Variable_ "seven") ltac:(sample_computes) ltac:(by eexists)).
  assert (Hb := sample_index (-1) (Variable_ "below") ltac:(sample_computes) ltac:(by eexists)).
  assert (Hm := sample_index (-1) (Operation PML_MINUS (Constant "0") (Constant "1")) ltac:(sample_computes) ltac:(by eexists)).
  split_and!.
  - destruct (proj1 (Hr _ _ sample_array H1) ltac:(lia)) as (d & Hd & ->). vm_compute in Hd. by injection Hd as <-.
  - by apply (Hr _ _ sample_array H7).
  - by apply (Hr _ _ sample_array Hb).
  - by apply (Hr _ _ sample_array Hm).
Defined.

Lemma array_write_witness :
  exists s', setVariable (fun _ => ""%string) id eval (element_node "row" (tree_of (Constant "1"))) (Data_number 5) sample_state = (inr tt, s') /\
    element s' "row" 1 = Some (Data_number 5) /\ element s' "row" 0 = Some (Data_number 0).
Proof.
  assert (H1 := sample_index 1 (Constant "1") ltac:(sample_computes) ltac:(by eexists)).
  destruct (proj1 (array_write some_address (fun _ => ""%string) (fun _ => ""%string) id false (fun _ => false)
    sample_state "row" 2 _ 1 (Data_number 5) sample_array H1) ltac:(lia)) as (s' & Hs & _ & He & Ho & _).
  exists s'. split_and!; [done|done|]. by rewrite Ho.
Defined.

Lemma array_declared_witness :
  exists s', evaluateDecl some_address (fun _ => ""%string) (fun _ => ""%string) id false (fun _ => false)
      (mkNode PML_DECL "" [mkNode PML_SHOW "" []; mkNode PML_TYPE "int" []; mkNode PML_VARLIST "" [element_node "y" (const_node 3)]]) sample_state = (inr tt, s') /\
    is_array s' "y" 3.
Proof.
  destruct (array_declared some_address (fun _ => ""%string) (fun _ => ""%string) id false (fun _ => false)
    (mkNode PML_SHOW "" []) (mkNode PML_TYPE "int" []) "y" 3 sample_state eq_refl ltac:(lia)) as (s' & Hs & Ha & _).
  exists s'. done.
Defined.

Lemma negated_variable_witness :
  eval (mkNode PML_NEG "" [name_node "zero"]) sample_state = (inr (Data_bool false), sample_state) /\
  eval (mkNode PML_NEG "" [const_node 0]) sample_state = (inr (Data_bool true), sample_state).
Proof.
  split; [|by vm_compute].
  apply (negated_variable some_address (fun _ => ""%string) (fun _ => ""%string) id false (fun _ => false) "zero" (Data_number 0)). by vm_compute.
Defined.

Lemma text_variable_differs_witness :
  eval (mkNode PML_EQ "" [name_node "word"; mkNode PML_STRING (quote +:+ "on" +:+ quote) []]) sample_state = (inr (Data_bool false), sample_state).
Proof.
  apply (text_variable_differs some_address (fun _ => ""%string) (fun _ => ""%string) id false (fun _ => false) "word" "on"); by vm_compute.
Defined.

Lemma system_variable_fields_witness :
  exists s', setVariable (fun _ => ""%string) id eval (mkNode PML_CMPND "" [name_node "_event"; name_node "name"]) (Data_number 1) sample_state = (inr tt, s') /\
    Data_at (Data_at (Data_at (_variables s') "_event") "value") "name" = Data_number 1.
Proof.
  apply (system_variable_fields some_address (fun _ => ""%string) (fun _ => ""%string) id false (fun _ => false) "_event" "name" (Data_number 1) sample_state); by vm_compute.
Defined.

Definition with_param (v : Data) : Event :=
  mkEvent "" "e" EXTERNAL "" "" "" false "" Data_empty [] [("p"%string, v)] "".

Lemma structured_parameter_witness :
  (setEvent (with_param (Data_put "k" (Data_number 1) Data_empty)) sample_state).1 = inl Undefined.
Proof.
  exact (structured_parameter (with_param (Data_put "k" (Data_number 1) Data_empty)) "p" (Data_put "k" (Data_number 1) Data_empty) [] sample_state eq_refl eq_refl).
Defined.

(** A parser for the texts below: declarations of a name, and names. *)
Definition toy_parse (expr : string) : ParseError + (ParserType * Node) :=
  if String.eqb expr "auto x"
  then inr (PROMELA_DECL, mkNode PML_DECL "" [mkNode PML_SHOW "" []; mkNode PML_TYPE "auto" []; mkNode PML_VARLIST "" [name_node "x"]])
  else inr (PROMELA_EXPR, name_node expr).
#[local] Instance toy_trim : Trim := { trim_copy s := s }.
Notation run := (run_call some_address (fun _ => ""%string) (fun _ => ""%string) id toy_parse false (fun _ => false)).

Lemma declared_stays_witness : hasKey (_variables (run (Init "x" Data_empty []) sample_state).2) "seven" = true.
Proof.
  exact (declared_stays some_address (fun _ => ""%string) (fun _ => ""%string) id toy_parse false (fun _ => false) "seven"
    (Init "x" Data_empty []) sample_state eq_refl).
Defined.

(** The value that is read from JSON is overwritten with its text at once. *)
Example initial_json_lost :
  let s := (run (Init "x" (Data_atom "[1,2]" INTERPRETED) []) sample_state).2 in
  Data_at (Data_at (_variables s) "x") "value" = Data_atom "[1,2]" INTERPRETED.
Proof. by vm_compute. Qed.

(** The text [row[-1]] is no negative index but a minus with one operand. *)
Example minus_index : (eval (element_node "row" (tree_of (Negative (Constant "1")))) sample_state).1 = inl Undefined.
Proof. by vm_compute. Qed.

(** A literal that no [int] holds is the greatest one. *)
Example large_literal : (eval (tree_of (Constant "99999999999")) sample_state).1 = inr (Data_number int_max).
Proof. by vm_compute. Qed.

(** An error in an initial value is thrown on as a plain event. *)
Example initial_value_error :
  exists e, (evaluateDecl some_address (fun _ => ""%string) (fun _ => ""%string) id false (fun _ => false)
    (mkNode PML_DECL "" [mkNode PML_SHOW "" []; mkNode PML_TYPE "int" []; mkNode PML_VARLIST "" [mkNode PML_ASGN "" [name_node "y"; name_node "none"]]]) sample_state).1
    = inl (PlainEvent e).
Proof. eexists. by vm_compute. Qed.

End Samples.
