(* ===== verification/PmlQueue.v ===== *)
(** * The emitted Promela program: channels and delays

    [ChartToPromela] (transform/ChartToPromela.cpp) prints a model for the
    checker Spin in which every machine has an internal and an external channel
    of events. Time does not pass by itself: an event carries its delay, the
    external channels are kept in the order of delays, and a scheduler lets the
    machines run whose first event is due. This file models the inline
    functions that keep that order, on channels of bounded size, and shows what
    they do. A statement that Spin cannot execute is [None]; inside of a d_step
    it is an error of the model. *)

From stdpp Require Import base list gmap sorting.
From S2P Require Import Prelude.

Local Open Scope nat_scope.

(** ** Channels *)

Record chan (E : Type) := mkChan { ch_size : nat; ch_msgs : list E }.
Arguments mkChan {E}. Arguments ch_size {E}. Arguments ch_msgs {E}.

Section Channels.
Context {E : Type}.

Definition len (q : chan E) : nat := length (ch_msgs q).

(** [q ? x] *)
Definition receive (q : chan E) : option (E * chan E) :=
  match ch_msgs q with
  | e :: l => Some (e, mkChan (ch_size q) l)
  | [] => None
  end.

(** [q ! x] *)
Definition enqueue (e : E) (q : chan E) : option (chan E) :=
  if len q <? ch_size q then Some (mkChan (ch_size q) (ch_msgs q ++ [e])) else None.

End Channels.

(** ** Events: [_event_t] as [writeCommonTypeDefs] prints it

    [D] is the type of the remaining fields. *)

Record _event_t (D : Type) := mkEventT {
  v_delay : Z;
  v_name : Z;
  v_invokeid : Z;
  v_origin : Z;
  v_sendid : Z;
  v_rest : D;
}.
Arguments mkEventT {D}. Arguments v_delay {D}. Arguments v_name {D}. Arguments v_invokeid {D}.
Arguments v_origin {D}. Arguments v_sendid {D}. Arguments v_rest {D}.

Definition with_delay {D} (d : Z) (e : _event_t D) : _event_t D :=
  mkEventT d (v_name e) (v_invokeid e) (v_origin e) (v_sendid e) (v_rest e).

Section Inlines.
Context {D : Type}.
Notation event := (_event_t D).
Notation queue := (chan event).

(** *** [writeInsertWithDelay] *)

(** Move all events but the last one to [_iwdQ]. *)
Fixpoint iwd_move (fuel _iwdIdx1 _iwdQLength : nat) (q : queue) (_iwdQ : list event)
    : option (nat * queue * list event) :=
  match fuel with
  | 0 => None
  | S fuel =>
      if _iwdIdx1 <? _iwdQLength then
        '(_iwdTmpE, q) ← receive q;
        if _iwdIdx1 <? length _iwdQ
        then iwd_move fuel (_iwdIdx1 + 1) _iwdQLength q (<[_iwdIdx1 := _iwdTmpE]> _iwdQ)
        else None
      else Some (_iwdIdx1, q, _iwdQ)
  end.

(** Move them back, with the last one where it belongs. *)
Fixpoint iwd_reinsert (fuel _iwdIdx2 _iwdIdx1 : nat) (_iwdQ : list event) (_iwdLastE : event)
    (_iwdInserted : bool) (q : queue) : option (bool * queue) :=
  match fuel with
  | 0 => None
  | S fuel =>
      if _iwdIdx2 <? _iwdIdx1 then
        _iwdTmpE ← _iwdQ !! _iwdIdx2;
        let here := (v_delay _iwdLastE <? v_delay _iwdTmpE)%Z && negb _iwdInserted in
        q ← (if here then enqueue _iwdLastE q else Some q);
        q ← enqueue _iwdTmpE q;
        iwd_reinsert fuel (_iwdIdx2 + 1) _iwdIdx1 _iwdQ _iwdLastE (_iwdInserted || here) q
      else Some (_iwdInserted, q)
  end.

(** The last event in the queue is potentially at the wrong position; [_iwdQ]
    is the hidden array of the program. *)
Definition insertWithDelay (_iwdQ : list event) (q : queue) : option queue :=
  if 1 <? len q then
    r ← iwd_move (S (len q)) 0 (len q - 1) q _iwdQ;
    let '(_iwdIdx1, q, _iwdQ) := r in
    '(_iwdLastE, q) ← receive q;
    if len q =? 0 then
      '(_iwdInserted, q) ← iwd_reinsert (S _iwdIdx1) 0 _iwdIdx1 _iwdQ _iwdLastE false q;
      if negb _iwdInserted then enqueue _iwdLastE q else Some q
    else None
  else Some q.

(** The number of places of an external channel, and of [_iwdQ], for machines
    with the given [_externalQueueLength]s. *)
Definition tolerance : nat := 6.
Definition eQ_size (_externalQueueLength : nat) : nat := _externalQueueLength + tolerance.
Definition maxExternalQueueLength (lengths : list nat) : nat := foldl Nat.max 1 lengths + 6.
Definition iwdQ_size (lengths : list nat) : nat := maxExternalQueueLength lengths - 1.

(** How a send element with a delay ends: [eQ!_tmpE; insertWithDelay(eQ)]. *)
Definition send_delayed (_iwdQ : list event) (e : event) (q : queue) : option queue :=
  enqueue e q ≫= insertWithDelay _iwdQ.

(** *** [writeAdvanceTime] *)

Fixpoint advance_loop (fuel : nat) (increment : Z) (tmpIndex : nat) (q : queue) : option queue :=
  match fuel with
  | 0 => None
  | S fuel =>
      if tmpIndex <? len q then
        '(tmpE, q) ← receive q;
        q ← enqueue (if (increment <=? v_delay tmpE)%Z then with_delay (v_delay tmpE - increment) tmpE else tmpE) q;
        advance_loop fuel increment (tmpIndex + 1) q
      else Some q
  end.

Definition advanceTime (increment : Z) (q : queue) : option queue :=
  advance_loop (S (len q)) increment 0 q.

(** *** [writeCancelEvents] *)

Definition not_cancelled (sendIdentifier source : Z) (e : event) : bool :=
  negb (v_sendid e =? sendIdentifier)%Z || negb (v_origin e =? source)%Z || (v_delay e =? 0)%Z.

Fixpoint cancel_loop (fuel : nat) (sendIdentifier source : Z) (tmpIndex : nat) (q : queue) : option queue :=
  match fuel with
  | 0 => None
  | S fuel =>
      if tmpIndex <? len q then
        '(tmpE, q) ← receive q;
        q ← (if not_cancelled sendIdentifier source tmpE then enqueue tmpE q else Some q);
        cancel_loop fuel sendIdentifier source (tmpIndex + 1) q
      else Some q
  end.

Definition cancelSendIdOnQueue (sendIdentifier source : Z) (q : queue) : option queue :=
  cancel_loop (S (len q)) sendIdentifier source 0 q.

(** *** [writeRemovePendingEventsFromInvoker]; [delays]: events have a delay field *)

Definition not_of_invoker (delays : bool) (invoker : Z) (e : event) : bool :=
  (delays && (v_delay e =? 0)%Z) || negb (v_invokeid e =? invoker)%Z.

Fixpoint remove_loop (delays : bool) (invoker : Z) (tmpIndex : nat) (q : queue) : option queue :=
  match tmpIndex with
  | 0 => Some q
  | S tmpIndex =>
      '(tmpE, q) ← receive q;
      q ← (if not_of_invoker delays invoker tmpE then enqueue tmpE q else Some q);
      remove_loop delays invoker tmpIndex q
  end.

Definition removePendingEventsFromInvokerOnQueue (delays : bool) (invoker : Z) (q : queue) : option queue :=
  remove_loop delays invoker (len q) q.

(** *** [writeDetermineShortestDelay], [writeRescheduleProcess], [writeScheduleMachines]

    Without interleaving of events, which no option turns on, a machine has no
    third queue. *)

Record Process := mkProcess { procid : nat; iQ : queue; eQ : queue }.

Definition set_eQ (q : queue) (p : Process) : Process := mkProcess (procid p) (iQ p) q.

Definition determineSmallestDelay (smallestDelay : Z) (q : queue) : Z :=
  match ch_msgs q with
  | tmpE :: _ => if (v_delay tmpE <? smallestDelay)%Z then v_delay tmpE else smallestDelay
  | [] => smallestDelay
  end.

Definition rescheduleProcess (smallestDelay : Z) (p : Process) (priorities : gmap nat Z) : gmap nat Z :=
  let priorities := <[procid p := 1%Z]> priorities in
  if 0 <? len (iQ p) then <[procid p := 10%Z]> priorities
  else
    match ch_msgs (eQ p) with
    | tmpE :: _ => if (smallestDelay =? v_delay tmpE)%Z then <[procid p := 10%Z]> priorities else priorities
    | [] => priorities
    end.

Definition INT_MAX : Z := 2147483647.

Definition smallest_delay (machines : list Process) : Z :=
  foldl (fun d p => determineSmallestDelay d (eQ p)) INT_MAX machines.

Definition advance_machines (increment : Z) (machines : list Process) : option (list Process) :=
  if (0 <? increment)%Z
  then mapM (fun p => q ← advanceTime increment (eQ p); Some (set_eQ q p)) machines
  else Some machines.

Definition scheduleMachines (_pid : nat) (machines : list Process) (priorities : gmap nat Z)
    : option (list Process * gmap nat Z) :=
  let smallestDelay := smallest_delay machines in
  let priorities := foldl (fun prio p => rescheduleProcess smallestDelay p prio) priorities machines in
  machines ← advance_machines smallestDelay machines;
  Some (machines, <[_pid := 10%Z]> priorities).

End Inlines.
Arguments Process : clear implicits. Arguments mkProcess {D}.

(** ** Insertion by delay *)

Section Insertion.
Context {D : Type}.
Notation event := (_event_t D).
Notation queue := (chan event).

(** Behind the events that are due earlier or at the same time. *)
Fixpoint insert_delayed (e : event) (l : list event) : list event :=
  match l with
  | [] => [e]
  | x :: l => if (v_delay e <? v_delay x)%Z then e :: x :: l else x :: insert_delayed e l
  end.

Definition by_delay (x y : event) : Prop := (v_delay x <= v_delay y)%Z.
Definition ordered (l : list event) : Prop := StronglySorted by_delay l.

Lemma insert_delayed_perm e l : insert_delayed e l ≡ₚ e :: l.
Proof.
  induction l as [|x l IH]; cbn; [done|]. destruct (_ <? _)%Z; [done|]. rewrite IH. apply Permutation_swap.
Qed.

Lemma insert_delayed_length e l : length (insert_delayed e l) = S (length l).
Proof. by rewrite insert_delayed_perm. Qed.

Lemma insert_delayed_ordered e l : ordered l -> ordered (insert_delayed e l).
Proof.
  unfold ordered. induction 1 as [|x l Hl IH Hx]; cbn; [by repeat constructor|].
  destruct (Z.ltb_spec (v_delay e) (v_delay x)) as [Hlt|Hge].
  - constructor; [by constructor|]. constructor; [unfold by_delay; lia|].
    eapply Forall_impl; [exact Hx|]. unfold by_delay. intros y ?. lia.
  - constructor; [done|]. rewrite insert_delayed_perm. constructor; [exact Hge|done].
Qed.

Lemma filter_none (P : event -> Prop) `{!forall x, Decision (P x)} l : Forall (fun x => ~ P x) l -> filter P l = [].
Proof. induction 1; [done|]. by rewrite filter_cons_False. Qed.

(** Among events with one delay the last one sent comes last. *)
Lemma insert_delayed_stable d e l : ordered l ->
  filter (fun x => v_delay x = d) (insert_delayed e l) = filter (fun x => v_delay x = d) (l ++ [e]).
Proof.
  induction 1 as [|x l Hl IH Hx]; cbn [insert_delayed app]; [done|].
  destruct (Z.ltb_spec (v_delay e) (v_delay x)) as [Hlt|Hge].
  - destruct (decide (v_delay e = d)) as [He|He].
    + assert (Hnone : filter (fun x => v_delay x = d) (x :: l) = []).
      { apply filter_none. constructor; [lia|]. eapply Forall_impl; [exact Hx|].
        unfold by_delay. intros y ?. lia. }
      rewrite filter_cons_True, app_comm_cons, filter_app, Hnone by done.
      rewrite filter_cons_True by done. done.
    + rewrite filter_cons_False, app_comm_cons, filter_app by done.
      rewrite (filter_cons_False _ e) by done. by rewrite filter_nil, app_nil_r.
  - rewrite !filter_cons. by rewrite IH.
Qed.

Lemma insert_delayed_last e l : Forall (fun x => (v_delay x <= v_delay e)%Z) l -> insert_delayed e l = l ++ [e].
Proof.
  induction 1 as [|x l Hx Hl IH]; cbn; [done|]. destruct (Z.ltb_spec (v_delay e) (v_delay x)); [lia|]. by rewrite IH.
Qed.

(** *** The loops *)

Lemma iwd_move_spec (m : list event) : forall fuel idx size (rest dn tail : list event),
  idx = length dn -> length m <= length tail -> length m < fuel ->
  iwd_move fuel idx (idx + length m) (mkChan size (m ++ rest)) (dn ++ tail) =
  Some (idx + length m, mkChan size rest, dn ++ m ++ drop (length m) tail).
Proof.
  induction m as [|e m IH]; intros fuel idx size rest dn tail Hidx Htail Hfuel;
    (destruct fuel as [|fuel]; [cbn in *; lia|]); cbn [iwd_move].
  - rewrite Nat.add_0_r, Nat.ltb_irrefl. done.
  - destruct tail as [|t tail]; [cbn in *; lia|]. cbn [length] in *.
    rewrite (proj2 (Nat.ltb_lt idx (idx + S (length m)))) by lia. cbn [receive ch_msgs app mbind option_bind ch_size].
    rewrite length_app. cbn [length]. rewrite (proj2 (Nat.ltb_lt idx _)) by lia.
    rewrite insert_app_r_alt by lia. replace (idx - length dn) with 0 by lia. cbn [insert list_insert app].
    specialize (IH fuel (idx + 1) size rest (dn ++ [e]) tail). rewrite length_app in IH. cbn [length] in IH.
    replace (idx + S (length m)) with (idx + 1 + length m) by lia. rewrite <- !app_assoc in IH. cbn [app] in IH.
    rewrite IH by lia. done.
Qed.

(** The queue when the loop ends: the last event is in it unless it belongs to the end. *)
Definition later (e x : event) : bool := (v_delay e <? v_delay x)%Z.

Lemma iwd_reinsert_inserted (m : list event) : forall fuel idx size msgs dn tail e,
  idx = length dn -> length msgs + length m <= size -> length m < fuel ->
  iwd_reinsert fuel idx (idx + length m) (dn ++ m ++ tail) e true (mkChan size msgs) =
  Some (true, mkChan size (msgs ++ m)).
Proof.
  induction m as [|x m IH]; intros fuel idx size msgs dn tail e Hidx Hsize Hfuel;
    (destruct fuel as [|fuel]; [cbn in *; lia|]); cbn [iwd_reinsert].
  - rewrite Nat.add_0_r, Nat.ltb_irrefl, app_nil_r. done.
  - cbn [length] in *. rewrite (proj2 (Nat.ltb_lt idx _)) by lia.
    rewrite lookup_app_r, (proj2 (Nat.sub_0_le idx _)) by lia. cbn [app lookup list_lookup mbind option_bind].
    rewrite andb_false_r. cbn [mbind option_bind]. unfold enqueue, len. cbn [ch_msgs ch_size].
    rewrite (proj2 (Nat.ltb_lt _ _)) by lia. cbn [mbind option_bind orb].
    specialize (IH fuel (idx + 1) size (msgs ++ [x]) (dn ++ [x]) tail e).
    rewrite !length_app in IH. cbn [length] in IH. rewrite <- !app_assoc in IH. cbn [app] in IH.
    replace (idx + S (length m)) with (idx + 1 + length m) by lia. rewrite IH by lia. done.
Qed.

Lemma iwd_reinsert_spec (m : list event) : forall fuel idx size msgs dn tail e,
  idx = length dn -> length msgs + length m < size -> length m < fuel ->
  iwd_reinsert fuel idx (idx + length m) (dn ++ m ++ tail) e false (mkChan size msgs) =
  Some (existsb (later e) m, mkChan size (msgs ++ if existsb (later e) m then insert_delayed e m else m)).
Proof.
  induction m as [|x m IH]; intros fuel idx size msgs dn tail e Hidx Hsize Hfuel;
    (destruct fuel as [|fuel]; [cbn in *; lia|]); cbn [iwd_reinsert].
  - rewrite Nat.add_0_r, Nat.ltb_irrefl, app_nil_r. done.
  - cbn [length] in *. rewrite (proj2 (Nat.ltb_lt idx _)) by lia.
    rewrite lookup_app_r, (proj2 (Nat.sub_0_le idx _)) by lia. cbn [app lookup list_lookup mbind option_bind].
    rewrite andb_true_r. cbn [existsb insert_delayed]. unfold later at 1 3. unfold enqueue, len.
    destruct (v_delay e <? v_delay x)%Z; cbn [orb mbind option_bind ch_msgs ch_size].
    + rewrite (proj2 (Nat.ltb_lt _ _)) by lia. cbn [mbind option_bind ch_msgs ch_size]. rewrite length_app. cbn [length].
      rewrite (proj2 (Nat.ltb_lt _ _)) by lia. cbn [mbind option_bind].
      pose proof (iwd_reinsert_inserted m fuel (idx + 1) size ((msgs ++ [e]) ++ [x]) (dn ++ [x]) tail e) as HI.
      rewrite !length_app in HI. cbn [length] in HI. rewrite <- !app_assoc in HI. cbn [app] in HI.
      replace (idx + S (length m)) with (idx + 1 + length m) by lia. rewrite <- !app_assoc. cbn [app].
      rewrite HI by lia. done.
    + rewrite (proj2 (Nat.ltb_lt _ _)) by lia. cbn [mbind option_bind].
      specialize (IH fuel (idx + 1) size (msgs ++ [x]) (dn ++ [x]) tail e).
      rewrite !length_app in IH. cbn [length] in IH. rewrite <- !app_assoc in IH. cbn [app] in IH.
      replace (idx + S (length m)) with (idx + 1 + length m) by lia. rewrite IH by lia.
      by destruct (existsb _ m).
Qed.

Lemma insert_delayed_none e m : existsb (later e) m = false -> insert_delayed e m = m ++ [e].
Proof.
  intros H. apply insert_delayed_last, Forall_forall. intros x Hx.
  destruct (Z.ltb_spec (v_delay e) (v_delay x)); [|lia]. exfalso.
  assert (existsb (later e) m = true); [|congruence]. apply existsb_exists. exists x.
  split; [by apply list_elem_of_In|]. unfold later. by apply Z.ltb_lt.
Qed.

(** The inline function is the insertion, as long as the array is large enough. *)
Lemma insertWithDelay_spec arr size l e : length l <= length arr -> length l < size ->
  insertWithDelay arr (mkChan size (l ++ [e])) = Some (mkChan size (insert_delayed e l)).
Proof.
  intros Harr Hsize. unfold insertWithDelay, len. cbn [ch_msgs]. rewrite length_app. cbn [length].
  destruct l as [|x l]; [done|]. cbn [length Nat.add].
  rewrite (proj2 (Nat.ltb_lt 1 _)) by lia. replace (S (length l + 1) - 1) with (0 + length (x :: l)) by (cbn; lia).
  rewrite (iwd_move_spec (x :: l) _ 0 size [e] [] arr) by (cbn [length] in *; lia).
  cbn [mbind option_bind receive ch_msgs ch_size length Nat.eqb app].
  pose proof (iwd_reinsert_spec (x :: l) (S (0 + length (x :: l))) 0 size [] [] (drop (length (x :: l)) arr) e) as HR.
  cbn [app] in HR. cbn [length app] in *. rewrite HR by lia. cbn [mbind option_bind].
  destruct (existsb _ _) eqn:Ex; cbn [negb]; [done|].
  unfold enqueue, len. cbn [ch_msgs ch_size length]. rewrite (proj2 (Nat.ltb_lt _ _)) by lia.
  by rewrite (insert_delayed_none e (x :: l) Ex).
Qed.

Lemma enqueue_spec (e : event) size l : length l < size -> enqueue e (mkChan size l) = Some (mkChan size (l ++ [e])).
Proof. intros H. unfold enqueue, len. cbn [ch_msgs ch_size]. by rewrite (proj2 (Nat.ltb_lt _ _)). Qed.

Lemma enqueue_full (e : event) size l : size <= length l -> enqueue e (mkChan size l) = None.
Proof. intros H. unfold enqueue, len. cbn [ch_msgs ch_size]. by rewrite (proj2 (Nat.ltb_ge _ _)). Qed.

Lemma send_delayed_spec arr size l e : size <= S (length arr) -> length l < size ->
  send_delayed arr e (mkChan size l) = Some (mkChan size (insert_delayed e l)).
Proof.
  intros Harr Hl. unfold send_delayed. rewrite enqueue_spec by done. cbn [mbind option_bind].
  apply insertWithDelay_spec; lia.
Qed.

Lemma foldl_max_le l : forall a, a <= foldl Nat.max a l.
Proof. induction l as [|x l IH]; intros a; cbn; [done|]. specialize (IH (Nat.max a x)). lia. Qed.

Lemma foldl_max_elem l : forall a n, n ∈ l -> n <= foldl Nat.max a l.
Proof.
  induction l as [|x l IH]; intros a n; [by intros ?%elem_of_nil|]. cbn.
  intros [->|Hn]%elem_of_cons; [|by apply IH]. pose proof (foldl_max_le l (Nat.max a x)). lia.
Qed.

(** [_iwdQ] has room for every external channel. *)
Lemma iwdQ_large_enough lengths n : n ∈ lengths -> eQ_size n <= S (iwdQ_size lengths).
Proof.
  intros Hn%(foldl_max_elem lengths 1). unfold eQ_size, iwdQ_size, maxExternalQueueLength, tolerance. lia.
Qed.

(** Events sent one after another. *)
Fixpoint send_all (arr : list event) (es : list event) (q : queue) : option queue :=
  match es with
  | [] => Some q
  | e :: es => send_delayed arr e q ≫= send_all arr es
  end.

Lemma send_all_spec arr size es : forall l, size <= S (length arr) -> length l + length es <= size ->
  send_all arr es (mkChan size l) = Some (mkChan size (foldl (fun l e => insert_delayed e l) l es)).
Proof.
  induction es as [|e es IH]; intros l Harr Hl; cbn [send_all foldl]; [done|]. cbn [length] in Hl.
  rewrite send_delayed_spec by lia. cbn [mbind option_bind]. apply IH; [done|]. rewrite insert_delayed_length. lia.
Qed.

Lemma insert_all_spec es : forall l, ordered l ->
  let r := foldl (fun l e => insert_delayed e l) l es in
  ordered r /\ r ≡ₚ l ++ es /\
  forall d, filter (fun x => v_delay x = d) r = filter (fun x => v_delay x = d) (l ++ es).
Proof.
  induction es as [|e es IH]; intros l Hl; cbn [foldl].
  { rewrite app_nil_r. done. }
  destruct (IH (insert_delayed e l) (insert_delayed_ordered e l Hl)) as (H1 & H2 & H3). split_and!; [done| |].
  - rewrite H2, insert_delayed_perm. apply Permutation_middle.
  - intros d. rewrite H3, !filter_app, insert_delayed_stable, filter_app, <- app_assoc by done.
    by rewrite <- filter_app.
Qed.

(** C35: events that are sent to an empty external channel are kept in the
    order of their delays, and events with one delay in the order in which they
    were sent; nothing is lost or doubled, and the hidden array the channel is
    copied through is large enough for every machine. *)
Theorem delayed_sends_ordered lengths n arr es :
  n ∈ lengths -> length arr = iwdQ_size lengths -> length es <= eQ_size n ->
  exists l, send_all arr es (mkChan (eQ_size n) []) = Some (mkChan (eQ_size n) l) /\
    ordered l /\ l ≡ₚ es /\
    forall d, filter (fun x => v_delay x = d) l = filter (fun x => v_delay x = d) es.
Proof.
  intros Hn Harr Hes. pose proof (iwdQ_large_enough lengths n Hn).
  rewrite send_all_spec by (cbn; lia). eexists. split; [done|].
  apply (insert_all_spec es []). constructor.
Qed.

End Insertion.

(** ** Passes over a channel *)

Section Passes.
Context {D : Type}.
Notation event := (_event_t D).
Notation queue := (chan event).
Implicit Types (q : queue) (e : event) (l : list event).

Definition fits (q : queue) : Prop := len q <= ch_size q.

(** What [advanceTime] does to one event. *)
Definition advanced (increment : Z) (e : event) : event :=
  if (increment <=? v_delay e)%Z then with_delay (v_delay e - increment) e else e.

Lemma advance_loop_spec increment (rest : list event) : forall fuel size pre,
  length rest + length pre <= size -> length rest < fuel ->
  advance_loop fuel increment (length pre) (mkChan size (rest ++ pre)) =
  Some (mkChan size (pre ++ (advanced increment <$> rest))).
Proof.
  induction rest as [|e rest IH]; intros fuel size pre Hsize Hfuel;
    (destruct fuel as [|fuel]; [cbn in *; lia|]); cbn [advance_loop]; unfold len; cbn [ch_msgs app].
  - rewrite Nat.ltb_irrefl. by rewrite app_nil_r.
  - cbn [length] in *. rewrite length_app, (proj2 (Nat.ltb_lt _ _)) by lia.
    cbn [receive ch_msgs mbind option_bind ch_size]. rewrite enqueue_spec by (rewrite length_app; lia).
    cbn [mbind option_bind]. fold (advanced increment e). specialize (IH fuel size (pre ++ [advanced increment e])).
    rewrite length_app in IH. cbn [length] in IH. rewrite <- app_assoc, IH by lia. by rewrite <- app_assoc.
Qed.

Lemma advanceTime_spec increment q : fits q ->
  advanceTime increment q = Some (mkChan (ch_size q) (advanced increment <$> ch_msgs q)).
Proof.
  intros Hq. destruct q as [size l]. unfold advanceTime, fits, len in *. cbn [ch_msgs ch_size] in *.
  pose proof (advance_loop_spec increment l (S (length l)) size []) as H. cbn [length] in H.
  rewrite app_nil_r in H. by rewrite H by lia.
Qed.

(** What is left of the pass of [cancelSendIdOnQueue] at the position [idx],
    with [pre] behind the events that were not looked at. *)
Fixpoint cancel_pass (keep : event -> bool) (idx : nat) (rest pre : list event) : list event :=
  match rest with
  | [] => pre
  | e :: rest' =>
      if idx <? length rest + length pre
      then cancel_pass keep (idx + 1) rest' (if keep e then pre ++ [e] else pre)
      else rest ++ pre
  end.

Lemma cancel_loop_spec sendIdentifier source (rest : list event) : forall fuel size idx pre,
  length rest + length pre <= size -> length rest < fuel -> length pre <= idx ->
  cancel_loop fuel sendIdentifier source idx (mkChan size (rest ++ pre)) =
  Some (mkChan size (cancel_pass (not_cancelled sendIdentifier source) idx rest pre)).
Proof.
  induction rest as [|e rest IH]; intros fuel size idx pre Hsize Hfuel Hidx;
    (destruct fuel as [|fuel]; [cbn in *; lia|]); cbn [cancel_loop cancel_pass]; unfold len; cbn [ch_msgs app].
  - by rewrite (proj2 (Nat.ltb_ge _ _)) by lia.
  - cbn [length] in *. rewrite length_app. change (S (length rest + length pre)) with (S (length rest) + length pre).
    destruct (Nat.ltb_spec idx (S (length rest) + length pre)); [|done].
    cbn [receive ch_msgs mbind option_bind ch_size].
    destruct (not_cancelled _ _ e).
    + rewrite enqueue_spec by (rewrite length_app; lia). cbn [mbind option_bind]. rewrite <- app_assoc.
      apply IH; rewrite ?length_app; cbn [length]; lia.
    + cbn [mbind option_bind]. apply IH; lia.
Qed.

Lemma cancelSendIdOnQueue_spec sendIdentifier source q : fits q ->
  cancelSendIdOnQueue sendIdentifier source q =
  Some (mkChan (ch_size q) (cancel_pass (not_cancelled sendIdentifier source) 0 (ch_msgs q) [])).
Proof.
  intros Hq. destruct q as [size l]. unfold cancelSendIdOnQueue, fits, len in *. cbn [ch_msgs ch_size] in *.
  pose proof (cancel_loop_spec sendIdentifier source l (S (length l)) size 0 []) as H.
  cbn [length] in H. rewrite app_nil_r in H. by rewrite H by lia.
Qed.

Lemma cancel_pass_kept keep m : forall idx rest pre, Forall (fun e => keep e = true) m ->
  idx <= length rest + length pre ->
  cancel_pass keep idx (m ++ rest) pre = cancel_pass keep (idx + length m) rest (pre ++ m).
Proof.
  induction m as [|e m IH]; intros idx rest pre Hm Hidx; cbn [app length].
  - by rewrite Nat.add_0_r, app_nil_r.
  - apply Forall_cons in Hm as [He Hm]. cbn [cancel_pass length]. rewrite length_app.
    rewrite (proj2 (Nat.ltb_lt _ _)) by lia. rewrite He, IH; [|done|rewrite length_app; cbn [length]; lia].
    rewrite <- app_assoc. cbn [app]. f_equal. lia.
Qed.

Lemma cancel_pass_dropped keep e idx rest pre : keep e = false -> idx <= length rest + length pre ->
  cancel_pass keep idx (e :: rest) pre = cancel_pass keep (idx + 1) rest pre.
Proof.
  intros He Hidx. cbn [cancel_pass length]. rewrite (proj2 (Nat.ltb_lt _ _)) by lia. by rewrite He.
Qed.

(** C36: the number of events that the pass of a cancel element looks at
    shrinks with every event it drops. A queue without a matching event is left
    as it is, and a matching event at its end is removed. A matching event
    further in front is removed, but the pass ends early: the last event is
    then the first one, whatever its delay. Of two matching events the second
    one can survive. *)
Theorem cancel_ends_early sendIdentifier source q : fits q ->
  let cancelled := cancelSendIdOnQueue sendIdentifier source q in
  let keeps e := not_cancelled sendIdentifier source e = true in
  (Forall keeps (ch_msgs q) -> cancelled = Some q) /\
  (forall l e, ch_msgs q = l ++ [e] -> Forall keeps l -> ~ keeps e ->
     cancelled = Some (mkChan (ch_size q) l)) /\
  (forall l1 e l2 z, ch_msgs q = l1 ++ e :: l2 ++ [z] -> Forall keeps (l1 ++ l2) -> ~ keeps e ->
     cancelled = Some (mkChan (ch_size q) (z :: l1 ++ l2))) /\
  (forall e z, ch_msgs q = [e; z] -> ~ keeps e -> ~ keeps z -> cancelled = Some (mkChan (ch_size q) [z])).
Proof.
  intros Hq. cbv zeta. rewrite cancelSendIdOnQueue_spec by done. destruct q as [size q]. cbn [ch_msgs ch_size].
  split_and!.
  - intros Hk. pose proof (cancel_pass_kept _ q 0 [] [] Hk ltac:(lia)) as H. rewrite app_nil_r in H. by rewrite H.
  - intros l e -> Hk He%not_true_is_false. rewrite cancel_pass_kept by (done || cbn; lia).
    rewrite cancel_pass_dropped by (done || cbn; lia). done.
  - intros l1 e l2 z -> [Hk1 Hk2]%Forall_app He%not_true_is_false.
    rewrite cancel_pass_kept by (done || cbn; lia). rewrite cancel_pass_dropped; [|done|rewrite length_app; cbn; lia].
    rewrite cancel_pass_kept; [|done|cbn; lia].
    cbn [cancel_pass app length]. rewrite length_app, (proj2 (Nat.ltb_ge _ _)) by lia. done.
  - intros e z -> He%not_true_is_false _. rewrite cancel_pass_dropped by (done || cbn; lia). done.
Qed.

Lemma remove_loop_spec delays invoker (rest : list event) : forall size pre, length rest + length pre <= size ->
  remove_loop delays invoker (length rest) (mkChan size (rest ++ pre)) =
  Some (mkChan size (pre ++ List.filter (not_of_invoker delays invoker) rest)).
Proof.
  induction rest as [|e rest IH]; intros size pre Hsize; cbn [remove_loop length app List.filter].
  - by rewrite app_nil_r.
  - cbn [length] in Hsize. cbn [receive ch_msgs mbind option_bind ch_size].
    destruct (not_of_invoker _ _ e).
    + rewrite enqueue_spec by (rewrite length_app; lia). cbn [mbind option_bind]. rewrite <- app_assoc.
      rewrite IH by (rewrite length_app; cbn [length]; lia). by rewrite <- app_assoc.
    + cbn [mbind option_bind]. apply IH. lia.
Qed.

(** The other pass counts the events beforehand, and keeps the order. *)
Lemma removePendingEvents_spec delays invoker q : fits q ->
  removePendingEventsFromInvokerOnQueue delays invoker q =
  Some (mkChan (ch_size q) (List.filter (not_of_invoker delays invoker) (ch_msgs q))).
Proof.
  intros Hq. destruct q as [size l]. unfold removePendingEventsFromInvokerOnQueue, fits, len in *. cbn [ch_msgs ch_size] in *.
  pose proof (remove_loop_spec delays invoker l size []) as H. cbn [length] in H. rewrite app_nil_r in H. by rewrite H by lia.
Qed.

End Passes.

(** ** The scheduler *)

Section Scheduler.
Context {D : Type}.
Notation event := (_event_t D).
Notation queue := (chan event).
Notation process := (Process D).
Implicit Types (p : process) (ms : list process).

Lemma determineSmallestDelay_min d (q : queue) :
  determineSmallestDelay d q = match ch_msgs q with e :: _ => Z.min (v_delay e) d | [] => d end.
Proof. unfold determineSmallestDelay. destruct (ch_msgs q) as [|e l]; [done|]. destruct (Z.ltb_spec (v_delay e) d); lia. Qed.

Definition first_delay (p : process) (d : Z) : Prop := exists e l, ch_msgs (eQ p) = e :: l /\ v_delay e = d.

Lemma smallest_from ms : forall d0,
  let d := foldl (fun d p => determineSmallestDelay d (eQ p)) d0 ms in
  (d <= d0)%Z /\ (forall p d', p ∈ ms -> first_delay p d' -> (d <= d')%Z) /\
  (d = d0 \/ exists p, p ∈ ms /\ first_delay p d).
Proof.
  induction ms as [|p ms IH]; intros d0; cbn [foldl].
  { split_and!; [lia| |by left]. by intros p d' ?%elem_of_nil. }
  destruct (IH (determineSmallestDelay d0 (eQ p))) as (H1 & H2 & H3). rewrite determineSmallestDelay_min in *.
  split_and!.
  - destruct (ch_msgs (eQ p)); lia.
  - intros p' d' [->|Hp]%elem_of_cons Hd; [|by apply (H2 p')]. destruct Hd as (e & l & Hq & <-). rewrite Hq in *. lia.
  - destruct H3 as [->|(p' & Hp & Hd)]; [|right; exists p'; split; [by right|done]].
    destruct (ch_msgs (eQ p)) as [|e l] eqn:Hq; [by left|].
    destruct (Z.min_spec (v_delay e) d0) as [[_ ->]|[_ ->]]; [right; exists p|by left].
    split; [left|]. exists e, l. done.
Qed.

Definition delays_of ms : list Z := v_delay <$> (ms ≫= fun p => ch_msgs (eQ p)).

Lemma elem_of_delays d ms : d ∈ delays_of ms <-> exists p e, p ∈ ms /\ e ∈ ch_msgs (eQ p) /\ v_delay e = d.
Proof.
  unfold delays_of. rewrite list_elem_of_fmap. setoid_rewrite list_elem_of_bind. naive_solver.
Qed.

(** In channels that are ordered the first events tell the smallest delay. *)
Lemma smallest_delay_spec ms : (forall p, p ∈ ms -> ordered (ch_msgs (eQ p))) ->
  (forall d, d ∈ delays_of ms -> (smallest_delay ms <= d)%Z) /\
  ((forall d, d ∈ delays_of ms -> (d <= INT_MAX)%Z) -> delays_of ms <> [] -> smallest_delay ms ∈ delays_of ms).
Proof.
  intros Hord. destruct (smallest_from ms INT_MAX) as (Hle & Hall & Hatt).
  fold (smallest_delay ms) in *.
  assert (Hlow : forall d, d ∈ delays_of ms -> (smallest_delay ms <= d)%Z).
  { intros d (p & e & Hp & He & <-)%elem_of_delays. specialize (Hord p Hp).
    destruct (ch_msgs (eQ p)) as [|x l] eqn:Hq; [by apply elem_of_nil in He|].
    assert (Hx : (smallest_delay ms <= v_delay x)%Z) by (apply (Hall p); [done|by exists x, l]).
    apply elem_of_cons in He as [->|He]; [done|]. inversion Hord as [|? ? _ HF]; subst.
    rewrite Forall_forall in HF. specialize (HF e He). unfold by_delay in HF. lia. }
  split; [done|]. intros Hmax Hne. destruct Hatt as [Hd|(p & Hp & e & l & Hq & Hd)].
  - destruct (delays_of ms) as [|d ds] eqn:Eds; [done|].
    assert (Hin : d ∈ d :: ds) by left. pose proof (Hlow d Hin). pose proof (Hmax d Hin).
    assert (d = smallest_delay ms) as <- by lia. left.
  - rewrite <- Hd. apply elem_of_delays. exists p, e. split; [done|]. rewrite Hq. split; [left|done].
Qed.

(** A process that is scheduled with priority. *)
Definition due (d : Z) (p : process) : bool :=
  (0 <? len (iQ p)) || match ch_msgs (eQ p) with e :: _ => (d =? v_delay e)%Z | [] => false end.

Lemma rescheduleProcess_spec d p prio :
  rescheduleProcess d p prio = <[procid p := if due d p then 10%Z else 1%Z]> prio.
Proof.
  unfold rescheduleProcess, due. destruct (0 <? len (iQ p)); cbn [orb]; [by rewrite insert_insert_eq|].
  destruct (ch_msgs (eQ p)); [done|]. destruct (_ =? _)%Z; [by rewrite insert_insert_eq|done].
Qed.

Lemma rescheduled ms d : forall prio, NoDup (procid <$> ms) -> forall p, p ∈ ms ->
  foldl (fun prio p => rescheduleProcess d p prio) prio ms !! procid p = Some (if due d p then 10%Z else 1%Z).
Proof.
  induction ms as [|p0 ms IH]; intros prio Hnd p Hp; [by apply elem_of_nil in Hp|]. cbn [fmap list_fmap foldl] in *.
  apply NoDup_cons in Hnd as [Hnot Hnd]. apply elem_of_cons in Hp as [->|Hp]; [|by apply IH].
  rewrite rescheduleProcess_spec. clear IH.
  assert (Hg : forall ms prio, procid p0 ∉ (procid <$> ms) ->
    foldl (fun prio p => rescheduleProcess d p prio) prio ms !! procid p0 = prio !! procid p0).
  { induction ms0 as [|p ms0 IH]; intros prio0 Hn; [done|]. cbn [foldl fmap list_fmap] in *.
    apply not_elem_of_cons in Hn as [Hne Hn]. rewrite IH by done.
    by rewrite rescheduleProcess_spec, lookup_insert_ne by congruence. }
  rewrite Hg by done. by rewrite lookup_insert_eq.
Qed.

Lemma ordered_advanced increment l : (forall e : event, e ∈ l -> (increment <= v_delay e)%Z) ->
  ordered l -> ordered (advanced increment <$> l).
Proof.
  unfold ordered. intros Hle. induction 1 as [|e l Hl IH He]; [constructor|]. cbn [fmap list_fmap].
  assert (Hadv : forall x, x ∈ e :: l -> v_delay (advanced increment x) = (v_delay x - increment)%Z).
  { intros x Hx. unfold advanced. by rewrite (proj2 (Z.leb_le _ _) (Hle x Hx)). }
  constructor; [apply IH; intros x Hx; apply Hle; by right|]. apply Forall_fmap, Forall_forall. intros x Hx.
  rewrite Forall_forall in He. specialize (He x Hx). unfold by_delay in *. cbn.
  rewrite !Hadv by (by left || by right). lia.
Qed.

(** A machine when time has passed. *)
Definition waited (increment : Z) (p : process) : process :=
  set_eQ (mkChan (ch_size (eQ p)) (advanced increment <$> ch_msgs (eQ p))) p.

Lemma advance_machines_spec d ms : (forall p, p ∈ ms -> fits (eQ p)) -> (0 < d)%Z ->
  advance_machines d ms = Some (waited d <$> ms).
Proof.
  intros Hfits Hd. unfold advance_machines. rewrite (proj2 (Z.ltb_lt 0 d)) by done.
  induction ms as [|p ms IH]; [done|]. cbn [mapM fmap list_fmap].
  rewrite advanceTime_spec by (apply Hfits; left). cbn [mbind option_bind].
  rewrite IH by (intros p' Hp; apply Hfits; by right). done.
Qed.

Lemma advanced_zero (e : event) : (0 <= v_delay e)%Z -> advanced 0 e = e.
Proof. intros He. unfold advanced. rewrite (proj2 (Z.leb_le _ _)) by done. destruct e. cbn. unfold with_delay. cbn. by rewrite Z.sub_0_r. Qed.

Lemma waited_zero p : (forall e, e ∈ ch_msgs (eQ p) -> (0 <= v_delay e)%Z) -> waited 0 p = p.
Proof.
  intros He. destruct p as [pid iq [size l]]. unfold waited, set_eQ. cbn [eQ ch_msgs ch_size procid iQ] in *. repeat f_equal.
  induction l as [|e l IH]; [done|]. cbn [fmap list_fmap]. rewrite advanced_zero by (apply He; left).
  f_equal. apply IH. intros x Hx. apply He. by right.
Qed.

(** C37: with external channels in the order of delays, the scheduler lets the
    smallest delay of all events pass in every channel, which keeps the order
    and makes some event due; besides the process that calls it, it prefers
    exactly the machines with an internal event or a due first event. *)
Theorem scheduleMachines_due _pid ms prio :
  NoDup (procid <$> ms) -> (forall p, p ∈ ms -> fits (eQ p) /\ ordered (ch_msgs (eQ p))) ->
  (forall d, d ∈ delays_of ms -> (0 <= d <= INT_MAX)%Z) ->
  let d := smallest_delay ms in
  exists prio', scheduleMachines _pid ms prio = Some (waited d <$> ms, prio') /\
    (forall p, p ∈ ms -> ordered (ch_msgs (eQ (waited d p)))) /\
    (delays_of ms <> [] -> 0%Z ∈ delays_of (waited d <$> ms)) /\
    (forall d', d' ∈ delays_of (waited d <$> ms) -> (0 <= d')%Z) /\
    (forall p, p ∈ ms -> prio' !! procid p =
       Some (if bool_decide (procid p = _pid) || due 0 (waited d p) then 10%Z else 1%Z)).
Proof.
  intros Hnd Hq Hrange. cbv zeta. set (d := smallest_delay ms).
  destruct (smallest_delay_spec ms) as [Hlow Hin]; [intros p Hp; by apply Hq|]. fold d in Hlow, Hin.
  assert (Hle : forall p e, p ∈ ms -> e ∈ ch_msgs (eQ p) -> (d <= v_delay e)%Z).
  { intros p e Hp He. apply Hlow, elem_of_delays. eauto. }
  assert (Hadv : forall p e, p ∈ ms -> e ∈ ch_msgs (eQ p) -> v_delay (advanced d e) = (v_delay e - d)%Z).
  { intros p e Hp He. unfold advanced. by rewrite (proj2 (Z.leb_le _ _) (Hle p e Hp He)). }
  assert (Hd0 : (0 <= d)%Z).
  { destruct (smallest_from ms INT_MAX) as (_ & _ & [H|(p & Hp & e & l & He & H)]); fold (smallest_delay ms) in H; fold d in H.
    - rewrite H. done.
    - rewrite <- H. apply Hrange, elem_of_delays. exists p, e. split; [done|]. rewrite He. split; [left|done]. }
  assert (Hms : advance_machines d ms = Some (waited d <$> ms)).
  { destruct (decide (d = 0)%Z) as [->|Hne]; [|apply advance_machines_spec; [intros p Hp; by apply Hq|lia]].
    unfold advance_machines. cbn. f_equal. symmetry. rewrite <- (list_fmap_id ms) at 2.
    apply list_fmap_ext. intros i p Hp%list_elem_of_lookup_2. apply waited_zero. intros e He.
    apply Hrange, elem_of_delays. eauto. }
  unfold scheduleMachines. fold d. rewrite Hms. cbn [mbind option_bind]. eexists. split; [done|]. split_and!.
  - intros p Hp. cbn. apply ordered_advanced; [intros e He; by apply (Hle p)|by apply Hq].
  - intros Hne. pose proof (Hin (fun d' H => proj2 (Hrange d' H)) Hne) as (p & e & Hp & He & Hde)%elem_of_delays.
    apply elem_of_delays. exists (waited d p), (advanced d e). split_and!.
    + by apply list_elem_of_fmap_2.
    + cbn. by apply list_elem_of_fmap_2.
    + rewrite (Hadv p e Hp He). lia.
  - intros d' (p' & e' & (p & -> & Hp)%list_elem_of_fmap & He' & <-)%elem_of_delays. cbn in He'.
    apply list_elem_of_fmap in He' as (e & -> & He). rewrite (Hadv p e Hp He). pose proof (Hle p e Hp He). lia.
  - intros p Hp.
    assert (Hdue : due 0 (waited d p) = due d p).
    { unfold due. cbn [iQ eQ waited set_eQ ch_msgs ch_size]. f_equal. destruct (ch_msgs (eQ p)) as [|e l] eqn:He; [done|]. cbn [fmap list_fmap].
      rewrite (Hadv p e Hp) by (rewrite He; left). apply eq_bool_prop_intro. rewrite !Is_true_true, !Z.eqb_eq. clearbody d. lia. }
    rewrite Hdue. case_bool_decide as Hpid; cbn [orb].
    + by rewrite Hpid, lookup_insert_eq.
    + rewrite lookup_insert_ne by congruence. by apply rescheduled.
Qed.

End Scheduler.

(** ** Samples *)

Section Samples.

Definition timer (name sendid delay : Z) : _event_t unit := mkEventT delay name 0 1 sendid ().
Definition sample_array : list (_event_t unit) := replicate 12 (timer 0 0 0).
Definition sample_machine (pid : nat) (l : list (_event_t unit)) : Process unit :=
  mkProcess pid (mkChan 7 []) (mkChan 13 l).

Lemma delayed_sends_ordered_witness : exists l,
  send_all sample_array [timer 1 0 30; timer 2 0 10; timer 3 0 30; timer 4 0 0] (mkChan 13 []) = Some (mkChan 13 l) /\
  ordered l /\ v_name <$> l = [4; 2; 1; 3]%Z.
Proof.
  destruct (delayed_sends_ordered [7; 7] 7 sample_array
    [timer 1 0 30; timer 2 0 10; timer 3 0 30; timer 4 0 0]) as (l & Hl & Ho & _).
  - left.
  - done.
  - apply (bool_decide_unpack _). by vm_compute.
  - exists l. split; [exact Hl|]. split; [done|]. vm_compute in Hl. by injection Hl as <-.
Defined.

(** The first of three timers is cancelled: the last one takes its place, and
    the time of the second one passes unnoticed. *)
Lemma cancel_ends_early_witness :
  let q := mkChan 13 [timer 1 5 10; timer 2 6 20; timer 3 7 30] in
  cancelSendIdOnQueue 5 1 q = Some (mkChan 13 [timer 3 7 30; timer 2 6 20]) /\
  smallest_delay [sample_machine 1 [timer 3 7 30; timer 2 6 20]] = 30%Z /\
  advanceTime 30 (mkChan 13 [timer 3 7 30; timer 2 6 20]) = Some (mkChan 13 [timer 3 7 0; timer 2 6 20]).
Proof.
  intros q. split; [|by vm_compute].
  destruct (cancel_ends_early 5 1 q) as (_ & _ & H & _).
  - unfold fits. cbn. lia.
  - apply (H [] (timer 1 5 10) [timer 2 6 20] (timer 3 7 30)).
    + done.
    + apply (bool_decide_unpack _). by vm_compute.
    + by vm_compute.
Defined.

Lemma scheduleMachines_due_witness :
  let ms := [sample_machine 1 [timer 1 0 20; timer 2 0 40]; sample_machine 2 [timer 3 0 10]; sample_machine 3 []] in
  exists prio, scheduleMachines 1 ms ∅ =
    Some ([sample_machine 1 [timer 1 0 10; timer 2 0 30]; sample_machine 2 [timer 3 0 0]; sample_machine 3 []], prio) /\
  prio !! 2 = Some 10%Z /\ prio !! 3 = Some 1%Z.
Proof.
  intros ms. destruct (scheduleMachines_due 1 ms ∅) as (prio & Hs & _ & _ & _ & Hp).
  - apply (bool_decide_unpack _). by vm_compute.
  - assert (HF : Forall (fun p => fits (eQ p) /\ ordered (ch_msgs (eQ p))) ms).
    { repeat constructor; unfold by_delay; cbn; lia. }
    rewrite Forall_forall in HF. exact HF.
  - assert (HF : Forall (fun d => (0 <= d <= INT_MAX)%Z) (delays_of ms)) by (repeat constructor; unfold INT_MAX; cbn; lia).
    rewrite Forall_forall in HF. exact HF.
  - exists prio. split; [exact Hs|]. split.
    + exact (Hp (sample_machine 2 [timer 3 0 10]) ltac:(right; left)).
    + exact (Hp (sample_machine 3 []) ltac:(right; right; left)).
Defined.

End Samples.
