(* ===== verification/PmlAnalyzer.v ===== *)
(** * The emitted Promela program: names, numbers and types

    [PromelaCodeAnalyzer] (transform/promela) gives every text of a document -
    event names, string literals, identifiers of states - a macro name and a
    number, and [ChartToPromela::declForRange] chooses the type a variable is
    declared with from the constants that are assigned to it. *)

From stdpp Require Import base list gmap strings pretty.
From S2P Require Import Prelude Strings Dom Predicates Trie Vhdl.

Local Open Scope nat_scope.

(** ** Macro names *)

Definition MAX_MACRO_CHARS : nat := 64.

(** Number sign, backslash, slash, colon, question mark, double quote, ... *)
Definition illegalChars : list Ascii.ascii :=
  Ascii.ascii_of_nat <$> [35; 92; 47; 58; 63; 34; 60; 62; 124; 32; 10; 9; 40; 41; 91; 93; 123; 125; 39; 44; 46; 45].

(** A run of illegal characters becomes one underscore. *)
Fixpoint replace_illegal (in_run : bool) (s : list Ascii.ascii) : list Ascii.ascii :=
  match s with
  | [] => []
  | c :: s =>
      if char_in illegalChars c
      then (if in_run then [] else ["_"%char]) ++ replace_illegal true s
      else c :: replace_illegal false s
  end.

Definition toStr_nat (n : nat) : string := pretty n.

(** [macroName.substr(0, size - suffix.size()) + suffix] *)
Definition with_suffix (index : nat) (macroName : list Ascii.ascii) : list Ascii.ascii :=
  let suffix := explode (toStr_nat index) in
  if length suffix <? length macroName
  then take (length macroName - length suffix) macroName ++ suffix
  else suffix.

(** The loop that makes a name unique. *)
Fixpoint uniquify (fuel index : nat) (names : list string) (macroName : list Ascii.ascii) : option string :=
  match fuel with
  | 0 => None
  | S fuel =>
      if bool_decide (implode macroName ∈ names)
      then uniquify fuel (index + 1) names (with_suffix index macroName)
      else Some (implode macroName)
  end.

(** Rounds of that loop for a set of names; see [uniquify_total]. *)
Definition unique_fuel (names : list string) : nat :=
  S (S (sum_list ((fun n => S (length (explode n))) <$> names))).

(** The members of the analyzer that number texts. *)
Record Analyzer := mkAnalyzer {
  _strMacros : gmap string string;
  _strIndex : gmap string nat;
  _literals : gset string;
  _macroNameSet : list string;
  _lastStrIndex : nat;
  _eventWords : list string;
}.

Definition new_analyzer : Analyzer := mkAnalyzer ∅ ∅ ∅ [] 1 [].

Section Literals.
(** [boost::to_upper] is not part of the sources. *)
Context (to_upper : list Ascii.ascii -> list Ascii.ascii).

Definition macro_base (literal : string) : list Ascii.ascii :=
  let name := explode literal in
  let name := if isInteger (implode (take 1 name)) 10 then "_"%char :: name else name in
  let name := replace_illegal false (to_upper (take MAX_MACRO_CHARS name)) in
  let name := if length name <? 1 then explode "_EMPTY_STRING" else name in
  if (length name <? 2) && bool_decide (head name = Some "_"%char) then explode "_WEIRD_CHARS" else name.

(** [None] is an exception, or a loop that does not end. *)
Definition createMacroName (literal : string) (a : Analyzer) : option (string * Analyzer) :=
  match _strMacros a !! literal with
  | Some macroName => Some (macroName, a)
  | None =>
      macroName ← uniquify (unique_fuel (_macroNameSet a)) 2 (_macroNameSet a) (macro_base literal);
      Some (macroName, mkAnalyzer (<[literal := macroName]> (_strMacros a)) (_strIndex a) (_literals a)
        (macroName :: _macroNameSet a) (_lastStrIndex a) (_eventWords a))
  end.

(** [enumerateLiteral] with the default argument. *)
Definition enumerateLiteral (literal : string) (a : Analyzer) : Analyzer :=
  match _strIndex a !! literal with
  | Some _ => a
  | None => mkAnalyzer (_strMacros a) (<[literal := _lastStrIndex a]> (_strIndex a)) (_literals a)
      (_macroNameSet a) (S (_lastStrIndex a)) (_eventWords a)
  end.

Definition quoted (literal : string) : bool := bool_decide (head (explode literal) = Some "'"%char).

Definition addLiteral (literal : string) (a : Analyzer) : option Analyzer :=
  if quoted literal then None
  else if bool_decide (literal ∈ _literals a) then Some a
  else
    '(_, a) ← createMacroName literal (mkAnalyzer (_strMacros a) (_strIndex a) ({[literal]} ∪ _literals a)
      (_macroNameSet a) (_lastStrIndex a) (_eventWords a));
    Some (enumerateLiteral literal a).

Definition addEvent (eventName : string) (a : Analyzer) : option Analyzer :=
  a ← addLiteral eventName a;
  Some (mkAnalyzer (_strMacros a) (_strIndex a) (_literals a) (_macroNameSet a) (_lastStrIndex a)
    (_eventWords a ++ [eventName])).

Definition indexForLiteral (literal : string) (a : Analyzer) : option nat :=
  if quoted literal then None else _strIndex a !! literal.

Definition macroForLiteral (literal : string) (a : Analyzer) : option string :=
  if quoted literal then None else _strMacros a !! literal.

(** *** [analyze]: the names of states and events *)

Section Events.
Context {node : Type} `{!EqDecision node} {D : DomOps node}.
Context (scxml : node) (states : list node).

Definition documentEvents : list string :=
  flat_map event_words (inDocumentOrder ((fun t => XML_PREFIX scxml +:+ t)%string <$>
    ["transition"; "raise"; "send"]%string) scxml).

Definition doneEvents : list string :=
  omap (fun state => if HAS_ATTR state "id" && (isCompound state || isParallel state)
    then Some ("done.state." +:+ ATTR state "id")%string else None) states.

(** The event named for an invoke element is the one of a state. *)
Definition invokeEvents : list string :=
  omap (fun invoker => if HAS_ATTR invoker "id" then Some ("done.state." +:+ ATTR invoker "id")%string else None)
    (inDocumentOrder [XML_PREFIX scxml +:+ "invoke"]%string scxml).

Fixpoint each (f : string -> Analyzer -> option Analyzer) (l : list string) (a : Analyzer) : option Analyzer :=
  match l with
  | [] => Some a
  | x :: l => f x a ≫= each f l
  end.

Definition name_states (a : Analyzer) : option Analyzer :=
  each (fun id a => snd <$> createMacroName id a)
    (omap (fun state => getAttribute state "id") states) a.

Definition analyze_events (a : Analyzer) : option Analyzer :=
  name_states a ≫= each addEvent (documentEvents ++ doneEvents ++ invokeEvents).

End Events.
End Literals.

(** ** Declarations *)

Inductive Declaration := Int | Short | Byte | Bool | Unsigned (bits : Z).

(** [(number > 1 ? (int)ceil(log2((double)number)) : 1)], exact for an [int]. *)
Definition BIT_WIDTH (number : Z) : Z := if (1 <? number)%Z then Z.log2_up number else 1%Z.

Definition declForRange (minValue maxValue : Z) (nativeOnly : bool) : Declaration :=
  if (minValue =? 0)%Z && (maxValue =? 0)%Z then Int
  else if (minValue <? 0)%Z then
    if (minValue <? -32769)%Z || (32767 <? maxValue)%Z then Int else Short
  else if nativeOnly then
    if (32767 <? maxValue)%Z then Int
    else if (255 <? maxValue)%Z then Short
    else if (1 <? maxValue)%Z then Byte
    else Bool
  else Unsigned (BIT_WIDTH maxValue).

Definition print_declaration (identifier : string) (d : Declaration) : string :=
  match d with
  | Int => "int " +:+ identifier
  | Short => "short " +:+ identifier
  | Byte => "byte " +:+ identifier
  | Bool => "bool " +:+ identifier
  | Unsigned bits => "unsigned " +:+ identifier +:+ " : " +:+ pretty bits
  end.

(** The values that a variable of a type holds, as Promela defines them: from
    the first bound up to, but without, the second one. *)
Definition value_range (d : Declaration) : Z * Z :=
  match d with
  | Int => (-2147483648, 2147483648)
  | Short => (-32768, 32768)
  | Byte => (0, 256)
  | Bool => (0, 2)
  | Unsigned bits => (0, 2 ^ bits)
  end%Z.

Definition holds (d : Declaration) (v : Z) : bool :=
  (fst (value_range d) <=? v)%Z && (v <? snd (value_range d))%Z.

(** ** Distinct names and numbers *)

Section Unique.

Lemma with_suffix_ends index name :
  drop (length (with_suffix index name) - length (explode (toStr_nat index))) (with_suffix index name) =
  explode (toStr_nat index).
Proof.
  unfold with_suffix. cbv zeta. set (suffix := explode (toStr_nat index)).
  destruct (Nat.ltb_spec (length suffix) (length name)); [|by rewrite Nat.sub_diag, drop_0].
  rewrite length_app, Nat.add_sub. by rewrite drop_app_length.
Qed.

Lemma with_suffix_long index name : length (explode (toStr_nat index)) <= length (with_suffix index name).
Proof.
  unfold with_suffix. cbv zeta. destruct (Nat.ltb_spec (length (explode (toStr_nat index))) (length name)); [|done].
  rewrite length_app. lia.
Qed.

Lemma toStr_nat_inj i j : explode (toStr_nat i) = explode (toStr_nat j) -> i = j.
Proof. intros H%explode_inj. by apply (inj pretty). Qed.

(** The names the loop tries from [index] on. *)
Fixpoint tries (k index : nat) (name : list Ascii.ascii) : list (nat * list Ascii.ascii) :=
  match k with
  | 0 => []
  | S k => let name' := with_suffix index name in (index, name') :: tries k (index + 1) name'
  end.

Lemma tries_elem k : forall index name i n, (i, n) ∈ tries k index name ->
  index <= i /\ exists m, n = with_suffix i m.
Proof.
  induction k as [|k IH]; intros index name i n; cbn [tries]; [by intros ?%elem_of_nil|].
  intros [[= -> ->]|H]%elem_of_cons; [split; [done|by eexists]|]. apply IH in H as [? ?]. split; [lia|done].
Qed.

Lemma tries_length k : forall index name, length (tries k index name) = k.
Proof. induction k; intros; cbn; auto. Qed.

Definition try_key (t : nat * list Ascii.ascii) : string * nat :=
  (implode t.2, length (explode (toStr_nat t.1))).

Lemma tries_NoDup k : forall index name, NoDup (try_key <$> tries k index name).
Proof.
  induction k as [|k IH]; intros index name; cbn [tries fmap list_fmap]; [constructor|].
  constructor; [|apply IH]. intros ([i n] & Hkey & Hin)%list_elem_of_fmap.
  apply tries_elem in Hin as (Hi & m & ->). unfold try_key in Hkey. cbn [fst snd] in Hkey.
  injection Hkey as Hname Hlen. apply implode_inj in Hname.
  assert (index = i); [|lia]. apply toStr_nat_inj.
  rewrite <- (with_suffix_ends index name), <- (with_suffix_ends i m), Hname, Hlen. done.
Qed.

(** The keys that names in use can have. *)
Definition key_space (names : list string) : list (string * nat) :=
  flat_map (fun n => pair n <$> seq 0 (S (length (explode n)))) names.

Lemma key_space_length names : length (key_space names) = sum_list ((fun n => S (length (explode n))) <$> names).
Proof.
  unfold key_space. induction names as [|n names IH]; [done|]. cbn [flat_map fmap list_fmap sum_list].
  rewrite length_app, IH, length_fmap, length_seq. done.
Qed.

(** One of enough names is not in use. *)
Lemma fresh_try names k index name : length (key_space names) < k ->
  exists t, t ∈ tries k index name /\ implode t.2 ∉ names.
Proof.
  intros Hk. destruct (decide (Exists (fun t => implode t.2 ∉ names) (tries k index name))) as [H|H].
  { by apply Exists_exists in H. }
  exfalso. apply not_Exists_Forall in H; [|intros; apply _].
  assert (Hincl : try_key <$> tries k index name ⊆ key_space names).
  { intros key ([i n] & -> & Hin)%list_elem_of_fmap. rewrite Forall_forall in H.
    pose proof (H _ Hin) as Hn. cbn in Hn. apply dec_stable in Hn.
    apply tries_elem in Hin as (_ & m & ->). apply elem_of_flat_map.
    exists (implode (with_suffix i m)). split; [done|]. apply list_elem_of_fmap. eexists. split; [done|].
    apply elem_of_seq. rewrite explode_implode. pose proof (with_suffix_long i m). cbn. lia. }
  pose proof (NoDup_submseteq _ _ (tries_NoDup k index name) Hincl) as Hs.
  apply submseteq_length in Hs. rewrite length_fmap, tries_length in Hs. lia.
Qed.

Lemma uniquify_tries names k : forall index name,
  (exists t, t ∈ tries k index name /\ implode t.2 ∉ names) ->
  exists n, uniquify (S k) index names name = Some n /\ n ∉ names.
Proof.
  induction k as [|k IH]; intros index name (t & Ht & Hn); [by apply elem_of_nil in Ht|].
  cbn [uniquify]. case_bool_decide as Hin; [|by exists (implode name)]. cbn [tries] in Ht.
  apply elem_of_cons in Ht as [->|Ht].
  - exists (implode (with_suffix index name)). cbn [snd] in Hn. split; [|done]. by rewrite bool_decide_eq_false_2.
  - apply (IH (index + 1) (with_suffix index name)). by exists t.
Qed.

(** The loop of [createMacroName] ends, with a name that is not in use. *)
Lemma uniquify_total names index name :
  exists n, uniquify (unique_fuel names) index names name = Some n /\ n ∉ names.
Proof.
  apply uniquify_tries, fresh_try. rewrite key_space_length. lia.
Qed.

Context (to_upper : list Ascii.ascii -> list Ascii.ascii).

(** What holds of the analyzer at all times. *)
Record analyzer_ok (a : Analyzer) : Prop := {
  ok_names l m : _strMacros a !! l = Some m -> m ∈ _macroNameSet a;
  ok_macros l1 l2 m : _strMacros a !! l1 = Some m -> _strMacros a !! l2 = Some m -> l1 = l2;
  ok_index l i : _strIndex a !! l = Some i -> 0 < i /\ i < _lastStrIndex a;
  ok_distinct l1 l2 i : _strIndex a !! l1 = Some i -> _strIndex a !! l2 = Some i -> l1 = l2;
  ok_literals l : l ∈ _literals a -> is_Some (_strMacros a !! l) /\ is_Some (_strIndex a !! l);
  ok_last : 0 < _lastStrIndex a;
}.

Lemma new_analyzer_ok : analyzer_ok new_analyzer.
Proof. by split; cbn; try set_solver; try lia; intros; simplify_map_eq. Qed.

Lemma createMacroName_ok literal a : analyzer_ok a -> exists m a', createMacroName to_upper literal a = Some (m, a') /\
  analyzer_ok a' /\ _strMacros a' !! literal = Some m /\ _strIndex a' = _strIndex a /\ _literals a' = _literals a /\
  _lastStrIndex a' = _lastStrIndex a /\ (forall l x, _strMacros a !! l = Some x -> _strMacros a' !! l = Some x).
Proof.
  intros [Hn Hm Hi Hd Hl H1]. unfold createMacroName. destruct (_strMacros a !! literal) as [m|] eqn:E.
  { exists m, a. split_and!; done. }
  destruct (uniquify_total (_macroNameSet a) 2 (macro_base to_upper literal)) as (m & -> & Hfresh).
  cbn [mbind option_bind]. eexists m, _. split; [done|]. cbn [_strMacros _strIndex _literals _lastStrIndex].
  assert (Hmono : forall l x, _strMacros a !! l = Some x -> <[literal:=m]> (_strMacros a) !! l = Some x).
  { intros l x Hx. rewrite lookup_insert_ne; [done|congruence]. }
  split_and!; try done; [|by rewrite lookup_insert_eq].
  split; cbn [_strMacros _strIndex _literals _lastStrIndex _macroNameSet]; try done.
  - intros l x [[<- <-]|[Hne Hx]]%lookup_insert_Some; [left|right; by eapply Hn].
  - intros l1 l2 x [[<- <-]|[Hne Hx]]%lookup_insert_Some [[<- Hy]|[Hne' Hy]]%lookup_insert_Some; try done.
    + destruct Hfresh. by eapply Hn.
    + subst x. destruct Hfresh. by eapply Hn.
    + by eapply Hm.
  - intros l (Hs & ?)%Hl. split; [|done]. destruct Hs as [x Hx]. eauto.
Qed.

Lemma addLiteral_ok literal a : analyzer_ok a -> quoted literal = false ->
  exists a', addLiteral to_upper literal a = Some a' /\ analyzer_ok a' /\ literal ∈ _literals a' /\
    _literals a ⊆ _literals a'.
Proof.
  intros Hok Hq. unfold addLiteral. rewrite Hq. case_bool_decide as Hin; [by exists a|].
  destruct (createMacroName_ok literal a Hok) as (m & a1 & Hc & Hok1 & Hm & Hi & Hl & Hlast & Hmono).
  assert (Hc' : exists a2, createMacroName to_upper literal (mkAnalyzer (_strMacros a) (_strIndex a)
      ({[literal]} ∪ _literals a) (_macroNameSet a) (_lastStrIndex a) (_eventWords a)) = Some (m, a2) /\
      a2 = mkAnalyzer (_strMacros a1) (_strIndex a1) ({[literal]} ∪ _literals a1) (_macroNameSet a1) (_lastStrIndex a1) (_eventWords a1)).
  { unfold createMacroName in *. cbn [_strMacros _macroNameSet]. destruct (_strMacros a !! literal).
    - injection Hc as -> ->. eexists. split; done.
    - destruct (uniquify _ _ _ _); [|done]. cbn [mbind option_bind] in *. injection Hc as -> <-. eexists. split; done. }
  destruct Hc' as (a2 & -> & ->). cbn [mbind option_bind]. destruct Hok1 as [Hn Hmm Hix Hd Hll H1].
  unfold enumerateLiteral. cbn [_strIndex _strMacros _literals _macroNameSet _lastStrIndex _eventWords].
  destruct (_strIndex a1 !! literal) as [i|] eqn:Ei; eexists; (split; [done|]);
    cbn [_literals]; (split; [|split; [set_solver|rewrite Hl; set_solver]]).
  - split; cbn [_strIndex _strMacros _literals _macroNameSet _lastStrIndex _eventWords]; try done.
    intros l [->%elem_of_singleton|?]%elem_of_union; [split; by eexists|by apply Hll].
  - split; cbn [_strIndex _strMacros _literals _macroNameSet _lastStrIndex _eventWords]; try done; try lia.
    + intros l i [[<- <-]|[Hne Hx]]%lookup_insert_Some; [lia|]. destruct (Hix l i Hx). lia.
    + intros l1 l2 i [[<- <-]|[Hne Hx]]%lookup_insert_Some [[<- Hy]|[Hne' Hy]]%lookup_insert_Some; try done.
      * destruct (Hix _ _ Hy). lia.
      * subst i. destruct (Hix _ _ Hx). lia.
      * by eapply Hd.
    + intros l [->%elem_of_singleton|Hin']%elem_of_union; [split; [by eexists|by rewrite lookup_insert_eq]|].
      destruct (Hll l Hin') as [? [x Hx]]. split; [done|]. destruct (decide (literal = l)) as [->|];
        [by rewrite lookup_insert_eq|]. rewrite lookup_insert_ne by done. by eexists.
Qed.

Lemma addEvent_ok e a : analyzer_ok a -> quoted e = false ->
  exists a', addEvent to_upper e a = Some a' /\ analyzer_ok a' /\ e ∈ _literals a' /\ _literals a ⊆ _literals a'.
Proof.
  intros Hok Hq. destruct (addLiteral_ok e a Hok Hq) as (a1 & Ha & [] & Hin & Hsub). unfold addEvent. rewrite Ha.
  cbn [mbind option_bind]. eexists. split; [done|]. split; [by split|done].
Qed.

Lemma each_ok (f : string -> Analyzer -> option Analyzer) (P : string -> Prop) l :
  (forall x a, analyzer_ok a -> P x -> exists a', f x a = Some a' /\ analyzer_ok a' /\ x ∈ _literals a' /\ _literals a ⊆ _literals a') ->
  forall a, analyzer_ok a -> Forall P l ->
  exists a', each f l a = Some a' /\ analyzer_ok a' /\ (forall x, x ∈ l -> x ∈ _literals a') /\ _literals a ⊆ _literals a'.
Proof.
  intros Hf. induction l as [|x l IH]; intros a Hok Hl; cbn [each].
  { exists a. split_and!; [done|done| |done]. by intros x ?%elem_of_nil. }
  apply Forall_cons in Hl as [Hx Hl]. destruct (Hf x a Hok Hx) as (a1 & -> & Hok1 & Hin1 & Hsub1). cbn [mbind option_bind].
  destruct (IH a1 Hok1 Hl) as (a2 & -> & Hok2 & Hin2 & Hsub2). exists a2. split_and!; [done|done| |set_solver].
  intros y [->|Hy]%elem_of_cons; [set_solver|by apply Hin2].
Qed.

Lemma name_states_ok {node : Type} {D : DomOps node} (states : list node) a : analyzer_ok a ->
  exists a', name_states to_upper states a = Some a' /\ analyzer_ok a'.
Proof.
  unfold name_states. generalize (omap (fun state => getAttribute state "id") states). intros ids. revert a.
  induction ids as [|id ids IH]; intros a Hok; cbn [each]; [by exists a|].
  destruct (createMacroName_ok id a Hok) as (m & a1 & -> & Hok1 & _). cbn. by apply IH.
Qed.

(** C39: the analysis of a document without quoted names ends, whatever else
    was numbered before, and gives every event of the document a macro name and
    a positive number; different texts have different macros and different
    numbers, and no event has the number 0 of spontaneous transitions. *)
Theorem events_numbered {node : Type} `{!EqDecision node} {D : DomOps node} (scxml : node) (states : list node) a :
  analyzer_ok a ->
  let events := documentEvents scxml ++ doneEvents states ++ invokeEvents scxml in
  Forall (fun e => quoted e = false) events ->
  exists a', analyze_events to_upper scxml states a = Some a' /\ analyzer_ok a' /\
    (forall e, e ∈ events -> exists m i, macroForLiteral e a' = Some m /\ indexForLiteral e a' = Some i /\ 0 < i) /\
    (forall e1 e2 m, macroForLiteral e1 a' = Some m -> macroForLiteral e2 a' = Some m -> e1 = e2) /\
    (forall e1 e2 i, indexForLiteral e1 a' = Some i -> indexForLiteral e2 a' = Some i -> e1 = e2).
Proof.
  intros Hok events Hq. unfold analyze_events. destruct (name_states_ok states a Hok) as (a1 & -> & Hok1).
  cbn [mbind option_bind]. fold events.
  destruct (each_ok (addEvent to_upper) (fun e => quoted e = false) events addEvent_ok a1 Hok1 Hq)
    as (a2 & -> & Hok2 & Hin & _).
  exists a2. split_and!; [done|done| | |].
  - intros e He. destruct (ok_literals a2 Hok2 e (Hin e He)) as [[m Hm] [i Hi]]. exists m, i.
    rewrite Forall_forall in Hq. unfold macroForLiteral, indexForLiteral. rewrite (Hq e He).
    split_and!; [done|done|]. by destruct (ok_index a2 Hok2 e i Hi).
  - intros e1 e2 m. unfold macroForLiteral. destruct (quoted e1), (quoted e2); try done. apply (ok_macros a2 Hok2).
  - intros e1 e2 i. unfold indexForLiteral. destruct (quoted e1), (quoted e2); try done. apply (ok_distinct a2 Hok2).
Qed.

End Unique.

(** ** Declared types *)

Lemma bit_width_holds v maxValue : (0 <= v <= maxValue)%Z -> (1 <= maxValue)%Z ->
  (2 ^ BIT_WIDTH maxValue <= v)%Z <-> v = maxValue /\ exists k, (0 < k)%Z /\ maxValue = (2 ^ k)%Z.
Proof.
  intros Hv Hmax. unfold BIT_WIDTH. destruct (Z.ltb_spec 1 maxValue) as [H1|H1].
  - pose proof (Z.log2_up_spec maxValue H1) as [_ Hup]. split.
    + intros Hle. assert (v = maxValue) as -> by lia. split; [done|]. exists (Z.log2_up maxValue).
      split; [apply Z.log2_up_pos; lia|lia].
    + intros [-> (k & Hk & ->)]. rewrite Z.log2_up_pow2 by lia. lia.
  - split; [intros Hle; change (2 ^ 1)%Z with 2%Z in Hle; lia|].
    intros [_ (k & Hk & Hp)]. pose proof (Z.pow_gt_1 2 k). lia.
Qed.

Lemma holds_false d v : holds d v = false <-> (v < fst (value_range d) \/ snd (value_range d) <= v)%Z.
Proof. unfold holds. rewrite andb_false_iff, Z.leb_gt, Z.ltb_ge. done. Qed.

(** C40: a variable that is declared for a range of integers holds every
    value of the range, with two exceptions, which it does not hold: -32769 when
    it is the least value, and a greatest value that is a power of two when the
    least one is not negative and the type may be an unsigned one. *)
Theorem declared_range_held minValue maxValue nativeOnly v :
  (- 2 ^ 31 <= minValue)%Z -> (maxValue < 2 ^ 31)%Z -> (minValue <= v <= maxValue)%Z ->
  holds (declForRange minValue maxValue nativeOnly) v = false <->
    (minValue = -32769 /\ v = -32769 /\ maxValue <= 32767)%Z \/
    (nativeOnly = false /\ (0 <= minValue)%Z /\ v = maxValue /\ exists k, (0 < k)%Z /\ maxValue = (2 ^ k)%Z).
Proof.
  intros Hmin Hmax Hv. change (2 ^ 31)%Z with 2147483648%Z in *. unfold declForRange.
  destruct (Z.ltb_spec minValue 0) as [Hneg|Hpos].
  - rewrite (proj2 (Z.eqb_neq minValue 0)) by lia. cbn [andb].
    destruct (Z.ltb_spec minValue (-32769)), (Z.ltb_spec 32767 maxValue); cbn [orb];
      rewrite holds_false; cbn [value_range fst snd]; split; try lia; intros [?|(_ & ? & _)]; lia.
  - destruct (Z.eqb_spec maxValue 0) as [->|Hne].
    { assert (minValue = 0%Z) as -> by lia. cbn [Z.eqb andb]. rewrite holds_false. cbn [value_range fst snd]. split; [lia|]. intros [?|(_ & _ & -> & k & Hk & Hp)]; [lia|].
      pose proof (Z.pow_pos_nonneg 2 k). lia. }
    rewrite andb_false_r. destruct nativeOnly.
    + transitivity False; [|split; [done|]; intros [?|[? _]]; [lia|done]]. split; [|done].
      destruct (Z.ltb_spec 32767 maxValue); [|destruct (Z.ltb_spec 255 maxValue); [|destruct (Z.ltb_spec 1 maxValue)]];
        rewrite holds_false; cbn [value_range fst snd]; lia.
    + rewrite holds_false. cbn [value_range fst snd]. pose proof (bit_width_holds v maxValue ltac:(lia) ltac:(lia)) as Hb.
      split.
      * intros [?|Hle]; [lia|]. apply Hb in Hle as [-> ?]. by right.
      * intros [?|(_ & _ & -> & Hk)]; [lia|]. right. by apply Hb.
Qed.

(** ** Samples *)

Definition ascii_upper (s : list Ascii.ascii) : list Ascii.ascii :=
  (fun c => let n := Ascii.nat_of_ascii c in
    if (97 <=? n) && (n <=? 122) then Ascii.ascii_of_nat (n - 32) else c) <$> s.

(** A counter that is only assigned 0 and 4 is declared with two bits. *)
Lemma declared_range_held_witness :
  print_declaration "x" (declForRange 0 4 false) = "unsigned x : 2"%string /\
  holds (declForRange 0 4 false) 4 = false.
Proof.
  split; [by vm_compute|]. apply (declared_range_held 0 4 false 4); [lia|lia|lia|].
  right. split_and!; [done|lia|done|]. by exists 2%Z.
Defined.

Definition signals : list row := rows (Xml "scxml" [] []
  [Xml "state" [("id", "on")] [] [Xml "transition" [("event", "a error.* A"); ("target", "off")] [] []];
   Xml "parallel" [("id", "off")] [] [Xml "transition" [("event", "*"); ("target", "on")] [] []]]).

Definition signals_dom : DomOps nat := table_dom signals.

Lemma events_numbered_witness : exists a,
  analyze_events (D := signals_dom) ascii_upper 0 [1; 3] new_analyzer = Some a /\
  macroForLiteral "a" a <> macroForLiteral "A" a.
Proof.
  destruct (events_numbered (D := signals_dom) ascii_upper 0 [1; 3] new_analyzer) as (a & Ha & _ & Hev & Hm & _).
  - apply new_analyzer_ok.
  - apply (bool_decide_unpack _). by vm_compute.
  - exists a. split; [exact Ha|]. destruct (Hev "a"%string) as (m & _ & H1 & _).
    { apply (bool_decide_unpack _). by vm_compute. }
    intros H. rewrite H1 in H. symmetry in H. by pose proof (Hm _ _ _ H H1).
Defined.

(** Names that differ in case only: the second macro is a bare number. *)
Example short_names_collide : exists a,
  analyze_events (D := signals_dom) ascii_upper 0 [1; 3] new_analyzer = Some a /\
  macroForLiteral "a" a = Some "A"%string /\ macroForLiteral "A" a = Some "2"%string /\
  indexForLiteral "done.state.off" a = Some 4.
Proof. eexists. split; [by vm_compute|]. by vm_compute. Qed.
