(* ===== verification/PmlMachine.v ===== *)
(** * The emitted Promela program: the state machine

    [ChartToPromela::writeFSM] prints a process per machine that mirrors the
    micro stepper: it takes an event, selects transitions, establishes the entry
    set, leaves and enters states, over arrays of booleans that
    [writeTransitions] and [writeStates] initialise. This file models the
    printed tables and every phase of the process. The content of handlers,
    conditions and nested machines are parameters, as they are printed from the
    document; what cannot be executed is [Stuck]. *)

From stdpp Require Import base list gmap strings.
From S2P Require Import Prelude Strings Dom Predicates CTables Trie Vhdl PmlQueue PmlAnalyzer.

Local Open Scope nat_scope.

(** ** Arrays of booleans: [writeBitAndMacro] and its siblings *)

Abbreviation bools := (list bool).

(** [a[i]]; every index of the program is one of a state or transition. *)
Definition at_ (a : bools) (i : nat) : bool := default false (a !! i).

Definition STATES_AND (a mask : bools) : bools := zip_with andb a mask.
Definition STATES_AND_NOT (a mask : bools) : bools := zip_with (fun x m => x && negb m) a mask.
Definition STATES_OR (a mask : bools) : bools := zip_with orb a mask.
Definition STATES_COPY (a b : bools) : bools := zip_with (fun _ y => y) a b.
Definition STATES_CLEAR (a : bools) : bools := (fun _ => false) <$> a.
Definition STATES_HAS_AND (a b : bools) : bool := existsb (fun xy => fst xy && snd xy) (zip a b).
Definition STATES_HAS_ANY (a : bools) : bool := existsb id a.

(** ** Constants: [writeMacros] *)

Definition CTX_PRISTINE : nat := 0.
Definition CTX_SPONTANEOUS : nat := 1.
Definition CTX_TOP_LEVEL_FINAL : nat := 2.
Definition CTX_TRANSITION_FOUND : nat := 3.
Definition CTX_FINISHED : nat := 4.
Definition CTX_DEQUEUE_EXTERNAL : nat := 5.

Definition TRANS_SPONTANEOUS : nat := 0.
Definition TRANS_TARGETLESS : nat := 1.
Definition TRANS_INTERNAL : nat := 2.
Definition TRANS_HISTORY : nat := 3.
Definition TRANS_INITIAL : nat := 4.

Definition STATE_ATOMIC : nat := 0.
Definition STATE_PARALLEL : nat := 1.
Definition STATE_COMPOUND : nat := 2.
Definition STATE_FINAL : nat := 3.
Definition STATE_HISTORY_DEEP : nat := 4.
Definition STATE_HISTORY_SHALLOW : nat := 5.
Definition STATE_INITIAL : nat := 6.
Definition STATE_HAS_HISTORY : nat := 7.

Definition EVENT_SPONTANEOUS : nat := 0.

(** ** The tables *)

Record state_t := mkStateT {
  ps_parent : nat;
  ps_children : bools;
  ps_completion : bools;
  ps_ancestors : bools;
  ps_type : bools;
}.

Record transition_t := mkTransitionT {
  pt_source : nat;
  pt_target : bools;
  pt_type : bools;
  pt_conflicts : bools;
  pt_exit_set : bools;
}.

(** The disjunct that is printed for a transition: the numbers of the events
    it is compared with, if any, and its condition. *)
Record Test := mkTest { test_events : option (list nat); test_cond : option string }.

Record program := mkProgram {
  g_states : list state_t;
  g_transitions : list transition_t;
  g_tests : list Test;
}.

Section Printers.
Context {node : Type} `{!EqDecision node} {D : DomOps node}.
Context (scxml : node) (address : nat -> Z) (analyzer : Analyzer).
Let P : string := XML_PREFIX scxml.
Notation states := (p_states scxml).
Notation transitions := (p_transitions scxml).

(** An array of which the elements with a 1 in the attribute are assigned. *)
Definition assigned (size : nat) (bits : string) : bools :=
  (fun j => bool_decide (explode bits !! j = Some "1"%char)) <$> seq 0 size.

(** The first of the types that is assigned. *)
Definition type_bit (state : node) : nat :=
  if iequals (getTagName state) "initial" then STATE_INITIAL
  else if isFinal state then STATE_FINAL
  else if isHistory state then
    if HAS_ATTR state "type" && iequals (ATTR state "type") "deep" then STATE_HISTORY_DEEP else STATE_HISTORY_SHALLOW
  else if isAtomic state then STATE_ATOMIC
  else if isParallel state then STATE_PARALLEL
  else STATE_COMPOUND.

Definition writeState (i : nat) (state : node) : option state_t :=
  parent ← (if i =? 0 then Some 0 else getParentNode state ≫= p_index scxml);
  Some {|
    ps_parent := parent;
    ps_children := assigned (length states) (childBools scxml state);
    ps_completion := assigned (length states) (completionBools scxml state);
    ps_ancestors := assigned (length states) (ancBools scxml state);
    ps_type := (fun k => (k =? type_bit state) || ((k =? STATE_HAS_HISTORY) && p_hasHistoryChild scxml state)) <$> seq 0 8;
  |}.

Definition writeTransition (t : node) : option transition_t :=
  source ← getParentNode t ≫= p_index scxml;
  let parentTag := match getParentNode t with Some p => getTagName p | None => ""%string end in
  Some {|
    pt_source := source;
    pt_target := assigned (length states) (default ""%string (targetBools scxml t));
    pt_type := [negb (HAS_ATTR t "event"); negb (HAS_ATTR t "target");
                HAS_ATTR t "type" && String.eqb (ATTR t "type") "internal";
                String.eqb parentTag (XML_PREFIX t +:+ "history"); String.eqb parentTag (XML_PREFIX t +:+ "initial")];
    pt_conflicts := assigned (length transitions) (conflictBools scxml t);
    pt_exit_set := assigned (length states) (exitSetBools scxml t);
  |}.

(** A descriptor without its final ".*" or ".". *)
Definition strip_suffix (suffix : string) (s : string) : string :=
  let n := length (explode s) - length (explode suffix) in
  if bool_decide (drop n (explode s) = explode suffix) then implode (take n (explode s)) else s.

Definition event_literal (desc : string) : string := strip_suffix "." (strip_suffix ".*" desc).

(** The numbers of the events with one of the descriptors as prefix. *)
Definition event_numbers (t : node) : option (list nat) :=
  mapM (fun w => indexForLiteral w analyzer)
    (flat_map (fun desc => value <$> getWordsWithPrefix dot address (trie_of dot (_eventWords analyzer)) (event_literal desc))
      (tokenize (ATTR t "event"))).

Definition writeTest (t : node) : option Test :=
  events ← (if HAS_ATTR t "event" && negb (String.eqb (ATTR t "event") "*")
            then Some <$> event_numbers t else Some None);
  Some (mkTest events (if HAS_ATTR t "cond" then Some (ATTR t "cond") else None)).

Definition writeProgram : option program :=
  states ← mapM (fun ie => writeState ie.1 ie.2) (imap pair states);
  transition_rows ← mapM writeTransition transitions;
  tests ← mapM writeTest transitions;
  Some (mkProgram states transition_rows tests).

End Printers.

(** ** The variables of the process: [writeVariables] *)

Record ctx_t := mkCtx {
  cx_conflicts : bools;
  cx_trans_set : bools;
  cx_target_set : bools;
  cx_exit_set : bools;
  cx_entry_set : bools;
  cx_tmp_states : bools;
}.

(** [W] is everything else: the data model and the other machines. *)
Record Vars (E W : Type) := mkVars {
  flags : bools;
  config : bools;
  history : bools;
  invocations : bools;
  ctx : ctx_t;
  _event : E;
  iQ : chan E;
  eQ : chan E;
  rest : W;
}.
Arguments mkVars {E W}. Arguments flags {E W}. Arguments config {E W}. Arguments history {E W}.
Arguments invocations {E W}. Arguments ctx {E W}. Arguments _event {E W}. Arguments iQ {E W}.
Arguments eQ {E W}. Arguments rest {E W}.

Section Updates.
Context {E W : Type}.
Implicit Types v : Vars E W.
Definition set_flag (f : nat) (b : bool) v := mkVars (<[f := b]> (flags v)) (config v) (history v) (invocations v) (ctx v)
  (_event v) (iQ v) (eQ v) (rest v).
Definition set_config a v := mkVars (flags v) a (history v) (invocations v) (ctx v) (_event v) (iQ v) (eQ v) (rest v).
Definition set_history a v := mkVars (flags v) (config v) a (invocations v) (ctx v) (_event v) (iQ v) (eQ v) (rest v).
Definition set_invocations a v := mkVars (flags v) (config v) (history v) a (ctx v) (_event v) (iQ v) (eQ v) (rest v).
Definition set_ctx c v := mkVars (flags v) (config v) (history v) (invocations v) c (_event v) (iQ v) (eQ v) (rest v).
Definition set_event (e : E) v := mkVars (flags v) (config v) (history v) (invocations v) (ctx v) e (iQ v) (eQ v) (rest v).
Definition set_queues i e v := mkVars (flags v) (config v) (history v) (invocations v) (ctx v) (_event v) i e (rest v).
Definition set_rest (w : W) v := mkVars (flags v) (config v) (history v) (invocations v) (ctx v) (_event v) (iQ v) (eQ v) w.
End Updates.

(** What is printed from the document: the executable content of a handler
    puts events into the channels and changes the other variables; [None] when
    a channel is full. A condition is printed behind [&&] and without
    parentheses: [cond_holds] is the value of its text up to the first [||] that
    is in no parentheses, [cond_otherwise] the one of the disjunction behind. *)
Inductive Block := OnExit (i : nat) | OnEntry (i : nat) | OnTransition (i : nat) | Finalize.
Inductive Done := FinalState (i : nat) | ParallelState (i : nat).

Class PmlContent (E W : Type) := {
  name_of : E -> nat;
  with_name : nat -> E -> E;
  cond_holds : string -> Vars E W -> bool;
  cond_otherwise : string -> Vars E W -> bool;
  execute : Block -> Vars E W -> option (chan E * chan E * W);
  done_event : Done -> Vars E W -> option E;
  has_invokers : nat -> bool;
  uninvoke : nat -> W -> W;
  cancel_invoked : nat -> W -> W;
  remove_pending : Vars E W -> option (Vars E W);
  invoke : nat -> Vars E W -> W;
  forward_event : Vars E W -> option W;
  send_done : Vars E W -> option W;
  schedule : option (Vars E W -> Vars E W);
}.

(** ** The process: [writeFSM] *)

Section Step.
Context {E W : Type} {PC : PmlContent E W} (g : program).
Notation vars := (Vars E W).
Notation NUMBER_STATES := (length (g_states g)).
Notation NUMBER_TRANS := (length (g_transitions g)).

Definition no_state : state_t := mkStateT 0 [] [] [] [].
Definition no_transition : transition_t := mkTransitionT 0 [] [] [] [].
Definition state (i : nat) : state_t := default no_state (g_states g !! i).
Definition trans (i : nat) : transition_t := default no_transition (g_transitions g !! i).

Definition state_is (k i : nat) : bool := at_ (ps_type (state i)) k.
Definition trans_is (k i : nat) : bool := at_ (pt_type (trans i)) k.
Definition is_history (i : nat) : bool := state_is STATE_HISTORY_SHALLOW i || state_is STATE_HISTORY_DEEP i.
Definition is_pseudo_trans (i : nat) : bool := trans_is TRANS_HISTORY i || trans_is TRANS_INITIAL i.
Definition flag (f : nat) (v : vars) : bool := at_ (flags v) f.

(** [for (i = lo; i < hi; i++)], and the loop that stops at the first hit. *)
Definition pml_for {A} (lo hi : nat) (body : nat -> A -> A) (a : A) : A :=
  foldl (fun a i => body i a) a (seq lo (hi - lo)).
Definition first_in (lo hi : nat) (p : nat -> bool) : option nat := List.find p (seq lo (hi - lo)).

(** *** [writeFSMSelectTransitions] *)

(** The disjunct that is printed for transition [j], when [i] is looked at. *)
Definition test_clause (i j : nat) (t : Test) (v : vars) : bool :=
  (i =? j) &&
  match test_events t with
  | Some names => existsb (fun n => name_of (_event v) =? n) names
  | None => true
  end &&
  match test_cond t with Some c => cond_holds c v | None => true end ||
  match test_cond t with Some c => cond_otherwise c v | None => false end.

Definition test_holds (i : nat) (v : vars) : bool :=
  existsb (fun jt => test_clause i jt.1 jt.2 v) (imap pair (g_tests g)).

Definition is_enabled (i : nat) (v : vars) : bool :=
  negb (trans_is TRANS_HISTORY i) && negb (trans_is TRANS_INITIAL i) &&
  (at_ (config v) (pt_source (trans i)) && negb (at_ (cx_conflicts (ctx v)) i) &&
   ((name_of (_event v) =? EVENT_SPONTANEOUS) && trans_is TRANS_SPONTANEOUS i ||
    negb (name_of (_event v) =? EVENT_SPONTANEOUS) && negb (trans_is TRANS_SPONTANEOUS i)) &&
   test_holds i v).

Definition select_transition (i : nat) (v : vars) : vars :=
  if is_enabled i v then
    let c := ctx v in
    set_ctx (mkCtx (STATES_OR (cx_conflicts c) (pt_conflicts (trans i))) (<[i := true]> (cx_trans_set c))
      (STATES_OR (cx_target_set c) (pt_target (trans i))) (STATES_OR (cx_exit_set c) (pt_exit_set (trans i)))
      (cx_entry_set c) (cx_tmp_states c)) (set_flag CTX_TRANSITION_FOUND true v)
  else v.

Definition clear_sets (v : vars) : vars :=
  let c := ctx v in
  set_ctx (mkCtx (cx_conflicts c) (cx_trans_set c) (STATES_CLEAR (cx_target_set c)) (STATES_CLEAR (cx_exit_set c))
    (cx_entry_set c) (cx_tmp_states c)) v.

Definition clear_trans (v : vars) : vars :=
  let c := ctx v in
  set_ctx (mkCtx (STATES_CLEAR (cx_conflicts c)) (STATES_CLEAR (cx_trans_set c)) (cx_target_set c) (cx_exit_set c)
    (cx_entry_set c) (cx_tmp_states c)) v.

Definition limit_exits (v : vars) : vars :=
  let c := ctx v in
  set_ctx (mkCtx (cx_conflicts c) (cx_trans_set c) (cx_target_set c) (STATES_AND (cx_exit_set c) (config v))
    (cx_entry_set c) (cx_tmp_states c)) v.

(** Nothing of the first part is printed for a machine without transitions. *)
Definition find_transitions (v : vars) : vars :=
  let v := clear_sets v in
  if 0 <? NUMBER_TRANS then
    limit_exits (pml_for 0 NUMBER_TRANS select_transition
      (set_flag CTX_TRANSITION_FOUND false (clear_trans v)))
  else v.

Definition select_transitions (v : vars) : vars :=
  let v := find_transitions v in
  if negb (STATES_HAS_ANY (config v)) then
    let c := ctx v in
    set_flag CTX_TRANSITION_FOUND true (set_flag CTX_SPONTANEOUS true
      (set_ctx (mkCtx (cx_conflicts c) (cx_trans_set c) (STATES_COPY (cx_target_set c) (ps_completion (state 0)))
        (cx_exit_set c) (cx_entry_set c) (cx_tmp_states c)) v))
  else set_flag CTX_SPONTANEOUS (flag CTX_TRANSITION_FOUND v) v.

(** *** [writeFSMRememberHistory]: the recorded states and [ctx.tmp_states] *)

Definition remember_one (config exit_set : bools) (i : nat) (st : bools * bools) : bools * bools :=
  let '(history, tmp_states) := st in
  if is_history i then
    if at_ exit_set (ps_parent (state i)) then
      let tmp_states := STATES_COPY tmp_states (ps_completion (state i)) in
      let tmp_states := STATES_AND tmp_states config in
      let history := STATES_AND_NOT history (ps_completion (state i)) in
      (STATES_OR history tmp_states, tmp_states)
    else st
  else st.

Definition set_tmp (tmp : bools) (c : ctx_t) : ctx_t :=
  mkCtx (cx_conflicts c) (cx_trans_set c) (cx_target_set c) (cx_exit_set c) (cx_entry_set c) tmp.

Definition remember_history (v : vars) : vars :=
  if STATES_HAS_ANY (config v) then
    let '(h, tmp) := pml_for 0 NUMBER_STATES (remember_one (config v) (cx_exit_set (ctx v)))
      (history v, cx_tmp_states (ctx v)) in
    set_history h (set_ctx (set_tmp tmp (ctx v)) v)
  else v.

(** *** [writeFSMEstablishEntrySet]: [entry_set] and [trans_set] *)

Definition add_ancestors (i : nat) (entry : bools) : bools :=
  if at_ entry i then STATES_OR entry (ps_ancestors (state i)) else entry.

Section Descend.
Context (config history exit_set : bools).

(** The ancestors of the first target of the default transition, where no
    target is a child of the history state itself. *)
Definition default_history (i : nat) (st : bools * bools) : bools * bools :=
  let '(entry, trans_set) := st in
  match first_in 0 NUMBER_TRANS (fun j => pt_source (trans j) =? i) with
  | Some j =>
      let entry := STATES_OR entry (pt_target (trans j)) in
      let entry :=
        if state_is STATE_HISTORY_DEEP i && negb (STATES_HAS_AND (pt_target (trans j)) (ps_children (state i))) then
          match first_in (i + 1) NUMBER_STATES (at_ (pt_target (trans j))) with
          | Some k => STATES_OR entry (ps_ancestors (state k))
          | None => entry
          end
        else entry in
      (entry, <[j := true]> trans_set)
  | None => st
  end.

Definition nested_history (j k : nat) (entry : bools) : bools :=
  if (state_is STATE_HISTORY_DEEP k || state_is STATE_HISTORY_SHALLOW k) && at_ (ps_children (state j)) k
  then <[k := true]> entry else entry.

Definition restore_history (i : nat) (entry : bools) : bools :=
  let tmp := STATES_AND (ps_completion (state i)) history in
  let entry := STATES_OR entry tmp in
  if state_is STATE_HAS_HISTORY i || state_is STATE_HISTORY_DEEP i then
    pml_for (i + 1) NUMBER_STATES (fun j entry =>
      if at_ (ps_completion (state i)) j && at_ entry j && state_is STATE_HAS_HISTORY j
      then pml_for (j + 1) NUMBER_STATES (nested_history j) entry else entry) entry
  else entry.

(** The loop over the targets, which ends at the first state that is none. *)
Fixpoint target_ancestors (target : bools) (ks : list nat) (entry : bools) : bools :=
  match ks with
  | k :: ks => if at_ target k then target_ancestors target ks (STATES_OR entry (ps_ancestors (state k))) else entry
  | [] => entry
  end.

Definition initial_transition (i j : nat) (st : bools * bools) : bools * bools :=
  let '(entry, trans_set) := st in
  if pt_source (trans j) =? i then
    let entry := STATES_OR (<[i := false]> entry) (pt_target (trans j)) in
    (target_ancestors (pt_target (trans j)) (seq (i + 1) (NUMBER_STATES - (i + 1))) entry, <[j := true]> trans_set)
  else st.

(** The loop of the deep completion increments its counter before the test. *)
Definition complete_compound (i : nat) (entry : bools) : bools :=
  if negb (STATES_HAS_AND entry (ps_children (state i))) &&
     (negb (STATES_HAS_AND config (ps_children (state i))) || STATES_HAS_AND exit_set (ps_children (state i)))
  then
    let entry := STATES_OR entry (ps_completion (state i)) in
    if STATES_HAS_AND (ps_completion (state i)) (ps_children (state i)) then
      match first_in (i + 2) NUMBER_STATES (at_ (ps_completion (state i))) with
      | Some j => STATES_OR entry (ps_ancestors (state j))
      | None => entry
      end
    else entry
  else entry.

Definition descend (i : nat) (st : bools * bools) : bools * bools :=
  let '(entry, trans_set) := st in
  if at_ entry i then
    if state_is STATE_PARALLEL i then (STATES_OR entry (ps_completion (state i)), trans_set)
    else if is_history i then
      if negb (STATES_HAS_AND (ps_completion (state i)) history) && negb (at_ config (ps_parent (state i)))
      then default_history i st
      else (restore_history i entry, trans_set)
    else if (0 <? NUMBER_TRANS) && state_is STATE_INITIAL i then
      pml_for 0 NUMBER_TRANS (initial_transition i) st
    else if state_is STATE_COMPOUND i then (complete_compound i entry, trans_set)
    else st
  else st.

End Descend.

(** The array [ctx.tmp_states], which the restoring of a history uses as well,
    is not read before it is assigned again. *)
Definition entry_sets (config history exit_set entry trans_set target : bools) : bools * bools :=
  let entry := STATES_COPY entry target in
  let entry := pml_for 0 NUMBER_STATES add_ancestors entry in
  pml_for 0 NUMBER_STATES (descend config history exit_set) (entry, trans_set).

Definition establish_entry_set (v : vars) : vars :=
  let c := ctx v in
  let '(entry, trans_set) :=
    entry_sets (config v) (history v) (cx_exit_set c) (cx_entry_set c) (cx_trans_set c) (cx_target_set c) in
  set_ctx (mkCtx (cx_conflicts c) trans_set (cx_target_set c) (cx_exit_set c) entry (cx_tmp_states c)) v.

(** *** Executable content *)

Definition run_block (b : Block) (v : vars) : option vars :=
  '(i, e, w) ← execute b v; Some (set_rest w (set_queues i e v)).

(** [iQ ! event] *)
Definition raise_done (d : Done) (v : vars) : option vars :=
  match done_event d v with
  | Some e => q ← enqueue e (iQ v); Some (set_queues q (eQ v) v)
  | None => Some v
  end.

Fixpoint pml_forM (l : list nat) (body : nat -> vars -> option vars) (v : vars) : option vars :=
  match l with
  | [] => Some v
  | i :: l => body i v ≫= pml_forM l body
  end.

(** *** [writeFSMExitStates], [writeFSMTakeTransitions] *)

Definition exit_state (i : nat) (v : vars) : option vars :=
  if at_ (cx_exit_set (ctx v)) i && at_ (config v) i then
    v ← run_block (OnExit i) v;
    Some (set_config (<[i := false]> (config v)) v)
  else Some v.

Definition exit_states : vars -> option vars := pml_forM (reverse (seq 0 NUMBER_STATES)) exit_state.

Definition take_transition (i : nat) (v : vars) : option vars :=
  if at_ (cx_trans_set (ctx v)) i && negb (trans_is TRANS_HISTORY i) && negb (trans_is TRANS_INITIAL i)
  then run_block (OnTransition i) v
  else Some v.

Definition take_transitions : vars -> option vars := pml_forM (seq 0 NUMBER_TRANS) take_transition.

(** *** [writeFSMEnterStates] *)

Definition pseudo_transition (i j : nat) (v : vars) : option vars :=
  if at_ (cx_trans_set (ctx v)) j && is_pseudo_trans j && (ps_parent (state (pt_source (trans j))) =? i)
  then run_block (OnTransition j) v
  else Some v.

Definition unfinished (j : nat) (config tmp : bools) : bools :=
  pml_for 0 NUMBER_STATES (fun k tmp =>
    if at_ (ps_ancestors (state k)) j && at_ config k then
      if state_is STATE_FINAL k then STATES_AND_NOT tmp (ps_ancestors (state k)) else <[k := true]> tmp
    else tmp) (STATES_CLEAR tmp).

(** The last final state to leave a parallel state? *)
Definition parallel_done (i j : nat) (v : vars) : option vars :=
  if state_is STATE_PARALLEL j && at_ (ps_ancestors (state i)) j then
    let tmp := unfinished j (config v) (cx_tmp_states (ctx v)) in
    let v := set_ctx (set_tmp tmp (ctx v)) v in
    if negb (STATES_HAS_ANY tmp) then raise_done (ParallelState j) v else Some v
  else Some v.

Definition enter_final (i : nat) (v : vars) : option vars :=
  v ← (if at_ (ps_children (state (ps_parent (state i)))) 1
       then Some (set_flag CTX_FINISHED true (set_flag CTX_TOP_LEVEL_FINAL true v))
       else raise_done (FinalState i) v);
  pml_forM (seq 0 NUMBER_STATES) (parallel_done i) v.

Definition to_enter (i : nat) (v : vars) : bool :=
  at_ (cx_entry_set (ctx v)) i && negb (at_ (config v) i) &&
  negb (state_is STATE_HISTORY_DEEP i) && negb (state_is STATE_HISTORY_SHALLOW i) && negb (state_is STATE_INITIAL i).

Definition enter_state (i : nat) (v : vars) : option vars :=
  let v := set_config (<[i := true]> (config v)) v in
  v ← run_block (OnEntry i) v;
  v ← pml_forM (seq 0 NUMBER_TRANS) (pseudo_transition i) v;
  if state_is STATE_FINAL i then enter_final i v else Some v.

(** The counter is incremented when there is nothing (more) to enter. *)
Fixpoint enter_loop (fuel i : nat) (v : vars) : option vars :=
  match fuel with
  | 0 => None
  | S fuel =>
      if i <? NUMBER_STATES then
        if to_enter i v then enter_state i v ≫= enter_loop fuel i else enter_loop fuel (i + 1) v
      else Some v
  end.

Definition enter_states (v : vars) : option vars := enter_loop (S (2 * NUMBER_STATES)) 0 v.

(** *** [writeFSMDequeueEvent] *)

Inductive Outcome :=
| Running (v : vars)
| Waiting (v : vars)
| Terminated (v : vars)
| Stuck.

Definition manage_invocation (i : nat) (v : vars) : vars :=
  let v :=
    if negb (at_ (config v) i) && at_ (invocations v) i then
      set_invocations (<[i := false]> (invocations v)) (if has_invokers i then set_rest (uninvoke i (rest v)) v else v)
    else v in
  if at_ (config v) i && negb (at_ (invocations v) i) && has_invokers i then
    set_invocations (<[i := true]> (invocations v)) (set_rest (invoke i v) v)
  else v.

Definition dequeue_external (v : vars) : Outcome :=
  let v := pml_for 0 NUMBER_STATES manage_invocation v in
  let v := match schedule with Some f => f v | None => v end in
  if flag CTX_FINISHED v then Terminated v
  else
    match receive (eQ v) with
    | Some (e, q) =>
        let v := set_event e (set_queues (iQ v) q v) in
        match forward_event v with Some w => Running (set_rest w v) | None => Stuck end
    | None => Waiting v
    end.

Definition dequeue_event (v : vars) : Outcome :=
  let v := set_flag CTX_DEQUEUE_EXTERNAL false v in
  if flag CTX_SPONTANEOUS v then Running (set_event (with_name EVENT_SPONTANEOUS (_event v)) v)
  else
    match receive (iQ v) with
    | Some (e, q) => Running (set_event e (set_queues q (eQ v) v))
    | None => dequeue_external (set_flag CTX_DEQUEUE_EXTERNAL true v)
    end.

(** *** [writeFSMTerminateMachine] *)

Definition finish_state (i : nat) (v : vars) : option vars :=
  v ← (if at_ (config v) i && flag CTX_TOP_LEVEL_FINAL v then run_block (OnExit i) v else Some v);
  Some (if at_ (invocations v) i
        then set_rest (cancel_invoked i (rest v)) (set_invocations (<[i := false]> (invocations v)) v) else v).

Definition terminate (v : vars) : option vars :=
  v ← pml_forM (reverse (seq 0 NUMBER_STATES)) finish_state v;
  v ← remove_pending v;
  if flag CTX_TOP_LEVEL_FINAL v then w ← send_done v; Some (set_rest w v) else Some v.

(** *** One round of the process *)

Definition react (v : vars) : option vars :=
  let v := select_transitions v in
  if flag CTX_TRANSITION_FOUND v then
    v ← exit_states (establish_entry_set (remember_history v));
    v ← take_transitions v;
    enter_states v
  else Some v.

Definition finish (v : vars) : Outcome :=
  match terminate v with Some v => Terminated v | None => Stuck end.

Definition step (v : vars) : Outcome :=
  if flag CTX_FINISHED v then finish v
  else
    match dequeue_event v with
    | Running v => match react v with Some v => Running v | None => Stuck end
    | Terminated v => finish v
    | o => o
    end.

(** The loop of the process. *)
Fixpoint rounds (k : nat) (v : vars) : Outcome :=
  match k with
  | 0 => Running v
  | S k => match step v with Running v => rounds k v | o => o end
  end.

End Step.
Arguments Outcome : clear implicits.

(** The variables before [step()] runs: [writeTo]. *)
Definition start {E W : Type} (g : program) (size : nat) (e : E) (w : W) : Vars E W :=
  let s := replicate (length (g_states g)) false in
  let t := replicate (length (g_transitions g)) false in
  mkVars [true; true; false; false; false; false] s s s (mkCtx t t s s s s) e (mkChan size []) (mkChan (eQ_size size) []) w.
