(* ===== verification/PmlTheorems.v ===== *)
(** * The emitted Promela program against the interpreter

    The arrays of the emitted process stand for sets. On tables that agree with
    a chart the process selects the transitions that [FastMicroStep::step]
    selects on it and records the same histories; if completions and default
    transitions do not reach below the children, it enters the same states. The
    children of a state are its direct ones in the printed tables, so that the
    chart is that of the emitted C program, or one without nesting. *)

From stdpp Require Import base list gmap strings.
From S2P Require Import Prelude Strings Data Effects Dom Predicates Chart MicroStep StepLemmas StepTheorems PmlQueue PmlMachine.

Local Open Scope nat_scope.

(** ** Arrays as sets *)

Definition bset (a : bools) : gset nat := list_to_set (filter (fun i => at_ a i = true) (seq 0 (length a))).

Lemma at_lt a i : at_ a i = true -> i < length a.
Proof. unfold at_. destruct (a !! i) eqn:E; [by apply lookup_lt_Some in E|done]. Qed.

Lemma elem_of_bset a i : i ∈ bset a <-> at_ a i = true.
Proof.
  unfold bset. rewrite elem_of_list_to_set, list_elem_of_filter, elem_of_seq. split; [tauto|].
  intros H. pose proof (at_lt a i H). split; [done|lia].
Qed.

Lemma at_bset a i : at_ a i = bool_decide (i ∈ bset a).
Proof. apply eq_bool_prop_intro. rewrite bool_decide_spec, elem_of_bset. split; [by intros ?%Is_true_eq_true|by intros ->]. Qed.

Lemma bset_ext a X : (forall i, at_ a i = true <-> i ∈ X) -> bset a = X.
Proof. intros H. apply set_eq. intros i. by rewrite elem_of_bset. Qed.

Lemma at_zip_with f a b i : length a = length b -> f false false = false ->
  at_ (zip_with f a b) i = f (at_ a i) (at_ b i).
Proof.
  intros Hl Hf. unfold at_. rewrite lookup_zip_with.
  destruct (a !! i) eqn:Ea, (b !! i) eqn:Eb; cbn; try done.
  - apply lookup_lt_Some in Ea. apply lookup_ge_None in Eb. lia.
  - apply lookup_lt_Some in Eb. apply lookup_ge_None in Ea. lia.
Qed.

Section Arrays.
Context (n : nat).

(** An array of [n] elements that stands for [X]. *)
Definition stands (a : bools) (X : gset nat) : Prop := length a = n /\ bset a = X.

Lemma stands_self a : length a = n -> stands a (bset a).
Proof. done. Qed.

Lemma stands_lt a X i : stands a X -> i ∈ X -> i < n.
Proof. intros [<- <-] H%elem_of_bset. by apply at_lt. Qed.

Lemma stands_at a X i : stands a X -> at_ a i = bool_decide (i ∈ X).
Proof. intros [_ <-]. apply at_bset. Qed.

Lemma stands_zip f (F : gset nat) a b X Y : stands a X -> stands b Y -> f false false = false ->
  (forall x, f (bool_decide (x ∈ X)) (bool_decide (x ∈ Y)) = bool_decide (x ∈ F)) -> stands (zip_with f a b) F.
Proof.
  intros Ha Hb Hf HF. split; [rewrite length_zip_with; destruct Ha, Hb; lia|]. apply bset_ext. intros i.
  rewrite at_zip_with by (destruct Ha, Hb; congruence || done).
  by rewrite (stands_at _ _ _ Ha), (stands_at _ _ _ Hb), HF, bool_decide_eq_true.
Qed.

Lemma STATES_OR_spec a b X Y : stands a X -> stands b Y -> stands (STATES_OR a b) (X ∪ Y).
Proof. intros Ha Hb. apply (stands_zip orb (X ∪ Y) a b X Y); try done. intros x. repeat case_bool_decide; (done || set_solver). Qed.

Lemma STATES_AND_spec a b X Y : stands a X -> stands b Y -> stands (STATES_AND a b) (X ∩ Y).
Proof. intros Ha Hb. apply (stands_zip andb (X ∩ Y) a b X Y); try done. intros x. repeat case_bool_decide; (done || set_solver). Qed.

Lemma STATES_AND_NOT_spec a b X Y : stands a X -> stands b Y -> stands (STATES_AND_NOT a b) (X ∖ Y).
Proof. intros Ha Hb. apply (stands_zip (fun x m => x && negb m) _ a b X Y); try done. intros x. repeat case_bool_decide; (done || set_solver). Qed.

Lemma STATES_COPY_spec a b X Y : stands a X -> stands b Y -> stands (STATES_COPY a b) Y.
Proof. intros Ha Hb. by apply (stands_zip (fun _ y => y) _ a b X Y). Qed.

Lemma at_clear a i : at_ (STATES_CLEAR a) i = false.
Proof. unfold at_, STATES_CLEAR. rewrite list_lookup_fmap. by destruct (a !! i). Qed.

Lemma STATES_CLEAR_spec a : length a = n -> stands (STATES_CLEAR a) ∅.
Proof. intros Ha. split; [by unfold STATES_CLEAR; rewrite length_fmap|]. apply bset_ext. intros i. rewrite at_clear. set_solver. Qed.

Lemma insert_spec (a : bools) X (i : nat) (b : bool) : stands a X -> i < n -> stands (<[i := b]> a) (if b then {[i]} ∪ X else X ∖ {[i]}).
Proof.
  intros [Ha <-] Hi. split; [by rewrite length_insert|]. apply bset_ext. intros j. unfold at_.
  destruct (decide (j = i)) as [->|Hne].
  - rewrite list_lookup_insert_eq by lia. destruct b; cbn; set_solver.
  - rewrite list_lookup_insert_ne by done. fold (at_ a j). rewrite <- elem_of_bset. destruct b; set_solver.
Qed.

Lemma STATES_HAS_ANY_true a : STATES_HAS_ANY a = true <-> exists i, at_ a i = true.
Proof.
  unfold STATES_HAS_ANY. rewrite existsb_exists. split.
  - intros (b & Hb & Ht). apply list_elem_of_In, list_elem_of_lookup in Hb as [i Hi]. exists i. unfold at_. by rewrite Hi.
  - intros (i & Hi). unfold at_ in Hi. destruct (a !! i) as [b|] eqn:E; [|done]. exists b.
    split; [by eapply list_elem_of_In, list_elem_of_lookup_2|done].
Qed.

Lemma STATES_HAS_AND_true a b : STATES_HAS_AND a b = true <-> exists i, at_ a i = true /\ at_ b i = true.
Proof.
  unfold STATES_HAS_AND. rewrite existsb_exists. split.
  - intros ([x y] & Hxy & Hb). cbn in Hb. apply andb_true_iff in Hb as [-> ->]. apply list_elem_of_In, list_elem_of_lookup in Hxy as [i Hi].
    rewrite lookup_zip_with in Hi. exists i. unfold at_.
    destruct (a !! i), (b !! i); cbn in Hi; try done. injection Hi as -> ->. done.
  - intros (i & Ha & Hb). unfold at_ in *. destruct (a !! i) as [x|] eqn:Ea; [|done]. destruct (b !! i) as [y|] eqn:Eb; [|done].
    exists (x, y). split; [|by apply andb_true_iff]. apply list_elem_of_In, (list_elem_of_lookup_2 _ i).
    by rewrite lookup_zip_with, Ea, Eb.
Qed.

Lemma STATES_HAS_ANY_spec a X : stands a X -> STATES_HAS_ANY a = negb (bool_decide (X = ∅)).
Proof.
  intros [_ <-]. destruct (STATES_HAS_ANY a) eqn:E; symmetry.
  - apply negb_true_iff, bool_decide_eq_false. apply STATES_HAS_ANY_true in E as (i & Hi%elem_of_bset). set_solver.
  - apply negb_false_iff, bool_decide_eq_true, set_eq. intros i. split; [|set_solver]. intros Hi%elem_of_bset.
    assert (STATES_HAS_ANY a = true) by (apply STATES_HAS_ANY_true; eauto). congruence.
Qed.

Lemma STATES_HAS_AND_spec a b X Y : stands a X -> stands b Y -> STATES_HAS_AND a b = BIT_HAS_AND X Y.
Proof.
  intros [_ <-] [_ <-]. apply eq_bool_prop_intro. rewrite !Is_true_true, STATES_HAS_AND_true, BIT_HAS_AND_spec.
  by setoid_rewrite elem_of_bset.
Qed.

End Arrays.

(** ** Tables and chart *)

Section Agreement.
Context {node : Type} (g : program) (c : Chart node).
Abbreviation N := (length (g_states g)).
Abbreviation NT := (length (g_transitions g)).

(** The printed tables say what the chart says, each bit of the types of
    states and, but for TRANS_INTERNAL, of those of transitions included. *)
Record agrees : Prop := {
  ag_states : n_states c = N;
  ag_transitions : n_transitions c = NT;
  ag_tests : length (g_tests g) = NT;
  ag_row i : i < N -> stands N (ps_children (state g i)) (children_of c i) /\
    stands N (ps_completion (state g i)) (completion_of c i) /\
    stands N (ps_ancestors (state g i)) (ancestors_of c i) /\ ps_parent (state g i) = parent_of c i /\ parent_of c i < N;
  ag_type i : i < N ->
    state_is g STATE_PARALLEL i = (USCXML_STATE_MASK (type_of c i) =? USCXML_STATE_PARALLEL)%Z /\
    state_is g STATE_HISTORY_DEEP i = (USCXML_STATE_MASK (type_of c i) =? USCXML_STATE_HISTORY_DEEP)%Z /\
    state_is g STATE_HISTORY_SHALLOW i = (USCXML_STATE_MASK (type_of c i) =? USCXML_STATE_HISTORY_SHALLOW)%Z /\
    state_is g STATE_INITIAL i = (USCXML_STATE_MASK (type_of c i) =? USCXML_STATE_INITIAL)%Z /\
    state_is g STATE_COMPOUND i = (USCXML_STATE_MASK (type_of c i) =? USCXML_STATE_COMPOUND)%Z /\
    state_is g STATE_HAS_HISTORY i = has_flag (type_of c i) USCXML_STATE_HAS_HISTORY;
  ag_transition j : j < NT -> exists t, c_transitions c !! j = Some t /\
    stands N (pt_target (trans g j)) (t_target t) /\ stands N (pt_exit_set (trans g j)) (t_exitSet t) /\
    stands NT (pt_conflicts (trans g j)) (t_conflicts t) /\ pt_source (trans g j) = t_source t /\ t_source t < N /\
    is_pseudo_trans g j = MicroStep.pseudo_transition t;
  ag_leaf i : i < N ->
    state_is g STATE_FINAL i = (USCXML_STATE_MASK (type_of c i) =? USCXML_STATE_FINAL)%Z /\
    state_is g STATE_ATOMIC i = (USCXML_STATE_MASK (type_of c i) =? USCXML_STATE_ATOMIC)%Z;
  ag_kind j t : c_transitions c !! j = Some t ->
    trans_is g TRANS_SPONTANEOUS j = has_flag (t_type t) USCXML_TRANS_SPONTANEOUS /\
    trans_is g TRANS_TARGETLESS j = has_flag (t_type t) USCXML_TRANS_TARGETLESS /\
    trans_is g TRANS_HISTORY j = has_flag (t_type t) USCXML_TRANS_HISTORY /\
    trans_is g TRANS_INITIAL j = has_flag (t_type t) USCXML_TRANS_INITIAL;
}.

Context (AG : agrees).

Lemma is_history_agrees i : i < N -> is_history g i = is_history_type (type_of c i).
Proof. intros Hi. unfold is_history, is_history_type. by destruct (ag_type AG i Hi) as (_ & -> & -> & _). Qed.

Lemma transition_agrees j t : c_transitions c !! j = Some t -> j < NT /\
  stands N (pt_target (trans g j)) (t_target t) /\ stands N (pt_exit_set (trans g j)) (t_exitSet t) /\
  stands NT (pt_conflicts (trans g j)) (t_conflicts t) /\ pt_source (trans g j) = t_source t /\
  is_pseudo_trans g j = MicroStep.pseudo_transition t.
Proof.
  intros Ht. pose proof (lookup_lt_Some _ _ _ Ht) as Hj. fold (n_transitions c) in Hj. rewrite (ag_transitions AG) in Hj.
  destruct (ag_transition AG j Hj) as (t' & Ht' & ? & ? & ? & ? & _ & ?). by simplify_eq.
Qed.

Lemma source_agrees j : j < NT -> pt_source (trans g j) = source_of c j /\ stands N (pt_target (trans g j)) (target_of c j).
Proof.
  intros Hj. destruct (ag_transition AG j Hj) as (t & Ht & Htg & _ & _ & Hs & _).
  unfold source_of, target_of, trans_set. rewrite Ht. done.
Qed.

(** The sets of the process. *)
Record ctx_stands (x : ctx_t) (conflicts trans targets exits : gset nat) : Prop := {
  cs_conflicts : stands NT (cx_conflicts x) conflicts;
  cs_trans : stands NT (cx_trans_set x) trans;
  cs_targets : stands N (cx_target_set x) targets;
  cs_exits : stands N (cx_exit_set x) exits;
}.

(** The lengths of the arrays as they are declared. *)
Record vars_ok {E W} (v : Vars E W) : Prop := {
  vo_flags : length (flags v) = 6;
  vo_config : length (config v) = N;
  vo_history : length (history v) = N;
  vo_conflicts : length (cx_conflicts (ctx v)) = NT;
  vo_trans : length (cx_trans_set (ctx v)) = NT;
  vo_targets : length (cx_target_set (ctx v)) = N;
  vo_exits : length (cx_exit_set (ctx v)) = N;
  vo_entry : length (cx_entry_set (ctx v)) = N;
  vo_tmp : length (cx_tmp_states (ctx v)) = N;
}.

End Agreement.

Lemma flag_set_flag {E W} f b (v : Vars E W) f' : f < length (flags v) ->
  flag f' (set_flag f b v) = if f' =? f then b else flag f' v.
Proof.
  intros Hf. unfold flag, set_flag, at_. cbn [flags]. destruct (Nat.eqb_spec f' f) as [->|Hne].
  - by rewrite list_lookup_insert_eq.
  - by rewrite list_lookup_insert_ne.
Qed.

(** ** SELECT_TRANSITIONS *)

(** A printed condition reads the data model, the event and the configuration. *)
Class PmlContentLaws (E W : Type) `{PmlContent E W} : Prop := {
  cond_holds_view s (v v' : Vars E W) : config v = config v' -> _event v = _event v' -> rest v = rest v' ->
    cond_holds s v = cond_holds s v' /\ cond_otherwise s v = cond_otherwise s v';
}.

Section Selection.
Context {E W : Type} {PC : PmlContent E W} {PL : PmlContentLaws E W}.
Context {node Wi X : Type} {CB : MicroStepCallbacks node Wi X}.
Context (g : program) (c : Chart node) (AG : agrees g c).
Abbreviation N := (length (g_states g)).
Abbreviation NT := (length (g_transitions g)).
Implicit Types v : Vars E W.

(** The process and the stepper are in one configuration and look at events
    and conditions in the same way. *)
Record mirrors (truth : string -> bool) v (ms : MicroState) : Prop := {
  mi_ok : vars_ok g v;
  mi_config : stands N (config v) (_configuration ms);
  mi_history : stands N (history v) (_history ms);
  mi_phase : (name_of (_event v) =? EVENT_SPONTANEOUS) = negb (Event_bool (MicroStep._event ms));
  mi_event j t : c_transitions c !! j = Some t -> t_source t ∈ _configuration ms -> MicroStep.pseudo_transition t = false ->
    ((name_of (_event v) =? EVENT_SPONTANEOUS) && trans_is g TRANS_SPONTANEOUS j ||
     negb (name_of (_event v) =? EVENT_SPONTANEOUS) && negb (trans_is g TRANS_SPONTANEOUS j)) && test_holds g j v =
    event_matches (MicroStep._event ms) t && (String.eqb (t_cond t) "" || truth (t_cond t));
}.

(** Without a top-level disjunction in a condition, the printed test of a
    transition is its own; with one, its last part lets all others pass. *)
Lemma closed_conditions i v : (forall t s, t ∈ g_tests g -> test_cond t = Some s -> cond_otherwise s v = false) ->
  test_holds g i v = match g_tests g !! i with Some t => test_clause i i t v | None => false end.
Proof.
  intros Hno. unfold test_holds. apply eq_bool_prop_intro. rewrite !Is_true_true, existsb_exists.
  assert (Hj : forall j t, t ∈ g_tests g -> test_clause i j t v = true -> i = j).
  { intros j t Ht. unfold test_clause. destruct (Nat.eqb_spec i j); [done|]. cbn [andb orb].
    destruct (test_cond t) as [s|] eqn:Es; [|done]. by rewrite (Hno t s Ht Es). }
  split.
  - intros ([j t] & Hin%list_elem_of_In & Ht). cbn [fst snd] in Ht. apply list_elem_of_lookup in Hin as (k & Hk).
    rewrite list_lookup_imap in Hk. destruct (g_tests g !! k) as [t'|] eqn:Et; [|done]. injection Hk as <- <-.
    rewrite <- (Hj k t') in Et, Ht by (done || by eapply list_elem_of_lookup_2). by rewrite Et.
  - destruct (g_tests g !! i) as [t|] eqn:Et; [|done]. intros Ht. exists (i, t). split; [|done].
    apply list_elem_of_In, list_elem_of_lookup. exists i. by rewrite list_lookup_imap, Et.
Qed.

Lemma open_condition_enables i j t s v : g_tests g !! j = Some t -> test_cond t = Some s -> cond_otherwise s v = true ->
  test_holds g i v = true.
Proof.
  intros Ht Hs Ho. unfold test_holds. apply existsb_exists. exists (j, t). split.
  - apply list_elem_of_In, list_elem_of_lookup. exists j. by rewrite list_lookup_imap, Ht.
  - unfold test_clause. cbn [fst snd]. by rewrite Hs, Ho, orb_true_r.
Qed.

(** What the loop leaves alone. *)
Definition same_view v v' : Prop :=
  config v' = config v /\ history v' = history v /\ invocations v' = invocations v /\ _event v' = _event v /\
  iQ v' = iQ v /\ eQ v' = eQ v /\ rest v' = rest v /\ length (flags v') = length (flags v) /\
  cx_entry_set (ctx v') = cx_entry_set (ctx v) /\ cx_tmp_states (ctx v') = cx_tmp_states (ctx v).

Lemma same_view_trans v1 v2 v3 : same_view v1 v2 -> same_view v2 v3 -> same_view v1 v3.
Proof. unfold same_view. intros (?&?&?&?&?&?&?&?&?&?) (?&?&?&?&?&?&?&?&?&?). split_and!; congruence. Qed.

Lemma test_holds_view j v v' : same_view v v' -> test_holds g j v' = test_holds g j v.
Proof.
  intros (Hc & _ & _ & He & _ & _ & Hr & _). unfold test_holds.
  induction (imap pair (g_tests g)) as [|[i t] l IH]; [done|]. cbn [existsb]. rewrite IH. f_equal.
  unfold test_clause. cbn [fst snd]. rewrite He. destruct (test_cond t) as [s|]; [|done].
  by destruct (cond_holds_view s v' v Hc He Hr) as [-> ->].
Qed.

Lemma select_transition_view j v : same_view v (select_transition g j v).
Proof. unfold select_transition. destruct (is_enabled g j v); [|by repeat split]. repeat split. cbn. by rewrite length_insert. Qed.

Lemma is_enabled_candidate truth v0 v ms ms' sets j t : mirrors truth v0 ms -> same_view v0 v ->
  _configuration ms' = _configuration ms -> MicroStep._event ms' = MicroStep._event ms -> c_transitions c !! j = Some t ->
  stands NT (cx_conflicts (ctx v)) (conflictSet sets) ->
  is_enabled g j v = candidate ms' sets j t && (String.eqb (t_cond t) "" || truth (t_cond t)).
Proof.
  intros Hm Hsame Hmc Hme Ht Hcf. unfold is_enabled, candidate. rewrite Hmc, Hme.
  destruct (transition_agrees g c AG j t Ht) as (Hj & _ & _ & _ & Hsrc & Hps).
  rewrite <- negb_orb. fold (is_pseudo_trans g j). rewrite Hps, Hsrc, (stands_at _ _ _ j Hcf).
  rewrite (test_holds_view j v0 v Hsame). destruct Hsame as (-> & _ & _ & -> & _).
  rewrite (stands_at _ _ _ _ (mi_config _ _ _ Hm)).
  destruct (MicroStep.pseudo_transition t) eqn:Eps; cbn [negb andb]; [done|]. case_bool_decide as Hact; cbn [andb]; [|done].
  destruct (negb _); cbn [andb]; [|done]. by apply (mi_event _ _ _ Hm).
Qed.

(** The loop of the process after the transitions [dn]. *)
Definition pml_after (v : Vars E W) (dn : list nat) : Vars E W := foldl (fun v i => select_transition g i v) v dn.

Lemma pml_after_snoc v dn i : pml_after v (dn ++ [i]) = select_transition g i (pml_after v dn).
Proof. unfold pml_after. by rewrite foldl_app. Qed.

(** The loops in step. *)
Record in_step v0 (ms0 : MicroState) (dn : list nat) (sets : Sets) (ms : MicroState) : Prop := {
  is_config : _configuration ms = _configuration ms0;
  is_event : MicroStep._event ms = MicroStep._event ms0;
  is_same : same_view v0 (pml_after v0 dn);
  is_sets : ctx_stands g (ctx (pml_after v0 dn)) (conflictSet sets) (transSet sets) (targetSet sets) (exitSet sets);
  is_found : flag CTX_TRANSITION_FOUND (pml_after v0 dn) = negb (bool_decide (transSet sets = ∅));
}.

Lemma in_step_take truth v0 ms0 dn i t sets ms : mirrors truth v0 ms0 -> c_transitions c !! i = Some t ->
  in_step v0 ms0 dn sets ms -> candidate ms sets i t = true -> String.eqb (t_cond t) "" || truth (t_cond t) = true ->
  in_step v0 ms0 (dn ++ [i]) (add_transition i t sets) (found ms).
Proof.
  intros Hm Ht [Hc He Hs [H1 H2 H3 H4] Hf] Hcand Hg.
  destruct (transition_agrees g c AG i t Ht) as (Hi & Htg & Hex & Hcf & _).
  pose proof (is_enabled_candidate truth v0 (pml_after v0 dn) ms0 ms sets i t Hm Hs Hc He Ht H1) as Hen.
  rewrite Hcand, Hg in Hen. cbn [andb] in Hen. split; rewrite ?pml_after_snoc; try done.
  - eapply same_view_trans; [exact Hs|apply select_transition_view].
  - unfold select_transition. rewrite Hen. split; cbn [ctx set_ctx cx_conflicts cx_trans_set cx_target_set cx_exit_set
      conflictSet transSet targetSet exitSet add_transition].
    + by apply STATES_OR_spec. + by apply (insert_spec NT _ _ i true). + by apply STATES_OR_spec. + by apply STATES_OR_spec.
  - unfold select_transition. rewrite Hen. cbn [transSet add_transition].
    assert (Hl : CTX_TRANSITION_FOUND < length (flags (pml_after v0 dn))).
    { destruct Hs as (_ & _ & _ & _ & _ & _ & _ & -> & _). rewrite (vo_flags _ _ (mi_ok _ _ _ Hm)). unfold CTX_TRANSITION_FOUND. lia. }
    change (flag CTX_TRANSITION_FOUND (set_ctx ?x (set_flag CTX_TRANSITION_FOUND true (pml_after v0 dn))))
      with (flag CTX_TRANSITION_FOUND (set_flag CTX_TRANSITION_FOUND true (pml_after v0 dn))).
    rewrite flag_set_flag by done. rewrite Nat.eqb_refl, bool_decide_eq_false_2; [done|set_solver].
Qed.

Lemma in_step_skip truth v0 ms0 dn i t sets ms : mirrors truth v0 ms0 -> c_transitions c !! i = Some t ->
  in_step v0 ms0 dn sets ms -> candidate ms sets i t && (String.eqb (t_cond t) "" || truth (t_cond t)) = false ->
  in_step v0 ms0 (dn ++ [i]) sets ms.
Proof.
  intros Hm Ht [Hc He Hs Hsets Hf] Hcand. pose proof Hsets as [H1 _ _ _].
  pose proof (is_enabled_candidate truth v0 (pml_after v0 dn) ms0 ms sets i t Hm Hs Hc He Ht H1) as Hen.
  rewrite Hcand in Hen.
  assert (Heq : pml_after v0 (dn ++ [i]) = pml_after v0 dn) by (rewrite pml_after_snoc; unfold select_transition; by rewrite Hen).
  split; rewrite ?Heq; done.
Qed.

(** The variables the loop starts from. *)
Definition selection_start v : Vars E W := set_flag CTX_TRANSITION_FOUND false (clear_trans (clear_sets v)).

Lemma selection_start_mirrors truth v ms : mirrors truth v ms -> mirrors truth (selection_start v) ms.
Proof.
  intros [[? ? ? ? ? ? ? ? ?] Hc Hh Hp He].
  assert (Hsame : same_view v (selection_start v)) by (repeat split; cbn; by rewrite length_insert).
  split; try done.
  - split; cbn; unfold STATES_CLEAR; rewrite ?length_insert, ?length_fmap; done.
  - intros j t Ht Hact Hps. rewrite (test_holds_view j v _ Hsame). by apply He.
Qed.

Lemma in_step_start truth v ms : mirrors truth v ms ->
  in_step (selection_start v) ms [] no_sets (MicroStep.set_flags (fun f => clear_flag f USCXML_CTX_STABLE) ms).
Proof.
  intros Hm. destruct (mi_ok _ _ _ Hm). split; [done|done|by repeat split| |].
  - split; cbn; by apply STATES_CLEAR_spec.
  - cbn [pml_after foldl transSet no_sets]. unfold selection_start.
    rewrite flag_set_flag by (cbn; unfold CTX_TRANSITION_FOUND; lia). rewrite Nat.eqb_refl. by rewrite bool_decide_eq_true_2.
Qed.

Lemma guards_agree truth t ms : (forall e ms w, fst (isTrue (node := node) (W := Wi) (X := X) e ms w) = inr (truth e)) ->
  (guard_true (X := X) t ms -> String.eqb (t_cond t) "" || truth (t_cond t) = true) /\
  (guard_false (X := X) t ms -> String.eqb (t_cond t) "" || truth (t_cond t) = false).
Proof.
  intros Ht. split; intros (w & Hw); rewrite (guard_answer truth) in Hw by done; by injection Hw.
Qed.

(** What the process knows behind its selection. *)
Record selected_like v0 v (sets : Sets) (ms0 : MicroState) : Prop := {
  sl_same : same_view v0 v;
  sl_trans : stands NT (cx_trans_set (ctx v)) (transSet sets);
  sl_targets : stands N (cx_target_set (ctx v)) (targetSet sets);
  sl_exits : stands N (cx_exit_set (ctx v)) (exitSet sets ∩ _configuration ms0);
  sl_conflicts : stands NT (cx_conflicts (ctx v)) (conflictSet sets);
  sl_found : flag CTX_TRANSITION_FOUND v = negb (bool_decide (transSet sets = ∅));
  sl_spontaneous : flag CTX_SPONTANEOUS v = negb (bool_decide (transSet sets = ∅));
}.

Lemma select_transitions_simulates truth v ms0 :
  0 < NT -> _configuration ms0 <> ∅ -> mirrors truth v ms0 ->
  (forall e ms w, fst (isTrue (node := node) (W := Wi) (X := X) e ms w) = inr (truth e)) ->
  hoare_ms (fun ms => ms = ms0) (MicroStep.select_transitions (X := X) c)
    (fun sets ms => selected_like v (select_transitions g v) sets ms0 /\
       _configuration ms = _configuration ms0 /\ MicroStep._event ms = MicroStep._event ms0)
    (fun _ => True).
Proof.
  intros HNT Hne Hm Htruth. set (v0 := selection_start v).
  assert (Hm0 : mirrors truth v0 ms0) by by apply selection_start_mirrors.
  eapply hoare_ms_conseq; [apply (select_rule c (in_step v0 ms0))| | |done].
  - intros dn i rest t sets ms _ Ht Hin Hcand Hg. eapply in_step_take; [exact Hm0|done|done|done|].
    by apply (guards_agree truth t ms Htruth).
  - intros dn i rest t sets ms _ Ht Hin Hno. eapply in_step_skip; [exact Hm0|done|done|].
    apply andb_false_iff. destruct Hno as [?|Hg]; [by left|right]. by apply (guards_agree truth t ms Htruth).
  - intros ms ->. by apply (in_step_start truth).
  - intros sets ms. rewrite (ag_transitions g c AG). intros [Hc He Hs [H1 H2 H3 H4] Hf]. split; [|done].
    pose proof (mi_config _ _ _ Hm) as Hconf.
    unfold select_transitions, find_transitions. rewrite (proj2 (Nat.ltb_lt 0 NT)) by done. unfold pml_for. rewrite Nat.sub_0_r.
    change (foldl _ _ (seq 0 NT)) with (pml_after v0 (seq 0 NT)). set (v1 := pml_after v0 (seq 0 NT)) in *.
    assert (Hs' : same_view v v1) by (eapply same_view_trans; [|exact Hs]; repeat split; cbn; by rewrite length_insert).
    assert (Hcv : config v1 = config v) by apply Hs'. cbn [config limit_exits set_ctx]. rewrite Hcv.
    rewrite (STATES_HAS_ANY_spec N _ _ Hconf), bool_decide_eq_false_2 by done. cbn [negb].
    assert (Hl : CTX_SPONTANEOUS < length (flags v1)).
    { destruct Hs' as (_ & _ & _ & _ & _ & _ & _ & -> & _). rewrite (vo_flags _ _ (mi_ok _ _ _ Hm)). unfold CTX_SPONTANEOUS. lia. }
    split.
    + destruct Hs' as (? & ? & ? & ? & ? & ? & ? & ? & ? & ?). repeat split; try done. cbn. by rewrite length_insert.
    + exact H2.
    + exact H3.
    + cbn. rewrite Hcv. by apply STATES_AND_spec.
    + exact H1.
    + rewrite flag_set_flag by done. exact Hf.
    + rewrite flag_set_flag by done. rewrite Nat.eqb_refl. exact Hf.
Qed.

(** In a configuration that is not empty the process selects exactly
    the transitions that SELECT_TRANSITIONS of the interpreter takes for the
    same event, with the same targets and the same states to exit, and tries
    spontaneous transitions next exactly if it found one. *)
Theorem process_selects truth v ms0 :
  0 < NT -> _configuration ms0 <> ∅ -> mirrors truth v ms0 ->
  (forall e ms w, fst (isTrue (node := node) (W := Wi) (X := X) e ms w) = inr (truth e)) ->
  let v' := select_transitions g v in
  hoare_ms (fun ms => ms = ms0) (MicroStep.select_transitions (X := X) c)
    (fun sets _ => bset (cx_trans_set (ctx v')) = transSet sets /\
       bset (cx_target_set (ctx v')) = targetSet sets /\
       bset (cx_exit_set (ctx v')) = exitSet sets ∩ _configuration ms0 /\
       flag CTX_TRANSITION_FOUND v' = negb (bool_decide (transSet sets = ∅)) /\
       flag CTX_SPONTANEOUS v' = flag CTX_TRANSITION_FOUND v')
    (fun _ => True).
Proof.
  intros HNT Hne Hm Htruth v'. eapply hoare_ms_conseq; [by apply (select_transitions_simulates truth v ms0)|done| |done].
  intros sets ms [[_ [_ H1] [_ H2] [_ H3] _ H4 H5] _]. fold v' in H1, H2, H3, H4, H5. split_and!; try done. congruence.
Qed.

End Selection.

(** ** REMEMBER_HISTORY *)

Lemma foldl_related {A B} (R : A -> B -> Prop) (f : A -> nat -> A) (h : B -> nat -> B) (l : list nat) : forall a b,
  (forall i a b, i ∈ l -> R a b -> R (f a i) (h b i)) -> R a b -> R (foldl f a l) (foldl h b l).
Proof.
  induction l as [|i l IH]; intros a b Hstep HR; cbn [foldl]; [done|].
  apply IH; [intros j a' b' Hj; apply Hstep; by right|]. apply Hstep; [left|done].
Qed.

Section Entry.
Context {node : Type} (g : program) (c : Chart node) (AG : agrees g c).
Abbreviation N := (length (g_states g)).
Abbreviation NT := (length (g_transitions g)).

Lemma remember_history_stands (conf exits : bools) (C Xs : gset nat) h tmp (H : gset nat) :
  stands N conf C -> stands N exits Xs -> stands N h H -> length tmp = N ->
  let r := pml_for 0 N (remember_one g conf exits) (h, tmp) in
  stands N (fst r) (MicroStep.remember_history c C Xs H) /\ length (snd r) = N.
Proof.
  intros Hc Hx Hh Htmp. cbv zeta. unfold pml_for, MicroStep.remember_history. rewrite (ag_states g c AG), Nat.sub_0_r.
  apply (foldl_related (fun (st : bools * bools) H => stands N (fst st) H /\ length (snd st) = N)
    (fun a i => remember_one g conf exits i a) (MicroStep.remember_one c C Xs)); [|done].
  intros i [h1 tmp1] H1 Hi%elem_of_seq [Hh1 Ht1]. cbn [fst snd] in *. unfold remember_one, MicroStep.remember_one.
  rewrite (is_history_agrees g c AG) by lia. destruct (ag_row g c AG i) as (_ & Hcomp & _ & -> & _); [lia|].
  rewrite (stands_at _ _ _ _ Hx). destruct (is_history_type _); cbn [andb]; [|done]. case_bool_decide; [|done].
  pose proof (STATES_AND_spec N _ _ _ _ (STATES_COPY_spec N _ _ _ _ (stands_self N tmp1 Ht1) Hcomp) Hc) as Htmp2.
  cbn [fst snd]. split; [|apply Htmp2]. apply STATES_OR_spec; [by apply STATES_AND_NOT_spec|done].
Qed.

(** ** ESTABLISH_ENTRY_SET *)

Definition closed (E : gset nat) : Prop := forall x, x ∈ E -> ancestors_of c x ⊆ E.

(** Completions and default transitions do not reach below the children (the
    siblings) of their state, and histories recorded within the history of a
    parallel or deep state are in order. *)
Record plain (history : gset nat) : Prop := {
  pl_trans x y : y ∈ ancestors_of c x -> ancestors_of c y ⊆ ancestors_of c x;
  pl_child i k : k ∈ children_of c i -> ancestors_of c k ⊆ {[i]} ∪ ancestors_of c i;
  pl_parallel i : (USCXML_STATE_MASK (type_of c i) =? USCXML_STATE_PARALLEL)%Z = true -> completion_of c i ⊆ children_of c i;
  pl_compound i : (USCXML_STATE_MASK (type_of c i) =? USCXML_STATE_COMPOUND)%Z = true -> completion_of c i ⊆ children_of c i;
  pl_targets j : is_pseudo_type (type_of c (source_of c j)) = true ->
    forall k, k ∈ target_of c j -> ancestors_of c k ⊆ ancestors_of c (source_of c j);
  pl_pseudo i x : (USCXML_STATE_MASK (type_of c i) =? USCXML_STATE_INITIAL)%Z = true -> i ∉ ancestors_of c x;
  pl_nested i : is_history_type (type_of c i) = true ->
    (type_of c i =? Z.lor USCXML_STATE_HAS_HISTORY USCXML_STATE_HISTORY_DEEP)%Z = false ->
    forall j, j ∈ completion_of c i -> has_flag (type_of c j) USCXML_STATE_HAS_HISTORY = false;
  pl_recorded i x : is_history_type (type_of c i) = true -> x ∈ completion_of c i -> x ∈ history ->
    ancestors_of c x ⊆ (completion_of c i ∩ history) ∪ ancestors_of c i;
}.

Section Plain.
Context (config history exits : gset nat) (PL : plain history).

Lemma closed_union E X : closed E -> (forall x, x ∈ X -> ancestors_of c x ⊆ E ∪ X) -> closed (E ∪ X).
Proof. intros HE HX x [Hx|Hx]%elem_of_union; [|by apply HX]. specialize (HE x Hx). set_solver. Qed.

Lemma closed_ancestors E i : closed E -> i ∈ E -> E ∪ ancestors_of c i = E.
Proof. intros HE Hi. specialize (HE i Hi). set_solver. Qed.

(** *** The ancestors of the targets *)

Lemma add_ancestors_stands i a E : i < N -> stands N a E ->
  stands N (add_ancestors g i a) (if bool_decide (i ∈ E) then MicroStep.add_ancestors c i E else E).
Proof.
  intros Hi Ha. destruct (ag_row g c AG i Hi) as (_ & _ & Hanc & _). unfold add_ancestors, MicroStep.add_ancestors.
  rewrite (stands_at _ _ _ _ Ha). case_bool_decide; [by apply STATES_OR_spec|done].
Qed.

Lemma with_ancestors_stands a E : stands N a E -> stands N (pml_for 0 N (add_ancestors g) a) (with_ancestors c E).
Proof.
  intros Ha. unfold with_ancestors, pml_for. rewrite (ag_states g c AG), Nat.sub_0_r.
  change (find_first N E) with (find_first N (id E)). rewrite find_loop_scan by done. unfold scan_loop.
  apply (foldl_related (stands N) (fun a i => add_ancestors g i a)); [|done].
  intros i b X Hi%elem_of_seq Hb. apply add_ancestors_stands; [lia|done].
Qed.

Lemma entry_ancestors_closed E : (forall x, x ∈ E -> x < N) -> closed (with_ancestors c E).
Proof.
  intros HE. unfold with_ancestors. rewrite (ag_states g c AG).
  change (find_first N E) with (find_first N (id E)). rewrite find_loop_scan by done.
  set (P := fun (k : nat) (E1 : gset nat) =>
    (forall x, x ∈ E1 -> x < N) /\ (forall x y, x ∈ E1 -> y ∈ ancestors_of c x -> x < k -> y ∈ E1) /\
    (forall x, x ∈ E1 -> x ∈ E \/ exists e, e ∈ E1 /\ e < k /\ x ∈ ancestors_of c e)).
  assert (HP : P (0 + N) (scan_loop id (MicroStep.add_ancestors c) (seq 0 N) E)).
  { apply scan_loop_inv; [split_and!; [done|lia|by left]|].
    intros i E1 Hi (H1 & H2 & H3). case_bool_decide as Hin; unfold id in Hin.
    2:{ split_and!; [done| |].
        - intros x y Hx Hy Hlt. destruct (decide (x = i)) as [->|]; [done|]. apply (H2 x); [done|done|lia].
        - intros x Hx. destruct (H3 x Hx) as [?|(e & ? & ? & ?)]; [by left|right; exists e]. split_and!; [done|lia|done]. }
    unfold MicroStep.add_ancestors.
    assert (Hanc : forall y, y ∈ ancestors_of c i -> y < N).
    { intros y Hy. destruct (ag_row g c AG i) as (_ & _ & Ha & _); [lia|]. by apply (stands_lt _ _ _ _ Ha). }
    split_and!.
    - intros x [Hx|Hx]%elem_of_union; auto.
    - intros x y [Hx|Hx]%elem_of_union Hy Hlt; apply elem_of_union.
      + destruct (decide (x = i)) as [->|]; [by right|]. left. apply (H2 x); [done|done|lia].
      + right. by apply (pl_trans _ PL i x).
    - intros x [Hx|Hx]%elem_of_union.
      + destruct (H3 x Hx) as [?|(e & ? & ? & ?)]; [by left|right; exists e]. split_and!; [set_solver|lia|done].
      + right. exists i. split_and!; [set_solver|lia|done]. }
  destruct HP as (H1 & H2 & _). intros x Hx y Hy. apply (H2 x y Hx Hy). cbn. by apply H1.
Qed.

(** *** One state *)

Definition entry_stands (st : bools * bools) (S : gset nat * gset nat) : Prop :=
  stands N (fst st) (fst S) /\ stands NT (snd st) (snd S).

Lemma first_in_find (p q : nat -> bool) lo hi : (forall j, lo <= j < hi -> p j = q j) ->
  first_in lo hi p = List.find q (seq lo (hi - lo)).
Proof.
  intros Hpq. unfold first_in.
  assert (Hg : forall l, (forall j, j ∈ l -> p j = q j) -> List.find p l = List.find q l).
  { induction l as [|j l IH]; intros Hl; [done|]. cbn [List.find]. rewrite (Hl j) by left.
    rewrite IH by (intros k Hk; apply Hl; by right). done. }
  apply Hg. intros j Hj%elem_of_seq. apply Hpq. lia.
Qed.

Lemma found_in p (l : list nat) i : List.find p l = Some i -> i ∈ l /\ p i = true.
Proof. intros [Hi Hp]%find_some. split; [by apply list_elem_of_In|done]. Qed.

Lemma default_history_stands i st S : i < N -> entry_stands st S ->
  entry_stands (default_history g i st) (MicroStep.default_history c i S).
Proof.
  intros Hi Hst. destruct st as [a ts], S as [E T]. pose proof Hst as [Ha Ht]. cbn [fst snd] in Ha, Ht.
  unfold default_history, MicroStep.default_history. rewrite (ag_transitions g c AG), (ag_states g c AG).
  rewrite (first_in_find _ (fun j => source_of c j =? i)) by (intros j Hj; destruct (source_agrees g c AG j) as [-> _]; [lia|done]).
  rewrite Nat.sub_0_r. destruct (List.find _ (seq 0 NT)) as [j|] eqn:Ef; [|done].
  apply found_in in Ef as [Hj%elem_of_seq _]. destruct (source_agrees g c AG j) as [_ Htg]; [lia|].
  destruct (ag_row g c AG i Hi) as (Hch & _). destruct (ag_type g c AG i Hi) as (_ & -> & _).
  rewrite (STATES_HAS_AND_spec N _ _ _ _ Htg Hch).
  rewrite (first_in_find _ (fun k => bool_decide (k ∈ target_of c j)) (i + 1)) by (intros k _; apply (stands_at _ _ _ _ Htg)).
  pose proof (STATES_OR_spec N _ _ _ _ Ha Htg) as Hor.
  split; cbn [fst snd]; [|by apply (insert_spec NT _ _ j true); [|lia]].
  destruct (_ && _); [|done]. destruct (List.find _ _) as [k|] eqn:Ek; [|done].
  apply found_in in Ek as [Hk%elem_of_seq _]. destruct (ag_row g c AG k) as (_ & _ & Hanc & _); [lia|].
  by apply STATES_OR_spec.
Qed.

Lemma default_history_closed i E T : closed E -> i ∈ E -> is_history_type (type_of c i) = true ->
  closed (fst (MicroStep.default_history c i (E, T))).
Proof.
  intros HE Hi Hh. unfold MicroStep.default_history. destruct (List.find _ _) as [j|] eqn:Ef; [|done].
  apply found_in in Ef as [_ Hs%Nat.eqb_eq]. cbn [fst].
  assert (Htg : forall k, k ∈ target_of c j -> ancestors_of c k ⊆ E).
  { intros k Hk. specialize (HE i Hi). rewrite <- Hs in HE. pose proof (pl_targets _ PL j) as Hp.
    rewrite Hs in Hp at 1. unfold is_pseudo_type in Hp. rewrite Hh in Hp. specialize (Hp eq_refl k Hk). set_solver. }
  assert (Hcl : closed (E ∪ target_of c j)).
  { apply closed_union; [done|]. intros x Hx. specialize (Htg x Hx). set_solver. }
  destruct (_ && _); [|done]. destruct (List.find _ (seq (i + 1) _)) as [k|] eqn:Ek; [|done].
  apply found_in in Ek as [_ Hk%bool_decide_eq_true]. by rewrite closed_ancestors by (done || set_solver).
Qed.

Lemma nested_stands j (l : list nat) a E : j < N -> (forall k, k ∈ l -> k < N) -> stands N a E ->
  stands N (foldl (fun a k => nested_history g j k a) a l)
    (foldl (fun entry k => if is_history_type (type_of c k) && bool_decide (k ∈ children_of c j)
      then {[k]} ∪ entry else entry) E l).
Proof.
  intros Hj Hl Ha. apply (foldl_related (stands N)); [|done]. intros k b X Hk Hb. unfold nested_history.
  destruct (ag_row g c AG j Hj) as (Hch & _). pose proof (is_history_agrees g c AG k (Hl k Hk)) as Hh.
  unfold is_history in Hh. rewrite orb_comm, Hh, (stands_at _ _ _ _ Hch). destruct (_ && _); [|done].
  by apply (insert_spec N _ _ k true); [|apply Hl].
Qed.

Lemma nested_closed j (l : list nat) : forall E, closed E -> j ∈ E ->
  closed (foldl (fun entry k => if is_history_type (type_of c k) && bool_decide (k ∈ children_of c j)
      then {[k]} ∪ entry else entry) E l).
Proof.
  induction l as [|k l IH]; intros E HE Hj; cbn [foldl]; [done|]. destruct (_ && _) eqn:Ek; [|by apply IH].
  bool_prop. apply IH; [|set_solver]. pose proof (pl_child _ PL j k H0). specialize (HE j Hj) as Hanc.
  intros x [->%elem_of_singleton|Hx]%elem_of_union; [set_solver|]. specialize (HE x Hx). set_solver.
Qed.

(** A round of the loop over the completion of a history. *)
Definition nest_round (i : nat) (E : gset nat) (j : nat) : gset nat :=
  if bool_decide (j ∈ completion_of c i) && bool_decide (j ∈ E) && has_flag (type_of c j) USCXML_STATE_HAS_HISTORY
  then nested_histories_of c j E else E.

Lemma nest_rounds_stands i a E : i < N -> stands N a E ->
  stands N (pml_for (i + 1) N (fun j entry =>
      if at_ (ps_completion (state g i)) j && at_ entry j && state_is g STATE_HAS_HISTORY j
      then pml_for (j + 1) N (nested_history g j) entry else entry) a)
    (foldl (nest_round i) E (seq (i + 1) (N - (i + 1)))).
Proof.
  intros Hi Ha. unfold pml_for at 1. destruct (ag_row g c AG i Hi) as (_ & Hcomp & _).
  apply (foldl_related (stands N)); [|done]. intros j b X Hj%elem_of_seq Hb.
  rewrite (stands_at _ _ _ _ Hcomp), (stands_at _ _ _ _ Hb).
  destruct (ag_type g c AG j) as (_ & _ & _ & _ & _ & ->); [lia|]. unfold nest_round. destruct (_ && _); [|done].
  unfold nested_histories_of, pml_for. rewrite (ag_states g c AG). apply nested_stands; [lia| |done].
  intros k Hk%elem_of_seq. lia.
Qed.

Lemma nest_rounds_closed i (l : list nat) : forall E, closed E -> closed (foldl (nest_round i) E l).
Proof.
  induction l as [|j l IH]; intros E HE; cbn [foldl]; [done|]. apply IH. unfold nest_round.
  destruct (_ && _) eqn:Ej; [|done]. bool_prop. by apply nested_closed.
Qed.

Lemma nest_rounds_none i (l : list nat) : (forall j, j ∈ completion_of c i -> has_flag (type_of c j) USCXML_STATE_HAS_HISTORY = false) ->
  forall E, foldl (nest_round i) E l = E.
Proof.
  intros Hno. induction l as [|j l IH]; intros E; cbn [foldl]; [done|]. unfold nest_round at 2.
  case_bool_decide as Hj; cbn [andb]; [|apply IH]. rewrite (Hno j Hj), andb_false_r. apply IH.
Qed.

Lemma restore_history_stands i h a E : i < N -> is_history_type (type_of c i) = true ->
  stands N h history -> stands N a E ->
  stands N (restore_history g h i a) (MicroStep.restore_history c history i E).
Proof.
  intros Hi Hty Hh Ha. unfold restore_history, MicroStep.restore_history. rewrite (ag_states g c AG).
  destruct (ag_row g c AG i Hi) as (_ & Hcomp & _). destruct (ag_type g c AG i Hi) as (_ & -> & _ & _ & _ & ->).
  pose proof (STATES_OR_spec N _ _ _ _ Ha (STATES_AND_spec N _ _ _ _ Hcomp Hh)) as Hor.
  change (foldl _ (E ∪ completion_of c i ∩ history) (seq (i + 1) (N - (i + 1))))
    with (foldl (nest_round i) (E ∪ completion_of c i ∩ history) (seq (i + 1) (N - (i + 1)))).
  destruct (type_of c i =? _)%Z eqn:Ety.
  - apply Z.eqb_eq in Ety. rewrite Ety. change (has_flag _ _) with true. cbn [orb]. by apply nest_rounds_stands.
  - destruct (_ || _); [|done].
    rewrite <- (nest_rounds_none i (seq (i + 1) (N - (i + 1))) (pl_nested _ PL i Hty Ety) (E ∪ _)).
    by apply nest_rounds_stands.
Qed.

Lemma restore_history_closed i E : closed E -> i ∈ E -> is_history_type (type_of c i) = true ->
  closed (MicroStep.restore_history c history i E).
Proof.
  intros HE Hi Hty. unfold MicroStep.restore_history. specialize (HE i Hi) as Hanc.
  assert (Hcl : closed (E ∪ completion_of c i ∩ history)).
  { apply closed_union; [done|]. intros x [Hx Hh]%elem_of_intersection.
    pose proof (pl_recorded _ PL i x Hty Hx Hh). set_solver. }
  destruct (_ =? _)%Z; [|done]. by apply (nest_rounds_closed i).
Qed.

Lemma target_ancestors_same a ks target E : stands N a E -> (forall k, k ∈ ks -> k < N) ->
  (forall k, k ∈ ks -> at_ target k = true -> ancestors_of c k ⊆ E) -> stands N (target_ancestors g target ks a) E.
Proof.
  revert a. induction ks as [|k ks IH]; intros a Ha Hlt Hsub; cbn [target_ancestors]; [done|].
  destruct (at_ target k) eqn:Ek; [|done]. destruct (ag_row g c AG k) as (_ & _ & Hanc & _); [apply Hlt; left|].
  apply IH; [|intros j Hj; apply Hlt; by right|intros j Hj; apply Hsub; by right].
  pose proof (STATES_OR_spec N _ _ _ _ Ha Hanc) as Hor.
  pose proof (Hsub k ltac:(left) Ek). by replace (E ∪ ancestors_of c k) with E in Hor by set_solver.
Qed.

Lemma fold_ancestors_same (l : list nat) (X E : gset nat) : (forall k, k ∈ X -> ancestors_of c k ⊆ E) ->
  foldl (fun entry k => if bool_decide (k ∈ X) then entry ∪ ancestors_of c k else entry) E l = E.
Proof.
  intros HX. induction l as [|k l IH]; [done|]. cbn [foldl]. case_bool_decide as Hk; [|done].
  specialize (HX k Hk). by replace (E ∪ ancestors_of c k) with E by set_solver.
Qed.

Lemma initial_transition_stands i j st S : i < N -> j < NT ->
  (USCXML_STATE_MASK (type_of c i) =? USCXML_STATE_INITIAL)%Z = true ->
  entry_stands st S -> closed (fst S) -> ancestors_of c i ⊆ fst S ->
  let S' := MicroStep.initial_transition c i S j in
  entry_stands (initial_transition g i j st) S' /\ closed (fst S') /\ ancestors_of c i ⊆ fst S'.
Proof.
  intros Hi Hj Hty Hst HE Hanc. cbv zeta. destruct st as [a ts], S as [E T]. destruct Hst as [Ha Ht]. cbn [fst snd] in *.
  unfold initial_transition, MicroStep.initial_transition. destruct (source_agrees g c AG j Hj) as [-> Htg].
  destruct (Nat.eqb_spec (source_of c j) i) as [Hs|_]; [|done]. rewrite (ag_states g c AG).
  assert (Htargets : forall k, k ∈ target_of c j -> ancestors_of c k ⊆ ancestors_of c i).
  { intros k Hk. rewrite <- Hs. apply (pl_targets _ PL); [|done]. rewrite Hs. unfold is_pseudo_type. by rewrite Hty, orb_true_r. }
  pose proof (pl_pseudo _ PL i i Hty) as Hii.
  assert (Hsub : ancestors_of c i ⊆ (E ∖ {[i]}) ∪ target_of c j) by set_solver.
  assert (Hk : forall k, k ∈ target_of c j -> ancestors_of c k ⊆ (E ∖ {[i]}) ∪ target_of c j).
  { intros k Hk. specialize (Htargets k Hk). set_solver. }
  rewrite (fold_ancestors_same _ (target_of c j)) by done.
  pose proof (STATES_OR_spec N _ _ _ _ (insert_spec N a E i false Ha Hi) Htg) as Hor. cbn [fst snd]. split; [|split].
  - split; cbn [fst snd]; [|by apply (insert_spec NT _ _ j true)].
    apply target_ancestors_same; [done| |].
    + intros k Hks%elem_of_seq. lia.
    + intros k _. rewrite (stands_at _ _ _ _ Htg), bool_decide_eq_true. apply Hk.
  - intros x [[Hx Hne]%elem_of_difference|Hx]%elem_of_union; [|by apply Hk].
    pose proof (pl_pseudo _ PL i x Hty). specialize (HE x Hx). set_solver.
  - set_solver.
Qed.

Lemma initial_transitions_stands i st S : i < N ->
  (USCXML_STATE_MASK (type_of c i) =? USCXML_STATE_INITIAL)%Z = true ->
  entry_stands st S -> closed (fst S) -> ancestors_of c i ⊆ fst S ->
  let S' := foldl (MicroStep.initial_transition c i) S (seq 0 NT) in
  entry_stands (pml_for 0 NT (initial_transition g i) st) S' /\ closed (fst S').
Proof.
  intros Hi Hty Hst HE Hanc. cbv zeta. unfold pml_for. rewrite Nat.sub_0_r.
  pose proof (foldl_related (fun st S => entry_stands st S /\ closed (fst S) /\ ancestors_of c i ⊆ fst S)
    (fun a j => initial_transition g i j a) (MicroStep.initial_transition c i) (seq 0 NT) st S) as H.
  destruct H as (H1 & H2 & _); [|done|done].
  intros j st1 S1 Hj%elem_of_seq (H1 & H2 & H3). apply initial_transition_stands; (done || lia).
Qed.

Lemma complete_compound_stands i a E conf ex : i < N ->
  (USCXML_STATE_MASK (type_of c i) =? USCXML_STATE_COMPOUND)%Z = true ->
  stands N conf config -> stands N ex exits -> stands N a E -> closed E -> i ∈ E ->
  let E' := MicroStep.complete_compound c config exits i E in
  stands N (complete_compound g conf ex i a) E' /\ closed E'.
Proof.
  intros Hi Hty Hc Hx Ha HE Hin. cbv zeta. unfold complete_compound, MicroStep.complete_compound. rewrite (ag_states g c AG).
  destruct (ag_row g c AG i Hi) as (Hch & Hcomp & _ & _). pose proof (pl_compound _ PL i Hty) as Hsub.
  rewrite (STATES_HAS_AND_spec N _ _ _ _ Ha Hch), (STATES_HAS_AND_spec N _ _ _ _ Hc Hch),
    (STATES_HAS_AND_spec N _ _ _ _ Hx Hch), (STATES_HAS_AND_spec N _ _ _ _ Hcomp Hch).
  destruct (_ && _); [|done]. pose proof (STATES_OR_spec N _ _ _ _ Ha Hcomp) as Hor.
  assert (Hanc : forall k, k ∈ completion_of c i -> ancestors_of c k ⊆ E).
  { intros k Hk. pose proof (pl_child _ PL i k (Hsub k Hk)). specialize (HE i Hin). set_solver. }
  assert (Hcl : closed (E ∪ completion_of c i)).
  { apply closed_union; [done|]. intros x Hk. specialize (Hanc x Hk). set_solver. }
  assert (Hand : BIT_HAS_AND (completion_of c i) (children_of c i) = negb (bool_decide (completion_of c i = ∅))).
  { unfold BIT_HAS_AND. by replace (completion_of c i ∩ children_of c i) with (completion_of c i) by set_solver. }
  rewrite Hand, negb_involutive. case_bool_decide as Hemp; cbn [negb].
  - destruct (List.find _ _) as [k|] eqn:Ek; [|done].
    apply found_in in Ek as [_ Hk%bool_decide_eq_true]. set_solver.
  - split; [|done]. destruct (first_in _ _ _) as [k|] eqn:Ek; [|done]. unfold first_in in Ek.
    apply found_in in Ek as [Hks%elem_of_seq Hk]. rewrite (stands_at _ _ _ _ Hcomp) in Hk. apply bool_decide_eq_true in Hk.
    destruct (ag_row g c AG k) as (_ & _ & Hka & _); [lia|].
    pose proof (STATES_OR_spec N _ _ _ _ Hor Hka) as H3. specialize (Hanc k Hk).
    by replace (E ∪ completion_of c i ∪ ancestors_of c k) with (E ∪ completion_of c i) in H3 by set_solver.
Qed.

Lemma is_history_type_mask t : is_history_type (USCXML_STATE_MASK t) = is_history_type t.
Proof.
  unfold is_history_type. assert (Hm : USCXML_STATE_MASK (USCXML_STATE_MASK t) = USCXML_STATE_MASK t).
  { unfold USCXML_STATE_MASK. by rewrite <- Z.land_assoc. }
  by rewrite Hm.
Qed.

Lemma descend_stands i st S conf h ex : i < N ->
  stands N conf config -> stands N h history -> stands N ex exits -> entry_stands st S -> closed (fst S) ->
  let S' := if bool_decide (i ∈ fst S) then MicroStep.descend c config history exits i S else S in
  entry_stands (descend g conf h ex i st) S' /\ closed (fst S').
Proof.
  intros Hi Hc Hh Hx Hst HE. cbv zeta. destruct st as [a ts], S as [E T]. pose proof Hst as [Ha Ht]. cbn [fst snd] in *.
  unfold descend, MicroStep.descend. rewrite (stands_at _ _ _ _ Ha). case_bool_decide as Hin; [|done].
  destruct (ag_row g c AG i Hi) as (Hch & Hcomp & _ & Hpar & _).
  destruct (ag_type g c AG i Hi) as (-> & _ & _ & -> & -> & _). rewrite (is_history_agrees g c AG i Hi).
  rewrite is_history_type_mask, (ag_transitions g c AG), Hpar, (stands_at _ _ _ _ Hc), (STATES_HAS_AND_spec N _ _ _ _ Hcomp Hh).
  destruct (_ =? USCXML_STATE_PARALLEL)%Z eqn:Ep.
  { split; [split; cbn [fst snd]; [by apply STATES_OR_spec|done]|]. cbn [fst]. apply closed_union; [done|].
    intros x Hk. pose proof (pl_child _ PL i x (pl_parallel _ PL i Ep x Hk)). specialize (HE i Hin). set_solver. }
  destruct (is_history_type _) eqn:Eh.
  { destruct (_ && _).
    - split; [by apply default_history_stands|by apply default_history_closed].
    - split; [split; cbn [fst snd]; [by apply restore_history_stands|done]|by apply restore_history_closed]. }
  destruct (_ =? USCXML_STATE_INITIAL)%Z eqn:Ei.
  - destruct (Nat.ltb_spec 0 NT) as [HNT|HNT]; cbn [andb].
    + apply initial_transitions_stands; (done || by apply HE).
    + replace NT with 0 by lia. cbn [seq foldl].
      destruct (_ =? USCXML_STATE_COMPOUND)%Z eqn:Eco; [|done]. apply Z.eqb_eq in Ei, Eco. rewrite Ei in Eco. done.
  - rewrite andb_false_r. destruct (_ =? USCXML_STATE_COMPOUND)%Z eqn:Eco; [|done].
    destruct (complete_compound_stands i a E conf ex Hi Eco Hc Hx Ha HE Hin) as [? ?]. done.
Qed.

(** The entry set, and the transitions taken on the way. *)
Lemma entry_sets_stands conf h ex entry ts target (Targets Trans : gset nat) :
  stands N conf config -> stands N h history -> stands N ex exits ->
  length entry = N -> stands NT ts Trans -> stands N target Targets ->
  entry_stands (entry_sets g conf h ex entry ts target) (establish_entryset c config history exits Targets Trans).
Proof.
  intros Hc Hh Hx He Ht Htg. unfold entry_sets, establish_entryset. cbv zeta.
  pose proof (with_ancestors_stands _ _ (STATES_COPY_spec N _ _ _ _ (stands_self N entry He) Htg)) as Hwa.
  assert (Hcl : closed (with_ancestors c Targets)).
  { apply entry_ancestors_closed. intros x. by apply (stands_lt _ _ _ _ Htg). }
  rewrite (ag_states g c AG).
  change (find_first N (with_ancestors c Targets)) with (find_first N (fst (with_ancestors c Targets, Trans))).
  rewrite find_loop_scan by done. unfold scan_loop. unfold pml_for in Hwa |- *. rewrite Nat.sub_0_r in Hwa |- *.
  eapply proj1, (foldl_related (fun st S => entry_stands st S /\ closed (fst S)) (fun a i => descend g conf h ex i a)).
  - intros i st S Hi%elem_of_seq [H1 H2]. apply descend_stands; (done || lia).
  - split; [by split|done].
Qed.

End Plain.

(** For a chart whose completions and default transitions stay among
    the children of a state, the process computes the entry set of the
    interpreter, and takes the same transitions on the way. *)
Theorem process_entry_set (config history exits Targets Trans : gset nat) conf h ex entry ts target :
  plain history -> stands N conf config -> stands N h history -> stands N ex exits ->
  length entry = N -> stands NT ts Trans -> stands N target Targets ->
  let r := entry_sets g conf h ex entry ts target in
  (bset (fst r), bset (snd r)) = establish_entryset c config history exits Targets Trans.
Proof.
  intros PL Hc Hh Hx He Ht Htg. cbv zeta.
  destruct (entry_sets_stands config history exits PL conf h ex entry ts target Targets Trans Hc Hh Hx He Ht Htg) as [[_ H1] [_ H2]].
  rewrite H1, H2. by destruct (establish_entryset _ _ _ _ _ _).
Qed.

End Entry.
