(* ===== verification/PmlRound.v ===== *)
(** * The emitted Promela program: whole rounds

    A round of the process that does not block ends in the configuration and
    the histories in which the micro step of the interpreter ends; the loop over
    the states to enter needs no more rounds than it is given; and a machine
    without transitions never looks at its queues again. *)

From stdpp Require Import base list gmap strings.
From S2P Require Import Prelude Strings Data Effects Dom Predicates Chart MicroStep StepLemmas StepTheorems PmlQueue PmlMachine PmlTheorems.

Local Open Scope nat_scope.

(** ** What the phases leave alone *)

Section Frames.
Context {E W : Type} {PC : PmlContent E W} (g : program).
Implicit Types v : Vars E W.

(** Content changes neither the configuration nor the sets of the round. *)
Definition framed v v' : Prop :=
  config v' = config v /\ history v' = history v /\ invocations v' = invocations v /\
  cx_entry_set (ctx v') = cx_entry_set (ctx v) /\ cx_exit_set (ctx v') = cx_exit_set (ctx v) /\
  cx_trans_set (ctx v') = cx_trans_set (ctx v) /\ cx_target_set (ctx v') = cx_target_set (ctx v).

Lemma framed_refl v : framed v v.
Proof. by repeat split. Qed.

Lemma framed_trans v1 v2 v3 : framed v1 v2 -> framed v2 v3 -> framed v1 v3.
Proof. unfold framed. intros (?&?&?&?&?&?&?) (?&?&?&?&?&?&?). split_and!; congruence. Qed.

Lemma run_block_framed b v v' : run_block b v = Some v' -> framed v v'.
Proof. unfold run_block. intros ([[i e] w] & _ & [= <-])%bind_Some. by repeat split. Qed.

Lemma raise_done_framed d v v' : raise_done d v = Some v' -> framed v v'.
Proof.
  unfold raise_done. destruct (done_event d v); [|intros [= <-]; apply framed_refl].
  intros (q & _ & [= <-])%bind_Some. by repeat split.
Qed.

Lemma pml_forM_framed l (body : nat -> Vars E W -> option (Vars E W)) :
  (forall i v v', body i v = Some v' -> framed v v') -> forall v v', pml_forM l body v = Some v' -> framed v v'.
Proof.
  intros Hb. induction l as [|i l IH]; intros v v'; cbn [pml_forM]; [intros [= <-]; apply framed_refl|].
  intros (v1 & H1 & H2)%bind_Some. eapply framed_trans; [by eapply Hb|by eapply IH].
Qed.

Lemma take_transitions_framed v v' : take_transitions g v = Some v' -> framed v v'.
Proof.
  apply pml_forM_framed. clear v v'. intros i v v'. unfold take_transition.
  destruct (_ && _); [apply run_block_framed|intros [= <-]; apply framed_refl].
Qed.

Lemma parallel_done_framed i j v v' : parallel_done g i j v = Some v' -> framed v v'.
Proof.
  unfold parallel_done. destruct (_ && _); [|intros [= <-]; apply framed_refl]. cbv zeta.
  destruct (negb _); [|intros [= <-]; by repeat split].
  intros H%raise_done_framed. eapply framed_trans; [|exact H]. by repeat split.
Qed.

Lemma enter_final_framed i v v' : enter_final g i v = Some v' -> framed v v'.
Proof.
  unfold enter_final. intros (v1 & H1 & H2)%bind_Some. eapply framed_trans with v1.
  - destruct (at_ _ 1); [injection H1 as <-; by repeat split|by eapply raise_done_framed].
  - revert H2. apply pml_forM_framed. intros j. apply parallel_done_framed.
Qed.

(** A state that is entered is added to the configuration. *)
Lemma enter_state_framed i v v' : enter_state g i v = Some v' ->
  framed (set_config (<[i := true]> (config v)) v) v'.
Proof.
  unfold enter_state. cbv zeta. intros (v1 & H1%run_block_framed & (v2 & H2 & H3)%bind_Some)%bind_Some.
  eapply framed_trans; [exact H1|]. eapply framed_trans with v2.
  - revert H2. apply pml_forM_framed. intros j w w'. unfold pseudo_transition.
    destruct (_ && _); [apply run_block_framed|intros [= <-]; apply framed_refl].
  - destruct (state_is g STATE_FINAL i); [by eapply enter_final_framed|injection H3 as <-; apply framed_refl].
Qed.

End Frames.

(** ** Leaving and entering *)

Section Round.
Context {E W : Type} {PC : PmlContent E W} {PL : PmlContentLaws E W}.
Context {node Wi X : Type} {CB : MicroStepCallbacks node Wi X}.
Context (g : program) (c : Chart node) (AG : agrees g c).
Abbreviation N := (length (g_states g)).
Abbreviation NT := (length (g_transitions g)).
Implicit Types v : Vars E W.

(** The variables apart from the configuration. *)
Definition framed_sets v v' : Prop :=
  history v' = history v /\ cx_entry_set (ctx v') = cx_entry_set (ctx v) /\ cx_exit_set (ctx v') = cx_exit_set (ctx v).

Lemma exit_loop_config (l : list nat) (Xs : gset nat) : forall v v' (C : gset nat), (forall i, i ∈ l -> i < N) ->
  pml_forM l exit_state v = Some v' -> stands N (config v) C -> stands N (cx_exit_set (ctx v)) Xs ->
  stands N (config v') (C ∖ (Xs ∩ list_to_set l)) /\ framed_sets v v'.
Proof.
  induction l as [|i l IH]; intros v v' C Hl; cbn [pml_forM].
  - intros [= <-] Hc _. split; [|by repeat split].
    cbn [list_to_set]. by rewrite (right_absorb_L ∅ (∩)), (difference_empty_L C).
  - intros (v1 & H1 & H2)%bind_Some Hc Hx.
    assert (Hv1 : stands N (config v1) (C ∖ (Xs ∩ {[i]})) /\ framed_sets v v1).
    { unfold exit_state in H1. rewrite (stands_at _ _ _ _ Hx), (stands_at _ _ _ _ Hc) in H1.
      case_bool_decide as Hi; cbn [andb] in H1.
      2:{ injection H1 as <-. replace (C ∖ (Xs ∩ {[i]})) with C by set_solver. split; [done|by repeat split]. }
      case_bool_decide as Hic.
      2:{ injection H1 as <-. replace (C ∖ (Xs ∩ {[i]})) with C by set_solver. split; [done|by repeat split]. }
      apply bind_Some in H1 as (v2 & (Hf1 & Hf2 & _ & Hf4 & Hf5 & _)%run_block_framed & [= <-]). split.
      - replace (C ∖ (Xs ∩ {[i]})) with (C ∖ {[i]}) by set_solver. cbn [config set_config]. rewrite Hf1.
        apply (insert_spec N _ _ i false Hc), Hl. left.
      - by repeat split. }
    destruct Hv1 as [Hc1 (Hh & He & Hx1)]. destruct (IH v1 v' (C ∖ (Xs ∩ {[i]}))) as [Hc2 (? & ? & ?)]; try done.
    + intros j Hj. apply Hl. by right.
    + by rewrite Hx1.
    + split; [|by unfold framed_sets; split_and!; congruence].
      by replace (C ∖ (Xs ∩ list_to_set (i :: l))) with (C ∖ (Xs ∩ {[i]}) ∖ (Xs ∩ list_to_set l)) by set_solver.
Qed.

Lemma exit_states_config v v' (C Xs : gset nat) : exit_states g v = Some v' ->
  stands N (config v) C -> stands N (cx_exit_set (ctx v)) Xs ->
  stands N (config v') (C ∖ Xs) /\ framed_sets v v'.
Proof.
  intros Hv Hc Hx.
  assert (Hl : forall i, i ∈ reverse (seq 0 N) -> i < N) by (intros i Hi%elem_of_reverse%elem_of_seq; lia).
  destruct (exit_loop_config _ Xs v v' C Hl Hv Hc Hx) as [H1 H2].
  split; [|done]. replace (C ∖ Xs) with (C ∖ (Xs ∩ list_to_set (reverse (seq 0 N)))); [done|].
  apply set_eq. intros i. rewrite !elem_of_difference, elem_of_intersection, elem_of_list_to_set, elem_of_reverse, elem_of_seq.
  split; [|naive_solver]. intros [Hi Hn]. split; [done|]. intros Hx'. apply Hn. split; [done|].
  pose proof (stands_lt _ _ _ _ Hx Hx'). lia.
Qed.

(** Only proper states are entered. *)
Lemma to_enter_spec i v (C En : gset nat) : i < N -> stands N (config v) C -> stands N (cx_entry_set (ctx v)) En ->
  to_enter g i v = bool_decide (i ∈ En) && negb (bool_decide (i ∈ C)) && negb (is_pseudo_type (type_of c i)).
Proof.
  intros Hi Hc He. unfold to_enter. rewrite (stands_at _ _ _ _ Hc), (stands_at _ _ _ _ He).
  destruct (ag_type g c AG i Hi) as (_ & -> & -> & -> & _). unfold is_pseudo_type, is_history_type.
  destruct (bool_decide _), (bool_decide _); cbn [andb negb]; [done| |done..].
  by destruct (_ =? USCXML_STATE_HISTORY_DEEP)%Z, (_ =? USCXML_STATE_HISTORY_SHALLOW)%Z.
Qed.

Lemma enter_loop_config fuel (En : gset nat) : forall i v v' (C : gset nat), enter_loop g fuel i v = Some v' ->
  stands N (config v) C -> stands N (cx_entry_set (ctx v)) En ->
  (forall k, k < i -> k ∈ proper_of c En -> k ∈ C) ->
  stands N (config v') (C ∪ proper_of c En) /\ history v' = history v.
Proof.
  induction fuel as [|fuel IH]; intros i v v' C; cbn [enter_loop]; [done|].
  destruct (Nat.ltb_spec i N) as [Hi|Hi].
  - intros Hv Hc He Hdone. rewrite (to_enter_spec i v C En Hi Hc He) in Hv.
    destruct (_ && _) eqn:Et.
    + apply andb_true_iff in Et as [[Hin Hnot]%andb_true_iff Hps]. apply bool_decide_eq_true in Hin.
      apply negb_true_iff in Hps.
      apply bind_Some in Hv as (v1 & Hv1 & Hv). destruct (enter_state_framed g i v v1 Hv1) as (H1 & H2 & _ & H4 & _).
      cbn [config history ctx set_config] in H1, H2, H4.
      destruct (IH i v1 v' ({[i]} ∪ C)) as [H5 H6]; try done.
      * rewrite H1. apply (insert_spec N _ _ i true Hc Hi).
      * by rewrite H4.
      * intros k Hk Hp. apply elem_of_union. right. by apply Hdone.
      * split; [|congruence].
        replace (C ∪ proper_of c En) with ({[i]} ∪ C ∪ proper_of c En); [done|].
        assert (i ∈ proper_of c En); [|set_solver]. apply elem_of_proper_of. by rewrite (ag_states g c AG).
    + apply (IH (i + 1) v v' C Hv Hc He). intros k Hk Hp. destruct (decide (k = i)) as [->|]; [|apply Hdone; [lia|done]].
      apply elem_of_proper_of in Hp as (Hin & _ & Hps). rewrite Hps, bool_decide_eq_true_2 in Et by done. cbn in Et.
      by case_bool_decide.
  - intros [= <-] Hc He Hdone. split; [|done].
    replace (C ∪ proper_of c En) with C; [done|]. apply set_eq. intros k. rewrite elem_of_union. split; [by left|].
    intros [?|Hp]; [done|]. apply Hdone; [|done]. apply elem_of_proper_of in Hp as (_ & Hk & _). rewrite (ag_states g c AG) in Hk. lia.
Qed.

(** What the process has selected when it found something. *)
Lemma react_config v v' (C H Xs Targets Trans : gset nat) : plain c (MicroStep.remember_history c C Xs H) ->
  let w := select_transitions g v in
  flag CTX_TRANSITION_FOUND w = true -> react g v = Some v' ->
  stands N (config w) C -> stands N (history w) H -> STATES_HAS_ANY (config w) = true \/ C = ∅ /\ Xs = ∅ ->
  ctx_stands g (ctx w) (bset (cx_conflicts (ctx w))) Trans Targets Xs ->
  length (cx_entry_set (ctx w)) = N -> length (cx_tmp_states (ctx w)) = N ->
  let H' := MicroStep.remember_history c C Xs H in
  stands N (config v') ((C ∖ Xs) ∪ proper_of c (fst (establish_entryset c C H' Xs Targets Trans))) /\
  stands N (history v') H'.
Proof.
  intros Hpl w Hfound Hv Hc Hh Hany [_ Ht Htg Hx] He Htmp. cbv zeta. unfold react in Hv. cbv zeta in Hv. fold w in Hv.
  rewrite Hfound in Hv. apply bind_Some in Hv as (v2 & Hv2 & (v3 & Hv3 & Hv4)%bind_Some).
  set (H' := MicroStep.remember_history c C Xs H) in *.
  assert (Hr : exists tmp, length tmp = N /\ remember_history g w = set_history (history (remember_history g w)) (set_ctx (set_tmp tmp (ctx w)) w) /\
    stands N (history (remember_history g w)) H').
  { unfold remember_history. destruct Hany as [->|[-> ->]].
    - pose proof (remember_history_stands g c AG (config w) (cx_exit_set (ctx w)) C Xs (history w) (cx_tmp_states (ctx w)) H Hc Hx Hh Htmp) as [Hr1 Hr2].
      destruct (pml_for _ _ _ _) as [h tmp]. exists tmp. done.
    - rewrite (STATES_HAS_ANY_spec N _ _ Hc), bool_decide_eq_true_2 by done. cbn [negb]. exists (cx_tmp_states (ctx w)).
      split; [done|]. split; [by destruct w as [????[]]|]. unfold H'.
      replace (MicroStep.remember_history c ∅ ∅ H) with H; [done|]. symmetry. unfold MicroStep.remember_history.
      generalize (seq 0 (n_states c)). clear. intros l. induction l as [|i l IH]; [done|]. cbn [foldl].
      unfold MicroStep.remember_one at 2. by rewrite bool_decide_eq_false_2, andb_false_r by set_solver. }
  destruct Hr as (tmp & Htmp' & Hw & Hh'). set (h := history (remember_history g w)) in *. rewrite Hw in Hv2.
  unfold establish_entry_set in Hv2.
  cbn [config history ctx set_history set_ctx set_tmp cx_conflicts cx_trans_set cx_target_set cx_exit_set cx_entry_set cx_tmp_states] in Hv2.
  pose proof (entry_sets_stands g c AG C H' Xs Hpl (config w) h (cx_exit_set (ctx w)) (cx_entry_set (ctx w)) (cx_trans_set (ctx w))
    (cx_target_set (ctx w)) Targets Trans Hc Hh' Hx He Ht Htg) as [Hen _].
  destruct (entry_sets _ _ _ _ _ _ _) as [entry ts]. destruct (establish_entryset _ _ _ _ _ _) as [En Ts].
  cbn [fst snd] in Hen. cbn [fst].
  destruct (exit_states_config _ v2 C Xs Hv2 Hc Hx) as [Hc2 (Hh2 & He2 & _)].
  cbn [history ctx cx_entry_set set_history set_ctx] in Hh2, He2.
  destruct (take_transitions_framed g v2 v3 Hv3) as (Hc3 & Hh3 & _ & He3 & _).
  destruct (enter_loop_config _ En 0 v3 v' (C ∖ Xs) Hv4) as [Hc4 Hh4].
  - by rewrite Hc3.
  - by rewrite He3, He2.
  - intros k Hk. lia.
  - split; [done|]. by rewrite Hh4, Hh3, Hh2.
Qed.

(** C10: on tables that agree with a chart whose completions and default
    transitions do not reach below children, a round of the process that does
    not block ends in the configuration and with the recorded histories of the
    round in which the interpreter, on that chart, selects transitions for the
    same event and performs the micro step. *)
Theorem process_round_refines truth v v' ms0 :
  0 < NT -> _configuration ms0 <> ∅ -> mirrors g c truth v ms0 ->
  (forall e ms w, fst (isTrue (node := node) (W := Wi) (X := X) e ms w) = inr (truth e)) ->
  has_flag (_flags ms0) USCXML_CTX_TRANSITION_FOUND = false ->
  (forall exits, plain c (MicroStep.remember_history c (_configuration ms0) exits (_history ms0))) ->
  react g v = Some v' ->
  hoare_ms (fun ms => ms = ms0) (select_and_step (X := X) c)
    (fun _ ms => bset (config v') = _configuration ms /\ bset (history v') = _history ms)
    (fun _ => True).
Proof.
  intros HNT Hne Hm Htruth Hflag Hpl Hv. set (w := select_transitions g v).
  pose proof (mi_ok _ _ _ _ _ Hm) as Hok. pose proof (mi_config _ _ _ _ _ Hm) as Hc0. pose proof (mi_history _ _ _ _ _ Hm) as Hh0.
  unfold select_and_step. eapply hoare_ms_bind.
  { apply hoare_ms_and; [apply (select_selected c ms0)|].
    apply (select_transitions_simulates (PC := PC) (PL := PL) g c AG truth v ms0 HNT Hne Hm Htruth). }
  intros sets. apply hoare_ms_getm. intros ms1 [Hsel [[Hsame Ht Htg Hx Hcf Hf _] _]]. fold w in Hsame, Ht, Htg, Hx, Hcf, Hf.
  destruct Hsame as (Hcw & Hhw & _ & _ & _ & _ & _ & _ & Hew & Htw).
  assert (Hfl : has_flag (_flags ms1) USCXML_CTX_TRANSITION_FOUND = flag CTX_TRANSITION_FOUND w).
  { by rewrite (sel_flag _ _ _ _ _ Hsel), Hflag, Hf. }
  rewrite Hfl, (sel_config _ _ _ _ _ Hsel). set (exits := exitSet sets ∩ _configuration ms0) in *.
  destruct (flag CTX_TRANSITION_FOUND w) eqn:Hfound.
  - destruct (react_config v v' (_configuration ms0) (_history ms0) exits (targetSet sets) (transSet sets) (Hpl exits) Hfound Hv)
      as [Hc' Hh']; try done.
    + fold w. by rewrite Hcw.
    + fold w. by rewrite Hhw.
    + left. fold w. by rewrite Hcw, (STATES_HAS_ANY_spec N _ _ Hc0), bool_decide_eq_false_2.
    + split; try done. by split; [apply Hcf|].
    + fold w. rewrite Hew. apply Hok.
    + fold w. rewrite Htw. apply Hok.
    + set (P := fun ms : MicroState => _configuration ms = _configuration ms0 /\ _history ms = _history ms0).
      eapply hoare_ms_bind with (R := fun _ => P).
      { apply hoare_ms_update. intros ? ->. split; [apply Hsel|apply (sel_history _ _ _ _ _ Hsel)]. }
      intros _. eapply hoare_ms_bind with (R := fun _ => P).
      { eapply hoare_ms_conseq; [apply hoare_ms_call|intros ? HP; exact HP|done|done]. }
      intros _. eapply hoare_ms_bind with
        (R := fun _ ms => _configuration ms = _configuration ms0 /\ _history ms = MicroStep.remember_history c (_configuration ms0) exits (_history ms0)).
      { apply hoare_ms_update. intros ms [H1 H2]. cbn. by rewrite H1, H2. }
      intros _ st [Hst1 Hst2].
      pose proof (microstep_effect (X := X) c exits (targetSet sets) (transSet sets) (fst st) st eq_refl) as Hmi.
      destruct (microstep _ _ _ _ st) as [[x|r] st']; [done|]. rewrite Hmi.
      destruct (microstep_result_fields c exits (targetSet sets) (transSet sets) (fst st)) as (-> & _ & -> & _).
      { intros i Hi. rewrite Hst1 in Hi. rewrite (ag_states g c AG). by apply (stands_lt _ _ _ _ Hc0). }
      rewrite Hst1, Hst2. split; [apply Hc'|apply Hh'].
  - unfold react in Hv. cbv zeta in Hv. fold w in Hv. rewrite Hfound in Hv. injection Hv as <-.
    eapply hoare_ms_bind with (R := fun _ ms => _configuration ms = _configuration ms0 /\ _history ms = _history ms0).
    { apply hoare_ms_update. intros ? ->. split; [apply Hsel|apply (sel_history _ _ _ _ _ Hsel)]. }
    intros _. apply hoare_ms_ret. intros ms2 [-> ->]. rewrite Hcw, Hhw. split; [apply Hc0|apply Hh0].
Qed.
End Round.

(** ** The loop over the states to enter *)

Section Entering.
Context {E W : Type} {PC : PmlContent E W} (g : program).
Abbreviation N := (length (g_states g)).
Implicit Types v : Vars E W.

Lemma entered_once i v v' : i < length (config v) -> enter_state g i v = Some v' ->
  to_enter g i v' = false /\ length (config v') = length (config v).
Proof.
  intros Hi (H1 & _)%enter_state_framed. cbn [config set_config] in H1. split; [|by rewrite H1, length_insert].
  unfold to_enter. rewrite H1. unfold at_ at 2. rewrite list_lookup_insert_eq by done. cbn. by rewrite andb_false_r.
Qed.

Lemma enter_loop_ends fuel : forall i v, length (config v) = N ->
  S (2 * (N - i)) <= fuel \/ (i < N /\ to_enter g i v = false /\ 2 * (N - i) <= fuel) ->
  enter_loop g fuel i v = None -> exists j v', to_enter g j v' = true /\ enter_state g j v' = None.
Proof.
  induction fuel as [|fuel IH]; intros i v Hl Hf; [lia|]. cbn [enter_loop].
  destruct (Nat.ltb_spec i N) as [Hi|Hi]; [|done].
  destruct (to_enter g i v) eqn:Et.
  - destruct Hf as [Hf|(_ & ? & _)]; [|done].
    destruct (enter_state g i v) as [v1|] eqn:Ev; [|by exists i, v]. cbn [mbind option_bind].
    destruct (entered_once i v v1) as [Ht Hl1]; [lia|done|]. apply IH; [lia|]. right. split_and!; [done|done|lia].
  - apply IH; [done|]. left. lia.
Qed.

(** Nothing but the content of a state stops the loop: its rounds suffice. *)
Theorem enter_states_ends v : length (config v) = N -> enter_states g v = None ->
  exists i v', to_enter g i v' = true /\ enter_state g i v' = None.
Proof. intros Hl. apply enter_loop_ends; [done|]. left. lia. Qed.

End Entering.

(** ** Machines without transitions *)

Section Spinning.
Context {E W : Type} {PC : PmlContent E W} (g : program).
Abbreviation N := (length (g_states g)).
Implicit Types v : Vars E W.

(** States are active, none of them a top-level final one. *)
Record spinning v : Prop := {
  sp_flags : length (flags v) = 6;
  sp_active : STATES_HAS_ANY (config v) = true;
  sp_running : flag CTX_FINISHED v = false;
  sp_found : flag CTX_TRANSITION_FOUND v = true;
  sp_spontaneous : flag CTX_SPONTANEOUS v = true;
}.

Lemma pml_forM_idle l (body : nat -> Vars E W -> option (Vars E W)) v :
  (forall i, body i v = Some v) -> pml_forM l body v = Some v.
Proof. intros Hb. induction l as [|i l IH]; [done|]. cbn [pml_forM]. by rewrite Hb. Qed.

Lemma at_copy_clear a b i : at_ (STATES_COPY a (STATES_CLEAR b)) i = false.
Proof.
  unfold at_, STATES_COPY, STATES_CLEAR. rewrite lookup_zip_with, list_lookup_fmap.
  destruct (a !! i); cbn; [|done]. by destruct (b !! i).
Qed.

Lemma pml_for_idle {A} lo hi (body : nat -> A -> A) a : (forall i, body i a = a) -> pml_for lo hi body a = a.
Proof. intros Hb. unfold pml_for. induction (seq lo (hi - lo)) as [|i l IH]; [done|]. cbn [foldl]. by rewrite Hb. Qed.

Lemma enter_loop_idle fuel : forall i v, (forall j, to_enter g j v = false) -> N - i < fuel -> enter_loop g fuel i v = Some v.
Proof.
  induction fuel as [|fuel IH]; intros i v Hno Hf; [lia|]. cbn [enter_loop].
  destruct (Nat.ltb_spec i N); [|done]. rewrite Hno. apply IH; [done|lia].
Qed.

(** Nothing is left or entered when no set has a member. *)
Lemma phases_idle v : (forall i, at_ (cx_exit_set (ctx v)) i = false) -> (forall i, at_ (cx_entry_set (ctx v)) i = false) ->
  exit_states g v = Some v /\ enter_states g v = Some v.
Proof.
  intros Hx He. split.
  - apply pml_forM_idle. intros i. unfold exit_state. by rewrite Hx.
  - apply enter_loop_idle; [|lia]. intros j. unfold to_enter. by rewrite He.
Qed.

Lemma entry_sets_idle conf h ex entry ts target : (forall i, at_ (STATES_COPY entry target) i = false) ->
  entry_sets g conf h ex entry ts target = (STATES_COPY entry target, ts).
Proof.
  intros Ha. unfold entry_sets. cbv zeta. rewrite (pml_for_idle _ _ (add_ancestors g)).
  - apply pml_for_idle. intros i. unfold descend. by rewrite Ha.
  - intros i. unfold add_ancestors. by rewrite Ha.
Qed.

Definition unchanged v v' : Prop := config v' = config v /\ iQ v' = iQ v /\ eQ v' = eQ v /\ rest v' = rest v.

Lemma spinning_step v : length (g_transitions g) = 0 -> spinning v ->
  exists v', step g v = Running v' /\ spinning v' /\ unchanged v v'.
Proof.
  intros HNT [Hl Ha Hr Hf Hs]. unfold step. rewrite Hr. unfold dequeue_event.
  set (v1 := set_flag CTX_DEQUEUE_EXTERNAL false v).
  assert (Hflag : forall f, flag f v1 = if f =? CTX_DEQUEUE_EXTERNAL then false else flag f v).
  { intros f. apply flag_set_flag. rewrite Hl. unfold CTX_DEQUEUE_EXTERNAL. lia. }
  rewrite Hflag. cbn [Nat.eqb CTX_SPONTANEOUS CTX_DEQUEUE_EXTERNAL]. rewrite Hs.
  set (v2 := set_event (with_name EVENT_SPONTANEOUS (_event v1)) v1).
  set (v3 := select_transitions g v2).
  assert (Hv3 : v3 = set_flag CTX_SPONTANEOUS true (clear_sets v2)).
  { unfold v3, select_transitions, find_transitions. rewrite HNT. cbn [Nat.ltb Nat.leb].
    change (config (clear_sets v2)) with (config v). rewrite Ha. cbn [negb].
    change (flag CTX_TRANSITION_FOUND (clear_sets v2)) with (flag CTX_TRANSITION_FOUND v1).
    rewrite Hflag. cbn [Nat.eqb CTX_TRANSITION_FOUND CTX_DEQUEUE_EXTERNAL]. by rewrite Hf. }
  assert (Hflag3 : forall f, flag f v3 = if f =? CTX_SPONTANEOUS then true else flag f v1).
  { intros f. rewrite Hv3, flag_set_flag; [done|]. cbn. rewrite length_insert, Hl. unfold CTX_SPONTANEOUS. lia. }
  assert (Hl3 : length (flags v3) = 6) by (rewrite Hv3; cbn; by rewrite !length_insert).
  assert (Hkeep : config v3 = config v /\ iQ v3 = iQ v /\ eQ v3 = eQ v /\ rest v3 = rest v) by by rewrite Hv3.
  unfold react. cbv zeta. fold v3. rewrite Hflag3. cbn [Nat.eqb CTX_TRANSITION_FOUND CTX_SPONTANEOUS].
  rewrite Hflag. cbn [Nat.eqb CTX_TRANSITION_FOUND CTX_DEQUEUE_EXTERNAL]. rewrite Hf.
  set (v4 := remember_history g v3).
  assert (Hv4 : flags v4 = flags v3 /\ config v4 = config v3 /\ iQ v4 = iQ v3 /\ eQ v4 = eQ v3 /\ rest v4 = rest v3 /\
    cx_exit_set (ctx v4) = cx_exit_set (ctx v3) /\ cx_target_set (ctx v4) = cx_target_set (ctx v3)).
  { unfold v4, remember_history.
    destruct (pml_for 0 N _ _) as [h tmp]. destruct (STATES_HAS_ANY (config v3)); split_and!; reflexivity. }
  destruct Hv4 as (Hf4 & Hc4 & Hi4 & He4 & Hr4 & Hx4 & Ht4).
  set (v5 := establish_entry_set g v4).
  assert (Hv5 : flags v5 = flags v4 /\ config v5 = config v4 /\ iQ v5 = iQ v4 /\ eQ v5 = eQ v4 /\ rest v5 = rest v4 /\
    (forall i, at_ (cx_exit_set (ctx v5)) i = false) /\ (forall i, at_ (cx_entry_set (ctx v5)) i = false)).
  { unfold v5, establish_entry_set. rewrite entry_sets_idle.
    - cbn. split_and!; try done; intros i; [rewrite Hx4, Hv3; apply at_clear|].
      rewrite Ht4, Hv3. apply at_copy_clear.
    - intros i. rewrite Ht4, Hv3. apply at_copy_clear. }
  destruct Hv5 as (Hf5 & Hc5 & Hi5 & He5 & Hr5 & Hx5 & Hn5).
  destruct (phases_idle v5 Hx5 Hn5) as [-> Hen]. cbn [mbind option_bind].
  assert (Htk : take_transitions g v5 = Some v5) by (unfold take_transitions; by rewrite HNT).
  rewrite Htk. cbn [mbind option_bind]. rewrite Hen. exists v5. split; [done|].
  assert (Hfl : forall f, flag f v5 = flag f v3) by (intros f; unfold flag; congruence).
  destruct Hkeep as (? & ? & ? & ?). split; [|unfold unchanged; split_and!; congruence].
  split; rewrite ?Hfl, ?Hflag3, ?Hflag; try done; congruence.
Qed.

(** C38: a machine without transitions that has entered a state other than a
    top-level final one runs on for ever, and takes no event from its queues:
    the flag that it has found a transition is reset with the transitions only. *)
Theorem no_transitions_spin k v : length (g_transitions g) = 0 -> spinning v ->
  exists v', rounds g k v = Running v' /\ spinning v' /\ unchanged v v'.
Proof.
  intros HNT. revert v. induction k as [|k IH]; intros v Hv; cbn [rounds]; [exists v; split; [done|]; split; [done|by repeat split]|].
  destruct (spinning_step v HNT Hv) as (v1 & -> & Hv1 & Hu). destruct (IH v1 Hv1) as (v2 & Hr & Hv2 & Hu2).
  exists v2. split; [done|]. split; [done|]. destruct Hu as (? & ? & ? & ?), Hu2 as (? & ? & ? & ?). unfold unchanged. split_and!; congruence.
Qed.

End Spinning.
