(* ===== verification/PmlTables.v ===== *)
(** * The emitted Promela program: its tables

    [ChartToPromela::writeStates] and [writeTransitions] print the attributes
    that [prepare] set, as [ChartToC] does. On a document without prefixes both
    transformers therefore print the same chart: what is shown of the micro
    stepper on the tables of the C program holds for those of the process. *)

From stdpp Require Import base list gmap strings.
From S2P Require Import Prelude Strings Data CBits Dom Predicates Chart CStep CTables MicroStep StepLemmas StepTheorems CEntry CTransform Trie Vhdl VhdlTheorems PmlQueue PmlAnalyzer PmlMachine PmlTheorems.

Local Open Scope nat_scope.

(** ** Rows *)

Lemma assigned_stands {A} (p : A -> bool) (l : list A) (X : gset nat) :
  (forall i, i ∈ X <-> exists x, l !! i = Some x /\ p x = true) ->
  stands (length l) (assigned (length l) (boolString p l)) X.
Proof.
  intros HX. split; [unfold assigned; by rewrite length_fmap, length_seq|]. apply bset_ext. intros i. rewrite HX.
  unfold assigned, at_. rewrite list_lookup_fmap. unfold boolString. rewrite explode_implode.
  destruct (decide (i < length l)) as [Hi|Hi].
  - rewrite lookup_seq_lt by done. cbn. rewrite bool_decide_eq_true, list_lookup_fmap.
    destruct (lookup_lt_is_Some_2 l i Hi) as [x Hx]. rewrite Hx. cbn. split.
    + intros [= H]. exists x. split; [done|]. by destruct (p x).
    + by intros (? & [= <-] & ->).
  - rewrite lookup_seq_ge by lia. cbn. split; [done|]. intros (x & Hx & _). apply lookup_lt_Some in Hx. lia.
Qed.

Lemma assigned_none (n : nat) : stands n (assigned n "") ∅.
Proof.
  split; [unfold assigned; by rewrite length_fmap, length_seq|]. apply bset_ext. intros i. unfold assigned, at_.
  rewrite list_lookup_fmap. split; [|set_solver]. by destruct (seq 0 n !! i).
Qed.

Lemma stands_iff n a (X Y : gset nat) : stands n a X -> (forall i, i ∈ X <-> i ∈ Y) -> stands n a Y.
Proof. intros H HX. by rewrite <- (set_eq X Y) in HX; subst. Qed.

(** ** Both transformers *)

Section Tables.
Context {node : Type} `{!EqDecision node} {D : DomOps node} {DL : DomLaws node}.
Context (scxml : node) (address : nat -> Z) (analyzer : Analyzer) (content_text : node -> string).
Notation states := (p_states scxml).
Notation transitions := (p_transitions scxml).
Context (Hpre : unprefixed) (Hroot : getLocalName scxml = "scxml"%string).
Context (g : program) (m : uscxml_machine (Handler node)).
Context (Hg : writeProgram scxml address analyzer = Some g) (Hm : writeMachineInfo content_text scxml = Some m).

Lemma writeProgram_fields :
  Forall2 (fun ie s => writeState scxml ie.1 ie.2 = Some s) (imap pair states) (g_states g) /\
  Forall2 (fun t r => writeTransition scxml t = Some r) transitions (g_transitions g) /\
  length (g_tests g) = length transitions.
Proof.
  pose proof Hg as H. unfold writeProgram in H. apply bind_Some in H as (ss & Hs & (ts & Ht & (us & Hu & [= <-])%bind_Some)%bind_Some).
  cbn [g_states g_transitions g_tests]. split_and!; [by apply mapM_Some|by apply mapM_Some|].
  apply mapM_Some, Forall2_length in Hu. done.
Qed.

Lemma pml_states_length : length (g_states g) = length states.
Proof. destruct writeProgram_fields as (HF & _). apply Forall2_length in HF. by rewrite <- HF, length_imap. Qed.

Lemma pml_transitions_length : length (g_transitions g) = length transitions.
Proof. destruct writeProgram_fields as (_ & HF & _). by apply Forall2_length in HF. Qed.

Lemma pml_state_row i e : states !! i = Some e -> exists r, state g i = r /\ writeState scxml i e = Some r.
Proof.
  intros He. destruct writeProgram_fields as (HF & _).
  destruct (Forall2_lookup_l _ _ _ i (i, e) HF) as (r & Hr & Hw); [apply imap_pair_lookup; eauto|].
  exists r. split; [unfold state; by rewrite Hr|done].
Qed.

Lemma pml_transition_row i t : transitions !! i = Some t -> exists r, trans g i = r /\ writeTransition scxml t = Some r.
Proof.
  intros Ht. destruct writeProgram_fields as (_ & HF & _). destruct (Forall2_lookup_l _ _ _ i t HF Ht) as (r & Hr & Hw).
  exists r. split; [unfold trans; by rewrite Hr|done].
Qed.

(** The type of a state, as a number and as an array. *)
Lemma types_agree i e : states !! i = Some e -> let t := p_state_type scxml e in
  state_is g STATE_PARALLEL i = (USCXML_STATE_MASK t =? USCXML_STATE_PARALLEL)%Z /\
  state_is g STATE_HISTORY_DEEP i = (USCXML_STATE_MASK t =? USCXML_STATE_HISTORY_DEEP)%Z /\
  state_is g STATE_HISTORY_SHALLOW i = (USCXML_STATE_MASK t =? USCXML_STATE_HISTORY_SHALLOW)%Z /\
  state_is g STATE_INITIAL i = (USCXML_STATE_MASK t =? USCXML_STATE_INITIAL)%Z /\
  state_is g STATE_COMPOUND i = (USCXML_STATE_MASK t =? USCXML_STATE_COMPOUND)%Z /\
  state_is g STATE_HAS_HISTORY i = has_flag t USCXML_STATE_HAS_HISTORY /\
  state_is g STATE_FINAL i = (USCXML_STATE_MASK t =? USCXML_STATE_FINAL)%Z /\
  state_is g STATE_ATOMIC i = (USCXML_STATE_MASK t =? USCXML_STATE_ATOMIC)%Z.
Proof.
  intros He. cbv zeta. destruct (pml_state_row i e He) as (r & Hr & Hw). unfold state_is. rewrite Hr.
  apply bind_Some in Hw as (p & _ & [= <-]). cbn [ps_type]. unfold type_bit, p_state_type.
  destruct (p_hasHistoryChild scxml e), (iequals (getTagName e) "initial"), (isFinal e), (isHistory e),
    (HAS_ATTR e "type" && iequals (ATTR e "type") "deep"), (isAtomic e), (isParallel e); split_and!; reflexivity.
Qed.

(** Parents of transitions are states, whose names are matched exactly. *)
Lemma parent_tag_exact t p name : t ∈ transitions -> getParentNode t = Some p -> name = "history"%string \/ name = "initial"%string ->
  iequals (getTagName p) name = String.eqb (getTagName p) name.
Proof.
  intros (q & Hq & Ht)%elem_of_flat_map Hp Hname. apply filterChildElements_elem in Ht as (Ht & _).
  apply dom_parent_child in Ht. assert (q = p) as -> by congruence. apply inPostFixOrder_elem in Hq as [Htag _].
  unfold tag_in in Htag. apply bool_decide_eq_true in Htag. unfold p_state_tags in Htag.
  destruct (unprefixed_prefix scxml Hpre scxml) as (Hx & _). rewrite Hx in Htag.
  repeat (apply elem_of_cons in Htag as [->|Htag]; [by destruct Hname as [-> | ->]|]). by apply elem_of_nil in Htag.
Qed.

(** The bits of the type of a transition, as a number and as an array. *)
Lemma kinds_agree t : t ∈ transitions ->
  let pt := p_transition_type t in
  let parentTag := match getParentNode t with Some p => getTagName p | None => ""%string end in
  negb (HAS_ATTR t "event") = has_flag pt USCXML_TRANS_SPONTANEOUS /\
  negb (HAS_ATTR t "target") = has_flag pt USCXML_TRANS_TARGETLESS /\
  String.eqb parentTag (XML_PREFIX t +:+ "history") = has_flag pt USCXML_TRANS_HISTORY /\
  String.eqb parentTag (XML_PREFIX t +:+ "initial") = has_flag pt USCXML_TRANS_INITIAL /\
  HAS_ATTR t "type" && iequals (ATTR t "type") "internal" = has_flag pt USCXML_TRANS_INTERNAL /\
  has_flag pt USCXML_TRANS_HISTORY || has_flag pt USCXML_TRANS_INITIAL =
    negb (Z.land pt (Z.lor USCXML_TRANS_HISTORY USCXML_TRANS_INITIAL) =? 0)%Z.
Proof.
  intros Ht. cbv zeta. destruct (unprefixed_prefix scxml Hpre t) as (-> & _). unfold p_transition_type.
  change ("" +:+ "history")%string with "history"%string. change ("" +:+ "initial")%string with "initial"%string.
  assert (Hex : forall name, name = "history"%string \/ name = "initial"%string ->
    let parentTag := match getParentNode t with Some p => getTagName p | None => ""%string end in
    String.eqb parentTag name = iequals parentTag name).
  { intros name Hname. cbv zeta. destruct (getParentNode t) as [p|] eqn:Ep; [symmetry; by eapply parent_tag_exact|].
    by destruct Hname as [-> | ->]. }
  rewrite !Hex by auto. cbv zeta.
  destruct (HAS_ATTR t "target"), (HAS_ATTR t "type" && iequals (ATTR t "type") "internal"), (HAS_ATTR t "event"),
    (iequals _ "history"), (iequals _ "initial"); split_and!; reflexivity.
Qed.

(** The rows of a transition in both tables. *)
Lemma transition_rows j t : transitions !! j = Some t -> exists s,
  c_transitions (tables m) !! j = Some (table_transition m j s) /\ t_type (table_transition m j s) = p_transition_type t /\
  pt_type (trans g j) = [negb (HAS_ATTR t "event"); negb (HAS_ATTR t "target"); HAS_ATTR t "type" && String.eqb (ATTR t "type") "internal";
    String.eqb (match getParentNode t with Some p => getTagName p | None => ""%string end) (XML_PREFIX t +:+ "history");
    String.eqb (match getParentNode t with Some p => getTagName p | None => ""%string end) (XML_PREFIX t +:+ "initial")].
Proof.
  intros Ht. destruct (writeMachineInfo_fields _ _ _ Hm) as (_ & _ & _ & _ & HFt & _).
  destruct (pml_transition_row j t Ht) as (r & Hr & Hw). destruct (Forall2_lookup_l _ _ _ j t HFt Ht) as (s & Hs & Hws).
  exists s. split; [by apply tables_transition|].
  destruct (writeTransition_spec scxml t s (p_states_nonempty scxml Hroot) Hws) as (Hsrc & Hty & _).
  unfold writeTransition in Hw. rewrite Hsrc in Hw. injection Hw as <-. by rewrite Hr.
Qed.

Lemma printed_alike : agrees g (tables m).
Proof.
  pose proof pml_states_length as HS. pose proof pml_transitions_length as HTr.
  destruct (writeMachineInfo_fields _ _ _ Hm) as (HN & HT & _ & HFs & HFt & _). pose proof (p_states_nonempty scxml Hroot) as Hne.
  assert (Hp : forall i e p, (if i =? 0 then Some 0 else getParentNode e ≫= p_index scxml) = Some p -> p < length states)
    by (intros; by eapply parent_in_range).
  split; rewrite ?HS, ?HTr.
  - unfold n_states. cbn. rewrite length_imap. by apply (states_length scxml content_text m).
  - unfold n_transitions. cbn. rewrite length_imap. by apply Forall2_length in HFt.
  - apply writeProgram_fields.
  - intros i Hi. destruct (lookup_lt_is_Some_2 _ _ Hi) as [e He].
    destruct (pml_state_row i e He) as (r & -> & Hw).
    destruct (table_of scxml content_text m Hm i e He) as (s & _ & Hws & -> & -> & -> & -> & _).
    apply writeState_spec in Hws as (Hsp & _ & _ & _ & _ & Hch & Hco & Han).
    unfold writeState in Hw. rewrite Hsp in Hw. injection Hw as <-. cbn [ps_children ps_completion ps_ancestors ps_parent].
    split_and!; [| | |done|by eapply Hp]; apply assigned_stands; intros j.
    + rewrite Hch. by setoid_rewrite bool_decide_eq_true.
    + rewrite Hco. by setoid_rewrite bool_decide_eq_true.
    + rewrite Han. by setoid_rewrite isDescendant_spec.
  - intros i Hi. destruct (lookup_lt_is_Some_2 _ _ Hi) as [e He].
    destruct (table_of scxml content_text m Hm i e He) as (s & _ & Hws & _ & _ & _ & _ & ->).
    apply writeState_spec in Hws as (_ & -> & _). destruct (types_agree i e He) as (? & ? & ? & ? & ? & ? & _). by split_and!.
  - intros j Hj. destruct (lookup_lt_is_Some_2 _ _ Hj) as [t Ht].
    destruct (pml_transition_row j t Ht) as (r & Hr & Hw).
    destruct (Forall2_lookup_l _ _ _ j t HFt Ht) as (s & Hs & Hws).
    exists (table_transition m j s). split; [by apply tables_transition|].
    destruct (writeTransition_spec scxml t s Hne Hws) as (Hsrc & Hty & _ & _ & _ & _ & Htg & Hex & Hcf).
    unfold writeTransition in Hw. rewrite Hsrc in Hw. injection Hw as <-. unfold is_pseudo_trans, trans_is. rewrite Hr.
    cbn [pt_source pt_target pt_type pt_conflicts pt_exit_set t_target t_exitSet t_conflicts t_source table_transition].
    rewrite HN, HT. split_and!.
    + unfold targetBools. destruct (HAS_ATTR t "target") eqn:Eh.
      * apply assigned_stands. intros k. rewrite Htg. naive_solver.
      * eapply stands_iff; [apply assigned_none|]. intros k. rewrite Htg. split; [set_solver|]. by intros (? & _ & _ & ?).
    + apply assigned_stands. intros k. rewrite Hex. by setoid_rewrite isMember_spec.
    + apply assigned_stands. intros k. apply Hcf.
    + done.
    + apply bind_Some in Hsrc as (x & _ & Hi). by eapply p_index_lt.
    + unfold MicroStep.pseudo_transition. cbn [t_type table_transition]. rewrite Hty.
      destruct (kinds_agree t) as (_ & _ & Hh & Hi & _ & <-); [by eapply list_elem_of_lookup_2|]. by rewrite <- Hh, <- Hi.
  - intros i Hi. destruct (lookup_lt_is_Some_2 _ _ Hi) as [e He].
    destruct (table_of scxml content_text m Hm i e He) as (s & _ & Hws & _ & _ & _ & _ & ->).
    apply writeState_spec in Hws as (_ & -> & _). by destruct (types_agree i e He) as (_ & _ & _ & _ & _ & _ & ?).
  - intros j t Ht. pose proof (lookup_lt_Some _ _ _ Ht) as Hj. fold (n_transitions (tables m)) in Hj.
    assert (n_transitions (tables m) = length transitions) as Hl
      by (unfold n_transitions; cbn; rewrite length_imap; by apply Forall2_length in HFt).
    rewrite Hl in Hj. destruct (lookup_lt_is_Some_2 _ _ Hj) as [e He]. destruct (transition_rows j e He) as (s & Hs & Hty & Hr).
    assert (t = table_transition m j s) as -> by congruence. rewrite Hty. unfold trans_is. rewrite Hr.
    destruct (kinds_agree e) as (? & ? & ? & ? & _); [by eapply list_elem_of_lookup_2|]. by split_and!.
Qed.

(** The Promela transformer compares the type of a transition exactly, the
    other one without regard to case. *)
Lemma internal_alike j t : transitions !! j = Some t -> exists r, c_transitions (tables m) !! j = Some r /\
  trans_is g TRANS_INTERNAL j = has_flag (t_type r) USCXML_TRANS_INTERNAL && String.eqb (ATTR t "type") "internal".
Proof.
  intros Ht. destruct (transition_rows j t Ht) as (s & Hs & Hty & Hr). exists (table_transition m j s). split; [done|].
  destruct (kinds_agree t) as (_ & _ & _ & _ & Hin & _); [by eapply list_elem_of_lookup_2|].
  rewrite Hty, <- Hin. unfold trans_is. rewrite Hr. change (at_ [_; _; ?b; _; _] TRANS_INTERNAL) with b.
  destruct (String.eqb_spec (ATTR t "type") "internal") as [->|_]; [by rewrite iequals_refl, !andb_true_r|by rewrite !andb_false_r].
Qed.

(** C8: for a document without prefixes the tables of the Promela process and
    those of the emitted C program say the same: the same children,
    completions, ancestors and parents of states, the same type of a state in
    each of its bits (parallel, deep and shallow history, initial, compound,
    final, atomic, with a history child), the same sources, targets, exit sets
    and conflicts of transitions, and the same bits of their types
    (spontaneous, targetless, of a history, initial). The bit of an internal
    transition, which the process never reads, is the same but for a type
    attribute that is "internal" in other letters only: there the C program
    has it and the process has not. *)
Theorem transformers_agree :
  agrees g (tables m) /\
  (forall j t, transitions !! j = Some t -> exists r, c_transitions (tables m) !! j = Some r /\
    trans_is g TRANS_INTERNAL j = has_flag (t_type r) USCXML_TRANS_INTERNAL && String.eqb (ATTR t "type") "internal").
Proof. split; [apply printed_alike|apply internal_alike]. Qed.

End Tables.
