(* ===== verification/PmlSample.v ===== *)
(** * The emitted Promela program on sample documents

    A document with a shallow history, on which a round of the process is
    followed next to the micro step of the interpreter, documents on which the
    process enters other states than the interpreter, and one without
    transitions. *)

From stdpp Require Import base list gmap strings.
From S2P Require Import Prelude Strings Data Effects CBits Dom Predicates Chart CStep CTables MicroStep StepLemmas StepTheorems Recorder CEntry CTransform CSample Trie Vhdl PmlQueue PmlAnalyzer PmlMachine PmlTheorems PmlTables PmlRound.

Local Open Scope nat_scope.

(** ** Content that does nothing *)

(** An event is its number. *)
#[local] Instance silent : PmlContent nat unit := {|
  name_of e := e;
  with_name n _ := n;
  cond_holds _ _ := true;
  cond_otherwise _ _ := false;
  execute _ v := Some (iQ v, eQ v, tt);
  done_event _ _ := None;
  has_invokers _ := false;
  uninvoke _ w := w;
  cancel_invoked _ w := w;
  remove_pending v := Some v;
  invoke _ _ := tt;
  forward_event v := Some tt;
  send_done v := Some tt;
  schedule := None;
|}.

#[local] Instance silent_laws : PmlContentLaws nat unit.
Proof. by split. Qed.

(** ** Printing a document *)

Definition printed (l : list row) : DomOps nat := p_resortStates (D := table_dom l) 0.

Definition analyzed (l : list row) : Analyzer :=
  default new_analyzer (analyze_events (D := printed l) ascii_upper 0 (p_states (D := printed l) 0) new_analyzer).

Definition promela (l : list row) : option program := writeProgram (D := printed l) 0 Z.of_nat (analyzed l).
Definition c_machine (l : list row) : option (uscxml_machine (Handler nat)) :=
  writeMachineInfo (D := printed l) (fun _ => ""%string) 0.

Lemma printed_agree l g m (DL : @DomLaws nat (table_dom l)) : unprefixed (D := printed l) ->
  getLocalName (DomOps := printed l) 0 = "scxml"%string -> promela l = Some g -> c_machine l = Some m -> agrees g (tables m).
Proof.
  intros Hpre Hroot Hg Hm.
  by apply (printed_alike (D := printed l) (DL := p_resorted_laws (table_dom l) (DL := DL) 0) 0 Z.of_nat (analyzed l) (fun _ => ""%string)).
Qed.

(** ** Charts that do not reach below children, as a check *)

Section Check.
Context (c : Chart nat).

Definition below_check : Prop :=
  Forall (fun i => Forall (fun y => ancestors_of c y ⊆ ancestors_of c i) (elements (ancestors_of c i)) /\
    Forall (fun k => ancestors_of c k ⊆ {[i]} ∪ ancestors_of c i) (elements (children_of c i)) /\
    ((USCXML_STATE_MASK (type_of c i) =? USCXML_STATE_PARALLEL)%Z = true \/
     (USCXML_STATE_MASK (type_of c i) =? USCXML_STATE_COMPOUND)%Z = true -> completion_of c i ⊆ children_of c i) /\
    Forall (fun y => (USCXML_STATE_MASK (type_of c y) =? USCXML_STATE_INITIAL)%Z = false) (elements (ancestors_of c i)) /\
    (is_history_type (type_of c i) = true ->
      Forall (fun j => has_flag (type_of c j) USCXML_STATE_HAS_HISTORY = false /\ ancestors_of c j ⊆ ancestors_of c i)
        (elements (completion_of c i)))) (seq 0 (n_states c)) /\
  Forall (fun j => is_pseudo_type (type_of c (source_of c j)) = true ->
    Forall (fun k => ancestors_of c k ⊆ ancestors_of c (source_of c j)) (elements (target_of c j))) (seq 0 (n_transitions c)).

(** What is behind the tables. *)
Lemma beyond_states i : n_states c <= i ->
  ancestors_of c i = ∅ /\ children_of c i = ∅ /\ completion_of c i = ∅ /\ type_of c i = 0%Z.
Proof.
  intros Hi. unfold ancestors_of, children_of, completion_of, type_of, state_set.
  by rewrite (proj2 (lookup_ge_None (c_states c) i)).
Qed.

Lemma beyond_transitions j : n_transitions c <= j -> target_of c j = ∅.
Proof. intros Hj. unfold target_of, trans_set. by rewrite (proj2 (lookup_ge_None (c_transitions c) j)). Qed.

Lemma below_checked history : below_check -> plain c history.
Proof.
  intros [Hs Ht]. rewrite Forall_forall in Hs.
  assert (Hrow : forall i, i < n_states c \/ n_states c <= i) by (intros; lia).
  assert (Hat : forall i, i < n_states c -> i ∈ seq 0 (n_states c)) by (intros; apply elem_of_seq; lia).
  split.
  - intros x y Hy. destruct (Hrow x) as [Hx|(He & _)%beyond_states]; [|rewrite He in Hy; set_solver].
    destruct (Hs x (Hat x Hx)) as (H & _). rewrite Forall_forall in H. apply H. by apply elem_of_elements.
  - intros i k Hk. destruct (Hrow i) as [Hi|(_ & He & _)%beyond_states]; [|rewrite He in Hk; set_solver].
    destruct (Hs i (Hat i Hi)) as (_ & H & _). rewrite Forall_forall in H. apply H. by apply elem_of_elements.
  - intros i Hty. destruct (Hrow i) as [Hi|(_ & _ & -> & _)%beyond_states]; [|set_solver].
    destruct (Hs i (Hat i Hi)) as (_ & _ & H & _). auto.
  - intros i Hty. destruct (Hrow i) as [Hi|(_ & _ & -> & _)%beyond_states]; [|set_solver].
    destruct (Hs i (Hat i Hi)) as (_ & _ & H & _). auto.
  - intros j Hps k Hk. destruct (decide (j < n_transitions c)) as [Hj|Hj].
    2:{ rewrite (beyond_transitions j) in Hk by lia. set_solver. }
    rewrite Forall_forall in Ht. specialize (Ht j). rewrite Forall_forall in Ht.
    apply Ht; [apply elem_of_seq; lia|done|by apply elem_of_elements].
  - intros i x Hty Hx. destruct (Hrow x) as [Hx'|(He & _)%beyond_states]; [|rewrite He in Hx; set_solver].
    destruct (Hs x (Hat x Hx')) as (_ & _ & _ & H & _). rewrite Forall_forall in H.
    specialize (H i ltac:(by apply elem_of_elements)). congruence.
  - intros i Hh _ j Hj. destruct (Hrow i) as [Hi|(_ & _ & He & _)%beyond_states]; [|rewrite He in Hj; set_solver].
    destruct (Hs i (Hat i Hi)) as (_ & _ & _ & _ & H). specialize (H Hh). rewrite Forall_forall in H.
    apply (H j). by apply elem_of_elements.
  - intros i x Hh Hx _. destruct (Hrow i) as [Hi|(_ & _ & He & _)%beyond_states]; [|rewrite He in Hx; set_solver].
    destruct (Hs i (Hat i Hi)) as (_ & _ & _ & _ & H). specialize (H Hh). rewrite Forall_forall in H.
    destruct (H x) as [_ Hsub]; [by apply elem_of_elements|]. set_solver.
Qed.

End Check.

(** ** A shallow history *)

Definition element (tag id : string) (content : list xml) : xml := Xml tag [("id", id)] [] content.
Definition goes (event target : string) : xml := Xml "transition" [("event", event); ("target", target)] [] [].
Definition initially (target : string) : xml := Xml "transition" [("target", target)] [] [].

Definition resume : list row := rows (Xml "scxml" [] []
  [element "state" "p" [element "history" "h" [initially "p1"];
     element "state" "p1" [goes "e" "p2"]; element "state" "p2" []; goes "f" "q"];
   element "state" "q" [goes "e" "h"]]).

Definition resume_program : program := Eval vm_compute in default (mkProgram [] [] []) (promela resume).
Definition resume_machine : uscxml_machine (Handler nat) :=
  Eval vm_compute in match c_machine resume with Some m => m | None => nested_machine end.
Definition resume_chart : Chart nat := tables resume_machine.

Lemma resume_unprefixed : unprefixed (D := printed resume).
Proof. done. Qed.

Lemma resume_printed : promela resume = Some resume_program.
Proof. by vm_compute. Qed.

Lemma resume_emitted : c_machine resume = Some resume_machine.
Proof. by vm_compute. Qed.

Lemma resume_agrees : agrees resume_program resume_chart.
Proof.
  exact (printed_agree resume resume_program resume_machine (table_laws resume eq_refl) resume_unprefixed eq_refl
    resume_printed resume_emitted).
Qed.

Lemma transformers_agree_witness :
  ps_ancestors (state resume_program 4) = [true; true; false; false; false; false] /\
  state_is resume_program STATE_ATOMIC 3 = true /\
  agrees resume_program (tables resume_machine) /\
  (forall j t, p_transitions (D := printed resume) 0 !! j = Some t -> exists r, c_transitions (tables resume_machine) !! j = Some r /\
    trans_is resume_program TRANS_INTERNAL j =
      has_flag (t_type r) USCXML_TRANS_INTERNAL && String.eqb (@ATTR nat (printed resume) t "type") "internal").
Proof.
  split; [done|]. split; [done|].
  exact (transformers_agree (D := printed resume) (DL := p_resorted_laws (table_dom resume) (DL := table_laws resume eq_refl) 0)
    0 Z.of_nat (analyzed resume) (fun _ => ""%string) resume_unprefixed eq_refl resume_program resume_machine
    resume_printed resume_emitted).
Defined.

Lemma resume_plain history : plain resume_chart history.
Proof. apply below_checked. apply (bool_decide_unpack _). by vm_compute. Qed.

(** In [q], with [p2] recorded, at an event "e". *)
Definition in_q : Vars nat unit :=
  set_flag CTX_SPONTANEOUS false (set_event 1 (set_history [false; false; false; false; true; false]
    (set_config [true; false; false; false; false; true] (start resume_program 7 0 tt)))).
Definition stepper_in_q : MicroState := mkMicroState 0 {[0; 5]} ∅ {[4]} {[0; 5]} ∅ false (external "e").

(** [mirrors] as a decidable check. *)
Definition same_tests (g : program) (c : Chart nat) (v : Vars nat unit) (ms : MicroState) : Prop :=
  Forall (fun jt => t_source jt.2 ∈ _configuration ms -> MicroStep.pseudo_transition jt.2 = false ->
    ((name_of (_event v) =? EVENT_SPONTANEOUS) && trans_is g TRANS_SPONTANEOUS jt.1 ||
     negb (name_of (_event v) =? EVENT_SPONTANEOUS) && negb (trans_is g TRANS_SPONTANEOUS jt.1)) && test_holds g jt.1 v =
    event_matches (CB := sample_recorder) (MicroStep._event ms) jt.2 && (String.eqb (t_cond jt.2) "" || true))
    (imap pair (c_transitions c)).

Lemma process_mirrors_checked (g : program) (c : Chart nat) v ms : vars_ok g v ->
  stands (length (g_states g)) (config v) (_configuration ms) -> stands (length (g_states g)) (history v) (_history ms) ->
  (name_of (_event v) =? EVENT_SPONTANEOUS) = negb (Event_bool (MicroStep._event ms)) ->
  same_tests g c v ms -> mirrors (CB := sample_recorder) g c (fun _ => true) v ms.
Proof.
  intros Hok Hc Hh Hp Ht. split; try done. intros j t Hj. unfold same_tests in Ht. rewrite Forall_forall in Ht.
  apply (Ht (j, t)), list_elem_of_lookup. exists j. apply VhdlTheorems.imap_pair_lookup. eauto.
Qed.

Lemma in_q_mirrors : mirrors (CB := sample_recorder) resume_program resume_chart (fun _ => true) in_q stepper_in_q.
Proof.
  apply process_mirrors_checked; [by split| | |done|apply (bool_decide_unpack _); by vm_compute];
    (split; [done|apply (bool_decide_unpack _); by vm_compute]).
Qed.

Lemma process_selects_witness :
  hoare_ms (fun ms => ms = stepper_in_q) (MicroStep.select_transitions (X := unit) (CB := sample_recorder) resume_chart)
    (fun sets _ => transSet sets = {[3]} /\ targetSet sets = {[2]}) (fun _ => True).
Proof.
  pose proof (process_selects (PC := silent) (PL := silent_laws) (CB := sample_recorder) (X := unit)
    resume_program resume_chart resume_agrees (fun _ => true) in_q stepper_in_q
    ltac:(by vm_compute; lia) ltac:(apply (bool_decide_unpack _); by vm_compute) in_q_mirrors (fun _ _ _ => eq_refl)) as H.
  cbv zeta in H. eapply hoare_ms_post; [exact H|]. clear H.
  intros sets _ (H1 & H2 & _). rewrite <- H1, <- H2. split; apply (bool_decide_unpack _); by vm_compute.
Defined.

Lemma process_entry_set_witness :
  establish_entryset resume_chart {[0; 5]} {[4]} {[5]} {[2]} {[3]} = ({[0; 1; 2; 4]}, {[3]}).
Proof.
  assert (Hst : forall n a (X : gset nat), length a = n -> bool_decide (bset a = X) = true -> stands n a X).
  { intros n a X Hn HX. split; [done|]. by apply bool_decide_eq_true in HX. }
  rewrite <- (process_entry_set resume_program resume_chart resume_agrees {[0; 5]} {[4]} {[5]} {[2]} {[3]}
    [true; false; false; false; false; true] [false; false; false; false; true; false]
    [false; false; false; false; false; true] [false; true; false; true; false; true]
    [false; false; false; true] [false; false; true; false; false; false]
    (resume_plain {[4]})); [|first [done|by apply Hst]..].
  apply (bool_decide_unpack _). by vm_compute.
Defined.

Definition resumed : Vars nat unit := Eval vm_compute in default in_q (react resume_program in_q).

Lemma process_round_refines_witness :
  hoare_ms (fun ms => ms = stepper_in_q) (select_and_step (X := unit) (CB := sample_recorder) resume_chart)
    (fun _ ms => _configuration ms = {[0; 1; 4]}) (fun _ => True).
Proof.
  assert (Hr : react resume_program in_q = Some resumed) by by vm_compute.
  refine (hoare_ms_post _ _ _ _ _ (process_round_refines (PC := silent) (PL := silent_laws) (CB := sample_recorder) (X := unit)
    resume_program resume_chart resume_agrees (fun _ => true) in_q resumed stepper_in_q
    ltac:(by vm_compute; lia) ltac:(apply (bool_decide_unpack _); by vm_compute) in_q_mirrors (fun _ _ _ => eq_refl)
    eq_refl (fun exits => resume_plain _) Hr) _).
  intros _ ms [<- _]. apply (bool_decide_unpack _). by vm_compute.
Defined.

(** ** Without transitions *)

Definition parked : list row := rows (Xml "scxml" [] [] [element "state" "p" []; element "state" "q" []]).
Definition parked_program : program := Eval vm_compute in default (mkProgram [] [] []) (promela parked).

(** An event waits in the external queue. *)
Definition parked_vars : Vars nat unit :=
  let v := start parked_program 7 0 tt in set_queues (iQ v) (mkChan 9 [1]) v.
Definition parked_in_p : Vars nat unit :=
  Eval vm_compute in match rounds parked_program 1 parked_vars with Running v => v | _ => parked_vars end.

Lemma no_transitions_spin_witness :
  rounds parked_program 1 parked_vars = Running parked_in_p /\
  exists v, rounds parked_program 1000 parked_in_p = Running v /\ len (eQ v) = 1.
Proof.
  split; [by vm_compute|].
  destruct (no_transitions_spin parked_program 1000 parked_in_p eq_refl ltac:(by split)) as (v & Hr & _ & _ & _ & Hq & _).
  exists v. split; [exact Hr|]. by rewrite Hq.
Defined.

(** ** Completions below the children

    A state whose attribute initial names a state further down: the ancestors
    between are added when the completion is a child, not when it is none, so
    that the process is in [b] without being in [a]; the stepper enters both. *)

Definition deep_initial : list row := rows (Xml "scxml" [] []
  [Xml "state" [("id", "p"); ("initial", "b")] [] [element "state" "a" [element "state" "b" [goes "e" "b"]]]]).

Definition active_states {W} (o : Outcome nat W) : option (list nat) :=
  match o with Running v | Waiting v => Some (elements (bset (config v))) | _ => None end.

Example deep_initial_skips_parent : exists g m,
  promela deep_initial = Some g /\ c_machine deep_initial = Some m /\
  active_states (rounds g 1 (start g 7 0 tt)) = Some [3; 1; 0] /\
  fst (establish_entryset (tables m) ∅ ∅ ∅ (completion_of (tables m) 0) ∅) = {[0; 1; 2; 3]}.
Proof. eexists _, _. split; [by vm_compute|]. split; [by vm_compute|]. split; [by vm_compute|]. apply (bool_decide_unpack _). by vm_compute. Qed.
